(* ===== verification/_CoqProject ===== *)
-Q . S2P
Prelude.v
RustStr.v
Utf8.v
TextOffsets.v
BTreeMap.v
RustPath.v
FileSystem.v
SeekSequence.v
PatchParser.v
PatchGrammar.v
ApplyPatch.v
Invocation.v
AbsolutePath.v
NormalPath.v
ExecPolicy.v
PolicyParser.v
Amend.v
Protocol.v
Permissions.v
Bash.v
CommandSafety.v
ExecApproval.v
Safety.v
TomlValue.v
Fingerprint.v
Requirements.v
ConfigLayers.v
ConfigLoader.v
RulesLoader.v
NetHost.v
NetPolicy.v
NetState.v
NetAddr.v
PermissionProfile.v
NetLoader.v
Tokio.v
ExecEnv.v
ToolApproval.v
NetApproval.v
SandboxTransform.v
PermissionGrants.v
Orchestrator.v
Snapshot.v
Shells.v
Runtimes.v
PatchTool.v
ShellTool.v
HeadTailBuffer.v
CollectOutput.v
OutputDelta.v
UnifiedExec.v
ExecTasks.v
Template.v
Truncate.v
History.v
ContextManager.v
Rollout.v
Substring.v
StreamText.v
InlineTag.v
TaggedLine.v
ToolCalls.v
HookOutput.v
Hooks.v
HookDiscovery.v
ToolDispatch.v
Sampling.v
SamplingRetry.v
Utf8Stream.v
AgentPath.v
AgentRegistry.v
Mailbox.v
Readiness.v
ParseCommand.v
TurnDiff.v
TextArea.v
Turns.v
TurnTasks.v
TurnRuns.v
TurnInputs.v
