(* ===== verification/Prelude.v ===== *)
(** * A model of the Codex agent's core logic

    The repository is the Codex coding agent; its implementation language is
    Rust, in the workspace [codex-rs]. An agent session keeps a transcript,
    sends it to a model, receives calls for tools (shell commands, patches),
    decides which of them need the user's approval, runs them, and records
    what they print. This library models the parts of that loop which compute:
    what a patch does to files, which commands are allowed, how calls are
    dispatched and answered, what the transcript holds, and how the record of a
    thread is replayed. Source paths below are
    relative to [codex-rs].

    ** Conventions

    A function that returns [Result] or can panic returns an [outcome] (this
    file): [Ok], [Err], [Panic] for a failed index, slice or [expect], and
    [OutOfFuel] for a loop whose recursion is not structural. Code with
    effects threads a state, [stm]. A [str] is the list of its Unicode scalar
    values; its length in bytes, slicing and the library functions on strings
    are in RustStr, those on paths (Unix) in RustPath. [usize] is 64 bits wide
    and a number of type [N]; additions are the saturating or the checked ones
    of the code. [i64] arithmetic panics or wraps as debug assertions are on
    or off. Code outside the repository (the operating system, Tree-sitter,
    PowerShell, Starlark, serde, shlex, the similar and image crates) is a
    type class with laws where the code relies on its behaviour, and a
    parameter elsewhere; each class has a concrete instance.

    ** Parts

    - Patches. SeekSequence models [apply-patch/src/seek_sequence.rs];
      PatchParser [parser.rs], which PatchGrammar compares with the grammar the
      source documents; ApplyPatch [lib.rs], over the interface
      [FileSystem] of the file of that name; Invocation [invocation.rs]. A
      patch text becomes hunks, a hunk the replacements of its chunks, and the
      hunks a sequence of effects on files. TurnDiff models what the patches of
      a turn changed ([core/src/turn_diff_tracker.rs]).
    - Policies. ExecPolicy models [execpolicy/src] (decision, rule, policy,
      executable_name); PolicyParser [parser.rs], the builtins a rules file
      calls; Amend [amend.rs], which appends rules to that file, over the
      interface [PolicyFiles]. AbsolutePath models [utils/absolute-path] over
      the interface [PathEnv].
    - Approval. Bash models [shell-command/src/bash.rs], which finds the plain
      commands of a script in its syntax tree; CommandSafety the lists of safe
      and dangerous commands; ParseCommand the summaries of a command that the
      user is shown ([parse_command.rs]); ExecApproval [core/src/exec_policy.rs], which
      joins both with a policy to say what a command needs before it runs.
      Protocol holds the types they share. Permissions models the file-system
      policies of [protocol/src/permissions.rs] over the interface [PermEnv];
      Safety [core/src/safety.rs], which decides whether a patch recognised by
      Invocation may be applied without asking.
    - Configuration. TomlValue models documents, their merging and overrides
      ([config/src/merge.rs], [overrides.rs]), over the sorted maps of BTreeMap;
      Fingerprint the versions of layers ([fingerprint.rs]); Requirements what
      administrators enforce ([constraint.rs], [config_requirements.rs],
      [requirements_exec_policy.rs]); ConfigLayers the stack of layers
      ([state.rs]); ConfigLoader the files, folders and trust it is gathered
      from ([core/src/config_loader]), with the path lemmas of NormalPath;
      RulesLoader the execution policy of a stack ([core/src/exec_policy.rs]),
      which joins the layers with PolicyParser and the requirements with
      ExecPolicy.
    - Network. NetHost models the hosts, addresses and domain patterns of
      [network-proxy/src/policy.rs] over interfaces of the glob and url crates;
      NetPolicy the settings and managed constraints ([config.rs],
      [state.rs]); NetAddr the listening addresses; NetState the state the
      proxy's tasks share, its reloads and updates, and the decision about a
      request ([runtime.rs], [network_policy.rs]). PermissionProfile compiles
      the profiles of the configuration ([core/src/config/permissions.rs]);
      NetLoader joins them, the layers and the execution policy into the state
      of the proxy ([core/src/network_proxy_loader.rs]).
    - Tools. Orchestrator models how a call of any tool is approved, attempted
      and retried ([core/src/tools/orchestrator.rs]), over the interface
      [ToolRuntime] of [core/src/tools/sandboxing.rs]; Runtimes gives its three
      instances ([core/src/tools/runtimes]). PatchTool and ShellTool are the
      handlers of patches and of shell commands ([core/src/tools/handlers]).
      What they share: ToolApproval, the keys and the cache of approvals;
      NetApproval, the reviews of network requests
      ([core/src/tools/network_approval.rs]); SandboxTransform, profiles of
      permissions, the policies they widen and the command line of a sandbox
      ([sandboxing/src]); PermissionGrants, the permissions a turn and a session
      are granted; ExecEnv, the environment of a command; Shells and Snapshot,
      the shells, their command lines and the script that sources a snapshot.
    - Calls and hooks. ToolCalls models what a call of the model is and how it
      is answered ([core/src/tools/context.rs], [router.rs], [parallel.rs]);
      ToolDispatch the guards, hooks and gate around its handler
      ([registry.rs]). HookDiscovery finds the hooks of the layers
      ([hooks/src/engine/discovery.rs]); HookOutput reads what they print
      ([output_parser.rs], [schema.rs]) and Hooks selects and runs them for each
      event ([hooks/src/events], [core/src/hook_runtime.rs]).
    - Requests. Sampling models a request to the model as steps that interleave:
      items of the stream, calls that end, outputs that are recorded
      ([core/src/codex.rs], [stream_events_utils.rs]), over an interface of the
      calls that ToolDispatch implements; SamplingRetry when a failed attempt is
      repeated. Template models the templates of prompts ([utils/template]).
    - Turns. Turns models the turn around the requests: the pending input of a
      session, the start, the end and the abort of tasks, the scheduler of
      pending work ([core/src/tasks], [core/src/state/turn.rs]) and the loop of
      [run_turn] ([core/src/codex.rs]), as steps of the submission loop, the
      tasks and the schedulers. TurnTasks holds what every step preserves, the
      tasks and the ledger of the input; TurnInputs what follows; TurnRuns runs
      that are computed.
    - Output. HeadTailBuffer models the buffer of a running command
      ([core/src/unified_exec/head_tail_buffer.rs]); OutputDelta the events its
      output is sent in ([async_watcher.rs]), with UTF-8 as in Utf8; UnifiedExec
      the store of running processes and the calls that share it
      ([process_manager.rs], [process.rs]), ExecTasks what the calls and the
      store hold while they interleave, and CollectOutput the loop by which a call
      waits for output, step by step beside the tasks it waits for; Truncate the shortening of text and
      tool output ([utils/string], [utils/output-truncation]).
    - Transcript. History models the items and their normalization
      ([core/src/context_manager/normalize.rs]); ContextManager the history of
      a thread ([history.rs]), the recognition of injected context and the
      token counts; Rollout the persisted record: positions of turns
      ([core/src/thread_rollout_truncation.rs]), local compaction
      ([core/src/compact.rs]) and reconstruction
      ([core/src/codex/rollout_reconstruction.rs]).
    - Agents. AgentPath models the names of agents
      ([protocol/src/agent_path.rs]); AgentRegistry the registry that bounds how
      many run and keeps their names apart ([core/src/agent/registry.rs]);
      Mailbox their messages ([mailbox.rs]); Readiness the flag that tasks wait
      for ([utils/readiness]), the last two over the channels of Tokio. Each is
      a step relation whose steps are the parts of the operations that run
      without interruption.
    - Streams. StreamText is the interface of incremental text parsers of
      [utils/stream-parser]; InlineTag and TaggedLine implement it with hidden
      tags, plans and assistant messages, and Utf8Stream feeds any of them from
      bytes. Substring holds the lemmas on searching they share.
    - Interface. TextArea models the text the user edits, with its elements,
      its kill buffer and its wrapped lines
      ([tui/src/bottom_pane/textarea.rs], [tui/src/wrapping.rs]), over
      TextOffsets, the byte offsets of a string, which Template shares.

    ** What the theorems show

    - Refinements. Applying hunks refines the abstract change of a store
      ([apply_hunks_refines]); the buffer refines the first and last bytes of
      its stream ([head_tail_buffer_refines]); the requirement of a command
      agrees with decisions stated on rules alone ([approval_requirement_spec],
      over [check_with_options_spec]); turn positions are those that survive
      the rollback markers ([fork_turns_spec]); the mailbox refines a queue
      ([mailbox_delivers]); the
      reverse scan of a rollout agrees with a forward replay
      ([reconstruct_history_spec]).
    - Round trips. A document of the patch grammar is read back as what it
      denotes, or refused where the parser does not follow the grammar
      ([parse_patch_grammar]), and a well-formed patch also inside a heredoc
      ([parse_patch_heredoc]); a diff whose edits are where the search of the
      code finds them gives back the new lines ([apply_diff_exact]); an amended policy file holds its
      lines ([append_allow_prefix_rule_spec]).
    - Invariants and safety. Calls and outputs stay paired
      ([normalize_history_spec], [remove_item_keeps_pairs]); sandbox roots
      stay within the file-system policy when no link is on the way to its entries
      ([writable_roots_sound]), and so do patches that are approved for the sandbox
      without asking, moves to hidden destinations aside
      ([approved_patch_contained]); a safe command is not
      dangerous ([known_safe_not_dangerous]).
    - Tools. A process starts only after an approving decision, a rule or a
      requirement that skips it, in the sandbox that was selected unless an
      approval lifts it ([attempts_are_authorised], [refusals_end_calls] for any
      tool; [patch_processes_are_authorised], [shell_processes_are_confined]);
      from the parameters of a shell tool down to its processes, a dangerous command
      is reviewed where the policy asks or its sandbox restricts it
      ([dangerous_commands_are_reviewed], over [dangerous_needs_approval]). Permissions beyond the policy of the turn
      were granted or justified ([preapproved_permissions_were_granted],
      [grants_are_the_answers]) and reach no further than their roots
      ([additional_permissions_scope]). Wrapping a command for a snapshot, or in
      a shell, does not change what runs ([wrapper_preserves_command],
      [scripts_of_shells_are_seen]).
    - Reviews of the network. In every interleaving of requests, a host is
      allowed only by a review ([allowed_requests_were_reviewed]), one at a time
      ([one_review_per_host]), and no request waits for nothing
      ([blocked_requests_wait_for_a_review], [waiters_get_the_decision]), unless
      a future is dropped.
    - Requests and calls. However a request interleaves, the transcript it
      leaves pairs calls and outputs, up to those given up
      ([sampling_keeps_pairs]); it ends ([sampling_request_ends]). A handler runs
      once, for a call it takes, after the hooks and the gate
      ([handler_runs_guarded]); a command is blocked exactly when a hook says so
      ([command_blocked_spec]), a turn goes on when one gives a reason
      ([stop_hooks_spec]); the hooks found are numbered, apart and runnable
      ([discovered_hooks_spec]). A template renders to the text of its tokens or
      to the first of its errors ([render_spec]).
    - Turns. However the submission loop, tasks and schedulers interleave,
      accepted input is held, recorded, refused or thrown away, the last only where
      starts overlap, a turn is taken from its tasks or a task is dropped while it
      finishes ([accepted_input_is_handled]), the tasks of a turn are alive, and one where
      starts do not overlap ([tasks_of_a_turn]), and where all rest, and no task was
      dropped while it reported, every turn was reported and no work waits
      ([quiescent_session]).
    - Running processes. However calls, interruptions and exits interleave, the
      store is bounded ([store_stays_bounded]), gives up its oldest entries
      ([prune_takes_the_oldest]) and no process is lost while ids in use are not
      drawn again and cleaning up is not interrupted
      ([running_processes_are_tracked]); each stage of a call brings it nearer its
      end ([every_call_ends]), and calls leave nothing but the entries of the store
      ([finished_calls_leave_nothing_over]). Collecting output misses none, waits
      only for what is to come and ends at its deadline ([output_collection]).
    - Configuration. A setting is that of the strongest enabled layer that
      mentions it, which is its origin ([effective_setting_iff],
      [origin_of_effective_setting]); gathered layers pass the checks of the
      stack ([loaded_layers_pass_checks]) and a project's settings count only
      when its folder is trusted ([project_setting_is_trusted]); whatever is set
      later, the fields keep what the requirements allow
      ([requirements_stay_enforced], [merged_requirements_spec]), and their
      rules bind every command ([required_rule_binds],
      [loaded_policy_keeps_requirements]).
    - Network. A host that the execution policy or the user denies is blocked
      ([forbidden_host_is_blocked], [denied_domain_is_blocked]); an allowed
      request goes to no denied and no local host ([allowed_requests_are_safe]);
      in every interleaving of reloads and updates the state keeps the managed
      constraints ([loaded_policy_stays_enforced]); comparing patterns is
      inclusion of the hosts they cover ([pattern_allows_iff]).
    - Interleavings of agents. The counter of the registry never exceeds its
      limit and is exact ([agents_within_limit], [no_slot_leaks]); paths are
      exclusive ([reserved_paths_exclusive]); posted mail wakes its reader
      ([waiter_is_woken]), a ready flag those who waited before
      ([registered_waiter_is_woken]).
    - Equivalences. What a stream shows and extracts does not depend on how it
      is cut into chunks ([inline_chunks_irrelevant], [assistant_message_spec]),
      even inside characters ([utf8_stream_decodes]), and is what a reading of
      the whole text gives ([tagged_stream_by_lines]).
    - What is shown. The summaries of a command show all its commands but listed
      harmless ones, and plain ones always ([parse_command_spec]); the diff of a
      turn is against what the files held before it, along their moves
      ([turn_diff_spec]). Keys never split an element of the text area, and only
      adding one puts the cursor into it ([keys_keep_elements_whole]), what they kill is
      yanked back ([yank_restores_kill]) and the cursor's line is drawn
      ([cursor_line_is_visible]).
    - Totality and bounds. Parsing, locating, applying, deciding, truncating,
      recording and rolling back return a result on every input of their
      theorem: no panic and enough fuel.
    - Deviations. These state what the code does where it departs from its
      comments: [move_to_self_deletes], [hidden_move_is_approved],
      [allow_rule_unsandboxes_script], [network_rule_reload],
      [rolled_back_checkpoint_loses_history], [wakeup_lost],
      [recorded_request_lost], [change_during_load_is_missed],
      [malformed_rules_drop_requirements], [untrusted_rules_are_loaded],
      [origins_keep_stale_paths], [powershell_key_ignores_arguments],
      [dropped_owner_strands_waiters], [additional_read_revokes_write],
      [on_failure_patch_widens_sandbox], [safe_name_runs_unasked],
      [cut_character_is_sent_in_pieces], [failed_preparation_keeps_its_id],
      [terminating_all_frees_ids_in_use], [unrecognised_error_is_dropped],
      [call_with_only_an_id_loses_its_output],
      [fatal_error_does_not_end_the_request], [stream_error_leaves_calls],
      [removing_files_is_shown_as_listing], [writing_commands_are_formatting],
      [cached_root_hides_inner_repository],
      [baselines_depend_on_the_order_of_the_map], [element_added_over_cursor],
      [missed_pause_spins], [last_chunk_is_left],
      [overlapping_starts_share_a_turn], [starting_turn_loses_mail],
      [interrupted_at_the_end_reports_twice], [finishing_task_aborts_itself],
      [input_steered_into_undo_is_not_sent], [compaction_is_retried_forever].

    ** Fuel

    The loops of PatchParser over the remaining lines take the number of lines
    as fuel: every round consumes a line ([parse_patch_total]). The walks of
    Bash over a syntax tree take the number of nodes ([word_only_commands_spec],
    [single_command_prefix_spec]); InlineTag's loop takes the length of the
    buffered text, from which every round removes a delimiter; the search for a shell's name the length of
    its path, which each round shortens ([detect_shell_type_total]). Draining a mailbox
    takes the length of its queue; subscribing to a readiness flag one more
    than the tokens held, which is enough to find a free one
    ([subscribe_grants]). Simplifying the commands of a script takes their
    number, widening a range over the elements it meets theirs; each round
    removes one or takes one in. A loop that other tasks can make run again, as the
    updates of the network policy, takes the list of its turns, each with what
    the others did; a turn without interference ends it
    ([quiet_turn_ends_update]). All other recursions are structural.

    ** What is not modelled

    The asynchronous session beyond its turns (its set-up, settings, services
    and events, the work of its compaction, review, undo and shell tasks), the
    wire of the model, processes and
    terminals, operating-system sandboxes, the interfaces (terminal except the
    text area, app server, MCP, SDKs), authentication and telemetry: input and output around
    the parts above. Of the tools, the processes, the answers of reviewers and
    users, identifiers, the back ends of zsh-fork, the arguments of Seatbelt,
    the JSON of keys and policies and the wildcard matcher are interfaces; the
    events sent to the user interface and the texts of results are left out. Of the configuration, the typed settings and their
    deserialization are parameters. Code for Windows or macOS only is left out,
    except the PowerShell safelist, which runs everywhere. Within the modelled
    files, diffs for display, the encoding of items as JSON and the LRU cache
    of image sizes are parameters or left out; each file says so. *)
From stdpp Require Export base list sorting numbers sets strings.
#[export] Set Warnings "-clear-no-such-hyp".

(** * Outcomes of fallible Rust code *)

(** The result of running a function that returns [Result<A, E>]: a value, an
    error value, a Rust panic (an index out of range, a failed [expect]), or
    the exhaustion of the fuel a loop was given. *)
Inductive outcome (E A : Type) : Type :=
| Ok (a : A)
| Err (e : E)
| Panic
| OutOfFuel.
Arguments Ok {E A} a.
Arguments Err {E A} e.
Arguments Panic {E A}.
Arguments OutOfFuel {E A}.

#[export] Instance outcome_ret {E} : MRet (outcome E) := fun A a => Ok a.
#[export] Instance outcome_bind {E} : MBind (outcome E) := fun A B f m =>
  match m with
  | Ok a => f a
  | Err e => Err e
  | Panic => Panic
  | OutOfFuel => OutOfFuel
  end.

(** A run that ends normally, with [Ok] or [Err]. *)
Definition returns {E A} (m : outcome E A) : Prop :=
  match m with Ok _ | Err _ => True | _ => False end.

Definition map_err {E F A} (f : E -> F) (m : outcome E A) : outcome F A :=
  match m with
  | Ok a => Ok a
  | Err e => Err (f e)
  | Panic => Panic
  | OutOfFuel => OutOfFuel
  end.

(** Lifting a computation that has no error case. *)
Definition no_err {E A} (m : outcome Empty_set A) : outcome E A :=
  map_err (λ e : Empty_set, match e with end) m.

(** * State with outcomes *)

(** A computation that threads a state and keeps the state it reached when it
    fails, as the code's effects do. *)
Definition stm (S E A : Type) : Type := S → S * outcome E A.
#[export] Instance stm_ret {S E} : MRet (stm S E) := fun A a s => (s, Ok a).
#[export] Instance stm_bind {S E} : MBind (stm S E) := fun A B f m s =>
  match m s with
  | (s', Ok a) => f a s'
  | (s', Err e) => (s', Err e)
  | (s', Panic) => (s', Panic)
  | (s', OutOfFuel) => (s', OutOfFuel)
  end.
Definition stm_lift {S E A} (m : outcome E A) : stm S E A := fun s => (s, m).
Definition stm_map_err {S E F A} (f : E → F) (m : stm S E A) : stm S F A :=
  fun s => let '(s', r) := m s in (s', map_err f r).

(** * Lists *)

(** [vec.insert(i, x)] panics beyond the end of the vector. *)
Definition vec_insert {E A} (i : nat) (x : A) (l : list A) : outcome E (list A) :=
  if i <=? length l then Ok (take i l ++ x :: drop i l) else Panic.
(** [vec.remove(i)], for an index already tested. *)
Definition vec_remove {A} (i : nat) (l : list A) : list A := take i l ++ drop (S i) l.

(** [vec.sort_by], which is stable, on a key. *)
Fixpoint insert_sorted {A} (key : A → nat) (x : A) (l : list A) : list A :=
  match l with
  | [] => [x]
  | y :: l' => if key x <=? key y then x :: l else y :: insert_sorted key x l'
  end.
Definition sort_by_key {A} (key : A → nat) (l : list A) : list A :=
  foldr (insert_sorted key) [] l.

Lemma stm_bind_Ok {S E A B} (m : stm S E A) (f : A → stm S E B) s s' b :
  (m ≫= f) s = (s', Ok b) → ∃ s1 a, m s = (s1, Ok a) ∧ f a s1 = (s', Ok b).
Proof.
  unfold mbind, stm_bind. destruct (m s) as [s1 [a|e| |]] eqn:E1; try done. eauto.
Qed.

Lemma stm_map_err_Ok {S E F A} (f : E → F) (m : stm S E A) s s' a :
  stm_map_err f m s = (s', Ok a) → m s = (s', Ok a).
Proof. unfold stm_map_err. destruct (m s) as [s1 [b|e| |]]; simpl; congruence. Qed.

Lemma insert_sorted_key_le {A} (key : A → nat) x l :
  StronglySorted (λ a b, key a ≤ key b) l →
  StronglySorted (λ a b, key a ≤ key b) (insert_sorted key x l).
Proof.
  induction l as [|y l IH]; intros Hs; simpl; [by repeat constructor|].
  apply StronglySorted_inv in Hs as [Hs Hall].
  destruct (Nat.leb_spec (key x) (key y)) as [Hle|Hlt].
  - constructor; [by constructor|]. constructor; [done|].
    eapply Forall_impl; [done|]. intros z Hz. simpl in Hz. lia.
  - constructor; [auto|].
    assert (Forall (λ z, key y ≤ key z) (x :: l)) as HF by (constructor; [lia|done]).
    clear -HF. induction l as [|z l IH]; simpl; [done|].
    destruct (key x <=? key z); [done|]. rewrite !Forall_cons in *. tauto.
Qed.

Lemma sort_by_key_sorted {A} (key : A → nat) l :
  StronglySorted (λ a b, key a ≤ key b) (sort_by_key key l).
Proof. induction l; simpl; [constructor|by apply insert_sorted_key_le]. Qed.

Lemma insert_sorted_perm {A} (key : A → nat) x l : insert_sorted key x l ≡ₚ x :: l.
Proof.
  induction l as [|y l IH]; simpl; [done|]. destruct (key x <=? key y); [done|].
  rewrite IH. by rewrite Permutation_swap.
Qed.

Lemma sort_by_key_perm {A} (key : A → nat) l : sort_by_key key l ≡ₚ l.
Proof. induction l as [|x l IH]; simpl; [done|]. by rewrite insert_sorted_perm, IH. Qed.

Lemma mapM_outcome_Ok {E A B} (f : A → outcome E B) l k :
  mapM f l = Ok k ↔ Forall2 (λ x y, f x = Ok y) l k.
Proof.
  revert k. induction l as [|x l IH]; intros k; cbn [mapM].
  { split; [by intros [= <-]|by inversion 1]. }
  unfold mbind, outcome_bind. destruct (f x) as [y|e| |] eqn:Ef;
    try (split; [done|]; inversion 1; congruence).
  destruct (mapM f l) as [ys|e| |] eqn:Em.
  2-4: split; [done|]; intros (? & ? & ? & HF & ->)%Forall2_cons_inv_l; apply IH in HF; done.
  split.
  - intros [= <-]. constructor; [done|]. by apply IH.
  - inversion 1 as [|? y' ? ys' Hy HF]; subst. apply IH in HF. unfold mret, outcome_ret. congruence.
Qed.

(** * Lists and outcomes, continued *)

Lemma map_err_Ok {E F A} (f : E → F) (m : outcome E A) a : map_err f m = Ok a ↔ m = Ok a.
Proof. destruct m; simpl; split; congruence. Qed.
Lemma map_err_returns {E F A} (f : E → F) (m : outcome E A) : returns (map_err f m) ↔ returns m.
Proof. by destruct m. Qed.
Lemma bind_Ok_inv {E A B} (m : outcome E A) (k : A → outcome E B) b :
  (m ≫= k) = Ok b → ∃ a, m = Ok a ∧ k a = Ok b.
Proof. destruct m; cbn; try done. eauto. Qed.
Lemma existsb_ext {A} (f g : A → bool) l : (∀ x, f x = g x) → existsb f l = existsb g l.
Proof. intros E. induction l as [|x l IH]; [done|]. simpl. by rewrite E, IH. Qed.
Lemma existsb_orb {A} (f g : A → bool) l : existsb (λ x, f x || g x) l = existsb f l || existsb g l.
Proof. induction l as [|x l IH]; [done|]. simpl. rewrite IH. destruct (f x), (g x), (existsb f l); done. Qed.
Lemma existsb_elem {A} (f : A → bool) l : existsb f l = true ↔ ∃ x, x ∈ l ∧ f x = true.
Proof. rewrite existsb_exists. by setoid_rewrite list_elem_of_In. Qed.
Lemma existsb_bind {A B} (f : B → bool) (g : A → list B) l :
  existsb f (l ≫= g) = existsb (λ x, existsb f (g x)) l.
Proof. induction l as [|x l IH]; [done|]. rewrite bind_cons, existsb_app, IH. done. Qed.
Lemma existsb_fmap {A B} (f : B → bool) (g : A → B) l : existsb f (g <$> l) = existsb (λ x, f (g x)) l.
Proof. induction l as [|x l IH]; [done|]. rewrite fmap_cons. cbn [existsb]. by rewrite IH. Qed.
Lemma existsb_false {A} (f : A → bool) l : (∀ x, x ∈ l → f x = false) → existsb f l = false.
Proof.
  intros H. destruct (existsb f l) eqn:E; [|done]. apply existsb_elem in E as (x & Hx & Hf).
  by rewrite H in Hf.
Qed.
Lemma filter_true {A} (P : A → Prop) `{∀ x, Decision (P x)} (l : list A) : (∀ x, x ∈ l → P x) → filter P l = l.
Proof.
  induction l as [|x l IH]; intros H'; [done|]. rewrite filter_cons_True by (apply H'; set_solver).
  f_equal. apply IH. set_solver.
Qed.
Lemma filter_false {A} (P : A → Prop) `{∀ x, Decision (P x)} (l : list A) : (∀ x, x ∈ l → ¬ P x) → filter P l = [].
Proof.
  induction l as [|x l IH]; intros H'; [done|]. rewrite filter_cons_False by (apply H'; set_solver).
  apply IH. set_solver.
Qed.
Lemma bind_keep {A} (f : A → bool) l : (∀ x, x ∈ l → f x = false) → (l ≫= λ x, if f x then [] else [x]) = l.
Proof.
  induction l as [|x l IH]; intros H; [done|]. simpl. rewrite (H x) by set_solver. simpl. f_equal.
  apply IH. set_solver.
Qed.
Lemma bind_bind {A B C} (f : A → list B) (g : B → list C) l :
  ((l ≫= f) ≫= g) = (l ≫= λ x, f x ≫= g).
Proof. induction l as [|x l IH]; [done|]. by rewrite !bind_cons, bind_app, IH. Qed.
Lemma last_elem {A} (l : list A) x : last l = Some x → x ∈ l.
Proof. intros [l' ->]%last_Some. apply elem_of_app. right. apply list_elem_of_here. Qed.
Lemma elem_of_concat {A} (x : A) ls : x ∈ concat ls ↔ ∃ l, l ∈ ls ∧ x ∈ l.
Proof.
  rewrite list_elem_of_In, in_concat. setoid_rewrite list_elem_of_In. done.
Qed.
Lemma removelast_snoc {A} (l : list A) x : removelast (l ++ [x]) = l.
Proof. apply removelast_last. Qed.
Lemma removelast_head {A} (x : A) l : l ≠ [] → removelast (x :: l) = x :: removelast l.
Proof. by destruct l. Qed.
Lemma head_app_option {A} (l k : list A) :
  head (l ++ k) = match head l with Some x => Some x | None => head k end.
Proof. by destruct l. Qed.
Lemma StronglySorted_app_snoc {A} (R : A → A → Prop) l x :
  StronglySorted R l → Forall (λ y, R y x) l → StronglySorted R (l ++ [x]).
Proof.
  induction l as [|y l IH]; intros Hs HF; simpl; [by repeat constructor|].
  apply StronglySorted_inv in Hs as [Hs Hall]. apply Forall_cons in HF as [Hy HF].
  constructor; [auto|]. apply Forall_app; auto.
Qed.
Lemma StronglySorted_reverse {A} (R : A → A → Prop) l :
  StronglySorted R l → StronglySorted (flip R) (reverse l).
Proof.
  induction 1 as [|x l Hs IH Hall]; [constructor|].
  rewrite reverse_cons. apply StronglySorted_app_snoc; [done|]. by apply Forall_reverse.
Qed.

(** Weights of the elements of a list. *)
Lemma sum_list_with_insert {A} (f : A → nat) l i a b :
  l !! i = Some a → sum_list_with f (<[i := b]> l) + f a = sum_list_with f l + f b.
Proof.
  intros Hi. rewrite (insert_take_drop _ _ _ (lookup_lt_Some _ _ _ Hi)).
  rewrite <-(take_drop_middle _ _ _ Hi) at 3. rewrite !sum_list_with_app. simpl. lia.
Qed.
Lemma sum_list_with_perm {A} (f : A → nat) l k : l ≡ₚ k → sum_list_with f l = sum_list_with f k.
Proof. induction 1; simpl; lia. Qed.
Lemma sum_list_with_replicate {A} (f : A → nat) n a : sum_list_with f (replicate n a) = n * f a.
Proof. induction n; simpl; lia. Qed.

(** * Machine integers *)

(** [usize] on a 64-bit target; additions and products written with the
    saturating methods of the standard library. [saturating_sub] is the
    subtraction of [N]. *)
Definition USIZE_MAX : N := 18446744073709551615.
Definition saturating_add (a b : N) : N := N.min (a + b) USIZE_MAX.
Definition saturating_mul (a b : N) : N := N.min (a * b) USIZE_MAX.

Definition len {A} (l : list A) : N := N.of_nat (length l).
Definition takeN {A} (n : N) (l : list A) : list A := take (N.to_nat n) l.
Definition dropN {A} (n : N) (l : list A) : list A := drop (N.to_nat n) l.
(** The last [n] elements. *)
Definition lastn {A} (n : N) (l : list A) : list A := dropN (len l - n) l.

Lemma len_app {A} (l k : list A) : len (l ++ k) = (len l + len k)%N.
Proof. unfold len. rewrite length_app. lia. Qed.
Lemma len_takeN {A} n (l : list A) : len (takeN n l) = N.min n (len l).
Proof. unfold len, takeN. rewrite length_take. lia. Qed.
Lemma len_dropN {A} n (l : list A) : len (dropN n l) = (len l - n)%N.
Proof. unfold len, dropN. rewrite length_drop. lia. Qed.
Lemma len_lastn {A} n (l : list A) : len (lastn n l) = N.min n (len l).
Proof. unfold lastn. rewrite len_dropN. lia. Qed.
Lemma len_nil {A} (l : list A) : len l = 0%N ↔ l = [].
Proof. unfold len. destruct l; simpl; split; (done || lia). Qed.
Lemma takeN_dropN {A} n (l : list A) : takeN n l ++ dropN n l = l.
Proof. apply take_drop. Qed.
Lemma takeN_ge {A} n (l : list A) : (len l ≤ n)%N → takeN n l = l.
Proof. unfold len, takeN. intros. apply take_ge. lia. Qed.
Lemma dropN_ge {A} n (l : list A) : (len l ≤ n)%N → dropN n l = [].
Proof. unfold len, dropN. intros. apply drop_ge. lia. Qed.
Lemma lastn_all {A} n (l : list A) : (len l ≤ n)%N → lastn n l = l.
Proof. intros. unfold lastn. by replace (len l - n)%N with 0%N by lia. Qed.
Lemma takeN_app_le {A} n (l k : list A) : (n ≤ len l)%N → takeN n (l ++ k) = takeN n l.
Proof. unfold len, takeN. intros. apply take_app_le. lia. Qed.
Lemma takeN_app_ge {A} n (l k : list A) : (len l ≤ n)%N → takeN n (l ++ k) = l ++ takeN (n - len l) k.
Proof.
  unfold len, takeN. intros. rewrite take_app_ge by lia. do 2 f_equal. lia.
Qed.
Lemma dropN_app_le {A} n (l k : list A) : (n ≤ len l)%N → dropN n (l ++ k) = dropN n l ++ k.
Proof. unfold len, dropN. intros. apply drop_app_le. lia. Qed.
Lemma dropN_app_ge {A} n (l k : list A) : (len l ≤ n)%N → dropN n (l ++ k) = dropN (n - len l) k.
Proof. unfold len, dropN. intros. rewrite drop_app_ge by lia. f_equal. lia. Qed.
Lemma dropN_dropN {A} n m (l : list A) : dropN n (dropN m l) = dropN (m + n) l.
Proof. unfold dropN. rewrite drop_drop. f_equal. lia. Qed.

(** Keeping the last elements of a stream, chunk by chunk. *)
Lemma lastn_app_ge {A} n (l k : list A) : (n ≤ len k)%N → lastn n (l ++ k) = lastn n k.
Proof.
  intros. unfold lastn. rewrite len_app, dropN_app_ge by lia. f_equal. lia.
Qed.
Lemma lastn_app_lastn {A} n (l k : list A) : lastn n (l ++ k) = lastn n (lastn n l ++ k).
Proof.
  destruct (N.le_gt_cases n (len k)).
  - by rewrite !lastn_app_ge.
  - unfold lastn at 1 2. rewrite !len_app, len_lastn, !dropN_app_le by (rewrite ?len_lastn; lia).
    unfold lastn. rewrite dropN_dropN. do 2 f_equal. lia.
Qed.

(** [Option::is_some], and [Option::or_else] on a computed alternative. *)
Definition is_some {A} (o : option A) : bool := match o with Some _ => true | None => false end.
Definition or_else {A} (o f : option A) : option A := match o with Some a => Some a | None => f end.
(** [iter().find_map(..)]. *)
Fixpoint find_map {A B} (f : A → option B) (l : list A) : option B :=
  match l with
  | [] => None
  | x :: l' => match f x with Some y => Some y | None => find_map f l' end
  end.

(** * Automation *)

(** Runs the binds whose first computation is a value. *)
Ltac run_bind := cbn [mbind outcome_bind].

(** Decides the numeric tests of the goal that [lia] can decide. *)
Ltac cmp_lia :=
  repeat match goal with
  | |- context [(?a <=? ?b)%N] =>
      first [rewrite (proj2 (N.leb_le a b)) by lia | rewrite (proj2 (N.leb_gt a b)) by lia]
  | |- context [(?a <? ?b)%N] =>
      first [rewrite (proj2 (N.ltb_lt a b)) by lia | rewrite (proj2 (N.ltb_ge a b)) by lia]
  | |- context [(?a =? ?b)%N] =>
      first [rewrite (proj2 (N.eqb_eq a b)) by lia | rewrite (proj2 (N.eqb_neq a b)) by lia]
  | |- context [?a <=? ?b] =>
      first [rewrite (proj2 (Nat.leb_le a b)) by lia | rewrite (proj2 (Nat.leb_gt a b)) by lia]
  | |- context [?a =? ?b] =>
      first [rewrite (proj2 (Nat.eqb_eq a b)) by lia | rewrite (proj2 (Nat.eqb_neq a b)) by lia]
  end.

(** Lengths of lists built from others. *)
Create Rewrite HintDb len.
#[export] Hint Rewrite @len_app @len_takeN @len_dropN @len_lastn : len.
