(* ===== verification/RustStr.v ===== *)
(** Rust strings as the program uses them: a [str] is the list of its Unicode
    scalar values, its length in bytes is the sum of their UTF-8 widths, and
    the standard-library operations the sources call ([trim], [lines],
    [split], [strip_prefix], [starts_with], [find], [join], ...) are functions
    on such lists. *)
From stdpp Require Import pretty.
From Stdlib Require Import Ascii NArith.
From S2P Require Import Prelude.

Abbreviation str := (list N).

(** An ASCII literal of the source. *)
Definition lit (s : string) : str := N_of_ascii <$> String.list_ascii_of_string s.
#[global] Arguments lit : simpl never.

(** [n.to_string()] of an unsigned integer. *)
Definition show_nat (n : nat) : str := lit (pretty n).
Definition show_N (n : N) : str := lit (pretty n).

Definition nl : N := 10.
Definition cr : N := 13.

(** [char::is_whitespace]: the Unicode [White_Space] property. *)
Definition is_whitespace (c : N) : bool :=
  ((9 <=? c) && (c <=? 13) || (c =? 32) || (c =? 133) || (c =? 160)
   || (c =? 5760) || (8192 <=? c) && (c <=? 8202) || (c =? 8232) || (c =? 8233)
   || (c =? 8239) || (c =? 8287) || (c =? 12288))%N.

Definition is_ascii_digit (c : N) : bool := ((48 <=? c) && (c <=? 57))%N.
Definition is_ascii_uppercase (c : N) : bool := ((65 <=? c) && (c <=? 90))%N.
Definition is_ascii_lowercase (c : N) : bool := ((97 <=? c) && (c <=? 122))%N.
Definition is_ascii_alphanumeric (c : N) : bool :=
  is_ascii_digit c || is_ascii_uppercase c || is_ascii_lowercase c.
Definition to_ascii_lowercase_char (c : N) : N :=
  if is_ascii_uppercase c then (c + 32)%N else c.
Definition to_ascii_lowercase (s : str) : str := to_ascii_lowercase_char <$> s.

(** UTF-8 width of a scalar value ([char::len_utf8]) and byte length of a
    string ([str::len]). *)
Definition len_utf8 (c : N) : N :=
  if (c <? 128)%N then 1 else if (c <? 2048)%N then 2
  else if (c <? 65536)%N then 3 else 4.
Fixpoint str_len (s : str) : N :=
  match s with [] => 0 | c :: s' => len_utf8 c + str_len s' end.

(** [&s[..n]] and [&s[n..]] panic when [n] is not the start of a scalar value
    or beyond the end. *)
Fixpoint slice_to {E} (n : N) (s : str) : outcome E str :=
  if (n =? 0)%N then Ok []
  else match s with
       | [] => Panic
       | c :: s' => if (len_utf8 c <=? n)%N
                    then t ← slice_to (n - len_utf8 c) s'; Ok (c :: t) else Panic
       end.
Fixpoint slice_from {E} (n : N) (s : str) : outcome E str :=
  if (n =? 0)%N then Ok s
  else match s with
       | [] => Panic
       | c :: s' => if (len_utf8 c <=? n)%N then slice_from (n - len_utf8 c) s' else Panic
       end.

(** Trimming. *)
Fixpoint trim_start_matches (p : N -> bool) (s : str) : str :=
  match s with
  | [] => []
  | c :: s' => if p c then trim_start_matches p s' else s
  end.
Definition trim_end_matches (p : N -> bool) (s : str) : str :=
  reverse (trim_start_matches p (reverse s)).
Definition trim_start : str -> str := trim_start_matches is_whitespace.
Definition trim_end : str -> str := trim_end_matches is_whitespace.
Definition trim (s : str) : str := trim_end (trim_start s).

(** Prefixes and suffixes. *)
Fixpoint strip_prefix (p s : str) : option str :=
  match p, s with
  | [], _ => Some s
  | a :: p', b :: s' => if (a =? b)%N then strip_prefix p' s' else None
  | _ :: _, [] => None
  end.
Definition starts_with (p s : str) : bool :=
  match strip_prefix p s with Some _ => true | None => false end.
Definition strip_suffix (p s : str) : option str :=
  reverse <$> strip_prefix (reverse p) (reverse s).
Definition ends_with (p s : str) : bool := starts_with (reverse p) (reverse s).

(** [s.split(c)] on a character: never empty. *)
Fixpoint split_char (c : N) (s : str) : list str :=
  match s with
  | [] => [[]]
  | x :: s' =>
      if (x =? c)%N then [] :: split_char c s'
      else match split_char c s' with
           | [] => [[x]]
           | p :: ps => (x :: p) :: ps
           end
  end.

(** [s.split_once(c)] and [s.rsplit_once(c)]. *)
Fixpoint split_once (c : N) (s : str) : option (str * str) :=
  match s with
  | [] => None
  | x :: s' =>
      if (x =? c)%N then Some ([], s')
      else match split_once c s' with
           | Some (a, b) => Some (x :: a, b)
           | None => None
           end
  end.
Definition rsplit_once (c : N) (s : str) : option (str * str) :=
  match split_once c (reverse s) with
  | Some (a, b) => Some (reverse b, reverse a)
  | None => None
  end.

(** [s.lines()]: pieces ended by a line feed, each without a final carriage
    return when the line feed was there; no empty piece after the last one. *)
Definition strip_cr (l : str) : str :=
  match strip_suffix [cr] l with Some l' => l' | None => l end.
Fixpoint lines_of_pieces (ps : list str) : list str :=
  match ps with
  | [] => []
  | [p] => if decide (p = []) then [] else [p]
  | p :: ps' => strip_cr p :: lines_of_pieces ps'
  end.
Definition lines (s : str) : list str := lines_of_pieces (split_char nl s).

(** [l.join(sep)]. *)
Fixpoint join (sep : str) (l : list str) : str :=
  match l with
  | [] => []
  | [x] => x
  | x :: l' => x ++ sep ++ join sep l'
  end.

(** [s.find(needle)], as the number of scalar values before the first match. *)
Fixpoint find (needle s : str) : option nat :=
  if starts_with needle s then Some 0
  else match s with
       | [] => None
       | _ :: s' => S <$> find needle s'
       end.
Definition contains (needle s : str) : bool :=
  match find needle s with Some _ => true | None => false end.
Definition contains_char (c : N) (s : str) : bool := existsb (N.eqb c) s.

(** * Lemmas *)

Create HintDb str discriminated.

Lemma strip_prefix_Some p s t : strip_prefix p s = Some t ↔ s = p ++ t.
Proof.
  revert s. induction p as [|a p IH]; intros s; simpl; [split; congruence|].
  destruct s as [|b s]; simpl; [split; congruence|].
  destruct (N.eqb_spec a b) as [->|Hne]; [rewrite IH|]; split; congruence.
Qed.

Lemma strip_prefix_app p s : strip_prefix p (p ++ s) = Some s.
Proof. by apply strip_prefix_Some. Qed.

Lemma starts_with_spec p s : starts_with p s = true ↔ ∃ t, s = p ++ t.
Proof.
  unfold starts_with. destruct (strip_prefix p s) as [t|] eqn:E.
  - apply strip_prefix_Some in E as ->. naive_solver.
  - split; [done|]. intros [t ->]. by rewrite strip_prefix_app in E.
Qed.

Lemma strip_prefix_None p s : strip_prefix p s = None ↔ starts_with p s = false.
Proof. unfold starts_with. by destruct (strip_prefix p s). Qed.

Lemma strip_suffix_Some p s t : strip_suffix p s = Some t ↔ s = t ++ p.
Proof.
  unfold strip_suffix. rewrite fmap_Some. split.
  - intros (u & Hu & ->). apply strip_prefix_Some in Hu.
    rewrite <-(reverse_involutive s), Hu, reverse_app. by rewrite !reverse_involutive.
  - intros ->. exists (reverse t). rewrite reverse_involutive. split; [|done].
    apply strip_prefix_Some. by rewrite reverse_app.
Qed.

Lemma ends_with_spec p s : ends_with p s = true ↔ ∃ t, s = t ++ p.
Proof.
  unfold ends_with. rewrite starts_with_spec. split; intros [t Ht].
  - exists (reverse t). rewrite <-(reverse_involutive s), Ht, reverse_app.
    by rewrite reverse_involutive.
  - exists (reverse t). by rewrite Ht, reverse_app.
Qed.

Lemma trim_start_matches_id p c s : p c = false → trim_start_matches p (c :: s) = c :: s.
Proof. intros H. simpl. by rewrite H. Qed.

Lemma trim_end_matches_snoc p c s : p c = false → trim_end_matches p (s ++ [c]) = s ++ [c].
Proof.
  intros H. unfold trim_end_matches. rewrite reverse_snoc, trim_start_matches_id by done.
  by rewrite reverse_cons, reverse_involutive.
Qed.

(** A string whose first and last characters are not white space is its own trim. *)
Lemma trim_id c d s :
  is_whitespace c = false → is_whitespace d = false → trim (c :: s ++ [d]) = c :: s ++ [d].
Proof.
  intros Hc Hd. unfold trim, trim_start, trim_end.
  rewrite trim_start_matches_id by done.
  rewrite (app_comm_cons s [d] c). by apply trim_end_matches_snoc.
Qed.

(** Trimming at the start, then at the end, where the start is already trimmed. *)
Lemma trim_app_start c p s :
  is_whitespace c = false → trim (c :: p ++ s) = trim_end (c :: p ++ s).
Proof. intros Hc. unfold trim, trim_start. by rewrite trim_start_matches_id. Qed.

Lemma trim_start_matches_app p s t :
  trim_start_matches p s ≠ [] → trim_start_matches p (s ++ t) = trim_start_matches p s ++ t.
Proof. induction s as [|c s IH]; simpl; [done|]. destruct (p c); [done|done]. Qed.

Lemma trim_end_app_nonempty s t : trim_end t ≠ [] → trim_end (s ++ t) = s ++ trim_end t.
Proof.
  intros H. unfold trim_end, trim_end_matches in *. rewrite reverse_app.
  rewrite trim_start_matches_app.
  - by rewrite reverse_app, reverse_involutive.
  - intros E. by rewrite E in H.
Qed.

Lemma split_char_not_nil c s : split_char c s ≠ [].
Proof. destruct s as [|x s]; simpl; [done|]. destruct (x =? c)%N, (split_char c s); done. Qed.

Lemma split_char_app c l s :
  c ∉ l → split_char c (l ++ c :: s) = l :: split_char c s.
Proof.
  induction l as [|x l IH]; intros Hin; simpl.
  - by rewrite N.eqb_refl.
  - destruct (N.eqb_spec x c) as [->|]; [set_solver|]. rewrite IH by set_solver. done.
Qed.

Lemma split_char_single c l : c ∉ l → split_char c l = [l].
Proof.
  induction l as [|x l IH]; intros Hin; simpl; [done|].
  destruct (N.eqb_spec x c) as [->|]; [set_solver|]. rewrite IH; [done|set_solver].
Qed.

Lemma split_char_join c ls :
  ls ≠ [] → Forall (λ l, c ∉ l) ls → split_char c (join [c] ls) = ls.
Proof.
  induction ls as [|l ls IH]; intros Hne HF; [done|].
  apply Forall_cons in HF as [Hl HF]. destruct ls as [|l' ls]; [by apply split_char_single|].
  change (join [c] (l :: l' :: ls)) with (l ++ c :: join [c] (l' :: ls)).
  rewrite split_char_app by done. by rewrite IH.
Qed.

Lemma strip_cr_id l : last l ≠ Some cr → strip_cr l = l.
Proof.
  intros H. unfold strip_cr. destruct (strip_suffix [cr] l) as [t|] eqn:E; [|done].
  apply strip_suffix_Some in E as ->. by rewrite last_snoc in H.
Qed.

(** A line that [lines] gives back unchanged. *)
Definition plain_line (l : str) : Prop := (nl ∉ l) ∧ last l ≠ Some cr.

Lemma lines_of_pieces_plain ls :
  Forall plain_line ls → last ls ≠ Some [] → lines_of_pieces ls = ls.
Proof.
  induction ls as [|l ls IH]; intros HF Hlast; [done|].
  apply Forall_cons in HF as [[Hnl Hcr] HF]. destruct ls as [|l' ls].
  - simpl in *. case_decide; [by subst|done].
  - change (strip_cr l :: lines_of_pieces (l' :: ls) = l :: l' :: ls).
    by rewrite strip_cr_id, IH.
Qed.

Lemma lines_join ls :
  ls ≠ [] → Forall plain_line ls → last ls ≠ Some [] → lines (join [nl] ls) = ls.
Proof.
  intros Hne HF Hlast. unfold lines. rewrite split_char_join; [|done|].
  - by apply lines_of_pieces_plain.
  - eapply Forall_impl; [done|]. by intros l [? _].
Qed.

Lemma join_cons sep l ls : ls ≠ [] → join sep (l :: ls) = l ++ sep ++ join sep ls.
Proof. by destruct ls. Qed.

Lemma join_snoc sep ls l : ls ≠ [] → join sep (ls ++ [l]) = join sep ls ++ sep ++ l.
Proof.
  induction ls as [|a ls IH]; intros H; [done|].
  destruct ls as [|b ls]; [done|]. rewrite <-app_comm_cons, !join_cons by done.
  rewrite IH by done. by rewrite <-!app_assoc.
Qed.


Lemma plain_line_app p l : nl ∉ p → last p ≠ Some cr → plain_line l → plain_line (p ++ l).
Proof.
  intros Hp Hc [Hl Hlc]. split; [rewrite elem_of_app; tauto|].
  rewrite last_app. destruct (last l) eqn:E; [congruence|done].
Qed.

Lemma plain_line_closed l :
  bool_decide ((nl ∉ l) ∧ last l ≠ Some cr) = true → plain_line l.
Proof. intros H. by apply bool_decide_eq_true in H. Qed.

Lemma trim_head_not_nil c s : is_whitespace c = false → trim (c :: s) ≠ [].
Proof.
  intros H E. assert (c ∈ trim (c :: s)) as Hin; [|by rewrite E in Hin; apply not_elem_of_nil in Hin].
  clear E. unfold trim, trim_start. rewrite trim_start_matches_id by done.
  unfold trim_end, trim_end_matches. rewrite reverse_cons. apply elem_of_reverse.
  induction (reverse s) as [|d t IH]; simpl; [rewrite H; set_solver|].
  destruct (is_whitespace d); [done|set_solver].
Qed.

(** The pieces of a string hold characters of the string. *)
Lemma trim_start_matches_incl p s x : x ∈ trim_start_matches p s → x ∈ s.
Proof.
  induction s as [|c s IH]; simpl; [done|]. destruct (p c); [|done].
  intros Hx%IH. by apply list_elem_of_further.
Qed.
Lemma trim_end_matches_incl p s x : x ∈ trim_end_matches p s → x ∈ s.
Proof.
  unfold trim_end_matches. intros Hx%elem_of_reverse%trim_start_matches_incl.
  by apply elem_of_reverse.
Qed.
Lemma trim_incl s x : x ∈ trim s → x ∈ s.
Proof. by intros ?%trim_end_matches_incl%trim_start_matches_incl. Qed.

Lemma split_once_Some c s a b : split_once c s = Some (a, b) → s = a ++ c :: b ∧ (c ∉ a).
Proof.
  revert a b. induction s as [|x s IH]; intros a b; simpl; [done|].
  destruct (N.eqb_spec x c) as [->|Hne].
  - intros [= <- <-]. split; [done|apply not_elem_of_nil].
  - destruct (split_once c s) as [[a' b']|]; [|done]. intros [= <- <-].
    destruct (IH _ _ eq_refl) as [-> ?]. split; [done|]. by apply not_elem_of_cons.
Qed.

Lemma rsplit_once_Some c s a b : rsplit_once c s = Some (a, b) → s = a ++ c :: b ∧ (c ∉ b).
Proof.
  unfold rsplit_once. destruct (split_once c (reverse s)) as [[a' b']|] eqn:E; [|done].
  intros [= <- <-]. apply split_once_Some in E as [E ?].
  rewrite <-(reverse_involutive s), E, reverse_app, reverse_cons, <-app_assoc.
  split; [done|]. by rewrite elem_of_reverse.
Qed.

Lemma contains_char_spec c s : contains_char c s = true ↔ c ∈ s.
Proof.
  unfold contains_char. rewrite existsb_exists. setoid_rewrite N.eqb_eq.
  setoid_rewrite <-list_elem_of_In. split; [by intros (x & ? & ->)|eauto].
Qed.
Lemma contains_char_false c s : contains_char c s = false ↔ c ∉ s.
Proof. by rewrite <-contains_char_spec, not_true_iff_false. Qed.

Lemma len_utf8_pos c : (1 ≤ len_utf8 c)%N.
Proof. unfold len_utf8. repeat case_match; lia. Qed.
Lemma str_len_app a b : str_len (a ++ b) = (str_len a + str_len b)%N.
Proof. induction a as [|c a IH]; simpl; lia. Qed.
Lemma str_len_ge s : (len s ≤ str_len s)%N.
Proof.
  induction s as [|c s IH]; [done|]. unfold len in *. simpl. pose proof (len_utf8_pos c). lia.
Qed.
Lemma str_len_nil s : str_len s = 0%N ↔ s = [].
Proof. destruct s as [|c s]; [done|]. simpl. pose proof (len_utf8_pos c). split; (done || lia). Qed.

(** Slicing at the end of a piece. *)
Lemma slice_to_app {E} a b : slice_to (E := E) (str_len a) (a ++ b) = Ok a.
Proof.
  induction a as [|c a IH]; [by destruct b|]. cbn [app str_len slice_to].
  pose proof (len_utf8_pos c). cmp_lia.
  cmp_lia.
  replace (len_utf8 c + str_len a - len_utf8 c)%N with (str_len a) by lia. by rewrite IH.
Qed.
Lemma slice_from_app {E} a b : slice_from (E := E) (str_len a) (a ++ b) = Ok b.
Proof.
  induction a as [|c a IH]; [by destruct b|]. cbn [app str_len slice_from].
  pose proof (len_utf8_pos c). cmp_lia.
  cmp_lia.
  replace (len_utf8 c + str_len a - len_utf8 c)%N with (str_len a) by lia. by rewrite IH.
Qed.

#[export] Hint Resolve trim_start_matches_incl trim_end_matches_incl trim_incl plain_line_app plain_line_closed trim_head_not_nil strip_prefix_app : str.

(** * Numbers *)

Lemma lit_inj s t : lit s = lit t → s = t.
Proof.
  unfold lit. intros E. rewrite <-(String.string_of_list_ascii_of_string s), <-(String.string_of_list_ascii_of_string t).
  f_equal. revert E. generalize (String.list_ascii_of_string t). induction (String.list_ascii_of_string s) as [|a l IH];
    intros [|b k] E; try done. injection E as Eab E. apply (f_equal ascii_of_N) in Eab. rewrite !ascii_N_embedding in Eab.
  by rewrite Eab, (IH k E).
Qed.
Lemma show_N_inj n m : show_N n = show_N m → n = m.
Proof. intros E%lit_inj. by apply (inj pretty). Qed.
Lemma pretty_N_go_digits n s :
  Forall (λ c, is_ascii_digit c = true) (lit s) → Forall (λ c, is_ascii_digit c = true) (lit (pretty_N_go n s)).
Proof.
  revert s. induction (N.lt_wf_0 n) as [n _ IH]; intros s Hs. destruct (decide (n = 0)%N) as [->|Hn]; [done|].
  rewrite pretty_N_go_step by lia. apply IH; [apply N.div_lt; lia|].
  change (lit (String ?c s)) with (N_of_ascii c :: lit s). constructor; [|done].
  assert (Hm : (n `mod` 10 < 10)%N) by (apply N.mod_upper_bound; lia). revert Hm. generalize (n `mod` 10)%N as m. intros m Hm.
  assert (Hc : m = 0%N ∨ m = 1%N ∨ m = 2%N ∨ m = 3%N ∨ m = 4%N ∨ m = 5%N ∨ m = 6%N ∨ m = 7%N ∨ m = 8%N ∨ m = 9%N) by lia.
  by destruct Hc as [->|[->|[->|[->|[->|[->|[->|[->|[->| ->]]]]]]]]].
Qed.
Lemma show_N_digits n : Forall (λ c, is_ascii_digit c = true) (show_N n).
Proof.
  unfold show_N, pretty, pretty_N. destruct (decide (n = 0)%N); [by repeat constructor|]. by apply pretty_N_go_digits.
Qed.
(** Where a run of characters ends is determined by the text. *)
Lemma run_unique (p : N → bool) l k x y a b :
  Forall (λ c, p c = true) l → Forall (λ c, p c = true) k → p x = false → p y = false →
  l ++ x :: a = k ++ y :: b → l = k ∧ x :: a = y :: b.
Proof.
  intros Hl. revert k. induction Hl as [|c l Hc _ IH]; intros [|d k] Hk Hx Hy E; cbn in E.
  - done.
  - apply Forall_cons in Hk as [Hd _]. injection E as -> _. congruence.
  - injection E as -> _. congruence.
  - apply Forall_cons in Hk as [_ Hk]. injection E as -> E. destruct (IH k Hk Hx Hy E) as [-> ?]. done.
Qed.
