(* ===== verification/Utf8.v ===== *)
(** UTF-8 as the Rust standard library validates and decodes it
    ([std::str::from_utf8], [String::from_utf8_lossy]), shared by the stream
    parser and the events of command output. *)
From Stdlib Require Import ZifyN Zify.
From S2P Require Import Prelude RustStr.
Local Open Scope N_scope.
Local Ltac Zify.zify_post_hook ::= Z.div_mod_to_equations.

(** * Validation *)

(** The bytes of a character, and the Unicode scalar values. *)
Definition encode_char (c : N) : list N :=
  if c <? 0x80 then [c]
  else if c <? 0x800 then [0xC0 + c / 64; 0x80 + c mod 64]
  else if c <? 0x10000 then [0xE0 + c / 4096; 0x80 + (c / 64) mod 64; 0x80 + c mod 64]
  else [0xF0 + c / 262144; 0x80 + (c / 4096) mod 64; 0x80 + (c / 64) mod 64; 0x80 + c mod 64].
Definition encode_utf8 (s : str) : list N := concat (encode_char <$> s).
Definition is_scalar (c : N) : Prop := c < 0xD800 ∨ (0xE000 ≤ c ∧ c < 0x110000).

Definition continuation (b : N) : bool := (0x80 <=? b) && (b <=? 0xBF).
(** The second byte allowed after the first of three, and of four. *)
Definition second_of_three (first b : N) : bool :=
  if first =? 0xE0 then (0xA0 <=? b) && (b <=? 0xBF)
  else if first =? 0xED then (0x80 <=? b) && (b <=? 0x9F)
  else continuation b.
Definition second_of_four (first b : N) : bool :=
  if first =? 0xF0 then (0x90 <=? b) && (b <=? 0xBF)
  else if first =? 0xF4 then (0x80 <=? b) && (b <=? 0x8F)
  else continuation b.

(** The characters before the first error, how many bytes they take
    ([valid_up_to]), and the error if there is one, with its [error_len], which
    is [None] when the input ends inside a character. *)
Record utf8_result : Type := { decoded : str; valid_up_to : nat; utf8_error : option (option nat) }.
Definition utf8_stop (error_len : option nat) : utf8_result :=
  {| decoded := []; valid_up_to := 0; utf8_error := Some error_len |}.
Definition utf8_char (width : nat) (c : N) (r : utf8_result) : utf8_result :=
  {| decoded := c :: decoded r; valid_up_to := width + valid_up_to r; utf8_error := utf8_error r |}.
Fixpoint from_utf8 (bytes : list N) : utf8_result :=
  match bytes with
  | [] => {| decoded := []; valid_up_to := 0; utf8_error := None |}
  | a :: r1 =>
      if a <? 0x80 then utf8_char 1 a (from_utf8 r1)
      else if (0xC2 <=? a) && (a <=? 0xDF) then
        match r1 with
        | [] => utf8_stop None
        | b :: r2 =>
            if negb (continuation b) then utf8_stop (Some 1%nat)
            else utf8_char 2 ((a - 0xC0) * 64 + (b - 0x80)) (from_utf8 r2)
        end
      else if (0xE0 <=? a) && (a <=? 0xEF) then
        match r1 with
        | [] => utf8_stop None
        | b :: r2 =>
            if negb (second_of_three a b) then utf8_stop (Some 1%nat)
            else match r2 with
                 | [] => utf8_stop None
                 | c :: r3 =>
                     if negb (continuation c) then utf8_stop (Some 2%nat)
                     else utf8_char 3 ((a - 0xE0) * 4096 + (b - 0x80) * 64 + (c - 0x80)) (from_utf8 r3)
                 end
        end
      else if (0xF0 <=? a) && (a <=? 0xF4) then
        match r1 with
        | [] => utf8_stop None
        | b :: r2 =>
            if negb (second_of_four a b) then utf8_stop (Some 1%nat)
            else match r2 with
                 | [] => utf8_stop None
                 | c :: r3 =>
                     if negb (continuation c) then utf8_stop (Some 2%nat)
                     else match r3 with
                          | [] => utf8_stop None
                          | d :: r4 =>
                              if negb (continuation d) then utf8_stop (Some 3%nat)
                              else utf8_char 4 ((a - 0xF0) * 262144 + (b - 0x80) * 4096 + (c - 0x80) * 64 + (d - 0x80))
                                     (from_utf8 r4)
                          end
                 end
        end
      else utf8_stop (Some 1%nat)
  end.

(** [String::from_utf8_lossy]: every maximal invalid sequence becomes one
    replacement character. *)
Fixpoint lossy_loop (fuel : nat) (bytes : list N) : str :=
  let r := from_utf8 bytes in
  match utf8_error r with
  | None => decoded r
  | Some None => decoded r ++ [0xFFFD]
  | Some (Some error_len) =>
      decoded r ++ 0xFFFD :: match fuel with
                             | O => []
                             | S fuel => lossy_loop fuel (drop (valid_up_to r + error_len) bytes)
                             end
  end.
Definition from_utf8_lossy (bytes : list N) : str := lossy_loop (length bytes) bytes.

Example from_utf8_ex :
  decoded (from_utf8 [0x41; 0xC3; 0xA9; 0xE4; 0xB8; 0xAD; 0xF0; 0x9F; 0x98; 0x80]) = [0x41; 0xE9; 0x4E2D; 0x1F600]
  ∧ utf8_error (from_utf8 [0x6F; 0xE2; 0x82]) = Some None ∧ valid_up_to (from_utf8 [0x6F; 0xE2; 0x82]) = 1%nat
  ∧ utf8_error (from_utf8 [0xED; 0xA0; 0x80]) = Some (Some 1%nat) ∧ utf8_error (from_utf8 [0xC3; 0x28]) = Some (Some 1%nat).
Proof. vm_compute. done. Qed.

(** * Lemmas *)

Ltac byte_cases :=
  unfold second_of_three, second_of_four, continuation in *;
  repeat match goal with
  | |- context [?a <? ?b] => destruct (N.ltb_spec a b); try lia; cbn [andb negb]
  | |- context [?a <=? ?b] => destruct (N.leb_spec a b); try lia; cbn [andb negb]
  | |- context [?a =? ?b] => destruct (N.eqb_spec a b); try lia; cbn [andb negb]
  end.
Lemma from_utf8_char c bytes :
  is_scalar c → from_utf8 (encode_char c ++ bytes) = utf8_char (length (encode_char c)) c (from_utf8 bytes).
Proof.
  unfold is_scalar, encode_char. intros Hc.
  destruct (N.ltb_spec c 0x80); [cbn [app from_utf8 length]; byte_cases; done|].
  destruct (N.ltb_spec c 0x800); [cbn [app from_utf8 length]; byte_cases; f_equal; lia|].
  destruct (N.ltb_spec c 0x10000); cbn [app from_utf8 length]; byte_cases; f_equal; lia.
Qed.
Lemma from_utf8_cut c r : is_scalar c → r ≠ [] → r ≠ encode_char c → r `prefix_of` encode_char c → from_utf8 r = utf8_stop None.
Proof.
  unfold is_scalar, encode_char. intros Hc Hr Hne [k Hk].
  assert (Hcut : k ≠ []) by (intros ->; by rewrite app_nil_r in Hk). clear Hne.
  destruct (N.ltb_spec c 0x80); [destruct r as [|? [|? ?]]; try done; simplify_eq/=|].
  destruct (N.ltb_spec c 0x800); [|destruct (N.ltb_spec c 0x10000)];
    destruct r as [|b0 [|b1 [|b2 [|b3 r]]]]; try done; simplify_eq/=; try (by destruct k); try (by destruct r);
    byte_cases; done.
Qed.

Definition cut_character (r : list N) : Prop := r ≠ [] ∧ from_utf8 r = utf8_stop None.
Lemma encode_utf8_cons c s : encode_utf8 (c :: s) = encode_char c ++ encode_utf8 s.
Proof. done. Qed.
Lemma encode_char_not_nil c : encode_char c ≠ [].
Proof. unfold encode_char. by repeat destruct (_ <? _). Qed.
Lemma encode_utf8_nil s : encode_utf8 s = [] → s = [].
Proof. destruct s as [|c s]; [done|]. rewrite encode_utf8_cons. pose proof (encode_char_not_nil c). by destruct (encode_char c). Qed.
Lemma from_utf8_encode s :
  Forall is_scalar s →
  from_utf8 (encode_utf8 s) = {| decoded := s; valid_up_to := length (encode_utf8 s); utf8_error := None |}.
Proof.
  induction 1 as [|c s Hc _ IH]; [done|]. rewrite encode_utf8_cons, from_utf8_char, IH by done.
  unfold utf8_char. cbn. by rewrite length_app.
Qed.
(** Validating the beginning of an encoded text. *)
Lemma from_utf8_prefix s : Forall is_scalar s → ∀ bytes rest, bytes ++ rest = encode_utf8 s →
  ∃ s1 s2 r, s = s1 ++ s2 ∧ bytes = encode_utf8 s1 ++ r ∧ r ++ rest = encode_utf8 s2 ∧ (r = [] ∨ cut_character r)
    ∧ from_utf8 bytes = {| decoded := s1; valid_up_to := length (encode_utf8 s1);
                           utf8_error := if decide (r = []) then None else Some None |}.
Proof.
  induction 1 as [|c s Hc _ IH]; intros bytes rest E.
  { apply app_eq_nil in E as [-> ->]. exists [], [], []. split_and!; auto. }
  rewrite encode_utf8_cons in E.
  assert (Hwhole : ∀ k, bytes = encode_char c ++ k → encode_utf8 s = k ++ rest →
    ∃ s1 s2 r, c :: s = s1 ++ s2 ∧ bytes = encode_utf8 s1 ++ r ∧ r ++ rest = encode_utf8 s2 ∧ (r = [] ∨ cut_character r)
    ∧ from_utf8 bytes = {| decoded := s1; valid_up_to := length (encode_utf8 s1);
                           utf8_error := if decide (r = []) then None else Some None |}).
  { intros k -> Ek. destruct (IH k rest (eq_sym Ek)) as (s1 & s2 & r & -> & -> & Er & Hr & Ef).
    exists (c :: s1), s2, r. split_and!; [done|by rewrite encode_utf8_cons, app_assoc|done|done|].
    rewrite from_utf8_char, Ef by done. unfold utf8_char. cbn. by rewrite length_app. }
  apply app_eq_inv in E as [(k & Ek & Er)|(k & Ek & Er)]; [by eapply Hwhole|].
  destruct (decide (k = [])) as [->|Hk]; [rewrite app_nil_r in Ek; apply (Hwhole []); [by rewrite app_nil_r|done]|].
  exists [], (c :: s), bytes. rewrite encode_utf8_cons, Er, app_assoc, <-Ek.
  destruct (decide (bytes = [])) as [->|Hb]; [split_and!; auto|].
  assert (Hcut : from_utf8 bytes = utf8_stop None).
  { apply (from_utf8_cut c); [done|done| |by exists k]. intros ->. apply (f_equal length) in Ek. rewrite length_app in Ek.
    destruct k; [done|simpl in Ek; lia]. }
  split_and!; [done|done|done|by right|]. rewrite Hcut. done.
Qed.

(** The bytes before the first error are valid. *)
Lemma from_utf8_valid_prefix bytes :
  from_utf8 (take (valid_up_to (from_utf8 bytes)) bytes)
  = {| decoded := decoded (from_utf8 bytes); valid_up_to := valid_up_to (from_utf8 bytes); utf8_error := None |}.
Proof.
  remember (length bytes) as n eqn:Hn. revert bytes Hn. induction (lt_wf n) as [n _ IH]. intros bytes ->.
  destruct bytes as [|a r1]; [done|]. cbn [from_utf8].
  destruct (a <? 0x80) eqn:Ea.
  { cbn [utf8_char valid_up_to decoded take Nat.add from_utf8]. rewrite Ea, (IH (length r1)) by (done || simpl; lia). done. }
  destruct ((0xC2 <=? a) && (a <=? 0xDF)) eqn:E2.
  { destruct r1 as [|b r2]; [done|]. destruct (negb (continuation b)) eqn:Eb; [done|].
    cbn [utf8_char valid_up_to decoded take Nat.add from_utf8]. rewrite Ea, E2, Eb, (IH (length r2)) by (done || simpl; lia). done. }
  destruct ((0xE0 <=? a) && (a <=? 0xEF)) eqn:E3.
  { destruct r1 as [|b [|c r3]]; [done|by destruct (negb _)|]. destruct (negb (second_of_three a b)) eqn:Eb; [done|].
    destruct (negb (continuation c)) eqn:Ec; [done|].
    cbn [utf8_char valid_up_to decoded take Nat.add from_utf8]. rewrite Ea, E2, E3, Eb, Ec, (IH (length r3)) by (done || simpl; lia). done. }
  destruct ((0xF0 <=? a) && (a <=? 0xF4)) eqn:E4; [|done].
  destruct r1 as [|b [|c [|d r4]]]; [done|by destruct (negb _)|by destruct (negb _); [|destruct (negb _)]|].
  destruct (negb (second_of_four a b)) eqn:Eb; [done|]. destruct (negb (continuation c)) eqn:Ec; [done|].
  destruct (negb (continuation d)) eqn:Ed; [done|].
  cbn [utf8_char valid_up_to decoded take Nat.add from_utf8]. rewrite Ea, E2, E3, E4, Eb, Ec, Ed, (IH (length r4)) by (done || simpl; lia). done.
Qed.

(** ** Valid bytes *)

Lemma encode_utf8_app s t : encode_utf8 (s ++ t) = encode_utf8 s ++ encode_utf8 t.
Proof. unfold encode_utf8. by rewrite fmap_app, concat_app. Qed.
Lemma encode_two a b : (0xC2 <=? a) && (a <=? 0xDF) = true → continuation b = true →
  let c := (a - 0xC0) * 64 + (b - 0x80) in is_scalar c ∧ encode_char c = [a; b].
Proof.
  intros Ha Hb c. unfold continuation in *. rewrite !andb_true_iff, !N.leb_le in Ha, Hb. unfold is_scalar, encode_char.
  destruct (N.ltb_spec c 0x80); [lia|]. destruct (N.ltb_spec c 0x800); [|lia]. split; [lia|repeat f_equal; lia].
Qed.
Lemma encode_three a b c : (0xE0 <=? a) && (a <=? 0xEF) = true → second_of_three a b = true → continuation c = true →
  let d := (a - 0xE0) * 4096 + (b - 0x80) * 64 + (c - 0x80) in is_scalar d ∧ encode_char d = [a; b; c].
Proof.
  intros Ha Hb Hc d. unfold second_of_three, continuation in *. rewrite !andb_true_iff, !N.leb_le in Ha, Hc. unfold is_scalar, encode_char.
  assert (Hr : (0x80 ≤ b ≤ 0xBF) ∧ (a = 0xE0 → 0xA0 ≤ b) ∧ (a = 0xED → b ≤ 0x9F)).
  { revert Hb. destruct (N.eqb_spec a 0xE0), (N.eqb_spec a 0xED); rewrite andb_true_iff, !N.leb_le; lia. }
  destruct (N.ltb_spec d 0x80); [lia|]. destruct (N.ltb_spec d 0x800); [lia|]. destruct (N.ltb_spec d 0x10000); [|lia].
  split; [lia|repeat f_equal; lia].
Qed.
Lemma encode_four a b c e : (0xF0 <=? a) && (a <=? 0xF4) = true → second_of_four a b = true → continuation c = true → continuation e = true →
  let d := (a - 0xF0) * 262144 + (b - 0x80) * 4096 + (c - 0x80) * 64 + (e - 0x80) in is_scalar d ∧ encode_char d = [a; b; c; e].
Proof.
  intros Ha Hb Hc He d. unfold second_of_four, continuation in *. rewrite !andb_true_iff, !N.leb_le in Ha, Hc, He. unfold is_scalar, encode_char.
  assert (Hr : (0x80 ≤ b ≤ 0xBF) ∧ (a = 0xF0 → 0x90 ≤ b) ∧ (a = 0xF4 → b ≤ 0x8F)).
  { revert Hb. destruct (N.eqb_spec a 0xF0), (N.eqb_spec a 0xF4); rewrite andb_true_iff, !N.leb_le; lia. }
  destruct (N.ltb_spec d 0x80); [lia|]. destruct (N.ltb_spec d 0x800); [lia|]. destruct (N.ltb_spec d 0x10000); [lia|].
  split; [lia|repeat f_equal; lia].
Qed.
(** Valid bytes are the encoding of what they decode to. *)
Lemma from_utf8_decodes bytes : utf8_error (from_utf8 bytes) = None →
  Forall is_scalar (decoded (from_utf8 bytes)) ∧ bytes = encode_utf8 (decoded (from_utf8 bytes)).
Proof.
  assert (Hstep : ∀ w c rest whole, Forall is_scalar (decoded (from_utf8 rest)) ∧ rest = encode_utf8 (decoded (from_utf8 rest)) →
    is_scalar c → whole = encode_char c ++ rest →
    Forall is_scalar (decoded (utf8_char w c (from_utf8 rest))) ∧ whole = encode_utf8 (decoded (utf8_char w c (from_utf8 rest)))).
  { intros w c rest whole [Hf He] Hc ->. cbn [utf8_char decoded]. rewrite encode_utf8_cons, <-He. split; [by constructor|done]. }
  remember (length bytes) as n eqn:Hn. revert bytes Hn. induction (lt_wf n) as [n _ IH]. intros bytes -> Hv.
  destruct bytes as [|a r1]; [by split; [constructor|]|]. cbn [from_utf8] in *.
  destruct (a <? 0x80) eqn:Ea.
  { apply Hstep; [apply (IH (length r1)); (done || simpl; lia)|unfold is_scalar; apply N.ltb_lt in Ea; clear -Ea; lia|]. unfold encode_char. by rewrite Ea. }
  destruct ((0xC2 <=? a) && (a <=? 0xDF)) eqn:E2.
  { destruct r1 as [|b r2]; [done|]. destruct (continuation b) eqn:Eb; [|done]. cbn [negb] in *.
    destruct (encode_two a b E2 Eb) as [Hs He]. apply Hstep; [apply (IH (length r2)); (done || simpl; lia)|done|by rewrite He]. }
  destruct ((0xE0 <=? a) && (a <=? 0xEF)) eqn:E3.
  { destruct r1 as [|b r2]; [done|]. destruct (second_of_three a b) eqn:Eb; [|done]. cbn [negb] in *. destruct r2 as [|c r3]; [done|].
    destruct (continuation c) eqn:Ec; [|done]. cbn [negb] in *. destruct (encode_three a b c E3 Eb Ec) as [Hs He].
    apply Hstep; [apply (IH (length r3)); (done || simpl; lia)|done|by rewrite He]. }
  destruct ((0xF0 <=? a) && (a <=? 0xF4)) eqn:E4; [|done].
  destruct r1 as [|b r2]; [done|]. destruct (second_of_four a b) eqn:Eb; [|done]. cbn [negb] in *. destruct r2 as [|c r3]; [done|].
  destruct (continuation c) eqn:Ec; [|done]. cbn [negb] in *. destruct r3 as [|d r4]; [done|].
  destruct (continuation d) eqn:Ed; [|done]. cbn [negb] in *. destruct (encode_four a b c d E4 Eb Ec Ed) as [Hs He].
  apply Hstep; [apply (IH (length r4)); (done || simpl; lia)|done|by rewrite He].
Qed.
Lemma valid_app a b : utf8_error (from_utf8 a) = None → utf8_error (from_utf8 b) = None → utf8_error (from_utf8 (a ++ b)) = None.
Proof.
  intros [Ha ->]%from_utf8_decodes [Hb ->]%from_utf8_decodes. rewrite <-encode_utf8_app, from_utf8_encode; [done|by apply Forall_app].
Qed.
Lemma valid_rest a b : utf8_error (from_utf8 (a ++ b)) = None → utf8_error (from_utf8 a) = None → utf8_error (from_utf8 b) = None.
Proof.
  intros [Hs E]%from_utf8_decodes. destruct (from_utf8_prefix _ Hs a b E) as (s1 & s2 & r & Es & -> & Er & _ & ->). cbn [utf8_error].
  case_decide as Hr; [|done]. intros _. subst r. cbn [app] in Er. subst b. rewrite Es in Hs. apply Forall_app in Hs as [_ Hs].
  by rewrite from_utf8_encode.
Qed.
Lemma cut_character_length r : cut_character r → (length r ≤ 3)%nat.
Proof.
  intros [_ Hc]. destruct r as [|a [|b [|c [|d r]]]]; cbn [length]; try lia. exfalso. revert Hc. cbn [from_utf8]. unfold utf8_stop, utf8_char.
  repeat match goal with |- context [if ?b then _ else _] => destruct b end; discriminate.
Qed.
(** Below any length of valid bytes there is a boundary at most three bytes
    back. *)
Lemma valid_boundary bytes n : utf8_error (from_utf8 bytes) = None → (n ≤ length bytes)%nat →
  ∃ k, (k ≤ n ∧ n ≤ k + 3)%nat ∧ utf8_error (from_utf8 (take k bytes)) = None.
Proof.
  intros [Hs E]%from_utf8_decodes Hn. set (s := decoded (from_utf8 bytes)) in *.
  destruct (from_utf8_prefix s Hs (take n bytes) (drop n bytes)) as (s1 & s2 & r & Es & Et & _ & Hr & _).
  { by rewrite take_drop. }
  assert (Hl : (n = length (encode_utf8 s1) + length r)%nat).
  { apply (f_equal length) in Et. rewrite length_take, length_app in Et. lia. }
  assert (Hr3 : (length r ≤ 3)%nat) by (destruct Hr as [->|?%cut_character_length]; [cbn; lia|done]).
  exists (length (encode_utf8 s1)). split; [lia|].
  assert (Ek : take (length (encode_utf8 s1)) bytes = encode_utf8 s1).
  { transitivity (take (length (encode_utf8 s1)) (take n bytes)); [rewrite take_take; f_equal; lia|]. rewrite Et. apply take_app_length. }
  rewrite Ek, Es in *. apply Forall_app in Hs as [Hs _]. by rewrite from_utf8_encode.
Qed.
