(* ===== verification/TextOffsets.v ===== *)
(** Byte offsets in texts: the library functions on [str] and [String] that
    take or give positions. An offset is a boundary when it is between two
    characters; the functions that slice panic elsewhere. *)
From S2P Require Import Prelude RustStr.

(** * Operations *)

(** [&s[from..to]], and [s.get(from..to)], which gives [None] where it panics. *)
Definition slice_range {E} (from to : N) (s : str) : outcome E str :=
  if (from <=? to)%N then t ← slice_from from s; slice_to (to - from) t else Panic.
Definition get_range (from to : N) (s : str) : option str :=
  match slice_range (E := Empty_set) from to s with Ok t => Some t | _ => None end.
Definition is_char_boundary (p : N) (s : str) : bool :=
  match slice_to (E := Empty_set) p s with Ok _ => true | _ => false end.
(** [s.insert_str(p, t)] and [s.replace_range(from..to, t)]. *)
Definition insert_str_at {E} (p : N) (t s : str) : outcome E str :=
  before ← slice_to p s; after ← slice_from p s; Ok (before ++ t ++ after).
Definition replace_text {E} (from to : N) (t s : str) : outcome E str :=
  if (from <=? to)%N then before ← slice_to from s; after ← slice_from to s; Ok (before ++ t ++ after) else Panic.
(** [s.char_indices()]. *)
Fixpoint char_indices_from (i : N) (s : str) : list (N * N) :=
  match s with [] => [] | c :: s => (i, c) :: char_indices_from (i + len_utf8 c) s end.
Definition char_indices (s : str) : list (N * N) := char_indices_from 0 s.
(** [s.find(p)] for a predicate on characters, and [s.rfind(p)]. *)
Definition find_if (p : N → bool) (s : str) : option N := find_map (λ ic, if p ic.2 then Some ic.1 else None) (char_indices s).
Definition rfind_if (p : N → bool) (s : str) : option N :=
  find_map (λ ic, if p ic.2 then Some ic.1 else None) (reverse (char_indices s)).

(** * Boundaries *)

(** [p] splits [s] into [a] and [b]. *)
Definition splits (p : N) (s a b : str) : Prop := s = a ++ b ∧ p = str_len a.
Definition boundary (p : N) (s : str) : Prop := ∃ a b, splits p s a b.

Lemma slice_to_Ok {E} p s a : slice_to (E := E) p s = Ok a ↔ ∃ b, splits p s a b.
Proof.
  split.
  - revert p a. induction s as [|c s IH]; intros p a; cbn [slice_to].
    + destruct (N.eqb_spec p 0) as [->|]; [|done]. intros [= <-]. by exists [].
    + destruct (N.eqb_spec p 0) as [->|]; [intros [= <-]; by exists (c :: s)|].
      destruct (N.leb_spec (len_utf8 c) p); [|done]. intros (t & Ht & [= <-])%bind_Ok_inv.
      apply IH in Ht as (b & -> & Hp). exists b. split; [done|]. cbn. lia.
  - intros (b & -> & ->). apply slice_to_app.
Qed.
Lemma slice_from_Ok {E} p s b : slice_from (E := E) p s = Ok b ↔ ∃ a, splits p s a b.
Proof.
  split.
  - revert p b. induction s as [|c s IH]; intros p b; cbn [slice_from].
    + destruct (N.eqb_spec p 0) as [->|]; [|done]. intros [= <-]. by exists [].
    + destruct (N.eqb_spec p 0) as [->|]; [intros [= <-]; by exists []|].
      destruct (N.leb_spec (len_utf8 c) p); [|done]. intros (a & -> & Hp)%IH. exists (c :: a). split; [done|]. cbn. lia.
  - intros (a & -> & ->). apply slice_from_app.
Qed.
Lemma splits_slices {E} p s a b : splits p s a b → slice_to (E := E) p s = Ok a ∧ slice_from (E := E) p s = Ok b.
Proof. intros [-> ->]. by rewrite slice_to_app, slice_from_app. Qed.
Lemma splits_unique p s a b a' b' : splits p s a b → splits p s a' b' → a = a' ∧ b = b'.
Proof.
  intros H H'. apply (splits_slices (E := Empty_set)) in H as [H1 H2], H' as [H1' H2']. split; congruence.
Qed.
Lemma is_char_boundary_spec p s : is_char_boundary p s = true ↔ boundary p s.
Proof.
  unfold is_char_boundary, boundary. destruct (slice_to p s) as [a|[]| |] eqn:E.
  - apply slice_to_Ok in E as [b E]. split; [|done]. eauto.
  - split; [done|]. intros (a & b & H). apply (splits_slices (E := Empty_set)) in H as [H _]. congruence.
  - split; [done|]. intros (a & b & H). apply (splits_slices (E := Empty_set)) in H as [H _]. congruence.
Qed.
#[export] Instance boundary_dec p s : Decision (boundary p s).
Proof.
  destruct (is_char_boundary p s) eqn:E; [left; by apply is_char_boundary_spec|right].
  intros H%is_char_boundary_spec. congruence.
Defined.
Lemma boundary_le p s : boundary p s → (p ≤ str_len s)%N.
Proof. intros (a & b & -> & ->). rewrite str_len_app. lia. Qed.
Lemma boundary_0 s : boundary 0 s.
Proof. by exists [], s. Qed.
Lemma boundary_end s : boundary (str_len s) s.
Proof. exists s, []. split; [by rewrite app_nil_r|done]. Qed.
Lemma boundary_app a b : boundary (str_len a) (a ++ b).
Proof. by exists a, b. Qed.
Lemma boundary_shift a p s : boundary p s → boundary (str_len a + p) (a ++ s).
Proof. intros (x & y & -> & ->). exists (a ++ x), y. split; [by rewrite app_assoc|by rewrite str_len_app]. Qed.

(** Two boundaries in order cut a text into three. *)
Lemma splits_order p q s a b c d : splits p s a b → splits q s c d → (p ≤ q)%N → ∃ m, c = a ++ m ∧ b = m ++ d.
Proof.
  intros [-> ->] [E ->] Hle. apply app_eq_inv in E as [(k & -> & ->)|(k & -> & ->)]; [|by exists k].
  rewrite str_len_app in Hle. assert (k = []) as -> by (apply str_len_nil; lia). exists []. by rewrite !app_nil_r.
Qed.
Lemma boundaries_cut p q s : boundary p s → boundary q s → (p ≤ q)%N →
  ∃ a m d, s = a ++ m ++ d ∧ p = str_len a ∧ q = str_len (a ++ m).
Proof.
  intros (a & b & H) (c & d & H') Hle. destruct (splits_order _ _ _ _ _ _ _ H H' Hle) as (m & -> & ->).
  destruct H as [-> ->], H' as [_ ->]. by exists a, m, d.
Qed.

Lemma slice_range_app {E} a l r : slice_range (E := E) (str_len a) (str_len (a ++ l)) (a ++ l ++ r) = Ok l.
Proof.
  unfold slice_range. rewrite slice_from_app, str_len_app. cmp_lia. cbn.
  replace (str_len a + str_len l - str_len a)%N with (str_len l) by lia. apply slice_to_app.
Qed.
Lemma slice_range_Ok {E} p q s m : slice_range (E := E) p q s = Ok m ↔
  ∃ a d, s = a ++ m ++ d ∧ p = str_len a ∧ q = str_len (a ++ m).
Proof.
  split; [|intros (a & d & -> & -> & ->); apply slice_range_app].
  unfold slice_range. destruct (N.leb_spec p q); [|done]. intros (t & Ht & Hm)%bind_Ok_inv.
  apply slice_from_Ok in Ht as (a & -> & ->). apply slice_to_Ok in Hm as (d & -> & Hq).
  exists a, d. rewrite str_len_app. split_and!; [done..|]. lia.
Qed.
Lemma slice_range_total {E} p q s : boundary p s → boundary q s → (p ≤ q)%N → ∃ m, slice_range (E := E) p q s = Ok m.
Proof. intros Hp Hq Hle. destruct (boundaries_cut p q s Hp Hq Hle) as (a & m & d & -> & -> & ->). exists m. apply slice_range_app. Qed.
Lemma get_range_Some p q s m : get_range p q s = Some m ↔ ∃ a d, s = a ++ m ++ d ∧ p = str_len a ∧ q = str_len (a ++ m).
Proof.
  rewrite <- (slice_range_Ok (E := Empty_set)). unfold get_range. destruct (slice_range p q s) as [?|[]| |]; split; congruence.
Qed.
Lemma insert_str_at_app {E} a t b : insert_str_at (E := E) (str_len a) t (a ++ b) = Ok (a ++ t ++ b).
Proof. unfold insert_str_at. by rewrite slice_to_app, slice_from_app. Qed.
Lemma replace_text_app {E} a m t b : replace_text (E := E) (str_len a) (str_len (a ++ m)) t (a ++ m ++ b) = Ok (a ++ t ++ b).
Proof.
  unfold replace_text. rewrite str_len_app at 1. cmp_lia. rewrite slice_to_app. cbn. rewrite app_assoc, slice_from_app. done.
Qed.

(** * Searching *)

Lemma char_indices_from_app i a b : char_indices_from i (a ++ b) = char_indices_from i a ++ char_indices_from (i + str_len a) b.
Proof.
  revert i. induction a as [|c a IH]; intros i; cbn; [by rewrite N.add_0_r|]. rewrite IH. by rewrite N.add_assoc.
Qed.
Lemma char_indices_app a b : char_indices (a ++ b) = char_indices a ++ char_indices_from (str_len a) b.
Proof. unfold char_indices. by rewrite char_indices_from_app. Qed.
Lemma char_indices_from_elem i j c s : (j, c) ∈ char_indices_from i s ↔ ∃ a b, s = a ++ c :: b ∧ j = (i + str_len a)%N.
Proof.
  split.
  - revert i. induction s as [|d s IH]; intros i; cbn [char_indices_from]; [by intros ?%elem_of_nil|].
    rewrite elem_of_cons. intros [[= -> ->]|(a & b & -> & ->)%IH].
    + exists [], s. cbn. split; [done|lia].
    + exists (d :: a), b. cbn. split; [done|lia].
  - intros (a & b & -> & ->). rewrite char_indices_from_app, elem_of_app. right. cbn. apply list_elem_of_here.
Qed.
Lemma char_indices_elem j c s : (j, c) ∈ char_indices s ↔ ∃ a b, s = a ++ c :: b ∧ j = str_len a.
Proof. unfold char_indices. by rewrite char_indices_from_elem. Qed.
Lemma find_map_in {A B} (f : A → option B) l b : find_map f l = Some b → ∃ a, a ∈ l ∧ f a = Some b.
Proof.
  induction l as [|a l IH]; cbn; [done|]. destruct (f a) eqn:E.
  - intros [= <-]. exists a. split; [apply list_elem_of_here|done].
  - intros (a' & Hin & ?)%IH. exists a'. split; [by apply list_elem_of_further|done].
Qed.
Lemma find_map_None {A B} (f : A → option B) l : find_map f l = None ↔ ∀ a, a ∈ l → f a = None.
Proof.
  induction l as [|a l IH]; cbn; [split; [by intros _ ? ?%elem_of_nil|done]|]. destruct (f a) eqn:E.
  - split; [done|]. intros H. rewrite (H a) in E by apply list_elem_of_here. done.
  - rewrite IH. split; [intros H x [->|?]%elem_of_cons; auto|intros H x ?; apply H; by apply list_elem_of_further].
Qed.
Lemma find_if_boundary p s i : find_if p s = Some i → ∃ a c b, s = a ++ c :: b ∧ i = str_len a ∧ p c = true.
Proof.
  intros ([j c] & Hin & Hf)%find_map_in. cbn in Hf. destruct (p c) eqn:Hp; [|done]. injection Hf as ->.
  apply char_indices_elem in Hin as (a & b & -> & ->). by exists a, c, b.
Qed.
Lemma rfind_if_boundary p s i : rfind_if p s = Some i → ∃ a c b, s = a ++ c :: b ∧ i = str_len a ∧ p c = true.
Proof.
  intros ([j c] & Hin & Hf)%find_map_in. cbn in Hf. destruct (p c) eqn:Hp; [|done]. injection Hf as ->.
  rewrite elem_of_reverse in Hin. apply char_indices_elem in Hin as (a & b & -> & ->). by exists a, c, b.
Qed.

(** * Positions in a text that is put together *)

Lemma boundary_app_l a b p : (p ≤ str_len a)%N → boundary p (a ++ b) ↔ boundary p a.
Proof.
  intros Hle. split.
  - intros (c & d & H). destruct (splits_order p (str_len a) (a ++ b) c d a b H ltac:(by split) Hle) as (m & -> & _).
    destruct H as [_ ->]. apply boundary_app.
  - intros (c & d & -> & ->). rewrite <- app_assoc. apply boundary_app.
Qed.
Lemma boundary_app_r a b p : boundary (str_len a + p) (a ++ b) ↔ boundary p b.
Proof.
  split; [|apply boundary_shift]. intros (c & d & H).
  destruct (splits_order (str_len a) _ (a ++ b) a b c d ltac:(by split) H ltac:(lia)) as (m & -> & ->).
  destruct H as [_ H]. rewrite str_len_app in H. replace p with (str_len m) by lia. apply boundary_app.
Qed.
Lemma slice_to_app_l {E} a b p : (p ≤ str_len a)%N → boundary p a → slice_to (E := E) p (a ++ b) = slice_to p a.
Proof. intros Hle (c & d & -> & ->). by rewrite <- app_assoc, !slice_to_app. Qed.
Lemma get_range_l a b p q : (q ≤ str_len a)%N → boundary p (a ++ b) → boundary q (a ++ b) → (p ≤ q)%N → get_range p q (a ++ b) = get_range p q a.
Proof.
  intros Hle Hp Hq Hpq. rewrite boundary_app_l in Hp, Hq by lia.
  destruct (boundaries_cut p q a Hp Hq Hpq) as (x & m & d & -> & -> & ->).
  unfold get_range. by rewrite <- !app_assoc, !slice_range_app.
Qed.
Lemma get_range_r a b p q : boundary p b → boundary q b → (p ≤ q)%N →
  get_range (str_len a + p) (str_len a + q) (a ++ b) = get_range p q b.
Proof.
  intros Hp Hq Hpq. destruct (boundaries_cut p q b Hp Hq Hpq) as (x & m & d & -> & -> & ->).
  unfold get_range. rewrite slice_range_app, <- !str_len_app.
  replace (a ++ x ++ m ++ d) with ((a ++ x) ++ m ++ d) by by rewrite <- app_assoc.
  replace (a ++ x ++ m) with ((a ++ x) ++ m) by by rewrite <- app_assoc. by rewrite slice_range_app.
Qed.
Lemma boundary_above a b p : boundary p (a ++ b) → (str_len a ≤ p)%N → ∃ q, p = (str_len a + q)%N ∧ boundary q b.
Proof. intros H Hle. exists (p - str_len a)%N. split; [lia|]. apply (boundary_app_r a). by replace (str_len a + (p - str_len a))%N with p by lia. Qed.
Lemma boundary_next a c b : boundary (str_len a + len_utf8 c) (a ++ c :: b).
Proof. exists (a ++ [c]), b. split; [by rewrite <- app_assoc|rewrite str_len_app; cbn; lia]. Qed.
