(* ===== verification/BTreeMap.v ===== *)
(** Rust's order on strings and [std::collections::BTreeMap<String, _>]: a map
    is the list of its entries by increasing keys. The components that keep
    settings by name share these operations and their lemmas. *)
From stdpp Require Import list.
From S2P Require Import Prelude RustStr.

(** * Order *)

(** Byte order of UTF-8 strings is the order of their scalar values. *)
Fixpoint lex_cmp {A} (cmp : A → A → comparison) (a b : list A) : comparison :=
  match a, b with
  | [], [] => Eq
  | [], _ :: _ => Lt
  | _ :: _, [] => Gt
  | x :: a', y :: b' => match cmp x y with Eq => lex_cmp cmp a' b' | c => c end
  end.
Definition str_cmp : str → str → comparison := lex_cmp N.compare.
Definition str_lt (a b : str) : Prop := str_cmp a b = Lt.

(** * Maps *)

(** [BTreeMap::get], [insert], [retain] and [entry(k).or_insert_with]. *)
Definition lookup_entry {A} (k : str) (l : list (str * A)) : option A := snd <$> List.find (λ e, bool_decide (e.1 = k)) l.
Fixpoint btree_insert {A} (k : str) (v : A) (l : list (str * A)) : list (str * A) :=
  match l with
  | [] => [(k, v)]
  | (x, w) :: l' =>
      match str_cmp k x with
      | Lt => (k, v) :: l
      | Eq => (k, v) :: l'
      | Gt => (x, w) :: btree_insert k v l'
      end
  end.
(** [collect] into a [BTreeMap]. *)
Definition btree_of {A} (entries : list (str * A)) : list (str * A) :=
  foldl (λ l e, btree_insert e.1 e.2 l) [] entries.
(** The invariant of a map. *)
Definition btree_wf {A} (l : list (str * A)) : Prop := StronglySorted str_lt l.*1.

(** * Lemmas *)

(** A comparison that is a strict total order on its [Lt] answers. *)
Class CmpOrder {A} (cmp : A → A → comparison) : Prop := {
  cmp_eq x y : cmp x y = Eq ↔ x = y;
  cmp_opp x y : cmp y x = CompOpp (cmp x y);
  cmp_trans x y z : cmp x y = Lt → cmp y z = Lt → cmp x z = Lt }.

#[export] Instance N_compare_order : CmpOrder N.compare.
Proof.
  split; [apply N.compare_eq_iff|intros; apply N.compare_antisym|].
  intros x y z. rewrite !N.compare_lt_iff. lia.
Qed.

#[export] Instance lex_cmp_order {A} (cmp : A → A → comparison) : CmpOrder cmp → CmpOrder (lex_cmp cmp).
Proof.
  intros Hc. split.
  - intros x. induction x as [|a x IH]; intros [|b y]; simpl; try done.
    destruct (cmp a b) eqn:E; [apply cmp_eq in E as ->; rewrite IH| |]; split; try congruence;
      intros [= -> ->]; by rewrite (proj2 (cmp_eq b b) eq_refl) in E.
  - intros x. induction x as [|a x IH]; intros [|b y]; simpl; try done.
    rewrite (cmp_opp (cmp := cmp) a b). destruct (cmp a b); simpl; [apply IH|done|done].
  - intros x. induction x as [|a x IH]; intros [|b y] [|c z]; simpl; try done.
    destruct (cmp a b) eqn:E1; [apply cmp_eq in E1 as ->| |done].
    + destruct (cmp b c) eqn:E2; [apply IH|done|done].
    + intros _. destruct (cmp b c) eqn:E2; [apply cmp_eq in E2 as ->; by rewrite E1| |done].
      by rewrite (cmp_trans (cmp := cmp) a b c).
Qed.
#[export] Instance str_cmp_order : CmpOrder str_cmp := _.

#[export] Instance str_lt_trans : Transitive str_lt.
Proof. intros x y z. apply cmp_trans. Qed.
#[export] Instance str_lt_irrefl : Irreflexive str_lt.
Proof. intros x. unfold complement, str_lt. by rewrite (proj2 (cmp_eq x x) eq_refl). Qed.
#[export] Instance str_lt_dec a b : base.Decision (str_lt a b).
Proof. unfold str_lt. solve_decision. Defined.
Lemma str_cmp_gt a b : str_cmp a b = Gt → str_lt b a.
Proof. unfold str_lt. intros H. by rewrite (cmp_opp (cmp := str_cmp) a b), H. Qed.
Lemma str_cmp_refl a : str_cmp a a = Eq.
Proof. by apply cmp_eq. Qed.

Section maps.
Context {A : Type}.
Implicit Types l : list (str * A).

Lemma lookup_entry_cons k e l : lookup_entry k (e :: l) = if decide (e.1 = k) then Some e.2 else lookup_entry k l.
Proof. unfold lookup_entry. cbn [List.find]. case_decide; [rewrite bool_decide_true|rewrite bool_decide_false]; done. Qed.
Lemma lookup_entry_insert k v l : lookup_entry k (btree_insert k v l) = Some v.
Proof.
  induction l as [|[x w] l IH]; cbn [btree_insert].
  - rewrite lookup_entry_cons. by rewrite decide_True.
  - destruct (str_cmp k x) eqn:E; rewrite lookup_entry_cons; cbn [fst snd]; [by rewrite decide_True..|].
    rewrite decide_False; [done|]. intros ->. by rewrite str_cmp_refl in E.
Qed.
Lemma lookup_entry_insert_ne k k' v l : k ≠ k' → lookup_entry k' (btree_insert k v l) = lookup_entry k' l.
Proof.
  intros Hk. induction l as [|[x w] l IH]; cbn [btree_insert].
  - rewrite lookup_entry_cons. cbn [fst snd]. by rewrite decide_False.
  - destruct (str_cmp k x) eqn:E; rewrite !lookup_entry_cons; cbn [fst snd].
    + apply cmp_eq in E as ->. by rewrite !(decide_False (P := x = k')).
    + by rewrite (decide_False (P := k = k')).
    + by rewrite IH.
Qed.
Lemma lookup_entry_elem k v l : lookup_entry k l = Some v → (k, v) ∈ l.
Proof.
  induction l as [|[x w] l IH]; [done|]. rewrite lookup_entry_cons, elem_of_cons. cbn [fst snd].
  case_decide as Hx; [intros [= ->]; left; by subst|auto].
Qed.
Lemma lookup_entry_None k l : lookup_entry k l = None ↔ k ∉ l.*1.
Proof.
  induction l as [|[x w] l IH]; [split; [set_solver|done]|].
  rewrite lookup_entry_cons, fmap_cons, not_elem_of_cons. cbn [fst snd].
  case_decide; [split; [done|intros [? _]; congruence]|]. rewrite IH. naive_solver.
Qed.
Lemma elem_btree_insert e k v l : e ∈ btree_insert k v l → e = (k, v) ∨ e ∈ l.
Proof.
  induction l as [|[x w] l IH]; cbn [btree_insert]; [set_solver|].
  destruct (str_cmp k x); set_solver.
Qed.
Lemma btree_insert_wf k v l : btree_wf l → btree_wf (btree_insert k v l).
Proof.
  unfold btree_wf. induction l as [|[x w] l IH]; cbn [btree_insert fmap list_fmap fst]; [by repeat constructor|].
  intros [Hs Hx]%StronglySorted_inv. destruct (str_cmp k x) eqn:E; cbn [fmap list_fmap fst].
  - apply cmp_eq in E as ->. by constructor.
  - constructor; [by constructor|]. constructor; [done|]. apply (Forall_impl _ _ _ Hx). intros y Hy. by transitivity x.
  - constructor; [by apply IH|]. apply Forall_forall. intros y Hy. apply list_elem_of_fmap in Hy as (e & -> & He).
    apply elem_btree_insert in He as [->|He]; [by apply str_cmp_gt|].
    rewrite Forall_forall in Hx. apply Hx. by apply list_elem_of_fmap_2.
Qed.
Lemma btree_wf_NoDup l : btree_wf l → NoDup l.*1.
Proof.
  unfold btree_wf. generalize l.*1. intros ks. induction 1 as [|k ks Hs IH Hk]; constructor; [|done].
  intros Hin. rewrite Forall_forall in Hk. by apply (str_lt_irrefl k), Hk.
Qed.
Lemma btree_wf_cons e l : btree_wf (e :: l) ↔ Forall (str_lt e.1) l.*1 ∧ btree_wf l.
Proof. unfold btree_wf. cbn. split; [by intros [? ?]%StronglySorted_inv|intros []; by constructor]. Qed.
Lemma lookup_entry_wf k v l : btree_wf l → (k, v) ∈ l → lookup_entry k l = Some v.
Proof.
  induction l as [|[x w] l IH]; [by intros _ ?%elem_of_nil|].
  intros [Hx Hl]%btree_wf_cons [[= -> ->]|Hin]%elem_of_cons; rewrite lookup_entry_cons; [by rewrite decide_True|].
  cbn [fst snd]. rewrite decide_False; [auto|]. intros ->. rewrite Forall_forall in Hx.
  apply (str_lt_irrefl k), Hx. by apply (list_elem_of_fmap_2 fst _ (k, v)).
Qed.
Lemma btree_of_wf l : btree_wf (btree_of l).
Proof.
  unfold btree_of. assert (H : ∀ acc, btree_wf acc → btree_wf (foldl (λ l e, btree_insert e.1 e.2 l) acc l)); [|apply H; constructor].
  induction l as [|e l IH]; intros acc Ha; [done|]. cbn. by apply IH, btree_insert_wf.
Qed.
(** Two maps with the same lookups are the same list. *)
Lemma btree_ext l l' : btree_wf l → btree_wf l' → (∀ k, lookup_entry k l = lookup_entry k l') → l = l'.
Proof.
  intros H H' He. assert (Hd : ∀ l, btree_wf l → StronglySorted (λ e e' : str * A, str_lt e.1 e'.1) l).
  { clear. intros l. unfold btree_wf. induction l as [|e l IH]; [constructor|]. intros [Hs Hx]%StronglySorted_inv.
    constructor; [by apply IH|]. revert Hx. rewrite !Forall_forall. intros Hx y Hy. by apply Hx, list_elem_of_fmap_2. }
  apply (StronglySorted_unique_strong (λ e e' : str * A, str_lt e.1 e'.1)); [|by apply Hd..|].
  - intros x y _ _ H1 H2. exfalso. apply (str_lt_irrefl x.1). by transitivity y.1.
  - apply NoDup_Permutation; [by apply (NoDup_fmap_1 fst), btree_wf_NoDup..|].
    intros [k v]. split; intros Hin; apply lookup_entry_elem; [rewrite <- He|rewrite He]; by apply lookup_entry_wf.
Qed.
End maps.
