(* ===== verification/RustPath.v ===== *)
(** Unix paths of the Rust standard library ([std::path]): a path is its
    string, and what the program observes of it goes through its sequence of
    components. A path computed by dropping components ([parent],
    [ancestors]) is given in its plain spelling, one slash between
    components: [Path] equality, prefix tests and the operating system do not
    tell it from the slice the library returns. *)
From S2P Require Import Prelude RustStr BTreeMap.

Inductive component : Type := RootDir | CurDir | ParentDir | Normal (s : str).
#[export] Instance component_eq_dec : EqDecision component.
Proof. solve_decision. Defined.

Definition slash : N := 47.
Definition dot : str := lit ".".
Definition dotdot : str := lit "..".

Definition is_absolute (p : str) : bool := starts_with [slash] p.

Definition classify (s : str) : component := if decide (s = dotdot) then ParentDir else Normal s.

(** The pieces that name something: neither empty nor a dot. *)
Definition named_pieces (ps : list str) : list component :=
  classify <$> filter (λ s, s ≠ [] ∧ s ≠ dot) ps.

(** [path.components()]. *)
Definition components (p : str) : list component :=
  if is_absolute p then RootDir :: named_pieces (split_char slash p)
  else (if decide (head (split_char slash p) = Some dot) then [CurDir] else [])
       ++ named_pieces (split_char slash p).

Definition component_str (c : component) : str :=
  match c with RootDir => [slash] | CurDir => dot | ParentDir => dotdot | Normal s => s end.

Definition of_components (cs : list component) : str :=
  match cs with
  | RootDir :: cs' => slash :: join [slash] (component_str <$> cs')
  | _ => join [slash] (component_str <$> cs)
  end.

(** [PathBuf] equality compares components. *)
Definition path_eq (p q : str) : Prop := components p = components q.
#[export] Instance path_eq_dec p q : Decision (path_eq p q).
Proof. unfold path_eq. apply _. Defined.

(** [path.parent()]. *)
Definition parent (p : str) : option str :=
  match last (components p) with
  | Some (Normal _) | Some CurDir | Some ParentDir =>
      Some (of_components (removelast (components p)))
  | _ => None
  end.

(** [path.file_name()] and [path.file_stem()]. *)
Definition file_name (p : str) : option str :=
  match last (components p) with Some (Normal s) => Some s | _ => None end.
Definition stem_of_name (name : str) : str :=
  match rsplit_once 46%N name with
  | Some ([], _) | None => name
  | Some (before, _) => before
  end.
Definition file_stem (p : str) : option str := stem_of_name <$> file_name p.

(** [path.starts_with(base)] and [path.strip_prefix(base)], on components. *)
Fixpoint strip_components (base cs : list component) : option (list component) :=
  match base, cs with
  | [], _ => Some cs
  | b :: base', c :: cs' => if decide (b = c) then strip_components base' cs' else None
  | _ :: _, [] => None
  end.
Definition path_strip_prefix (base p : str) : option str :=
  of_components <$> strip_components (components base) (components p).
Definition path_starts_with (base p : str) : bool :=
  match strip_components (components base) (components p) with Some _ => true | None => false end.

(** [base.join(p)]. *)
Definition path_join (base p : str) : str :=
  if is_absolute p then p
  else if decide (base = []) then p
  else if decide (last base = Some slash) then base ++ p
  else base ++ slash :: p.

(** [path.ancestors()]: the path, then its parents. *)
Fixpoint ancestors_fuel (n : nat) (p : str) : list str :=
  match n with
  | O => [p]
  | S n' => p :: match parent p with Some q => ancestors_fuel n' q | None => [] end
  end.
Definition ancestors (p : str) : list str := ancestors_fuel (length (components p)) p.

(** * Lemmas *)

Lemma strip_components_Some base cs rest :
  strip_components base cs = Some rest ↔ cs = base ++ rest.
Proof.
  revert cs. induction base as [|b base IH]; intros cs; simpl; [split; congruence|].
  destruct cs as [|c cs]; simpl; [split; congruence|].
  case_decide; [rewrite IH|]; split; congruence.
Qed.

Lemma path_starts_with_spec base p :
  path_starts_with base p = true ↔ ∃ rest, components p = components base ++ rest.
Proof.
  unfold path_starts_with. destruct (strip_components _ _) as [rest|] eqn:E.
  - apply strip_components_Some in E. naive_solver.
  - split; [done|]. intros [rest Hr]. apply strip_components_Some in Hr. congruence.
Qed.

Lemma path_starts_with_refl p : path_starts_with p p = true.
Proof. apply path_starts_with_spec. exists []. by rewrite app_nil_r. Qed.

Lemma path_starts_with_trans p q r :
  path_starts_with p q = true → path_starts_with q r = true → path_starts_with p r = true.
Proof.
  rewrite !path_starts_with_spec. intros [a Ha] [b Hb]. exists (a ++ b).
  by rewrite Hb, Ha, app_assoc.
Qed.

Example components_ex :
  components (lit "/a//b/./c/../d/") =
  [RootDir; Normal (lit "a"); Normal (lit "b"); Normal (lit "c"); ParentDir; Normal (lit "d")].
Proof. vm_compute. reflexivity. Qed.
Example components_ex2 : components (lit "./a/.") = [CurDir; Normal (lit "a")].
Proof. vm_compute. reflexivity. Qed.
Example parent_ex : parent (lit "foo") = Some [] ∧ parent (lit "/") = None
  ∧ parent (lit "/a/b") = Some (lit "/a") ∧ parent [] = None.
Proof. vm_compute. done. Qed.
Example file_stem_ex : file_stem (lit "/bin/bash.exe") = Some (lit "bash")
  ∧ file_stem (lit ".bashrc") = Some (lit ".bashrc").
Proof. vm_compute. done. Qed.

(** The components of a path spelled from components. *)
Definition plain_component (c : component) : Prop :=
  match c with RootDir | CurDir => False | ParentDir => True | Normal s => s ≠ [] ∧ s ≠ dot ∧ s ≠ dotdot ∧ (slash ∉ s) end.
Lemma split_char_no_sep c s p : p ∈ split_char c s → c ∉ p.
Proof.
  revert p. induction s as [|x s IH]; intros p; simpl.
  { intros ->%list_elem_of_singleton. apply not_elem_of_nil. }
  destruct (N.eqb_spec x c) as [->|Hx].
  { intros [->|Hp]%elem_of_cons; [apply not_elem_of_nil|by apply IH]. }
  destruct (split_char c s) as [|q qs].
  { intros ->%list_elem_of_singleton ->%list_elem_of_singleton. done. }
  intros [->|Hp]%elem_of_cons; [|apply IH; by apply elem_of_cons; right].
  intros [->|Hc]%elem_of_cons; [done|]. by apply (IH q (list_elem_of_here _ _)).
Qed.
Lemma classify_plain s : s ≠ [] → s ≠ dot → (slash ∉ s) → plain_component (classify s) ∧ component_str (classify s) = s.
Proof. unfold classify. destruct (decide (s = dotdot)) as [->|]; done. Qed.
Lemma plain_piece c : plain_component c →
  component_str c ≠ [] ∧ component_str c ≠ dot ∧ (slash ∉ component_str c) ∧ classify (component_str c) = c.
Proof.
  destruct c as [| | |s]; try done; simpl.
  - intros _. split_and!; [done|done|by apply contains_char_false|done].
  - intros (? & ? & ? & ?). unfold classify. by rewrite decide_False.
Qed.
Lemma named_pieces_plain ps : (∀ p, p ∈ ps → slash ∉ p) → Forall plain_component (named_pieces ps).
Proof.
  intros Hs. apply Forall_forall. intros c (s & -> & [[? ?] ?]%list_elem_of_filter)%list_elem_of_fmap.
  apply classify_plain; auto.
Qed.
Lemma named_pieces_strs cs : Forall plain_component cs → named_pieces (component_str <$> cs) = cs.
Proof.
  unfold named_pieces. induction 1 as [|c cs Hc _ IH]; [done|]. simpl.
  destruct (plain_piece c Hc) as (? & ? & _ & E). rewrite filter_cons_True by done. rewrite fmap_cons, E.
  f_equal. exact IH.
Qed.
Lemma components_absolute p :
  is_absolute p = true → ∃ cs, components p = RootDir :: cs ∧ Forall plain_component cs.
Proof.
  intros Ha. unfold components. rewrite Ha. eexists. split; [done|].
  apply named_pieces_plain. intros q. apply split_char_no_sep.
Qed.
Lemma components_of_components cs :
  Forall plain_component cs → components (of_components (RootDir :: cs)) = RootDir :: cs.
Proof.
  intros Hcs. unfold components, of_components. replace (is_absolute _) with true by done. f_equal.
  simpl. destruct cs as [|c cs]; [done|].
  rewrite split_char_join; [|done|].
  - unfold named_pieces. rewrite filter_cons_False by naive_solver. by apply (named_pieces_strs (c :: cs)).
  - apply Forall_fmap. eapply Forall_impl; [exact Hcs|]. intros d Hd. by apply plain_piece.
Qed.

(** The last ancestor of an absolute path is the root. *)
Lemma parent_absolute p cs c :
  components p = RootDir :: cs ++ [c] → Forall plain_component (cs ++ [c]) →
  ∃ q, parent p = Some q ∧ components q = RootDir :: cs.
Proof.
  intros E Hp. unfold parent. rewrite E. change (RootDir :: cs ++ [c]) with ((RootDir :: cs) ++ [c]).
  rewrite last_snoc, removelast_snoc. apply Forall_app in Hp as [Hcs [Hc _]%Forall_cons].
  destruct c; try done; (eexists; split; [reflexivity|by apply components_of_components]).
Qed.
Lemma ancestors_fuel_root n p cs :
  components p = RootDir :: cs → Forall plain_component cs → length cs ≤ n →
  ∃ r, last (ancestors_fuel n p) = Some r ∧ components r = [RootDir].
Proof.
  revert p cs. induction n as [|n IH]; intros p cs E Hp Hn.
  { destruct cs; [|simpl in Hn; lia]. by exists p. }
  cbn [ancestors_fuel]. destruct cs as [|c cs _] using rev_ind.
  - exists p. unfold parent. rewrite E. simpl. done.
  - destruct (parent_absolute p cs c E Hp) as (q & -> & Eq). apply Forall_app in Hp as [Hp _].
    rewrite length_app in Hn. simpl in Hn.
    destruct (IH q cs Eq Hp ltac:(lia)) as (r & Hr & Er). exists r. split; [|done].
    rewrite last_cons, Hr. done.
Qed.
Lemma ancestors_root p :
  is_absolute p = true → ∃ r, last (ancestors p) = Some r ∧ components r = [RootDir].
Proof.
  intros (cs & E & Hp)%components_absolute. apply (ancestors_fuel_root _ p cs E Hp). rewrite E. simpl. lia.
Qed.
Lemma components_root_absolute p : head (components p) = Some RootDir → is_absolute p = true.
Proof.
  unfold components. destruct (is_absolute p); [done|].
  destruct (decide _); [done|]. simpl.
  assert (H : Forall (λ c, c ≠ RootDir) (named_pieces (split_char slash p))).
  { apply Forall_forall. intros c (s & -> & _)%list_elem_of_fmap. unfold classify. by destruct (decide _). }
  destruct (named_pieces _) as [|c cs]; [done|]. apply Forall_cons in H as [H _]. intros [= ->]. done.
Qed.

(** Joining a relative path to an absolute base. *)
Lemma split_char_sep c a b : split_char c (a ++ c :: b) = split_char c a ++ split_char c b.
Proof.
  induction a as [|x a IH]; simpl; [by rewrite N.eqb_refl|]. rewrite IH.
  destruct (x =? c)%N; [done|]. pose proof (split_char_not_nil c a). by destruct (split_char c a).
Qed.
Lemma named_pieces_app ps qs : named_pieces (ps ++ qs) = named_pieces ps ++ named_pieces qs.
Proof. unfold named_pieces. by rewrite filter_app, fmap_app. Qed.
Lemma is_absolute_inv p : is_absolute p = true → ∃ q, p = slash :: q.
Proof. intros [q ->]%starts_with_spec. by exists q. Qed.
Lemma components_path_join b p :
  is_absolute b = true → is_absolute p = false →
  is_absolute (path_join b p) = true
  ∧ components (path_join b p) = components b ++ named_pieces (split_char slash p).
Proof.
  intros Hb Hp. unfold path_join. rewrite Hp. destruct (is_absolute_inv b Hb) as [q Eq].
  rewrite decide_False by (by subst b). destruct (decide _) as [Hl|_].
  - apply last_Some in Hl as [b' ->]. rewrite <-app_assoc.
    assert (Ha : is_absolute (b' ++ [slash] ++ p) = true) by (by destruct b' as [|x b']; simpl in Eq |- *; simplify_eq/=).
    split; [done|]. unfold components. rewrite Ha, Hb. simpl. rewrite !split_char_sep, !named_pieces_app.
    simpl. by rewrite app_nil_r.
  - assert (Ha : is_absolute (b ++ slash :: p) = true) by (by subst b).
    split; [done|]. unfold components. rewrite Ha, Hb. simpl. by rewrite split_char_sep, named_pieces_app.
Qed.
Lemma named_pieces_components p :
  is_absolute p = false → named_pieces (split_char slash p) = filter (λ c, c ≠ CurDir) (components p).
Proof.
  intros Hp. unfold components. rewrite Hp.
  assert (E : filter (λ c, c ≠ CurDir) (named_pieces (split_char slash p)) = named_pieces (split_char slash p)).
  { apply filter_true. intros c (s & -> & _)%list_elem_of_fmap. unfold classify. by destruct (decide _). }
  destruct (decide _); cbn [app]; [rewrite filter_cons_False by naive_solver|]; by rewrite E.
Qed.
Lemma named_pieces_trim_slashes s :
  named_pieces (split_char slash (trim_start_matches (N.eqb slash) s)) = named_pieces (split_char slash s).
Proof. induction s as [|x s IH]; [done|]. cbn [trim_start_matches]. destruct (N.eqb_spec slash x) as [<-|]; [|done]. rewrite IH. cbn [split_char]. rewrite N.eqb_refl. reflexivity. Qed.
Lemma trim_slashes_relative s : is_absolute (trim_start_matches (N.eqb slash) s) = false.
Proof.
  induction s as [|x s IH]; [done|]. cbn [trim_start_matches]. destruct (slash =? x)%N eqn:E; [exact IH|].
  unfold is_absolute, starts_with. cbn [strip_prefix]. by rewrite E.
Qed.
Lemma is_absolute_path_eq p q : path_eq p q → is_absolute p = is_absolute q.
Proof.
  intros E. apply eq_true_iff_eq. split; intros Ha; apply components_root_absolute;
    destruct (components_absolute _ Ha) as (cs & Ec & _); [rewrite <-E|rewrite E]; by rewrite Ec.
Qed.

(** * Order *)

(** The derived order of components, and the order of [std::path::Path]. *)
Definition component_rank (c : component) : nat := match c with RootDir => 0 | CurDir => 1 | ParentDir => 2 | Normal _ => 3 end.
Definition component_cmp (a b : component) : comparison :=
  match a, b with
  | Normal s, Normal s' => str_cmp s s'
  | _, _ => Nat.compare (component_rank a) (component_rank b)
  end.
Definition path_cmp (p q : str) : comparison := lex_cmp component_cmp (components p) (components q).
#[export] Instance component_cmp_order : CmpOrder component_cmp.
Proof.
  split.
  - intros [| | |s] [| | |s']; try done. cbn. rewrite (cmp_eq (cmp := str_cmp)). split; [by intros ->|by intros [= ->]].
  - intros [| | |s] [| | |s']; try done. apply (cmp_opp (cmp := str_cmp)).
  - intros [| | |x] [| | |y] [| | |z]; try done. apply (cmp_trans (cmp := str_cmp)).
Qed.
Lemma path_cmp_eq p q : path_cmp p q = Eq ↔ path_eq p q.
Proof. apply (cmp_eq (cmp := lex_cmp component_cmp)). Qed.
