(* ===== verification/FileSystem.v ===== *)
(** The interface between the components that read and write files and the
    operating system: the operations of [std::fs] they call, the documented
    behaviour they rely on, and an in-memory file system that has it. *)
From stdpp Require Import gmap.
From S2P Require Import Prelude RustStr RustPath.

(** [std::io::Error], observed through its [Display] text. *)
Abbreviation io_error := str (only parsing).

Class FileSystem (FS : Type) : Type := {
  fs_read : FS → str → outcome io_error str;
  fs_write : str → str → stm FS io_error unit;
  fs_remove_file : str → stm FS io_error unit;
  fs_create_dir_all : str → stm FS io_error unit }.

(** What the code relies on. [fs_apart p q] says that the two paths name
    different files; an operation that succeeds leaves the files apart from
    its path as they were, and creating directories changes no file. *)
Class FileSystemLaws (FS : Type) `{FileSystem FS} : Type := {
  fs_apart : str → str → Prop;
  fs_write_read fs fs' p c :
    fs_write p c fs = (fs', Ok tt) → fs_read fs' p = Ok c;
  fs_write_frame fs fs' p c q d :
    fs_write p c fs = (fs', Ok tt) → fs_apart p q →
    fs_read fs' q = Ok d ↔ fs_read fs q = Ok d;
  fs_remove_read fs fs' p c :
    fs_remove_file p fs = (fs', Ok tt) → fs_read fs' p ≠ Ok c;
  fs_remove_frame fs fs' p q d :
    fs_remove_file p fs = (fs', Ok tt) → fs_apart p q →
    fs_read fs' q = Ok d ↔ fs_read fs q = Ok d;
  fs_create_dir_frame fs fs' p q d :
    fs_create_dir_all p fs = (fs', Ok tt) →
    fs_read fs' q = Ok d ↔ fs_read fs q = Ok d }.

(** The file at a path, if it can be read. *)
Definition view {FS : Type} `{FileSystem FS} (fs : FS) (p : str) : option str :=
  match fs_read fs p with Ok c => Some c | _ => None end.

Lemma view_Some {FS : Type} `{FileSystem FS} (fs : FS) p c : view fs p = Some c ↔ fs_read fs p = Ok c.
Proof. unfold view. destruct (fs_read fs p); split; congruence. Qed.

Lemma view_ext {FS : Type} `{FileSystem FS} (fs fs' : FS) q :
  (∀ d, fs_read fs' q = Ok d ↔ fs_read fs q = Ok d) → view fs' q = view fs q.
Proof.
  intros Hd. apply option_eq. intros d. by rewrite !view_Some.
Qed.

(** * An in-memory file system *)

Definition path_key (p : str) : str := of_components (components p).
Record mem_fs : Type := MemFs { mem_files : gmap str str }.

#[export] Instance mem_file_system : FileSystem mem_fs := {|
  fs_read fs p := match mem_files fs !! path_key p with
                  | Some c => Ok c
                  | None => Err (lit "No such file or directory (os error 2)")
                  end;
  fs_write p c fs := (MemFs (<[path_key p := c]> (mem_files fs)), Ok tt);
  fs_remove_file p fs :=
    match mem_files fs !! path_key p with
    | Some _ => (MemFs (delete (path_key p) (mem_files fs)), Ok tt)
    | None => (fs, Err (lit "No such file or directory (os error 2)"))
    end;
  fs_create_dir_all p fs := (fs, Ok tt) |}.

#[export] Instance mem_file_system_laws : FileSystemLaws mem_fs.
Proof.
  refine {| fs_apart p q := path_key p ≠ path_key q |}; cbn.
  - intros fs fs' p c [= <-]. cbn. by rewrite lookup_insert_eq.
  - intros fs fs' p c q d [= <-] Hne. cbn. by rewrite lookup_insert_ne.
  - intros fs fs' p c. destruct (mem_files fs !! path_key p); [|done].
    intros [= <-]. cbn. by rewrite lookup_delete_eq.
  - intros fs fs' p q d. destruct (mem_files fs !! path_key p); [|done].
    intros [= <-] Hne. cbn. by rewrite lookup_delete_ne.
  - by intros fs fs' p q d [= <-].
Defined.
