(* ===== verification/SeekSequence.v ===== *)
(** Locating a block of lines in a file:
    [codex-rs/apply-patch/src/seek_sequence.rs]. *)
From S2P Require Import Prelude RustStr.

(** The local function [normalise] of the last pass: trim, then map
    typographic dashes, quotes and spaces to ASCII. *)
Definition normalise_char (c : N) : N :=
  if (existsb (N.eqb c) [0x2010; 0x2011; 0x2012; 0x2013; 0x2014; 0x2015; 0x2212])%N then 45%N
  else if (existsb (N.eqb c) [0x2018; 0x2019; 0x201A; 0x201B])%N then 39%N
  else if (existsb (N.eqb c) [0x201C; 0x201D; 0x201E; 0x201F])%N then 34%N
  else if (existsb (N.eqb c) [0x00A0; 0x2002; 0x2003; 0x2004; 0x2005; 0x2006; 0x2007;
                              0x2008; 0x2009; 0x200A; 0x202F; 0x205F; 0x3000])%N then 32%N
  else c.
Definition normalise (s : str) : str := normalise_char <$> trim s.

(** One comparison of the pattern with the lines from index [i]: the inner
    loop, with its early exit. [lines[i + p_idx]] out of range panics. *)
Fixpoint matches_from (eqv : str -> str -> bool) (lines pattern : list str) (i : nat)
    : outcome Empty_set bool :=
  match pattern with
  | [] => Ok true
  | pat :: pattern' =>
      match lines !! i with
      | None => Panic
      | Some l => if eqv l pat then matches_from eqv lines pattern' (S i) else Ok false
      end
  end.

(** One pass over the candidate indices [i], [i+1], ..., [i+n-1]. *)
Fixpoint scan (eqv : str -> str -> bool) (lines pattern : list str) (i n : nat)
    : outcome Empty_set (option nat) :=
  match n with
  | O => Ok None
  | S n' =>
      b ← matches_from eqv lines pattern i;
      if (b : bool) then Ok (Some i) else scan eqv lines pattern (S i) n'
  end.

(** The four passes, in decreasing strictness. *)
Definition eq_exact (a b : str) : bool := bool_decide (a = b).
Definition eq_trim_end (a b : str) : bool := bool_decide (trim_end a = trim_end b).
Definition eq_trim (a b : str) : bool := bool_decide (trim a = trim b).
Definition eq_normalise (a b : str) : bool := bool_decide (normalise a = normalise b).
Definition passes : list (str -> str -> bool) :=
  [eq_exact; eq_trim_end; eq_trim; eq_normalise].

Fixpoint run_passes (ps : list (str -> str -> bool)) (lines pattern : list str) (i n : nat)
    : outcome Empty_set (option nat) :=
  match ps with
  | [] => Ok None
  | eqv :: ps' =>
      r ← scan eqv lines pattern i n;
      match r with
      | Some j => Ok (Some j)
      | None => run_passes ps' lines pattern i n
      end
  end.

Definition search_start (lines pattern : list str) (start : nat) (eof : bool) : nat :=
  if eof && (length pattern <=? length lines) then length lines - length pattern else start.

(** Number of indices in [search_start..=lines.len().saturating_sub(pattern.len())]. *)
Definition candidates (lines pattern : list str) (start : nat) (eof : bool) : nat :=
  S (length lines - length pattern) - search_start lines pattern start eof.

Definition seek_sequence (lines pattern : list str) (start : nat) (eof : bool)
    : outcome Empty_set (option nat) :=
  match pattern with
  | [] => Ok (Some start)
  | _ =>
      if length lines <? length pattern then Ok None
      else run_passes passes lines pattern
             (search_start lines pattern start eof) (candidates lines pattern start eof)
  end.

(** * The specification of a search *)

(** The block of lines at [i] matches the pattern, line by line. *)
Definition matches_at (eqv : str → str → bool) (lines pattern : list str) (i : nat) : Prop :=
  Forall2 (λ l p, eqv l p = true) (take (length pattern) (drop i lines)) pattern.
#[export] Instance matches_at_dec eqv lines pattern i : Decision (matches_at eqv lines pattern i).
Proof. unfold matches_at. apply _. Defined.

(** Every match of a pass, in index order, over the candidate indices. *)
Definition pass_matches (lines pattern : list str) (i n : nat) (eqv : str → str → bool) : list nat :=
  filter (matches_at eqv lines pattern) (seq i n).

(** The specification: the first match in the order (pass, index). *)
Definition seek_spec (lines pattern : list str) (start : nat) (eof : bool) : option nat :=
  head (passes ≫= pass_matches lines pattern
          (search_start lines pattern start eof) (candidates lines pattern start eof)).

(** * Lemmas *)

Lemma matches_from_spec eqv lines pattern i :
  i + length pattern ≤ length lines →
  matches_from eqv lines pattern i = Ok (bool_decide (matches_at eqv lines pattern i)).
Proof.
  revert i. induction pattern as [|p pattern IH]; intros i Hi.
  - rewrite bool_decide_true; [done|]. unfold matches_at. by rewrite take_0.
  - cbn [length] in Hi. destruct (lookup_lt_is_Some_2 lines i) as [l Hl]; [lia|].
    cbn [matches_from]. rewrite Hl.
    assert (matches_at eqv lines (p :: pattern) i
            ↔ eqv l p = true ∧ matches_at eqv lines pattern (S i)) as Hm.
    { unfold matches_at. rewrite (drop_S lines l i Hl). cbn [length]. rewrite firstn_cons.
      by rewrite Forall2_cons. }
    destruct (eqv l p) eqn:E.
    + rewrite IH by lia. f_equal. apply bool_decide_ext. rewrite Hm. tauto.
    + rewrite bool_decide_false; [done|]. rewrite Hm. by intros [? _].
Qed.

Lemma scan_spec eqv lines pattern i n :
  (n ≠ 0 → i + n + length pattern ≤ S (length lines)) →
  scan eqv lines pattern i n = Ok (head (pass_matches lines pattern i n eqv)).
Proof.
  unfold pass_matches. revert i. induction n as [|n IH]; intros i Hi; [done|].
  cbn [scan seq]. rewrite matches_from_spec by lia. run_bind.
  rewrite filter_cons. case_bool_decide as Hm.
  - by rewrite decide_True.
  - rewrite decide_False by done. apply IH. lia.
Qed.


Lemma run_passes_spec ps lines pattern i n :
  (n ≠ 0 → i + n + length pattern ≤ S (length lines)) →
  run_passes ps lines pattern i n = Ok (head (ps ≫= pass_matches lines pattern i n)).
Proof.
  intros Hi. induction ps as [|eqv ps IH]; [done|].
  cbn [run_passes]. rewrite scan_spec by done. run_bind.
  rewrite bind_cons, head_app_option.
  by destruct (head (pass_matches lines pattern i n eqv)).
Qed.

Lemma candidates_bound lines pattern start eof :
  length pattern ≤ length lines → candidates lines pattern start eof ≠ 0 →
  search_start lines pattern start eof + candidates lines pattern start eof + length pattern
  ≤ S (length lines).
Proof. unfold candidates. lia. Qed.

Lemma elem_of_pass_matches lines pattern i n eqv j :
  j ∈ pass_matches lines pattern i n eqv ↔ matches_at eqv lines pattern j ∧ i ≤ j < i + n.
Proof. unfold pass_matches. by rewrite list_elem_of_filter, elem_of_seq. Qed.

Lemma head_elem_of {A} (l : list A) x : head l = Some x → x ∈ l.
Proof. destruct l; [done|]. intros [= ->]. set_solver. Qed.

Lemma seek_spec_elem lines pattern start eof j :
  seek_spec lines pattern start eof = Some j →
  ∃ eqv, eqv ∈ passes ∧ matches_at eqv lines pattern j
    ∧ search_start lines pattern start eof ≤ j
    ∧ j < search_start lines pattern start eof + candidates lines pattern start eof.
Proof.
  intros H%head_elem_of. apply list_elem_of_bind in H as (eqv & Hj & Hp).
  apply elem_of_pass_matches in Hj as [? ?]. eauto with lia.
Qed.

Lemma seek_sequence_eq lines pattern start eof :
  pattern ≠ [] → length pattern ≤ length lines →
  seek_sequence lines pattern start eof = Ok (seek_spec lines pattern start eof).
Proof.
  intros Hp Hl. unfold seek_sequence. destruct pattern as [|p ps]; [done|].
  destruct (Nat.ltb_spec (length lines) (length (p :: ps))); [lia|].
  apply run_passes_spec. intros ?. by apply candidates_bound.
Qed.

(** Bounds on a result, for the callers. *)
Lemma seek_sequence_bounds lines pattern start eof :
  ∃ r, seek_sequence lines pattern start eof = Ok r ∧
    ∀ j, r = Some j →
      (pattern = [] ∧ j = start) ∨
      (j + length pattern ≤ length lines ∧ search_start lines pattern start eof ≤ j).
Proof.
  destruct pattern as [|p ps] eqn:E.
  { eexists. split; [done|]. intros j [= ->]. by left. }
  rewrite <-E in *. assert (pattern ≠ []) as Hne by by subst.
  destruct (decide (length pattern ≤ length lines)) as [Hl|Hl].
  - rewrite seek_sequence_eq by done. eexists. split; [done|]. intros j Hj.
    apply seek_spec_elem in Hj as (eqv & _ & _ & ? & ?). right.
    pose proof (candidates_bound lines pattern start eof Hl). lia.
  - exists None. split; [|done]. unfold seek_sequence. rewrite E. rewrite <-E.
    by destruct (Nat.ltb_spec (length lines) (length pattern)); [|lia].
Qed.

(** A match of any pass is a match of the most permissive one. *)
Lemma trim_start_end_comm s : trim_start (trim_end s) = trim_end (trim_start s).
Proof.
  unfold trim_start, trim_end. induction s as [|c s IH]; [done|]. simpl.
  unfold trim_end_matches in *. rewrite reverse_cons. destruct (is_whitespace c) eqn:Hc.
  - destruct (trim_start_matches is_whitespace (reverse s)) as [|d t] eqn:E.
    + assert (trim_start_matches is_whitespace (reverse s ++ [c]) = []) as ->.
      { clear IH. induction (reverse s) as [|x l IHl]; simpl in *; [by rewrite Hc|].
        destruct (is_whitespace x); [auto|done]. }
      rewrite <-IH. done.
    + rewrite trim_start_matches_app, E by by rewrite E.
      rewrite reverse_app. simpl. by rewrite Hc.
  - rewrite reverse_cons. clear IH.
    assert (∀ l, ∃ t, trim_start_matches is_whitespace (l ++ [c]) = t ++ [c]) as Ht.
    { induction l as [|x l [t Ht]]; simpl; [rewrite Hc; by exists []|].
      destruct (is_whitespace x); [by exists t|by exists (x :: l)]. }
    destruct (Ht (reverse s)) as [t ->]. rewrite reverse_app. simpl. by rewrite Hc.
Qed.

Lemma passes_normalise eqv a b : eqv ∈ passes → eqv a b = true → normalise a = normalise b.
Proof.
  intros Hp H. unfold normalise. unfold passes in Hp. rewrite !elem_of_cons, elem_of_nil in Hp.
  destruct Hp as [->|[->|[->|[->|[]]]]]; apply bool_decide_eq_true in H; try congruence.
  - unfold trim. rewrite <-!trim_start_end_comm. by rewrite H.
  - done.
Qed.

(** * Properties *)

(** [seek_sequence] never panics and computes its specification: an empty
    pattern matches at [start], a pattern longer than the file nowhere, and
    otherwise the answer is the first match in the order (pass, index), the
    passes being exact, trailing white space ignored, surrounding white space
    ignored, typographic characters normalised. *)
Theorem seek_sequence_spec lines pattern start eof :
  seek_sequence lines pattern start eof =
  Ok (if decide (pattern = []) then Some start
      else if decide (length lines < length pattern) then None
      else seek_spec lines pattern start eof).
Proof.
  case_decide as Hp; [by subst|]. case_decide as Hl; [|by apply seek_sequence_eq; [|lia]].
  unfold seek_sequence. destruct pattern; [done|].
  by rewrite (proj2 (Nat.ltb_lt _ _)).
Qed.

(** Every answer for a non-empty pattern is a block inside the file that
    equals the pattern line by line up to normalisation; it starts at or
    after [start], or, with [eof], at the only index where the block ends the
    file: with [eof] there is no fall-back to a search from [start]. *)
Theorem seek_sequence_sound lines pattern start eof j :
  pattern ≠ [] → seek_sequence lines pattern start eof = Ok (Some j) →
  j + length pattern ≤ length lines ∧
  Forall2 (λ l p, normalise l = normalise p) (take (length pattern) (drop j lines)) pattern ∧
  if eof then j = length lines - length pattern else start ≤ j.
Proof.
  intros Hp Hs. destruct (decide (length pattern ≤ length lines)) as [Hl|Hl].
  2:{ unfold seek_sequence in Hs. destruct pattern; [done|].
      by rewrite (proj2 (Nat.ltb_lt _ _)) in Hs by lia. }
  rewrite seek_sequence_eq in Hs by done. injection Hs as Hs.
  apply seek_spec_elem in Hs as (eqv & Heqv & Hm & Hlo & Hhi).
  pose proof (candidates_bound lines pattern start eof Hl).
  split_and!; [lia| |].
  - eapply Forall2_impl; [apply Hm|]. intros l p. by apply passes_normalise.
  - unfold candidates, search_start in *. destruct eof; simpl in *; [|lia].
    rewrite (proj2 (Nat.leb_le _ _)) in * by done. lia.
Qed.

(** Nothing found means nothing there: when the answer is [None], no
    candidate index starts a block equal to the pattern, even up to
    normalisation. *)
Theorem seek_sequence_complete lines pattern start eof :
  seek_sequence lines pattern start eof = Ok None →
  ∀ j, search_start lines pattern start eof ≤ j → j + length pattern ≤ length lines →
  ¬ Forall2 (λ l p, normalise l = normalise p) (take (length pattern) (drop j lines)) pattern.
Proof.
  intros Hs j Hlo Hhi HF. assert (pattern ≠ []) as Hp by (intros ->; done).
  rewrite seek_sequence_eq in Hs by (done || lia). injection Hs as Hs.
  assert (j ∈ passes ≫= pass_matches lines pattern (search_start lines pattern start eof)
                 (candidates lines pattern start eof)) as Hj.
  { apply list_elem_of_bind. exists eq_normalise. split; [|unfold passes; set_solver].
    apply elem_of_pass_matches. unfold candidates. split; [|lia].
    eapply Forall2_impl; [done|]. intros l p. apply bool_decide_eq_true. }
  unfold seek_spec in Hs. destruct (_ ≫= _); [by apply not_elem_of_nil in Hj|done].
Qed.

(** * Witnesses *)

Definition sample_lines : list str := [lit "a"; lit "b "; lit "c"; lit "b"].

Lemma seek_sequence_sound_witness :
  seek_sequence sample_lines [lit "b"; lit "c"] 0 false = Ok (Some 1) ∧
  1 + 2 ≤ length sample_lines ∧
  Forall2 (λ l p, normalise l = normalise p) (take 2 (drop 1 sample_lines)) [lit "b"; lit "c"] ∧
  0 ≤ 1.
Proof.
  assert (seek_sequence sample_lines [lit "b"; lit "c"] 0 false = Ok (Some 1)) as H
    by (vm_compute; reflexivity).
  split; [exact H|]. exact (seek_sequence_sound sample_lines [lit "b"; lit "c"] 0 false 1
    ltac:(discriminate) H).
Defined.

(** With [eof], a block that is not at the end of the file is not found. *)
Lemma seek_sequence_complete_witness :
  seek_sequence sample_lines [lit "a"] 0 true = Ok None ∧
  ¬ Forall2 (λ l p, normalise l = normalise p) (take 1 (drop 3 sample_lines)) [lit "a"].
Proof.
  assert (seek_sequence sample_lines [lit "a"] 0 true = Ok None) as H by (vm_compute; reflexivity).
  split; [exact H|].
  exact (seek_sequence_complete sample_lines [lit "a"] 0 true H 3
    ltac:(vm_compute; lia) ltac:(vm_compute; lia)).
Defined.
