(* ===== verification/PatchParser.v ===== *)
(** The patch parser: [codex-rs/apply-patch/src/parser.rs]. *)
From S2P Require Import Prelude RustStr.

Definition BEGIN_PATCH_MARKER : str := lit "*** Begin Patch".
Definition END_PATCH_MARKER : str := lit "*** End Patch".
Definition ADD_FILE_MARKER : str := lit "*** Add File: ".
Definition DELETE_FILE_MARKER : str := lit "*** Delete File: ".
Definition UPDATE_FILE_MARKER : str := lit "*** Update File: ".
Definition MOVE_TO_MARKER : str := lit "*** Move to: ".
Definition EOF_MARKER : str := lit "*** End of File".
Definition CHANGE_CONTEXT_MARKER : str := lit "@@ ".
Definition EMPTY_CHANGE_CONTEXT_MARKER : str := lit "@@".
Definition PARSE_IN_STRICT_MODE : bool := false.

Inductive ParseError : Type :=
| InvalidPatchError (message : str)
| InvalidHunkError (message : str) (line_number : nat).

Record UpdateFileChunk : Type := {
  change_context : option str;
  old_lines : list str;
  new_lines : list str;
  is_end_of_file : bool }.

Inductive Hunk : Type :=
| AddFile (path contents : str)
| DeleteFile (path : str)
| UpdateFile (path : str) (move_path : option str) (chunks : list UpdateFileChunk).

Record ApplyPatchArgs : Type := {
  patch : str;
  hunks : list Hunk;
  workdir : option str }.

Inductive ParseMode : Type := Strict | Lenient.

Definition check_start_and_end_lines_strict (first_line last_line : option str)
    : outcome ParseError unit :=
  let first_line := trim <$> first_line in
  let last_line := trim <$> last_line in
  let last_err := Err (InvalidPatchError
        (lit "The last line of the patch must be '*** End Patch'")) in
  match first_line with
  | Some first =>
      if decide (first = BEGIN_PATCH_MARKER) then
        match last_line with
        | Some last => if decide (last = END_PATCH_MARKER) then Ok tt else last_err
        | None => last_err
        end
      else Err (InvalidPatchError
        (lit "The first line of the patch must be '*** Begin Patch'"))
  | None => last_err
  end.

Definition check_patch_boundaries_strict (lines : list str) : outcome ParseError unit :=
  match lines with
  | [] => check_start_and_end_lines_strict None None
  | first :: _ => check_start_and_end_lines_strict (Some first) (last lines)
  end.

(** The three spellings of the heredoc opener; [34] is the double quote. *)
Definition heredoc_openers : list str :=
  [lit "<<EOF"; lit "<<'EOF'"; lit "<<" ++ [34%N] ++ lit "EOF" ++ [34%N]].

(** [&lines[1..lines.len() - 1]] of a slice of at least two lines. *)
Definition inner (lines : list str) : list str := removelast (tail lines).

Definition check_patch_boundaries_lenient (original_lines : list str)
    (original_parse_error : ParseError) : outcome ParseError (list str) :=
  match original_lines, last original_lines with
  | first :: _ :: _, Some last =>
      if bool_decide (first ∈ heredoc_openers) && ends_with (lit "EOF") last
         && (4 <=? length original_lines)
      then
        let inner_lines := inner original_lines in
        _ ← check_patch_boundaries_strict inner_lines;
        Ok inner_lines
      else Err original_parse_error
  | _, _ => Err original_parse_error
  end.

Definition push_old (s : str) (c : UpdateFileChunk) : UpdateFileChunk :=
  {| change_context := change_context c; old_lines := old_lines c ++ [s];
     new_lines := new_lines c; is_end_of_file := is_end_of_file c |}.
Definition push_new (s : str) (c : UpdateFileChunk) : UpdateFileChunk :=
  {| change_context := change_context c; old_lines := old_lines c;
     new_lines := new_lines c ++ [s]; is_end_of_file := is_end_of_file c |}.
Definition set_eof (c : UpdateFileChunk) : UpdateFileChunk :=
  {| change_context := change_context c; old_lines := old_lines c;
     new_lines := new_lines c; is_end_of_file := true |}.

Definition no_lines_message : str := lit "Update hunk does not contain any lines".

(** The [for line in &lines[start_index..]] loop of [parse_update_file_chunk]. *)
Fixpoint chunk_loop (lines : list str) (line_number : nat) (chunk : UpdateFileChunk)
    (parsed_lines : nat) : outcome ParseError (UpdateFileChunk * nat) :=
  match lines with
  | [] => Ok (chunk, parsed_lines)
  | line :: lines' =>
      if decide (line = EOF_MARKER) then
        if decide (parsed_lines = 0) then
          Err (InvalidHunkError no_lines_message (line_number + 1))
        else Ok (set_eof chunk, parsed_lines + 1)
      else
        match line with
        | [] => chunk_loop lines' line_number (push_new [] (push_old [] chunk)) (parsed_lines + 1)
        | c :: rest =>
            if (c =? 32)%N then
              chunk_loop lines' line_number (push_new rest (push_old rest chunk)) (parsed_lines + 1)
            else if (c =? 43)%N then
              chunk_loop lines' line_number (push_new rest chunk) (parsed_lines + 1)
            else if (c =? 45)%N then
              chunk_loop lines' line_number (push_old rest chunk) (parsed_lines + 1)
            else if decide (parsed_lines = 0) then
              Err (InvalidHunkError
                (lit "Unexpected line found in update hunk: '" ++ line ++
                 lit "'. Every line should start with ' ' (context line), '+' (added line), or '-' (removed line)")
                (line_number + 1))
            else Ok (chunk, parsed_lines)
        end
  end.

Definition parse_update_file_chunk (lines : list str) (line_number : nat)
    (allow_missing_context : bool) : outcome ParseError (UpdateFileChunk * nat) :=
  match lines with
  | [] => Err (InvalidHunkError no_lines_message line_number)
  | line0 :: _ =>
      '(context, start_index) ←
        (if decide (line0 = EMPTY_CHANGE_CONTEXT_MARKER) then Ok (None, 1)
         else match strip_prefix CHANGE_CONTEXT_MARKER line0 with
              | Some context => Ok (Some context, 1)
              | None =>
                  if negb allow_missing_context then
                    Err (InvalidHunkError
                      (lit "Expected update hunk to start with a @@ context marker, got: '"
                       ++ line0 ++ lit "'") line_number)
                  else Ok (None, 0)
              end);
      if length lines <=? start_index then
        Err (InvalidHunkError no_lines_message (line_number + 1))
      else
        let chunk := {| change_context := context; old_lines := []; new_lines := [];
                        is_end_of_file := false |} in
        '(chunk, parsed_lines) ← chunk_loop (drop start_index lines) line_number chunk 0;
        Ok (chunk, parsed_lines + start_index)
  end.

(** The [for add_line in &lines[1..]] loop of the [Add File] case. *)
Fixpoint add_lines_loop (lines : list str) (contents : str) (parsed_lines : nat) : str * nat :=
  match lines with
  | [] => (contents, parsed_lines)
  | add_line :: lines' =>
      match strip_prefix (lit "+") add_line with
      | Some line_to_add => add_lines_loop lines' (contents ++ line_to_add ++ [nl]) (parsed_lines + 1)
      | None => (contents, parsed_lines)
      end
  end.

(** The [while !remaining_lines.is_empty()] loop of the [Update File] case. *)
Fixpoint update_loop (fuel : nat) (remaining_lines : list str) (line_number parsed_lines : nat)
    (chunks : list UpdateFileChunk) : outcome ParseError (list UpdateFileChunk * nat) :=
  match remaining_lines with
  | [] => Ok (chunks, parsed_lines)
  | line0 :: rest =>
      match fuel with
      | O => OutOfFuel
      | S fuel' =>
          if decide (trim line0 = []) then
            update_loop fuel' rest line_number (parsed_lines + 1) chunks
          else if starts_with (lit "***") line0 then Ok (chunks, parsed_lines)
          else
            '(chunk, chunk_lines) ← parse_update_file_chunk remaining_lines
                (line_number + parsed_lines) (bool_decide (chunks = []));
            if length remaining_lines <? chunk_lines then Panic
            else update_loop fuel' (drop chunk_lines remaining_lines) line_number
                   (parsed_lines + chunk_lines) (chunks ++ [chunk])
      end
  end.

Definition parse_one_hunk (lines : list str) (line_number : nat)
    : outcome ParseError (Hunk * nat) :=
  match lines with
  | [] => Panic
  | line0 :: lines' =>
      let first_line := trim line0 in
      match strip_prefix ADD_FILE_MARKER first_line with
      | Some path =>
          let '(contents, parsed_lines) := add_lines_loop lines' [] 1 in
          Ok (AddFile path contents, parsed_lines)
      | None =>
      match strip_prefix DELETE_FILE_MARKER first_line with
      | Some path => Ok (DeleteFile path, 1)
      | None =>
      match strip_prefix UPDATE_FILE_MARKER first_line with
      | Some path =>
          let move_path := match lines' with
                           | x :: _ => strip_prefix MOVE_TO_MARKER x
                           | [] => None
                           end in
          let '(remaining_lines, parsed_lines) :=
            match move_path with Some _ => (tail lines', 2) | None => (lines', 1) end in
          '(chunks, parsed_lines) ←
             update_loop (length remaining_lines) remaining_lines line_number parsed_lines [];
          if decide (chunks = []) then
            Err (InvalidHunkError
              (lit "Update file hunk for path '" ++ path ++ lit "' is empty") line_number)
          else Ok (UpdateFile path move_path chunks, parsed_lines)
      | None =>
          Err (InvalidHunkError
            (lit "'" ++ first_line ++
             lit "' is not a valid hunk header. Valid hunk headers: '*** Add File: {path}', '*** Delete File: {path}', '*** Update File: {path}'")
            line_number)
      end end end
  end.

(** The [while] loop of [parse_patch_text]. *)
Fixpoint hunks_loop (fuel : nat) (remaining_lines : list str) (line_number : nat)
    (hunks : list Hunk) : outcome ParseError (list Hunk) :=
  match remaining_lines with
  | [] => Ok hunks
  | _ =>
      match fuel with
      | O => OutOfFuel
      | S fuel' =>
          '(hunk, hunk_lines) ← parse_one_hunk remaining_lines line_number;
          if length remaining_lines <? hunk_lines then Panic
          else hunks_loop fuel' (drop hunk_lines remaining_lines)
                 (line_number + hunk_lines) (hunks ++ [hunk])
      end
  end.

(** [&lines[1..last_line_index]] panics on fewer than one line. *)
Definition parse_patch_text (text : str) (mode : ParseMode) : outcome ParseError ApplyPatchArgs :=
  let lines := lines (trim text) in
  lines ←
    match check_patch_boundaries_strict lines with
    | Err e => match mode with
               | Strict => Err e
               | Lenient => check_patch_boundaries_lenient lines e
               end
    | Ok _ => Ok lines
    | Panic => Panic
    | OutOfFuel => OutOfFuel
    end;
  let last_line_index := length lines - 1 in
  if last_line_index <? 1 then Panic
  else
    let remaining_lines := take (last_line_index - 1) (drop 1 lines) in
    hunks ← hunks_loop (length remaining_lines) remaining_lines 2 [];
    Ok {| patch := join [nl] lines; hunks := hunks; workdir := None |}.

Definition parse_patch (text : str) : outcome ParseError ApplyPatchArgs :=
  parse_patch_text text (if PARSE_IN_STRICT_MODE then Strict else Lenient).

#[global] Arguments parse_update_file_chunk : simpl never.
#[global] Arguments parse_one_hunk : simpl never.

(** * The documented grammar *)

(** A patch document, as the grammar in the module's header describes it, its
    text and its meaning. *)
Inductive diff_line : Type := Context (s : str) | Removed (s : str) | Added (s : str).
Record chunk_doc : Type := {
  cd_context : option str;
  cd_lines : list diff_line;
  cd_eof : bool }.
Inductive hunk_doc : Type :=
| AddDoc (path : str) (content : list str)
| DeleteDoc (path : str)
| UpdateDoc (path : str) (move_to : option str) (chunks : list chunk_doc).

Definition diff_text (d : diff_line) : str :=
  match d with Context s | Removed s | Added s => s end.
Definition render_diff_line (d : diff_line) : str :=
  match d with
  | Context s => 32%N :: s
  | Removed s => 45%N :: s
  | Added s => 43%N :: s
  end.
Definition render_context (c : option str) : str :=
  match c with
  | None => EMPTY_CHANGE_CONTEXT_MARKER
  | Some s => CHANGE_CONTEXT_MARKER ++ s
  end.
Definition render_chunk (c : chunk_doc) : list str :=
  render_context (cd_context c) :: (render_diff_line <$> cd_lines c)
  ++ (if cd_eof c then [EOF_MARKER] else []).
Definition render_chunks (cs : list chunk_doc) : list str := concat (render_chunk <$> cs).
Definition render_hunk (h : hunk_doc) : list str :=
  match h with
  | AddDoc p ls => (ADD_FILE_MARKER ++ p) :: ((λ l, 43%N :: l) <$> ls)
  | DeleteDoc p => [DELETE_FILE_MARKER ++ p]
  | UpdateDoc p mv cs =>
      (UPDATE_FILE_MARKER ++ p)
      :: match mv with Some m => [MOVE_TO_MARKER ++ m] | None => [] end
      ++ render_chunks cs
  end.
Definition render_hunks (hs : list hunk_doc) : list str := concat (render_hunk <$> hs).
Definition render_patch (hs : list hunk_doc) : list str :=
  BEGIN_PATCH_MARKER :: render_hunks hs ++ [END_PATCH_MARKER].
Definition patch_text (hs : list hunk_doc) : str := join [nl] (render_patch hs).

(** The same document in the heredoc wrapper that lenient mode accepts. *)
Definition heredoc_text (opener closer : str) (hs : list hunk_doc) : str :=
  join [nl] (opener :: render_patch hs ++ [closer]).

Definition old_of (d : diff_line) : list str :=
  match d with Context s | Removed s => [s] | Added _ => [] end.
Definition new_of (d : diff_line) : list str :=
  match d with Context s | Added s => [s] | Removed _ => [] end.
Definition denote_chunk (c : chunk_doc) : UpdateFileChunk :=
  {| change_context := cd_context c;
     old_lines := concat (old_of <$> cd_lines c);
     new_lines := concat (new_of <$> cd_lines c);
     is_end_of_file := cd_eof c |}.
Definition denote_hunk (h : hunk_doc) : Hunk :=
  match h with
  | AddDoc p ls => AddFile p (concat ((λ l, l ++ [nl]) <$> ls))
  | DeleteDoc p => DeleteFile p
  | UpdateDoc p mv cs => UpdateFile p mv (denote_chunk <$> cs)
  end.

(** Side conditions of the grammar: every line is one line, a path is not
    empty and does not end in white space, a chunk has a line, an update has
    a chunk. *)
Definition wf_path (p : str) : Prop := plain_line p ∧ p ≠ [] ∧ trim_end p = p.
Definition wf_chunk (c : chunk_doc) : Prop :=
  (∀ s, cd_context c = Some s → plain_line s) ∧ cd_lines c ≠ []
  ∧ Forall (λ d, plain_line (diff_text d)) (cd_lines c).
Definition wf_hunk (h : hunk_doc) : Prop :=
  match h with
  | AddDoc p ls => wf_path p ∧ Forall plain_line ls
  | DeleteDoc p => wf_path p
  | UpdateDoc p mv cs =>
      wf_path p ∧ (∀ m, mv = Some m → plain_line m) ∧ cs ≠ [] ∧ Forall wf_chunk cs
  end.

(** A line that ends the chunk, or the hunk, in front of it. *)
Definition ends_chunk (rest : list str) : Prop :=
  match rest with
  | [] => True
  | l :: _ => l ≠ EOF_MARKER ∧ ∃ c t, l = c :: t ∧ (c = 42 ∨ c = 64)%N
  end.
Definition ends_hunk (rest : list str) : Prop :=
  match rest with
  | [] => True
  | l :: _ => l ≠ EOF_MARKER ∧ starts_with (lit "***") l = true
  end.

(** * Lemmas on the loops *)

Definition add_diff (ds : list diff_line) (c : UpdateFileChunk) : UpdateFileChunk :=
  {| change_context := change_context c;
     old_lines := old_lines c ++ concat (old_of <$> ds);
     new_lines := new_lines c ++ concat (new_of <$> ds);
     is_end_of_file := is_end_of_file c |}.

Lemma add_diff_nil c : add_diff [] c = c.
Proof. unfold add_diff; destruct c; simpl. by rewrite !app_nil_r. Qed.

Lemma chunk_loop_diff ds rest n c k :
  chunk_loop ((render_diff_line <$> ds) ++ rest) n c k
  = chunk_loop rest n (add_diff ds c) (k + length ds).
Proof.
  revert c k. induction ds as [|d ds IH]; intros c k.
  - by rewrite add_diff_nil, Nat.add_0_r.
  - replace (k + length (d :: ds)) with (k + 1 + length ds) by (simpl; lia).
    destruct d as [s|s|s]; cbn [fmap list_fmap app render_diff_line chunk_loop];
      rewrite decide_False by done; cbn [N.eqb Pos.eqb]; rewrite IH; f_equal;
      destruct c; unfold add_diff, push_new, push_old; simpl; by rewrite <-?app_assoc.
Qed.

Lemma chunk_loop_stop rest n c k :
  ends_chunk rest → k ≠ 0 → chunk_loop rest n c k = Ok (c, k).
Proof.
  destruct rest as [|l rest]; [done|]. intros [Hl (ch & t & -> & Hch)] Hk. simpl.
  rewrite decide_False by done. by destruct Hch as [-> | ->]; rewrite decide_False.
Qed.

Lemma ends_hunk_chunk rest : ends_hunk rest → ends_chunk rest.
Proof.
  destruct rest as [|l rest]; [done|]. intros [Hl [t ->]%starts_with_spec].
  split; [done|]. vm_compute lit. eexists _, _. split; [done|by left].
Qed.

Lemma render_context_head c :
  ∃ t, render_context c = 64%N :: t ∧ starts_with (lit "***") (render_context c) = false
       ∧ trim (render_context c) ≠ [] ∧ render_context c ≠ EOF_MARKER
       ∧ strip_prefix MOVE_TO_MARKER (render_context c) = None.
Proof.
  destruct c as [s|]; [|by eexists].
  unfold render_context, CHANGE_CONTEXT_MARKER. eexists.
  repeat split; [by apply trim_head_not_nil|done].
Qed.

Lemma ends_chunk_chunks cs rest : ends_chunk rest → ends_chunk (render_chunks cs ++ rest).
Proof.
  destruct cs as [|c cs]; [done|]. intros _.
  destruct (render_context_head (cd_context c)) as (t & E & _ & _ & HE & _).
  split; [done|]. eexists _, t. split; [done|by right].
Qed.

Lemma parse_render_chunk c rest n b :
  cd_lines c ≠ [] → ends_chunk rest →
  parse_update_file_chunk (render_chunk c ++ rest) n b
  = Ok (denote_chunk c, length (render_chunk c)).
Proof.
  intros Hne Hrest.
  assert (0 < length (cd_lines c)) as Hlen by (destruct (cd_lines c); simpl; [done|lia]).
  assert (∀ ctx, chunk_loop ((render_diff_line <$> cd_lines c)
             ++ (if cd_eof c then [EOF_MARKER] else []) ++ rest) n
             {| change_context := ctx; old_lines := []; new_lines := [];
                is_end_of_file := false |} 0
           = Ok ({| change_context := ctx; old_lines := concat (old_of <$> cd_lines c);
                    new_lines := concat (new_of <$> cd_lines c); is_end_of_file := cd_eof c |},
                 length (cd_lines c) + if cd_eof c then 1 else 0)) as Hloop.
  { intros ctx. rewrite chunk_loop_diff. destruct (cd_eof c).
    - cbn [app chunk_loop]. rewrite decide_True by done. rewrite decide_False by lia. done.
    - simpl. rewrite chunk_loop_stop; [by rewrite Nat.add_0_r|done|lia]. }
  assert ((length (render_chunk c ++ rest) <=? 1) = false) as Hl.
  { apply Nat.leb_gt. unfold render_chunk. simpl. rewrite !length_app, length_fmap. lia. }
  assert (length (render_chunk c) = length (cd_lines c) + (if cd_eof c then 1 else 0) + 1) as Hlr.
  { unfold render_chunk. simpl. rewrite length_app, length_fmap. destruct (cd_eof c); simpl; lia. }
  unfold parse_update_file_chunk. rewrite Hlr.
  unfold render_chunk in *. rewrite <-app_comm_cons, <-app_assoc in *.
  destruct (cd_context c) as [s|] eqn:Ec.
  - rewrite decide_False by done. cbn [render_context]. rewrite strip_prefix_app. run_bind.
    cbn [render_context] in Hl. rewrite Hl. cbn [drop]. rewrite Hloop. cbn.
    unfold denote_chunk. by rewrite Ec.
  - rewrite decide_True by done. run_bind.
    rewrite Hl. cbn [drop]. rewrite Hloop. cbn. unfold denote_chunk. by rewrite Ec.
Qed.

Lemma drop_app_length_eq {A} (l k : list A) n : n = length l → drop n (l ++ k) = k.
Proof. intros ->. apply drop_app_length. Qed.

(** Where the loop over the chunks of an update stops. *)
Definition stops (rest : list str) : Prop :=
  match rest with [] => True | l :: _ => starts_with (lit "***") l = true end.
Lemma ends_hunk_stops rest : ends_hunk rest → stops rest.
Proof. destruct rest as [|l rest]; [done|]. by intros [_ H]. Qed.

Lemma update_loop_stop fuel rest n k acc :
  stops rest → length rest ≤ fuel → update_loop fuel rest n k acc = Ok (acc, k).
Proof.
  destruct rest as [|l rest]; [by destruct fuel|]. intros Hs Hf.
  destruct fuel as [|fuel]; [simpl in Hf; lia|]. cbn [update_loop].
  rewrite decide_False; [by rewrite Hs|].
  apply starts_with_spec in Hs as [t ->]. vm_compute lit. by apply trim_head_not_nil.
Qed.

(** One round of the loop on a line that is neither blank nor a marker. *)
Lemma update_loop_round fuel ls rest n k acc c :
  parse_update_file_chunk (ls ++ rest) (n + k) (bool_decide (acc = [])) = Ok (c, length ls) →
  trim (default [] (head ls)) ≠ [] → starts_with (lit "***") (default [] (head ls)) = false →
  update_loop (S fuel) (ls ++ rest) n k acc = update_loop fuel rest n (k + length ls) (acc ++ [c]).
Proof.
  intros Hp Ht Hs. destruct ls as [|l ls]; [done|]. cbn [head default] in *.
  change ((l :: ls) ++ rest) with (l :: ls ++ rest) in *. cbn [update_loop].
  rewrite decide_False by done. cbn [from_option] in Hs. unfold id in Hs. rewrite Hs, Hp. run_bind.
  change (l :: ls ++ rest) with ((l :: ls) ++ rest). rewrite (length_app (l :: ls)).
  destruct (Nat.ltb_spec (length (l :: ls) + length rest) (length (l :: ls))); [lia|].
  by rewrite drop_app_length.
Qed.

Lemma update_loop_chunk c fuel rest n k acc :
  cd_lines c ≠ [] → ends_chunk rest →
  update_loop (S fuel) (render_chunk c ++ rest) n k acc
  = update_loop fuel rest n (k + length (render_chunk c)) (acc ++ [denote_chunk c]).
Proof.
  intros Hc Hrest. destruct (render_context_head (cd_context c)) as (t & _ & Hs & Ht & _).
  apply update_loop_round; [by apply parse_render_chunk|done..].
Qed.

Lemma update_loop_chunks cs fuel rest n k acc :
  Forall (λ c, cd_lines c ≠ []) cs → ends_hunk rest → length (render_chunks cs ++ rest) ≤ fuel →
  update_loop fuel (render_chunks cs ++ rest) n k acc
  = Ok (acc ++ (denote_chunk <$> cs), k + length (render_chunks cs)).
Proof.
  intros Hwf Hrest. revert fuel k acc. induction Hwf as [|c cs Hc _ IH]; intros fuel k acc Hfuel.
  - simpl. rewrite update_loop_stop by eauto using ends_hunk_stops. by rewrite app_nil_r, Nat.add_0_r.
  - change (render_chunks (c :: cs)) with (render_chunk c ++ render_chunks cs) in *.
    rewrite <-app_assoc in *. rewrite length_app in Hfuel.
    assert (1 ≤ length (render_chunk c)) by (unfold render_chunk; simpl; lia).
    destruct fuel as [|fuel]; [lia|].
    rewrite update_loop_chunk by eauto using ends_chunk_chunks, ends_hunk_chunk.
    rewrite IH by lia. by rewrite length_app, <-app_assoc, Nat.add_assoc.
Qed.

Lemma wf_chunks_lines cs : Forall wf_chunk cs → Forall (λ c, cd_lines c ≠ []) cs.
Proof. intros H. eapply Forall_impl; [done|]. by intros c (_ & ? & _). Qed.

Lemma marker_path_trim m p :
  wf_path p → (from_option (negb ∘ is_whitespace) false (head m)) = true →
  trim (m ++ p) = m ++ p.
Proof.
  intros (_ & Hne & Htrim) Hm. destruct m as [|c m]; [done|].
  apply negb_true_iff in Hm. rewrite <-app_comm_cons, trim_app_start by done.
  rewrite app_comm_cons, trim_end_app_nonempty; rewrite Htrim; done.
Qed.

Lemma add_lines_render ls rest acc k :
  ends_chunk rest →
  add_lines_loop (((λ l, 43%N :: l) <$> ls) ++ rest) acc k
  = (acc ++ concat ((λ l, l ++ [nl]) <$> ls), k + length ls).
Proof.
  intros Hrest. revert acc k. induction ls as [|l ls IH]; intros acc k.
  - rewrite app_nil_r, Nat.add_0_r. destruct rest as [|r rest]; [done|].
    destruct Hrest as [_ (ch & t & -> & [-> | ->])]; done.
  - cbn [fmap list_fmap app add_lines_loop].
    change (43%N :: l) with (lit "+" ++ l). rewrite strip_prefix_app, IH.
    cbn. rewrite <-!app_assoc. f_equal. lia.
Qed.

Lemma parse_render_hunk h rest n :
  wf_hunk h → ends_hunk rest →
  parse_one_hunk (render_hunk h ++ rest) n = Ok (denote_hunk h, length (render_hunk h)).
Proof.
  intros Hwf Hrest. destruct h as [p ls|p|p mv cs].
  - destruct Hwf as [Hp Hls]. unfold parse_one_hunk; cbn [render_hunk app].
    rewrite marker_path_trim, strip_prefix_app by done.
    rewrite add_lines_render by by apply ends_hunk_chunk.
    simpl. by rewrite length_fmap.
  - unfold parse_one_hunk; cbn [render_hunk app]. rewrite marker_path_trim by done.
    change (strip_prefix ADD_FILE_MARKER (DELETE_FILE_MARKER ++ p)) with (@None str).
    cbv iota. by rewrite strip_prefix_app.
  - destruct Hwf as (Hp & Hmv & Hne & Hcs). unfold parse_one_hunk; cbn [render_hunk app].
    rewrite marker_path_trim by done.
    change (strip_prefix ADD_FILE_MARKER (UPDATE_FILE_MARKER ++ p)) with (@None str).
    change (strip_prefix DELETE_FILE_MARKER (UPDATE_FILE_MARKER ++ p)) with (@None str).
    cbv iota. rewrite strip_prefix_app.
    destruct mv as [m|]; cbn [app].
    + rewrite strip_prefix_app. cbn [tail]. rewrite update_loop_chunks by eauto using wf_chunks_lines.
      cbn. rewrite decide_False by by destruct cs. done.
    + assert (match render_chunks cs ++ rest with
              | [] => None | x :: _ => strip_prefix MOVE_TO_MARKER x end = None) as ->.
      { destruct cs as [|c cs]; [done|].
        by destruct (render_context_head (cd_context c)) as (?&?&?&?&?&Hm). }
      rewrite update_loop_chunks by eauto using wf_chunks_lines.
      cbn. rewrite decide_False by by destruct cs. done.
Qed.

Lemma render_hunk_head h :
  wf_hunk h → ∃ l t, render_hunk h = l :: t ∧ l ≠ EOF_MARKER ∧ starts_with (lit "***") l = true.
Proof. destruct h; intros _; eexists _, _; (split; [done|]); done. Qed.

Lemma ends_hunk_hunks hs : Forall wf_hunk hs → ends_hunk (render_hunks hs).
Proof.
  destruct hs as [|h hs]; [done|]. intros [Hh _]%Forall_cons.
  change (render_hunks (h :: hs)) with (render_hunk h ++ render_hunks hs).
  by destruct (render_hunk_head h Hh) as (l & t & -> & ? & ?).
Qed.

Lemma hunks_loop_render hs fuel n acc :
  Forall wf_hunk hs → length (render_hunks hs) ≤ fuel →
  hunks_loop fuel (render_hunks hs) n acc = Ok (acc ++ (denote_hunk <$> hs)).
Proof.
  revert fuel n acc. induction hs as [|h hs IH]; intros fuel n acc Hwf Hfuel.
  - destruct fuel; by rewrite app_nil_r.
  - apply Forall_cons in Hwf as [Hh Hwf].
    change (render_hunks (h :: hs)) with (render_hunk h ++ render_hunks hs) in *.
    destruct (render_hunk_head h Hh) as (l & t & E & _).
    pose proof (parse_render_hunk h (render_hunks hs) n Hh (ends_hunk_hunks hs Hwf)) as Hp.
    rewrite length_app in Hfuel.
    assert (1 ≤ length (render_hunk h)) by (rewrite E; simpl; lia).
    destruct fuel as [|fuel]; [lia|].
    unfold hunks_loop; fold hunks_loop. rewrite Hp.
    destruct (render_hunk h ++ render_hunks hs) as [|x xs] eqn:Ex; [by rewrite E in Ex|].
    rewrite <-Ex. run_bind.
    destruct (Nat.ltb_spec (length (render_hunk h ++ render_hunks hs)) (length (render_hunk h)))
      as [Hlt|_]; [rewrite length_app in Hlt; lia|].
    rewrite drop_app_length, IH by (done || lia). cbn. by rewrite <-app_assoc.
Qed.

(** * Progress: what each parser consumes *)

Definition chunk_ok (c : UpdateFileChunk) : Prop := old_lines c ≠ [] ∨ new_lines c ≠ [].
Definition hunk_ok (h : Hunk) : Prop :=
  match h with
  | UpdateFile _ _ chunks => chunks ≠ [] ∧ Forall chunk_ok chunks
  | _ => True
  end.

(** [m] returns, and an [Ok] result satisfies [P]. *)
Definition returns_with {E A} (m : outcome E A) (P : A → Prop) : Prop :=
  match m with Ok a => P a | Err _ => True | _ => False end.

Lemma returns_with_bind {E A B} (m : outcome E A) (f : A → outcome E B) P Q :
  returns_with m P → (∀ a, P a → returns_with (f a) Q) → returns_with (m ≫= f) Q.
Proof. destruct m; simpl; auto. Qed.

Lemma returns_with_returns {E A} (m : outcome E A) P : returns_with m P → returns m.
Proof. by destruct m. Qed.

Lemma returns_with_impl {E A} (m : outcome E A) (P Q : A → Prop) :
  returns_with m P → (∀ a, P a → Q a) → returns_with m Q.
Proof. destruct m; simpl; auto. Qed.

Lemma push_ok s t c : chunk_ok (push_new s (push_old t c)).
Proof. left. simpl. by destruct (old_lines c). Qed.
Lemma push_new_ok s c : chunk_ok (push_new s c).
Proof. right. simpl. by destruct (new_lines c). Qed.
Lemma push_old_ok s c : chunk_ok (push_old s c).
Proof. left. simpl. by destruct (old_lines c). Qed.

Lemma chunk_loop_returns ls n c k :
  (k ≠ 0 → chunk_ok c) →
  returns_with (chunk_loop ls n c k)
    (λ '(c', k'), k ≤ k' ≤ k + length ls ∧ (ls ≠ [] → 1 ≤ k') ∧ (k' ≠ 0 → chunk_ok c')).
Proof.
  revert c k. induction ls as [|l ls IH]; intros c k Hc; simpl; [split_and!; naive_solver lia|].
  assert (∀ c', chunk_ok c' → returns_with (chunk_loop ls n c' (k + 1))
     (λ '(c'', k'), k ≤ k' ≤ k + S (length ls) ∧ (l :: ls ≠ [] → 1 ≤ k') ∧ (k' ≠ 0 → chunk_ok c'')))
    as Hstep.
  { intros c' Hc'. eapply returns_with_impl; [by apply IH|].
    intros [c'' k'] (? & ? & ?). split_and!; [lia..|]. done. }
  repeat case_decide; simpl; try done.
  - split_and!; [lia..|]. intros _. by apply Hc.
  - destruct l as [|a l]; [by apply Hstep, push_ok|].
    repeat case_match; simpl; try done; apply Hstep; auto using push_ok, push_new_ok, push_old_ok.
  - destruct l as [|a l]; [by apply Hstep, push_ok|].
    repeat case_match; try (apply Hstep; auto using push_ok, push_new_ok, push_old_ok).
    simpl. split_and!; [lia..|]. intros _. by apply Hc.
Qed.

Lemma parse_update_file_chunk_returns ls n b :
  returns_with (parse_update_file_chunk ls n b)
    (λ '(c, k), 1 ≤ k ≤ length ls ∧ chunk_ok c).
Proof.
  destruct ls as [|l ls]; [done|]. unfold parse_update_file_chunk.
  eapply (returns_with_bind _ _ (λ '(_, i), i ≤ 1)).
  { repeat case_match; simpl; lia || done. }
  intros [ctx i] Hi. destruct (Nat.leb_spec (length (l :: ls)) i) as [|Hlt]; [done|].
  eapply returns_with_bind; [by apply chunk_loop_returns|].
  intros [c k] (Hk & Hk1 & Hc). rewrite length_drop in Hk.
  assert (drop i (l :: ls) ≠ []) by (intros E; apply (f_equal length) in E;
    rewrite length_drop in E; simpl in *; lia).
  specialize (Hk1 H). split; [lia|]. apply Hc. lia.
Qed.

Lemma update_loop_returns fuel ls n k acc :
  length ls ≤ fuel → Forall chunk_ok acc →
  returns_with (update_loop fuel ls n k acc)
    (λ '(cs, k'), k ≤ k' ≤ k + length ls ∧ Forall chunk_ok cs).
Proof.
  revert ls k acc. induction fuel as [|fuel IH]; intros [|l ls] k acc Hf Hacc; simpl in *;
    try (split; [lia|done]); [lia|].
  case_decide; [|case_match; [simpl; split; [lia|done]|]].
  - eapply returns_with_impl; [apply IH; [lia|done]|]. intros [cs k'] [? ?]. split; [lia|done].
  - eapply returns_with_bind; [apply parse_update_file_chunk_returns|].
    intros [c m] [Hm Hc]. case_match eqn:Hlt; [apply Nat.leb_le in Hlt; simpl in *; lia|].
    assert (length (drop m (l :: ls)) = S (length ls) - m) as Hd by by rewrite length_drop.
    eapply returns_with_impl; [apply IH|].
    + lia.
    + apply Forall_app; auto.
    + intros [cs k'] [? ?]. simpl in *. split; [lia|done].
Qed.

Lemma add_lines_loop_bound ls acc k :
  k ≤ snd (add_lines_loop ls acc k) ≤ k + length ls.
Proof.
  revert acc k. induction ls as [|l ls IH]; intros acc k; cbn [add_lines_loop]; [simpl; lia|].
  case_match; [|simpl; lia]. specialize (IH (acc ++ l0 ++ [nl]) (k + 1)). simpl. lia.
Qed.

Lemma parse_one_hunk_returns ls n :
  ls ≠ [] →
  returns_with (parse_one_hunk ls n) (λ '(h, k), 1 ≤ k ≤ length ls ∧ hunk_ok h).
Proof.
  destruct ls as [|l ls]; [done|]. intros _. unfold parse_one_hunk.
  case_match; [|case_match; [simpl; split; [lia|done]|case_match; [|done]]].
  - pose proof (add_lines_loop_bound ls [] 1). destruct (add_lines_loop ls [] 1) as [s k].
    simpl in *. split; [lia|done].
  - set (mv := match ls with [] => None | x :: _ => strip_prefix MOVE_TO_MARKER x end).
    assert (∃ rest p, (match mv with Some _ => (tail ls, 2) | None => (ls, 1) end) = (rest, p)
             ∧ 1 ≤ p ∧ p + length rest = S (length ls)) as (rest & p & -> & Hp & Hlen).
    { destruct ls as [|x ls]; [by eexists _, _|].
      destruct mv; eexists _, _; split_and!; try done; simpl; lia. }
    eapply returns_with_bind; [by apply update_loop_returns|].
    intros [cs k] [Hk Hcs]. case_decide; [done|]. simpl. split; [lia|done].
Qed.

Lemma hunks_loop_returns fuel ls n acc :
  length ls ≤ fuel → Forall hunk_ok acc →
  returns_with (hunks_loop fuel ls n acc) (Forall hunk_ok).
Proof.
  revert ls n acc. induction fuel as [|fuel IH]; intros [|l ls] n acc Hf Hacc;
    unfold hunks_loop; fold hunks_loop; try done; [simpl in Hf; lia|].
  eapply returns_with_bind; [by apply parse_one_hunk_returns|].
  intros [h m] [Hm Hh]. case_match eqn:Hlt; [apply Nat.ltb_lt in Hlt; lia|].
  apply IH; [|apply Forall_app; auto].
  rewrite length_drop. lia.
Qed.

Lemma boundaries_strict_length ls :
  returns_with (check_patch_boundaries_strict ls) (λ _, 2 ≤ length ls).
Proof.
  unfold check_patch_boundaries_strict, check_start_and_end_lines_strict.
  destruct ls as [|a [|b ls]]; simpl; [done|..].
  - repeat case_decide; simpl; try done. match goal with H1 : trim a = _, H2 : trim a = _ |- _ => rewrite H1 in H2; by vm_compute in H2 end.
  - repeat case_match; simpl; try done; lia.
Qed.

Lemma boundaries_lenient_length ls e :
  returns_with (check_patch_boundaries_lenient ls e) (λ ls', 2 ≤ length ls').
Proof.
  unfold check_patch_boundaries_lenient.
  repeat case_match; try done.
  eapply returns_with_bind; [apply boundaries_strict_length|]. done.
Qed.

Lemma parse_patch_text_returns text mode :
  returns_with (parse_patch_text text mode) (λ a, Forall hunk_ok (hunks a)).
Proof.
  unfold parse_patch_text.
  eapply (returns_with_bind _ _ (λ ls, 2 ≤ length ls)).
  - pose proof (boundaries_strict_length (lines (trim text))) as H.
    destruct (check_patch_boundaries_strict _); simpl in *; try done.
    destruct mode; [done|]. apply boundaries_lenient_length.
  - intros ls Hls. case_match eqn:Hlt; [apply Nat.leb_le in Hlt; lia|].
    eapply returns_with_bind; [by apply hunks_loop_returns|]. done.
Qed.

(** * Lines of a rendered document *)

Lemma plain_marker m l :
  bool_decide ((nl ∉ m) ∧ last m ≠ Some cr) = true → plain_line l → plain_line (m ++ l).
Proof. intros [? ?]%bool_decide_eq_true ?. by apply plain_line_app. Qed.

Lemma plain_render_diff d : plain_line (diff_text d) → plain_line (render_diff_line d).
Proof.
  destruct d as [s|s|s]; intros H;
    [by apply (plain_marker [32%N])|by apply (plain_marker [45%N])|by apply (plain_marker [43%N])].
Qed.

Lemma plain_render_chunk c : wf_chunk c → Forall plain_line (render_chunk c).
Proof.
  intros (Hctx & _ & Hls). unfold render_chunk. apply Forall_cons; split; [|apply Forall_app; split].
  - destruct (cd_context c) as [s|]; cbn [render_context]; [|by apply plain_line_closed].
    apply plain_marker; [done|by apply Hctx].
  - apply Forall_fmap. eapply Forall_impl; [done|]. intros d. apply plain_render_diff.
  - destruct (cd_eof c); [|done]. apply Forall_singleton. by apply plain_line_closed.
Qed.

Lemma plain_render_hunk h : wf_hunk h → Forall plain_line (render_hunk h).
Proof.
  destruct h as [p ls|p|p mv cs]; cbn [render_hunk wf_hunk].
  - intros [[Hp _] Hls]. apply Forall_cons; split; [by apply plain_marker|].
    apply Forall_fmap. eapply Forall_impl; [done|]. intros l Hl. by apply (plain_marker [43%N]).
  - intros [Hp _]. apply Forall_singleton. by apply plain_marker.
  - intros ([Hp _] & Hmv & _ & Hcs). apply Forall_cons; split; [by apply plain_marker|].
    apply Forall_app; split.
    + destruct mv as [m|]; [|done]. apply Forall_singleton, plain_marker; [done|by apply Hmv].
    + apply Forall_concat, Forall_fmap. eapply Forall_impl; [done|]. intros c. apply plain_render_chunk.
Qed.

Lemma plain_render_patch hs : Forall wf_hunk hs → Forall plain_line (render_patch hs).
Proof.
  intros H. apply Forall_cons; split; [by apply plain_line_closed|].
  apply Forall_app; split; [|apply Forall_singleton; by apply plain_line_closed].
  apply Forall_concat, Forall_fmap. eapply Forall_impl; [done|]. intros h. apply plain_render_hunk.
Qed.

Lemma join_ends c a ls d b :
  ∃ t, join [nl] ((c :: a) :: ls ++ [b ++ [d]]) = c :: t ++ [d].
Proof.
  rewrite join_cons by by destruct ls. destruct ls as [|l ls].
  - exists (a ++ [nl] ++ b). by rewrite <-!app_assoc.
  - rewrite join_snoc by done. exists (a ++ [nl] ++ join [nl] (l :: ls) ++ [nl] ++ b).
    by rewrite <-!app_assoc.
Qed.

(** Lines that begin and end with visible characters come back from
    [text.trim().lines()]. *)
Lemma lines_trim_join c a ls d b :
  is_whitespace c = false → is_whitespace d = false →
  Forall plain_line ((c :: a) :: ls ++ [b ++ [d]]) →
  lines (trim (join [nl] ((c :: a) :: ls ++ [b ++ [d]]))) = (c :: a) :: ls ++ [b ++ [d]].
Proof.
  intros Hc Hd Hp. destruct (join_ends c a ls d b) as [t Ht]. rewrite Ht.
  rewrite trim_id by done. rewrite <-Ht. apply lines_join; [done|done|].
  rewrite app_comm_cons, last_snoc. by destruct b.
Qed.

Lemma lines_patch_text hs :
  Forall wf_hunk hs → lines (trim (patch_text hs)) = render_patch hs.
Proof.
  intros H. apply (lines_trim_join 42%N (tail BEGIN_PATCH_MARKER) (render_hunks hs)
                     104%N (removelast END_PATCH_MARKER)); [done..|].
  by apply plain_render_patch.
Qed.

Lemma boundaries_render hs : check_patch_boundaries_strict (render_patch hs) = Ok tt.
Proof.
  unfold check_patch_boundaries_strict. unfold render_patch at 1.
  assert (last (render_patch hs) = Some END_PATCH_MARKER) as ->; [|done].
  unfold render_patch. by rewrite app_comm_cons, last_snoc.
Qed.

(** The part of [parse_patch_text] after the boundary check. *)
Lemma parse_body_render hs :
  Forall wf_hunk hs →
  hunks_loop (length (take (length (render_patch hs) - 1 - 1) (drop 1 (render_patch hs))))
    (take (length (render_patch hs) - 1 - 1) (drop 1 (render_patch hs))) 2 []
  = Ok (denote_hunk <$> hs).
Proof.
  intros H. assert (take (length (render_patch hs) - 1 - 1) (drop 1 (render_patch hs))
                    = render_hunks hs) as ->.
  { unfold render_patch. cbn [length drop]. rewrite drop_0, length_app. cbn [length].
    by rewrite take_app_length' by lia. }
  by rewrite hunks_loop_render.
Qed.

Lemma render_patch_length hs : (length (render_patch hs) - 1 <? 1) = false.
Proof. apply Nat.ltb_ge. unfold render_patch. simpl. rewrite length_app. simpl. lia. Qed.

Lemma boundaries_lenient_heredoc first mid last_line e :
  first ∈ heredoc_openers → ends_with (lit "EOF") last_line = true → 2 ≤ length mid →
  check_patch_boundaries_lenient (first :: mid ++ [last_line]) e
  = (_ ← check_patch_boundaries_strict mid; Ok mid).
Proof.
  intros Ho He Hl. assert (last (first :: mid ++ [last_line]) = Some last_line) as Hlast
    by by rewrite app_comm_cons, last_snoc.
  assert (inner (first :: mid ++ [last_line]) = mid) as Hin by apply removelast_last.
  assert ((4 <=? length (first :: mid ++ [last_line])) = true) as Hlen
    by (apply Nat.leb_le; simpl; rewrite length_app; simpl; lia).
  unfold check_patch_boundaries_lenient. rewrite Hin, Hlen.
  destruct mid as [|m mid]; [simpl in Hl; lia|]. cbn [app] in *. rewrite Hlast, He.
  by rewrite bool_decide_true.
Qed.

Lemma heredoc_opener_head opener :
  opener ∈ heredoc_openers → ∃ t, opener = 60%N :: t ∧ plain_line opener
    ∧ trim opener ≠ BEGIN_PATCH_MARKER.
Proof.
  intros Ho. apply elem_of_cons in Ho as [->|[->|[->|[]%not_elem_of_nil]%elem_of_cons]%elem_of_cons];
    eexists; (split_and!; [done|by apply plain_line_closed|done]).
Qed.

(** * Properties *)

(** The text of any well-formed patch document (files to add, delete, update and move; chunks
    with or without a context line; context, removed and added lines; an
    end-of-file mark) parses to exactly the hunks the document denotes, and
    the text kept for re-execution is the text given. *)
Theorem parse_patch_render hs :
  Forall wf_hunk hs →
  parse_patch (patch_text hs)
  = Ok {| patch := patch_text hs; hunks := denote_hunk <$> hs; workdir := None |}.
Proof.
  intros H. unfold parse_patch, parse_patch_text. rewrite lines_patch_text by done.
  rewrite boundaries_render. run_bind.
  rewrite render_patch_length, parse_body_render by done. done.
Qed.

(** Lenient mode: the same document wrapped in a heredoc whose opener is
    one of the three accepted spellings and whose last line ends in [EOF]
    parses to the same result as the document itself, with the wrapper
    removed from the text kept. *)
Theorem parse_patch_heredoc hs opener b :
  Forall wf_hunk hs → opener ∈ heredoc_openers → plain_line (b ++ lit "EOF") →
  parse_patch (heredoc_text opener (b ++ lit "EOF") hs)
  = Ok {| patch := patch_text hs; hunks := denote_hunk <$> hs; workdir := None |}.
Proof.
  intros H Ho Hb. destruct (heredoc_opener_head opener Ho) as (t & -> & Hop & Hne).
  unfold parse_patch, parse_patch_text, heredoc_text.
  change (lit "EOF") with (lit "EO" ++ [70%N]) in *. rewrite (app_assoc b) in *.
  rewrite lines_trim_join; [|done..|].
  2: { apply Forall_cons; split; [done|]. apply Forall_app; split; [by apply plain_render_patch|].
       by apply Forall_singleton. }
  assert (check_patch_boundaries_strict ((60%N :: t) :: render_patch hs ++ [(b ++ lit "EO") ++ [70%N]])
          = Err (InvalidPatchError
            (lit "The first line of the patch must be '*** Begin Patch'"))) as ->.
  { unfold check_patch_boundaries_strict, check_start_and_end_lines_strict.
    cbn [fmap option_fmap option_map]. by rewrite decide_False. }
  cbn [PARSE_IN_STRICT_MODE]. rewrite boundaries_lenient_heredoc; [|done|..].
  2: { apply ends_with_spec. exists b. by rewrite <-app_assoc. }
  2: { unfold render_patch. simpl. rewrite length_app. simpl. lia. }
  rewrite boundaries_render. run_bind.
  rewrite render_patch_length, parse_body_render by done. done.
Qed.

(** The parser is total: on any text and in either mode it returns a
    value or a [ParseError], never panics on a slice or an index and never
    loops, and what it returns is well formed: an update has a chunk and
    every chunk removes or adds a line. *)
Theorem parse_patch_total text mode :
  returns (parse_patch_text text mode) ∧
  ∀ a, parse_patch_text text mode = Ok a → Forall hunk_ok (hunks a).
Proof.
  pose proof (parse_patch_text_returns text mode) as H.
  split; [by eapply returns_with_returns|]. intros a Ha. by rewrite Ha in H.
Qed.

(** * Witnesses *)

Definition sample_chunk : chunk_doc :=
  {| cd_context := Some (lit "fn main");
     cd_lines := [Context (lit "a"); Removed (lit "b"); Added (lit "c")]; cd_eof := true |}.
Definition sample_doc : list hunk_doc :=
  [AddDoc (lit "new.txt") [lit "hi"; []]; DeleteDoc (lit "old.txt");
   UpdateDoc (lit "src/x.rs") (Some (lit "src/y.rs")) [sample_chunk]].

Lemma plain_lit s :
  bool_decide ((nl ∉ lit s) ∧ last (lit s) ≠ Some cr) = true → plain_line (lit s).
Proof. apply plain_line_closed. Qed.

Lemma sample_wf : Forall wf_hunk sample_doc.
Proof.
  assert (∀ s, bool_decide ((nl ∉ lit s) ∧ last (lit s) ≠ Some cr) = true →
     bool_decide (lit s ≠ [] ∧ trim_end (lit s) = lit s) = true → wf_path (lit s)) as Hpath.
  { intros s H1 H2. apply bool_decide_eq_true in H2 as [? ?].
    split; [by apply plain_line_closed|done]. }
  unfold sample_doc. rewrite !Forall_cons. split; [|split; [|split; [|done]]].
  - split; [by apply Hpath|]. rewrite !Forall_cons. split; [|split; [|done]]; by apply plain_line_closed.
  - by apply Hpath.
  - split; [by apply Hpath|]. split; [|split; [done|]].
    + intros m [= <-]. by apply plain_line_closed.
    + apply Forall_singleton. split; [|split; [done|]].
      * intros m [= <-]. by apply plain_line_closed.
      * cbn [cd_lines sample_chunk]. rewrite !Forall_cons.
        split; [|split; [|split; [|done]]]; by apply plain_line_closed.
Qed.

Lemma parse_patch_render_witness :
  parse_patch (patch_text sample_doc)
  = Ok {| patch := patch_text sample_doc; hunks := denote_hunk <$> sample_doc; workdir := None |}
  ∧ length (denote_hunk <$> sample_doc) = 3.
Proof. split; [apply parse_patch_render, sample_wf|reflexivity]. Defined.

Lemma parse_patch_heredoc_witness :
  lit "<<'EOF'" ∈ heredoc_openers ∧
  parse_patch (heredoc_text (lit "<<'EOF'") ([] ++ lit "EOF") sample_doc)
  = Ok {| patch := patch_text sample_doc; hunks := denote_hunk <$> sample_doc; workdir := None |}.
Proof.
  assert (lit "<<'EOF'" ∈ heredoc_openers) as Ho by (right; left).
  split; [exact Ho|].
  apply (parse_patch_heredoc sample_doc (lit "<<'EOF'") []);
    [exact sample_wf|exact Ho|by apply plain_line_closed].
Defined.
