(* ===== verification/PatchGrammar.v ===== *)
(** The patch format as its grammar documents it: the head of
    [codex-rs/apply-patch/src/parser.rs] gives one, and PatchParser the parser.
    Every document of the grammar is rendered and read back; what it denotes, or
    that it is refused, is stated on the document alone. *)
From S2P Require Import Prelude RustStr PatchParser.

(** * Documents *)

(** [change_context] and [change_line]. *)
Inductive change_item : Type := ContextItem (context : option str) | LineItem (d : diff_line).
(** [hunk]; the items of an update are its [change], none when it has none. *)
Inductive grammar_hunk : Type :=
| AddHunk (path : str) (add_lines : list str)
| DeleteHunk (path : str)
| UpdateHunk (path : str) (move_to : option str) (change : list change_item) (eof : bool).

Definition render_item (i : change_item) : str :=
  match i with ContextItem c => render_context c | LineItem d => render_diff_line d end.
Definition render_eof (eof : bool) : list str := if eof then [EOF_MARKER] else [].
Definition render_move (move_to : option str) : list str := match move_to with Some m => [MOVE_TO_MARKER ++ m] | None => [] end.
Definition render_grammar_hunk (h : grammar_hunk) : list str :=
  match h with
  | AddHunk p ls => (ADD_FILE_MARKER ++ p) :: ((λ l, 43%N :: l) <$> ls)
  | DeleteHunk p => [DELETE_FILE_MARKER ++ p]
  | UpdateHunk p mv items eof => (UPDATE_FILE_MARKER ++ p) :: render_move mv ++ (render_item <$> items) ++ render_eof eof
  end.
Definition render_grammar_hunks (hs : list grammar_hunk) : list str := concat (render_grammar_hunk <$> hs).
Definition grammar_lines (hs : list grammar_hunk) : list str := BEGIN_PATCH_MARKER :: render_grammar_hunks hs ++ [END_PATCH_MARKER].
Definition grammar_text (hs : list grammar_hunk) : str := join [nl] (grammar_lines hs).

(** The terminals: every text is one line, and does not end in a carriage
    return. An end-of-file mark follows a change. *)
Definition item_text (i : change_item) : str :=
  match i with ContextItem c => default [] c | LineItem d => diff_text d end.
Definition grammatical (h : grammar_hunk) : Prop :=
  match h with
  | AddHunk p ls => plain_line p ∧ Forall plain_line ls
  | DeleteHunk p => plain_line p
  | UpdateHunk p mv items eof =>
      plain_line p ∧ plain_line (default [] mv) ∧ Forall (λ i, plain_line (item_text i)) items ∧ (eof = true → items ≠ [])
  end.

(** * Meaning *)

(** The lines before the first [@@], and those that follow each. *)
Fixpoint blocks (items : list change_item) : list diff_line * list (option str * list diff_line) :=
  match items with
  | [] => ([], [])
  | LineItem d :: items => let '(ls, bs) := blocks items in (d :: ls, bs)
  | ContextItem c :: items => let '(ls, bs) := blocks items in ([], (c, ls) :: bs)
  end.
(** A context line of white space is skipped at the head of a change. *)
Definition blank_context (d : diff_line) : bool := bool_decide (trim (render_diff_line d) = []).
Fixpoint skip_blank (ls : list diff_line) : list diff_line :=
  match ls with [] => [] | d :: ls' => if blank_context d then skip_blank ls' else ls end.
Fixpoint block_chunks (eof : bool) (bs : list (option str * list diff_line)) : list chunk_doc :=
  match bs with
  | [] => []
  | [(c, ls)] => [{| cd_context := c; cd_lines := ls; cd_eof := eof |}]
  | (c, ls) :: bs => {| cd_context := c; cd_lines := ls; cd_eof := false |} :: block_chunks eof bs
  end.
(** The chunks of a change: one for the lines before the first [@@], when some
    are left, and one for each [@@]. *)
Definition change_chunks (items : list change_item) (eof : bool) : list chunk_doc :=
  let '(ls, bs) := blocks items in
  block_chunks eof (match skip_blank ls with [] => bs | ls => (None, ls) :: bs end).
Definition has_lines (c : chunk_doc) : Prop := cd_lines c ≠ [].
#[export] Instance has_lines_decision c : Decision (has_lines c).
Proof. unfold has_lines. destruct (cd_lines c); [right|left]; naive_solver. Defined.
(** What a hunk denotes. A file name loses the white space it ends in. Refused
    are a name of white space, an update without a chunk (with no change, only a
    move, or only blank context lines), and an [@@] that no line follows. *)
Definition denote (h : grammar_hunk) : option Hunk :=
  match h with
  | AddHunk p ls => if decide (trim_end p = []) then None else Some (AddFile (trim_end p) (concat ((λ l, l ++ [nl]) <$> ls)))
  | DeleteHunk p => if decide (trim_end p = []) then None else Some (DeleteFile (trim_end p))
  | UpdateHunk p mv items eof =>
      let cs := change_chunks items eof in
      if decide (trim_end p = [] ∨ cs = [] ∨ ¬ Forall has_lines cs) then None
      else Some (UpdateFile (trim_end p) mv (denote_chunk <$> cs))
  end.

(** * Chunks of a change *)

(** A parser's result is [r], or a refusal where there is none. *)
Definition reads {A} (r : option A) (o : outcome ParseError A) : Prop :=
  match r with Some a => o = Ok a | None => ∃ e, o = Err e end.

Definition block_lines (b : option str * list diff_line) : list str := render_context b.1 :: (render_diff_line <$> b.2).

Lemma render_blocks items :
  render_item <$> items = (render_diff_line <$> (blocks items).1) ++ concat (block_lines <$> (blocks items).2).
Proof.
  induction items as [|[c|d] items IH]; [done|..]; cbn [blocks]; destruct (blocks items) as [ls bs];
    rewrite fmap_cons, IH; done.
Qed.

Lemma render_block_chunks eof bs :
  bs ≠ [] → render_chunks (block_chunks eof bs) = concat (block_lines <$> bs) ++ render_eof eof.
Proof.
  induction bs as [|[c ls] [|b bs] IH]; [done|..]; intros _.
  - unfold render_chunks. simpl. by rewrite !app_nil_r.
  - change (block_chunks eof ((c, ls) :: b :: bs))
      with ({| cd_context := c; cd_lines := ls; cd_eof := false |} :: block_chunks eof (b :: bs)).
    change (render_chunks (?x :: ?y)) with (render_chunk x ++ render_chunks y).
    rewrite IH by done. unfold render_chunk. cbn [cd_context cd_lines cd_eof].
    rewrite app_nil_r. exact (app_assoc (block_lines (c, ls)) _ _).
Qed.

Lemma block_chunks_cons eof c ls bs :
  block_chunks eof ((c, ls) :: bs)
  = {| cd_context := c; cd_lines := ls; cd_eof := bool_decide (bs = []) && eof |} :: block_chunks eof bs.
Proof. by destruct bs. Qed.
Lemma block_chunks_nil eof bs : block_chunks eof bs = [] ↔ bs = [].
Proof. destruct bs as [|[c ls] bs]; [done|]. by rewrite block_chunks_cons. Qed.

Lemma skip_blank_split ls :
  ∃ pre, ls = pre ++ skip_blank ls ∧ Forall (λ d, trim (render_diff_line d) = []) pre
    ∧ match skip_blank ls with [] => True | d :: _ => trim (render_diff_line d) ≠ [] end.
Proof.
  induction ls as [|d ls (pre & E & Hpre & Hd)]; [by exists []|]. simpl. unfold blank_context. case_bool_decide.
  - exists (d :: pre). split; [by rewrite E at 1|]. split; [by constructor|done].
  - by exists [].
Qed.

Lemma update_loop_blank ds fuel rest n k acc :
  Forall (λ d, trim (render_diff_line d) = []) ds →
  update_loop (length ds + fuel) ((render_diff_line <$> ds) ++ rest) n k acc = update_loop fuel rest n (k + length ds) acc.
Proof.
  intros H. revert k. induction H as [|d ds Hd _ IH]; intros k; [by rewrite Nat.add_0_r|].
  cbn [length Nat.add fmap list_fmap app update_loop]. rewrite decide_True by done.
  rewrite IH. f_equal. lia.
Qed.

(** The lines of a change before its first [@@] are a chunk without context. *)
Lemma parse_plain_chunk ds eof rest n :
  ds ≠ [] → ends_chunk rest →
  parse_update_file_chunk (((render_diff_line <$> ds) ++ render_eof eof) ++ rest) n true
  = Ok (denote_chunk {| cd_context := None; cd_lines := ds; cd_eof := eof |},
        length ((render_diff_line <$> ds) ++ render_eof eof)).
Proof.
  intros Hne Hrest. pose proof (parse_render_chunk {| cd_context := None; cd_lines := ds; cd_eof := eof |} rest n true Hne Hrest) as H.
  unfold render_chunk in H. cbn [cd_context cd_lines cd_eof render_context] in H.
  change (if eof then [EOF_MARKER] else []) with (render_eof eof) in H.
  revert H. rewrite <-app_comm_cons. set (body := _ ++ render_eof eof).
  assert (∃ b l', body ++ rest = (b : str) :: l' ∧ b ≠ EMPTY_CHANGE_CONTEXT_MARKER ∧ strip_prefix CHANGE_CONTEXT_MARKER b = None)
    as (b & l' & E & Hb1 & Hb2).
  { destruct ds as [|[]]; [done|..]; eexists _, _; (split; [done|]); done. }
  unfold parse_update_file_chunk. rewrite decide_True by done. cbn [mbind outcome_bind drop].
  rewrite E. rewrite decide_False, Hb2 by done. cbn [negb mbind outcome_bind drop].
  change (length (b :: l') <=? 0) with false. change (length (?x :: b :: l') <=? 1) with false. cbv iota.
  destruct (chunk_loop (b :: l') n _ 0) as [[c k]| | |]; cbn [mbind outcome_bind]; intros [= -> Hk].
  simpl in Hk. f_equal. f_equal. simpl. lia.
Qed.

Lemma parse_empty_chunk c eof rest n b :
  ends_chunk rest → ∃ e, parse_update_file_chunk (render_context c :: render_eof eof ++ rest) n b = Err e.
Proof.
  intros Hrest. unfold parse_update_file_chunk.
  assert (∃ ctx, (if decide (render_context c = EMPTY_CHANGE_CONTEXT_MARKER) then Ok (None, 1)
         else match strip_prefix CHANGE_CONTEXT_MARKER (render_context c) with
              | Some context => Ok (Some context, 1)
              | None => if negb b then Err (InvalidHunkError
                      (lit "Expected update hunk to start with a @@ context marker, got: '"
                       ++ render_context c ++ lit "'") n) else Ok (None, 0) end) = Ok (ctx, 1)) as [ctx ->].
  { destruct c as [s|]; cbn [render_context]; [|by eexists].
    rewrite decide_False by done. rewrite strip_prefix_app. by eexists. }
  run_bind. destruct eof; [by eexists|]. cbn [render_eof app].
  destruct rest as [|l rest]; [by eexists|]. destruct Hrest as [Hl (ch & t & -> & Hch)].
  change (length (?x :: ?y :: rest) <=? 1) with false. cbn [drop chunk_loop].
  rewrite decide_False by done. destruct Hch as [-> | ->]; cbn [N.eqb Pos.eqb]; rewrite decide_True by done; by eexists.
Qed.

(** Chunks read back, or the first one without a line is refused. *)
Lemma update_loop_doc cs fuel rest n k acc :
  ends_hunk rest → length (render_chunks cs ++ rest) ≤ fuel →
  reads (if decide (Forall has_lines cs) then Some (acc ++ (denote_chunk <$> cs), k + length (render_chunks cs)) else None)
    (update_loop fuel (render_chunks cs ++ rest) n k acc).
Proof.
  intros Hrest. revert fuel k acc. induction cs as [|c cs IH]; intros fuel k acc Hfuel.
  - rewrite decide_True by done. by apply (update_loop_chunks []).
  - change (render_chunks (c :: cs)) with (render_chunk c ++ render_chunks cs) in *.
    rewrite <-app_assoc in *. rewrite length_app in Hfuel.
    assert (1 ≤ length (render_chunk c)) by (unfold render_chunk; simpl; lia).
    destruct fuel as [|fuel]; [lia|].
    assert (ends_chunk (render_chunks cs ++ rest)) as Hend by eauto using ends_chunk_chunks, ends_hunk_chunk.
    destruct (decide (has_lines c)) as [Hc|Hc].
    + rewrite update_loop_chunk by done.
      specialize (IH fuel (k + length (render_chunk c)) (acc ++ [denote_chunk c]) ltac:(lia)).
      destruct (decide (Forall has_lines cs)) as [Hd|Hd].
      * rewrite decide_True by by constructor.         by rewrite fmap_cons, length_app, <-app_assoc, <-Nat.add_assoc in *.
      * rewrite decide_False; [apply IH|]. by intros [_ ?]%Forall_cons.
    + rewrite decide_False by (by intros [? _]%Forall_cons).
      apply dec_stable in Hc. destruct (render_context_head (cd_context c)) as (t & _ & Hs & Ht & _).
      unfold render_chunk. rewrite Hc. change (if cd_eof c then [EOF_MARKER] else []) with (render_eof (cd_eof c)).
      cbn [fmap list_fmap app]. destruct (parse_empty_chunk (cd_context c) (cd_eof c) _ (n + k) (bool_decide (acc = [])) Hend) as [e He].
      exists e. cbn [update_loop]. by rewrite decide_False, Hs, He.
Qed.

(** The chunks of a change read back. *)
Lemma update_loop_change items eof fuel rest n k :
  ends_hunk rest → (eof = true → items ≠ []) →
  length ((render_item <$> items) ++ render_eof eof ++ rest) ≤ fuel →
  ∃ k', (change_chunks items eof ≠ [] → k' = k + length ((render_item <$> items) ++ render_eof eof)) ∧
    reads (if decide (Forall has_lines (change_chunks items eof)) then Some (denote_chunk <$> change_chunks items eof, k') else None)
      (update_loop fuel ((render_item <$> items) ++ render_eof eof ++ rest) n k []).
Proof.
  intros Hrest Heof Hfuel. unfold change_chunks. rewrite render_blocks in *.
  destruct (blocks items) as [ls bs] eqn:Eb. cbn [fst snd] in *.
  destruct (skip_blank_split ls) as (pre & E & Hpre & Hhd).
  revert E Hhd. generalize (skip_blank ls) as sk. intros sk -> Hhd. rewrite fmap_app in *.
  rewrite <-!app_assoc in *. rewrite !length_app, length_fmap in Hfuel.
  replace fuel with (length pre + (fuel - length pre)) by lia. rewrite update_loop_blank by done.
  destruct sk as [|d ds].
  - cbn [fmap list_fmap app]. destruct (decide (bs = [])) as [->|Hbs].
    + exists (k + length pre). split; [by intros []|]. rewrite decide_True by done. apply update_loop_stop.
      * destruct eof; [done|]. by apply ends_hunk_stops.
      * simpl in *. rewrite length_app. lia.
    + exists (k + length pre + length (render_chunks (block_chunks eof bs))). split.
      { intros _. rewrite !length_app, length_fmap, render_block_chunks, length_app by done. lia. }
      rewrite app_assoc, <-render_block_chunks by done. apply (update_loop_doc _ _ _ _ _ []); [done|].
      rewrite length_app, render_block_chunks, !length_app in * by done. simpl in Hfuel. lia.
  - rewrite block_chunks_cons. set (c := {| cd_context := None |}).
    set (hd := (render_diff_line <$> d :: ds) ++ render_eof (cd_eof c)).
    assert ((render_diff_line <$> d :: ds) ++ concat (block_lines <$> bs) ++ render_eof eof
              = hd ++ render_chunks (block_chunks eof bs)) as Ehd.
    { unfold hd, c. cbn [cd_eof]. destruct (decide (bs = [])) as [->|Hbs].
      - rewrite bool_decide_true by done. cbn. by rewrite !app_nil_r.
      - rewrite bool_decide_false, render_block_chunks by done. cbn [andb render_eof]. by rewrite app_nil_r. }
    assert (1 ≤ length hd) by (unfold hd; simpl; lia).
    assert (length ((render_diff_line <$> d :: ds) ++ concat (block_lines <$> bs) ++ render_eof eof)
            = length hd + length (render_chunks (block_chunks eof bs))) as Elen by by rewrite Ehd, length_app.
    exists (k + length pre + length hd + length (render_chunks (block_chunks eof bs))). split.
    { intros _. rewrite length_app, length_fmap, Elen. lia. }
    assert ((render_diff_line <$> d :: ds) ++ concat (block_lines <$> bs) ++ render_eof eof ++ rest
              = hd ++ render_chunks (block_chunks eof bs) ++ rest) as -> by by rewrite !app_assoc, <-(app_assoc (_ <$> _)), Ehd, <-app_assoc.
    rewrite !length_app in Elen.
    destruct (fuel - length pre) as [|fuel'] eqn:Ef; [lia|].
    rewrite (update_loop_round _ _ _ _ _ _ (denote_chunk c)); [|by apply parse_plain_chunk; [|apply ends_chunk_chunks, ends_hunk_chunk]|..].
    + pose proof (update_loop_doc (block_chunks eof bs) fuel' rest n (k + length pre + length hd) [denote_chunk c] Hrest) as H1.
      rewrite length_app in H1. specialize (H1 ltac:(lia)).
      assert (has_lines c) by done. destruct (decide (Forall has_lines (block_chunks eof bs))).
      * rewrite decide_True by by constructor. done.
      * rewrite decide_False; [done|]. by intros [_ ?]%Forall_cons.
    + done.
    + by destruct d.
Qed.

(** * Hunks *)

(** What follows a hunk: the end, or a header. *)
Definition headed (rest : list str) : Prop :=
  ends_hunk rest ∧ match rest with [] => True | l :: _ => strip_prefix MOVE_TO_MARKER l = None end.

Lemma headed_hunks hs : headed (render_grammar_hunks hs).
Proof. destruct hs as [|[] hs]; done. Qed.

(** A header keeps its marker, and loses the white space it ends in. *)
Lemma marker_trim m p :
  trim_end p ≠ [] → from_option (negb ∘ is_whitespace) false (head m) = true → trim (m ++ p) = m ++ trim_end p.
Proof.
  intros Hp Hm. destruct m as [|c m]; [done|]. apply negb_true_iff in Hm.
  rewrite <-app_comm_cons, trim_app_start by done. by rewrite app_comm_cons, trim_end_app_nonempty.
Qed.
Lemma trim_start_matches_blank p s t : trim_start_matches p s = [] → trim_start_matches p (s ++ t) = trim_start_matches p t.
Proof. induction s as [|c s IH]; simpl; [done|]. destruct (p c); [done|done]. Qed.
Lemma trim_end_blank m p : trim_end p = [] → trim_end (m ++ p) = trim_end m.
Proof.
  unfold trim_end, trim_end_matches. intros H. rewrite reverse_app, trim_start_matches_blank; [done|].
  apply (f_equal reverse) in H. by rewrite reverse_involutive in H.
Qed.
Lemma marker_blank m p :
  trim_end p = [] → from_option (negb ∘ is_whitespace) false (head m) = true → trim (m ++ p) = trim_end m.
Proof.
  intros Hp Hm. destruct m as [|c m]; [done|]. apply negb_true_iff in Hm.
  rewrite <-app_comm_cons, trim_app_start by done. by rewrite app_comm_cons, trim_end_blank.
Qed.

Lemma no_move items eof rest :
  headed rest → (eof = true → items ≠ []) →
  match (render_item <$> items) ++ render_eof eof ++ rest with [] => None | x :: _ => strip_prefix MOVE_TO_MARKER x end = None.
Proof.
  intros [_ H] Heof. destruct items as [|[c|[]] items]; [|by destruct (render_context_head c) as (?&?&?&?&?&Hm)|done..].
  destruct eof; [by destruct Heof|]. by destruct rest.
Qed.

(** A hunk whose name is white space is no header. *)
Lemma parse_nameless_hunk h rest n :
  denote h = None → trim_end (match h with AddHunk p _ | DeleteHunk p | UpdateHunk p _ _ _ => p end) = [] →
  ∃ e, parse_one_hunk (render_grammar_hunk h ++ rest) n = Err e.
Proof. intros _ Hp. destruct h; unfold parse_one_hunk; cbn [render_grammar_hunk app]; rewrite marker_blank by done; eexists; reflexivity. Qed.

Lemma parse_update_body p mv items eof rest n :
  trim_end p ≠ [] → headed rest → (eof = true → items ≠ []) →
  reads ((λ h, (h, length (render_grammar_hunk (UpdateHunk p mv items eof)))) <$> denote (UpdateHunk p mv items eof))
    (parse_one_hunk (render_grammar_hunk (UpdateHunk p mv items eof) ++ rest) n).
Proof.
  intros Hp Hrest Heof. unfold parse_one_hunk. cbn [render_grammar_hunk app denote]. rewrite marker_trim by done.
  change (strip_prefix ADD_FILE_MARKER (UPDATE_FILE_MARKER ++ ?x)) with (@None str).
  change (strip_prefix DELETE_FILE_MARKER (UPDATE_FILE_MARKER ++ ?x)) with (@None str).
  cbv iota. rewrite strip_prefix_app. rewrite <-!app_assoc.
  set (body := (render_item <$> items) ++ render_eof eof ++ rest).
  assert (∃ q, (match (match render_move mv ++ body with [] => None | x :: _ => strip_prefix MOVE_TO_MARKER x end) with
           | Some _ => (tail (render_move mv ++ body), 2) | None => (render_move mv ++ body, 1) end) = (body, q)
           ∧ q = S (length (render_move mv))
           ∧ (match render_move mv ++ body with [] => None | x :: _ => strip_prefix MOVE_TO_MARKER x end) = mv)
    as (q & -> & Hq & ->).
  { destruct mv as [m|]; cbn [render_move app].
    - rewrite strip_prefix_app. by eexists.
    - unfold body. rewrite no_move by done. by eexists. }
  destruct (update_loop_change items eof (length body) rest n q (proj1 Hrest) Heof) as (k' & Hk & H); [done|].
  fold body in H. destruct (decide (Forall has_lines (change_chunks items eof))) as [Hl|Hl].
  - cbn [reads] in H. rewrite H. run_bind. destruct (decide (change_chunks items eof = [])) as [E|E].
    + rewrite decide_True by auto. rewrite decide_True by (by rewrite E). by eexists.
    + rewrite decide_False by naive_solver. rewrite decide_False by (by intros ?%fmap_nil_inv).
      cbn [fmap option_fmap option_map reads]. rewrite (Hk E), Hq. simpl. rewrite !length_app. by do 2 f_equal.
  - destruct H as [e ->]. rewrite decide_True by auto. by eexists.
Qed.

Lemma parse_grammar_hunk h rest n :
  grammatical h → headed rest →
  reads ((λ k, (k, length (render_grammar_hunk h))) <$> denote h) (parse_one_hunk (render_grammar_hunk h ++ rest) n).
Proof.
  intros Hg Hrest.
  destruct (decide (trim_end (match h with AddHunk p _ | DeleteHunk p | UpdateHunk p _ _ _ => p end) = [])) as [Hp|Hp].
  - assert (denote h = None) as E by (destruct h; simpl; rewrite decide_True by auto; done).
    rewrite E. by apply parse_nameless_hunk.
  - destruct h as [p ls|p|p mv items eof]; [..|by apply parse_update_body; [done..|apply Hg]]; cbn [denote];
      rewrite decide_False by done; unfold parse_one_hunk; cbn [render_grammar_hunk app]; rewrite marker_trim by done.
    + rewrite strip_prefix_app, add_lines_render by apply ends_hunk_chunk, Hrest. cbn. by rewrite length_fmap.
    + change (strip_prefix ADD_FILE_MARKER (DELETE_FILE_MARKER ++ ?x)) with (@None str).
      cbv iota. by rewrite strip_prefix_app.
Qed.

Lemma render_grammar_hunk_head h : ∃ l t, render_grammar_hunk h = l :: t.
Proof. destruct h; by eexists _, _. Qed.

Lemma hunks_loop_grammar hs fuel n acc :
  Forall grammatical hs → length (render_grammar_hunks hs) ≤ fuel →
  reads ((λ ks, acc ++ ks) <$> mapM denote hs) (hunks_loop fuel (render_grammar_hunks hs) n acc).
Proof.
  revert fuel n acc. induction hs as [|h hs IH]; intros fuel n acc Hg Hfuel.
  - destruct fuel; cbn; by rewrite app_nil_r.
  - apply Forall_cons in Hg as [Hh Hg].
    change (render_grammar_hunks (h :: hs)) with (render_grammar_hunk h ++ render_grammar_hunks hs) in *.
    destruct (render_grammar_hunk_head h) as (l & t & E).
    pose proof (parse_grammar_hunk h (render_grammar_hunks hs) n Hh (headed_hunks hs)) as Hp.
    rewrite length_app in Hfuel.
    assert (1 ≤ length (render_grammar_hunk h)) by (rewrite E; simpl; lia).
    destruct fuel as [|fuel]; [lia|]. unfold hunks_loop; fold hunks_loop.
    destruct (render_grammar_hunk h ++ render_grammar_hunks hs) as [|x xs] eqn:Ex; [by rewrite E in Ex|].
    rewrite <-Ex in *. cbn [mapM]. destruct (denote h) as [k|]; [|by destruct Hp as [e ->]; eexists].
    cbn [fmap option_fmap option_map reads] in Hp. rewrite Hp. run_bind.
    destruct (Nat.ltb_spec (length (render_grammar_hunk h ++ render_grammar_hunks hs)) (length (render_grammar_hunk h)))
      as [Hlt|_]; [rewrite length_app in Hlt; lia|].
    rewrite drop_app_length. specialize (IH fuel (n + length (render_grammar_hunk h)) (acc ++ [k]) Hg ltac:(lia)).
    destruct (mapM denote hs) as [ks|]; [|done]. cbn in *. by rewrite <-app_assoc in IH.
Qed.

(** * Lines *)

Lemma plain_item i : plain_line (item_text i) → plain_line (render_item i).
Proof.
  destruct i as [[s|]|d]; cbn [item_text render_item]; [by apply plain_marker|intros _; by apply plain_line_closed|apply plain_render_diff].
Qed.
Lemma plain_grammar_hunk h : grammatical h → Forall plain_line (render_grammar_hunk h).
Proof.
  destruct h as [p ls|p|p mv items eof]; cbn [render_grammar_hunk grammatical].
  - intros [Hp Hls]. apply Forall_cons; split; [by apply plain_marker|].
    apply Forall_fmap. eapply Forall_impl; [done|]. intros l Hl. by apply (plain_marker [43%N]).
  - intros Hp. apply Forall_singleton. by apply plain_marker.
  - intros (Hp & Hmv & Hits & _). apply Forall_cons; split; [by apply plain_marker|].
    apply Forall_app; split; [|apply Forall_app; split].
    + destruct mv as [m|]; [|done]. by apply Forall_singleton, plain_marker.
    + apply Forall_fmap. eapply Forall_impl; [done|]. intros i. apply plain_item.
    + destruct eof; [|done]. apply Forall_singleton. by apply plain_line_closed.
Qed.
Lemma lines_grammar_text hs : Forall grammatical hs → lines (trim (grammar_text hs)) = grammar_lines hs.
Proof.
  intros H. apply (lines_trim_join 42%N (tail BEGIN_PATCH_MARKER) (render_grammar_hunks hs) 104%N (removelast END_PATCH_MARKER)); [done..|].
  apply Forall_cons; split; [by apply plain_line_closed|].
  apply Forall_app; split; [|apply Forall_singleton; by apply plain_line_closed].
  apply Forall_concat, Forall_fmap. eapply Forall_impl; [done|]. intros h. apply plain_grammar_hunk.
Qed.
Lemma grammar_boundaries hs : check_patch_boundaries_strict (grammar_lines hs) = Ok tt.
Proof.
  unfold check_patch_boundaries_strict. unfold grammar_lines at 1.
  assert (last (grammar_lines hs) = Some END_PATCH_MARKER) as ->; [|done].
  unfold grammar_lines. by rewrite app_comm_cons, last_snoc.
Qed.
Lemma grammar_body hs : take (length (grammar_lines hs) - 1 - 1) (drop 1 (grammar_lines hs)) = render_grammar_hunks hs.
Proof. unfold grammar_lines. cbn [length drop]. rewrite drop_0, length_app. cbn [length]. by rewrite take_app_length' by lia. Qed.
Lemma grammar_length hs : (length (grammar_lines hs) - 1 <? 1) = false.
Proof. apply Nat.ltb_ge. unfold grammar_lines. simpl. rewrite length_app. simpl. lia. Qed.

(** * Properties *)

(** C15. The parser implements the grammar in its header, and nothing of the
    grammar is left out: every document of it (files to add, delete, update and
    move; [@@] lines with or without a text, context, removed and added lines in
    any order; an end-of-file mark after a change), whose texts are single lines
    that do not end in a carriage return, is parsed to exactly the hunks it
    denotes, the text kept for re-execution being the text given; or it is
    refused with an error, exactly when one of its hunks denotes nothing: its
    name is white space, it is an update of which no chunk is left (no change,
    only a move, or only blank context lines), or a chunk of it, or an [@@], has
    no line. What a hunk denotes drops the white space a name ends in, and the
    blank context lines that come before any other line of an update. *)
Theorem parse_patch_grammar hs :
  Forall grammatical hs →
  match mapM denote hs with
  | Some ks => parse_patch (grammar_text hs) = Ok {| patch := grammar_text hs; hunks := ks; workdir := None |}
  | None => ∃ e, parse_patch (grammar_text hs) = Err e
  end.
Proof.
  intros H. unfold parse_patch, parse_patch_text. rewrite lines_grammar_text by done.
  rewrite grammar_boundaries. run_bind. rewrite grammar_length, grammar_body.
  pose proof (hunks_loop_grammar hs (length (render_grammar_hunks hs)) 2 [] H ltac:(done)) as Hl.
  destruct (mapM denote hs) as [ks|]; [cbn in Hl; by rewrite Hl|]. destruct Hl as [e ->]. by eexists.
Qed.

(** * Witnesses *)

Definition sample_change : list change_item :=
  [LineItem (Context []); LineItem (Removed (lit "a")); LineItem (Added (lit "b"));
   ContextItem (Some (lit "fn main")); LineItem (Context (lit "c")); LineItem (Added (lit "d"))].
Definition sample_hunks : list grammar_hunk :=
  [AddHunk (lit "new.txt ") [lit "hi"; []]; DeleteHunk (lit "old.txt");
   UpdateHunk (lit "src/x.rs") (Some (lit "src/y.rs")) sample_change true].
(** Only a move, which the grammar has and the parser refuses. *)
Definition only_move : list grammar_hunk := [UpdateHunk (lit "a") (Some (lit "b")) [] false].

Ltac plain := solve [by apply plain_line_closed].
Lemma sample_grammatical : Forall grammatical sample_hunks.
Proof.
  repeat apply Forall_cons_2; [..|done].
  - split; [plain|]. repeat apply Forall_cons_2; [plain..|done].
  - plain.
  - split; [plain|]. split; [plain|]. split; [|done]. repeat apply Forall_cons_2; [plain..|done].
Qed.
Lemma only_move_grammatical : Forall grammatical only_move.
Proof. apply Forall_cons_2; [|done]. split; [plain|]. split; [plain|]. split; [done|done]. Qed.

Lemma parse_patch_grammar_witness :
  (∃ ks, mapM denote sample_hunks = Some ks ∧ length ks = 3
    ∧ parse_patch (grammar_text sample_hunks) = Ok {| patch := grammar_text sample_hunks; hunks := ks; workdir := None |})
  ∧ (∃ e, parse_patch (grammar_text only_move) = Err e).
Proof.
  split.
  - pose proof (parse_patch_grammar sample_hunks sample_grammatical) as H.
    assert (mapM denote sample_hunks = Some (default [] (mapM denote sample_hunks))) as E by (vm_compute; reflexivity).
    exists (default [] (mapM denote sample_hunks)). split; [exact E|]. split; [vm_compute; reflexivity|].
    rewrite E in H. exact H.
  - pose proof (parse_patch_grammar only_move only_move_grammatical) as H.
    assert (mapM denote only_move = None) as E by (vm_compute; reflexivity). rewrite E in H. exact H.
Defined.
