(* ===== verification/ApplyPatch.v ===== *)
(** Applying a parsed patch: [codex-rs/apply-patch/src/lib.rs] and
    [codex-rs/apply-patch/src/invocation.rs]. *)
From stdpp Require Import gmap.
From S2P Require Import Prelude RustStr RustPath FileSystem SeekSequence PatchParser.

Record IoError : Type := { context : str; source : io_error }.

Inductive ApplyPatchError : Type :=
| APParseError (e : ParseError)
| APIoError (e : IoError)
| ComputeReplacements (message : str)
| ImplicitInvocation.

(** * Computing the new contents of a file *)

Abbreviation replacement := (nat * nat * list str)%type.
Definition r_start (r : replacement) : nat := fst (fst r).
Definition r_len (r : replacement) : nat := snd (fst r).
Definition r_new (r : replacement) : list str := snd r.

Definition last_is_empty (l : list str) : bool := bool_decide (last l = Some []).

(** One iteration of the [for chunk in chunks] loop: the replacement it
    pushes and the new [line_index]. *)
Definition chunk_replacement (original_lines : list str) (path : str) (line_index : nat)
    (chunk : UpdateFileChunk) : outcome ApplyPatchError (replacement * nat) :=
  line_index ←
    match change_context chunk with
    | Some ctx_line =>
        found ← no_err (seek_sequence original_lines [ctx_line] line_index false);
        match found with
        | Some idx => Ok (idx + 1)
        | None => Err (ComputeReplacements
            (lit "Failed to find context '" ++ ctx_line ++ lit "' in " ++ path))
        end
    | None => Ok line_index
    end;
  if decide (old_lines chunk = []) then
    let insertion_idx := if last_is_empty original_lines then length original_lines - 1
                         else length original_lines in
    Ok ((insertion_idx, 0, new_lines chunk), line_index)
  else
    let pattern := old_lines chunk in
    let new_slice := new_lines chunk in
    found ← no_err (seek_sequence original_lines pattern line_index (is_end_of_file chunk));
    '(pattern, new_slice, found) ←
      (if bool_decide (found = None) && last_is_empty pattern then
         let pattern := removelast pattern in
         let new_slice := if last_is_empty new_slice then removelast new_slice else new_slice in
         found ← no_err (seek_sequence original_lines pattern line_index (is_end_of_file chunk));
         Ok (pattern, new_slice, found)
       else Ok (pattern, new_slice, found));
    match found with
    | Some start_idx =>
        Ok ((start_idx, length pattern, new_slice), start_idx + length pattern)
    | None => Err (ComputeReplacements
        (lit "Failed to find expected lines in " ++ path ++ lit ":" ++ [nl]
         ++ join [nl] (old_lines chunk)))
    end.

Fixpoint replacements_loop (original_lines : list str) (path : str) (line_index : nat)
    (chunks : list UpdateFileChunk) : outcome ApplyPatchError (list replacement) :=
  match chunks with
  | [] => Ok []
  | chunk :: chunks' =>
      '(r, line_index) ← chunk_replacement original_lines path line_index chunk;
      rs ← replacements_loop original_lines path line_index chunks';
      Ok (r :: rs)
  end.

Definition compute_replacements (original_lines : list str) (path : str)
    (chunks : list UpdateFileChunk) : outcome ApplyPatchError (list replacement) :=
  rs ← replacements_loop original_lines path 0 chunks;
  Ok (sort_by_key r_start rs).

Fixpoint remove_loop (n start_idx : nat) (lines : list str) : list str :=
  match n with
  | O => lines
  | S n' => remove_loop n' start_idx
              (if start_idx <? length lines then vec_remove start_idx lines else lines)
  end.

Fixpoint insert_loop (start_idx : nat) (new_segment : list str) (lines : list str)
    : outcome ApplyPatchError (list str) :=
  match new_segment with
  | [] => Ok lines
  | new_line :: rest =>
      lines ← vec_insert start_idx new_line lines;
      insert_loop (S start_idx) rest lines
  end.

Definition apply_replacement (lines : list str) (r : replacement)
    : outcome ApplyPatchError (list str) :=
  insert_loop (r_start r) (r_new r) (remove_loop (r_len r) (r_start r) lines).

(** The replacements, from the last to the first. *)
Fixpoint apply_in_order (lines : list str) (rs : list replacement)
    : outcome ApplyPatchError (list str) :=
  match rs with
  | [] => Ok lines
  | r :: rs' => lines ← apply_replacement lines r; apply_in_order lines rs'
  end.
Definition apply_replacements (lines : list str) (replacements : list replacement)
    : outcome ApplyPatchError (list str) :=
  apply_in_order lines (reverse replacements).

(** The lines of a file, without the empty piece after a final newline. *)
Definition file_lines (contents : str) : list str :=
  let ls := split_char nl contents in
  if last_is_empty ls then removelast ls else ls.

(** The text of the new lines, always ended by a newline. *)
Definition file_text (new_lines : list str) : str :=
  join [nl] (if last_is_empty new_lines then new_lines else new_lines ++ [[]]).

Record AppliedPatch : Type := { original_contents : str; new_contents : str }.

(** The part of [derive_new_contents_from_chunks] after the file is read. *)
Definition new_contents_of (path original : str) (chunks : list UpdateFileChunk)
    : outcome ApplyPatchError str :=
  let original_lines := file_lines original in
  replacements ← compute_replacements original_lines path chunks;
  new_lines ← apply_replacements original_lines replacements;
  Ok (file_text new_lines).

Section file_system.
Context {FS : Type} `{FileSystem FS}.

Definition derive_new_contents_from_chunks (fs : FS) (path : str)
    (chunks : list UpdateFileChunk) : outcome ApplyPatchError AppliedPatch :=
  original ← map_err (λ e, APIoError {| context := lit "Failed to read file to update " ++ path;
                                        source := e |}) (fs_read fs path);
  new ← new_contents_of path original chunks;
  Ok {| original_contents := original; new_contents := new |}.

(** * Applying hunks *)

Record AffectedPaths : Type := {
  added : list str;
  modified : list str;
  deleted : list str }.

(** What an [anyhow::Error] of [apply_hunks_to_files] was made from. *)
Inductive HunkError : Type :=
| Bail (message : str)
| WithContext (message : str) (cause : io_error)
| FromApplyPatch (e : ApplyPatchError).

Definition with_context {A} (message : str) (m : stm FS io_error A) : stm FS HunkError A :=
  stm_map_err (WithContext message) m.

(** [create_dir_all] of the parent, when there is one with a name. *)
Definition create_parents (path : str) : stm FS HunkError unit :=
  match parent path with
  | Some p =>
      if decide (p = []) then mret tt
      else with_context (lit "Failed to create parent directories for " ++ path)
             (fs_create_dir_all p)
  | None => mret tt
  end.

Definition push_added (p : str) (a : AffectedPaths) : AffectedPaths :=
  {| added := added a ++ [p]; modified := modified a; deleted := deleted a |}.
Definition push_modified (p : str) (a : AffectedPaths) : AffectedPaths :=
  {| added := added a; modified := modified a ++ [p]; deleted := deleted a |}.
Definition push_deleted (p : str) (a : AffectedPaths) : AffectedPaths :=
  {| added := added a; modified := modified a; deleted := deleted a ++ [p] |}.

(** One iteration of the [for hunk in hunks] loop. *)
Definition apply_hunk (hunk : Hunk) (a : AffectedPaths) : stm FS HunkError AffectedPaths :=
  match hunk with
  | AddFile path contents =>
      create_parents path ;;
      with_context (lit "Failed to write file " ++ path) (fs_write path contents) ;;
      mret (push_added path a)
  | DeleteFile path =>
      with_context (lit "Failed to delete file " ++ path) (fs_remove_file path) ;;
      mret (push_deleted path a)
  | UpdateFile path move_path chunks =>
      fun fs =>
        match derive_new_contents_from_chunks fs path chunks with
        | Ok applied =>
            match move_path with
            | Some dest =>
                (create_parents dest ;;
                 with_context (lit "Failed to write file " ++ dest)
                   (fs_write dest (new_contents applied)) ;;
                 with_context (lit "Failed to remove original " ++ path) (fs_remove_file path) ;;
                 mret (push_modified dest a)) fs
            | None =>
                (with_context (lit "Failed to write file " ++ path)
                   (fs_write path (new_contents applied)) ;;
                 mret (push_modified path a)) fs
            end
        | Err e => (fs, Err (FromApplyPatch e))
        | Panic => (fs, Panic)
        | OutOfFuel => (fs, OutOfFuel)
        end
  end.

Fixpoint hunk_loop (hunks : list Hunk) (a : AffectedPaths) : stm FS HunkError AffectedPaths :=
  match hunks with
  | [] => mret a
  | hunk :: hunks' => a ← apply_hunk hunk a; hunk_loop hunks' a
  end.

Definition apply_hunks_to_files (hunks : list Hunk) : stm FS HunkError AffectedPaths :=
  match hunks with
  | [] => fun fs => (fs, Err (Bail (lit "No files were modified.")))
  | _ => hunk_loop hunks {| added := []; modified := []; deleted := [] |}
  end.
End file_system.

(** The text [print_summary] writes. *)
Definition print_summary (affected : AffectedPaths) : str :=
  let writeln s := s ++ [nl] in
  writeln (lit "Success. Updated the following files:")
  ++ concat ((λ p, writeln (lit "A " ++ p)) <$> added affected)
  ++ concat ((λ p, writeln (lit "M " ++ p)) <$> modified affected)
  ++ concat ((λ p, writeln (lit "D " ++ p)) <$> deleted affected).

(** * Specifications *)

(** A difference between two files: the lines up to its header line, if it has
    one, unchanged lines, then lines replaced; and whether it is marked as the end
    of the file. *)
Record edit : Type := {
  e_header : option (list str * str);
  e_gap : list str;
  e_old : list str;
  e_new : list str;
  e_eof : bool }.
Definition edit_chunk (e : edit) : UpdateFileChunk :=
  {| change_context := snd <$> e_header e; old_lines := e_old e; new_lines := e_new e;
     is_end_of_file := e_eof e |}.


(** The effect of hunks on an abstract file store. *)
Definition store : Type := str → option str.
Definition store_set (m : store) (p : str) (v : option str) : store :=
  λ q, if decide (q = p) then v else m q.
Definition spec_hunk (m : store) (h : Hunk) : option store :=
  match h with
  | AddFile p c => Some (store_set m p (Some c))
  | DeleteFile p => Some (store_set m p None)
  | UpdateFile p mv cs =>
      match m p with
      | Some original =>
          match new_contents_of p original cs with
          | Ok new =>
              Some (match mv with
                    | Some dest => store_set (store_set m dest (Some new)) p None
                    | None => store_set m p (Some new)
                    end)
          | _ => None
          end
      | None => None
      end
  end.
Fixpoint spec_hunks (m : store) (hs : list Hunk) : option store :=
  match hs with
  | [] => Some m
  | h :: hs' => match spec_hunk m h with Some m' => spec_hunks m' hs' | None => None end
  end.
Definition hunk_paths (h : Hunk) : list str :=
  match h with
  | AddFile p _ | DeleteFile p => [p]
  | UpdateFile p (Some dest) _ => [p; dest]
  | UpdateFile p None _ => [p]
  end.

(** The paths reported for a list of hunks. *)
Definition added_paths (hs : list Hunk) : list str :=
  omap (λ h, match h with AddFile p _ => Some p | _ => None end) hs.
Definition modified_paths (hs : list Hunk) : list str :=
  omap (λ h, match h with UpdateFile p mv _ => Some (default p mv) | _ => None end) hs.
Definition deleted_paths (hs : list Hunk) : list str :=
  omap (λ h, match h with DeleteFile p => Some p | _ => None end) hs.

(** The new lines, read from left to right: the lines before each
    replacement, its new lines, and what follows it. *)
Fixpoint splice (pos : nat) (lines : list str) (rs : list replacement) : list str :=
  match rs with
  | [] => drop pos lines
  | (s, n, new) :: rs' => take (s - pos) (drop pos lines) ++ new ++ splice (s + n) lines rs'
  end.

(** Replacements in order, disjoint, inside a file of [len] lines, from [pos]. *)
Fixpoint well_placed (pos len : nat) (rs : list replacement) : Prop :=
  match rs with
  | [] => pos ≤ len
  | (s, n, _) :: rs' => pos ≤ s ∧ s + n ≤ len ∧ well_placed (s + n) len rs'
  end.

(** The block a chunk replaces: it matches the lines the chunk removes, or
    those lines without a last empty one, up to normalisation. *)
Definition without_last_empty (l : list str) : list str :=
  if last_is_empty l then removelast l else l.
Definition located (lines : list str) (c : UpdateFileChunk) (r : replacement) : Prop :=
  (old_lines c = [] ∧ r = (length lines, 0, new_lines c)) ∨
  (old_lines c ≠ [] ∧ ∃ pattern,
     ((pattern = old_lines c ∧ r_new r = new_lines c) ∨
      (old_lines c = pattern ++ [[]] ∧ r_new r = without_last_empty (new_lines c))) ∧
     r_len r = length pattern ∧
     Forall2 (λ l p, normalise l = normalise p)
       (take (length pattern) (drop (r_start r) lines)) pattern).

(** Chunks that advance through the file: none asks for the end of the file,
    and none adds lines to a file that ends with an empty line. *)
Definition regular (lines : list str) (cs : list UpdateFileChunk) : Prop :=
  Forall (λ c, is_end_of_file c = false ∧
               (old_lines c = [] → last_is_empty lines = false)) cs.

(** * Lemmas on replacements *)

Lemma remove_loop_spec n s lines :
  s ≤ length lines → remove_loop n s lines = take s lines ++ drop (s + n) lines.
Proof.
  revert lines. induction n as [|n IH]; intros lines Hs; simpl.
  - by rewrite Nat.add_0_r, take_drop.
  - destruct (Nat.ltb_spec s (length lines)) as [Hlt|Hge].
    + unfold vec_remove. rewrite IH by (rewrite length_app, length_take; lia).
      rewrite take_app_length' by (rewrite length_take; lia).
      rewrite drop_app_ge by (rewrite length_take; lia).
      rewrite drop_drop, length_take. do 2 f_equal. lia.
    + rewrite IH by done. by rewrite !drop_ge by lia.
Qed.

Lemma insert_loop_spec s new lines :
  s ≤ length lines → insert_loop s new lines = Ok (take s lines ++ new ++ drop s lines).
Proof.
  revert s lines. induction new as [|x new IH]; intros s lines Hs; simpl.
  - by rewrite take_drop.
  - unfold vec_insert. rewrite (proj2 (Nat.leb_le _ _)) by done. simpl.
    assert (length (take s lines ++ [x]) = S s) as Hl by (rewrite length_app, length_take; simpl; lia).
    rewrite IH by (rewrite length_app; simpl; rewrite length_take, length_drop; lia).
    change (take s lines ++ x :: drop s lines) with (take s lines ++ [x] ++ drop s lines).
    rewrite (app_assoc (take s lines) [x]), take_app_length', drop_app_length' by done.
    by rewrite <-app_assoc.
Qed.

Lemma apply_replacement_spec lines s n new :
  s ≤ length lines →
  apply_replacement lines (s, n, new) = Ok (take s lines ++ new ++ drop (s + n) lines).
Proof.
  intros Hs. unfold apply_replacement. cbn [r_start r_len r_new fst snd].
  rewrite remove_loop_spec by done.
  rewrite insert_loop_spec by (rewrite length_app, length_take; lia).
  by rewrite take_app_length', drop_app_length' by (rewrite length_take; lia).
Qed.

Lemma apply_in_order_app lines rs1 rs2 :
  apply_in_order lines (rs1 ++ rs2) = lines ← apply_in_order lines rs1; apply_in_order lines rs2.
Proof.
  revert lines. induction rs1 as [|r rs1 IH]; intros lines; simpl; [done|].
  destruct (apply_replacement lines r); simpl; auto.
Qed.

Lemma well_placed_le pos len rs : well_placed pos len rs → pos ≤ len.
Proof. destruct rs as [|[[s n] new] rs]; simpl; lia. Qed.

Lemma well_placed_weaken pos pos' len rs :
  pos' ≤ pos → well_placed pos len rs → well_placed pos' len rs.
Proof. destruct rs as [|[[s n] new] rs]; simpl; [lia|]. intros ? (? & ? & ?). by split_and!; [lia| |]. Qed.

Lemma apply_replacements_splice pos lines rs :
  well_placed pos (length lines) rs →
  apply_replacements lines rs = Ok (take pos lines ++ splice pos lines rs).
Proof.
  unfold apply_replacements. revert pos. induction rs as [|[[s n] new] rs IH]; intros pos Hwp.
  - simpl. by rewrite take_drop.
  - destruct Hwp as (Hp & Hs & Hwp). rewrite reverse_cons, apply_in_order_app.
    rewrite (IH (s + n)) by done. cbn [mbind outcome_bind apply_in_order splice].
    rewrite apply_replacement_spec by (rewrite length_app, length_take; lia).
    run_bind. f_equal.
    rewrite take_app_le by (rewrite length_take; lia).
    rewrite drop_app_length' by (rewrite length_take; lia).
    rewrite take_take, Nat.min_l by lia.
    rewrite <-(take_drop pos lines) at 1. rewrite take_app_ge by (rewrite length_take; lia).
    rewrite length_take, Nat.min_l by lia. by rewrite <-app_assoc.
Qed.

(** Without any condition on the replacements but their starting points,
    applying them from the last to the first stays in range. *)
Lemma apply_in_order_returns len lines rs :
  len ≤ length lines → StronglySorted (λ r r', r_start r' ≤ r_start r) rs →
  Forall (λ r, r_start r ≤ len) rs → ∃ ls, apply_in_order lines rs = Ok ls.
Proof.
  revert len lines. induction rs as [|[[s n] new] rs IH]; intros len lines Hlen Hsort Hle; [by eexists|].
  apply StronglySorted_inv in Hsort as [Hsort Hall]. apply Forall_cons in Hle as [Hs Hle].
  cbn [apply_in_order r_start fst] in *. rewrite apply_replacement_spec by lia.
  run_bind. apply (IH s).
  - rewrite length_app, length_take. lia.
  - done.
  - done.
Qed.

(** * Lemmas on locating chunks *)

Lemma seek_no_err lines pattern start eof :
  ∃ r, no_err (E := ApplyPatchError) (seek_sequence lines pattern start eof) = Ok r ∧
    ∀ j, r = Some j →
      (pattern = [] ∧ j = start) ∨
      (j + length pattern ≤ length lines ∧ search_start lines pattern start eof ≤ j).
Proof.
  destruct (seek_sequence_bounds lines pattern start eof) as (r & Hr & Hb).
  exists r. by rewrite Hr.
Qed.

Lemma last_is_empty_spec l : last_is_empty l = true ↔ ∃ k, l = k ++ [[]].
Proof.
  unfold last_is_empty. rewrite bool_decide_eq_true, last_Some. naive_solver.
Qed.




Lemma well_placed_insert_first pos s n new len rs :
  pos ≤ s → s + n ≤ len → well_placed (s + n) len rs →
  well_placed pos len (insert_sorted r_start (s, n, new) rs).
Proof.
  intros Hp Hs Hwp. destruct rs as [|[[s' n'] new'] rs]; simpl; [lia|].
  destruct Hwp as (? & ? & ?).
  unfold r_start at 1 2; simpl. cmp_lia.
  simpl. by split_and!; try lia.
Qed.

Lemma well_placed_insert_end pos len new rs :
  well_placed pos len rs → well_placed pos len (insert_sorted r_start (len, 0, new) rs).
Proof.
  revert pos. induction rs as [|[[s' n'] new'] rs IH]; intros pos Hwp; simpl; [simpl in Hwp; lia|].
  destruct Hwp as (? & ? & Hwp). pose proof (well_placed_le _ _ _ Hwp).
  unfold r_start at 1 2; simpl. destruct (Nat.leb_spec len s'); simpl.
  - assert (s' = len) as -> by lia. by split_and!; try lia.
  - split_and!; [lia|lia|]. by apply IH.
Qed.

(** Every replacement the loop computes starts inside the file. *)
Lemma chunk_replacement_bound lines path li c :
  li ≤ length lines →
  returns_with (chunk_replacement lines path li c)
    (λ '(r, li'), r_start r ≤ length lines ∧ li' ≤ length lines).
Proof.
  intros Hli. unfold chunk_replacement.
  eapply (returns_with_bind _ _ (λ li', li' ≤ length lines)).
  { destruct (change_context c) as [ctx|]; [|done].
    destruct (seek_no_err lines [ctx] li false) as (r & -> & Hb).
    destruct r as [j|]; [|done]. simpl. destruct (Hb j eq_refl) as [[? _]|[? _]]; [done|simpl in *; lia]. }
  intros li' Hli'. case_decide as Ho.
  { simpl. unfold r_start; simpl. case_match; lia. }
  destruct (seek_no_err lines (old_lines c) li' (is_end_of_file c)) as (r & -> & Hb).
  run_bind.
  eapply (returns_with_bind _ _ (λ '(pattern, _, found),
     ∀ j, found = Some j → j + length pattern ≤ length lines)).
  - case_match; [|simpl; intros j Hj; destruct (Hb j Hj) as [[? _]|[? _]]; done].
    destruct (seek_no_err lines (removelast (old_lines c)) li' (is_end_of_file c)) as (r' & -> & Hb').
    simpl. intros j Hj. destruct (Hb' j Hj) as [[-> ->]|[? _]]; simpl; lia.
  - intros [[pat new] found] Hf. destruct found as [j|]; [|done].
    specialize (Hf j eq_refl). simpl. unfold r_start; simpl. lia.
Qed.

Lemma replacements_loop_bound lines path li cs :
  li ≤ length lines →
  returns_with (replacements_loop lines path li cs) (Forall (λ r, r_start r ≤ length lines)).
Proof.
  revert li. induction cs as [|c cs IH]; intros li Hli; simpl; [done|].
  eapply returns_with_bind; [by apply chunk_replacement_bound|]. intros [r li'] [Hr Hli'].
  eapply returns_with_bind; [by apply IH|]. intros rs Hrs. simpl. by constructor.
Qed.

Lemma compute_replacements_bound lines path cs :
  returns_with (compute_replacements lines path cs)
    (λ rs, Forall (λ r, r_start r ≤ length lines) rs ∧
           StronglySorted (λ r r', r_start r ≤ r_start r') rs).
Proof.
  eapply returns_with_bind; [apply replacements_loop_bound; lia|]. intros rs Hrs. simpl.
  split; [by rewrite sort_by_key_perm|]. apply sort_by_key_sorted.
Qed.

Lemma new_contents_of_returns path original cs : returns (new_contents_of path original cs).
Proof.
  apply (returns_with_returns _ (λ _, True)).
  eapply returns_with_bind; [apply compute_replacements_bound|]. intros rs [Hle Hs].
  destruct (apply_in_order_returns (length (file_lines original)) (file_lines original)
              (reverse rs)) as [ls Hls]; [done| |by apply Forall_reverse|].
  - by apply StronglySorted_reverse in Hs.
  - unfold apply_replacements. by rewrite Hls.
Qed.

(** * Regular chunks *)

Lemma seek_located lines pattern li j :
  pattern ≠ [] → seek_sequence lines pattern li false = Ok (Some j) →
  li ≤ j ∧ j + length pattern ≤ length lines ∧
  Forall2 (λ l p, normalise l = normalise p) (take (length pattern) (drop j lines)) pattern.
Proof.
  intros Hp Hs. destruct (decide (length pattern ≤ length lines)) as [Hl|Hl].
  2:{ unfold seek_sequence in Hs. destruct pattern; [done|].
      by rewrite (proj2 (Nat.ltb_lt _ _)) in Hs by lia. }
  rewrite seek_sequence_eq in Hs by done. injection Hs as Hs.
  apply seek_spec_elem in Hs as (eqv & Heqv & Hm & Hlo & Hhi).
  pose proof (candidates_bound lines pattern li false Hl). unfold candidates, search_start in *; simpl in *.
  split_and!; [lia|lia|]. eapply Forall2_impl; [apply Hm|]. intros l p. by apply passes_normalise.
Qed.

Lemma chunk_replacement_regular lines path li c r li' :
  li ≤ length lines → is_end_of_file c = false →
  (old_lines c = [] → last_is_empty lines = false) →
  chunk_replacement lines path li c = Ok (r, li') →
  located lines c r ∧
  ((r = (length lines, 0, new_lines c) ∧ li ≤ li' ≤ length lines) ∨
   (li ≤ r_start r ∧ r_start r + r_len r = li' ∧ li' ≤ length lines)).
Proof.
  intros Hli Heof Hadd. unfold chunk_replacement.
  assert (∀ m : outcome ApplyPatchError nat, returns_with m (λ k, li ≤ k ≤ length lines) →
     ∀ f : nat → outcome ApplyPatchError (replacement * nat), m ≫= f = Ok (r, li') →
     ∃ k, li ≤ k ≤ length lines ∧ f k = Ok (r, li')) as Hbind.
  { intros [k|e| |] Hk f Hf; try done. by exists k. }
  intros H. apply Hbind in H as (k & Hk & H).
  2:{ destruct (change_context c) as [ctx|]; [|done].
      destruct (seek_no_err lines [ctx] li false) as (o & -> & Hb). destruct o as [j|]; [|done].
      simpl. destruct (Hb j eq_refl) as [[? _]|[? ?]]; [done|]. unfold search_start in *; simpl in *; lia. }
  clear Hbind. case_decide as Ho.
  { rewrite Hadd in H by done. injection H as <- <-. split; [by left|]. left. by split; [|lia]. }
  rewrite Heof in H.
  destruct (seek_no_err lines (old_lines c) k false) as (o & Hs & _). rewrite Hs in H.
  cbn [mbind outcome_bind] in H. destruct o as [j|].
  - simpl in H. injection H as <- <-. unfold r_start, r_len, located; simpl.
    unfold no_err in Hs. destruct (seek_sequence lines (old_lines c) k false) as [o|[]| |] eqn:E;
      try done. injection Hs as ->.
    apply seek_located in E as (? & ? & ?); [|done]. split; [right; split; [done|]; eexists; eauto|].
    right. lia.
  - rewrite bool_decide_true in H by done. cbn [andb] in H.
    destruct (last_is_empty (old_lines c)) eqn:Hlast; [|done].
    apply last_is_empty_spec in Hlast as [pat Hpat]. rewrite Hpat, removelast_snoc in H.
    destruct (seek_no_err lines pat k false) as (o' & Hs' & Hb). rewrite Hs' in H.
    cbn [mbind outcome_bind] in H. destruct o' as [j|]; [|done]. injection H as <- <-.
    unfold r_start, r_len, located; simpl. split.
    + right. split; [done|]. exists pat. split; [right; by split|]. split; [done|].
      destruct (decide (pat = [])) as [->|Hne]; [by rewrite take_0|].
      unfold no_err in Hs'. destruct (seek_sequence lines pat k false) as [o|[]| |] eqn:E;
        try done. injection Hs' as ->. by apply seek_located in E as (? & ? & ?).
    + destruct (Hb j eq_refl) as [[-> ->]|[? ?]]; right; unfold search_start in *; simpl in *; lia.
Qed.

Lemma replacements_loop_regular lines path li cs rs :
  li ≤ length lines → regular lines cs →
  replacements_loop lines path li cs = Ok rs →
  Forall2 (located lines) cs rs ∧ well_placed li (length lines) (sort_by_key r_start rs).
Proof.
  revert li rs. induction cs as [|c cs IH]; intros li rs Hli Hreg; simpl.
  { intros [= <-]. by split; [constructor|]. }
  apply Forall_cons in Hreg as [[Heof Hadd] Hreg].
  destruct (chunk_replacement lines path li c) as [[r li']| | |] eqn:E; try done.
  apply chunk_replacement_regular in E as [Hloc Hpos]; [|done..]. run_bind.
  destruct (replacements_loop lines path li' cs) as [rs'| | |] eqn:E'; try done.
  intros [= <-]. apply IH in E' as [HF Hwp]; [|lia|done].
  split; [by constructor|]. simpl. destruct r as [[s n] new].
  destruct Hpos as [[[= -> -> ->] Hle]|(Hs & Hn & Hle)].
  - apply well_placed_insert_end. by eapply well_placed_weaken; [|done]; lia.
  - unfold r_start, r_len in *; simpl in *. apply well_placed_insert_first; [lia..|].
    by rewrite Hn.
Qed.

(** * Leftmost differences *)








(** * Hunks on a file system *)

Section refinement.
Context {FS : Type} `{FileSystemLaws FS}.

(** The paths are spellings of different files. *)
Definition all_apart (ps : list str) : Prop := ∀ p q, p ∈ ps → q ∈ ps → p ≠ q → fs_apart p q.

Definition agree (ps : list str) (fs : FS) (m : store) : Prop := ∀ q, q ∈ ps → view fs q = m q.

Lemma create_parents_frame p (fs fs' : FS) q :
  create_parents p fs = (fs', Ok tt) → view fs' q = view fs q.
Proof.
  unfold create_parents. destruct (parent p) as [par|]; [|by intros [= <-]].
  case_decide; [by intros [= <-]|]. intros Hc%stm_map_err_Ok.
  apply view_ext. intros d. by eapply fs_create_dir_frame.
Qed.

Lemma write_agree ps p c msg (fs fs' : FS) m :
  all_apart ps → p ∈ ps → agree ps fs m →
  with_context msg (fs_write p c) fs = (fs', Ok tt) → agree ps fs' (store_set m p (Some c)).
Proof.
  intros Hap Hp Hag Hw%stm_map_err_Ok q Hq. unfold store_set. case_decide as Hqp.
  - subst. apply view_Some. by eapply fs_write_read.
  - rewrite <-Hag by done. apply view_ext. intros d. eapply fs_write_frame; [done|]. by apply Hap.
Qed.

Lemma remove_agree ps p msg (fs fs' : FS) m :
  all_apart ps → p ∈ ps → agree ps fs m →
  with_context msg (fs_remove_file p) fs = (fs', Ok tt) → agree ps fs' (store_set m p None).
Proof.
  intros Hap Hp Hag Hw%stm_map_err_Ok q Hq. unfold store_set. case_decide as Hqp.
  - subst. apply eq_None_not_Some. intros [c Hc%view_Some]. by eapply fs_remove_read.
  - rewrite <-Hag by done. apply view_ext. intros d. eapply fs_remove_frame; [done|]. by apply Hap.
Qed.

Lemma derive_Ok (fs : FS) p cs applied :
  derive_new_contents_from_chunks fs p cs = Ok applied →
  view fs p = Some (original_contents applied) ∧
  new_contents_of p (original_contents applied) cs = Ok (new_contents applied).
Proof.
  unfold derive_new_contents_from_chunks. destruct (fs_read fs p) as [o|e| |] eqn:E; try done.
  cbn [map_err mbind outcome_bind]. destruct (new_contents_of p o cs) as [n|e| |] eqn:En; try done.
  run_bind. intros [= <-]. cbn. split; [by apply view_Some|done].
Qed.

Lemma apply_hunk_agree ps h a a' (fs fs' : FS) m :
  all_apart ps → hunk_paths h ⊆ ps → agree ps fs m →
  apply_hunk h a fs = (fs', Ok a') →
  (∃ m', spec_hunk m h = Some m' ∧ agree ps fs' m') ∧
  added a' = added a ++ added_paths [h] ∧ modified a' = modified a ++ modified_paths [h] ∧
  deleted a' = deleted a ++ deleted_paths [h].
Proof.
  intros Hap Hps Hag. destruct h as [p c|p|p mv cs]; cbn [apply_hunk spec_hunk].
  - intros (fs1 & [] & Hc & (fs2 & [] & Hw & [= <- <-])%stm_bind_Ok)%stm_bind_Ok.
    split; [|split_and!; simpl; by rewrite ?app_nil_r]. eexists; split; [done|].
    eapply write_agree; [done|apply Hps; simpl; set_solver| |done].
    intros q Hq. erewrite create_parents_frame by done. by apply Hag.
  - intros (fs1 & [] & Hw & [= <- <-])%stm_bind_Ok.
    split; [|split_and!; simpl; by rewrite ?app_nil_r]. eexists; split; [done|].
    eapply remove_agree; [done|apply Hps; simpl; set_solver|done|done].
  - destruct (derive_new_contents_from_chunks fs p cs) as [ap|e| |] eqn:Ed; try done.
    apply derive_Ok in Ed as [Hv Hn].
    assert (p ∈ ps) as Hp by (apply Hps; destruct mv; simpl; set_solver).
    rewrite <-(Hag p Hp), Hv, Hn. destruct mv as [dest|].
    + assert (dest ∈ ps) as Hdest by (apply Hps; simpl; set_solver).
      intros (fs1 & [] & Hc & (fs2 & [] & Hw & (fs3 & [] & Hr & [= <- <-])%stm_bind_Ok)%stm_bind_Ok)%stm_bind_Ok.
      split; [|split_and!; simpl; by rewrite ?app_nil_r]. eexists; split; [done|].
      eapply remove_agree; [done|done| |done]. eapply write_agree; [done|done| |done].
      intros q Hq. erewrite create_parents_frame by done. by apply Hag.
    + intros (fs1 & [] & Hw & [= <- <-])%stm_bind_Ok.
      split; [|split_and!; simpl; by rewrite ?app_nil_r]. eexists; split; [done|].
      by eapply write_agree.
Qed.

Lemma hunk_loop_agree ps hs a a' (fs fs' : FS) m :
  all_apart ps → (∀ h, h ∈ hs → hunk_paths h ⊆ ps) → agree ps fs m →
  hunk_loop hs a fs = (fs', Ok a') →
  (∃ m', spec_hunks m hs = Some m' ∧ agree ps fs' m') ∧
  added a' = added a ++ added_paths hs ∧ modified a' = modified a ++ modified_paths hs ∧
  deleted a' = deleted a ++ deleted_paths hs.
Proof.
  intros Hap. revert a fs m. induction hs as [|h hs IH]; intros a fs m Hps Hag; cbn [hunk_loop].
  - intros [= <- <-]. unfold added_paths, modified_paths, deleted_paths. cbn [omap list_omap].
    rewrite !app_nil_r. split; [by exists m|done].
  - intros (fs1 & a1 & Hh & Hl)%stm_bind_Ok.
    apply (apply_hunk_agree ps) with (m := m) in Hh as ((m1 & Hm1 & Hag1) & Ha & Hm & Hd);
      [|done|apply Hps, list_elem_of_here|done].
    eapply IH in Hl as ((m' & Hm' & Hag') & Ha' & Hmo' & Hd'); [|by intros h' Hh'; apply Hps, list_elem_of_further|done].
    split; [|split_and!].
    + exists m'. cbn [spec_hunks]. by rewrite Hm1.
    + rewrite Ha', Ha, <-app_assoc. f_equal. by destruct h.
    + rewrite Hmo', Hm, <-app_assoc. f_equal. by destruct h.
    + rewrite Hd', Hd, <-app_assoc. f_equal. by destruct h.
Qed.
End refinement.

(** * Properties *)


(** Whatever the chunks, computing the new contents never panics (no
    index out of range in a removal or an insertion) and never loops. *)
Theorem new_contents_total path original cs :
  returns (new_contents_of path original cs).
Proof. apply new_contents_of_returns. Qed.

(** For chunks that do not ask for the end of the file (and add lines
    only to a file that does not end with an empty line), a successful
    application replaces, for each chunk, a block that matches the lines the
    chunk removes; the blocks are disjoint, in the order of the file, and the
    result is the file read from left to right with each block replaced. *)
Theorem regular_chunks_splice path original cs new :
  regular (file_lines original) cs → new_contents_of path original cs = Ok new →
  ∃ rs, Forall2 (located (file_lines original)) cs rs ∧
    well_placed 0 (length (file_lines original)) (sort_by_key r_start rs) ∧
    new = file_text (splice 0 (file_lines original) (sort_by_key r_start rs)).
Proof.
  intros Hreg. unfold new_contents_of, compute_replacements.
  destruct (replacements_loop _ path 0 cs) as [rs| | |] eqn:E; try done.
  apply replacements_loop_regular in E as [HF Hwp]; [|lia|done]. run_bind.
  rewrite (apply_replacements_splice 0) by done. intros [= <-]. eauto.
Qed.

(** C2. Refinement of the abstract file store: when the paths of the hunks
    are spellings of different files, a successful run changes the files as
    the hunks say in order (add, delete, update, move), reports exactly the
    paths added, modified and deleted in order, and changes no other of the
    files considered. *)
Theorem apply_hunks_refines {FS : Type} `{FileSystemLaws FS} ps hs (fs fs' : FS) a :
  all_apart ps → (∀ h, h ∈ hs → hunk_paths h ⊆ ps) →
  apply_hunks_to_files hs fs = (fs', Ok a) →
  (∃ m, spec_hunks (view fs) hs = Some m ∧ ∀ q, q ∈ ps → view fs' q = m q) ∧
  a = {| added := added_paths hs; modified := modified_paths hs; deleted := deleted_paths hs |}.
Proof.
  intros Hap Hps Hrun. assert (hunk_loop hs {| added := []; modified := []; deleted := [] |} fs
                               = (fs', Ok a)) as Hl by by destruct hs.
  apply (hunk_loop_agree ps) with (m := view fs) in Hl as (Hm & Ha & Hmo & Hd); [|done..].
  split; [done|]. destruct a. cbn in *. by subst.
Qed.

(** Updating a file with a move to its own path loses it: the new
    contents are written and the file is then removed. *)
Theorem move_to_self_deletes {FS : Type} `{FileSystemLaws FS} p cs a a' (fs fs' : FS) :
  apply_hunk (UpdateFile p (Some p) cs) a fs = (fs', Ok a') → view fs' p = None.
Proof.
  cbn [apply_hunk]. destruct (derive_new_contents_from_chunks fs p cs); try done.
  intros (fs1 & [] & _ & (fs2 & [] & _ & (fs3 & [] & Hr%stm_map_err_Ok & [= <- <-])%stm_bind_Ok)%stm_bind_Ok)%stm_bind_Ok.
  apply eq_None_not_Some. intros [c Hc%view_Some]. by eapply fs_remove_read.
Qed.

(** * Witnesses *)

Definition sample_file : str := join [nl] [lit "a"; lit "b"; lit "c"; []].
Definition sample_edits : list edit :=
  [{| e_header := None; e_gap := [lit "a"]; e_old := [lit "b"]; e_new := [lit "B"; lit "BB"]; e_eof := false |}].



Definition sample_chunks : list UpdateFileChunk := edit_chunk <$> sample_edits.

Lemma regular_chunks_splice_witness :
  ∃ rs, Forall2 (located (file_lines sample_file)) sample_chunks rs ∧
    well_placed 0 (length (file_lines sample_file)) (sort_by_key r_start rs) ∧
    join [nl] [lit "a"; lit "B"; lit "BB"; lit "c"; []]
    = file_text (splice 0 (file_lines sample_file) (sort_by_key r_start rs)).
Proof.
  apply (regular_chunks_splice (lit "f") sample_file sample_chunks).
  - apply Forall_singleton. split; [done|]. intros H. by vm_compute in H.
  - vm_compute. reflexivity.
Defined.

Definition sample_fs : mem_fs := MemFs {[ lit "f" := sample_file; lit "g" := lit "x" ]}.
Definition sample_hunks : list Hunk :=
  [UpdateFile (lit "f") (Some (lit "h")) sample_chunks; DeleteFile (lit "g")].
Definition sample_paths : list str := [lit "f"; lit "h"; lit "g"].

Lemma apply_hunks_refines_witness :
  view (apply_hunks_to_files sample_hunks sample_fs).1 (lit "h")
  = Some (join [nl] [lit "a"; lit "B"; lit "BB"; lit "c"; []]) ∧
  ∃ m, spec_hunks (view sample_fs) sample_hunks = Some m ∧
    m (lit "g") = None ∧ m (lit "f") = None.
Proof.
  assert (∃ fs' a, apply_hunks_to_files sample_hunks sample_fs = (fs', Ok a) ∧
     view fs' (lit "f") = None ∧ view fs' (lit "g") = None) as (fs' & a & Hrun & Hf & Hg).
  { eexists _, _. split; [vm_compute; reflexivity|]. split; vm_compute; reflexivity. }
  split; [vm_compute; reflexivity|].
  destruct (apply_hunks_refines sample_paths sample_hunks sample_fs fs' a) as [(m & Hm & Hag) _].
  - intros p q Hp Hq Hne. unfold sample_paths in *.
    rewrite !elem_of_cons, elem_of_nil in Hp, Hq.
    destruct Hp as [->|[->|[->|[]]]], Hq as [->|[->|[->|[]]]]; try (by destruct Hne);
      (vm_compute; discriminate).
  - intros h [->|[->|[]%not_elem_of_nil]%elem_of_cons]%elem_of_cons;
      intros p; unfold sample_paths; rewrite ?elem_of_cons, ?elem_of_nil;
      cbn; rewrite ?elem_of_cons, ?elem_of_nil; tauto.
  - exact Hrun.
  - exists m. split; [exact Hm|].
    rewrite (Hag (lit "g")) in Hg by (unfold sample_paths; rewrite !elem_of_cons; tauto).
    rewrite (Hag (lit "f")) in Hf by (unfold sample_paths; rewrite !elem_of_cons; tauto).
    by split.
Defined.

Lemma move_to_self_deletes_witness :
  view sample_fs (lit "f") = Some sample_file ∧
  ∃ fs' a', apply_hunk (UpdateFile (lit "f") (Some (lit "f")) sample_chunks)
              {| added := []; modified := []; deleted := [] |} sample_fs = (fs', Ok a') ∧
    view fs' (lit "f") = None.
Proof.
  split; [vm_compute; reflexivity|]. eexists _, _.
  assert (∀ fs' a', apply_hunk (UpdateFile (lit "f") (Some (lit "f")) sample_chunks)
              {| added := []; modified := []; deleted := [] |} sample_fs = (fs', Ok a') →
              view fs' (lit "f") = None) as H.
  { intros fs' a' Hr. exact (move_to_self_deletes (lit "f") sample_chunks _ a' sample_fs fs' Hr). }
  split; [vm_compute; reflexivity|]. eapply H. vm_compute. reflexivity.
Defined.
