(* ===== verification/Invocation.v ===== *)
(** Recognising an [apply_patch] command and computing its effect before it
    runs: [codex-rs/apply-patch/src/invocation.rs] and the types of
    [codex-rs/apply-patch/src/lib.rs]. The Tree-sitter query that finds a
    heredoc in a shell script and the diff printer of the [similar] crate are
    parameters. *)
From stdpp Require Import gmap.
From S2P Require Import Prelude RustStr RustPath FileSystem PatchParser ApplyPatch.

Definition APPLY_PATCH_COMMANDS : list str := [lit "apply_patch"; lit "applypatch"].

Inductive ApplyPatchShell : Type := Unix | PowerShell | Cmd.

Inductive ExtractHeredocError : Type :=
| CommandDidNotStartWithApplyPatch
| FailedToLoadBashGrammar (e : str)
| HeredocNotUtf8 (e : str)
| FailedToParsePatchIntoAst
| FailedToFindHeredocBody.

Inductive MaybeApplyPatch : Type :=
| Body (args : ApplyPatchArgs)
| ShellParseError (e : ExtractHeredocError)
| PatchParseError (e : ParseError)
| NotApplyPatch.

Inductive ApplyPatchFileChange : Type :=
| Add (content : str)
| Delete (content : str)
| Update (unified_diff : str) (update_move_path : option str) (new_content : str).

(** [HashMap<PathBuf, _>] is keyed by the components of the path. *)
Record ApplyPatchAction : Type := {
  changes : gmap str ApplyPatchFileChange;
  action_patch : str;
  action_cwd : str }.

Inductive MaybeApplyPatchVerified : Type :=
| VBody (action : ApplyPatchAction)
| VShellParseError (e : ExtractHeredocError)
| VCorrectnessError (e : ApplyPatchError)
| VNotApplyPatch.

Definition eq_ignore_ascii_case (a b : str) : bool :=
  bool_decide (to_ascii_lowercase a = to_ascii_lowercase b).

Definition classify_shell_name (shell : str) : option str :=
  to_ascii_lowercase <$> file_stem shell.

Definition classify_shell (shell flag : str) : option ApplyPatchShell :=
  match classify_shell_name shell with
  | Some name =>
      if bool_decide (name ∈ [lit "bash"; lit "zsh"; lit "sh"])
         && bool_decide (flag ∈ [lit "-lc"; lit "-c"]) then Some Unix
      else if bool_decide (name ∈ [lit "pwsh"; lit "powershell"])
              && eq_ignore_ascii_case flag (lit "-command") then Some PowerShell
      else if bool_decide (name = lit "cmd") && eq_ignore_ascii_case flag (lit "/c") then Some Cmd
      else None
  | None => None
  end.

Definition can_skip_flag (shell flag : str) : bool :=
  match classify_shell_name shell with
  | Some name => bool_decide (name ∈ [lit "pwsh"; lit "powershell"])
                 && eq_ignore_ascii_case flag (lit "-noprofile")
  | None => false
  end.

Definition parse_shell_script (argv : list str) : option (ApplyPatchShell * str) :=
  match argv with
  | [shell; flag; script] => (λ t, (t, script)) <$> classify_shell shell flag
  | [shell; skip_flag; flag; script] =>
      if can_skip_flag shell skip_flag then (λ t, (t, script)) <$> classify_shell shell flag
      else None
  | _ => None
  end.

(** [hunk.resolve_path(cwd)]. *)
Definition hunk_path (h : Hunk) : str :=
  match h with AddFile p _ | DeleteFile p | UpdateFile p _ _ => p end.
Definition resolve_path (h : Hunk) (cwd : str) : str := path_join cwd (hunk_path h).

Definition parses (text : str) : bool := match parse_patch text with Ok _ => true | _ => false end.

Section invocation.
(** The Tree-sitter query: the heredoc body and the directory of a leading
    [cd], or why the script is not of that form. *)
Variable extract_apply_patch_from_bash : str → outcome ExtractHeredocError (str * option str).
(** [TextDiff::from_lines(old, new).unified_diff().context_radius(n)]. *)
Variable text_diff : str → str → nat → str.
Context {FS : Type} `{FileSystem FS}.

Definition extract_apply_patch_from_shell (shell : ApplyPatchShell) (script : str)
    : outcome ExtractHeredocError (str * option str) :=
  match shell with Unix | PowerShell | Cmd => extract_apply_patch_from_bash script end.

Definition maybe_parse_apply_patch (argv : list str) : outcome Empty_set MaybeApplyPatch :=
  let parsed body workdir :=
    match parse_patch body with
    | Ok source => Ok (Body {| patch := patch source; hunks := hunks source; workdir := workdir source |})
    | Err e => Ok (PatchParseError e)
    | Panic => Panic
    | OutOfFuel => OutOfFuel
    end in
  let shell_form :=
    match parse_shell_script argv with
    | Some (shell, script) =>
        match extract_apply_patch_from_shell shell script with
        | Ok (body, wd) =>
            parsed body (λ _, wd)
        | Err CommandDidNotStartWithApplyPatch => Ok NotApplyPatch
        | Err e => Ok (ShellParseError e)
        | Panic => Panic
        | OutOfFuel => OutOfFuel
        end
    | None => Ok NotApplyPatch
    end in
  match argv with
  | [cmd; body] => if decide (cmd ∈ APPLY_PATCH_COMMANDS) then parsed body workdir else shell_form
  | _ => shell_form
  end.

Definition unified_diff_from_chunks_with_context (fs : FS) (path : str)
    (chunks : list UpdateFileChunk) (context : nat) : outcome ApplyPatchError (str * str) :=
  applied ← derive_new_contents_from_chunks fs path chunks;
  Ok (text_diff (original_contents applied) (new_contents applied) context, new_contents applied).
Definition unified_diff_from_chunks (fs : FS) (path : str) (chunks : list UpdateFileChunk) :=
  unified_diff_from_chunks_with_context fs path chunks 1.

(** The change one hunk contributes. *)
Definition hunk_change (fs : FS) (effective_cwd : str) (h : Hunk)
    : outcome ApplyPatchError ApplyPatchFileChange :=
  let path := resolve_path h effective_cwd in
  match h with
  | AddFile _ contents => Ok (Add contents)
  | DeleteFile _ =>
      content ← map_err (λ e, APIoError {| context := lit "Failed to read " ++ path; source := e |})
                  (fs_read fs path);
      Ok (Delete content)
  | UpdateFile _ move_path chunks =>
      '(diff, contents) ← unified_diff_from_chunks fs path chunks;
      Ok (Update diff (path_join effective_cwd <$> move_path) contents)
  end.

Fixpoint changes_loop (fs : FS) (effective_cwd : str) (hs : list Hunk)
    (changes : gmap str ApplyPatchFileChange)
    : outcome ApplyPatchError (gmap str ApplyPatchFileChange) :=
  match hs with
  | [] => Ok changes
  | h :: hs' =>
      c ← hunk_change fs effective_cwd h;
      changes_loop fs effective_cwd hs' (<[path_key (resolve_path h effective_cwd) := c]> changes)
  end.

Definition effective_cwd (cwd : str) (workdir : option str) : str :=
  match workdir with
  | Some dir => if is_absolute dir then dir else path_join cwd dir
  | None => cwd
  end.

Definition maybe_parse_apply_patch_verified (fs : FS) (argv : list str) (cwd : str)
    : outcome Empty_set MaybeApplyPatchVerified :=
  let is_body := match argv with [body] => parses body | _ => false end in
  let is_script := match parse_shell_script argv with Some (_, script) => parses script | None => false end in
  if is_body || is_script then Ok (VCorrectnessError ImplicitInvocation)
  else
    m ← maybe_parse_apply_patch argv;
    match m with
    | Body args =>
        let ecwd := effective_cwd cwd (workdir args) in
        match changes_loop fs ecwd (hunks args) ∅ with
        | Ok changes => Ok (VBody {| changes := changes; action_patch := patch args; action_cwd := ecwd |})
        | Err e => Ok (VCorrectnessError e)
        | Panic => Panic
        | OutOfFuel => OutOfFuel
        end
    | ShellParseError e => Ok (VShellParseError e)
    | PatchParseError e => Ok (VCorrectnessError (APParseError e))
    | NotApplyPatch => Ok VNotApplyPatch
    end.
End invocation.

(** * Properties *)

Section properties.
Context (extract_apply_patch_from_bash : str → outcome ExtractHeredocError (str * option str)).
Context (text_diff : str → str → nat → str).
Context {FS : Type} `{FileSystem FS}.

Abbreviation change_of := (hunk_change text_diff).
Abbreviation verified := (maybe_parse_apply_patch_verified extract_apply_patch_from_bash text_diff).

Definition change_key (ecwd : str) (h : Hunk) : str := path_key (resolve_path h ecwd).

(** Every recorded change comes from a hunk, and the last hunk on a path is
    the one recorded. *)
Lemma changes_loop_spec (fs : FS) ecwd hs m m' :
  changes_loop text_diff fs ecwd hs m = Ok m' →
  (∀ k c, m' !! k = Some c → m !! k = Some c ∨
     ∃ h, h ∈ hs ∧ k = change_key ecwd h ∧ change_of fs ecwd h = Ok c) ∧
  (∀ k, k ∉ change_key ecwd <$> hs → m' !! k = m !! k) ∧
  (NoDup (change_key ecwd <$> hs) →
     ∀ h, h ∈ hs → ∃ c, change_of fs ecwd h = Ok c ∧ m' !! change_key ecwd h = Some c).
Proof.
  revert m. induction hs as [|h hs IH]; intros m; cbn [changes_loop].
  { intros [= <-]. split_and!; [by left|done|]. intros _ h Hh. by apply not_elem_of_nil in Hh. }
  destruct (change_of fs ecwd h) as [c| | |] eqn:E; try done. run_bind.
  fold (change_key ecwd h). intros Hl. destruct (IH _ Hl) as (Hsrc & Hframe & Hcov). split_and!.
  - intros k c' Hk. destruct (Hsrc k c' Hk) as [Hm|(h' & Hh' & Hk' & Hc')].
    + destruct (decide (change_key ecwd h = k)) as [<-|Hne].
      * rewrite lookup_insert_eq in Hm. injection Hm as <-. right. exists h.
        split; [apply list_elem_of_here|done].
      * rewrite lookup_insert_ne in Hm by done. by left.
    + right. exists h'. split; [by apply list_elem_of_further|done].
  - intros k Hk. rewrite fmap_cons, not_elem_of_cons in Hk. destruct Hk as [Hk Hks].
    rewrite Hframe by done. by rewrite lookup_insert_ne.
  - rewrite fmap_cons, NoDup_cons. intros [Hnin Hnd] h' [->|Hh']%elem_of_cons; [|by apply Hcov].
    exists c. split; [done|]. rewrite Hframe by done. by rewrite lookup_insert_eq.
Qed.

Lemma verified_inv (fs : FS) argv cwd act :
  verified fs argv cwd = Ok (VBody act) →
  ∃ args, maybe_parse_apply_patch extract_apply_patch_from_bash argv = Ok (Body args) ∧
    action_patch act = patch args ∧ action_cwd act = effective_cwd cwd (workdir args) ∧
    changes_loop text_diff fs (action_cwd act) (hunks args) ∅ = Ok (changes act).
Proof.
  unfold maybe_parse_apply_patch_verified. case_match; [done|].
  destruct (maybe_parse_apply_patch _ argv) as [m| | |]; try done. run_bind.
  destruct m as [args|e|e|]; try done.
  destruct (changes_loop _ _ _ _ _) as [cs| | |] eqn:E; try done. intros [= <-]. by exists args.
Qed.

(** What a verified [apply_patch] command reports. The patch kept is the
    one parsed, relative paths are resolved against the directory of the
    script's [cd] (itself resolved against [cwd]), every change reported is
    the effect of a hunk on the files as they are, and when no two hunks name
    the same path every hunk is reported. *)
Theorem verified_changes (fs : FS) argv cwd act :
  verified fs argv cwd = Ok (VBody act) →
  ∃ args, maybe_parse_apply_patch extract_apply_patch_from_bash argv = Ok (Body args) ∧
    action_patch act = patch args ∧ action_cwd act = effective_cwd cwd (workdir args) ∧
    (∀ k c, changes act !! k = Some c → ∃ h, h ∈ hunks args ∧
       k = change_key (action_cwd act) h ∧ change_of fs (action_cwd act) h = Ok c) ∧
    (NoDup (change_key (action_cwd act) <$> hunks args) → ∀ h, h ∈ hunks args →
       ∃ c, change_of fs (action_cwd act) h = Ok c ∧
            changes act !! change_key (action_cwd act) h = Some c).
Proof.
  intros (args & Ha & Hp & Hc & E)%verified_inv. exists args.
  apply changes_loop_spec in E as (Hsrc & _ & Hcov). split_and!; try done.
  intros k c Hk. destruct (Hsrc k c Hk) as [Hm|Hm]; [by rewrite lookup_empty in Hm|done].
Qed.

(** A later hunk on the same path hides a move: for an update of [p]
    that moves it to [dest] followed by an addition of [p], the only change
    reported is the addition, so nothing reported names [dest], although
    applying the hunks writes [dest]. *)
Theorem later_hunk_hides_move (fs : FS) ecwd p dest cs content cs' :
  changes_loop text_diff fs ecwd [UpdateFile p (Some dest) cs; AddFile p content] ∅ = Ok cs' →
  cs' = {[ path_key (path_join ecwd p) := Add content ]}.
Proof.
  cbn [changes_loop].
  destruct (hunk_change _ fs ecwd (UpdateFile p (Some dest) cs)) as [c| | |]; try done.
  intros [= <-]. unfold resolve_path; cbn [hunk_path]. by rewrite insert_insert_eq.
Qed.
End properties.

(** * Witnesses *)

Definition no_heredoc (_ : str) : outcome ExtractHeredocError (str * option str) :=
  Err CommandDidNotStartWithApplyPatch.
Definition no_diff (_ _ : str) (_ : nat) : str := [].
Definition sample_patch : str :=
  join [nl] [lit "*** Begin Patch"; lit "*** Update File: f"; lit "*** Move to: /etc/h"; lit "@@";
             lit "-b"; lit "+B"; lit "*** Add File: f"; lit "+x"; lit "*** End Patch"].
Definition abs_fs : mem_fs := MemFs {[ lit "/w/f" := sample_file ]}.

Lemma verified_changes_witness :
  ∃ act, maybe_parse_apply_patch_verified no_heredoc no_diff abs_fs
           [lit "apply_patch"; sample_patch] (lit "/w") = Ok (VBody act) ∧
  ∃ args, maybe_parse_apply_patch no_heredoc [lit "apply_patch"; sample_patch] = Ok (Body args) ∧
    action_patch act = patch args ∧ action_cwd act = lit "/w".
Proof.
  eexists. split; [vm_compute; reflexivity|].
  edestruct (verified_changes no_heredoc no_diff abs_fs [lit "apply_patch"; sample_patch] (lit "/w"))
    as (args & Ha & Hp & Hc & _).
  { vm_compute. reflexivity. }
  exists args. split; [exact Ha|]. split; [exact Hp|reflexivity].
Defined.

Lemma later_hunk_hides_move_witness :
  ∃ cs', changes_loop no_diff abs_fs (lit "/w")
           [UpdateFile (lit "f") (Some (lit "/etc/h")) sample_chunks; AddFile (lit "f") (lit "x")] ∅
         = Ok cs' ∧ cs' = {[ path_key (path_join (lit "/w") (lit "f")) := Add (lit "x") ]}.
Proof.
  eexists. split; [vm_compute; reflexivity|].
  eapply (later_hunk_hides_move no_diff abs_fs (lit "/w") (lit "f") (lit "/etc/h") sample_chunks).
  vm_compute. reflexivity.
Defined.
