(* ===== verification/AbsolutePath.v ===== *)
(** Absolute, normalised paths: [codex-rs/utils/absolute-path/src/lib.rs].
    The home directory, the process working directory and the lexical
    normalisation of the [path_absolutize] crate are the interface [PathEnv];
    [lexical_env] is a concrete environment. *)
From S2P Require Import Prelude RustStr RustPath FileSystem.

(** What the operating system and [path_absolutize] offer. *)
Class PathEnv : Type := {
  home_dir : option str;
  env_current_dir : outcome io_error str;
  absolutize : str → outcome io_error str;
  (** [absolutize_from base path]. *)
  absolutize_from : str → str → outcome io_error str }.

(** The documented behaviour the code relies on: the results are absolute,
    and an absolute path does not look at the base. *)
Class PathEnvLaws `{PathEnv} : Prop := {
  absolutize_absolute p q : absolutize p = Ok q → is_absolute q = true;
  absolutize_from_absolute b p q :
    is_absolute b = true → absolutize_from b p = Ok q → is_absolute q = true;
  absolutize_from_ignores_base b p : is_absolute p = true → absolutize_from b p = absolutize p }.

(** [home_dir] is asked for first; a path that does not start with a tilde, or
    starts with the tilde of another user, is kept. *)
Definition tilde : N := 126.
Definition maybe_expand_home_directory `{PathEnv} (path : str) : str :=
  match home_dir, strip_prefix [tilde] path with
  | Some home, Some rest =>
      match rest with
      | [] => home
      | _ => match strip_prefix [slash] rest with
             | Some rest' => path_join home (trim_start_matches (N.eqb slash) rest')
             | None => path
             end
      end
  | _, _ => path
  end.

Definition resolve_path_against_base `{PathEnv} (path base_path : str) : outcome io_error str :=
  absolutize_from base_path (maybe_expand_home_directory path).
Definition from_absolute_path `{PathEnv} (path : str) : outcome io_error str :=
  absolutize (maybe_expand_home_directory path).
(** [TryFrom<&Path>], [TryFrom<PathBuf>], [TryFrom<&str>], [TryFrom<String>]. *)
Definition try_from `{PathEnv} (path : str) : outcome io_error str := from_absolute_path path.
Definition current_dir `{PathEnv} : outcome io_error str :=
  d ← env_current_dir; from_absolute_path d.
Definition relative_to_current_dir `{PathEnv} (path : str) : outcome io_error str :=
  d ← env_current_dir; resolve_path_against_base path d.
Definition abs_join `{PathEnv} (self path : str) : outcome io_error str :=
  resolve_path_against_base path self.
Definition abs_parent (self : str) : option str := parent self.

(** [Deserialize], with the base path the guard of the thread has set. *)
Definition no_base_message : str := lit "AbsolutePathBuf deserialized without a base path".
Definition deserialize `{PathEnv} (base : option str) (path : str) : outcome io_error str :=
  match base with
  | Some base => resolve_path_against_base path base
  | None => if is_absolute path then from_absolute_path path else Err no_base_message
  end.

(** * A concrete environment *)

(** Lexical removal of dots; the parent of the root is the root. *)
Fixpoint remove_dots (acc : list component) (cs : list component) : list component :=
  match cs with
  | [] => acc
  | RootDir :: cs' => remove_dots [RootDir] cs'
  | CurDir :: cs' => remove_dots acc cs'
  | ParentDir :: cs' =>
      remove_dots (match last acc with Some (Normal _) => removelast acc | _ => acc end) cs'
  | Normal s :: cs' => remove_dots (acc ++ [Normal s]) cs'
  end.
Definition lexical_absolutize (base p : str) : str :=
  of_components (remove_dots [RootDir] (components (if is_absolute p then p else path_join base p))).
Definition lexical_env (home cwd : str) : PathEnv := {|
  home_dir := Some home;
  env_current_dir := Ok cwd;
  absolutize p := Ok (lexical_absolutize cwd p);
  absolutize_from b p := Ok (lexical_absolutize b p) |}.

(** * Lemmas *)


Lemma remove_dots_root cs : ∀ acc, ∃ rest, remove_dots (RootDir :: acc) cs = RootDir :: rest.
Proof.
  induction cs as [|c cs IH]; intros acc; [eexists; reflexivity|].
  destruct c as [| | |s]; cbn [remove_dots].
  - apply (IH []).
  - apply IH.
  - destruct (last (RootDir :: acc)) as [[| | |s]|] eqn:E; try apply IH.
    destruct acc as [|a acc]; [done|]. rewrite removelast_head by done. apply IH.
  - apply (IH (acc ++ [Normal s])).
Qed.

Lemma lexical_absolute base p : is_absolute (lexical_absolutize base p) = true.
Proof.
  unfold lexical_absolutize. destruct (remove_dots_root
    (components (if is_absolute p then p else path_join base p)) []) as [rest ->]. done.
Qed.

Lemma lexical_env_laws home cwd : @PathEnvLaws (lexical_env home cwd).
Proof.
  split; cbn.
  - intros p q [= <-]. apply lexical_absolute.
  - intros b p q _ [= <-]. apply lexical_absolute.
  - intros b p Hp. unfold lexical_absolutize. by rewrite Hp.
Qed.

Example lexical_ex :
  lexical_absolutize (lit "/work") (lit "../a/./b/../c") = lit "/a/c"
  ∧ lexical_absolutize (lit "/work") (lit "/..") = lit "/".
Proof. vm_compute. done. Qed.

(** Expansion of the home directory is a function of the components. *)
Definition expand_components (home : str) (cs : list component) : list component :=
  match cs with
  | Normal s :: cs' => if decide (s = [tilde]) then components home ++ cs' else cs
  | _ => cs
  end.
Lemma components_cons x p :
  x ≠ slash → ∃ hd tl, split_char slash (x :: p) = (x :: hd) :: tl
    ∧ components (x :: p) = (if decide (x :: hd = dot) then CurDir else classify (x :: hd)) :: named_pieces tl.
Proof.
  intros Hx. destruct (split_char slash p) as [|hd tl] eqn:E; [by destruct (split_char_not_nil _ _ E)|].
  assert (Es : split_char slash (x :: p) = (x :: hd) :: tl).
  { cbn [split_char]. destruct (N.eqb_spec x slash); [done|]. by rewrite E. }
  exists hd, tl. split; [done|]. unfold components.
  replace (is_absolute (x :: p)) with false.
  2:{ unfold is_absolute, starts_with. cbn [strip_prefix]. by destruct (N.eqb_spec slash x). }
  rewrite Es. cbn [head]. unfold named_pieces. destruct (decide (x :: hd = dot)) as [->|Hd].
  - rewrite decide_True by done. rewrite filter_cons_False by naive_solver. done.
  - rewrite decide_False by congruence. rewrite filter_cons_True by done. done.
Qed.
Lemma components_expand `{PathEnv} p :
  (∀ h, home_dir = Some h → is_absolute h = true) →
  components (maybe_expand_home_directory p)
  = match home_dir with Some h => expand_components h (components p) | None => components p end.
Proof.
  intros Hh. unfold maybe_expand_home_directory. destruct home_dir as [home|]; [|done].
  specialize (Hh home eq_refl). destruct p as [|x p]; [done|]. cbn [strip_prefix].
  destruct (N.eqb_spec tilde x) as [<-|Hx]; cbn [strip_prefix].
  2:{ destruct (N.eqb_spec x slash) as [->|Hs].
      - by destruct (components_absolute (slash :: p) eq_refl) as (cs & -> & _).
      - destruct (components_cons x p Hs) as (hd & tl & _ & ->). unfold expand_components, classify.
        destruct (decide _); [done|]. destruct (decide _); [done|]. rewrite decide_False by congruence. done. }
  destruct p as [|y p]; [by rewrite <-(app_nil_r (components home)) at 1|]. cbn [strip_prefix].
  destruct (N.eqb_spec slash y) as [<-|Hy].
  - destruct (components_path_join home _ Hh (trim_slashes_relative p)) as [_ ->].
    rewrite named_pieces_trim_slashes. done.
  - destruct (components_cons tilde (y :: p) ltac:(done)) as (hd & tl & Es & ->).
    assert (hd ≠ []).
    { intros ->. cbn [split_char] in Es. change (tilde =? slash)%N with false in Es.
      destruct (N.eqb_spec y slash); [congruence|]. by destruct (split_char slash p). }
    rewrite decide_False by done. unfold classify. rewrite decide_False by done. cbn [expand_components].
    by rewrite decide_False by congruence.
Qed.
Lemma expand_path_eq `{PathEnv} p q :
  (∀ h, home_dir = Some h → is_absolute h = true) →
  path_eq p q → path_eq (maybe_expand_home_directory p) (maybe_expand_home_directory q).
Proof. intros Hh E. unfold path_eq in *. rewrite !components_expand by done. by rewrite E. Qed.
Lemma expand_absolute `{PathEnv} p : is_absolute p = true → maybe_expand_home_directory p = p.
Proof.
  intros [q ->]%is_absolute_inv. unfold maybe_expand_home_directory. by destruct home_dir.
Qed.
