(* ===== verification/NormalPath.v ===== *)
(** Lexically normal absolute paths, those [AbsolutePathBuf] holds: a root and
    names, with no dots and no repeated separators. Their ancestors, and the
    behaviour of [path_absolutize] on them. *)
From stdpp Require Import sorting.
From S2P Require Import Prelude RustStr RustPath FileSystem AbsolutePath.

Definition normal_component (c : component) : Prop := plain_component c ∧ c ≠ ParentDir.
(** The path of a list of names below the root. *)
Definition below_root (cs : list component) : str := of_components (RootDir :: cs).
Definition normal_path (p : str) : Prop := ∃ cs, Forall normal_component cs ∧ p = below_root cs.
(** One folder is strictly above another. *)
Definition dir_above (a b : str) : Prop :=
  ∃ cs c ds, Forall normal_component (cs ++ c :: ds) ∧ a = below_root cs ∧ b = below_root (cs ++ c :: ds).

(** The absolutized form of a path that is normal is the path itself. *)
Class NormalPaths `{PathEnv} : Prop := {
  absolutize_normal p : normal_path p → absolutize p = Ok p;
  absolutize_from_normal b p q : normal_path b → absolutize_from b p = Ok q → normal_path q }.

(** * Lemmas *)

Lemma normal_plain cs : Forall normal_component cs → Forall plain_component cs.
Proof. intros H. apply (Forall_impl _ _ _ H). by intros c []. Qed.
Lemma components_below_root cs : Forall normal_component cs → components (below_root cs) = RootDir :: cs.
Proof. intros H. by apply components_of_components, normal_plain. Qed.
Lemma below_root_absolute cs : is_absolute (below_root cs) = true.
Proof. done. Qed.
Lemma below_root_inj cs ds : Forall normal_component cs → Forall normal_component ds → below_root cs = below_root ds → cs = ds.
Proof. intros Hc Hd E. apply (f_equal components) in E. rewrite !components_below_root in E by done. by injection E. Qed.
Lemma parent_below_root cs c : Forall normal_component (cs ++ [c]) → parent (below_root (cs ++ [c])) = Some (below_root cs).
Proof.
  intros H. unfold parent. rewrite components_below_root by done. change (RootDir :: cs ++ [c]) with ((RootDir :: cs) ++ [c]).
  rewrite last_snoc, removelast_snoc. apply Forall_app in H as [_ [[Hc _] _]%Forall_cons]. by destruct c.
Qed.
Lemma parent_root : parent (below_root []) = None.
Proof. reflexivity. Qed.
Lemma join_snoc_below cs s : Forall normal_component cs → normal_component (Normal s) → s ≠ [] → is_absolute s = false →
  path_join (below_root cs) s = below_root (cs ++ [Normal s]).
Proof.
  intros Hc Hs Hne Ha. unfold path_join. rewrite Ha, decide_False by done. unfold below_root, of_components.
  destruct cs as [|c cs] using rev_ind; [by rewrite decide_True|]. clear IHcs.
  assert (Hj : join [slash] (component_str <$> (cs ++ [c]) ++ [Normal s])
    = join [slash] (component_str <$> cs ++ [c]) ++ slash :: s).
  { rewrite (fmap_app _ (cs ++ [c])). cbn [fmap list_fmap component_str]. rewrite join_snoc; [done|]. rewrite fmap_app. by destruct (component_str <$> cs). }
  rewrite Hj. rewrite decide_False; [done|].
  apply Forall_app in Hc as [_ [[Hc Hnp] _]%Forall_cons]. destruct c as [| | |x]; try done.
  destruct Hc as (Hx & _ & _ & Hsl). rewrite fmap_app. cbn [fmap list_fmap component_str].
  assert (Hlast : ∃ pre, join [slash] ((component_str <$> cs) ++ [x]) = pre ++ x).
  { destruct cs as [|d cs]; [by exists []|]. rewrite join_snoc by done. eexists. by rewrite app_assoc. }
  destruct Hlast as [pre ->]. destruct x as [|y x _] using rev_ind; [done|].
  rewrite app_assoc, (app_comm_cons _ _ slash), last_snoc. intros [= ->]. apply Hsl. set_solver.
Qed.
Lemma path_eq_below cs ds : Forall normal_component cs → Forall normal_component ds →
  path_eq (below_root cs) (below_root ds) → cs = ds.
Proof. unfold path_eq. intros Hc Hd. rewrite !components_below_root by done. by intros [= ->]. Qed.

(** The ancestors of a normal path are its prefixes, the longest first. *)
Lemma elem_ancestors_fuel n a : ∀ cs, Forall normal_component cs → length cs ≤ n →
  a ∈ ancestors_fuel n (below_root cs) ↔ ∃ ds es, cs = ds ++ es ∧ a = below_root ds.
Proof.
  induction n as [|n IH]; intros cs Hc Hn.
  - destruct cs; [|cbn in Hn; lia]. cbn [ancestors_fuel]. rewrite list_elem_of_singleton. split.
    + intros ->. by exists [], [].
    + intros (ds & es & E & ->). by symmetry in E; apply app_nil in E as [-> ->].
  - cbn [ancestors_fuel]. destruct cs as [|c cs _] using rev_ind.
    + rewrite parent_root, list_elem_of_singleton. split; [intros ->; by exists [], []|].
      intros (ds & es & E & ->). by symmetry in E; apply app_nil in E as [-> ->].
    + rewrite parent_below_root, elem_of_cons by done. rewrite length_app in Hn. cbn in Hn.
      pose proof (proj1 (Forall_app _ _ _) Hc) as [Hc' _]. rewrite (IH cs) by (done || lia). split.
      * intros [->|(ds & es & -> & ->)]; [by exists (cs ++ [c]), []; rewrite app_nil_r|].
        exists ds, (es ++ [c]). by rewrite app_assoc.
      * intros (ds & es & E & ->). destruct es as [|e es _] using rev_ind; [left; by rewrite E, app_nil_r|right].
        rewrite app_assoc in E. apply app_inj_tail in E as [-> _]. by exists ds, es.
Qed.
Lemma elem_ancestors cs a : Forall normal_component cs →
  a ∈ ancestors (below_root cs) ↔ ∃ ds es, cs = ds ++ es ∧ a = below_root ds.
Proof. intros H. unfold ancestors. rewrite components_below_root by done. apply elem_ancestors_fuel; [done|cbn; lia]. Qed.
Lemma ancestors_fuel_sorted n : ∀ cs, Forall normal_component cs → length cs ≤ n →
  StronglySorted (flip dir_above) (ancestors_fuel n (below_root cs)).
Proof.
  induction n as [|n IH]; intros cs Hc Hn; cbn [ancestors_fuel]; [by repeat constructor|].
  destruct cs as [|c cs _] using rev_ind; [rewrite parent_root; by repeat constructor|].
  rewrite parent_below_root by done. rewrite length_app in Hn. cbn in Hn.
  pose proof (proj1 (Forall_app _ _ _) Hc) as [Hc' _]. constructor; [apply IH; [done|lia]|].
  apply Forall_forall. intros a Ha. apply elem_ancestors_fuel in Ha as (ds & es & -> & ->); [|done|lia].
  unfold flip, dir_above. destruct es as [|e es].
  - rewrite app_nil_r in *. by exists ds, c, [].
  - exists ds, e, (es ++ [c]). by rewrite <-app_assoc in Hc |- *.
Qed.
Lemma ancestors_sorted p : normal_path p → StronglySorted dir_above (reverse (ancestors p)).
Proof.
  intros (cs & Hc & ->). apply (StronglySorted_reverse (flip dir_above)). unfold ancestors. rewrite components_below_root by done.
  apply ancestors_fuel_sorted; [done|cbn; lia].
Qed.

(** The lexical environment has the laws. *)
Lemma remove_dots_keep cs : ∀ acc, Forall normal_component cs → remove_dots acc cs = acc ++ cs.
Proof.
  induction cs as [|c cs IH]; intros acc Hc; cbn [remove_dots]; [by rewrite app_nil_r|].
  apply Forall_cons in Hc as [[Hc Hp] Hcs]. destruct c as [| | |s]; try done. rewrite IH by done. by rewrite <-app_assoc.
Qed.
Lemma remove_dots_keeps cs : ∀ acc, Forall plain_component (filter (λ c, c ≠ RootDir ∧ c ≠ CurDir) cs) → Forall normal_component acc →
  ∃ rest, Forall normal_component rest ∧ remove_dots (RootDir :: acc) cs = RootDir :: rest.
Proof.
  induction cs as [|c cs IH]; intros acc Hf Ha; [by exists acc|]. rewrite filter_cons in Hf.
  destruct c as [| | |s]; cbn [remove_dots].
  - apply (IH []); [|constructor]. by rewrite decide_False in Hf by tauto.
  - apply IH; [|done]. by rewrite decide_False in Hf by tauto.
  - rewrite decide_True in Hf by done. apply Forall_cons in Hf as [_ Hf].
    destruct (last (RootDir :: acc)) as [[| | |x]|] eqn:El; try by apply IH.
    destruct acc as [|d acc]; [done|]. rewrite removelast_head by done. apply IH; [done|].
    destruct acc as [|e acc _] using rev_ind; [constructor|]. rewrite app_comm_cons, removelast_snoc.
    rewrite app_comm_cons in Ha. by apply Forall_app in Ha as [? _].
  - rewrite decide_True in Hf by done. apply Forall_cons in Hf as [Hs Hf]. apply (IH (acc ++ [Normal s])); [done|].
    apply Forall_app. split; [done|]. by constructor.
Qed.
Lemma lexical_normal base p : is_absolute base = true → normal_path (lexical_absolutize base p).
Proof.
  intros Hb. unfold lexical_absolutize. set (q := if is_absolute p then p else path_join base p).
  assert (Hq : is_absolute q = true).
  { subst q. destruct (is_absolute p) eqn:E; [done|]. by apply components_path_join. }
  destruct (components_absolute q Hq) as (cs & -> & Hcs). cbn [remove_dots].
  destruct (remove_dots_keeps cs []) as (rest & Hr & ->); [|constructor|by exists rest].
  apply Forall_forall. intros c [_ Hc]%list_elem_of_filter. rewrite Forall_forall in Hcs. by apply Hcs.
Qed.
Lemma lexical_normal_paths home cwd : @NormalPaths (lexical_env home cwd).
Proof.
  split; cbn.
  - intros p (cs & Hc & ->). f_equal. unfold lexical_absolutize. rewrite below_root_absolute, components_below_root by done.
    cbn [remove_dots]. by rewrite remove_dots_keep.
  - intros b p q (cs & Hc & ->) [= <-]. by apply lexical_normal.
Qed.
