(* ===== verification/ExecPolicy.v ===== *)
(** Execution policies: [codex-rs/execpolicy/src] (decision.rs, error.rs,
    rule.rs, policy.rs, executable_name.rs on Unix). A policy holds prefix
    rules keyed by the program, network rules and the paths allowed for host
    executables; it decides commands and compiles lists of domains. *)
From stdpp Require Import gmap.
From S2P Require Import Prelude RustStr BTreeMap RustPath FileSystem AbsolutePath.

(** * Decisions and errors *)

Inductive Decision : Type := Allow | Prompt | Forbidden.
#[export] Instance Decision_eq_dec : EqDecision Decision.
Proof. solve_decision. Defined.

(** The derived [Ord]. *)
Definition decision_rank (d : Decision) : nat :=
  match d with Allow => 0 | Prompt => 1 | Forbidden => 2 end.
Definition decision_le (a b : Decision) : Prop := decision_rank a ≤ decision_rank b.
Definition decision_max (a b : Decision) : Decision :=
  if decision_rank a <=? decision_rank b then b else a.

Record TextPosition : Type := { line : N; column : N }.
Record TextRange : Type := { range_start : TextPosition; range_end : TextPosition }.
Record ErrorLocation : Type := { loc_path : str; loc_range : TextRange }.

Inductive Error : Type :=
| InvalidDecision (raw : str)
| InvalidPattern (message : str)
| InvalidExample (message : str)
| InvalidRule (message : str)
| ExampleDidNotMatch (rules : list str) (examples : list str) (location : option ErrorLocation)
| ExampleDidMatch (rule : str) (example : str) (location : option ErrorLocation)
| Starlark (message : str).

Definition with_location (e : Error) (location : ErrorLocation) : Error :=
  match e with
  | ExampleDidNotMatch rules examples None => ExampleDidNotMatch rules examples (Some location)
  | ExampleDidMatch rule example None => ExampleDidMatch rule example (Some location)
  | other => other
  end.

Definition Decision_parse (raw : str) : outcome Error Decision :=
  if decide (raw = lit "allow") then Ok Allow
  else if decide (raw = lit "prompt") then Ok Prompt
  else if decide (raw = lit "forbidden") then Ok Forbidden
  else Err (InvalidDecision raw).

(** * Rules *)

Inductive PatternToken : Type := Single (expected : str) | Alts (alternatives : list str).

Definition token_matches (t : PatternToken) (token : str) : bool :=
  match t with
  | Single expected => bool_decide (expected = token)
  | Alts alternatives => existsb (λ alt, bool_decide (alt = token)) alternatives
  end.
Definition alternatives (t : PatternToken) : list str :=
  match t with Single expected => [expected] | Alts alts => alts end.

Record PrefixPattern : Type := { first : str; rest : list PatternToken }.

Definition matches_prefix (p : PrefixPattern) (cmd : list str) : option (list str) :=
  let pattern_length := length (rest p) + 1 in
  if (length cmd <? pattern_length) || negb (bool_decide (head cmd = Some (first p))) then None
  else if forallb (λ '(pattern_token, cmd_token), token_matches pattern_token cmd_token)
            (zip (rest p) (take (pattern_length - 1) (drop 1 cmd)))
       then Some (take pattern_length cmd) else None.

Inductive RuleMatch : Type :=
| PrefixRuleMatch (matched_prefix : list str) (decision : Decision)
    (resolved_program : option str) (justification : option str)
| HeuristicsRuleMatch (command : list str) (decision : Decision).

Definition match_decision (m : RuleMatch) : Decision :=
  match m with PrefixRuleMatch _ d _ _ => d | HeuristicsRuleMatch _ d => d end.
Definition with_resolved_program (m : RuleMatch) (program : str) : RuleMatch :=
  match m with
  | PrefixRuleMatch matched_prefix decision _ justification =>
      PrefixRuleMatch matched_prefix decision (Some program) justification
  | other => other
  end.

(** The only implementation of the trait [Rule]. *)
Record PrefixRule : Type := {
  pattern : PrefixPattern;
  rule_decision : Decision;
  justification : option str }.
Definition program (r : PrefixRule) : str := first (pattern r).
Definition rule_matches (r : PrefixRule) (cmd : list str) : option RuleMatch :=
  (λ matched_prefix, PrefixRuleMatch matched_prefix (rule_decision r) None (justification r))
    <$> matches_prefix (pattern r) cmd.

Inductive NetworkRuleProtocol : Type := Http | Https | Socks5Tcp | Socks5Udp.
Definition protocol_message (other : str) : str :=
  lit "network_rule protocol must be one of http, https, socks5_tcp, socks5_udp (got "
    ++ other ++ lit ")".
Definition NetworkRuleProtocol_parse (raw : str) : outcome Error NetworkRuleProtocol :=
  if decide (raw = lit "http") then Ok Http
  else if decide (raw ∈ [lit "https"; lit "https_connect"; lit "http-connect"]) then Ok Https
  else if decide (raw = lit "socks5_tcp") then Ok Socks5Tcp
  else if decide (raw = lit "socks5_udp") then Ok Socks5Udp
  else Err (InvalidRule (protocol_message raw)).
Definition as_policy_string (p : NetworkRuleProtocol) : str :=
  match p with
  | Http => lit "http" | Https => lit "https"
  | Socks5Tcp => lit "socks5_tcp" | Socks5Udp => lit "socks5_udp"
  end.

Record NetworkRule : Type := {
  host : str;
  protocol : NetworkRuleProtocol;
  net_decision : Decision;
  net_justification : option str }.

Definition host_empty : Error := InvalidRule (lit "network_rule host cannot be empty").
Definition colon : N := 58.
Definition is_port (port : str) : bool :=
  negb (bool_decide (port = [])) && forallb is_ascii_digit port.

(** The host without its port and brackets. *)
Definition strip_port (raw host : str) : outcome Error str :=
  match strip_prefix (lit "[") host with
  | Some stripped =>
      match split_once 93 stripped with
      | None => Err (InvalidRule (lit "network_rule host has an invalid bracketed IPv6 literal"))
      | Some (inside, rest) =>
          let port_ok := match strip_prefix [colon] rest with
                         | Some port => is_port port | None => false end in
          if negb (bool_decide (rest = [])) && negb port_ok
          then Err (InvalidRule (lit "network_rule host contains an unsupported suffix: " ++ raw))
          else Ok inside
      end
  | None =>
      if decide (length (filter (λ c, c = colon) host) = 1) then
        match rsplit_once colon host with
        | Some (candidate, port) =>
            if negb (bool_decide (candidate = [])) && is_port port then Ok candidate else Ok host
        | None => Ok host
        end
      else Ok host
  end.

Definition normalize_network_rule_host (raw : str) : outcome Error str :=
  let host := trim raw in
  if decide (host = []) then Err host_empty
  else if contains (lit "://") host || contains_char 47 host || contains_char 63 host
          || contains_char 35 host
       then Err (InvalidRule (lit "network_rule host must be a hostname or IP literal (without scheme or path)"))
  else
    host ← strip_port raw host;
    let normalized := to_ascii_lowercase (trim (trim_end_matches (N.eqb 46) host)) in
    if decide (normalized = []) then Err host_empty
    else if contains_char 42 normalized
         then Err (InvalidRule (lit "network_rule host must be a specific host; wildcards are not allowed"))
    else if existsb is_whitespace normalized
         then Err (InvalidRule (lit "network_rule host cannot contain whitespace"))
    else Ok normalized.

(** * Policies *)

Abbreviation MultiMap A := (gmap str (list A)).
(** [multimap.insert] and [multimap.get_vec]. *)
Definition mm_insert {A} (k : str) (x : A) (mm : MultiMap A) : MultiMap A :=
  <[k := default [] (mm !! k) ++ [x]]> mm.
Definition get_vec {A} (mm : MultiMap A) (k : str) : option (list A) := mm !! k.

Record MatchOptions : Type := { resolve_host_executables : bool }.
Definition default_options : MatchOptions := {| resolve_host_executables := false |}.

Record Policy : Type := {
  rules_by_program : MultiMap PrefixRule;
  network_rules : list NetworkRule;
  host_executables_by_name : gmap str (list str) }.

Definition policy_new (rules : MultiMap PrefixRule) : Policy :=
  {| rules_by_program := rules; network_rules := []; host_executables_by_name := ∅ |}.
Definition policy_empty : Policy := policy_new ∅.

Definition prefix_cmp : list str → list str → comparison := lex_cmp str_cmp.
Definition prefix_le (a b : list str) : Prop := prefix_cmp a b ≠ Gt.
#[export] Instance prefix_le_dec a b : base.Decision (prefix_le a b).
Proof.
  unfold prefix_le. destruct (prefix_cmp a b); [left; discriminate|left; discriminate|].
  right. intros H. by apply H.
Defined.

(** [vec.dedup()]: consecutive repeats removed. *)
Fixpoint dedup {A} `{EqDecision A} (l : list A) : list A :=
  match l with
  | [] => []
  | x :: l' =>
      match l' with
      | y :: _ => if decide (x = y) then dedup l' else x :: dedup l'
      | [] => [x]
      end
  end.

Definition render_pattern_token (t : PatternToken) : str :=
  match t with
  | Single value => value
  | Alts alts => lit "[" ++ join (lit "|") alts ++ lit "]"
  end.

(** The prefixes of the allowed rules of one program. *)
Definition allowed_prefixes_of (rules : list PrefixRule) : list (list str) :=
  (λ r, first (pattern r) :: (render_pattern_token <$> rest (pattern r)))
    <$> filter (λ r, rule_decision r = Allow) rules.
Definition get_allowed_prefixes (p : Policy) : list (list str) :=
  dedup (merge_sort prefix_le
    (concat ((λ kv, allowed_prefixes_of kv.2) <$> map_to_list (rules_by_program p)))).

Definition add_prefix_rule (p : Policy) (prefix : list str) (decision : Decision)
    : outcome Error Policy :=
  match prefix with
  | [] => Err (InvalidPattern (lit "prefix cannot be empty"))
  | first_token :: rest =>
      let rule := {| pattern := {| first := first_token; rest := Single <$> rest |};
                     rule_decision := decision; justification := None |} in
      Ok {| rules_by_program := mm_insert first_token rule (rules_by_program p);
            network_rules := network_rules p;
            host_executables_by_name := host_executables_by_name p |}
  end.

Definition justification_empty : Error := InvalidRule (lit "justification cannot be empty").
Definition blank_justification (j : option str) : bool :=
  match j with Some raw => bool_decide (trim raw = []) | None => false end.

Definition add_network_rule (p : Policy) (h : str) (proto : NetworkRuleProtocol)
    (decision : Decision) (j : option str) : outcome Error Policy :=
  h ← normalize_network_rule_host h;
  if blank_justification j then Err justification_empty
  else Ok {| rules_by_program := rules_by_program p;
             network_rules := network_rules p ++
               [{| host := h; protocol := proto; net_decision := decision; net_justification := j |}];
             host_executables_by_name := host_executables_by_name p |}.

Definition set_host_executable_paths (p : Policy) (name : str) (paths : list str) : Policy :=
  {| rules_by_program := rules_by_program p;
     network_rules := network_rules p;
     host_executables_by_name := <[name := paths]> (host_executables_by_name p) |}.

(** Every rule of the overlay is appended, program by program. *)
Definition mm_extend {A} (mm : MultiMap A) (kv : str * list A) : MultiMap A :=
  foldl (λ acc x, mm_insert kv.1 x acc) mm kv.2.
Definition merge_overlay (p overlay : Policy) : Policy :=
  {| rules_by_program := foldl mm_extend (rules_by_program p) (map_to_list (rules_by_program overlay));
     network_rules := network_rules p ++ network_rules overlay;
     host_executables_by_name := host_executables_by_name overlay ∪ host_executables_by_name p |}.

Definition retain_other (h : str) (entries : list str) : list str := filter (λ e, e ≠ h) entries.
Definition upsert_domain (entries : list str) (h : str) : list str := retain_other h entries ++ [h].
Definition compile_rule (acc : list str * list str) (r : NetworkRule) : list str * list str :=
  let '(allowed, denied) := acc in
  match net_decision r with
  | Allow => (upsert_domain allowed (host r), retain_other (host r) denied)
  | Forbidden => (retain_other (host r) allowed, upsert_domain denied (host r))
  | Prompt => (allowed, denied)
  end.
Definition compiled_network_domains (p : Policy) : list str * list str :=
  foldl compile_rule ([], []) (network_rules p).

Record Evaluation : Type := { decision : Decision; matched_rules : list RuleMatch }.
Definition is_policy_match (m : RuleMatch) : bool :=
  match m with PrefixRuleMatch _ _ _ _ => true | HeuristicsRuleMatch _ _ => false end.
Definition is_match (e : Evaluation) : bool := existsb is_policy_match (matched_rules e).

(** [iter().max()], and [expect] on its absence. *)
Definition max_decision (ms : list RuleMatch) : option Decision :=
  foldl (λ acc m, Some (match acc with
                        | Some d => decision_max d (match_decision m)
                        | None => match_decision m end)) None ms.
Definition from_matches (ms : list RuleMatch) : outcome Empty_set Evaluation :=
  match max_decision ms with
  | Some d => Ok {| decision := d; matched_rules := ms |}
  | None => Panic
  end.

(** Unix: the lookup key of an executable is its name. *)
Definition executable_lookup_key (raw : str) : str := raw.
Definition executable_path_lookup_key (path : str) : option str :=
  executable_lookup_key <$> file_name path.

(** * Deciding a command *)

Definition match_exact_rules (p : Policy) (cmd : list str) : option (list RuleMatch) :=
  match cmd with
  | [] => None
  | first :: _ =>
      Some (match get_vec (rules_by_program p) first with
            | Some rules => omap (λ rule, rule_matches rule cmd) rules
            | None => []
            end)
  end.

Section decide_command.
Context `{PathEnv}.

Definition match_host_executable_rules (p : Policy) (cmd : list str) : list RuleMatch :=
  match cmd with
  | [] => []
  | first :: args =>
      match try_from first with
      | Ok program =>
          match executable_path_lookup_key program with
          | None => []
          | Some basename =>
              match get_vec (rules_by_program p) basename with
              | None => []
              | Some rules =>
                  if match host_executables_by_name p !! basename with
                     | Some paths => negb (existsb (λ path, bool_decide (path_eq path program)) paths)
                     | None => false
                     end
                  then []
                  else (λ m, with_resolved_program m program)
                         <$> omap (λ rule, rule_matches rule (basename :: args)) rules
              end
          end
      | _ => []
      end
  end.

Definition nonempty {A} (l : list A) : option (list A) := match l with [] => None | _ => Some l end.

Definition matches_for_command_with_options (p : Policy) (cmd : list str)
    (heuristics_fallback : option (list str → Decision)) (options : MatchOptions)
    : list RuleMatch :=
  let matched_rules :=
    default [] (match match_exact_rules p cmd ≫= nonempty with
                | Some ms => Some ms
                | None => if resolve_host_executables options
                          then nonempty (match_host_executable_rules p cmd) else None
                end) in
  match matched_rules, heuristics_fallback with
  | [], Some fallback => [HeuristicsRuleMatch cmd (fallback cmd)]
  | ms, _ => ms
  end.
Definition matches_for_command p cmd fallback :=
  matches_for_command_with_options p cmd fallback default_options.

Definition check_with_options (p : Policy) (cmd : list str) (fallback : list str → Decision)
    (options : MatchOptions) : outcome Empty_set Evaluation :=
  from_matches (matches_for_command_with_options p cmd (Some fallback) options).
Definition check p cmd fallback := check_with_options p cmd fallback default_options.

Definition check_multiple_with_options (p : Policy) (commands : list (list str))
    (fallback : list str → Decision) (options : MatchOptions) : outcome Empty_set Evaluation :=
  from_matches (concat ((λ command, matches_for_command_with_options p command (Some fallback) options)
                          <$> commands)).
Definition check_multiple p commands fallback :=
  check_multiple_with_options p commands fallback default_options.

End decide_command.

(** * Lemmas: decisions and patterns *)

Create HintDb execpolicy.

Lemma decision_max_ub a b : decision_le a (decision_max a b) ∧ decision_le b (decision_max a b).
Proof. destruct a, b; unfold decision_le; simpl; lia. Qed.
Lemma decision_le_antisym a b : decision_le a b → decision_le b a → a = b.
Proof. destruct a, b; unfold decision_le; simpl; (done || lia). Qed.
Lemma decision_max_choice a b : decision_max a b = a ∨ decision_max a b = b.
Proof. destruct a, b; auto. Qed.
#[export] Instance decision_le_preorder : PreOrder decision_le.
Proof. split; [intros x|intros x y z]; unfold decision_le; lia. Qed.

Lemma max_decision_snoc ms m :
  max_decision (ms ++ [m]) = Some (match max_decision ms with
                                   | Some d => decision_max d (match_decision m)
                                   | None => match_decision m end).
Proof. unfold max_decision. by rewrite foldl_app. Qed.

(** The strictest decision of a list of matches. *)
Definition strictest (ms : list RuleMatch) (d : Decision) : Prop :=
  (∃ m, m ∈ ms ∧ match_decision m = d) ∧ ∀ m, m ∈ ms → decision_le (match_decision m) d.

Lemma max_decision_None ms : max_decision ms = None ↔ ms = [].
Proof.
  destruct ms as [|m ms _] using rev_ind; [done|]. rewrite max_decision_snoc.
  split; [done|]. intros E. by apply app_nil in E as [_ ?].
Qed.

Lemma max_decision_strictest ms d : max_decision ms = Some d ↔ strictest ms d.
Proof.
  revert d. induction ms as [|m ms IH] using rev_ind; intros d.
  { split; [done|]. intros [(m & Hm & _) _]. by apply not_elem_of_nil in Hm. }
  rewrite max_decision_snoc.
  assert (∀ d', (match max_decision ms with
           | Some d => decision_max d (match_decision m) | None => match_decision m end) = d' →
           strictest (ms ++ [m]) d') as Hs.
  { intros d' <-. destruct (max_decision ms) as [d0|] eqn:E.
    - destruct (proj1 (IH _) eq_refl) as [(m0 & Hm0 & <-) Hub].
      destruct (decision_max_ub (match_decision m0) (match_decision m)) as [U1 U2]. split.
      + destruct (decision_max_choice (match_decision m0) (match_decision m)) as [-> | ->].
        * exists m0. split; [|done]. apply elem_of_app. by left.
        * exists m. split; [|done]. apply elem_of_app. right. by apply list_elem_of_singleton.
      + intros m' [Hm'|Hm']%elem_of_app.
        * etrans; [by apply Hub|done].
        * by apply list_elem_of_singleton in Hm' as ->.
    - apply max_decision_None in E as ->. split; [exists m|]; simpl.
      + split; [apply list_elem_of_here|done].
      + intros m' ->%list_elem_of_singleton. reflexivity. }
  split; [by intros [= <-]; apply Hs|].
  intros [(m1 & Hm1 & <-) Hub1]. f_equal.
  destruct (Hs _ eq_refl) as [(m2 & Hm2 & <-) Hub2].
  by apply decision_le_antisym; [apply Hub1|apply Hub2].
Qed.

Lemma from_matches_spec ms : ms ≠ [] → ∃ d, from_matches ms =
  Ok {| decision := d; matched_rules := ms |} ∧ strictest ms d.
Proof.
  intros Hne. unfold from_matches. destruct (max_decision ms) as [d|] eqn:E.
  - exists d. split; [done|]. by apply max_decision_strictest.
  - by apply max_decision_None in E.
Qed.

Lemma token_matches_spec t w : token_matches t w = true ↔ w ∈ alternatives t.
Proof.
  destruct t as [e|alts]; simpl.
  - rewrite bool_decide_eq_true, list_elem_of_singleton. by split.
  - rewrite existsb_exists. setoid_rewrite bool_decide_eq_true.
    setoid_rewrite <-list_elem_of_In. split; [by intros (x & ? & <-)|eauto].
Qed.

(** The words a pattern stands for. *)
Definition accepts (p : PrefixPattern) (m : list str) : Prop :=
  ∃ ws, m = first p :: ws ∧ Forall2 (λ t w, w ∈ alternatives t) (rest p) ws.

Lemma forallb_zip_spec ts ws :
  length ws = length ts →
  forallb (λ '(t, w), token_matches t w) (zip ts ws) = true
  ↔ Forall2 (λ t w, w ∈ alternatives t) ts ws.
Proof.
  revert ws. induction ts as [|t ts IH]; intros [|w ws]; simpl; try done; intros Hl.
  rewrite andb_true_iff, token_matches_spec, IH by lia.
  split; [intros [??]; by constructor|]. by inversion 1.
Qed.

Lemma matches_prefix_spec p cmd m :
  matches_prefix p cmd = Some m ↔ accepts p m ∧ m `prefix_of` cmd.
Proof.
  unfold matches_prefix. rewrite Nat.add_1_r. destruct (Nat.ltb_spec (length cmd) (S (length (rest p)))) as [Hlt|Hge].
  - split; [done|]. intros [(ws & -> & HF) [k ->]]. apply Forall2_length in HF.
    rewrite length_app in Hlt. simpl in Hlt. lia.
  - destruct cmd as [|c cmd]; [simpl in Hge; lia|]. simpl in *.
    rewrite Nat.sub_0_r, drop_0. destruct (bool_decide_reflect (Some c = Some (first p))) as [[= ->]|Hne]; simpl.
    + destruct (forallb _ _) eqn:E.
      * apply forallb_zip_spec in E; [|rewrite length_take; lia]. split.
        -- intros [= <-]. split; [by eexists|]. exists (drop (length (rest p)) cmd).
           by rewrite <-app_comm_cons, take_drop.
        -- intros [(ws & -> & HF) [k [= ->]]]. apply Forall2_length in HF.
           rewrite HF, take_app_length. done.
      * split; [done|]. intros [(ws & -> & HF) [k [= ->]]].
        pose proof (Forall2_length _ _ _ HF) as Hl. apply not_true_iff_false in E.
        destruct E. apply forallb_zip_spec; rewrite Hl, take_app_length; done.
    + split; [done|]. intros [(ws & -> & HF) [k [= -> ?]]]. by destruct Hne.
Qed.

(** * Lemmas: rules that govern a command *)

Definition rules_for (p : Policy) (w : str) : list PrefixRule := default [] (rules_by_program p !! w).
(** A rule filed under [w] whose pattern matches the words [m] that start [cmd]. *)
Definition filed_rule (p : Policy) (w : str) (cmd : list str) (r : PrefixRule) (m : list str) : Prop :=
  r ∈ rules_for p w ∧ accepts (pattern r) m ∧ m `prefix_of` cmd.
Definition exact_rule (p : Policy) (cmd : list str) (r : PrefixRule) (m : list str) : Prop :=
  ∃ w args, cmd = w :: args ∧ filed_rule p w cmd r m.

Definition rule_match (r : PrefixRule) (resolved : option str) (m : list str) : RuleMatch :=
  PrefixRuleMatch m (rule_decision r) resolved (justification r).

Lemma rule_matches_Some r cmd x :
  rule_matches r cmd = Some x ↔
  ∃ m, x = rule_match r None m ∧ accepts (pattern r) m ∧ m `prefix_of` cmd.
Proof.
  unfold rule_matches. rewrite fmap_Some. setoid_rewrite matches_prefix_spec.
  split; intros (m & ? & ?); exists m; tauto.
Qed.

Lemma matches_of_rules_spec p w cmd x :
  x ∈ omap (λ rule, rule_matches rule cmd) (rules_for p w)
  ↔ ∃ r m, filed_rule p w cmd r m ∧ x = rule_match r None m.
Proof.
  rewrite list_elem_of_omap. setoid_rewrite rule_matches_Some. unfold filed_rule.
  split; [intros (r & ? & m & ? & ? & ?)|intros (r & m & (? & ? & ?) & ?)]; exists r; eauto 10.
Qed.

Lemma match_exact_rules_eq p w args :
  match_exact_rules p (w :: args) =
  Some (omap (λ rule, rule_matches rule (w :: args)) (rules_for p w)).
Proof. unfold match_exact_rules, get_vec, rules_for. by destruct (_ !! w). Qed.

Section governs.
Context `{PathEnv}.

(** The executable a program path names, when the policy has rules under its
    name and does not restrict the name to other paths. *)
Definition host_executable (p : Policy) (w prog base : str) : Prop :=
  try_from w = Ok prog ∧ executable_path_lookup_key prog = Some base
  ∧ ∀ paths, host_executables_by_name p !! base = Some paths → ∃ q, q ∈ paths ∧ path_eq q prog.

Inductive governs (p : Policy) (options : MatchOptions) (cmd : list str)
    : PrefixRule → option str → list str → Prop :=
| governs_exact r m : exact_rule p cmd r m → governs p options cmd r None m
| governs_host w args prog base r m :
    (∀ r' m', ¬ exact_rule p cmd r' m') →
    resolve_host_executables options = true →
    cmd = w :: args → host_executable p w prog base →
    filed_rule p base (base :: args) r m →
    governs p options cmd r (Some prog) m.

Lemma host_paths_ok p base prog :
  (match host_executables_by_name p !! base with
   | Some paths => negb (existsb (λ path, bool_decide (path_eq path prog)) paths)
   | None => false
   end) = false
  ↔ ∀ paths, host_executables_by_name p !! base = Some paths → ∃ q, q ∈ paths ∧ path_eq q prog.
Proof.
  destruct (host_executables_by_name p !! base) as [paths|]; [|naive_solver].
  rewrite negb_false_iff, existsb_exists. setoid_rewrite bool_decide_eq_true.
  setoid_rewrite <-list_elem_of_In. split; [by intros ? ? [= <-]|eauto].
Qed.

Lemma match_host_executable_rules_spec p w args x :
  x ∈ match_host_executable_rules p (w :: args)
  ↔ ∃ prog base r m, host_executable p w prog base ∧ filed_rule p base (base :: args) r m
                     ∧ x = rule_match r (Some prog) m.
Proof.
  unfold match_host_executable_rules, host_executable, get_vec.
  destruct (try_from w) as [prog|e| |] eqn:Ew;
    try (split; [by intros ?%not_elem_of_nil|by intros (?&?&?&?&(?&?)&?)]).
  destruct (executable_path_lookup_key prog) as [base|] eqn:Eb;
    [|split; [by intros ?%not_elem_of_nil|by intros (?&?&?&?&([= <-]&?&?)&?); congruence]].
  destruct (rules_by_program p !! base) as [rules|] eqn:Er.
  2:{ split; [by intros ?%not_elem_of_nil|].
      intros (prog' & base' & r & m & ([= <-] & ? & ?) & (Hr & _) & _).
      assert (base' = base) as -> by congruence. unfold rules_for in Hr.
      rewrite Er in Hr. by apply not_elem_of_nil in Hr. }
  assert (rules = rules_for p base) as -> by (unfold rules_for; by rewrite Er).
  match goal with |- context [if ?b then _ else _] => destruct b eqn:Ec end.
  - split; [by intros ?%not_elem_of_nil|].
    intros (prog' & base' & r & m & ([= <-] & ? & Hp) & _).
    assert (base' = base) as -> by congruence.
    apply host_paths_ok in Hp. congruence.
  - rewrite host_paths_ok in Ec. rewrite list_elem_of_fmap. setoid_rewrite matches_of_rules_spec. split.
    + intros (x' & -> & r & m & Hf & ->). by exists prog, base, r, m.
    + intros (prog' & base' & r & m & ([= <-] & ? & Hp) & Hf & ->).
      assert (base' = base) as -> by congruence.
      exists (rule_match r None m). split; [done|]. by exists r, m.
Qed.

(** Without a fallback, the matches are those of the governing rules. *)
Definition rule_matches_for (p : Policy) (cmd : list str) (options : MatchOptions) :=
  matches_for_command_with_options p cmd None options.

Lemma nonempty_bind {A} (l : list A) : nonempty l = None ↔ l = [].
Proof. by destruct l. Qed.
Lemma default_nonempty {A} (l : list A) : default [] (nonempty l) = l.
Proof. by destruct l. Qed.

Lemma elem_of_empty_iff {A} (l : list A) : l = [] ↔ ∀ x, x ∉ l.
Proof.
  split; [intros -> x; apply not_elem_of_nil|]. destruct l as [|a l]; [done|].
  intros Hx. destruct (Hx a). apply list_elem_of_here.
Qed.

Lemma rule_matches_for_spec p cmd options x :
  x ∈ rule_matches_for p cmd options
  ↔ ∃ r o m, governs p options cmd r o m ∧ x = rule_match r o m.
Proof.
  unfold rule_matches_for, matches_for_command_with_options.
  replace (match default [] _ with [] => _ | _ => _ end) with
    (default [] (match match_exact_rules p cmd ≫= nonempty with
                | Some ms => Some ms
                | None => if resolve_host_executables options
                          then nonempty (match_host_executable_rules p cmd) else None
                end)) by (by destruct (default [] _)).
  destruct cmd as [|w args].
  { simpl. split.
    - destruct (resolve_host_executables options); by intros ?%not_elem_of_nil.
    - by intros (r & o & m & [? ? (? & ? & ? & _)|] & _). }
  rewrite match_exact_rules_eq. cbn [mbind option_bind].
  set (ms := omap _ _). assert (∀ y, y ∈ ms ↔ ∃ r m, exact_rule p (w :: args) r m ∧ y = rule_match r None m) as Hms.
  { intros y. unfold ms. rewrite matches_of_rules_spec. unfold exact_rule. split.
    - intros (r & m & ? & ?). exists r, m. eauto 10.
    - intros (r & m & (w' & args' & [= <- <-] & ?) & ?). eauto. }
  destruct (nonempty ms) as [ms'|] eqn:En.
  - assert (ms' = ms) as -> by (destruct ms; simpl in En; congruence). cbn [default from_option id].
    rewrite Hms. split; [intros (r & m & ? & ?); exists r, None, m; split; [by constructor|done]|].
    intros (r & o & m & [|? ? ? ? ? ? Hno] & ->); [by eauto|exfalso].
    destruct ms as [|y ms]; [done|]. destruct (proj1 (Hms y) (list_elem_of_here _ _)) as (? & ? & ? & _).
    by eapply Hno.
  - apply nonempty_bind in En. rewrite En in Hms.
    assert (∀ r m, ¬ exact_rule p (w :: args) r m) as Hno.
    { intros r m Hr. apply (not_elem_of_nil (rule_match r None m)), Hms. eauto. }
    destruct (resolve_host_executables options) eqn:Eo.
    + rewrite default_nonempty, match_host_executable_rules_spec. split.
      * intros (prog & base & r & m & Hh & Hf & ->). exists r, (Some prog), m.
        split; [by eapply governs_host|done].
      * intros (r & o & m & [? ? Hx|w' args' prog base ? ? _ _ [= <- <-] Hh Hf] & ->).
        -- by destruct (Hno _ _ Hx).
        -- by exists prog, base, r0, m0.
    + split; [by intros ?%not_elem_of_nil|].
      intros (r & o & m & [? ? Hx|? ? ? ? ? ? ? Ho] & ->); [by destruct (Hno _ _ Hx)|congruence].
Qed.

Lemma matches_with_fallback p cmd fallback options :
  matches_for_command_with_options p cmd (Some fallback) options =
  match rule_matches_for p cmd options with
  | [] => [HeuristicsRuleMatch cmd (fallback cmd)]
  | ms => ms
  end.
Proof.
  unfold rule_matches_for, matches_for_command_with_options.
  destruct (default [] _) as [|x ms]; reflexivity.
Qed.

Lemma matches_with_fallback_nonempty p cmd fallback options :
  matches_for_command_with_options p cmd (Some fallback) options ≠ [].
Proof. rewrite matches_with_fallback. by destruct (rule_matches_for _ _ _). Qed.

Lemma check_with_options_Ok p cmd fallback options :
  ∃ d, check_with_options p cmd fallback options =
       Ok {| decision := d; matched_rules := matches_for_command_with_options p cmd (Some fallback) options |}
       ∧ strictest (matches_for_command_with_options p cmd (Some fallback) options) d.
Proof. apply from_matches_spec, matches_with_fallback_nonempty. Qed.

End governs.

(** * What deciding a command means *)

(** What an evaluation of a command says. *)
Definition evaluates `{PathEnv} (p : Policy) (options : MatchOptions) (cmd : list str)
    (fallback : list str → Decision) (ev : Evaluation) : Prop :=
  (is_match ev = true
   ∧ (∀ x, x ∈ matched_rules ev ↔
           ∃ r o m, governs p options cmd r o m ∧ x = rule_match r o m)
   ∧ (∃ r o m, governs p options cmd r o m ∧ rule_decision r = decision ev)
   ∧ ∀ r o m, governs p options cmd r o m → decision_le (rule_decision r) (decision ev))
  ∨ (is_match ev = false ∧ (∀ r o m, ¬ governs p options cmd r o m)
     ∧ decision ev = fallback cmd
     ∧ matched_rules ev = [HeuristicsRuleMatch cmd (fallback cmd)]).

Lemma check_evaluates `{PathEnv} p cmd fallback options :
  ∃ ev, check_with_options p cmd fallback options = Ok ev ∧ evaluates p options cmd fallback ev.
Proof.
  destruct (check_with_options_Ok p cmd fallback options) as (d & Hc & Hs).
  exists {| decision := d; matched_rules := matches_for_command_with_options p cmd (Some fallback) options |}.
  split; [done|]. unfold evaluates. simpl. rewrite matches_with_fallback in *. unfold is_match. simpl.
  pose proof (rule_matches_for_spec p cmd options) as Hspec.
  destruct (rule_matches_for p cmd options) as [|x ms] eqn:E.
  - right. split; [done|]. repeat split.
    + intros r o m Hg. apply (not_elem_of_nil (rule_match r o m)), Hspec. eauto.
    + destruct Hs as [(m & ->%list_elem_of_singleton & <-) _]. done.
  - left. destruct Hs as [(y & Hy & <-) Hub]. repeat split.
    + destruct (proj1 (Hspec x) (list_elem_of_here _ _)) as (r & o & m & _ & ->). done.
    + by intros ?%Hspec.
    + by intros ?%Hspec.
    + apply Hspec in Hy as (r & o & m & Hg & ->). by exists r, o, m.
    + intros r o m Hg. apply (Hub (rule_match r o m)), Hspec. eauto.
Qed.

(** C16. [check_with_options] always produces an evaluation. When a rule
    governs the command (an exact rule, or, if no exact rule matches and the
    option is on, a rule under the name of the executable), the matches are
    exactly those of the governing rules and the decision is the strictest of
    theirs; otherwise the decision is the one of the heuristics. *)
Theorem check_with_options_spec `{PathEnv} p cmd fallback options :
  ∃ ev, check_with_options p cmd fallback options = Ok ev ∧ evaluates p options cmd fallback ev.
Proof. apply check_evaluates. Qed.

Lemma strictest_concat (mss : list (list RuleMatch)) ds d :
  Forall2 strictest mss ds →
  strictest (concat mss) d ↔ (d ∈ ds ∧ ∀ d', d' ∈ ds → decision_le d' d).
Proof.
  intros HF. assert (∀ d', d' ∈ ds → ∃ x, x ∈ concat mss ∧ match_decision x = d') as H1.
  { intros d' [i Hi]%list_elem_of_lookup. destruct (Forall2_lookup_r _ _ _ _ _ HF Hi) as (ms & Hms & [(x & Hx & <-) _]).
    exists x. split; [|done]. rewrite list_elem_of_In. apply in_concat. exists ms.
    rewrite <-!list_elem_of_In. split; [by eapply list_elem_of_lookup_2|done]. }
  assert (∀ x, x ∈ concat mss → ∃ d', d' ∈ ds ∧ decision_le (match_decision x) d') as H2.
  { intros x Hx. apply list_elem_of_In, in_concat in Hx as (ms & Hms & Hx).
    apply list_elem_of_In in Hms, Hx. apply list_elem_of_lookup in Hms as [i Hi].
    destruct (Forall2_lookup_l _ _ _ _ _ HF Hi) as (d' & Hd' & [_ Hub]).
    exists d'. split; [by eapply list_elem_of_lookup_2|by apply Hub]. }
  split.
  - intros [(x & Hx & <-) Hub]. assert (∀ d', d' ∈ ds → decision_le d' (match_decision x)) as Hle.
    { intros d' (y & Hy & <-)%H1. by apply Hub. }
    destruct (H2 _ Hx) as (d' & Hd' & Hle'). split; [|done].
    by rewrite (decision_le_antisym (match_decision x) d' Hle' (Hle _ Hd')).
  - intros [Hd Hub]. split; [by apply H1|].
    intros x (d' & Hd' & Hle)%H2. etrans; [done|by apply Hub].
Qed.

Lemma check_multiple_evaluates `{PathEnv} p commands fallback options :
  commands ≠ [] →
  ∃ evs ev, mapM (λ cmd, check_with_options p cmd fallback options) commands = Ok evs
    ∧ check_multiple_with_options p commands fallback options = Ok ev
    ∧ matched_rules ev = concat (matched_rules <$> evs)
    ∧ decision ev ∈ (decision <$> evs)
    ∧ ∀ d, d ∈ (decision <$> evs) → decision_le d (decision ev).
Proof.
  intros Hne.
  assert (∃ evs, mapM (λ cmd, check_with_options p cmd fallback options) commands = Ok evs
    ∧ matched_rules <$> evs = (λ cmd, matches_for_command_with_options p cmd (Some fallback) options) <$> commands
    ∧ Forall2 strictest (matched_rules <$> evs) (decision <$> evs)) as (evs & Hm & Heq & HF).
  { clear Hne. induction commands as [|c cs (evs & Hm & Heq & HF)]; [by exists []|].
    destruct (check_with_options_Ok p c fallback options) as (d & Hc & Hs).
    eexists (_ :: evs). cbn [mapM mbind outcome_bind]. rewrite Hc. cbn. rewrite Hm. cbn.
    split; [reflexivity|]. cbn. rewrite Heq in *. split; [done|]. by constructor. }
  unfold check_multiple_with_options. rewrite <-Heq.
  destruct (from_matches_spec (concat (matched_rules <$> evs))) as (d & Hd & Hs).
  { rewrite Heq. destruct commands as [|c cs]; [done|]. rewrite fmap_cons. simpl.
    intros [E _]%app_nil. by apply matches_with_fallback_nonempty in E. }
  exists evs. eexists. split; [done|]. split; [done|]. split; [done|].
  by apply (strictest_concat _ _ d HF) in Hs.
Qed.

(** [check_multiple_with_options] on at least one command evaluates each
    command by itself, gives the matches in the order of the commands and the
    strictest of the decisions. *)
Theorem check_multiple_spec `{PathEnv} p commands fallback options :
  commands ≠ [] →
  ∃ evs ev, mapM (λ cmd, check_with_options p cmd fallback options) commands = Ok evs
    ∧ check_multiple_with_options p commands fallback options = Ok ev
    ∧ matched_rules ev = concat (matched_rules <$> evs)
    ∧ decision ev ∈ (decision <$> evs)
    ∧ ∀ d, d ∈ (decision <$> evs) → decision_le d (decision ev).
Proof. apply check_multiple_evaluates. Qed.

(** * Changing a policy *)

Lemma rules_for_insert p k r w :
  default [] (mm_insert k r (rules_by_program p) !! w) =
  rules_for p w ++ (if decide (k = w) then [r] else []).
Proof.
  unfold mm_insert, rules_for. case_decide as E.
  - subst. by rewrite lookup_insert_eq.
  - rewrite lookup_insert_ne by done. by rewrite app_nil_r.
Qed.

Lemma mm_extend_lookup {A} (mm : MultiMap A) k (l : list A) w :
  default [] (mm_extend mm (k, l) !! w) =
  default [] (mm !! w) ++ (if decide (k = w) then l else []).
Proof.
  unfold mm_extend. simpl. revert mm. induction l as [|x l IH]; intros mm; simpl.
  { case_decide; by rewrite app_nil_r. }
  rewrite IH. unfold mm_insert. case_decide as E; subst.
  - rewrite lookup_insert_eq. simpl. by rewrite <-app_assoc.
  - by rewrite lookup_insert_ne by done.
Qed.

Lemma merge_rules_lookup {A} (kvs : list (str * list A)) (mm : MultiMap A) w :
  NoDup kvs.*1 →
  default [] (foldl mm_extend mm kvs !! w) =
  default [] (mm !! w) ++ default [] ((list_to_map kvs : gmap str (list A)) !! w).
Proof.
  revert mm. induction kvs as [|[k l] kvs IH]; intros mm Hnd; simpl.
  { by rewrite lookup_empty, app_nil_r. }
  apply NoDup_cons in Hnd as [Hk Hnd]. rewrite IH, mm_extend_lookup by done.
  destruct (decide (k = w)) as [->|Hne].
  - rewrite lookup_insert_eq. rewrite not_elem_of_list_to_map_1 by done. simpl. by rewrite app_nil_r.
  - rewrite lookup_insert_ne by done. by rewrite app_nil_r.
Qed.

Lemma merge_overlay_rules p overlay w :
  rules_for (merge_overlay p overlay) w = rules_for p w ++ rules_for overlay w.
Proof.
  unfold rules_for, merge_overlay. simpl. rewrite merge_rules_lookup by apply NoDup_fst_map_to_list.
  by rewrite list_to_map_to_list.
Qed.

Lemma exact_rule_merge p overlay cmd r m :
  exact_rule (merge_overlay p overlay) cmd r m ↔ exact_rule p cmd r m ∨ exact_rule overlay cmd r m.
Proof.
  unfold exact_rule, filed_rule. setoid_rewrite merge_overlay_rules. setoid_rewrite elem_of_app.
  naive_solver.
Qed.

Lemma governs_exact_inv `{PathEnv} p options cmd r0 m0 r o m :
  exact_rule p cmd r0 m0 → governs p options cmd r o m ↔ exact_rule p cmd r m ∧ o = None.
Proof.
  intros Hx. split.
  - intros [|? ? ? ? ? ? Hno]; [done|]. by apply Hno in Hx.
  - intros [? ->]. by constructor.
Qed.

(** The decision for a command some exact rule matches. *)
Lemma check_exact `{PathEnv} p cmd fallback options r0 m0 :
  exact_rule p cmd r0 m0 →
  ∃ ev, check_with_options p cmd fallback options = Ok ev
    ∧ (∃ r m, exact_rule p cmd r m ∧ rule_decision r = decision ev)
    ∧ ∀ r m, exact_rule p cmd r m → decision_le (rule_decision r) (decision ev).
Proof.
  intros Hx. destruct (check_evaluates p cmd fallback options) as (ev & Hev & Hcase).
  exists ev. split; [done|].
  destruct Hcase as [(_ & _ & (r & o & m & Hg & Hd) & Hub)|(_ & Hno & _)].
  - split.
    + exists r, m. split; [|done]. by apply (governs_exact_inv _ _ _ _ _ _ _ _ Hx) in Hg as [? _].
    + intros r' m' Hx'. apply (Hub r' None m'). by constructor.
  - destruct (Hno r0 None m0). by constructor.
Qed.

(** Merging keeps the rules of both policies: an exact rule matches a
    command under the merged policy iff it does under one of the two, and the
    decision for such a command is at least as strict as every rule of either
    policy that matches it: the base cannot loosen a rule of the overlay. *)
Theorem merge_overlay_strict `{PathEnv} p overlay cmd fallback options :
  (∀ r m, exact_rule (merge_overlay p overlay) cmd r m ↔
          exact_rule p cmd r m ∨ exact_rule overlay cmd r m)
  ∧ ∀ r m, exact_rule p cmd r m ∨ exact_rule overlay cmd r m →
    ∃ ev, check_with_options (merge_overlay p overlay) cmd fallback options = Ok ev
          ∧ decision_le (rule_decision r) (decision ev).
Proof.
  split; [intros r m; apply exact_rule_merge|].
  intros r m Hx%exact_rule_merge.
  destruct (check_exact _ _ fallback options _ _ Hx) as (ev & ? & _ & Hub). eauto.
Qed.

Lemma accepts_single w ws m :
  accepts {| first := w; rest := Single <$> ws |} m ↔ m = w :: ws.
Proof.
  unfold accepts. simpl. split.
  - intros (vs & -> & HF). f_equal. rewrite Forall2_fmap_l in HF.
    induction HF as [|x y l k Hy HF IH]; [done|].
    simpl in Hy. apply list_elem_of_singleton in Hy as ->. by f_equal.
  - intros ->. exists ws. split; [done|]. apply Forall2_fmap_l, Forall_Forall2_diag, Forall_forall.
    intros x Hx. apply list_elem_of_here.
Qed.

(** After [add_prefix_rule] the rules that match a command exactly are
    the former ones and, for the commands that start with the prefix, the new
    one; only an empty prefix is refused. *)
Theorem add_prefix_rule_spec p prefix d :
  match add_prefix_rule p prefix d with
  | Ok p' =>
      prefix ≠ [] ∧ network_rules p' = network_rules p
      ∧ host_executables_by_name p' = host_executables_by_name p
      ∧ ∃ new, rule_decision new = d ∧
        ∀ cmd r m, exact_rule p' cmd r m ↔
          exact_rule p cmd r m ∨ (r = new ∧ m = prefix ∧ prefix `prefix_of` cmd)
  | Err e => prefix = [] ∧ e = InvalidPattern (lit "prefix cannot be empty")
  | _ => False
  end.
Proof.
  destruct prefix as [|w ws]; [done|]. cbn [add_prefix_rule].
  split; [done|]. split; [done|]. split; [done|].
  exists {| pattern := {| first := w; rest := Single <$> ws |}; rule_decision := d; justification := None |}.
  split; [done|].
  intros cmd r m. unfold exact_rule, filed_rule. split.
  - intros (w' & args & -> & Hr & Ha & Hp). unfold rules_for in Hr. cbn [rules_by_program] in Hr.
    rewrite rules_for_insert in Hr. apply elem_of_app in Hr as [Hr|Hr]; [left; eauto 10|right].
    case_decide as E; [|by apply not_elem_of_nil in Hr].
    apply list_elem_of_singleton in Hr as ->. cbn [pattern] in Ha.
    apply accepts_single in Ha as ->. done.
  - intros [(w' & args & -> & Hr & Ha & Hp)|(-> & -> & Hp)].
    + exists w', args. unfold rules_for at 1. cbn [rules_by_program].
      rewrite rules_for_insert, elem_of_app. tauto.
    + destruct Hp as [k ->]. exists w, (ws ++ k). split; [done|].
      unfold rules_for at 1. cbn [rules_by_program]. rewrite rules_for_insert, decide_True by done.
      split; [apply elem_of_app; right; apply list_elem_of_here|].
      split; [by apply accepts_single|by exists k].
Qed.

(** * Network domains *)

(** The last rule for a host that is not a prompt. *)
Definition rules_on (h : str) (rules : list NetworkRule) : list NetworkRule :=
  filter (λ r, host r = h ∧ net_decision r ≠ Prompt) rules.
Definition last_ruling (h : str) (rules : list NetworkRule) : option Decision :=
  net_decision <$> last (rules_on h rules).

Lemma elem_of_retain h h' l : h' ∈ retain_other h l ↔ h' ∈ l ∧ h' ≠ h.
Proof. unfold retain_other. rewrite list_elem_of_filter. tauto. Qed.
Lemma elem_of_upsert h h' l : h' ∈ upsert_domain l h ↔ h' ∈ l ∨ h' = h.
Proof.
  unfold upsert_domain. rewrite elem_of_app, elem_of_retain, list_elem_of_singleton.
  destruct (decide (h' = h)); tauto.
Qed.
Lemma NoDup_retain h l : NoDup l → NoDup (retain_other h l).
Proof. apply NoDup_filter. Qed.
Lemma NoDup_upsert h l : NoDup l → NoDup (upsert_domain l h).
Proof.
  intros Hl. unfold upsert_domain. apply NoDup_app. split; [by apply NoDup_retain|].
  split; [|apply NoDup_singleton]. intros x Hx ->%list_elem_of_singleton.
  by apply elem_of_retain in Hx as [_ ?].
Qed.

Lemma last_ruling_snoc h rules r :
  last_ruling h (rules ++ [r]) =
  if decide (host r = h ∧ net_decision r ≠ Prompt) then Some (net_decision r)
  else last_ruling h rules.
Proof.
  unfold last_ruling, rules_on. rewrite filter_app, filter_cons, filter_nil.
  case_decide; [by rewrite last_snoc|by rewrite app_nil_r].
Qed.

(** The compiled lists hold each host once; a host is allowed (denied)
    iff the last network rule for it that is not a prompt allows (forbids) it,
    whatever the protocol of the rule. *)
Theorem compiled_network_domains_spec p :
  NoDup (compiled_network_domains p).1 ∧ NoDup (compiled_network_domains p).2
  ∧ (∀ h, h ∈ (compiled_network_domains p).1 ↔ last_ruling h (network_rules p) = Some Allow)
  ∧ (∀ h, h ∈ (compiled_network_domains p).2 ↔ last_ruling h (network_rules p) = Some Forbidden).
Proof.
  unfold compiled_network_domains.
  induction (network_rules p) as [|r rules (Ha & Hd & Hal & Hdl)] using rev_ind; simpl.
  - split; [constructor|]. split; [constructor|].
    split; intros h; split; by intros ?%not_elem_of_nil || done.
  - setoid_rewrite last_ruling_snoc. rewrite foldl_app. simpl. unfold compile_rule.
    destruct (foldl _ _ rules) as [allowed denied]. simpl in *.
    assert (∀ h d, d ≠ Prompt → net_decision r = d →
      (if decide (host r = h ∧ net_decision r ≠ Prompt) then Some (net_decision r)
       else last_ruling h rules) = if decide (h = host r) then Some d else last_ruling h rules) as Hr.
    { intros h d ? <-. destruct (decide (h = host r)); [rewrite decide_True by done|rewrite decide_False by naive_solver]; done. }
    destruct (net_decision r) eqn:Er; cbn [fst snd].
    + do 2 (split; [auto using NoDup_retain, NoDup_upsert|]).
      split; intros h; rewrite (Hr h Allow) by done;
        rewrite ?elem_of_upsert, ?elem_of_retain, ?Hal, ?Hdl; destruct (decide (h = host r)); intuition congruence.
    + do 2 (split; [done|]). split; intros h; rewrite decide_False by naive_solver; auto.
    + do 2 (split; [auto using NoDup_retain, NoDup_upsert|]).
      split; intros h; rewrite (Hr h Forbidden) by done;
        rewrite ?elem_of_upsert, ?elem_of_retain, ?Hal, ?Hdl; destruct (decide (h = host r)); intuition congruence.
Qed.

(** * Sorted prefixes *)

#[export] Instance prefix_cmp_order : CmpOrder prefix_cmp := _.

#[export] Instance prefix_le_total : Total prefix_le.
Proof. intros x y. unfold prefix_le. rewrite (cmp_opp (cmp := prefix_cmp) x y). destruct (prefix_cmp x y); simpl; auto; by left. Qed.
#[export] Instance prefix_le_trans : Transitive prefix_le.
Proof.
  intros x y z. unfold prefix_le. destruct (prefix_cmp x y) eqn:E1; [apply cmp_eq in E1 as ->; done| |done].
  intros _. destruct (prefix_cmp y z) eqn:E2; [apply cmp_eq in E2 as ->; by rewrite E1| |done].
  by rewrite (cmp_trans (cmp := prefix_cmp) x y z).
Qed.

Definition prefix_lt (a b : list str) : Prop := prefix_cmp a b = Lt.
#[export] Instance prefix_lt_trans : Transitive prefix_lt.
Proof. intros x y z. apply cmp_trans. Qed.

Lemma elem_of_dedup {A} `{EqDecision A} (x : A) l : x ∈ dedup l ↔ x ∈ l.
Proof.
  induction l as [|y l IH]; [done|]. destruct l as [|z l]; [done|].
  change (dedup (y :: z :: l)) with (if decide (y = z) then dedup (z :: l) else y :: dedup (z :: l)).
  case_decide; subst; rewrite ?elem_of_cons, IH, ?elem_of_cons; tauto.
Qed.

Lemma dedup_head {A} `{EqDecision A} (l : list A) : head (dedup l) = head l.
Proof.
  induction l as [|y l IH]; [done|]. destruct l as [|z l]; [done|].
  change (dedup (y :: z :: l)) with (if decide (y = z) then dedup (z :: l) else y :: dedup (z :: l)).
  case_decide; subst; [by rewrite IH|done].
Qed.

Lemma dedup_sorted l : Sorted prefix_le l → StronglySorted prefix_lt (dedup l).
Proof.
  intros Hs. apply Sorted_StronglySorted; [apply _|].
  induction Hs as [|x l Hs IH Hh]; [constructor|]. destruct l as [|y l]; [by repeat constructor|].
  change (dedup (x :: y :: l)) with (if decide (x = y) then dedup (y :: l) else x :: dedup (y :: l)).
  case_decide as Hne; [done|]. constructor; [done|].
  pose proof (dedup_head (y :: l)) as Hd. destruct (dedup (y :: l)) as [|z l']; [done|].
  injection Hd as ->. constructor. apply HdRel_inv in Hh. unfold prefix_le, prefix_lt in *.
  destruct (prefix_cmp x y) eqn:E; [by apply cmp_eq in E|done|done].
Qed.


(** The allowed prefixes are strictly increasing, so without repeats,
    and are the rendered patterns of the rules that allow. *)
Theorem get_allowed_prefixes_spec p :
  StronglySorted prefix_lt (get_allowed_prefixes p)
  ∧ ∀ x, x ∈ get_allowed_prefixes p ↔
      ∃ w r, r ∈ rules_for p w ∧ rule_decision r = Allow
             ∧ x = first (pattern r) :: (render_pattern_token <$> rest (pattern r)).
Proof.
  unfold get_allowed_prefixes. split.
  { apply dedup_sorted. apply Sorted_merge_sort. apply _. }
  intros x. rewrite elem_of_dedup, merge_sort_Permutation, elem_of_concat.
  setoid_rewrite list_elem_of_fmap. unfold allowed_prefixes_of, rules_for. split.
  - intros (l & ((w & rs) & -> & Hw%elem_of_map_to_list) & Hx).
    apply list_elem_of_fmap in Hx as (r & -> & [Hd Hr]%list_elem_of_filter).
    exists w, r. by rewrite Hw.
  - intros (w & r & Hr & Hd & ->). destruct (rules_by_program p !! w) as [rs|] eqn:Hw; simpl in Hr.
    + eexists. split; [exists (w, rs); split; [done|by apply elem_of_map_to_list]|].
      apply list_elem_of_fmap. exists r. split; [done|]. by apply list_elem_of_filter.
    + by apply not_elem_of_nil in Hr.
Qed.

(** * Hosts of network rules *)

Lemma strip_port_incl raw h h' x : strip_port raw h = Ok h' → x ∈ h' → x ∈ h.
Proof.
  unfold strip_port. destruct (strip_prefix (lit "[") h) as [stripped|] eqn:Ep.
  - apply strip_prefix_Some in Ep as ->.
    destruct (split_once 93 stripped) as [[inside rest]|] eqn:Es; [|done].
    apply split_once_Some in Es as [-> _].
    destruct (_ && _); [done|]. intros [= <-] Hx. rewrite !elem_of_app. auto.
  - case_decide; [|by intros [= <-]].
    destruct (rsplit_once colon h) as [[candidate port]|] eqn:Er; [|by intros [= <-]].
    apply rsplit_once_Some in Er as [-> _]. destruct (_ && _); intros [= <-]; [|done].
    rewrite elem_of_app. auto.
Qed.

Lemma to_lower_other c d :
  is_ascii_lowercase d = false → to_ascii_lowercase_char c = d → c = d.
Proof.
  unfold to_ascii_lowercase_char, is_ascii_lowercase, is_ascii_uppercase.
  destruct ((65 <=? c) && (c <=? 90))%N eqn:E; [|done].
  apply andb_true_iff in E as [?%N.leb_le ?%N.leb_le].
  intros Hd <-. apply andb_false_iff in Hd as [?%N.leb_gt|?%N.leb_gt]; lia.
Qed.

Lemma to_lower_not_upper c : is_ascii_uppercase (to_ascii_lowercase_char c) = false.
Proof.
  unfold to_ascii_lowercase_char, is_ascii_uppercase.
  destruct ((65 <=? c) && (c <=? 90))%N eqn:E; [|done].
  apply andb_true_iff in E as [?%N.leb_le ?%N.leb_le].
  apply andb_false_iff. right. apply N.leb_gt. lia.
Qed.

(** A host name the policy stores. *)
Definition plain_host (h : str) : Prop :=
  h ≠ [] ∧ Forall (λ c, is_ascii_uppercase c = false ∧ is_whitespace c = false
                        ∧ c ∉ lit "/?#*") h.

Lemma normalize_Ok raw h :
  normalize_network_rule_host raw = Ok h →
  ∃ h0, strip_port raw (trim raw) = Ok h0
    ∧ h = to_ascii_lowercase (trim (trim_end_matches (N.eqb 46) h0)) ∧ h ≠ []
    ∧ (∀ c, c ∈ lit "/?#" → c ∉ trim raw) ∧ (42%N ∉ h) ∧ existsb is_whitespace h = false.
Proof.
  unfold normalize_network_rule_host. case_decide; [done|].
  destruct (contains _ _ || _ || _ || _) eqn:Ec; [done|].
  rewrite !orb_false_iff in Ec. destruct Ec as (((_ & E1) & E2) & E3).
  apply contains_char_false in E1, E2, E3.
  destruct (strip_port raw (trim raw)) as [h0|e| |]; try done. run_bind.
  case_decide; [done|]. destruct (contains_char 42 _) eqn:Es; [done|].
  apply contains_char_false in Es. destruct (existsb _ _) eqn:Ew; [done|]. intros [= <-].
  exists h0. repeat (split; [done|]). split; [|done]. 
  intros c Hc. change (lit "/?#") with [47; 63; 35]%N in Hc.
  apply elem_of_cons in Hc as [->|Hc]; [done|].
  apply elem_of_cons in Hc as [->|Hc]; [done|]. by apply list_elem_of_singleton in Hc as ->.
Qed.

(** A host that [normalize_network_rule_host] accepts is stored as a
    plain name: not empty, in lower case, without white space, slash, question
    mark, hash sign or wildcard. *)
Theorem normalize_network_rule_host_plain raw h :
  normalize_network_rule_host raw = Ok h → plain_host h.
Proof.
  intros (h0 & Hp & -> & Hne & Hno & Hstar & Hws)%normalize_Ok. split; [done|].
  apply Forall_forall. intros c Hc.
  assert (is_whitespace c = false) as Hcw.
  { apply not_true_iff_false. intros Hw. apply not_true_iff_false in Hws. destruct Hws.
    apply existsb_exists. exists c. by rewrite <-list_elem_of_In. }
  assert (c ≠ 42%N) as Hc42 by (by intros ->).
  apply list_elem_of_fmap in Hc as (d & -> & Hd).
  split; [apply to_lower_not_upper|]. split; [done|].
  assert (d ∈ trim raw) as Hdr by eauto using strip_port_incl, trim_incl, trim_end_matches_incl.
  intros Hin. remember (to_ascii_lowercase_char d) as c eqn:Ec.
  change (lit "/?#*") with (lit "/?#" ++ [42%N]) in Hin.
  apply elem_of_app in Hin as [Hin| ->%list_elem_of_singleton]; [|done].
  assert (d = c) as ->; [|by destruct (Hno c)].
  apply to_lower_other; [|done]. clear Ec. change (lit "/?#") with [47; 63; 35]%N in Hin.
  apply elem_of_cons in Hin as [->|Hin]; [done|].
  apply elem_of_cons in Hin as [->|Hin]; [done|]. by apply list_elem_of_singleton in Hin as ->.
Qed.

(** Normalising again is not always the identity: the colon of a bracketed
    name is read as a port. *)
Example normalize_twice :
  normalize_network_rule_host (lit "[Host:80]") = Ok (lit "host:80")
  ∧ normalize_network_rule_host (lit "host:80") = Ok (lit "host").
Proof. vm_compute. done. Qed.

(** * Witnesses *)

Lemma check_multiple_spec_witness :
  ∃ evs ev, mapM (λ cmd, @check_with_options (lexical_env (lit "/root") (lit "/")) policy_empty cmd
                     (λ _, Prompt) default_options) [[lit "ls"]] = Ok evs
    ∧ @check_multiple_with_options (lexical_env (lit "/root") (lit "/")) policy_empty [[lit "ls"]]
        (λ _, Prompt) default_options = Ok ev
    ∧ matched_rules ev = concat (matched_rules <$> evs)
    ∧ decision ev ∈ (decision <$> evs)
    ∧ ∀ d, d ∈ (decision <$> evs) → decision_le d (decision ev).
Proof. apply (@check_multiple_spec (lexical_env (lit "/root") (lit "/"))). discriminate. Defined.

Lemma normalize_network_rule_host_plain_witness : plain_host (lit "api.example.com").
Proof.
  apply (normalize_network_rule_host_plain (lit " API.example.com:443 ")).
  vm_compute. reflexivity.
Defined.
