(* ===== verification/PolicyParser.v ===== *)
(** Building a policy from a rules file: [codex-rs/execpolicy/src/parser.rs]
    and the example checks of [rule.rs]. The Starlark evaluator is a
    parameter: running a file makes a sequence of calls of the builtins, whose
    results it does not look at, and may end in an error of its own; a builtin
    that fails ends the run. [shlex] and the [Debug] texts of rules are
    parameters too. *)
From stdpp Require Import gmap.
From S2P Require Import Prelude RustStr RustPath FileSystem AbsolutePath ExecPolicy.

Record PendingExampleValidation : Type := {
  pending_rules : list PrefixRule;
  pending_matches : list (list str);
  pending_not_matches : list (list str);
  pending_location : option ErrorLocation }.

Record PolicyBuilder : Type := {
  b_rules_by_program : MultiMap PrefixRule;
  b_network_rules : list NetworkRule;
  b_host_executables_by_name : gmap str (list str);
  pending_example_validations : list PendingExampleValidation }.

Definition builder_new : PolicyBuilder :=
  {| b_rules_by_program := ∅; b_network_rules := [];
     b_host_executables_by_name := ∅; pending_example_validations := [] |}.

Definition add_rule (b : PolicyBuilder) (rule : PrefixRule) : PolicyBuilder :=
  {| b_rules_by_program := mm_insert (program rule) rule (b_rules_by_program b);
     b_network_rules := b_network_rules b;
     b_host_executables_by_name := b_host_executables_by_name b;
     pending_example_validations := pending_example_validations b |}.
Definition builder_add_network_rule (b : PolicyBuilder) (rule : NetworkRule) : PolicyBuilder :=
  {| b_rules_by_program := b_rules_by_program b;
     b_network_rules := b_network_rules b ++ [rule];
     b_host_executables_by_name := b_host_executables_by_name b;
     pending_example_validations := pending_example_validations b |}.
Definition add_host_executable (b : PolicyBuilder) (name : str) (paths : list str) : PolicyBuilder :=
  {| b_rules_by_program := b_rules_by_program b;
     b_network_rules := b_network_rules b;
     b_host_executables_by_name := <[name := paths]> (b_host_executables_by_name b);
     pending_example_validations := pending_example_validations b |}.
Definition add_pending_example_validation (b : PolicyBuilder) (rules : list PrefixRule)
    (matches not_matches : list (list str)) (location : option ErrorLocation) : PolicyBuilder :=
  {| b_rules_by_program := b_rules_by_program b;
     b_network_rules := b_network_rules b;
     b_host_executables_by_name := b_host_executables_by_name b;
     pending_example_validations := pending_example_validations b ++
       [{| pending_rules := rules; pending_matches := matches;
           pending_not_matches := not_matches; pending_location := location |}] |}.
Definition build (b : PolicyBuilder) : Policy :=
  {| rules_by_program := b_rules_by_program b;
     network_rules := b_network_rules b;
     host_executables_by_name := b_host_executables_by_name b |}.

Definition attach_validation_location (error : Error) (location : option ErrorLocation) : Error :=
  match location with Some location => with_location error location | None => error end.

Definition parse_network_rule_decision (raw : str) : outcome Error Decision :=
  if decide (raw = lit "deny") then Ok Forbidden else Decision_parse raw.

Definition validate_host_executable_name (name : str) : outcome Error unit :=
  if decide (name = []) then Err (InvalidRule (lit "host_executable name cannot be empty"))
  else if negb (length (components name) =? 1) || negb (bool_decide (file_name name = Some name))
  then Err (InvalidRule (lit "host_executable name must be a bare executable name (got "
                           ++ name ++ lit ")"))
  else Ok tt.

(** [justification] of a builtin: a blank text is refused. *)
Definition parse_justification (j : option str) : outcome Error (option str) :=
  match j with
  | Some raw => if decide (trim raw = []) then Err justification_empty else Ok (Some raw)
  | None => Ok None
  end.

(** The examples of one validation are checked against its rules alone. *)
Definition validation_policy (b : PolicyBuilder) (v : PendingExampleValidation) : Policy :=
  {| rules_by_program := foldl (λ mm r, mm_insert (program r) r mm) ∅ (pending_rules v);
     network_rules := [];
     host_executables_by_name := b_host_executables_by_name b |}.

Section parser.
Context `{PathEnv}.
(** [format!("{rule:?}")] of a rule and of a match, and [shlex::try_join]. *)
Variable debug_rule : PrefixRule → str.
Variable debug_match : RuleMatch → str.
Variable try_join : list str → option str.

Definition example_options : MatchOptions := {| resolve_host_executables := true |}.
Definition render_example (example : list str) : str :=
  default (lit "unable to render example") (try_join example).
Definition example_matches (p : Policy) (example : list str) : list RuleMatch :=
  matches_for_command_with_options p example None example_options.

Definition validate_match_examples (p : Policy) (rules : list PrefixRule)
    (matches : list (list str)) : outcome Error unit :=
  let unmatched_examples :=
    render_example <$> filter (λ example, example_matches p example = []) matches in
  if decide (unmatched_examples = []) then Ok tt
  else Err (ExampleDidNotMatch (debug_rule <$> rules) unmatched_examples None).

Fixpoint validate_not_match_examples (p : Policy) (not_matches : list (list str))
    : outcome Error unit :=
  match not_matches with
  | [] => Ok tt
  | example :: not_matches' =>
      match example_matches p example with
      | m :: _ => Err (ExampleDidMatch (debug_match m) (render_example example) None)
      | [] => validate_not_match_examples p not_matches'
      end
  end.

Definition validate_pending (b : PolicyBuilder) (v : PendingExampleValidation) : outcome Error unit :=
  map_err (λ e, attach_validation_location e (pending_location v))
    (validate_not_match_examples (validation_policy b v) (pending_not_matches v));;
  map_err (λ e, attach_validation_location e (pending_location v))
    (validate_match_examples (validation_policy b v) (pending_rules v) (pending_matches v)).
Fixpoint validate_all (b : PolicyBuilder) (vs : list PendingExampleValidation) : outcome Error unit :=
  match vs with
  | [] => Ok tt
  | v :: vs' => validate_pending b v;; validate_all b vs'
  end.
(** Slicing from beyond the end panics. *)
Definition validate_pending_examples_from (b : PolicyBuilder) (start : nat) : outcome Error unit :=
  if start <=? length (pending_example_validations b)
  then validate_all b (drop start (pending_example_validations b))
  else Panic.

(** * The builtins *)

(** Starlark values, as far as the builtins look at them, and [shlex::split]. *)
Variable Value : Type.
Variable unpack_str : Value → option str.
Variable list_content : Value → option (list Value).
Variable get_type : Value → str.
Variable shlex_split : str → option (list str).

(** [unpack_str], with the error of the caller for another type. *)
Definition expect_str (error : Error) (v : Value) : outcome Error str :=
  match unpack_str v with Some s => Ok s | None => Err error end.
Definition got (what : str) (v : Value) : str := what ++ lit " (got " ++ get_type v ++ lit ")".

Definition parse_pattern_token (v : Value) : outcome Error PatternToken :=
  match unpack_str v with
  | Some s => Ok (Single s)
  | None =>
      match list_content v with
      | Some content =>
          tokens ← mapM (λ value, expect_str
                    (InvalidPattern (got (lit "pattern alternative must be a string") value)) value)
                    content;
          match tokens with
          | [] => Err (InvalidPattern (lit "pattern alternatives cannot be empty"))
          | [single] => Ok (Single single)
          | _ => Ok (Alts tokens)
          end
      | None => Err (InvalidPattern (got (lit "pattern element must be a string or list of strings") v))
      end
  end.
Definition parse_pattern (pattern : list Value) : outcome Error (list PatternToken) :=
  tokens ← mapM parse_pattern_token pattern;
  if decide (tokens = []) then Err (InvalidPattern (lit "pattern cannot be empty")) else Ok tokens.

Definition parse_string_example (raw : str) : outcome Error (list str) :=
  match shlex_split raw with
  | None => Err (InvalidExample (lit "example string has invalid shell syntax"))
  | Some [] => Err (InvalidExample (lit "example cannot be an empty string"))
  | Some tokens => Ok tokens
  end.
Definition parse_list_example (content : list Value) : outcome Error (list str) :=
  tokens ← mapM (λ value, expect_str
            (InvalidExample (got (lit "example tokens must be strings") value)) value) content;
  if decide (tokens = []) then Err (InvalidExample (lit "example cannot be an empty list"))
  else Ok tokens.
Definition parse_example (v : Value) : outcome Error (list str) :=
  match unpack_str v with
  | Some raw => parse_string_example raw
  | None =>
      match list_content v with
      | Some content => parse_list_example content
      | None => Err (InvalidExample (got (lit "example must be a string or list of strings") v))
      end
  end.
Definition parse_examples (examples : list Value) : outcome Error (list (list str)) :=
  mapM parse_example examples.
(** [option.map(parse_examples).transpose()?.unwrap_or_default()]. *)
Definition optional_examples (examples : option (list Value)) : outcome Error (list (list str)) :=
  match examples with Some l => parse_examples l | None => Ok [] end.

Definition parse_literal_absolute_path (raw : str) : outcome Error str :=
  if negb (is_absolute raw)
  then Err (InvalidRule (lit "host_executable paths must be absolute (got " ++ raw ++ lit ")"))
  else map_err (λ error, InvalidRule (lit "invalid absolute path `" ++ raw ++ lit "`: " ++ error))
         (try_from raw).

Definition prefix_rule (pattern : list Value) (decision : option str)
    (match_ not_match : option (list Value)) (justification : option str)
    (location : option ErrorLocation) (b : PolicyBuilder) : outcome Error PolicyBuilder :=
  decision ← match decision with Some raw => Decision_parse raw | None => Ok Allow end;
  justification ← parse_justification justification;
  pattern_tokens ← parse_pattern pattern;
  matches ← optional_examples match_;
  not_matches ← optional_examples not_match;
  match pattern_tokens with
  | [] => Err (InvalidPattern (lit "pattern cannot be empty"))
  | first_token :: remaining_tokens =>
      let rules := (λ head, {| pattern := {| first := head; rest := remaining_tokens |};
                               rule_decision := decision; justification := justification |})
                   <$> alternatives first_token in
      Ok (foldl add_rule (add_pending_example_validation b rules matches not_matches location) rules)
  end.

Definition network_rule (host protocol decision : str) (justification : option str)
    (b : PolicyBuilder) : outcome Error PolicyBuilder :=
  protocol ← NetworkRuleProtocol_parse protocol;
  decision ← parse_network_rule_decision decision;
  justification ← parse_justification justification;
  host ← normalize_network_rule_host host;
  Ok (builder_add_network_rule b
        {| host := host; protocol := protocol; net_decision := decision;
           net_justification := justification |}).

Definition basename_error (raw name : str) : Error :=
  InvalidRule (lit "host_executable path `" ++ raw ++ lit "` must have basename `" ++ name ++ lit "`").
Fixpoint host_paths_loop (name : str) (values : list Value) (parsed_paths : list str)
    : outcome Error (list str) :=
  match values with
  | [] => Ok parsed_paths
  | value :: values' =>
      raw ← expect_str (InvalidRule (got (lit "host_executable paths must be strings") value)) value;
      path ← parse_literal_absolute_path raw;
      match executable_path_lookup_key path with
      | None => Err (basename_error raw name)
      | Some path_name =>
          if decide (path_name ≠ executable_lookup_key name) then Err (basename_error raw name)
          else host_paths_loop name values'
                 (if existsb (λ existing, bool_decide (path_eq existing path)) parsed_paths
                  then parsed_paths else parsed_paths ++ [path])
      end
  end.
Definition host_executable_builtin (name : str) (paths : list Value) (b : PolicyBuilder)
    : outcome Error PolicyBuilder :=
  validate_host_executable_name name;;
  parsed_paths ← host_paths_loop name paths [];
  Ok (add_host_executable b (executable_lookup_key name) parsed_paths).

(** * Running a rules file *)

(** One call of a builtin, with the location of the call. *)
Inductive BuiltinCall : Type :=
| CallPrefixRule (pattern : list Value) (decision : option str)
    (match_ not_match : option (list Value)) (justification : option str)
    (location : option ErrorLocation)
| CallNetworkRule (host protocol decision : str) (justification : option str)
| CallHostExecutable (name : str) (paths : list Value).

Definition run_call (c : BuiltinCall) (b : PolicyBuilder) : outcome Error PolicyBuilder :=
  match c with
  | CallPrefixRule pattern decision match_ not_match justification location =>
      prefix_rule pattern decision match_ not_match justification location b
  | CallNetworkRule host protocol decision justification =>
      network_rule host protocol decision justification b
  | CallHostExecutable name paths => host_executable_builtin name paths b
  end.

(** What the evaluator does with a file: a syntax error, or the calls it makes
    and the error it ends with, if any; and the text it gives the error of a
    builtin. *)
Variable starlark_run : str → str → outcome str (list BuiltinCall * option str).
Variable starlark_error : Error → str.

Fixpoint run_calls (calls : list BuiltinCall) (b : PolicyBuilder)
    : PolicyBuilder * outcome Error unit :=
  match calls with
  | [] => (b, Ok tt)
  | c :: calls' =>
      match run_call c b with
      | Ok b' => run_calls calls' b'
      | Err e => (b, Err (Starlark (starlark_error e)))
      | Panic => (b, Panic)
      | OutOfFuel => (b, OutOfFuel)
      end
  end.
Definition eval_module (policy_identifier contents : str) : stm PolicyBuilder Error unit := fun b =>
  match starlark_run policy_identifier contents with
  | Ok (calls, ending) =>
      match run_calls calls b with
      | (b', Ok _) => (b', match ending with Some e => Err (Starlark e) | None => Ok tt end)
      | other => other
      end
  | Err e => (b, Err (Starlark e))
  | Panic => (b, Panic)
  | OutOfFuel => (b, OutOfFuel)
  end.
Definition parse (policy_identifier contents : str) : stm PolicyBuilder Error unit := fun b =>
  let pending_validation_count := length (pending_example_validations b) in
  match eval_module policy_identifier contents b with
  | (b', Ok _) => (b', validate_pending_examples_from b' pending_validation_count)
  | other => other
  end.

End parser.

(** * Lemmas: the examples *)

Section examples.
Context `{PathEnv}.
Variable debug_rule : PrefixRule → str.
Variable debug_match : RuleMatch → str.
Variable try_join : list str → option str.

(** What a validation asks of its examples. *)
Definition example_governed (p : Policy) (example : list str) : Prop :=
  ∃ r o m, governs p example_options example r o m.
Definition examples_hold (b : PolicyBuilder) (v : PendingExampleValidation) : Prop :=
  (∀ ex, ex ∈ pending_matches v → example_governed (validation_policy b v) ex)
  ∧ ∀ ex, ex ∈ pending_not_matches v → ¬ example_governed (validation_policy b v) ex.

Lemma example_matches_nil p ex : example_matches p ex = [] ↔ ¬ example_governed p ex.
Proof.
  rewrite elem_of_empty_iff. pose proof (rule_matches_for_spec p ex example_options) as Hs.
  unfold rule_matches_for in Hs. unfold example_matches, example_governed. split.
  - intros Hno (r & o & m & Hg). apply (Hno (rule_match r o m)), Hs. eauto.
  - intros Hno x (r & o & m & Hg & _)%Hs. eauto.
Qed.

Lemma example_governed_matches p ex : example_governed p ex ↔ example_matches p ex ≠ [].
Proof.
  rewrite example_matches_nil. split; [auto|]. intros Hnn.
  destruct (example_matches p ex) as [|x l] eqn:E.
  - by apply example_matches_nil in E.
  - assert (x ∈ example_matches p ex) as Hx by (rewrite E; apply list_elem_of_here).
    apply (rule_matches_for_spec p ex example_options) in Hx as (r & o & m & ? & _). by exists r, o, m.
Qed.

Lemma validate_match_examples_spec p rules exs :
  returns (validate_match_examples debug_rule try_join p rules exs)
  ∧ (validate_match_examples debug_rule try_join p rules exs = Ok tt
     ↔ ∀ ex, ex ∈ exs → example_governed p ex).
Proof.
  unfold validate_match_examples. setoid_rewrite example_governed_matches.
  case_decide as Hf; split; try done.
  - split; [|done]. intros _ ex Hex Hn. apply fmap_nil_inv in Hf. rewrite elem_of_empty_iff in Hf.
    apply (Hf ex). by apply list_elem_of_filter.
  - split; [done|]. intros Hall. destruct Hf.
    rewrite (proj2 (elem_of_empty_iff (filter _ exs))); [done|]. intros ex [Hn Hex]%list_elem_of_filter. by apply (Hall ex).
Qed.

Lemma validate_not_match_examples_spec p exs :
  returns (validate_not_match_examples debug_match try_join p exs)
  ∧ (validate_not_match_examples debug_match try_join p exs = Ok tt
     ↔ ∀ ex, ex ∈ exs → ¬ example_governed p ex).
Proof.
  induction exs as [|ex exs [IHr IH]]; cbn [validate_not_match_examples].
  { split; [done|]. split; [|done]. by intros _ ex ?%not_elem_of_nil. }
  destruct (example_matches p ex) as [|x l] eqn:E.
  - apply example_matches_nil in E. split; [done|]. rewrite IH. split.
    + intros Hall ex' [->|?]%elem_of_cons; [done|by apply Hall].
    + intros Hall ex' ?. apply Hall. by apply list_elem_of_further.
  - split; [done|]. split; [done|]. intros Hall. destruct (Hall ex (list_elem_of_here _ _)).
    apply example_governed_matches. by rewrite E.
Qed.

Lemma seq_returns {E} (m k : outcome E unit) : returns m → returns k → returns (m;; k).
Proof. by destruct m. Qed.
Lemma seq_Ok {E} (m k : outcome E unit) : (m;; k) = Ok tt ↔ m = Ok tt ∧ k = Ok tt.
Proof. destruct m as [[]| | |]; cbn; split; intros; destruct_and?; try congruence; auto. Qed.

Lemma validate_pending_spec b v :
  returns (validate_pending debug_rule debug_match try_join b v)
  ∧ (validate_pending debug_rule debug_match try_join b v = Ok tt ↔ examples_hold b v).
Proof.
  destruct (validate_not_match_examples_spec (validation_policy b v) (pending_not_matches v)) as [R1 S1].
  destruct (validate_match_examples_spec (validation_policy b v) (pending_rules v) (pending_matches v)) as [R2 S2].
  unfold validate_pending. split.
  - apply seq_returns; by apply map_err_returns.
  - rewrite seq_Ok, !map_err_Ok, S1, S2. unfold examples_hold. tauto.
Qed.

Lemma validate_all_spec b vs :
  returns (validate_all debug_rule debug_match try_join b vs)
  ∧ (validate_all debug_rule debug_match try_join b vs = Ok tt ↔ ∀ v, v ∈ vs → examples_hold b v).
Proof.
  induction vs as [|v vs [IHr IH]]; cbn [validate_all].
  { split; [done|]. split; [|done]. by intros _ v ?%not_elem_of_nil. }
  destruct (validate_pending_spec b v) as [Hr Hs]. split; [by apply seq_returns|].
  rewrite seq_Ok, Hs, IH. split.
  - intros [? Hall] v' [->|?]%elem_of_cons; auto.
  - intros Hall. split; [apply Hall, list_elem_of_here|].
    intros v' ?. by apply Hall, list_elem_of_further.
Qed.
End examples.

(** * Lemmas: the builtins *)

Section builtins.
Context `{PathEnv}.
Context {Value : Type} (unpack_str : Value → option str) (list_content : Value → option (list Value))
  (get_type : Value → str) (shlex_split : str → option (list str)).


Abbreviation call_prefix_rule := (prefix_rule Value unpack_str list_content get_type shlex_split).
Abbreviation call := (run_call Value unpack_str list_content get_type shlex_split).

(** What a successful [prefix_rule] call adds. *)
Definition rules_of_tokens (d : Decision) (j : option str) (tokens : list PatternToken)
    : list PrefixRule :=
  match tokens with
  | [] => []
  | t :: ts => (λ head, {| pattern := {| first := head; rest := ts |};
                           rule_decision := d; justification := j |}) <$> alternatives t
  end.

Lemma prefix_rule_Ok pattern d ms nms j loc b b' :
  call_prefix_rule pattern d ms nms j loc b = Ok b' →
  ∃ tokens dec ms' nms',
    parse_pattern Value unpack_str list_content get_type pattern = Ok tokens
    ∧ (match d with Some raw => Decision_parse raw | None => Ok Allow end) = Ok dec
    ∧ optional_examples Value unpack_str list_content get_type shlex_split ms = Ok ms'
    ∧ optional_examples Value unpack_str list_content get_type shlex_split nms = Ok nms'
    ∧ b' = foldl add_rule
             (add_pending_example_validation b (rules_of_tokens dec j tokens) ms' nms' loc)
             (rules_of_tokens dec j tokens).
Proof.
  unfold prefix_rule. intros (dec & Hd & (j' & Hj & (tokens & Hp & (ms' & Hm & (nms' & Hn &
    Hb)%bind_Ok_inv)%bind_Ok_inv)%bind_Ok_inv)%bind_Ok_inv)%bind_Ok_inv.
  assert (j' = j) as ->.
  { unfold parse_justification in Hj. destruct j as [raw|]; [case_decide|]; congruence. }
  exists tokens, dec, ms', nms'. destruct tokens as [|t ts]; [done|]. injection Hb as <-. done.
Qed.

Lemma foldl_add_rule_rules b rules w :
  rules_for (build (foldl add_rule b rules)) w =
  rules_for (build b) w ++ filter (λ r, program r = w) rules.
Proof.
  revert b. induction rules as [|r rules IH]; intros b; simpl; [by rewrite app_nil_r|].
  rewrite IH. rewrite filter_cons. unfold rules_for at 1. cbn [build add_rule rules_by_program b_rules_by_program].
  rewrite (rules_for_insert (build b)). case_decide; [by rewrite <-app_assoc|by rewrite app_nil_r].
Qed.
Lemma foldl_add_rule_rest b rules :
  pending_example_validations (foldl add_rule b rules) = pending_example_validations b
  ∧ b_network_rules (foldl add_rule b rules) = b_network_rules b
  ∧ b_host_executables_by_name (foldl add_rule b rules) = b_host_executables_by_name b.
Proof. revert b. induction rules as [|r rules IH]; intros b; simpl; [done|].
  exact (IH (add_rule b r)). Qed.

Lemma run_call_pending c b b' :
  call c b = Ok b' → ∃ new, pending_example_validations b' = pending_example_validations b ++ new.
Proof.
  destruct c as [pattern d ms nms j loc|h proto d j|name paths]; cbn [run_call].
  - intros (tokens & dec & ms' & nms' & _ & _ & _ & _ & ->)%prefix_rule_Ok.
    destruct (foldl_add_rule_rest (add_pending_example_validation b (rules_of_tokens dec j tokens) ms' nms' loc)
      (rules_of_tokens dec j tokens)) as [-> _]. by eexists.
  - unfold network_rule. intros (? & _ & (? & _ & (? & _ & (? & _ & [= <-])%bind_Ok_inv)%bind_Ok_inv)%bind_Ok_inv)%bind_Ok_inv.
    exists []. by rewrite app_nil_r.
  - unfold host_executable_builtin. intros (? & _ & (? & _ & [= <-])%bind_Ok_inv)%bind_Ok_inv.
    exists []. by rewrite app_nil_r.
Qed.
End builtins.

Section theorems.
Context `{PathEnv}.
Context {Value : Type} (unpack_str : Value → option str) (list_content : Value → option (list Value))
  (get_type : Value → str) (shlex_split : str → option (list str)).
Context (debug_rule : PrefixRule → str) (debug_match : RuleMatch → str)
  (try_join : list str → option str).
Context (starlark_run : str → str → outcome str (list (BuiltinCall Value) * option str))
  (starlark_error : Error → str).

Abbreviation call_prefix_rule := (prefix_rule Value unpack_str list_content get_type shlex_split).
Abbreviation pattern_of := (parse_pattern Value unpack_str list_content get_type).
Abbreviation run_module :=
  (eval_module Value unpack_str list_content get_type shlex_split starlark_run starlark_error).
Abbreviation run_parse :=
  (parse debug_rule debug_match try_join Value unpack_str list_content get_type shlex_split
     starlark_run starlark_error).

Lemma run_calls_pending calls b :
  ∃ new, pending_example_validations
    (run_calls Value unpack_str list_content get_type shlex_split starlark_error calls b).1
    = pending_example_validations b ++ new.
Proof.
  revert b. induction calls as [|c calls IH]; intros b; cbn [run_calls].
  { exists []. by rewrite app_nil_r. }
  destruct (run_call _ _ _ _ _ c b) as [b'|e| |] eqn:E;
    try (exists []; simpl; by rewrite app_nil_r).
  destruct (run_call_pending _ _ _ _ _ _ _ E) as [n1 H1], (IH b') as [n2 ->].
  exists (n1 ++ n2). by rewrite H1, app_assoc.
Qed.

Lemma run_module_pending ident contents b b' r :
  run_module ident contents b = (b', r) →
  ∃ new, pending_example_validations b' = pending_example_validations b ++ new.
Proof.
  unfold eval_module. destruct (starlark_run ident contents) as [[calls ending]|e| |];
    try (intros [= <- <-]; exists []; by rewrite app_nil_r).
  pose proof (run_calls_pending calls b) as Hp. destruct (run_calls _ _ _ _ _ _ calls b) as [b1 r1].
  destruct r1 as [[]|e| |]; by intros [= <- <-].
Qed.

(** Parsing a file checks the examples of its rules and of no others:
    once the module has run, [parse] returns without a panic, and it succeeds
    iff for every validation the module added each [match] example is governed
    by a rule of that call and no [not_match] example is, with the host
    executables known at the end of the file. *)
Theorem parse_validates_examples ident contents b b' :
  run_module ident contents b = (b', Ok tt) →
  ∃ new r, pending_example_validations b' = pending_example_validations b ++ new
    ∧ run_parse ident contents b = (b', r) ∧ returns r
    ∧ (r = Ok tt ↔ ∀ v, v ∈ new → examples_hold b' v).
Proof.
  intros Hm. destruct (run_module_pending _ _ _ _ _ Hm) as [new Hn].
  exists new. eexists. split; [done|]. unfold parse. rewrite Hm. split; [reflexivity|].
  unfold validate_pending_examples_from. rewrite Hn.
  rewrite (proj2 (Nat.leb_le _ _)) by (rewrite length_app; lia).
  rewrite drop_app_length. apply validate_all_spec.
Qed.

Lemma rules_of_tokens_spec d j tokens w cmd m r :
  r ∈ filter (λ r, program r = w) (rules_of_tokens d j tokens) →
  accepts (pattern r) m → m `prefix_of` cmd →
  Forall2 (λ t x, x ∈ alternatives t) tokens m ∧ rule_decision r = d ∧ justification r = j.
Proof.
  destruct tokens as [|t ts]; simpl; [by intros ?%not_elem_of_nil|].
  intros [_ Hr]%list_elem_of_filter (ws & -> & HF) _.
  apply list_elem_of_fmap in Hr as (x & -> & Hx). split; [|done]. by constructor.
Qed.

(** A successful [prefix_rule] call adds the meaning of its pattern: the
    exact rules of the policy that match a command afterwards are those that
    did before, and rules with the decision and justification of the call that
    match the words [m] at the start of the command iff each word of [m] is
    one of the alternatives of the corresponding pattern element. *)
Theorem prefix_rule_language pattern d ms nms j loc b b' :
  call_prefix_rule pattern d ms nms j loc b = Ok b' →
  ∃ tokens dec, pattern_of pattern = Ok tokens ∧ tokens ≠ []
    ∧ (match d with Some raw => Decision_parse raw | None => Ok Allow end) = Ok dec
    ∧ ∀ cmd m,
      (∀ r, exact_rule (build b) cmd r m → exact_rule (build b') cmd r m)
      ∧ (∀ r, exact_rule (build b') cmd r m → exact_rule (build b) cmd r m
              ∨ (rule_decision r = dec ∧ justification r = j
                 ∧ Forall2 (λ t x, x ∈ alternatives t) tokens m ∧ m `prefix_of` cmd))
      ∧ (Forall2 (λ t x, x ∈ alternatives t) tokens m → m `prefix_of` cmd →
         ∃ r, exact_rule (build b') cmd r m ∧ rule_decision r = dec ∧ justification r = j).
Proof.
  intros (tokens & dec & ms' & nms' & Hp & Hd & _ & _ & ->)%prefix_rule_Ok.
  exists tokens, dec. split; [done|].
  assert (tokens ≠ []) as Hne.
  { unfold parse_pattern in Hp. apply bind_Ok_inv in Hp as (ts & _ & Hp). case_decide; [done|congruence]. }
  split; [done|]. split; [done|]. intros cmd m.
  unfold exact_rule, filed_rule. setoid_rewrite foldl_add_rule_rules. setoid_rewrite elem_of_app.
  change (rules_for (build (add_pending_example_validation _ _ _ _ _))) with (rules_for (build b)).
  split; [|split].
  - intros r (w & args & -> & Hr & ? & ?). eauto 10.
  - intros r (w & args & -> & [Hr|Hr] & Ha & Hpre); [left; eauto 10|right].
    destruct (rules_of_tokens_spec _ _ _ _ _ _ _ Hr Ha Hpre) as (? & ? & ?). done.
  - intros HF [k ->]. destruct HF as [|t x ts xs Hx HF]; [done|].
    exists {| pattern := {| first := x; rest := ts |}; rule_decision := dec; justification := j |}.
    split; [|done]. exists x, (xs ++ k). split; [done|].
    split; [right; apply list_elem_of_filter; split; [done|]; cbn [rules_of_tokens];
            apply list_elem_of_fmap; by exists x|].
    split; [by exists xs|by exists k].
Qed.

(** Every rule of a builder is filed under its program. *)
Definition builder_wf (b : PolicyBuilder) : Prop :=
  ∀ w r, r ∈ rules_for (build b) w → program r = w.

Lemma run_call_wf c b b' :
  run_call Value unpack_str list_content get_type shlex_split c b = Ok b' → builder_wf b → builder_wf b'.
Proof.
  intros Hc Hwf w r. destruct c as [pattern d ms nms j loc|h proto d j|name paths]; cbn [run_call] in Hc.
  - apply prefix_rule_Ok in Hc as (tokens & dec & ms' & nms' & _ & _ & _ & _ & ->).
    rewrite foldl_add_rule_rules.
    intros [Hr|[Hr _]%list_elem_of_filter]%elem_of_app; [by apply Hwf|done].
  - unfold network_rule in Hc.
    apply bind_Ok_inv in Hc as (? & _ & (? & _ & (? & _ & (? & _ & [= <-])%bind_Ok_inv)%bind_Ok_inv)%bind_Ok_inv).
    apply Hwf.
  - unfold host_executable_builtin in Hc. apply bind_Ok_inv in Hc as (? & _ & (? & _ & [= <-])%bind_Ok_inv).
    apply Hwf.
Qed.

Lemma run_calls_wf calls b :
  builder_wf b →
  builder_wf (run_calls Value unpack_str list_content get_type shlex_split starlark_error calls b).1.
Proof.
  revert b. induction calls as [|c calls IH]; intros b Hwf; cbn [run_calls]; [done|].
  destruct (run_call _ _ _ _ _ c b) as [b'|e| |] eqn:E; try done.
  apply IH. by eapply run_call_wf.
Qed.

Lemma filed_rules_found b k cmd r m :
  builder_wf b → r ∈ rules_for (build b) k → accepts (pattern r) m → m `prefix_of` cmd →
  exact_rule (build b) cmd r m.
Proof.
  intros Hwf Hr (ws & -> & HF) [t ->]. pose proof (Hwf _ _ Hr) as <-.
  exists (program r), (ws ++ t). split; [done|]. split; [done|]. split; [by exists ws|by exists t].
Qed.

(** Parsing any sequence of rules files, whether they parse or fail,
    leaves every rule filed under the program its pattern starts with, so the
    lookup by the first word of a command misses no rule: a rule anywhere in
    the policy whose pattern matches the start of a command is found. *)
Theorem parse_keeps_rules_filed files b :
  builder_wf b →
  let b' := foldl (λ b f, (run_parse f.1 f.2 b).1) b files in
  builder_wf b' ∧ ∀ k cmd r m, r ∈ rules_for (build b') k → accepts (pattern r) m →
    m `prefix_of` cmd → exact_rule (build b') cmd r m.
Proof.
  intros Hwf0 b'. assert (builder_wf b') as Hb'; [subst b'|by eauto using filed_rules_found].
  revert Hwf0.
  revert b. induction files as [|[ident contents] files IH]; intros b Hwf; [done|].
  simpl. apply IH. unfold parse, eval_module.
  destruct (starlark_run ident contents) as [[calls ending]|e| |]; try done.
  pose proof (run_calls_wf calls b Hwf) as Hc.
  destruct (run_calls _ _ _ _ _ _ calls b) as [b1 [[]|e| |]]; try done.
  by destruct ending.
Qed.
End theorems.

(** * Witnesses *)

(** Values that are strings or lists. *)
Inductive sval : Type := SStr (s : str) | SList (l : list sval).
Definition s_unpack (v : sval) : option str := match v with SStr s => Some s | SList _ => None end.
Definition s_content (v : sval) : option (list sval) := match v with SStr _ => None | SList l => Some l end.
Definition s_type (v : sval) : str := match v with SStr _ => lit "string" | SList _ => lit "list" end.
Definition s_split (s : str) : option (list str) := Some (split_char 32 s).

Definition demo_env : PathEnv := lexical_env (lit "/root") (lit "/work").
(** [prefix_rule(pattern=["git", ["log", "show"]], match=["git log -1"], not_match=["git push"])]. *)
Definition demo_pattern : list sval := [SStr (lit "git"); SList [SStr (lit "log"); SStr (lit "show")]].
Definition demo_call : BuiltinCall sval :=
  CallPrefixRule sval demo_pattern None (Some [SStr (lit "git log -1")])
    (Some [SStr (lit "git push")]) None None.
Definition demo_run (_ _ : str) : outcome str (list (BuiltinCall sval) * option str) :=
  Ok ([demo_call], None).
Definition demo_builder : PolicyBuilder :=
  (@eval_module demo_env sval s_unpack s_content s_type s_split demo_run (λ _, []) [] [] builder_new).1.

Lemma parse_validates_examples_witness :
  ∃ new r, pending_example_validations demo_builder = [] ++ new
    ∧ @parse demo_env (λ _, []) (λ _, []) (λ _, None) sval s_unpack s_content s_type s_split
        demo_run (λ _, []) [] [] builder_new = (demo_builder, r) ∧ returns r
    ∧ (r = Ok tt ↔ ∀ v, v ∈ new → @examples_hold demo_env demo_builder v).
Proof.
  apply (@parse_validates_examples demo_env sval s_unpack s_content s_type s_split
    (λ _, []) (λ _, []) (λ _, None) demo_run (λ _, []) [] [] builder_new demo_builder).
  vm_compute. reflexivity.
Defined.

Example parse_demo :
  (@parse demo_env (λ _, []) (λ _, []) (λ _, None) sval s_unpack s_content s_type s_split
        demo_run (λ _, []) [] [] builder_new).2 = Ok tt.
Proof. vm_compute. reflexivity. Qed.

Lemma prefix_rule_language_witness :
  ∃ tokens dec, parse_pattern sval s_unpack s_content s_type demo_pattern = Ok tokens ∧ tokens ≠ []
    ∧ Ok Allow = Ok dec (E := Error)
    ∧ ∀ cmd m,
      (∀ r, exact_rule (build builder_new) cmd r m → exact_rule (build demo_builder) cmd r m)
      ∧ (∀ r, exact_rule (build demo_builder) cmd r m → exact_rule (build builder_new) cmd r m
              ∨ (rule_decision r = dec ∧ justification r = None
                 ∧ Forall2 (λ t x, x ∈ alternatives t) tokens m ∧ m `prefix_of` cmd))
      ∧ (Forall2 (λ t x, x ∈ alternatives t) tokens m → m `prefix_of` cmd →
         ∃ r, exact_rule (build demo_builder) cmd r m ∧ rule_decision r = dec ∧ justification r = None).
Proof.
  apply (@prefix_rule_language sval s_unpack s_content s_type s_split demo_pattern None
    (Some [SStr (lit "git log -1")]) (Some [SStr (lit "git push")]) None None builder_new demo_builder).
  vm_compute. reflexivity.
Defined.

Lemma parse_keeps_rules_filed_witness :
  let b' := foldl (λ b f, (@parse demo_env (λ _, []) (λ _, []) (λ _, None) sval s_unpack s_content
              s_type s_split demo_run (λ _, []) f.1 f.2 b).1) builder_new [([], [])] in
  builder_wf b' ∧ ∀ k cmd r m, r ∈ rules_for (build b') k → accepts (pattern r) m →
    m `prefix_of` cmd → exact_rule (build b') cmd r m.
Proof.
  apply (@parse_keeps_rules_filed demo_env).
  intros w r Hr. unfold rules_for in Hr. cbn in Hr. rewrite lookup_empty in Hr.
  by apply not_elem_of_nil in Hr.
Defined.
