(* ===== verification/Amend.v ===== *)
(** Appending rules to a policy file: [codex-rs/execpolicy/src/amend.rs]. The
    file operations are the interface [PolicyFiles]; the JSON text of a string
    ([serde_json::to_string]) is a parameter. *)
From stdpp Require Import gmap.
From S2P Require Import Prelude RustStr RustPath FileSystem AbsolutePath ExecPolicy PolicyParser.

(** [std::fs::create_dir] tells an existing directory from other errors. *)
Inductive create_dir_error : Type := AlreadyExists | OtherError (e : io_error).

Class PolicyFiles (FS : Type) : Type := {
  pf_create_dir : str → stm FS create_dir_error unit;
  (** [OpenOptions::new().create(true).read(true).append(true).open(path)]. *)
  pf_open : str → stm FS io_error unit;
  pf_lock : str → stm FS io_error unit;
  pf_seek_start : str → stm FS io_error unit;
  pf_read_to_string : str → stm FS io_error str;
  pf_write_all : str → str → stm FS io_error unit }.

(** What the code relies on: opening creates an empty file or keeps the one
    there is, locking, seeking and reading change no contents, and a write to
    a file open for appending goes to its end. *)
Class PolicyFilesLaws (FS : Type) `{PolicyFiles FS} : Type := {
  pf_contents : FS → str → option str;
  pf_create_dir_keeps fs p fs' r :
    pf_create_dir p fs = (fs', r) → ∀ q, pf_contents fs' q = pf_contents fs q;
  pf_open_contents fs p fs' :
    pf_open p fs = (fs', Ok tt) → pf_contents fs' p = Some (default [] (pf_contents fs p));
  pf_lock_contents fs p fs' :
    pf_lock p fs = (fs', Ok tt) → pf_contents fs' p = pf_contents fs p;
  pf_seek_contents fs p fs' :
    pf_seek_start p fs = (fs', Ok tt) → pf_contents fs' p = pf_contents fs p;
  pf_read_contents fs p fs' c :
    pf_read_to_string p fs = (fs', Ok c) →
    pf_contents fs' p = pf_contents fs p ∧ pf_contents fs p = Some c;
  pf_write_contents fs p fs' t c :
    pf_write_all p t fs = (fs', Ok tt) → pf_contents fs p = Some c →
    pf_contents fs' p = Some (c ++ t) }.

Inductive AmendError : Type :=
| EmptyPrefix
| InvalidNetworkRule (message : str)
| MissingParent (path : str)
| CreatePolicyDir (dir : str) (source : io_error)
| SerializePrefix (source : str)
| SerializeNetworkRule (source : str)
| OpenPolicyFile (path : str) (source : io_error)
| WritePolicyFile (path : str) (source : io_error)
| LockPolicyFile (path : str) (source : io_error)
| SeekPolicyFile (path : str) (source : io_error)
| ReadPolicyFile (path : str) (source : io_error).

Definition decision_string (d : Decision) : str :=
  match d with Allow => lit "allow" | Prompt => lit "prompt" | Forbidden => lit "deny" end.

Section amend.
Context {FS : Type} `{PolicyFiles FS}.

Definition append_locked_line (policy_path line : str) : stm FS AmendError unit :=
  stm_map_err (OpenPolicyFile policy_path) (pf_open policy_path);;
  stm_map_err (LockPolicyFile policy_path) (pf_lock policy_path);;
  stm_map_err (SeekPolicyFile policy_path) (pf_seek_start policy_path);;
  contents ← stm_map_err (ReadPolicyFile policy_path) (pf_read_to_string policy_path);
  if existsb (λ existing, bool_decide (existing = line)) (lines contents) then mret tt
  else
    (if negb (bool_decide (contents = [])) && negb (ends_with [nl] contents)
     then stm_map_err (WritePolicyFile policy_path) (pf_write_all policy_path [nl])
     else mret tt);;
    stm_map_err (WritePolicyFile policy_path) (pf_write_all policy_path (line ++ [nl])).

Definition append_rule_line (policy_path rule : str) : stm FS AmendError unit :=
  match parent policy_path with
  | None => stm_lift (Err (MissingParent policy_path))
  | Some dir => fun fs =>
      match pf_create_dir dir fs with
      | (fs', Ok _) | (fs', Err AlreadyExists) => append_locked_line policy_path rule fs'
      | (fs', Err (OtherError source)) => (fs', Err (CreatePolicyDir dir source))
      | (fs', Panic) => (fs', Panic)
      | (fs', OutOfFuel) => (fs', OutOfFuel)
      end
  end.

Variable to_json : str → outcome str str.
(** [{:?}] of a list of strings. *)
Variable debug_strings : list str → str.

(** The [Display] text of a policy error. *)
Definition error_to_string (e : Error) : str :=
  match e with
  | InvalidDecision raw => lit "invalid decision: " ++ raw
  | InvalidPattern m => lit "invalid pattern element: " ++ m
  | InvalidExample m => lit "invalid example: " ++ m
  | InvalidRule m => lit "invalid rule: " ++ m
  | ExampleDidNotMatch rules examples _ =>
      lit "expected every example to match at least one rule. rules: " ++ debug_strings rules
        ++ lit "; unmatched examples: " ++ debug_strings examples
  | ExampleDidMatch rule example _ =>
      lit "expected example to not match rule `" ++ rule ++ lit "`: " ++ example
  | Starlark m => lit "starlark error: " ++ m
  end.

Definition prefix_rule_line (tokens : list str) : str :=
  lit "prefix_rule(pattern=[" ++ join (lit ", ") tokens ++ lit "], decision=" ++ [34%N]
    ++ lit "allow" ++ [34%N] ++ lit ")".

Definition blocking_append_allow_prefix_rule (policy_path : str) (prefix : list str)
    : stm FS AmendError unit :=
  if decide (prefix = []) then stm_lift (Err EmptyPrefix)
  else
    tokens ← stm_lift (map_err SerializePrefix (mapM to_json prefix));
    append_rule_line policy_path (prefix_rule_line tokens).

Definition network_rule_line (host protocol decision : str) (justification : option str) : str :=
  lit "network_rule(" ++
  join (lit ", ") ([lit "host=" ++ host; lit "protocol=" ++ protocol; lit "decision=" ++ decision]
    ++ match justification with Some j => [lit "justification=" ++ j] | None => [] end)
  ++ lit ")".

Definition blocking_append_network_rule (policy_path host : str) (protocol : NetworkRuleProtocol)
    (decision : Decision) (justification : option str) : stm FS AmendError unit :=
  host ← stm_lift (map_err (λ e, InvalidNetworkRule (error_to_string e))
           (normalize_network_rule_host host));
  if blank_justification justification
  then stm_lift (Err (InvalidNetworkRule (lit "justification cannot be empty")))
  else
    host ← stm_lift (map_err SerializeNetworkRule (to_json host));
    protocol ← stm_lift (map_err SerializeNetworkRule (to_json (as_policy_string protocol)));
    decision ← stm_lift (map_err SerializeNetworkRule (to_json (decision_string decision)));
    justification ← match justification with
                    | Some j => j ← stm_lift (map_err SerializeNetworkRule (to_json j)); mret (Some j)
                    | None => mret None
                    end;
    append_rule_line policy_path (network_rule_line host protocol decision justification).

End amend.

(** * The line in the file *)

(** What [append_locked_line] makes of the contents. *)
Definition add_line (contents line : str) : str :=
  if decide (line ∈ lines contents) then contents
  else contents ++ (if decide (contents = [] ∨ last contents = Some nl) then [] else [nl])
       ++ line ++ [nl].

Lemma split_char_app_sep c a t : split_char c (a ++ c :: t) = split_char c a ++ split_char c t.
Proof.
  induction a as [|x a IH]; simpl; [by rewrite N.eqb_refl|].
  rewrite IH. destruct (x =? c)%N; [done|].
  destruct (split_char c a) as [|p ps] eqn:E; [by apply split_char_not_nil in E|done].
Qed.

(** The last piece of a string. *)
Lemma split_char_last c s :
  ∃ ps p, split_char c s = ps ++ [p] ∧ (c ∉ p) ∧ ((ps = [] ∧ s = p) ∨ ∃ a, s = a ++ c :: p).
Proof.
  destruct (decide (c ∈ s)) as [(a & p & -> & Hp)%list_elem_of_split_r|Hn].
  - exists (split_char c a), p. rewrite split_char_app_sep, (split_char_single c p) by done. eauto.
  - exists [], s. rewrite split_char_single by done. auto.
Qed.

Lemma lines_of_pieces_snoc ps p :
  lines_of_pieces (ps ++ [p]) = (strip_cr <$> ps) ++ (if decide (p = []) then [] else [p]).
Proof.
  induction ps as [|q ps IH]; [done|]. rewrite fmap_cons.
  change ((q :: ps) ++ [p]) with (q :: (ps ++ [p])). change ((strip_cr q :: (strip_cr <$> ps)) ++ ?x)
    with (strip_cr q :: ((strip_cr <$> ps) ++ x)). rewrite <-IH.
  by destruct ps.
Qed.

Lemma lines_app_nl s line :
  plain_line line →
  lines (s ++ nl :: line ++ [nl]) = (strip_cr <$> split_char nl s) ++ [line].
Proof.
  intros [Hl Hc]. unfold lines. rewrite split_char_app_sep, split_char_app by done.
  change (split_char nl []) with [[] : str]. rewrite (app_assoc _ [line] [[]]), lines_of_pieces_snoc.
  rewrite decide_True by done. rewrite app_nil_r, fmap_app. simpl. by rewrite strip_cr_id.
Qed.

(** Adding a line to a file that does not end in a bare carriage return keeps
    its lines and adds the line at the end, unless it is there. *)
Lemma lines_add_line contents line :
  plain_line line → last contents ≠ Some cr →
  lines (add_line contents line) =
  if decide (line ∈ lines contents) then lines contents else lines contents ++ [line].
Proof.
  intros Hl Hcr. unfold add_line. case_decide as Hin; [done|].
  destruct (split_char_last nl contents) as (ps & p & Hs & Hp & Hcase).
  case_decide as Hend; [simpl|].
  - assert (contents = [] ∨ ∃ a, contents = a ++ [nl]) as [->|[a ->]].
    { destruct Hend as [->|[a ->]%last_Some]; eauto. }
    + unfold lines. simpl. rewrite split_char_app by apply Hl. simpl. by rewrite strip_cr_id by apply Hl.
    + rewrite <-app_assoc. change ([nl] ++ line ++ [nl]) with (nl :: line ++ [nl]).
      rewrite lines_app_nl by done. f_equal. unfold lines.
      rewrite split_char_app_sep. change (split_char nl []) with [[] : str].
      rewrite lines_of_pieces_snoc, decide_True by done. by rewrite app_nil_r.
  - change ([nl] ++ line ++ [nl]) with (nl :: line ++ [nl]). rewrite lines_app_nl by done. f_equal.
    unfold lines. rewrite Hs, lines_of_pieces_snoc, fmap_app. f_equal.
    assert (p ≠ [] ∧ last p = last contents) as [Hne Hlast].
    { destruct Hcase as [[_ ->]|[a ->]]; [by split; [intros ->; auto|]|].
      destruct p as [|x p]; [destruct Hend; right; by rewrite last_snoc|].
      split; [done|]. by rewrite last_app_cons, last_cons_cons. }
    rewrite decide_False by done. simpl. by rewrite strip_cr_id by congruence.
Qed.

Lemma add_line_idempotent contents line :
  plain_line line → last contents ≠ Some cr →
  add_line (add_line contents line) line = add_line contents line.
Proof.
  intros Hl Hcr. unfold add_line at 1. rewrite lines_add_line by done.
  rewrite decide_True; [done|]. case_decide; [done|].
  apply elem_of_app. right. apply list_elem_of_here.
Qed.

Section amend_theorems.
Context {FS : Type} `{PolicyFilesLaws FS}.

Lemma ends_with_nl c : ends_with [nl] c = bool_decide (last c = Some nl).
Proof.
  apply eq_true_iff_eq. rewrite ends_with_spec, bool_decide_eq_true, last_Some. done.
Qed.

Lemma append_locked_line_contents p line fs fs' :
  append_locked_line p line fs = (fs', Ok tt) →
  pf_contents fs' p = Some (add_line (default [] (pf_contents fs p)) line).
Proof.
  unfold append_locked_line.
  intros (fs1 & [] & H1%stm_map_err_Ok & (fs2 & [] & H2%stm_map_err_Ok & (fs3 & [] & H3%stm_map_err_Ok &
    (fs4 & c & [H4 Hc]%stm_map_err_Ok%pf_read_contents & Hw)%stm_bind_Ok)%stm_bind_Ok)%stm_bind_Ok)%stm_bind_Ok.
  apply pf_open_contents in H1. apply pf_lock_contents in H2. apply pf_seek_contents in H3.
  assert (default [] (pf_contents fs p) = c) as -> by congruence. rewrite Hc in H4.
  unfold add_line. destruct (existsb _ _) eqn:Ee.
  - injection Hw as <-. apply existsb_exists in Ee as (x & Hx%list_elem_of_In & ->%bool_decide_eq_true).
    by rewrite decide_True.
  - rewrite decide_False.
    2:{ intros Hin%list_elem_of_In. apply not_true_iff_false in Ee. destruct Ee. apply existsb_exists.
        exists line. by rewrite bool_decide_eq_true. }
    rewrite ends_with_nl in Hw. apply stm_bind_Ok in Hw as (fs5 & [] & H5 & H6%stm_map_err_Ok).
    assert (pf_contents fs5 p = Some (c ++ (if decide (c = [] ∨ last c = Some nl) then [] else [nl]))) as H5'.
    { destruct (decide (c = [] ∨ last c = Some nl)) as [Hd|Hd].
      - rewrite app_nil_r. replace (_ && _) with false in H5; [by injection H5 as <-|].
        symmetry. apply andb_false_iff. rewrite !negb_false_iff, !bool_decide_eq_true. done.
      - replace (_ && _) with true in H5; [by eapply pf_write_contents; [apply stm_map_err_Ok in H5|]|].
        symmetry. apply andb_true_iff. rewrite !negb_true_iff, !bool_decide_eq_false. tauto. }
    rewrite (pf_write_contents _ _ _ _ _ H6 H5'). by rewrite <-app_assoc.
Qed.

Lemma append_rule_line_contents p line fs fs' :
  append_rule_line p line fs = (fs', Ok tt) →
  pf_contents fs' p = Some (add_line (default [] (pf_contents fs p)) line).
Proof.
  unfold append_rule_line. destruct (parent p) as [dir|]; [|done].
  destruct (pf_create_dir dir fs) as [fs1 r] eqn:E.
  assert (pf_contents fs1 p = pf_contents fs p) as <- by (by eapply pf_create_dir_keeps).
  destruct r as [[]|[|e]| |]; try done; apply append_locked_line_contents.
Qed.

Context (to_json : str → outcome str str).
(** JSON text of a string escapes line feeds. *)
Hypothesis json_one_line : ∀ s t, to_json s = Ok t → nl ∉ t.

Lemma join_no_nl sep l : nl ∉ sep → Forall (λ t, nl ∉ t) l → nl ∉ join sep l.
Proof.
  intros Hs. induction l as [|x l IH]; intros HF; [apply not_elem_of_nil|].
  apply Forall_cons in HF as [Hx HF]. destruct l as [|y l]; [done|]. rewrite join_cons by done.
  rewrite !elem_of_app. specialize (IH HF). tauto.
Qed.

Lemma no_nl_lit s : bool_decide (nl ∉ lit s) = true → nl ∉ lit s.
Proof. by intros ?%bool_decide_eq_true. Qed.

Lemma prefix_rule_line_plain tokens :
  Forall (λ t, nl ∉ t) tokens → plain_line (prefix_rule_line tokens).
Proof.
  intros HF. unfold prefix_rule_line. rewrite !app_assoc. split.
  - rewrite !elem_of_app. intros Hin. destruct_or!; try (by revert Hin; apply no_nl_lit; vm_compute).
    + revert Hin. apply join_no_nl; [by apply no_nl_lit; vm_compute|done].
    + by apply list_elem_of_singleton in Hin.
    + by apply list_elem_of_singleton in Hin.
  - change (lit ")") with [41%N]. by rewrite last_snoc.
Qed.

Lemma mapM_json_one_line prefix tokens :
  mapM to_json prefix = Ok tokens → Forall (λ t, nl ∉ t) tokens.
Proof.
  revert tokens. induction prefix as [|x prefix IH]; intros tokens; [by intros [= <-]; constructor|].
  cbn [mapM]. intros (t & Ht & (ts & Hts & [= <-])%bind_Ok_inv)%bind_Ok_inv.
  constructor; [by eapply json_one_line|by apply IH].
Qed.

(** A successful append of an allow rule makes the file contain the rule
    as its last line, after the lines it had, or leaves the file as it was
    when the line is already there; appending the same prefix again changes
    nothing. (The file must not end in a bare carriage return.) *)
Theorem append_allow_prefix_rule_spec p prefix fs fs' :
  last (default [] (pf_contents fs p)) ≠ Some cr →
  blocking_append_allow_prefix_rule to_json p prefix fs = (fs', Ok tt) →
  ∃ tokens contents, mapM to_json prefix = Ok tokens ∧ prefix ≠ []
    ∧ pf_contents fs' p = Some contents
    ∧ lines contents =
        (let old := lines (default [] (pf_contents fs p)) in
         if decide (prefix_rule_line tokens ∈ old) then old else old ++ [prefix_rule_line tokens])
    ∧ ∀ fs'', blocking_append_allow_prefix_rule to_json p prefix fs' = (fs'', Ok tt) →
              pf_contents fs'' p = Some contents.
Proof.
  intros Hcr Hok. unfold blocking_append_allow_prefix_rule in *.
  case_decide as Hne; [done|].
  apply stm_bind_Ok in Hok as (fs1 & tokens & Ht & Ha).
  unfold stm_lift in Ht. injection Ht as <- Ht. apply map_err_Ok in Ht.
  apply append_rule_line_contents in Ha.
  pose proof (prefix_rule_line_plain tokens (mapM_json_one_line _ _ Ht)) as Hplain.
  exists tokens. eexists. split; [done|]. split; [done|]. split; [done|].
  split; [by apply lines_add_line|].
  intros fs'' (fs2 & tokens' & Ht' & Ha')%stm_bind_Ok.
  unfold stm_lift in Ht'. injection Ht' as <- Ht'. rewrite Ht in Ht'. injection Ht' as <-.
  apply append_rule_line_contents in Ha'. rewrite Ha' , Ha. simpl. by rewrite add_line_idempotent.
Qed.

End amend_theorems.

(** * Reading back what was written *)

Lemma protocol_roundtrip proto : NetworkRuleProtocol_parse (as_policy_string proto) = Ok proto.
Proof. by destruct proto; vm_compute. Qed.
Lemma decision_roundtrip d : parse_network_rule_decision (decision_string d) = Ok d.
Proof. by destruct d; vm_compute. Qed.

(** A network rule accepted in memory is the rule the parser builds from
    the fields that are written to the file (the normalised host, the protocol
    and decision names, the justification), provided normalising the host
    again keeps it. *)
Theorem network_rule_reload p b raw proto d j p' :
  network_rules p = b_network_rules b →
  add_network_rule p raw proto d j = Ok p' →
  ∃ h, normalize_network_rule_host raw = Ok h ∧
    (normalize_network_rule_host h = Ok h →
     ∃ b', network_rule h (as_policy_string proto) (decision_string d) j b = Ok b'
           ∧ b_network_rules b' = network_rules p').
Proof.
  intros Hb (h & Hn & Ha)%bind_Ok_inv. exists h. split; [done|]. intros Hh.
  unfold network_rule. rewrite protocol_roundtrip, decision_roundtrip. run_bind.
  assert (parse_justification j = Ok j) as ->.
  { unfold parse_justification, blank_justification in *. destruct j as [raw'|]; [|done].
    case_decide as E; [|done]. by rewrite bool_decide_true in Ha. }
  run_bind. rewrite Hh. eexists. split; [reflexivity|].
  destruct (blank_justification j); [done|]. injection Ha as <-. simpl. by rewrite Hb.
Qed.

(** A host whose rule in memory and rule after a restart differ. *)
Example network_rule_reload_differs :
  ∃ p b, add_network_rule policy_empty (lit "[Host:80]") Https Allow None = Ok p
    ∧ network_rule (lit "host:80") (lit "https") (lit "allow") None builder_new = Ok b
    ∧ (host <$> network_rules p) = [lit "host:80"]
    ∧ (host <$> b_network_rules b) = [lit "host"].
Proof. do 2 eexists. split; [vm_compute; reflexivity|]. split; [vm_compute; reflexivity|]. done. Qed.

(** * An in-memory instance and witnesses *)

Record pol_fs : Type := PolFs { pol_files : gmap str str }.
#[export] Instance pol_files_ops : PolicyFiles pol_fs := {|
  pf_create_dir _ fs := (fs, Err AlreadyExists);
  pf_open p fs := (PolFs (<[p := default [] (pol_files fs !! p)]> (pol_files fs)), Ok tt);
  pf_lock _ fs := (fs, Ok tt);
  pf_seek_start _ fs := (fs, Ok tt);
  pf_read_to_string p fs :=
    match pol_files fs !! p with Some c => (fs, Ok c) | None => (fs, Err (lit "not found")) end;
  pf_write_all p t fs :=
    match pol_files fs !! p with
    | Some c => (PolFs (<[p := c ++ t]> (pol_files fs)), Ok tt)
    | None => (fs, Err (lit "not found"))
    end |}.
#[export] Instance pol_files_laws : PolicyFilesLaws pol_fs.
Proof.
  refine {| pf_contents fs p := pol_files fs !! p |}; cbn.
  - by intros fs p fs' r [= <- <-].
  - intros fs p fs' [= <-]. cbn. by rewrite lookup_insert_eq.
  - by intros fs p fs' [= <-].
  - by intros fs p fs' [= <-].
  - intros fs p fs' c. destruct (pol_files fs !! p) eqn:E; [|done]. by intros [= <- <-].
  - intros fs p fs' t c. destruct (pol_files fs !! p) eqn:E; [|done].
    intros [= <-] [= <-]. cbn. by rewrite lookup_insert_eq.
Defined.

(** A quoting function without line feeds. *)
Definition quote_plain (s : str) : outcome str str :=
  Ok ([34%N] ++ filter (λ c, c ≠ nl) s ++ [34%N]).

Definition rules_path : str := lit "/h/rules/default.rules".
Definition rules_fs : pol_fs := PolFs {[ rules_path := lit "# rules" ]}.

Lemma append_allow_prefix_rule_spec_witness :
  ∃ tokens contents, mapM quote_plain [lit "ls"] = Ok tokens ∧ [lit "ls"] ≠ []
    ∧ pf_contents (blocking_append_allow_prefix_rule quote_plain rules_path [lit "ls"] rules_fs).1
        rules_path = Some contents
    ∧ lines contents =
        (let old := lines (default [] (pf_contents rules_fs rules_path)) in
         if decide (prefix_rule_line tokens ∈ old) then old else old ++ [prefix_rule_line tokens])
    ∧ ∀ fs'', blocking_append_allow_prefix_rule quote_plain rules_path [lit "ls"]
          (blocking_append_allow_prefix_rule quote_plain rules_path [lit "ls"] rules_fs).1 = (fs'', Ok tt) →
        pf_contents fs'' rules_path = Some contents.
Proof.
  apply (append_allow_prefix_rule_spec quote_plain).
  - intros s t [= <-]. rewrite elem_of_cons, elem_of_app, list_elem_of_singleton, list_elem_of_filter.
    intros [?|[[? _]|?]]; done.
  - vm_compute. discriminate.
  - vm_compute. reflexivity.
Defined.

Lemma network_rule_reload_witness :
  ∃ h, normalize_network_rule_host (lit "API.example.com:443") = Ok h ∧
    (normalize_network_rule_host h = Ok h →
     ∃ b', network_rule h (as_policy_string Https) (decision_string Forbidden) None builder_new = Ok b'
           ∧ b_network_rules b' =
             [{| host := lit "api.example.com"; protocol := Https;
                 net_decision := Forbidden; net_justification := None |}]).
Proof.
  apply (network_rule_reload policy_empty builder_new (lit "API.example.com:443") Https Forbidden None
    {| rules_by_program := ∅;
       network_rules := [{| host := lit "api.example.com"; protocol := Https;
                            net_decision := Forbidden; net_justification := None |}];
       host_executables_by_name := ∅ |}).
  - reflexivity.
  - vm_compute. reflexivity.
Defined.
