(* ===== verification/Protocol.v ===== *)
(** Types that several components share: approval and sandbox policies of
    [codex-rs/protocol/src/protocol.rs], [models.rs] and the file-system
    policy of [permissions.rs]. *)
From S2P Require Import Prelude RustStr.

Record GranularApprovalConfig : Type := {
  sandbox_approval : bool;
  rules : bool;
  skill_approval : bool;
  request_permissions : bool;
  mcp_elicitations : bool }.
Definition allows_sandbox_approval (c : GranularApprovalConfig) : bool := sandbox_approval c.
Definition allows_rules_approval (c : GranularApprovalConfig) : bool := rules c.

Inductive AskForApproval : Type :=
| UnlessTrusted | OnFailure | OnRequest | Granular (config : GranularApprovalConfig) | Never.

Inductive NetworkAccess : Type := NetworkRestricted | NetworkEnabled.

Inductive ReadOnlyAccess : Type :=
| RestrictedAccess (include_platform_defaults : bool) (readable_roots : list str)
| FullAccess.

Inductive SandboxPolicy : Type :=
| DangerFullAccess
| ReadOnly (access : ReadOnlyAccess) (network_access : bool)
| ExternalSandbox (network_access : NetworkAccess)
| WorkspaceWrite (writable_roots : list str) (read_only_access : ReadOnlyAccess)
    (network_access exclude_tmpdir_env_var exclude_slash_tmp : bool).

Inductive SandboxPermissions : Type := UseDefault | RequireEscalated | WithAdditionalPermissions.
Definition requests_sandbox_override (p : SandboxPermissions) : bool :=
  match p with UseDefault => false | _ => true end.

(** * File-system policies *)

Inductive FileSystemAccessMode : Type := Read | Write | NoAccess.
#[export] Instance FileSystemAccessMode_eq_dec : EqDecision FileSystemAccessMode.
Proof. solve_decision. Defined.
(** The derived order: [none] beats [write], [write] beats [read]. *)
Definition access_rank (a : FileSystemAccessMode) : nat :=
  match a with Read => 0 | Write => 1 | NoAccess => 2 end.
Definition can_read (a : FileSystemAccessMode) : bool := match a with NoAccess => false | _ => true end.
Definition can_write (a : FileSystemAccessMode) : bool := match a with Write => true | _ => false end.

Inductive FileSystemSpecialPath : Type :=
| Root | Minimal | CurrentWorkingDirectory | ProjectRoots (subpath : option str) | Tmpdir | SlashTmp
| Unknown (path : str) (subpath : option str).
#[export] Instance FileSystemSpecialPath_eq_dec : EqDecision FileSystemSpecialPath.
Proof. solve_decision. Defined.

Inductive FileSystemPath : Type :=
| FsPath (path : str)
| FsSpecial (value : FileSystemSpecialPath).

Record FileSystemSandboxEntry : Type := { path : FileSystemPath; access : FileSystemAccessMode }.

Inductive FileSystemSandboxKind : Type := FsRestricted | FsUnrestricted | FsExternalSandbox.
#[export] Instance FileSystemSandboxKind_eq_dec : EqDecision FileSystemSandboxKind.
Proof. solve_decision. Defined.

Record FileSystemSandboxPolicy : Type := {
  fs_kind : FileSystemSandboxKind;
  entries : list FileSystemSandboxEntry }.
