(* ===== verification/Permissions.v ===== *)
(** File-system permissions: [codex-rs/protocol/src/permissions.rs], with the
    legacy sandbox policies of [codex-rs/protocol/src/protocol.rs] it converts
    from and to. What the code asks the operating system (variables, kinds of
    files, canonical paths, contents) is the interface [PermEnv], answered at
    one moment; a path of type [AbsolutePathBuf] is a string. *)
From S2P Require Import Prelude RustStr RustPath FileSystem AbsolutePath Protocol.

Class PermEnv : Type := {
  perm_path_env :: PathEnv;
  env_tmpdir : option str;
  is_dir : str → bool;
  is_file : str → bool;
  path_exists : str → bool;
  canonicalize : str → option str;
  read_to_string : str → option str }.

(** [result.ok()] and [result.expect(..)]. *)
Definition ok {E A} (m : outcome E A) : option A := match m with Ok a => Some a | _ => None end.
Definition expect {E A} (m : outcome E A) : outcome Empty_set A := match m with Ok a => Ok a | _ => Panic end.
(** [iter.filter(..)] with a test that can panic. *)
Fixpoint filterM {A} (p : A → outcome Empty_set bool) (l : list A) : outcome Empty_set (list A) :=
  match l with
  | [] => Ok []
  | a :: l' => b ← p a; rest ← filterM p l'; Ok (if b : bool then a :: rest else rest)
  end.

Inductive NetworkSandboxPolicy : Type := NetRestricted | NetEnabled.
Definition is_enabled (n : NetworkSandboxPolicy) : bool := match n with NetEnabled => true | NetRestricted => false end.

Record ResolvedFileSystemEntry : Type := { resolved_path : str; resolved_access : FileSystemAccessMode }.
Record WritableRoot : Type := { root : str; read_only_subpaths : list str }.
Definition is_path_writable (r : WritableRoot) (p : str) : bool :=
  path_starts_with (root r) p && negb (existsb (λ subpath, path_starts_with subpath p) (read_only_subpaths r)).

Definition default_policy : FileSystemSandboxPolicy :=
  {| fs_kind := FsRestricted; entries := [{| path := FsSpecial Root; access := Read |}] |}.
Definition unrestricted : FileSystemSandboxPolicy := {| fs_kind := FsUnrestricted; entries := [] |}.
Definition external_sandbox : FileSystemSandboxPolicy := {| fs_kind := FsExternalSandbox; entries := [] |}.
Definition restricted (l : list FileSystemSandboxEntry) : FileSystemSandboxPolicy :=
  {| fs_kind := FsRestricted; entries := l |}.
Definition is_restricted (p : FileSystemSandboxPolicy) : bool := bool_decide (fs_kind p = FsRestricted).

(** * What a policy grants as a whole *)

Definition has_root_access (p : FileSystemSandboxPolicy) (predicate : FileSystemAccessMode → bool) : bool :=
  is_restricted p
  && existsb (λ e, match path e with FsSpecial Root => predicate (access e) | _ => false end) (entries p).
Definition has_explicit_deny_entries (p : FileSystemSandboxPolicy) : bool :=
  is_restricted p && existsb (λ e, bool_decide (access e = NoAccess)) (entries p).

Definition special_paths_share_target (left right : FileSystemSpecialPath) : bool :=
  match left, right with
  | Root, Root | Minimal, Minimal | CurrentWorkingDirectory, CurrentWorkingDirectory
  | Tmpdir, Tmpdir | SlashTmp, SlashTmp => true
  | CurrentWorkingDirectory, ProjectRoots None | ProjectRoots None, CurrentWorkingDirectory => true
  | ProjectRoots None, ProjectRoots None => true
  | ProjectRoots (Some l), ProjectRoots (Some r) => bool_decide (path_eq l r)
  | Unknown p s, Unknown p' s' =>
      bool_decide (p = p')
      && match s, s' with Some l, Some r => bool_decide (path_eq l r) | None, None => true | _, _ => false end
  | _, _ => false
  end.
Definition special_path_matches_absolute_path (value : FileSystemSpecialPath) (p : str) : bool :=
  match value with
  | Root => match parent p with None => true | Some _ => false end
  | SlashTmp => bool_decide (path_eq p (lit "/tmp"))
  | _ => false
  end.
Definition file_system_paths_share_target (left right : FileSystemPath) : bool :=
  match left, right with
  | FsPath l, FsPath r => bool_decide (path_eq l r)
  | FsSpecial l, FsSpecial r => special_paths_share_target l r
  | FsPath p, FsSpecial value | FsSpecial value, FsPath p => special_path_matches_absolute_path value p
  end.
Definition has_same_target_write_override (p : FileSystemSandboxPolicy) (e : FileSystemSandboxEntry) : bool :=
  existsb (λ candidate, can_write (access candidate) && (access_rank (access e) <? access_rank (access candidate))
                        && file_system_paths_share_target (path candidate) (path e)) (entries p).
Definition narrows (p : FileSystemSandboxPolicy) (e : FileSystemSandboxEntry) : bool :=
  if can_write (access e) then false
  else match path e with
       | FsPath _ => negb (has_same_target_write_override p e)
       | FsSpecial Root => bool_decide (access e = NoAccess)
       | FsSpecial (Minimal | Unknown _ _) => false
       | FsSpecial _ => negb (has_same_target_write_override p e)
       end.
Definition has_write_narrowing_entries (p : FileSystemSandboxPolicy) : bool :=
  is_restricted p && existsb (narrows p) (entries p).

Definition has_full_disk_read_access (p : FileSystemSandboxPolicy) : bool :=
  match fs_kind p with
  | FsUnrestricted | FsExternalSandbox => true
  | FsRestricted => has_root_access p can_read && negb (has_explicit_deny_entries p)
  end.
Definition has_full_disk_write_access (p : FileSystemSandboxPolicy) : bool :=
  match fs_kind p with
  | FsUnrestricted | FsExternalSandbox => true
  | FsRestricted => has_root_access p can_write && negb (has_write_narrowing_entries p)
  end.
Definition include_platform_defaults (p : FileSystemSandboxPolicy) : bool :=
  negb (has_full_disk_read_access p) && is_restricted p
  && existsb (λ e, match path e with FsSpecial Minimal => can_read (access e) | _ => false end) (entries p).

(** * Resolution *)

Section permissions.
Context `{PermEnv}.

Definition absolute_root_path_for_cwd (cwd : str) : outcome Empty_set str :=
  match last (ancestors cwd) with
  | None => Panic
  | Some r => expect (from_absolute_path r)
  end.
Definition resolve_file_system_special_path (value : FileSystemSpecialPath) (cwd : option str)
    : outcome Empty_set (option str) :=
  match value with
  | Root | Minimal | Unknown _ _ => Ok None
  | CurrentWorkingDirectory => Ok cwd
  | ProjectRoots subpath =>
      Ok (cwd ← cwd;
          match subpath with
          | Some subpath => ok (resolve_path_against_base subpath cwd)
          | None => Some cwd
          end)
  | Tmpdir => Ok (tmpdir ← env_tmpdir; if decide (tmpdir = []) then None else ok (from_absolute_path tmpdir))
  | SlashTmp =>
      slash_tmp ← expect (from_absolute_path (lit "/tmp"));
      Ok (if is_dir slash_tmp then Some slash_tmp else None)
  end.
Definition resolve_file_system_path (p : FileSystemPath) (cwd : option str) : outcome Empty_set (option str) :=
  match p with FsPath p => Ok (Some p) | FsSpecial value => resolve_file_system_special_path value cwd end.
Definition resolve_entry_path (p : FileSystemPath) (cwd : option str) : outcome Empty_set (option str) :=
  match p with
  | FsSpecial Root =>
      match cwd with Some cwd => r ← absolute_root_path_for_cwd cwd; Ok (Some r) | None => Ok None end
  | _ => resolve_file_system_path p cwd
  end.
Definition resolve_candidate_path (p cwd : str) : option str :=
  if is_absolute p then ok (from_absolute_path p) else ok (resolve_path_against_base p cwd).
Fixpoint resolve_entries (l : list FileSystemSandboxEntry) (cwd : option str)
    : outcome Empty_set (list ResolvedFileSystemEntry) :=
  match l with
  | [] => Ok []
  | e :: l' =>
      p ← resolve_entry_path (path e) cwd;
      rest ← resolve_entries l' cwd;
      Ok (match p with Some p => {| resolved_path := p; resolved_access := access e |} :: rest | None => rest end)
  end.
Definition resolved_entries_with_cwd (p : FileSystemSandboxPolicy) (cwd : str)
    : outcome Empty_set (list ResolvedFileSystemEntry) :=
  resolve_entries (entries p) (ok (from_absolute_path cwd)).

(** [resolved_entry_precedence] and the order of the pairs it returns. *)
Definition resolved_entry_precedence (e : ResolvedFileSystemEntry) : nat * nat :=
  (length (components (resolved_path e)), access_rank (resolved_access e)).
Definition precedence_le (a b : nat * nat) : bool :=
  (a.1 <? b.1) || ((a.1 =? b.1) && (a.2 <=? b.2)).
(** [max_by_key]: the last of the greatest. *)
Fixpoint max_by_precedence (best : option ResolvedFileSystemEntry) (l : list ResolvedFileSystemEntry)
    : option ResolvedFileSystemEntry :=
  match l with
  | [] => best
  | e :: l' =>
      max_by_precedence
        (match best with
         | Some b => if precedence_le (resolved_entry_precedence b) (resolved_entry_precedence e)
                     then Some e else Some b
         | None => Some e
         end) l'
  end.
Definition resolve_access_with_cwd (p : FileSystemSandboxPolicy) (candidate cwd : str)
    : outcome Empty_set FileSystemAccessMode :=
  match fs_kind p with
  | FsUnrestricted | FsExternalSandbox => Ok Write
  | FsRestricted =>
      match resolve_candidate_path candidate cwd with
      | None => Ok NoAccess
      | Some candidate =>
          l ← resolved_entries_with_cwd p cwd;
          Ok (match max_by_precedence None (filter (λ e, path_starts_with (resolved_path e) candidate = true) l) with
              | Some e => resolved_access e
              | None => NoAccess
              end)
      end
  end.
Definition can_read_path_with_cwd p candidate cwd : outcome Empty_set bool :=
  a ← resolve_access_with_cwd p candidate cwd; Ok (can_read a).
Definition can_write_path_with_cwd p candidate cwd : outcome Empty_set bool :=
  a ← resolve_access_with_cwd p candidate cwd; Ok (can_write a).

(** * Additional roots *)

Definition push_entry (p : FileSystemSandboxPolicy) (e : FileSystemSandboxEntry) : FileSystemSandboxPolicy :=
  {| fs_kind := fs_kind p; entries := entries p ++ [e] |}.
Fixpoint add_roots (granted : FileSystemSandboxPolicy → str → str → outcome Empty_set bool)
    (mode : FileSystemAccessMode) (p : FileSystemSandboxPolicy) (cwd : str) (roots : list str)
    : outcome Empty_set FileSystemSandboxPolicy :=
  match roots with
  | [] => Ok p
  | r :: roots' =>
      g ← granted p r cwd;
      add_roots granted mode
        (if g : bool then p else push_entry p {| path := FsPath r; access := mode |}) cwd roots'
  end.
Definition with_additional_readable_roots (p : FileSystemSandboxPolicy) (cwd : str)
    (additional_readable_roots : list str) : outcome Empty_set FileSystemSandboxPolicy :=
  if has_full_disk_read_access p then Ok p
  else add_roots can_read_path_with_cwd Read p cwd additional_readable_roots.
Definition with_additional_writable_roots (p : FileSystemSandboxPolicy) (cwd : str)
    (additional_writable_roots : list str) : outcome Empty_set FileSystemSandboxPolicy :=
  add_roots can_write_path_with_cwd Write p cwd additional_writable_roots.

(** * Roots *)

(** A path with its longest prefix that exists replaced by its canonical form. *)
Fixpoint normalize_effective_loop (raw_path : str) (ancestors : list str) : str :=
  match ancestors with
  | [] => raw_path
  | ancestor :: rest =>
      match (canonical_ancestor ← canonicalize ancestor;
             suffix ← path_strip_prefix ancestor raw_path;
             ok (from_absolute_path (path_join canonical_ancestor suffix))) with
      | Some normalized_path => normalized_path
      | None => normalize_effective_loop raw_path rest
      end
  end.
Definition normalize_effective_absolute_path (p : str) : str := normalize_effective_loop p (ancestors p).
(** [seen] is keyed by the components of a path. *)
Fixpoint dedup_loop (normalize : str → str) (seen : list str) (paths : list str) : list str :=
  match paths with
  | [] => []
  | p :: paths' =>
      let dedup_path := normalize p in
      if existsb (λ q, bool_decide (path_eq q dedup_path)) seen then dedup_loop normalize seen paths'
      else dedup_path :: dedup_loop normalize (dedup_path :: seen) paths'
  end.
Definition dedup_absolute_paths (paths : list str) (normalize_effective_paths : bool) : list str :=
  dedup_loop (if normalize_effective_paths then normalize_effective_absolute_path else id) [] paths.

Definition is_git_pointer_file (p : str) : bool :=
  is_file p && bool_decide (file_name p = Some (lit ".git")).
Definition resolve_gitdir_from_file (dot_git : str) : option str :=
  contents ← read_to_string dot_git;
  '(_, gitdir_raw) ← split_once 58 (trim contents);
  let gitdir_raw := trim gitdir_raw in
  if decide (gitdir_raw = []) then None
  else
    base ← parent dot_git;
    gitdir_path ← ok (resolve_path_against_base gitdir_raw base);
    if path_exists gitdir_path then Some gitdir_path else None.
Definition default_read_only_subpaths_for_writable_root (writable_root : str) (protect_missing_dot_codex : bool)
    : outcome Empty_set (list str) :=
  top_level_git ← expect (abs_join writable_root (lit ".git"));
  let git_subpaths :=
    if is_dir top_level_git || is_file top_level_git then
      (if is_file top_level_git && is_git_pointer_file top_level_git
       then option_list (resolve_gitdir_from_file top_level_git) else []) ++ [top_level_git]
    else [] in
  top_level_agents ← expect (abs_join writable_root (lit ".agents"));
  let agents_subpaths := if is_dir top_level_agents then [top_level_agents] else [] in
  top_level_codex ← expect (abs_join writable_root (lit ".codex"));
  let codex_subpaths :=
    if protect_missing_dot_codex || is_dir top_level_codex then [top_level_codex] else [] in
  Ok (dedup_absolute_paths (git_subpaths ++ agents_subpaths ++ codex_subpaths) false).

Definition get_readable_roots_with_cwd (p : FileSystemSandboxPolicy) (cwd : str) : outcome Empty_set (list str) :=
  if has_full_disk_read_access p then Ok []
  else
    l ← resolved_entries_with_cwd p cwd;
    l ← filterM (λ e, can_read_path_with_cwd p (resolved_path e) cwd)
          (filter (λ e, can_read (resolved_access e) = true) l);
    Ok (dedup_absolute_paths (resolved_path <$> l) true).
Definition get_unreadable_roots_with_cwd (p : FileSystemSandboxPolicy) (cwd : str) : outcome Empty_set (list str) :=
  if negb (is_restricted p) then Ok []
  else
    root ← match ok (from_absolute_path cwd) with
           | Some cwd => r ← absolute_root_path_for_cwd cwd; Ok (Some r)
           | None => Ok None
           end;
    l ← resolved_entries_with_cwd p cwd;
    l ← filterM (λ e, b ← can_read_path_with_cwd p (resolved_path e) cwd; Ok (negb b))
          (filter (λ e, resolved_access e = NoAccess) l);
    Ok (dedup_absolute_paths
          (resolved_path <$>
             filter (λ e, match root with Some r => bool_decide (path_eq r (resolved_path e)) | None => false end = false) l)
          true).

(** The read-only path an entry carves out of a writable root. *)
Definition raw_carveout (root : str) (raw_writable_roots : list str) (entry_path : str) : option str :=
  if decide (path_eq entry_path root) then None
  else if path_starts_with root entry_path then Some entry_path
  else
    head (omap (λ raw_root,
      suffix ← path_strip_prefix raw_root entry_path;
      if decide (suffix = []) then None else ok (abs_join root suffix)) raw_writable_roots).
Definition carveout (root : str) (raw_writable_roots : list str) (e : ResolvedFileSystemEntry) : option str :=
  let effective_path := normalize_effective_absolute_path (resolved_path e) in
  let preserve_raw_carveout_paths := match parent root with Some _ => true | None => false end in
  match (if preserve_raw_carveout_paths then raw_carveout root raw_writable_roots (resolved_path e) else None) with
  | Some raw_carveout_path => Some raw_carveout_path
  | None =>
      if bool_decide (path_eq effective_path root) || negb (path_starts_with root effective_path) then None
      else Some effective_path
  end.
Definition has_explicit_resolved_path_entry (l : list ResolvedFileSystemEntry) (p : str) : bool :=
  existsb (λ e, bool_decide (path_eq (resolved_path e) p)) l.
Definition writable_root_of (p : FileSystemSandboxPolicy) (cwd : str) (resolved : list ResolvedFileSystemEntry)
    (writable_entries : list str) (root : str) : outcome Empty_set WritableRoot :=
  let raw_writable_roots := filter (λ q, path_eq (normalize_effective_absolute_path q) root) writable_entries in
  let protect_missing_dot_codex :=
    match ok (from_absolute_path cwd) with
    | Some cwd => bool_decide (path_eq (normalize_effective_absolute_path cwd) root)
    | None => false
    end in
  defaults ← default_read_only_subpaths_for_writable_root root protect_missing_dot_codex;
  narrower ← filterM (λ e, b ← can_write_path_with_cwd p (resolved_path e) cwd; Ok (negb b))
               (filter (λ e, can_write (resolved_access e) = false) resolved);
  Ok {| root := root;
        read_only_subpaths :=
          dedup_absolute_paths
            (filter (λ q, has_explicit_resolved_path_entry resolved q = false) defaults
             ++ omap (carveout root raw_writable_roots) narrower) false |}.
Definition get_writable_roots_with_cwd (p : FileSystemSandboxPolicy) (cwd : str)
    : outcome Empty_set (list WritableRoot) :=
  if has_full_disk_write_access p then Ok []
  else
    resolved ← resolved_entries_with_cwd p cwd;
    writable ← filterM (λ e, can_write_path_with_cwd p (resolved_path e) cwd)
                 (filter (λ e, can_write (resolved_access e) = true) resolved);
    let writable_entries := resolved_path <$> writable in
    mapM (writable_root_of p cwd resolved writable_entries) (dedup_absolute_paths writable_entries true).

(** * Legacy sandbox policies *)

(** [From<&SandboxPolicy>]. *)
Definition special_entry (value : FileSystemSpecialPath) (mode : FileSystemAccessMode) : FileSystemSandboxEntry :=
  {| path := FsSpecial value; access := mode |}.
Definition path_entry (mode : FileSystemAccessMode) (p : str) : FileSystemSandboxEntry :=
  {| path := FsPath p; access := mode |}.
Definition entries_of_restricted_access (platform_defaults : bool) (readable_roots : list str)
    : list FileSystemSandboxEntry :=
  (if platform_defaults then [special_entry Minimal Read] else []) ++ (path_entry Read <$> readable_roots).
Definition from_sandbox_policy (policy : SandboxPolicy) : FileSystemSandboxPolicy :=
  match policy with
  | DangerFullAccess => unrestricted
  | ExternalSandbox _ => external_sandbox
  | ReadOnly read_access _ =>
      restricted
        match read_access with
        | FullAccess => [special_entry Root Read]
        | RestrictedAccess platform_defaults readable_roots =>
            special_entry CurrentWorkingDirectory Read
            :: entries_of_restricted_access platform_defaults readable_roots
        end
  | WorkspaceWrite writable_roots read_only_access _ exclude_tmpdir_env_var exclude_slash_tmp =>
      restricted
        (match read_only_access with
         | FullAccess => [special_entry Root Read]
         | RestrictedAccess platform_defaults readable_roots =>
             entries_of_restricted_access platform_defaults readable_roots
         end
         ++ [special_entry CurrentWorkingDirectory Write]
         ++ (if exclude_slash_tmp then [] else [special_entry SlashTmp Write])
         ++ (if exclude_tmpdir_env_var then [] else [special_entry Tmpdir Write])
         ++ (path_entry Write <$> writable_roots))
  end.
Definition has_full_network_access (policy : SandboxPolicy) : bool :=
  match policy with
  | DangerFullAccess => true
  | ExternalSandbox network_access => match network_access with NetworkEnabled => true | NetworkRestricted => false end
  | ReadOnly _ network_access => network_access
  | WorkspaceWrite _ _ network_access _ _ => network_access
  end.
Definition network_of_sandbox_policy (policy : SandboxPolicy) : NetworkSandboxPolicy :=
  if has_full_network_access policy then NetEnabled else NetRestricted.

(** [SandboxPolicy::get_writable_roots_with_cwd], on Unix. *)
Definition legacy_writable_roots (policy : SandboxPolicy) (cwd : str) : outcome Empty_set (list WritableRoot) :=
  match policy with
  | DangerFullAccess | ExternalSandbox _ | ReadOnly _ _ => Ok []
  | WorkspaceWrite writable_roots _ _ exclude_tmpdir_env_var exclude_slash_tmp =>
      slash_tmp ← (if exclude_slash_tmp then Ok []
                   else slash_tmp ← expect (from_absolute_path (lit "/tmp"));
                        Ok (if is_dir slash_tmp then [slash_tmp] else []));
      let tmpdir :=
        if exclude_tmpdir_env_var then []
        else option_list (tmpdir ← env_tmpdir;
                          if decide (tmpdir = []) then None else ok (from_absolute_path tmpdir)) in
      let cwd_root := ok (from_absolute_path cwd) in
      mapM (λ r,
        let protect := match cwd_root with Some c => bool_decide (path_eq c r) | None => false end in
        subpaths ← default_read_only_subpaths_for_writable_root r protect;
        Ok {| root := r; read_only_subpaths := subpaths |})
        (writable_roots ++ option_list cwd_root ++ slash_tmp ++ tmpdir)
  end.

(** [append_default_read_only_path_if_no_explicit_rule], which makes the test
    of [append_path_entry_if_missing] redundant. *)
Definition append_path_entry_if_missing (l : list FileSystemSandboxEntry) (p : str) (mode : FileSystemAccessMode)
    : list FileSystemSandboxEntry :=
  if existsb (λ e, bool_decide (access e = mode)
                   && match path e with FsPath existing => bool_decide (path_eq existing p) | _ => false end) l
  then l else l ++ [path_entry mode p].
Definition append_default_read_only_path_if_no_explicit_rule (l : list FileSystemSandboxEntry) (p : str)
    : list FileSystemSandboxEntry :=
  if existsb (λ e, match path e with FsPath existing => bool_decide (path_eq existing p) | _ => false end) l
  then l else append_path_entry_if_missing l p Read.
Fixpoint protect_roots (l : list FileSystemSandboxEntry) (roots : list str) (protect_missing_dot_codex : bool)
    : outcome Empty_set (list FileSystemSandboxEntry) :=
  match roots with
  | [] => Ok l
  | r :: roots' =>
      protected ← default_read_only_subpaths_for_writable_root r protect_missing_dot_codex;
      protect_roots (foldl append_default_read_only_path_if_no_explicit_rule l protected) roots'
        protect_missing_dot_codex
  end.
Definition from_legacy_sandbox_policy (policy : SandboxPolicy) (cwd : str)
    : outcome Empty_set FileSystemSandboxPolicy :=
  let file_system_policy := from_sandbox_policy policy in
  match policy with
  | WorkspaceWrite writable_roots _ _ _ _ =>
      legacy ← legacy_writable_roots policy cwd;
      let kept := filter (λ e,
        match access e, path e with
        | Read, FsPath p => existsb (λ r, is_path_writable r p) legacy
        | _, _ => false
        end = false) (entries file_system_policy) in
      l ← protect_roots kept (option_list (ok (from_absolute_path cwd))) true;
      l ← protect_roots l writable_roots false;
      Ok {| fs_kind := fs_kind file_system_policy; entries := l |}
  | _ => Ok file_system_policy
  end.

(** The locals of [to_legacy_sandbox_policy]. *)
Record legacy_scan : Type := {
  platform_defaults : bool; full_read : bool; full_write : bool; workspace_root_writable : bool;
  writable_list : list str; readable_list : list str; tmpdir_writable : bool; slash_tmp_writable : bool }.
Definition legacy_start : legacy_scan :=
  {| platform_defaults := false; full_read := false; full_write := false; workspace_root_writable := false;
     writable_list := []; readable_list := []; tmpdir_writable := false; slash_tmp_writable := false |}.
Definition scan_defaults (s : legacy_scan) (b : bool) : legacy_scan :=
  {| platform_defaults := platform_defaults s || b; full_read := full_read s; full_write := full_write s;
     workspace_root_writable := workspace_root_writable s; writable_list := writable_list s;
     readable_list := readable_list s; tmpdir_writable := tmpdir_writable s;
     slash_tmp_writable := slash_tmp_writable s |}.
Definition scan_full (s : legacy_scan) (r w : bool) : legacy_scan :=
  {| platform_defaults := platform_defaults s; full_read := full_read s || r; full_write := full_write s || w;
     workspace_root_writable := workspace_root_writable s; writable_list := writable_list s;
     readable_list := readable_list s; tmpdir_writable := tmpdir_writable s;
     slash_tmp_writable := slash_tmp_writable s |}.
Definition scan_workspace (s : legacy_scan) : legacy_scan :=
  {| platform_defaults := platform_defaults s; full_read := full_read s; full_write := full_write s;
     workspace_root_writable := true; writable_list := writable_list s;
     readable_list := readable_list s; tmpdir_writable := tmpdir_writable s;
     slash_tmp_writable := slash_tmp_writable s |}.
Definition scan_lists (s : legacy_scan) (w r : list str) : legacy_scan :=
  {| platform_defaults := platform_defaults s; full_read := full_read s; full_write := full_write s;
     workspace_root_writable := workspace_root_writable s; writable_list := writable_list s ++ w;
     readable_list := readable_list s ++ r; tmpdir_writable := tmpdir_writable s;
     slash_tmp_writable := slash_tmp_writable s |}.
Definition scan_tmp (s : legacy_scan) (tmpdir slash_tmp : bool) : legacy_scan :=
  {| platform_defaults := platform_defaults s; full_read := full_read s; full_write := full_write s;
     workspace_root_writable := workspace_root_writable s; writable_list := writable_list s;
     readable_list := readable_list s; tmpdir_writable := tmpdir_writable s || tmpdir;
     slash_tmp_writable := slash_tmp_writable s || slash_tmp |}.
(** A special path that can only be read. *)
Definition scan_readable (s : legacy_scan) (mode : FileSystemAccessMode) (value : FileSystemSpecialPath)
    (cwd : option str) : outcome Empty_set legacy_scan :=
  if can_read mode
  then p ← resolve_file_system_special_path value cwd; Ok (scan_lists s [] (option_list p))
  else Ok s.
Definition legacy_step (cwd : option str) (s : legacy_scan) (e : FileSystemSandboxEntry)
    : outcome Empty_set legacy_scan :=
  match path e with
  | FsPath p =>
      Ok (if can_write (access e) then
            if match cwd with Some c => bool_decide (path_eq c p) | None => false end
            then scan_workspace s else scan_lists s [p] []
          else if can_read (access e) then scan_lists s [] [p] else s)
  | FsSpecial value =>
      match value with
      | Root => Ok (match access e with
                    | NoAccess => s
                    | Read => scan_full s true false
                    | Write => scan_full s true true
                    end)
      | Minimal => Ok (scan_defaults s (can_read (access e)))
      | CurrentWorkingDirectory =>
          if can_write (access e) then Ok (scan_workspace s) else scan_readable s (access e) value cwd
      | ProjectRoots subpath =>
          if bool_decide (subpath = None) && can_write (access e) then Ok (scan_workspace s)
          else
            p ← resolve_file_system_special_path value cwd;
            Ok (match p with
                | Some p => if can_write (access e) then scan_lists s [p] []
                            else if can_read (access e) then scan_lists s [] [p] else s
                | None => s
                end)
      | Tmpdir => if can_write (access e) then Ok (scan_tmp s true false) else scan_readable s (access e) value cwd
      | SlashTmp => if can_write (access e) then Ok (scan_tmp s false true) else scan_readable s (access e) value cwd
      | Unknown _ _ => Ok s
      end
  end.
Fixpoint legacy_loop (cwd : option str) (s : legacy_scan) (l : list FileSystemSandboxEntry)
    : outcome Empty_set legacy_scan :=
  match l with
  | [] => Ok s
  | e :: l' => s ← legacy_step cwd s e; legacy_loop cwd s l'
  end.
Definition unsupported_writes : str :=
  lit "permissions profile requests filesystem writes outside the workspace root, which is not supported until the runtime enforces FileSystemSandboxPolicy directly".
Definition unsandboxed (network_policy : NetworkSandboxPolicy) : SandboxPolicy :=
  if is_enabled network_policy then DangerFullAccess else ExternalSandbox NetworkRestricted.
Definition to_legacy_sandbox_policy (p : FileSystemSandboxPolicy) (network_policy : NetworkSandboxPolicy)
    (cwd : str) : outcome io_error SandboxPolicy :=
  match fs_kind p with
  | FsExternalSandbox =>
      Ok (ExternalSandbox (if is_enabled network_policy then NetworkEnabled else NetworkRestricted))
  | FsUnrestricted => Ok (unsandboxed network_policy)
  | FsRestricted =>
      s ← no_err (legacy_loop (ok (from_absolute_path cwd)) legacy_start (entries p));
      if full_write s then Ok (unsandboxed network_policy)
      else
        let read_only_access :=
          if full_read s then FullAccess
          else RestrictedAccess (platform_defaults s) (dedup_absolute_paths (readable_list s) false) in
        if workspace_root_writable s then
          Ok (WorkspaceWrite (dedup_absolute_paths (writable_list s) false) read_only_access
                (is_enabled network_policy) (negb (tmpdir_writable s)) (negb (slash_tmp_writable s)))
        else if bool_decide (writable_list s ≠ []) || tmpdir_writable s || slash_tmp_writable s
        then Err unsupported_writes
        else Ok (ReadOnly read_only_access (is_enabled network_policy))
  end.

(** [semantic_signature] and the comparison of two; paths are compared by
    their components. *)
Definition paths_eq (l k : list str) : bool := bool_decide (components <$> l = components <$> k).
Definition writable_root_eq (a b : WritableRoot) : bool :=
  bool_decide (path_eq (root a) (root b)) && paths_eq (read_only_subpaths a) (read_only_subpaths b).
Fixpoint writable_roots_eq (l k : list WritableRoot) : bool :=
  match l, k with
  | [], [] => true
  | a :: l', b :: k' => writable_root_eq a b && writable_roots_eq l' k'
  | _, _ => false
  end.
Record FileSystemSemanticSignature : Type := {
  sig_full_read : bool; sig_full_write : bool; sig_platform_defaults : bool;
  sig_readable : list str; sig_writable : list WritableRoot; sig_unreadable : list str }.
Definition semantic_signature (p : FileSystemSandboxPolicy) (cwd : str)
    : outcome Empty_set FileSystemSemanticSignature :=
  readable ← get_readable_roots_with_cwd p cwd;
  writable ← get_writable_roots_with_cwd p cwd;
  unreadable ← get_unreadable_roots_with_cwd p cwd;
  Ok {| sig_full_read := has_full_disk_read_access p; sig_full_write := has_full_disk_write_access p;
        sig_platform_defaults := include_platform_defaults p; sig_readable := readable;
        sig_writable := writable; sig_unreadable := unreadable |}.
Definition signature_eq (a b : FileSystemSemanticSignature) : bool :=
  bool_decide (sig_full_read a = sig_full_read b) && bool_decide (sig_full_write a = sig_full_write b)
  && bool_decide (sig_platform_defaults a = sig_platform_defaults b)
  && paths_eq (sig_readable a) (sig_readable b) && writable_roots_eq (sig_writable a) (sig_writable b)
  && paths_eq (sig_unreadable a) (sig_unreadable b).
Definition needs_direct_runtime_enforcement (p : FileSystemSandboxPolicy) (network_policy : NetworkSandboxPolicy)
    (cwd : str) : outcome Empty_set bool :=
  if negb (is_restricted p) then Ok false
  else match to_legacy_sandbox_policy p network_policy cwd with
       | Err _ => Ok true
       | Ok legacy_policy =>
           mine ← semantic_signature p cwd;
           legacy ← from_legacy_sandbox_policy legacy_policy cwd;
           theirs ← semantic_signature legacy cwd;
           Ok (negb (signature_eq mine theirs))
       | Panic => Panic
       | OutOfFuel => OutOfFuel
       end.
End permissions.

(** What the operating system and [path_absolutize] promise: the home
    directory is absolute, an absolute path has an absolute form, which keeps
    the components of a path without dots; joining to an absolute base always
    succeeds and looks at components only; no dots are left. *)
Class PermEnvLaws `{PermEnv} : Prop := {
  perm_path_laws :: PathEnvLaws;
  home_absolute h : home_dir = Some h → is_absolute h = true;
  absolutize_total p : is_absolute p = true → ∃ q, absolutize p = Ok q;
  absolutize_plain p q :
    is_absolute p = true → ParentDir ∉ components p → absolutize p = Ok q → path_eq q p;
  absolutize_from_path_eq b p q p' :
    is_absolute b = true → path_eq p q → absolutize_from b p = Ok p' →
    ∃ q', absolutize_from b q = Ok q' ∧ path_eq p' q';
  absolutize_from_total b p : is_absolute b = true → ∃ q, absolutize_from b p = Ok q;
  absolutize_no_dots p q : absolutize p = Ok q → ParentDir ∉ components q;
  absolutize_from_no_dots b p q :
    is_absolute b = true → absolutize_from b p = Ok q → ParentDir ∉ components q }.

(** What an [AbsolutePathBuf] holds. *)
Definition clean (p : str) : Prop := is_absolute p = true ∧ ParentDir ∉ components p.

(** * Which entry governs a path *)

Definition covers (c : str) (e : ResolvedFileSystemEntry) : Prop := path_starts_with (resolved_path e) c = true.
Definition outranks (e e' : ResolvedFileSystemEntry) : Prop :=
  precedence_le (resolved_entry_precedence e') (resolved_entry_precedence e) = true.
(** The most specific covering entry decides, [none] before [write] before
    [read] between equals; without one there is no access. *)
Definition grants (l : list ResolvedFileSystemEntry) (c : str) (a : FileSystemAccessMode) : Prop :=
  (∃ e, e ∈ l ∧ covers c e ∧ resolved_access e = a ∧ ∀ e', e' ∈ l → covers c e' → outranks e e')
  ∨ (a = NoAccess ∧ ∀ e, e ∈ l → ¬ covers c e).

Lemma precedence_le_spec a b : precedence_le a b = true ↔ a.1 < b.1 ∨ (a.1 = b.1 ∧ a.2 ≤ b.2).
Proof. unfold precedence_le. rewrite orb_true_iff, andb_true_iff, Nat.ltb_lt, Nat.eqb_eq, Nat.leb_le. done. Qed.
Lemma outranks_spec e e' :
  outranks e e' ↔ length (components (resolved_path e')) < length (components (resolved_path e))
    ∨ (length (components (resolved_path e')) = length (components (resolved_path e))
       ∧ access_rank (resolved_access e') ≤ access_rank (resolved_access e)).
Proof. unfold outranks. rewrite precedence_le_spec. done. Qed.
Lemma access_rank_inj a b : access_rank a = access_rank b → a = b.
Proof. by destruct a, b. Qed.

Lemma max_by_precedence_spec l : ∀ best e,
  max_by_precedence best l = Some e →
  (best = Some e ∨ e ∈ l) ∧ (∀ b, best = Some b → outranks e b) ∧ ∀ e', e' ∈ l → outranks e e'.
Proof.
  assert (Htrans : ∀ a b c, outranks a b → outranks b c → outranks a c)
    by (intros a b c; rewrite !outranks_spec; lia).
  assert (Hrefl : ∀ a, outranks a a) by (intros a; rewrite outranks_spec; lia).
  induction l as [|x l IH]; intros best e; simpl.
  { intros ->. split_and!; [by left|by intros b [= ->]|by intros e' []%not_elem_of_nil]. }
  intros ([Hb|Hin] & Hbest & Hl)%IH; destruct best as [b|].
  - assert (Hx : outranks e x ∧ outranks e b ∧ (e = b ∨ e = x)).
    { destruct (precedence_le _ _) eqn:E; simplify_eq; [by split_and!; [apply Hrefl|exact E|right]|].
      split_and!; [|apply Hrefl|by left]. rewrite outranks_spec.
      apply not_true_iff_false in E. rewrite precedence_le_spec in E. simpl in E. lia. }
    destruct Hx as (Hx & Hb' & Ho). split_and!.
    + destruct Ho as [->| ->]; [by left|right; apply list_elem_of_here].
    + by intros b' [= <-].
    + intros e' [->|He]%elem_of_cons; [done|by apply Hl].
  - simplify_eq. split_and!; [set_solver|done|]. intros e' [->|He]%elem_of_cons; [apply Hrefl|by apply Hl].
  - split; [set_solver|]. destruct (precedence_le _ _) eqn:E; specialize (Hbest _ eq_refl); split.
    + intros b' [= <-]. eapply Htrans; [exact Hbest|exact E].
    + intros e' [->|He]%elem_of_cons; [done|by apply Hl].
    + by intros b' [= <-].
    + intros e' [->|He]%elem_of_cons; [|by apply Hl]. eapply Htrans; [exact Hbest|].
      apply not_true_iff_false in E. rewrite precedence_le_spec in E. rewrite outranks_spec. simpl in E. lia.
  - split_and!; [set_solver|done|]. intros e' [->|He]%elem_of_cons; [by apply Hbest|by apply Hl].
Qed.
Lemma max_by_precedence_None l best : max_by_precedence best l = None ↔ best = None ∧ l = [].
Proof.
  revert best. induction l as [|x l IH]; intros best; simpl; [naive_solver|]. rewrite IH.
  destruct best as [b|]; [destruct (precedence_le _ _)|]; naive_solver.
Qed.

Lemma covering_same_length c e e' :
  covers c e → covers c e' →
  length (components (resolved_path e)) = length (components (resolved_path e')) →
  path_eq (resolved_path e) (resolved_path e').
Proof.
  unfold covers, path_eq. rewrite !path_starts_with_spec. intros [r Hr] [r' Hr'] Hl.
  rewrite Hr in Hr'. by apply app_inj_1 in Hr' as [? _].
Qed.
Lemma grants_unique l c a b : grants l c a → grants l c b → a = b.
Proof.
  intros [(e & He & Hc & <- & Hm)|[-> Hn]] [(e' & He' & Hc' & <- & Hm')|[-> Hn']].
  - specialize (Hm e' He' Hc'). specialize (Hm' e He Hc). rewrite outranks_spec in Hm, Hm'.
    apply access_rank_inj. lia.
  - by destruct (Hn' e He).
  - by destruct (Hn e' He').
  - done.
Qed.
Lemma max_grants l c :
  grants l c (match max_by_precedence None (filter (λ e, path_starts_with (resolved_path e) c = true) l) with
              | Some e => resolved_access e | None => NoAccess end).
Proof.
  destruct (max_by_precedence _ _) as [e|] eqn:E.
  - apply max_by_precedence_spec in E as ([?|[Hc He]%list_elem_of_filter] & _ & Hm); [done|].
    left. exists e. split_and!; [done..|]. intros e' He' Hc'. apply Hm. by apply list_elem_of_filter.
  - apply max_by_precedence_None in E as [_ E]. right. split; [done|]. intros e He Hc.
    apply (not_elem_of_nil e). rewrite <-E. by apply list_elem_of_filter.
Qed.

(** * Resolution, lemmas *)

Section resolution.
Context `{PermEnvLaws}.

Lemma from_absolute_clean p : clean p → ∃ q, from_absolute_path p = Ok q ∧ path_eq q p.
Proof.
  intros [Ha Hp]. unfold from_absolute_path. rewrite expand_absolute by done.
  destruct (absolutize_total p Ha) as [q E]. exists q. split; [done|]. by apply absolutize_plain.
Qed.
Lemma from_absolute_total p : is_absolute p = true → ∃ q, from_absolute_path p = Ok q ∧ is_absolute q = true.
Proof.
  intros Ha. unfold from_absolute_path. rewrite expand_absolute by done.
  destruct (absolutize_total p Ha) as [q E]. exists q. split; [done|]. by apply (absolutize_absolute p).
Qed.
Lemma absolute_root_ok cwd :
  is_absolute cwd = true → ∃ r, absolute_root_path_for_cwd cwd = Ok r ∧ components r = [RootDir].
Proof.
  intros (r & Hr & Er)%ancestors_root. unfold absolute_root_path_for_cwd. rewrite Hr.
  destruct (from_absolute_clean r) as (q & -> & Eq).
  { split; [apply components_root_absolute; by rewrite Er|]. rewrite Er. by intros [?|[]%elem_of_nil]%elem_of_cons. }
  exists q. split; [done|]. by rewrite Eq.
Qed.
Lemma slash_tmp_ok : ∃ t, from_absolute_path (lit "/tmp") = Ok t ∧ path_eq t (lit "/tmp").
Proof. apply from_absolute_clean. split; [done|]. vm_compute. by intros [?|[?|[]%elem_of_nil]%elem_of_cons]%elem_of_cons. Qed.
Lemma resolve_entry_path_total p cwd :
  is_absolute cwd = true → ∃ o, resolve_entry_path p (Some cwd) = Ok o.
Proof.
  intros Hc. destruct p as [p|[]]; simpl; eauto.
  - destruct (absolute_root_ok cwd Hc) as (r & -> & _). eauto.
  - destruct slash_tmp_ok as (t & -> & _). simpl. eauto.
Qed.
Lemma resolve_entries_total l cwd : is_absolute cwd = true → ∃ k, resolve_entries l (Some cwd) = Ok k.
Proof.
  intros Hc. induction l as [|e l [k IH]]; [by exists []|]. cbn [resolve_entries].
  destruct (resolve_entry_path_total (path e) cwd Hc) as [o ->]. run_bind. rewrite IH. run_bind. eauto.
Qed.
Lemma resolved_entries_total p cwd :
  is_absolute cwd = true → ∃ c l, from_absolute_path cwd = Ok c ∧ is_absolute c = true
    ∧ resolve_entries (entries p) (Some c) = Ok l ∧ resolved_entries_with_cwd p cwd = Ok l.
Proof.
  intros Hc. destruct (from_absolute_total cwd Hc) as (c & E & Ha).
  destruct (resolve_entries_total (entries p) c Ha) as [l El]. exists c, l.
  unfold resolved_entries_with_cwd. by rewrite E.
Qed.
Lemma resolve_entries_elem l cwd k x :
  resolve_entries l cwd = Ok k →
  x ∈ k ↔ ∃ e q, e ∈ l ∧ resolve_entry_path (path e) cwd = Ok (Some q)
               ∧ x = {| resolved_path := q; resolved_access := access e |}.
Proof.
  revert k. induction l as [|e l IH]; intros k; cbn [resolve_entries].
  { intros [= <-]. split; [by intros ?%elem_of_nil|]. by intros (? & ? & ?%elem_of_nil & _). }
  intros (o & Eo & (rest & Er & [= <-])%bind_Ok_inv)%bind_Ok_inv. specialize (IH _ Er).
  destruct o as [q|]; rewrite ?elem_of_cons, IH; split.
  - intros [->|(e' & q' & ? & ? & ->)]; [exists e, q|exists e', q']; split_and!; auto using list_elem_of_here, list_elem_of_further.
  - intros (e' & q' & [->|He]%elem_of_cons & ? & ->); [left; congruence|right; eauto].
  - intros (e' & q' & ? & ? & ->). exists e', q'. split_and!; auto using list_elem_of_further.
  - intros (e' & q' & [->|He]%elem_of_cons & ? & ->); [congruence|eauto].
Qed.
Lemma resolve_entries_app l l' cwd k k' :
  resolve_entries l cwd = Ok k → resolve_entries l' cwd = Ok k' → resolve_entries (l ++ l') cwd = Ok (k ++ k').
Proof.
  revert k. induction l as [|e l IH]; intros k; cbn [resolve_entries app]; [by intros [= <-]|].
  intros (o & -> & (rest & Er & [= <-])%bind_Ok_inv)%bind_Ok_inv El'. run_bind. rewrite (IH _ Er El'). run_bind.
  by destruct o.
Qed.
Lemma resolve_candidate_absolute candidate cwd c :
  is_absolute cwd = true → resolve_candidate_path candidate cwd = Some c → is_absolute c = true.
Proof.
  intros Hc. unfold resolve_candidate_path, from_absolute_path, resolve_path_against_base.
  destruct (is_absolute candidate) eqn:Ha.
  - rewrite expand_absolute by done. destruct (absolutize candidate) eqn:E; [|done..].
    intros [= <-]. by apply (absolutize_absolute candidate).
  - destruct (absolutize_from _ _) eqn:E; [|done..]. intros [= <-]. by eapply absolutize_from_absolute.
Qed.
Lemma root_covers r c e :
  components r = [RootDir] → is_absolute c = true → resolved_path e = r → covers c e.
Proof.
  intros Er (cs & Ec & _)%components_absolute He. unfold covers. rewrite He. apply path_starts_with_spec.
  exists cs. by rewrite Er, Ec.
Qed.
Lemma resolve_access_eq p candidate cwd c l :
  fs_kind p = FsRestricted → resolve_candidate_path candidate cwd = Some c →
  resolved_entries_with_cwd p cwd = Ok l → ∃ a, resolve_access_with_cwd p candidate cwd = Ok a ∧ grants l c a.
Proof.
  intros Hk Hc Hl. unfold resolve_access_with_cwd. rewrite Hk, Hc, Hl. run_bind. eexists. split; [done|].
  apply max_grants.
Qed.

(** Entries that share a target resolve to the same place, [/tmp] being a directory. *)
Lemma share_target_resolves a b cwd q :
  is_absolute cwd = true →
  (∀ p, a = FsPath p ∨ b = FsPath p → is_absolute p = true) →
  (∀ t, from_absolute_path (lit "/tmp") = Ok t → is_dir t = true) →
  file_system_paths_share_target a b = true →
  resolve_entry_path b (Some cwd) = Ok (Some q) →
  ∃ q', resolve_entry_path a (Some cwd) = Ok (Some q') ∧ path_eq q' q.
Proof.
  intros Hc Hp Htmp. destruct (absolute_root_ok cwd Hc) as (r & Hr & Er). destruct slash_tmp_ok as (t & Ht & Et).
  assert (Hroot : ∀ p, is_absolute p = true → parent p = None → components p = [RootDir]).
  { intros p (cs & Ec & Hcs)%components_absolute. unfold parent. rewrite Ec.
    destruct cs as [|x cs _] using rev_ind; [done|]. change (RootDir :: cs ++ [x]) with ((RootDir :: cs) ++ [x]).
    rewrite last_snoc. apply Forall_app in Hcs as [_ [Hx _]%Forall_cons]. by destruct x. }
  destruct a as [p|v], b as [p'|v']; cbn [file_system_paths_share_target].
  - intros E%bool_decide_eq_true_1 [= <-]. by exists p.
  - destruct v'; cbn; try done.
    + destruct (parent p) eqn:E; [done|]. intros _. rewrite Hr. intros [= <-]. exists p. split; [done|].
      unfold path_eq. rewrite Er. apply Hroot; auto.
    + intros E%bool_decide_eq_true_1. rewrite Ht. run_bind. cbn. rewrite (Htmp t Ht). intros [= <-].
      exists p. split; [done|]. by unfold path_eq in *; congruence.
  - destruct v; cbn; try done.
    + destruct (parent p') eqn:E; [done|]. intros _ [= <-]. rewrite Hr. exists r. split; [done|].
      unfold path_eq. rewrite Er. symmetry. apply Hroot; auto.
    + intros E%bool_decide_eq_true_1 [= <-]. rewrite Ht. cbn. rewrite (Htmp t Ht). exists t. split; [done|].
      by unfold path_eq in *; congruence.
  - destruct v as [| | |s| | |], v' as [| | |s'| | |]; try done;
      try (intros _ E; exists q; by split); try (destruct s as [s|]); try (destruct s' as [s'|]); try done;
      try (intros _ E; exists q; by split).
    intros Es%bool_decide_eq_true_1 E. cbn in E |- *. unfold resolve_path_against_base in *.
    destruct (absolutize_from cwd (maybe_expand_home_directory s')) as [x| | |] eqn:Ex; simplify_eq/=.
    destruct (absolutize_from_path_eq cwd _ (maybe_expand_home_directory s) q Hc
      (expand_path_eq _ _ home_absolute (eq_sym Es)) Ex) as (x' & -> & Ex').
    exists x'. split; [done|]. by symmetry.
Qed.

(** The entry for the root, and what does not narrow it. *)
Lemma root_entry_covers p cwd l c a :
  is_absolute cwd = true → resolve_entries (entries p) (Some cwd) = Ok l → is_absolute c = true →
  (∃ e, e ∈ entries p ∧ path e = FsSpecial Root ∧ access e = a) → ∃ x, x ∈ l ∧ covers c x ∧ resolved_access x = a.
Proof.
  intros Hcwd Hl Hc (e & He & Hp & Ha). destruct (absolute_root_ok cwd Hcwd) as (r & Hr & Er).
  exists {| resolved_path := r; resolved_access := a |}. split_and!; [|by apply (root_covers r)|done].
  rewrite (resolve_entries_elem _ _ _ _ Hl). exists e, r. rewrite Hp, <-Ha. cbn. by rewrite Hr.
Qed.
Lemma has_root_access_spec p f :
  has_root_access p f = true ↔
  fs_kind p = FsRestricted ∧ ∃ e, e ∈ entries p ∧ path e = FsSpecial Root ∧ f (access e) = true.
Proof.
  unfold has_root_access, is_restricted. rewrite andb_true_iff, bool_decide_eq_true, existsb_elem.
  split; intros [Hk (e & He & Hf)]; (split; [done|]; exists e; split; [done|]).
  - destruct (path e) as [|[]]; done.
  - by destruct Hf as [-> ?].
Qed.
Lemma not_narrowed p cwd l e q :
  is_absolute cwd = true → (∀ x s, x ∈ entries p → path x = FsPath s → is_absolute s = true) →
  (∀ t, from_absolute_path (lit "/tmp") = Ok t → is_dir t = true) →
  has_root_access p can_write = true → has_write_narrowing_entries p = false →
  resolve_entries (entries p) (Some cwd) = Ok l → e ∈ entries p → can_write (access e) = false →
  resolve_entry_path (path e) (Some cwd) = Ok (Some q) →
  access e = Read ∧ ∃ w, w ∈ l ∧ resolved_access w = Write ∧ path_eq (resolved_path w) q.
Proof.
  intros Hcwd Habs Htmp [Hk (rw & Hrw & Ew & Aw)]%has_root_access_spec Hn Hl He Hw Eq.
  unfold has_write_narrowing_entries, is_restricted in Hn. rewrite Hk, bool_decide_true in Hn by done. cbn in Hn.
  assert (Hne : narrows p e = false).
  { destruct (narrows p e) eqn:E; [|done]. rewrite <-not_true_iff_false in Hn. destruct Hn.
    apply existsb_elem. eauto. }
  assert (Hover : has_same_target_write_override p e = true →
    access e = Read ∧ ∃ w, w ∈ l ∧ resolved_access w = Write ∧ path_eq (resolved_path w) q).
  { intros (w & Hin & [[Hcw Hrank]%andb_true_iff Hs]%andb_true_iff)%existsb_elem. apply Nat.ltb_lt in Hrank.
    destruct (access w) eqn:Aw'; try done. split; [destruct (access e); simpl in *; try done; lia|].
    destruct (share_target_resolves (path w) (path e) cwd q) as (q' & Eq' & Hq'); try done.
    { intros s [?|?]; eauto. }
    exists {| resolved_path := q'; resolved_access := Write |}. split_and!; [|done..].
    rewrite (resolve_entries_elem _ _ _ _ Hl). exists w, q'. by rewrite Aw'. }
  unfold narrows in Hne. rewrite Hw in Hne. destruct (path e) as [s|v] eqn:Ep.
  { apply Hover. by apply negb_false_iff. }
  destruct v; try done; try (apply Hover; by apply negb_false_iff).
  apply bool_decide_eq_false_1 in Hne. destruct (access e) eqn:Ae; try done. split; [done|].
  exists {| resolved_path := q; resolved_access := Write |}. split_and!; [|done..].
  rewrite (resolve_entries_elem _ _ _ _ Hl). exists rw, q. rewrite Ew. split_and!; [done..|].
  by destruct (access rw).
Qed.

Lemma full_read_granted p cwd l c a :
  is_absolute cwd = true → is_absolute c = true → resolved_entries_with_cwd p cwd = Ok l →
  fs_kind p = FsRestricted → has_full_disk_read_access p = true → grants l c a → can_read a = true.
Proof.
  intros Hcwd Hc Hl' Hk. unfold has_full_disk_read_access. rewrite Hk. intros [Hroot Hno%negb_true_iff]%andb_true_iff.
  destruct (resolved_entries_total p cwd Hcwd) as (cw & l2 & _ & Hcw & Hl & El).
  rewrite Hl' in El. injection El as <-.
  pose proof (proj1 (has_root_access_spec _ _) Hroot) as [_ (re & Hre & Pre & Are)].
  destruct (root_entry_covers p cw l c _ Hcw Hl Hc ltac:(eauto)) as (x & Hx & Hcov & Ax).
  intros [(e & He & Hce & <- & Hm)|[_ Hnone]]; [|by destruct (Hnone x)].
  pose proof (proj1 (resolve_entries_elem _ _ _ e Hl) He) as (e0 & q & He0 & Eq & ->). cbn.
  destruct (access e0) eqn:Ae; try done. rewrite <-not_true_iff_false in Hno. destruct Hno.
  unfold has_explicit_deny_entries, is_restricted. rewrite Hk. apply existsb_elem. exists e0. by rewrite Ae.
Qed.
Lemma full_write_granted p cwd l c a :
  is_absolute cwd = true → is_absolute c = true → resolved_entries_with_cwd p cwd = Ok l →
  (∀ e s, e ∈ entries p → path e = FsPath s → is_absolute s = true) →
  (∀ t, from_absolute_path (lit "/tmp") = Ok t → is_dir t = true) →
  fs_kind p = FsRestricted → has_full_disk_write_access p = true → grants l c a → can_write a = true.
Proof.
  intros Hcwd Hc Hl' Habs Htmp Hk. unfold has_full_disk_write_access. rewrite Hk.
  intros [Hroot Hno%negb_true_iff]%andb_true_iff.
  destruct (resolved_entries_total p cwd Hcwd) as (cw & l2 & _ & Hcw & Hl & El).
  rewrite Hl' in El. injection El as <-.
  pose proof (proj1 (has_root_access_spec _ _) Hroot) as [_ (re & Hre & Pre & Are)].
  destruct (root_entry_covers p cw l c _ Hcw Hl Hc ltac:(eauto)) as (x & Hx & Hcov & Ax).
  intros [(e & He & Hce & <- & Hm)|[_ Hnone]]; [|by destruct (Hnone x)].
  pose proof (proj1 (resolve_entries_elem _ _ _ e Hl) He) as (e0 & q & He0 & Eq & ->). cbn in *.
  destruct (can_write (access e0)) eqn:Hw; [done|].
  destruct (not_narrowed p cw l e0 q) as [HR (w & Hwl & Aw & Ew)]; try done.
  assert (Hcw' : covers c w) by (unfold covers, path_starts_with in *; by rewrite Ew).
  specialize (Hm w Hwl Hcw'). rewrite outranks_spec in Hm. cbn in Hm. rewrite Ew, Aw, HR in Hm. simpl in Hm. lia.
Qed.

(** A policy that reports full disk access gives it: every path can be
    read, and every path can be written, whatever the other entries are,
    provided [/tmp] is a directory. *)
Theorem full_disk_access_sound p candidate cwd c :
  is_absolute cwd = true →
  (∀ e s, e ∈ entries p → path e = FsPath s → is_absolute s = true) →
  (∀ t, from_absolute_path (lit "/tmp") = Ok t → is_dir t = true) →
  resolve_candidate_path candidate cwd = Some c →
  (has_full_disk_write_access p = true → can_write_path_with_cwd p candidate cwd = Ok true)
  ∧ (has_full_disk_read_access p = true → can_read_path_with_cwd p candidate cwd = Ok true).
Proof.
  intros Hcwd Habs Htmp Hcand. pose proof (resolve_candidate_absolute _ _ _ Hcwd Hcand) as Hc.
  unfold can_write_path_with_cwd, can_read_path_with_cwd.
  destruct (fs_kind p) eqn:Hk; [|by unfold resolve_access_with_cwd; rewrite Hk..].
  destruct (resolved_entries_total p cwd Hcwd) as (_ & l & _ & _ & _ & Hl).
  destruct (resolve_access_eq p candidate cwd c l Hk Hcand Hl) as (a & -> & Hg). run_bind.
  split; intros Hfull; f_equal; [by apply (full_write_granted p cwd l c)|by apply (full_read_granted p cwd l c)].
Qed.

(** Inside a restricted policy, the access of a path is that of the most
    specific entry that covers it ([none] winning over [write] and [write]
    over [read] between entries of the same specificity), and none when no
    entry covers it; the order of the entries does not matter. *)
Theorem resolve_access_spec p candidate cwd c l a :
  fs_kind p = FsRestricted → resolve_candidate_path candidate cwd = Some c →
  resolved_entries_with_cwd p cwd = Ok l →
  resolve_access_with_cwd p candidate cwd = Ok a ↔ grants l c a.
Proof.
  intros Hk Hc Hl. destruct (resolve_access_eq p candidate cwd c l Hk Hc Hl) as (a' & -> & Hg).
  split; [by intros [= <-]|]. intros Hg'. f_equal. by apply (grants_unique l c).
Qed.

(** * Additional roots, lemmas *)

Definition denied_at (l : list ResolvedFileSystemEntry) (r : str) : Prop :=
  ∃ e, e ∈ l ∧ resolved_access e = NoAccess ∧ path_eq (resolved_path e) r.
(** [l'] grants what [l] does, and outside [roots] nothing else. *)
Record grown (roots : list str) (l l' : list ResolvedFileSystemEntry) : Prop := {
  grown_keeps c a a' : grants l c a → grants l' c a' →
    (can_read a = true → can_read a' = true) ∧ (can_write a = true → can_write a' = true);
  grown_outside c a : (∀ r, r ∈ roots → path_starts_with r c = false) → grants l c a → grants l' c a;
  grown_denied r : denied_at l' r → denied_at l r }.

Lemma grants_total l c : ∃ a, grants l c a.
Proof. eexists. apply max_grants. Qed.
Lemma grants_path_eq l c c' a : path_eq c c' → grants l c a → grants l c' a.
Proof. intros E. unfold grants, covers, path_starts_with. by rewrite E. Qed.
Lemma grown_refl l roots : grown roots l l.
Proof. split; [|auto..]. intros c a a' Ha Ha'. by rewrite (grants_unique _ _ _ _ Ha Ha'). Qed.
Lemma grown_trans r roots l l' l'' : grown [r] l l' → grown roots l' l'' → grown (r :: roots) l l''.
Proof.
  intros G G'. split.
  - intros c a a'' Ha Ha''. destruct (grants_total l' c) as [a' Ha'].
    destruct (grown_keeps _ _ _ G c a a' Ha Ha'), (grown_keeps _ _ _ G' c a' a'' Ha' Ha''). auto.
  - intros c a Hr Ha. apply (grown_outside _ _ _ G'); [intros; apply Hr; by right|].
    apply (grown_outside _ _ _ G); [|done]. intros r' ->%list_elem_of_singleton. apply Hr. by left.
  - intros r' Hd. apply (grown_denied _ _ _ G), (grown_denied _ _ _ G'), Hd.
Qed.
Lemma grants_snoc l w c a :
  grants (l ++ [w]) c a →
  (covers c w ∧ resolved_access w = a ∧ ∀ e, e ∈ l → covers c e → outranks w e)
  ∨ (grants l c a ∧ (covers c w → ∃ e, e ∈ l ∧ covers c e ∧ resolved_access e = a ∧ outranks e w)).
Proof.
  intros [(e & [He|He%list_elem_of_singleton]%elem_of_app & Hc & <- & Hm)|[-> Hn]].
  - right. split; [left; exists e; split_and!; try done; intros; apply Hm; set_solver|].
    intros Hw. exists e. split_and!; try done. apply Hm; set_solver.
  - subst e. left. split_and!; [done..|]. intros; apply Hm; set_solver.
  - right. split; [right; split; [done|]; intros; apply Hn; set_solver|]. intros Hw. exfalso. apply (Hn w); set_solver.
Qed.
Lemma grants_snoc_outside l w c a : ¬ covers c w → grants l c a → grants (l ++ [w]) c a.
Proof.
  intros Hw [(e & He & Hc & <- & Hm)|[-> Hn]].
  - left. exists e. split_and!; [set_solver|done..|]. intros e' [?| ->%list_elem_of_singleton]%elem_of_app ?; auto; done.
  - right. split; [done|]. intros e [?| ->%list_elem_of_singleton]%elem_of_app; auto.
Qed.
Lemma covers_longer c e w : covers c e → covers c w →
  length (components (resolved_path e)) ≤ length (components (resolved_path w)) → covers (resolved_path w) e.
Proof.
  unfold covers. rewrite !path_starts_with_spec. intros [x Hx] [y Hy] Hl. rewrite Hx in Hy.
  apply app_eq_inv in Hy as [(k & Ek & _)|(k & Ek & _)]; [|by exists k].
  rewrite Ek, length_app in Hl. assert (k = []) as -> by (destruct k; simpl in Hl; [done|lia]).
  exists []. by rewrite Ek, !app_nil_r.
Qed.

(** A root pushed with [mode] where it was not granted yet. *)
Lemma grown_push mode l r a0 :
  mode ≠ NoAccess → grants l r a0 → (mode = Read → can_read a0 = false) →
  grown [r] l (l ++ [{| resolved_path := r; resolved_access := mode |}]).
Proof.
  set (w := {| resolved_path := r; resolved_access := mode |}). intros Hmode Hbase Hread. split.
  - intros c a a' Ha [(Hc & <- & Hm)|[Ha' _]]%grants_snoc; [|by rewrite (grants_unique _ _ _ _ Ha Ha')].
    split; [by destruct mode|]. intros Hwr. change (resolved_access w) with mode in *. destruct mode; try done.
    exfalso. specialize (Hread eq_refl).
    destruct Ha as [(e & He & Hce & <- & Hme)|[-> _]]; [|done]. specialize (Hm e He Hce).
    assert (Hle : length (components (resolved_path e)) ≤ length (components r)).
    { rewrite outranks_spec in Hm. simpl in Hm. lia. }
    pose proof (covers_longer c e w Hce Hc Hle) as Hre. change (resolved_path w) with r in Hre.
    destruct Hbase as [(e1 & He1 & Hc1 & <- & Hm1)|[-> Hn]]; [|by destruct (Hn e)].
    assert (Hcc : covers c e1) by (unfold covers in *; by eapply path_starts_with_trans).
    specialize (Hme e1 He1 Hcc). specialize (Hm1 e He Hre). rewrite outranks_spec in Hme, Hm1.
    destruct (resolved_access e), (resolved_access e1); simpl in *; try done; lia.
  - intros c a Hr Ha. apply grants_snoc_outside; [|done]. unfold covers. simpl. rewrite Hr by set_solver. done.
  - intros r' (e & [He| ->%list_elem_of_singleton]%elem_of_app & Hn & Hp); [by exists e|]. by destruct mode.
Qed.
(** The pushed root is granted, unless an entry denies exactly it. *)
Lemma push_granted mode l r a a0 :
  mode ≠ NoAccess → grants l r a0 → (mode = Read → can_read a0 = false) →
  grants (l ++ [{| resolved_path := r; resolved_access := mode |}]) r a →
  denied_at l r ∨ a = mode.
Proof.
  set (w := {| resolved_path := r; resolved_access := mode |}). intros Hmode Hbase Hread
    [(_ & <- & _)|[Ha Hw]]%grants_snoc; [by right|].
  destruct (Hw (path_starts_with_refl r)) as (e & He & Hc & <- & Ho).
  assert (Hlen : length (components (resolved_path e)) ≤ length (components r)).
  { apply path_starts_with_spec in Hc as [k Hk]. rewrite Hk, length_app. lia. }
  rewrite outranks_spec in Ho. simpl in Ho.
  assert (Heq : path_eq (resolved_path e) r).
  { apply (covering_same_length r e w Hc (path_starts_with_refl r)). simpl. lia. }
  destruct (resolved_access e) eqn:Ae.
  - right. destruct mode; simpl in Ho; try done; lia.
  - destruct mode; try done; [|by right]. rewrite (grants_unique _ _ _ _ Hbase Ha) in Hread. by specialize (Hread eq_refl).
  - left. exists e. done.
Qed.

Definition mode_test (mode : FileSystemAccessMode) : FileSystemAccessMode → bool :=
  match mode with Write => can_write | _ => can_read end.
Lemma resolve_candidate_clean r cwd : clean r → ∃ r', resolve_candidate_path r cwd = Some r' ∧ path_eq r' r.
Proof.
  intros Hr. destruct (from_absolute_clean r Hr) as (r' & E & Er). destruct Hr as [Ha _].
  unfold resolve_candidate_path. rewrite Ha, E. by exists r'.
Qed.
Lemma add_roots_grown mode p cwd roots l :
  mode ≠ NoAccess → is_absolute cwd = true → Forall clean roots →
  fs_kind p = FsRestricted → resolved_entries_with_cwd p cwd = Ok l →
  ∃ p' l', add_roots (λ p r cwd, a ← resolve_access_with_cwd p r cwd; Ok (mode_test mode a)) mode p cwd roots = Ok p'
    ∧ fs_kind p' = FsRestricted ∧ resolved_entries_with_cwd p' cwd = Ok l' ∧ grown roots l l'
    ∧ ∀ r a, r ∈ roots → grants l' r a → ¬ denied_at l r → mode_test mode a = true.
Proof.
  intros Hm Hcwd Hroots. revert p l. induction Hroots as [|r roots Hr _ IH]; intros p l Hk Hl; cbn [add_roots].
  { exists p, l. split_and!; [done..|apply grown_refl|by intros ?? ?%elem_of_nil]. }
  destruct (resolve_candidate_clean r cwd Hr) as (r' & Hcand & Er).
  destruct (resolve_access_eq p r cwd r' l Hk Hcand Hl) as (a0 & -> & Hg). run_bind.
  apply (grants_path_eq _ _ _ _ Er) in Hg.
  assert (Hstep : ∃ p1 l1, (if mode_test mode a0 then p else push_entry p {| path := FsPath r; access := mode |}) = p1
    ∧ fs_kind p1 = FsRestricted ∧ resolved_entries_with_cwd p1 cwd = Ok l1 ∧ grown [r] l l1
    ∧ ∀ a, grants l1 r a → ¬ denied_at l r → mode_test mode a = true).
  { destruct (mode_test mode a0) eqn:Et.
    - exists p, l. split_and!; [done..|apply grown_refl|]. intros a Ha _. by rewrite (grants_unique _ _ _ _ Ha Hg).
    - assert (Hread : mode = Read → can_read a0 = false) by (by intros ->).
      eexists _, _. split_and!; [reflexivity|done| | |].
      + unfold resolved_entries_with_cwd in *. apply resolve_entries_app; [exact Hl|]. reflexivity.
      + by eapply grown_push.
      + intros a Ha Hd. destruct (push_granted mode l r a a0 Hm Hg Hread Ha) as [?| ->]; [done|]. by destruct mode. }
  destruct Hstep as (p1 & l1 & -> & Hk1 & Hl1 & G1 & Hr1).
  destruct (IH p1 l1 Hk1 Hl1) as (p' & l' & E & Hk' & Hl' & G' & Hr').
  exists p', l'. split_and!; [done..|by eapply grown_trans|].
  intros s a [->|Hs]%elem_of_cons Ha Hd.
  - destruct (grants_total l1 r) as [a1 Ha1]. specialize (Hr1 a1 Ha1 Hd).
    destruct (grown_keeps _ _ _ G' r a1 a Ha1 Ha). destruct mode; simpl in *; auto.
  - apply (Hr' s); [done..|]. intros Hd1. apply Hd. by apply (grown_denied _ _ _ G1).
Qed.

(** [p'] gives every path at least the access [p] gives, the same outside
    [roots], and [mode] on each root that no entry denies. *)
Definition extends_access (mode : FileSystemAccessMode) (roots : list str) (cwd : str)
    (p p' : FileSystemSandboxPolicy) (l : list ResolvedFileSystemEntry) : Prop :=
  (∀ candidate c, resolve_candidate_path candidate cwd = Some c →
     ∃ a a', resolve_access_with_cwd p candidate cwd = Ok a ∧ resolve_access_with_cwd p' candidate cwd = Ok a'
       ∧ (can_read a = true → can_read a' = true) ∧ (can_write a = true → can_write a' = true)
       ∧ ((∀ r, r ∈ roots → path_starts_with r c = false) → a' = a))
  ∧ (∀ r, r ∈ roots → ¬ denied_at l r →
       ∃ a, resolve_access_with_cwd p' r cwd = Ok a ∧ mode_test mode a = true).
Lemma grown_extends mode roots cwd p p' l l' :
  Forall clean roots → fs_kind p = FsRestricted → fs_kind p' = FsRestricted →
  resolved_entries_with_cwd p cwd = Ok l → resolved_entries_with_cwd p' cwd = Ok l' → grown roots l l' →
  (∀ r a, r ∈ roots → grants l' r a → ¬ denied_at l r → mode_test mode a = true) →
  extends_access mode roots cwd p p' l.
Proof.
  intros Hroots Hk Hk' Hl Hl' G Hr. split.
  - intros candidate c Hc. destruct (resolve_access_eq p candidate cwd c l Hk Hc Hl) as (a & Ea & Ha).
    destruct (resolve_access_eq p' candidate cwd c l' Hk' Hc Hl') as (a' & Ea' & Ha').
    exists a, a'. destruct (grown_keeps _ _ _ G c a a' Ha Ha'). split_and!; [done..|].
    intros Ho. eapply grants_unique; [exact Ha'|]. by apply (grown_outside _ _ _ G).
  - intros r Hin Hd. destruct (resolve_candidate_clean r cwd) as (r' & Hc & Er); [by eapply Forall_forall in Hroots|].
    destruct (resolve_access_eq p' r cwd r' l' Hk' Hc Hl') as (a & Ea & Ha). exists a. split; [done|].
    apply (Hr r); [done| |done]. by eapply grants_path_eq.
Qed.

(** Adding writable roots, and adding readable roots, always succeeds,
    takes no access away from any path, changes nothing outside the roots and
    grants each root unless an entry denies exactly that path. *)
Theorem with_additional_roots_spec p cwd roots l :
  is_absolute cwd = true → Forall clean roots → fs_kind p = FsRestricted →
  resolved_entries_with_cwd p cwd = Ok l →
  (∃ p', with_additional_writable_roots p cwd roots = Ok p' ∧ extends_access Write roots cwd p p' l)
  ∧ (∃ p', with_additional_readable_roots p cwd roots = Ok p' ∧ extends_access Read roots cwd p p' l).
Proof.
  intros Hcwd Hroots Hk Hl. split.
  - destruct (add_roots_grown Write p cwd roots l) as (p' & l' & E & Hk' & Hl' & G & Hr); try done.
    exists p'. split; [exact E|]. by eapply grown_extends.
  - unfold with_additional_readable_roots. destruct (has_full_disk_read_access p) eqn:Hfull.
    + exists p. split; [done|]. eapply grown_extends; try done; [apply grown_refl|].
      intros r a Hin Ha _. apply (full_read_granted p cwd l r a); try done.
      by apply (proj1 (Forall_forall _ _) Hroots) in Hin as [? _].
    + destruct (add_roots_grown Read p cwd roots l) as (p' & l' & E & Hk' & Hl' & G & Hr); try done.
      exists p'. split; [exact E|]. by eapply grown_extends.
Qed.

(** * Legacy policies, lemmas *)

Lemma dedup_loop_fresh normalize seen l :
  NoDup (components <$> dedup_loop normalize seen l)
  ∧ ∀ x, x ∈ dedup_loop normalize seen l → components x ∉ components <$> seen.
Proof.
  revert seen. induction l as [|p l IH]; intros seen; cbn [dedup_loop].
  { split; [constructor|by intros ? ?%elem_of_nil]. }
  destruct (existsb _ seen) eqn:E; [apply IH|]. destruct (IH (normalize p :: seen)) as [Hn Hs]. split.
  - cbn. constructor; [|done]. intros (x & Ex & Hx)%list_elem_of_fmap. apply (Hs x Hx). rewrite <-Ex. by left.
  - intros x [->|Hx]%elem_of_cons (q & Eq & Hq)%list_elem_of_fmap.
    + apply not_true_iff_false in E. destruct E. apply existsb_elem. exists q. split; [done|].
      apply bool_decide_eq_true. by unfold path_eq.
    + apply (Hs x Hx). rewrite Eq. right. by apply list_elem_of_fmap_2.
Qed.
Lemma dedup_loop_id seen l :
  NoDup (components <$> l) → (∀ x, x ∈ l → components x ∉ components <$> seen) → dedup_loop id seen l = l.
Proof.
  revert seen. induction l as [|p l IH]; intros seen; [done|]. cbn [dedup_loop fmap list_fmap]. intros [Hp Hn]%NoDup_cons Hs.
  rewrite existsb_false.
  - unfold id at 1. f_equal. apply IH; [done|]. intros x Hx [Ex|Hx']%elem_of_cons; [|apply (Hs x); [by right|done]].
    apply Hp. change (components (id p)) with (components p) in Ex. rewrite <-Ex. by apply list_elem_of_fmap_2.
  - intros q Hq. apply bool_decide_eq_false. intros E. apply (Hs p); [by left|]. unfold path_eq, id in E. rewrite <-E.
    by apply list_elem_of_fmap_2.
Qed.
Lemma dedup_loop_subset seen l x : x ∈ dedup_loop id seen l → x ∈ l.
Proof.
  revert seen. induction l as [|p l IH]; intros seen; cbn [dedup_loop]; [done|].
  destruct (existsb _ seen); [intros ?%IH; by right|]. intros [->|?%IH]%elem_of_cons; [by left|by right].
Qed.
Lemma dedup_idemp l : dedup_absolute_paths (dedup_absolute_paths l false) false = dedup_absolute_paths l false.
Proof. apply dedup_loop_id; [apply dedup_loop_fresh|]. intros x _. apply not_elem_of_nil. Qed.
Lemma dedup_cons_idemp c l :
  dedup_absolute_paths (c :: dedup_absolute_paths (c :: l) false) false = dedup_absolute_paths (c :: l) false.
Proof.
  unfold dedup_absolute_paths. change (dedup_loop id [] (c :: l)) with (c :: dedup_loop id [c] l).
  change (dedup_loop id [] (c :: c :: dedup_loop id [c] l)) with (c :: dedup_loop id [c] (c :: dedup_loop id [c] l)).
  f_equal. cbn [dedup_loop existsb]. rewrite bool_decide_true by done. cbn [orb].
  apply dedup_loop_id; apply dedup_loop_fresh.
Qed.

(** The legacy policy that the entries of a legacy policy describe: the
    directory itself can be read, roots are listed once, and the directory is
    not among the writable roots. *)
Definition canonical_access (access : ReadOnlyAccess) : ReadOnlyAccess :=
  match access with
  | FullAccess => FullAccess
  | RestrictedAccess d roots => RestrictedAccess d (dedup_absolute_paths roots false)
  end.
Definition canonical_legacy (c : str) (policy : SandboxPolicy) : SandboxPolicy :=
  match policy with
  | DangerFullAccess | ExternalSandbox _ => policy
  | ReadOnly access n =>
      ReadOnly match access with
               | FullAccess => FullAccess
               | RestrictedAccess d roots => RestrictedAccess d (dedup_absolute_paths (c :: roots) false)
               end n
  | WorkspaceWrite w access n t s =>
      WorkspaceWrite (dedup_absolute_paths (filter (λ p, ¬ path_eq c p) w) false) (canonical_access access) n t s
  end.

Lemma legacy_loop_app cwd s l l' :
  legacy_loop cwd s (l ++ l') = s' ← legacy_loop cwd s l; legacy_loop cwd s' l'.
Proof.
  revert s. induction l as [|e l IH]; intros s; [done|]. cbn [legacy_loop app].
  destruct (legacy_step cwd s e); run_bind; [apply IH|done..].
Qed.
Lemma legacy_loop_readable cwd s roots : legacy_loop cwd s (path_entry Read <$> roots) = Ok (scan_lists s [] roots).
Proof.
  revert s. induction roots as [|r roots IH]; intros s; cbn [fmap list_fmap legacy_loop].
  - by destruct s; unfold scan_lists; cbn; rewrite !app_nil_r.
  - cbn [legacy_step path_entry path access can_write can_read]. run_bind. rewrite IH.
    unfold scan_lists. cbn. by rewrite !app_nil_r, <-app_assoc.
Qed.
Lemma legacy_loop_writable c s roots :
  workspace_root_writable s = true →
  legacy_loop (Some c) s (path_entry Write <$> roots) = Ok (scan_lists s (filter (λ p, ¬ path_eq c p) roots) []).
Proof.
  revert s. induction roots as [|r roots IH]; intros s Hs; cbn [fmap list_fmap legacy_loop].
  - by destruct s; unfold scan_lists; cbn; rewrite !app_nil_r.
  - cbn [legacy_step path_entry path access can_write can_read]. rewrite filter_cons.
    destruct (decide (path_eq c r)) as [E|E]; run_bind.
    + rewrite bool_decide_true by done. rewrite IH by done. rewrite decide_False by naive_solver.
      destruct s; cbn in *; subst; reflexivity.
    + rewrite bool_decide_false by done. rewrite IH by done. rewrite decide_True by done.
      unfold scan_lists. cbn. by rewrite !app_nil_r, <-app_assoc.
Qed.

(** * Writable roots, lemmas *)

Lemma filterM_spec {A} (f : A → outcome Empty_set bool) l :
  (∀ x, x ∈ l → ∃ b, f x = Ok b) → ∃ k, filterM f l = Ok k ∧ ∀ x, x ∈ k ↔ x ∈ l ∧ f x = Ok true.
Proof.
  induction l as [|x l IH]; intros Hf.
  { exists []. split; [done|]. intros x. split; [by intros ?%elem_of_nil|by intros [?%elem_of_nil _]]. }
  destruct IH as (k & E & Hk); [intros; apply Hf; by right|]. destruct (Hf x (list_elem_of_here _ _)) as [b Eb].
  cbn [filterM]. rewrite Eb. run_bind. rewrite E. run_bind. eexists. split; [done|]. intros y.
  rewrite elem_of_cons. destruct b; [rewrite elem_of_cons|]; rewrite Hk; naive_solver congruence.
Qed.
Lemma mapM_spec {A B} (f : A → outcome Empty_set B) l :
  (∀ x, x ∈ l → ∃ b, f x = Ok b) → ∃ k, mapM f l = Ok k ∧ ∀ y, y ∈ k → ∃ x, x ∈ l ∧ f x = Ok y.
Proof.
  induction l as [|x l IH]; intros Hf.
  { exists []. split; [done|]. by intros y ?%elem_of_nil. }
  destruct IH as (k & E & Hk); [intros; apply Hf; by right|]. destruct (Hf x (list_elem_of_here _ _)) as [b Eb].
  cbn [mapM]. rewrite Eb. run_bind. rewrite E. run_bind. eexists. split; [done|].
  intros y [->|(z & ? & ?)%Hk]%elem_of_cons; [exists x|exists z]; split; auto using list_elem_of_here, list_elem_of_further.
Qed.
Lemma dedup_loop_elem normalize seen l x :
  x ∈ dedup_loop normalize seen l → ∃ y, y ∈ l ∧ x = normalize y.
Proof.
  revert seen. induction l as [|p l IH]; intros seen; cbn [dedup_loop]; [by intros ?%elem_of_nil|].
  destruct (existsb _ seen).
  - intros (y & ? & ->)%IH. exists y. split; [by right|done].
  - intros [->|(y & ? & ->)%IH]%elem_of_cons; [exists p|exists y]; auto using list_elem_of_here, list_elem_of_further.
Qed.
Lemma dedup_loop_covers normalize seen l y :
  y ∈ l → (∃ x, x ∈ dedup_loop normalize seen l ∧ path_eq x (normalize y)) ∨ (∃ x, x ∈ seen ∧ path_eq x (normalize y)).
Proof.
  revert seen. induction l as [|p l IH]; intros seen; [by intros ?%elem_of_nil|]. cbn [dedup_loop].
  destruct (existsb _ seen) eqn:E.
  - intros [->|Hy]%elem_of_cons; [|by apply IH]. right.
    apply existsb_elem in E as (x & ? & ?%bool_decide_eq_true_1). eauto.
  - intros [->|Hy]%elem_of_cons; [left; exists (normalize p); split; [by left|done]|].
    destruct (IH (normalize p :: seen) Hy) as [(x & ? & ?)|(x & [->|?]%elem_of_cons & ?)]; [| |by right; eauto].
    + left. exists x. split; [by right|done].
    + left. exists (normalize p). split; [by left|done].
Qed.
Lemma resolved_clean p cwd l e :
  is_absolute cwd = true → (∀ e s, e ∈ entries p → path e = FsPath s → clean s) →
  resolved_entries_with_cwd p cwd = Ok l → e ∈ l → clean (resolved_path e).
Proof.
  intros Hcwd Hp Hl' He. destruct (resolved_entries_total p cwd Hcwd) as (c & l2 & Ec & Hc & Hl & El).
  rewrite Hl' in El. injection El as <-.
  pose proof (proj1 (resolve_entries_elem _ _ _ e Hl) He) as (e0 & q & He0 & Eq & Ee). rewrite Ee. cbn. clear e He Ee.
  assert (Hclean : ∀ a b, is_absolute b = true → from_absolute_path b = Ok a → clean a).
  { intros a b Hb Ea. unfold from_absolute_path in Ea. rewrite expand_absolute in Ea by done.
    split; [by eapply absolutize_absolute|by eapply absolutize_no_dots]. }
  destruct (path e0) as [s|v] eqn:Ep; [injection Eq as <-; by eapply Hp|].
  destruct v as [| | |[s|]| | |]; cbn in Eq; simplify_eq.
  - destruct (absolute_root_ok c Hc) as (r & Hr & Er). rewrite Hr in Eq. injection Eq as <-.
    split; [apply components_root_absolute; by rewrite Er|]. rewrite Er. by intros ?%list_elem_of_singleton.
  - by apply (Hclean _ cwd).
  - unfold resolve_path_against_base in Eq. destruct (absolutize_from _ _) eqn:Ea; simplify_eq/=.
    split; [by eapply absolutize_from_absolute|by eapply absolutize_from_no_dots].
  - by apply (Hclean _ cwd).
  - destruct env_tmpdir as [t|]; simplify_eq/=. destruct (decide _); simplify_eq/=.
    unfold from_absolute_path in Eq. destruct (absolutize (maybe_expand_home_directory t)) eqn:Ea; simplify_eq/=.
    split; [by eapply absolutize_absolute|by eapply absolutize_no_dots].
  - destruct slash_tmp_ok as (t & Et & _). rewrite Et in Eq. cbn in Eq. destruct (is_dir t); simplify_eq.
    by apply (Hclean _ (lit "/tmp")).
Qed.
Lemma can_write_grants p cwd l q :
  clean q → fs_kind p = FsRestricted → resolved_entries_with_cwd p cwd = Ok l →
  ∃ a, can_write_path_with_cwd p q cwd = Ok (can_write a) ∧ grants l q a.
Proof.
  intros Hq Hk Hl. destruct (resolve_candidate_clean q cwd Hq) as (q' & Hc & Eq).
  destruct (resolve_access_eq p q cwd q' l Hk Hc Hl) as (a & Ea & Ha). exists a.
  unfold can_write_path_with_cwd. rewrite Ea. split; [done|]. by eapply grants_path_eq.
Qed.
Lemma default_read_only_total r b : is_absolute r = true → ∃ k, default_read_only_subpaths_for_writable_root r b = Ok k.
Proof.
  intros Hr. unfold default_read_only_subpaths_for_writable_root, abs_join, resolve_path_against_base.
  destruct (absolutize_from_total r (maybe_expand_home_directory (lit ".git")) Hr) as [g ->].
  destruct (absolutize_from_total r (maybe_expand_home_directory (lit ".agents")) Hr) as [a ->].
  destruct (absolutize_from_total r (maybe_expand_home_directory (lit ".codex")) Hr) as [c ->]. cbn [expect]. run_bind. eauto.
Qed.

(** Below a writable entry, a path that cannot be written is governed by a
    narrower entry, itself not writable. *)
Lemma narrower_entry l w c a :
  w ∈ l → grants l (resolved_path w) Write → covers c w → grants l c a → a ≠ Write →
  ∃ e, e ∈ l ∧ covers c e ∧ resolved_access e = a ∧ grants l (resolved_path e) a
    ∧ path_starts_with (resolved_path w) (resolved_path e) = true ∧ ¬ path_eq (resolved_path e) (resolved_path w).
Proof.
  intros Hw Hg Hcw [(e & He & Hce & <- & Hm)|[-> Hn]] Ha; [|by destruct (Hn w)].
  assert (Hown : grants l (resolved_path e) (resolved_access e)).
  { left. exists e. split_and!; [done|apply path_starts_with_refl|done|]. intros e' He' Hc'. apply Hm; [done|].
    unfold covers in *. by eapply path_starts_with_trans. }
  destruct (decide (length (components (resolved_path e)) ≤ length (components (resolved_path w)))) as [Hle|Hgt].
  - exfalso. pose proof (covers_longer c e w Hce Hcw Hle) as Hwe.
    destruct Hg as [(m & Hml & Hmc & Am & Hmm)|[? _]]; [|done].
    assert (Hcm : covers c m) by (unfold covers in *; by eapply path_starts_with_trans).
    specialize (Hm m Hml Hcm). specialize (Hmm e He Hwe). rewrite outranks_spec in Hm, Hmm. rewrite Am in *.
    apply Ha, access_rank_inj. lia.
  - exists e. split_and!; [done..| |].
    + apply (covers_longer c w e Hcw Hce). lia.
    + unfold path_eq. intros E. rewrite E in Hgt. lia.
Qed.

(** An entry below a root leaves its own path among the carveouts. *)
Lemma carveout_entry r raws e :
  path_eq (normalize_effective_absolute_path (resolved_path e)) (resolved_path e) →
  path_starts_with r (resolved_path e) = true → ¬ path_eq (resolved_path e) r →
  ∃ y, carveout r raws e = Some y ∧ path_eq y (resolved_path e).
Proof.
  intros En Hs Hne. unfold carveout.
  assert (Hraw : raw_carveout r raws (resolved_path e) = Some (resolved_path e)).
  { unfold raw_carveout. by rewrite decide_False, Hs. }
  rewrite Hraw. destruct (parent r); [by eexists|].
  exists (normalize_effective_absolute_path (resolved_path e)). split; [|done].
  rewrite bool_decide_false by (intros E; apply Hne; unfold path_eq in *; congruence). cbn [orb].
  unfold path_starts_with in *. rewrite En. by destruct (strip_components _ _).
Qed.
Lemma is_path_writable_spec r q :
  is_path_writable r q = true ↔
  path_starts_with (root r) q = true ∧ ∀ s, s ∈ read_only_subpaths r → path_starts_with s q = false.
Proof.
  unfold is_path_writable. rewrite andb_true_iff, negb_true_iff. split; intros [Hr Hs]; (split; [done|]).
  - intros s Hin. destruct (path_starts_with s q) eqn:E; [|done]. rewrite <-not_true_iff_false in Hs.
    destruct Hs. apply existsb_elem. eauto.
  - by apply existsb_false.
Qed.
Lemma starts_with_path_eq a b q : path_eq a b → path_starts_with a q = path_starts_with b q.
Proof. intros E. unfold path_starts_with. by rewrite E. Qed.

Section writable.
Context (p : FileSystemSandboxPolicy) (cwd : str) (l : list ResolvedFileSystemEntry)
  (Hcwd : is_absolute cwd = true) (Hpaths : ∀ e s, e ∈ entries p → path e = FsPath s → clean s)
  (Hkind : fs_kind p = FsRestricted) (Hl : resolved_entries_with_cwd p cwd = Ok l)
  (Hcanon : ∀ e, e ∈ l → path_eq (normalize_effective_absolute_path (resolved_path e)) (resolved_path e)).

(** One writable root: computed without failure, and sound. *)
Lemma writable_root_of_sound ws w :
  w ∈ l → grants l (resolved_path w) Write →
  ∃ r, writable_root_of p cwd l ws (normalize_effective_absolute_path (resolved_path w)) = Ok r
    ∧ ∀ c a, is_path_writable r c = true → grants l c a → a = Write.
Proof.
  intros Hw Hg. pose proof (resolved_clean p cwd l w Hcwd Hpaths Hl Hw) as Hwc.
  pose proof (Hcanon _ Hw) as En. destruct Hwc as [Hwa _]. set (r := normalize_effective_absolute_path (resolved_path w)) in *.
  assert (Hra : is_absolute r = true) by (rewrite (is_absolute_path_eq _ _ En); done).
  unfold writable_root_of. match goal with |- context [default_read_only_subpaths_for_writable_root _ ?b] =>
    destruct (default_read_only_total r b Hra) as [k ->] end. run_bind.
  destruct (filterM_spec (λ e, b ← can_write_path_with_cwd p (resolved_path e) cwd; Ok (negb b))
    (filter (λ e, can_write (resolved_access e) = false) l)) as (n & -> & Hn).
  { intros e [_ He]%list_elem_of_filter.
    destruct (can_write_grants p cwd l (resolved_path e) (resolved_clean p cwd l e Hcwd Hpaths Hl He) Hkind Hl) as (a & -> & _).
    run_bind. eauto. }
  run_bind. eexists. split; [done|]. intros c a [Hs Hro]%is_path_writable_spec Ha.
  destruct (decide (a = Write)) as [|Hne]; [done|exfalso]. cbn [root read_only_subpaths] in *.
  rewrite (starts_with_path_eq _ _ c En) in Hs.
  destruct (narrower_entry l w c a Hw Hg Hs Ha Hne) as (e & He & Hce & Ae & Hown & Hwe & Hdiff).
  assert (Hin : e ∈ n).
  { apply Hn. split; [apply list_elem_of_filter; split; [rewrite Ae; by destruct a|done]|].
    destruct (can_write_grants p cwd l (resolved_path e) (resolved_clean p cwd l e Hcwd Hpaths Hl He) Hkind Hl) as (b & -> & Hb).
    rewrite (grants_unique _ _ _ _ Hb Hown). run_bind. by destruct a. }
  assert (Hen : path_eq (normalize_effective_absolute_path (resolved_path e)) (resolved_path e)).
  { by apply Hcanon. }
  destruct (carveout_entry r (filter (λ q, path_eq (normalize_effective_absolute_path q) r) ws) e Hen) as (y & Ey & Hy).
  { by rewrite (starts_with_path_eq _ _ _ En). }
  { intros E. apply Hdiff. unfold path_eq in *. congruence. }
  match type of Hro with context [dedup_absolute_paths ?d _] =>
    destruct (dedup_loop_covers id [] d y) as [(z & Hz & Ez)|(z & []%elem_of_nil & _)] end.
  { apply elem_of_app. right. apply list_elem_of_omap. by exists e. }
  specialize (Hro z Hz). rewrite (starts_with_path_eq z (resolved_path e)) in Hro.
  - unfold covers in Hce. congruence.
  - unfold path_eq, id in *. congruence.
Qed.
End writable.

(** C31. Provided no symbolic link lies on the way to an entry of the policy (the
    canonical form of what each entry resolves to is that path itself) and the paths
    the policy names are absolute and have no dots, the writable roots handed to a
    sandbox are computed without failure and never exceed the policy: a path below
    one of them and below none of its read-only subpaths can be written under the
    policy. Where a link does lie on the way, a root is the canonical form, which the
    policy itself does not name. *)
Theorem writable_roots_sound p cwd l candidate c :
  is_absolute cwd = true → (∀ e s, e ∈ entries p → path e = FsPath s → clean s) →
  resolved_entries_with_cwd p cwd = Ok l →
  (∀ e, e ∈ l → path_eq (normalize_effective_absolute_path (resolved_path e)) (resolved_path e)) →
  resolve_candidate_path candidate cwd = Some c →
  ∃ roots, get_writable_roots_with_cwd p cwd = Ok roots
    ∧ (existsb (λ r, is_path_writable r c) roots = true → can_write_path_with_cwd p candidate cwd = Ok true).
Proof.
  intros Hcwd Hp Hl Hcanon Hc. unfold get_writable_roots_with_cwd.
  destruct (has_full_disk_write_access p) eqn:Hfull; [by exists []|].
  assert (Hk : fs_kind p = FsRestricted) by (unfold has_full_disk_write_access in Hfull; by destruct (fs_kind p)).
  rewrite Hl. run_bind.
  destruct (filterM_spec (λ e, can_write_path_with_cwd p (resolved_path e) cwd)
    (filter (λ e, can_write (resolved_access e) = true) l)) as (ws & -> & Hws).
  { intros e [_ He]%list_elem_of_filter.
    destruct (can_write_grants p cwd l (resolved_path e) (resolved_clean p cwd l e Hcwd Hp Hl He) Hk Hl) as (a & -> & _). eauto. }
  run_bind.
  assert (Hroot : ∀ r, r ∈ dedup_absolute_paths (resolved_path <$> ws) true →
    ∃ wr, writable_root_of p cwd l (resolved_path <$> ws) r = Ok wr
      ∧ ∀ c a, is_path_writable wr c = true → grants l c a → a = Write).
  { intros r (q & (w & -> & Hw)%list_elem_of_fmap & ->)%dedup_loop_elem. apply Hws in Hw as [[_ Hin]%list_elem_of_filter Hcan].
    apply writable_root_of_sound; try done.
    destruct (can_write_grants p cwd l (resolved_path w) (resolved_clean p cwd l w Hcwd Hp Hl Hin) Hk Hl) as (a & Ea & Ha).
    rewrite Hcan in Ea. by destruct a. }
  destruct (mapM_spec (writable_root_of p cwd l (resolved_path <$> ws)) (dedup_absolute_paths (resolved_path <$> ws) true))
    as (roots & -> & Hroots).
  { intros r (wr & ? & _)%Hroot. eauto. }
  exists roots. split; [done|]. intros (wr & (r & Hr & Er)%Hroots & Hwr)%existsb_elem.
  destruct (Hroot r Hr) as (wr' & Er' & Hsound). rewrite Er in Er'. injection Er' as <-.
  unfold can_write_path_with_cwd. destruct (resolve_access_eq p candidate cwd c l Hk Hc Hl) as (a & -> & Ha). run_bind.
  by rewrite (Hsound c a Hwr Ha).
Qed.
Lemma legacy_loop_restricted cwd s d roots :
  legacy_loop cwd s (entries_of_restricted_access d roots) = Ok (scan_lists (scan_defaults s d) [] roots).
Proof.
  unfold entries_of_restricted_access. rewrite legacy_loop_app. destruct d; cbn [legacy_loop].
  - cbn [legacy_step special_entry path access can_read]. run_bind. apply legacy_loop_readable.
  - run_bind. rewrite legacy_loop_readable. destruct s; unfold scan_lists, scan_defaults; cbn. by rewrite orb_false_r.
Qed.
Lemma canonical_legacy_idemp c policy : canonical_legacy c (canonical_legacy c policy) = canonical_legacy c policy.
Proof.
  destruct policy as [|access n|n|w access n t s]; try done; cbn [canonical_legacy]; f_equal.
  - destruct access; [by rewrite dedup_cons_idemp|done].
  - rewrite filter_true; [apply dedup_idemp|]. intros x Hx%dedup_loop_subset. by apply list_elem_of_filter in Hx as [? _].
  - destruct access; cbn; [by rewrite dedup_idemp|done].
Qed.

(** The entries a legacy sandbox policy is translated to, translated back,
    give the legacy policy itself up to roots listed twice and the current
    directory among the roots: no grant, network access or excluded
    temporary directory is lost, and a second round changes nothing. *)
Theorem legacy_round_trip policy cwd :
  is_absolute cwd = true →
  ∃ c, from_absolute_path cwd = Ok c
    ∧ to_legacy_sandbox_policy (from_sandbox_policy policy) (network_of_sandbox_policy policy) cwd
      = Ok (canonical_legacy c policy)
    ∧ canonical_legacy c (canonical_legacy c policy) = canonical_legacy c policy.
Proof.
  intros (c & Ec & Hc)%from_absolute_total. exists c. split_and!; [done| |apply canonical_legacy_idemp].
  unfold to_legacy_sandbox_policy. rewrite Ec. cbn [ok].
  destruct policy as [|acc n|n|w acc n t s]; cbn [from_sandbox_policy fs_kind restricted unrestricted external_sandbox].
  - done.
  - destruct acc as [d roots|]; [|by destruct n]. cbn [restricted entries legacy_loop legacy_step path access special_entry].
    cbn [can_write can_read scan_readable resolve_file_system_special_path]. unfold scan_readable. cbn [can_read]. run_bind.
    rewrite legacy_loop_restricted. cbn. by destruct n.
  - by destruct n.
  - cbn [restricted entries]. rewrite legacy_loop_app.
    assert (Haccess : legacy_loop (Some c) legacy_start
        match acc with FullAccess => [special_entry Root Read]
        | RestrictedAccess d roots => entries_of_restricted_access d roots end
      = Ok match acc with FullAccess => scan_full legacy_start true false
           | RestrictedAccess d roots => scan_lists (scan_defaults legacy_start d) [] roots end).
    { destruct acc; [apply legacy_loop_restricted|done]. }
    rewrite Haccess. run_bind. cbn [app legacy_loop legacy_step path access special_entry can_write]. run_bind.
    rewrite !legacy_loop_app.
    destruct s, t; cbn [legacy_loop legacy_step path access special_entry can_write]; run_bind;
      rewrite ?legacy_loop_app; cbn [legacy_loop legacy_step path access special_entry can_write]; run_bind;
      rewrite legacy_loop_writable by done; cbn; destruct acc as [d roots|], n; cbn; rewrite ?app_nil_r; reflexivity.
Qed.
End resolution.

(** * A concrete environment *)

Definition perm_env : PermEnv := {|
  perm_path_env := lexical_env (lit "/home/me") (lit "/work");
  env_tmpdir := Some (lit "/var/tmp");
  is_dir p := bool_decide (p = lit "/tmp");
  is_file p := false;
  path_exists p := true;
  canonicalize p := Some p;
  read_to_string p := None |}.
Lemma remove_dots_normal cs acc :
  Forall plain_component cs → ParentDir ∉ cs → remove_dots acc cs = acc ++ cs.
Proof.
  intros Hp. revert acc. induction Hp as [|c cs Hc _ IH]; intros acc Hn; [by rewrite app_nil_r|].
  apply not_elem_of_cons in Hn as [Hne Hn]. destruct c as [| | |s]; try done. cbn [remove_dots].
  rewrite IH by done. by rewrite <-app_assoc.
Qed.
Lemma remove_dots_plain cs acc :
  (∀ c, c ∈ cs → c = RootDir ∨ c = CurDir ∨ plain_component c) →
  Forall plain_component acc → ParentDir ∉ acc → (∃ k, remove_dots (RootDir :: acc) cs = RootDir :: k ∧ Forall plain_component k ∧ ParentDir ∉ k).
Proof.
  revert acc. induction cs as [|c cs IH]; intros acc Hcs Ha Hd; cbn [remove_dots]; [by exists acc|].
  assert (Hcs' : ∀ d, d ∈ cs → d = RootDir ∨ d = CurDir ∨ plain_component d) by (intros; apply Hcs; by right).
  pose proof (Hcs c (list_elem_of_here _ _)) as Hc. destruct c as [| | |s].
  - apply IH; [done|constructor|apply not_elem_of_nil].
  - by apply IH.
  - destruct acc as [|a acc _] using rev_ind; [by apply (IH [])|].
    change (RootDir :: acc ++ [a]) with ((RootDir :: acc) ++ [a]). rewrite last_snoc, removelast_snoc.
    apply Forall_app in Ha as [Ha Ha']. apply not_elem_of_app in Hd as [Hd Hd'].
    destruct a; apply IH; try done; by (apply Forall_app || apply not_elem_of_app).
  - apply (IH (acc ++ [Normal s])); [done| |].
    + apply Forall_app. split; [done|]. constructor; [|done]. by destruct Hc as [?|[?|?]].
    + apply not_elem_of_app. split; [done|]. by intros ?%list_elem_of_singleton.
Qed.
Lemma components_cases p c : c ∈ components p → c = RootDir ∨ c = CurDir ∨ plain_component c.
Proof.
  pose proof (named_pieces_plain (split_char slash p) (λ q, split_char_no_sep slash p q)) as Hp.
  rewrite Forall_forall in Hp. unfold components. destruct (is_absolute p).
  - intros [->|?]%elem_of_cons; auto.
  - intros [Hc|?]%elem_of_app; [|auto]. destruct (decide _); [|by apply elem_of_nil in Hc].
    apply list_elem_of_singleton in Hc. auto.
Qed.
Lemma lexical_no_dots b p : ParentDir ∉ components (lexical_absolutize b p).
Proof.
  unfold lexical_absolutize.
  destruct (remove_dots_plain (components (if is_absolute p then p else path_join b p)) [])
    as (k & -> & Hk & Hd); [apply components_cases|constructor|apply not_elem_of_nil|].
  rewrite components_of_components by done. by apply not_elem_of_cons.
Qed.
#[export] Instance perm_env_laws : @PermEnvLaws perm_env.
Proof.
  split; [apply lexical_env_laws|..]; cbn.
  - by intros h [= <-].
  - eauto.
  - intros p q Ha Hd [= <-]. unfold path_eq, lexical_absolutize. rewrite Ha.
    destruct (components_absolute p Ha) as (cs & Ec & Hp). rewrite Ec in *. apply not_elem_of_cons in Hd as [_ Hd].
    cbn [remove_dots]. rewrite remove_dots_normal by done. by apply components_of_components.
  - intros b p q p' Hb E [= <-]. eexists. split; [done|]. unfold lexical_absolutize. f_equal.
    rewrite <-(is_absolute_path_eq p q E). destruct (is_absolute p) eqn:Ha; [by rewrite E|].
    pose proof (is_absolute_path_eq p q E) as Hq. rewrite Ha in Hq.
    destruct (components_path_join b p Hb Ha) as [_ ->], (components_path_join b q Hb (eq_sym Hq)) as [_ ->].
    rewrite !named_pieces_components by done. by rewrite E.
  - eauto.
  - intros p q [= <-]. apply lexical_no_dots.
  - intros b p q _ [= <-]. apply lexical_no_dots.
Qed.

(** The workspace with a protected directory and a writable place inside it. *)
Definition perm_policy : FileSystemSandboxPolicy :=
  restricted [special_entry Root Read; special_entry CurrentWorkingDirectory Write;
              path_entry Read (lit "/work/.git"); path_entry Write (lit "/work/.git/hooks");
              path_entry NoAccess (lit "/work/secret")].
Definition full_policy : FileSystemSandboxPolicy :=
  restricted [special_entry Root Write; special_entry SlashTmp Write; path_entry Read (lit "/tmp");
              special_entry (ProjectRoots None) Read; special_entry CurrentWorkingDirectory Write].

Example resolve_access_ex :
  let access_of p := @resolve_access_with_cwd perm_env perm_policy (lit p) (lit "/work") in
  access_of "src/main.rs" = Ok Write ∧ access_of ".git/config" = Ok Read ∧ access_of ".git/hooks/x" = Ok Write
  ∧ access_of "secret/key" = Ok NoAccess ∧ access_of "/etc/passwd" = Ok Read ∧ access_of ".git/../a" = Ok Write.
Proof. vm_compute. done. Qed.
Example full_policy_ex :
  has_full_disk_write_access full_policy = true
  ∧ @resolve_access_with_cwd perm_env full_policy (lit "/tmp/x") (lit "/work") = Ok Write.
Proof. vm_compute. done. Qed.

Lemma resolve_access_spec_witness :
  @resolve_access_with_cwd perm_env perm_policy (lit ".git/hooks/x") (lit "/work") = Ok Write
  ∧ ∃ l, @resolved_entries_with_cwd perm_env perm_policy (lit "/work") = Ok l ∧ grants l (lit "/work/.git/hooks/x") Write.
Proof.
  split; [vm_compute; reflexivity|]. eexists. split; [vm_compute; reflexivity|].
  apply (resolve_access_spec (H := perm_env) perm_policy (lit ".git/hooks/x") (lit "/work")); vm_compute; reflexivity.
Defined.
Lemma full_disk_access_sound_witness :
  @can_write_path_with_cwd perm_env full_policy (lit "/tmp/x") (lit "/work") = Ok true
  ∧ @can_read_path_with_cwd perm_env full_policy (lit "a") (lit "/work") = Ok true.
Proof.
  assert (Habs : ∀ e s, e ∈ entries full_policy → path e = FsPath s → is_absolute s = true).
  { intros e s He Hp. repeat (apply elem_of_cons in He as [->|He]; [cbn in Hp; try done; by injection Hp as <-|]).
    by apply elem_of_nil in He. }
  assert (Htmp : ∀ t, @from_absolute_path (@perm_path_env perm_env) (lit "/tmp") = Ok t → @is_dir perm_env t = true).
  { intros t [= <-]. vm_compute. reflexivity. }
  split.
  - eapply (full_disk_access_sound (H := perm_env) full_policy (lit "/tmp/x") (lit "/work")); try done; vm_compute; reflexivity.
  - eapply (full_disk_access_sound (H := perm_env) full_policy (lit "a") (lit "/work")); try done; vm_compute; reflexivity.
Defined.
Lemma with_additional_roots_spec_witness :
  ∃ p', @with_additional_writable_roots perm_env perm_policy (lit "/work") [lit "/opt"; lit "/work/secret"] = Ok p'
    ∧ @can_write_path_with_cwd perm_env p' (lit "/opt/x") (lit "/work") = Ok true
    ∧ ∃ l, @extends_access perm_env Write [lit "/opt"; lit "/work/secret"] (lit "/work") perm_policy p' l.
Proof.
  destruct (with_additional_roots_spec (H := perm_env) perm_policy (lit "/work") [lit "/opt"; lit "/work/secret"]
    (from_option id [] (ok (@resolved_entries_with_cwd perm_env perm_policy (lit "/work")))))
    as [(p' & E & Hx) _]; [done| |done|vm_compute; reflexivity|].
  { repeat constructor; vm_compute; intros Hin; repeat (apply elem_of_cons in Hin as [?|Hin]; [done|]); by apply elem_of_nil in Hin. }
  exists p'. split; [exact E|]. split; [|by eexists].
  revert E. vm_compute. intros [= <-]. reflexivity.
Defined.
Lemma legacy_round_trip_witness :
  let policy := WorkspaceWrite [lit "/work"; lit "/a"; lit "/b"; lit "/a/"] FullAccess true false true in
  let p := @to_legacy_sandbox_policy perm_env (from_sandbox_policy policy) (network_of_sandbox_policy policy) (lit "/work") in
  p = Ok (WorkspaceWrite [lit "/a"; lit "/b"] FullAccess true false true)
  ∧ ∃ c, p = Ok (@canonical_legacy perm_env c policy).
Proof.
  split; [vm_compute; reflexivity|].
  destruct (legacy_round_trip (H := perm_env) (WorkspaceWrite [lit "/work"; lit "/a"; lit "/b"; lit "/a/"] FullAccess true false true)
    (lit "/work") eq_refl) as (c & _ & E & _). exists c. exact E.
Defined.

Lemma clean_by q : is_absolute q && bool_decide (ParentDir ∉ components q) = true → clean q.
Proof. intros [Ha Hd%bool_decide_eq_true_1]%andb_true_iff. by split. Qed.
Lemma perm_env_canonical q :
  clean q → path_eq (@normalize_effective_absolute_path perm_env q) q.
Proof.
  intros Hq. pose proof Hq as [Ha Hd]. unfold normalize_effective_absolute_path, ancestors.
  assert (Ef : ∃ rest, ancestors_fuel (length (components q)) q = q :: rest) by (destruct (length _); eexists; reflexivity).
  destruct Ef as [rest ->]. cbn [normalize_effective_loop canonicalize perm_env].
  assert (Es : path_strip_prefix q q = Some []).
  { unfold path_strip_prefix. by rewrite (proj2 (strip_components_Some _ _ []) (eq_sym (app_nil_r _))). }
  cbn [mbind option_bind]. rewrite Es. cbn [mbind option_bind].
  destruct (components_path_join q [] Ha eq_refl) as [Hj Ej]. change (named_pieces _) with (@nil component) in Ej.
  rewrite app_nil_r in Ej.
  destruct (from_absolute_clean (H := perm_env) (path_join q [])) as (y & Ey & Hy); [split; [done|by rewrite Ej]|].
  rewrite Ey. cbn [ok]. unfold path_eq in *. congruence.
Qed.
Definition perm_resolved : list ResolvedFileSystemEntry :=
  match @resolved_entries_with_cwd perm_env perm_policy (lit "/work") with Ok l => l | _ => [] end.
Lemma writable_roots_sound_witness :
  ∃ roots, @get_writable_roots_with_cwd perm_env perm_policy (lit "/work") = Ok roots
    ∧ existsb (λ r, is_path_writable r (lit "/work/.git/hooks/x")) roots = true
    ∧ @can_write_path_with_cwd perm_env perm_policy (lit ".git/hooks/x") (lit "/work") = Ok true.
Proof.
  assert (Hp : ∀ e s, e ∈ entries perm_policy → path e = FsPath s → clean s).
  { intros e s He Hp. repeat (apply elem_of_cons in He as [->|He]; [cbn in Hp; try done; injection Hp as <-; apply clean_by; vm_compute; reflexivity|]). by apply elem_of_nil in He. }
  assert (Hl : @resolved_entries_with_cwd perm_env perm_policy (lit "/work") = Ok perm_resolved) by (vm_compute; reflexivity).
  destruct (writable_roots_sound (H := perm_env) perm_policy (lit "/work") perm_resolved (lit ".git/hooks/x") (lit "/work/.git/hooks/x"))
    as (roots & E & Hs); [done|exact Hp|exact Hl| |vm_compute; reflexivity|].
  { intros e He. apply perm_env_canonical. exact (resolved_clean (H := perm_env) perm_policy (lit "/work") perm_resolved e eq_refl Hp Hl He). }
  exists roots. split; [exact E|].
  assert (Hin : existsb (λ r, is_path_writable r (lit "/work/.git/hooks/x")) roots = true).
  { revert E. clear Hs. vm_compute. by intros [= <-]. }
  split; [exact Hin|]. exact (Hs Hin).
Defined.

(** [/tmp] has to be a directory for the shadowed entry of [full_policy] to
    be harmless: without it the policy reports full write access and still
    refuses to write below [/tmp]. *)
Definition no_tmp_env : PermEnv := {|
  perm_path_env := @perm_path_env perm_env; env_tmpdir := None; is_dir p := false; is_file p := false;
  path_exists p := false; canonicalize p := None; read_to_string p := None |}.
Lemma full_write_without_slash_tmp :
  has_full_disk_write_access full_policy = true
  ∧ @can_write_path_with_cwd no_tmp_env full_policy (lit "/tmp/x") (lit "/work") = Ok false.
Proof. vm_compute. done. Qed.
