(* ===== verification/Bash.v ===== *)
(** Plain commands of a shell script: [codex-rs/shell-command/src/bash.rs] and
    [shell_detect.rs]. The Tree-sitter parser is a parameter that yields a
    syntax tree; the walks over the tree with an explicit stack run on fuel,
    the number of its nodes, which is proved enough. *)
From S2P Require Import Prelude RustStr RustPath.

(** * Syntax trees *)

(** A node: its kind, whether it is named, where it starts, its text
    ([utf8_text], absent when its bytes are not UTF-8) and its children. *)
Inductive Node : Type :=
  MkNode (kind : str) (named : bool) (start : nat) (text : option str) (children : list Node).
Definition kind (n : Node) : str := let 'MkNode k _ _ _ _ := n in k.
Definition is_named (n : Node) : bool := let 'MkNode _ b _ _ _ := n in b.
Definition start_byte (n : Node) : nat := let 'MkNode _ _ s _ _ := n in s.
Definition utf8_text (n : Node) : option str := let 'MkNode _ _ _ t _ := n in t.
Definition children (n : Node) : list Node := let 'MkNode _ _ _ _ cs := n in cs.
Definition named_children (n : Node) : list Node := filter (λ c, is_named c = true) (children n).

(** A tree: its root and whether parsing met an error. *)
Record Tree : Type := { root_node : Node; has_error : bool }.

Fixpoint node_size (n : Node) : nat :=
  let 'MkNode _ _ _ _ cs := n in S (sum_list_with node_size cs).

(** * Shells *)

Inductive ShellType : Type := Zsh | Bash | PowerShell | Sh | Cmd.
#[export] Instance ShellType_eq_dec : EqDecision ShellType.
Proof. solve_decision. Defined.

Definition shell_of_name (name : str) : option ShellType :=
  if decide (name = lit "zsh") then Some Zsh
  else if decide (name = lit "sh") then Some Sh
  else if decide (name = lit "cmd") then Some Cmd
  else if decide (name = lit "bash") then Some Bash
  else if decide (name = lit "pwsh") then Some PowerShell
  else if decide (name = lit "powershell") then Some PowerShell
  else None.
(** The recursion takes the stem of the path, which is shorter. *)
Fixpoint detect_shell_type_fuel (fuel : nat) (shell_path : str) : outcome Empty_set (option ShellType) :=
  match fuel with
  | O => OutOfFuel
  | S fuel' =>
      match shell_of_name shell_path with
      | Some t => Ok (Some t)
      | None =>
          match file_stem shell_path with
          | Some shell_name =>
              if decide (path_eq shell_name shell_path) then Ok None
              else detect_shell_type_fuel fuel' shell_name
          | None => Ok None
          end
      end
  end.
Definition detect_shell_type (shell_path : str) : option ShellType :=
  match detect_shell_type_fuel (S (length shell_path)) shell_path with Ok t => t | _ => None end.

Definition extract_bash_command (command : list str) : option (str * str) :=
  match command with
  | [shell; flag; script] =>
      if negb (bool_decide (flag ∈ [lit "-lc"; lit "-c"]))
         || negb (bool_decide (detect_shell_type shell ∈ [Some Zsh; Some Bash; Some Sh]))
      then None else Some (shell, script)
  | _ => None
  end.

(** * Word-only commands *)

Definition ALLOWED_KINDS : list str :=
  [lit "program"; lit "list"; lit "pipeline"; lit "command"; lit "command_name"; lit "word";
   lit "string"; lit "string_content"; lit "raw_string"; lit "number"; lit "concatenation"].
Definition ALLOWED_PUNCT_TOKENS : list str :=
  [lit "&&"; lit "||"; lit ";"; lit "|"; [34%N]; lit "'"].

(** The test of one node. *)
Definition allowed_node (n : Node) : bool :=
  if is_named n then bool_decide (kind n ∈ ALLOWED_KINDS)
  else
    negb (existsb (λ c, contains_char c (lit "&;|")) (kind n)
          && negb (bool_decide (kind n ∈ ALLOWED_PUNCT_TOKENS)))
    && (bool_decide (kind n ∈ ALLOWED_PUNCT_TOKENS) || bool_decide (trim (kind n) = [])).
Definition is_command_node (n : Node) : bool := is_named n && bool_decide (kind n = lit "command").

(** [while let Some(node) = stack.pop()]: the stack is a list with its top
    first; [None] is the early return. *)
Fixpoint collect_commands (fuel : nat) (stack command_nodes : list Node)
    : outcome Empty_set (option (list Node)) :=
  match stack with
  | [] => Ok (Some command_nodes)
  | node :: stack' =>
      match fuel with
      | O => OutOfFuel
      | S fuel' =>
          if allowed_node node
          then collect_commands fuel' (reverse (children node) ++ stack')
                 (if is_command_node node then command_nodes ++ [node] else command_nodes)
          else Ok None
      end
  end.

Definition parse_double_quoted_string (n : Node) : option str :=
  if decide (kind n ≠ lit "string") then None
  else if forallb (λ part, bool_decide (kind part = lit "string_content")) (named_children n)
  then raw ← utf8_text n; text ← strip_prefix [34%N] raw; strip_suffix [34%N] text
  else None.
Definition parse_raw_string (n : Node) : option str :=
  if decide (kind n ≠ lit "raw_string") then None
  else raw ← utf8_text n; text ← strip_prefix (lit "'") raw; strip_suffix (lit "'") text.

(** A part of a concatenation. *)
Definition parse_part (n : Node) : option str :=
  if decide (kind n ∈ [lit "word"; lit "number"]) then utf8_text n
  else if decide (kind n = lit "string") then parse_double_quoted_string n
  else if decide (kind n = lit "raw_string") then parse_raw_string n
  else None.
(** A named child of a command. *)
Definition parse_word (child : Node) : option str :=
  if decide (kind child = lit "command_name") then
    word_node ← head (named_children child);
    if decide (kind word_node ≠ lit "word") then None else utf8_text word_node
  else if decide (kind child ∈ [lit "word"; lit "number"]) then utf8_text child
  else if decide (kind child = lit "string") then parse_double_quoted_string child
  else if decide (kind child = lit "raw_string") then parse_raw_string child
  else if decide (kind child = lit "concatenation") then
    parts ← mapM parse_part (named_children child);
    if decide (concat parts = []) then None else Some (concat parts)
  else None.
Definition parse_plain_command_from_node (cmd : Node) : option (list str) :=
  if decide (kind cmd ≠ lit "command") then None else mapM parse_word (named_children cmd).

Definition try_parse_word_only_commands_sequence (tree : Tree)
    : outcome Empty_set (option (list (list str))) :=
  if has_error tree then Ok None
  else
    nodes ← collect_commands (node_size (root_node tree)) [root_node tree] [];
    Ok (nodes ← nodes; mapM parse_plain_command_from_node (sort_by_key start_byte nodes)).

(** * A single command with a here-document *)

(** The two walks over named nodes. *)
Fixpoint has_named_descendant_kind_loop (fuel : nat) (stack : list Node) (k : str)
    : outcome Empty_set bool :=
  match stack with
  | [] => Ok false
  | current :: stack' =>
      match fuel with
      | O => OutOfFuel
      | S fuel' =>
          if decide (kind current = k) then Ok true
          else has_named_descendant_kind_loop fuel' (reverse (named_children current) ++ stack') k
      end
  end.
Definition has_named_descendant_kind (n : Node) (k : str) : outcome Empty_set bool :=
  has_named_descendant_kind_loop (node_size n) [n] k.

Fixpoint find_single_command_loop (fuel : nat) (stack : list Node) (single_command : option Node)
    : outcome Empty_set (option Node) :=
  match stack with
  | [] => Ok single_command
  | node :: stack' =>
      match fuel with
      | O => OutOfFuel
      | S fuel' =>
          let continue s := find_single_command_loop fuel' (reverse (named_children node) ++ stack') s in
          if decide (kind node = lit "command") then
            match single_command with Some _ => Ok None | None => continue (Some node) end
          else continue single_command
      end
  end.
Definition find_single_command_node (root : Node) : outcome Empty_set (option Node) :=
  find_single_command_loop (node_size root) [root] None.

Definition is_literal_word_or_number (n : Node) : bool :=
  bool_decide (kind n ∈ [lit "word"; lit "number"]) && bool_decide (named_children n = []).
Definition is_allowed_heredoc_attachment_kind (k : str) : bool :=
  bool_decide (k ∈ [lit "heredoc_body"; lit "simple_heredoc_body"; lit "heredoc_redirect";
                    lit "herestring_redirect"; lit "file_redirect"; lit "redirected_statement"]).

(** A named child: a word, nothing ([Some None]) or a refusal. *)
Definition heredoc_word (child : Node) : option (option str) :=
  if decide (kind child = lit "command_name") then
    word_node ← head (named_children child);
    if negb (bool_decide (kind word_node ∈ [lit "word"; lit "number"]))
       || negb (is_literal_word_or_number word_node)
    then None else Some <$> utf8_text word_node
  else if decide (kind child ∈ [lit "word"; lit "number"]) then
    if is_literal_word_or_number child then Some <$> utf8_text child else None
  else if decide (kind child ∈ [lit "variable_assignment"; lit "comment"]) then Some None
  else if is_allowed_heredoc_attachment_kind (kind child) then Some None
  else None.
Definition parse_heredoc_command_words (cmd : Node) : option (list str) :=
  if decide (kind cmd ≠ lit "command") then None
  else
    words ← mapM heredoc_word (named_children cmd);
    if decide (omap id words = []) then None else Some (omap id words).

Section shell.
(** [try_parse_shell]: the Tree-sitter parser. *)
Variable try_parse_shell : str → option Tree.

Definition parse_shell_lc_plain_commands (command : list str)
    : outcome Empty_set (option (list (list str))) :=
  match extract_bash_command command with
  | Some (_, script) =>
      match try_parse_shell script with
      | Some tree => try_parse_word_only_commands_sequence tree
      | None => Ok None
      end
  | None => Ok None
  end.

Definition parse_shell_lc_single_command_prefix (command : list str)
    : outcome Empty_set (option (list str)) :=
  match extract_bash_command command with
  | Some (_, script) =>
      match try_parse_shell script with
      | Some tree =>
          if has_error tree then Ok None
          else
            found ← has_named_descendant_kind (root_node tree) (lit "heredoc_redirect");
            if found : bool then
              command_node ← find_single_command_node (root_node tree);
              Ok (command_node ≫= parse_heredoc_command_words)
            else Ok None
      | None => Ok None
      end
  | None => Ok None
  end.
End shell.

(** * Lemmas *)

Lemma split_char_head_prefix c s p ps : split_char c s = p :: ps → p `prefix_of` s.
Proof.
  revert p ps. induction s as [|x s IH]; intros p ps; simpl; [by intros [= <- <-]|].
  destruct (x =? c)%N; [intros [= <- <-]; apply prefix_nil|].
  destruct (split_char c s) as [|q qs]; [intros [= <- <-]; apply prefix_cons, prefix_nil|].
  intros [= <- <-]. apply prefix_cons. by eapply IH.
Qed.

(** A piece of a string is a slice of it. *)
Lemma split_char_infix c s p : p ∈ split_char c s → ∃ a b, s = a ++ p ++ b.
Proof.
  revert p. induction s as [|x s IH]; intros p; simpl.
  { intros ->%list_elem_of_singleton. by exists [], []. }
  assert (p ∈ split_char c s → ∃ a b, x :: s = a ++ p ++ b) as Hin.
  { intros (a & b & ->)%IH. by exists (x :: a), b. }
  destruct (x =? c)%N; [intros [->|?]%elem_of_cons; [by exists [], (x :: s)|auto]|].
  destruct (split_char c s) as [|q qs] eqn:E; [by apply split_char_not_nil in E|].
  intros [->|?]%elem_of_cons; [|by apply Hin, list_elem_of_further].
  destruct (split_char_head_prefix _ _ _ _ E) as [k ->]. by exists [], k.
Qed.


Lemma named_pieces_Normal s ps : Normal s ∈ named_pieces ps → s ∈ ps.
Proof.
  unfold named_pieces, classify. intros (x & Hx & [_ Hin]%list_elem_of_filter)%list_elem_of_fmap.
  case_decide; congruence.
Qed.

Lemma file_name_infix p n : file_name p = Some n → ∃ a b, p = a ++ n ++ b.
Proof.
  unfold file_name. destruct (last (components p)) as [[| | |s]|] eqn:E; try done.
  intros [= ->]. apply last_elem in E. apply (split_char_infix slash), named_pieces_Normal.
  unfold components in E. destruct (is_absolute p); [by apply elem_of_cons in E as [|]|].
  apply elem_of_app in E as [E|]; [|done].
  case_decide; [by apply list_elem_of_singleton in E|by apply not_elem_of_nil in E].
Qed.

Lemma file_stem_infix p n : file_stem p = Some n → ∃ a b, p = a ++ n ++ b.
Proof.
  unfold file_stem. intros (name & (a & b & ->)%file_name_infix & ->)%fmap_Some.
  unfold stem_of_name. destruct (rsplit_once 46 name) as [[before after]|] eqn:E; [|eauto].
  apply rsplit_once_Some in E as [-> _]. destruct before as [|x before]; [eauto|].
  exists a, ((46%N :: after) ++ b). by rewrite <-!app_assoc.
Qed.

(** The recursion of [detect_shell_type] ends. *)
Lemma detect_shell_type_total fuel p : length p < fuel → ∃ t, detect_shell_type_fuel fuel p = Ok t.
Proof.
  revert p. induction fuel as [|fuel IH]; intros p Hl; [lia|]. cbn [detect_shell_type_fuel].
  destruct (shell_of_name p); [eauto|]. destruct (file_stem p) as [n|] eqn:E; [|eauto].
  case_decide as Hne; [eauto|]. apply IH. apply file_stem_infix in E as (a & b & ->).
  rewrite !length_app in Hl. destruct a as [|x a]; [destruct b as [|y b]|]; simpl in *; try lia.
  destruct Hne. unfold path_eq. by rewrite app_nil_r.
Qed.

(** All nodes of a tree. *)
Fixpoint subnodes (n : Node) : list Node :=
  let 'MkNode _ _ _ _ cs := n in n :: flat_map subnodes cs.
Definition nodes_of (stack : list Node) : list Node := flat_map subnodes stack.
Abbreviation stack_size stack := (sum_list_with node_size stack).

Lemma subnodes_eq n : subnodes n = n :: nodes_of (children n).
Proof. by destruct n. Qed.
Lemma node_size_eq n : node_size n = S (stack_size (children n)).
Proof. by destruct n. Qed.
Lemma nodes_of_app a b : nodes_of (a ++ b) = nodes_of a ++ nodes_of b.
Proof. apply flat_map_app. Qed.
Lemma nodes_of_reverse l : nodes_of (reverse l) ≡ₚ nodes_of l.
Proof.
  induction l as [|x l IH]; [done|]. rewrite reverse_cons, nodes_of_app, IH. simpl.
  rewrite app_nil_r. apply Permutation_app_comm.
Qed.
Lemma stack_size_reverse l : stack_size (reverse l) = stack_size l.
Proof.
  induction l as [|x l IH]; [done|]. rewrite reverse_cons, sum_list_with_app, IH. simpl. lia.
Qed.

(** The walk: all nodes are allowed and the commands among them are collected,
    or some node is not allowed. *)
Lemma collect_commands_spec fuel stack acc :
  stack_size stack ≤ fuel →
  (Forall (λ n, allowed_node n = true) (nodes_of stack)
   ∧ ∃ cs, cs ≡ₚ filter (λ n, is_command_node n = true) (nodes_of stack)
           ∧ collect_commands fuel stack acc = Ok (Some (acc ++ cs)))
  ∨ (¬ Forall (λ n, allowed_node n = true) (nodes_of stack)
     ∧ collect_commands fuel stack acc = Ok None).
Proof.
  revert stack acc. induction fuel as [|fuel IH]; intros [|n stack] acc Hf.
  - left. split; [constructor|]. exists []. by rewrite app_nil_r.
  - simpl in Hf. rewrite node_size_eq in Hf. lia.
  - left. split; [constructor|]. exists []. by rewrite app_nil_r.
  - cbn [collect_commands].
    change (nodes_of (n :: stack)) with (subnodes n ++ nodes_of stack). rewrite subnodes_eq.
    destruct (allowed_node n) eqn:En.
    2:{ right. split; [|done]. intros HF. apply Forall_app, proj1, Forall_cons, proj1 in HF. congruence. }
    assert (stack_size (reverse (children n) ++ stack) ≤ fuel) as Hf'.
    { rewrite sum_list_with_app, stack_size_reverse. simpl in Hf. rewrite node_size_eq in Hf. lia. }
    assert (nodes_of (reverse (children n) ++ stack) ≡ₚ nodes_of (children n) ++ nodes_of stack) as Hp.
    { by rewrite nodes_of_app, nodes_of_reverse. }
    destruct (IH _ (if is_command_node n then acc ++ [n] else acc) Hf') as [(HF & cs & Hcs & ->)|(HF & ->)].
    + left. rewrite Hp in HF, Hcs. split; [simpl; by constructor|].
      simpl. rewrite filter_cons. destruct (is_command_node n) eqn:Ec.
      * rewrite decide_True by done. exists (n :: cs). split; [by rewrite Hcs|]. by rewrite <-app_assoc.
      * rewrite decide_False by done. by exists cs.
    + right. split; [|done]. rewrite Hp in HF. simpl. intros HF'. by apply Forall_cons in HF' as [_ ?].
Qed.

(** The nodes a document order gives: by where they start. *)
Definition in_order (ns : list Node) : Prop := StronglySorted (λ a b, start_byte a ≤ start_byte b) ns.

(** Parsing a script into plain commands always ends, and it answers
    with commands iff the tree has no error, every node of it is of an allowed
    kind and every command node is made of literal words; the answer is the
    words of all the command nodes, by their position in the script. *)
Theorem word_only_commands_spec tree :
  ∃ r, try_parse_word_only_commands_sequence tree = Ok r
  ∧ (∀ cmds, r = Some cmds →
      has_error tree = false
      ∧ Forall (λ n, allowed_node n = true) (subnodes (root_node tree))
      ∧ ∃ ns, ns ≡ₚ filter (λ n, is_command_node n = true) (subnodes (root_node tree))
              ∧ in_order ns ∧ mapM parse_plain_command_from_node ns = Some cmds)
  ∧ (has_error tree = false →
     Forall (λ n, allowed_node n = true) (subnodes (root_node tree)) →
     Forall (λ n, is_command_node n = true → is_Some (parse_plain_command_from_node n))
       (subnodes (root_node tree)) →
     is_Some r).
Proof.
  unfold try_parse_word_only_commands_sequence. destruct (has_error tree); [by exists None|].
  assert (stack_size [root_node tree] ≤ node_size (root_node tree)) as Hs by (simpl; lia).
  assert (nodes_of [root_node tree] = subnodes (root_node tree)) as Hn by (simpl; by rewrite app_nil_r).
  destruct (collect_commands_spec _ _ [] Hs) as [(HF & cs & Hcs & ->)|(HF & ->)]; rewrite Hn in *;
    cbn [mbind outcome_bind option_bind]; eexists; (split; [reflexivity|]).
  2:{ done. }
  split.
  - intros cmds Hc. split; [done|]. split; [done|]. eexists.
    split; [|split; [apply sort_by_key_sorted|exact Hc]]. by rewrite sort_by_key_perm.
  - intros _ _ Hok. apply mapM_is_Some. rewrite sort_by_key_perm. simpl. rewrite Hcs.
    apply Forall_forall. intros n [Hc Hin]%list_elem_of_filter.
    by apply (proj1 (Forall_forall _ _) Hok).
Qed.

(** The nodes reached through named children. *)
Fixpoint named_subnodes (n : Node) : list Node :=
  let 'MkNode _ _ _ _ cs := n in
  n :: flat_map (λ c, if is_named c then named_subnodes c else []) cs.
Definition named_nodes_of (stack : list Node) : list Node := flat_map named_subnodes stack.

Lemma named_subnodes_eq n : named_subnodes n = n :: named_nodes_of (named_children n).
Proof.
  destruct n as [k b s t cs]. simpl. f_equal. unfold named_children, named_nodes_of. simpl.
  induction cs as [|c cs IH]; [done|]. simpl. rewrite filter_cons.
  destruct (is_named c); [rewrite decide_True by done; simpl; by rewrite IH|by rewrite decide_False by done].
Qed.
Lemma named_nodes_of_push n stack :
  named_nodes_of (reverse (named_children n) ++ stack) ≡ₚ
  named_nodes_of (named_children n) ++ named_nodes_of stack.
Proof.
  unfold named_nodes_of. rewrite flat_map_app. apply Permutation_app_tail.
  induction (named_children n) as [|x l IH]; [done|]. rewrite reverse_cons, flat_map_app, IH. simpl.
  rewrite app_nil_r. apply Permutation_app_comm.
Qed.
Lemma named_children_size n : stack_size (named_children n) ≤ stack_size (children n).
Proof.
  unfold named_children. induction (children n) as [|c cs IH]; [done|]. rewrite filter_cons.
  case_decide; simpl; lia.
Qed.
Lemma push_size n stack fuel :
  stack_size (n :: stack) ≤ S fuel → stack_size (reverse (named_children n) ++ stack) ≤ fuel.
Proof.
  intros Hf. rewrite sum_list_with_app, stack_size_reverse. simpl in Hf.
  rewrite node_size_eq in Hf. pose proof (named_children_size n). lia.
Qed.

Lemma has_named_descendant_loop_spec fuel stack k :
  stack_size stack ≤ fuel →
  ∃ b, has_named_descendant_kind_loop fuel stack k = Ok b
       ∧ (b = true ↔ ∃ n, n ∈ named_nodes_of stack ∧ kind n = k).
Proof.
  revert stack. induction fuel as [|fuel IH]; intros [|n stack] Hf; cbn [has_named_descendant_kind_loop];
    try (exists false; split; [done|]; split; [done|]; by intros (? & ?%not_elem_of_nil & _)).
  { simpl in Hf. rewrite node_size_eq in Hf. lia. }
  change (named_nodes_of (n :: stack)) with (named_subnodes n ++ named_nodes_of stack).
  rewrite named_subnodes_eq. case_decide as Hk.
  - exists true. split; [done|]. split; [|done]. intros _. exists n. split; [apply list_elem_of_here|done].
  - destruct (IH _ (push_size _ _ _ Hf)) as (b & -> & Hb). exists b. split; [done|].
    rewrite Hb. setoid_rewrite named_nodes_of_push. split.
    + intros (m & Hm & ?). exists m. split; [by apply list_elem_of_further|done].
    + intros (m & [->|Hm]%elem_of_cons & ?); [done|]. by exists m.
Qed.

Definition commands_among (ns : list Node) : list Node := filter (λ n, kind n = lit "command") ns.

Lemma find_single_command_loop_spec fuel stack found :
  stack_size stack ≤ fuel →
  ∃ r, find_single_command_loop fuel stack found = Ok r
       ∧ ∀ n, r = Some n → commands_among (named_nodes_of stack) ≡ₚ
                           match found with Some m => [] | None => [n] end
                           ∧ default n found = n.
Proof.
  revert stack found. induction fuel as [|fuel IH]; intros [|n stack] found Hf;
    cbn [find_single_command_loop].
  1,3: exists found; split; [done|]; intros m ->; done.
  { simpl in Hf. rewrite node_size_eq in Hf. lia. }
  change (named_nodes_of (n :: stack)) with (named_subnodes n ++ named_nodes_of stack).
  rewrite named_subnodes_eq. unfold commands_among in *. simpl. setoid_rewrite filter_cons.
  case_decide as Hk.
  - destruct found as [m|]; [by exists None|].
    destruct (IH _ (Some n) (push_size _ _ _ Hf)) as (r & -> & Hr). exists r. split; [done|].
    intros m Hm. destruct (Hr m Hm) as [Hp Hd]. simpl in Hd. subst m.
    rewrite <-named_nodes_of_push. by rewrite Hp.
  - destruct (IH _ found (push_size _ _ _ Hf)) as (r & -> & Hr). exists r. split; [done|].
    intros m Hm. destruct (Hr m Hm) as [Hp Hd]. split; [|done]. by rewrite <-named_nodes_of_push.
Qed.

(** The here-document fallback always ends; when it answers with words,
    the command is a shell invocation whose script parses without error, has a
    here-document, and has exactly one command node among its named nodes,
    which the words come from. *)
Theorem single_command_prefix_spec try_parse_shell command :
  ∃ r, parse_shell_lc_single_command_prefix try_parse_shell command = Ok r
  ∧ ∀ words, r = Some words →
    ∃ shell script tree node,
      extract_bash_command command = Some (shell, script)
      ∧ try_parse_shell script = Some tree ∧ has_error tree = false
      ∧ (∃ n, n ∈ named_subnodes (root_node tree) ∧ kind n = lit "heredoc_redirect")
      ∧ commands_among (named_subnodes (root_node tree)) ≡ₚ [node]
      ∧ parse_heredoc_command_words node = Some words ∧ words ≠ [].
Proof.
  unfold parse_shell_lc_single_command_prefix.
  destruct (extract_bash_command command) as [[shell script]|]; [|by exists None].
  destruct (try_parse_shell script) as [tree|] eqn:Et; [|by exists None].
  destruct (has_error tree) eqn:Ee; [by exists None|].
  assert (stack_size [root_node tree] ≤ node_size (root_node tree)) as Hs by (simpl; lia).
  assert (named_nodes_of [root_node tree] = named_subnodes (root_node tree)) as Hn
    by (unfold named_nodes_of; simpl; by rewrite app_nil_r).
  unfold has_named_descendant_kind, find_single_command_node.
  destruct (has_named_descendant_loop_spec _ _ (lit "heredoc_redirect") Hs) as (b & -> & Hb).
  run_bind. destruct b; [|by exists None].
  destruct (find_single_command_loop_spec _ _ None Hs) as (r & -> & Hr).
  run_bind. eexists. split; [reflexivity|].
  rewrite Hn in *. intros words Hw. destruct r as [node|]; [|done]. cbn in Hw.
  exists shell, script, tree, node. split; [done|]. split; [done|]. split; [done|].
  split; [by apply Hb|]. split; [by apply (Hr node)|]. split; [done|].
  unfold parse_heredoc_command_words in Hw. case_decide; [done|].
  destruct (mapM heredoc_word _) as [ws|]; [|done]. cbn in Hw. case_decide; congruence.
Qed.

(** Both parsers always answer. *)
Lemma plain_commands_total try_parse_shell command :
  ∃ r, parse_shell_lc_plain_commands try_parse_shell command = Ok r.
Proof.
  unfold parse_shell_lc_plain_commands.
  destruct (extract_bash_command command) as [[shell script]|]; [|eauto].
  destruct (try_parse_shell script) as [tree|]; [|eauto].
  unfold try_parse_word_only_commands_sequence. destruct (has_error tree); [eauto|].
  assert (stack_size [root_node tree] ≤ node_size (root_node tree)) as Hs by (simpl; lia).
  destruct (collect_commands_spec _ _ [] Hs) as [(_ & cs & _ & ->)|(_ & ->)]; cbn; eauto.
Qed.

Lemma single_command_total try_parse_shell command :
  ∃ r, parse_shell_lc_single_command_prefix try_parse_shell command = Ok r.
Proof.
  unfold parse_shell_lc_single_command_prefix.
  destruct (extract_bash_command command) as [[shell script]|]; [|eauto].
  destruct (try_parse_shell script) as [tree|]; [|eauto]. destruct (has_error tree); [eauto|].
  assert (stack_size [root_node tree] ≤ node_size (root_node tree)) as Hs by (simpl; lia).
  unfold has_named_descendant_kind, find_single_command_node.
  destruct (has_named_descendant_loop_spec _ _ (lit "heredoc_redirect") Hs) as (b & -> & _). cbn.
  destruct b; [|eauto]. destruct (find_single_command_loop_spec _ _ None Hs) as (r & -> & _). cbn. eauto.
Qed.
