(* ===== verification/CommandSafety.v ===== *)
(** Commands that may run without asking and commands that must not:
    [codex-rs/shell-command/src/command_safety] (is_safe_command.rs,
    is_dangerous_command.rs, and the PowerShell safelist of
    windows_safe_commands.rs, which every platform runs), on Linux. The
    Tree-sitter parser and the PowerShell process that parses a script are
    parameters. *)
From S2P Require Import Prelude RustStr RustPath Bash.

#[local] Notation "x ∈? l" := (bool_decide (x ∈ (l : list str))) (at level 70).
Definition starts_with_any (ps : list str) (s : str) : bool := existsb (λ p, starts_with p s) ps.

(** * Git options *)

Definition is_git_global_option_with_value (arg : str) : bool :=
  arg ∈? [lit "-C"; lit "-c"; lit "--config-env"; lit "--exec-path"; lit "--git-dir";
          lit "--namespace"; lit "--super-prefix"; lit "--work-tree"].
Definition is_git_global_option_with_inline_value (arg : str) : bool :=
  starts_with_any [lit "--config-env="; lit "--exec-path="; lit "--git-dir="; lit "--namespace=";
                   lit "--super-prefix="; lit "--work-tree="] arg
  || (starts_with (lit "-C") arg || starts_with (lit "-c") arg) && (2 <? str_len arg)%N.
Definition git_global_option_requires_prompt (arg : str) : bool :=
  (arg ∈? [lit "-c"; lit "--config-env"; lit "--exec-path"; lit "--git-dir"; lit "--namespace";
           lit "--super-prefix"; lit "--work-tree"])
  || starts_with (lit "-c") arg && (2 <? str_len arg)%N
  || starts_with_any [lit "--config-env="; lit "--exec-path="; lit "--git-dir="; lit "--namespace=";
                      lit "--super-prefix="; lit "--work-tree="] arg.

(** Not Windows. *)
Definition executable_name_lookup_key (raw : str) : option str := file_name raw.

(** The loop over the arguments from index [idx] on. *)
Fixpoint find_git_subcommand_loop (subcommands : list str) (skip_next : bool) (idx : nat)
    (args : list str) : option (nat * str) :=
  match args with
  | [] => None
  | arg :: args' =>
      if skip_next then find_git_subcommand_loop subcommands false (S idx) args'
      else if is_git_global_option_with_inline_value arg
           then find_git_subcommand_loop subcommands false (S idx) args'
      else if is_git_global_option_with_value arg
           then find_git_subcommand_loop subcommands true (S idx) args'
      else if bool_decide (arg = lit "--") || starts_with (lit "-") arg
           then find_git_subcommand_loop subcommands false (S idx) args'
      else if arg ∈? subcommands then Some (idx, arg)
      else None
  end.
Definition find_git_subcommand (command subcommands : list str) : option (nat * str) :=
  match command with
  | [] => None
  | cmd0 :: args =>
      if decide (executable_name_lookup_key cmd0 ≠ Some (lit "git")) then None
      else find_git_subcommand_loop subcommands false 1 args
  end.

(** * Dangerous commands *)

Fixpoint is_dangerous_to_call_with_exec (command : list str) : bool :=
  match command with
  | [] => false
  | cmd0 :: args =>
      if decide (cmd0 = lit "rm") then
        match args with arg :: _ => arg ∈? [lit "-f"; lit "-rf"] | [] => false end
      else if decide (cmd0 = lit "sudo") then is_dangerous_to_call_with_exec args
      else false
  end.

(** * Safe commands *)

Definition safe_names : list str :=
  [lit "cat"; lit "cd"; lit "cut"; lit "echo"; lit "expr"; lit "false"; lit "grep"; lit "head";
   lit "id"; lit "ls"; lit "nl"; lit "paste"; lit "pwd"; lit "rev"; lit "seq"; lit "stat";
   lit "tail"; lit "tr"; lit "true"; lit "uname"; lit "uniq"; lit "wc"; lit "which"; lit "whoami"].
Definition linux_safe_names : list str := [lit "numfmt"; lit "tac"].

Definition UNSAFE_BASE64_OPTIONS : list str := [lit "-o"; lit "--output"].
Definition unsafe_base64_arg (arg : str) : bool :=
  (arg ∈? UNSAFE_BASE64_OPTIONS) || starts_with (lit "--output=") arg
  || starts_with (lit "-o") arg && negb (bool_decide (arg = lit "-o")).

Definition UNSAFE_FIND_OPTIONS : list str :=
  [lit "-exec"; lit "-execdir"; lit "-ok"; lit "-okdir"; lit "-delete"; lit "-fls"; lit "-fprint";
   lit "-fprint0"; lit "-fprintf"].

Definition UNSAFE_RIPGREP_OPTIONS_WITH_ARGS : list str := [lit "--pre"; lit "--hostname-bin"].
Definition UNSAFE_RIPGREP_OPTIONS_WITHOUT_ARGS : list str := [lit "--search-zip"; lit "-z"].
Definition unsafe_ripgrep_arg (arg : str) : bool :=
  (arg ∈? UNSAFE_RIPGREP_OPTIONS_WITHOUT_ARGS)
  || existsb (λ opt, bool_decide (arg = opt) || starts_with (opt ++ lit "=") arg)
       UNSAFE_RIPGREP_OPTIONS_WITH_ARGS.

Definition git_has_unsafe_global_option (command : list str) : bool :=
  existsb git_global_option_requires_prompt (drop 1 command).

Definition UNSAFE_GIT_FLAGS : list str :=
  [lit "--output"; lit "--ext-diff"; lit "--textconv"; lit "--exec"; lit "--paginate"].
Definition unsafe_git_arg (arg : str) : bool :=
  (arg ∈? UNSAFE_GIT_FLAGS) || starts_with (lit "--output=") arg || starts_with (lit "--exec=") arg.
Definition git_subcommand_args_are_read_only (args : list str) : bool :=
  negb (existsb unsafe_git_arg args).

Definition read_only_branch_flag (arg : str) : bool :=
  (arg ∈? [lit "--list"; lit "-l"; lit "--show-current"; lit "-a"; lit "--all"; lit "-r";
           lit "--remotes"; lit "-v"; lit "-vv"; lit "--verbose"])
  || starts_with (lit "--format=") arg.
Fixpoint branch_loop (saw_read_only_flag : bool) (args : list str) : bool :=
  match args with
  | [] => saw_read_only_flag
  | arg :: args' => if read_only_branch_flag arg then branch_loop true args' else false
  end.
Definition git_branch_is_read_only (branch_args : list str) : bool :=
  match branch_args with [] => true | _ => branch_loop false branch_args end.

Definition safe_git_subcommands : list str :=
  [lit "status"; lit "log"; lit "diff"; lit "show"; lit "branch"].
Definition is_safe_git (command : list str) : bool :=
  if git_has_unsafe_global_option command then false
  else
    match find_git_subcommand command safe_git_subcommands with
    | None => false
    | Some (subcommand_idx, subcommand) =>
        let subcommand_args := drop (S subcommand_idx) command in
        if subcommand ∈? [lit "status"; lit "log"; lit "diff"; lit "show"]
        then git_subcommand_args_are_read_only subcommand_args
        else if decide (subcommand = lit "branch")
        then git_subcommand_args_are_read_only subcommand_args && git_branch_is_read_only subcommand_args
        else false
    end.

Definition all_digits (s : str) : bool := negb (bool_decide (s = [])) && forallb is_ascii_digit s.
Definition is_valid_sed_n_arg (arg : option str) : bool :=
  match arg with
  | None => false
  | Some s =>
      match strip_suffix (lit "p") s with
      | None => false
      | Some core =>
          match split_char 44 core with
          | [num] => all_digits num
          | [a; b] => all_digits a && all_digits b
          | _ => false
          end
      end
  end.

Definition is_safe_to_call_with_exec (command : list str) : bool :=
  match command with
  | [] => false
  | cmd0 :: _ =>
      match executable_name_lookup_key cmd0 with
      | None => false
      | Some cmd =>
          if cmd ∈? linux_safe_names then true
          else if cmd ∈? safe_names then true
          else if decide (cmd = lit "base64") then negb (existsb unsafe_base64_arg (drop 1 command))
          else if decide (cmd = lit "find") then negb (existsb (λ arg, arg ∈? UNSAFE_FIND_OPTIONS) command)
          else if decide (cmd = lit "rg") then negb (existsb unsafe_ripgrep_arg command)
          else if decide (cmd = lit "git") then is_safe_git command
          else if decide (cmd = lit "sed") then
            (length command <=? 4) && bool_decide (command !! 1 = Some (lit "-n"))
            && is_valid_sed_n_arg (command !! 2)
          else false
      end
  end.

(** * The PowerShell safelist *)

Definition is_powershell_executable (exe : str) : bool :=
  to_ascii_lowercase (default exe (file_name exe))
    ∈? [lit "powershell"; lit "powershell.exe"; lit "pwsh"; lit "pwsh.exe"].

(** [arg.replace('\'', "''")]. *)
Definition double_quotes (arg : str) : str :=
  concat ((λ c, if (c =? 39)%N then [39; 39]%N else [c]) <$> arg).
Definition quote_argument (arg : str) : str :=
  if decide (arg = []) then lit "''"
  else if forallb (λ ch, negb (is_whitespace ch)) arg then arg
  else lit "'" ++ double_quotes arg ++ lit "'".
Definition join_arguments_as_script (args : list str) : str :=
  join (lit " ") (match args with [] => [] | first :: rest => first :: (quote_argument <$> rest) end).

Definition is_paren (c : N) : bool := (c =? 40)%N || (c =? 41)%N.
(** [trim_matches(parentheses).trim_start_matches('-').to_ascii_lowercase()]. *)
Definition inner_word (w : str) : str :=
  to_ascii_lowercase (trim_start_matches (N.eqb 45)
    (trim_end_matches is_paren (trim_start_matches is_paren w))).
Definition side_effecting_cmdlets : list str :=
  [lit "set-content"; lit "add-content"; lit "out-file"; lit "new-item"; lit "remove-item";
   lit "move-item"; lit "copy-item"; lit "rename-item"; lit "start-process"; lit "stop-process"].
Definition read_only_cmdlets : list str :=
  [lit "echo"; lit "write-output"; lit "write-host"; lit "dir"; lit "ls"; lit "get-childitem";
   lit "gci"; lit "cat"; lit "type"; lit "gc"; lit "get-content"; lit "select-string"; lit "sls";
   lit "findstr"; lit "measure-object"; lit "measure"; lit "get-location"; lit "gl"; lit "pwd";
   lit "test-path"; lit "tp"; lit "resolve-path"; lit "rvpa"; lit "select-object"; lit "select";
   lit "get-item"].

Definition is_safe_ripgrep (words : list str) : bool :=
  negb (existsb (λ arg, unsafe_ripgrep_arg (to_ascii_lowercase arg)) (drop 1 words)).

Definition SAFE_SUBCOMMANDS : list str :=
  [lit "status"; lit "log"; lit "show"; lit "diff"; lit "cat-file"].
Fixpoint safe_git_loop (args : list str) : bool :=
  match args with
  | [] => false
  | arg :: args' =>
      let arg_lc := to_ascii_lowercase arg in
      if starts_with (lit "-") arg then
        if git_global_option_requires_prompt arg_lc || bool_decide (arg_lc = lit "--config")
           || starts_with (lit "--config=") arg_lc
        then false else safe_git_loop args'
      else arg_lc ∈? SAFE_SUBCOMMANDS
  end.
Definition is_safe_git_command (words : list str) : bool := safe_git_loop (drop 1 words).

Definition is_safe_powershell_command (words : list str) : bool :=
  match words with
  | [] => false
  | word0 :: _ =>
      if existsb (λ w, inner_word w ∈? side_effecting_cmdlets) words then false
      else
        let command := inner_word word0 in
        if command ∈? read_only_cmdlets then true
        else if decide (command = lit "git") then is_safe_git_command words
        else if decide (command = lit "rg") then is_safe_ripgrep words
        else false
  end.

Section safety.
Variable try_parse_shell : str → option Tree.
(** [parse_with_powershell_ast]: the commands of a script, if the PowerShell
    process could parse it. *)
Variable parse_with_powershell_ast : str → str → option (list (list str)).

(** The scan of the arguments, [rest] being those from [idx] on. *)
Fixpoint powershell_args (executable : str) (args : list str) : option (list (list str)) :=
  match args with
  | [] => None
  | arg :: args' =>
      let lower := to_ascii_lowercase arg in
      if lower ∈? [lit "-command"; lit "/command"; lit "-c"] then
        match args' with
        | [script] => parse_with_powershell_ast executable script
        | _ => None
        end
      else if starts_with (lit "-command:") lower || starts_with (lit "/command:") lower then
        match args' with
        | [] => '(_, script) ← split_once 58 arg; parse_with_powershell_ast executable script
        | _ => None
        end
      else if lower ∈? [lit "-nologo"; lit "-noprofile"; lit "-noninteractive"; lit "-mta"; lit "-sta"]
      then powershell_args executable args'
      else if lower ∈? [lit "-encodedcommand"; lit "-ec"; lit "-file"; lit "/file"; lit "-windowstyle";
                        lit "-executionpolicy"; lit "-workingdirectory"]
      then None
      else if starts_with (lit "-") lower then None
      else parse_with_powershell_ast executable (join_arguments_as_script args)
  end.
Definition parse_powershell_invocation (executable : str) (args : list str) : option (list (list str)) :=
  match args with [] => None | _ => powershell_args executable args end.
Definition try_parse_powershell_command_sequence (command : list str) : option (list (list str)) :=
  match command with
  | [] => None
  | exe :: rest => if is_powershell_executable exe then parse_powershell_invocation exe rest else None
  end.
Definition is_safe_command_windows (command : list str) : bool :=
  match try_parse_powershell_command_sequence command with
  | Some commands => forallb is_safe_powershell_command commands
  | None => false
  end.

Definition zsh_to_bash (s : str) : str := if decide (s = lit "zsh") then lit "bash" else s.
Definition is_known_safe_command (command : list str) : outcome Empty_set bool :=
  let command := zsh_to_bash <$> command in
  if is_safe_command_windows command then Ok true
  else if is_safe_to_call_with_exec command then Ok true
  else
    all_commands ← parse_shell_lc_plain_commands try_parse_shell command;
    Ok (match all_commands with
        | Some cmds => negb (bool_decide (cmds = [])) && forallb is_safe_to_call_with_exec cmds
        | None => false
        end).

Definition command_might_be_dangerous (command : list str) : outcome Empty_set bool :=
  if is_dangerous_to_call_with_exec command then Ok true
  else
    all_commands ← parse_shell_lc_plain_commands try_parse_shell command;
    Ok (match all_commands with
        | Some cmds => existsb is_dangerous_to_call_with_exec cmds
        | None => false
        end).
End safety.

(** * Lemmas *)

Lemma is_known_safe_command_total try_parse_shell ast cmd :
  ∃ b, is_known_safe_command try_parse_shell ast cmd = Ok b.
Proof.
  unfold is_known_safe_command. destruct (is_safe_command_windows _ _); [eauto|].
  destruct (is_safe_to_call_with_exec _); [eauto|].
  destruct (plain_commands_total try_parse_shell (zsh_to_bash <$> cmd)) as [r ->]. cbn. eauto.
Qed.
Lemma command_might_be_dangerous_total try_parse_shell cmd :
  ∃ b, command_might_be_dangerous try_parse_shell cmd = Ok b.
Proof.
  unfold command_might_be_dangerous. destruct (is_dangerous_to_call_with_exec _); [eauto|].
  destruct (plain_commands_total try_parse_shell cmd) as [r ->]. cbn. eauto.
Qed.

(** The programs a safe command may call. *)
Definition known_names : list str :=
  linux_safe_names ++ safe_names ++ [lit "base64"; lit "find"; lit "rg"; lit "git"; lit "sed"].

Lemma safe_exec_name command :
  is_safe_to_call_with_exec command = true →
  ∃ cmd0 args name, command = cmd0 :: args ∧ file_name cmd0 = Some name ∧ name ∈ known_names.
Proof.
  destruct command as [|cmd0 args]; [done|]. unfold is_safe_to_call_with_exec, executable_name_lookup_key.
  destruct (file_name cmd0) as [name|] eqn:En; [|done]. intros H. exists cmd0, args, name.
  split; [done|]. split; [done|]. unfold known_names. rewrite !elem_of_app.
  destruct (bool_decide_reflect (name ∈ linux_safe_names)); [auto|].
  destruct (bool_decide_reflect (name ∈ safe_names)); [auto|]. right. right.
  repeat (case_decide; [subst; by apply (bool_decide_unpack _); vm_compute|]). done.
Qed.

(** Every program name the safelist knows has no dot and is no shell. *)
Definition plain_program (n : str) : bool :=
  bool_decide (stem_of_name n = n) && bool_decide (shell_of_name n = None)
  && bool_decide (file_name n = Some n) && negb (bool_decide (n = lit "rm"))
  && negb (bool_decide (n = lit "sudo")).
Lemma known_names_plain n : n ∈ known_names → plain_program n = true.
Proof.
  intros Hn. apply (proj1 (Forall_forall (λ n, plain_program n = true) known_names)); [|done].
  apply (bool_decide_unpack _). by vm_compute.
Qed.

Lemma shell_of_name_shells p t : shell_of_name p = Some t → ∃ n, file_name p = Some n ∧ n ∉ known_names.
Proof.
  unfold shell_of_name.
  repeat (case_decide; [intros _; subst; eexists; split; [vm_compute; reflexivity|];
                        apply (bool_decide_unpack _); by vm_compute|]). done.
Qed.

Lemma detect_known_name p n : file_name p = Some n → n ∈ known_names → detect_shell_type p = None.
Proof.
  intros Hf Hn. pose proof (known_names_plain _ Hn) as Hp. unfold plain_program in Hp.
  rewrite !andb_true_iff, !bool_decide_eq_true in Hp. destruct Hp as ((((Hs & Hsh) & Hfn) & _) & _).
  unfold detect_shell_type. destruct (detect_shell_type_total (S (length p)) p) as [t Ht]; [lia|].
  rewrite Ht. cbn [detect_shell_type_fuel] in Ht.
  destruct (shell_of_name p) as [t'|] eqn:Et.
  { destruct (shell_of_name_shells _ _ Et) as (n' & Hn' & Hno). congruence. }
  unfold file_stem in Ht. rewrite Hf in Ht. cbn [fmap option_fmap option_map] in Ht. rewrite Hs in Ht.
  case_decide; [congruence|].
  destruct (length p) as [|k]; [done|]. cbn [detect_shell_type_fuel] in Ht. rewrite Hsh in Ht.
  unfold file_stem in Ht. rewrite Hfn in Ht. cbn [fmap option_fmap option_map] in Ht. rewrite Hs in Ht.
  rewrite decide_True in Ht by reflexivity. congruence.
Qed.

Lemma safe_exec_not_shell command : is_safe_to_call_with_exec command = true → extract_bash_command command = None.
Proof.
  intros (cmd0 & args & name & -> & Hf & Hn)%safe_exec_name.
  destruct args as [|flag [|script []]]; try done. unfold extract_bash_command.
  rewrite (detect_known_name _ _ Hf Hn). rewrite (bool_decide_false (None ∈ _)), orb_true_r; [done|].
  by apply (bool_decide_unpack _).
Qed.

Lemma safe_exec_not_dangerous command :
  is_safe_to_call_with_exec command = true → is_dangerous_to_call_with_exec command = false.
Proof.
  intros (cmd0 & args & name & -> & Hf & Hn)%safe_exec_name.
  pose proof (known_names_plain _ Hn) as Hp. unfold plain_program in Hp.
  rewrite !andb_true_iff, !negb_true_iff, !bool_decide_eq_false in Hp. destruct Hp as ((_ & Hrm) & Hsudo).
  simpl. rewrite !decide_False; [done| |]; intros ->; vm_compute in Hf; injection Hf as <-; by vm_compute in Hrm, Hsudo.
Qed.

Lemma zsh_to_bash_id s : s ≠ lit "zsh" → zsh_to_bash s = s.
Proof. intros H. unfold zsh_to_bash. by rewrite decide_False. Qed.
Lemma zsh_to_bash_inv s : zsh_to_bash s ≠ lit "bash" → zsh_to_bash s = s.
Proof. unfold zsh_to_bash. by case_decide. Qed.

(** Renaming the shell does not change how a script is read. *)
Lemma extract_zsh_to_bash cmd shell script :
  lit "zsh" ∉ drop 1 cmd →
  extract_bash_command (zsh_to_bash <$> cmd) = Some (shell, script) →
  ∃ shell', extract_bash_command cmd = Some (shell', script).
Proof.
  destruct cmd as [|c0 [|flag [|s []]]]; try done. simpl. intros Hz.
  rewrite !(zsh_to_bash_id flag), !(zsh_to_bash_id s)
    by (intros ->; apply Hz; rewrite !elem_of_cons; auto).
  destruct (negb _); [done|]. cbn [orb]. unfold zsh_to_bash. case_decide as Hc; [subst c0|].
  - intros [= <- <-]. by eexists.
  - destruct (negb _); [done|]. intros [= <- <-]. eauto.
Qed.

Lemma dangerous_head cmd : is_dangerous_to_call_with_exec cmd = true → ∃ args, cmd = lit "rm" :: args ∨ cmd = lit "sudo" :: args.
Proof.
  destruct cmd as [|c args]; [done|]. simpl. case_decide; [subst; eauto|]. case_decide; [subst; eauto|done].
Qed.

(** A command the safelist accepts (other than through the PowerShell
    list) is never one of the dangerous commands, directly or inside a shell
    script: the two classifications cannot contradict each other. *)
Theorem known_safe_not_dangerous try_parse_shell ast cmd :
  is_safe_command_windows ast (zsh_to_bash <$> cmd) = false →
  lit "zsh" ∉ drop 1 cmd →
  is_known_safe_command try_parse_shell ast cmd = Ok true →
  command_might_be_dangerous try_parse_shell cmd = Ok false.
Proof.
  intros Hw Hz. unfold is_known_safe_command, command_might_be_dangerous. rewrite Hw.
  destruct (is_safe_to_call_with_exec (zsh_to_bash <$> cmd)) eqn:Es.
  - intros _. assert (zsh_to_bash <$> cmd = cmd) as Hid.
    { destruct (safe_exec_name _ Es) as (c0 & args & n & Hc & Hf & Hn).
      destruct cmd as [|c cmd]; [done|]. rewrite fmap_cons in *. injection Hc as Hc _. f_equal.
      - apply zsh_to_bash_inv. rewrite Hc. intros ->. vm_compute in Hf. injection Hf as <-.
        revert Hn. apply (bool_decide_unpack _). by vm_compute.
      - simpl in Hz.
        clear -Hz. induction cmd as [|x cmd IH]; [done|]. rewrite fmap_cons.
        apply not_elem_of_cons in Hz as [Hx Hz]. rewrite zsh_to_bash_id by done. f_equal. auto. }
    rewrite Hid in Es. rewrite (safe_exec_not_dangerous _ Es).
    unfold parse_shell_lc_plain_commands. by rewrite (safe_exec_not_shell _ Es).
  - destruct (extract_bash_command (zsh_to_bash <$> cmd)) as [[shell script]|] eqn:Ex;
      [|unfold parse_shell_lc_plain_commands; by rewrite Ex].
    destruct (extract_zsh_to_bash _ _ _ Hz Ex) as [shell' Ex'].
    assert (is_dangerous_to_call_with_exec cmd = false) as ->.
    { apply not_true_iff_false. intros (args & [Ec|Ec])%dangerous_head; subst cmd;
        destruct args as [|flag [|s []]]; try done; unfold extract_bash_command in Ex';
        rewrite (bool_decide_false (detect_shell_type _ ∈ _)), orb_true_r in Ex'; try done;
        apply (bool_decide_unpack _); by vm_compute. }
    unfold parse_shell_lc_plain_commands. rewrite Ex, Ex'.
    destruct (try_parse_shell script) as [tree|]; [|done].
    destruct (try_parse_word_only_commands_sequence tree) as [[cmds|]|e| |]; try done. run_bind.
    intros [= [_ Hall]%andb_true_iff]. f_equal. rewrite forallb_forall in Hall.
    apply not_true_iff_false. intros (c & Hc & Hd)%existsb_exists.
    apply Hall, safe_exec_not_dangerous in Hc. congruence.
Qed.

(** * Git *)

(** Global options as [find_git_subcommand] skips them: an option with its
    value in the same word, an option followed by its value, another option. *)
Inductive git_globals : list str → Prop :=
| globals_nil : git_globals []
| globals_inline a l : is_git_global_option_with_inline_value a = true → git_globals l → git_globals (a :: l)
| globals_value a v l : is_git_global_option_with_value a = true → git_globals l → git_globals (a :: v :: l)
| globals_other a l : starts_with (lit "-") a = true → git_globals l → git_globals (a :: l).

Lemma find_git_subcommand_loop_spec subs idx args i sub :
  (find_git_subcommand_loop subs false idx args = Some (i, sub) →
   ∃ globals rest, args = globals ++ sub :: rest ∧ i = idx + length globals
                   ∧ git_globals globals ∧ sub ∈ subs ∧ starts_with (lit "-") sub = false)
  ∧ (find_git_subcommand_loop subs true idx args = Some (i, sub) →
     ∃ v globals rest, args = v :: globals ++ sub :: rest ∧ i = S idx + length globals
                   ∧ git_globals globals ∧ sub ∈ subs ∧ starts_with (lit "-") sub = false).
Proof.
  revert idx. induction args as [|a args IH]; intros idx; [done|]. cbn [find_git_subcommand_loop].
  split.
  - destruct (is_git_global_option_with_inline_value a) eqn:Ei.
    { intros (g & rest & -> & -> & Hg & ?)%(proj1 (IH (S idx))). exists (a :: g), rest.
      split; [done|]. split; [simpl; lia|]. split; [by apply globals_inline|done]. }
    destruct (is_git_global_option_with_value a) eqn:Ev.
    { intros (v & g & rest & -> & -> & Hg & ?)%(proj2 (IH (S idx))). exists (a :: v :: g), rest.
      split; [done|]. split; [simpl; lia|]. split; [by apply globals_value|done]. }
    destruct (bool_decide (a = lit "--") || starts_with (lit "-") a) eqn:Eo.
    { intros (g & rest & -> & -> & Hg & ?)%(proj1 (IH (S idx))). exists (a :: g), rest.
      split; [done|]. split; [simpl; lia|]. split; [|done]. apply globals_other; [|done].
      apply orb_true_iff in Eo as [->%bool_decide_eq_true|]; [by vm_compute|done]. }
    destruct (bool_decide_reflect (a ∈ subs)); [|done]. intros [= <- <-]. exists [], args.
    apply orb_false_iff in Eo as [_ ?]. split; [done|]. split; [simpl; lia|]. split; [constructor|done].
  - intros (g & rest & -> & -> & Hg & ?)%(proj1 (IH (S idx))). exists a, g, rest.
    split; [done|]. split; [simpl; lia|done].
Qed.

Lemma branch_loop_spec b args :
  branch_loop b args = true → Forall (λ a, read_only_branch_flag a = true) args.
Proof.
  revert b. induction args as [|a args IH]; intros b; simpl; [constructor|].
  destruct (read_only_branch_flag a) eqn:E; [|done]. intros H%IH. by constructor.
Qed.

(** A git command the safelist accepts is of the form: global options
    without any override of configuration, repository or helpers, anywhere in
    the command, then one of the five read-only subcommands, then arguments
    without a flag that writes a file or runs a program; for [branch] all
    arguments are listing flags. *)
Theorem safe_git_shape cmd0 args :
  file_name cmd0 = Some (lit "git") →
  is_safe_to_call_with_exec (cmd0 :: args) = true →
  Forall (λ a, git_global_option_requires_prompt a = false) args
  ∧ ∃ globals sub rest, args = globals ++ sub :: rest ∧ git_globals globals
    ∧ sub ∈ safe_git_subcommands
    ∧ Forall (λ a, unsafe_git_arg a = false) rest
    ∧ (sub = lit "branch" → Forall (λ a, read_only_branch_flag a = true) rest).
Proof.
  intros Hf Hs. assert (is_safe_git (cmd0 :: args) = true) as Hg.
  { unfold is_safe_to_call_with_exec, executable_name_lookup_key in Hs. rewrite Hf in Hs. exact Hs. }
  clear Hs. unfold is_safe_git in Hg.
  destruct (git_has_unsafe_global_option (cmd0 :: args)) eqn:Eu; [done|]. split.
  { apply Forall_forall. intros a Ha. apply not_true_iff_false. intros Hp.
    apply not_true_iff_false in Eu. destruct Eu. apply existsb_exists. exists a.
    by rewrite <-list_elem_of_In. }
  destruct (find_git_subcommand _ _) as [[i sub]|] eqn:Ef; [|done].
  unfold find_git_subcommand, executable_name_lookup_key in Ef. rewrite decide_False in Ef by (rewrite Hf; auto).
  apply (proj1 (find_git_subcommand_loop_spec _ _ _ _ _)) in Ef as (g & rest & -> & -> & Hgl & Hsub & _).
  exists g, sub, rest. split; [done|]. split; [done|]. split; [done|].
  replace (drop (S (1 + length g)) (cmd0 :: g ++ sub :: rest)) with rest in Hg.
  2:{ simpl. rewrite (cons_middle sub g rest), app_assoc, drop_app_length'; [done|].
      rewrite length_app. simpl. lia. }
  assert (∀ l, git_subcommand_args_are_read_only l = true → Forall (λ a, unsafe_git_arg a = false) l) as Hro.
  { intros l Hl. apply Forall_forall. intros a Ha. apply not_true_iff_false. intros Hp.
    apply negb_true_iff, not_true_iff_false in Hl. destruct Hl. apply existsb_exists. exists a.
    by rewrite <-list_elem_of_In. }
  destruct (bool_decide_reflect (sub ∈ [lit "status"; lit "log"; lit "diff"; lit "show"])) as [Hin|Hin].
  - split; [by apply Hro|]. intros ->. exfalso. revert Hin. apply (bool_decide_unpack _). by vm_compute.
  - case_decide; [|done]. apply andb_true_iff in Hg as [H1 H2]. split; [by apply Hro|].
    intros _. unfold git_branch_is_read_only in H2. destruct rest; [constructor|by apply branch_loop_spec in H2].
Qed.

(** The check does not see a flag that stands before the subcommand. *)
Example paginate_before_subcommand :
  is_safe_to_call_with_exec [lit "git"; lit "log"; lit "--paginate"] = false
  ∧ is_safe_to_call_with_exec [lit "git"; lit "--paginate"; lit "log"] = true.
Proof. vm_compute. done. Qed.
(** The PowerShell list looks at nothing after the subcommand. *)
Example powershell_git_output :
  is_safe_powershell_command [lit "git"; lit "log"; lit "--output=notes.txt"] = true
  ∧ is_safe_to_call_with_exec [lit "git"; lit "log"; lit "--output=notes.txt"] = false.
Proof. vm_compute. done. Qed.

(** * The argument of sed *)

Definition digits (s : str) : Prop := s ≠ [] ∧ Forall (λ c, is_ascii_digit c = true) s.

Lemma all_digits_spec s : all_digits s = true ↔ digits s.
Proof.
  unfold all_digits, digits. rewrite andb_true_iff, negb_true_iff, bool_decide_eq_false, forallb_forall.
  rewrite Forall_forall. setoid_rewrite list_elem_of_In. done.
Qed.
Lemma digits_no_comma s : digits s → 44%N ∉ s.
Proof. intros [_ HF] Hin. by apply (proj1 (Forall_forall _ _) HF) in Hin. Qed.

(** [is_valid_sed_n_arg] accepts exactly the texts of the documented
    expression: a line number, or two separated by a comma, then [p]. *)
Theorem is_valid_sed_n_arg_regex s :
  is_valid_sed_n_arg (Some s) = true ↔
  ∃ d, digits d ∧ (s = d ++ lit "p" ∨ ∃ d', digits d' ∧ s = d' ++ lit "," ++ d ++ lit "p").
Proof.
  unfold is_valid_sed_n_arg. split.
  - destruct (strip_suffix (lit "p") s) as [core|] eqn:E; [|done].
    apply strip_suffix_Some in E as ->.
    assert (core = join [44%N] (split_char 44 core)) as Hj.
    { clear. induction core as [|x core IH]; [done|]. simpl.
      destruct (N.eqb_spec x 44) as [->|].
      - rewrite join_cons by apply split_char_not_nil. simpl. by rewrite <-IH.
      - destruct (split_char 44 core) as [|p ps] eqn:E; [by apply split_char_not_nil in E|].
        rewrite IH. destruct ps; [done|]. rewrite !join_cons by done. done. }
    destruct (split_char 44 core) as [|a [|b []]]; [done| | |done]; simpl in Hj; subst core.
    + intros Ha%all_digits_spec. exists a. auto.
    + rewrite andb_true_iff, !all_digits_spec. intros [Ha Hb]. exists b. split; [done|]. right.
      exists a. split; [done|]. by rewrite <-app_assoc.
  - intros (d & Hd & [->|(d' & Hd' & ->)]).
    + rewrite (proj2 (strip_suffix_Some _ _ d)) by done.
      rewrite split_char_single by (by apply digits_no_comma). by apply all_digits_spec.
    + rewrite (proj2 (strip_suffix_Some _ _ (d' ++ lit "," ++ d))) by (by rewrite <-!app_assoc).
      change (lit "," ++ d) with (44%N :: d).
      rewrite split_char_app, split_char_single by (by apply digits_no_comma).
      rewrite andb_true_iff, !all_digits_spec. done.
Qed.

(** * Witnesses *)

Definition no_shell (_ : str) : option Tree := None.
Definition no_powershell (_ _ : str) : option (list (list str)) := None.

Lemma known_safe_not_dangerous_witness :
  command_might_be_dangerous no_shell [lit "ls"; lit "-la"] = Ok false.
Proof.
  apply (known_safe_not_dangerous no_shell no_powershell).
  - vm_compute. reflexivity.
  - apply (bool_decide_unpack _). vm_compute. exact I.
  - vm_compute. reflexivity.
Defined.

Lemma safe_git_shape_witness :
  let args := [lit "-C"; lit "dir"; lit "branch"; lit "--list"] in
  Forall (λ a, git_global_option_requires_prompt a = false) args
  ∧ ∃ globals sub rest, args = globals ++ sub :: rest ∧ git_globals globals
    ∧ sub ∈ safe_git_subcommands
    ∧ Forall (λ a, unsafe_git_arg a = false) rest
    ∧ (sub = lit "branch" → Forall (λ a, read_only_branch_flag a = true) rest).
Proof. apply (safe_git_shape (lit "/usr/bin/git")); vm_compute; reflexivity. Defined.
