(* ===== verification/ExecApproval.v ===== *)
(** What a shell command needs before it runs: [codex-rs/core/src/exec_policy.rs]
    (the requirement for a command, proposed amendments, and the updates of the
    policy of a session). The Tree-sitter and PowerShell parsers and [shlex]
    are parameters; the atomic swap of the policy is the state of a
    computation that the update lock makes sequential. *)
From stdpp Require Import gmap.
From S2P Require Import Prelude RustStr RustPath FileSystem AbsolutePath ExecPolicy PolicyParser.
From S2P Require Import Amend Bash CommandSafety Protocol.

Definition PROMPT_CONFLICT_REASON : str :=
  lit "approval required by policy, but AskForApproval is set to Never".
Definition REJECT_SANDBOX_APPROVAL_REASON : str :=
  lit "approval required by policy, but AskForApproval::Granular.sandbox_approval is false".
Definition REJECT_RULES_APPROVAL_REASON : str :=
  lit "approval required by policy rule, but AskForApproval::Granular.rules is false".
Definition RULES_DIR_NAME : str := lit "rules".
Definition DEFAULT_POLICY_FILE : str := lit "default.rules".

Definition BANNED_PREFIX_SUGGESTIONS : list (list str) :=
  map (map lit)
  [["python3"]; ["python3"; "-"]; ["python3"; "-c"]; ["python"]; ["python"; "-"]; ["python"; "-c"];
   ["py"]; ["py"; "-3"]; ["pythonw"]; ["pyw"]; ["pypy"]; ["pypy3"]; ["git"]; ["bash"]; ["bash"; "-lc"];
   ["sh"]; ["sh"; "-c"]; ["sh"; "-lc"]; ["zsh"]; ["zsh"; "-lc"]; ["/bin/zsh"]; ["/bin/zsh"; "-lc"];
   ["/bin/bash"]; ["/bin/bash"; "-lc"]; ["pwsh"]; ["pwsh"; "-Command"]; ["pwsh"; "-c"]; ["powershell"];
   ["powershell"; "-Command"]; ["powershell"; "-c"]; ["powershell.exe"]; ["powershell.exe"; "-Command"];
   ["powershell.exe"; "-c"]; ["env"]; ["sudo"]; ["node"]; ["node"; "-e"]; ["perl"]; ["perl"; "-e"];
   ["ruby"]; ["ruby"; "-e"]; ["php"]; ["php"; "-r"]; ["lua"]; ["lua"; "-e"]; ["osascript"]]%string.

Definition prompt_is_rejected_by_policy (approval_policy : AskForApproval) (prompt_is_rule : bool)
    : option str :=
  match approval_policy with
  | Never => Some PROMPT_CONFLICT_REASON
  | OnFailure | OnRequest | UnlessTrusted => None
  | Granular config =>
      if prompt_is_rule then
        if negb (allows_rules_approval config) then Some REJECT_RULES_APPROVAL_REASON else None
      else if negb (allows_sandbox_approval config) then Some REJECT_SANDBOX_APPROVAL_REASON
      else None
  end.

(** The words of [ExecPolicyAmendment]. *)
Abbreviation ExecPolicyAmendment := (list str) (only parsing).

Inductive ExecApprovalRequirement : Type :=
| Skip (bypass_sandbox : bool) (proposed_execpolicy_amendment : option ExecPolicyAmendment)
| NeedsApproval (reason : option str) (proposed_execpolicy_amendment : option ExecPolicyAmendment)
| ReqForbidden (reason : str).

Record ExecApprovalRequest : Type := {
  command : list str;
  approval_policy : AskForApproval;
  sandbox_policy : SandboxPolicy;
  file_system_sandbox_policy : FileSystemSandboxPolicy;
  sandbox_permissions : SandboxPermissions;
  prefix_rule_request : option (list str) }.

(** Policy matches of one decision. *)
Definition policy_match_with (d : Decision) (m : RuleMatch) : bool :=
  is_policy_match m && bool_decide (match_decision m = d).

Definition heuristics_command (d : Decision) (m : RuleMatch) : option (list str) :=
  match m with
  | HeuristicsRuleMatch command d' => if decide (d' = d) then Some command else None
  | _ => None
  end.
Definition try_derive_execpolicy_amendment_for_prompt_rules (ms : list RuleMatch)
    : option ExecPolicyAmendment :=
  if existsb (policy_match_with Prompt) ms then None else find_map (heuristics_command Prompt) ms.
Definition try_derive_execpolicy_amendment_for_allow_rules (ms : list RuleMatch)
    : option ExecPolicyAmendment :=
  if existsb is_policy_match ms then None else find_map (heuristics_command Allow) ms.

(** [iter().max_by_key(..)]: the last of the largest. *)
Definition max_by_key {A} (key : A → nat) (l : list A) : option A :=
  foldl (λ acc x, match acc with
                  | Some y => if key y <=? key x then Some x else Some y
                  | None => Some x
                  end) None l.
Definition prefix_matches_with (d : Decision) (m : RuleMatch) : option (list str * option str) :=
  match m with
  | PrefixRuleMatch matched_prefix d' _ justification =>
      if decide (d' = d) then Some (matched_prefix, justification) else None
  | _ => None
  end.
Definition most_specific (d : Decision) (ms : list RuleMatch) : option (list str * option str) :=
  max_by_key (λ x, length x.1) (omap (prefix_matches_with d) ms).

(** [codex_home.join("rules").join("default.rules")]. *)
Definition default_policy_path (codex_home : str) : str :=
  path_join (path_join codex_home RULES_DIR_NAME) DEFAULT_POLICY_FILE.

Section approval.
Context `{PathEnv}.
Variable try_parse_shell : str → option Tree.
Variable parse_with_powershell_ast : str → str → option (list (list str)).
(** [shlex::try_join]. *)
Variable shlex_try_join : list str → option str.

Definition render_shlex_command (args : list str) : str :=
  default (join (lit " ") args) (shlex_try_join args).

Definition derive_prompt_reason (command_args : list str) (ev : Evaluation) : option str :=
  let command := render_shlex_command command_args in
  match most_specific Prompt (matched_rules ev) with
  | Some (_, Some justification) =>
      Some (lit "`" ++ command ++ lit "` requires approval: " ++ justification)
  | Some (_, None) => Some (lit "`" ++ command ++ lit "` requires approval by policy")
  | None => None
  end.
Definition derive_forbidden_reason (command_args : list str) (ev : Evaluation) : str :=
  let command := render_shlex_command command_args in
  match most_specific Forbidden (matched_rules ev) with
  | Some (_, Some justification) => lit "`" ++ command ++ lit "` rejected: " ++ justification
  | Some (matched_prefix, None) =>
      lit "`" ++ command ++ lit "` rejected: policy forbids commands starting with `"
        ++ render_shlex_command matched_prefix ++ lit "`"
  | None => lit "`" ++ command ++ lit "` rejected: blocked by policy"
  end.

Definition commands_for_exec_policy (command : list str) : outcome Empty_set (list (list str) * bool) :=
  plain ← parse_shell_lc_plain_commands try_parse_shell command;
  match plain with
  | Some (c :: cs) => Ok (c :: cs, false)
  | _ =>
      single ← parse_shell_lc_single_command_prefix try_parse_shell command;
      match single with
      | Some single_command => Ok ([single_command], true)
      | None => Ok ([command], false)
      end
  end.

(** Not Windows: every sandbox protects. *)
Definition render_decision_for_unmatched_command (approval_policy : AskForApproval)
    (sandbox_policy : SandboxPolicy) (fs_policy : FileSystemSandboxPolicy) (command : list str)
    (sandbox_permissions : SandboxPermissions) (used_complex_parsing : bool)
    : outcome Empty_set Decision :=
  safe ← is_known_safe_command try_parse_shell parse_with_powershell_ast command;
  if safe && negb used_complex_parsing then Ok Allow
  else
    dangerous ← command_might_be_dangerous try_parse_shell command;
    if dangerous : bool then
      Ok (match approval_policy with
          | Never => match sandbox_policy with
                     | DangerFullAccess | ExternalSandbox _ => Allow
                     | _ => Forbidden
                     end
          | _ => Prompt
          end)
    else
      Ok (match approval_policy with
          | Never | OnFailure => Allow
          | UnlessTrusted => Prompt
          | OnRequest | Granular _ =>
              match fs_kind fs_policy with
              | FsUnrestricted | FsExternalSandbox => Allow
              | FsRestricted => if requests_sandbox_override sandbox_permissions then Prompt else Allow
              end
          end).

Definition prefix_rule_would_approve_all_commands (exec_policy : Policy) (prefix_rule : list str)
    (commands : list (list str)) (fallback : list str → Decision) (options : MatchOptions) : bool :=
  match add_prefix_rule exec_policy prefix_rule Allow with
  | Ok policy_with_prefix_rule =>
      forallb (λ command, match check_with_options policy_with_prefix_rule command fallback options with
                          | Ok ev => bool_decide (decision ev = Allow)
                          | _ => false
                          end) commands
  | _ => false
  end.

Definition derive_requested_execpolicy_amendment_from_prefix_rule (prefix_rule : option (list str))
    (ms : list RuleMatch) (exec_policy : Policy) (commands : list (list str))
    (fallback : list str → Decision) (options : MatchOptions) : option ExecPolicyAmendment :=
  match prefix_rule with
  | None => None
  | Some prefix_rule =>
      if decide (prefix_rule = []) then None
      else if bool_decide (prefix_rule ∈ BANNED_PREFIX_SUGGESTIONS) then None
      else if existsb is_policy_match ms then None
      else if prefix_rule_would_approve_all_commands exec_policy prefix_rule commands fallback options
      then Some prefix_rule else None
  end.

(** The fallback as a total function, its outcome being always [Ok]. *)
Definition exec_policy_fallback (req : ExecApprovalRequest) (used_complex_parsing : bool)
    (cmd : list str) : Decision :=
  match render_decision_for_unmatched_command (approval_policy req) (sandbox_policy req)
          (file_system_sandbox_policy req) cmd (sandbox_permissions req) used_complex_parsing with
  | Ok d => d
  | _ => Forbidden
  end.

Definition host_options : MatchOptions := {| resolve_host_executables := true |}.

(** The requirement, from the evaluation. *)
Definition requirement_of (req : ExecApprovalRequest) (ev : Evaluation) (auto_amendment_allowed : bool)
    (requested_amendment : option ExecPolicyAmendment) : ExecApprovalRequirement :=
  match decision ev with
  | Forbidden => ReqForbidden (derive_forbidden_reason (command req) ev)
  | Prompt =>
      match prompt_is_rejected_by_policy (approval_policy req)
              (existsb (policy_match_with Prompt) (matched_rules ev)) with
      | Some reason => ReqForbidden reason
      | None =>
          NeedsApproval (derive_prompt_reason (command req) ev)
            (match requested_amendment with
             | Some a => Some a
             | None => if auto_amendment_allowed
                       then try_derive_execpolicy_amendment_for_prompt_rules (matched_rules ev)
                       else None
             end)
      end
  | Allow =>
      Skip (existsb (policy_match_with Allow) (matched_rules ev))
        (if auto_amendment_allowed
         then try_derive_execpolicy_amendment_for_allow_rules (matched_rules ev) else None)
  end.

Definition create_exec_approval_requirement_for_command (exec_policy : Policy)
    (req : ExecApprovalRequest) : outcome Empty_set ExecApprovalRequirement :=
  '(commands, used_complex_parsing) ← commands_for_exec_policy (command req);
  let fallback := exec_policy_fallback req used_complex_parsing in
  ev ← check_multiple_with_options exec_policy commands fallback host_options;
  Ok (requirement_of req ev (negb used_complex_parsing)
        (derive_requested_execpolicy_amendment_from_prefix_rule (prefix_rule_request req)
           (matched_rules ev) exec_policy commands fallback host_options)).
End approval.

(** * Updating the policy of a session *)

Inductive ExecPolicyUpdateError : Type :=
| AppendRule (path : str) (source : AmendError)
| JoinBlockingTask
| AddRule (source : Error).

Section update.
Context `{PathEnv} {FS : Type} `{PolicyFiles FS}.
Variable to_json : str → outcome str str.
Variable debug_strings : list str → str.

(** The result of the blocking task; a panic of the task is a join error. *)
Definition joined {A} (policy_path : str) (r : outcome AmendError A)
    : outcome ExecPolicyUpdateError A :=
  match r with
  | Ok a => Ok a
  | Err e => Err (AppendRule policy_path e)
  | Panic => Err JoinBlockingTask
  | OutOfFuel => OutOfFuel
  end.
Definition blocking {A} (policy_path : str) (m : stm FS AmendError A)
    : stm (FS * Policy) ExecPolicyUpdateError A := fun '(fs, p) =>
  let '(fs', r) := m fs in ((fs', p), joined policy_path r).
(** [self.policy.store(..)], when the change of the policy succeeded. *)
Definition store_policy (r : outcome Error Policy) : stm (FS * Policy) ExecPolicyUpdateError unit :=
  fun '(fs, p) =>
    match r with
    | Ok p' => ((fs, p'), Ok tt)
    | Err e => ((fs, p), Err (AddRule e))
    | Panic => ((fs, p), Panic)
    | OutOfFuel => ((fs, p), OutOfFuel)
    end.
Definition current : stm (FS * Policy) ExecPolicyUpdateError Policy := fun s => (s, Ok s.2).

Definition append_amendment_and_update (codex_home : str) (amendment : ExecPolicyAmendment)
    : stm (FS * Policy) ExecPolicyUpdateError unit :=
  let policy_path := default_policy_path codex_home in
  blocking policy_path (blocking_append_allow_prefix_rule to_json policy_path amendment);;
  current_policy ← current;
  existing_evaluation ← stm_lift (no_err
    (check_multiple_with_options current_policy [amendment] (λ _, Forbidden) host_options));
  if bool_decide (decision existing_evaluation = Allow)
     && existsb (policy_match_with Allow) (matched_rules existing_evaluation)
  then mret tt
  else store_policy (add_prefix_rule current_policy amendment Allow).

Definition append_network_rule_and_update (codex_home host : str) (protocol : NetworkRuleProtocol)
    (decision : Decision) (justification : option str) : stm (FS * Policy) ExecPolicyUpdateError unit :=
  let policy_path := default_policy_path codex_home in
  blocking policy_path
    (blocking_append_network_rule to_json debug_strings policy_path host protocol decision justification);;
  current_policy ← current;
  store_policy (add_network_rule current_policy host protocol decision justification).
End update.

(** * Lemmas *)

Section approval_lemmas.
Context `{PathEnv}.
Context (try_parse_shell : str → option Tree).
Context (ast : str → str → option (list (list str))).
Context (shlex_try_join : list str → option str).

Lemma commands_for_exec_policy_total cmd :
  ∃ cmds complex, commands_for_exec_policy try_parse_shell cmd = Ok (cmds, complex) ∧ cmds ≠ [].
Proof.
  unfold commands_for_exec_policy.
  destruct (plain_commands_total try_parse_shell cmd) as [plain ->]. cbn.
  destruct (single_command_total try_parse_shell cmd) as [single ->]. cbn.
  destruct plain as [[|c cs]|]; destruct single; eauto.
Qed.

(** The decision for a command no rule governs. *)
Lemma render_decision_total ap sp fsp cmd perms complex :
  ∃ d, render_decision_for_unmatched_command try_parse_shell ast ap sp fsp cmd perms complex = Ok d.
Proof.
  unfold render_decision_for_unmatched_command.
  destruct (is_known_safe_command_total try_parse_shell ast cmd) as [b ->]. cbn.
  destruct (b && negb complex); [eauto|].
  destruct (command_might_be_dangerous_total try_parse_shell cmd) as [[] ->]; cbn; eauto.
Qed.

Lemma fallback_spec req complex cmd :
  render_decision_for_unmatched_command try_parse_shell ast (approval_policy req) (sandbox_policy req)
    (file_system_sandbox_policy req) cmd (sandbox_permissions req) complex
  = Ok (exec_policy_fallback try_parse_shell ast req complex cmd).
Proof.
  unfold exec_policy_fallback.
  by destruct (render_decision_total (approval_policy req) (sandbox_policy req)
    (file_system_sandbox_policy req) cmd (sandbox_permissions req) complex) as [d ->].
Qed.

Lemma policy_match_with_spec d ms :
  existsb (policy_match_with d) ms = true ↔
  ∃ m, m ∈ ms ∧ is_policy_match m = true ∧ match_decision m = d.
Proof.
  rewrite existsb_exists. unfold policy_match_with. setoid_rewrite andb_true_iff.
  setoid_rewrite bool_decide_eq_true. by setoid_rewrite list_elem_of_In.
Qed.

(** One command of a request, decided by the rules or by the fallback. *)
Definition decided (p : Policy) (fallback : list str → Decision) (cmd : list str) (d : Decision) : Prop :=
  ((∃ r o m, governs p host_options cmd r o m ∧ rule_decision r = d)
   ∧ ∀ r o m, governs p host_options cmd r o m → decision_le (rule_decision r) d)
  ∨ ((∀ r o m, ¬ governs p host_options cmd r o m) ∧ fallback cmd = d).

Lemma check_decided p fallback cmd ev :
  check_with_options p cmd fallback host_options = Ok ev → decided p fallback cmd (decision ev).
Proof.
  intros Hc. destruct (check_evaluates p cmd fallback host_options) as (ev' & Hc' & He).
  rewrite Hc in Hc'. injection Hc' as <-.
  destruct He as [(_ & _ & Hex & Hub)|(_ & Hno & Hd & _)]; [left; eauto|right; auto].
Qed.
End approval_lemmas.

(** * The requirement for a command *)

Section approval_theorems.
Context `{PathEnv}.
Context (try_parse_shell : str → option Tree).
Context (ast : str → str → option (list (list str))).
Context (shlex_try_join : list str → option str).

Abbreviation requirement :=
  (create_exec_approval_requirement_for_command try_parse_shell ast shlex_try_join).
Abbreviation fallback := (exec_policy_fallback try_parse_shell ast).
Abbreviation commands_of := (commands_for_exec_policy try_parse_shell).

(** The parts of a run of [create_exec_approval_requirement_for_command]. *)
Lemma requirement_run p req :
  ∃ cmds complex evs ev requested,
    commands_of (command req) = Ok (cmds, complex) ∧ cmds ≠ []
    ∧ Forall2 (λ c e, check_with_options p c (fallback req complex) host_options = Ok e) cmds evs
    ∧ matched_rules ev = concat (matched_rules <$> evs)
    ∧ decision ev ∈ (decision <$> evs)
    ∧ (∀ d, d ∈ (decision <$> evs) → decision_le d (decision ev))
    ∧ requirement p req = Ok (requirement_of shlex_try_join req ev (negb complex) requested)
    ∧ requested = derive_requested_execpolicy_amendment_from_prefix_rule (prefix_rule_request req)
                    (matched_rules ev) p cmds (fallback req complex) host_options.
Proof.
  destruct (commands_for_exec_policy_total try_parse_shell (command req)) as (cmds & complex & Hc & Hne).
  destruct (check_multiple_evaluates p cmds (fallback req complex) host_options Hne)
    as (evs & ev & Hm & He & Hms & Hin & Hub).
  exists cmds, complex, evs, ev. eexists. split; [done|]. split; [done|].
  split; [by apply mapM_outcome_Ok|]. repeat (split; [done|]).
  split; [|reflexivity]. unfold create_exec_approval_requirement_for_command.
  rewrite Hc. run_bind. rewrite He. done.
Qed.

(** The evaluation holds a policy match of a decision other than that of the
    fallback exactly when a rule of that decision governs a command. *)
Lemma match_governed d p req complex cmds evs :
  Forall2 (λ c e, check_with_options p c (fallback req complex) host_options = Ok e) cmds evs →
  existsb (policy_match_with d) (concat (matched_rules <$> evs)) = true ↔
  ∃ c r o m, c ∈ cmds ∧ governs p host_options c r o m ∧ rule_decision r = d.
Proof.
  intros HF. rewrite policy_match_with_spec. setoid_rewrite elem_of_concat.
  setoid_rewrite list_elem_of_fmap. split.
  - intros (x & (l & (e & -> & He) & Hx) & Hp & Hd). apply list_elem_of_lookup in He as [i Hi].
    destruct (Forall2_lookup_r _ _ _ _ _ HF Hi) as (c & Hc & Hck).
    destruct (check_evaluates p c (fallback req complex) host_options) as (e' & He' & Hev).
    rewrite Hck in He'. injection He' as <-. exists c.
    destruct Hev as [(_ & Hms & _)|(_ & _ & _ & Hms)].
    + apply Hms in Hx as (r & o & m & Hg & ->). exists r, o, m.
      split; [by eapply list_elem_of_lookup_2|done].
    + rewrite Hms in Hx. by apply list_elem_of_singleton in Hx as ->.
  - intros (c & r & o & m & [i Hi]%list_elem_of_lookup & Hg & Hd).
    destruct (Forall2_lookup_l _ _ _ _ _ HF Hi) as (e & He & Hck).
    destruct (check_evaluates p c (fallback req complex) host_options) as (e' & He' & Hev).
    rewrite Hck in He'. injection He' as <-. exists (rule_match r o m).
    destruct Hev as [(_ & Hms & _)|(_ & Hno & _)]; [|by apply Hno in Hg].
    split; [|done]. exists (matched_rules e).
    split; [exists e; split; [done|by eapply list_elem_of_lookup_2]|]. apply Hms. by exists r, o, m.
Qed.
(** Who may be asked: under [Granular] two switches, one for prompts that a rule
    asks for and one for the others; the reason of a refusal tells which. *)
Lemma prompt_rejected_spec policy by_rule :
  match prompt_is_rejected_by_policy policy by_rule with
  | None => policy ≠ Never ∧ ∀ g, policy = Granular g → (if by_rule then rules g else sandbox_approval g) = true
  | Some reason =>
      policy = Never ∧ reason = PROMPT_CONFLICT_REASON
      ∨ ∃ g, policy = Granular g ∧ (if by_rule then rules g else sandbox_approval g) = false
          ∧ reason = if by_rule then REJECT_RULES_APPROVAL_REASON else REJECT_SANDBOX_APPROVAL_REASON
  end.
Proof.
  unfold prompt_is_rejected_by_policy, allows_rules_approval, allows_sandbox_approval.
  destruct policy as [| | |g|], by_rule; try (split; congruence); try (by left); destruct (_ g) eqn:E; cbn;
    try (by right; exists g); by split; [|intros ? [= <-]].
Qed.

(** C3. The requirement of a command is always computed, and means: [Skip]
    only when every command the request runs is allowed, by its rules or by
    the fallback, and the sandbox is bypassed iff some of the commands has an
    allow rule; [NeedsApproval] only when no command is forbidden, some
    command asks, and someone may be asked: not under [Never], and under
    [Granular] only with the switch [rules] when a rule asks for one of the
    commands, with the switch [sandbox_approval] when none does; [Forbidden]
    only when some command is forbidden, or when none is, some command asks and
    the policy has no one to ask, for exactly these reasons, which the message
    names. *)
Theorem approval_requirement_spec p req :
  ∃ cmds complex r, commands_of (command req) = Ok (cmds, complex) ∧ cmds ≠ []
    ∧ requirement p req = Ok r
    ∧ let decides := decided p (fallback req complex) in
      let rule_asks := ∃ c r o m, c ∈ cmds ∧ governs p host_options c r o m ∧ rule_decision r = Prompt in
      match r with
      | Skip bypass _ =>
          (∀ c, c ∈ cmds → decides c Allow)
          ∧ (bypass = true ↔ ∃ c r o m, c ∈ cmds ∧ governs p host_options c r o m
                                        ∧ rule_decision r = Allow)
      | NeedsApproval _ _ =>
          ((∃ c, c ∈ cmds ∧ decides c Prompt) ∧ ∀ c, c ∈ cmds → decides c Allow ∨ decides c Prompt)
          ∧ approval_policy req ≠ Never
          ∧ ∀ g, approval_policy req = Granular g → (rule_asks → rules g = true) ∧ (¬ rule_asks → sandbox_approval g = true)
      | ReqForbidden reason =>
          (∃ c, c ∈ cmds ∧ decides c Forbidden)
          ∨ ((∃ c, c ∈ cmds ∧ decides c Prompt) ∧ ∀ c, c ∈ cmds → decides c Allow ∨ decides c Prompt)
            ∧ (approval_policy req = Never ∧ reason = PROMPT_CONFLICT_REASON
               ∨ ∃ g, approval_policy req = Granular g
                   ∧ (rule_asks ∧ rules g = false ∧ reason = REJECT_RULES_APPROVAL_REASON
                      ∨ (¬ rule_asks) ∧ sandbox_approval g = false ∧ reason = REJECT_SANDBOX_APPROVAL_REASON))
      end.
Proof.
  destruct (requirement_run p req)
    as (cmds & complex & evs & ev & requested & Hc & Hne & HF & Hms & Hin & Hub & Hr & _).
  exists cmds, complex. eexists. split; [done|]. split; [done|]. split; [done|]. cbn zeta.
  assert (∃ c, c ∈ cmds ∧ decided p (fallback req complex) c (decision ev)) as Hex.
  { apply list_elem_of_fmap in Hin as (e & -> & He). apply list_elem_of_lookup in He as [i Hi].
    destruct (Forall2_lookup_r _ _ _ _ _ HF Hi) as (c & Hci & Hck). exists c.
    split; [by eapply list_elem_of_lookup_2|by apply check_decided]. }
  assert (∀ c, c ∈ cmds → ∃ d, decided p (fallback req complex) c d ∧ decision_le d (decision ev)) as Hall.
  { intros c [i Hi]%list_elem_of_lookup. destruct (Forall2_lookup_l _ _ _ _ _ HF Hi) as (e & He & Hck).
    exists (decision e). split; [by apply check_decided|]. apply Hub, list_elem_of_fmap.
    exists e. split; [done|by eapply list_elem_of_lookup_2]. }
  unfold requirement_of. destruct (decision ev) eqn:Ed.
  - split; [|rewrite Hms; by apply match_governed with (req := req) (complex := complex)].
    intros c (d & Hd & Hle)%Hall. destruct d; [done|by unfold decision_le in Hle; simpl in Hle; lia..].
  - assert (Hasks : (∃ c, c ∈ cmds ∧ decided p (fallback req complex) c Prompt)
      ∧ ∀ c, c ∈ cmds → decided p (fallback req complex) c Allow ∨ decided p (fallback req complex) c Prompt).
    { split; [done|]. intros c (d & Hd & Hle)%Hall. destruct d; [by left|by right|unfold decision_le in Hle; simpl in Hle; lia]. }
    pose proof (match_governed Prompt p req complex cmds evs HF) as Hrule. rewrite <- Hms in Hrule.
    pose proof (prompt_rejected_spec (approval_policy req) (existsb (policy_match_with Prompt) (matched_rules ev))) as Hpol.
    destruct (prompt_is_rejected_by_policy _ _) as [reason|], (existsb _ _); try (right; split; [exact Hasks|]); try (split; [exact Hasks|]);
      naive_solver.
  - left. done.
Qed.

(** Nothing needs a sandbox. *)
Definition no_sandbox (policy : SandboxPolicy) : Prop := policy = DangerFullAccess ∨ ∃ n, policy = ExternalSandbox n.
(** When a command that no rule governs is allowed. *)
Lemma fallback_allow req complex c :
  fallback req complex c = Allow →
  (is_known_safe_command try_parse_shell ast c = Ok true ∧ complex = false)
  ∨ (command_might_be_dangerous try_parse_shell c = Ok true ∧ approval_policy req = Never ∧ no_sandbox (sandbox_policy req))
  ∨ (command_might_be_dangerous try_parse_shell c = Ok false
     ∧ match approval_policy req with
       | Never | OnFailure => True
       | UnlessTrusted => False
       | OnRequest | Granular _ =>
           fs_kind (file_system_sandbox_policy req) ≠ FsRestricted ∨ requests_sandbox_override (sandbox_permissions req) = false
       end).
Proof.
  intros Hf. pose proof (fallback_spec try_parse_shell ast req complex c) as Hfs. rewrite Hf in Hfs.
  unfold render_decision_for_unmatched_command in Hfs.
  destruct (is_known_safe_command_total try_parse_shell ast c) as [b Hb]. rewrite Hb in Hfs |- *. cbn [mbind outcome_bind] in Hfs.
  destruct (b && negb complex) eqn:Eb; [left; by destruct b, complex|right].
  destruct (command_might_be_dangerous_total try_parse_shell c) as [[] Hd]; rewrite Hd in Hfs |- *; cbn in Hfs; [left|right]; split; try done.
  - unfold no_sandbox. destruct (approval_policy req); try done. split; [done|]. destruct (sandbox_policy req); try done; eauto.
  - destruct (approval_policy req); try done; destruct (fs_kind _); try (by left); destruct (requests_sandbox_override _); try done; by right.
Qed.
Lemma decision_bounds_commands p req complex cmds evs (ev : Evaluation) c :
  Forall2 (λ c e, check_with_options p c (fallback req complex) host_options = Ok e) cmds evs →
  (∀ d, d ∈ (decision <$> evs) → decision_le d (decision ev)) → c ∈ cmds →
  ∃ d, decided p (fallback req complex) c d ∧ decision_le d (decision ev).
Proof.
  intros HF Hub [i Hi]%list_elem_of_lookup. destruct (Forall2_lookup_l _ _ _ _ _ HF Hi) as (e & He & Hck).
  exists (decision e). split; [by apply check_decided|]. apply Hub, list_elem_of_fmap.
  exists e. split; [done|by eapply list_elem_of_lookup_2].
Qed.
(** Every command of a request that is skipped is allowed. *)
Lemma skipped_commands p req bypass a :
  requirement p req = Ok (Skip bypass a) →
  ∃ cmds complex, commands_of (command req) = Ok (cmds, complex)
    ∧ (∀ c, c ∈ cmds → decided p (fallback req complex) c Allow)
    ∧ (bypass = true → ∃ c r o m, c ∈ cmds ∧ governs p host_options c r o m ∧ rule_decision r = Allow).
Proof.
  intros Hq. destruct (requirement_run p req) as (cmds & complex & evs & ev & requested & Hc & _ & HF & Hms & _ & Hub & Hr & _).
  rewrite Hq in Hr. injection Hr as Hr. exists cmds, complex. split; [done|]. unfold requirement_of in Hr.
  destruct (decision ev) eqn:Ed; [|by destruct (prompt_is_rejected_by_policy _ _)|done]. injection Hr as Hr _. split.
  - rewrite <- Ed in Hub. intros c Hin. destruct (decision_bounds_commands p req complex cmds evs ev c HF Hub Hin) as (d & Hd & Hle).
    rewrite Ed in Hle. destruct d; [done|by unfold decision_le in Hle; simpl in Hle; lia..].
  - intros ->. rewrite Hms in Hr. symmetry in Hr. by apply (match_governed Allow p req complex cmds evs HF) in Hr.
Qed.
Lemma dangerous_skipped p req cmds complex c bypass a :
  commands_of (command req) = Ok (cmds, complex) → c ∈ cmds →
  (∀ r o m, ¬ governs p host_options c r o m) →
  (complex = true ∨ is_known_safe_command try_parse_shell ast c = Ok false) →
  command_might_be_dangerous try_parse_shell c = Ok true →
  requirement p req = Ok (Skip bypass a) → approval_policy req = Never ∧ no_sandbox (sandbox_policy req).
Proof.
  intros Hc Hin Hno Hsafe Hd Hq. destruct (skipped_commands p req bypass a Hq) as (cmds' & complex' & Hc' & Hall & _).
  rewrite Hc in Hc'. injection Hc' as <- <-.
  destruct (Hall c Hin) as [[(r & o & m & Hg & _) _]|[_ [[Hk ->]|[(_ & ? & ?)|[Hd' _]]]%fallback_allow]]; [by apply Hno in Hg| |done|congruence].
  destruct Hsafe as [?|?]; congruence.
Qed.
Lemma requirement_total p req : ∃ r, requirement p req = Ok r.
Proof. destruct (requirement_run p req) as (? & ? & ? & ? & ? & _ & _ & _ & _ & _ & _ & Hr & _). by eexists. Qed.

(** A command no rule governs, not known as safe (or only understood
    through the here-document fallback) and possibly dangerous, never runs
    without approval, unless prompts and the sandbox are both switched off. *)
Theorem dangerous_needs_approval p req cmds complex c :
  commands_of (command req) = Ok (cmds, complex) → c ∈ cmds →
  (∀ r o m, ¬ governs p host_options c r o m) →
  (complex = true ∨ is_known_safe_command try_parse_shell ast c = Ok false) →
  command_might_be_dangerous try_parse_shell c = Ok true →
  (approval_policy req = Never →
   sandbox_policy req ≠ DangerFullAccess ∧ ∀ n, sandbox_policy req ≠ ExternalSandbox n) →
  ∃ r, requirement p req = Ok r ∧ ∀ bypass a, r ≠ Skip bypass a.
Proof.
  intros Hc Hin Hno Hsafe Hd Hnever. destruct (requirement_total p req) as [r Hr]. exists r. split; [done|]. intros bypass a ->.
  destruct (dangerous_skipped p req cmds complex c bypass a) as [Hn Hs]; [done..|].
  destruct (Hnever Hn) as [H1 H2]. destruct Hs as [?|[n ?]]; [by destruct H1|by destruct (H2 n)].
Qed.

(** A program is known as safe by the name of its file alone: whatever is
    called [ls], in the workspace or anywhere else, runs without approval,
    also under [UnlessTrusted], where only commands that just read files are
    to be approved automatically. *)
Theorem safe_name_runs_unasked p req prog args :
  command req = prog :: args → file_name prog = Some (lit "ls") →
  (∀ r o m, ¬ governs p host_options (prog :: args) r o m) →
  ∃ a, requirement p req = Ok (Skip false a).
Proof.
  intros Hc Hf Hno. assert (Hk : lit "ls" ∈ known_names) by (apply (bool_decide_unpack _); vm_compute; exact I).
  assert (Hx : ∀ rest, extract_bash_command (prog :: rest) = None).
  { intros rest. destruct rest as [|flag [|script []]]; try done. unfold extract_bash_command. rewrite (detect_known_name _ _ Hf Hk).
    rewrite (bool_decide_false (None ∈ _)), orb_true_r; [done|]. by apply (bool_decide_unpack _). }
  assert (Hz : zsh_to_bash prog = prog).
  { unfold zsh_to_bash. case_decide as E; [|done]. subst prog. vm_compute in Hf. discriminate Hf. }
  assert (Hsafe : is_known_safe_command try_parse_shell ast (prog :: args) = Ok true).
  { unfold is_known_safe_command. cbn [fmap list_fmap]. rewrite Hz. destruct (is_safe_command_windows _ _); [done|].
    unfold is_safe_to_call_with_exec, executable_name_lookup_key. rewrite Hf. vm_compute (bool_decide (lit "ls" ∈ linux_safe_names)).
    by rewrite (bool_decide_true (lit "ls" ∈ safe_names)) by (apply (bool_decide_unpack _); vm_compute; exact I). }
  destruct (requirement_run p req) as (cmds & complex & evs & ev & requested & Hcm & _ & HF & Hms & Hin & _ & Hr & _).
  rewrite Hc in Hcm. unfold commands_for_exec_policy, parse_shell_lc_plain_commands, parse_shell_lc_single_command_prefix in Hcm.
  rewrite Hx in Hcm. cbn in Hcm. injection Hcm as <- <-. inversion HF as [|? e ? ? Hck HF']; subst. inversion HF'; subst.
  assert (Hd : decision e = Allow).
  { apply check_decided in Hck as [[(r & o & m & Hg & _) _]|[_ Hfb]]; [by apply Hno in Hg|].
    pose proof (fallback_spec try_parse_shell ast req false (prog :: args)) as Hfs. rewrite Hfb in Hfs.
    unfold render_decision_for_unmatched_command in Hfs. rewrite Hsafe in Hfs. cbn in Hfs. congruence. }
  apply list_elem_of_singleton in Hin. unfold requirement_of in Hr. rewrite Hin, Hd in Hr.
  assert (Hnb : existsb (policy_match_with Allow) (matched_rules ev) = false); [|rewrite Hnb in Hr; eauto].
  apply not_true_is_false. rewrite Hms. intros (c & r & o & m & ->%list_elem_of_singleton & Hg & _)%(match_governed Allow p req false [prog :: args] [e]); [by apply Hno in Hg|].
  by constructor.
Qed.
End approval_theorems.

(** * Amendments and the sandbox *)

Section approval_theorems2.
Context `{PathEnv}.
Context (try_parse_shell : str → option Tree).
Context (ast : str → str → option (list (list str))).
Context (shlex_try_join : list str → option str).
Abbreviation requirement :=
  (create_exec_approval_requirement_for_command try_parse_shell ast shlex_try_join).
Abbreviation fallback := (exec_policy_fallback try_parse_shell ast).
Abbreviation commands_of := (commands_for_exec_policy try_parse_shell).

(** One allow rule lifts the sandbox for the whole script: when the
    first of two commands has only allow rules and the second is allowed by
    the fallback alone, which under [OnFailure] relies on the sandbox for
    protection, the requirement is to skip approval and to bypass the
    sandbox. *)
Theorem allow_rule_unsandboxes_script p req c1 c2 r o m :
  commands_of (command req) = Ok ([c1; c2], false) →
  governs p host_options c1 r o m →
  (∀ r' o' m', governs p host_options c1 r' o' m' → rule_decision r' = Allow) →
  (∀ r' o' m', ¬ governs p host_options c2 r' o' m') →
  approval_policy req = OnFailure →
  command_might_be_dangerous try_parse_shell c2 = Ok false →
  ∃ a, requirement p req = Ok (Skip true a).
Proof.
  intros Hc Hg Hallow Hno Hap Hd.
  destruct (requirement_run try_parse_shell ast shlex_try_join p req)
    as (cmds & complex & evs & ev & requested & Hc' & _ & HF & Hms & Hin & _ & Hr & _).
  rewrite Hc in Hc'. injection Hc' as <- <-.
  assert (decision ev = Allow) as Hda.
  { apply list_elem_of_fmap in Hin as (e & -> & He). apply list_elem_of_lookup in He as [i Hi].
    destruct (Forall2_lookup_r _ _ _ _ _ HF Hi) as (c & Hci & Hck). apply check_decided in Hck.
    destruct i as [|[|i]]; simpl in Hci; [injection Hci as <-|injection Hci as <-|done].
    - destruct Hck as [[(r' & o' & m' & Hg' & <-) _]|[Hno' _]]; [by eapply Hallow|by apply Hno' in Hg].
    - destruct Hck as [[(r' & o' & m' & Hg' & _) _]|[_ Hf]]; [by apply Hno in Hg'|].
      rewrite <-Hf. pose proof (fallback_spec try_parse_shell ast req false c2) as Hfs.
      unfold render_decision_for_unmatched_command in Hfs.
      destruct (is_known_safe_command_total try_parse_shell ast c2) as [b Hb].
      rewrite Hb, Hd, Hap in Hfs. cbn in Hfs. destruct (b && true); congruence. }
  exists (if negb false then try_derive_execpolicy_amendment_for_allow_rules (matched_rules ev) else None).
  rewrite Hr. unfold requirement_of. rewrite Hda. do 2 f_equal.
  rewrite Hms. apply (match_governed try_parse_shell ast Allow p req false _ _ HF).
  exists c1, r, o, m. split; [apply list_elem_of_here|]. split; [done|]. by apply (Hallow r o m).
Qed.

Lemma find_map_Some {A B} (f : A → option B) l y :
  find_map f l = Some y → ∃ x, x ∈ l ∧ f x = Some y.
Proof.
  induction l as [|x l IH]; simpl; [done|]. destruct (f x) eqn:E.
  - intros [= <-]. exists x. split; [apply list_elem_of_here|done].
  - intros (z & ? & ?)%IH. exists z. split; [by apply list_elem_of_further|done].
Qed.

(** Matches of the whole request and of its commands. *)
Lemma request_match p req complex cmds evs x :
  Forall2 (λ c e, check_with_options p c (fallback req complex) host_options = Ok e) cmds evs →
  x ∈ concat (matched_rules <$> evs) ↔
  ∃ c, c ∈ cmds ∧
    ((∃ r o m, governs p host_options c r o m ∧ x = rule_match r o m)
     ∨ ((∀ r o m, ¬ governs p host_options c r o m)
        ∧ x = HeuristicsRuleMatch c (fallback req complex c))).
Proof.
  intros HF. rewrite elem_of_concat. setoid_rewrite list_elem_of_fmap. split.
  - intros (l & (e & -> & He) & Hx). apply list_elem_of_lookup in He as [i Hi].
    destruct (Forall2_lookup_r _ _ _ _ _ HF Hi) as (c & Hc & Hck).
    destruct (check_evaluates p c (fallback req complex) host_options) as (e' & He' & Hev).
    rewrite Hck in He'. injection He' as <-. exists c. split; [by eapply list_elem_of_lookup_2|].
    destruct Hev as [(_ & Hms & _)|(_ & Hno & _ & Hms)]; [left; by apply Hms|right].
    rewrite Hms in Hx. by apply list_elem_of_singleton in Hx as ->.
  - intros (c & [i Hi]%list_elem_of_lookup & Hx).
    destruct (Forall2_lookup_l _ _ _ _ _ HF Hi) as (e & He & Hck).
    destruct (check_evaluates p c (fallback req complex) host_options) as (e' & He' & Hev).
    rewrite Hck in He'. injection He' as <-. exists (matched_rules e).
    split; [exists e; split; [done|by eapply list_elem_of_lookup_2]|].
    destruct Hev as [(_ & Hms & (r & o & m & Hg & _) & _)|(_ & Hno & _ & ->)], Hx as [(r' & o' & m' & Hg' & ->)|[Hno' ->]].
    + apply Hms. eauto.
    + by apply Hno' in Hg.
    + by apply Hno in Hg'.
    + apply list_elem_of_here.
Qed.

(** A proposed amendment is either the requested prefix, which is then
    not empty and not banned, no rule governs the commands of the request and
    with the rule added all of them are allowed; or one of the commands of a
    fully understood script, which no rule governs and for which the fallback
    asks. *)
Theorem proposed_amendment_spec p req reason a :
  requirement p req = Ok (NeedsApproval reason (Some a)) →
  ∃ cmds complex, commands_of (command req) = Ok (cmds, complex) ∧
   ((prefix_rule_request req = Some a ∧ a ≠ [] ∧ (a ∉ BANNED_PREFIX_SUGGESTIONS)
     ∧ (∀ c, c ∈ cmds → ∀ r o m, ¬ governs p host_options c r o m)
     ∧ ∃ p', add_prefix_rule p a Allow = Ok p'
             ∧ ∀ c, c ∈ cmds → decided p' (fallback req complex) c Allow)
    ∨ (complex = false ∧ a ∈ cmds ∧ (∀ r o m, ¬ governs p host_options a r o m)
       ∧ fallback req complex a = Prompt)).
Proof.
  destruct (requirement_run try_parse_shell ast shlex_try_join p req)
    as (cmds & complex & evs & ev & requested & Hc & _ & HF & Hms & _ & _ & Hr & Hreq).
  rewrite Hr. unfold requirement_of. destruct (decision ev); [done| |done].
  destruct (prompt_is_rejected_by_policy _ _); [done|]. intros [= _ Ha].
  exists cmds, complex. split; [done|].
  pose proof (λ x, request_match p req complex cmds evs x HF) as Hmatch. rewrite <-Hms in Hmatch.
  destruct requested as [a'|].
  - injection Ha as ->. left. symmetry in Hreq.
    unfold derive_requested_execpolicy_amendment_from_prefix_rule in Hreq.
    destruct (prefix_rule_request req) as [prefix|]; [|done].
    case_decide as Hne; [done|].
    destruct (bool_decide_reflect (prefix ∈ BANNED_PREFIX_SUGGESTIONS)) as [|Hb]; [done|].
    destruct (existsb is_policy_match (matched_rules ev)) eqn:Em; [done|].
    destruct (prefix_rule_would_approve_all_commands _ _ _ _ _) eqn:Ea; [|done]. injection Hreq as ->.
    split; [done|]. split; [done|]. split; [done|]. split.
    + intros c Hin r o m Hg. apply not_true_iff_false in Em. destruct Em. apply existsb_exists.
      exists (rule_match r o m). split; [|done]. apply list_elem_of_In, Hmatch. eauto 10.
    + unfold prefix_rule_would_approve_all_commands in Ea.
      destruct (add_prefix_rule p a Allow) as [p'|e| |]; try done. exists p'. split; [done|].
      intros c Hin. rewrite forallb_forall in Ea. specialize (Ea c (proj1 (list_elem_of_In _ _) Hin)).
      destruct (check_with_options p' c (fallback req complex) host_options) as [e|e| |] eqn:Ec; try done.
      apply bool_decide_eq_true in Ea. rewrite <-Ea. by apply check_decided.
  - right. destruct complex; [done|]. cbn [negb] in Ha.
    unfold try_derive_execpolicy_amendment_for_prompt_rules in Ha.
    destruct (existsb _ _); [done|]. apply find_map_Some in Ha as (x & Hx & Hh).
    apply Hmatch in Hx as (c & Hin & [(r & o & m & _ & ->)|[Hno ->]]); [done|].
    simpl in Hh. case_decide; [|done]. by injection Hh as <-.
Qed.
End approval_theorems2.

Section update_theorems.
Context `{PathEnv} {FS : Type} `{PolicyFilesLaws FS}.
Context (to_json : str → outcome str str).

Lemma blocking_Ok {A} path (m : stm FS AmendError A) fs p s a :
  blocking path m (fs, p) = (s, Ok a) → ∃ fs', m fs = (fs', Ok a) ∧ s = (fs', p).
Proof.
  unfold blocking. destruct (m fs) as [fs' [b|e| |]]; cbn; intros [= <- <-]; eauto.
Qed.

Lemma append_prefix_contents path prefix fs fs' :
  blocking_append_allow_prefix_rule to_json path prefix fs = (fs', Ok tt) →
  ∃ tokens, prefix ≠ [] ∧ mapM to_json prefix = Ok tokens
    ∧ pf_contents fs' path = Some (add_line (default [] (pf_contents fs path)) (prefix_rule_line tokens)).
Proof.
  unfold blocking_append_allow_prefix_rule. case_decide as Hne; [done|].
  intros (fs1 & tokens & Ht & Ha%append_rule_line_contents)%stm_bind_Ok.
  unfold stm_lift in Ht. injection Ht as <- Ht%map_err_Ok. eauto.
Qed.

Lemma check_one_governed p a fallback ev :
  check_multiple_with_options p [a] fallback host_options = Ok ev →
  existsb (policy_match_with Allow) (matched_rules ev) = true →
  ∃ r o m, governs p host_options a r o m ∧ rule_decision r = Allow.
Proof.
  intros Hc (x & Hx & Hp & Hd)%policy_match_with_spec.
  destruct (check_multiple_evaluates p [a] fallback host_options) as (evs & ev' & Hm & Hc' & Hms & _); [done|].
  rewrite Hc in Hc'. injection Hc' as <-. apply mapM_outcome_Ok in Hm.
  apply Forall2_cons_inv_l in Hm as (e & evs' & Hck & ->%Forall2_nil_inv_l & ->).
  rewrite Hms in Hx. simpl in Hx. rewrite app_nil_r in Hx.
  destruct (check_evaluates p a fallback host_options) as (e' & He' & Hev).
  rewrite Hck in He'. injection He' as <-. destruct Hev as [(_ & Hin & _)|(_ & _ & _ & Hin)].
  - apply Hin in Hx as (r & o & m & Hg & ->). by exists r, o, m.
  - rewrite Hin in Hx. by apply list_elem_of_singleton in Hx as ->.
Qed.

(** A successful update writes the rule of the amendment to the rules
    file and leaves a policy in which an allow rule governs the amendment;
    the exact rules and network rules there were are kept. *)
Theorem append_amendment_and_update_spec home a fs p fs' p' :
  append_amendment_and_update to_json home a (fs, p) = ((fs', p'), Ok tt) →
  (∃ tokens, mapM to_json a = Ok tokens
     ∧ pf_contents fs' (default_policy_path home) =
       Some (add_line (default [] (pf_contents fs (default_policy_path home))) (prefix_rule_line tokens)))
  ∧ (∃ r o m, governs p' host_options a r o m ∧ rule_decision r = Allow)
  ∧ network_rules p' = network_rules p
  ∧ ∀ cmd r m, exact_rule p cmd r m → exact_rule p' cmd r m.
Proof.
  unfold append_amendment_and_update.
  intros (s1 & [] & (fs1 & Hw & ->)%blocking_Ok & (s2 & p0 & Hcur & (s3 & ev & Hev & Hst)%stm_bind_Ok)%stm_bind_Ok)%stm_bind_Ok.
  injection Hcur as <- <-. unfold stm_lift in Hev. injection Hev as <- Hev%map_err_Ok.
  apply append_prefix_contents in Hw as (tokens & Hne & Ht & Hf).
  destruct (bool_decide _ && existsb _ _) eqn:Ea.
  - injection Hst as <- <-. apply andb_true_iff in Ea as [_ Ea]. split; [eauto|].
    split; [by eapply check_one_governed|done].
  - assert (exists p1, add_prefix_rule p a Allow = Ok p1 /\ fs' = fs1 /\ p' = p1) as (p1 & Hadd & -> & ->).
    { unfold store_policy in Hst. destruct (add_prefix_rule p a Allow); simplify_eq. eauto. }
    destruct a as [|w ws]; [done|]. injection Hadd as <-. split; [eauto|]. split; [|split; [done|]].
    + exists {| pattern := {| first := w; rest := Single <$> ws |}; rule_decision := Allow; justification := None |},
        None, (w :: ws). split; [|done]. apply governs_exact. exists w, ws. split; [done|].
      split; [|split; [by apply accepts_single|done]]. unfold rules_for. cbn [rules_by_program].
      rewrite rules_for_insert, decide_True by done. apply elem_of_app. right. apply list_elem_of_here.
    + intros cmd r m (w' & args & -> & Hr & ? & ?). exists w', args. split; [done|]. split; [|done].
      unfold rules_for at 1. cbn [rules_by_program]. rewrite rules_for_insert. apply elem_of_app. by left.
Qed.
End update_theorems.

(** * Witnesses *)

Definition demo_env' : PathEnv := lexical_env (lit "/root") (lit "/work").
(** The tree of [ls && curl]. *)
Definition word_node (s : string) (at_ : nat) : Node := MkNode (lit "word") true at_ (Some (lit s)) [].
Definition command_node (s : string) (at_ : nat) : Node :=
  MkNode (lit "command") true at_ None [MkNode (lit "command_name") true at_ None [word_node s at_]].
Definition demo_tree : Tree :=
  {| root_node := MkNode (lit "program") true 0 None
       [MkNode (lit "list") true 0 None
          [command_node "ls" 0; MkNode (lit "&&") false 3 None []; command_node "curl" 6]];
     has_error := false |}.
Definition demo_shell (s : str) : option Tree := Some demo_tree.
Definition ls_rule : PrefixRule :=
  {| pattern := {| first := lit "ls"; rest := [] |}; rule_decision := Allow; justification := None |}.
Definition demo_policy : Policy :=
  {| rules_by_program := {[ lit "ls" := [ls_rule] ]}; network_rules := []; host_executables_by_name := ∅ |}.
Definition demo_request : ExecApprovalRequest :=
  {| command := [lit "bash"; lit "-lc"; lit "ls && curl"];
     approval_policy := OnFailure;
     sandbox_policy := ReadOnly FullAccess false;
     file_system_sandbox_policy := {| fs_kind := FsRestricted; entries := [] |};
     sandbox_permissions := UseDefault;
     prefix_rule_request := None |}.

Lemma demo_rules w r : r ∈ rules_for demo_policy w → w = lit "ls" ∧ r = ls_rule.
Proof.
  unfold rules_for, demo_policy. cbn [rules_by_program].
  destruct (decide (w = lit "ls")) as [->|Hne].
  - rewrite lookup_singleton_eq. by intros ->%list_elem_of_singleton.
  - rewrite lookup_singleton_ne by done. by intros ?%not_elem_of_nil.
Qed.
Lemma demo_governs cmd r o m : @governs demo_env' demo_policy host_options cmd r o m → r = ls_rule ∧ lit "ls" ∈ m.
Proof.
  intros [? ? (w & args & -> & Hr & Ha & _)|w args prog base ? ? _ _ _ _ (Hr & Ha & _)];
    apply demo_rules in Hr as [-> ->]; (split; [done|]); destruct Ha as (ws & -> & _); apply list_elem_of_here.
Qed.

Lemma allow_rule_unsandboxes_script_witness :
  ∃ a, @create_exec_approval_requirement_for_command demo_env' demo_shell no_powershell (λ _, None)
         demo_policy demo_request = Ok (Skip true a).
Proof.
  apply (@allow_rule_unsandboxes_script demo_env' demo_shell no_powershell (λ _, None) demo_policy demo_request
    [lit "ls"] [lit "curl"] ls_rule None [lit "ls"]).
  - vm_compute. reflexivity.
  - apply governs_exact. exists (lit "ls"), []. split; [done|]. split.
    + unfold rules_for, demo_policy. cbn [rules_by_program]. rewrite lookup_singleton_eq. apply list_elem_of_here.
    + split; [by exists []|done].
  - by intros r o m [-> _]%demo_governs.
  - intros r o m Hg. pose proof (demo_governs _ _ _ _ Hg) as [-> _]. inversion Hg; subst.
    + destruct H as (w & args & [= <- <-] & (Hr & _)). by apply demo_rules in Hr as [? _].
    + simplify_eq. destruct H3 as (Hr & _). apply demo_rules in Hr as [-> _].
      destruct H2 as (Ht & Hk & _). vm_compute in Ht. injection Ht as <-. vm_compute in Hk. done.
  - reflexivity.
  - vm_compute. reflexivity.
Defined.

Definition rm_request : ExecApprovalRequest :=
  {| command := [lit "rm"; lit "-rf"; lit "/"]; approval_policy := OnRequest;
     sandbox_policy := DangerFullAccess;
     file_system_sandbox_policy := {| fs_kind := FsUnrestricted; entries := [] |};
     sandbox_permissions := UseDefault; prefix_rule_request := None |}.
Lemma empty_governs env cmd r o m : ¬ @governs env policy_empty host_options cmd r o m.
Proof.
  intros [? ? (w & args & -> & Hr & _)|w args prog base ? ? _ _ _ _ (Hr & _)]; unfold rules_for in Hr;
    cbn in Hr; rewrite lookup_empty in Hr; by apply not_elem_of_nil in Hr.
Qed.
Lemma dangerous_needs_approval_witness :
  ∃ r, @create_exec_approval_requirement_for_command demo_env' no_shell no_powershell (λ _, None)
         policy_empty rm_request = Ok r ∧ ∀ bypass a, r ≠ Skip bypass a.
Proof.
  apply (@dangerous_needs_approval demo_env' no_shell no_powershell (λ _, None) policy_empty rm_request
    [[lit "rm"; lit "-rf"; lit "/"]] false [lit "rm"; lit "-rf"; lit "/"]).
  - vm_compute. reflexivity.
  - apply list_elem_of_here.
  - intros r o m. apply empty_governs.
  - right. vm_compute. reflexivity.
  - vm_compute. reflexivity.
  - discriminate.
Defined.

(** A program of the workspace that is called [ls]. *)
Definition own_ls_request : ExecApprovalRequest :=
  {| command := [lit "./ls"; lit "-x"]; approval_policy := UnlessTrusted;
     sandbox_policy := ReadOnly FullAccess false;
     file_system_sandbox_policy := {| fs_kind := FsRestricted; entries := [] |};
     sandbox_permissions := UseDefault; prefix_rule_request := None |}.
Lemma safe_name_runs_unasked_witness :
  ∃ a, @create_exec_approval_requirement_for_command demo_env' no_shell no_powershell (λ _, None) policy_empty own_ls_request = Ok (Skip false a).
Proof.
  apply (@safe_name_runs_unasked demo_env' no_shell no_powershell (λ _, None) policy_empty own_ls_request (lit "./ls") [lit "-x"]);
    [reflexivity|vm_compute; reflexivity|intros r o m; apply empty_governs].
Defined.

Definition curl_request : ExecApprovalRequest :=
  {| command := [lit "curl"]; approval_policy := UnlessTrusted;
     sandbox_policy := DangerFullAccess;
     file_system_sandbox_policy := {| fs_kind := FsUnrestricted; entries := [] |};
     sandbox_permissions := UseDefault; prefix_rule_request := None |}.
Lemma proposed_amendment_spec_witness :
  ∃ cmds complex, commands_for_exec_policy no_shell [lit "curl"] = Ok (cmds, complex) ∧
   ((prefix_rule_request curl_request = Some [lit "curl"] ∧ [lit "curl"] ≠ []
     ∧ ([lit "curl"] ∉ BANNED_PREFIX_SUGGESTIONS)
     ∧ (∀ c, c ∈ cmds → ∀ r o m, ¬ @governs demo_env' policy_empty host_options c r o m)
     ∧ ∃ p', add_prefix_rule policy_empty [lit "curl"] Allow = Ok p'
             ∧ ∀ c, c ∈ cmds → @decided demo_env' p'
                 (exec_policy_fallback no_shell no_powershell curl_request complex) c Allow)
    ∨ (complex = false ∧ [lit "curl"] ∈ cmds
       ∧ (∀ r o m, ¬ @governs demo_env' policy_empty host_options [lit "curl"] r o m)
       ∧ exec_policy_fallback no_shell no_powershell curl_request complex [lit "curl"] = Prompt)).
Proof.
  apply (@proposed_amendment_spec demo_env' no_shell no_powershell (λ _, None) policy_empty curl_request
    None [lit "curl"]).
  vm_compute. reflexivity.
Defined.

Lemma append_amendment_and_update_spec_witness :
  let s' := (@append_amendment_and_update demo_env' pol_fs _ quote_plain (lit "/h") [lit "ls"]
               (rules_fs, policy_empty)).1 in
  (∃ tokens, mapM quote_plain [lit "ls"] = Ok tokens
     ∧ pf_contents s'.1 (default_policy_path (lit "/h")) =
       Some (add_line (default [] (pf_contents rules_fs (default_policy_path (lit "/h"))))
               (prefix_rule_line tokens)))
  ∧ (∃ r o m, @governs demo_env' s'.2 host_options [lit "ls"] r o m ∧ rule_decision r = Allow)
  ∧ network_rules s'.2 = []
  ∧ ∀ cmd r m, exact_rule policy_empty cmd r m → exact_rule s'.2 cmd r m.
Proof.
  apply (@append_amendment_and_update_spec demo_env' pol_fs _ _ quote_plain (lit "/h") [lit "ls"]
    rules_fs policy_empty).
  vm_compute. reflexivity.
Defined.
