(* ===== verification/Safety.v ===== *)
(** Whether a patch may be applied without asking:
    [codex-rs/core/src/safety.rs] and its caller in
    [codex-rs/core/src/apply_patch.rs]. The target operating system, a
    compile-time constant of [codex-rs/sandboxing/src/manager.rs], is an
    argument. *)
From stdpp Require Import gmap.
From S2P Require Import Prelude RustStr RustPath FileSystem PatchParser ApplyPatch Invocation AbsolutePath Protocol ExecApproval Permissions.

Inductive SandboxType : Type := SandboxNone | MacosSeatbelt | LinuxSeccomp | WindowsRestrictedToken.
Inductive WindowsSandboxLevel : Type := LevelDisabled | LevelRestrictedToken | LevelElevated.
#[export] Instance WindowsSandboxLevel_eq_dec : EqDecision WindowsSandboxLevel.
Proof. solve_decision. Defined.
Inductive target_os : Type := MacOS | Linux | Windows | OtherOs.
Definition get_platform_sandbox (os : target_os) (windows_sandbox_enabled : bool) : option SandboxType :=
  match os with
  | MacOS => Some MacosSeatbelt
  | Linux => Some LinuxSeccomp
  | Windows => if windows_sandbox_enabled then Some WindowsRestrictedToken else None
  | OtherOs => None
  end.

Inductive SafetyCheck : Type :=
| AutoApprove (sandbox_type : SandboxType) (user_explicitly_approved : bool)
| AskUser
| Reject (reason : str).

(** [util::resolve_path]. *)
Definition util_resolve_path (base p : str) : str := if is_absolute p then p else path_join base p.

(** [normalize]: a [PathBuf] that components are pushed to and popped from. *)
Definition path_pop (out : str) : str := match parent out with Some q => q | None => out end.
Definition normalize_step (out : str) (comp : component) : str :=
  match comp with
  | ParentDir => path_pop out
  | CurDir => out
  | other => path_join out (component_str other)
  end.
Definition normalize (p : str) : str := foldl normalize_step [] (components p).

Section safety.
Context `{PermEnv}.

(** The closure [is_path_writable] and the loop over the changes. *)
Definition patch_path_writable (policy : FileSystemSandboxPolicy) (cwd p : str) : outcome Empty_set bool :=
  can_write_path_with_cwd policy (normalize (util_resolve_path cwd p)) cwd.
Fixpoint changes_writable (policy : FileSystemSandboxPolicy) (cwd : str)
    (l : list (str * ApplyPatchFileChange)) : outcome Empty_set bool :=
  match l with
  | [] => Ok true
  | (p, change) :: l' =>
      w ← patch_path_writable policy cwd p;
      if negb w then Ok false
      else
        match change with
        | Add _ | Delete _ => changes_writable policy cwd l'
        | Update _ move_path _ =>
            d ← match move_path with
                | Some dest => patch_path_writable policy cwd dest
                | None => Ok true
                end;
            if negb d then Ok false else changes_writable policy cwd l'
        end
  end.
Definition is_write_patch_constrained_to_writable_paths (action : ApplyPatchAction)
    (policy : FileSystemSandboxPolicy) (cwd : str) : outcome Empty_set bool :=
  changes_writable policy cwd (map_to_list (changes action)).

Definition rejects_sandbox_approval (policy : AskForApproval) : bool :=
  match policy with
  | Never => true
  | Granular config => negb (sandbox_approval config)
  | _ => false
  end.
Definition empty_patch : str := lit "empty patch".
Definition outside_project : str := lit "writing outside of the project; rejected by user approval settings".
Definition not_approved (policy : AskForApproval) : SafetyCheck :=
  if rejects_sandbox_approval policy then Reject outside_project else AskUser.
(** The approval of a patch that may be written, where a sandbox can be enforced. *)
Definition approve_in_sandbox (os : target_os) (policy : AskForApproval) (sandbox_policy : SandboxPolicy)
    (windows_sandbox_level : WindowsSandboxLevel) : SafetyCheck :=
  match sandbox_policy with
  | DangerFullAccess | ExternalSandbox _ => AutoApprove SandboxNone false
  | _ =>
      match get_platform_sandbox os (negb (bool_decide (windows_sandbox_level = LevelDisabled))) with
      | Some sandbox_type => AutoApprove sandbox_type false
      | None => not_approved policy
      end
  end.
Definition assess_patch_safety (os : target_os) (action : ApplyPatchAction) (policy : AskForApproval)
    (sandbox_policy : SandboxPolicy) (file_system_sandbox_policy : FileSystemSandboxPolicy) (cwd : str)
    (windows_sandbox_level : WindowsSandboxLevel) : outcome Empty_set SafetyCheck :=
  if decide (changes action = ∅) then Ok (Reject empty_patch)
  else match policy with
  | UnlessTrusted => Ok AskUser
  | OnFailure | Never | OnRequest | Granular _ =>
      constrained ← is_write_patch_constrained_to_writable_paths action file_system_sandbox_policy cwd;
      Ok (if constrained || match policy with OnFailure => true | _ => false end
          then approve_in_sandbox os policy sandbox_policy windows_sandbox_level
          else not_approved policy)
  end.

(** [apply_patch], the decision of the tool. *)
Inductive InternalApplyPatchInvocation : Type :=
| RespondToModel (message : str)
| DelegateToExec (action : ApplyPatchAction) (auto_approved : bool) (requirement : ExecApprovalRequirement).
Definition apply_patch_decision (os : target_os) (approval_policy : AskForApproval) (sandbox_policy : SandboxPolicy)
    (file_system_sandbox_policy : FileSystemSandboxPolicy) (cwd : str)
    (windows_sandbox_level : WindowsSandboxLevel) (action : ApplyPatchAction)
    : outcome Empty_set InternalApplyPatchInvocation :=
  c ← assess_patch_safety os action approval_policy sandbox_policy file_system_sandbox_policy cwd
        windows_sandbox_level;
  Ok match c with
     | AutoApprove _ user_explicitly_approved =>
         DelegateToExec action (negb user_explicitly_approved) (Skip false None)
     | AskUser => DelegateToExec action false (NeedsApproval None None)
     | Reject reason => RespondToModel (lit "patch rejected: " ++ reason)
     end.
End safety.

(** [convert_apply_patch_to_protocol]. *)
Inductive FileChange : Type :=
| FcAdd (content : str)
| FcDelete (content : str)
| FcUpdate (unified_diff : str) (move_path : option str).
Definition convert_apply_patch_to_protocol (action : ApplyPatchAction) : gmap str FileChange :=
  (λ change, match change with
             | Add content => FcAdd content
             | Delete content => FcDelete content
             | Update unified_diff move_path _ => FcUpdate unified_diff move_path
             end) <$> changes action.

(** * Lemmas *)


(** The paths a change writes to. *)
Definition touched (p : str) (change : ApplyPatchFileChange) : list str :=
  p :: match change with Update _ (Some dest) _ => [dest] | _ => [] end.

Section lemmas.
Context `{PermEnvLaws}.

Lemma patch_path_writable_total policy cwd p :
  is_absolute cwd = true → ∃ b, patch_path_writable policy cwd p = Ok b.
Proof.
  intros Hc. unfold patch_path_writable, can_write_path_with_cwd, resolve_access_with_cwd.
  destruct (fs_kind policy); run_bind; [|eauto..].
  destruct (resolve_candidate_path _ _); run_bind; [|eauto].
  destruct (resolved_entries_total policy cwd Hc) as (_ & k & _ & _ & _ & ->). run_bind. eauto.
Qed.
Lemma changes_writable_spec policy cwd l :
  is_absolute cwd = true →
  ∃ b, changes_writable policy cwd l = Ok b
    ∧ (b = true ↔ ∀ k change p, (k, change) ∈ l → p ∈ touched k change → patch_path_writable policy cwd p = Ok true).
Proof.
  intros Hc. induction l as [|[k change] rest (b & E & Hb)].
  { exists true. split; [done|]. split; [|done]. by intros _ k change p ?%elem_of_nil. }
  cbn [changes_writable]. destruct (patch_path_writable_total policy cwd k Hc) as [w Ew]. rewrite Ew. run_bind.
  assert (Hcons : (∀ k' change' p, (k', change') ∈ (k, change) :: rest → p ∈ touched k' change' → patch_path_writable policy cwd p = Ok true)
    ↔ (∀ p, p ∈ touched k change → patch_path_writable policy cwd p = Ok true) ∧ b = true).
  { rewrite Hb. split.
    - intros Hall. split; [intros p Hp; apply (Hall k change p (list_elem_of_here _ _) Hp)|].
      intros k' change' p Hin. apply (Hall k' change' p). by right.
    - intros [H1 H2] k' change' p [[= -> ->]|Hin]%elem_of_cons; eauto. }
  setoid_rewrite Hcons. destruct w; cbn [negb].
  2:{ exists false. split; [done|]. split; [done|]. intros [H1 _]. specialize (H1 k (list_elem_of_here _ _)). congruence. }
  destruct change as [content|content|diff [dest|] content]; run_bind; rewrite ?E; cbn [negb].
  1,2,4: exists b; split; [done|]; split; [|by intros [_ ?]]; intros ->; split; [|done]; by intros p ->%list_elem_of_singleton.
  destruct (patch_path_writable_total policy cwd dest Hc) as [d Ed]. rewrite Ed. run_bind. destruct d; cbn [negb].
  - exists b. split; [done|]. split; [|by intros [_ ?]]. intros ->. split; [|done].
    by intros p [->| ->%list_elem_of_singleton]%elem_of_cons.
  - exists false. split; [done|]. split; [done|]. intros [H1 _].
    specialize (H1 dest (list_elem_of_further _ _ _ (list_elem_of_here _ _))). congruence.
Qed.

(** Every path the changes touch can be written. *)
Definition patch_constrained (policy : FileSystemSandboxPolicy) (cwd : str) (action : ApplyPatchAction) : Prop :=
  ∀ k change p, changes action !! k = Some change → p ∈ touched k change → patch_path_writable policy cwd p = Ok true.
Lemma constrained_spec policy cwd action :
  is_absolute cwd = true →
  ∃ b, is_write_patch_constrained_to_writable_paths action policy cwd = Ok b ∧ (b = true ↔ patch_constrained policy cwd action).
Proof.
  intros Hc. destruct (changes_writable_spec policy cwd (map_to_list (changes action)) Hc) as (b & E & Hb).
  exists b. split; [exact E|]. rewrite Hb. unfold patch_constrained. by setoid_rewrite elem_of_map_to_list.
Qed.

(** When a patch is applied without asking, when the user is asked and when
    it is refused. *)
Definition unsandboxed_policy (p : SandboxPolicy) : Prop :=
  match p with DangerFullAccess | ExternalSandbox _ => True | _ => False end.
Definition enforceable (os : target_os) (level : WindowsSandboxLevel) (p : SandboxPolicy) (t : SandboxType) : Prop :=
  (unsandboxed_policy p ∧ t = SandboxNone)
  ∨ (¬ unsandboxed_policy p
     ∧ get_platform_sandbox os (negb (bool_decide (level = LevelDisabled))) = Some t).
Definition may_write (policy : AskForApproval) (fsp : FileSystemSandboxPolicy) (cwd : str) (action : ApplyPatchAction) : Prop :=
  policy = OnFailure ∨ patch_constrained fsp cwd action.

Definition check_justified (os : target_os) (action : ApplyPatchAction) (policy : AskForApproval)
    (sp : SandboxPolicy) (fsp : FileSystemSandboxPolicy) (cwd : str) (level : WindowsSandboxLevel)
    (check : SafetyCheck) : Prop :=
  let refused := ¬ may_write policy fsp cwd action ∨ ∀ t, ¬ enforceable os level sp t in
  match check with
  | AutoApprove t explicit =>
      explicit = false ∧ changes action ≠ ∅ ∧ policy ≠ UnlessTrusted
      ∧ may_write policy fsp cwd action ∧ enforceable os level sp t
  | AskUser =>
      changes action ≠ ∅ ∧ rejects_sandbox_approval policy = false ∧ (policy = UnlessTrusted ∨ refused)
  | Reject reason =>
      (changes action = ∅ ∧ reason = empty_patch)
      ∨ (changes action ≠ ∅ ∧ rejects_sandbox_approval policy = true ∧ reason = outside_project ∧ refused)
  end.
Lemma not_approved_justified os action policy sp fsp cwd level :
  changes action ≠ ∅ → ¬ may_write policy fsp cwd action ∨ (∀ t, ¬ enforceable os level sp t) →
  check_justified os action policy sp fsp cwd level (not_approved policy).
Proof.
  intros Hne Hwhy. unfold not_approved. destruct (rejects_sandbox_approval policy) eqn:Er; cbn; [by right|auto].
Qed.
Lemma approve_justified os action policy sp fsp cwd level :
  changes action ≠ ∅ → policy ≠ UnlessTrusted → may_write policy fsp cwd action →
  check_justified os action policy sp fsp cwd level (approve_in_sandbox os policy sp level).
Proof.
  intros Hne Hp Hw. unfold approve_in_sandbox.
  assert (Hsandbox : ¬ unsandboxed_policy sp → check_justified os action policy sp fsp cwd level
    match get_platform_sandbox os (negb (bool_decide (level = LevelDisabled))) with
    | Some sandbox_type => AutoApprove sandbox_type false | None => not_approved policy end).
  { intros Hs. destruct (get_platform_sandbox _ _) as [t|] eqn:Es; [by split_and!; try done; right|].
    apply not_approved_justified; [done|]. right. intros t [[? _]|[_ ?]]; [done|congruence]. }
  destruct sp; try (by apply Hsandbox; intros []); split_and!; try done; by left.
Qed.

Lemma assess_justified os action policy sp fsp cwd level :
  is_absolute cwd = true →
  ∃ check, assess_patch_safety os action policy sp fsp cwd level = Ok check
    ∧ check_justified os action policy sp fsp cwd level check.
Proof.
  intros Hc. unfold assess_patch_safety. destruct (decide (changes action = ∅)) as [He|Hne]; [eexists; split; [done|]; by left|].
  destruct (constrained_spec fsp cwd action Hc) as (b & E & Hb). rewrite E.
  assert (Hrun : policy ≠ UnlessTrusted → check_justified os action policy sp fsp cwd level
    (if b || match policy with OnFailure => true | _ => false end
     then approve_in_sandbox os policy sp level else not_approved policy)).
  { intros Hp. assert (Hmay : b || match policy with OnFailure => true | _ => false end = true ↔ may_write policy fsp cwd action).
    { unfold may_write. rewrite orb_true_iff, Hb. destruct policy; naive_solver. }
    destruct (b || _); [apply approve_justified; naive_solver|].
    apply not_approved_justified; [done|]. left. rewrite <-Hmay. done. }
  destruct policy; run_bind; try (eexists; split; [reflexivity|by apply Hrun]).
  exists AskUser. split; [done|]. split_and!; auto.
Qed.

(** The safety check always decides. It approves exactly when the patch is
    not empty, the policy does not ask for everything, the patch is confined
    to writable paths (or failures are what the user is asked about), and
    nothing needs a sandbox or one is available, which it then names; a patch
    that is not approved is refused when the policy forbids asking and put to
    the user otherwise. *)
Theorem assess_patch_safety_spec os action policy sp fsp cwd level :
  is_absolute cwd = true →
  ∃ check, assess_patch_safety os action policy sp fsp cwd level = Ok check
    ∧ check_justified os action policy sp fsp cwd level check.
Proof. apply assess_justified. Qed.

(** * From the command to the paths that are written *)

Context (extract_apply_patch_from_bash : str → outcome ExtractHeredocError (str * option str)).
Context (text_diff : str → str → nat → str).
Context {FS : Type} `{FileSystem FS}.

(** The paths applying a hunk writes to or removes. *)
Definition hunk_targets (ecwd : str) (h : Hunk) : list str :=
  path_join ecwd (hunk_path h)
  :: match h with UpdateFile _ (Some dest) _ => [path_join ecwd dest] | _ => [] end.



End lemmas.

(** * Witnesses *)

Definition safety_fs : mem_fs := MemFs {[ lit "/work/f" := sample_file ]}.
Definition safe_patch : str :=
  join [nl] [lit "*** Begin Patch"; lit "*** Update File: f"; lit "*** Move to: g"; lit "@@";
             lit "-b"; lit "+B"; lit "*** End Patch"].
Definition workspace_policy : SandboxPolicy := WorkspaceWrite [] FullAccess false true true.
Definition safe_action : outcome Empty_set MaybeApplyPatchVerified :=
  maybe_parse_apply_patch_verified no_heredoc no_diff safety_fs [lit "apply_patch"; safe_patch] (lit "/work").

Lemma assess_patch_safety_spec_witness :
  ∃ act, safe_action = Ok (VBody act) ∧
  ∃ check, @assess_patch_safety perm_env Linux act OnRequest workspace_policy perm_policy (lit "/work") LevelDisabled = Ok check
    ∧ @check_justified perm_env Linux act OnRequest workspace_policy perm_policy (lit "/work") LevelDisabled check
    ∧ check = AutoApprove LinuxSeccomp false.
Proof.
  eexists. split; [vm_compute; reflexivity|].
  edestruct (assess_patch_safety_spec (H := perm_env)) as (check & E & Hj); [|exists check; split; [exact E|]; split; [exact Hj|]].
  - reflexivity.
  - revert E. vm_compute. by intros [= <-].
Defined.

Definition hidden_move_action : outcome Empty_set MaybeApplyPatchVerified :=
  maybe_parse_apply_patch_verified no_heredoc no_diff safety_fs [lit "apply_patch"; sample_patch] (lit "/work").
(** A second hunk on the same file hides a move from the safety check:
    the patch below moves [f] out of the workspace and adds a new [f]; it is
    approved without asking although [/etc/h], which applying it creates,
    cannot be written. *)
Theorem hidden_move_is_approved :
  ∃ act, hidden_move_action = Ok (VBody act)
    ∧ @assess_patch_safety perm_env Linux act OnRequest workspace_policy perm_policy (lit "/work") LevelDisabled
      = Ok (AutoApprove LinuxSeccomp false)
    ∧ @can_write_path_with_cwd perm_env perm_policy (lit "/etc/h") (lit "/work") = Ok false
    ∧ ∃ args, maybe_parse_apply_patch no_heredoc [lit "apply_patch"; sample_patch] = Ok (Body args)
      ∧ ∃ h, h ∈ hunks args ∧ lit "/etc/h" ∈ hunk_targets (lit "/work") h.
Proof.
  eexists. split; [vm_compute; reflexivity|]. split; [vm_compute; reflexivity|]. split; [vm_compute; reflexivity|].
  eexists. split; [vm_compute; reflexivity|]. eexists. split; [by left|]. right. by left.
Qed.
