(* ===== verification/TomlValue.v ===== *)
(** Values of TOML documents, how the layers of the configuration are merged
    and how command-line overrides are written: [codex-rs/config/src/merge.rs],
    [overrides.rs] and the shape of [toml::Value]. A table is a [BTreeMap];
    floats are their bits and dates their text. *)
From stdpp Require Import gmap.
From S2P Require Import Prelude RustStr BTreeMap.

Inductive TomlValue : Type :=
| TomlString (s : str)
| TomlInteger (n : Z)
| TomlFloat (bits : N)
| TomlBoolean (b : bool)
| TomlDatetime (d : str)
| TomlArray (items : list TomlValue)
| TomlTable (entries : list (str * TomlValue)).

Definition is_table (v : TomlValue) : bool := match v with TomlTable _ => true | _ => false end.

(** * Operations *)

(** [default_empty_table]. *)
Definition empty_table : TomlValue := TomlTable [].

(** [merge_toml_values(base, overlay)] leaves this value in [base]. *)
Fixpoint merge_toml_values (base overlay : TomlValue) {struct overlay} : TomlValue :=
  match overlay, base with
  | TomlTable overlay_table, TomlTable base_table =>
      TomlTable
        ((fix go (o b : list (str * TomlValue)) : list (str * TomlValue) :=
            match o with
            | [] => b
            | (key, value) :: o' =>
                go o' (btree_insert key
                         (match lookup_entry key b with
                          | Some existing => merge_toml_values existing value
                          | None => value
                          end) b)
            end) overlay_table base_table)
  | _, _ => overlay
  end.
(** The loop of [merge_toml_values] over the entries of two tables. *)
Definition merge_entry (b : list (str * TomlValue)) (e : str * TomlValue) : list (str * TomlValue) :=
  btree_insert e.1 (match lookup_entry e.1 b with Some existing => merge_toml_values existing e.2 | None => e.2 end) b.

(** [apply_toml_override], on the segments of its path. *)
Fixpoint override_segments (segments : list str) (current value : TomlValue) : TomlValue :=
  match segments with
  | [] => current
  | segment :: rest =>
      let table := match current with TomlTable t => t | _ => [] end in
      match rest with
      | [] => TomlTable (btree_insert segment value table)
      | _ => TomlTable (btree_insert segment
               (override_segments rest (default empty_table (lookup_entry segment table)) value) table)
      end
  end.
Definition apply_toml_override (root : TomlValue) (path : str) (value : TomlValue) : TomlValue :=
  override_segments (split_char 46 path) root value.
Definition build_cli_overrides_layer (cli_overrides : list (str * TomlValue)) : TomlValue :=
  foldl (λ root o, apply_toml_override root o.1 o.2) empty_table cli_overrides.

(** [record_origins]: [path] is the stack of keys above the value. The indexes of
    an array are [i32]; arrays are taken to be shorter than that allows. *)
Fixpoint record_origins {M} (value : TomlValue) (meta : M) (path : list str) (origins : gmap str M) {struct value} : gmap str M :=
  match value with
  | TomlTable table =>
      (fix go (t : list (str * TomlValue)) (o : gmap str M) : gmap str M :=
         match t with
         | [] => o
         | (key, val) :: t' => go t' (record_origins val meta (path ++ [key]) o)
         end) table origins
  | TomlArray items =>
      (fix go (idx : nat) (l : list TomlValue) (o : gmap str M) : gmap str M :=
         match l with
         | [] => o
         | item :: l' => go (S idx) l' (record_origins item meta (path ++ [show_nat idx]) o)
         end) 0 items origins
  | _ => match path with [] => origins | _ => <[join (lit ".") path := meta]> origins end
  end.

(** * Specification *)

(** The value at a path of keys. *)
Fixpoint toml_get (p : list str) (v : TomlValue) : option TomlValue :=
  match p with
  | [] => Some v
  | k :: p' => match v with
               | TomlTable t => match lookup_entry k t with Some w => toml_get p' w | None => None end
               | _ => None
               end
  end.
(** Some value that is not a table stands above the path. *)
Fixpoint blocked (p : list str) (v : TomlValue) : bool :=
  match p with
  | [] => false
  | k :: p' => match v with
               | TomlTable t => match lookup_entry k t with Some w => blocked p' w | None => false end
               | _ => true
               end
  end.
(** Nothing at the path, nor above it that is not a table. *)
Definition untouched (p : list str) (v : TomlValue) : Prop := toml_get p v = None ∧ blocked p v = false.

(** The table that holds a value at a path. *)
Fixpoint nest (p : list str) (v : TomlValue) : TomlValue :=
  match p with [] => v | k :: p' => TomlTable [(k, nest p' v)] end.
(** The paths of the values that are neither tables nor arrays; an element of
    an array is under its index. *)
Fixpoint leaf_paths (v : TomlValue) : list (list str) :=
  match v with
  | TomlTable t =>
      (fix go (t : list (str * TomlValue)) : list (list str) :=
         match t with [] => [] | (k, w) :: t' => (cons k <$> leaf_paths w) ++ go t' end) t
  | TomlArray l =>
      (fix go (idx : nat) (l : list TomlValue) : list (list str) :=
         match l with [] => [] | w :: l' => (cons (show_nat idx) <$> leaf_paths w) ++ go (S idx) l' end) 0 l
  | _ => [[]]
  end.
Definition is_scalar (v : TomlValue) : bool := match v with TomlTable _ | TomlArray _ => false | _ => true end.
(** No key of a table, at any depth, has a dot. *)
Inductive plain_keys : TomlValue → Prop :=
| plain_table t : Forall (λ k, 46%N ∉ k) t.*1 → Forall plain_keys t.*2 → plain_keys (TomlTable t)
| plain_array l : Forall plain_keys l → plain_keys (TomlArray l)
| plain_scalar v : is_scalar v = true → plain_keys v.

(** Every table, at any depth, is a map. *)
Inductive toml_wf : TomlValue → Prop :=
| wf_table t : btree_wf t → Forall toml_wf t.*2 → toml_wf (TomlTable t)
| wf_array l : Forall toml_wf l → toml_wf (TomlArray l)
| wf_scalar v : is_scalar v = true → toml_wf v.

(** * Lemmas *)

Lemma merge_tables o b : merge_toml_values (TomlTable b) (TomlTable o) = TomlTable (foldl merge_entry b o).
Proof. cbn [merge_toml_values]. f_equal. revert b. induction o as [|[k v] o IH]; intros b; [done|]. apply IH. Qed.
Lemma merge_not_table b o : is_table b = false ∨ is_table o = false → merge_toml_values b o = o.
Proof. destruct o, b; cbn; intros [[=]|[=]]; done. Qed.

Lemma lookup_merge_entries k o : ∀ b, NoDup o.*1 →
  lookup_entry k (foldl merge_entry b o)
  = match lookup_entry k o with
    | Some v => Some (match lookup_entry k b with Some w => merge_toml_values w v | None => v end)
    | None => lookup_entry k b
    end.
Proof.
  induction o as [|[x v] o IH]; intros b Ho; [done|]. cbn [fmap list_fmap fst] in Ho.
  apply NoDup_cons in Ho as [Hx Ho]. cbn [foldl]. rewrite (IH _ Ho), lookup_entry_cons. cbn [fst snd].
  unfold merge_entry. cbn [fst snd]. case_decide as Hk.
  - subst x. apply lookup_entry_None in Hx. by rewrite Hx, lookup_entry_insert.
  - by rewrite lookup_entry_insert_ne.
Qed.

Lemma toml_wf_table t : toml_wf (TomlTable t) ↔ btree_wf t ∧ Forall toml_wf t.*2.
Proof. split; [inversion 1; done|intros []; by constructor]. Qed.
Lemma toml_wf_lookup k t v : toml_wf (TomlTable t) → lookup_entry k t = Some v → toml_wf v.
Proof.
  intros [_ H]%toml_wf_table Hl%lookup_entry_elem. rewrite Forall_forall in H. apply H.
  by apply (list_elem_of_fmap_2 snd _ (k, v)).
Qed.
Lemma toml_wf_insert k v t : toml_wf (TomlTable t) → toml_wf v → toml_wf (TomlTable (btree_insert k v t)).
Proof.
  rewrite !toml_wf_table. intros [Hb Ht] Hv. split; [by apply btree_insert_wf|].
  apply Forall_forall. intros w (e & -> & He)%list_elem_of_fmap. apply elem_btree_insert in He as [->|He]; [done|].
  rewrite Forall_forall in Ht. by apply Ht, list_elem_of_fmap_2.
Qed.
Lemma empty_table_wf : toml_wf empty_table.
Proof. apply toml_wf_table. split; constructor. Qed.
#[export] Hint Resolve empty_table_wf : core.

(** Induction on the value, through the entries of its tables. *)
Lemma toml_ind (P : TomlValue → Prop) :
  (∀ v, is_table v = false → P v) → (∀ t, Forall P t.*2 → P (TomlTable t)) → ∀ v, P v.
Proof.
  intros Hs Ht. fix IH 1. intros [| | | | | |t]; [by apply Hs..|].
  apply Ht. induction t as [|[k v] t IHt]; [constructor|]. constructor; [apply IH|apply IHt].
Qed.

Lemma toml_ind3 (P : TomlValue → Prop) :
  (∀ v, is_scalar v = true → P v) → (∀ l, Forall P l → P (TomlArray l)) →
  (∀ t, Forall P t.*2 → P (TomlTable t)) → ∀ v, P v.
Proof.
  intros Hs Ha Ht. fix IH 1. intros [| | | | |l|t]; [by apply Hs..| |].
  - apply Ha. induction l as [|v l IHl]; constructor; [apply IH|apply IHl].
  - apply Ht. induction t as [|[k v] t IHt]; [constructor|]. constructor; [apply IH|apply IHt].
Qed.

(** The value at a path of a merge, from the values of the two sides there. *)
Lemma toml_get_merge p : ∀ b o, toml_wf o →
  toml_get p (merge_toml_values b o)
  = match toml_get p o with
    | Some v => Some (match toml_get p b with Some w => merge_toml_values w v | None => v end)
    | None => if blocked p o then None else toml_get p b
    end.
Proof.
  induction p as [|k p IH]; intros b o Ho; [done|]. destruct (is_table o) eqn:Eo.
  2:{ rewrite merge_not_table by auto. by destruct o. }
  destruct o as [| | | | | |o]; try done. destruct (is_table b) eqn:Eb.
  2:{ rewrite merge_not_table by auto. replace (toml_get (k :: p) b) with (@None TomlValue) by (by destruct b).
      by destruct (toml_get (k :: p) (TomlTable o)), (blocked (k :: p) (TomlTable o)). }
  destruct b as [| | | | | |b]; try done. rewrite merge_tables. cbn [toml_get blocked].
  pose proof (proj1 (toml_wf_table o) Ho) as [Hw _].
  rewrite lookup_merge_entries by by apply btree_wf_NoDup.
  destruct (lookup_entry k o) as [v|] eqn:Ev; [|done].
  destruct (lookup_entry k b) as [w|]; [apply IH; by eapply toml_wf_lookup|].
  by destruct (toml_get p v), (blocked p v).
Qed.

Lemma merge_wf b o : toml_wf b → toml_wf o → toml_wf (merge_toml_values b o).
Proof.
  revert b. induction o as [o Ho|o IH] using toml_ind; intros b Hb Ho'; [by rewrite merge_not_table by auto|].
  destruct (is_table b) eqn:Eb; [|by rewrite merge_not_table by auto].
  destruct b as [| | | | | |b]; try done. rewrite merge_tables.
  apply toml_wf_table in Ho' as [_ Ho']. revert b Hb Eb.
  induction o as [|[k v] o IHo]; intros b Hb _; [done|]. cbn [foldl].
  apply Forall_cons in IH as [IHv IH], Ho' as [Hv Ho']. apply IHo; [done..| |done].
  unfold merge_entry. cbn [fst snd]. apply toml_wf_insert; [done|].
  destruct (lookup_entry k b) as [w|] eqn:Ew; [|done]. apply IHv; [by eapply toml_wf_lookup|done].
Qed.
Lemma merge_empty b : is_table b = true → merge_toml_values b empty_table = b.
Proof. by destruct b. Qed.

(** * Merging a stack *)

(** A value that is not a table is at a path of the merge exactly when the last
    value that touches the path has it there. *)
Lemma merged_leaf_iff p v layers : Forall toml_wf layers → is_table v = false →
  toml_get p (foldl merge_toml_values empty_table layers) = Some v
  ↔ ∃ pre l post, layers = pre ++ l :: post ∧ toml_get p l = Some v ∧ Forall (untouched p) post.
Proof.
  intros Hw Hv. induction layers as [|l layers IH] using rev_ind.
  - split; [|by intros ([] & ? & ? & ? & _)]. destruct p; [by intros [= <-]|done].
  - apply Forall_app in Hw as [Hw [Hl _]%Forall_cons]. rewrite foldl_app. cbn [foldl].
    rewrite toml_get_merge by done. destruct (toml_get p l) as [w|] eqn:Ew.
    + split.
      * intros [= Hm]. exists layers, l, []. repeat split; [|constructor]. rewrite Ew. f_equal.
        destruct (toml_get p _) as [u|]; [|done]. destruct (is_table w) eqn:Ewt; [|by rewrite merge_not_table in Hm by auto].
        destruct (is_table u) eqn:Eut; [|by rewrite merge_not_table in Hm by auto].
        destruct w, u; try done. rewrite merge_tables in Hm. by subst v.
      * intros (pre & l' & post & E & Hg & Hp). destruct post as [|x post] using rev_ind.
        -- apply app_inj_tail in E as [_ <-]. rewrite Ew in Hg. injection Hg as ->.
           destruct (toml_get p _); [|done]. by rewrite merge_not_table by auto.
        -- rewrite app_comm_cons, app_assoc in E. apply app_inj_tail in E as [_ <-].
           apply Forall_app in Hp as [_ [[Hn _] _]%Forall_cons]. congruence.
    + assert (Hpost : ∀ pre l' post, layers ++ [l] = pre ++ l' :: post → toml_get p l' = Some v →
        ∃ post', post = post' ++ [l] ∧ layers = pre ++ l' :: post').
      { intros pre l' post E Hg. destruct post as [|x post _] using rev_ind.
        - apply app_inj_tail in E as [_ <-]. congruence.
        - rewrite app_comm_cons, app_assoc in E. apply app_inj_tail in E as [-> <-]. by exists post. }
      destruct (blocked p l) eqn:Eb.
      * split; [done|]. intros (pre & l' & post & E & Hg & Hp).
        destruct (Hpost _ _ _ E Hg) as (post' & -> & _). apply Forall_app in Hp as [_ [[_ Hn] _]%Forall_cons]. congruence.
      * rewrite (IH Hw). split.
        -- intros (pre & l' & post & -> & Hg & Hp). exists pre, l', (post ++ [l]). rewrite <-app_assoc. split; [done|].
           split; [done|]. apply Forall_app. split; [done|]. by constructor.
        -- intros (pre & l' & post & E & Hg & Hp). destruct (Hpost _ _ _ E Hg) as (post' & -> & ->).
           exists pre, l', post'. apply Forall_app in Hp as [Hp _]. done.
Qed.

(** * Overrides *)

Lemma override_get segments : ∀ current value, segments ≠ [] →
  toml_get segments (override_segments segments current value) = Some value.
Proof.
  induction segments as [|s [|s' rest] IH]; intros current value Hs; [done| |].
  - cbn. by rewrite lookup_entry_insert.
  - cbn [override_segments toml_get]. rewrite lookup_entry_insert. by apply IH.
Qed.
(** Paths that branch off are as they were. *)
Lemma override_frame p : ∀ segments current value,
  ¬ p `prefix_of` segments → ¬ segments `prefix_of` p →
  toml_get p (override_segments segments current value) = toml_get p current.
Proof.
  induction p as [|k p IH]; intros [|s rest] current value Hp Hs; [by destruct Hp| by destruct Hp; apply prefix_nil|done|].
  assert (Hget : toml_get (k :: p) (TomlTable (match current with TomlTable t => t | _ => [] end)) = toml_get (k :: p) current)
    by (by destruct current).
  rewrite <-Hget. cbn [override_segments]. set (t := match current with TomlTable t => t | _ => [] end).
  destruct (decide (k = s)) as [<-|Hk].
  - destruct rest as [|s' rest]; [by destruct Hs; apply prefix_cons, prefix_nil|].
    cbn [toml_get]. rewrite lookup_entry_insert. rewrite IH.
    + destruct (lookup_entry k t) as [w|]; [done|]. cbn. destruct p; [|done]. by destruct Hp; apply prefix_cons, prefix_nil.
    + intros H. by apply Hp, prefix_cons.
    + intros H. by apply Hs, prefix_cons.
  - destruct rest; cbn [toml_get]; by rewrite lookup_entry_insert_ne.
Qed.
Lemma override_wf segments : ∀ current value, toml_wf current → toml_wf value →
  toml_wf (override_segments segments current value).
Proof.
  induction segments as [|s rest IH]; intros current value Hc Hv; [done|]. cbn [override_segments].
  set (t := match current with TomlTable t => t | _ => [] end).
  assert (Ht : toml_wf (TomlTable t)) by (destruct current; subst t; try done; apply empty_table_wf).
  destruct rest as [|s' rest]; apply toml_wf_insert; try done. apply IH; [|done].
  destruct (lookup_entry s t) as [w|] eqn:E; [by eapply toml_wf_lookup|apply empty_table_wf].
Qed.
Lemma cli_overrides_wf os : Forall (λ o, toml_wf o.2) os → toml_wf (build_cli_overrides_layer os).
Proof.
  unfold build_cli_overrides_layer. generalize empty_table empty_table_wf.
  induction os as [|o os IH]; intros root Hr Ho; [done|]. apply Forall_cons in Ho as [Ho Hos]. cbn [foldl].
  apply IH; [|done]. by apply override_wf.
Qed.

(** Writing a value that is not a table at a path merges the table that holds
    it there. *)
Lemma override_merges segments : ∀ current value, segments ≠ [] → is_table value = false →
  override_segments segments current value = merge_toml_values current (nest segments value).
Proof.
  induction segments as [|s rest IH]; intros current value Hs Hv; [done|]. cbn [override_segments nest].
  assert (Hm : ∀ x, merge_toml_values current (TomlTable [(s, x)])
    = let t := match current with TomlTable t => t | _ => [] end in
      TomlTable (btree_insert s (match lookup_entry s t with Some e => merge_toml_values e x | None => x end) t)).
  { intros x. by destruct current. }
  rewrite Hm. cbv zeta. set (t := match current with TomlTable t => t | _ => [] end).
  destruct rest as [|s' rest].
  - cbn [nest]. destruct (lookup_entry s t); [by rewrite merge_not_table by auto|done].
  - rewrite IH by done. by destruct (lookup_entry s t).
Qed.
Lemma split_path_not_nil path : split_char 46 path ≠ [].
Proof. apply split_char_not_nil. Qed.
Lemma cli_overrides_merge os : Forall (λ o, is_table o.2 = false) os →
  build_cli_overrides_layer os
  = foldl merge_toml_values empty_table ((λ o, nest (split_char 46 o.1) o.2) <$> os).
Proof.
  unfold build_cli_overrides_layer. generalize empty_table.
  induction os as [|o os IH]; intros root Ho; [done|]. apply Forall_cons in Ho as [Ho Hos].
  cbn [foldl fmap list_fmap]. rewrite IH by done. f_equal. apply override_merges; [apply split_path_not_nil|done].
Qed.
Lemma nest_get p q v : is_table v = false → toml_get q (nest p v) = Some v ↔ q = p.
Proof.
  intros Hv. revert q. induction p as [|k p IH]; intros [|x q]; cbn [nest toml_get].
  - done.
  - split; [by destruct v|done].
  - split; [intros [= Hx]; by rewrite <-Hx in Hv|done].
  - rewrite lookup_entry_cons. cbn [fst snd]. case_decide as Hk; [subst; rewrite IH; naive_solver|]. split; [done|congruence].
Qed.

(** * Origins *)

Section origins.
Context {M : Type} (meta : M).
Implicit Types (o : gmap str M) (path : list str).

Definition record_path (path : list str) (o : gmap str M) (q : list str) : gmap str M :=
  match path ++ q with [] => o | _ => <[join (lit ".") (path ++ q) := meta]> o end.
Lemma record_path_under path k o l :
  foldl (record_path path) o (cons k <$> l) = foldl (record_path (path ++ [k])) o l.
Proof.
  revert o. induction l as [|q l IH]; intros o; [done|]. cbn [fmap list_fmap foldl]. rewrite IH. f_equal.
  unfold record_path. by rewrite <-app_assoc.
Qed.
Lemma record_origins_fold v : ∀ path o, record_origins v meta path o = foldl (record_path path) o (leaf_paths v).
Proof.
  revert v. fix IH 1. intros [| | | | |items|table] path o; cbn [record_origins leaf_paths];
    try (unfold record_path; cbn [foldl]; rewrite app_nil_r; by destruct path).
  - generalize 0 o. induction items as [|w items IHi]; intros idx o'; [done|].
    rewrite foldl_app, record_path_under, <-IH. apply IHi.
  - revert o. induction table as [|[k w] table IHt]; intros o; [done|].
    rewrite foldl_app, record_path_under, <-IH. apply IHt.
Qed.
Lemma record_paths_lookup l key : ∀ o,
  foldl (record_path []) o l !! key
  = if decide (key ∈ join (lit ".") <$> filter (.≠ []) l) then Some meta else o !! key.
Proof.
  induction l as [|q l IH]; intros o; cbn [foldl]; [by rewrite decide_False by set_solver|].
  rewrite IH, filter_cons. unfold record_path. cbn [app]. destruct q as [|k q].
  - by rewrite (decide_False (P := [] ≠ [])) by auto.
  - rewrite (decide_True (P := k :: q ≠ [])) by done. cbn [fmap list_fmap].
    destruct (decide (key ∈ join (lit ".") <$> filter (.≠ []) l)).
    + by rewrite decide_True by set_solver.
    + destruct (decide (key = join (lit ".") (k :: q))) as [->|Hk].
      * by rewrite lookup_insert, !decide_True by set_solver.
      * by rewrite lookup_insert_ne, decide_False by set_solver.
Qed.
End origins.

Lemma leaf_paths_table q t : q ∈ leaf_paths (TomlTable t) ↔ ∃ k w q', q = k :: q' ∧ (k, w) ∈ t ∧ q' ∈ leaf_paths w.
Proof.
  induction t as [|[k w] t IH]; [split; [by intros ?%elem_of_nil|by intros (?&?&?&_&?%elem_of_nil&_)]|].
  change (leaf_paths (TomlTable ((k, w) :: t))) with ((cons k <$> leaf_paths w) ++ leaf_paths (TomlTable t)).
  rewrite elem_of_app, IH, list_elem_of_fmap. setoid_rewrite elem_of_cons. naive_solver.
Qed.
(** A scalar at a path of keys is one of the leaves; a leaf is at its path, or
    below an array that stands there. *)
Lemma scalar_is_leaf p : ∀ w v, toml_get p w = Some v → is_scalar v = true → p ∈ leaf_paths w.
Proof.
  induction p as [|k p IH]; intros w v Hg Hv.
  - injection Hg as ->. destruct v; try done; by left.
  - destruct w as [| | | | | |t]; try done. cbn [toml_get] in Hg. destruct (lookup_entry k t) as [u|] eqn:E; [|done].
    apply leaf_paths_table. exists k, u, p. split_and!; [done|by apply lookup_entry_elem|by eapply IH].
Qed.
Lemma leaf_touches q : ∀ w, toml_wf w → q ∈ leaf_paths w → ¬ untouched q w.
Proof.
  induction q as [|k q IH]; intros w Hw Hq [Hn Hb]; [done|].
  destruct w as [| | | | | |t]; try done. apply leaf_paths_table in Hq as (x & u & q' & [= <- <-] & Hin & Hq).
  pose proof (proj1 (toml_wf_table t) Hw) as [Hbt _].
  pose proof (lookup_entry_wf _ _ _ Hbt Hin) as Hl. cbn [toml_get blocked] in Hn, Hb. rewrite Hl in Hn, Hb.
  apply (IH u); [by eapply toml_wf_lookup|done|done].
Qed.
Lemma show_nat_plain n : 46%N ∉ show_nat n.
Proof.
  intros Hin. replace (show_nat n) with (show_N (N.of_nat n)) in Hin by done.
  pose proof (show_N_digits (N.of_nat n)) as H. rewrite Forall_forall in H. by apply H in Hin.
Qed.
Lemma plain_keys_table t : plain_keys (TomlTable t) ↔ Forall (λ k, 46%N ∉ k) t.*1 ∧ Forall plain_keys t.*2.
Proof. split; [by inversion 1|intros []; by constructor]. Qed.
Lemma plain_keys_array l : plain_keys (TomlArray l) → Forall plain_keys l.
Proof. by inversion 1. Qed.
Lemma leaf_paths_plain w : plain_keys w → ∀ q, q ∈ leaf_paths w → Forall (λ k, 46%N ∉ k) q.
Proof.
  induction w as [v Hv|l IH|t IH] using toml_ind3; intros Hw q.
  - destruct v; try done; intros ->%list_elem_of_singleton; constructor.
  - apply plain_keys_array in Hw. cbn [leaf_paths]. generalize 0. revert q.
    induction l as [|u l IHl]; intros q n; [by intros ?%elem_of_nil|]. apply Forall_cons in IH as [IHu IH], Hw as [Hu Hw].
    rewrite elem_of_app, list_elem_of_fmap. intros [(q' & -> & Hq)|Hq]; [|by eapply IHl].
    constructor; [apply show_nat_plain|by apply IHu].
  - apply plain_keys_table in Hw as [Hk Hv]. rewrite leaf_paths_table. intros (k & u & q' & -> & Hin & Hq).
    rewrite Forall_forall in Hk. rewrite Forall_forall in Hv. rewrite Forall_forall in IH. constructor; [by apply Hk, (list_elem_of_fmap_2 fst _ (k, u))|].
    pose proof (list_elem_of_fmap_2 snd _ (k, u) Hin) as Hu. by apply (IH _ Hu (Hv _ Hu)).
Qed.
Lemma plain_join_inj p q : p ≠ [] → q ≠ [] → Forall (λ k, 46%N ∉ k) p → Forall (λ k, 46%N ∉ k) q →
  join (lit ".") p = join (lit ".") q → p = q.
Proof.
  intros Hp Hq Hfp Hfq E. change (lit ".") with [46%N] in E.
  by rewrite <-(split_char_join 46 p), <-(split_char_join 46 q), E.
Qed.
Lemma record_origins_lookup {M} (meta : M) w o key :
  record_origins w meta [] o !! key
  = if decide (key ∈ join (lit ".") <$> filter (.≠ []) (leaf_paths w)) then Some meta else o !! key.
Proof. by rewrite record_origins_fold, record_paths_lookup. Qed.
(** A value that does not touch a path does not record it. *)
Lemma untouched_origin {M} (meta : M) w o p : toml_wf w → plain_keys w → untouched p w → p ≠ [] →
  Forall (λ k, 46%N ∉ k) p → record_origins w meta [] o !! join (lit ".") p = o !! join (lit ".") p.
Proof.
  intros Hw Hk Hp Hne Hd. rewrite record_origins_lookup, decide_False; [done|].
  intros (q & E & [Hq Hin]%list_elem_of_filter)%list_elem_of_fmap.
  apply plain_join_inj in E as <-; [by apply (leaf_touches p w)|done..|by eapply leaf_paths_plain].
Qed.
