(* ===== verification/Fingerprint.v ===== *)
(** The version of a configuration layer, [version_for_toml] of
    [codex-rs/config/src/fingerprint.rs]: the digest of its JSON with the keys
    of every object in order. The conversion of TOML to JSON, JSON's printer
    and SHA-256 are an interface. *)
From stdpp Require Import gmap sorting.
From S2P Require Import Prelude RustStr BTreeMap TomlValue.

(** [serde_json::Value]; an object is the list of its entries, in the order of
    its map. *)
Inductive JsonValue : Type :=
| JsonNull
| JsonBool (b : bool)
| JsonNumber (text : str)
| JsonString (s : str)
| JsonArray (items : list JsonValue)
| JsonObject (entries : list (str * JsonValue)).

(** The order [keys.sort()] uses. *)
Definition str_le (a b : str) : Prop := str_cmp a b ≠ Gt.
#[export] Instance str_le_dec a b : base.Decision (str_le a b).
Proof. unfold str_le. solve_decision. Defined.

(** The loop over the sorted keys: the values looked up are the canonical ones. *)
Definition take_sorted {A} (map : list (str * A)) : list (str * A) :=
  omap (λ key, (λ val, (key, val)) <$> lookup_entry key map) (merge_sort str_le map.*1).
Fixpoint canonical_json (value : JsonValue) : JsonValue :=
  match value with
  | JsonObject map => JsonObject (take_sorted ((λ e, (e.1, canonical_json e.2)) <$> map))
  | JsonArray items => JsonArray (canonical_json <$> items)
  | other => other
  end.

Class TomlDigest : Type := {
  toml_to_json : TomlValue → option JsonValue;
  json_to_vec : JsonValue → option (list N);
  sha256 : list N → list N }.

(** [format!("{byte:02x}")]. *)
Definition hex_digit (n : N) : N := if (n <? 10)%N then (48 + n)%N else (87 + n)%N.
Definition hex_byte (byte : N) : str := [hex_digit (byte `div` 16); hex_digit (byte `mod` 16)].
Definition version_for_toml `{TomlDigest} (value : TomlValue) : str :=
  let json := default JsonNull (toml_to_json value) in
  let canonical := canonical_json json in
  let serialized := default [] (json_to_vec canonical) in
  lit "sha256:" ++ concat (hex_byte <$> sha256 serialized).

(** * Specification *)

(** The same value up to the order of the entries of its objects. *)
Inductive json_equiv : JsonValue → JsonValue → Prop :=
| equiv_scalar v : json_equiv v v
| equiv_array l l' : Forall2 json_equiv l l' → json_equiv (JsonArray l) (JsonArray l')
| equiv_object m m' m2 :
    Forall2 (λ e e', e.1 = e'.1 ∧ json_equiv e.2 e'.2) m m' → m' ≡ₚ m2 → json_equiv (JsonObject m) (JsonObject m2).
(** No object, at any depth, has a key twice. *)
Inductive json_wf : JsonValue → Prop :=
| json_wf_array l : Forall json_wf l → json_wf (JsonArray l)
| json_wf_object m : NoDup m.*1 → Forall json_wf m.*2 → json_wf (JsonObject m)
| json_wf_scalar v : match v with JsonArray _ | JsonObject _ => False | _ => True end → json_wf v.

(** * Lemmas *)

Lemma json_ind2 (P : JsonValue → Prop) :
  (∀ v, match v with JsonArray _ | JsonObject _ => False | _ => True end → P v) →
  (∀ l, Forall P l → P (JsonArray l)) → (∀ m, Forall P m.*2 → P (JsonObject m)) → ∀ v, P v.
Proof.
  intros Hs Ha Ho. fix IH 1. intros [| | | |l|m]; [by apply Hs..| |].
  - apply Ha. induction l as [|x l IHl]; constructor; [apply IH|apply IHl].
  - apply Ho. induction m as [|[k x] m IHm]; constructor; [apply IH|apply IHm].
Qed.
#[export] Instance str_le_trans : Transitive str_le.
Proof.
  intros x y z. unfold str_le. destruct (str_cmp x y) eqn:E1; [apply cmp_eq in E1 as ->; done| |done].
  destruct (str_cmp y z) eqn:E2; [apply cmp_eq in E2 as ->; by rewrite E1| |done].
  by rewrite (cmp_trans (cmp := str_cmp) x y z).
Qed.
#[export] Instance str_le_total : Total str_le.
Proof.
  intros x y. unfold str_le. destruct (str_cmp x y) eqn:E; [by left|by left|]. right.
  rewrite (cmp_opp (cmp := str_cmp) x y), E. done.
Qed.
#[export] Instance str_le_anti : AntiSymm (=) str_le.
Proof.
  intros x y. unfold str_le. rewrite (cmp_opp (cmp := str_cmp) x y).
  destruct (str_cmp x y) eqn:E; simpl; [by intros; apply cmp_eq|done|done].
Qed.
(** Entries by keys without repetition: a list, and the same list sorted. *)
Lemma lookup_entry_NoDup {A} k v (m : list (str * A)) : NoDup m.*1 → (k, v) ∈ m → lookup_entry k m = Some v.
Proof.
  induction m as [|[x w] m IH]; [by intros _ ?%elem_of_nil|].
  rewrite fmap_cons, NoDup_cons, lookup_entry_cons. intros [Hx Hm] [[= -> ->]|Hin]%elem_of_cons; [by rewrite decide_True|].
  cbn [fst snd] in *. rewrite decide_False; [auto|]. intros ->. by apply Hx, (list_elem_of_fmap_2 fst _ (k, v)).
Qed.
Lemma take_all {A} (m : list (str * A)) ks : ks ≡ₚ m.*1 → NoDup m.*1 →
  omap (λ key, (λ val, (key, val)) <$> lookup_entry key m) ks ≡ₚ m.
Proof.
  intros -> Hm. enough (H : ∀ l, (∀ e, e ∈ l → e ∈ m) → omap (λ key, (λ val, (key, val)) <$> lookup_entry key m) l.*1 = l).
  { by rewrite H. }
  induction l as [|[k v] l IH]; intros Hl; [done|]. cbn.
  rewrite (lookup_entry_NoDup k v) by (done || apply Hl; left). cbn. rewrite IH; [done|]. intros e He. apply Hl. by right.
Qed.
Lemma take_sorted_perm {A} (m : list (str * A)) : NoDup m.*1 → take_sorted m ≡ₚ m.
Proof. intros Hm. apply take_all; [apply merge_sort_Permutation|done]. Qed.
Lemma take_keys {A} (m : list (str * A)) ks : (∀ k, k ∈ ks → k ∈ m.*1) →
  (omap (λ key, (λ val, (key, val)) <$> lookup_entry key m) ks).*1 = ks.
Proof.
  induction ks as [|k ks IH]; intros Hk; [done|]. cbn. destruct (lookup_entry k m) as [v|] eqn:E; cbn.
  - rewrite IH; [done|]. intros x Hx. apply Hk. by right.
  - apply lookup_entry_None in E. destruct E. apply Hk. by left.
Qed.
Lemma take_sorted_keys {A} (m : list (str * A)) : (take_sorted m).*1 = merge_sort str_le m.*1.
Proof. apply take_keys. intros k. by rewrite merge_sort_Permutation. Qed.
(** Sorting forgets the order, and nothing else. *)
Lemma take_sorted_unique {A} (m m' : list (str * A)) : NoDup m.*1 → m ≡ₚ m' → take_sorted m = take_sorted m'.
Proof.
  intros Hm Hp. assert (Hm' : NoDup m'.*1) by by rewrite <- Hp.
  unfold take_sorted. replace (merge_sort str_le m'.*1) with (merge_sort str_le m.*1).
  - apply list_omap_ext, Forall2_same_length_lookup_2; [done|]. intros i k k' Hk Hk'. simplify_eq. f_equal.
    destruct (lookup_entry k m) as [v|] eqn:E.
    + apply lookup_entry_elem in E. symmetry. apply lookup_entry_NoDup; [done|]. by rewrite <- Hp.
    + symmetry. apply lookup_entry_None. rewrite <- Hp. by apply lookup_entry_None.
  - apply (StronglySorted_unique str_le); [apply StronglySorted_merge_sort; apply _..|].
    by rewrite !merge_sort_Permutation, Hp.
Qed.
Lemma fmap_snd_keys {A B} (f : A → B) (m : list (str * A)) : ((λ e, (e.1, f e.2)) <$> m).*1 = m.*1.
Proof. induction m as [|[k v] m IH]; [done|]. cbn. by f_equal. Qed.

Lemma equiv_canonical a : json_wf a → ∀ b, json_equiv a b → canonical_json a = canonical_json b.
Proof.
  induction a as [v Hv|l IH|m IH] using json_ind2; intros Hw b He.
  - by inversion He; subst.
  - inversion Hw as [? Hl| |]; subst; [|done]. inversion He as [|? l' Hll|]; subst; [done|]. cbn. f_equal.
    clear -IH Hl Hll. induction Hll as [|x y l l' Hxy Hll IHl]; [done|]. cbn.
    apply Forall_cons in IH as [? ?]. apply Forall_cons in Hl as [? ?]. f_equal; auto.
  - inversion Hw as [|? Hn Hm|]; subst; [|done]. inversion He as [| |? m' m2 Hmm Hp]; subst; [done|]. cbn. f_equal.
    assert (Heq : (λ e, (e.1, canonical_json e.2)) <$> m = (λ e : str * JsonValue, (e.1, canonical_json e.2)) <$> m').
    { clear -IH Hm Hmm. induction Hmm as [|x y m m' [Hk Hxy] Hmm IHm]; [done|]. cbn in *.
      apply Forall_cons in IH as [? ?]. apply Forall_cons in Hm as [? ?]. rewrite Hk. f_equal; [f_equal|]; auto. }
    apply take_sorted_unique; [by rewrite fmap_snd_keys|]. rewrite Heq. by apply fmap_Permutation.
Qed.
Lemma canonical_equiv a : json_wf a → ∀ b, json_wf b → canonical_json a = canonical_json b → json_equiv a b.
Proof.
  induction a as [v Hv|l IH|m IH] using json_ind2; intros Hw b Hb He.
  - destruct v, b; cbn in *; simplify_eq; done || constructor.
  - destruct b; cbn in He; simplify_eq He. intros Hll. constructor.
    inversion Hw as [? Hl| |]; subst; [|done]. inversion Hb as [? Hl'| |]; subst; [|done].
    clear Hw Hb He. revert items Hll Hl'. induction l as [|x l IHl]; intros [|y l'] Hll Hl'; try done; try (by constructor).
    cbn in Hll. simplify_eq. apply Forall_cons in IH as [? ?]. apply Forall_cons in Hl as [? ?]. apply Forall_cons in Hl' as [? ?].
    constructor; auto.
  - destruct b as [| | | | |m2]; cbn in He; simplify_eq He. intros Hmm.
    inversion Hw as [|? Hn Hm|]; subst; [|done]. inversion Hb as [|? Hn' Hm'|]; subst; [|done].
    assert (Hp : (λ e : str * JsonValue, (e.1, canonical_json e.2)) <$> m ≡ₚ (λ e, (e.1, canonical_json e.2)) <$> m2).
    { by rewrite <- take_sorted_perm, Hmm, take_sorted_perm by by rewrite fmap_snd_keys. }
    apply Permutation_map_inv in Hp as (m' & Heq & Hp). apply (equiv_object m m'); [|done].
    rewrite Hp in Hm'. clear -IH Hm Hm' Heq. revert m' Heq Hm'.
    induction m as [|[k x] m IHm]; intros [|[k' y] m'] Heq Hm'; try done; try (by constructor).
    cbn in *. simplify_eq. apply Forall_cons in IH as [? ?]. apply Forall_cons in Hm as [? ?]. apply Forall_cons in Hm' as [? ?].
    constructor; [split; auto|auto].
Qed.

(** * Properties *)

(** The canonical form of a JSON value tells exactly the order of keys apart: two
    values have the same one exactly when they are equal up to the order of the
    entries of their objects. The keys of the canonical form are in order. *)
Theorem canonical_json_iff (a b : JsonValue) :
  json_wf a → json_wf b →
  (canonical_json a = canonical_json b ↔ json_equiv a b)
  ∧ match canonical_json a with
    | JsonObject m => StronglySorted str_le m.*1
    | _ => True
    end.
Proof.
  intros Ha Hb. split; [split; [by apply canonical_equiv|by apply equiv_canonical]|].
  destruct a; cbn; [done..|]. rewrite take_sorted_keys. apply StronglySorted_merge_sort; apply _.
Qed.

(** * Witnesses *)

Definition json_of_pairs (ps : list (string * JsonValue)) : JsonValue := JsonObject ((λ p, (lit p.1, p.2)) <$> ps).
Definition inner_json (first second : string) : JsonValue := json_of_pairs [(first, JsonNull); (second, JsonNull)].
Definition left_json : JsonValue := json_of_pairs [("b", inner_json "x" "y"); ("a", JsonBool true)]%string.
Definition right_json : JsonValue := json_of_pairs [("a", JsonBool true); ("b", inner_json "y" "x")]%string.
Lemma canonical_json_iff_witness : json_equiv left_json right_json.
Proof.
  apply (canonical_json_iff left_json right_json); [..|by vm_compute];
    repeat first [done|apply json_wf_object|constructor|set_solver].
Defined.
Example hex_byte_ex : hex_byte 175 = lit "af".
Proof. reflexivity. Qed.
