(* ===== verification/Requirements.v ===== *)
(** The constraints an administrator puts on the configuration:
    [codex-rs/config/src/constraint.rs], [config_requirements.rs] and
    [requirements_exec_policy.rs]. Requirements come from several sources, of
    which the first that sets a field wins; they become values with validators
    and rules of the execution policy. Parsing TOML is an argument. *)
From stdpp Require Import gmap.
From S2P Require Import Prelude RustStr BTreeMap RustPath FileSystem AbsolutePath ExecPolicy Protocol.

(** * Debug texts *)

(** [format!("{value:?}")]. *)
Class Debug (A : Type) : Type := debug : A → str.
#[export] Instance debug_bool : Debug bool := λ b, if b then lit "true" else lit "false".
#[export] Instance debug_list {A} `{Debug A} : Debug (list A) := λ l, lit "[" ++ join (lit ", ") (debug <$> l) ++ lit "]".
#[export] Instance debug_option {A} `{Debug A} : Debug (option A) := λ o,
  match o with Some a => lit "Some(" ++ debug a ++ lit ")" | None => lit "None" end.
#[export] Instance debug_granular : Debug GranularApprovalConfig := λ c,
  lit "GranularApprovalConfig { sandbox_approval: " ++ debug (sandbox_approval c) ++ lit ", rules: " ++ debug (rules c)
    ++ lit ", skill_approval: " ++ debug (skill_approval c) ++ lit ", request_permissions: " ++ debug (request_permissions c)
    ++ lit ", mcp_elicitations: " ++ debug (mcp_elicitations c) ++ lit " }".
#[export] Instance debug_approval : Debug AskForApproval := λ a,
  match a with
  | UnlessTrusted => lit "UnlessTrusted" | OnFailure => lit "OnFailure" | OnRequest => lit "OnRequest"
  | Granular c => lit "Granular(" ++ debug c ++ lit ")" | Never => lit "Never"
  end.
#[export] Instance AskForApproval_eq_dec : EqDecision AskForApproval.
Proof.
  assert (EqDecision GranularApprovalConfig) by solve_decision. solve_decision.
Defined.

(** * Constrained values *)

Inductive RequirementSource : Type :=
| UnknownSource
| MdmManagedPreferences (domain key : str)
| CloudRequirements
| SystemRequirementsToml (file : str)
| LegacyManagedConfigFile (file : str)
| LegacyManagedConfigMdm.
Definition source_display (s : RequirementSource) : str :=
  match s with
  | UnknownSource => lit "<unspecified>"
  | MdmManagedPreferences domain key => lit "MDM " ++ domain ++ lit ":" ++ key
  | CloudRequirements => lit "cloud requirements"
  | SystemRequirementsToml file | LegacyManagedConfigFile file => file
  | LegacyManagedConfigMdm => lit "MDM managed_config.toml (legacy)"
  end.
Inductive ConstraintError : Type :=
| InvalidValue (field_name candidate allowed : str) (requirement_source : RequirementSource)
| EmptyField (field_name : str)
| ExecPolicyParse (requirement_source : RequirementSource) (reason : str).

Record Constrained (A : Type) : Type := {
  value : A;
  validator : A → outcome ConstraintError unit;
  normalizer : option (A → A) }.
#[global] Arguments value {A}.
#[global] Arguments validator {A}.
#[global] Arguments normalizer {A}.

Definition constrained_new {A} (initial_value : A) (v : A → outcome ConstraintError unit)
    : outcome ConstraintError (Constrained A) :=
  _ ← v initial_value;
  Ok {| value := initial_value; validator := v; normalizer := None |}.
Definition normalized {A} (initial_value : A) (n : A → A) : outcome ConstraintError (Constrained A) :=
  let validator _ := Ok tt in
  let normalized := n initial_value in
  _ ← validator normalized;
  Ok {| value := normalized; validator := validator; normalizer := Some n |}.
Definition allow_any {A} (initial_value : A) : Constrained A :=
  {| value := initial_value; validator _ := Ok tt; normalizer := None |}.
Definition allow_only {A} `{EqDecision A, Debug A} (only_value : A) : Constrained A :=
  {| value := only_value;
     validator candidate :=
       if decide (candidate = only_value) then Ok tt
       else Err (InvalidValue (lit "<unknown>") (debug candidate) (lit "[" ++ debug only_value ++ lit "]") UnknownSource);
     normalizer := None |}.
Definition can_set {A} (c : Constrained A) (candidate : A) : outcome ConstraintError unit := validator c candidate.
Definition set_value {A} (v : A) : stm (Constrained A) ConstraintError unit := λ c,
  let v := match normalizer c with Some n => n v | None => v end in
  match validator c v with
  | Ok _ => ({| value := v; validator := validator c; normalizer := normalizer c |}, Ok tt)
  | Err e => (c, Err e)
  | Panic => (c, Panic)
  | OutOfFuel => (c, OutOfFuel)
  end.

Record ConstrainedWithSource (A : Type) : Type := {
  constrained : Constrained A; constraint_source : option RequirementSource }.
#[global] Arguments constrained {A}.
#[global] Arguments constraint_source {A}.
Record Sourced (A : Type) : Type := { sourced_value : A; source : RequirementSource }.
#[global] Arguments sourced_value {A}.
#[global] Arguments source {A}.
Definition sourced {A} (v : A) (s : RequirementSource) : Sourced A := {| sourced_value := v; source := s |}.

(** * Requirements *)

Inductive WebSearchMode : Type := SearchDisabled | SearchCached | SearchLive.
(** [WebSearchModeRequirement] has the same constructors; the conversions
    between the two keep them. *)
Abbreviation WebSearchModeRequirement := WebSearchMode.
#[export] Instance WebSearchMode_eq_dec : EqDecision WebSearchMode.
Proof. solve_decision. Defined.
#[export] Instance debug_web : Debug WebSearchMode := λ m,
  match m with SearchDisabled => lit "Disabled" | SearchCached => lit "Cached" | SearchLive => lit "Live" end.
Inductive SandboxModeRequirement : Type := ReqReadOnly | ReqWorkspaceWrite | ReqDangerFullAccess | ReqExternalSandbox.
#[export] Instance SandboxModeRequirement_eq_dec : EqDecision SandboxModeRequirement.
Proof. solve_decision. Defined.
#[export] Instance debug_sandbox_mode : Debug SandboxModeRequirement := λ m,
  match m with
  | ReqReadOnly => lit "ReadOnly" | ReqWorkspaceWrite => lit "WorkspaceWrite"
  | ReqDangerFullAccess => lit "DangerFullAccess" | ReqExternalSandbox => lit "ExternalSandbox"
  end.
Inductive ResidencyRequirement : Type := Us.
#[export] Instance ResidencyRequirement_eq_dec : EqDecision ResidencyRequirement.
Proof. solve_decision. Defined.
#[export] Instance debug_residency : Debug ResidencyRequirement := λ _, lit "Us".

Inductive McpServerIdentity : Type := McpCommand (command : str) | McpUrl (url : str).
Record AppRequirementToml : Type := { app_enabled : option bool }.
Abbreviation AppsRequirementsToml := (list (str * AppRequirementToml)).
Inductive DomainPermission : Type := DomainAllow | DomainDeny.
Inductive SocketPermission : Type := SocketAllow | SocketNone.
Record NetworkRequirementsToml : Type := {
  net_enabled : option bool; http_port : option N; socks_port : option N; allow_upstream_proxy : option bool;
  dangerously_allow_non_loopback_proxy : option bool; dangerously_allow_all_unix_sockets : option bool;
  domains : option (list (str * DomainPermission)); managed_allowed_domains_only : option bool;
  unix_sockets : option (list (str * SocketPermission)); allow_local_binding : option bool }.
(** [NetworkConstraints] has the same fields, and its [From] copies them. *)
Abbreviation NetworkConstraints := NetworkRequirementsToml.
(** The deserialised fields, with the legacy lists. *)
Record RawNetworkRequirementsToml : Type := {
  raw : NetworkRequirementsToml; legacy_allowed_domains : option (list str); legacy_denied_domains : option (list str);
  legacy_allow_unix_sockets : option (list str) }.

Definition some_map {A} (l : list A) : option (list A) := match l with [] => None | _ => Some l end.
Definition legacy_domain_permissions_from_lists (allowed denied : option (list str)) : option (list (str * DomainPermission)) :=
  some_map (foldl (λ m p, btree_insert p DomainDeny m)
              (foldl (λ m p, btree_insert p DomainAllow m) [] (default [] allowed)) (default [] denied)).
Definition legacy_unix_socket_permissions_from_list (sockets : option (list str)) : option (list (str * SocketPermission)) :=
  some_map (btree_of ((λ path, (path, SocketAllow)) <$> default [] sockets)).
Definition network_requirements_from_raw (r : RawNetworkRequirementsToml) : outcome str NetworkRequirementsToml :=
  let n := raw r in
  if is_some (domains n) && (is_some (legacy_allowed_domains r) || is_some (legacy_denied_domains r)) then
    Err (lit "`experimental_network.domains` cannot be combined with legacy `allowed_domains` or `denied_domains`")
  else if is_some (unix_sockets n) && is_some (legacy_allow_unix_sockets r) then
    Err (lit "`experimental_network.unix_sockets` cannot be combined with legacy `allow_unix_sockets`")
  else Ok {| net_enabled := net_enabled n; http_port := http_port n; socks_port := socks_port n;
             allow_upstream_proxy := allow_upstream_proxy n;
             dangerously_allow_non_loopback_proxy := dangerously_allow_non_loopback_proxy n;
             dangerously_allow_all_unix_sockets := dangerously_allow_all_unix_sockets n;
             domains := match domains n with
                        | Some d => Some d
                        | None => legacy_domain_permissions_from_lists (legacy_allowed_domains r) (legacy_denied_domains r)
                        end;
             managed_allowed_domains_only := managed_allowed_domains_only n;
             unix_sockets := match unix_sockets n with
                             | Some s => Some s
                             | None => legacy_unix_socket_permissions_from_list (legacy_allow_unix_sockets r)
                             end;
             allow_local_binding := allow_local_binding n |}.

(** * Rules of the execution policy *)

Record PatternTokenToml : Type := { token : option str; any_of : option (list str) }.
Inductive DecisionToml : Type := AllowToml | PromptToml | ForbiddenToml.
Definition as_decision (d : DecisionToml) : Decision :=
  match d with AllowToml => Allow | PromptToml => Prompt | ForbiddenToml => Forbidden end.
Record PrefixRuleToml : Type := {
  rule_pattern : list PatternTokenToml; toml_decision : option DecisionToml; toml_justification : option str }.
Record RequirementsExecPolicyToml : Type := { prefix_rules : list PrefixRuleToml }.

Inductive RulesParseError : Type :=
| EmptyPrefixRules
| EmptyPattern (rule_index : nat)
| InvalidPatternToken (rule_index token_index : nat) (reason : str)
| EmptyJustification (rule_index : nat)
| MissingDecision (rule_index : nat)
| AllowDecisionNotAllowed (rule_index : nat).
Definition rules_error_display (e : RulesParseError) : str :=
  let rule i := lit "rules prefix_rule at index " ++ show_nat i in
  match e with
  | EmptyPrefixRules => lit "rules prefix_rules cannot be empty"
  | EmptyPattern i => rule i ++ lit " has an empty pattern"
  | InvalidPatternToken i j reason => rule i ++ lit " has an invalid pattern token at index " ++ show_nat j ++ lit ": " ++ reason
  | EmptyJustification i => rule i ++ lit " has an empty justification"
  | MissingDecision i => rule i ++ lit " is missing a decision"
  | AllowDecisionNotAllowed i =>
      rule i ++ lit " has decision 'allow', which is not permitted in requirements.toml: Codex merges these rules with other config and uses the most restrictive result (use 'prompt' or 'forbidden')"
  end.

Definition blank (s : str) : bool := bool_decide (trim s = []).
Definition parse_token (t : PatternTokenToml) (rule_index token_index : nat) : outcome RulesParseError PatternToken :=
  let invalid reason := Err (InvalidPatternToken rule_index token_index (lit reason)) in
  match token t, any_of t with
  | Some single, None => if blank single then invalid "token cannot be empty" else Ok (Single single)
  | None, Some alts =>
      if bool_decide (alts = []) then invalid "any_of cannot be empty"
      else if existsb blank alts then invalid "any_of cannot include empty tokens"
      else Ok (Alts alts)
  | Some _, Some _ => invalid "set either token or any_of, not both"
  | None, None => invalid "set either token or any_of"
  end%string.
Fixpoint parse_tokens (ts : list PatternTokenToml) (rule_index token_index : nat) : outcome RulesParseError (list PatternToken) :=
  match ts with
  | [] => Ok []
  | t :: ts' => x ← parse_token t rule_index token_index; xs ← parse_tokens ts' rule_index (S token_index); Ok (x :: xs)
  end.
(** A turn of the loop of [to_policy]: one rule for every alternative of the
    first token. *)
Definition add_rule (rule_index : nat) (r : PrefixRuleToml) (rules : MultiMap PrefixRule)
    : outcome RulesParseError (MultiMap PrefixRule) :=
  if match toml_justification r with Some j => blank j | None => false end then Err (EmptyJustification rule_index)
  else if bool_decide (rule_pattern r = []) then Err (EmptyPattern rule_index)
  else
    pattern_tokens ← parse_tokens (rule_pattern r) rule_index 0;
    decision ← match toml_decision r with
               | Some AllowToml => Err (AllowDecisionNotAllowed rule_index)
               | Some d => Ok (as_decision d)
               | None => Err (MissingDecision rule_index)
               end;
    match pattern_tokens with
    | [] => Err (EmptyPattern rule_index)
    | first_token :: remaining_tokens =>
        Ok (foldl (λ m head, mm_insert head
              {| pattern := {| first := head; rest := remaining_tokens |}; rule_decision := decision;
                 justification := toml_justification r |} m) rules (alternatives first_token))
    end.
Fixpoint add_rules (rule_index : nat) (rs : list PrefixRuleToml) (rules : MultiMap PrefixRule)
    : outcome RulesParseError (MultiMap PrefixRule) :=
  match rs with
  | [] => Ok rules
  | r :: rs' => rules ← add_rule rule_index r rules; add_rules (S rule_index) rs' rules
  end.
Definition to_policy (t : RequirementsExecPolicyToml) : outcome RulesParseError Policy :=
  if bool_decide (prefix_rules t = []) then Err EmptyPrefixRules
  else rules ← add_rules 0 (prefix_rules t) ∅; Ok (policy_new rules).

(** * The sources *)

(** [ConfigRequirementsToml] and, with a source for every field,
    [ConfigRequirementsWithSources]. *)
Record requirement_fields (F : Type → Type) : Type := {
  allowed_approval_policies : option (F (list AskForApproval));
  allowed_sandbox_modes : option (F (list SandboxModeRequirement));
  allowed_web_search_modes : option (F (list WebSearchModeRequirement));
  feature_requirements : option (F (list (str * bool)));
  mcp_servers : option (F (list (str * McpServerIdentity)));
  apps : option (F AppsRequirementsToml);
  required_rules : option (F RequirementsExecPolicyToml);
  enforce_residency : option (F ResidencyRequirement);
  required_network : option (F NetworkRequirementsToml);
  guardian_developer_instructions : option (F str) }.
#[global] Arguments allowed_approval_policies {F}.
#[global] Arguments allowed_sandbox_modes {F}.
#[global] Arguments allowed_web_search_modes {F}.
#[global] Arguments feature_requirements {F}.
#[global] Arguments mcp_servers {F}.
#[global] Arguments apps {F}.
#[global] Arguments required_rules {F}.
#[global] Arguments enforce_residency {F}.
#[global] Arguments required_network {F}.
#[global] Arguments guardian_developer_instructions {F}.
Definition ConfigRequirementsToml : Type := requirement_fields (λ A, A).
Definition ConfigRequirementsWithSources : Type := requirement_fields Sourced.
Definition no_requirements {F} : requirement_fields F :=
  {| allowed_approval_policies := None; allowed_sandbox_modes := None; allowed_web_search_modes := None;
     feature_requirements := None; mcp_servers := None; apps := None; required_rules := None;
     enforce_residency := None; required_network := None; guardian_developer_instructions := None |}.

(** [merge_enablement_settings_descending]. *)
Definition merge_app (base : AppsRequirementsToml) (e : str * AppRequirementToml) : AppsRequirementsToml :=
  let higher := match lookup_entry e.1 base with Some r => app_enabled r | None => None end in
  let lower := app_enabled e.2 in
  btree_insert e.1
    {| app_enabled := if bool_decide (higher = Some false) || bool_decide (lower = Some false) then Some false
                      else match higher with Some b => Some b | None => lower end |} base.
Definition merge_enablement_settings_descending (base incoming : AppsRequirementsToml) : AppsRequirementsToml :=
  foldl merge_app base incoming.
(** [fill_missing_take!]. *)
Definition fill_missing {A} (s : RequirementSource) (base : option (Sourced A)) (other : option A) : option (Sourced A) :=
  match base, other with None, Some v => Some (sourced v s) | _, _ => base end.
Definition nonblank (s : option str) : option str :=
  match s with Some v => if blank v then None else Some v | None => None end.
Definition merge_unset_fields (s : RequirementSource) (other : ConfigRequirementsToml) (self : ConfigRequirementsWithSources)
    : ConfigRequirementsWithSources :=
  {| allowed_approval_policies := fill_missing s (allowed_approval_policies self) (allowed_approval_policies other);
     allowed_sandbox_modes := fill_missing s (allowed_sandbox_modes self) (allowed_sandbox_modes other);
     allowed_web_search_modes := fill_missing s (allowed_web_search_modes self) (allowed_web_search_modes other);
     feature_requirements := fill_missing s (feature_requirements self) (feature_requirements other);
     mcp_servers := fill_missing s (mcp_servers self) (mcp_servers other);
     required_rules := fill_missing s (required_rules self) (required_rules other);
     enforce_residency := fill_missing s (enforce_residency self) (enforce_residency other);
     required_network := fill_missing s (required_network self) (required_network other);
     guardian_developer_instructions :=
       fill_missing s (guardian_developer_instructions self) (nonblank (guardian_developer_instructions other));
     apps := match apps other, apps self with
             | Some incoming, Some existing =>
                 Some (sourced (merge_enablement_settings_descending (sourced_value existing) incoming) (source existing))
             | Some incoming, None => Some (sourced incoming s)
             | None, existing => existing
             end |}.
Definition into_toml (r : ConfigRequirementsWithSources) : ConfigRequirementsToml :=
  {| allowed_approval_policies := sourced_value <$> allowed_approval_policies r;
     allowed_sandbox_modes := sourced_value <$> allowed_sandbox_modes r;
     allowed_web_search_modes := sourced_value <$> allowed_web_search_modes r;
     feature_requirements := sourced_value <$> feature_requirements r;
     mcp_servers := sourced_value <$> mcp_servers r; apps := sourced_value <$> apps r;
     required_rules := sourced_value <$> required_rules r; enforce_residency := sourced_value <$> enforce_residency r;
     required_network := sourced_value <$> required_network r;
     guardian_developer_instructions := sourced_value <$> guardian_developer_instructions r |}.
Definition apps_empty (a : AppsRequirementsToml) : bool := forallb (λ e, negb (is_some (app_enabled e.2))) a.
Definition is_empty (t : ConfigRequirementsToml) : bool :=
  let all {A} (p : A → bool) (o : option A) := match o with Some a => p a | None => true end in
  negb (is_some (allowed_approval_policies t)) && negb (is_some (allowed_sandbox_modes t))
  && negb (is_some (allowed_web_search_modes t)) && all (λ f, bool_decide (f = [])) (feature_requirements t)
  && negb (is_some (mcp_servers t)) && all apps_empty (apps t) && negb (is_some (required_rules t))
  && negb (is_some (enforce_residency t)) && negb (is_some (required_network t))
  && all blank (guardian_developer_instructions t).

(** * The constraints *)

Record ConfigRequirements : Type := {
  approval_policy : ConstrainedWithSource AskForApproval;
  sandbox_policy : ConstrainedWithSource SandboxPolicy;
  web_search_mode : ConstrainedWithSource WebSearchMode;
  features : option (Sourced (list (str * bool)));
  servers : option (Sourced (list (str * McpServerIdentity)));
  exec_policy : option (Sourced Policy);
  residency : ConstrainedWithSource (option ResidencyRequirement);
  network : option (Sourced NetworkConstraints) }.
Definition new_read_only_policy : SandboxPolicy := ReadOnly FullAccess false.
Definition mode_of_policy (p : SandboxPolicy) : SandboxModeRequirement :=
  match p with
  | ReadOnly _ _ => ReqReadOnly | WorkspaceWrite _ _ _ _ _ => ReqWorkspaceWrite
  | DangerFullAccess => ReqDangerFullAccess | ExternalSandbox _ => ReqExternalSandbox
  end.
Definition unconstrained {A} (v : A) : ConstrainedWithSource A :=
  {| constrained := allow_any v; constraint_source := None |}.
Definition default_requirements : ConfigRequirements :=
  {| approval_policy := unconstrained OnRequest; sandbox_policy := unconstrained new_read_only_policy;
     web_search_mode := unconstrained SearchCached; features := None; servers := None; exec_policy := None;
     residency := unconstrained None; network := None |}.

(** Setting a field to one of a list: the validators of [try_from]. *)
Definition one_of {A B} `{EqDecision B, Debug B} (field : string) (allowed : str) (accepted : list B) (key : A → B)
    (s : RequirementSource) (candidate : A) : outcome ConstraintError unit :=
  if bool_decide (key candidate ∈ accepted) then Ok tt
  else Err (InvalidValue (lit field) (debug (key candidate)) allowed s).
Definition constrained_field {A} (initial : A) (v : A → outcome ConstraintError unit) (s : RequirementSource)
    : outcome ConstraintError (ConstrainedWithSource A) :=
  c ← constrained_new initial v; Ok {| constrained := c; constraint_source := Some s |}.
(** The [BTreeSet] of the web search modes that are accepted. *)
Definition accepted_web_modes (modes : list WebSearchModeRequirement) : list WebSearchModeRequirement :=
  filter (λ m, m ∈ modes ∨ m = SearchDisabled) [SearchDisabled; SearchCached; SearchLive].
Definition initial_web_mode (accepted : list WebSearchModeRequirement) : WebSearchMode :=
  if bool_decide (SearchCached ∈ accepted) then SearchCached
  else if bool_decide (SearchLive ∈ accepted) then SearchLive else SearchDisabled.

Definition approval_constraint (r : option (Sourced (list AskForApproval))) : outcome ConstraintError (ConstrainedWithSource AskForApproval) :=
  match r with
  | Some r =>
      match sourced_value r with
      | [] => Err (EmptyField (lit "allowed_approval_policies"))
      | initial :: _ =>
          constrained_field initial (one_of "approval_policy" (debug (sourced_value r)) (sourced_value r) id (source r)) (source r)
      end
  | None => Ok (unconstrained OnRequest)
  end.
Definition sandbox_constraint (r : option (Sourced (list SandboxModeRequirement))) : outcome ConstraintError (ConstrainedWithSource SandboxPolicy) :=
  match r with
  | Some r =>
      let modes := sourced_value r in
      if bool_decide (ReqReadOnly ∈ modes) then
        constrained_field new_read_only_policy (one_of "sandbox_mode" (debug modes) modes mode_of_policy (source r)) (source r)
      else Err (InvalidValue (lit "allowed_sandbox_modes") (debug modes)
                  (lit "must include 'read-only' to allow any SandboxPolicy") (source r))
  | None => Ok (unconstrained new_read_only_policy)
  end.
Definition exec_policy_constraint (r : option (Sourced RequirementsExecPolicyToml)) : outcome ConstraintError (option (Sourced Policy)) :=
  match r with
  | Some r =>
      policy ← map_err (λ e, ExecPolicyParse (source r) (rules_error_display e)) (to_policy (sourced_value r));
      Ok (Some (sourced policy (source r)))
  | None => Ok None
  end.
Definition web_constraint (r : option (Sourced (list WebSearchModeRequirement))) : outcome ConstraintError (ConstrainedWithSource WebSearchMode) :=
  match r with
  | Some r =>
      let accepted := accepted_web_modes (sourced_value r) in
      constrained_field (initial_web_mode accepted) (one_of "web_search_mode" (debug accepted) accepted id (source r)) (source r)
  | None => Ok (unconstrained SearchCached)
  end.
Definition residency_constraint (r : option (Sourced ResidencyRequirement)) : outcome ConstraintError (ConstrainedWithSource (option ResidencyRequirement)) :=
  match r with
  | Some r =>
      let required := Some (sourced_value r) in
      constrained_field required (one_of "enforce_residency" (debug required) [required] id (source r)) (source r)
  | None => Ok (unconstrained None)
  end.
(** [TryFrom<ConfigRequirementsWithSources>]. *)
Definition requirements_try_from (t : ConfigRequirementsWithSources) : outcome ConstraintError ConfigRequirements :=
  approval_policy ← approval_constraint (allowed_approval_policies t);
  sandbox_policy ← sandbox_constraint (allowed_sandbox_modes t);
  exec_policy ← exec_policy_constraint (required_rules t);
  web_search_mode ← web_constraint (allowed_web_search_modes t);
  residency ← residency_constraint (enforce_residency t);
  Ok {| approval_policy := approval_policy; sandbox_policy := sandbox_policy; web_search_mode := web_search_mode;
        features := match feature_requirements t with
                    | Some f => if bool_decide (sourced_value f = []) then None else Some f
                    | None => None
                    end;
        servers := mcp_servers t; exec_policy := exec_policy; residency := residency; network := required_network t |}.

(** * Lemmas: constrained values *)

Definition valid {A} (c : Constrained A) : Prop := validator c (value c) = Ok tt.
Definition set_all {A} (c : Constrained A) (vs : list A) : Constrained A := foldl (λ c v, (set_value v c).1) c vs.
Lemma set_value_validator {A} v (c : Constrained A) :
  validator (set_value v c).1 = validator c ∧ normalizer (set_value v c).1 = normalizer c.
Proof. unfold set_value. by destruct (validator c _). Qed.
Lemma set_value_valid {A} v (c : Constrained A) : valid c → valid (set_value v c).1.
Proof. intros Hc. unfold set_value. destruct (validator c _) as [[]| | |] eqn:E; done. Qed.
Lemma set_all_valid {A} vs (c : Constrained A) : valid c →
  valid (set_all c vs) ∧ validator (set_all c vs) = validator c ∧ normalizer (set_all c vs) = normalizer c.
Proof.
  revert c. induction vs as [|v vs IH]; intros c Hc; [done|].
  destruct (IH (set_value v c).1 (set_value_valid v c Hc)) as (H1 & H2 & H3).
  destruct (set_value_validator v c) as [E1 E2]. cbn [set_all foldl]. unfold set_all in *. by rewrite H2, H3.
Qed.
Lemma one_of_Ok {A B} `{EqDecision B, Debug B} field allowed accepted (key : A → B) s c :
  one_of field allowed accepted key s c = Ok tt ↔ key c ∈ accepted.
Proof. unfold one_of. case_bool_decide; by split. Qed.
Lemma constrained_field_Ok {A} (initial : A) v s c :
  constrained_field initial v s = Ok c ↔
  v initial = Ok tt ∧ c = {| constrained := {| value := initial; validator := v; normalizer := None |}; constraint_source := Some s |}.
Proof.
  unfold constrained_field, constrained_new. destruct (v initial) as [[]| | |]; cbn;
    [|split; [done|by intros [? _]]..]. split; [by intros [= <-]|by intros [_ ->]].
Qed.
(** What a requirement on a field leaves: the values it accepts. *)
Definition allowed_by {A} (c : ConstrainedWithSource A) (P : A → Prop) : Prop :=
  valid (constrained c) ∧ normalizer (constrained c) = None ∧ ∀ a, can_set (constrained c) a = Ok tt ↔ P a.
Lemma unconstrained_allows {A} (v : A) : allowed_by (unconstrained v) (λ _, True).
Proof. by repeat split. Qed.
Lemma allowed_by_field {A} initial v s (c : ConstrainedWithSource A) (P : A → Prop) :
  (∀ a, v a = Ok tt ↔ P a) → constrained_field initial v s = Ok c → allowed_by c P.
Proof. intros Hv [Hi ->]%constrained_field_Ok. split; [done|]. split; [done|]. exact Hv. Qed.

Lemma approval_constraint_allows r c : approval_constraint r = Ok c →
  allowed_by c (λ p, match r with Some r => p ∈ sourced_value r | None => True end).
Proof.
  destruct r as [r|]; cbn; [|intros [= <-]; apply unconstrained_allows].
  destruct (sourced_value r) as [|initial rest] eqn:E; [done|]. apply allowed_by_field. intros a. apply (one_of_Ok _ _ _ id).
Qed.
Lemma sandbox_constraint_allows r c : sandbox_constraint r = Ok c →
  allowed_by c (λ p, match r with Some r => mode_of_policy p ∈ sourced_value r | None => True end)
  ∧ match r with Some r => ReqReadOnly ∈ sourced_value r | None => True end.
Proof.
  destruct r as [r|]; cbn; [|intros [= <-]; split; [apply unconstrained_allows|done]].
  case_bool_decide; [|done]. intros Hc. split; [|done]. revert Hc. apply allowed_by_field. intros a. apply one_of_Ok.
Qed.
Lemma elem_accepted_web m modes : m ∈ accepted_web_modes modes ↔ m ∈ modes ∨ m = SearchDisabled.
Proof.
  unfold accepted_web_modes. rewrite list_elem_of_filter.
  assert (m ∈ [SearchDisabled; SearchCached; SearchLive]) by (destruct m; set_solver). tauto.
Qed.
Lemma web_constraint_allows r c : web_constraint r = Ok c →
  allowed_by c (λ m, match r with Some r => m ∈ sourced_value r ∨ m = SearchDisabled | None => True end).
Proof.
  destruct r as [r|]; cbn [web_constraint]; [|intros [= <-]; apply unconstrained_allows].
  apply allowed_by_field. intros a. rewrite <-elem_accepted_web. apply (one_of_Ok _ _ _ id).
Qed.
Lemma web_constraint_Ok r : ∃ c, web_constraint r = Ok c.
Proof.
  destruct r as [r|]; cbn [web_constraint]; [|by eexists]. eexists. apply constrained_field_Ok. split; [|done].
  apply one_of_Ok. unfold id, initial_web_mode. case_bool_decide; [done|]. case_bool_decide; [done|].
  apply elem_accepted_web. by right.
Qed.
Lemma residency_constraint_allows r c : residency_constraint r = Ok c →
  allowed_by c (λ o, match r with Some r => o = Some (sourced_value r) | None => True end).
Proof.
  destruct r as [r|]; cbn [residency_constraint]; [|intros [= <-]; apply unconstrained_allows].
  apply allowed_by_field. intros a. rewrite (one_of_Ok _ _ _ id). unfold id. set_solver.
Qed.
Lemma residency_constraint_Ok r : ∃ c, residency_constraint r = Ok c.
Proof.
  destruct r as [r|]; cbn [residency_constraint]; [|by eexists]. eexists. apply constrained_field_Ok. split; [|done].
  apply one_of_Ok. unfold id. set_solver.
Qed.

(** * Lemmas: the sources *)

Abbreviation sources := (list (RequirementSource * ConfigRequirementsToml)).
Definition merge_sources (srcs : sources) (self : ConfigRequirementsWithSources) : ConfigRequirementsWithSources :=
  foldl (λ self st, merge_unset_fields st.1 st.2 self) self srcs.
(** The first source that sets a field. *)
Fixpoint first_set {A} (get : ConfigRequirementsToml → option A) (srcs : sources) : option (Sourced A) :=
  match srcs with
  | [] => None
  | (s, t) :: srcs' => match get t with Some v => Some (sourced v s) | None => first_set get srcs' end
  end.
Lemma merge_sources_field {A} (get : ConfigRequirementsToml → option A) (got : ConfigRequirementsWithSources → option (Sourced A)) srcs :
  (∀ s t self, got (merge_unset_fields s t self) = fill_missing s (got self) (get t)) →
  ∀ self, got (merge_sources srcs self) = match got self with Some v => Some v | None => first_set get srcs end.
Proof.
  intros H. unfold merge_sources. induction srcs as [|[s t] srcs IH]; intros self; cbn [foldl first_set]; [by destruct (got self)|].
  rewrite IH, H. cbn [fst snd]. by destruct (got self), (get t).
Qed.

(** What a map of apps says about one app; a lower source can only add what is
    not said, and can always disable. *)
Definition app_setting (a : str) (m : AppsRequirementsToml) : option bool :=
  match lookup_entry a m with Some r => app_enabled r | None => None end.
Definition app_setting_of (a : str) (t : ConfigRequirementsToml) : option bool :=
  match apps t with Some m => app_setting a m | None => None end.
Definition app_setting_merged (a : str) (r : ConfigRequirementsWithSources) : option bool :=
  match apps r with Some m => app_setting a (sourced_value m) | None => None end.
Definition combine_enabled (higher lower : option bool) : option bool :=
  if bool_decide (higher = Some false) || bool_decide (lower = Some false) then Some false
  else match higher with Some b => Some b | None => lower end.
Lemma combine_None_r e : combine_enabled e None = e.
Proof. by destruct e as [[]|]. Qed.
Lemma app_setting_cons a k v l : app_setting a ((k, v) :: l) = if decide (k = a) then app_enabled v else app_setting a l.
Proof. unfold app_setting. rewrite lookup_entry_cons. cbn [fst snd]. by case_decide. Qed.
Lemma app_setting_merge_app a base e :
  app_setting a (merge_app base e) = if decide (e.1 = a) then combine_enabled (app_setting a base) (app_enabled e.2) else app_setting a base.
Proof.
  unfold app_setting, merge_app. case_decide as Ha; [subst a; by rewrite lookup_entry_insert|by rewrite lookup_entry_insert_ne].
Qed.
Lemma app_setting_merge a incoming : ∀ base, NoDup incoming.*1 →
  app_setting a (merge_enablement_settings_descending base incoming) = combine_enabled (app_setting a base) (app_setting a incoming).
Proof.
  unfold merge_enablement_settings_descending. induction incoming as [|[k v] l IH]; intros base Hn; [by rewrite combine_None_r|].
  cbn [fmap list_fmap fst] in Hn. apply NoDup_cons in Hn as [Hk Hn]. cbn [foldl].
  rewrite (IH _ Hn), app_setting_merge_app, app_setting_cons. cbn [fst snd].
  case_decide as Ha; [|done]. subst k. apply lookup_entry_None in Hk.
  replace (app_setting a l) with (@None bool) by (unfold app_setting; by rewrite Hk). apply combine_None_r.
Qed.
Definition apps_wf (t : ConfigRequirementsToml) : Prop := match apps t with Some m => btree_wf m | None => True end.
Lemma app_setting_merge_source a s t r : apps_wf t →
  app_setting_merged a (merge_unset_fields s t r) = combine_enabled (app_setting_merged a r) (app_setting_of a t).
Proof.
  unfold apps_wf, app_setting_merged, app_setting_of. cbn [merge_unset_fields apps]. intros Hw.
  destruct (apps t) as [m|]; [|by rewrite combine_None_r]. destruct (apps r) as [e|]; cbn [sourced_value sourced].
  - by apply app_setting_merge, btree_wf_NoDup.
  - by destruct (app_setting a m) as [[]|].
Qed.
Lemma app_setting_sources a srcs : ∀ r, Forall (λ st, apps_wf st.2) srcs →
  (app_setting_merged a (merge_sources srcs r) = Some false
   ↔ app_setting_merged a r = Some false ∨ ∃ st, st ∈ srcs ∧ app_setting_of a st.2 = Some false)
  ∧ (app_setting_merged a (merge_sources srcs r) = None
     ↔ app_setting_merged a r = None ∧ ∀ st, st ∈ srcs → app_setting_of a st.2 = None).
Proof.
  unfold merge_sources. induction srcs as [|[s t] srcs IH]; intros r Hw; cbn [foldl].
  - split; [|set_solver]. split; [by left|]. intros [|(? & ?%elem_of_nil & _)]; done.
  - apply Forall_cons in Hw as [Ht Hw]. destruct (IH (merge_unset_fields s t r) Hw) as [IH1 IH2]. cbn [fst snd] in *.
    rewrite app_setting_merge_source in IH1, IH2 by done. setoid_rewrite elem_of_cons.
    destruct (app_setting_merged a r) as [[]|] eqn:E1, (app_setting_of a t) as [[]|] eqn:E2; cbn in IH1, IH2;
      rewrite IH1, IH2; clear IH IH1 IH2; naive_solver.
Qed.

(** * Lemmas: the rules *)

Lemma parse_token_nonempty t i j x : parse_token t i j = Ok x → alternatives x ≠ [].
Proof.
  unfold parse_token. destruct (token t), (any_of t); try done; [by destruct (blank _); intros [= <-]|].
  case_bool_decide; [done|]. destruct (existsb _ _); [done|]. by intros [= <-].
Qed.
(** The alternatives a token of the requirements lists. *)
Definition toml_alternatives (t : PatternTokenToml) : list str :=
  match token t, any_of t with Some s, None => [s] | None, Some l => l | _, _ => [] end.
Lemma parse_token_alternatives t i j x : parse_token t i j = Ok x → alternatives x = toml_alternatives t.
Proof.
  unfold parse_token, toml_alternatives. destruct (token t), (any_of t); try done; [by destruct (blank _); intros [= <-]|].
  case_bool_decide; [done|]. destruct (existsb _ _); [done|]. by intros [= <-].
Qed.
Lemma parse_tokens_alternatives ts i : ∀ j xs, parse_tokens ts i j = Ok xs → alternatives <$> xs = toml_alternatives <$> ts.
Proof.
  induction ts as [|t ts IH]; intros j xs; cbn [parse_tokens]; [by intros [= <-]|].
  intros (x & Hx & (ys & Hy & [= <-])%bind_Ok_inv)%bind_Ok_inv. cbn.
  by rewrite (parse_token_alternatives _ _ _ _ Hx), (IH _ _ Hy).
Qed.
Lemma rules_at_insert {A} (m : MultiMap A) k x w :
  default [] (mm_insert k x m !! w) = default [] (m !! w) ++ (if decide (k = w) then [x] else []).
Proof.
  unfold mm_insert. case_decide as E; [subst; by rewrite lookup_insert_eq|by rewrite lookup_insert_ne, app_nil_r].
Qed.
Lemma elem_rules_foldl (f : str → PrefixRule) heads w r : ∀ m,
  r ∈ default [] (foldl (λ m h, mm_insert h (f h) m) m heads !! w)
  ↔ r ∈ default [] (m !! w) ∨ (w ∈ heads ∧ r = f w).
Proof.
  induction heads as [|h heads IH]; intros m; cbn [foldl]; [set_solver|].
  rewrite IH, rules_at_insert, elem_of_app. case_decide as E; set_solver.
Qed.
(** The rules one entry of the requirements stands for. *)
Definition rule_of (t : PrefixRuleToml) (w : str) (r : PrefixRule) : Prop :=
  ∃ first rest d, rule_pattern t = first :: rest ∧ w ∈ toml_alternatives first
    ∧ ExecPolicy.first (pattern r) = w ∧ alternatives <$> ExecPolicy.rest (pattern r) = toml_alternatives <$> rest
    ∧ toml_decision t = Some d ∧ d ≠ AllowToml ∧ rule_decision r = as_decision d.
Lemma add_rule_Ok i t m m' : add_rule i t m = Ok m' →
  (∀ w r, r ∈ default [] (m' !! w) → r ∈ default [] (m !! w) ∨ rule_of t w r)
  ∧ (∀ w r, r ∈ default [] (m !! w) → r ∈ default [] (m' !! w))
  ∧ (∀ first rest w, rule_pattern t = first :: rest → w ∈ toml_alternatives first →
       ∃ r, r ∈ default [] (m' !! w) ∧ rule_of t w r).
Proof.
  unfold add_rule. destruct (match toml_justification t with Some j => blank j | None => false end); [done|].
  case_bool_decide as Hp; [done|]. intros (xs & Hx%parse_tokens_alternatives & (d & Hd & Hm)%bind_Ok_inv)%bind_Ok_inv.
  assert (Hd' : ∃ dt, toml_decision t = Some dt ∧ dt ≠ AllowToml ∧ d = as_decision dt).
  { destruct (toml_decision t) as [[]|]; try done; injection Hd as <-; by eexists. }
  destruct Hd' as (dt & Et & Hna & ->). destruct xs as [|x xs]; [done|]. injection Hm as <-.
  destruct (rule_pattern t) as [|ft rt] eqn:Ert; [done|]. injection Hx as Hx1 Hx2.
  set (f := λ h, {| pattern := {| ExecPolicy.first := h; ExecPolicy.rest := xs |}; rule_decision := as_decision dt;
                    justification := toml_justification t |}).
  assert (Hr : ∀ w, w ∈ alternatives x → rule_of t w (f w)).
  { intros w Hw. exists ft, rt, dt. rewrite <-Hx1. by split_and!. }
  split_and!.
  - intros w r [H|[Hw ->]]%(elem_rules_foldl f); [by left|right]. by apply Hr.
  - intros w r H. apply (elem_rules_foldl f). by left.
  - intros first rest w [= <- <-] Hw. rewrite <-Hx1 in Hw. exists (f w). split; [|by apply Hr].
    apply (elem_rules_foldl f). by right.
Qed.
Lemma add_rules_Ok ts : ∀ i m m', add_rules i ts m = Ok m' →
  (∀ w r, r ∈ default [] (m' !! w) → r ∈ default [] (m !! w) ∨ ∃ t, t ∈ ts ∧ rule_of t w r)
  ∧ (∀ w r, r ∈ default [] (m !! w) → r ∈ default [] (m' !! w))
  ∧ (∀ t first rest w, t ∈ ts → rule_pattern t = first :: rest → w ∈ toml_alternatives first →
       ∃ r, r ∈ default [] (m' !! w) ∧ rule_of t w r).
Proof.
  induction ts as [|t ts IH]; intros i m m'; cbn [add_rules].
  - intros [= <-]. split_and!; [by left|done|by intros ? ? ? ? ?%elem_of_nil].
  - intros (m1 & (H1 & H2 & H3)%add_rule_Ok & (I1 & I2 & I3)%IH)%bind_Ok_inv. split_and!.
    + intros w r [[H|H]%H1|(u & Hu & H)]%I1; [by left|right; exists t; split; [by left|done]|right; exists u; split; [by right|done]].
    + intros w r H. by apply I2, H2.
    + intros u first rest w [->|Hu]%elem_of_cons Hp Hw; [|by eapply I3].
      destruct (H3 _ _ _ Hp Hw) as (r & Hr & Ho). exists r. split; [by apply I2|done].
Qed.

(** * Properties *)

(** Requirements merged from a list of sources, strongest first: every field has
    the value and the name of the first source that sets it, and an app is
    disabled exactly when some source disables it. *)
Theorem merged_requirements_spec (srcs : sources) :
  Forall (λ st, apps_wf st.2) srcs →
  let r := merge_sources srcs no_requirements in
  allowed_approval_policies r = first_set allowed_approval_policies srcs
  ∧ allowed_sandbox_modes r = first_set allowed_sandbox_modes srcs
  ∧ allowed_web_search_modes r = first_set allowed_web_search_modes srcs
  ∧ feature_requirements r = first_set feature_requirements srcs
  ∧ mcp_servers r = first_set mcp_servers srcs
  ∧ required_rules r = first_set required_rules srcs
  ∧ enforce_residency r = first_set enforce_residency srcs
  ∧ required_network r = first_set required_network srcs
  ∧ guardian_developer_instructions r = first_set (λ t, nonblank (guardian_developer_instructions t)) srcs
  ∧ ∀ a, (app_setting_merged a r = Some false ↔ ∃ st, st ∈ srcs ∧ app_setting_of a st.2 = Some false)
       ∧ (app_setting_merged a r = None ↔ ∀ st, st ∈ srcs → app_setting_of a st.2 = None).
Proof.
  intros Hw r. unfold r.
  split; [by rewrite (merge_sources_field (A := list AskForApproval) allowed_approval_policies allowed_approval_policies)|].
  split; [by rewrite (merge_sources_field (A := list SandboxModeRequirement) allowed_sandbox_modes allowed_sandbox_modes)|].
  split; [by rewrite (merge_sources_field (A := list WebSearchMode) allowed_web_search_modes allowed_web_search_modes)|].
  split; [by rewrite (merge_sources_field (A := list (str * bool)) feature_requirements feature_requirements)|].
  split; [by rewrite (merge_sources_field (A := list (str * McpServerIdentity)) mcp_servers mcp_servers)|].
  split; [by rewrite (merge_sources_field (A := RequirementsExecPolicyToml) required_rules required_rules)|].
  split; [by rewrite (merge_sources_field (A := ResidencyRequirement) enforce_residency enforce_residency)|].
  split; [by rewrite (merge_sources_field (A := NetworkRequirementsToml) required_network required_network)|].
  split; [by rewrite (merge_sources_field (λ t, nonblank (guardian_developer_instructions t)) guardian_developer_instructions)|].
  intros a.
  destruct (app_setting_sources a srcs no_requirements Hw) as [-> ->]. naive_solver.
Qed.

(** C27. Requirements that are accepted bind every field for good: whatever values the
    program then tries to set, in whatever order, the approval policy, the mode
    of the sandbox, the web search mode and the residency stay among the values
    the requirements allow, and a value is accepted exactly when they allow it. *)
Theorem requirements_stay_enforced (t : ConfigRequirementsWithSources) (r : ConfigRequirements)
    (ps : list AskForApproval) (ss : list SandboxPolicy) (ws : list WebSearchMode) (rs : list (option ResidencyRequirement)) :
  requirements_try_from t = Ok r →
  let approvals := set_all (constrained (approval_policy r)) ps in
  let sandbox := set_all (constrained (sandbox_policy r)) ss in
  let web := set_all (constrained (web_search_mode r)) ws in
  let place := set_all (constrained (residency r)) rs in
  let approval_ok p := match allowed_approval_policies t with Some a => p ∈ sourced_value a | None => True end in
  let sandbox_ok p := match allowed_sandbox_modes t with Some a => mode_of_policy p ∈ sourced_value a | None => True end in
  let web_ok m := match allowed_web_search_modes t with Some a => m ∈ sourced_value a ∨ m = SearchDisabled | None => True end in
  let place_ok o := match enforce_residency t with Some a => o = Some (sourced_value a) | None => True end in
  (approval_ok (value approvals) ∧ ∀ p, can_set approvals p = Ok tt ↔ approval_ok p)
  ∧ (sandbox_ok (value sandbox) ∧ sandbox_ok new_read_only_policy ∧ ∀ p, can_set sandbox p = Ok tt ↔ sandbox_ok p)
  ∧ (web_ok (value web) ∧ ∀ m, can_set web m = Ok tt ↔ web_ok m)
  ∧ (place_ok (value place) ∧ ∀ o, can_set place o = Ok tt ↔ place_ok o).
Proof.
  unfold requirements_try_from. intros (a & Ha%approval_constraint_allows & H1)%bind_Ok_inv.
  apply bind_Ok_inv in H1 as (s & Hs%sandbox_constraint_allows & H1). apply bind_Ok_inv in H1 as (e & _ & H1).
  apply bind_Ok_inv in H1 as (w & Hw%web_constraint_allows & H1).
  apply bind_Ok_inv in H1 as (p & Hp%residency_constraint_allows & [= <-]). cbn. destruct Hs as [Hs Hro].
  assert (Hkeep : ∀ {A} (c : ConstrainedWithSource A) vs P, allowed_by c P →
    P (value (set_all (constrained c) vs)) ∧ ∀ v, can_set (set_all (constrained c) vs) v = Ok tt ↔ P v).
  { intros A c vs P (Hv & _ & Hc). destruct (set_all_valid vs (constrained c) Hv) as (Hv' & Ev & _).
    unfold can_set in *. rewrite Ev. split; [|done]. apply Hc. unfold valid in Hv'. by rewrite Ev in Hv'. }
  split; [exact (Hkeep _ a ps _ Ha)|]. split; [|split; [exact (Hkeep _ w ws _ Hw)|exact (Hkeep _ p rs _ Hp)]].
  destruct (Hkeep _ s ss _ Hs) as [H1 H2]. split; [done|]. split; [|done].
  by destruct (allowed_sandbox_modes t).
Qed.

(** Requirements are accepted exactly when they list an approval policy if they
    list any, keep the read-only sandbox if they restrict it, and have rules
    that parse; they never panic. *)
Theorem requirements_accepted_iff (t : ConfigRequirementsWithSources) :
  (∃ r, requirements_try_from t = Ok r)
  ↔ (∀ a, allowed_approval_policies t = Some a → sourced_value a ≠ [])
    ∧ (∀ a, allowed_sandbox_modes t = Some a → ReqReadOnly ∈ sourced_value a)
    ∧ (∀ a, required_rules t = Some a → ∃ p, to_policy (sourced_value a) = Ok p).
Proof.
  unfold requirements_try_from. split.
  - intros (r & (a & Ha & H1)%bind_Ok_inv). apply bind_Ok_inv in H1 as (s & Hs & H1). apply bind_Ok_inv in H1 as (e & He & _).
    split_and!; intros x Hx; rewrite Hx in *.
    + intros E. cbn in Ha. by rewrite E in Ha.
    + by apply sandbox_constraint_allows in Hs as [_ ?].
    + cbn in He. apply bind_Ok_inv in He as (p & Hp%map_err_Ok & _). by exists p.
  - intros (Ha & Hs & He).
    assert (∃ a, approval_constraint (allowed_approval_policies t) = Ok a) as [a ->].
    { destruct (allowed_approval_policies t) as [x|]; [|by eexists]. specialize (Ha x eq_refl). cbn.
      destruct (sourced_value x) eqn:E; [done|]. eexists. apply constrained_field_Ok. split; [|done]. apply one_of_Ok. by left. }
    assert (∃ s, sandbox_constraint (allowed_sandbox_modes t) = Ok s) as [s ->].
    { destruct (allowed_sandbox_modes t) as [x|]; [|by eexists]. specialize (Hs x eq_refl). cbn.
      rewrite bool_decide_true by done. eexists. apply constrained_field_Ok. split; [|done]. by apply one_of_Ok. }
    assert (∃ e, exec_policy_constraint (required_rules t) = Ok e) as [e ->].
    { destruct (required_rules t) as [x|]; [|by eexists]. destruct (He x eq_refl) as [p Hp]. cbn. rewrite Hp. by eexists. }
    destruct (web_constraint_Ok (allowed_web_search_modes t)) as [w ->].
    destruct (residency_constraint_Ok (enforce_residency t)) as [p ->]. by eexists.
Qed.

(** The rules of the requirements bind the user's: a command whose words start
    with words that an entry lists is decided, under any policy the rules are
    laid over, at least as strictly as the entry says, and never allowed. *)
Theorem required_rule_binds `{PathEnv} (base required : Policy) (t : RequirementsExecPolicyToml) (e : PrefixRuleToml)
    (first : PatternTokenToml) (rest : list PatternTokenToml) (w : str) (ws more : list str) (d : DecisionToml)
    (fallback : list str → Decision) (options : MatchOptions) :
  to_policy t = Ok required → e ∈ prefix_rules t → rule_pattern e = first :: rest → toml_decision e = Some d →
  w ∈ toml_alternatives first → Forall2 (λ x t, x ∈ toml_alternatives t) ws rest →
  ∃ ev, check_with_options (merge_overlay base required) (w :: ws ++ more) fallback options = Ok ev
    ∧ decision_le (as_decision d) (decision ev) ∧ decision ev ≠ Allow.
Proof.
  unfold to_policy. case_bool_decide; [done|]. intros (m & (_ & _ & H3)%add_rules_Ok & [= <-])%bind_Ok_inv He Hp Hd Hw Hws.
  destruct (H3 e first rest w He Hp Hw) as (r & Hr & f' & r' & d' & Ep & _ & Hf & Halt & Ed & Hna & Hrd).
  rewrite Hp in Ep. injection Ep as <- <-. rewrite Hd in Ed. injection Ed as <-.
  assert (Hx : exact_rule (merge_overlay base (policy_new m)) (w :: ws ++ more) r (w :: ws)).
  { apply exact_rule_merge. right. exists w, (ws ++ more). split; [done|]. split; [exact Hr|]. split.
    - exists ws. rewrite Hf. split; [done|]. revert Halt Hws. generalize (ExecPolicy.rest (pattern r)). clear.
      intros xs Halt Hws. revert xs Halt. induction Hws as [|x y ws rest Hx Hws IH]; intros [|z xs] Halt; try done.
      injection Halt as Hz Halt. constructor; [by rewrite Hz|by apply IH].
    - by exists more. }
  destruct (check_exact _ _ fallback options _ _ Hx) as (ev & Hev & _ & Hub). exists ev. split; [done|].
  specialize (Hub r (w :: ws) Hx). rewrite Hrd in Hub. split; [done|]. intros E. rewrite E in Hub.
  unfold decision_le in Hub. destruct d; [done|cbn in Hub; lia..].
Qed.

(** The deprecated lists of the network requirements: a domain listed in both is
    denied. *)
Theorem legacy_denied_domain_wins (r : RawNetworkRequirementsToml) (n : NetworkRequirementsToml) (d : str) :
  network_requirements_from_raw r = Ok n → d ∈ default [] (legacy_denied_domains r) →
  ∃ m, domains n = Some m ∧ lookup_entry d m = Some DomainDeny.
Proof.
  unfold network_requirements_from_raw. intros H Hd.
  destruct (legacy_denied_domains r) as [denied|] eqn:Eden; [|by apply elem_of_nil in Hd]. cbn [default from_option id] in Hd.
  rewrite orb_true_r, andb_true_r in H. destruct (domains (raw r)) as [dm|] eqn:Ed; [done|]. cbn [is_some] in H.
  destruct (_ && _); [done|]. injection H as <-. cbn [domains]. unfold legacy_domain_permissions_from_lists.
  cbn [default from_option id]. set (allowed := foldl _ [] _).
  assert (Hl : ∀ l acc, d ∈ l ∨ lookup_entry d acc = Some DomainDeny →
    lookup_entry d (foldl (λ m p, btree_insert p DomainDeny m) acc l) = Some DomainDeny).
  { induction l as [|x l IH]; intros acc Hc; cbn [foldl]; [by destruct Hc as [?%elem_of_nil|]|]. apply IH.
    destruct (decide (x = d)) as [->|Hx]; [right; apply lookup_entry_insert|].
    rewrite lookup_entry_insert_ne by done. rewrite elem_of_cons in Hc. destruct Hc as [[->|]|]; tauto. }
  specialize (Hl denied allowed (or_introl Hd)). destruct (foldl _ allowed denied) as [|x m]; [done|]. by eexists.
Qed.

(** * Witnesses *)

Definition cloud_toml : ConfigRequirementsToml :=
  {| allowed_approval_policies := Some [OnRequest; UnlessTrusted]; allowed_sandbox_modes := Some [ReqReadOnly; ReqWorkspaceWrite];
     allowed_web_search_modes := None; feature_requirements := None; mcp_servers := None;
     apps := Some [(lit "mail", {| app_enabled := Some true |})]; required_rules := None; enforce_residency := None;
     required_network := None; guardian_developer_instructions := Some (lit "  ") |}.
Definition example_rules : RequirementsExecPolicyToml :=
  {| prefix_rules := [{| rule_pattern := [{| token := Some (lit "rm"); any_of := None |};
                                          {| token := None; any_of := Some [lit "-rf"; lit "-fr"] |}];
                         toml_decision := Some ForbiddenToml; toml_justification := None |}] |}.
Definition system_toml : ConfigRequirementsToml :=
  {| allowed_approval_policies := Some [Never]; allowed_sandbox_modes := None;
     allowed_web_search_modes := Some [SearchLive]; feature_requirements := None; mcp_servers := None;
     apps := Some [(lit "mail", {| app_enabled := Some false |})]; required_rules := Some example_rules; enforce_residency := Some Us;
     required_network := None; guardian_developer_instructions := Some (lit "careful") |}.
Definition example_sources : sources :=
  [(CloudRequirements, cloud_toml); (SystemRequirementsToml (lit "/etc/codex/requirements.toml"), system_toml)].
Definition example_requirements : ConfigRequirementsWithSources := merge_sources example_sources no_requirements.
Definition example_constraints : ConfigRequirements :=
  match requirements_try_from example_requirements with Ok r => r | _ => default_requirements end.
Lemma example_accepted : requirements_try_from example_requirements = Ok example_constraints.
Proof. vm_compute. reflexivity. Qed.

Lemma merged_requirements_spec_witness :
  allowed_approval_policies example_requirements = first_set allowed_approval_policies example_sources
  ∧ app_setting_merged (lit "mail") example_requirements = Some false.
Proof.
  destruct (merged_requirements_spec example_sources) as (H1 & _ & _ & _ & _ & _ & _ & _ & _ & H).
  { repeat constructor. }
  split; [exact H1|]. apply (H (lit "mail")). exists (SystemRequirementsToml (lit "/etc/codex/requirements.toml"), system_toml).
  split; [by right; left|vm_compute; reflexivity].
Defined.
Lemma requirements_stay_enforced_witness :
  value (set_all (constrained (approval_policy example_constraints)) [Never; UnlessTrusted; OnFailure]) ∈ [OnRequest; UnlessTrusted].
Proof.
  destruct (requirements_stay_enforced example_requirements example_constraints [Never; UnlessTrusted; OnFailure] [] [] []
              example_accepted) as ((H & _) & _). exact H.
Defined.
Example set_values_ex :
  value (set_all (constrained (approval_policy example_constraints)) [Never; UnlessTrusted; OnFailure]) = UnlessTrusted
  ∧ can_set (constrained (sandbox_policy example_constraints)) DangerFullAccess
    = Err (InvalidValue (lit "sandbox_mode") (lit "DangerFullAccess") (lit "[ReadOnly, WorkspaceWrite]") CloudRequirements)
  ∧ value (constrained (web_search_mode example_constraints)) = SearchLive.
Proof. vm_compute. repeat split. Qed.
#[local] Instance requirements_env : PathEnv := lexical_env (lit "/root") (lit "/work").
Definition example_required : Policy :=
  match to_policy example_rules with Ok p => p | _ => policy_empty end.
Lemma required_rule_binds_witness :
  ∃ ev, check_with_options (merge_overlay policy_empty example_required) [lit "rm"; lit "-fr"; lit "/"] (λ _, Allow) default_options = Ok ev
    ∧ decision_le Forbidden (decision ev) ∧ decision ev ≠ Allow.
Proof.
  apply (required_rule_binds policy_empty example_required example_rules (List.hd {| rule_pattern := []; toml_decision := None; toml_justification := None |} (prefix_rules example_rules))
           {| token := Some (lit "rm"); any_of := None |} [{| token := None; any_of := Some [lit "-rf"; lit "-fr"] |}]
           (lit "rm") [lit "-fr"] [lit "/"] ForbiddenToml).
  - vm_compute. reflexivity.
  - by left.
  - reflexivity.
  - reflexivity.
  - by left.
  - constructor; [by right; left|constructor].
Defined.
Lemma legacy_denied_domain_wins_witness :
  let none := {| net_enabled := None; http_port := None; socks_port := None; allow_upstream_proxy := None;
                 dangerously_allow_non_loopback_proxy := None; dangerously_allow_all_unix_sockets := None; domains := None;
                 managed_allowed_domains_only := None; unix_sockets := None; allow_local_binding := None |} in
  let r := {| raw := none; legacy_allowed_domains := Some [lit "a.com"]; legacy_denied_domains := Some [lit "a.com"];
              legacy_allow_unix_sockets := None |} in
  ∃ m, domains (match network_requirements_from_raw r with Ok n => n | _ => none end) = Some m
    ∧ lookup_entry (lit "a.com") m = Some DomainDeny.
Proof.
  intros none r. apply (legacy_denied_domain_wins r); [vm_compute; reflexivity|by left].
Defined.
