(* ===== verification/ConfigLayers.v ===== *)
(** The stack of configuration layers: [codex-rs/config/src/state.rs], the
    sources of layers of [app-server-protocol/src/protocol/v2.rs] and the
    origins of [fingerprint.rs]; the version of a layer is in Fingerprint. *)
From stdpp Require Import gmap sorting.
From S2P Require Import Prelude RustStr BTreeMap RustPath FileSystem TomlValue Fingerprint Requirements.

(** * Layers *)

Inductive ConfigLayerSource : Type :=
| Mdm (domain key : str) | System (file : str) | User (file : str) | Project (dot_codex_folder : str) | SessionFlags
| LegacyManagedConfigTomlFromFile (file : str) | LegacyManagedConfigTomlFromMdm.
#[export] Instance ConfigLayerSource_eq_dec : EqDecision ConfigLayerSource.
Proof. solve_decision. Defined.
Definition precedence (s : ConfigLayerSource) : Z :=
  match s with
  | Mdm _ _ => 0 | System _ => 10 | User _ => 20 | Project _ => 25 | SessionFlags => 30
  | LegacyManagedConfigTomlFromFile _ => 40 | LegacyManagedConfigTomlFromMdm => 50
  end.
Record ConfigLayerMetadata : Type := { meta_name : ConfigLayerSource; meta_version : str }.
Record ConfigLayerEntry : Type := {
  layer_name : ConfigLayerSource;
  layer_config : TomlValue;
  raw_toml : option str;
  layer_version : str;
  disabled_reason : option str }.

Definition entry_new `{TomlDigest} (name : ConfigLayerSource) (config : TomlValue) : ConfigLayerEntry :=
  {| layer_name := name; layer_config := config; raw_toml := None; layer_version := version_for_toml config; disabled_reason := None |}.
Definition new_with_raw_toml `{TomlDigest} (name : ConfigLayerSource) (config : TomlValue) (raw : str) : ConfigLayerEntry :=
  {| layer_name := name; layer_config := config; raw_toml := Some raw; layer_version := version_for_toml config;
     disabled_reason := None |}.
Definition new_disabled `{TomlDigest} (name : ConfigLayerSource) (config : TomlValue) (reason : str) : ConfigLayerEntry :=
  {| layer_name := name; layer_config := config; raw_toml := None; layer_version := version_for_toml config;
     disabled_reason := Some reason |}.
Definition is_disabled (l : ConfigLayerEntry) : bool := is_some (disabled_reason l).
Definition metadata (l : ConfigLayerEntry) : ConfigLayerMetadata := {| meta_name := layer_name l; meta_version := layer_version l |}.
Definition config_folder (l : ConfigLayerEntry) : option str :=
  match layer_name l with
  | System file | User file => parent file
  | Project dot_codex_folder => Some dot_codex_folder
  | _ => None
  end.

(** * The order of the layers *)

(** [names.is_sorted()], by [partial_cmp]. *)
Fixpoint is_sorted (names : list ConfigLayerSource) : bool :=
  match names with
  | a :: rest => match rest with b :: _ => (precedence a <=? precedence b)%Z && is_sorted rest | [] => true end
  | [] => true
  end.
(** A project layer may follow another when the folder above the other's
    [.codex] is an ancestor of its own, and the two differ. *)
Definition follows (previous current : str) : outcome io_error unit :=
  match parent previous with
  | None => Err (lit "project layer has no parent directory")
  | Some parent =>
      if bool_decide (path_eq previous current) || negb (existsb (λ a, bool_decide (path_eq a parent)) (ancestors current))
      then Err (lit "project layers are not ordered from root to cwd")
      else Ok tt
  end.
Fixpoint verify_loop (index : nat) (layers : list ConfigLayerEntry) (user_layer_index : option nat)
    (previous_project : option str) : outcome io_error (option nat) :=
  match layers with
  | [] => Ok user_layer_index
  | layer :: layers' =>
      user_layer_index ← match layer_name layer with
                         | User _ =>
                             match user_layer_index with
                             | Some _ => Err (lit "multiple user config layers found")
                             | None => Ok (Some index)
                             end
                         | _ => Ok user_layer_index
                         end;
      previous_project ← match layer_name layer with
                         | Project current =>
                             _ ← match previous_project with Some previous => follows previous current | None => Ok tt end;
                             Ok (Some current)
                         | _ => Ok previous_project
                         end;
      verify_loop (S index) layers' user_layer_index previous_project
  end.
Definition verify_layer_ordering (layers : list ConfigLayerEntry) : outcome io_error (option nat) :=
  if negb (is_sorted (layer_name <$> layers)) then Err (lit "config layers are not in correct precedence order")
  else verify_loop 0 layers None None.

(** * The stack *)

Inductive ConfigLayerStackOrdering : Type := LowestPrecedenceFirst | HighestPrecedenceFirst.
Record ConfigLayerStack : Type := {
  layers : list ConfigLayerEntry;
  user_layer_index : option nat;
  requirements : ConfigRequirements;
  requirements_toml : ConfigRequirementsToml }.
Definition stack_new (ls : list ConfigLayerEntry) (r : ConfigRequirements) (t : ConfigRequirementsToml) : outcome io_error ConfigLayerStack :=
  index ← verify_layer_ordering ls;
  Ok {| layers := ls; user_layer_index := index; requirements := r; requirements_toml := t |}.
Definition get_user_layer (s : ConfigLayerStack) : option ConfigLayerEntry :=
  match user_layer_index s with Some index => layers s !! index | None => None end.
Definition with_user_config `{TomlDigest} {E} (s : ConfigLayerStack) (config_toml : str) (user_config : TomlValue)
    : outcome E ConfigLayerStack :=
  let user_layer := entry_new (User config_toml) user_config in
  let make ls index := {| layers := ls; user_layer_index := index; requirements := requirements s;
                          requirements_toml := requirements_toml s |} in
  match user_layer_index s with
  | Some index => if decide (index < length (layers s)) then Ok (make (<[index := user_layer]> (layers s)) (user_layer_index s)) else Panic
  | None =>
      match list_find (λ l, (precedence (layer_name user_layer) < precedence (layer_name l))%Z) (layers s) with
      | Some (index, _) =>
          ls ← vec_insert index user_layer (layers s); Ok (make ls (Some index))
      | None => let ls := layers s ++ [user_layer] in Ok (make ls (Some (length ls - 1)))
      end
  end.
(** Filtering and order of [get_layers], on the list of layers. *)
Definition enabled_layers (ls : list ConfigLayerEntry) : list ConfigLayerEntry := filter (λ l, is_disabled l = false) ls.
Definition get_layers (s : ConfigLayerStack) (ordering : ConfigLayerStackOrdering) (include_disabled : bool) : list ConfigLayerEntry :=
  let ls := filter (λ l, include_disabled || negb (is_disabled l) = true) (layers s) in
  match ordering with HighestPrecedenceFirst => reverse ls | LowestPrecedenceFirst => ls end.
Definition layers_high_to_low (s : ConfigLayerStack) : list ConfigLayerEntry := get_layers s HighestPrecedenceFirst false.
Definition effective_config (s : ConfigLayerStack) : TomlValue :=
  foldl (λ merged l, merge_toml_values merged (layer_config l)) empty_table (get_layers s LowestPrecedenceFirst false).
Definition origins (s : ConfigLayerStack) : gmap str ConfigLayerMetadata :=
  foldl (λ o l, record_origins (layer_config l) (metadata l) [] o) ∅ (get_layers s LowestPrecedenceFirst false).

(** * Lemmas: order *)

Definition project_folder (l : ConfigLayerEntry) : option str := match layer_name l with Project f => Some f | _ => None end.
Definition is_user (l : ConfigLayerEntry) : bool := match layer_name l with User _ => true | _ => false end.
Definition layer_le (a b : ConfigLayerEntry) : Prop := (precedence (layer_name a) ≤ precedence (layer_name b))%Z.
#[export] Instance layer_le_trans : Transitive layer_le.
Proof. intros a b c. unfold layer_le. lia. Qed.
(** Each folder may follow the one before. *)
Fixpoint nested (previous : option str) (folders : list str) : Prop :=
  match folders with
  | [] => True
  | f :: fs => match previous with Some p => follows p f = Ok tt | None => True end ∧ nested (Some f) fs
  end.
(** The index of the only user layer, if there is one. *)
Fixpoint user_index (index : nat) (ls : list ConfigLayerEntry) (found : option nat) : option (option nat) :=
  match ls with
  | [] => Some found
  | l :: ls' => if is_user l then match found with Some _ => None | None => user_index (S index) ls' (Some index) end
                else user_index (S index) ls' found
  end.
(** What the constructor of a stack checks. *)
Definition ordered (ls : list ConfigLayerEntry) (index : option nat) : Prop :=
  StronglySorted layer_le ls ∧ user_index 0 ls None = Some index ∧ nested None (omap project_folder ls).

Lemma is_sorted_spec ls : is_sorted (layer_name <$> ls) = true ↔ StronglySorted layer_le ls.
Proof.
  assert (H : is_sorted (layer_name <$> ls) = true ↔ Sorted layer_le ls).
  { induction ls as [|a [|b ls] IH]; [split; [constructor|done]|split; [by repeat constructor|done]|].
    cbn [fmap list_fmap is_sorted] in *. rewrite andb_true_iff, Z.leb_le, IH. split.
    - intros [Ha Hs]. constructor; [done|by constructor].
    - intros [Hs Ha%HdRel_inv]%Sorted_inv. done. }
  rewrite H. split; [apply Sorted_StronglySorted, _|apply StronglySorted_Sorted].
Qed.
Lemma verify_loop_Ok ls : ∀ i user prev u,
  verify_loop i ls user prev = Ok u ↔ user_index i ls user = Some u ∧ nested prev (omap project_folder ls).
Proof.
  induction ls as [|l ls IH]; intros i user prev u; cbn [verify_loop user_index omap list_omap].
  { split; [by intros [= ->]|by intros [[= ->] _]]. }
  unfold is_user, project_folder at 1.
  destruct (layer_name l) as [| |f|f| | |]; cbn [mbind outcome_bind nested]; try apply IH.
  - destruct user; cbn; [split; [done|by intros [? _]]|apply IH].
  - destruct prev as [p|]; cbn; [|rewrite IH; tauto].
    destruct (follows p f) as [[]| | |]; cbn; [rewrite IH; tauto|split; [done|by intros (_ & ? & _)]..].
Qed.
Lemma verify_ordered ls index : verify_layer_ordering ls = Ok index ↔ ordered ls index.
Proof.
  unfold verify_layer_ordering, ordered. rewrite <-is_sorted_spec. destruct (is_sorted _); cbn [negb].
  - rewrite verify_loop_Ok. tauto.
  - split; [done|by intros [? _]].
Qed.

Lemma user_index_app ls ls' : ∀ i found,
  user_index i (ls ++ ls') found
  = match user_index i ls found with Some f => user_index (i + length ls) ls' f | None => None end.
Proof.
  induction ls as [|l ls IH]; intros i found; cbn [app user_index length]; [by rewrite Nat.add_0_r|].
  rewrite Nat.add_succ_r. destruct (is_user l), found; try done; apply IH.
Qed.
Lemma user_index_none ls : ∀ i found, Forall (λ l, is_user l = false) ls → user_index i ls found = Some found.
Proof. induction ls as [|l ls IH]; intros i found; [done|]. intros [Hl Hs]%Forall_cons. cbn. rewrite Hl. by apply IH. Qed.
Lemma user_index_None ls : ∀ i, user_index i ls None = Some None ↔ Forall (λ l, is_user l = false) ls.
Proof.
  assert (Hsome : ∀ ls i k u, user_index i ls (Some k) = Some u → u = Some k).
  { clear. induction ls as [|l ls IH]; intros i k u; cbn; [by intros [= <-]|]. destruct (is_user l); [done|apply IH]. }
  induction ls as [|l ls IH]; intros i; cbn; [by split; [constructor|]|]. rewrite Forall_cons.
  destruct (is_user l) eqn:E; [|rewrite IH; tauto]. split; [by intros H%Hsome|by intros [? _]].
Qed.
(** The only user layer is where the index says. *)
Lemma user_index_Some ls : ∀ i k, user_index i ls None = Some (Some k) →
  ∃ pre l post, ls = pre ++ l :: post ∧ k = i + length pre ∧ is_user l = true
    ∧ Forall (λ l, is_user l = false) pre ∧ Forall (λ l, is_user l = false) post.
Proof.
  assert (Hsome : ∀ ls i k u, user_index i ls (Some k) = Some u → u = Some k ∧ Forall (λ l, is_user l = false) ls).
  { clear. induction ls as [|l ls IH]; intros i k u; cbn; [by intros [= <-]; split; [|constructor]|].
    destruct (is_user l) eqn:E; [done|]. intros [-> H]%IH. split; [done|by constructor]. }
  induction ls as [|l ls IH]; intros i k; cbn; [done|]. destruct (is_user l) eqn:E.
  - intros [[= ->] H]%Hsome. exists [], l, ls. cbn. rewrite Nat.add_0_r. by split_and!.
  - intros (pre & x & post & -> & -> & H1 & H2 & H3)%IH. exists (l :: pre), x, post. split_and!; try done; [cbn; lia|by constructor].
Qed.
Lemma omap_project_insert pre l post : project_folder l = None →
  omap project_folder (pre ++ l :: post) = omap project_folder (pre ++ post).
Proof. intros H. rewrite !omap_app. cbn. by rewrite H. Qed.
Lemma is_user_folder l : is_user l = true → project_folder l = None ∧ precedence (layer_name l) = 20%Z.
Proof. unfold is_user, project_folder. by destruct (layer_name l). Qed.
Lemma sorted_replace pre a b post :
  precedence (layer_name a) = precedence (layer_name b) →
  StronglySorted layer_le (pre ++ a :: post) → StronglySorted layer_le (pre ++ b :: post).
Proof.
  intros E. rewrite !StronglySorted_app. intros (H1 & H2 & H3). split_and!; [|done|].
  - intros x y Hx Hy. apply elem_of_cons in Hy as [->|Hy]; [|apply H1; [done|by right]].
    unfold layer_le. rewrite <-E. apply (H1 x a); [done|by left].
  - apply StronglySorted_inv in H3 as [Hp Ha]. constructor; [done|].
    apply (Forall_impl _ _ _ Ha). unfold layer_le. intros y. by rewrite E.
Qed.
Lemma sorted_insert pre l post :
  StronglySorted layer_le (pre ++ post) → Forall (λ x, layer_le x l) pre → Forall (layer_le l) post →
  StronglySorted layer_le (pre ++ l :: post).
Proof.
  rewrite !StronglySorted_app. intros (H1 & H2 & H3) Hpre Hpost. split_and!; [|done|by constructor].
  rewrite Forall_forall in Hpre. intros x y Hx [->|Hy]%elem_of_cons; auto.
Qed.

Section stack.
Context {TD : TomlDigest}.
Definition stack_ordered (s : ConfigLayerStack) : Prop := ordered (layers s) (user_layer_index s).

Lemma ordered_insert_user pre post file config index :
  ordered (pre ++ post) None → Forall (λ l, (precedence (layer_name l) ≤ 20)%Z) pre →
  Forall (λ l, (20 ≤ precedence (layer_name l))%Z) post → index = length pre →
  ordered (pre ++ entry_new (User file) config :: post) (Some index).
Proof.
  intros (Hs & Hu & Hn) Hpre Hpost ->. apply user_index_None in Hu. apply Forall_app in Hu as [Hu1 Hu2]. split_and!.
  - apply sorted_insert; [done|exact Hpre|exact Hpost].
  - rewrite user_index_app, user_index_none by done. cbn. by apply user_index_none.
  - by rewrite omap_project_insert.
Qed.
Lemma ordered_replace_user pre l post file config index :
  ordered (pre ++ l :: post) (Some index) → is_user l = true →
  ordered (pre ++ entry_new (User file) config :: post) (Some index).
Proof.
  intros (Hs & Hu & Hn) Hl. destruct (is_user_folder l Hl) as [Hf Hp]. split_and!.
  - by apply (sorted_replace pre l).
  - rewrite user_index_app in Hu |- *. destruct (user_index 0 pre None) as [u|]; [|done]. cbn in *. by rewrite Hl in Hu.
  - rewrite omap_project_insert in Hn by done. by rewrite omap_project_insert.
Qed.
(** Where the user layer is found when there is none. *)
Lemma no_user_split ls :
  StronglySorted layer_le ls →
  match list_find (λ l, (20 < precedence (layer_name l))%Z) ls with
  | Some (i, _) => i < length ls ∧ Forall (λ l, (precedence (layer_name l) ≤ 20)%Z) (take i ls)
                   ∧ Forall (λ l, (20 ≤ precedence (layer_name l))%Z) (drop i ls)
  | None => Forall (λ l, (precedence (layer_name l) ≤ 20)%Z) ls
  end.
Proof.
  intros Hs. destruct (list_find _ ls) as [[i l]|] eqn:E.
  - apply list_find_Some in E as (Hl & Hp & Hb). split; [by eapply lookup_lt_Some|]. split.
    + apply Forall_lookup. intros j x Hx. apply lookup_take_Some in Hx as [Hx Hj]. specialize (Hb j x Hx Hj). lia.
    + apply Forall_lookup. intros j x Hx. rewrite lookup_drop in Hx. destruct j as [|j]; [rewrite Nat.add_0_r in Hx; simplify_eq; lia|].
      rewrite <-(take_drop_middle ls i l Hl), StronglySorted_app in Hs. destruct Hs as (_ & _ & [_ Hs]%StronglySorted_inv).
      rewrite Forall_forall in Hs. assert (Hin : x ∈ drop (S i) ls).
      { apply list_elem_of_lookup. exists j. rewrite lookup_drop. rewrite <-Hx. f_equal. lia. }
      specialize (Hs x Hin). unfold layer_le in Hs. lia.
  - apply list_find_None in E. apply (Forall_impl _ _ _ E). intros x. lia.
Qed.

Lemma effective_foldl s :
  effective_config s = foldl merge_toml_values empty_table (layer_config <$> get_layers s LowestPrecedenceFirst false).
Proof. unfold effective_config. generalize empty_table. induction (get_layers s _ false) as [|l ls IH]; intros m; [done|apply IH]. Qed.
Lemma enabled_get_layers s : get_layers s LowestPrecedenceFirst false = enabled_layers (layers s).
Proof. unfold get_layers, enabled_layers. apply list_filter_iff. intros l. by destruct (is_disabled l). Qed.
Definition layers_wf (s : ConfigLayerStack) : Prop := Forall (λ l, toml_wf (layer_config l)) (layers s).
(** The last enabled layer that touches a path has this value there. *)
Definition decided_by (s : ConfigLayerStack) (p : list str) (v : TomlValue) (l : ConfigLayerEntry) : Prop :=
  ∃ pre post, enabled_layers (layers s) = pre ++ l :: post ∧ toml_get p (layer_config l) = Some v
    ∧ Forall (λ x, untouched p (layer_config x)) post.
Lemma Forall_enabled (P : ConfigLayerEntry → Prop) ls : Forall P ls → Forall P (enabled_layers ls).
Proof. rewrite !Forall_forall. intros H l [_ Hl]%list_elem_of_filter. auto. Qed.
Lemma enabled_wf s : layers_wf s → Forall (λ l, toml_wf (layer_config l)) (enabled_layers (layers s)).
Proof. apply Forall_enabled. Qed.
Lemma fmap_split {A B} (f : A → B) l pre y post : f <$> l = pre ++ y :: post →
  ∃ pre' x post', l = pre' ++ x :: post' ∧ pre = f <$> pre' ∧ y = f x ∧ post = f <$> post'.
Proof.
  intros E. apply fmap_app_inv in E as (pre' & rest & -> & E & ->). destruct rest as [|x post']; [done|].
  injection E as -> ->. eauto 10.
Qed.
Lemma record_all_frame ls p : ∀ o,
  Forall (λ l, toml_wf (layer_config l)) ls → Forall (λ l, plain_keys (layer_config l)) ls →
  Forall (λ l, untouched p (layer_config l)) ls → p ≠ [] → Forall (λ k, 46%N ∉ k) p →
  foldl (λ o l, record_origins (layer_config l) (metadata l) [] o) o ls !! join (lit ".") p = o !! join (lit ".") p.
Proof.
  induction ls as [|l ls IH]; intros o Hw Hk Hu Hp Hd; [done|].
  apply Forall_cons in Hw as [Hw Hws], Hk as [Hk Hks], Hu as [Hu Hus]. cbn [foldl]. rewrite IH by done. by apply untouched_origin.
Qed.

(** * Properties *)

(** Injecting a user layer into a stack that passed the checks gives a stack that
    passes them: it never panics, the new layer is the user layer, and the other
    layers and their order are kept. *)
Theorem with_user_config_ordered {E} (s : ConfigLayerStack) (file : str) (config : TomlValue) :
  stack_ordered s →
  ∃ s', with_user_config (E := E) s file config = Ok s' ∧ stack_ordered s'
    ∧ get_user_layer s' = Some (entry_new (User file) config)
    ∧ filter (λ l, is_user l = false) (layers s') = filter (λ l, is_user l = false) (layers s)
    ∧ requirements s' = requirements s.
Proof.
  intros Ho. unfold with_user_config, stack_ordered in *. set (new := entry_new (User file) config).
  assert (Hf : ∀ pre post : list ConfigLayerEntry,
    filter (λ l, is_user l = false) (pre ++ new :: post) = filter (λ l, is_user l = false) (pre ++ post)).
  { intros pre post. by rewrite !filter_app, filter_cons_False. }
  destruct (user_layer_index s) as [index|].
  - destruct Ho as (Hs & Hu & Hn). pose proof Hu as (pre & l & post & El & Ei & Hl & _)%user_index_Some. cbn in Ei. subst index.
    rewrite decide_True by (rewrite El, length_app; cbn; lia). eexists. split; [done|]. cbn.
    rewrite El, insert_app_r_alt, Nat.sub_diag by lia. cbn [insert list_insert].
    split_and!; [|by rewrite list_lookup_middle|by rewrite Hf, !filter_app, (filter_cons_False _ l) by congruence|done].
    apply (ordered_replace_user _ l); [|done]. by rewrite <-El.
  - pose proof (no_user_split (layers s) (proj1 Ho)) as Hsp. change (precedence (layer_name new)) with 20%Z.
    destruct (list_find _ (layers s)) as [[i l]|].
    + destruct Hsp as (Hi & Hpre & Hpost). unfold vec_insert.
      rewrite (proj2 (Nat.leb_le i _)) by lia. eexists. split; [done|]. cbn.
      assert (Hlen : length (take i (layers s)) = i) by (rewrite length_take; lia).
      split_and!; [|by rewrite list_lookup_middle|by rewrite Hf, take_drop|done].
      apply ordered_insert_user; [by rewrite take_drop|done..].
    + eexists. split; [done|]. cbn. rewrite length_app, Nat.add_sub. cbn [length].
      split_and!; [|by rewrite list_lookup_middle|by rewrite Hf, app_nil_r|done].
      apply ordered_insert_user; [by rewrite app_nil_r|done|done|done].
Qed.

(** C29. A setting of the effective configuration is the one of the last enabled layer
    that says anything about its path. *)
Theorem effective_setting_iff (s : ConfigLayerStack) (p : list str) (v : TomlValue) :
  layers_wf s → is_table v = false →
  toml_get p (effective_config s) = Some v ↔ ∃ l, decided_by s p v l.
Proof.
  intros Hw Hv. rewrite effective_foldl, enabled_get_layers. rewrite merged_leaf_iff; [|apply Forall_fmap; by apply enabled_wf|done].
  split.
  - intros (pre & w & post & (pre' & l & post' & E & -> & -> & ->)%fmap_split & Hg & Hp).
    exists l, pre', post'. split_and!; [done..|]. exact (proj1 (Forall_fmap _ _ _) Hp).
  - intros (l & pre & post & E & Hg & Hp). exists (layer_config <$> pre), (layer_config l), (layer_config <$> post).
    split_and!; [by rewrite E, fmap_app|done|exact (proj2 (Forall_fmap _ _ _) Hp)].
Qed.

(** When no key has a dot, the origin the stack reports for a setting of the
    effective configuration is the layer that decides it. *)
Theorem origin_of_effective_setting (s : ConfigLayerStack) (p : list str) (v : TomlValue) :
  layers_wf s → Forall (λ l, plain_keys (layer_config l)) (layers s) → is_scalar v = true → p ≠ [] →
  toml_get p (effective_config s) = Some v →
  ∃ l, decided_by s p v l ∧ origins s !! join (lit ".") p = Some (metadata l).
Proof.
  intros Hw Hk Hv Hp. assert (Ht : is_table v = false) by by destruct v.
  rewrite (effective_setting_iff s p v Hw Ht). intros (l & pre & post & E & Hg & Hu). exists l. split; [by exists pre, post|].
  pose proof (enabled_wf s Hw) as Hew. assert (Hek : Forall (λ l, plain_keys (layer_config l)) (enabled_layers (layers s))) by by apply Forall_enabled.
  unfold origins. rewrite enabled_get_layers, E in *. apply Forall_app in Hew as [_ [_ Hew]%Forall_cons], Hek as [_ [Hkl Hek]%Forall_cons].
  assert (Hpl : p ∈ leaf_paths (layer_config l)) by by eapply scalar_is_leaf.
  rewrite foldl_app. cbn [foldl]. rewrite record_all_frame; [|done..|by eapply leaf_paths_plain].
  rewrite record_origins_lookup, decide_True; [done|].
  apply list_elem_of_fmap_2, list_elem_of_filter. done.
Qed.

(** The origins also keep paths that the effective configuration does not have:
    what a lower layer has below a table that a higher layer replaces. *)
Theorem origins_keep_stale_paths :
  ∃ (s : ConfigLayerStack) (key : str) (m : ConfigLayerMetadata),
    layers_wf s ∧ origins s !! key = Some m ∧ toml_get (split_char 46 key) (effective_config s) = None.
Proof.
  exists {| layers := [entry_new (User (lit "/home/u/.codex/config.toml")) (TomlTable [(lit "tools", TomlTable [(lit "web", TomlBoolean true)])]);
                       entry_new SessionFlags (TomlTable [(lit "tools", TomlBoolean false)])];
            user_layer_index := Some 0; requirements := default_requirements; requirements_toml := no_requirements |},
    (lit "tools.web").
  eexists. split; [|split; reflexivity].
  repeat (constructor || (apply toml_wf_table; split)).
Qed.
End stack.

(** * Witnesses *)

(** A digest that is the number of settings of a table. *)
Definition count_digest : TomlDigest := {|
  toml_to_json v := Some (JsonNumber (show_nat (length (leaf_paths v))));
  json_to_vec j := match j with JsonNumber text => Some text | _ => None end;
  sha256 bytes := (λ n, (n `mod` 256)%N) <$> bytes |}.
#[local] Existing Instance count_digest.
Definition system_config : TomlValue :=
  TomlTable [(lit "model", TomlString (lit "gpt")); (lit "tools", TomlTable [(lit "web", TomlBoolean false)])].
Definition project_config : TomlValue :=
  TomlTable [(lit "tools", TomlTable [(lit "view", TomlBoolean true); (lit "web", TomlBoolean true)])].
Definition example_layers : list ConfigLayerEntry :=
  [entry_new (System (lit "/etc/codex/config.toml")) system_config;
   entry_new (Project (lit "/repo/.codex")) project_config;
   new_disabled (Project (lit "/repo/sub/.codex")) (TomlTable [(lit "model", TomlString (lit "evil"))]) (lit "untrusted")].
Definition layers_example : ConfigLayerStack :=
  {| layers := example_layers; user_layer_index := None; requirements := default_requirements; requirements_toml := no_requirements |}.
Example stack_new_ex :
  stack_new example_layers default_requirements no_requirements = Ok layers_example
  ∧ stack_new (reverse example_layers) default_requirements no_requirements
    = Err (lit "config layers are not in correct precedence order").
Proof. split; vm_compute; reflexivity. Qed.
Example effective_ex :
  toml_get [lit "model"] (effective_config layers_example) = Some (TomlString (lit "gpt"))
  ∧ toml_get [lit "tools"; lit "web"] (effective_config layers_example) = Some (TomlBoolean true).
Proof. split; vm_compute; reflexivity. Qed.
Lemma layers_example_ordered : stack_ordered layers_example.
Proof. apply verify_ordered. vm_compute. reflexivity. Qed.
Lemma layers_example_wf : layers_wf layers_example.
Proof. repeat (constructor || (apply toml_wf_table; split)). Qed.

Lemma with_user_config_ordered_witness :
  ∃ s', with_user_config (E := io_error) layers_example (lit "/home/u/.codex/config.toml") empty_table = Ok s' ∧ stack_ordered s'.
Proof.
  destruct (with_user_config_ordered (E := io_error) layers_example (lit "/home/u/.codex/config.toml") empty_table layers_example_ordered)
    as (s' & H1 & H2 & _). by exists s'.
Defined.
Lemma effective_setting_iff_witness :
  ∃ l, decided_by layers_example [lit "tools"; lit "web"] (TomlBoolean true) l.
Proof.
  apply (effective_setting_iff layers_example [lit "tools"; lit "web"] (TomlBoolean true) layers_example_wf eq_refl).
  vm_compute. reflexivity.
Defined.
Lemma origin_of_effective_setting_witness :
  ∃ l, decided_by layers_example [lit "tools"; lit "web"] (TomlBoolean true) l
    ∧ origins layers_example !! lit "tools.web" = Some (metadata l).
Proof.
  apply (origin_of_effective_setting layers_example [lit "tools"; lit "web"] (TomlBoolean true) layers_example_wf); [|done..|].
  - repeat (constructor || (apply plain_keys_table; split) || (apply contains_char_false; reflexivity)).
  - vm_compute. reflexivity.
Defined.
