(* ===== verification/ConfigLoader.v ===== *)
(** Loading the layers of the configuration:
    [codex-rs/core/src/config_loader/mod.rs] and [layer_io.rs] on Unix,
    [config/src/project_root_markers.rs], and the root of a repository for
    questions of trust ([git-utils/src/info.rs]). The file system is an
    interface; so are TOML, its deserialisation into the typed configuration,
    and the texts of diagnostics. *)
From stdpp Require Import gmap sorting.
From S2P Require Import Prelude RustStr BTreeMap RustPath FileSystem AbsolutePath NormalPath TomlValue Fingerprint Protocol Requirements ConfigLayers.

(** * What the loader reads *)

Inductive read_result : Type := ReadOk (contents : str) | ReadNotFound | ReadFailed (e : str).
Class ConfigFs : Type := {
  read_to_string : str → read_result;
  (** [metadata(p)] succeeds; it says that [p] is a directory. *)
  path_exists : str → bool;
  path_is_dir : str → bool;
  (** [dunce::canonicalize] and [fs::canonicalize]. *)
  canonicalize : str → option str;
  current_app_is_codexpilot : bool;
  find_upstream_codex_home : option str }.

Inductive TrustLevel : Type := Trusted | Untrusted.
#[export] Instance TrustLevel_eq_dec : EqDecision TrustLevel.
Proof. solve_decision. Defined.
Inductive SandboxMode : Type := SandboxReadOnly | SandboxWorkspaceWrite | SandboxDangerFullAccess.
Record LegacyManagedConfigToml : Type := {
  legacy_approval_policy : option AskForApproval; legacy_sandbox_mode : option SandboxMode }.
(** TOML and serde. *)
Class ConfigParser : Type := {
  toml_from_str : str → outcome str TomlValue;
  requirements_from_str : str → outcome str ConfigRequirementsToml;
  (** [try_into::<LegacyManagedConfigToml>()]. *)
  legacy_from_toml : TomlValue → outcome str LegacyManagedConfigToml;
  (** The [projects] table, deserialised with a base for relative paths. *)
  projects_from_toml : str → TomlValue → outcome str (option (gmap str (option TrustLevel)));
  (** Into [ConfigToml] with a base for relative paths, and back. *)
  resolve_config : str → TomlValue → option (outcome str TomlValue);
  (** The text of an error of a file, and of the first layer that has one. *)
  config_error_text : str → str → str → str;
  first_layer_config_error : list ConfigLayerEntry → option str }.

(** * Markers of the project root *)

Definition DEFAULT_PROJECT_ROOT_MARKERS : list str := [lit ".git"].
Definition markers_error : io_error := lit "project_root_markers must be an array of strings".
Fixpoint marker_strings (entries : list TomlValue) : outcome io_error (list str) :=
  match entries with
  | [] => Ok []
  | TomlString m :: entries' => ms ← marker_strings entries'; Ok (m :: ms)
  | _ => Err markers_error
  end.
Definition project_root_markers_from_config (config : TomlValue) : outcome io_error (option (list str)) :=
  match config with
  | TomlTable table =>
      match lookup_entry (lit "project_root_markers") table with
      | None => Ok None
      | Some (TomlArray entries) => ms ← marker_strings entries; Ok (Some ms)
      | Some _ => Err markers_error
      end
  | _ => Ok None
  end.
Definition default_project_root_markers : list str := DEFAULT_PROJECT_ROOT_MARKERS.

(** * Relative paths *)

(** [copy_shape_from_original]. *)
Fixpoint copy_shape_from_original (original resolved : TomlValue) {struct original} : TomlValue :=
  match original, resolved with
  | TomlTable original_table, TomlTable resolved_table =>
      TomlTable
        ((fix go (t acc : list (str * TomlValue)) : list (str * TomlValue) :=
            match t with
            | [] => acc
            | (key, value) :: t' =>
                go t' (btree_insert key
                         (copy_shape_from_original value (default value (lookup_entry key resolved_table))) acc)
            end) original_table [])
  | TomlArray original_array, TomlArray resolved_array =>
      TomlArray
        ((fix go (index : nat) (l : list TomlValue) : list TomlValue :=
            match l with
            | [] => []
            | value :: l' =>
                copy_shape_from_original value (default value (resolved_array !! index)) :: go (S index) l'
            end) 0 original_array)
  | _, _ => resolved
  end.

Section loader.
Context {PE : PathEnv} {FS : ConfigFs} {CP : ConfigParser} {TD : TomlDigest}.

Definition resolve_relative_paths_in_config_toml (value : TomlValue) (base_dir : str) : outcome io_error TomlValue :=
  match resolve_config base_dir value with
  | None => Ok value
  | Some resolved =>
      resolved ← map_err (λ e, lit "Failed to serialize resolved config: " ++ e) resolved;
      Ok (copy_shape_from_original value resolved)
  end.

(** * Trust *)

(** [find_ancestor_git_entry] and [resolve_root_git_project_for_trust]. *)
Definition dot_git_of (dir : str) : str := path_join dir (lit ".git").
Definition find_ancestor_git_entry (base_dir : str) : option (str * str) :=
  (λ dir, (dir, dot_git_of dir)) <$> List.find (λ dir, path_exists (dot_git_of dir)) (ancestors base_dir).
Definition canonicalize_or_raw (path : str) : str := default path (canonicalize path).
Definition resolve_root_git_project_for_trust (cwd : str) : option str :=
  base ← (if path_is_dir cwd then Some cwd else parent cwd);
  '(repo_root, dot_git) ← find_ancestor_git_entry base;
  if path_is_dir dot_git then Some (canonicalize_or_raw repo_root)
  else
    git_dir_s ← match read_to_string dot_git with ReadOk s => Some s | _ => None end;
    rest ← strip_prefix (lit "gitdir:") (trim git_dir_s);
    let git_dir_rel := trim rest in
    if bool_decide (git_dir_rel = []) then None
    else
      git_dir ← match resolve_path_against_base git_dir_rel repo_root with Ok p => Some p | _ => None end;
      worktrees_dir ← parent (canonicalize_or_raw git_dir);
      if bool_decide (file_name worktrees_dir = Some (lit "worktrees")) then
        common_dir ← parent worktrees_dir;
        main_repo_root ← parent common_dir;
        Some (canonicalize_or_raw main_repo_root)
      else None.

Record ProjectTrustContext : Type := {
  project_root : str;
  project_root_key : str;
  repo_root_key : option str;
  projects_trust : gmap str TrustLevel;
  user_config_file : str }.
Record ProjectTrustDecision : Type := { trust_level : option TrustLevel; trust_key : str }.
Definition is_trusted (d : ProjectTrustDecision) : bool := bool_decide (trust_level d = Some Trusted).
Definition decision_for_dir (c : ProjectTrustContext) (dir : str) : ProjectTrustDecision :=
  match projects_trust c !! dir with
  | Some level => {| trust_level := Some level; trust_key := dir |}
  | None =>
      match projects_trust c !! project_root_key c with
      | Some level => {| trust_level := Some level; trust_key := project_root_key c |}
      | None =>
          match repo_root_key c with
          | Some key =>
              {| trust_level := projects_trust c !! key; trust_key := key |}
          | None => {| trust_level := None; trust_key := project_root_key c |}
          end
      end
  end.
Definition disabled_reason_for_dir (c : ProjectTrustContext) (dir : str) : option str :=
  let decision := decision_for_dir c dir in
  if is_trusted decision then None
  else match trust_level decision with
       | Some Untrusted =>
           Some (trust_key decision ++ lit " is marked as untrusted in " ++ user_config_file c
                 ++ lit ". To load config.toml, mark it trusted.")
       | _ => Some (lit "To load config.toml, add " ++ trust_key decision ++ lit " as a trusted project in "
                    ++ user_config_file c ++ lit ".")
       end.
Definition project_layer_entry (c : ProjectTrustContext) (dot_codex_folder layer_dir : str) (config : TomlValue)
    (config_toml_exists : bool) : ConfigLayerEntry :=
  let source := Project dot_codex_folder in
  match (if config_toml_exists then disabled_reason_for_dir c layer_dir else None) with
  | Some reason => new_disabled source config reason
  | None => entry_new source config
  end.

Fixpoint find_root_in (dirs markers : list str) (cwd : str) : outcome io_error str :=
  match dirs with
  | [] => Ok cwd
  | ancestor :: dirs' =>
      if existsb (λ marker, path_exists (path_join ancestor marker)) markers then from_absolute_path ancestor
      else find_root_in dirs' markers cwd
  end.
Definition find_project_root (cwd : str) (project_root_markers : list str) : outcome io_error str :=
  if bool_decide (project_root_markers = []) then Ok cwd else find_root_in (ancestors cwd) project_root_markers cwd.
Definition project_trust_context (merged_config : TomlValue) (cwd : str) (project_root_markers : list str)
    (config_base_dir user_config_file : str) : outcome io_error ProjectTrustContext :=
  projects ← projects_from_toml config_base_dir merged_config;
  root ← find_project_root cwd project_root_markers;
  Ok {| project_root := root; project_root_key := root; repo_root_key := resolve_root_git_project_for_trust cwd;
        projects_trust := omap id (default ∅ projects); user_config_file := user_config_file |}.

(** * Project layers *)

(** The ancestors up to the root of the project, which is the last one taken. *)
Fixpoint take_to_root (dirs : list str) (root : str) : list str :=
  match dirs with
  | [] => []
  | a :: dirs' => a :: (if bool_decide (path_eq a root) then [] else take_to_root dirs' root)
  end.
Definition CONFIG_TOML_FILE : str := lit "config.toml".
Definition upstream_home : option str :=
  if current_app_is_codexpilot then (λ p, default p (canonicalize p)) <$> find_upstream_codex_home else None.
(** A turn of the loop of [load_project_layers]: the layer of one folder, if it
    has one. *)
Definition load_project_layer (c : ProjectTrustContext) (codex_home_abs codex_home_normalized : str)
    (upstream_codex_home_normalized : option str) (dir : str) : outcome io_error (option ConfigLayerEntry) :=
  let dot_codex := path_join dir (lit ".codex") in
  if negb (path_is_dir dot_codex) then Ok None
  else
    layer_dir ← from_absolute_path dir;
    let decision := decision_for_dir c layer_dir in
    dot_codex_abs ← from_absolute_path dot_codex;
    let dot_codex_normalized := default dot_codex_abs (canonicalize dot_codex_abs) in
    if bool_decide (path_eq dot_codex_abs codex_home_abs) || bool_decide (path_eq dot_codex_normalized codex_home_normalized) then Ok None
    else if match upstream_codex_home_normalized with Some u => bool_decide (path_eq dot_codex_normalized u) | None => false end then Ok None
    else
      config_file ← abs_join dot_codex_abs CONFIG_TOML_FILE;
      match read_to_string config_file with
      | ReadOk contents =>
          match toml_from_str contents with
          | Ok config =>
              config ← resolve_relative_paths_in_config_toml config dot_codex_abs;
              Ok (Some (project_layer_entry c dot_codex_abs layer_dir config true))
          | Err e =>
              if is_trusted decision then Err (lit "Error parsing project config file " ++ config_file ++ lit ": " ++ e)
              else Ok (Some (project_layer_entry c dot_codex_abs layer_dir empty_table true))
          | Panic => Panic
          | OutOfFuel => OutOfFuel
          end
      | ReadNotFound => Ok (Some (project_layer_entry c dot_codex_abs layer_dir empty_table false))
      | ReadFailed e => Err (lit "Failed to read project config file " ++ config_file ++ lit ": " ++ e)
      end.
Fixpoint load_project_dirs (c : ProjectTrustContext) (codex_home_abs codex_home_normalized : str)
    (upstream : option str) (dirs : list str) : outcome io_error (list ConfigLayerEntry) :=
  match dirs with
  | [] => Ok []
  | dir :: dirs' =>
      layer ← load_project_layer c codex_home_abs codex_home_normalized upstream dir;
      layers ← load_project_dirs c codex_home_abs codex_home_normalized upstream dirs';
      Ok (match layer with Some l => l :: layers | None => layers end)
  end.
Definition load_project_layers (cwd project_root : str) (c : ProjectTrustContext) (codex_home : str)
    : outcome io_error (list ConfigLayerEntry) :=
  codex_home_abs ← from_absolute_path codex_home;
  let codex_home_normalized := default codex_home_abs (canonicalize codex_home_abs) in
  load_project_dirs c codex_home_abs codex_home_normalized upstream_home (reverse (take_to_root (ancestors cwd) project_root)).

(** * The other layers *)

Definition load_config_toml_for_required_layer (toml_file : str) (create_entry : TomlValue → ConfigLayerEntry)
    : outcome io_error ConfigLayerEntry :=
  toml_value ← match read_to_string toml_file with
               | ReadOk contents =>
                   config ← map_err (config_error_text toml_file contents) (toml_from_str contents);
                   match parent toml_file with
                   | None => Err (lit "Config file " ++ toml_file ++ lit " has no parent directory")
                   | Some config_parent => resolve_relative_paths_in_config_toml config config_parent
                   end
               | ReadNotFound => Ok empty_table
               | ReadFailed e => Err (lit "Failed to read config file " ++ toml_file ++ lit ": " ++ e)
               end;
  Ok (create_entry toml_value).

(** [read_config_from_path] and [load_config_layers_internal]; managed
    preferences exist on macOS only. *)
Record ManagedConfigFromFile : Type := { managed_config : TomlValue; managed_file : str }.
Record ManagedConfigFromMdm : Type := { mdm_config : TomlValue; mdm_raw_toml : str }.
Record LoadedConfigLayers : Type := {
  from_file : option ManagedConfigFromFile; from_mdm : option ManagedConfigFromMdm }.
Definition read_config_from_path (path : str) : outcome io_error (option TomlValue) :=
  match read_to_string path with
  | ReadOk contents => v ← map_err (config_error_text path contents) (toml_from_str contents); Ok (Some v)
  | ReadNotFound => Ok None
  | ReadFailed e => Err e
  end.
Definition CODEX_MANAGED_CONFIG_SYSTEM_PATH : str := lit "/etc/codex/managed_config.toml".
Definition load_config_layers_internal (managed_config_path : option str) : outcome io_error LoadedConfigLayers :=
  path ← from_absolute_path (default CODEX_MANAGED_CONFIG_SYSTEM_PATH managed_config_path);
  config ← read_config_from_path path;
  Ok {| from_file := (λ v, {| managed_config := v; managed_file := path |}) <$> config; from_mdm := None |}.

(** * Requirements *)

Definition load_requirements_toml (file : str) (r : ConfigRequirementsWithSources) : outcome io_error ConfigRequirementsWithSources :=
  file ← from_absolute_path file;
  match read_to_string file with
  | ReadOk contents =>
      t ← map_err (λ e, lit "Error parsing requirements file " ++ file ++ lit ": " ++ e) (requirements_from_str contents);
      Ok (merge_unset_fields (SystemRequirementsToml file) t r)
  | ReadNotFound => Ok r
  | ReadFailed e => Err (lit "Failed to read requirements file " ++ file ++ lit ": " ++ e)
  end.
(** [From<LegacyManagedConfigToml>]. *)
Definition mode_requirement (m : SandboxMode) : SandboxModeRequirement :=
  match m with SandboxReadOnly => ReqReadOnly | SandboxWorkspaceWrite => ReqWorkspaceWrite
             | SandboxDangerFullAccess => ReqDangerFullAccess end.
Definition requirements_of_legacy (legacy : LegacyManagedConfigToml) : ConfigRequirementsToml :=
  {| allowed_approval_policies := (λ p, [p]) <$> legacy_approval_policy legacy;
     allowed_sandbox_modes :=
       (λ m, let required_mode := mode_requirement m in
             ReqReadOnly :: (if bool_decide (required_mode = ReqReadOnly) then [] else [required_mode])) <$> legacy_sandbox_mode legacy;
     allowed_web_search_modes := None; feature_requirements := None; mcp_servers := None; apps := None;
     required_rules := None; enforce_residency := None; required_network := None; guardian_developer_instructions := None |}.
Definition load_legacy (s : RequirementSource) (config : TomlValue) (r : ConfigRequirementsWithSources)
    : outcome io_error ConfigRequirementsWithSources :=
  legacy ← map_err (λ e, lit "Failed to parse config requirements as TOML: " ++ e) (legacy_from_toml config);
  Ok (merge_unset_fields s (requirements_of_legacy legacy) r).
Definition load_requirements_from_legacy_scheme (loaded : LoadedConfigLayers) (r : ConfigRequirementsWithSources)
    : outcome io_error ConfigRequirementsWithSources :=
  r ← match from_mdm loaded with
      | Some c => load_legacy LegacyManagedConfigMdm (mdm_config c) r
      | None => Ok r
      end;
  match from_file loaded with
  | Some c => load_legacy (LegacyManagedConfigFile (managed_file c)) (managed_config c) r
  | None => Ok r
  end.

(** * The whole stack *)

Definition SYSTEM_CONFIG_TOML_FILE_UNIX : str := lit "/etc/codex/config.toml".
Definition SYSTEM_REQUIREMENTS_TOML_FILE_UNIX : str := lit "/etc/codex/requirements.toml".
(** What [load_config_layers_state] is called with; the cloud's requirements
    are the result of its loader. *)
Record load_request : Type := {
  codex_home : str;
  cwd : option str;
  cli_overrides : list (str * TomlValue);
  managed_config_path : option str;
  cloud_requirements : outcome io_error (option ConfigRequirementsToml) }.

Definition gather_requirements (q : load_request) : outcome io_error (ConfigRequirementsWithSources * LoadedConfigLayers) :=
  cloud ← cloud_requirements q;
  let r := match cloud with
           | Some t => merge_unset_fields CloudRequirements t no_requirements
           | None => no_requirements
           end in
  system_file ← from_absolute_path SYSTEM_REQUIREMENTS_TOML_FILE_UNIX;
  r ← load_requirements_toml system_file r;
  loaded ← load_config_layers_internal (managed_config_path q);
  r ← load_requirements_from_legacy_scheme loaded r;
  Ok (r, loaded).
Definition cli_overrides_layer (q : load_request) : outcome io_error (option TomlValue) :=
  if bool_decide (cli_overrides q = []) then Ok None
  else
    layer ← resolve_relative_paths_in_config_toml (build_cli_overrides_layer (cli_overrides q)) (default (codex_home q) (cwd q));
    Ok (Some layer).
(** An error is replaced by the first one found in the files of the layers. *)
Definition or_layer_error {A} (layers : list ConfigLayerEntry) (m : outcome io_error A) : outcome io_error A :=
  map_err (λ e, default e (first_layer_config_error layers)) m.
(** What is merged to find the root of the project and whom it is trusted by. *)
Definition merged_so_far (layers : list ConfigLayerEntry) (cli : option TomlValue) : TomlValue :=
  let merged := foldl (λ m l, merge_toml_values m (layer_config l)) empty_table layers in
  match cli with Some c => merge_toml_values merged c | None => merged end.
Definition gather_project_layers (q : load_request) (layers : list ConfigLayerEntry) (cli : option TomlValue) (user_file cwd : str)
    : outcome io_error (list ConfigLayerEntry) :=
  let merged := merged_so_far layers cli in
  markers ← or_layer_error layers (project_root_markers_from_config merged);
  context ← or_layer_error layers
    (project_trust_context merged cwd (default default_project_root_markers markers) (codex_home q) user_file);
  load_project_layers cwd (project_root context) context (codex_home q).
Definition managed_layers (q : load_request) (loaded : LoadedConfigLayers) : outcome io_error (list ConfigLayerEntry) :=
  file ← match from_file loaded with
         | Some c =>
             match parent (managed_file c) with
             | None => Err (lit "Managed config file " ++ managed_file c ++ lit " has no parent directory")
             | Some managed_parent =>
                 config ← resolve_relative_paths_in_config_toml (managed_config c) managed_parent;
                 Ok [entry_new (LegacyManagedConfigTomlFromFile (managed_file c)) config]
             end
         | None => Ok []
         end;
  mdm ← match from_mdm loaded with
        | Some c =>
            config ← resolve_relative_paths_in_config_toml (mdm_config c) (codex_home q);
            Ok [new_with_raw_toml LegacyManagedConfigTomlFromMdm config (mdm_raw_toml c)]
        | None => Ok []
        end;
  Ok (file ++ mdm).
Definition gather_layers (q : load_request) (loaded : LoadedConfigLayers) : outcome io_error (list ConfigLayerEntry) :=
  cli ← cli_overrides_layer q;
  system_file ← from_absolute_path SYSTEM_CONFIG_TOML_FILE_UNIX;
  system_layer ← load_config_toml_for_required_layer system_file (entry_new (System system_file));
  user_file ← resolve_path_against_base CONFIG_TOML_FILE (codex_home q);
  user_layer ← load_config_toml_for_required_layer user_file (entry_new (User user_file));
  let layers := [system_layer; user_layer] in
  project_layers ← match cwd q with
                   | Some cwd => gather_project_layers q layers cli user_file cwd
                   | None => Ok []
                   end;
  let session := match cli with Some c => [entry_new SessionFlags c] | None => [] end in
  managed ← managed_layers q loaded;
  Ok (layers ++ project_layers ++ session ++ managed).
(** [load_config_layers_state]. *)
Definition load_config_layers_state (q : load_request) : outcome (io_error + ConstraintError) ConfigLayerStack :=
  '(r, loaded) ← map_err inl (gather_requirements q);
  layers ← map_err inl (gather_layers q loaded);
  requirements ← map_err inr (requirements_try_from r);
  map_err inl (stack_new layers requirements (into_toml r)).
End loader.

(** * Lemmas: paths resolved in place *)

Definition copy_entry (resolved_table acc : list (str * TomlValue)) (e : str * TomlValue) : list (str * TomlValue) :=
  btree_insert e.1 (copy_shape_from_original e.2 (default e.2 (lookup_entry e.1 resolved_table))) acc.
Fixpoint copy_items (resolved_array : list TomlValue) (index : nat) (l : list TomlValue) : list TomlValue :=
  match l with
  | [] => []
  | value :: l' => copy_shape_from_original value (default value (resolved_array !! index)) :: copy_items resolved_array (S index) l'
  end.
Lemma copy_tables t r : copy_shape_from_original (TomlTable t) (TomlTable r) = TomlTable (foldl (copy_entry r) [] t).
Proof.
  cbn [copy_shape_from_original]. f_equal. generalize (@nil (str * TomlValue)).
  induction t as [|[k v] t IH]; intros acc; [done|]. apply IH.
Qed.
Lemma copy_arrays l r : copy_shape_from_original (TomlArray l) (TomlArray r) = TomlArray (copy_items r 0 l).
Proof. cbn [copy_shape_from_original]. f_equal. generalize 0. induction l as [|v l IH]; intros n; [done|]. cbn. f_equal. apply IH. Qed.
Lemma lookup_copy_entries r t k : ∀ acc, NoDup t.*1 →
  lookup_entry k (foldl (copy_entry r) acc t)
  = match lookup_entry k t with
    | Some v => Some (copy_shape_from_original v (default v (lookup_entry k r)))
    | None => lookup_entry k acc
    end.
Proof.
  induction t as [|[x v] t IH]; intros acc Ht; [done|]. cbn [fmap list_fmap fst] in Ht. apply NoDup_cons in Ht as [Hx Ht].
  cbn [foldl]. rewrite (IH _ Ht), lookup_entry_cons. cbn [fst snd]. unfold copy_entry. cbn [fst snd]. case_decide as E.
  - subst x. apply lookup_entry_None in Hx. by rewrite Hx, lookup_entry_insert.
  - by rewrite lookup_entry_insert_ne.
Qed.
Lemma copy_entries_wf r t : ∀ acc, btree_wf acc → btree_wf (foldl (copy_entry r) acc t).
Proof. induction t as [|e t IH]; intros acc H; [done|]. cbn [foldl]. by apply IH, btree_insert_wf. Qed.
Lemma toml_wf_array l : toml_wf (TomlArray l) → Forall toml_wf l.
Proof. by inversion 1. Qed.
(** Copying the shape of a value onto itself changes nothing. *)
Lemma copy_shape_id v : toml_wf v → copy_shape_from_original v v = v.
Proof.
  induction v as [v Hv|l IH|t IH] using toml_ind3; intros Hw; [by destruct v| |].
  - apply toml_wf_array in Hw. rewrite copy_arrays. f_equal.
    assert (H : ∀ pre l', l = pre ++ l' → copy_items l (length pre) l' = l').
    { intros pre l'. revert pre. induction l' as [|x l' IHl]; intros pre E; [done|]. cbn [copy_items].
      rewrite E, list_lookup_middle by done. cbn [default from_option id]. rewrite <-E. f_equal.
      - rewrite Forall_forall in IH. rewrite Forall_forall in Hw. assert (x ∈ l) by (rewrite E; set_solver). by apply IH, Hw.
      - specialize (IHl (pre ++ [x])). rewrite length_app in IHl. cbn in IHl. rewrite Nat.add_1_r in IHl. apply IHl. by rewrite <-app_assoc. }
    by apply (H [] l).
  - pose proof (proj1 (toml_wf_table t) Hw) as [Hb Hf]. rewrite copy_tables. f_equal.
    apply btree_ext; [by apply copy_entries_wf; constructor|done|]. intros k.
    rewrite lookup_copy_entries by by apply btree_wf_NoDup. destruct (lookup_entry k t) as [w|] eqn:E; [|done].
    cbn [default from_option id]. f_equal. apply lookup_entry_elem in E as Hin.
    rewrite Forall_forall in IH. apply (IH w); [by apply (list_elem_of_fmap_2 snd _ (k, w))|by eapply toml_wf_lookup].
Qed.
Lemma copy_shape_wf o : ∀ r, toml_wf o → toml_wf r → toml_wf (copy_shape_from_original o r).
Proof.
  induction o as [v Hv|l IH|t IH] using toml_ind3; intros r Ho Hr; [by destruct v| |].
  - destruct r as [| | | | |a|]; try exact Hr. rewrite copy_arrays. constructor. apply toml_wf_array in Ho, Hr. generalize 0.
    induction l as [|v l IHl]; intros n; [constructor|].
    apply Forall_cons in IH as [IHv IH], Ho as [Hv Ho]. cbn [copy_items]. constructor; [|by apply IHl].
    apply IHv; [done|]. destruct (a !! n) as [w|] eqn:E; [|done]. rewrite Forall_forall in Hr. by apply Hr, (list_elem_of_lookup_2 _ n).
  - destruct r as [| | | | | |a]; try exact Hr. rewrite copy_tables.
    pose proof (proj1 (toml_wf_table t) Ho) as [_ Ht]. clear Ho.
    assert (H : ∀ acc, toml_wf (TomlTable acc) → toml_wf (TomlTable (foldl (copy_entry a) acc t))); [|apply H, empty_table_wf].
    induction t as [|[k v] t IHt]; intros acc Hacc; [done|]. cbn [fmap list_fmap snd] in *.
    apply Forall_cons in IH as [IHv IH], Ht as [Hv Ht]. cbn [foldl]. apply IHt; [done..|].
    apply toml_wf_insert; [done|]. apply IHv; [done|]. cbn [fst]. destruct (lookup_entry k a) as [w|] eqn:E; [|done]. exact (toml_wf_lookup k a w Hr E).
Qed.
(** What is at a path after resolving, when the resolved value has tables where
    the original has. *)
Lemma copy_shape_get p : ∀ o r, toml_wf o → blocked p r = false → blocked p o = false →
  toml_get p (copy_shape_from_original o r)
  = (λ v, copy_shape_from_original v (default v (toml_get p r))) <$> toml_get p o.
Proof.
  induction p as [|k p IH]; intros o r Ho Hr Hbo; [done|].
  destruct o as [| | | | | |t]; try done. destruct r as [| | | | | |a]; try done.
  pose proof (proj1 (toml_wf_table t) Ho) as [Hb _]. rewrite copy_tables. cbn [toml_get blocked] in *.
  rewrite lookup_copy_entries by by apply btree_wf_NoDup. destruct (lookup_entry k t) as [v|] eqn:E; [|done].
  assert (Hv : toml_wf v) by by eapply toml_wf_lookup.
  destruct (lookup_entry k a) as [w|] eqn:Ea; cbn [default from_option id]; [by apply IH|].
  rewrite copy_shape_id by done. destruct (toml_get p v) as [u|] eqn:Eu; [|done]. cbn. f_equal. symmetry. apply copy_shape_id.
  clear -Eu Hv. revert v u Hv Eu. induction p as [|k p IH]; intros v u Hv Eu; [by injection Eu as <-|].
  destruct v; try done. cbn [toml_get] in Eu. destruct (lookup_entry k entries) as [w|] eqn:E; [|done].
  apply (IH w); [by eapply toml_wf_lookup|done].
Qed.

(** * Lemmas: project folders *)

Section normal.
Context {PE : PathEnv} {NP : NormalPaths} {FS : ConfigFs} {CP : ConfigParser} {TD : TomlDigest}.

Definition dot_codex_name : component := Normal (lit ".codex").
Lemma dot_codex_normal : normal_component dot_codex_name.
Proof. repeat split; try done. apply contains_char_false. reflexivity. Qed.
Lemma codex_components cs : Forall normal_component cs → Forall normal_component (cs ++ [dot_codex_name]).
Proof. intros H. apply Forall_app. split; [done|]. constructor; [apply dot_codex_normal|constructor]. Qed.
Lemma from_absolute_normal p : normal_path p → from_absolute_path p = Ok p.
Proof.
  intros Hp. unfold from_absolute_path. replace (maybe_expand_home_directory p) with p; [by apply absolutize_normal|].
  destruct Hp as (cs & _ & ->). unfold maybe_expand_home_directory. by destruct home_dir.
Qed.
Lemma dir_above_normal a b : dir_above a b → normal_path a ∧ normal_path b.
Proof.
  intros (cs & c & ds & H & -> & ->). split; [|by eexists].
  exists cs. split; [|done]. by apply Forall_app in H as [? _].
Qed.
(** The [.codex] folder of a normal folder. *)
Definition codex_of (dir : str) : str := path_join dir (lit ".codex").
Lemma codex_of_below cs : Forall normal_component cs → codex_of (below_root cs) = below_root (cs ++ [dot_codex_name]).
Proof. intros H. by apply join_snoc_below; [|apply dot_codex_normal|..]. Qed.
Lemma codex_of_normal dir : normal_path dir → normal_path (codex_of dir).
Proof.
  intros (cs & H & ->). rewrite codex_of_below by done. exists (cs ++ [dot_codex_name]). split; [|done]. by apply codex_components.
Qed.
Lemma follows_above a b : dir_above a b → follows (codex_of a) (codex_of b) = Ok tt.
Proof.
  intros (cs & c & ds & H & -> & ->). pose proof (proj1 (Forall_app _ _ _) H) as [Hcs _].
  assert (H1 : Forall normal_component (cs ++ [dot_codex_name])) by by apply codex_components.
  assert (H2 : Forall normal_component ((cs ++ c :: ds) ++ [dot_codex_name])) by by apply codex_components.
  rewrite !codex_of_below by done. unfold follows. rewrite parent_below_root by done.
  rewrite bool_decide_false.
  2:{ intros E%path_eq_below; [|done..]. apply (f_equal length) in E. rewrite !length_app in E. cbn in E. lia. }
  replace (existsb _ _) with true; [done|]. symmetry. apply existsb_elem. exists (below_root cs). split.
  - apply elem_ancestors; [done|]. exists cs, (c :: ds ++ [dot_codex_name]). split; [|done]. by rewrite <-app_assoc.
  - by apply bool_decide_true.
Qed.

(** The layer of a folder is a project layer of its [.codex]. *)
Lemma project_layer_entry_name c folder dir config b :
  layer_name (project_layer_entry c folder dir config b) = Project folder.
Proof. unfold project_layer_entry. by destruct (if b then disabled_reason_for_dir c dir else None). Qed.
(** A layer of an untrusted folder has no settings or is disabled. *)
Definition trusted_or_empty (c : ProjectTrustContext) (l : ConfigLayerEntry) : Prop :=
  ∃ dir, layer_name l = Project (codex_of dir)
    ∧ (is_disabled l = true ∨ is_trusted (decision_for_dir c dir) = true ∨ layer_config l = empty_table).
Lemma disabled_reason_trusted c dir : disabled_reason_for_dir c dir = None ↔ is_trusted (decision_for_dir c dir) = true.
Proof.
  unfold disabled_reason_for_dir. destruct (is_trusted _); [done|]. split; [|done].
  by destruct (trust_level _) as [[]|].
Qed.
Lemma project_layer_entry_trusted c dir config b :
  (b = true ∨ config = empty_table) → trusted_or_empty c (project_layer_entry c (codex_of dir) dir config b).
Proof.
  intros Hb. exists dir. split; [apply project_layer_entry_name|]. unfold project_layer_entry.
  destruct b; [|destruct Hb as [?| ->]; auto].
  destruct (disabled_reason_for_dir c dir) as [r|] eqn:E; [by left|]. apply disabled_reason_trusted in E. auto.
Qed.
Lemma load_project_layer_spec c h hn u dir l : normal_path dir →
  load_project_layer c h hn u dir = Ok (Some l) → layer_name l = Project (codex_of dir) ∧ trusted_or_empty c l.
Proof.
  intros Hd. unfold load_project_layer. change (path_join dir (lit ".codex")) with (codex_of dir).
  cbv zeta. destruct (negb _); [done|].
  rewrite (from_absolute_normal dir Hd), (from_absolute_normal _ (codex_of_normal dir Hd)). cbn [mbind outcome_bind].
  destruct (bool_decide _ || _); [done|]. destruct (match u with Some u => _ | None => _ end); [done|].
  intros (file & _ & H)%bind_Ok_inv. destruct (read_to_string file) as [contents| |e].
  - destruct (toml_from_str contents) as [config|e| |]; try done.
    + apply bind_Ok_inv in H as (config' & _ & [= <-]). split; [apply project_layer_entry_name|].
      apply project_layer_entry_trusted. by left.
    + destruct (is_trusted _); [done|]. injection H as <-. split; [apply project_layer_entry_name|].
      apply project_layer_entry_trusted. by left.
  - injection H as <-. split; [apply project_layer_entry_name|]. apply project_layer_entry_trusted. by right.
  - done.
Qed.
Lemma load_project_dirs_spec c h hn u dirs : ∀ ls previous,
  StronglySorted dir_above dirs → Forall normal_path dirs →
  match previous with Some p => ∃ d, p = codex_of d ∧ Forall (dir_above d) dirs | None => True end →
  load_project_dirs c h hn u dirs = Ok ls →
  nested previous (omap project_folder ls) ∧ Forall (trusted_or_empty c) ls
  ∧ Forall (λ l, precedence (layer_name l) = 25%Z ∧ is_user l = false) ls.
Proof.
  induction dirs as [|dir dirs IH]; intros ls previous Hs Hn Hp; cbn [load_project_dirs].
  { intros [= <-]. split_and!; [done|constructor|constructor]. }
  apply StronglySorted_inv in Hs as [Hs Hall]. apply Forall_cons in Hn as [Hd Hn].
  intros (o & Ho & (ls' & Hl & [= <-])%bind_Ok_inv)%bind_Ok_inv. destruct o as [l|].
  - apply (load_project_layer_spec _ _ _ _ _ _ Hd) in Ho as [Hname Htr].
    destruct (IH ls' (Some (codex_of dir)) Hs Hn ltac:(by exists dir) Hl) as (H1 & H2 & H3).
    cbn [omap list_omap]. unfold project_folder at 1. rewrite Hname. cbn [nested]. split_and!; [|done|by constructor|].
    + destruct previous as [p|]; [|done]. destruct Hp as (d & -> & [Hdd _]%Forall_cons). by apply follows_above.
    + constructor; [|done]. unfold is_user. by rewrite Hname.
  - apply (IH ls' previous Hs Hn); [|done]. destruct previous as [p|]; [|done].
    destruct Hp as (d & -> & [_ Hdd]%Forall_cons). by exists d.
Qed.
Lemma take_to_root_prefix dirs root : take_to_root dirs root `prefix_of` dirs.
Proof.
  induction dirs as [|a dirs IH]; [done|]. cbn [take_to_root]. apply prefix_cons.
  case_bool_decide; [apply prefix_nil|done].
Qed.
Lemma load_project_layers_spec c dir root home ls : normal_path dir →
  load_project_layers dir root c home = Ok ls →
  nested None (omap project_folder ls) ∧ Forall (trusted_or_empty c) ls
  ∧ Forall (λ l, precedence (layer_name l) = 25%Z ∧ is_user l = false) ls.
Proof.
  intros Hd. unfold load_project_layers. intros (h & _ & H)%bind_Ok_inv. revert H.
  destruct (take_to_root_prefix (ancestors dir) root) as [rest E].
  pose proof (ancestors_sorted dir Hd) as Hs. rewrite E, reverse_app in Hs.
  apply StronglySorted_app in Hs as (_ & _ & Hs). apply load_project_dirs_spec; [done| |done].
  apply Forall_forall. intros a Ha. assert (Hin : a ∈ ancestors dir) by (rewrite E; set_solver).
  destruct Hd as (cs & Hc & ->). apply elem_ancestors in Hin as (ds & es & -> & ->); [|done].
  exists ds. split; [|done]. by apply Forall_app in Hc as [? _].
Qed.

(** The settings that are no project's: those of the system's file, overridden by
    those of the user's file, and by the command line. *)
Definition settings_outside (q : load_request) : outcome io_error TomlValue :=
  cli ← cli_overrides_layer q;
  system_file ← from_absolute_path SYSTEM_CONFIG_TOML_FILE_UNIX;
  system_layer ← load_config_toml_for_required_layer system_file (entry_new (System system_file));
  user_file ← resolve_path_against_base CONFIG_TOML_FILE (codex_home q);
  user_layer ← load_config_toml_for_required_layer user_file (entry_new (User user_file));
  let files := merge_toml_values (merge_toml_values empty_table (layer_config system_layer)) (layer_config user_layer) in
  Ok (match cli with Some c => merge_toml_values files c | None => files end).
(** Settings trust a folder when the first level of trust that they give to the
    folder, the root of the project, or the main repository of the directory of the
    request, says so. *)
Definition trusted_by (q : load_request) (settings : TomlValue) (start dir : str) : Prop :=
  ∃ markers root projects,
    project_root_markers_from_config settings = Ok markers
    ∧ find_project_root start (default default_project_root_markers markers) = Ok root
    ∧ projects_from_toml (codex_home q) settings = Ok projects
    ∧ head (omap (λ key, omap id (default ∅ projects) !! key)
              (dir :: root :: option_list (resolve_root_git_project_for_trust start))) = Some Trusted.
Lemma decision_trusted c dir : is_trusted (decision_for_dir c dir) = true →
  head (omap (λ key, projects_trust c !! key) (dir :: project_root_key c :: option_list (repo_root_key c))) = Some Trusted.
Proof.
  unfold is_trusted, decision_for_dir. rewrite bool_decide_eq_true. cbn [omap list_omap].
  destruct (projects_trust c !! dir); [done|]. destruct (projects_trust c !! project_root_key c); [done|].
  destruct (repo_root_key c) as [k|]; [|done]. cbn. by destruct (projects_trust c !! k).
Qed.
(** The trust context of a request, from the layers that are no project's. *)
Definition context_of (q : load_request) (layers : list ConfigLayerEntry) (cli : option TomlValue) (user_file cwd : str)
    (c : ProjectTrustContext) : Prop :=
  ∃ markers, project_root_markers_from_config (merged_so_far layers cli) = Ok markers
    ∧ project_trust_context (merged_so_far layers cli) cwd (default default_project_root_markers markers) (codex_home q) user_file = Ok c.
Lemma context_trusted q layers cli user_file start c dir : context_of q layers cli user_file start c →
  is_trusted (decision_for_dir c dir) = true → trusted_by q (merged_so_far layers cli) start dir.
Proof.
  intros (markers & Hm & (projects & Hp & (root & Hr & [= <-])%bind_Ok_inv)%bind_Ok_inv) Ht%decision_trusted.
  by exists markers, root, projects.
Qed.
Lemma gather_project_layers_spec q layers cli user_file dir ls : normal_path dir →
  gather_project_layers q layers cli user_file dir = Ok ls →
  ∃ c, context_of q layers cli user_file dir c
  ∧ nested None (omap project_folder ls) ∧ Forall (trusted_or_empty c) ls
  ∧ Forall (λ l, precedence (layer_name l) = 25%Z ∧ is_user l = false) ls.
Proof.
  intros Hd. unfold gather_project_layers. cbv zeta.
  intros (ms & Hm%map_err_Ok & (c & Hc%map_err_Ok & H)%bind_Ok_inv)%bind_Ok_inv. exists c. split; [by exists ms|].
  by apply load_project_layers_spec in H.
Qed.
Lemma required_layer_name file name l : load_config_toml_for_required_layer file (entry_new name) = Ok l → layer_name l = name.
Proof. unfold load_config_toml_for_required_layer. by intros (v & _ & [= <-])%bind_Ok_inv. Qed.
Lemma managed_layers_spec q loaded ls : managed_layers q loaded = Ok ls →
  StronglySorted layer_le ls ∧ Forall (λ l, (40 ≤ precedence (layer_name l))%Z ∧ is_user l = false ∧ project_folder l = None) ls.
Proof.
  unfold managed_layers. intros (file & Hf & (mdm & Hm & [= <-])%bind_Ok_inv)%bind_Ok_inv.
  assert (file = [] ∨ ∃ f c, file = [entry_new (LegacyManagedConfigTomlFromFile f) c]) as Hfile.
  { destruct (from_file loaded) as [x|]; [|injection Hf as <-; by left]. destruct (parent _); [|done].
    apply bind_Ok_inv in Hf as (c & _ & [= <-]). right. by eexists _, _. }
  assert (mdm = [] ∨ ∃ c r, mdm = [new_with_raw_toml LegacyManagedConfigTomlFromMdm c r]) as Hmdm.
  { destruct (from_mdm loaded) as [x|]; [|injection Hm as <-; by left].
    apply bind_Ok_inv in Hm as (c & _ & [= <-]). right. by eexists _, _. }
  destruct Hfile as [->|(f & c & ->)], Hmdm as [->|(c' & r & ->)]; cbn [app]; split; repeat constructor; try done; cbn; lia.
Qed.
(** What the gathered layers are. *)
Lemma gather_layers_spec q loaded ls : match cwd q with Some dir => normal_path dir | None => True end →
  gather_layers q loaded = Ok ls →
  ∃ cli system_layer user_layer system_file user_file projects session managed,
    ls = [system_layer; user_layer] ++ projects ++ session ++ managed
    ∧ settings_outside q = Ok (merged_so_far [system_layer; user_layer] cli)
    ∧ layer_name system_layer = System system_file ∧ layer_name user_layer = User user_file
    ∧ nested None (omap project_folder projects)
    ∧ Forall (λ l, precedence (layer_name l) = 25%Z ∧ is_user l = false) projects
    ∧ match cwd q with
      | Some dir => ∃ c, context_of q [system_layer; user_layer] cli user_file dir c ∧ Forall (trusted_or_empty c) projects
      | None => projects = []
      end
    ∧ session = match cli with Some c => [entry_new SessionFlags c] | None => [] end
    ∧ managed_layers q loaded = Ok managed.
Proof.
  intros Hq. unfold gather_layers. intros (cli & Hcli & H1)%bind_Ok_inv. apply bind_Ok_inv in H1 as (sf & Hsf & H1).
  apply bind_Ok_inv in H1 as (sl & Hsl & H1). apply bind_Ok_inv in H1 as (uf & Huf & H1).
  apply bind_Ok_inv in H1 as (ul & Hul & H1). apply bind_Ok_inv in H1 as (ps & Hps & H1).
  apply bind_Ok_inv in H1 as (ms & Hms & [= <-]). exists cli, sl, ul, sf, uf, ps. do 2 eexists.
  assert (settings_outside q = Ok (merged_so_far [sl; ul] cli)).
  { unfold settings_outside. rewrite Hcli. cbn [mbind outcome_bind]. rewrite Hsf. cbn [mbind outcome_bind]. rewrite Hsl.
    cbn [mbind outcome_bind]. rewrite Huf. cbn [mbind outcome_bind]. by rewrite Hul. }
  apply required_layer_name in Hsl, Hul.
  destruct (cwd q) as [dir|].
  - apply gather_project_layers_spec in Hps as (c & Hc & Hn & Ht & Hp); [|done]. split_and!; try done. by exists c.
  - injection Hps as <-. by split_and!.
Qed.
Lemma gather_layers_ordered q loaded ls : match cwd q with Some dir => normal_path dir | None => True end →
  gather_layers q loaded = Ok ls → ordered ls (Some 1).
Proof.
  intros Hq (cli & sl & ul & sf & uf & ps & session & ms & -> & _ & Hs & Hu & Hn & Hp & _ & -> & [Hms Hm]%managed_layers_spec)%gather_layers_spec; [|done].
  set (session := match cli with Some c => [entry_new SessionFlags c] | None => [] end).
  assert (Hse : Forall (λ l, precedence (layer_name l) = 30%Z ∧ is_user l = false ∧ project_folder l = None) session)
    by (subst session; destruct cli; repeat constructor).
  rewrite !Forall_forall in Hp. rewrite !Forall_forall in Hm. rewrite !Forall_forall in Hse.
  assert (Hsame : ∀ l k, Forall (λ x, precedence (layer_name x) = k) l → StronglySorted layer_le l).
  { clear. intros l k. induction 1 as [|x l Hx Hl IH]; constructor; [done|]. apply (Forall_impl _ _ _ Hl). unfold layer_le. intros y. lia. }
  split_and!.
  - rewrite !StronglySorted_app. split_and!.
    + unfold layer_le. intros x y Hx Hy. assert (precedence (layer_name x) ≤ 20)%Z by (set_unfold in Hx; destruct Hx as [->|[->|[]]]; rewrite ?Hs, ?Hu; cbn; lia).
      rewrite !elem_of_app in Hy. destruct Hy as [Hy|[Hy|Hy]]; [apply Hp in Hy|apply Hse in Hy|apply Hm in Hy]; lia.
    + constructor; [by repeat constructor|]. apply Forall_singleton. unfold layer_le. by rewrite Hs, Hu.
    + unfold layer_le. intros x y Hx%Hp Hy. rewrite elem_of_app in Hy. destruct Hy as [Hy|Hy]; [apply Hse in Hy|apply Hm in Hy]; lia.
    + apply (Hsame _ 25%Z), Forall_forall. intros x Hx. by apply Hp.
    + unfold layer_le. intros x y Hx%Hse Hy%Hm. lia.
    + apply (Hsame _ 30%Z), Forall_forall. intros x Hx. by apply Hse.
    + done.
  - assert (is_user sl = false) as E1 by (unfold is_user; by rewrite Hs).
    assert (is_user ul = true) as E2 by (unfold is_user; by rewrite Hu).
    cbn [app user_index]. rewrite E1, E2. apply user_index_none, Forall_forall. intros x.
    rewrite !elem_of_app. intros [Hx|[Hx|Hx]]; [by apply Hp|by apply Hse|by apply Hm].
  - rewrite !omap_app. replace (omap project_folder [sl; ul]) with (@nil str) by (cbn; unfold project_folder; by rewrite Hs, Hu).
    assert (Hnone : ∀ l, (∀ x, x ∈ l → project_folder x = None) → omap project_folder l = []).
    { clear. induction l as [|x l IH]; intros H; [done|]. cbn. rewrite (H x) by by left. apply IH. intros y Hy. apply H. by right. }
    rewrite (Hnone session) by (intros x Hx; by apply Hse). rewrite (Hnone ms) by (intros x Hx; by apply Hm).
    by rewrite app_nil_r.
Qed.

(** Requirements merged from some of the sources of a list, in its order. *)
Definition from_sources (r : ConfigRequirementsWithSources) (all : list RequirementSource) : Prop :=
  ∃ srcs, r = merge_sources srcs no_requirements ∧ srcs.*1 `sublist_of` all.
Lemma from_sources_none : from_sources no_requirements [].
Proof. by exists []. Qed.
Lemma from_sources_add s t r all : from_sources r all → from_sources (merge_unset_fields s t r) (all ++ [s]).
Proof.
  intros (srcs & -> & Hs). exists (srcs ++ [(s, t)]). split; [unfold merge_sources; by rewrite foldl_app|].
  rewrite fmap_app. by apply sublist_app.
Qed.
Lemma from_sources_skip s r all : from_sources r all → from_sources r (all ++ [s]).
Proof.
  intros (srcs & -> & Hs). exists srcs. split; [done|]. rewrite <-(app_nil_r srcs.*1). apply sublist_app; [done|repeat constructor].
Qed.

(** * Properties *)

Definition cwd_normal (q : load_request) : Prop := match cwd q with Some dir => normal_path dir | None => True end.

(** When everything can be read and the requirements are accepted, the stack is
    built: whatever folders the project has, its layers pass the checks on their
    order. *)
Theorem loaded_layers_pass_checks (q : load_request) (r : ConfigRequirementsWithSources) (loaded : LoadedConfigLayers)
    (ls : list ConfigLayerEntry) (c : ConfigRequirements) :
  cwd_normal q → gather_requirements q = Ok (r, loaded) → gather_layers q loaded = Ok ls → requirements_try_from r = Ok c →
  ∃ s, load_config_layers_state q = Ok s ∧ layers s = ls ∧ requirements s = c ∧ stack_ordered s
    ∧ ∃ l, get_user_layer s = Some l ∧ is_user l = true.
Proof.
  intros Hq Hr Hl Hc. pose proof (gather_layers_ordered _ _ _ Hq Hl) as Ho.
  unfold load_config_layers_state. rewrite Hr. cbn. rewrite Hl. cbn. rewrite Hc. cbn.
  unfold stack_new. rewrite (proj2 (verify_ordered _ _) Ho). eexists. split; [done|]. split_and!; [done|done|exact Ho|].
  destruct Ho as (_ & (pre & l & post & E & Hi & Hu & _)%user_index_Some & _). exists l. split; [|done].
  unfold get_user_layer. cbn. rewrite E. by rewrite list_lookup_middle.
Qed.

(** C26. A setting of the effective configuration that a project's file decides comes
    from a folder that is trusted by what is outside of the projects alone: the
    settings of the system's file, of the user's file and of the command line, as
    they are loaded, merged in this order. The first level of trust that these
    settings give to the folder, to the root of the project that their own markers
    find, or to the main repository of the directory of the request, is "trusted". *)
Theorem project_setting_is_trusted (q : load_request) (s : ConfigLayerStack) (p : list str) (v : TomlValue)
    (l : ConfigLayerEntry) (folder : str) :
  cwd_normal q → load_config_layers_state q = Ok s → decided_by s p v l → layer_name l = Project folder → p ≠ [] →
  ∃ dir start settings,
    folder = codex_of dir ∧ cwd q = Some start ∧ settings_outside q = Ok settings ∧ trusted_by q settings start dir.
Proof.
  intros Hq Hs (pre & post & E & Hg & _) Hf Hp. unfold load_config_layers_state in Hs.
  apply bind_Ok_inv in Hs as ([r loaded] & _ & Hs). apply bind_Ok_inv in Hs as (ls & Hl%map_err_Ok & Hs).
  apply bind_Ok_inv in Hs as (rc & _ & Hs%map_err_Ok). unfold stack_new in Hs. apply bind_Ok_inv in Hs as (i & _ & [= <-]). cbn [layers] in E.
  assert (Hin : l ∈ enabled_layers ls) by (rewrite E; set_solver). apply list_elem_of_filter in Hin as [Hd Hin].
  apply gather_layers_spec in Hl as (cli & sl & ul & sf & uf & ps & session & ms & -> & Hout & Hsl & Hul & _ & _ & Hps & -> & [_ Hms]%managed_layers_spec); [|done].
  assert (Hl : l ∈ ps).
  { rewrite !elem_of_app in Hin. destruct Hin as [Hin|[Hin|[Hin|Hin]]]; [|done| |].
    - set_unfold in Hin. destruct Hin as [->|[->|[]]]; congruence.
    - destruct cli; [|by apply elem_of_nil in Hin]. apply list_elem_of_singleton in Hin as ->. done.
    - rewrite Forall_forall in Hms. apply Hms in Hin as (_ & _ & Hn). unfold project_folder in Hn. by rewrite Hf in Hn. }
  destruct (cwd q) as [start|]; [|subst ps; by apply elem_of_nil in Hl]. destruct Hps as (c & Hc & Ht).
  rewrite Forall_forall in Ht. apply Ht in Hl as (dir & Hn & Hor). rewrite Hf in Hn. injection Hn as ->.
  exists dir, start, (merged_so_far [sl; ul] cli). split_and!; try done. eapply context_trusted; [done|].
  destruct Hor as [Hor|[Hor|Hor]]; [congruence|done|]. rewrite Hor in Hg. by destruct p.
Qed.

(** The folder of a project that is not trusted is an enabled layer all the same
    when it has no [config.toml]: its settings are empty, but it is among the
    folders from which rules, skills and hooks are loaded. *)
Theorem untrusted_folder_without_config_is_enabled (c : ProjectTrustContext) (home home_normalized : str)
    (upstream : option str) (dir : str) :
  normal_path dir → path_is_dir (codex_of dir) = true → is_trusted (decision_for_dir c dir) = false →
  ¬ path_eq (codex_of dir) home → ¬ path_eq (default (codex_of dir) (canonicalize (codex_of dir))) home_normalized →
  match upstream with Some u => ¬ path_eq (default (codex_of dir) (canonicalize (codex_of dir))) u | None => True end →
  ∀ file, abs_join (codex_of dir) CONFIG_TOML_FILE = Ok file → read_to_string file = ReadNotFound →
  ∃ l, load_project_layer c home home_normalized upstream dir = Ok (Some l)
    ∧ is_disabled l = false ∧ layer_config l = empty_table ∧ config_folder l = Some (codex_of dir).
Proof.
  intros Hd Hdir Ht H1 H2 H3 file Hf Hr. unfold load_project_layer. change (path_join dir (lit ".codex")) with (codex_of dir).
  cbv zeta. rewrite Hdir, (from_absolute_normal dir Hd), (from_absolute_normal _ (codex_of_normal dir Hd)). cbn [negb mbind outcome_bind].
  rewrite !(bool_decide_false _ H1), !(bool_decide_false _ H2). cbn [orb].
  replace (match upstream with Some u => _ | None => _ end) with false
    by (destruct upstream; [by rewrite (bool_decide_false _ H3)|done]).
  rewrite Hf. cbn. rewrite Hr. eexists. split; [done|]. done.
Qed.

(** The requirements come from the cloud, then the system's file, then the two
    legacy sources, and an earlier source is never overridden. *)
Theorem gathered_requirements_order (q : load_request) (r : ConfigRequirementsWithSources) (loaded : LoadedConfigLayers) :
  gather_requirements q = Ok (r, loaded) →
  ∃ srcs system_file managed_path,
    r = merge_sources srcs no_requirements
    ∧ srcs.*1 `sublist_of` [CloudRequirements; SystemRequirementsToml system_file; LegacyManagedConfigMdm; LegacyManagedConfigFile managed_path].
Proof.
  unfold gather_requirements. intros (cloud & _ & H)%bind_Ok_inv. cbv zeta in H.
  assert (H0 : from_sources (match cloud with Some t => merge_unset_fields CloudRequirements t no_requirements | None => no_requirements end)
    [CloudRequirements]).
  { destruct cloud; [apply (from_sources_add _ _ _ []), from_sources_none|apply (from_sources_skip _ _ []), from_sources_none]. }
  apply bind_Ok_inv in H as (sf0 & _ & H). apply bind_Ok_inv in H as (r1 & H1 & H). apply bind_Ok_inv in H as (ld & _ & H).
  apply bind_Ok_inv in H as (r2 & H2 & [= -> ->]).
  unfold load_requirements_toml in H1. apply bind_Ok_inv in H1 as (sf & _ & H1).
  assert (HS1 : from_sources r1 ([CloudRequirements] ++ [SystemRequirementsToml sf])).
  { destruct (read_to_string sf) as [contents| |e]; [|injection H1 as <-; by apply from_sources_skip|done].
    apply bind_Ok_inv in H1 as (t & _ & [= <-]). by apply from_sources_add. }
  unfold load_requirements_from_legacy_scheme in H2. apply bind_Ok_inv in H2 as (r3 & H3 & H2).
  assert (HS3 : from_sources r3 (([CloudRequirements] ++ [SystemRequirementsToml sf]) ++ [LegacyManagedConfigMdm])).
  { destruct (from_mdm loaded); [|injection H3 as <-; by apply from_sources_skip].
    apply bind_Ok_inv in H3 as (t & _ & [= <-]). by apply from_sources_add. }
  set (path := match from_file loaded with Some m => managed_file m | None => [] end).
  assert (HS : from_sources r ((([CloudRequirements] ++ [SystemRequirementsToml sf]) ++ [LegacyManagedConfigMdm]) ++ [LegacyManagedConfigFile path])).
  { subst path. destruct (from_file loaded) as [m|]; [|injection H2 as <-; by apply from_sources_skip].
    apply bind_Ok_inv in H2 as (t & _ & [= <-]). by apply from_sources_add. }
  destruct HS as (srcs & E & S). by exists srcs, sf, path.
Qed.
End normal.

(** Resolving relative paths keeps the shape of a configuration: where the
    resolved value has tables above a path, the path has a value in the result
    exactly when it has one in the original, and a value the typed configuration
    does not know is kept. *)
Theorem resolved_paths_keep_shape (original resolved : TomlValue) (p : list str) :
  toml_wf original → blocked p resolved = false → blocked p original = false →
  (toml_get p (copy_shape_from_original original resolved) = None ↔ toml_get p original = None)
  ∧ (toml_get p resolved = None → toml_get p (copy_shape_from_original original resolved) = toml_get p original).
Proof.
  intros Ho Hr Hbo. rewrite copy_shape_get by done. split; [by rewrite fmap_None|]. intros ->.
  destruct (toml_get p original) as [v|] eqn:E; [|done]. cbn. f_equal. apply copy_shape_id.
  clear -E Ho. revert original Ho E. induction p as [|k p IH]; intros o Ho E; [by injection E as <-|].
  destruct o; try done. cbn [toml_get] in E. destruct (lookup_entry k entries) as [w|] eqn:Ew; [|done].
  apply (IH w); [by eapply toml_wf_lookup|done].
Qed.

(** * Witnesses *)

(** A user whose configuration marks [/repo] as untrusted and [/good] as
    trusted; both have a [.codex] folder, only [/good] a [config.toml]. The levels
    of trust are booleans of this example's documents. *)
Definition user_document : TomlValue :=
  TomlTable [(lit "model", TomlString (lit "gpt"));
             (lit "projects", TomlTable [(lit "/good", TomlBoolean true); (lit "/repo", TomlBoolean false)])].
Definition good_document : TomlValue := TomlTable [(lit "model", TomlString (lit "mine"))].
Definition example_env : PathEnv := lexical_env (lit "/home/u") (lit "/repo").
Definition example_config_fs : ConfigFs := {|
  read_to_string p :=
    if bool_decide (p = lit "/home/u/.codex/config.toml") then ReadOk (lit "user")
    else if bool_decide (p = lit "/good/.codex/config.toml") then ReadOk (lit "good")
    else if bool_decide (p = lit "/repo/.codex/rules/evil.rules") then ReadOk (lit "rules")
    else if bool_decide (p = lit "/repo/.codex/rules/bad.rules") then ReadOk (lit "bad")
    else ReadNotFound;
  path_exists p := bool_decide (p = lit "/repo/.git") || bool_decide (p = lit "/good/.git");
  path_is_dir p := existsb (λ d, bool_decide (p = d)) [lit "/repo"; lit "/repo/.git"; lit "/repo/.codex"; lit "/good"; lit "/good/.codex"];
  canonicalize _ := None;
  current_app_is_codexpilot := false;
  find_upstream_codex_home := None |}.
Definition example_parser : ConfigParser := {|
  toml_from_str s := if bool_decide (s = lit "user") then Ok user_document
                     else if bool_decide (s = lit "good") then Ok good_document else Err (lit "expected a key");
  requirements_from_str _ := Ok no_requirements;
  legacy_from_toml _ := Ok {| legacy_approval_policy := None; legacy_sandbox_mode := None |};
  projects_from_toml _ v :=
    Ok (match toml_get [lit "projects"] v with
        | Some (TomlTable t) =>
            Some (list_to_map ((λ e, (e.1, Some match e.2 with TomlBoolean true => Trusted | _ => Untrusted end)) <$> t))
        | _ => None
        end);
  resolve_config _ _ := None;
  config_error_text _ _ e := e;
  first_layer_config_error _ := None |}.

Section example.
#[local] Existing Instance example_env.
#[local] Existing Instance example_config_fs.
#[local] Existing Instance example_parser.
#[local] Existing Instance count_digest.
#[local] Instance example_normal : NormalPaths := lexical_normal_paths _ _.

Definition request_in (dir : str) : load_request :=
  {| codex_home := lit "/home/u/.codex"; cwd := Some dir; cli_overrides := [(lit "tools.web", TomlBoolean true)];
     managed_config_path := None; cloud_requirements := Ok None |}.
Definition loaded_in (dir : str) : ConfigLayerStack :=
  match load_config_layers_state (request_in dir) with
  | Ok s => s
  | _ => {| layers := []; user_layer_index := None; requirements := default_requirements; requirements_toml := no_requirements |}
  end.
Lemma loaded_good : load_config_layers_state (request_in (lit "/good")) = Ok (loaded_in (lit "/good")).
Proof. vm_compute. reflexivity. Qed.
Lemma loaded_repo : load_config_layers_state (request_in (lit "/repo")) = Ok (loaded_in (lit "/repo")).
Proof. vm_compute. reflexivity. Qed.
Example loaded_ex :
  layer_name <$> layers (loaded_in (lit "/good"))
    = [System (lit "/etc/codex/config.toml"); User (lit "/home/u/.codex/config.toml"); Project (lit "/good/.codex"); SessionFlags]
  ∧ toml_get [lit "model"] (effective_config (loaded_in (lit "/good"))) = Some (TomlString (lit "mine"))
  ∧ toml_get [lit "model"] (effective_config (loaded_in (lit "/repo"))) = Some (TomlString (lit "gpt"))
  ∧ toml_get [lit "tools"; lit "web"] (effective_config (loaded_in (lit "/repo"))) = Some (TomlBoolean true)
  ∧ is_disabled <$> layers (loaded_in (lit "/repo")) = [false; false; false; false].
Proof. vm_compute. repeat split. Qed.
Lemma normal_of_names names p : Forall normal_component names → p = below_root names → normal_path p.
Proof. by exists names. Qed.
Lemma good_normal : normal_path (lit "/good").
Proof.
  apply (normal_of_names [Normal (lit "good")]); [|reflexivity].
  constructor; [|constructor]. repeat split; try done. apply contains_char_false. reflexivity.
Qed.
Definition good_requirements : ConfigRequirementsWithSources * LoadedConfigLayers :=
  match gather_requirements (request_in (lit "/good")) with Ok r => r | _ => (no_requirements, {| from_file := None; from_mdm := None |}) end.

Lemma loaded_layers_pass_checks_witness :
  ∃ s, load_config_layers_state (request_in (lit "/good")) = Ok s ∧ stack_ordered s.
Proof.
  destruct (loaded_layers_pass_checks (request_in (lit "/good")) good_requirements.1 good_requirements.2
              (layers (loaded_in (lit "/good"))) (requirements (loaded_in (lit "/good")))) as (s & H1 & _ & _ & H2 & _).
  - exact good_normal.
  - vm_compute. reflexivity.
  - vm_compute. reflexivity.
  - vm_compute. reflexivity.
  - by exists s.
Defined.
Lemma project_setting_is_trusted_witness :
  ∃ dir settings, lit "/good/.codex" = codex_of dir ∧ settings_outside (request_in (lit "/good")) = Ok settings
    ∧ toml_get [lit "model"] settings = Some (TomlString (lit "gpt")) ∧ trusted_by (request_in (lit "/good")) settings (lit "/good") dir.
Proof.
  destruct (project_setting_is_trusted (request_in (lit "/good")) (loaded_in (lit "/good")) [lit "model"] (TomlString (lit "mine"))
    (List.nth 2 (layers (loaded_in (lit "/good"))) (entry_new SessionFlags empty_table)) (lit "/good/.codex"))
    as (dir & start & settings & H1 & H2 & H3 & H4).
  - exact good_normal.
  - exact loaded_good.
  - exists (take 2 (layers (loaded_in (lit "/good")))), (drop 3 (layers (loaded_in (lit "/good")))).
    split; [vm_compute; reflexivity|]. split; [vm_compute; reflexivity|]. repeat constructor.
  - vm_compute. reflexivity.
  - discriminate.
  - exists dir, settings. split; [exact H1|]. split; [exact H3|]. injection H2 as <-. split; [|exact H4].
    injection H3 as <-. reflexivity.
Defined.
Lemma untrusted_folder_without_config_is_enabled_witness :
  let c := {| project_root := lit "/good"; project_root_key := lit "/good"; repo_root_key := None;
              projects_trust := ∅; user_config_file := lit "/home/u/.codex/config.toml" |} in
  ∃ l, @load_project_layer example_env {| read_to_string _ := ReadNotFound; path_exists _ := true; path_is_dir _ := true;
         canonicalize _ := None; current_app_is_codexpilot := false; find_upstream_codex_home := None |} example_parser count_digest
         c (lit "/home/u/.codex") (lit "/home/u/.codex") None (lit "/good") = Ok (Some l)
    ∧ is_disabled l = false ∧ layer_config l = empty_table ∧ config_folder l = Some (codex_of (lit "/good")).
Proof.
  intros c. apply (untrusted_folder_without_config_is_enabled c (lit "/home/u/.codex") (lit "/home/u/.codex") None (lit "/good") good_normal)
    with (file := lit "/good/.codex/config.toml"); try (vm_compute; reflexivity); try done; by vm_compute.
Defined.
Lemma gathered_requirements_order_witness :
  ∃ srcs system_file managed_path,
    good_requirements.1 = merge_sources srcs no_requirements
    ∧ srcs.*1 `sublist_of` [CloudRequirements; SystemRequirementsToml system_file; LegacyManagedConfigMdm; LegacyManagedConfigFile managed_path].
Proof. apply (gathered_requirements_order (request_in (lit "/good")) _ good_requirements.2). vm_compute. reflexivity. Defined.
End example.

Lemma resolved_paths_keep_shape_witness :
  let original := TomlTable [(lit "file", TomlString (lit "./a.md")); (lit "foo", TomlInteger 1)] in
  let resolved := TomlTable [(lit "file", TomlString (lit "/home/u/a.md"))] in
  toml_get [lit "foo"] (copy_shape_from_original original resolved) = Some (TomlInteger 1).
Proof.
  intros original resolved. apply (resolved_paths_keep_shape original resolved [lit "foo"]); try (vm_compute; reflexivity).
  repeat (constructor || (apply toml_wf_table; split)).
Defined.
