(* ===== verification/RulesLoader.v ===== *)
(** The execution policy of a stack of layers: [load_exec_policy] and what it
    calls in [codex-rs/core/src/exec_policy.rs]. The rules files of the folders
    of the enabled layers are parsed one after another, and the rules of the
    requirements are laid over them. Listing a directory is an interface; the
    parser is that of PolicyParser, with its evaluator. *)
From stdpp Require Import gmap sorting.
From S2P Require Import Prelude RustStr BTreeMap RustPath FileSystem AbsolutePath ExecPolicy PolicyParser NormalPath TomlValue Fingerprint Protocol Requirements ConfigLayers ConfigLoader.

(** * Files *)

(** The entries of a directory, with whether they are files. *)
Inductive dir_result : Type := DirOk (entries : list (str * bool)) | DirNotFound | DirFailed (e : str).
Class RulesDir : Type := {
  read_dir : str → dir_result;
  parse_rules : str → str → stm PolicyBuilder Error unit }.

Inductive ExecPolicyError : Type :=
| ReadDir (dir : str) (source : str)
| ReadFile (path : str) (source : str)
| ParsePolicy (path : str) (source : Error).

Definition RULES_DIR_NAME : str := lit "rules".
Definition RULE_EXTENSION : str := lit "rules".
(** [path.extension()]. *)
Definition extension (path : str) : option str :=
  match file_name path with
  | Some name => match rsplit_once 46 name with Some ([], _) | None => None | Some (_, ext) => Some ext end
  | None => None
  end.
(** The order files are sorted in. *)
Definition path_le (p q : str) : Prop := path_cmp p q ≠ Gt.
#[export] Instance path_le_dec p q : base.Decision (path_le p q).
Proof. unfold path_le. destruct (path_cmp p q); [left; discriminate|left; discriminate|]. right. intros H. by apply H. Defined.

Section rules.
Context {PE : PathEnv} {FS : ConfigFs} {RD : RulesDir}.

Definition is_rules_file (e : str * bool) : bool := bool_decide (extension e.1 = Some RULE_EXTENSION) && e.2.
Definition collect_policy_files (dir : str) : outcome ExecPolicyError (list str) :=
  match read_dir dir with
  | DirOk entries => Ok (merge_sort path_le (filter (λ e, is_rules_file e = true) entries).*1)
  | DirNotFound => Ok []
  | DirFailed e => Err (ReadDir dir e)
  end.
(** The files of the layers, from the lowest precedence. *)
Fixpoint layer_policy_files (ls : list ConfigLayerEntry) : outcome ExecPolicyError (list str) :=
  match ls with
  | [] => Ok []
  | l :: ls' =>
      files ← match config_folder l with
              | Some folder =>
                  match abs_join folder RULES_DIR_NAME with
                  | Ok policy_dir => collect_policy_files policy_dir
                  | _ => Panic
                  end
              | None => Ok []
              end;
      more ← layer_policy_files ls';
      Ok (files ++ more)
  end.
Fixpoint parse_files (paths : list str) (b : PolicyBuilder) : outcome ExecPolicyError PolicyBuilder :=
  match paths with
  | [] => Ok b
  | path :: paths' =>
      contents ← match read_to_string path with
                 | ReadOk contents => Ok contents
                 | ReadNotFound => Err (ReadFile path (lit "No such file or directory (os error 2)"))
                 | ReadFailed e => Err (ReadFile path e)
                 end;
      match parse_rules path contents b with
      | (b', Ok _) => parse_files paths' b'
      | (_, Err e) => Err (ParsePolicy path e)
      | (_, Panic) => Panic
      | (_, OutOfFuel) => OutOfFuel
      end
  end.
Definition load_exec_policy (config_stack : ConfigLayerStack) : outcome ExecPolicyError Policy :=
  policy_paths ← layer_policy_files (get_layers config_stack LowestPrecedenceFirst false);
  b ← parse_files policy_paths builder_new;
  let policy := build b in
  match exec_policy (requirements config_stack) with
  | None => Ok policy
  | Some requirements_policy => Ok (merge_overlay policy (sourced_value requirements_policy))
  end.
Definition load_exec_policy_with_warning (config_stack : ConfigLayerStack)
    : outcome ExecPolicyError (Policy * option ExecPolicyError) :=
  match load_exec_policy config_stack with
  | Ok policy => Ok (policy, None)
  | Err (ParsePolicy path e) => Ok (policy_empty, Some (ParsePolicy path e))
  | Err e => Err e
  | Panic => Panic
  | OutOfFuel => OutOfFuel
  end.

(** * Lemmas *)

Lemma no_rules_in_empty w cmd r m : ¬ filed_rule policy_empty w cmd r m.
Proof. intros (Hr & _). unfold rules_for in Hr. cbn in Hr. rewrite lookup_empty in Hr. by apply elem_of_nil in Hr. Qed.
Lemma governs_empty options cmd r o m : ¬ governs policy_empty options cmd r o m.
Proof. intros [? ? (? & ? & _ & H)|? ? ? ? ? ? ? ? ? ? H]; by apply no_rules_in_empty in H. Qed.
Lemma check_empty cmd fallback options :
  ∃ ev, check_with_options policy_empty cmd fallback options = Ok ev ∧ decision ev = fallback cmd.
Proof.
  destruct (check_evaluates policy_empty cmd fallback options) as (ev & Hev & [(_ & _ & (r & o & m & H & _) & _)|(_ & _ & H & _)]).
  - by apply governs_empty in H.
  - by exists ev.
Qed.
Lemma is_rules_file_spec e : is_rules_file e = true ↔ extension e.1 = Some RULE_EXTENSION ∧ e.2 = true.
Proof. unfold is_rules_file. by rewrite andb_true_iff, bool_decide_eq_true. Qed.
Lemma elem_collect dir files f : collect_policy_files dir = Ok files →
  f ∈ files ↔ ∃ entries, read_dir dir = DirOk entries ∧ (f, true) ∈ entries ∧ extension f = Some RULE_EXTENSION.
Proof.
  unfold collect_policy_files. destruct (read_dir dir) as [entries| |e]; [intros [= <-]|intros [= <-]|done].
  - rewrite merge_sort_Permutation, list_elem_of_fmap. setoid_rewrite list_elem_of_filter. setoid_rewrite is_rules_file_spec. split.
    + intros ([x b] & -> & [He Hb] & Hin). cbn in *. subst b. by exists entries.
    + intros (entries' & [= <-] & Hin & He). by exists (f, true).
  - split; [by intros ?%elem_of_nil|by intros (? & ? & _)].
Qed.
Lemma elem_layer_files ls files f : layer_policy_files ls = Ok files →
  f ∈ files ↔ ∃ l folder dir entries, l ∈ ls ∧ config_folder l = Some folder ∧ abs_join folder RULES_DIR_NAME = Ok dir
    ∧ read_dir dir = DirOk entries ∧ (f, true) ∈ entries ∧ extension f = Some RULE_EXTENSION.
Proof.
  revert files. induction ls as [|l ls IH]; intros files; cbn [layer_policy_files].
  { intros [= <-]. split; [by intros ?%elem_of_nil|]. by intros (l & ? & ? & ? & ?%elem_of_nil & _). }
  intros (fs & Hfs & (more & Hm%IH & [= <-])%bind_Ok_inv)%bind_Ok_inv. rewrite elem_of_app, Hm. clear IH Hm. split.
  - intros [Hf|(x & folder & dir & entries & Hx & H)]; [|exists x, folder, dir, entries; split; [by right|done]].
    destruct (config_folder l) as [folder|] eqn:Ef; [|injection Hfs as <-; by apply elem_of_nil in Hf].
    destruct (abs_join folder RULES_DIR_NAME) as [dir| | |] eqn:Ej; try done.
    apply (elem_collect _ _ _ Hfs) in Hf as (entries & H). exists l, folder, dir, entries. split; [by left|]. split; [done|]. by split.
  - intros (x & folder & dir & entries & [->|Hx]%elem_of_cons & Ef & Ej & H); [left|right; by exists x, folder, dir, entries].
    rewrite Ef, Ej in Hfs. apply (elem_collect _ _ _ Hfs). by exists entries.
Qed.
(** Files that parse have been read, each into what the ones before left. *)
Lemma parse_files_read paths : ∀ b b', parse_files paths b = Ok b' →
  ∀ f, f ∈ paths → ∃ contents b1 b2, read_to_string f = ReadOk contents ∧ parse_rules f contents b1 = (b2, Ok tt).
Proof.
  induction paths as [|path paths IH]; intros b b' H f; [by intros ?%elem_of_nil|]. cbn [parse_files] in H.
  destruct (read_to_string path) as [contents| |e] eqn:Er; [|done..]. cbn [mbind outcome_bind] in H.
  destruct (parse_rules path contents b) as [b1 [[]|e| |]] eqn:Ep; try done.
  intros [->|Hf]%elem_of_cons; [by exists contents, b, b1|by eapply IH].
Qed.

(** * Properties *)

(** C28. A policy that loads is the rules of the files of the enabled layers with the
    rules of the requirements laid over them: a command that a required rule
    matches is decided at least as strictly as the rule says. *)
Theorem loaded_policy_keeps_requirements (s : ConfigLayerStack) (p : Policy) (required : Sourced Policy)
    (cmd : list str) (r : PrefixRule) (m : list str) (fallback : list str → Decision) (options : MatchOptions) :
  load_exec_policy s = Ok p → exec_policy (requirements s) = Some required → exact_rule (sourced_value required) cmd r m →
  ∃ ev, check_with_options p cmd fallback options = Ok ev ∧ decision_le (rule_decision r) (decision ev).
Proof.
  unfold load_exec_policy. intros (paths & _ & (b & _ & H)%bind_Ok_inv)%bind_Ok_inv Hr Hx. rewrite Hr in H. injection H as <-.
  assert (Hm : exact_rule (merge_overlay (build b) (sourced_value required)) cmd r m) by (apply exact_rule_merge; by right).
  destruct (check_exact _ _ fallback options _ _ Hm) as (ev & ? & _ & Hub). eauto.
Qed.

(** A rules file that does not parse takes the requirements away: the session
    then runs with an empty policy, and a command the requirements forbid is
    left to the fallback. Any enabled folder can hold the file. *)
Theorem malformed_rules_drop_requirements (s : ConfigLayerStack) (paths before after : list str) (path contents : str)
    (b b' : PolicyBuilder) (e : Error) (cmd : list str) (fallback : list str → Decision) (options : MatchOptions) :
  layer_policy_files (get_layers s LowestPrecedenceFirst false) = Ok paths → paths = before ++ path :: after →
  parse_files before builder_new = Ok b → read_to_string path = ReadOk contents → parse_rules path contents b = (b', Err e) →
  load_exec_policy s = Err (ParsePolicy path e)
  ∧ ∃ p, load_exec_policy_with_warning s = Ok (p, Some (ParsePolicy path e))
    ∧ ∃ ev, check_with_options p cmd fallback options = Ok ev ∧ decision ev = fallback cmd.
Proof.
  intros Hp -> Hb Hr He.
  assert (Hparse : ∀ b0, parse_files before b0 = Ok b → parse_files (before ++ path :: after) b0 = Err (ParsePolicy path e)).
  { clear Hp Hb. induction before as [|f before IH]; intros b0; cbn [app parse_files].
    - intros [= ->]. rewrite Hr. cbn [mbind outcome_bind]. by rewrite He.
    - destruct (read_to_string f) as [c| |x]; [|done..]. cbn [mbind outcome_bind].
      destruct (parse_rules f c b0) as [b1 [[]|x| |]]; try done. apply IH. }
  assert (H : load_exec_policy s = Err (ParsePolicy path e)).
  { unfold load_exec_policy. rewrite Hp. cbn [mbind outcome_bind]. by rewrite (Hparse _ Hb). }
  split; [done|]. exists policy_empty. unfold load_exec_policy_with_warning. rewrite H. split; [done|apply check_empty].
Qed.

(** A policy loads only if every file with the extension of rules in the folder of
    every enabled layer is read and parses; the folders of disabled layers are
    not looked at. *)
Theorem loaded_policy_reads_enabled_folders (s : ConfigLayerStack) (p : Policy) (l : ConfigLayerEntry)
    (folder dir : str) (entries : list (str * bool)) (f : str) :
  load_exec_policy s = Ok p → l ∈ layers s → is_disabled l = false → config_folder l = Some folder →
  abs_join folder RULES_DIR_NAME = Ok dir → read_dir dir = DirOk entries → (f, true) ∈ entries → extension f = Some RULE_EXTENSION →
  ∃ contents b b', read_to_string f = ReadOk contents ∧ parse_rules f contents b = (b', Ok tt).
Proof.
  unfold load_exec_policy. intros (paths & Hp & (b & Hb & _)%bind_Ok_inv)%bind_Ok_inv Hl Hd Hc Hj Hr Hf He.
  apply (parse_files_read _ _ _ Hb). apply (elem_layer_files _ _ f Hp). exists l, folder, dir, entries.
  split_and!; try done. rewrite enabled_get_layers. by apply list_elem_of_filter.
Qed.
End rules.

(** * Witnesses *)

Section example.
#[local] Existing Instance example_env.
#[local] Existing Instance example_config_fs.
#[local] Existing Instance example_parser.
#[local] Existing Instance count_digest.

(** The rules of the files: [rules] allows [git log] and [git show]; other
    contents do not parse. *)
Definition example_run (_ contents : str) : outcome str (list (BuiltinCall sval) * option str) :=
  if bool_decide (contents = lit "rules") then Ok ([demo_call], None) else Err (lit "parse error").
Definition parse_example_rules (ident contents : str) : stm PolicyBuilder Error unit :=
  parse (λ _, []) (λ _, []) (λ _, None) sval s_unpack s_content s_type s_split example_run (λ _, []) ident contents.
(** [/repo/.codex/rules] with the files of a list. *)
Definition rules_dir_with (files : list str) : RulesDir := {|
  read_dir d := if bool_decide (d = lit "/repo/.codex/rules") then DirOk ((λ f, (f, true)) <$> files) else DirNotFound;
  parse_rules := parse_example_rules |}.
Definition evil_file : str := lit "/repo/.codex/rules/evil.rules".
Definition bad_file : str := lit "/repo/.codex/rules/bad.rules".
Definition loaded_policy (files : list str) : Policy :=
  match @load_exec_policy example_env example_config_fs (rules_dir_with files) (loaded_in (lit "/repo")) with
  | Ok p => p | _ => policy_empty end.

(** A project that the user's configuration marks as untrusted, with rules but no
    [config.toml], has its rules loaded: they allow commands. *)
Theorem untrusted_rules_are_loaded :
  load_config_layers_state (request_in (lit "/repo")) = Ok (loaded_in (lit "/repo"))
  ∧ (∃ c, context_of (request_in (lit "/repo")) (take 2 (layers (loaded_in (lit "/repo")))) None
            (lit "/home/u/.codex/config.toml") (lit "/repo") c
          ∧ trust_level (decision_for_dir c (lit "/repo")) = Some Untrusted)
  ∧ @load_exec_policy example_env example_config_fs (rules_dir_with [evil_file]) (loaded_in (lit "/repo")) = Ok (loaded_policy [evil_file])
  ∧ ∃ ev, check_with_options (loaded_policy [evil_file]) [lit "git"; lit "log"] (λ _, Forbidden) default_options = Ok ev
    ∧ decision ev = Allow.
Proof.
  split; [vm_compute; reflexivity|]. split; [|split; [vm_compute; reflexivity|eexists; split; vm_compute; reflexivity]].
  eexists. split; [exists None; split|]; vm_compute; reflexivity.
Qed.

Definition required_stack : ConfigLayerStack :=
  {| layers := layers (loaded_in (lit "/repo")); user_layer_index := Some 1; requirements := example_constraints;
     requirements_toml := no_requirements |}.
Lemma loaded_policy_keeps_requirements_witness :
  ∃ p ev, @load_exec_policy example_env example_config_fs (rules_dir_with [evil_file]) required_stack = Ok p
    ∧ check_with_options p [lit "rm"; lit "-rf"; lit "/"] (λ _, Allow) default_options = Ok ev
    ∧ decision_le Forbidden (decision ev).
Proof.
  set (p := match @load_exec_policy example_env example_config_fs (rules_dir_with [evil_file]) required_stack with Ok p => p | _ => policy_empty end).
  exists p.
  destruct (@loaded_policy_keeps_requirements example_env example_config_fs (rules_dir_with [evil_file]) required_stack p
    (sourced example_required (SystemRequirementsToml (lit "/etc/codex/requirements.toml")))
    [lit "rm"; lit "-rf"; lit "/"]
    {| pattern := {| first := lit "rm"; rest := [Alts [lit "-rf"; lit "-fr"]] |}; rule_decision := Forbidden; justification := None |}
    [lit "rm"; lit "-rf"] (λ _, Allow) default_options) as (ev & H1 & H2).
  - vm_compute. reflexivity.
  - vm_compute. reflexivity.
  - exists (lit "rm"), [lit "-rf"; lit "/"]. split; [done|]. split; [vm_compute; by left|]. split.
    + exists [lit "-rf"]. split; [done|]. constructor; [by left|constructor].
    + by exists [lit "/"].
  - exists ev. split; [vm_compute; reflexivity|]. by split.
Defined.
Lemma malformed_rules_drop_requirements_witness :
  ∃ p e ev, @load_exec_policy_with_warning example_env example_config_fs (rules_dir_with [evil_file; bad_file]) required_stack
      = Ok (p, Some (ParsePolicy bad_file e))
    ∧ check_with_options p [lit "rm"; lit "-rf"; lit "/"] (λ _, Allow) default_options = Ok ev ∧ decision ev = Allow.
Proof.
  destruct (@malformed_rules_drop_requirements example_env example_config_fs (rules_dir_with [evil_file; bad_file]) required_stack
    [bad_file; evil_file] [] [evil_file] bad_file (lit "bad") builder_new (parse_example_rules bad_file (lit "bad") builder_new).1
    (Starlark (lit "parse error")) [lit "rm"; lit "-rf"; lit "/"] (λ _, Allow) default_options) as (_ & p & H1 & ev & H2 & H3);
    try (vm_compute; reflexivity).
  by exists p, (Starlark (lit "parse error")), ev.
Defined.
Lemma loaded_policy_reads_enabled_folders_witness :
  ∃ contents b b', @read_to_string example_config_fs evil_file = ReadOk contents ∧ parse_example_rules evil_file contents b = (b', Ok tt).
Proof.
  apply (@loaded_policy_reads_enabled_folders example_env example_config_fs (rules_dir_with [evil_file]) (loaded_in (lit "/repo"))
    (loaded_policy [evil_file]) (List.nth 2 (layers (loaded_in (lit "/repo"))) (entry_new SessionFlags empty_table))
    (lit "/repo/.codex") (lit "/repo/.codex/rules") [(evil_file, true)]); try (vm_compute; reflexivity).
  - vm_compute. right. right. left.
  - by left.
Defined.
End example.
