(* ===== verification/NetHost.v ===== *)
(** Hosts as the network proxy sees them:
    [codex-rs/network-proxy/src/policy.rs]. IP addresses and their parser are
    those of the Rust standard library; the glob and url crates are
    interfaces. *)
From Stdlib Require Import ZifyN ZifyBool.
From S2P Require Import Prelude RustStr.
Local Open Scope N_scope.

(** * IP addresses *)

(** [Ipv4Addr] as a [u32] and [Ipv6Addr] as its eight segments. *)
Inductive IpAddr : Type := V4 (ip : N) | V6 (segments : list N).
Definition ipv4 (a b c d : N) : N := a * 16777216 + b * 65536 + c * 256 + d.
Definition octet (ip : N) (i : N) : N := (ip / 256 ^ (3 - i)) mod 256.
Definition is_loopback_v4 (ip : N) : bool := octet ip 0 =? 127.
Definition is_private (ip : N) : bool :=
  (octet ip 0 =? 10)
  || ((octet ip 0 =? 172) && (16 <=? octet ip 1) && (octet ip 1 <=? 31))
  || ((octet ip 0 =? 192) && (octet ip 1 =? 168)).
Definition is_link_local (ip : N) : bool := (octet ip 0 =? 169) && (octet ip 1 =? 254).
Definition is_unspecified_v4 (ip : N) : bool := ip =? 0.
Definition is_multicast_v4 (ip : N) : bool := (224 <=? octet ip 0) && (octet ip 0 <=? 239).
Definition is_broadcast (ip : N) : bool := ip =? 4294967295.

Definition ipv4_in_cidr (ip base prefix : N) : bool :=
  let mask := if prefix =? 0 then 0 else N.land (N.shiftl 4294967295 (32 - prefix)) 4294967295 in
  N.land ip mask =? N.land base mask.
Definition is_non_public_ipv4 (ip : N) : bool :=
  is_loopback_v4 ip || is_private ip || is_link_local ip || is_unspecified_v4 ip || is_multicast_v4 ip || is_broadcast ip
  || ipv4_in_cidr ip (ipv4 0 0 0 0) 8
  || ipv4_in_cidr ip (ipv4 100 64 0 0) 10
  || ipv4_in_cidr ip (ipv4 192 0 0 0) 24
  || ipv4_in_cidr ip (ipv4 192 0 2 0) 24
  || ipv4_in_cidr ip (ipv4 198 18 0 0) 15
  || ipv4_in_cidr ip (ipv4 198 51 100 0) 24
  || ipv4_in_cidr ip (ipv4 203 0 113 0) 24
  || ipv4_in_cidr ip (ipv4 240 0 0 0) 4.

Definition is_loopback_v6 (ip : list N) : bool := bool_decide (ip = [0; 0; 0; 0; 0; 0; 0; 1]).
Definition is_unspecified_v6 (ip : list N) : bool := bool_decide (ip = [0; 0; 0; 0; 0; 0; 0; 0]).
Definition first_segment (ip : list N) : N := default 0 (head ip).
Definition is_multicast_v6 (ip : list N) : bool := N.land (first_segment ip) 0xFF00 =? 0xFF00.
Definition is_unique_local (ip : list N) : bool := N.land (first_segment ip) 0xFE00 =? 0xFC00.
Definition is_unicast_link_local (ip : list N) : bool := N.land (first_segment ip) 0xFFC0 =? 0xFE80.
(** [to_ipv4]: the IPv4-compatible and the IPv4-mapped addresses. *)
Definition to_ipv4 (ip : list N) : option N :=
  match ip with
  | [0; 0; 0; 0; 0; mark; high; low] =>
      if (mark =? 0) || (mark =? 0xFFFF) then Some (high * 65536 + low) else None
  | _ => None
  end.
Definition is_non_public_ipv6 (ip : list N) : bool :=
  match to_ipv4 ip with
  | Some v4 => is_non_public_ipv4 v4 || is_loopback_v6 ip
  | None =>
      is_loopback_v6 ip || is_unspecified_v6 ip || is_multicast_v6 ip || is_unique_local ip || is_unicast_link_local ip
  end.
Definition is_non_public_ip (ip : IpAddr) : bool :=
  match ip with V4 ip => is_non_public_ipv4 ip | V6 ip => is_non_public_ipv6 ip end.
Definition is_loopback_ip (ip : IpAddr) : bool :=
  match ip with V4 ip => is_loopback_v4 ip | V6 ip => is_loopback_v6 ip end.

(** ** Parsing, [std::net::parser] *)

Definition digit_value (radix c : N) : option N :=
  let v := if is_ascii_digit c then Some (c - 48)
           else if is_ascii_lowercase c then Some (c - 97 + 10)
           else if is_ascii_uppercase c then Some (c - 65 + 10)
           else None in
  match v with Some v => if v <? radix then Some v else None | None => None end.
(** The digits at the start, at most [max_digits] of them: one more fails. *)
Fixpoint read_digits (radix limit : N) (digits : nat) (value : N) (s : str) : option (N * nat * str) :=
  match s with
  | [] => Some (value, O, [])
  | c :: s' =>
      match digit_value radix c with
      | None => Some (value, O, s)
      | Some d =>
          match digits with
          | O => None
          | S digits' =>
              let value := value * radix + d in
              if limit <? value then None
              else match read_digits radix limit digits' value s' with
                   | Some (v, n, rest) => Some (v, S n, rest)
                   | None => None
                   end
          end
      end
  end.
Definition read_number (radix limit : N) (max_digits : nat) (allow_zero_prefix : bool) (s : str) : option (N * str) :=
  match read_digits radix limit max_digits 0 s with
  | Some (v, n, rest) =>
      if (n =? 0)%nat then None
      else if negb allow_zero_prefix && bool_decide (head s = Some 48) && (1 <? n)%nat then None
      else Some (v, rest)
  | None => None
  end.
Definition read_char (c : N) (s : str) : option str :=
  match s with x :: s' => if x =? c then Some s' else None | [] => None end.
Definition read_separator {A} (sep : N) (index : nat) (inner : str → option (A * str)) (s : str) : option (A * str) :=
  match index with
  | O => inner s
  | _ => match read_char sep s with Some s => inner s | None => None end
  end.
Definition dot : N := 46.
Definition colon : N := 58.
Definition read_octet : nat → str → option (N * str) := λ i, read_separator dot i (read_number 10 255 3 false).
Definition read_ipv4_addr (s : str) : option (N * str) :=
  '(a, s) ← read_octet 0 s; '(b, s) ← read_octet 1 s; '(c, s) ← read_octet 2 s; '(d, s) ← read_octet 3 s;
  Some (ipv4 a b c d, s).
(** Up to [limit] groups, the [i]-th next; an IPv4 address counts for two and
    ends them. *)
Fixpoint read_groups (limit i : nat) (s : str) : list N * bool * str :=
  match limit with
  | O => ([], false, s)
  | S limit' =>
      match (if (1 <? limit)%nat then read_separator colon i read_ipv4_addr s else None) with
      | Some (v4, s) => ([v4 / 65536; v4 mod 65536], true, s)
      | None =>
          match read_separator colon i (read_number 16 65535 4 true) s with
          | Some (group, s) =>
              let '(groups, saw, s) := read_groups limit' (S i) s in (group :: groups, saw, s)
          | None => ([], false, s)
          end
      end
  end.
Definition read_ipv6_addr (s : str) : option (list N * str) :=
  let '(front, saw_ipv4, s) := read_groups 8 0 s in
  if (length front =? 8)%nat then Some (front, s)
  else if saw_ipv4 then None
  else
    s ← read_char colon s; s ← read_char colon s;
    let '(tail, _, s) := read_groups (8 - (length front + 1)) 0 s in
    Some (front ++ replicate (8 - length front - length tail) 0 ++ tail, s).
Definition parse_ip (s : str) : option IpAddr :=
  match read_ipv4_addr s with
  | Some (ip, rest) => if decide (rest = []) then Some (V4 ip) else None
  | None =>
      match read_ipv6_addr s with
      | Some (ip, rest) => if decide (rest = []) then Some (V6 ip) else None
      | None => None
      end
  end.

Example parse_ip_ex :
  parse_ip (lit "127.0.0.1") = Some (V4 (ipv4 127 0 0 1)) ∧ parse_ip (lit "127.0.0.01") = None
  ∧ parse_ip (lit "1.2.3") = None ∧ parse_ip (lit "256.1.1.1") = None
  ∧ parse_ip (lit "::1") = Some (V6 [0; 0; 0; 0; 0; 0; 0; 1]) ∧ parse_ip (lit "::") = Some (V6 (replicate 8 0))
  ∧ parse_ip (lit "::ffff:10.0.0.1") = Some (V6 [0; 0; 0; 0; 0; 0xFFFF; 0x0A00; 1])
  ∧ parse_ip (lit "fe80::1:2") = Some (V6 [0xFE80; 0; 0; 0; 0; 0; 1; 2])
  ∧ parse_ip (lit "1:2:3:4:5:6:7:8") = Some (V6 [1; 2; 3; 4; 5; 6; 7; 8])
  ∧ parse_ip (lit "1:2:3:4:5:6:7:8:9") = None ∧ parse_ip (lit "1::2::3") = None ∧ parse_ip (lit "example.com") = None.
Proof. vm_compute. done. Qed.

(** * Hosts *)

Definition normalize_dns_host (host : str) : str := trim_end_matches (N.eqb dot) (to_ascii_lowercase host).
Definition count_char (c : N) (s : str) : nat := length (filter (λ x, x = c) s).
Definition normalize_host (host : str) : str :=
  let host := trim host in
  match (if starts_with (lit "[") host then find (lit "]") host else None) with
  | Some last => normalize_dns_host (drop 1 (take last host))
  | None =>
      if bool_decide (count_char colon host = 1%nat) then
        normalize_dns_host (default [] (head (split_char colon host)))
      else normalize_dns_host host
  end.
(** [Host], a wrapped [String]. *)
Record Host : Type := { host_str : str }.
Definition host_parse (input : str) : outcome str Host :=
  let normalized := normalize_host input in
  if decide (normalized = []) then Err (lit "host is empty") else Ok {| host_str := normalized |}.
Definition without_scope (s : str) : str := match split_once 37 s with Some (ip, _) => ip | None => s end.
Definition is_loopback_host (host : Host) : bool :=
  let host := without_scope (host_str host) in
  if decide (host = lit "localhost") then true
  else match parse_ip host with Some ip => is_loopback_ip ip | None => false end.

(** * Domain patterns *)

Definition normalize_pattern (pattern : str) : str :=
  let pattern := trim pattern in
  if decide (pattern = lit "*") then lit "*"
  else match strip_prefix (lit "**.") pattern with
       | Some domain => lit "**." ++ normalize_host domain
       | None =>
           match strip_prefix (lit "*.") pattern with
           | Some domain => lit "*." ++ normalize_host domain
           | None => normalize_host pattern
           end
       end.
Inductive DomainPattern : Type := ApexAndSubdomains (d : str) | SubdomainsOnly (d : str) | Exact (d : str).
Definition parse_domain (domain : str) (build : str → DomainPattern) : DomainPattern :=
  let domain := trim domain in
  if decide (domain = []) then Exact [] else build domain.
Definition pattern_parse (input : str) : DomainPattern :=
  let input := trim input in
  if decide (input = []) then Exact []
  else match strip_prefix (lit "**.") input with
       | Some domain => parse_domain domain ApexAndSubdomains
       | None =>
           match strip_prefix (lit "*.") input with
           | Some domain => parse_domain domain SubdomainsOnly
           | None => Exact input
           end
       end.
Definition expand_domain_pattern (pattern : str) : list str :=
  match pattern_parse pattern with
  | Exact domain => [domain]
  | SubdomainsOnly domain => [lit "?*." ++ domain]
  | ApexAndSubdomains domain => [domain; lit "?*." ++ domain]
  end.
Definition is_global_wildcard_domain_pattern (pattern : str) : bool :=
  existsb (λ candidate, bool_decide (candidate = lit "*")) (expand_domain_pattern (normalize_pattern pattern)).

Definition normalize_domain (domain : str) : str := to_ascii_lowercase (trim_end_matches (N.eqb dot) domain).
Definition domain_eq (left right : str) : bool := bool_decide (normalize_domain left = normalize_domain right).
Definition is_subdomain_or_equal (child parent : str) : bool :=
  let child := normalize_domain child in
  let parent := normalize_domain parent in
  if decide (child = parent) then true else ends_with (dot :: parent) child.
Definition is_strict_subdomain (child parent : str) : bool :=
  let child := normalize_domain child in
  let parent := normalize_domain parent in
  negb (bool_decide (child = parent)) && ends_with (dot :: parent) child.
Definition pattern_allows (self candidate : DomainPattern) : bool :=
  match self, candidate with
  | Exact domain, Exact candidate => domain_eq candidate domain
  | Exact _, _ => false
  | SubdomainsOnly domain, Exact candidate => is_strict_subdomain candidate domain
  | SubdomainsOnly domain, SubdomainsOnly candidate => is_subdomain_or_equal candidate domain
  | SubdomainsOnly domain, ApexAndSubdomains candidate => is_strict_subdomain candidate domain
  | ApexAndSubdomains domain, (Exact candidate | SubdomainsOnly candidate | ApexAndSubdomains candidate) =>
      is_subdomain_or_equal candidate domain
  end.

(** [url::Host::parse] followed by [to_string]: the canonical form of a host,
    or an error. *)
Class UrlHost : Type := { url_host : str → option str }.
Definition parse_domain_for_constraints `{UrlHost} (domain : str) : str :=
  let domain := trim_end_matches (N.eqb dot) (trim domain) in
  if decide (domain = []) then []
  else
    let host := if starts_with (lit "[") domain && ends_with (lit "]") domain
                then drop 1 (take (length domain - 1) domain) else domain in
    if contains_char 42 host || contains_char 63 host || contains_char 37 host then domain
    else match url_host host with Some host => host | None => [] end.
Definition parse_for_constraints `{UrlHost} (input : str) : DomainPattern :=
  let input := trim input in
  if decide (input = []) then Exact []
  else match strip_prefix (lit "**.") input with
       | Some domain => ApexAndSubdomains (parse_domain_for_constraints domain)
       | None =>
           match strip_prefix (lit "*.") input with
           | Some domain => SubdomainsOnly (parse_domain_for_constraints domain)
           | None => Exact (parse_domain_for_constraints input)
           end
       end.

(** ** Sets of globs *)

(** A text without the characters that mean something in a glob. *)
Definition plain_glob (s : str) : Prop := Forall (λ c, c ∉ lit "*?[]{}\!,/") s.
(** The globset crate, with its case-insensitive option: which globs and sets of
    globs it accepts, and what a glob matches. Texts without special characters
    match themselves, [?*.] before such a text matches what ends with it after
    something and a dot, and [*] matches everything. *)
Class Globset : Type := {
  glob_accepts : str → bool;
  globset_accepts : list str → bool;
  glob_matches : str → str → bool;
  glob_plain p h : plain_glob p → glob_matches p h = true ↔ to_ascii_lowercase h = to_ascii_lowercase p;
  glob_below p h : plain_glob p →
    glob_matches (lit "?*." ++ p) h = true
    ↔ ∃ l, l ≠ [] ∧ to_ascii_lowercase h = l ++ dot :: to_ascii_lowercase p;
  glob_any h : glob_matches (lit "*") h = true }.
Inductive GlobalWildcard : Type := AllowWildcard | RejectWildcard.
Inductive GlobsetError : Type := UnsupportedWildcard | InvalidGlob (candidate : str) | BuildFailed.
(** [GlobSet], the globs it was built from. *)
Definition GlobSet : Type := list str.
Definition is_match `{Globset} (set : GlobSet) (host : str) : bool := existsb (λ p, glob_matches p host) set.
Fixpoint add_candidates `{Globset} (candidates : list str) (seen : GlobSet) : outcome GlobsetError GlobSet :=
  match candidates with
  | [] => Ok seen
  | candidate :: candidates' =>
      if bool_decide (candidate ∈ seen) then add_candidates candidates' seen
      else if glob_accepts candidate then add_candidates candidates' (seen ++ [candidate])
      else Err (InvalidGlob candidate)
  end.
Fixpoint add_patterns `{Globset} (wildcard : GlobalWildcard) (patterns : list str) (seen : GlobSet)
    : outcome GlobsetError GlobSet :=
  match patterns with
  | [] => Ok seen
  | pattern :: patterns' =>
      if match wildcard with RejectWildcard => is_global_wildcard_domain_pattern pattern | AllowWildcard => false end then
        Err UnsupportedWildcard
      else
        seen ← add_candidates (expand_domain_pattern (normalize_pattern pattern)) seen;
        add_patterns wildcard patterns' seen
  end.
Definition compile_globset_with_policy `{Globset} (patterns : list str) (wildcard : GlobalWildcard)
    : outcome GlobsetError GlobSet :=
  set ← add_patterns wildcard patterns [];
  if globset_accepts set then Ok set else Err BuildFailed.
Definition compile_allowlist_globset `{Globset} (patterns : list str) := compile_globset_with_policy patterns AllowWildcard.
Definition compile_denylist_globset `{Globset} (patterns : list str) := compile_globset_with_policy patterns RejectWildcard.

Example normalize_host_ex :
  normalize_host (lit " ExAmPlE.CoM.:443 ") = lit "example.com" ∧ normalize_host (lit "[::1]:80") = lit "::1"
  ∧ normalize_host (lit "fe80::1%lo0") = lit "fe80::1%lo0" ∧ normalize_pattern (lit "*.Example.COM.") = lit "*.example.com"
  ∧ expand_domain_pattern (lit "**.a.b") = [lit "a.b"; lit "?*.a.b"]
  ∧ is_global_wildcard_domain_pattern (lit "**.*") = true
  ∧ pattern_allows (SubdomainsOnly (lit "b.c")) (Exact (lit "a.B.c.")) = true
  ∧ pattern_allows (SubdomainsOnly (lit "b.c")) (Exact (lit "b.c")) = false.
Proof. vm_compute. done. Qed.

(** * Lemmas *)

(** ** Letters *)

Lemma lowercase_char_idem c : to_ascii_lowercase_char (to_ascii_lowercase_char c) = to_ascii_lowercase_char c.
Proof.
  unfold to_ascii_lowercase_char. destruct (is_ascii_uppercase c) eqn:E; [|by rewrite E].
  destruct (is_ascii_uppercase (c + 32)) eqn:E2; [|done]. unfold is_ascii_uppercase in *. lia.
Qed.

Lemma lowercase_idem s : to_ascii_lowercase (to_ascii_lowercase s) = to_ascii_lowercase s.
Proof.
  unfold to_ascii_lowercase. rewrite <-list_fmap_compose. apply list_fmap_ext. intros ???. apply lowercase_char_idem.
Qed.

(** A name of the domain name system: letters, digits, hyphens and dots. *)
Definition dns_char (c : N) : bool := is_ascii_alphanumeric c || (c =? 45) || (c =? dot).
Definition dns_text (s : str) : Prop := Forall (λ c, dns_char c = true) s.

Lemma dns_char_spec c :
  dns_char c = true ↔ 48 ≤ c ≤ 57 ∨ 65 ≤ c ≤ 90 ∨ 97 ≤ c ≤ 122 ∨ c = 45 ∨ c = 46.
Proof.
  unfold dns_char, is_ascii_alphanumeric, is_ascii_digit, is_ascii_uppercase, is_ascii_lowercase, dot. lia.
Qed.

Lemma dns_text_not c s : dns_text s → dns_char c = false → c ∉ s.
Proof. intros Hs Hc Hin. eapply Forall_forall in Hs; [|done]. simpl in Hs. congruence. Qed.

Lemma dns_char_not_space c : dns_char c = true → is_whitespace c = false.
Proof. rewrite dns_char_spec. unfold is_whitespace. lia. Qed.

Lemma trim_start_not (p : N → bool) s : Forall (λ c, p c = false) s → trim_start_matches p s = s.
Proof. intros Hs. destruct Hs as [|c s Hc Hs]; [done|]. simpl. by rewrite Hc. Qed.

Lemma trim_end_not (p : N → bool) s : Forall (λ c, p c = false) s → trim_end_matches p s = s.
Proof.
  intros Hs. unfold trim_end_matches. rewrite trim_start_not; [apply reverse_involutive|]. by apply Forall_reverse.
Qed.

Lemma dns_trim s : dns_text s → trim s = s.
Proof.
  intros Hs. assert (Hw : Forall (λ c, is_whitespace c = false) s)
    by (eapply Forall_impl; [exact Hs|apply dns_char_not_space]).
  unfold trim, trim_end, trim_start. by rewrite trim_start_not, trim_end_not.
Qed.

Lemma trim_start_matches_Forall (P : N → Prop) p s : Forall P s → Forall P (trim_start_matches p s).
Proof. rewrite !Forall_forall. intros Hs x Hx. eapply Hs, trim_start_matches_incl, Hx. Qed.

Lemma trim_end_matches_Forall (P : N → Prop) p s : Forall P s → Forall P (trim_end_matches p s).
Proof. rewrite !Forall_forall. intros Hs x Hx. eapply Hs, trim_end_matches_incl, Hx. Qed.

Lemma trim_start_matches_idem p s : trim_start_matches p (trim_start_matches p s) = trim_start_matches p s.
Proof.
  induction s as [|c s IH]; [done|]. simpl. destruct (p c) eqn:E; [done|]. simpl. by rewrite E.
Qed.

Lemma trim_end_matches_idem p s : trim_end_matches p (trim_end_matches p s) = trim_end_matches p s.
Proof. unfold trim_end_matches. by rewrite reverse_involutive, trim_start_matches_idem. Qed.

Lemma trim_start_matches_fmap p f s :
  (∀ c, p (f c) = p c) → trim_start_matches p (f <$> s) = f <$> trim_start_matches p s.
Proof. intros Hf. induction s as [|c s IH]; [done|]. simpl. rewrite Hf. by destruct (p c). Qed.

Lemma reverse_fmap {A B} (f : A → B) l : reverse (f <$> l) = f <$> reverse l.
Proof. symmetry. apply fmap_reverse. Qed.

Lemma lowercase_dot c : (dot =? to_ascii_lowercase_char c) = (dot =? c).
Proof. unfold to_ascii_lowercase_char, is_ascii_uppercase, dot. destruct (_ && _) eqn:E; lia. Qed.

Lemma trim_dots_lowercase s :
  trim_end_matches (N.eqb dot) (to_ascii_lowercase s) = to_ascii_lowercase (trim_end_matches (N.eqb dot) s).
Proof.
  unfold trim_end_matches, to_ascii_lowercase. rewrite reverse_fmap, trim_start_matches_fmap; [|apply lowercase_dot].
  apply reverse_fmap.
Qed.

Lemma normalize_dns_host_idem s : normalize_dns_host (normalize_dns_host s) = normalize_dns_host s.
Proof. unfold normalize_dns_host. by rewrite <-trim_dots_lowercase, trim_end_matches_idem, lowercase_idem. Qed.

Lemma dns_lowercase s : dns_text s → dns_text (to_ascii_lowercase s).
Proof.
  unfold dns_text, to_ascii_lowercase. rewrite Forall_fmap. intros Hs. eapply Forall_impl; [exact Hs|]. intros c. simpl.
  rewrite !dns_char_spec. unfold to_ascii_lowercase_char, is_ascii_uppercase. destruct (_ && _) eqn:E; lia.
Qed.

Lemma dns_normalize_dns_host s : dns_text s → dns_text (normalize_dns_host s).
Proof. intros Hs. unfold normalize_dns_host. by apply trim_end_matches_Forall, dns_lowercase. Qed.

Lemma starts_with_head c p s : starts_with (c :: p) s = true → head s = Some c.
Proof. intros [t ->]%starts_with_spec. done. Qed.

Lemma starts_with_not c p s : c ∉ s → starts_with (c :: p) s = false.
Proof.
  intros Hc. destruct (starts_with (c :: p) s) eqn:E; [|done]. apply starts_with_head in E.
  destruct s as [|x s]; [done|]. injection E as ->. set_solver.
Qed.

Lemma count_char_not c s : c ∉ s → count_char c s = 0%nat.
Proof. intros Hc. unfold count_char. rewrite filter_false; [done|]. intros x Hx ->. done. Qed.

Lemma dns_normalize_host s : dns_text s → normalize_host s = normalize_dns_host s.
Proof.
  intros Hs. unfold normalize_host. rewrite dns_trim by done. cbv zeta.
  change (lit "[") with [91]. rewrite starts_with_not by by eapply dns_text_not.
  rewrite count_char_not by by eapply dns_text_not. done.
Qed.

(** A normalised name is what the normalisation keeps. *)
Definition dns_name (h : str) : Prop := dns_text h ∧ normalize_dns_host h = h ∧ h ≠ [].

Lemma dns_name_normalized s : dns_text s → normalize_host s ≠ [] → dns_name (normalize_host s).
Proof.
  intros Hs Hn. rewrite dns_normalize_host in * by done. split; [by apply dns_normalize_dns_host|].
  split; [apply normalize_dns_host_idem|done].
Qed.

Lemma dns_name_lowercase h : dns_name h → to_ascii_lowercase h = h.
Proof.
  intros (_ & Hn & _). rewrite <-Hn at 2. rewrite <-Hn at 1. unfold normalize_dns_host.
  by rewrite trim_dots_lowercase, lowercase_idem.
Qed.

Lemma dns_name_host h : dns_name h → normalize_host h = h.
Proof. intros (Ht & Hn & _). by rewrite dns_normalize_host. Qed.

Lemma dns_plain s : dns_text s → plain_glob s.
Proof.
  intros Hs. eapply Forall_impl; [exact Hs|]. intros c Hc%dns_char_spec Hin.
  change (lit "*?[]{}\!,/") with [42; 63; 91; 93; 123; 125; 92; 33; 44; 47] in Hin.
  rewrite !elem_of_cons, elem_of_nil in Hin. lia.
Qed.

(** ** Patterns *)

Lemma trim_start_matches_keeps p c s : p c = false → c ∈ s → c ∈ trim_start_matches p s.
Proof.
  intros Hc. induction s as [|x s IH]; [done|]. intros Hin. simpl. destruct (p x) eqn:E; [|done].
  apply IH. apply elem_of_cons in Hin as [->|Hin]; congruence.
Qed.

Lemma trim_end_matches_keeps p c s : p c = false → c ∈ s → c ∈ trim_end_matches p s.
Proof.
  intros Hc Hin. unfold trim_end_matches. apply elem_of_reverse, trim_start_matches_keeps; [done|]. by apply elem_of_reverse.
Qed.

Definition star : N := 42.
Lemma star_normalize_dns_host s : star ∈ s → star ∈ normalize_dns_host s.
Proof.
  intros Hs. apply trim_end_matches_keeps; [done|]. apply list_elem_of_fmap. by exists star.
Qed.

Lemma star_normalize_host s : head (trim s) = Some star → star ∈ normalize_host s.
Proof.
  unfold normalize_host. cbv zeta. destruct (trim s) as [|c t]; [done|]. intros [= ->].
  change (lit "[") with [91]. assert (Hs : starts_with [91] (star :: t) = false) by done. rewrite Hs.
  destruct (bool_decide _); apply star_normalize_dns_host; [|left].
  cbn [split_char]. change (star =? colon) with false. cbv iota. destruct (split_char colon t); simpl; left.
Qed.

Lemma trim_start_matches_suffix p s : ∃ k, s = k ++ trim_start_matches p s.
Proof.
  induction s as [|c s [k IH]]; [by exists []|]. simpl. destruct (p c); [exists (c :: k); simpl; congruence|by exists []].
Qed.

Lemma trim_end_matches_prefix p s : ∃ k, s = trim_end_matches p s ++ k.
Proof.
  destruct (trim_start_matches_suffix p (reverse s)) as [k Hk]. exists (reverse k). unfold trim_end_matches.
  by rewrite <-reverse_app, <-Hk, reverse_involutive.
Qed.

Lemma trim_start_matches_head p s c t : trim_start_matches p s = c :: t → p c = false.
Proof. induction s as [|x s IH]; [done|]. simpl. destruct (p x) eqn:E; [done|]. by intros [= -> ->]. Qed.

Lemma trim_idem s : trim (trim s) = trim s.
Proof.
  unfold trim. assert (Hs : trim_start (trim_end (trim_start s)) = trim_end (trim_start s)).
  { destruct (trim_end_matches_prefix is_whitespace (trim_start s)) as [k Hk]. fold trim_end in Hk.
    destruct (trim_end (trim_start s)) as [|c t]; [done|]. apply trim_start_matches_id.
    by eapply (trim_start_matches_head _ s). }
  rewrite Hs. apply trim_end_matches_idem.
Qed.

Lemma normalize_host_trim s : normalize_host (trim s) = normalize_host s.
Proof. unfold normalize_host. by rewrite trim_idem. Qed.

Lemma dns_name_not_star h : dns_name h → star ∉ h.
Proof. intros [Ht _]. by eapply dns_text_not. Qed.

(** What does not start with a star is normalised as a host. *)
Lemma normalize_pattern_host p : head (trim p) ≠ Some star → normalize_pattern p = normalize_host p.
Proof.
  intros Hs. unfold normalize_pattern. cbv zeta. rewrite normalize_host_trim.
  destruct (trim p) as [|c t] eqn:Et; [done|]. assert (Hc : c ≠ 42) by (intros ->; done).
  case_decide as E; [by injection E as ->|].
  change (lit "**.") with (42 :: lit "*."). change (lit "*.") with (42 :: lit "."). cbn [strip_prefix].
  by rewrite (proj2 (N.eqb_neq 42 c)).
Qed.

Lemma expand_dns_name h : dns_name h → expand_domain_pattern h = [h].
Proof.
  intros Hd. pose proof (dns_name_not_star h Hd) as Hs. destruct Hd as (Ht & _ & Hn).
  unfold expand_domain_pattern, pattern_parse. cbv zeta. rewrite dns_trim by done.
  rewrite decide_False by done. destruct h as [|c t]; [done|].
  assert (Hc : c ≠ 42) by (intros ->; apply Hs; left).
  change (lit "**.") with (42 :: lit "*."). change (lit "*.") with (42 :: lit "."). cbn [strip_prefix].
  by rewrite (proj2 (N.eqb_neq 42 c)).
Qed.

(** Every writing of a name, with capitals, a port, brackets or final dots,
    expands to the name. *)
Lemma expand_normalized p : dns_name (normalize_host p) → expand_domain_pattern (normalize_pattern p) = [normalize_host p].
Proof.
  intros Hd. rewrite normalize_pattern_host; [by apply expand_dns_name|].
  intros Hs. apply (dns_name_not_star _ Hd), star_normalize_host, Hs.
Qed.

(** [*.name] and [**.name]. *)
Lemma trim_star_dns p h : Forall (λ c, is_whitespace c = false) p → dns_text h → trim (p ++ h) = p ++ h.
Proof.
  intros Hp Hh. unfold trim, trim_start, trim_end.
  assert (Hw : Forall (λ c, is_whitespace c = false) (p ++ h)).
  { apply Forall_app. split; [done|]. eapply Forall_impl; [exact Hh|apply dns_char_not_space]. }
  by rewrite trim_start_not, trim_end_not.
Qed.

Lemma expand_subdomains h : dns_name h → expand_domain_pattern (normalize_pattern (lit "*." ++ h)) = [lit "?*." ++ h].
Proof.
  intros Hd. pose proof (dns_name_host h Hd) as Hh. destruct Hd as (Ht & _ & Hn).
  assert (Htr : trim (lit "*." ++ h) = lit "*." ++ h) by (apply trim_star_dns; [by repeat constructor|done]).
  assert (Hp : normalize_pattern (lit "*." ++ h) = lit "*." ++ h).
  { unfold normalize_pattern. rewrite Htr. cbv zeta. rewrite decide_False by done.
    change (strip_prefix (lit "**.") (lit "*." ++ h)) with (@None str). cbv iota. rewrite strip_prefix_app, Hh. done. }
  rewrite Hp. unfold expand_domain_pattern, pattern_parse. rewrite Htr. cbv zeta. rewrite decide_False by done.
  change (strip_prefix (lit "**.") (lit "*." ++ h)) with (@None str). cbv iota. rewrite strip_prefix_app.
  unfold parse_domain. rewrite dns_trim by done. cbv zeta. by rewrite decide_False.
Qed.

Lemma expand_apex h : dns_name h → expand_domain_pattern (normalize_pattern (lit "**." ++ h)) = [h; lit "?*." ++ h].
Proof.
  intros Hd. pose proof (dns_name_host h Hd) as Hh. destruct Hd as (Ht & _ & Hn).
  assert (Htr : trim (lit "**." ++ h) = lit "**." ++ h) by (apply trim_star_dns; [by repeat constructor|done]).
  assert (Hp : normalize_pattern (lit "**." ++ h) = lit "**." ++ h).
  { unfold normalize_pattern. rewrite Htr. cbv zeta. rewrite decide_False by done.
    rewrite strip_prefix_app, Hh. done. }
  rewrite Hp. unfold expand_domain_pattern, pattern_parse. rewrite Htr. cbv zeta. rewrite decide_False by done.
  rewrite strip_prefix_app. unfold parse_domain. rewrite dns_trim by done. cbv zeta. by rewrite decide_False.
Qed.

(** ** Compiled sets *)

Section globs.
Context `{Globset}.

Lemma add_candidates_elem cs seen seen' :
  add_candidates cs seen = Ok seen' → ∀ x, x ∈ seen' ↔ x ∈ seen ∨ x ∈ cs.
Proof.
  revert seen. induction cs as [|c cs IH]; intros seen; simpl; [intros [= ->]; set_solver|].
  case_bool_decide as E; [intros Hs x; rewrite (IH _ Hs); set_solver|].
  destruct (glob_accepts c); [|done]. intros Hs x. rewrite (IH _ Hs). set_solver.
Qed.

Lemma add_patterns_elem w ps seen seen' :
  add_patterns w ps seen = Ok seen' →
  ∀ x, x ∈ seen' ↔ x ∈ seen ∨ ∃ p, p ∈ ps ∧ x ∈ expand_domain_pattern (normalize_pattern p).
Proof.
  revert seen. induction ps as [|p ps IH]; intros seen; simpl; [intros [= ->]; set_solver|].
  destruct (match w with RejectWildcard => _ | AllowWildcard => _ end); [done|].
  intros (s1 & H1 & H2)%bind_Ok_inv x. rewrite (IH _ H2), (add_candidates_elem _ _ _ H1). set_solver.
Qed.

Lemma compile_elem w ps set :
  compile_globset_with_policy ps w = Ok set →
  ∀ x, x ∈ set ↔ ∃ p, p ∈ ps ∧ x ∈ expand_domain_pattern (normalize_pattern p).
Proof.
  unfold compile_globset_with_policy. intros (s1 & H1 & H2)%bind_Ok_inv x.
  destruct (globset_accepts s1); [|done]. injection H2 as <-. rewrite (add_patterns_elem _ _ _ _ H1). set_solver.
Qed.

Lemma compile_is_match w ps set h :
  compile_globset_with_policy ps w = Ok set →
  is_match set h = true
  ↔ ∃ p g, p ∈ ps ∧ g ∈ expand_domain_pattern (normalize_pattern p) ∧ glob_matches g h = true.
Proof.
  intros Hc. unfold is_match. rewrite existsb_elem. setoid_rewrite (compile_elem _ _ _ Hc). naive_solver.
Qed.

Lemma glob_dns_name p h : dns_name p → to_ascii_lowercase h = h → glob_matches p h = true ↔ h = p.
Proof.
  intros Hp Hh. pose proof (dns_name_lowercase p Hp) as Hl. destruct Hp as [Ht _].
  by rewrite glob_plain, Hl, Hh by by apply dns_plain.
Qed.

Lemma glob_below_dns_name p h :
  dns_name p → to_ascii_lowercase h = h → glob_matches (lit "?*." ++ p) h = true ↔ ∃ l, l ≠ [] ∧ h = l ++ dot :: p.
Proof.
  intros Hp Hh. pose proof (dns_name_lowercase p Hp) as Hl. destruct Hp as [Ht _].
  by rewrite glob_below, Hl, Hh by by apply dns_plain.
Qed.

(** A listed name is matched by the set compiled from the list. *)
Lemma compile_matches_name w ps set p :
  compile_globset_with_policy ps w = Ok set → p ∈ ps → dns_name (normalize_host p) →
  is_match set (normalize_host p) = true.
Proof.
  intros Hc Hp Hd. apply (compile_is_match _ _ _ _ Hc). exists p, (normalize_host p).
  rewrite expand_normalized by done. split; [done|]. split; [left|].
  apply glob_dns_name; [done|by apply dns_name_lowercase|done].
Qed.
End globs.

(** ** Which hosts a pattern covers *)

Definition below (h parent : str) : Prop := ∃ l, l ≠ [] ∧ h = l ++ dot :: parent.
Definition covers (p : DomainPattern) (h : str) : Prop :=
  match p with
  | Exact d => normalize_domain h = normalize_domain d
  | SubdomainsOnly d => below (normalize_domain h) (normalize_domain d)
  | ApexAndSubdomains d =>
      normalize_domain h = normalize_domain d ∨ below (normalize_domain h) (normalize_domain d)
  end.
Definition pattern_domain (p : DomainPattern) : str :=
  match p with ApexAndSubdomains d | SubdomainsOnly d | Exact d => d end.

Lemma normalize_domain_idem d : normalize_domain (normalize_domain d) = normalize_domain d.
Proof. unfold normalize_domain. by rewrite trim_dots_lowercase, trim_end_matches_idem, lowercase_idem. Qed.

Lemma normalize_domain_prepend l d :
  to_ascii_lowercase l = l → normalize_domain d ≠ [] →
  normalize_domain (l ++ dot :: normalize_domain d) = l ++ dot :: normalize_domain d.
Proof.
  intros Hl Hd. unfold normalize_domain at 1.
  assert (Ht : trim_end_matches (N.eqb dot) (normalize_domain d) = normalize_domain d).
  { unfold normalize_domain. by rewrite trim_dots_lowercase, trim_end_matches_idem. }
  assert (Ha : trim_end_matches (N.eqb dot) (l ++ dot :: normalize_domain d) = l ++ dot :: normalize_domain d).
  { rewrite (cons_middle dot l), !app_assoc. rewrite <-Ht at 2. unfold trim_end_matches in *.
    rewrite reverse_app, trim_start_matches_app; [by rewrite reverse_app, reverse_involutive|].
    intros E. apply Hd. by rewrite <-Ht, E. }
  rewrite Ha. unfold to_ascii_lowercase in *. rewrite fmap_app, fmap_cons, Hl. f_equal. f_equal.
  fold (to_ascii_lowercase (normalize_domain d)). unfold normalize_domain. apply lowercase_idem.
Qed.

(** Labels long enough not to be part of a shorter name. *)
Definition long_label (n : nat) : str := replicate (S n) 120.
Lemma long_label_lowercase n : to_ascii_lowercase (long_label n) = long_label n.
Proof. unfold to_ascii_lowercase, long_label. by rewrite fmap_replicate. Qed.

Lemma app_dot_suffix (a b c d : str) :
  a ++ dot :: b = c ++ dot :: d → (length b ≤ length d)%nat → b = d ∨ ∃ k, d = k ++ dot :: b.
Proof.
  intros He Hl. apply app_eq_inv in He as [(k & -> & Hk)|(k & -> & Hk)].
  - destruct k as [|x k]; [left; by injection Hk|]. injection Hk as _ ->. right. by exists k.
  - destruct k as [|x k]; [left; by injection Hk|]. injection Hk as _ ->. rewrite length_app in Hl. simpl in Hl. lia.
Qed.

Lemma long_label_below n (c d : str) :
  (length d ≤ n)%nat → below (long_label n ++ dot :: c) d → c = d ∨ ∃ k, c = k ++ dot :: d.
Proof.
  intros Hn (l & _ & He). destruct (decide (length d ≤ length c)%nat) as [Hl|Hl].
  { symmetry in He. destruct (app_dot_suffix _ _ _ _ He Hl) as [->|Hk]; [by left|by right]. }
  exfalso. assert (Hd : (dot :: d) `suffix_of` (long_label n ++ dot :: c)) by (rewrite He; by eexists).
  destruct Hd as [k Hk]. apply app_eq_inv in Hk as [(j & Hj & Hk)|(j & -> & Hk)].
  - destruct j as [|x j]; [injection Hk as <-; lia|]. injection Hk as <- _.
    assert (Hin : dot ∈ long_label n) by (rewrite Hj; set_solver).
    apply elem_of_replicate_inv in Hin. done.
  - destruct j as [|x j]; [injection Hk as <-; lia|]. injection Hk as _ Hk.
    assert (Hlen := f_equal length Hk). rewrite length_app in Hlen. simpl in Hlen. lia.
Qed.

Lemma is_strict_subdomain_spec c d :
  is_strict_subdomain c d = true
  ↔ normalize_domain c ≠ normalize_domain d ∧ ∃ k, normalize_domain c = k ++ dot :: normalize_domain d.
Proof.
  unfold is_strict_subdomain. cbv zeta.
  rewrite andb_true_iff, negb_true_iff, bool_decide_eq_false, ends_with_spec. done.
Qed.

Lemma is_subdomain_or_equal_spec c d :
  is_subdomain_or_equal c d = true
  ↔ normalize_domain c = normalize_domain d ∨ ∃ k, normalize_domain c = k ++ dot :: normalize_domain d.
Proof.
  unfold is_subdomain_or_equal. cbv zeta. case_decide; [tauto|]. rewrite ends_with_spec. naive_solver.
Qed.

Section allows.
Context (c d : str) (Hc : normalize_domain c ≠ []) (Hdot : head (normalize_domain c) ≠ Some dot).

Lemma strict_below : is_strict_subdomain c d = true ↔ below (normalize_domain c) (normalize_domain d).
Proof using Hdot.
  rewrite is_strict_subdomain_spec. unfold below. split.
  - intros [_ [k Hk]]. exists k. split; [|done]. intros ->. by rewrite Hk in Hdot.
  - intros (k & Hk & He). split; [|by exists k]. rewrite He. intros E. assert (Hlen := f_equal length E).
    rewrite length_app in Hlen. simpl in Hlen. lia.
Qed.

Lemma equal_or_below :
  is_subdomain_or_equal c d = true ↔ normalize_domain c = normalize_domain d ∨ below (normalize_domain c) (normalize_domain d).
Proof using Hdot.
  rewrite is_subdomain_or_equal_spec. unfold below. split.
  - intros [?|[k Hk]]; [by left|]. right. exists k. split; [|done]. intros ->. by rewrite Hk in Hdot.
  - intros [?|(k & _ & Hk)]; [by left|right; by exists k].
Qed.

(** The subdomains of [c] are [d] or below it only when [c] is. *)
Lemma all_below_eq :
  (∀ h, below (normalize_domain h) (normalize_domain c) →
        normalize_domain h = normalize_domain d ∨ below (normalize_domain h) (normalize_domain d)) →
  is_subdomain_or_equal c d = true.
Proof using Hc.
  rewrite is_subdomain_or_equal_spec. intros Hb. set (n := length (normalize_domain d)).
  destruct (Hb (long_label n ++ dot :: normalize_domain c)) as [He|Hd];
    rewrite ?normalize_domain_prepend in * by (by apply long_label_lowercase || done).
  - by exists (long_label n).
  - exfalso. assert (Hlen := f_equal length He). unfold long_label in Hlen.
    rewrite length_app, length_replicate in Hlen. simpl in Hlen. subst n. lia.
  - by apply (long_label_below n).
Qed.

Lemma all_below :
  is_subdomain_or_equal c d = true →
  ∀ h, below (normalize_domain h) (normalize_domain c) → below (normalize_domain h) (normalize_domain d).
Proof.
  rewrite is_subdomain_or_equal_spec. intros He h (l & Hl & ->). destruct He as [->|[k ->]]; [by exists l|].
  exists (l ++ dot :: k). split; [by destruct l|]. by rewrite <-!app_assoc.
Qed.

Lemma some_below : ∃ h h', below (normalize_domain h) (normalize_domain c)
  ∧ below (normalize_domain h') (normalize_domain c) ∧ normalize_domain h ≠ normalize_domain h'.
Proof using Hc.
  exists (long_label 0 ++ dot :: normalize_domain c), (long_label 1 ++ dot :: normalize_domain c).
  rewrite !normalize_domain_prepend by (by apply long_label_lowercase || done).
  split; [by exists (long_label 0)|]. split; [by exists (long_label 1)|].
  intros E. assert (Hlen := f_equal length E). rewrite !length_app in Hlen. simpl in Hlen. lia.
Qed.
End allows.

Lemma pattern_allows_covers p q :
  normalize_domain (pattern_domain q) ≠ [] → head (normalize_domain (pattern_domain q)) ≠ Some dot →
  pattern_allows p q = true ↔ ∀ h, covers q h → covers p h.
Proof.
  destruct p as [d|d|d], q as [c|c|c]; cbn [pattern_allows pattern_domain covers]; intros Hc Hdot.
  - split.
    + intros Hcd h [->|Hb]; [by apply equal_or_below|]. right. by apply (all_below c d).
    + intros Hh. apply (all_below_eq c d Hc). auto.
  - split; [|apply (all_below_eq c d Hc)]. intros Hcd h Hb. right. by apply (all_below c d).
  - rewrite (equal_or_below c d Hdot). split; [by intros ? ? ->|by auto].
  - rewrite (strict_below c d Hdot). split; [|by auto]. intros Hb h [->|Hh]; [done|].
    apply (all_below c d); [|done]. apply (equal_or_below c d Hdot). by right.
  - split; [apply (all_below c d)|]. intros Hh. apply (all_below_eq c d Hc). auto.
  - rewrite (strict_below c d Hdot). split; [by intros ? ? ->|by auto].
  - split; [done|]. intros Hh. destruct (some_below c Hc) as (h & h' & H1 & H2 & Hne).
    exfalso. apply Hne. rewrite (Hh h) by auto. symmetry. auto.
  - split; [done|]. intros Hh. destruct (some_below c Hc) as (h & h' & H1 & H2 & Hne).
    exfalso. apply Hne. rewrite (Hh h) by auto. symmetry. auto.
  - unfold domain_eq. rewrite bool_decide_eq_true. split; [by intros -> ?|]. intros Hh. by apply Hh.
Qed.

(** ** Address ranges *)

Lemma land_prefix ip k :
  ip < 2 ^ 32 → k <= 32 → N.land ip (N.land (N.shiftl 4294967295 k) 4294967295) = ip / 2 ^ k * 2 ^ k.
Proof.
  intros Hip Hk. rewrite <-N.shiftr_div_pow2, <-N.shiftl_mul_pow2. change 4294967295 with (N.ones 32).
  apply N.bits_inj. intros i. rewrite !N.land_spec.
  assert (Hhigh : 32 <= i → N.testbit ip i = false).
  { intros Hi. rewrite <-(N.mod_small ip (2 ^ 32)) by done. by apply N.mod_pow2_bits_high. }
  destruct (N.lt_ge_cases i k) as [Hik|Hik].
  - rewrite !N.shiftl_spec_low by done. by rewrite andb_false_r.
  - rewrite !N.shiftl_spec_high', N.shiftr_spec' by done. replace (i - k + k) with i by lia.
    destruct (N.lt_ge_cases i 32) as [Hi|Hi]; [|by rewrite Hhigh].
    rewrite !N.ones_spec_low by lia. by rewrite !andb_true_r.
Qed.

Lemma in_cidr_range ip base prefix k :
  prefix = 32 - k → ip < 2 ^ 32 → base < 2 ^ 32 → 0 < k → k < 32 → base mod 2 ^ k = 0 →
  ipv4_in_cidr ip base prefix = (base <=? ip) && (ip <? base + 2 ^ k).
Proof.
  intros -> Hip Hbase Hk0 Hk Hb. unfold ipv4_in_cidr.
  assert (Hp : (32 - k =? 0) = false) by lia. rewrite Hp. replace (32 - (32 - k)) with k by lia. cbv zeta.
  rewrite !land_prefix by lia. pose proof (N.pow_nonzero 2 k ltac:(lia)) as Hnz.
  pose proof (N.div_mod' base (2 ^ k)) as E1. pose proof (N.div_mod' ip (2 ^ k)) as E2.
  pose proof (N.mod_lt ip (2 ^ k) Hnz) as Hm. rewrite Hb in E1. rewrite (N.mul_comm (base / _)), (N.mul_comm (ip / _)).
  set (q := ip / 2 ^ k) in *. set (b := base / 2 ^ k) in *. set (P := 2 ^ k) in *. clearbody q b P.
  destruct (N.lt_trichotomy q b) as [Hlt|[->|Hlt]]; nia.
Qed.

(** The ranges of addresses that are not public, by first and last address. *)
Definition non_public_ranges : list (N * N) :=
  [(ipv4 0 0 0 0, ipv4 0 255 255 255); (ipv4 10 0 0 0, ipv4 10 255 255 255); (ipv4 100 64 0 0, ipv4 100 127 255 255);
   (ipv4 127 0 0 0, ipv4 127 255 255 255); (ipv4 169 254 0 0, ipv4 169 254 255 255); (ipv4 172 16 0 0, ipv4 172 31 255 255);
   (ipv4 192 0 0 0, ipv4 192 0 0 255); (ipv4 192 0 2 0, ipv4 192 0 2 255); (ipv4 192 168 0 0, ipv4 192 168 255 255);
   (ipv4 198 18 0 0, ipv4 198 19 255 255); (ipv4 198 51 100 0, ipv4 198 51 100 255); (ipv4 203 0 113 0, ipv4 203 0 113 255);
   (ipv4 224 0 0 0, ipv4 255 255 255 255)].
Definition in_range (ip : N) (r : N * N) : bool := (r.1 <=? ip) && (ip <=? r.2).

Lemma octets_range ip :
  ip < 2 ^ 32 →
  octet ip 0 = ip / 16777216 ∧ octet ip 1 = ip / 65536 mod 256.
Proof.
  intros Hip. unfold octet. change (256 ^ (3 - 0)) with 16777216. change (256 ^ (3 - 1)) with 65536.
  split; [|done]. apply N.mod_small. apply N.Div0.div_lt_upper_bound. lia.
Qed.

Lemma classes_ranges ip :
  ip < 2 ^ 32 →
  is_loopback_v4 ip = in_range ip (ipv4 127 0 0 0, ipv4 127 255 255 255)
  ∧ is_private ip = in_range ip (ipv4 10 0 0 0, ipv4 10 255 255 255) || in_range ip (ipv4 172 16 0 0, ipv4 172 31 255 255)
                    || in_range ip (ipv4 192 168 0 0, ipv4 192 168 255 255)
  ∧ is_link_local ip = in_range ip (ipv4 169 254 0 0, ipv4 169 254 255 255)
  ∧ is_multicast_v4 ip = in_range ip (ipv4 224 0 0 0, ipv4 239 255 255 255).
Proof.
  intros Hip. unfold is_loopback_v4, is_private, is_link_local, is_multicast_v4, in_range, ipv4.
  destruct (octets_range ip Hip) as [-> ->]. simpl fst. simpl snd.
  pose proof (N.div_mod' ip 16777216). pose proof (N.mod_lt ip 16777216 ltac:(lia)).
  pose proof (N.div_mod' ip 65536). pose proof (N.mod_lt ip 65536 ltac:(lia)).
  pose proof (N.div_mod' (ip / 65536) 256). pose proof (N.mod_lt (ip / 65536) 256 ltac:(lia)).
  assert (ip / 65536 / 256 = ip / 16777216) by (rewrite N.Div0.div_div; done).
  set (a := ip / 16777216) in *. set (b := ip / 65536) in *. set (c := b mod 256) in *. set (d := b / 256) in *.
  set (e := ip mod 16777216) in *. set (f := ip mod 65536) in *. clearbody a b c d e f. subst.
  repeat split; lia.
Qed.

Lemma is_non_public_ipv4_ranges ip :
  ip < 2 ^ 32 → is_non_public_ipv4 ip = existsb (in_range ip) non_public_ranges.
Proof.
  intros Hip. unfold is_non_public_ipv4. destruct (classes_ranges ip Hip) as (-> & -> & -> & ->).
  unfold is_unspecified_v4, is_broadcast.
  rewrite (in_cidr_range ip (ipv4 0 0 0 0) 8 24), (in_cidr_range ip (ipv4 100 64 0 0) 10 22),
    (in_cidr_range ip (ipv4 192 0 0 0) 24 8), (in_cidr_range ip (ipv4 192 0 2 0) 24 8),
    (in_cidr_range ip (ipv4 198 18 0 0) 15 17), (in_cidr_range ip (ipv4 198 51 100 0) 24 8),
    (in_cidr_range ip (ipv4 203 0 113 0) 24 8), (in_cidr_range ip (ipv4 240 0 0 0) 4 28) by done.
  apply eq_true_iff_eq. unfold existsb, non_public_ranges, in_range. simpl fst. simpl snd. unfold ipv4.
  change (2 ^ 8) with 256. change (2 ^ 17) with 131072. change (2 ^ 22) with 4194304. change (2 ^ 24) with 16777216.
  change (2 ^ 28) with 268435456. change (2 ^ 32) with 4294967296 in Hip. simpl. lia.
Qed.

(** ** Instances *)

(** A matcher with the laws of the glob crate. *)
Definition simple_glob_matches (p h : str) : bool :=
  if decide (p = lit "*") then true
  else match strip_prefix (lit "?*.") p with
       | Some d =>
           match strip_suffix (dot :: to_ascii_lowercase d) (to_ascii_lowercase h) with
           | Some l => negb (bool_decide (l = []))
           | None => false
           end
       | None => bool_decide (to_ascii_lowercase h = to_ascii_lowercase p)
       end.

Lemma simple_glob_plain p h :
  plain_glob p → simple_glob_matches p h = true ↔ to_ascii_lowercase h = to_ascii_lowercase p.
Proof.
  intros Hp. unfold simple_glob_matches.
  assert (Hs : ∀ c, c ∈ lit "*?" → c ∉ p).
  { intros c Hc Hin. eapply Forall_forall in Hp; [|done]. simpl in Hp. apply Hp.
    change (lit "*?[]{}\!,/") with (lit "*?" ++ lit "[]{}\!,/"). set_solver. }
  rewrite decide_False by (intros ->; apply (Hs 42); left).
  assert (Hn : strip_prefix (lit "?*.") p = None).
  { apply strip_prefix_None. change (lit "?*.") with (63 :: lit "*."). apply starts_with_not, Hs. right. left. }
  rewrite Hn. apply bool_decide_eq_true.
Qed.

Lemma simple_glob_below p h :
  plain_glob p → simple_glob_matches (lit "?*." ++ p) h = true
  ↔ ∃ l, l ≠ [] ∧ to_ascii_lowercase h = l ++ dot :: to_ascii_lowercase p.
Proof.
  intros _. unfold simple_glob_matches. rewrite decide_False by done. rewrite strip_prefix_app.
  destruct (strip_suffix _ _) as [l|] eqn:E.
  - apply strip_suffix_Some in E. rewrite negb_true_iff, bool_decide_eq_false, E. split; [eauto|].
    intros (l' & Hl & He). apply app_inv_tail in He. congruence.
  - split; [done|]. intros (l & _ & He). rewrite (proj2 (strip_suffix_Some _ _ l)) in E; done.
Qed.

#[export] Instance simple_globset : Globset.
Proof.
  refine {| glob_accepts _ := true; globset_accepts _ := true; glob_matches := simple_glob_matches;
            glob_plain := simple_glob_plain; glob_below := simple_glob_below; glob_any h := eq_refl |}.
Defined.
(** For names, the canonical form of a host is in lower case. *)
Definition simple_url_host : UrlHost := {| url_host s := Some (to_ascii_lowercase s) |}.

(** * Properties *)

(** The proxy's test for non-public IPv4 addresses accepts exactly thirteen
    ranges of addresses, and an IPv4 address mapped into IPv6 is classified as
    the IPv4 address. *)
Theorem non_public_ip_ranges (ip high low : N) :
  ip < 2 ^ 32 →
  is_non_public_ip (V4 ip) = existsb (in_range ip) non_public_ranges
  ∧ (ip = high * 65536 + low → is_non_public_ip (V6 [0; 0; 0; 0; 0; 0xFFFF; high; low]) = is_non_public_ip (V4 ip)).
Proof.
  intros Hip. split; [by apply is_non_public_ipv4_ranges|]. intros ->. unfold is_non_public_ip, is_non_public_ipv6.
  simpl. unfold is_loopback_v6. by rewrite bool_decide_eq_false_2, orb_false_r.
Qed.

Lemma non_public_ip_ranges_witness :
  is_non_public_ip (V4 (ipv4 172 31 9 9)) = existsb (in_range (ipv4 172 31 9 9)) non_public_ranges
  ∧ (ipv4 172 31 9 9 = 44063 * 65536 + 2313 →
     is_non_public_ip (V6 [0; 0; 0; 0; 0; 0xFFFF; 44063; 2313]) = is_non_public_ip (V4 (ipv4 172 31 9 9))).
Proof. apply (non_public_ip_ranges (ipv4 172 31 9 9) 44063 2313). reflexivity. Defined.

(** The comparison of a configured domain pattern with a managed one answers
    yes exactly when every host the candidate covers is covered by the managed
    pattern, for a candidate with a domain. *)
Theorem pattern_allows_iff (managed candidate : DomainPattern) :
  normalize_domain (pattern_domain candidate) ≠ [] → head (normalize_domain (pattern_domain candidate)) ≠ Some dot →
  pattern_allows managed candidate = true ↔ ∀ h, covers candidate h → covers managed h.
Proof. apply pattern_allows_covers. Qed.

Lemma pattern_allows_iff_witness :
  pattern_allows (ApexAndSubdomains (lit "Example.com")) (SubdomainsOnly (lit "a.example.com.")) = true
  ↔ ∀ h, covers (SubdomainsOnly (lit "a.example.com.")) h → covers (ApexAndSubdomains (lit "Example.com")) h.
Proof. apply pattern_allows_iff; vm_compute; discriminate. Defined.

(** The set compiled from a list of names, [*.name] and [**.name] matches a
    host exactly when the host is one of the names, is below one of the starred
    names, or is or is below one of the double-starred names. *)
Theorem compiled_patterns_match `{Globset} (names starred doubled : list str) (w : GlobalWildcard) (set : GlobSet) (h : str) :
  Forall dns_name (names ++ starred ++ doubled) → to_ascii_lowercase h = h →
  compile_globset_with_policy (names ++ (app (lit "*.") <$> starred) ++ (app (lit "**.") <$> doubled)) w = Ok set →
  is_match set h = true
  ↔ h ∈ names ∨ (∃ d, d ∈ starred ∧ below h d) ∨ ∃ d, d ∈ doubled ∧ (h = d ∨ below h d).
Proof.
  rewrite !Forall_app, !Forall_forall. intros (Hn & Hs & Hd) Hh Hc. rewrite (compile_is_match _ _ _ _ Hc). split.
  - intros (p & g & Hp & Hg & Hm). rewrite !elem_of_app, !list_elem_of_fmap in Hp.
    destruct Hp as [Hp|[(d & -> & Hp)|(d & -> & Hp)]].
    + rewrite expand_normalized, dns_name_host in Hg by (rewrite ?dns_name_host; auto).
      apply list_elem_of_singleton in Hg as ->. left. apply glob_dns_name in Hm; [by subst|by apply Hn|done].
    + rewrite expand_subdomains in Hg by auto. apply list_elem_of_singleton in Hg as ->. right. left.
      exists d. split; [done|]. by apply glob_below_dns_name in Hm; auto.
    + rewrite expand_apex in Hg by auto. right. right. exists d. split; [done|].
      apply elem_of_cons in Hg as [->|Hg]; [|apply list_elem_of_singleton in Hg as ->].
      * left. apply glob_dns_name in Hm; auto.
      * right. apply glob_below_dns_name in Hm; auto.
  - setoid_rewrite elem_of_app. setoid_rewrite elem_of_app. setoid_rewrite list_elem_of_fmap.
    intros [Hp|[(d & Hp & Hb)|(d & Hp & [->|Hb])]].
    + exists h, h. rewrite expand_normalized, dns_name_host by (rewrite ?dns_name_host; auto).
      split; [by left|]. split; [left|]. apply glob_dns_name; auto.
    + exists (lit "*." ++ d), (lit "?*." ++ d). rewrite expand_subdomains by auto.
      split; [right; left; eauto|]. split; [left|]. apply glob_below_dns_name; auto.
    + exists (lit "**." ++ d), d. rewrite expand_apex by auto.
      split; [right; right; eauto|]. split; [left|]. apply glob_dns_name; auto.
    + exists (lit "**." ++ d), (lit "?*." ++ d). rewrite expand_apex by auto.
      split; [right; right; eauto|]. split; [right; left|]. apply glob_below_dns_name; auto.
Qed.

Lemma compiled_patterns_match_witness :
  is_match [lit "a.com"; lit "?*.b.com"; lit "c.com"; lit "?*.c.com"] (lit "x.b.com") = true
  ↔ lit "x.b.com" ∈ [lit "a.com"] ∨ (∃ d, d ∈ [lit "b.com"] ∧ below (lit "x.b.com") d)
    ∨ ∃ d, d ∈ [lit "c.com"] ∧ (lit "x.b.com" = d ∨ below (lit "x.b.com") d).
Proof.
  apply (compiled_patterns_match [lit "a.com"] [lit "b.com"] [lit "c.com"] RejectWildcard).
  - repeat constructor; (vm_compute; (discriminate || reflexivity)).
  - reflexivity.
  - vm_compute. reflexivity.
Defined.
