(* ===== verification/NetPolicy.v ===== *)
(** The domain policy of the network proxy:
    [codex-rs/network-proxy/src/config.rs], [state.rs], [runtime.rs] and the
    decisions of [network_policy.rs]. Reloading the configuration, looking up
    names, canonical paths and the TLS state are arguments. *)
From Stdlib Require Import ZifyN.
From stdpp Require Import gmap.
From S2P Require Import Prelude RustStr RustPath AbsolutePath NetHost.
Local Open Scope N_scope.

(** * Settings, [config.rs] *)

Inductive NetworkMode : Type := Limited | Full.
#[export] Instance NetworkMode_eq_dec : EqDecision NetworkMode.
Proof. solve_decision. Defined.
Definition allows_method (mode : NetworkMode) (method : str) : bool :=
  match mode with
  | Full => true
  | Limited => bool_decide (method = lit "GET") || bool_decide (method = lit "HEAD") || bool_decide (method = lit "OPTIONS")
  end.
Inductive NetworkDomainPermission : Type := NoPermission | AllowDomain | DenyDomain.
#[export] Instance NetworkDomainPermission_eq_dec : EqDecision NetworkDomainPermission.
Proof. solve_decision. Defined.
(** The derived order, [None < Allow < Deny]. *)
Definition permission_rank (p : NetworkDomainPermission) : nat :=
  match p with NoPermission => 0 | AllowDomain => 1 | DenyDomain => 2 end%nat.
Record NetworkDomainPermissionEntry : Type := { pattern : str; permission : NetworkDomainPermission }.
#[export] Instance NetworkDomainPermissionEntry_eq_dec : EqDecision NetworkDomainPermissionEntry.
Proof. solve_decision. Defined.

(** The loop of [effective_entries]: the patterns in the order of their first
    entries, and the strongest permission of each. *)
Fixpoint effective_loop (entries : list NetworkDomainPermissionEntry) (order : list str)
    (permissions : gmap str NetworkDomainPermission) : list str * gmap str NetworkDomainPermission :=
  match entries with
  | [] => (order, permissions)
  | entry :: entries' =>
      match permissions !! pattern entry with
      | None => effective_loop entries' (order ++ [pattern entry]) (<[pattern entry := permission entry]> permissions)
      | Some p =>
          effective_loop entries' order
            (if (permission_rank p <? permission_rank (permission entry))%nat
             then <[pattern entry := permission entry]> permissions else permissions)
      end
  end.
Definition effective_entries (entries : list NetworkDomainPermissionEntry) : list NetworkDomainPermissionEntry :=
  let '(order, permissions) := effective_loop entries [] ∅ in
  omap (λ pattern, (λ p, {| pattern := pattern; permission := p |}) <$> permissions !! pattern) order.

Inductive NetworkUnixSocketPermission : Type := AllowSocket | NoSocket.
#[export] Instance NetworkUnixSocketPermission_eq_dec : EqDecision NetworkUnixSocketPermission.
Proof. solve_decision. Defined.
(** [unix_sockets] is a [BTreeMap]: its entries in the order of the paths. *)
Record NetworkProxySettings : Type := {
  enabled : bool; proxy_url : str; enable_socks5 : bool; socks_url : str; enable_socks5_udp : bool;
  allow_upstream_proxy : bool; dangerously_allow_non_loopback_proxy : bool; dangerously_allow_all_unix_sockets : bool;
  mode : NetworkMode; domains : option (list NetworkDomainPermissionEntry);
  unix_sockets : option (list (str * NetworkUnixSocketPermission)); allow_local_binding : bool; mitm : bool }.
#[export] Instance NetworkProxySettings_eq_dec : EqDecision NetworkProxySettings.
Proof. solve_decision. Defined.
Definition default_settings : NetworkProxySettings :=
  {| enabled := false; proxy_url := lit "http://127.0.0.1:3128"; enable_socks5 := true; socks_url := lit "http://127.0.0.1:8081";
     enable_socks5_udp := true; allow_upstream_proxy := true; dangerously_allow_non_loopback_proxy := false;
     dangerously_allow_all_unix_sockets := false; mode := Full; domains := None; unix_sockets := None;
     allow_local_binding := false; mitm := false |}.
Definition with_domains (d : option (list NetworkDomainPermissionEntry)) (s : NetworkProxySettings) : NetworkProxySettings :=
  {| enabled := enabled s; proxy_url := proxy_url s; enable_socks5 := enable_socks5 s; socks_url := socks_url s;
     enable_socks5_udp := enable_socks5_udp s; allow_upstream_proxy := allow_upstream_proxy s;
     dangerously_allow_non_loopback_proxy := dangerously_allow_non_loopback_proxy s;
     dangerously_allow_all_unix_sockets := dangerously_allow_all_unix_sockets s; mode := mode s; domains := d;
     unix_sockets := unix_sockets s; allow_local_binding := allow_local_binding s; mitm := mitm s |}.
Definition with_mode (m : NetworkMode) (s : NetworkProxySettings) : NetworkProxySettings :=
  {| enabled := enabled s; proxy_url := proxy_url s; enable_socks5 := enable_socks5 s; socks_url := socks_url s;
     enable_socks5_udp := enable_socks5_udp s; allow_upstream_proxy := allow_upstream_proxy s;
     dangerously_allow_non_loopback_proxy := dangerously_allow_non_loopback_proxy s;
     dangerously_allow_all_unix_sockets := dangerously_allow_all_unix_sockets s; mode := m; domains := domains s;
     unix_sockets := unix_sockets s; allow_local_binding := allow_local_binding s; mitm := mitm s |}.
Definition domain_entries (p : NetworkDomainPermission) (s : NetworkProxySettings) : option (list str) :=
  match domains s with
  | None => None
  | Some entries =>
      let found := pattern <$> filter (λ e, permission e = p) (effective_entries entries) in
      if decide (found = []) then None else Some found
  end.
Definition allowed_domains (s : NetworkProxySettings) : option (list str) := domain_entries AllowDomain s.
Definition denied_domains (s : NetworkProxySettings) : option (list str) := domain_entries DenyDomain s.
Definition allow_unix_sockets (s : NetworkProxySettings) : list str :=
  fst <$> filter (λ e, e.2 = AllowSocket) (default [] (unix_sockets s)).
Definition some_entries {A} (l : list A) : option (list A) := match l with [] => None | _ => Some l end.
Definition upsert_domain_permission (host : str) (p : NetworkDomainPermission) (normalize : str → str)
    (s : NetworkProxySettings) : NetworkProxySettings :=
  let kept := filter (λ e, normalize (pattern e) ≠ normalize host) (default [] (domains s)) in
  with_domains (some_entries (kept ++ [{| pattern := host; permission := p |}])) s.
(** The loop of [set_domain_entries]. *)
Definition add_domain_entry (p : NetworkDomainPermission) (l : list NetworkDomainPermissionEntry) (entry : str)
    : list NetworkDomainPermissionEntry :=
  if existsb (λ e, bool_decide (pattern e = entry) && bool_decide (permission e = p)) l then l
  else l ++ [{| pattern := entry; permission := p |}].
Definition set_domain_entries (entries : list str) (p : NetworkDomainPermission) (s : NetworkProxySettings)
    : NetworkProxySettings :=
  let kept := filter (λ e, permission e ≠ p) (default [] (domains s)) in
  with_domains (some_entries (foldl (add_domain_entry p) kept entries)) s.
Definition set_allowed_domains (l : list str) := set_domain_entries l AllowDomain.
Definition set_denied_domains (l : list str) := set_domain_entries l DenyDomain.

Section paths.
Context `{PathEnv}.
Inductive ValidatedUnixSocketPath : Type := Native (path : str) | UnixStyleAbsolute (path : str).
Definition socket_path_parse (socket_path : str) : outcome str ValidatedUnixSocketPath :=
  if is_absolute socket_path then
    match from_absolute_path socket_path with
    | Ok path => Ok (Native path)
    | Err _ => Err (lit "failed to normalize unix socket path")
    | Panic => Panic
    | OutOfFuel => OutOfFuel
    end
  else if starts_with (lit "/") socket_path then Ok (UnixStyleAbsolute socket_path)
  else Err (lit "expected an absolute path").
Fixpoint validate_socket_paths (paths : list str) : outcome str unit :=
  match paths with
  | [] => Ok tt
  | path :: paths' => _ ← socket_path_parse path; validate_socket_paths paths'
  end.
Definition validate_unix_socket_allowlist_paths (s : NetworkProxySettings) : outcome str unit :=
  validate_socket_paths (allow_unix_sockets s).
End paths.

(** * Constraints of managed configuration, [state.rs] *)

Record NetworkProxyConstraints : Type := {
  max_enabled : option bool; max_mode : option NetworkMode; max_upstream_proxy : option bool;
  max_non_loopback_proxy : option bool; max_all_unix_sockets : option bool;
  managed_allowed : option (list str); allowlist_expansion_enabled : option bool;
  managed_denied : option (list str); denylist_expansion_enabled : option bool;
  managed_unix_sockets : option (list str); max_local_binding : option bool }.
#[export] Instance NetworkProxyConstraints_eq_dec : EqDecision NetworkProxyConstraints.
Proof. solve_decision. Defined.
(** The texts of an error: fixed, the debug form of a list (whose order is that
    of a hash set when it comes from one), or of a mode. *)
Inductive error_text : Type := Text (s : str) | DebugList (l : list str) | DebugMode (m : NetworkMode) (suffix : str).
Inductive NetworkProxyConstraintError : Type :=
| InvalidValue (field_name : str) (candidate allowed : error_text).

Definition network_mode_rank (m : NetworkMode) : nat := match m with Limited => 0 | Full => 1 end.
Definition validate_non_global_wildcard_domain_patterns (field_name : str) (patterns : list str)
    : outcome NetworkProxyConstraintError unit :=
  match List.find is_global_wildcard_domain_pattern patterns with
  | Some pattern =>
      Err (InvalidValue field_name (Text (trim pattern))
             (Text (lit "exact hosts or scoped wildcards like *.example.com or **.example.com")))
  | None => Ok tt
  end.
Definition disabled_by_managed (field_name : str) : NetworkProxyConstraintError :=
  InvalidValue field_name (Text (lit "true")) (Text (lit "false (disabled by managed config)")).
(** A flag the constraints may forbid. *)
Definition validate_flag (field_name : str) (candidate : bool) (limit : bool) : outcome NetworkProxyConstraintError unit :=
  if candidate && negb limit then Err (disabled_by_managed field_name) else Ok tt.
Definition lower_set (l : list str) : gset str := list_to_set (to_ascii_lowercase <$> l).
Definition validate_missing (field_name message : str) (missing : gset str) : outcome NetworkProxyConstraintError unit :=
  if decide (missing = ∅) then Ok tt
  else Err (InvalidValue field_name (Text message) (DebugList (elements missing))).
Definition validate_invalid (field_name message : str) (invalid : list str) : outcome NetworkProxyConstraintError unit :=
  if decide (invalid = []) then Ok tt else Err (InvalidValue field_name (DebugList invalid) (Text message)).
Definition validate_same (field_name message : str) (candidate : list str) (expected : gset str)
    : outcome NetworkProxyConstraintError unit :=
  if decide (lower_set candidate = expected) then Ok tt
  else Err (InvalidValue field_name (DebugList candidate) (Text message)).
Definition ALLOWED : str := lit "network.allowed_domains".
Definition DENIED : str := lit "network.denied_domains".
Definition validate_allowed_domains `{UrlHost} (c : NetworkProxyConstraints) (allowed denied : list str)
    : outcome NetworkProxyConstraintError unit :=
  match managed_allowed c with
  | None => Ok tt
  | Some managed =>
      _ ← validate_non_global_wildcard_domain_patterns ALLOWED managed;
      match allowlist_expansion_enabled c with
      | Some true =>
          validate_missing ALLOWED (lit "missing managed allowed_domains entries")
            (lower_set managed ∖ (lower_set allowed ∪ lower_set denied))
      | Some false =>
          validate_same ALLOWED (lit "must match managed allowed_domains") allowed (lower_set managed ∖ lower_set denied)
      | None =>
          validate_invalid ALLOWED (lit "subset of managed allowed_domains")
            (filter (λ entry, existsb (λ m, pattern_allows (parse_for_constraints m) (parse_for_constraints entry)) managed
                              = false) allowed)
      end
  end.
Definition validate_denied_domains (c : NetworkProxyConstraints) (denied : list str) : outcome NetworkProxyConstraintError unit :=
  match managed_denied c with
  | None => Ok tt
  | Some managed =>
      _ ← validate_non_global_wildcard_domain_patterns DENIED managed;
      match denylist_expansion_enabled c with
      | Some false => validate_same DENIED (lit "must match managed denied_domains") denied (lower_set managed)
      | Some true | None =>
          validate_missing DENIED (lit "missing managed denied_domains entries") (lower_set managed ∖ lower_set denied)
      end
  end.
Definition validate_unix_sockets (c : NetworkProxyConstraints) (sockets : list str) : outcome NetworkProxyConstraintError unit :=
  match managed_unix_sockets c with
  | None => Ok tt
  | Some managed =>
      validate_invalid (lit "network.allow_unix_sockets") (lit "subset of managed allow_unix_sockets")
        (filter (λ entry, to_ascii_lowercase entry ∉ lower_set managed) sockets)
  end.
Definition validate_policy_against_constraints `{UrlHost} (config : NetworkProxySettings) (c : NetworkProxyConstraints)
    : outcome NetworkProxyConstraintError unit :=
  let allowed := default [] (allowed_domains config) in
  let denied := default [] (denied_domains config) in
  _ ← validate_non_global_wildcard_domain_patterns DENIED denied;
  _ ← match max_enabled c with
      | Some limit => validate_flag (lit "network.enabled") (enabled config) limit
      | None => Ok tt
      end;
  _ ← match max_mode c with
      | Some limit =>
          if (network_mode_rank limit <? network_mode_rank (mode config))%nat then
            Err (InvalidValue (lit "network.mode") (DebugMode (mode config) []) (DebugMode limit (lit " or more restrictive")))
          else Ok tt
      | None => Ok tt
      end;
  _ ← validate_flag (lit "network.allow_upstream_proxy") (allow_upstream_proxy config) (default true (max_upstream_proxy c));
  _ ← validate_flag (lit "network.dangerously_allow_non_loopback_proxy") (dangerously_allow_non_loopback_proxy config)
        (default true (max_non_loopback_proxy c));
  _ ← validate_flag (lit "network.dangerously_allow_all_unix_sockets") (dangerously_allow_all_unix_sockets config)
        (default (match managed_unix_sockets c with None => true | _ => false end) (max_all_unix_sockets c));
  _ ← match max_local_binding c with
      | Some limit => validate_flag (lit "network.allow_local_binding") (allow_local_binding config) limit
      | None => Ok tt
      end;
  _ ← validate_allowed_domains c allowed denied;
  _ ← validate_denied_domains c denied;
  validate_unix_sockets c (allow_unix_sockets config).

(** * Lemmas *)

(** The permission the loop keeps of a pattern. *)
Definition stronger (o : option NetworkDomainPermission) (q : NetworkDomainPermission) : option NetworkDomainPermission :=
  match o with
  | None => Some q
  | Some p => Some (if (permission_rank p <? permission_rank q)%nat then q else p)
  end.
Definition strongest (p : str) (l : list NetworkDomainPermissionEntry) (o : option NetworkDomainPermission)
    : option NetworkDomainPermission :=
  foldl (λ o e, if decide (pattern e = p) then stronger o (permission e) else o) o l.

Lemma strongest_cons p e l o :
  strongest p (e :: l) o = strongest p l (if decide (pattern e = p) then stronger o (permission e) else o).
Proof. done. Qed.

Lemma permission_rank_inj p q : permission_rank p = permission_rank q → p = q.
Proof. by destruct p, q. Qed.

Lemma effective_loop_permission l order perms p :
  (effective_loop l order perms).2 !! p = strongest p l (perms !! p).
Proof.
  revert order perms. induction l as [|e l IH]; intros order perms; [done|]. cbn [effective_loop].
  rewrite strongest_cons.
  destruct (perms !! pattern e) as [q|] eqn:E; rewrite IH; destruct (decide (pattern e = p)) as [<-|Hp].
  - rewrite E. simpl. destruct (_ <? _)%nat; rewrite ?lookup_insert_eq, ?E; done.
  - destruct (_ <? _)%nat; rewrite ?(lookup_insert_ne perms); done.
  - by rewrite lookup_insert_eq, E.
  - by rewrite (lookup_insert_ne perms).
Qed.

Lemma effective_loop_order l order perms :
  NoDup order → (∀ p, p ∈ order ↔ is_Some (perms !! p)) →
  let r := effective_loop l order perms in NoDup r.1 ∧ ∀ p, p ∈ r.1 ↔ is_Some (r.2 !! p).
Proof.
  revert order perms. induction l as [|e l IH]; intros order perms Hn Ho; [done|]. cbn [effective_loop].
  destruct (perms !! pattern e) as [q|] eqn:E; apply IH.
  - done.
  - intros p. destruct (_ <? _)%nat; [|done]. rewrite Ho, lookup_insert_is_Some'. naive_solver.
  - apply NoDup_app. split; [done|]. split; [|apply NoDup_singleton].
    intros p Hp ->%list_elem_of_singleton. apply Ho in Hp as [? Hp]. congruence.
  - intros p. rewrite elem_of_app, list_elem_of_singleton, Ho, lookup_insert_is_Some'. naive_solver.
Qed.

Lemma strongest_spec p l o q :
  strongest p l o = Some q
  ↔ (o = Some q ∨ ∃ e, e ∈ l ∧ pattern e = p ∧ permission e = q)
    ∧ (∀ r, o = Some r → (permission_rank r ≤ permission_rank q)%nat)
    ∧ (∀ e, e ∈ l → pattern e = p → (permission_rank (permission e) ≤ permission_rank q)%nat).
Proof.
  revert o. induction l as [|e l IH]; intros o.
  { unfold strongest; simpl. split.
    - intros ->. split; [by left|]. split; [by intros r [= ->]|]. intros e He. by apply not_elem_of_nil in He.
    - intros [[->|(e & He & _)] _]; [done|]. by apply not_elem_of_nil in He. }
  rewrite strongest_cons, IH. clear IH.
  setoid_rewrite elem_of_cons. destruct (decide (pattern e = p)) as [Hp|Hp]; [|naive_solver].
  destruct o as [r|]; simpl; [|naive_solver lia].
  destruct (permission_rank r <? permission_rank (permission e))%nat eqn:E.
  - apply Nat.ltb_lt in E. split.
    + intros (Hq & Hr & Hl). specialize (Hr _ eq_refl). repeat split; [naive_solver|naive_solver lia|naive_solver].
    + intros (Hq & Hr & Hl). specialize (Hr _ eq_refl). pose proof (Hl e (or_introl eq_refl) Hp).
      split; [|split; naive_solver]. destruct Hq as [[= ->]|(e' & [->|He'] & ? & ?)]; [lia|naive_solver|naive_solver].
  - apply Nat.ltb_ge in E. split.
    + intros (Hq & Hr & Hl). specialize (Hr _ eq_refl). repeat split; [naive_solver|naive_solver lia|naive_solver lia].
    + intros (Hq & Hr & Hl). specialize (Hr _ eq_refl). pose proof (Hl e (or_introl eq_refl) Hp).
      split; [|split; naive_solver].
      destruct Hq as [[= ->]|(e' & [->|He'] & ? & ?)]; [by left| |naive_solver].
      left. f_equal. apply permission_rank_inj. subst. lia.
Qed.

Lemma elem_of_effective e l :
  e ∈ effective_entries l
  ↔ e ∈ l ∧ ∀ e', e' ∈ l → pattern e' = pattern e → (permission_rank (permission e') ≤ permission_rank (permission e))%nat.
Proof.
  unfold effective_entries. destruct (effective_loop l [] ∅) as [order perms] eqn:E.
  pose proof (effective_loop_order l [] ∅) as Ho. rewrite E in Ho. simpl in Ho.
  destruct Ho as [_ Ho]; [constructor| |].
  { intros p. rewrite lookup_empty, elem_of_nil. split; [done|by intros [? ?]]. }
  assert (Hp : ∀ p, perms !! p = strongest p l None).
  { intros p. change perms with (order, perms).2. rewrite <-E, effective_loop_permission. by rewrite lookup_empty. }
  rewrite list_elem_of_omap. split.
  - intros (p & Hin & He). rewrite Hp in He. destruct (strongest p l None) as [q|] eqn:Es; [|done]. injection He as <-.
    apply strongest_spec in Es as ([?|([p' q'] & He & ? & ?)] & _ & Hl); [done|]. simpl in *. subst. done.
  - intros [He Hl]. exists (pattern e).
    assert (Hs : strongest (pattern e) l None = Some (permission e)) by (apply strongest_spec; naive_solver).
    split; [apply Ho; rewrite Hp, Hs; eauto|]. rewrite Hp, Hs. by destruct e.
Qed.

Lemma effective_patterns_nodup l : NoDup (pattern <$> effective_entries l).
Proof.
  unfold effective_entries. destruct (effective_loop l [] ∅) as [order perms] eqn:E.
  pose proof (effective_loop_order l [] ∅) as Ho. rewrite E in Ho. simpl in Ho.
  destruct Ho as [Hn _]; [constructor| |].
  { intros p. rewrite lookup_empty, elem_of_nil. split; [done|by intros [? ?]]. }
  clear E. induction Hn as [|p order Hp Hn IH]; simpl; [constructor|].
  destruct (perms !! p) as [q|]; simpl; [|done]. constructor; [|done].
  intros Hin. apply list_elem_of_fmap in Hin as (e & He & Hin). apply list_elem_of_omap in Hin as (p' & Hp' & Hq).
  destruct (perms !! p'); [|done]. injection Hq as <-. simpl in He. by subst.
Qed.

Lemma domain_entries_spec p s h :
  h ∈ default [] (domain_entries p s)
  ↔ ∃ l, domains s = Some l ∧ {| pattern := h; permission := p |} ∈ effective_entries l.
Proof.
  unfold domain_entries. destruct (domains s) as [l|]; [|set_solver].
  transitivity (h ∈ pattern <$> filter (λ e, permission e = p) (effective_entries l)); [case_decide as E; [by rewrite E|done]|].
  rewrite list_elem_of_fmap. setoid_rewrite list_elem_of_filter. split.
  - intros ([h' p'] & -> & ? & He). simpl in *. subst. eauto.
  - intros (l' & [= ->] & He). eexists. split; [|split; [|exact He]]; done.
Qed.

Lemma elem_of_domain_entries p s h :
  h ∈ default [] (domain_entries p s)
  ↔ (∃ e, e ∈ default [] (domains s) ∧ pattern e = h ∧ permission e = p)
    ∧ ∀ e, e ∈ default [] (domains s) → pattern e = h → (permission_rank (permission e) ≤ permission_rank p)%nat.
Proof.
  rewrite domain_entries_spec. destruct (domains s) as [l|]; simpl; [|set_solver]. setoid_rewrite elem_of_effective. split.
  - intros (l' & [= <-] & He & Hl). naive_solver.
  - intros [([h' p'] & He & <- & <-) Hl]. naive_solver.
Qed.

Lemma elem_of_denied s h :
  h ∈ default [] (denied_domains s) ↔ {| pattern := h; permission := DenyDomain |} ∈ default [] (domains s).
Proof.
  unfold denied_domains. rewrite elem_of_domain_entries. split.
  - intros [([h' p'] & He & Hh & Hp) _]. simpl in *. by subst.
  - intros He. split; [by eexists|]. intros [h' q] Hin <-. destruct q; simpl; lia.
Qed.

Lemma elem_of_allowed s h :
  h ∈ default [] (allowed_domains s)
  ↔ {| pattern := h; permission := AllowDomain |} ∈ default [] (domains s)
    ∧ {| pattern := h; permission := DenyDomain |} ∉ default [] (domains s).
Proof.
  unfold allowed_domains. rewrite elem_of_domain_entries. split.
  - intros [([h' p'] & He & Hh & Hp) Hl]. simpl in *. subst. split; [done|]. intros Hd.
    specialize (Hl _ Hd eq_refl). simpl in Hl. lia.
  - intros [He Hd]. split; [by eexists|]. intros [h' q] Hin <-. destruct q; simpl in *; [lia|lia|done].
Qed.

Lemma default_some_entries {A} (l : list A) : default [] (some_entries l) = l.
Proof. by destruct l. Qed.

Lemma domains_with_domains d s : domains (with_domains d s) = d.
Proof. done. Qed.

Lemma upsert_entries host p normalize s e :
  e ∈ default [] (domains (upsert_domain_permission host p normalize s))
  ↔ e = {| pattern := host; permission := p |} ∨ (e ∈ default [] (domains s) ∧ normalize (pattern e) ≠ normalize host).
Proof.
  unfold upsert_domain_permission. rewrite domains_with_domains, default_some_entries, elem_of_app, list_elem_of_filter,
    list_elem_of_singleton. naive_solver.
Qed.

(** What the constraints ask of a configuration. *)
Definition none_global (l : list str) : Prop := Forall (λ p, is_global_wildcard_domain_pattern p = false) l.
Definition flag_within (candidate : bool) (limit : option bool) : Prop := candidate = true → limit ≠ Some false.
Definition mode_within (m : NetworkMode) (limit : option NetworkMode) : Prop :=
  ∀ l, limit = Some l → (network_mode_rank m ≤ network_mode_rank l)%nat.
Definition allowed_within `{UrlHost} (c : NetworkProxyConstraints) (allowed denied : list str) : Prop :=
  ∀ managed, managed_allowed c = Some managed → none_global managed ∧
    match allowlist_expansion_enabled c with
    | Some true => lower_set managed ⊆ lower_set allowed ∪ lower_set denied
    | Some false => lower_set allowed = lower_set managed ∖ lower_set denied
    | None => ∀ e, e ∈ allowed → ∃ m, m ∈ managed ∧ pattern_allows (parse_for_constraints m) (parse_for_constraints e) = true
    end.
Definition denied_within (c : NetworkProxyConstraints) (denied : list str) : Prop :=
  ∀ managed, managed_denied c = Some managed → none_global managed ∧
    lower_set managed ⊆ lower_set denied
    ∧ (denylist_expansion_enabled c = Some false → lower_set denied = lower_set managed).
Definition sockets_within (c : NetworkProxyConstraints) (sockets : list str) : Prop :=
  ∀ managed, managed_unix_sockets c = Some managed → lower_set sockets ⊆ lower_set managed.

Lemma map_check {A} (b : bool) (e : A) : (if b then Err e else Ok tt) = Ok tt ↔ b = false.
Proof. by destruct b. Qed.

Lemma bind_unit_Ok {E A} (m : outcome E unit) (k : unit → outcome E A) a : (m ≫= k) = Ok a ↔ m = Ok tt ∧ k tt = Ok a.
Proof. destruct m as [[]| | |]; simpl; naive_solver. Qed.

Lemma validate_non_global_Ok f l : validate_non_global_wildcard_domain_patterns f l = Ok tt ↔ none_global l.
Proof.
  unfold validate_non_global_wildcard_domain_patterns, none_global. split.
  - destruct (List.find _ l) as [p|] eqn:E; [done|]. intros _. apply Forall_forall. intros x Hx.
    apply (find_none _ _ E). by apply list_elem_of_In.
  - intros Hl. destruct (List.find _ l) as [p|] eqn:E; [|done]. apply find_some in E as [Hin Hp].
    rewrite Forall_forall in Hl. rewrite Hl in Hp; [done|]. by apply list_elem_of_In.
Qed.

Lemma validate_missing_Ok f m x : validate_missing f m x = Ok tt ↔ x = ∅.
Proof. unfold validate_missing. by case_decide. Qed.

Lemma validate_invalid_Ok f m l : validate_invalid f m l = Ok tt ↔ l = [].
Proof. unfold validate_invalid. by case_decide. Qed.

Lemma validate_same_Ok f m l x : validate_same f m l x = Ok tt ↔ lower_set l = x.
Proof. unfold validate_same. by case_decide. Qed.

Lemma validate_flag_Ok f b limit : validate_flag f b limit = Ok tt ↔ (b = true → limit = true).
Proof. unfold validate_flag. destruct b, limit; simpl; naive_solver. Qed.

Lemma filter_nil_iff {A} (P : A → Prop) `{∀ x, Decision (P x)} l : filter P l = [] ↔ ∀ x, x ∈ l → ¬ P x.
Proof.
  split; [|apply filter_false]. intros Hf x Hx Hp.
  assert (Hin : x ∈ filter P l) by (apply list_elem_of_filter; done). rewrite Hf in Hin. by apply not_elem_of_nil in Hin.
Qed.

Lemma validate_allowed_Ok `{UrlHost} c allowed denied :
  validate_allowed_domains c allowed denied = Ok tt ↔ allowed_within c allowed denied.
Proof.
  unfold validate_allowed_domains, allowed_within. destruct (managed_allowed c) as [managed|]; [|naive_solver].
  rewrite bind_unit_Ok, validate_non_global_Ok. transitivity (none_global managed ∧
    match allowlist_expansion_enabled c with
    | Some true => lower_set managed ⊆ lower_set allowed ∪ lower_set denied
    | Some false => lower_set allowed = lower_set managed ∖ lower_set denied
    | None => ∀ e, e ∈ allowed → ∃ m, m ∈ managed ∧ pattern_allows (parse_for_constraints m) (parse_for_constraints e) = true
    end); [apply and_iff_compat_l|naive_solver].
  destruct (allowlist_expansion_enabled c) as [[]|].
  - rewrite validate_missing_Ok. split; [|set_solver]. intros He x Hx.
    destruct (decide (x ∈ lower_set allowed ∪ lower_set denied)); [done|]. set_solver.
  - by rewrite validate_same_Ok.
  - rewrite validate_invalid_Ok, filter_nil_iff. setoid_rewrite not_false_iff_true.
    setoid_rewrite existsb_elem. done.
Qed.

Lemma validate_denied_Ok c denied : validate_denied_domains c denied = Ok tt ↔ denied_within c denied.
Proof.
  unfold validate_denied_domains, denied_within. destruct (managed_denied c) as [managed|]; [|naive_solver].
  rewrite bind_unit_Ok, validate_non_global_Ok. transitivity (none_global managed ∧
    lower_set managed ⊆ lower_set denied
    ∧ (denylist_expansion_enabled c = Some false → lower_set denied = lower_set managed));
    [apply and_iff_compat_l|naive_solver].
  assert (Hm : lower_set managed ∖ lower_set denied = ∅ ↔ lower_set managed ⊆ lower_set denied).
  { split; [|set_solver]. intros He x Hx. destruct (decide (x ∈ lower_set denied)); [done|]. set_solver. }
  destruct (denylist_expansion_enabled c) as [[]|].
  - rewrite validate_missing_Ok, Hm. naive_solver.
  - rewrite validate_same_Ok. set_solver.
  - rewrite validate_missing_Ok, Hm. naive_solver.
Qed.

Lemma elem_of_lower_set x l : x ∈ lower_set l ↔ ∃ y, x = to_ascii_lowercase y ∧ y ∈ l.
Proof. unfold lower_set. by rewrite elem_of_list_to_set, list_elem_of_fmap. Qed.

Lemma validate_sockets_Ok c sockets : validate_unix_sockets c sockets = Ok tt ↔ sockets_within c sockets.
Proof.
  unfold validate_unix_sockets, sockets_within. destruct (managed_unix_sockets c) as [managed|]; [|naive_solver].
  rewrite validate_invalid_Ok, filter_nil_iff. split.
  - intros Hs m [= <-] x (y & -> & Hy)%elem_of_lower_set. by apply dec_stable, Hs.
  - intros Hs x Hx Hn. apply Hn, (Hs _ eq_refl). apply elem_of_lower_set. eauto.
Qed.

(** The most a configuration may do under constraints: managed unix sockets
    forbid allowing all of them unless the constraints say so. *)
Definition policy_within `{UrlHost} (s : NetworkProxySettings) (c : NetworkProxyConstraints) : Prop :=
  let allowed := default [] (allowed_domains s) in
  let denied := default [] (denied_domains s) in
  none_global denied
  ∧ flag_within (enabled s) (max_enabled c)
  ∧ mode_within (mode s) (max_mode c)
  ∧ flag_within (allow_upstream_proxy s) (max_upstream_proxy c)
  ∧ flag_within (dangerously_allow_non_loopback_proxy s) (max_non_loopback_proxy c)
  ∧ (dangerously_allow_all_unix_sockets s = true →
     max_all_unix_sockets c = Some true ∨ (max_all_unix_sockets c = None ∧ managed_unix_sockets c = None))
  ∧ flag_within (allow_local_binding s) (max_local_binding c)
  ∧ allowed_within c allowed denied
  ∧ denied_within c denied
  ∧ sockets_within c (allow_unix_sockets s).

Lemma flag_within_Ok f b limit :
  match limit with Some l => validate_flag f b l | None => Ok tt end = Ok tt ↔ flag_within b limit.
Proof.
  unfold flag_within. destruct limit as [l|]; [rewrite validate_flag_Ok; by destruct l; naive_solver|].
  split; [|done]. by intros _ _.
Qed.

Lemma flag_default_Ok f b limit : validate_flag f b (default true limit) = Ok tt ↔ flag_within b limit.
Proof. rewrite <-(flag_within_Ok f). destruct limit as [[]|]; simpl; try done. by rewrite validate_flag_Ok. Qed.

Lemma mode_within_Ok m limit suffix :
  match limit with
  | Some l => if (network_mode_rank l <? network_mode_rank m)%nat
              then Err (InvalidValue (lit "network.mode") (DebugMode m []) (DebugMode l suffix)) else Ok tt
  | None => Ok tt
  end = Ok tt ↔ mode_within m limit.
Proof.
  unfold mode_within. destruct limit as [l|]; [|naive_solver]. rewrite map_check, Nat.ltb_ge. naive_solver.
Qed.

Lemma validate_policy_Ok `{UrlHost} s c : validate_policy_against_constraints s c = Ok tt ↔ policy_within s c.
Proof.
  unfold validate_policy_against_constraints, policy_within. cbv zeta.
  rewrite !bind_unit_Ok, validate_non_global_Ok, !flag_within_Ok, mode_within_Ok, !flag_default_Ok, validate_flag_Ok,
    validate_allowed_Ok, validate_denied_Ok, validate_sockets_Ok.
  assert (Hd : (dangerously_allow_all_unix_sockets s = true →
      default (match managed_unix_sockets c with None => true | _ => false end) (max_all_unix_sockets c) = true)
    ↔ (dangerously_allow_all_unix_sockets s = true →
       max_all_unix_sockets c = Some true ∨ (max_all_unix_sockets c = None ∧ managed_unix_sockets c = None))).
  { destruct (max_all_unix_sockets c) as [[]|], (managed_unix_sockets c); simpl; naive_solver. }
  rewrite Hd. done.
Qed.

(** What is the same whatever the mode. *)
Lemma policy_within_mode `{UrlHost} s c m :
  policy_within s c → mode_within m (max_mode c) → policy_within (with_mode m s) c.
Proof. unfold policy_within. simpl. tauto. Qed.

Lemma policy_within_own_mode `{UrlHost} m s c : policy_within (with_mode m s) c → mode_within m (max_mode c).
Proof. unfold policy_within. simpl. tauto. Qed.

(** * Properties *)

(** A domain is denied exactly when an entry denies it, and allowed exactly
    when an entry allows it and none denies it, whatever the order of the
    entries. *)
Theorem deny_entries_win (s : NetworkProxySettings) (h : str) :
  (h ∈ default [] (denied_domains s) ↔ {| pattern := h; permission := DenyDomain |} ∈ default [] (domains s))
  ∧ (h ∈ default [] (allowed_domains s)
     ↔ {| pattern := h; permission := AllowDomain |} ∈ default [] (domains s)
       ∧ {| pattern := h; permission := DenyDomain |} ∉ default [] (domains s)).
Proof. split; [apply elem_of_denied|apply elem_of_allowed]. Qed.

(** The validation of a configuration accepts exactly the configurations within
    the managed constraints. *)
Theorem validate_policy_iff `{UrlHost} (s : NetworkProxySettings) (c : NetworkProxyConstraints) :
  validate_policy_against_constraints s c = Ok tt ↔ policy_within s c.
Proof. apply validate_policy_Ok. Qed.

(** After an upsert the host has exactly the permission given, and every
    pattern that normalises differently keeps the one it had. *)
Theorem upsert_domain_permission_spec (normalize : str → str) (host h : str) (p q : NetworkDomainPermission)
    (s : NetworkProxySettings) :
  {| pattern := h; permission := q |} ∈ effective_entries (default [] (domains (upsert_domain_permission host p normalize s)))
  ↔ (h = host ∧ q = p)
    ∨ (normalize h ≠ normalize host ∧ {| pattern := h; permission := q |} ∈ effective_entries (default [] (domains s))).
Proof.
  rewrite !elem_of_effective. setoid_rewrite upsert_entries. simpl. split.
  - intros [[[= -> ->]|[Hin Hn]] Hl]; [by left|]. right. split; [done|]. split; [done|].
    intros e He Hh. apply Hl; [|done]. right. by rewrite Hh.
  - intros [[-> ->]|(Hn & Hin & Hl)].
    + split; [by left|]. intros e [->|[_ Hn]]; [done|]. intros <-. done.
    + split; [by right|]. intros e [->|[He _]] Hh; [simpl in Hh; by subst|]. by apply Hl.
Qed.
