(* ===== verification/NetState.v ===== *)
(** The live state of the network proxy and its decisions:
    [build_config_state] of [codex-rs/network-proxy/src/state.rs], [runtime.rs]
    and [network_policy.rs]. Reloading the configuration, looking up names,
    canonical paths and the TLS state are arguments. *)
From Stdlib Require Import ZifyN.
From stdpp Require Import gmap.
From S2P Require Import Prelude RustStr RustPath AbsolutePath NetHost NetPolicy.
Local Open Scope N_scope.

Definition MAX_BLOCKED_EVENTS : nat := 200.
Definition U64_MAX : N := 18446744073709551615.
Inductive HostBlockReason : Type := Denied | NotAllowed | NotAllowedLocal.
Definition reason_str (r : HostBlockReason) : str :=
  match r with
  | Denied => lit "denied"
  | NotAllowed => lit "not_allowed"
  | NotAllowedLocal => lit "not_allowed_local"
  end.
#[export] Instance HostBlockReason_eq_dec : EqDecision HostBlockReason.
Proof. solve_decision. Defined.
Inductive HostBlockDecision : Type := Allowed | Blocked (reason : HostBlockReason).
#[export] Instance HostBlockDecision_eq_dec : EqDecision HostBlockDecision.
Proof. solve_decision. Defined.

Record BlockedRequest : Type := {
  blocked_host : str; blocked_reason : str; client : option str; method : option str; request_mode : option NetworkMode;
  protocol : str; blocked_decision : option str; blocked_source : option str; blocked_port : option N; timestamp : Z }.

(** [MitmState::new(allow_upstream_proxy)]. *)
Class Mitm : Type := { MitmState : Type; mitm_new : bool → outcome str MitmState }.

(** The causes of the errors the operations return. *)
Inductive proxy_error : Type :=
| ReloadFailed (e : str)
| InvalidHost (e : str)
| InvalidSocketPath (e : str)
| Constrained (e : NetworkProxyConstraintError)
| GlobFailed (e : GlobsetError)
| MitmFailed (e : str).

(** What a name resolves to before the deadline. *)
Inductive lookup_result : Type := Resolved (addrs : list IpAddr) | LookupFailed | TimedOut.

Inductive DomainListKind : Type := AllowList | DenyList.
Definition kind_permission (k : DomainListKind) : NetworkDomainPermission :=
  match k with AllowList => AllowDomain | DenyList => DenyDomain end.
Definition kind_entries (k : DomainListKind) (s : NetworkProxySettings) : list str :=
  match k with AllowList => default [] (allowed_domains s) | DenyList => default [] (denied_domains s) end.
Definition opposite_entries (k : DomainListKind) (s : NetworkProxySettings) : list str :=
  match k with AllowList => default [] (denied_domains s) | DenyList => default [] (allowed_domains s) end.

Definition is_explicit_local_allowlisted (allowed : list str) (host : Host) : bool :=
  existsb (λ pattern,
    let pattern := trim pattern in
    if bool_decide (pattern = lit "*") || starts_with (lit "*.") pattern || starts_with (lit "**.") pattern then false
    else if contains_char 42 pattern || contains_char 63 pattern then false
    else bool_decide (normalize_host pattern = host_str host)) allowed.

Definition host_resolves_to_non_public_ip (lookup : str → N → lookup_result) (host : str) (port : N) : bool :=
  match parse_ip host with
  | Some ip => is_non_public_ip ip
  | None =>
      match lookup host port with
      | Resolved addrs => existsb is_non_public_ip addrs
      | LookupFailed | TimedOut => true
      end
  end.
(** A host that is written as a loopback name or a non-public address. *)
Definition local_literal (host : Host) : bool :=
  is_loopback_host host
  || match parse_ip (without_scope (host_str host)) with Some ip => is_non_public_ip ip | None => false end.

(** The loop that keeps the last [MAX_BLOCKED_EVENTS] requests. *)
Fixpoint pop_excess {A} (l : list A) : list A :=
  match l with
  | [] => []
  | _ :: l' => if (MAX_BLOCKED_EVENTS <? length l)%nat then pop_excess l' else l
  end.

Section state.
Context {PE : PathEnv} {UH : UrlHost} {GS : Globset} {MI : Mitm}.

(** [NetworkProxyConfig] is its settings. *)
Record ConfigState : Type := {
  config : NetworkProxySettings; allow_set : GlobSet; deny_set : GlobSet; mitm_state : option MitmState;
  constraints : NetworkProxyConstraints; blocked : list BlockedRequest; blocked_total : N }.
Definition with_blocked (l : list BlockedRequest) (total : N) (s : ConfigState) : ConfigState :=
  {| config := config s; allow_set := allow_set s; deny_set := deny_set s; mitm_state := mitm_state s;
     constraints := constraints s; blocked := l; blocked_total := total |}.
Definition with_config (c : NetworkProxySettings) (s : ConfigState) : ConfigState :=
  {| config := c; allow_set := allow_set s; deny_set := deny_set s; mitm_state := mitm_state s;
     constraints := constraints s; blocked := blocked s; blocked_total := blocked_total s |}.

Definition build_config_state (c : NetworkProxySettings) (limits : NetworkProxyConstraints)
    : outcome proxy_error ConfigState :=
  _ ← map_err InvalidSocketPath (validate_unix_socket_allowlist_paths c);
  let allowed := default [] (allowed_domains c) in
  let denied := default [] (denied_domains c) in
  _ ← map_err Constrained (validate_non_global_wildcard_domain_patterns DENIED denied);
  deny ← map_err GlobFailed (compile_denylist_globset denied);
  allow ← map_err GlobFailed (compile_allowlist_globset allowed);
  tls ← (if mitm c then tls ← map_err MitmFailed (mitm_new (allow_upstream_proxy c)); Ok (Some tls) else Ok None);
  Ok {| config := c; allow_set := allow; deny_set := deny; mitm_state := tls; constraints := limits;
        blocked := []; blocked_total := 0 |}.

(** ** Reloading *)

(** What [maybe_reload] and [reload_now] of the reloader return. *)
Definition reload_result : Type := outcome str (option ConfigState).
(** [reload_if_needed] reads the state, then writes; the blocked requests it
    writes are those it read. *)
Definition reload_snapshot (new s : ConfigState) : ConfigState := with_blocked (blocked s) (blocked_total s) new.
Definition reload_commit (new s : ConfigState) : ConfigState := new.
Definition reload_if_needed (r : reload_result) : stm ConfigState proxy_error unit := λ s,
  match r with
  | Ok None => (s, Ok tt)
  | Ok (Some new) => (reload_commit (reload_snapshot new s) s, Ok tt)
  | Err e => (s, Err (ReloadFailed e))
  | Panic => (s, Panic)
  | OutOfFuel => (s, OutOfFuel)
  end.
(** The write of [force_reload] takes the blocked requests of that moment, and
    the total of the new state. *)
Definition force_commit (new s : ConfigState) : ConfigState := with_blocked (blocked s) (blocked_total new) new.
Definition force_reload (r : outcome str ConfigState) : stm ConfigState proxy_error unit := λ s,
  match r with
  | Ok new => (force_commit new s, Ok tt)
  | Err e => (s, Err (ReloadFailed e))
  | Panic => (s, Panic)
  | OutOfFuel => (s, OutOfFuel)
  end.
Definition inspect {A} (f : ConfigState → A) : stm ConfigState proxy_error A := λ s, (s, Ok (f s)).
Definition then_run {A} (m : stm ConfigState proxy_error unit) (k : stm ConfigState proxy_error A)
    : stm ConfigState proxy_error A := _ ← m; k.
Definition reading {A} (r : reload_result) (f : ConfigState → A) : stm ConfigState proxy_error A :=
  then_run (reload_if_needed r) (inspect f).
Definition current_cfg (r : reload_result) := reading r config.
Definition current_patterns (r : reload_result) :=
  reading r (λ s, (default [] (allowed_domains (config s)), default [] (denied_domains (config s)))).
Definition proxy_enabled (r : reload_result) := reading r (λ s, enabled (config s)).
Definition method_allowed (r : reload_result) (m : str) := reading r (λ s, allows_method (mode (config s)) m).
Definition upstream_proxy_allowed (r : reload_result) := reading r (λ s, allow_upstream_proxy (config s)).
Definition network_mode (r : reload_result) := reading r (λ s, mode (config s)).
Definition current_mitm_state (r : reload_result) := reading r mitm_state.

(** ** Hosts *)

(** What [host_blocked] decides about a parsed host from the state it read. *)
Definition host_decision (lookup : str → N → lookup_result) (s : ConfigState) (host : Host) (port : N) : HostBlockDecision :=
  let allowed := allowed_domains (config s) in
  if is_match (deny_set s) (host_str host) then Blocked Denied
  else
    let is_allowlisted := is_match (allow_set s) (host_str host) in
    if negb (allow_local_binding (config s))
       && (if local_literal host then negb (is_explicit_local_allowlisted (default [] allowed) host)
           else host_resolves_to_non_public_ip lookup (host_str host) port)
    then Blocked NotAllowedLocal
    else if bool_decide (allowed = None) || negb is_allowlisted then Blocked NotAllowed
    else Allowed.
Definition host_blocked (r : reload_result) (lookup : str → N → lookup_result) (host : str) (port : N)
    : stm ConfigState proxy_error HostBlockDecision :=
  reading r (λ s, match host_parse host with
                  | Ok host => host_decision lookup s host port
                  | _ => Blocked NotAllowed
                  end).

(** ** Blocked requests *)

Definition push_blocked (entry : BlockedRequest) (s : ConfigState) : ConfigState :=
  with_blocked (pop_excess (blocked s ++ [entry])) (N.min U64_MAX (blocked_total s + 1)) s.
(** The result is the request the observer, if any, is called with. *)
Definition record_blocked (r : reload_result) (observed : bool) (entry : BlockedRequest)
    : stm ConfigState proxy_error (option BlockedRequest) :=
  then_run (reload_if_needed r) (λ s, (push_blocked entry s, Ok (if observed then Some entry else None))).
Definition blocked_snapshot (r : reload_result) := reading r blocked.
Definition drain_blocked (r : reload_result) : stm ConfigState proxy_error (list BlockedRequest) :=
  then_run (reload_if_needed r) (λ s, (with_blocked [] (blocked_total s) s, Ok (blocked s))).

(** ** Unix sockets *)

(** The loop over the allowed paths; [canonicalize] is that of the file system. *)
Fixpoint socket_listed (canonicalize : str → option str) (requested : str) (allowed : list str) : bool :=
  match allowed with
  | [] => false
  | a :: allowed' =>
      match socket_path_parse a with
      | Ok (Native path) =>
          if bool_decide (path = requested) then true
          else match canonicalize requested, canonicalize path with
               | Some x, Some y => if bool_decide (y = x) then true else socket_listed canonicalize requested allowed'
               | _, _ => socket_listed canonicalize requested allowed'
               end
      | _ => socket_listed canonicalize requested allowed'
      end
  end.
(** [supported] is [cfg!(target_os = "macos")]. *)
Definition is_unix_socket_allowed (supported : bool) (r : reload_result) (canonicalize : str → option str) (path : str)
    : stm ConfigState proxy_error bool :=
  reading r (λ s,
    if negb supported then false
    else if negb (is_absolute path) then false
    else if dangerously_allow_all_unix_sockets (config s) then true
    else match from_absolute_path path with
         | Ok requested => socket_listed canonicalize requested (allow_unix_sockets (config s))
         | _ => false
         end).

(** ** Changes of the policy *)

(** [set_network_mode]: from the state it read, the constraints to compare
    with; then the write, or [None] to try again. *)
Definition mode_snapshot (m : NetworkMode) (s : ConfigState) : outcome proxy_error NetworkProxyConstraints :=
  _ ← map_err Constrained (validate_policy_against_constraints (with_mode m (config s)) (constraints s));
  Ok (constraints s).
Definition mode_commit (m : NetworkMode) (limits : NetworkProxyConstraints) (s : ConfigState) : option ConfigState :=
  if decide (constraints s = limits) then Some (with_config (with_mode m (config s)) s) else None.

(** [update_domain_list]: [None] when the list has the host already, else the
    configuration and constraints to compare with and the state to write. *)
Record pending_update : Type := {
  previous_cfg : NetworkProxySettings; previous_constraints : NetworkProxyConstraints; new_state : ConfigState }.
Definition update_snapshot (host : Host) (k : DomainListKind) (s : ConfigState) : outcome proxy_error (option pending_update) :=
  let target_contains := existsb (λ e, bool_decide (normalize_host e = host_str host)) (kind_entries k (config s)) in
  let opposite_contains := existsb (λ e, bool_decide (normalize_host e = host_str host)) (opposite_entries k (config s)) in
  if target_contains && negb opposite_contains then Ok None
  else
    let candidate := upsert_domain_permission (host_str host) (kind_permission k) normalize_host (config s) in
    _ ← map_err Constrained (validate_policy_against_constraints candidate (constraints s));
    new ← build_config_state candidate (constraints s);
    Ok (Some {| previous_cfg := config s; previous_constraints := constraints s;
                new_state := with_blocked (blocked s) (blocked_total s) new |}).
Definition update_commit (p : pending_update) (s : ConfigState) : option ConfigState :=
  if decide (constraints s = previous_constraints p ∧ config s = previous_cfg p) then Some (new_state p) else None.

(** A turn of a loop: what the reloader returned, and what the other tasks did
    to the state between the read and the write. *)
Record round : Type := { reloaded : reload_result; others : ConfigState → ConfigState }.
Fixpoint set_network_mode (rounds : list round) (m : NetworkMode) : stm ConfigState proxy_error unit := λ s,
  match rounds with
  | [] => (s, OutOfFuel)
  | t :: rounds' =>
      then_run (reload_if_needed (reloaded t)) (λ s,
       match mode_snapshot m s with
       | Ok limits =>
           let s := others t s in
           match mode_commit m limits s with
           | Some s => (s, Ok tt)
           | None => set_network_mode rounds' m s
           end
       | Err e => (s, Err e)
       | Panic => (s, Panic)
       | OutOfFuel => (s, OutOfFuel)
       end) s
  end.
Fixpoint update_loop (rounds : list round) (host : Host) (k : DomainListKind) : stm ConfigState proxy_error unit := λ s,
  match rounds with
  | [] => (s, OutOfFuel)
  | t :: rounds' =>
      then_run (reload_if_needed (reloaded t)) (λ s,
       match update_snapshot host k s with
       | Ok None => (s, Ok tt)
       | Ok (Some p) =>
           let s := others t s in
           match update_commit p s with
           | Some s => (s, Ok tt)
           | None => update_loop rounds' host k s
           end
       | Err e => (s, Err e)
       | Panic => (s, Panic)
       | OutOfFuel => (s, OutOfFuel)
       end) s
  end.
Definition update_domain_list (rounds : list round) (host : str) (k : DomainListKind) : stm ConfigState proxy_error unit :=
  host ← stm_lift (map_err InvalidHost (host_parse host)); update_loop rounds host k.
Definition add_allowed_domain (rounds : list round) (host : str) := update_domain_list rounds host AllowList.
Definition add_denied_domain (rounds : list round) (host : str) := update_domain_list rounds host DenyList.

(** ** Decisions about requests, [network_policy.rs] *)

Inductive NetworkProtocol : Type := Http | HttpsConnect | Socks5Tcp | Socks5Udp.
Inductive NetworkPolicyDecision : Type := DenyRequest | AskUser.
Inductive NetworkDecisionSource : Type := BaselinePolicy | ModeGuard | ProxyState | Decider.
Record NetworkPolicyRequest : Type := {
  request_protocol : NetworkProtocol; request_host : str; request_port : N; client_addr : option str;
  request_method : option str; command : option str; exec_policy_hint : option str }.
Inductive NetworkDecision : Type :=
| AllowRequest
| DenyWith (reason : str) (source : NetworkDecisionSource) (decision : NetworkPolicyDecision).
Definition policy_reason (reason : str) : str := if decide (reason = []) then lit "policy_denied" else reason.
Definition deny_with_source (reason : str) (source : NetworkDecisionSource) : NetworkDecision :=
  DenyWith (policy_reason reason) source DenyRequest.
Definition ask_with_source (reason : str) (source : NetworkDecisionSource) : NetworkDecision :=
  DenyWith (policy_reason reason) source AskUser.
Definition map_decider_decision (d : NetworkDecision) : NetworkDecision :=
  match d with AllowRequest => AllowRequest | DenyWith reason _ decision => DenyWith reason Decider decision end.
(** The fields of the audit event that depend on the decision; [None] is the
    decision to allow. *)
Record audit_event : Type := {
  audit_decision : option NetworkPolicyDecision; audit_source : NetworkDecisionSource; audit_reason : str;
  policy_override : bool }.
Definition audit_of (decision : NetworkDecision) (override : bool) : audit_event :=
  match decision with
  | AllowRequest =>
      {| audit_decision := None; audit_source := if override then Decider else BaselinePolicy;
         audit_reason := if override then reason_str NotAllowed else lit "allow"; policy_override := override |}
  | DenyWith reason source d =>
      {| audit_decision := Some d; audit_source := source; audit_reason := reason; policy_override := override |}
  end.
Definition decide_request (decider : option (NetworkPolicyRequest → NetworkDecision)) (request : NetworkPolicyRequest)
    (host_decision : HostBlockDecision) : NetworkDecision * bool :=
  match host_decision with
  | Allowed => (AllowRequest, false)
  | Blocked NotAllowed =>
      match decider with
      | Some decider =>
          let d := map_decider_decision (decider request) in
          (d, match d with AllowRequest => true | _ => false end)
      | None => (deny_with_source (reason_str NotAllowed) BaselinePolicy, false)
      end
  | Blocked reason => (deny_with_source (reason_str reason) BaselinePolicy, false)
  end.
(** The decision, with the audit event it leaves. *)
Definition evaluate_host_policy (r : reload_result) (lookup : str → N → lookup_result)
    (decider : option (NetworkPolicyRequest → NetworkDecision)) (request : NetworkPolicyRequest)
    : stm ConfigState proxy_error (NetworkDecision * audit_event) := λ s,
  match host_blocked r lookup (request_host request) (request_port request) s with
  | (s, Ok d) =>
      let '(decision, override) := decide_request decider request d in
      (s, Ok (decision, audit_of decision override))
  | (s, Err e) => (s, Err e)
  | (s, Panic) => (s, Panic)
  | (s, OutOfFuel) => (s, OutOfFuel)
  end.

(** ** The tasks that share the state *)

(** What a task has read and not written yet. *)
Inductive pending : Type :=
| PendingReload (new : ConfigState)
| PendingMode (m : NetworkMode) (limits : NetworkProxyConstraints)
| PendingUpdate (p : pending_update).
(** The shared state and what the tasks hold. *)
Record world : Type := { shared : ConfigState; in_flight : list pending }.
Section tasks.
(** The states the reloader may return. *)
Context (loads : ConfigState → Prop).
(** A reader or a writer runs alone; between the reading and the writing of
    one task the others may run. *)
Inductive step : world → world → Prop :=
| step_reload_read s l new :
    loads new → step {| shared := s; in_flight := l |} {| shared := s; in_flight := PendingReload (reload_snapshot new s) :: l |}
| step_reload_write s l k new :
    step {| shared := s; in_flight := l ++ PendingReload new :: k |} {| shared := reload_commit new s; in_flight := l ++ k |}
| step_force s l new :
    loads new → step {| shared := s; in_flight := l |} {| shared := force_commit new s; in_flight := l |}
| step_mode_read s l m limits :
    mode_snapshot m s = Ok limits →
    step {| shared := s; in_flight := l |} {| shared := s; in_flight := PendingMode m limits :: l |}
| step_mode_write s s' l k m limits :
    mode_commit m limits s = Some s' →
    step {| shared := s; in_flight := l ++ PendingMode m limits :: k |} {| shared := s'; in_flight := l ++ k |}
| step_mode_again s l k m limits :
    mode_commit m limits s = None →
    step {| shared := s; in_flight := l ++ PendingMode m limits :: k |} {| shared := s; in_flight := l ++ k |}
| step_update_read s l host kind p :
    update_snapshot host kind s = Ok (Some p) →
    step {| shared := s; in_flight := l |} {| shared := s; in_flight := PendingUpdate p :: l |}
| step_update_write s s' l k p :
    update_commit p s = Some s' →
    step {| shared := s; in_flight := l ++ PendingUpdate p :: k |} {| shared := s'; in_flight := l ++ k |}
| step_update_again s l k p :
    update_commit p s = None →
    step {| shared := s; in_flight := l ++ PendingUpdate p :: k |} {| shared := s; in_flight := l ++ k |}
| step_record s l entry :
    step {| shared := s; in_flight := l |} {| shared := push_blocked entry s; in_flight := l |}
| step_drain s l :
    step {| shared := s; in_flight := l |} {| shared := with_blocked [] (blocked_total s) s; in_flight := l |}.
Definition reachable (s : ConfigState) : world → Prop := rtc step {| shared := s; in_flight := [] |}.
End tasks.

(** The sets are those of the configuration, and the configuration keeps the
    managed constraints. *)
Definition compiled (s : ConfigState) : Prop :=
  compile_denylist_globset (default [] (denied_domains (config s))) = Ok (deny_set s)
  ∧ compile_allowlist_globset (default [] (allowed_domains (config s))) = Ok (allow_set s).
Definition enforced (s : ConfigState) : Prop := compiled s ∧ policy_within (config s) (constraints s).
Definition buffered (s : ConfigState) : Prop := (length (blocked s) ≤ MAX_BLOCKED_EVENTS)%nat.

(** *** Lemmas *)

Lemma pop_excess_lastn {A} (l : list A) : pop_excess l = lastn (N.of_nat MAX_BLOCKED_EVENTS) l.
Proof.
  induction l as [|x l IH]; [done|]. cbn [pop_excess].
  destruct (MAX_BLOCKED_EVENTS <? length (x :: l))%nat eqn:E.
  - apply Nat.ltb_lt in E. rewrite IH. simpl in E. change (x :: l) with ([x] ++ l). symmetry. apply lastn_app_ge.
    unfold len. lia.
  - apply Nat.ltb_ge in E. rewrite lastn_all; [done|]. unfold len. lia.
Qed.

Lemma pop_excess_length {A} (l : list A) : (length (pop_excess l) ≤ MAX_BLOCKED_EVENTS)%nat.
Proof. rewrite pop_excess_lastn. pose proof (len_lastn (N.of_nat MAX_BLOCKED_EVENTS) l). unfold len in *. lia. Qed.

Lemma build_compiled c limits s :
  build_config_state c limits = Ok s → compiled s ∧ config s = c ∧ constraints s = limits ∧ blocked s = [].
Proof.
  unfold build_config_state. intros (? & _ & H1)%bind_Ok_inv. apply bind_Ok_inv in H1 as (? & _ & H2).
  apply bind_Ok_inv in H2 as (deny & Hd%map_err_Ok & H3). apply bind_Ok_inv in H3 as (allow & Ha%map_err_Ok & H4).
  apply bind_Ok_inv in H4 as (tls & _ & [= <-]). done.
Qed.

Lemma compiled_with_blocked l n s : compiled s → compiled (with_blocked l n s).
Proof. done. Qed.

Lemma enforced_with_blocked l n s : enforced s → enforced (with_blocked l n s).
Proof. done. Qed.

Lemma update_snapshot_enforced host k s p :
  update_snapshot host k s = Ok (Some p) →
  enforced (new_state p) ∧ blocked (new_state p) = blocked s
  ∧ config (new_state p) = upsert_domain_permission (host_str host) (kind_permission k) normalize_host (config s)
  ∧ previous_constraints p = constraints s ∧ constraints (new_state p) = constraints s.
Proof.
  unfold update_snapshot. destruct (_ && _); [done|].
  intros ([] & Hv%map_err_Ok & H1)%bind_Ok_inv. apply bind_Ok_inv in H1 as (new & Hb & [= <-]). simpl.
  apply build_compiled in Hb as (Hc & Hcfg & Hlim & _). apply validate_policy_Ok in Hv. rewrite Hcfg, Hlim.
  split; [|done]. split; [done|]. simpl. by rewrite Hcfg, Hlim.
Qed.

Lemma mode_commit_enforced m limits s s' :
  mode_within m (max_mode limits) → enforced s → mode_commit m limits s = Some s' →
  enforced s' ∧ blocked s' = blocked s ∧ constraints s' = limits.
Proof.
  unfold mode_commit. intros Hm [Hc Hp]. case_decide as E; [|done]. intros [= <-].
  split; [|done]. split; [exact Hc|]. simpl. apply policy_within_mode; [done|]. by rewrite E.
Qed.

(** What holds of the state and of all the tasks hold. *)
Definition pending_ok (p : pending) : Prop :=
  match p with
  | PendingReload new => enforced new ∧ buffered new
  | PendingMode m limits => mode_within m (max_mode limits)
  | PendingUpdate p => enforced (new_state p) ∧ buffered (new_state p)
  end.
Definition world_ok (w : world) : Prop := enforced (shared w) ∧ buffered (shared w) ∧ Forall pending_ok (in_flight w).

Lemma step_ok loads w w' :
  (∀ s, loads s → enforced s) → step loads w w' → world_ok w → world_ok w'.
Proof.
  unfold world_ok. intros Hl Hs (He & Hb & Hf). destruct Hs as
    [s l new Hn|s l k new|s l new Hn|s l m limits Hn|s s' l k m limits Hn|s l k m limits Hn
    |s l host kind p Hn|s s' l k p Hn|s l k p Hn|s l entry|s l]; simpl in *.
  - split; [done|]. split; [done|]. constructor; [|done]. split; [by apply enforced_with_blocked, Hl|done].
  - apply Forall_app in Hf as [Hf1 Hf2]. apply Forall_cons in Hf2 as [[Hn1 Hn2] Hf2]. split; [done|]. split; [done|].
    by apply Forall_app.
  - split; [by apply enforced_with_blocked, Hl|]. done.
  - split; [done|]. split; [done|]. constructor; [|done]. unfold mode_snapshot in *.
    apply bind_Ok_inv in Hn as ([] & Hv%map_err_Ok & [= <-]). apply validate_policy_Ok in Hv.
    by eapply policy_within_own_mode.
  - apply Forall_app in Hf as [Hf1 Hf2]. apply Forall_cons in Hf2 as [Hm Hf2].
    destruct (mode_commit_enforced _ _ _ _ Hm He Hn) as (He' & Hb' & _). split; [done|].
    split; [by unfold buffered in *; rewrite Hb'|]. by apply Forall_app.
  - apply Forall_app in Hf as [Hf1 Hf2]. apply Forall_cons in Hf2 as [_ Hf2]. split; [done|]. split; [done|]. by apply Forall_app.
  - split; [done|]. split; [done|]. constructor; [|done].
    apply update_snapshot_enforced in Hn as (He' & Hb' & _). split; [done|]. unfold buffered in *. by rewrite Hb'.
  - apply Forall_app in Hf as [Hf1 Hf2]. apply Forall_cons in Hf2 as [[Hn1 Hn2] Hf2].
    unfold update_commit in Hn. case_decide; [|done]. injection Hn as <-. split; [done|]. split; [done|]. by apply Forall_app.
  - apply Forall_app in Hf as [Hf1 Hf2]. apply Forall_cons in Hf2 as [_ Hf2]. split; [done|]. split; [done|]. by apply Forall_app.
  - split; [by apply enforced_with_blocked|]. split; [|done]. apply pop_excess_length.
  - split; [by apply enforced_with_blocked|]. split; [|done]. unfold buffered. simpl. lia.
Qed.

Lemma reachable_ok loads s w :
  (∀ s, loads s → enforced s) → enforced s → buffered s → reachable loads s w → world_ok w.
Proof.
  intros Hl He Hb Hr. unfold reachable in Hr. remember {| shared := s; in_flight := [] |} as w0 eqn:E0.
  assert (H0 : world_ok w0) by (subst; split; [exact He|split; [exact Hb|constructor]]). clear E0.
  induction Hr as [|w1 w2 w3 H1 _ IH]; [done|]. apply IH. by eapply step_ok.
Qed.

(** The constraints of the state are those of a state that was loaded: an update
    keeps the ones it has read. *)
Definition pending_limits (P : NetworkProxyConstraints → Prop) (p : pending) : Prop :=
  match p with
  | PendingReload new => P (constraints new)
  | PendingMode _ _ => True
  | PendingUpdate p => constraints (new_state p) = previous_constraints p
  end.
Definition limits_ok (P : NetworkProxyConstraints → Prop) (w : world) : Prop :=
  P (constraints (shared w)) ∧ Forall (pending_limits P) (in_flight w).
Lemma step_limits P loads w w' : (∀ s, loads s → P (constraints s)) → step loads w w' → limits_ok P w → limits_ok P w'.
Proof.
  unfold limits_ok. intros Hl Hs [Hp Hf]. destruct Hs as
    [s l new Hn|s l k new|s l new Hn|s l m limits Hn|s s' l k m limits Hn|s l k m limits Hn
    |s l host kind p Hn|s s' l k p Hn|s l k p Hn|s l entry|s l]; simpl in *;
    try (apply Forall_app in Hf as [Hf1 Hf2]; apply Forall_cons in Hf2 as [Hq Hf2]); (split; [|auto using Forall_app_2]); try done.
  - constructor; [exact (Hl _ Hn)|done].
  - by apply Hl.
  - by constructor.
  - unfold mode_commit in Hn. case_decide as E; [|done]. by injection Hn as <-.
  - constructor; [|done]. apply update_snapshot_enforced in Hn as (_ & _ & _ & H1 & H2). simpl. congruence.
  - unfold update_commit in Hn. case_decide as E; [|done]. injection Hn as <-. simpl in Hq. rewrite Hq. by rewrite <-(proj1 E).
Qed.
Lemma reachable_limits (P : NetworkProxyConstraints → Prop) loads s w :
  (∀ s, loads s → P (constraints s)) → P (constraints s) → reachable loads s w → P (constraints (shared w)).
Proof.
  intros Hl Hp Hr. unfold reachable in Hr. remember {| shared := s; in_flight := [] |} as w0 eqn:E0.
  assert (H0 : limits_ok P w0) by (subst; by split). clear E0.
  induction Hr as [w|w1 w2 w3 H1 _ IH]; [apply H0|]. apply IH. by eapply step_limits.
Qed.

(** *** Decisions *)

Lemma host_decision_allowed lookup s host port :
  host_decision lookup s host port = Allowed
  ↔ is_match (deny_set s) (host_str host) = false
    ∧ (allow_local_binding (config s) = true
       ∨ (if local_literal host then is_explicit_local_allowlisted (default [] (allowed_domains (config s))) host = true
          else host_resolves_to_non_public_ip lookup (host_str host) port = false))
    ∧ allowed_domains (config s) ≠ None ∧ is_match (allow_set s) (host_str host) = true.
Proof.
  unfold host_decision. cbv zeta. destruct (is_match (deny_set s) (host_str host)); [naive_solver|].
  destruct (allow_local_binding (config s)); cbn [negb andb].
  - case_bool_decide; simpl; [naive_solver|]. destruct (is_match (allow_set s) (host_str host)); simpl; naive_solver.
  - destruct (local_literal host); [destruct (is_explicit_local_allowlisted _ host)|
      destruct (host_resolves_to_non_public_ip lookup (host_str host) port)]; cbn [negb]; try naive_solver;
    (case_bool_decide; simpl; [naive_solver|]); destruct (is_match (allow_set s) (host_str host)); simpl; naive_solver.
Qed.

Lemma resolves_public lookup host port :
  host_resolves_to_non_public_ip lookup host port = false
  ↔ match parse_ip host with
    | Some ip => is_non_public_ip ip = false
    | None => ∃ addrs, lookup host port = Resolved addrs ∧ Forall (λ ip, is_non_public_ip ip = false) addrs
    end.
Proof.
  unfold host_resolves_to_non_public_ip. destruct (parse_ip host) as [ip|]; [done|].
  destruct (lookup host port) as [addrs| |]; [|naive_solver..]. split.
  - intros He. exists addrs. split; [done|]. apply Forall_forall. intros ip Hip.
    destruct (is_non_public_ip ip) eqn:E; [|done].
    rewrite (proj2 (existsb_elem _ addrs)) in He by eauto. done.
  - intros (addrs' & [= <-] & Hf). apply existsb_false. by apply Forall_forall.
Qed.

Lemma compiled_denied lookup s host port e :
  compiled s → e ∈ default [] (denied_domains (config s)) → normalize_host e = host_str host → dns_name (host_str host) →
  host_decision lookup s host port = Blocked Denied.
Proof.
  intros [Hc _] He Hh Hd. unfold host_decision. rewrite <-Hh in *.
  by rewrite (compile_matches_name _ _ _ _ Hc He Hd).
Qed.

(** *** Updating the lists *)

Definition rounds_compiled (rounds : list round) : Prop :=
  Forall (λ t, (∀ new, reloaded t = Ok (Some new) → compiled new) ∧ ∀ s, compiled s → compiled (others t s)) rounds.

Lemma reload_compiled r s s' :
  (∀ new, r = Ok (Some new) → compiled new) → compiled s → reload_if_needed r s = (s', Ok tt) → compiled s'.
Proof.
  intros Hr Hs. unfold reload_if_needed. destruct r as [[new|]|e| |]; try done; intros [= <-]; [|done].
  by apply compiled_with_blocked, Hr.
Qed.

Lemma then_run_Ok {A} m (k : stm ConfigState proxy_error A) s s' a :
  then_run m k s = (s', Ok a) → ∃ s1, m s = (s1, Ok tt) ∧ k s1 = (s', Ok a).
Proof. unfold then_run. intros Hr. apply stm_bind_Ok in Hr as (s1 & [] & H1 & H2). eauto. Qed.

Lemma update_loop_denied rounds host s s' :
  rounds_compiled rounds → compiled s → dns_name (host_str host) → update_loop rounds host DenyList s = (s', Ok tt) →
  compiled s' ∧ ∃ e, e ∈ default [] (denied_domains (config s')) ∧ normalize_host e = host_str host.
Proof.
  intros Hrs Hs Hd. revert s Hs. induction Hrs as [|t rounds [Hr Ho] Hrs IH]; intros s Hs; [done|].
  cbn [update_loop]. intros (s1 & H1 & H2)%then_run_Ok. apply (reload_compiled _ _ _ Hr Hs) in H1.
  destruct (update_snapshot host DenyList s1) as [[p|]|e| |] eqn:E; try done.
  - destruct (update_commit p (others t s1)) as [s2|] eqn:E2; [|by apply IH in H2; auto].
    injection H2 as <-. unfold update_commit in E2. case_decide; [|done]. injection E2 as <-.
    apply update_snapshot_enforced in E as ([Hc _] & _ & Hcfg & _). split; [done|].
    exists (host_str host). rewrite Hcfg. split; [|by apply dns_name_host].
    apply elem_of_denied, upsert_entries. by left.
  - injection H2 as <-. split; [done|]. unfold update_snapshot in E.
    destruct (existsb _ (kind_entries DenyList (config s1))) eqn:Et.
    + apply existsb_elem in Et as (e & He & Hn). apply bool_decide_eq_true in Hn. eauto.
    + cbn [andb] in E. apply bind_Ok_inv in E as (? & _ & E). by apply bind_Ok_inv in E as (? & _ & E).
Qed.

(** *** Recording *)

Definition record_all (entries : list BlockedRequest) (s : ConfigState) : ConfigState :=
  foldl (λ s entry, (record_blocked (Ok None) false entry s).1) s entries.

Lemma record_all_spec entries s :
  buffered s → blocked_total s <= U64_MAX →
  let s' := record_all entries s in
  blocked s' = lastn (N.of_nat MAX_BLOCKED_EVENTS) (blocked s ++ entries)
  ∧ blocked_total s' = N.min U64_MAX (blocked_total s + N.of_nat (length entries))
  ∧ config s' = config s.
Proof.
  unfold record_all. revert s. induction entries as [|e entries IH]; intros s Hb Ht; cbv zeta.
  - simpl. rewrite app_nil_r, lastn_all; [split; [done|split; [lia|done]]|]. unfold buffered, len in *. lia.
  - cbn [foldl]. change ((record_blocked (Ok None) false e s).1) with (push_blocked e s).
    destruct (IH (push_blocked e s)) as (Hbl & Htot & Hcfg); [apply pop_excess_length|simpl; lia|].
    rewrite Hbl, Htot, Hcfg. split; [|split; [simpl; lia|done]]. cbn [push_blocked with_blocked blocked].
    rewrite pop_excess_lastn, <-lastn_app_lastn, <-app_assoc. done.
Qed.

(** *** What an answer to allow a request means *)

Definition reachable_address (lookup : str → N → lookup_result) (s : ConfigState) (host : Host) (port : N) : Prop :=
  if local_literal host then is_explicit_local_allowlisted (default [] (allowed_domains (config s))) host = true
  else match parse_ip (host_str host) with
       | Some ip => is_non_public_ip ip = false
       | None =>
           ∃ addrs, lookup (host_str host) port = Resolved addrs ∧ Forall (λ ip, is_non_public_ip ip = false) addrs
       end.

Lemma host_decision_overridable lookup s host port :
  host_decision lookup s host port = Allowed ∨ host_decision lookup s host port = Blocked NotAllowed →
  is_match (deny_set s) (host_str host) = false
  ∧ (allow_local_binding (config s) = true ∨ reachable_address lookup s host port).
Proof.
  unfold host_decision, reachable_address. cbv zeta. intros Hd.
  destruct (is_match (deny_set s) (host_str host)); [destruct Hd; done|]. split; [done|].
  destruct (allow_local_binding (config s)); [by left|right]. cbn [negb andb] in Hd.
  destruct (local_literal host).
  - destruct (is_explicit_local_allowlisted _ host); [done|]. destruct Hd; done.
  - apply resolves_public. destruct (host_resolves_to_non_public_ip lookup (host_str host) port); [|done]. destruct Hd; done.
Qed.

Lemma decide_request_allow decider request d o :
  decide_request decider request d = (AllowRequest, o) →
  (d = Allowed ∧ o = false)
  ∨ (d = Blocked NotAllowed ∧ o = true ∧ ∃ f, decider = Some f ∧ f request = AllowRequest).
Proof.
  unfold decide_request, deny_with_source. destruct d as [|[]]; [naive_solver|done| |done].
  destruct decider as [f|]; [|done]. cbv zeta. destruct (f request) eqn:E; simpl; [|done]. intros [= <-]. right. eauto.
Qed.

(** * Properties *)

(** However the tasks that reload, update and record interleave, the state they
    share keeps the managed constraints, its deny and allow sets are those
    compiled from its configuration, and it buffers at most 200 blocked
    requests, when this holds of the states the reloader returns. *)
Theorem policy_always_enforced (loads : ConfigState → Prop) (s : ConfigState) (w : world) :
  (∀ s, loads s → enforced s) → enforced s → buffered s → reachable loads s w →
  validate_policy_against_constraints (config (shared w)) (constraints (shared w)) = Ok tt
  ∧ compile_denylist_globset (default [] (denied_domains (config (shared w)))) = Ok (deny_set (shared w))
  ∧ compile_allowlist_globset (default [] (allowed_domains (config (shared w)))) = Ok (allow_set (shared w))
  ∧ (length (blocked (shared w)) ≤ MAX_BLOCKED_EVENTS)%nat.
Proof.
  intros Hl He Hb Hr. destruct (reachable_ok _ _ _ Hl He Hb Hr) as ([[Hd Ha] Hp] & Hbuf & _).
  split; [by apply validate_policy_Ok|done].
Qed.

(** Once [add_denied_domain] has returned, the proxy blocks the name as denied,
    in whatever case and with whatever final dots it was given and whatever
    else is allowed. *)
Theorem denied_domain_is_blocked (rounds : list round) (host : str) (s s' : ConfigState)
    (lookup : str → N → lookup_result) (port : N) :
  dns_text host → rounds_compiled rounds → compiled s → add_denied_domain rounds host s = (s', Ok tt) →
  host_blocked (Ok None) lookup host port s' = (s', Ok (Blocked Denied)).
Proof.
  intros Ht Hr Hs Hadd. unfold add_denied_domain, update_domain_list in Hadd.
  apply stm_bind_Ok in Hadd as (s1 & h & H1 & H2). unfold stm_lift in H1. injection H1 as <- Hp.
  apply map_err_Ok in Hp. unfold host_parse in Hp. cbv zeta in Hp. case_decide as Hn; [done|]. injection Hp as <-.
  pose proof (dns_name_normalized host Ht Hn) as Hd.
  destruct (update_loop_denied rounds {| host_str := normalize_host host |} s s' Hr Hs Hd H2) as (Hc & e & He & Hh).
  unfold host_blocked, reading, then_run, inspect, mbind, stm_bind, reload_if_needed. f_equal. f_equal.
  unfold host_parse. cbv zeta. rewrite decide_False by done. by eapply compiled_denied.
Qed.

(** A request is allowed, by the lists or by the decider, only when the deny
    set does not match its host, and its host is not local: it is written as a
    local address that the configuration lists itself, or all the addresses it
    resolves to are public, unless local binding is configured. The audit event
    says whether the decider overrode the lists. *)
Theorem allowed_requests_are_safe (r : reload_result) (lookup : str → N → lookup_result)
    (decider : option (NetworkPolicyRequest → NetworkDecision)) (request : NetworkPolicyRequest) (s s' : ConfigState)
    (ev : audit_event) (host : Host) :
  evaluate_host_policy r lookup decider request s = (s', Ok (AllowRequest, ev)) →
  host_parse (request_host request) = Ok host →
  is_match (deny_set s') (host_str host) = false
  ∧ (allow_local_binding (config s') = true ∨ reachable_address lookup s' host (request_port request))
  ∧ (policy_override ev = false → is_match (allow_set s') (host_str host) = true).
Proof.
  unfold evaluate_host_policy. destruct (host_blocked _ _ _ _ s) as [s1 [d|e| |]] eqn:E; try done.
  destruct (decide_request decider request d) as [dec o] eqn:Ed. intros [= -> -> <-] Hh.
  unfold host_blocked, reading in E. apply then_run_Ok in E as (s2 & _ & E). unfold inspect in E. rewrite Hh in E.
  injection E as -> Hd. apply decide_request_allow in Ed.
  destruct (host_decision_overridable lookup s' host (request_port request)) as [H1 H2]; [rewrite Hd; naive_solver|].
  split; [done|]. split; [done|]. simpl. destruct Ed as [[-> ->]|(_ & -> & _)]; [|done]. intros _.
  by apply host_decision_allowed in Hd as (_ & _ & _ & Hm).
Qed.

(** Requests recorded one after another are buffered in order, the last 200 of
    them, and counted up to the largest 64-bit number. *)
Theorem recorded_requests (entries : list BlockedRequest) (s : ConfigState) :
  buffered s → blocked_total s <= U64_MAX →
  blocked (record_all entries s) = lastn (N.of_nat MAX_BLOCKED_EVENTS) (blocked s ++ entries)
  ∧ blocked_total (record_all entries s) = N.min U64_MAX (blocked_total s + N.of_nat (length entries))
  ∧ drain_blocked (Ok None) (record_all entries s)
    = (with_blocked [] (blocked_total (record_all entries s)) (record_all entries s),
       Ok (lastn (N.of_nat MAX_BLOCKED_EVENTS) (blocked s ++ entries))).
Proof.
  intros Hb Ht. destruct (record_all_spec entries s Hb Ht) as (Hbl & Htot & _). split; [done|]. split; [done|].
  unfold drain_blocked, then_run, mbind, stm_bind, reload_if_needed. by rewrite Hbl.
Qed.

(** A blocked request whose recording falls between the reading and the writing
    of a reload is lost: it is in no later snapshot, and is not counted. *)
Theorem recorded_request_lost (loads : ConfigState → Prop) (new s : ConfigState) (entry : BlockedRequest) :
  loads new →
  ∃ w1 w2 w3,
    step loads {| shared := s; in_flight := [] |} w1
    ∧ step loads w1 w2 ∧ shared w2 = push_blocked entry (shared w1)
    ∧ step loads w2 w3 ∧ in_flight w3 = []
    ∧ blocked (shared w3) = blocked s ∧ blocked_total (shared w3) = blocked_total s.
Proof.
  intros Hl. exists {| shared := s; in_flight := [PendingReload (reload_snapshot new s)] |},
    {| shared := push_blocked entry s; in_flight := [PendingReload (reload_snapshot new s)] |},
    {| shared := reload_snapshot new s; in_flight := [] |}.
  split; [by constructor|]. split; [by constructor|]. split; [done|]. split; [|done].
  apply (step_reload_write loads (push_blocked entry s) [] [] (reload_snapshot new s)).
Qed.

(** A turn in which nothing is reloaded and the other tasks leave the
    configuration and its constraints alone ends the loop of an update, with
    what the check and the building of the new state gave. *)
Theorem quiet_turn_ends_update (host : Host) (k : DomainListKind) (rounds : list round) (t : round) (s : ConfigState) :
  reloaded t = Ok None →
  config (others t s) = config s → constraints (others t s) = constraints s →
  update_loop (t :: rounds) host k s
  = match update_snapshot host k s with
    | Ok None => (s, Ok tt)
    | Ok (Some p) => (new_state p, Ok tt)
    | Err e => (s, Err e)
    | Panic => (s, Panic)
    | OutOfFuel => (s, OutOfFuel)
    end.
Proof.
  intros Hr Hc Hl. cbn [update_loop]. unfold then_run, mbind, stm_bind. rewrite Hr. cbn [reload_if_needed].
  destruct (update_snapshot host k s) as [[p|]|e| |] eqn:E; try done.
  assert (Hp : previous_cfg p = config s ∧ previous_constraints p = constraints s).
  { unfold update_snapshot in E. destruct (_ && _); [done|]. apply bind_Ok_inv in E as (? & _ & E).
    apply bind_Ok_inv in E as (? & _ & [= <-]). done. }
  unfold update_commit. rewrite decide_True; [done|]. destruct Hp as [-> ->]. done.
Qed.
End state.

(** * Witnesses *)

#[export] Instance unit_mitm : Mitm := {| MitmState := unit; mitm_new _ := Ok tt |}.
#[local] Instance example_env : PathEnv := lexical_env (lit "/root") (lit "/").
#[local] Existing Instance simple_url_host.

Definition no_constraints : NetworkProxyConstraints :=
  {| max_enabled := None; max_mode := None; max_upstream_proxy := None; max_non_loopback_proxy := None;
     max_all_unix_sockets := None; managed_allowed := None; allowlist_expansion_enabled := None; managed_denied := None;
     denylist_expansion_enabled := None; managed_unix_sockets := None; max_local_binding := None |}.
Definition example_settings : NetworkProxySettings :=
  set_denied_domains [lit "evil.example.com"] (set_allowed_domains [lit "*.example.com"; lit "localhost"] default_settings).
Definition example_state : ConfigState :=
  {| config := example_settings; allow_set := [lit "?*.example.com"; lit "localhost"]; deny_set := [lit "evil.example.com"];
     mitm_state := None; constraints := no_constraints; blocked := []; blocked_total := 0 |}.
Definition public_lookup (host : str) (port : N) : lookup_result := Resolved [V4 (ipv4 93 184 216 34)].
Definition example_request (host : str) : NetworkPolicyRequest :=
  {| request_protocol := Http; request_host := host; request_port := 443; client_addr := None; request_method := None;
     command := None; exec_policy_hint := None |}.
Definition example_blocked (host : str) : BlockedRequest :=
  {| blocked_host := host; blocked_reason := lit "denied"; client := None; method := None; request_mode := None;
     protocol := lit "http"; blocked_decision := None; blocked_source := None; blocked_port := None; timestamp := 0 |}.
Definition quiet_turn : round := {| reloaded := Ok None; others s := s |}.

Example decisions_ex :
  build_config_state example_settings no_constraints = Ok example_state
  ∧ host_decision public_lookup example_state {| host_str := lit "a.example.com" |} 443 = Allowed
  ∧ host_decision public_lookup example_state {| host_str := lit "evil.example.com" |} 443 = Blocked Denied
  ∧ host_decision public_lookup example_state {| host_str := lit "example.com" |} 443 = Blocked NotAllowed
  ∧ host_decision public_lookup example_state {| host_str := lit "127.0.0.1" |} 443 = Blocked NotAllowedLocal
  ∧ host_decision (λ _ _, TimedOut) example_state {| host_str := lit "a.example.com" |} 443 = Blocked NotAllowedLocal
  ∧ host_decision public_lookup example_state {| host_str := lit "localhost" |} 443 = Allowed
  ∧ (add_denied_domain [quiet_turn] (lit "A.Example.com.") example_state).2 = Ok tt
  ∧ (host_blocked (Ok None) public_lookup (lit "a.example.com:80") 80
       (add_denied_domain [quiet_turn] (lit "A.Example.com.") example_state).1).2 = Ok (Blocked Denied).
Proof. vm_compute. repeat split. Qed.

Lemma example_enforced : enforced example_state.
Proof. split; [split; vm_compute; reflexivity|apply validate_policy_Ok; vm_compute; reflexivity]. Qed.

Lemma example_reachable :
  reachable (λ s, s = example_state) example_state
    {| shared := push_blocked (example_blocked (lit "evil.example.com")) example_state; in_flight := [] |}.
Proof. apply rtc_once. constructor. Qed.

Lemma policy_always_enforced_witness :
  let s := push_blocked (example_blocked (lit "evil.example.com")) example_state in
  validate_policy_against_constraints (config s) (constraints s) = Ok tt
  ∧ compile_denylist_globset (default [] (denied_domains (config s))) = Ok (deny_set s)
  ∧ compile_allowlist_globset (default [] (allowed_domains (config s))) = Ok (allow_set s)
  ∧ (length (blocked s) ≤ MAX_BLOCKED_EVENTS)%nat.
Proof.
  apply (policy_always_enforced (λ s, s = example_state) example_state _
           ltac:(intros s ->; exact example_enforced) example_enforced ltac:(vm_compute; lia) example_reachable).
Defined.

Lemma example_rounds : rounds_compiled [quiet_turn].
Proof. apply Forall_singleton. split; [done|]. intros s Hs. exact Hs. Qed.

Lemma denied_domain_is_blocked_witness :
  let s' := (add_denied_domain [quiet_turn] (lit "A.Example.com.") example_state).1 in
  host_blocked (Ok None) public_lookup (lit "A.Example.com.") 443 s' = (s', Ok (Blocked Denied)).
Proof.
  apply (denied_domain_is_blocked [quiet_turn] (lit "A.Example.com.") example_state).
  - repeat constructor.
  - exact example_rounds.
  - apply example_enforced.
  - vm_compute. reflexivity.
Defined.

Lemma allowed_requests_are_safe_witness :
  is_match (deny_set example_state) (lit "a.example.com") = false
  ∧ (allow_local_binding (config example_state) = true
     ∨ reachable_address public_lookup example_state {| host_str := lit "a.example.com" |} 443)
  ∧ (policy_override (audit_of AllowRequest false) = false → is_match (allow_set example_state) (lit "a.example.com") = true).
Proof.
  apply (allowed_requests_are_safe (Ok None) public_lookup None (example_request (lit "a.example.com")) example_state
           example_state (audit_of AllowRequest false) {| host_str := lit "a.example.com" |}); vm_compute; reflexivity.
Defined.

Lemma recorded_requests_witness :
  let entries := [example_blocked (lit "a"); example_blocked (lit "b")] in
  blocked (record_all entries example_state) = lastn (N.of_nat MAX_BLOCKED_EVENTS) (blocked example_state ++ entries)
  ∧ blocked_total (record_all entries example_state)
    = N.min U64_MAX (blocked_total example_state + N.of_nat (length entries))
  ∧ drain_blocked (Ok None) (record_all entries example_state)
    = (with_blocked [] (blocked_total (record_all entries example_state)) (record_all entries example_state),
       Ok (lastn (N.of_nat MAX_BLOCKED_EVENTS) (blocked example_state ++ entries))).
Proof. apply recorded_requests; [vm_compute; lia|vm_compute; discriminate]. Defined.

Lemma recorded_request_lost_witness :
  let loads s := s = example_state in
  ∃ w1 w2 w3,
    step loads {| shared := example_state; in_flight := [] |} w1
    ∧ step loads w1 w2 ∧ shared w2 = push_blocked (example_blocked (lit "x")) (shared w1)
    ∧ step loads w2 w3 ∧ in_flight w3 = []
    ∧ blocked (shared w3) = blocked example_state ∧ blocked_total (shared w3) = blocked_total example_state.
Proof. apply (recorded_request_lost (λ s, s = example_state) example_state). reflexivity. Defined.

Lemma quiet_turn_ends_update_witness :
  update_loop [quiet_turn] {| host_str := lit "b.com" |} AllowList example_state
  = match update_snapshot {| host_str := lit "b.com" |} AllowList example_state with
    | Ok None => (example_state, Ok tt)
    | Ok (Some p) => (new_state p, Ok tt)
    | Err e => (example_state, Err e)
    | Panic => (example_state, Panic)
    | OutOfFuel => (example_state, OutOfFuel)
    end.
Proof. apply (quiet_turn_ends_update {| host_str := lit "b.com" |} AllowList [] quiet_turn); reflexivity. Defined.
