(* ===== verification/NetAddr.v ===== *)
(** Addresses the network proxy listens on: the end of
    [codex-rs/network-proxy/src/config.rs]. The url crate is an interface. *)
From Stdlib Require Import ZifyN ZifyBool Ascii.
From stdpp Require Import pretty.
From S2P Require Import Prelude RustStr RustPath AbsolutePath NetHost NetPolicy.
Local Open Scope N_scope.

(** [SocketAddr]: an address and a port. *)
Definition SocketAddr : Type := IpAddr * N.
Definition LOCALHOST : IpAddr := V4 (ipv4 127 0 0 1).
Definition clamp_non_loopback (addr : SocketAddr) (allow_non_loopback : bool) : SocketAddr :=
  if is_loopback_ip addr.1 then addr else if allow_non_loopback then addr else (LOCALHOST, addr.2).
Definition clamp_bind_addrs (http_addr socks_addr : SocketAddr) (s : NetworkProxySettings) : SocketAddr * SocketAddr :=
  let http_addr := clamp_non_loopback http_addr (dangerously_allow_non_loopback_proxy s) in
  let socks_addr := clamp_non_loopback socks_addr (dangerously_allow_non_loopback_proxy s) in
  if bool_decide (allow_unix_sockets s = []) && negb (dangerously_allow_all_unix_sockets s) then (http_addr, socks_addr)
  else ((LOCALHOST, http_addr.2), (LOCALHOST, socks_addr.2)).

(** ** Hosts and ports *)

(** [str::parse] of an unsigned integer type with the greatest value [max]. *)
Fixpoint parse_digits (max acc : N) (s : str) : option N :=
  match s with
  | [] => Some acc
  | c :: s' =>
      if is_ascii_digit c then
        let v := acc * 10 + (c - 48) in
        if max <? v then None else parse_digits max v s'
      else None
  end.
Definition parse_uint (max : N) (s : str) : option N :=
  match s with
  | [] => None
  | c :: s' => if c =? 43 then (if decide (s' = []) then None else parse_digits max 0 s') else parse_digits max 0 s
  end.
Definition parse_u16 : str → option N := parse_uint 65535.

Record SocketAddressParts : Type := { part_host : str; part_port : N }.
Definition missing_host (url : str) : outcome str SocketAddressParts :=
  Err (lit "missing host in network proxy address: " ++ url).
Definition split_once_text (sep s : str) : option (str * str) :=
  (λ n, (take n s, drop (n + length sep) s)) <$> find sep s.
(** The part of the input that names the host and the port. *)
Definition authority (input : str) : str :=
  let without_scheme := match split_once_text (lit "://") input with Some (_, rest) => rest | None => input end in
  let host_port := default without_scheme (head (split_char slash without_scheme)) in
  match rsplit_once 64 host_port with Some (_, rest) => rest | None => host_port end.
Definition parse_host_port_fallback (input : str) (default_port : N) : outcome str SocketAddressParts :=
  let host_port := authority input in
  match (if starts_with (lit "[") host_port then find (lit "]") host_port else None) with
  | Some end_ =>
      let host := drop 1 (take end_ host_port) in
      let port := default default_port (strip_prefix [colon] (drop (end_ + 1) host_port) ≫= parse_u16) in
      if decide (host = []) then missing_host input else Ok {| part_host := host; part_port := port |}
  | None =>
      match (if bool_decide (count_char colon host_port = 1%nat) then rsplit_once colon host_port else None) with
      | Some (host, port) =>
          if decide (host = []) then missing_host input
          else Ok {| part_host := host; part_port := default default_port (parse_u16 port) |}
      | None =>
          if decide (host_port = []) then missing_host input
          else Ok {| part_host := host_port; part_port := default_port |}
      end
  end.

(** [Url::parse]: the host and the port of a URL, or an error. *)
Class UrlParser : Type := { url_parse : str → option (option str * option N) }.
Section urls.
Context `{UrlParser}.
Definition parse_host_port (url : str) (default_port : N) : outcome str SocketAddressParts :=
  let trimmed := trim url in
  if decide (trimmed = []) then missing_host url
  else if match parse_ip trimmed with Some (V6 _) => true | _ => false end && negb (starts_with (lit "[") trimmed) then
    Ok {| part_host := trimmed; part_port := default_port |}
  else
    let candidate := if contains (lit "://") trimmed then trimmed else lit "http://" ++ trimmed in
    match url_parse candidate with
    | Some (Some host, port) =>
        let bracket c := (c =? 91) || (c =? 93) in
        let host := trim_end_matches bracket (trim_start_matches bracket host) in
        if decide (host = []) then missing_host url
        else Ok {| part_host := host; part_port := default default_port port |}
    | _ => parse_host_port_fallback trimmed default_port
    end.
Definition resolve_addr (url : str) (default_port : N) : outcome str SocketAddr :=
  parts ← parse_host_port url default_port;
  let host := if decide (to_ascii_lowercase (part_host parts) = lit "localhost") then lit "127.0.0.1" else part_host parts in
  Ok (default LOCALHOST (parse_ip host), part_port parts).
Definition resolve_runtime `{PathEnv} (s : NetworkProxySettings) : outcome str (SocketAddr * SocketAddr) :=
  _ ← validate_unix_socket_allowlist_paths s;
  http_addr ← resolve_addr (proxy_url s) 3128;
  socks_addr ← resolve_addr (socks_url s) 8081;
  Ok (clamp_bind_addrs http_addr socks_addr s).
Definition format_host_and_port (host : str) (port : N) : str :=
  if contains_char colon host then lit "[" ++ host ++ lit "]:" ++ show_N port else host ++ lit ":" ++ show_N port.
Definition host_and_port_from_network_addr (value : str) (default_port : N) : str :=
  let trimmed := trim value in
  if decide (trimmed = []) then lit "<missing>"
  else match parse_host_port trimmed default_port with
       | Ok parts => format_host_and_port (part_host parts) (part_port parts)
       | _ => format_host_and_port trimmed default_port
       end.
End urls.

(** * Lemmas *)

Lemma digit_of_pretty n : n < 10 → is_ascii_digit (N_of_ascii (pretty_N_char n)) = true ∧ N_of_ascii (pretty_N_char n) = 48 + n.
Proof.
  intros Hn. assert (Hc : n = 0 ∨ n = 1 ∨ n = 2 ∨ n = 3 ∨ n = 4 ∨ n = 5 ∨ n = 6 ∨ n = 7 ∨ n = 8 ∨ n = 9) by lia.
  by destruct Hc as [->|[->|[->|[->|[->|[->|[->|[->|[->| ->]]]]]]]]].
Qed.

Lemma parse_pretty_go max n s : n <= max → parse_digits max 0 (lit (pretty_N_go n s)) = parse_digits max n (lit s).
Proof.
  revert s. induction (N.lt_wf_0 n) as [n _ IH]; intros s Hn. destruct (decide (n = 0)) as [->|Hz]; [done|].
  rewrite pretty_N_go_step by lia. assert (Hlt : n / 10 < n) by (apply N.div_lt; lia). rewrite IH by lia.
  change (lit (String ?c s)) with (N_of_ascii c :: lit s). cbn [parse_digits].
  destruct (digit_of_pretty (n mod 10)) as [-> ->]; [by apply N.mod_upper_bound|].
  pose proof (N.div_mod' n 10). replace (n / 10 * 10 + (48 + n mod 10 - 48)) with n by lia.
  by rewrite (proj2 (N.ltb_ge max n)).
Qed.

Lemma parse_show_N max n : n <= max → parse_uint max (show_N n) = Some n.
Proof.
  intros Hn. assert (Hp : parse_digits max 0 (show_N n) = Some n).
  { unfold show_N, pretty, pretty_N. case_decide as E; [subst; by destruct max|]. by rewrite parse_pretty_go. }
  unfold parse_uint. pose proof (show_N_digits n) as Hd. destruct (show_N n) as [|c t] eqn:E.
  - injection Hp as <-. done.
  - apply Forall_cons in Hd as [Hc _]. assert (Hplus : (c =? 43) = false) by (unfold is_ascii_digit in Hc; lia).
    by rewrite Hplus.
Qed.

Lemma parse_u16_show n : n <= 65535 → parse_u16 (show_N n) = Some n.
Proof. apply parse_show_N. Qed.

Lemma show_N_not c n : is_ascii_digit c = false → c ∉ show_N n.
Proof. intros Hc Hin. pose proof (show_N_digits n) as Hd. eapply Forall_forall in Hd; [|done]. simpl in Hd. congruence. Qed.

Lemma find_not needle s c : c ∈ needle → c ∉ s → find needle s = None.
Proof.
  intros Hc. induction s as [|x s IH]; intros Hin; [by destruct needle; [apply not_elem_of_nil in Hc|]|]. cbn [find].
  assert (Hs : starts_with needle (x :: s) = false).
  { destruct (starts_with needle (x :: s)) eqn:E; [|done]. apply starts_with_spec in E as [t Ht].
    exfalso. apply Hin. rewrite Ht. set_solver. }
  rewrite Hs, IH; [done|]. intros Hx. apply Hin. by right.
Qed.

Lemma find_char_app c a b : c ∉ a → find [c] (a ++ c :: b) = Some (length a).
Proof.
  induction a as [|x a IH]; intros Hc; cbn [find app].
  - unfold starts_with. cbn [strip_prefix]. by rewrite N.eqb_refl.
  - assert (Hx : c ≠ x) by (intros ->; apply Hc; left). unfold starts_with. cbn [strip_prefix].
    rewrite (proj2 (N.eqb_neq c x) Hx). rewrite IH; [done|]. intros Hs. apply Hc. by right.
Qed.


Lemma split_once_not c s : c ∉ s → split_once c s = None.
Proof.
  induction s as [|x s IH]; intros Hc; [done|]. cbn [split_once].
  assert (Hx : x ≠ c) by (intros ->; apply Hc; left). rewrite (proj2 (N.eqb_neq x c) Hx).
  rewrite IH; [done|]. intros Hs. apply Hc. by right.
Qed.

Lemma split_once_app c a b : c ∉ a → split_once c (a ++ c :: b) = Some (a, b).
Proof.
  induction a as [|x a IH]; intros Hc; cbn [split_once app]; [by rewrite N.eqb_refl|].
  assert (Hx : x ≠ c) by (intros ->; apply Hc; left). rewrite (proj2 (N.eqb_neq x c) Hx).
  rewrite IH; [done|]. intros Hs. apply Hc. by right.
Qed.

Lemma rsplit_once_not c s : c ∉ s → rsplit_once c s = None.
Proof. intros Hc. unfold rsplit_once. rewrite split_once_not; [done|]. by rewrite elem_of_reverse. Qed.

Lemma rsplit_once_app c a b : c ∉ b → rsplit_once c (a ++ c :: b) = Some (a, b).
Proof.
  intros Hc. unfold rsplit_once. rewrite reverse_app, reverse_cons, <-app_assoc. simpl.
  rewrite split_once_app by (by rewrite elem_of_reverse). by rewrite !reverse_involutive.
Qed.

(** A text without slashes or an at sign is its own authority. *)
Lemma authority_plain s : slash ∉ s → 64 ∉ s → authority s = s.
Proof.
  intros Hs Ha. unfold authority, split_once_text. rewrite (find_not _ _ slash); [|right; left|done]. simpl.
  rewrite split_char_single by done. simpl. by rewrite rsplit_once_not.
Qed.

Lemma count_char_app c a b : count_char c (a ++ b) = (count_char c a + count_char c b)%nat.
Proof. unfold count_char. by rewrite filter_app, length_app. Qed.

(** * Properties *)

(** An address written by [format_host_and_port] is parsed back, without the
    URL parser: names, IPv4 and IPv6 addresses. *)
Theorem host_and_port_round_trip (host : str) (port default_port : N) :
  host ≠ [] → slash ∉ host → 64 ∉ host → 91 ∉ host → 93 ∉ host → port <= 65535 →
  parse_host_port_fallback (format_host_and_port host port) default_port = Ok {| part_host := host; part_port := port |}.
Proof.
  intros Hn Hs Ha Ho Hc Hp. unfold format_host_and_port. destruct (contains_char colon host) eqn:E.
  - assert (Hauth : authority (lit "[" ++ host ++ lit "]:" ++ show_N port) = lit "[" ++ host ++ lit "]:" ++ show_N port).
    { change (lit "[") with [91]. change (lit "]:") with [93; 58].
      pose proof (show_N_not slash port eq_refl); pose proof (show_N_not 64 port eq_refl).
      apply authority_plain; rewrite !elem_of_app, !elem_of_cons, elem_of_nil; unfold slash; naive_solver. }
    unfold parse_host_port_fallback. rewrite Hauth. clear Hauth. cbv zeta.
    change (lit "[" ++ host ++ lit "]:" ++ show_N port) with (91 :: host ++ 93 :: colon :: show_N port).
    change (starts_with (lit "[") (91 :: host ++ 93 :: colon :: show_N port)) with true. cbv iota.
    change (lit "]") with [93]. change (91 :: host ++ 93 :: colon :: show_N port) with ((91 :: host) ++ 93 :: colon :: show_N port).
    rewrite find_char_app by set_solver.
    rewrite take_app_length. rewrite (drop_app_add _ _ 1). simpl. rewrite decide_False by done.
    change (colon :: show_N port) with ([colon] ++ show_N port). rewrite drop_0.
    by rewrite parse_u16_show.
  - apply contains_char_false in E.
    assert (Hauth : authority (host ++ lit ":" ++ show_N port) = host ++ lit ":" ++ show_N port).
    { change (lit ":") with [58]. pose proof (show_N_not slash port eq_refl). pose proof (show_N_not 64 port eq_refl).
      apply authority_plain; rewrite !elem_of_app, !elem_of_cons, elem_of_nil; unfold slash; naive_solver. }
    unfold parse_host_port_fallback. rewrite Hauth. clear Hauth. cbv zeta.
    change (lit "[") with [91]. rewrite starts_with_not by
      (change (lit ":") with [58]; pose proof (show_N_not 91 port eq_refl);
       rewrite !elem_of_app, !elem_of_cons, elem_of_nil; naive_solver).
    pose proof (show_N_not colon port eq_refl) as Hcp.
    rewrite bool_decide_eq_true_2.
    2:{ rewrite !count_char_app, (count_char_not _ host), (count_char_not _ (show_N port)) by done. reflexivity. }
    change (lit ":" ++ show_N port) with (colon :: show_N port). rewrite rsplit_once_app by done.
    rewrite decide_False by done. by rewrite parse_u16_show.
Qed.

(** The proxy listens on loopback addresses, unless the configuration allows
    others and proxies no unix sockets. *)
Theorem bound_addresses_loopback `{UrlParser, PathEnv} (s : NetworkProxySettings) (a b : SocketAddr) :
  resolve_runtime s = Ok (a, b) →
  dangerously_allow_non_loopback_proxy s = false ∨ allow_unix_sockets s ≠ [] ∨ dangerously_allow_all_unix_sockets s = true →
  is_loopback_ip a.1 = true ∧ is_loopback_ip b.1 = true.
Proof.
  unfold resolve_runtime. intros ([] & _ & Hr)%bind_Ok_inv Hs. apply bind_Ok_inv in Hr as (x & _ & Hr).
  apply bind_Ok_inv in Hr as (y & _ & [= Hr]). revert Hr. unfold clamp_bind_addrs. cbv zeta.
  destruct (bool_decide (allow_unix_sockets s = []) && negb (dangerously_allow_all_unix_sockets s)) eqn:E;
    [|intros [= <- <-]; done].
  apply andb_true_iff in E as [E1%bool_decide_eq_true E2%negb_true_iff].
  assert (Hd : dangerously_allow_non_loopback_proxy s = false) by (destruct Hs as [?|[?|?]]; congruence). rewrite Hd.
  unfold clamp_non_loopback. intros [= <- <-].
  destruct (is_loopback_ip x.1) eqn:Ex, (is_loopback_ip y.1) eqn:Ey; done.
Qed.

(** * Witnesses *)

Lemma host_and_port_round_trip_witness :
  parse_host_port_fallback (format_host_and_port (lit "2001:db8::1") 8080) 3128
  = Ok {| part_host := lit "2001:db8::1"; part_port := 8080 |}.
Proof.
  apply host_and_port_round_trip; try discriminate;
    (intros Hin; apply list_elem_of_In in Hin; vm_compute in Hin; intuition discriminate).
Defined.

Definition no_urls : UrlParser := {| url_parse _ := None |}.

Lemma bound_addresses_loopback_witness :
  let s := with_mode Limited default_settings in
  @resolve_runtime no_urls (lexical_env (lit "/root") (lit "/")) s = Ok ((LOCALHOST, 3128), (LOCALHOST, 8081))
  ∧ is_loopback_ip (LOCALHOST, 3128).1 = true ∧ is_loopback_ip (LOCALHOST, 8081).1 = true.
Proof.
  assert (E : @resolve_runtime no_urls (lexical_env (lit "/root") (lit "/")) (with_mode Limited default_settings)
              = Ok ((LOCALHOST, 3128), (LOCALHOST, 8081))) by (vm_compute; reflexivity).
  split; [exact E|]. exact (@bound_addresses_loopback no_urls _ _ _ _ E (or_introl eq_refl)).
Defined.
