(* ===== verification/PermissionProfile.v ===== *)
(** Permission profiles of the configuration:
    [codex-rs/core/src/config/permissions.rs]. A profile is compiled to a
    file-system policy of the sandbox, a network policy of the sandbox, and
    settings of the network proxy. *)
From stdpp Require Import gmap.
From S2P Require Import Prelude RustStr BTreeMap RustPath FileSystem AbsolutePath ExecPolicy Protocol Permissions NetHost NetPolicy.

(** * Profiles *)

(** A [BTreeMap] is the list of its entries, by increasing keys. *)
Inductive FilesystemPermissionToml : Type :=
| Access (access : FileSystemAccessMode)
| Scoped (entries : list (str * FileSystemAccessMode)).
Inductive NetworkDomainPermissionToml : Type := TomlAllow | TomlDeny.
Inductive NetworkUnixSocketPermissionToml : Type := TomlAllowSocket | TomlNoSocket.
Record NetworkToml : Type := {
  toml_enabled : option bool; toml_proxy_url : option str; toml_enable_socks5 : option bool; toml_socks_url : option str;
  toml_enable_socks5_udp : option bool; toml_upstream_proxy : option bool; toml_non_loopback_proxy : option bool;
  toml_all_unix_sockets : option bool; toml_mode : option NetworkMode;
  toml_domains : option (list (str * NetworkDomainPermissionToml));
  toml_unix_sockets : option (list (str * NetworkUnixSocketPermissionToml)); toml_local_binding : option bool }.
Record PermissionProfileToml : Type := {
  filesystem : option (list (str * FilesystemPermissionToml)); network : option NetworkToml }.
Definition PermissionsToml : Type := list (str * PermissionProfileToml).

(** * Network settings *)

(** [set_unix_socket_entries] of the proxy's settings. *)
Definition set_unix_socket_entries (entries : list str) (p : NetworkUnixSocketPermission)
    (old : option (list (str * NetworkUnixSocketPermission))) : option (list (str * NetworkUnixSocketPermission)) :=
  let kept := filter (λ e, e.2 ≠ p) (default [] old) in
  some_entries (foldl (λ l entry, btree_insert entry p l) kept entries).

Definition toml_permission (p : NetworkDomainPermissionToml) : NetworkDomainPermission :=
  match p with TomlAllow => AllowDomain | TomlDeny => DenyDomain end.
Definition toml_socket_permission (p : NetworkUnixSocketPermissionToml) : NetworkUnixSocketPermission :=
  match p with TomlAllowSocket => AllowSocket | TomlNoSocket => NoSocket end.
Definition overlay_network_domain_permissions (domains : list (str * NetworkDomainPermissionToml)) (s : NetworkProxySettings)
    : NetworkProxySettings :=
  foldl (λ s e, upsert_domain_permission e.1 (toml_permission e.2) normalize_host s) s domains.
Definition toml_allow_unix_sockets (entries : list (str * NetworkUnixSocketPermissionToml)) : list str :=
  omap (λ e, match e.2 with TomlAllowSocket => Some e.1 | TomlNoSocket => None end) entries.
Definition overlay_unix_sockets (sockets : option (list (str * NetworkUnixSocketPermissionToml)))
    (old : option (list (str * NetworkUnixSocketPermission))) : option (list (str * NetworkUnixSocketPermission)) :=
  match sockets with
  | None => old
  | Some sockets =>
      some_entries (foldl (λ l e, btree_insert e.1 (toml_socket_permission e.2) l) (default [] old) sockets)
  end.
Definition apply_to_network_proxy_config (t : NetworkToml) (s : NetworkProxySettings) : NetworkProxySettings :=
  let s := {| enabled := default (enabled s) (toml_enabled t); proxy_url := default (proxy_url s) (toml_proxy_url t);
              enable_socks5 := default (enable_socks5 s) (toml_enable_socks5 t);
              socks_url := default (socks_url s) (toml_socks_url t);
              enable_socks5_udp := default (enable_socks5_udp s) (toml_enable_socks5_udp t);
              allow_upstream_proxy := default (allow_upstream_proxy s) (toml_upstream_proxy t);
              dangerously_allow_non_loopback_proxy :=
                default (dangerously_allow_non_loopback_proxy s) (toml_non_loopback_proxy t);
              dangerously_allow_all_unix_sockets := default (dangerously_allow_all_unix_sockets s) (toml_all_unix_sockets t);
              mode := default (mode s) (toml_mode t); domains := domains s; unix_sockets := unix_sockets s;
              allow_local_binding := allow_local_binding s; mitm := mitm s |} in
  let s := match toml_domains t with Some d => overlay_network_domain_permissions d s | None => s end in
  {| enabled := enabled s; proxy_url := proxy_url s; enable_socks5 := enable_socks5 s; socks_url := socks_url s;
     enable_socks5_udp := enable_socks5_udp s; allow_upstream_proxy := allow_upstream_proxy s;
     dangerously_allow_non_loopback_proxy := dangerously_allow_non_loopback_proxy s;
     dangerously_allow_all_unix_sockets := dangerously_allow_all_unix_sockets s; mode := mode s; domains := domains s;
     unix_sockets := overlay_unix_sockets (toml_unix_sockets t) (unix_sockets s);
     allow_local_binding := default (allow_local_binding s) (toml_local_binding t); mitm := mitm s |}.
Definition to_network_proxy_config (t : NetworkToml) : NetworkProxySettings := apply_to_network_proxy_config t default_settings.
Definition network_proxy_config_from_profile_network (t : option NetworkToml) : NetworkProxySettings :=
  match t with Some t => to_network_proxy_config t | None => default_settings end.
Definition resolve_permission_profile (permissions : PermissionsToml) (profile_name : str)
    : outcome io_error PermissionProfileToml :=
  match lookup_entry profile_name permissions with
  | Some p => Ok p
  | None => Err (lit "default_permissions refers to undefined profile `" ++ profile_name ++ lit "`")
  end.

(** * The file system *)

Definition is_windows_drive_absolute_path (path : str) : bool :=
  match path with
  | a :: b :: c :: _ =>
      (is_ascii_uppercase a || is_ascii_lowercase a) && (b =? 58)%N && ((c =? 92)%N || (c =? 47)%N)
  | _ => false
  end.
Definition is_windows_absolute_path (path : str) : bool :=
  is_windows_drive_absolute_path path || starts_with (lit "\\") path.
Definition normalize_windows_device_path (path : str) : option str :=
  match strip_prefix (lit "\\?\UNC\") path with
  | Some unc => Some (lit "\\" ++ unc)
  | None =>
      match strip_prefix (lit "\\.\UNC\") path with
      | Some unc => Some (lit "\\" ++ unc)
      | None =>
          match strip_prefix (lit "\\?\") path with
          | Some p => if is_windows_drive_absolute_path p then Some p else
              match strip_prefix (lit "\\.\") path with
              | Some p => if is_windows_drive_absolute_path p then Some p else None
              | None => None
              end
          | None =>
              match strip_prefix (lit "\\.\") path with
              | Some p => if is_windows_drive_absolute_path p then Some p else None
              | None => None
              end
          end
      end
  end.
Definition normalize_absolute_path_for_platform (path : str) (is_windows : bool) : str :=
  if is_windows then default path (normalize_windows_device_path path) else path.
Definition is_absolute_path_for_platform (path normalized : str) (is_windows : bool) : bool :=
  if is_windows then is_windows_absolute_path path || is_windows_absolute_path normalized else is_absolute normalized.
Definition parse_special_path (path : str) : option FileSystemSpecialPath :=
  if decide (path = lit ":root") then Some Root
  else if decide (path = lit ":minimal") then Some Minimal
  else if decide (path = lit ":project_roots") then Some (ProjectRoots None)
  else if decide (path = lit ":tmpdir") then Some Tmpdir
  else if starts_with (lit ":") path then Some (Unknown path None)
  else None.
Definition parse_relative_subpath (subpath : str) : outcome io_error str :=
  if negb (bool_decide (subpath = []))
     && forallb (λ c, match c with Normal _ => true | _ => false end) (components subpath)
  then Ok subpath
  else Err (lit "filesystem subpath `" ++ subpath ++ lit "` must be a descendant path without `.` or `..` components").
Definition missing_filesystem_entries_warning (profile_name : str) : str :=
  lit "Permissions profile `" ++ profile_name
  ++ lit "` does not define any recognized filesystem entries for this version of Codex. Filesystem access will remain restricted. Upgrade Codex if this profile expects filesystem permissions.".
Definition unknown_special_path_warning (special : FileSystemSpecialPath) : option str :=
  match special with
  | Unknown path subpath =>
      Some (lit "Configured filesystem path `" ++ path
            ++ match subpath with Some s => lit "` with nested entry `" ++ s | None => [] end
            ++ lit "` is not recognized by this version of Codex and will be ignored. Upgrade Codex if this path is required.")
  | _ => None
  end.

(** The computations push the warnings they give on the list they are given. *)
Definition push_warning (w : str) : stm (list str) io_error unit := λ ws, (ws ++ [w], Ok tt).
Definition maybe_push_unknown_special_path_warning (special : FileSystemSpecialPath) : stm (list str) io_error unit :=
  match unknown_special_path_warning special with Some w => push_warning w | None => mret tt end.

Section paths.
Context `{PathEnv}.
Definition parse_absolute_path_for_platform (path : str) (is_windows : bool) : outcome io_error str :=
  let normalized := normalize_absolute_path_for_platform path is_windows in
  if negb (is_absolute_path_for_platform path normalized is_windows)
     && negb (bool_decide (path = lit "~")) && negb (starts_with (lit "~/") path)
  then Err (lit "filesystem path `" ++ path ++ lit "` must be absolute, use `~/...`, or start with `:`")
  else from_absolute_path normalized.
(** On Unix. *)
Definition parse_absolute_path (path : str) : outcome io_error str := parse_absolute_path_for_platform path false.
Definition compile_filesystem_path (path : str) : stm (list str) io_error FileSystemPath :=
  match parse_special_path path with
  | Some special => _ ← maybe_push_unknown_special_path_warning special; mret (FsSpecial special)
  | None => path ← stm_lift (parse_absolute_path path); mret (FsPath path)
  end.
Definition scoped_special (path subpath : str) (special : FileSystemSpecialPath) : outcome io_error FileSystemSpecialPath :=
  match special with
  | ProjectRoots _ => Ok (ProjectRoots (Some subpath))
  | Unknown p _ => Ok (Unknown p (Some subpath))
  | _ => Err (lit "filesystem path `" ++ path ++ lit "` does not support nested entries")
  end.
Definition compile_scoped_filesystem_path (path subpath : str) : stm (list str) io_error FileSystemPath :=
  if decide (subpath = lit ".") then compile_filesystem_path path
  else
    match parse_special_path path with
    | Some special =>
        subpath ← stm_lift (parse_relative_subpath subpath);
        special ← stm_lift (scoped_special path subpath special);
        _ ← maybe_push_unknown_special_path_warning special;
        mret (FsSpecial special)
    | None =>
        subpath ← stm_lift (parse_relative_subpath subpath);
        base ← stm_lift (parse_absolute_path path);
        path ← stm_lift (resolve_path_against_base subpath base);
        mret (FsPath path)
    end.
(** The entries are pushed as they are compiled. *)
Fixpoint compile_scoped_entries (path : str) (scoped : list (str * FileSystemAccessMode))
    : stm (list str) io_error (list FileSystemSandboxEntry) :=
  match scoped with
  | [] => mret []
  | (subpath, access) :: scoped' =>
      p ← compile_scoped_filesystem_path path subpath;
      l ← compile_scoped_entries path scoped';
      mret ({| path := p; access := access |} :: l)
  end.
Definition compile_filesystem_permission (path : str) (permission : FilesystemPermissionToml)
    : stm (list str) io_error (list FileSystemSandboxEntry) :=
  match permission with
  | Access access => p ← compile_filesystem_path path; mret [{| path := p; access := access |}]
  | Scoped scoped => compile_scoped_entries path scoped
  end.
Fixpoint compile_filesystem_entries (l : list (str * FilesystemPermissionToml))
    : stm (list str) io_error (list FileSystemSandboxEntry) :=
  match l with
  | [] => mret []
  | (path, permission) :: l' =>
      a ← compile_filesystem_permission path permission; b ← compile_filesystem_entries l'; mret (a ++ b)
  end.
Definition compile_network_sandbox_policy (network : option NetworkToml) : NetworkSandboxPolicy :=
  match network with
  | Some n => match toml_enabled n with Some true => NetEnabled | _ => NetRestricted end
  | None => NetRestricted
  end.
Definition compile_permission_profile (permissions : PermissionsToml) (profile_name : str)
    : stm (list str) io_error (FileSystemSandboxPolicy * NetworkSandboxPolicy) :=
  profile ← stm_lift (resolve_permission_profile permissions profile_name);
  entries ← match filesystem profile with
            | Some ((_ :: _) as entries) => compile_filesystem_entries entries
            | _ => _ ← push_warning (missing_filesystem_entries_warning profile_name); mret []
            end;
  mret ({| fs_kind := FsRestricted; entries := entries |}, compile_network_sandbox_policy (network profile)).

Definition get_readable_roots_required_for_codex_runtime (codex_home : str) (zsh_path main_execve_wrapper_exe : option str)
    : list str :=
  let ok p := match p with Ok p => Some p | _ => None end in
  let arg0_root := ok (from_absolute_path (path_join (path_join codex_home (lit "tmp")) (lit "arg0"))) in
  let zsh_path := p ← zsh_path; ok (from_absolute_path p) in
  let wrapper :=
    p ← main_execve_wrapper_exe;
    path ← ok (from_absolute_path p);
    match arg0_root with
    | Some arg0_root => if path_starts_with arg0_root path then abs_parent path else Some path
    | None => Some path
    end in
  option_list zsh_path ++ option_list wrapper.
End paths.

(** * Lemmas *)

(** Upserting a list of entries, one after the other. *)
Definition upsert_all (l : list (str * NetworkDomainPermission)) (s : NetworkProxySettings) : NetworkProxySettings :=
  foldl (λ s e, upsert_domain_permission e.1 e.2 normalize_host s) s l.

Lemma upsert_all_entries l s e :
  e ∈ default [] (domains (upsert_all l s))
  ↔ (e ∈ default [] (domains s) ∧ ∀ d, d ∈ l → normalize_host d.1 ≠ normalize_host (pattern e))
    ∨ ∃ l1 p l2, l = l1 ++ (pattern e, p) :: l2 ∧ permission e = p
                 ∧ ∀ d, d ∈ l2 → normalize_host d.1 ≠ normalize_host (pattern e).
Proof.
  unfold upsert_all. revert s. induction l as [|[h q] l IH]; intros s; cbn [foldl].
  - split; [intros He; left; split; [done|]; set_solver|]. intros [[? _]|(l1 & p & l2 & E & _)]; [done|]. by destruct l1.
  - rewrite IH, upsert_entries. simpl. split.
    + intros [[[->|[He Hn]] Hl]|(l1 & p & l2 & -> & Hp & Hl)].
      * right. exists [], q, l. done.
      * left. split; [done|]. intros d [->|Hd]%elem_of_cons; [by apply not_eq_sym|auto].
      * right. exists ((h, q) :: l1), p, l2. done.
    + intros [[He Hl]|([|x l1] & p & l2 & E & Hp & Hl)].
      * pose proof (Hl (h, q) ltac:(left)) as Hq. simpl in Hq. left.
        split; [right; split; [done|by apply not_eq_sym]|]. intros d Hd. apply Hl. by right.
      * injection E as -> -> ->. left. split; [left; by destruct e; simpl in *; subst|done].
      * injection E as <- ->. right. exists l1, p, l2. done.
Qed.

Lemma overlay_upsert_all ds s : overlay_network_domain_permissions ds s = upsert_all (prod_map id toml_permission <$> ds) s.
Proof.
  unfold overlay_network_domain_permissions, upsert_all. revert s. induction ds as [|d ds IH]; intros s; [done|apply IH].
Qed.

Lemma upsert_all_app l k s : upsert_all (l ++ k) s = upsert_all k (upsert_all l s).
Proof. apply foldl_app. Qed.

(** The last element with a property. *)
Lemma list_last_with {A} (P : A → Prop) `{∀ x, base.Decision (P x)} (l : list A) :
  (∃ x, x ∈ l ∧ P x) → ∃ l1 x l2, l = l1 ++ x :: l2 ∧ P x ∧ ∀ y, y ∈ l2 → ¬ P y.
Proof.
  induction l as [|x l IH] using rev_ind; intros (y & Hy & Hp); [by apply not_elem_of_nil in Hy|].
  destruct (decide (P x)) as [Hx|Hx]; [exists l, x, []; set_solver|].
  apply elem_of_app in Hy as [Hy|Hy]; [|apply list_elem_of_singleton in Hy as ->; done].
  destruct IH as (l1 & z & l2 & -> & Hz & Hl); [eauto|].
  exists l1, z, (l2 ++ [x]). rewrite <-app_assoc. split; [done|]. split; [done|].
  intros w [Hw|Hw]%elem_of_app; [auto|]. by apply list_elem_of_singleton in Hw as ->.
Qed.

(** A host that an upsert denies and none allows is denied. *)
Lemma upsert_all_denied l h s :
  (∃ d, d ∈ l ∧ normalize_host d.1 = normalize_host h) →
  (∀ d, d ∈ l → normalize_host d.1 = normalize_host h → d.2 = DenyDomain) →
  ∃ e, e ∈ default [] (denied_domains (upsert_all l s)) ∧ normalize_host e = normalize_host h.
Proof.
  intros He Hd. apply list_last_with in He as (l1 & [g q] & l2 & -> & Hg & Hlast); [|apply _]. simpl in Hg.
  exists g. split; [|done]. apply elem_of_denied, upsert_all_entries. right.
  exists l1, q, l2. split; [done|]. split; [symmetry; apply (Hd (g, q)); [set_solver|done]|].
  intros d Hin. simpl. rewrite Hg. auto.
Qed.

(** ** Compiled entries *)

Definition absolute_entry (e : FileSystemSandboxEntry) : Prop :=
  match path e with FsPath p => is_absolute p = true | FsSpecial _ => True end.
Definition permission_accesses (p : FilesystemPermissionToml) : list FileSystemAccessMode :=
  match p with Access a => [a] | Scoped l => snd <$> l end.

Section laws.
Context {PE : PathEnv} {PL : PathEnvLaws}.

Lemma from_absolute_path_absolute p q : from_absolute_path p = Ok q → is_absolute q = true.
Proof. apply absolutize_absolute. Qed.

Lemma parse_absolute_path_absolute p q : parse_absolute_path p = Ok q → is_absolute q = true.
Proof.
  unfold parse_absolute_path, parse_absolute_path_for_platform. cbv zeta. destruct (_ && _); [done|].
  apply from_absolute_path_absolute.
Qed.

Lemma stm_lift_Ok {S E A} (m : outcome E A) (s s' : S) a : stm_lift m s = (s', Ok a) → s' = s ∧ m = Ok a.
Proof. unfold stm_lift. by intros [= <- ->]. Qed.

Lemma compile_path_absolute p ws ws' q :
  compile_filesystem_path p ws = (ws', Ok q) → match q with FsPath p => is_absolute p = true | FsSpecial _ => True end.
Proof.
  unfold compile_filesystem_path. destruct (parse_special_path p) as [special|].
  - intros (ws1 & [] & _ & H2)%stm_bind_Ok. by injection H2 as _ <-.
  - intros (ws1 & a & H1 & H2)%stm_bind_Ok. injection H2 as _ <-. apply stm_lift_Ok in H1 as [_ H1].
    by eapply parse_absolute_path_absolute.
Qed.

Lemma compile_scoped_path_absolute p sub ws ws' q :
  compile_scoped_filesystem_path p sub ws = (ws', Ok q) → match q with FsPath p => is_absolute p = true | FsSpecial _ => True end.
Proof.
  unfold compile_scoped_filesystem_path. case_decide; [apply compile_path_absolute|].
  destruct (parse_special_path p) as [special|].
  - intros (ws1 & a & _ & H2)%stm_bind_Ok. apply stm_bind_Ok in H2 as (ws2 & b & _ & H3).
    apply stm_bind_Ok in H3 as (ws3 & [] & _ & H4). by injection H4 as _ <-.
  - intros (ws1 & a & H1 & H2)%stm_bind_Ok. apply stm_bind_Ok in H2 as (ws2 & b & H2 & H3).
    apply stm_bind_Ok in H3 as (ws3 & c & H3 & H4). injection H4 as _ <-.
    apply stm_lift_Ok in H2 as [_ H2]. apply stm_lift_Ok in H3 as [_ H3].
    apply parse_absolute_path_absolute in H2. unfold resolve_path_against_base in H3.
    by eapply absolutize_from_absolute.
Qed.

Lemma compile_scoped_entries_spec p l ws ws' es :
  compile_scoped_entries p l ws = (ws', Ok es) → Forall absolute_entry es ∧ access <$> es = snd <$> l.
Proof.
  revert ws es. induction l as [|[sub a] l IH]; intros ws es; cbn [compile_scoped_entries].
  - intros [= <- <-]. done.
  - intros (ws1 & q & H1 & H2)%stm_bind_Ok. apply stm_bind_Ok in H2 as (ws2 & es' & H2 & H3). injection H3 as -> <-.
    apply IH in H2 as [Hf Ha]. split; [|rewrite !fmap_cons, Ha; done]. constructor; [|done].
    unfold absolute_entry. simpl. by eapply compile_scoped_path_absolute.
Qed.

Lemma compile_permission_spec p perm ws ws' es :
  compile_filesystem_permission p perm ws = (ws', Ok es) →
  Forall absolute_entry es ∧ access <$> es = permission_accesses perm.
Proof.
  destruct perm as [a|l]; [|apply compile_scoped_entries_spec]. simpl.
  intros (ws1 & q & H1 & H2)%stm_bind_Ok. injection H2 as _ <-. split; [|done]. apply Forall_singleton.
  unfold absolute_entry. simpl. by eapply compile_path_absolute.
Qed.

Lemma compile_entries_spec l ws ws' es :
  compile_filesystem_entries l ws = (ws', Ok es) →
  Forall absolute_entry es ∧ access <$> es = l ≫= (λ e, permission_accesses e.2).
Proof.
  revert ws es. induction l as [|[p perm] l IH]; intros ws es; cbn [compile_filesystem_entries].
  - intros [= <- <-]. done.
  - intros (ws1 & es1 & H1 & H2)%stm_bind_Ok. apply stm_bind_Ok in H2 as (ws2 & es2 & H2 & H3). injection H3 as -> <-.
    apply compile_permission_spec in H1 as [Hf1 Ha1]. apply IH in H2 as [Hf2 Ha2].
    split; [by apply Forall_app|]. by rewrite fmap_app, Ha1, Ha2.
Qed.

(** * Properties *)

(** A compiled profile is restricted: an entry for every access of the profile,
    in order, on an absolute path or a special one; the network is enabled only
    when the profile says so. *)
Theorem compiled_profile (permissions : PermissionsToml) (name : str) (ws ws' : list str)
    (fs : FileSystemSandboxPolicy) (net : NetworkSandboxPolicy) :
  compile_permission_profile permissions name ws = (ws', Ok (fs, net)) →
  ∃ profile, lookup_entry name permissions = Some profile
    ∧ fs_kind fs = FsRestricted ∧ Forall absolute_entry (entries fs)
    ∧ access <$> entries fs = default [] (filesystem profile) ≫= (λ e, permission_accesses e.2)
    ∧ (net = NetEnabled ↔ (network profile ≫= toml_enabled) = Some true).
Proof.
  unfold compile_permission_profile. intros (ws1 & profile & H1 & H2)%stm_bind_Ok.
  apply stm_lift_Ok in H1 as [_ H1]. unfold resolve_permission_profile in H1.
  destruct (lookup_entry name permissions) as [p|]; [|done]. injection H1 as ->.
  apply stm_bind_Ok in H2 as (ws2 & es & H2 & H3). injection H3 as _ <- <-. exists profile. split; [done|]. split; [done|].
  assert (Hn : compile_network_sandbox_policy (network profile) = NetEnabled
    ↔ (network profile ≫= toml_enabled) = Some true).
  { destruct (network profile) as [n|]; simpl; [|done]. by destruct (toml_enabled n) as [[]|]. }
  assert (He : Forall absolute_entry es ∧ access <$> es = default [] (filesystem profile) ≫= (λ e, permission_accesses e.2)).
  { destruct (filesystem profile) as [[|e l]|].
    - by injection H2 as _ <-.
    - by eapply (compile_entries_spec (e :: l)).
    - by injection H2 as _ <-. }
  destruct He. done.
Qed.
End laws.

(** A path that starts with a colon never makes a profile fail to load: it
    compiles to a special path, with a warning exactly when it is not known. *)
Theorem special_paths_load `{PathEnv} (p : str) (ws : list str) :
  starts_with (lit ":") p = true →
  ∃ special, (compile_filesystem_path p ws).2 = Ok (FsSpecial special)
    ∧ (compile_filesystem_path p ws).1 = ws ++ option_list (unknown_special_path_warning special)
    ∧ (unknown_special_path_warning special = None
       ↔ p = lit ":root" ∨ p = lit ":minimal" ∨ p = lit ":project_roots" ∨ p = lit ":tmpdir").
Proof.
  intros Hp. unfold compile_filesystem_path.
  assert (Hs : ∃ special, parse_special_path p = Some special
    ∧ (unknown_special_path_warning special = None
       ↔ p = lit ":root" ∨ p = lit ":minimal" ∨ p = lit ":project_roots" ∨ p = lit ":tmpdir")).
  { unfold parse_special_path. repeat case_decide; [eexists; split; [done|]; simpl; tauto..|]. rewrite Hp.
    eexists. split; [done|]. simpl. naive_solver. }
  destruct Hs as (special & -> & Hw). exists special. unfold maybe_push_unknown_special_path_warning.
  destruct (unknown_special_path_warning special); (split; [done|]; split; [|done]); [done|]. by rewrite app_nil_r.
Qed.

(** The entries of a profile replace those of the settings that normalise to
    the same host, and of the entries of the profile the last one wins. *)
Theorem overlay_domains_spec (ds : list (str * NetworkDomainPermissionToml)) (s : NetworkProxySettings)
    (e : NetworkDomainPermissionEntry) :
  e ∈ default [] (domains (overlay_network_domain_permissions ds s))
  ↔ (e ∈ default [] (domains s) ∧ ∀ d, d ∈ ds → normalize_host d.1 ≠ normalize_host (pattern e))
    ∨ ∃ l1 p l2, ds = l1 ++ (pattern e, p) :: l2 ∧ permission e = toml_permission p
                 ∧ ∀ d, d ∈ l2 → normalize_host d.1 ≠ normalize_host (pattern e).
Proof.
  rewrite overlay_upsert_all, upsert_all_entries. setoid_rewrite list_elem_of_fmap. split.
  - intros [[He Hd]|(l1 & p & l2 & E & Hp & Hl)].
    + left. split; [done|]. intros d Hin. apply (Hd (prod_map id toml_permission d)). eauto.
    + right. apply fmap_app_inv in E as (k1 & k2 & -> & E2 & ->).
      destruct k2 as [|[h q] k2]; [done|]. injection E2 as Hh Hq ->. simpl in Hh, Hq. subst h p.
      exists k1, q, k2. split; [done|]. split; [done|]. intros d Hin. apply (Hl (prod_map id toml_permission d)).
      apply list_elem_of_fmap. eauto.
  - intros [[He Hd]|(l1 & p & l2 & -> & Hp & Hl)].
    + left. split; [done|]. intros d (d' & -> & Hin). by apply Hd.
    + right. exists (prod_map id toml_permission <$> l1), (toml_permission p), (prod_map id toml_permission <$> l2).
      rewrite fmap_app, fmap_cons. split; [done|]. split; [done|]. intros d (d' & -> & Hin)%list_elem_of_fmap. by apply Hl.
Qed.

(** * Witnesses *)

Definition example_permissions : PermissionsToml :=
  [(lit "dev", {| filesystem := Some [(lit "/work", Scoped [(lit "src", Write); (lit ".", Read)]); (lit ":future", Access Read)];
                  network := None |})].

Lemma compiled_profile_witness :
  let '(ws, r) := @compile_permission_profile (lexical_env (lit "/root") (lit "/")) example_permissions (lit "dev") [] in
  match r with
  | Ok (fs, net) =>
      ∃ profile, lookup_entry (lit "dev") example_permissions = Some profile
        ∧ fs_kind fs = FsRestricted ∧ Forall absolute_entry (entries fs)
        ∧ access <$> entries fs = default [] (filesystem profile) ≫= (λ e, permission_accesses e.2)
        ∧ (net = NetEnabled ↔ (network profile ≫= toml_enabled) = Some true)
  | _ => False
  end.
Proof.
  destruct (@compile_permission_profile (lexical_env (lit "/root") (lit "/")) example_permissions (lit "dev") []) as [ws r] eqn:E.
  destruct r as [[fs net]|e| |].
  - exact (@compiled_profile _ (lexical_env_laws (lit "/root") (lit "/")) example_permissions (lit "dev") [] ws fs net E).
  - vm_compute in E. discriminate.
  - vm_compute in E. discriminate.
  - vm_compute in E. discriminate.
Defined.

Lemma special_paths_load_witness :
  ∃ special, (@compile_filesystem_path (lexical_env (lit "/root") (lit "/")) (lit ":future") []).2 = Ok (FsSpecial special)
    ∧ (@compile_filesystem_path (lexical_env (lit "/root") (lit "/")) (lit ":future") []).1
      = [] ++ option_list (unknown_special_path_warning special)
    ∧ (unknown_special_path_warning special = None
       ↔ lit ":future" = lit ":root" ∨ lit ":future" = lit ":minimal" ∨ lit ":future" = lit ":project_roots"
         ∨ lit ":future" = lit ":tmpdir").
Proof. apply (@special_paths_load (lexical_env (lit "/root") (lit "/")) (lit ":future") []). reflexivity. Defined.
