(* ===== verification/NetLoader.v ===== *)
(** Loading the configuration of the network proxy from the layers of the
    configuration and from the execution policy:
    [codex-rs/core/src/network_proxy_loader.rs]. Reading the layers and the
    rules files from disk, and parsing TOML, are arguments. *)
From Stdlib Require Import ZifyN.
From stdpp Require Import gmap.
From S2P Require Import Prelude RustStr BTreeMap TomlValue Fingerprint ConfigLayers RustPath FileSystem AbsolutePath ExecPolicy NetHost NetPolicy NetState PermissionProfile.

(** * Layers *)

Record NetworkTablesToml : Type := { default_permissions : option str; permissions : option PermissionsToml }.
(** Deserialising the network tables of a layer's TOML value. *)
Class NetworkTables : Type := network_tables : TomlValue → outcome str NetworkTablesToml.
Definition layer_tables `{NetworkTables} (l : ConfigLayerEntry) : outcome str NetworkTablesToml := network_tables (layer_config l).
Definition is_user_controlled_layer (name : ConfigLayerSource) : bool :=
  match name with User _ | Project _ | SessionFlags => true | _ => false end.
Definition selected_network_from_tables (parsed : NetworkTablesToml) : outcome str (option NetworkToml) :=
  match default_permissions parsed with
  | None => Ok None
  | Some name =>
      match permissions parsed with
      | None => Err (lit "default_permissions requires a `[permissions]` table for network settings")
      | Some permissions =>
          profile ← resolve_permission_profile permissions name;
          Ok (network profile)
      end
  end.

(** * Settings *)

Definition apply_network_tables (s : NetworkProxySettings) (parsed : NetworkTablesToml) : outcome str NetworkProxySettings :=
  network ← selected_network_from_tables parsed;
  Ok (match network with Some n => apply_to_network_proxy_config n s | None => s end).
Definition upsert_network_domain (p : NetworkDomainPermission) (s : NetworkProxySettings) (host : str) : NetworkProxySettings :=
  upsert_domain_permission host p normalize_host s.
Definition apply_exec_policy_network_rules (s : NetworkProxySettings) (policy : Policy) : NetworkProxySettings :=
  let '(allowed, denied) := compiled_network_domains policy in
  foldl (upsert_network_domain DenyDomain) (foldl (upsert_network_domain AllowDomain) s allowed) denied.
Fixpoint apply_layers `{NetworkTables} (layers : list ConfigLayerEntry) (s : NetworkProxySettings) : outcome str NetworkProxySettings :=
  match layers with
  | [] => Ok s
  | l :: layers' => parsed ← layer_tables l; s ← apply_network_tables s parsed; apply_layers layers' s
  end.
Definition config_from_layers `{NetworkTables} (stack : ConfigLayerStack) (policy : Policy) : outcome str NetworkProxySettings :=
  s ← apply_layers (get_layers stack LowestPrecedenceFirst false) default_settings;
  Ok (apply_exec_policy_network_rules s policy).

(** * Constraints *)

Definition constraint_domains (t : NetworkToml) (c : NetworkProxyConstraints) : option (list str) * option (list str) :=
  match toml_domains t with
  | None => (managed_allowed c, managed_denied c)
  | Some domains =>
      let s := match managed_allowed c with Some l => set_allowed_domains l default_settings | None => default_settings end in
      let s := match managed_denied c with Some l => set_denied_domains l s | None => s end in
      let s := overlay_network_domain_permissions domains s in
      (allowed_domains s, denied_domains s)
  end.
Definition apply_network_constraints (t : NetworkToml) (c : NetworkProxyConstraints) : NetworkProxyConstraints :=
  let '(allowed, denied) := constraint_domains t c in
  {| max_enabled := or_else (toml_enabled t) (max_enabled c); max_mode := or_else (toml_mode t) (max_mode c);
     max_upstream_proxy := or_else (toml_upstream_proxy t) (max_upstream_proxy c);
     max_non_loopback_proxy := or_else (toml_non_loopback_proxy t) (max_non_loopback_proxy c);
     max_all_unix_sockets := or_else (toml_all_unix_sockets t) (max_all_unix_sockets c);
     managed_allowed := allowed; allowlist_expansion_enabled := allowlist_expansion_enabled c;
     managed_denied := denied; denylist_expansion_enabled := denylist_expansion_enabled c;
     managed_unix_sockets := match toml_unix_sockets t with
                             | Some s => Some (toml_allow_unix_sockets s)
                             | None => managed_unix_sockets c
                             end;
     max_local_binding := or_else (toml_local_binding t) (max_local_binding c) |}.
Fixpoint constraints_loop `{NetworkTables} (layers : list ConfigLayerEntry) (c : NetworkProxyConstraints) : outcome str NetworkProxyConstraints :=
  match layers with
  | [] => Ok c
  | l :: layers' =>
      if is_user_controlled_layer (layer_name l) then constraints_loop layers' c
      else
        parsed ← layer_tables l;
        network ← selected_network_from_tables parsed;
        constraints_loop layers' (match network with Some n => apply_network_constraints n c | None => c end)
  end.
(** [NetworkProxyConstraints::default()]. *)
Definition default_constraints : NetworkProxyConstraints :=
  {| max_enabled := None; max_mode := None; max_upstream_proxy := None; max_non_loopback_proxy := None;
     max_all_unix_sockets := None; managed_allowed := None; allowlist_expansion_enabled := None; managed_denied := None;
     denylist_expansion_enabled := None; managed_unix_sockets := None; max_local_binding := None |}.
Definition network_constraints_from_trusted_layers `{NetworkTables} (stack : ConfigLayerStack) : outcome str NetworkProxyConstraints :=
  constraints_loop (get_layers stack LowestPrecedenceFirst false) default_constraints.

(** * Loading and reloading *)

Inductive loader_error : Type :=
| LoadFailed (e : str)
| OutsideConstraints (e : NetworkProxyConstraintError)
| BuildFailed (e : proxy_error).
(** [load_exec_policy]: a policy, an error of a rules file, or another one. *)
Inductive exec_policy_result : Type := PolicyLoaded (p : Policy) | ParsePolicyFailed (e : str) | PolicyUnreadable (e : str).

Section loading.
Context {PE : PathEnv} {UH : UrlHost} {GS : Globset} {MI : Mitm} {NT : NetworkTables}.

Definition enforce_trusted_constraints (stack : ConfigLayerStack) (s : NetworkProxySettings)
    : outcome loader_error NetworkProxyConstraints :=
  c ← map_err LoadFailed (network_constraints_from_trusted_layers stack);
  _ ← map_err OutsideConstraints (validate_policy_against_constraints s c);
  Ok c.
(** What is read from disk: the layers, the execution policy. *)
Record loaded_files : Type := { stack : ConfigLayerStack; exec_policy : exec_policy_result }.
Definition build_loaded_state (files : loaded_files) : outcome loader_error ConfigState :=
  policy ← match exec_policy files with
           | PolicyLoaded p => Ok p
           | ParsePolicyFailed _ => Ok policy_empty
           | PolicyUnreadable e => Err (LoadFailed e)
           end;
  s ← map_err LoadFailed (config_from_layers (stack files) policy);
  c ← enforce_trusted_constraints (stack files) s;
  map_err BuildFailed (build_config_state s c).

(** [LayerMtime]: a layer's file and its modification time, if it had one. *)
Record LayerMtime : Type := { mtime_path : str; mtime : option N }.
Definition layer_path (name : ConfigLayerSource) : option str :=
  match name with
  | System file | User file | LegacyManagedConfigTomlFromFile file => Some file
  | Project folder => match abs_join folder (lit "config.toml") with Ok p => Some p | _ => None end
  | _ => None
  end.
Definition collect_layer_mtimes (modified : str → option N) (stack : ConfigLayerStack) : list LayerMtime :=
  omap (λ l, (λ p, {| mtime_path := p; mtime := modified p |}) <$> layer_path (layer_name l)) (get_layers stack LowestPrecedenceFirst false).
Definition needs_reload (modified : str → option N) (layers : list LayerMtime) : bool :=
  existsb (λ l, match modified (mtime_path l), mtime l with
                | Some new, Some old => (old <? new)%N
                | Some _, None | None, Some _ => true
                | None, None => false
                end) layers.
(** A run of [build_config_state_with_mtimes]: the layers are read first, the
    modification times after. *)
Record disk_run : Type := { files_read : loaded_files; modified_after : str → option N }.
Definition build_config_state_with_mtimes (run : disk_run) : outcome loader_error (ConfigState * list LayerMtime) :=
  s ← build_loaded_state (files_read run);
  Ok (s, collect_layer_mtimes (modified_after run) (stack (files_read run))).
(** The reloader keeps the modification times of the layers it loaded last. *)
Definition maybe_reload (modified : str → option N) (run : disk_run)
    : stm (list LayerMtime) loader_error (option ConfigState) := λ layers,
  if negb (needs_reload modified layers) then (layers, Ok None)
  else match build_config_state_with_mtimes run with
       | Ok (s, mtimes) => (mtimes, Ok (Some s))
       | Err e => (layers, Err e)
       | Panic => (layers, Panic)
       | OutOfFuel => (layers, OutOfFuel)
       end.
Definition reload_now (run : disk_run) : stm (list LayerMtime) loader_error ConfigState := λ layers,
  match build_config_state_with_mtimes run with
  | Ok (s, mtimes) => (mtimes, Ok s)
  | Err e => (layers, Err e)
  | Panic => (layers, Panic)
  | OutOfFuel => (layers, OutOfFuel)
  end.

(** * Lemmas *)

Lemma foldl_upsert p l s : foldl (upsert_network_domain p) s l = upsert_all ((λ h, (h, p)) <$> l) s.
Proof. unfold upsert_all. revert s. induction l as [|h l IH]; intros s; [done|apply IH]. Qed.

Lemma exec_policy_denies policy s h :
  last_ruling h (network_rules policy) = Some Forbidden →
  ∃ e, e ∈ default [] (denied_domains (apply_exec_policy_network_rules s policy)) ∧ normalize_host e = normalize_host h.
Proof.
  intros Hh. pose proof (compiled_network_domains_spec policy) as (_ & _ & _ & Hd).
  unfold apply_exec_policy_network_rules. destruct (compiled_network_domains policy) as [allowed denied]. simpl in Hd.
  rewrite !foldl_upsert. apply Hd in Hh. apply upsert_all_denied.
  - exists (h, DenyDomain). split; [|done]. apply list_elem_of_fmap. eauto.
  - intros d (x & -> & _)%list_elem_of_fmap _. done.
Qed.

Lemma loaded_enforced files s : build_loaded_state files = Ok s → enforced s ∧ blocked s = [].
Proof.
  unfold build_loaded_state, enforce_trusted_constraints. intros (policy & _ & H1)%bind_Ok_inv.
  apply bind_Ok_inv in H1 as (c & _ & H2). apply bind_Ok_inv in H2 as (limits & H2 & H3%map_err_Ok).
  apply bind_Ok_inv in H2 as (limits' & _ & H2). apply bind_Ok_inv in H2 as ([] & Hv%map_err_Ok & [= ->]).
  apply build_compiled in H3 as (Hc & Hcfg & Hlim & Hb). apply validate_policy_Ok in Hv.
  split; [|done]. split; [done|]. by rewrite Hcfg, Hlim.
Qed.

Lemma constraints_loop_trusted layers c :
  constraints_loop layers c = constraints_loop (filter (λ l, is_user_controlled_layer (layer_name l) = false) layers) c.
Proof.
  revert c. induction layers as [|l layers IH]; intros c; [done|]. cbn [constraints_loop].
  destruct (is_user_controlled_layer (layer_name l)) eqn:E.
  - rewrite filter_cons_False by congruence. apply IH.
  - rewrite filter_cons_True by done. cbn [constraints_loop]. rewrite E.
    destruct (layer_tables l) as [t| | |]; [|done..]. cbn [mbind outcome_bind].
    destruct (selected_network_from_tables t) as [n| | |]; [|done..]. apply IH.
Qed.

(** The constraints that the trusted layers of a stack set: those of the network
    tables of the system's file and of the managed files, the later ones overriding
    the earlier ones. *)
Definition trusted_source (name : ConfigLayerSource) : Prop :=
  match name with User _ | Project _ | SessionFlags => False | _ => True end.
#[global] Instance trusted_source_dec name : base.Decision (trusted_source name).
Proof. unfold trusted_source. destruct name; apply _. Defined.
Definition layer_network (l : ConfigLayerEntry) (n : option NetworkToml) : Prop :=
  ∃ tables, layer_tables l = Ok tables ∧ selected_network_from_tables tables = Ok n.
Definition trusted_limits (stack : ConfigLayerStack) (c : NetworkProxyConstraints) : Prop :=
  ∃ networks,
    Forall2 layer_network (filter (λ l, trusted_source (layer_name l)) (get_layers stack LowestPrecedenceFirst false)) networks
    ∧ c = foldl (λ c n, apply_network_constraints n c) default_constraints (omap id networks).
Lemma trusted_source_iff name : trusted_source name ↔ is_user_controlled_layer name = false.
Proof. by destruct name. Qed.
Lemma constraints_loop_limits layers : ∀ c c', constraints_loop layers c = Ok c' →
  ∃ networks, Forall2 layer_network (filter (λ l, trusted_source (layer_name l)) layers) networks
    ∧ c' = foldl (λ c n, apply_network_constraints n c) c (omap id networks).
Proof.
  induction layers as [|l layers IH]; intros c c'; cbn [constraints_loop]; [intros [= <-]; by exists []|].
  rewrite filter_cons. destruct (is_user_controlled_layer (layer_name l)) eqn:E.
  - rewrite decide_False by (rewrite trusted_source_iff; congruence). apply IH.
  - rewrite decide_True by by apply trusted_source_iff.
    intros (t & Ht & (n & Hn & (networks & HF & ->)%IH)%bind_Ok_inv)%bind_Ok_inv.
    exists (n :: networks). split; [constructor; [by exists t|done]|]. by destruct n.
Qed.
Lemma loaded_limits files s : build_loaded_state files = Ok s → trusted_limits (stack files) (constraints s).
Proof.
  unfold build_loaded_state, enforce_trusted_constraints. intros (policy & _ & H1)%bind_Ok_inv.
  apply bind_Ok_inv in H1 as (c & _ & H2). apply bind_Ok_inv in H2 as (limits & H2 & H3%map_err_Ok).
  apply bind_Ok_inv in H2 as (limits' & Ht%map_err_Ok & H2). apply bind_Ok_inv in H2 as ([] & _ & [= ->]).
  apply build_compiled in H3 as (_ & _ & -> & _). by apply constraints_loop_limits.
Qed.

(** * Properties *)

(** C30. From the moment the proxy state is loaded from the files, and however its
    reloads from them, updates and recordings interleave, the constraints of the
    state are those that the trusted layers of some files that have been on disk set,
    the later layers overriding the earlier ones: the user's file, the projects'
    files and the command line set none. The state's configuration is within these
    constraints, its compiled lists are those of its configuration, and the buffer of
    blocked requests stays bounded. *)
Theorem loaded_policy_stays_enforced (on_disk : loaded_files → Prop) (files : loaded_files) (s : ConfigState) (w : world) :
  on_disk files → build_loaded_state files = Ok s →
  reachable (λ new, ∃ files, on_disk files ∧ build_loaded_state files = Ok new) s w →
  (∃ files, on_disk files ∧ trusted_limits (stack files) (constraints (shared w)))
  ∧ validate_policy_against_constraints (config (shared w)) (constraints (shared w)) = Ok tt
  ∧ compiled (shared w) ∧ (length (blocked (shared w)) ≤ MAX_BLOCKED_EVENTS)%nat.
Proof.
  intros Hd Hs Hr. set (loads := λ new, ∃ files, on_disk files ∧ build_loaded_state files = Ok new) in *.
  split.
  { apply (reachable_limits (λ c, ∃ files, on_disk files ∧ trusted_limits (stack files) c) loads s w); [|by eauto using loaded_limits|done].
    intros new (files' & Hd' & Hn). eauto using loaded_limits. }
  apply loaded_enforced in Hs as [He Hb].
  destruct (reachable_ok loads s w) as ([Hc Hp] & Hbuf & _); try done.
  - intros new (files' & _ & Hn). exact (proj1 (loaded_enforced _ _ Hn)).
  - unfold buffered. rewrite Hb. simpl. lia.
  - split; [by apply validate_policy_Ok|done].
Qed.

(** A host that the last network rule of the execution policy forbids is
    blocked as denied by a proxy loaded with the policy, whatever the layers
    of the configuration allow. *)
Theorem forbidden_host_is_blocked (files : loaded_files) (policy : Policy) (s : ConfigState) (h : str)
    (lookup : str → N → lookup_result) (port : N) :
  exec_policy files = PolicyLoaded policy → last_ruling h (network_rules policy) = Some Forbidden →
  dns_text h → normalize_host h ≠ [] → build_loaded_state files = Ok s →
  host_blocked (Ok None) lookup h port s = (s, Ok (Blocked Denied)).
Proof.
  intros Hp Hf Ht Hn Hs. pose proof (loaded_enforced _ _ Hs) as [[Hc _] _].
  unfold build_loaded_state in Hs. rewrite Hp in Hs. cbn [mbind outcome_bind] in Hs.
  apply bind_Ok_inv in Hs as (c & Hcfg%map_err_Ok & Hs). apply bind_Ok_inv in Hs as (limits & _ & Hs%map_err_Ok).
  apply build_compiled in Hs as (_ & Hconf & _). unfold config_from_layers in Hcfg.
  apply bind_Ok_inv in Hcfg as (s0 & _ & [= <-]).
  destruct (exec_policy_denies policy s0 h Hf) as (e & He & Hh). rewrite <-Hconf in He.
  pose proof (dns_name_normalized h Ht Hn) as Hd.
  unfold host_blocked, reading, then_run, inspect, mbind, stm_bind, reload_if_needed. f_equal. f_equal.
  unfold host_parse. cbv zeta. rewrite decide_False by done.
  by apply (compiled_denied lookup s {| host_str := normalize_host h |} port e).
Qed.

(** The constraints do not depend on the layers the user controls: the user's
    and the projects' files and the command line. *)
Theorem constraints_from_trusted_layers (s s' : ConfigLayerStack) :
  let trusted s := filter (λ l, is_user_controlled_layer (layer_name l) = false) (get_layers s LowestPrecedenceFirst false) in
  trusted s = trusted s' →
  network_constraints_from_trusted_layers s = network_constraints_from_trusted_layers s'.
Proof.
  intros trusted E. unfold network_constraints_from_trusted_layers. rewrite constraints_loop_trusted, (constraints_loop_trusted (get_layers s' _ _)).
  by f_equal.
Qed.

(** A change of the files that lands after the layers are read and before the
    modification times are is not loaded: the reloader keeps the old state and
    sees nothing to reload as long as the files do not change again. *)
Theorem change_during_load_is_missed (modified modified' : str → option N) (run : disk_run) (layers layers' : list LayerMtime)
    (s : ConfigState) :
  maybe_reload modified run layers = (layers', Ok (Some s)) →
  (∀ p, modified' p = modified_after run p) →
  ∀ run', maybe_reload modified' run' layers' = (layers', Ok None).
Proof.
  intros Hr Hm run'. unfold maybe_reload in *. destruct (needs_reload modified layers); [|done]. cbn [negb] in Hr.
  unfold build_config_state_with_mtimes in Hr. destruct (build_loaded_state (files_read run)) as [s'| | |]; try done.
  injection Hr as <- <-.
  assert (Hn : needs_reload modified' (collect_layer_mtimes (modified_after run) (stack (files_read run))) = false).
  { unfold needs_reload. apply existsb_false. intros l Hl. unfold collect_layer_mtimes in Hl.
    apply list_elem_of_omap in Hl as (x & _ & Hx). destruct (layer_path (layer_name x)) as [p|]; [|done].
    injection Hx as <-. cbn [mtime_path mtime]. rewrite Hm. destruct (modified_after run p); [|done]. apply N.ltb_irrefl. }
  by rewrite Hn.
Qed.
End loading.

(** * Witnesses *)

#[local] Instance loader_env : PathEnv := lexical_env (lit "/root") (lit "/").
#[local] Existing Instance simple_url_host.

Definition example_toml : NetworkToml :=
  {| toml_enabled := Some true; toml_proxy_url := None; toml_enable_socks5 := None; toml_socks_url := None;
     toml_enable_socks5_udp := None; toml_upstream_proxy := Some false; toml_non_loopback_proxy := None;
     toml_all_unix_sockets := None; toml_mode := Some Limited;
     toml_domains := Some [(lit "**.example.com", TomlAllow)]; toml_unix_sockets := None; toml_local_binding := Some false |}.
Definition example_tables : NetworkTablesToml :=
  {| default_permissions := Some (lit "net");
     permissions := Some [(lit "net", {| filesystem := None; network := Some example_toml |})] |}.
Definition example_config : TomlValue := TomlTable [(lit "default_permissions", TomlString (lit "net"))].
(** A deserialiser that knows one document. *)
#[local] Instance example_network_tables : NetworkTables := λ v,
  match toml_get [lit "default_permissions"] v with
  | Some _ => Ok example_tables
  | None => Ok {| default_permissions := None; permissions := None |}
  end.
#[local] Instance example_digest : TomlDigest := {| toml_to_json _ := None; json_to_vec _ := None; sha256 _ := [0%N] |}.
Definition example_stack : ConfigLayerStack :=
  {| layers := [entry_new (System (lit "/etc/codex/config.toml")) example_config;
                entry_new (User (lit "/root/.codex/config.toml")) empty_table];
     user_layer_index := Some 1; requirements := Requirements.default_requirements;
     requirements_toml := Requirements.no_requirements |}.
Definition example_policy : Policy :=
  {| rules_by_program := ∅;
     network_rules := [{| ExecPolicy.host := lit "evil.example.com"; ExecPolicy.protocol := Https; net_decision := Forbidden;
                          net_justification := None |}];
     host_executables_by_name := ∅ |}.
Definition example_files : loaded_files := {| stack := example_stack; exec_policy := PolicyLoaded example_policy |}.
Definition example_loaded : ConfigState :=
  match build_loaded_state example_files with Ok s => s | _ => example_state end.
Lemma example_loads : build_loaded_state example_files = Ok example_loaded.
Proof. vm_compute. reflexivity. Qed.

Example loaded_decisions_ex :
  let decide h := host_decision public_lookup example_loaded {| host_str := h |} 443 in
  decide (lit "example.com") = Allowed ∧ decide (lit "a.example.com") = Allowed
  ∧ decide (lit "evil.example.com") = Blocked Denied ∧ decide (lit "other.org") = Blocked NotAllowed
  ∧ mode (config example_loaded) = Limited
  ∧ max_mode (constraints example_loaded) = Some Limited
  ∧ managed_allowed (constraints example_loaded) = Some [lit "**.example.com"].
Proof. vm_compute. repeat split. Qed.

(** The files change on disk to ones without a policy of their own. *)
Definition changed_files : loaded_files := {| stack := example_stack; exec_policy := ParsePolicyFailed (lit "parse error") |}.
Definition changed_loaded : ConfigState :=
  match build_loaded_state changed_files with Ok s => s | _ => example_state end.
Lemma changed_loads : build_loaded_state changed_files = Ok changed_loaded.
Proof. vm_compute. reflexivity. Qed.
Definition example_disk (files : loaded_files) : Prop := files = example_files ∨ files = changed_files.
Lemma example_loaded_reachable :
  reachable (λ new, ∃ files, example_disk files ∧ build_loaded_state files = Ok new) example_loaded
    {| shared := force_commit changed_loaded (push_blocked (example_blocked (lit "x")) example_loaded); in_flight := [] |}.
Proof.
  eapply rtc_l; [apply step_record|]. apply rtc_once. apply step_force. exists changed_files. split; [by right|apply changed_loads].
Qed.

Lemma loaded_policy_stays_enforced_witness :
  let s := force_commit changed_loaded (push_blocked (example_blocked (lit "x")) example_loaded) in
  (∃ files, example_disk files ∧ trusted_limits (stack files) (constraints s))
  ∧ validate_policy_against_constraints (config s) (constraints s) = Ok tt
  ∧ compiled s ∧ (length (blocked s) ≤ MAX_BLOCKED_EVENTS)%nat.
Proof.
  exact (loaded_policy_stays_enforced example_disk example_files example_loaded _ (or_introl eq_refl) example_loads example_loaded_reachable).
Defined.

Lemma forbidden_host_is_blocked_witness :
  host_blocked (Ok None) public_lookup (lit "evil.example.com") 443 example_loaded = (example_loaded, Ok (Blocked Denied)).
Proof.
  apply (forbidden_host_is_blocked example_files example_policy example_loaded (lit "evil.example.com")).
  - reflexivity.
  - vm_compute. reflexivity.
  - repeat constructor.
  - vm_compute. discriminate.
  - exact example_loads.
Defined.

Definition example_run : disk_run := {| files_read := example_files; modified_after _ := Some 7%N |}.

Lemma change_during_load_is_missed_witness :
  let layers := (maybe_reload (λ _, Some 5%N) example_run [{| mtime_path := []; mtime := None |}]).1 in
  maybe_reload (λ _, Some 7%N) example_run layers = (layers, Ok None).
Proof.
  apply (change_during_load_is_missed (λ _, Some 5%N) (λ _, Some 7%N) example_run [{| mtime_path := []; mtime := None |}] _
           example_loaded).
  - vm_compute. reflexivity.
  - intros p. reflexivity.
Defined.
