(* ===== verification/Tokio.v ===== *)
(** Interfaces of the channels of the tokio crate that the agents use, with
    their documented behaviour as laws, and a concrete instance of each. *)
From S2P Require Import Prelude.

(** An unbounded [mpsc] channel whose receiver has not been dropped: a queue.
    [try_recv] fails when the queue is empty. *)
Class Mpsc (A : Type) : Type := {
  queue : Type;
  queued : queue → list A;
  unbounded_channel : queue;
  tx_send : A → queue → queue;
  try_recv : queue → option A * queue;
  queued_new : queued unbounded_channel = [];
  queued_send a q : queued (tx_send a q) = queued q ++ [a];
  try_recv_spec q : match queued q with
                    | [] => try_recv q = (None, q)
                    | a :: l => (try_recv q).1 = Some a ∧ queued (try_recv q).2 = l
                    end }.
#[export] Instance list_mpsc A : Mpsc A.
Proof.
  refine {| queue := list A; queued l := l; unbounded_channel := []; tx_send a l := l ++ [a];
            try_recv l := match l with [] => (None, l) | a :: l' => (Some a, l') end |}; [done|done|by intros []].
Defined.

(** A [watch] channel: the last value, a version that every stored value
    increases, and the number of receivers. [send] stores nothing when there is
    no receiver; [send_replace] always stores. A receiver is the version it
    has seen; [changed] waits until the version differs. *)
Class Watch (A : Type) : Type := {
  watch : Type;
  watch_value : watch → A;
  watch_version : watch → nat;
  watch_receivers : watch → nat;
  watch_new : A → watch;
  watch_send : A → watch → bool * watch;
  watch_replace : A → watch → watch;
  watch_subscribe : watch → watch;
  watch_close : watch → watch;
  watch_new_spec a :
    watch_value (watch_new a) = a ∧ watch_version (watch_new a) = 0 ∧ watch_receivers (watch_new a) = 0;
  watch_send_closed a w : watch_receivers w = 0 → watch_send a w = (false, w);
  watch_send_open a w : 0 < watch_receivers w → watch_send a w = (true, watch_replace a w);
  watch_replace_spec a w :
    watch_value (watch_replace a w) = a ∧ watch_version (watch_replace a w) = S (watch_version w)
    ∧ watch_receivers (watch_replace a w) = watch_receivers w;
  watch_subscribe_spec w :
    watch_value (watch_subscribe w) = watch_value w ∧ watch_version (watch_subscribe w) = watch_version w
    ∧ watch_receivers (watch_subscribe w) = S (watch_receivers w);
  watch_close_spec w :
    watch_value (watch_close w) = watch_value w ∧ watch_version (watch_close w) = watch_version w
    ∧ watch_receivers (watch_close w) = pred (watch_receivers w) }.
Record watch_state (A : Type) : Type := { state_value : A; state_version : nat; state_receivers : nat }.
Arguments state_value {A} _.
Arguments state_version {A} _.
Arguments state_receivers {A} _.
Arguments Build_watch_state {A} _ _ _.
#[export] Instance record_watch A : Watch A.
Proof.
  refine {| watch := watch_state A; watch_value := state_value; watch_version := state_version;
            watch_receivers := state_receivers; watch_new a := Build_watch_state a 0 0;
            watch_send a w := if state_receivers w =? 0 then (false, w)
                              else (true, Build_watch_state a (S (state_version w)) (state_receivers w));
            watch_replace a w := Build_watch_state a (S (state_version w)) (state_receivers w);
            watch_subscribe w := Build_watch_state (state_value w) (state_version w) (S (state_receivers w));
            watch_close w := Build_watch_state (state_value w) (state_version w) (pred (state_receivers w)) |}; try done.
  - by intros a w ->.
  - intros a w Hw. destruct (Nat.eqb_spec (state_receivers w) 0); [lia|done].
Defined.

(** A [Notify] used with [notify_waiters] only: how often that was called. A
    [Notified] future that was created when the count was [n] is completed by
    the next call, polled or not. *)
Class Notify : Type := {
  notify_state : Type;
  notifications : notify_state → nat;
  notify_new : notify_state;
  notify_waiters : notify_state → notify_state;
  notify_new_spec : notifications notify_new = 0;
  notify_waiters_spec n : notifications (notify_waiters n) = S (notifications n) }.
#[export] Instance nat_notify : Notify.
Proof. refine {| notify_state := nat; notifications n := n; notify_new := 0; notify_waiters := S |}; done. Defined.
