(* ===== verification/ExecEnv.v ===== *)
(** The environment of the commands that tools run:
    [codex-rs/core/src/exec_env.rs], with the policy of
    [codex-rs/config/src/types.rs]. Matching against wildcards is that of the
    wildmatch crate, a parameter. *)
From stdpp Require Import gmap.
From S2P Require Import Prelude RustStr.

(** A case-insensitive pattern of the wildmatch crate, as its text: [*] stands
    for any characters, [?] for one. *)
Class WildMatch : Type := wild_matches : str → str → bool.
Abbreviation EnvironmentVariablePattern := str (only parsing).
Definition same_ignoring_case (s s' : str) : Prop := to_ascii_lowercase s = to_ascii_lowercase s'.
(** Documented: a text between two stars matches what contains it. *)
Class WildMatchLaws `{WildMatch} : Prop :=
  wild_contains (w name : str) : (42%N ∉ w) → (63%N ∉ w) → Forall (λ c, (c < 128)%N) w →
    wild_matches (lit "*" ++ w ++ lit "*") name = true ↔ ∃ a b c, name = a ++ b ++ c ∧ same_ignoring_case b w.

Inductive ShellEnvironmentPolicyInherit : Type := InheritCore | InheritAll | InheritNone.
Record ShellEnvironmentPolicyToml : Type := {
  toml_inherit : option ShellEnvironmentPolicyInherit; toml_ignore_default_excludes : option bool; toml_exclude : option (list str);
  toml_set : option (gmap str str); toml_include_only : option (list str); toml_use_profile : option bool }.
Record ShellEnvironmentPolicy : Type := {
  inherit : ShellEnvironmentPolicyInherit; ignore_default_excludes : bool; exclude : list EnvironmentVariablePattern;
  env_set : gmap str str; include_only : list EnvironmentVariablePattern; use_profile : bool }.
(** [From<ShellEnvironmentPolicyToml>]; [new_case_insensitive] keeps the text. *)
Definition policy_from_toml (t : ShellEnvironmentPolicyToml) : ShellEnvironmentPolicy :=
  {| inherit := default InheritAll (toml_inherit t);
     ignore_default_excludes := default true (toml_ignore_default_excludes t);
     exclude := default [] (toml_exclude t);
     env_set := default ∅ (toml_set t);
     include_only := default [] (toml_include_only t);
     use_profile := default false (toml_use_profile t) |}.
Definition default_shell_environment_policy : ShellEnvironmentPolicy :=
  {| inherit := InheritAll; ignore_default_excludes := true; exclude := []; env_set := ∅; include_only := []; use_profile := false |}.

Definition CODEX_THREAD_ID_ENV_VAR : str := lit "CODEX_THREAD_ID".
Definition CORE_VARS : list str :=
  map lit ["HOME"; "LOGNAME"; "PATH"; "SHELL"; "USER"; "USERNAME"; "TMPDIR"; "TEMP"; "TMP"]%string.
Definition default_excludes : list EnvironmentVariablePattern := map lit ["*KEY*"; "*SECRET*"; "*TOKEN*"]%string.

Section env.
Context `{WildMatch}.
(** [collect]: a later binding of a name replaces an earlier one. *)
Definition collect_vars (vars : list (str * str)) : gmap str str := foldl (λ m e, <[e.1 := e.2]> m) ∅ vars.
Definition is_core_var (windows : bool) (name : str) : bool :=
  if windows then existsb (λ allowed, bool_decide (to_ascii_lowercase allowed = to_ascii_lowercase name)) CORE_VARS
  else bool_decide (name ∈ CORE_VARS).
Definition matches_any (name : str) (patterns : list EnvironmentVariablePattern) : bool :=
  existsb (λ pattern, wild_matches pattern name) patterns.
Definition retain (p : str → bool) (m : gmap str str) : gmap str str := filter (λ e, p e.1 = true) m.
Definition populate_env (windows : bool) (vars : list (str * str)) (policy : ShellEnvironmentPolicy) (thread_id : option str) : gmap str str :=
  let env_map :=
    match inherit policy with
    | InheritAll => collect_vars vars
    | InheritNone => ∅
    | InheritCore => collect_vars (List.filter (λ e, is_core_var windows e.1) vars)
    end in
  let env_map := if ignore_default_excludes policy then env_map else retain (λ k, negb (matches_any k default_excludes)) env_map in
  let env_map := if decide (exclude policy = []) then env_map else retain (λ k, negb (matches_any k (exclude policy))) env_map in
  let env_map := env_set policy ∪ env_map in
  let env_map := if decide (include_only policy = []) then env_map else retain (λ k, matches_any k (include_only policy)) env_map in
  match thread_id with Some thread_id => <[CODEX_THREAD_ID_ENV_VAR := thread_id]> env_map | None => env_map end.

(** * Lemmas *)

Lemma retain_lookup p m k v : retain p m !! k = Some v ↔ m !! k = Some v ∧ p k = true.
Proof. unfold retain. by rewrite map_lookup_filter_Some. Qed.
Lemma collect_vars_fold (p : str → bool) vars k : p k = true → ∀ m m' : gmap str str, m !! k = m' !! k →
  foldl (λ m e, <[e.1 := e.2]> m) m (List.filter (λ e : str * str, p e.1) vars) !! k = foldl (λ m e, <[e.1 := e.2]> m) m' vars !! k.
Proof.
  intros Hp. induction vars as [|[x v] vars IH]; intros m m' E; [done|]. cbn. destruct (p x) eqn:Ex; cbn; apply IH.
  - destruct (decide (x = k)) as [->|]; by simplify_map_eq.
  - destruct (decide (x = k)) as [->|]; [congruence|]. by simplify_map_eq.
Qed.
Lemma collect_vars_outside (p : str → bool) vars k : p k = false → ∀ m : gmap str str, m !! k = None →
  foldl (λ m e, <[e.1 := e.2]> m) m (List.filter (λ e : str * str, p e.1) vars) !! k = None.
Proof.
  intros Hp. induction vars as [|[x v] vars IH]; intros m E; [done|]. cbn. destruct (p x) eqn:Ex; cbn; [|by apply IH].
  apply IH. destruct (decide (x = k)) as [->|]; [congruence|]. by simplify_map_eq.
Qed.
Lemma collect_core windows vars k v :
  collect_vars (List.filter (λ e, is_core_var windows e.1) vars) !! k = Some v ↔ collect_vars vars !! k = Some v ∧ is_core_var windows k = true.
Proof.
  unfold collect_vars. destruct (is_core_var windows k) eqn:E.
  - rewrite (collect_vars_fold (is_core_var windows) vars k E ∅ ∅) by done. naive_solver.
  - rewrite (collect_vars_outside (is_core_var windows) vars k E) by done. naive_solver.
Qed.
(** What a name is inherited as. *)
Definition inherited (windows : bool) (policy : ShellEnvironmentPolicy) (k : str) : bool :=
  match inherit policy with InheritAll => true | InheritNone => false | InheritCore => is_core_var windows k end
  && (ignore_default_excludes policy || negb (matches_any k default_excludes))
  && negb (matches_any k (exclude policy)).
Lemma populate_env_lookup windows vars policy thread_id k v :
  populate_env windows vars policy thread_id !! k = Some v ↔
  if decide (k = CODEX_THREAD_ID_ENV_VAR ∧ is_Some thread_id) then thread_id = Some v
  else (include_only policy = [] ∨ matches_any k (include_only policy) = true)
    ∧ (env_set policy !! k = Some v ∨ env_set policy !! k = None ∧ collect_vars vars !! k = Some v ∧ inherited windows policy k = true).
Proof.
  unfold populate_env. set (m0 := match inherit policy with InheritCore => _ | InheritAll => _ | InheritNone => _ end).
  assert (H0 : m0 !! k = Some v ↔ collect_vars vars !! k = Some v
    ∧ match inherit policy with InheritAll => true | InheritNone => false | InheritCore => is_core_var windows k end = true).
  { unfold m0. destruct (inherit policy); [apply collect_core|naive_solver|]. rewrite lookup_empty. naive_solver. }
  set (m1 := if ignore_default_excludes policy then m0 else _).
  assert (H1 : m1 !! k = Some v ↔ m0 !! k = Some v ∧ ignore_default_excludes policy || negb (matches_any k default_excludes) = true).
  { unfold m1. destruct (ignore_default_excludes policy); [naive_solver|]. by rewrite retain_lookup. }
  set (m2 := if decide (exclude policy = []) then m1 else _).
  assert (H2 : m2 !! k = Some v ↔ m1 !! k = Some v ∧ negb (matches_any k (exclude policy)) = true).
  { unfold m2. destruct (decide (exclude policy = [])) as [->|]; [cbn; clear; tauto|]. by rewrite retain_lookup. }
  assert (H3 : (env_set policy ∪ m2) !! k = Some v ↔ env_set policy !! k = Some v ∨ env_set policy !! k = None ∧ m2 !! k = Some v)
    by apply lookup_union_Some_raw.
  set (m4 := if decide (include_only policy = []) then _ else _).
  assert (H4 : m4 !! k = Some v ↔ (include_only policy = [] ∨ matches_any k (include_only policy) = true) ∧ (env_set policy ∪ m2) !! k = Some v).
  { unfold m4. destruct (decide (include_only policy = [])) as [Ei|Hne]; [clear -Ei; tauto|]. rewrite retain_lookup. clear -Hne. tauto. }
  assert (H5 : m4 !! k = Some v ↔ (include_only policy = [] ∨ matches_any k (include_only policy) = true)
    ∧ (env_set policy !! k = Some v ∨ env_set policy !! k = None ∧ collect_vars vars !! k = Some v ∧ inherited windows policy k = true)).
  { rewrite H4, H3, H2, H1, H0. unfold inherited. rewrite !andb_true_iff. clear. tauto. }
  destruct thread_id as [id|]; [|rewrite decide_False by (intros [_ [? ?]]; done); exact H5].
  destruct (decide (k = CODEX_THREAD_ID_ENV_VAR)) as [->|Hk].
  - rewrite lookup_insert_eq, decide_True by eauto. done.
  - rewrite lookup_insert_ne, decide_False by (by intros [? _] || done). exact H5.
Qed.

(** * Properties *)

(** The environment of a command, name by name: the thread's identifier; what
    the policy sets; and what is inherited and not excluded; all but the
    identifier only if [include_only] is empty or matches. *)
Theorem populate_env_spec windows vars policy thread_id k v :
  populate_env windows vars policy thread_id !! k = Some v ↔
  if decide (k = CODEX_THREAD_ID_ENV_VAR ∧ is_Some thread_id) then thread_id = Some v
  else (include_only policy = [] ∨ matches_any k (include_only policy) = true)
    ∧ (env_set policy !! k = Some v ∨ env_set policy !! k = None ∧ collect_vars vars !! k = Some v ∧ inherited windows policy k = true).
Proof. apply populate_env_lookup. Qed.
End env.

(** With the default excludes on, a variable whose name contains KEY, SECRET or
    TOKEN in any case reaches a command only if the policy sets it. *)
Theorem secrets_are_not_inherited `{WildMatchLaws} windows vars policy thread_id word a name b v :
  ignore_default_excludes policy = false → word ∈ map lit ["KEY"; "SECRET"; "TOKEN"]%string → same_ignoring_case name word →
  populate_env windows vars policy thread_id !! (a ++ name ++ b) = Some v → a ++ name ++ b ≠ CODEX_THREAD_ID_ENV_VAR →
  env_set policy !! (a ++ name ++ b) = Some v.
Proof.
  intros Hi Hw Hs Hl Hne. apply populate_env_lookup in Hl. rewrite decide_False in Hl by naive_solver.
  destruct Hl as [_ [Hl|(_ & _ & Hinh)]]; [done|]. unfold inherited in Hinh. rewrite Hi in Hinh. cbn [orb] in Hinh.
  rewrite !andb_true_iff in Hinh. destruct Hinh as [[_ Hd%negb_true_iff] _]. unfold matches_any in Hd.
  assert (Hm : existsb (λ pattern, wild_matches pattern (a ++ name ++ b)) default_excludes = true); [|congruence].
  apply existsb_exists. exists (lit "*" ++ word ++ lit "*").
  assert (Hok : In (lit "*" ++ word ++ lit "*") default_excludes ∧ (42%N ∉ word) ∧ (63%N ∉ word) ∧ Forall (λ c, (c < 128)%N) word).
  { clear -Hw. cbn [map] in Hw. rewrite !elem_of_cons, elem_of_nil in Hw. destruct Hw as [->|[->|[->|[]]]];
      (split; [vm_compute; tauto|]); split_and!; apply (bool_decide_unpack _); vm_compute; exact I. }
  destruct Hok as (Hin & Hst & Hq & Ha). split; [done|].
  apply wild_contains; [done..|]. by exists a, name, b.
Qed.

(** * Witnesses *)

(** A matcher of patterns. *)
Definition star_match (f : str → bool) : str → bool :=
  fix any (s : str) : bool := f s || match s with [] => false | _ :: s' => any s' end.
Fixpoint glob (p : str) : str → bool :=
  match p with
  | [] => λ s, bool_decide (s = [])
  | c :: p' =>
      if (c =? 42)%N then star_match (glob p')
      else λ s, match s with
                | [] => false
                | x :: s' => ((c =? 63)%N || (to_ascii_lowercase_char x =? to_ascii_lowercase_char c)%N) && glob p' s'
                end
  end.
Lemma star_match_spec f s : star_match f s = true ↔ ∃ a b, s = a ++ b ∧ f b = true.
Proof.
  induction s as [|x s IH]; cbn; rewrite orb_true_iff.
  - split; [intros [?|?]; [by exists [], []|done]|]. intros ([] & [] & ? & ?); try done. by left.
  - change ((fix any (s : str) : bool := f s || match s with [] => false | _ :: s' => any s' end) s) with (star_match f s).
    rewrite IH. split.
    + intros [?|(a & b & -> & ?)]; [by exists [], (x :: s)|by exists (x :: a), b].
    + intros ([|y a] & b & E & ?); cbn in E; [subst; by left|]. injection E as -> ->. right. by exists a, b.
Qed.
Lemma glob_text w p s : (42%N ∉ w) → (63%N ∉ w) → glob (w ++ p) s = true ↔ ∃ b c, s = b ++ c ∧ same_ignoring_case b w ∧ glob p c = true.
Proof.
  revert s. induction w as [|x w IH]; intros s Hst Hq.
  { cbn. split; [intros; by exists [], s|]. intros ([|] & c & -> & Hb & ?); [done|by unfold same_ignoring_case in Hb]. }
  apply not_elem_of_cons in Hst as [Hx Hst], Hq as [Hx' Hq]. cbn [app glob].
  destruct (N.eqb_spec x 42); [congruence|]. destruct (N.eqb_spec x 63); [congruence|]. cbn [orb]. destruct s as [|y s].
  { split; [done|]. intros ([|] & c & E & Hb & _); [by unfold same_ignoring_case in Hb|done]. }
  rewrite andb_true_iff, N.eqb_eq, IH by done. unfold same_ignoring_case. split.
  - intros [Hy (b & c & -> & Hb & ?)]. exists (y :: b), c. cbn. split_and!; [done| |done]. unfold to_ascii_lowercase in *. cbn. by f_equal.
  - intros ([|z b] & c & E & Hb & ?); [done|]. cbn in E. injection E as -> ->. unfold to_ascii_lowercase in *. cbn in Hb. injection Hb as Hz Hb.
    split; [done|]. by exists b, c.
Qed.
#[local] Instance glob_match : WildMatch := glob.
#[local] Instance glob_match_laws : WildMatchLaws.
Proof.
  intros w name Hst Hq _. unfold wild_matches, glob_match. change (lit "*" ++ w ++ lit "*") with (42%N :: w ++ [42%N]).
  cbn [glob N.eqb Pos.eqb]. rewrite star_match_spec. split.
  - intros (a & r & -> & (b & c & -> & Hb & _)%glob_text); [by exists a, b, c|done|done].
  - intros (a & b & c & -> & Hb). exists a, (b ++ c). split; [done|]. apply glob_text; [done..|]. exists b, c. split_and!; [done..|].
    apply star_match_spec. exists c, []. by rewrite app_nil_r.
Qed.
Definition strict_environment : ShellEnvironmentPolicy :=
  {| inherit := InheritAll; ignore_default_excludes := false; exclude := []; env_set := {[ lit "MY_token" := lit "x" ]}; include_only := [];
     use_profile := false |}.
Example strict_environment_ex :
  let env := populate_env false [(lit "HOME", lit "/home/me"); (lit "api_key", lit "s3"); (lit "MY_token", lit "old")] strict_environment (Some (lit "7")) in
  env !! lit "HOME" = Some (lit "/home/me") ∧ env !! lit "api_key" = None ∧ env !! lit "MY_token" = Some (lit "x")
  ∧ env !! lit "CODEX_THREAD_ID" = Some (lit "7").
Proof. vm_compute. done. Qed.
Lemma secrets_are_not_inherited_witness : env_set strict_environment !! (lit "MY_" ++ lit "token" ++ []) = Some (lit "x").
Proof.
  apply (secrets_are_not_inherited false [(lit "MY_token", lit "old")] strict_environment None (lit "TOKEN") (lit "MY_") (lit "token") []).
  - reflexivity.
  - cbn. set_solver.
  - reflexivity.
  - vm_compute. reflexivity.
  - vm_compute. discriminate.
Defined.
