(* ===== verification/ToolApproval.v ===== *)
(** Approvals of tools: [codex-rs/core/src/tools/sandboxing.rs], the keys
    under which approvals are remembered
    ([core/src/command_canonicalization.rs], with the PowerShell wrappers of
    [shell-command/src/powershell.rs]) and the sandbox that is picked
    ([sandboxing/src/manager.rs], [policy_transforms.rs]). *)
From stdpp Require Import gmap.
From S2P Require Import Prelude RustStr RustPath FileSystem AbsolutePath ExecPolicy Protocol Permissions Bash ExecApproval Safety.

(** * PowerShell wrappers *)

Definition POWERSHELL_FLAGS : list str := [lit "-nologo"; lit "-noprofile"; lit "-command"; lit "-c"].
Definition UTF8_OUTPUT_PREFIX : str := lit "[Console]::OutputEncoding=[System.Text.Encoding]::UTF8;" ++ [nl].
(** The loop over the flags before the script. *)
Fixpoint powershell_script (args : list str) : option str :=
  match args with
  | flag :: ((script :: _) as rest) =>
      let flag := to_ascii_lowercase flag in
      if negb (bool_decide (flag ∈ POWERSHELL_FLAGS)) then None
      else if bool_decide (flag = lit "-command") || bool_decide (flag = lit "-c") then Some script
      else powershell_script rest
  | _ => None
  end.
Definition extract_powershell_command (command : list str) : option (str * str) :=
  match command with
  | shell :: args =>
      if length command <? 3 then None
      else if negb (bool_decide (detect_shell_type shell = Some PowerShell)) then None
      else (λ script, (shell, script)) <$> powershell_script args
  | [] => None
  end.
Definition prefix_powershell_script_with_utf8 (command : list str) : list str :=
  match extract_powershell_command command with
  | None => command
  | Some (_, script) =>
      removelast command
      ++ [if starts_with UTF8_OUTPUT_PREFIX (trim_start script) then script else UTF8_OUTPUT_PREFIX ++ script]
  end.

(** * Keys *)

Definition CANONICAL_BASH_SCRIPT_PREFIX : str := lit "__codex_shell_script__".
Definition CANONICAL_POWERSHELL_SCRIPT_PREFIX : str := lit "__codex_powershell_script__".
Section keys.
Variable try_parse_shell : str → option Tree.
(** [canonicalize_command_for_approval]. *)
Definition script_key (command : list str) : list str :=
  match extract_bash_command command with
  | Some (_, script) => [CANONICAL_BASH_SCRIPT_PREFIX; default [] (command !! 1); script]
  | None =>
      match extract_powershell_command command with
      | Some (_, script) => [CANONICAL_POWERSHELL_SCRIPT_PREFIX; script]
      | None => command
      end
  end.
Definition canonicalize_command_for_approval (command : list str) : outcome Empty_set (list str) :=
  commands ← parse_shell_lc_plain_commands try_parse_shell command;
  match commands with
  | Some [single_command] => Ok single_command
  | _ => Ok (script_key command)
  end.
End keys.

(** * Decisions and the store of approvals *)

Inductive NetworkPolicyRuleAction : Type := RuleAllow | RuleDeny.
#[export] Instance NetworkPolicyRuleAction_eq_dec : EqDecision NetworkPolicyRuleAction.
Proof. solve_decision. Defined.
Record NetworkPolicyAmendment : Type := { amendment_host : str; amendment_action : NetworkPolicyRuleAction }.
#[export] Instance NetworkPolicyAmendment_eq_dec : EqDecision NetworkPolicyAmendment.
Proof. solve_decision. Defined.
Inductive ReviewDecision : Type :=
| Approved
| ApprovedExecpolicyAmendment (amendment : list str)
| ApprovedForSession
| NetworkAmendment (amendment : NetworkPolicyAmendment)
| Denied
| Abort.
#[export] Instance ReviewDecision_eq_dec : EqDecision ReviewDecision.
Proof. solve_decision. Defined.

(** [serde_json::to_string] of a key. *)
Class KeyJson (K : Type) : Type := key_json : K → option str.
Definition ApprovalStore : Type := gmap str ReviewDecision.
Definition store_get `{KeyJson K} (m : ApprovalStore) (key : K) : option ReviewDecision :=
  match key_json key with Some s => m !! s | None => None end.
Definition store_put `{KeyJson K} (key : K) (value : ReviewDecision) (m : ApprovalStore) : ApprovalStore :=
  match key_json key with Some s => <[s := value]> m | None => m end.

(** A session, as far as its store goes. *)
Class HasApprovals (S : Type) : Type := {
  approvals : S → ApprovalStore;
  set_approvals : ApprovalStore → S → S;
  approvals_set m s : approvals (set_approvals m s) = m }.

Definition all_approved `{KeyJson K} (m : ApprovalStore) (keys : list K) : bool :=
  forallb (λ key, bool_decide (store_get m key = Some ApprovedForSession)) keys.
(** [with_cached_approval]; other tasks of the session may run while [fetch]
    waits. *)
Definition with_cached_approval {K S : Type} `{!KeyJson K, !HasApprovals S} (keys : list K) (fetch : S → S * ReviewDecision) (s : S)
    : S * ReviewDecision :=
  match keys with
  | [] => fetch s
  | _ =>
      if all_approved (approvals s) keys then (s, ApprovedForSession)
      else
        let '(s, decision) := fetch s in
        match decision with
        | ApprovedForSession =>
            (set_approvals (foldl (λ m key, store_put key ApprovedForSession m) (approvals s) keys) s, decision)
        | _ => (s, decision)
        end
  end.

(** * Requirements and sandboxes *)

Definition proposed_execpolicy_amendment (r : ExecApprovalRequirement) : option (list str) :=
  match r with NeedsApproval _ a | Skip _ a => a | ReqForbidden _ => None end.
Definition default_exec_approval_requirement (policy : AskForApproval) (fs : FileSystemSandboxPolicy) : ExecApprovalRequirement :=
  let needs_approval :=
    match policy with
    | Never | OnFailure => false
    | OnRequest | Granular _ => bool_decide (fs_kind fs = FsRestricted)
    | UnlessTrusted => true
    end in
  if needs_approval && match policy with Granular c => negb (allows_sandbox_approval c) | _ => false end then
    ReqForbidden (lit "approval policy disallowed sandbox approval prompt")
  else if needs_approval then NeedsApproval None None
  else Skip false None.

Inductive SandboxOverride : Type := NoOverride | BypassSandboxFirstAttempt.
Definition requires_escalated_permissions (p : SandboxPermissions) : bool :=
  match p with RequireEscalated => true | _ => false end.
Definition sandbox_override_for_first_attempt (p : SandboxPermissions) (r : ExecApprovalRequirement) : SandboxOverride :=
  if requires_escalated_permissions p || match r with Skip true _ => true | _ => false end
  then BypassSandboxFirstAttempt else NoOverride.

Inductive SandboxablePreference : Type := PreferAuto | PreferRequire | PreferForbid.
Definition should_require_platform_sandbox (fs : FileSystemSandboxPolicy) (network_policy : NetworkSandboxPolicy)
    (has_managed_network_requirements : bool) : bool :=
  if has_managed_network_requirements then true
  else if negb (is_enabled network_policy) then negb (bool_decide (fs_kind fs = FsExternalSandbox))
  else match fs_kind fs with
       | FsRestricted => negb (has_full_disk_write_access fs)
       | FsUnrestricted | FsExternalSandbox => false
       end.
Definition platform_sandbox (os : target_os) (level : WindowsSandboxLevel) : SandboxType :=
  default SandboxNone (get_platform_sandbox os match level with LevelDisabled => false | _ => true end).
Definition select_initial (os : target_os) (fs : FileSystemSandboxPolicy) (network_policy : NetworkSandboxPolicy)
    (pref : SandboxablePreference) (level : WindowsSandboxLevel) (has_managed_network_requirements : bool) : SandboxType :=
  match pref with
  | PreferForbid => SandboxNone
  | PreferRequire => platform_sandbox os level
  | PreferAuto =>
      if should_require_platform_sandbox fs network_policy has_managed_network_requirements
      then platform_sandbox os level else SandboxNone
  end.

(** * Lemmas *)

Section store.
Context `{KeyJson K}.
Implicit Types (k : K) (m : ApprovalStore).
Lemma store_get_put k k' m : key_json k' ≠ None →
  store_get m k' = Some ApprovedForSession ∨ k = k' → store_get (store_put k ApprovedForSession m) k' = Some ApprovedForSession.
Proof.
  unfold store_get, store_put, ApprovalStore in *. intros Hk [Hm| ->].
  - destruct (key_json k') as [s|]; [|done]. destruct (key_json k) as [s'|]; [|done].
    destruct (decide (s' = s)) as [->|]; [by rewrite lookup_insert_eq|by rewrite lookup_insert_ne].
  - destruct (key_json k'); [by rewrite lookup_insert_eq|done].
Qed.
Lemma store_get_puts keys k' : key_json k' ≠ None → ∀ m,
  store_get m k' = Some ApprovedForSession ∨ k' ∈ keys →
  store_get (foldl (λ m k, store_put k ApprovedForSession m) m keys) k' = Some ApprovedForSession.
Proof.
  intros Hk. induction keys as [|k keys IH]; intros m Hm; [by destruct Hm as [|?%elem_of_nil]|].
  cbn. apply IH. destruct Hm as [Hm|[-> |Hin]%elem_of_cons]; [left; by apply store_get_put; [|left]|left|by right].
  apply store_get_put; [done|by right].
Qed.
Lemma all_approved_spec m keys : all_approved m keys = true ↔ ∀ k, k ∈ keys → store_get m k = Some ApprovedForSession.
Proof.
  unfold all_approved. rewrite forallb_forall. split; intros Hk k Hin.
  - eapply bool_decide_eq_true, Hk. by apply list_elem_of_In.
  - apply bool_decide_eq_true, Hk. by apply list_elem_of_In.
Qed.
End store.

(** The words a command stands for when it is a plain command, as such or
    through a shell. *)
Inductive plain_words (try_parse_shell : str → option Tree) (words : list str) : list str → Prop :=
| plain_direct : plain_words try_parse_shell words words
| plain_wrapped shell flag script tree :
    extract_bash_command [shell; flag; script] = Some (shell, script) → try_parse_shell script = Some tree →
    try_parse_word_only_commands_sequence tree = Ok (Some [words]) →
    plain_words try_parse_shell words [shell; flag; script].
Lemma extract_bash_inv c shell script : extract_bash_command c = Some (shell, script) → ∃ flag, c = [shell; flag; script].
Proof.
  unfold extract_bash_command. destruct c as [|? [|? [|? []]]]; try done. case_match; [done|]. intros [= -> ->]. eauto.
Qed.
Lemma parse_plain_inv tp c cs : parse_shell_lc_plain_commands tp c = Ok (Some cs) →
  ∃ shell flag script tree, c = [shell; flag; script] ∧ extract_bash_command c = Some (shell, script)
    ∧ tp script = Some tree ∧ try_parse_word_only_commands_sequence tree = Ok (Some cs).
Proof.
  unfold parse_shell_lc_plain_commands. destruct (extract_bash_command c) as [[shell script]|] eqn:E; [|done].
  destruct (tp script) as [tree|] eqn:Et; [|done]. intros Hs. destruct (extract_bash_inv _ _ _ E) as (flag & ->). eauto 10.
Qed.
Lemma canonicalize_inv tp c k : canonicalize_command_for_approval tp c = Ok k →
  (∃ shell flag script tree, c = [shell; flag; script] ∧ extract_bash_command c = Some (shell, script)
    ∧ tp script = Some tree ∧ try_parse_word_only_commands_sequence tree = Ok (Some [k]))
  ∨ k = script_key c.
Proof.
  unfold canonicalize_command_for_approval.
  destruct (parse_shell_lc_plain_commands tp c) as [[[|w [|]]|]|e| |] eqn:E; cbn; intros [= <-]; try by right.
  left. by apply parse_plain_inv.
Qed.

(** * Properties *)

(** Commands with the same approval key run the same thing, PowerShell wrappers
    apart: if the key is not marked as a script, both are that plain command,
    as such or as the only command of a shell's script; if it is, both are a
    shell with the same mode and the same script. *)
Theorem approval_key_determines_command (try_parse_shell : str → option Tree) (c1 c2 k : list str) :
  canonicalize_command_for_approval try_parse_shell c1 = Ok k →
  canonicalize_command_for_approval try_parse_shell c2 = Ok k →
  head k ≠ Some CANONICAL_POWERSHELL_SCRIPT_PREFIX →
  let tp := try_parse_shell in
  (plain_words tp k c1 ∨ ∃ shell mode script, c1 = [shell; mode; script] ∧ k = [CANONICAL_BASH_SCRIPT_PREFIX; mode; script])
  ∧ (plain_words tp k c2 ∨ ∃ shell mode script, c2 = [shell; mode; script] ∧ k = [CANONICAL_BASH_SCRIPT_PREFIX; mode; script]).
Proof.
  intros H1 H2 Hk tp. assert (Hc : ∀ c, canonicalize_command_for_approval tp c = Ok k →
    plain_words tp k c ∨ ∃ shell mode script, c = [shell; mode; script] ∧ k = [CANONICAL_BASH_SCRIPT_PREFIX; mode; script]).
  { intros c [(shell & flag & script & tree & -> & He & Ht & Hs)|Hs]%canonicalize_inv; [left; by eapply plain_wrapped|].
    unfold script_key in Hs. destruct (extract_bash_command c) as [[shell script]|] eqn:E.
    - right. destruct (extract_bash_inv _ _ _ E) as (flag & ->). subst k. eauto.
    - destruct (extract_powershell_command c) as [[]|]; subst k; [by destruct Hk|left; constructor]. }
  split; by apply Hc.
Qed.

(** The key of a PowerShell command ends with its script: whatever arguments
    follow, which PowerShell runs as part of the script, the key is the same. *)
Theorem powershell_key_ignores_arguments (try_parse_shell : str → option Tree) (shell flag script : str) (more : list str) :
  detect_shell_type shell = Some PowerShell → flag ∈ [lit "-Command"; lit "-command"; lit "-c"] →
  canonicalize_command_for_approval try_parse_shell (shell :: flag :: script :: more)
  = Ok [CANONICAL_POWERSHELL_SCRIPT_PREFIX; script].
Proof.
  intros Hs Hf.
  assert (Hb : extract_bash_command (shell :: flag :: script :: more) = None).
  { unfold extract_bash_command. destruct more; [|done]. rewrite Hs. rewrite (bool_decide_false (Some PowerShell ∈ _)); [|set_solver].
    by rewrite orb_true_r. }
  assert (Hp : extract_powershell_command (shell :: flag :: script :: more) = Some (shell, script)).
  { unfold extract_powershell_command. cbn [length Nat.ltb Nat.leb]. rewrite bool_decide_true by done. cbn [negb powershell_script].
    rewrite !elem_of_cons in Hf. by destruct Hf as [->|[->|[->|?%elem_of_nil]]]. }
  unfold canonicalize_command_for_approval, parse_shell_lc_plain_commands, script_key. by rewrite Hb, Hp.
Qed.

(** An approval for the session covers every request whose keys are among the
    approved ones: the next such request is approved without asking, as long as
    the store keeps the approvals; and a request is approved without asking only
    when it has keys and all of them are approved. *)
Theorem session_approval_covers_subsets {K S : Type} `{!KeyJson K, !HasApprovals S} (keys keys' : list K)
    (fetch fetch' : S → S * ReviewDecision) (s s' : S) :
  with_cached_approval keys fetch s = (s', ApprovedForSession) →
  Forall (λ k, key_json k ≠ None) keys → keys' ⊆ keys → keys' ≠ [] →
  with_cached_approval keys' fetch' s' = (s', ApprovedForSession)
  ∧ (∀ k, k ∈ keys' → store_get (approvals s') k = Some ApprovedForSession)
  ∧ (all_approved (approvals s) keys' = false → (with_cached_approval keys' fetch' s).2 = (fetch' s).2).
Proof.
  intros Hw Hj Hsub Hne.
  assert (Hk : ∀ k, k ∈ keys' → store_get (approvals s') k = Some ApprovedForSession).
  { intros k Hin. apply Hsub in Hin. unfold with_cached_approval in Hw. destruct keys as [|k0 keys]; [by apply elem_of_nil in Hin|].
    destruct (all_approved (approvals s) (k0 :: keys)) eqn:Ea; [injection Hw as <-; by eapply all_approved_spec|].
    destruct (fetch s) as [s1 d] eqn:Ef. destruct d; injection Hw as <-; try done. rewrite approvals_set.
    apply (store_get_puts (k0 :: keys)); [|by right]. rewrite Forall_forall in Hj. by apply Hj. }
  split; [|split; [done|]]; unfold with_cached_approval; destruct keys' as [|k0 keys']; try done.
  - by rewrite (proj2 (all_approved_spec (approvals s') (k0 :: keys')) Hk).
  - intros ->. destruct (fetch' s) as [s1 []]; done.
Qed.

(** * Witnesses *)

Definition no_tree : str → option Tree := λ _, None.
Lemma approval_key_determines_command_witness :
  let c1 := [lit "/bin/bash"; lit "-lc"; lit "a && b"] in let c2 := [lit "zsh"; lit "-lc"; lit "a && b"] in
  let k := [CANONICAL_BASH_SCRIPT_PREFIX; lit "-lc"; lit "a && b"] in
  plain_words no_tree k c1 ∨ ∃ shell mode script, c1 = [shell; mode; script] ∧ k = [CANONICAL_BASH_SCRIPT_PREFIX; mode; script].
Proof.
  apply (approval_key_determines_command no_tree _ [lit "zsh"; lit "-lc"; lit "a && b"]); by vm_compute.
Defined.
Lemma powershell_key_ignores_arguments_witness :
  canonicalize_command_for_approval no_tree [lit "pwsh"; lit "-Command"; lit "Get-ChildItem"; lit ";"; lit "Remove-Item"; lit "x"]
  = canonicalize_command_for_approval no_tree [lit "pwsh"; lit "-Command"; lit "Get-ChildItem"].
Proof.
  rewrite !powershell_key_ignores_arguments; [done|by vm_compute|by left|by vm_compute|by left].
Defined.
(** A session that is only a store, and keys that are texts. *)
#[local] Instance store_session : HasApprovals ApprovalStore := {| approvals m := m; set_approvals m _ := m; approvals_set _ _ := eq_refl |}.
#[local] Instance text_key : KeyJson str := Some.
Lemma session_approval_covers_subsets_witness :
  with_cached_approval [lit "/b"] (λ s, (s, Denied))
    (with_cached_approval [lit "/a"; lit "/b"] (λ s, (s, ApprovedForSession)) ∅).1
  = ((with_cached_approval [lit "/a"; lit "/b"] (λ s, (s, ApprovedForSession)) ∅).1, ApprovedForSession).
Proof.
  eapply (session_approval_covers_subsets (S := ApprovalStore) [lit "/a"; lit "/b"] [lit "/b"] (λ s, (s, ApprovedForSession)) (λ s, (s, Denied)) ∅);
    [by vm_compute|by apply Forall_true|set_solver|done].
Defined.
