(* ===== verification/NetApproval.v ===== *)
(** Approvals of network access while a tool runs:
    [codex-rs/core/src/tools/network_approval.rs] and
    [core/src/network_policy_decision.rs]. The proxy asks this service about
    hosts its lists do not settle; requests for the same host share one review.
    Each lock is taken for a moment only, so the handling of a request is a
    sequence of stages that interleave with those of other requests; the reviews
    themselves, by the user or the guardian, are answers from outside. *)
From stdpp Require Import gmap relations.
From S2P Require Import Prelude RustStr RustPath FileSystem AbsolutePath ExecPolicy Protocol Tokio NetHost NetPolicy NetState ToolApproval.

(** * Data *)

Inductive NetworkApprovalProtocol : Type := ApprovalHttp | ApprovalHttps | ApprovalSocks5Tcp | ApprovalSocks5Udp.
#[export] Instance NetworkApprovalProtocol_eq_dec : EqDecision NetworkApprovalProtocol.
Proof. solve_decision. Defined.
Record NetworkApprovalContext : Type := { context_host : str; context_protocol : NetworkApprovalProtocol }.
Inductive NetworkApprovalMode : Type := Immediate | Deferred.

Record HostApprovalKey : Type := { key_host : str; key_protocol : str; key_port : N }.
#[export] Instance HostApprovalKey_eq_dec : EqDecision HostApprovalKey.
Proof. solve_decision. Defined.
#[export] Instance HostApprovalKey_countable : Countable HostApprovalKey.
Proof.
  refine (inj_countable' (λ k, (key_host k, key_protocol k, key_port k))
            (λ t, {| key_host := t.1.1; key_protocol := t.1.2; key_port := t.2 |}) _). by intros [].
Defined.
Definition protocol_key_label (p : NetworkApprovalProtocol) : str :=
  match p with
  | ApprovalHttp => lit "http" | ApprovalHttps => lit "https"
  | ApprovalSocks5Tcp => lit "socks5-tcp" | ApprovalSocks5Udp => lit "socks5-udp"
  end.
Definition approval_protocol (p : NetworkProtocol) : NetworkApprovalProtocol :=
  match p with
  | Http => ApprovalHttp | HttpsConnect => ApprovalHttps | Socks5Tcp => ApprovalSocks5Tcp | Socks5Udp => ApprovalSocks5Udp
  end.
Definition key_from_request (r : NetworkPolicyRequest) (p : NetworkApprovalProtocol) : HostApprovalKey :=
  {| key_host := to_ascii_lowercase (request_host r); key_protocol := protocol_key_label p; key_port := request_port r |}.
Definition request_key (r : NetworkPolicyRequest) : HostApprovalKey :=
  key_from_request r (approval_protocol (request_protocol r)).

Inductive PendingApprovalDecision : Type := AllowOnce | AllowForSession | PendingDeny.
Inductive NetworkApprovalOutcome : Type := DeniedByUser | DeniedByPolicy (message : str).
Definition allows_network_approval_flow (policy : AskForApproval) : bool :=
  match policy with Never => false | _ => true end.
Definition deny_request (reason : str) : NetworkDecision := deny_with_source reason Decider.
Definition REASON_NOT_ALLOWED : str := lit "not_allowed".
Definition to_network_decision (d : PendingApprovalDecision) : NetworkDecision :=
  match d with AllowOnce | AllowForSession => AllowRequest | PendingDeny => deny_request REASON_NOT_ALLOWED end.

(** ** Payloads of the proxy *)

Record NetworkPolicyDecisionPayload : Type := {
  payload_decision : NetworkPolicyDecision; payload_source : NetworkDecisionSource;
  payload_protocol : option NetworkApprovalProtocol; payload_host : option str;
  payload_reason : option str; payload_port : option N }.
Definition is_ask_from_decider (p : NetworkPolicyDecisionPayload) : bool :=
  match payload_decision p, payload_source p with AskUser, Decider => true | _, _ => false end.
Definition network_approval_context_from_payload (p : NetworkPolicyDecisionPayload) : option NetworkApprovalContext :=
  if negb (is_ask_from_decider p) then None
  else
    protocol ← payload_protocol p;
    host ← payload_host p;
    let host := trim host in
    if bool_decide (host = []) then None else Some {| context_host := host; context_protocol := protocol |}.
Definition parse_network_policy_decision (value : str) : option NetworkPolicyDecision :=
  if bool_decide (value = lit "deny") then Some DenyRequest
  else if bool_decide (value = lit "ask") then Some AskUser else None.
Definition denied_detail (reason : str) : str :=
  if bool_decide (reason = lit "denied") then lit "domain is explicitly denied by policy and cannot be approved from this prompt"
  else if bool_decide (reason = lit "not_allowed") then lit "domain is not on the allowlist for the current sandbox mode"
  else if bool_decide (reason = lit "not_allowed_local") then lit "local/private network addresses are blocked by policy"
  else if bool_decide (reason = lit "method_not_allowed") then lit "request method is blocked by the current network mode"
  else if bool_decide (reason = lit "proxy_disabled") then lit "managed network proxy is disabled"
  else lit "request is blocked by network policy".
Definition denied_network_policy_message (b : BlockedRequest) : option str :=
  match blocked_decision b ≫= parse_network_policy_decision with
  | Some DenyRequest =>
      let host := trim (blocked_host b) in
      Some (if bool_decide (host = []) then lit "Network access was blocked by policy."
            else lit "Network access to " ++ [34%N] ++ host ++ [34%N] ++ lit " was blocked: "
                   ++ denied_detail (blocked_reason b) ++ lit ".")
  | _ => None
  end.
(** [execpolicy_network_rule_amendment]: the rule that keeps a decision. *)
Record ExecPolicyNetworkRuleAmendment : Type := {
  rule_protocol : NetworkRuleProtocol; amended_decision : Decision; amendment_justification : str }.
Definition execpolicy_network_rule_amendment (a : NetworkPolicyAmendment) (c : NetworkApprovalContext) (host : str)
    : ExecPolicyNetworkRuleAmendment :=
  {| rule_protocol := match context_protocol c with
                      | ApprovalHttp => ExecPolicy.Http | ApprovalHttps => ExecPolicy.Https
                      | ApprovalSocks5Tcp => ExecPolicy.Socks5Tcp | ApprovalSocks5Udp => ExecPolicy.Socks5Udp
                      end;
     amended_decision := match amendment_action a with RuleAllow => Allow | RuleDeny => Forbidden end;
     amendment_justification :=
       match amendment_action a with RuleAllow => lit "Allow" | RuleDeny => lit "Deny" end ++ lit " "
       ++ match context_protocol c with
          | ApprovalHttp => lit "http" | ApprovalHttps => lit "https_connect"
          | ApprovalSocks5Tcp => lit "socks5_tcp" | ApprovalSocks5Udp => lit "socks5_udp"
          end ++ lit " access to " ++ host |}.

(** * The service *)

Section service.
Context `{!Notify}.

Record PendingHostApproval : Type := { pending_decision : option PendingApprovalDecision; pending_notify : notify_state }.
Definition pending_new : PendingHostApproval := {| pending_decision := None; pending_notify := notify_new |}.
(** The parts of [set_decision]. *)
Definition decide_pending (d : PendingApprovalDecision) (a : PendingHostApproval) : PendingHostApproval :=
  {| pending_decision := Some d; pending_notify := pending_notify a |}.
Definition notify_pending (a : PendingHostApproval) : PendingHostApproval :=
  {| pending_decision := pending_decision a; pending_notify := notify_waiters (pending_notify a) |}.

(** A call is its registration and the turn it belongs to; calls are kept in
    the order of their registration. A pending approval is an index into the
    heap below. *)
Record NetworkApprovalService : Type := {
  active_calls : list (str * str);
  call_outcomes : gmap str NetworkApprovalOutcome;
  pending_host_approvals : gmap HostApprovalKey nat;
  session_approved_hosts : gset HostApprovalKey;
  session_denied_hosts : gset HostApprovalKey }.
Definition service_new : NetworkApprovalService :=
  {| active_calls := []; call_outcomes := ∅; pending_host_approvals := ∅; session_approved_hosts := ∅; session_denied_hosts := ∅ |}.
Definition with_calls (l : list (str * str)) (o : gmap str NetworkApprovalOutcome) (s : NetworkApprovalService) : NetworkApprovalService :=
  {| active_calls := l; call_outcomes := o; pending_host_approvals := pending_host_approvals s;
     session_approved_hosts := session_approved_hosts s; session_denied_hosts := session_denied_hosts s |}.
Definition with_pending (m : gmap HostApprovalKey nat) (s : NetworkApprovalService) : NetworkApprovalService :=
  {| active_calls := active_calls s; call_outcomes := call_outcomes s; pending_host_approvals := m;
     session_approved_hosts := session_approved_hosts s; session_denied_hosts := session_denied_hosts s |}.
Definition with_hosts (approved denied : gset HostApprovalKey) (s : NetworkApprovalService) : NetworkApprovalService :=
  {| active_calls := active_calls s; call_outcomes := call_outcomes s; pending_host_approvals := pending_host_approvals s;
     session_approved_hosts := approved; session_denied_hosts := denied |}.

(** [IndexMap::insert] and [shift_remove]. *)
Fixpoint index_insert {A} (k : str) (v : A) (l : list (str * A)) : list (str * A) :=
  match l with
  | [] => [(k, v)]
  | (x, w) :: l' => if bool_decide (x = k) then (x, v) :: l' else (x, w) :: index_insert k v l'
  end.
Definition shift_remove {A} (k : str) (l : list (str * A)) : list (str * A) := filter (λ e, e.1 ≠ k) l.

Definition register_call (registration_id turn_id : str) (s : NetworkApprovalService) : NetworkApprovalService :=
  with_calls (index_insert registration_id turn_id (active_calls s)) (call_outcomes s) s.
Definition unregister_call (registration_id : str) (s : NetworkApprovalService) : NetworkApprovalService :=
  with_calls (shift_remove registration_id (active_calls s)) (delete registration_id (call_outcomes s)) s.
Definition resolve_single_active_call (s : NetworkApprovalService) : option (str * str) :=
  match active_calls s with [c] => Some c | _ => None end.
Definition take_call_outcome (registration_id : str) (s : NetworkApprovalService) : NetworkApprovalService * option NetworkApprovalOutcome :=
  (with_calls (active_calls s) (delete registration_id (call_outcomes s)) s, call_outcomes s !! registration_id).
Definition record_call_outcome (registration_id : str) (o : NetworkApprovalOutcome) (s : NetworkApprovalService) : NetworkApprovalService :=
  match call_outcomes s !! registration_id with
  | Some DeniedByUser => s
  | _ => with_calls (active_calls s) (<[registration_id := o]> (call_outcomes s)) s
  end.
Definition record_outcome_for_single_active_call (o : NetworkApprovalOutcome) (s : NetworkApprovalService) : NetworkApprovalService :=
  match resolve_single_active_call s with Some (id, _) => record_call_outcome id o s | None => s end.
Definition record_blocked_request (b : BlockedRequest) (s : NetworkApprovalService) : NetworkApprovalService :=
  match denied_network_policy_message b with
  | Some message => record_outcome_for_single_active_call (DeniedByPolicy message) s
  | None => s
  end.
(** What [sync_session_approved_hosts_to] leaves in the other session. *)
Definition sync_session_approved_hosts_to (self other : NetworkApprovalService) : NetworkApprovalService :=
  with_hosts (session_approved_hosts self) (session_denied_hosts other) other.

(** * A request, stage by stage *)

(** What a stage is about to do. [p] is the pending approval; [refused] is the
    message of a refusal without review. *)
Inductive stage : Type :=
| CheckDenied | CheckApproved | GetPending
| Listen (p : nat) | Look (p ticket : nat) | Parked (p ticket : nat)
| FindTurn (p : nat) | FindCall (p : nat) (guardian : bool) | Ask (p : nat) (guardian : bool) (owner_call : option (str * str))
| RecordOwner (p : nat) (resolved : PendingApprovalDecision) (cache_session_deny : bool) (id : str) (o : NetworkApprovalOutcome)
| UncacheDenied (p : nat) | CacheApproved (p : nat) | UncacheApproved (p : nat) | CacheDenied (p : nat)
| SetDecision (p : nat) (d : PendingApprovalDecision) (refused : option str)
| NotifyWaiters (p : nat) (d : PendingApprovalDecision) (refused : option str)
| RemovePending (p : nat) (d : PendingApprovalDecision) (refused : option str)
| ResolveCall (message : str) | RecordRefusal (id message : str)
| Finished (d : NetworkDecision)
| Dropped.

Definition policy_denial_message (r : NetworkPolicyRequest) : str :=
  let key := request_key r in
  lit "Network access to " ++ [34%N] ++ key_protocol key ++ lit "://" ++ request_host r ++ lit ":" ++ show_N (key_port key)
    ++ [34%N] ++ lit " was blocked by policy.".
Definition GUARDIAN_REJECTION_MESSAGE : str :=
  lit "This action was rejected due to unacceptable risk. The agent must not attempt to achieve the same outcome via workaround, indirect execution, or policy circumvention. Proceed only with a materially safer alternative, or if the user explicitly approves the action after being informed of the risk. Otherwise, stop and request user input.".

(** What follows a review: the outcome for the call that was active, and the
    session's caches. *)
Definition after_record (p : nat) (resolved : PendingApprovalDecision) (cache_session_deny : bool) : stage :=
  match resolved with
  | AllowForSession => UncacheDenied p
  | _ => if cache_session_deny then UncacheApproved p else SetDecision p resolved None
  end.
Definition review_result (decision : ReviewDecision) (guardian : bool)
    : PendingApprovalDecision * bool * option NetworkApprovalOutcome :=
  match decision with
  | Approved | ApprovedExecpolicyAmendment _ => (AllowOnce, false, None)
  | ApprovedForSession => (AllowForSession, false, None)
  | NetworkAmendment a =>
      match amendment_action a with
      | RuleAllow => (AllowForSession, false, None)
      | RuleDeny => (PendingDeny, true, Some DeniedByUser)
      end
  | Denied | Abort => (PendingDeny, false, Some (if guardian then DeniedByPolicy GUARDIAN_REJECTION_MESSAGE else DeniedByUser))
  end.
Definition reviewed (p : nat) (guardian : bool) (owner_call : option (str * str)) (decision : ReviewDecision) : stage :=
  let '(resolved, cache_session_deny, outcome) := review_result decision guardian in
  match outcome, owner_call with
  | Some o, Some (id, _) => RecordOwner p resolved cache_session_deny id o
  | _, _ => after_record p resolved cache_session_deny
  end.

(** Every pending approval, with the key it was created for. *)
Abbreviation heap_of := (list (HostApprovalKey * PendingHostApproval)).
Definition heap_update (p : nat) (f : PendingHostApproval → PendingHostApproval) (h : heap_of) : heap_of :=
  alter (λ e, (e.1, f e.2)) p h.

(** One stage of [handle_inline_policy_request], given the active turn (its
    approval policy and whether the guardian reviews); [None] while it waits. *)
Definition advance (active_turn : option (AskForApproval * bool)) (r : NetworkPolicyRequest) (st : stage)
    (s : NetworkApprovalService) (h : heap_of) : option (stage * NetworkApprovalService * heap_of) :=
  let key := request_key r in
  match st with
  | CheckDenied => Some (if bool_decide (key ∈ session_denied_hosts s) then Finished (deny_request REASON_NOT_ALLOWED) else CheckApproved, s, h)
  | CheckApproved => Some (if bool_decide (key ∈ session_approved_hosts s) then Finished AllowRequest else GetPending, s, h)
  | GetPending =>
      match pending_host_approvals s !! key with
      | Some existing => Some (Listen existing, s, h)
      | None =>
          let created := length h in
          Some (FindTurn created, with_pending (<[key := created]> (pending_host_approvals s)) s, h ++ [(key, pending_new)])
      end
  | Listen p => (λ e, (Look p (notifications (pending_notify e.2)), s, h)) <$> h !! p
  | Look p ticket =>
      (λ e, (match pending_decision e.2 with Some d => Finished (to_network_decision d) | None => Parked p ticket end, s, h)) <$> h !! p
  | Parked p ticket =>
      match h !! p with
      | Some e => if ticket <? notifications (pending_notify e.2) then Some (Listen p, s, h) else None
      | None => None
      end
  | FindTurn p =>
      Some (match active_turn with
            | Some (policy, guardian) =>
                if allows_network_approval_flow policy then FindCall p guardian
                else SetDecision p PendingDeny (Some (policy_denial_message r))
            | None => SetDecision p PendingDeny (Some (policy_denial_message r))
            end, s, h)
  | FindCall p guardian => Some (Ask p guardian (resolve_single_active_call s), s, h)
  | Ask _ _ _ => None
  | RecordOwner p resolved cache id o => Some (after_record p resolved cache, record_call_outcome id o s, h)
  | UncacheDenied p => Some (CacheApproved p, with_hosts (session_approved_hosts s) (session_denied_hosts s ∖ {[key]}) s, h)
  | CacheApproved p => Some (SetDecision p AllowForSession None, with_hosts ({[key]} ∪ session_approved_hosts s) (session_denied_hosts s) s, h)
  | UncacheApproved p => Some (CacheDenied p, with_hosts (session_approved_hosts s ∖ {[key]}) (session_denied_hosts s) s, h)
  | CacheDenied p => Some (SetDecision p PendingDeny None, with_hosts (session_approved_hosts s) ({[key]} ∪ session_denied_hosts s) s, h)
  | SetDecision p d refused => Some (NotifyWaiters p d refused, s, heap_update p (decide_pending d) h)
  | NotifyWaiters p d refused => Some (RemovePending p d refused, s, heap_update p notify_pending h)
  | RemovePending p d refused =>
      Some (match refused with Some message => ResolveCall message | None => Finished (to_network_decision d) end,
            with_pending (delete key (pending_host_approvals s)) s, h)
  | ResolveCall message =>
      Some (match resolve_single_active_call s with
            | Some (id, _) => RecordRefusal id message
            | None => Finished (deny_request REASON_NOT_ALLOWED)
            end, s, h)
  | RecordRefusal id message => Some (Finished (deny_request REASON_NOT_ALLOWED), record_call_outcome id (DeniedByPolicy message) s, h)
  | Finished _ | Dropped => None
  end.

(** * Interleavings *)

(** The service, its pending approvals, the requests being handled, and the
    hosts some review (of this session, or of the one it took its approvals
    from) has allowed. *)
Record world : Type := {
  service : NetworkApprovalService; heap : heap_of; tasks : list (NetworkPolicyRequest * stage); granted : gset HostApprovalKey }.
Definition approves (d : ReviewDecision) : bool :=
  match d with
  | Approved | ApprovedExecpolicyAmendment _ | ApprovedForSession => true
  | NetworkAmendment a => bool_decide (amendment_action a = RuleAllow)
  | Denied | Abort => false
  end.
Definition droppable (st : stage) : bool := match st with Finished _ | Dropped | NotifyWaiters _ _ _ => false | _ => true end.
Definition set_stage (i : nat) (r : NetworkPolicyRequest) (st : stage) (s : NetworkApprovalService) (h : heap_of) (w : world) : world :=
  {| service := s; heap := h; tasks := <[i := (r, st)]> (tasks w); granted := granted w |}.
Definition with_service (s : NetworkApprovalService) (w : world) : world :=
  {| service := s; heap := heap w; tasks := tasks w; granted := granted w |}.

(** The future that handles a request can be dropped wherever it awaits, which
    is everywhere but between a decision and its notification. *)
Inductive step : world → world → Prop :=
| step_arrive w r : step w {| service := service w; heap := heap w; tasks := tasks w ++ [(r, CheckDenied)]; granted := granted w |}
| step_advance w i r st active_turn st' s' h' :
    tasks w !! i = Some (r, st) → advance active_turn r st (service w) (heap w) = Some (st', s', h') →
    step w (set_stage i r st' s' h' w)
| step_answer w i r p guardian owner_call decision :
    tasks w !! i = Some (r, Ask p guardian owner_call) →
    step w {| service := service w; heap := heap w; tasks := <[i := (r, reviewed p guardian owner_call decision)]> (tasks w);
              granted := if approves decision then {[request_key r]} ∪ granted w else granted w |}
| step_drop w i r st : tasks w !! i = Some (r, st) → droppable st = true → step w (set_stage i r Dropped (service w) (heap w) w)
| step_register w id turn : step w (with_service (register_call id turn (service w)) w)
| step_unregister w id : step w (with_service (unregister_call id (service w)) w)
| step_take w id : step w (with_service (take_call_outcome id (service w)).1 w)
| step_blocked w b : step w (with_service (record_blocked_request b (service w)) w)
| step_sync w other : step w {| service := sync_session_approved_hosts_to other (service w); heap := heap w; tasks := tasks w;
                                granted := session_approved_hosts other ∪ granted w |}.
Definition initial : world := {| service := service_new; heap := []; tasks := []; granted := ∅ |}.

(** An interleaving as a list of actions. *)
Inductive action : Type :=
| Arrive (r : NetworkPolicyRequest) | Advance (i : nat) (active_turn : option (AskForApproval * bool))
| Answer (i : nat) (decision : ReviewDecision) | Drop (i : nat).
Definition perform (x : action) (w : world) : option world :=
  match x with
  | Arrive r => Some {| service := service w; heap := heap w; tasks := tasks w ++ [(r, CheckDenied)]; granted := granted w |}
  | Advance i turn =>
      '(r, st) ← tasks w !! i;
      '(st', s', h') ← advance turn r st (service w) (heap w);
      Some (set_stage i r st' s' h' w)
  | Answer i decision =>
      '(r, st) ← tasks w !! i;
      match st with
      | Ask p guardian owner_call =>
          Some {| service := service w; heap := heap w; tasks := <[i := (r, reviewed p guardian owner_call decision)]> (tasks w);
                  granted := if approves decision then {[request_key r]} ∪ granted w else granted w |}
      | _ => None
      end
  | Drop i => '(r, st) ← tasks w !! i; if droppable st then Some (set_stage i r Dropped (service w) (heap w) w) else None
  end.
Definition perform_all (l : list action) (w : world) : option world := foldl (λ o x, o ≫= perform x) (Some w) l.

(** * Lemmas *)

Lemma perform_step x w w' : perform x w = Some w' → step w w'.
Proof.
  destruct x as [r|i turn|i d|i]; cbn.
  - intros [= <-]. constructor.
  - intros ([r st] & Hi & ([[st' s'] h'] & Ha & [= <-])%bind_Some)%bind_Some. by eapply step_advance.
  - intros ([r st] & Hi & Hst)%bind_Some. destruct st; simplify_eq. by apply step_answer.
  - intros ([r st] & Hi & Hst)%bind_Some. case_match; simplify_eq. by apply step_drop with st.
Qed.
Lemma perform_all_run l w w' : perform_all l w = Some w' → rtc step w w'.
Proof.
  unfold perform_all. revert w'. induction l as [|x l IH] using rev_ind; intros w'; [intros [= <-]; apply rtc_refl|].
  rewrite foldl_app. cbn. intros (w1 & Hw1 & Hx)%bind_Some. eapply rtc_r; [by apply IH|by apply (perform_step x)].
Qed.

(** The pending approval a stage must decide, and the one it waits for. *)
Definition owns (st : stage) : option nat :=
  match st with
  | FindTurn p | FindCall p _ | Ask p _ _ | RecordOwner p _ _ _ _ | UncacheDenied p | CacheApproved p | UncacheApproved p | CacheDenied p
  | SetDecision p _ _ | NotifyWaiters p _ _ | RemovePending p _ _ => Some p
  | _ => None
  end.
Definition waits (st : stage) : option nat := match st with Listen p | Look p _ | Parked p _ => Some p | _ => None end.
Definition allows (d : PendingApprovalDecision) : bool := match d with PendingDeny => false | _ => true end.
Definition grants (st : stage) : bool :=
  match st with
  | UncacheDenied _ | CacheApproved _ | Finished AllowRequest => true
  | RecordOwner _ d _ _ _ | SetDecision _ d _ | NotifyWaiters _ d _ | RemovePending _ d _ => allows d
  | _ => false
  end.
(** A task that is about to wake the waiters of [p]. *)
Definition notifies (p : nat) (e : NetworkPolicyRequest * stage) : Prop := ∃ d m, e.2 = NotifyWaiters p d m.
(** A waiter that has a ticket has one that is not newer than the count; unless a
    notification is due, a decision has made it older. *)
Definition ticket_ok (ts : list (NetworkPolicyRequest * stage)) (p : nat) (a : PendingHostApproval) (st : stage) : Prop :=
  match st with
  | Look _ t => t ≤ notifications (pending_notify a)
  | Parked _ t =>
      t ≤ notifications (pending_notify a)
      ∧ (t = notifications (pending_notify a) → pending_decision a ≠ None → ∃ j e, ts !! j = Some e ∧ notifies p e)
  | _ => True
  end.
Definition task_ok (w : world) (r : NetworkPolicyRequest) (st : stage) : Prop :=
  (∀ p, owns st = Some p → pending_host_approvals (service w) !! request_key r = Some p)
  ∧ (∀ p, waits st = Some p → ∃ a, heap w !! p = Some (request_key r, a) ∧ ticket_ok (tasks w) p a st)
  ∧ (grants st = true → request_key r ∈ granted w).
Record world_ok (w : world) : Prop := {
  ok_tasks i r st : tasks w !! i = Some (r, st) → task_ok w r st;
  ok_owners i j r r' st st' : i ≠ j → tasks w !! i = Some (r, st) → tasks w !! j = Some (r', st') →
    owns st ≠ None → owns st' ≠ None → request_key r ≠ request_key r';
  ok_pending k p : pending_host_approvals (service w) !! k = Some p → ∃ a, heap w !! p = Some (k, a);
  ok_approved : session_approved_hosts (service w) ⊆ granted w;
  ok_decided p k a d : heap w !! p = Some (k, a) → pending_decision a = Some d → allows d = true → k ∈ granted w }.

Lemma initial_ok : world_ok initial.
Proof. split; cbn; set_solver. Qed.

(** What one task's stage does to the others: the pending entry of its own key
    at most, decisions and notifications of the approval it owns at most. *)
Definition heap_grows (r : NetworkPolicyRequest) (st st' : stage) (h h' : heap_of) : Prop :=
  ∀ p k a, h !! p = Some (k, a) → ∃ a', h' !! p = Some (k, a') ∧
    (a' = a ∧ ¬ notifies p (r, st)
     ∨ notifications (pending_notify a) ≤ notifications (pending_notify a') ∧ notifies p (r, st')
     ∨ notifications (pending_notify a) < notifications (pending_notify a')).
Record stage_effect (w : world) (i : nat) (r : NetworkPolicyRequest) (st st' : stage) (s' : NetworkApprovalService) (h' : heap_of)
    (g' : gset HostApprovalKey) : Prop := {
  eff_others k : k ≠ request_key r → pending_host_approvals s' !! k = pending_host_approvals (service w) !! k;
  eff_own : pending_host_approvals s' !! request_key r = pending_host_approvals (service w) !! request_key r
            ∨ owns st ≠ None ∨ pending_host_approvals (service w) !! request_key r = None;
  eff_new_owner : owns st' ≠ None → owns st ≠ None ∨ pending_host_approvals (service w) !! request_key r = None;
  eff_owns p : owns st' = Some p → pending_host_approvals s' !! request_key r = Some p;
  eff_pending p : pending_host_approvals s' !! request_key r = Some p → ∃ a, h' !! p = Some (request_key r, a);
  eff_heap : heap_grows r st st' (heap w) h';
  eff_waits p : waits st' = Some p → ∃ a, h' !! p = Some (request_key r, a) ∧ ticket_ok (<[i := (r, st')]> (tasks w)) p a st';
  eff_granted : granted w ⊆ g';
  eff_grants : grants st' = true → request_key r ∈ g';
  eff_approved : session_approved_hosts s' ⊆ g';
  eff_decided p k a d : h' !! p = Some (k, a) → pending_decision a = Some d → allows d = true → k ∈ g' }.

Lemma ticket_ok_grows w i r st st' h' p a a' st2 :
  tasks w !! i = Some (r, st) →
  (a' = a ∧ ¬ notifies p (r, st)
   ∨ notifications (pending_notify a) ≤ notifications (pending_notify a') ∧ notifies p (r, st')
   ∨ notifications (pending_notify a) < notifications (pending_notify a')) →
  heap_grows r st st' (heap w) h' → ticket_ok (tasks w) p a st2 → ticket_ok (<[i := (r, st')]> (tasks w)) p a' st2.
Proof.
  intros Hi Ha _ Ht. destruct st2; try done; cbn in *.
  - destruct Ha as [[-> _]|[[? _]|?]]; lia.
  - destruct Ht as [Hle Hn]. destruct Ha as [[-> Hno]|[[? Hy]|?]]; [|split; [lia|]|split; [lia|intros ->; lia]].
    + split; [done|]. intros Heq Hd. destruct (Hn Heq Hd) as (j & e & Hj & He).
      exists j, e. split; [|done]. rewrite list_lookup_insert_ne; [done|]. intros ->. rewrite Hi in Hj. by injection Hj as <-.
    + intros _ _. exists i, (r, st'). split; [|done]. apply list_lookup_insert_eq. by eapply lookup_lt_Some.
Qed.
Lemma stage_effect_ok w i r st st' s' h' g' :
  world_ok w → tasks w !! i = Some (r, st) → stage_effect w i r st st' s' h' g' →
  world_ok {| service := s'; heap := h'; tasks := <[i := (r, st')]> (tasks w); granted := g' |}.
Proof.
  intros [Ht Ho Hp Ha Hd] Hi [E1 E2 E3 E4 E5 E6 E7 E8 E9 E10 E11].
  assert (Hother : ∀ j r2 st2, j ≠ i → tasks w !! j = Some (r2, st2) → owns st2 ≠ None →
    request_key r2 ≠ request_key r ∨ pending_host_approvals s' !! request_key r = pending_host_approvals (service w) !! request_key r).
  { intros j r2 st2 Hne Hj Hown. destruct E2 as [E2|[E2|E2]]; [by right|left; by eapply (Ho j i)|].
    left. intros Hk. destruct (owns st2) as [q|] eqn:Eq; [|done]. destruct (Ht _ _ _ Hj) as (Hq & _).
    rewrite Hk in Hq. specialize (Hq q Eq). congruence. }
  split; cbn [service heap tasks granted].
  - intros j r2 st2 Hj. destruct (decide (j = i)) as [->|Hne].
    + rewrite list_lookup_insert_eq in Hj by by eapply lookup_lt_Some. injection Hj as <- <-. split_and!; [done|done|done].
    + rewrite list_lookup_insert_ne in Hj by done. destruct (Ht _ _ _ Hj) as (H1 & H2 & H3). split_and!; cbn.
      * intros p Hq. specialize (H1 p Hq). destruct (decide (request_key r2 = request_key r)) as [Hk|Hk]; [|by rewrite E1].
        destruct (Hother _ _ _ Hne Hj) as [|Hsame]; [by rewrite Hq|done|]. by rewrite Hk, Hsame, <-Hk.
      * intros p Hq. destruct (H2 p Hq) as (a & Hpa & Htk). destruct (E6 _ _ _ Hpa) as (a' & Hpa' & Hgr).
        exists a'. split; [done|]. by eapply ticket_ok_grows.
      * intros Hg. by apply E8, H3.
  - intros j1 j2 r1 r2 st1 st2 Hne H1 H2 O1 O2.
    assert (Hsym : ∀ j r2 st2, j ≠ i → tasks w !! j = Some (r2, st2) → owns st2 ≠ None → owns st' ≠ None → request_key r2 ≠ request_key r).
    { intros j r3 st3 Hj H3 O3 O4. destruct (E3 O4) as [O5|Hnone]; [by eapply (Ho j i)|].
      intros Hk. destruct (owns st3) as [q|] eqn:Eq; [|done]. destruct (Ht _ _ _ H3) as (Hq & _). rewrite Hk in Hq.
      specialize (Hq q Eq). congruence. }
    assert (Hl : i < length (tasks w)) by by eapply lookup_lt_Some.
    destruct (decide (j1 = i)) as [->|N1], (decide (j2 = i)) as [->|N2]; try done;
      rewrite ?list_lookup_insert_eq in H1 by done; rewrite ?list_lookup_insert_eq in H2 by done;
      rewrite ?list_lookup_insert_ne in H1 by done; rewrite ?list_lookup_insert_ne in H2 by done; simplify_eq.
    + intros Hk. by apply (Hsym _ _ _ N2 H2 O2 O1).
    + by apply (Hsym _ _ _ N1 H1 O1 O2).
    + by apply (Ho _ _ _ _ _ _ Hne H1 H2 O1 O2).
  - intros k p Hk. destruct (decide (k = request_key r)) as [->|Hne]; [by apply E5|].
    rewrite E1 in Hk by done. destruct (Hp _ _ Hk) as (a & Hpa). destruct (E6 _ _ _ Hpa) as (a' & Hpa' & _). by exists a'.
  - done.
  - done.
Qed.

Lemma heap_update_lookup p f (h : heap_of) q : heap_update p f h !! q = if decide (q = p) then (λ e, (e.1, f e.2)) <$> h !! q else h !! q.
Proof. unfold heap_update. case_decide as Hq; [subst; by rewrite list_lookup_alter_eq|by rewrite list_lookup_alter_ne]. Qed.
(** A stage that leaves the heap and the pending entries alone. *)
Lemma quiet_effect w i r st st' s' g' :
  world_ok w → tasks w !! i = Some (r, st) → (∀ p, ¬ notifies p (r, st)) →
  pending_host_approvals s' = pending_host_approvals (service w) → session_approved_hosts s' ⊆ g' → granted w ⊆ g' →
  (owns st' = owns st ∨ owns st' = None) → (grants st' = true → request_key r ∈ g') →
  (∀ p, waits st' = Some p → ∃ a, heap w !! p = Some (request_key r, a) ∧ ticket_ok (<[i := (r, st')]> (tasks w)) p a st') →
  stage_effect w i r st st' s' (heap w) g'.
Proof.
  intros Hok Hi Hn Hp Ha Hg Hown Hgr Hw. destruct (ok_tasks _ Hok _ _ _ Hi) as (T1 & T2 & T3). split; rewrite ?Hp; try done.
  - by left.
  - intros Ho. left. by destruct Hown as [<-|E].
  - intros p Ho. apply T1. destruct Hown as [<-|E]; congruence.
  - intros p Hk. by apply (ok_pending _ Hok).
  - intros p k a Hh. exists a. split; [done|]. left. by split.
  - intros p k a d Hh H1 H2. by apply Hg, (ok_decided _ Hok p k a d).
Qed.
Lemma create_effect w i r :
  world_ok w → tasks w !! i = Some (r, GetPending) → pending_host_approvals (service w) !! request_key r = None →
  stage_effect w i r GetPending (FindTurn (length (heap w)))
    (with_pending (<[request_key r := length (heap w)]> (pending_host_approvals (service w))) (service w))
    (heap w ++ [(request_key r, pending_new)]) (granted w).
Proof.
  intros Hok Hi Hnone. split; cbn.
  - intros k Hk. by rewrite lookup_insert_ne.
  - by right; right.
  - by right.
  - intros p [= <-]. by rewrite lookup_insert_eq.
  - intros p Hp. rewrite lookup_insert_eq in Hp. injection Hp as <-. exists pending_new. by rewrite list_lookup_middle.
  - intros p k a Hp. exists a. split; [by apply lookup_app_l_Some|]. left. split; [done|]. by intros (d & m & ?).
  - done.
  - done.
  - done.
  - apply (ok_approved _ Hok).
  - intros p k a d Hp Hd Hal. apply lookup_app_Some in Hp as [Hp|[_ Hp]]; [by apply (ok_decided _ Hok p k a d)|].
    apply list_lookup_singleton_Some in Hp as [_ [= <- <-]]. done.
Qed.
(** A stage that changes the approval it owns. *)
Lemma owned_effect w i r st st' p f :
  world_ok w → tasks w !! i = Some (r, st) → owns st = Some p → owns st' = Some p → grants st' = grants st →
  (∀ a, notifications (pending_notify a) ≤ notifications (pending_notify (f a)) ∧ notifies p (r, st')
        ∨ notifications (pending_notify a) < notifications (pending_notify (f a))) →
  (∀ q, q ≠ p → ¬ notifies q (r, st)) →
  (∀ a d, pending_decision (f a) = Some d → allows d = true → pending_decision a = Some d ∨ grants st = true) →
  stage_effect w i r st st' (service w) (heap_update p f (heap w)) (granted w).
Proof.
  intros Hok Hi O1 O2 Hg Hf Hq Hd. destruct (ok_tasks _ Hok _ _ _ Hi) as (T1 & T2 & T3). split; try done.
  - by left.
  - left. by rewrite O1.
  - intros q Ho. apply T1. congruence.
  - intros q Hk. destruct (ok_pending _ Hok _ _ Hk) as (a & Ha). rewrite heap_update_lookup, Ha. case_decide; eauto.
  - intros q k a Ha. rewrite heap_update_lookup, Ha. case_decide as E; [|by exists a; split; [|left; split; [|by apply Hq]]].
    subst. exists (f a). split; [done|]. by right.
  - intros q Hw. destruct st'; done.
  - rewrite Hg. apply T3.
  - apply (ok_approved _ Hok).
  - intros q k a d Hh H1 H2. rewrite heap_update_lookup in Hh. case_decide as E; [|by apply (ok_decided _ Hok q k a d)].
    subst. apply fmap_Some in Hh as ([k' a'] & Hh & [= -> ->]). cbn in H1. destruct (Hd _ _ H1 H2) as [H3|H3].
    + by apply (ok_decided _ Hok p k' a' d).
    + destruct (ok_pending _ Hok _ _ (T1 _ O1)) as (a2 & Ha2). rewrite Hh in Ha2. injection Ha2 as -> _. by apply T3.
Qed.
Lemma remove_effect w i r p d refused st' :
  world_ok w → tasks w !! i = Some (r, RemovePending p d refused) → owns st' = None → waits st' = None →
  (grants st' = true → allows d = true) →
  stage_effect w i r (RemovePending p d refused) st'
    (with_pending (delete (request_key r) (pending_host_approvals (service w))) (service w)) (heap w) (granted w).
Proof.
  intros Hok Hi Ho Hw Hg. destruct (ok_tasks _ Hok _ _ _ Hi) as (_ & _ & T3). split; cbn; try done; try (intros; congruence).
  - intros k Hk. by rewrite lookup_delete_ne.
  - by right; left.
  - intros q Hq. by rewrite lookup_delete_eq in Hq.
  - intros q k a Ha. exists a. split; [done|]. left. split; [done|]. by intros (? & ? & ?).
  - intros Hgr. apply T3. cbn. by apply Hg.
  - apply (ok_approved _ Hok).
  - apply (ok_decided _ Hok).
Qed.

Lemma record_call_pending id o s : pending_host_approvals (record_call_outcome id o s) = pending_host_approvals s
  ∧ session_approved_hosts (record_call_outcome id o s) = session_approved_hosts s.
Proof. unfold record_call_outcome. by destruct (call_outcomes s !! id) as [[]|]. Qed.
Lemma after_record_owns p d c : owns (after_record p d c) = Some p ∧ waits (after_record p d c) = None
  ∧ (grants (after_record p d c) = true → allows d = true).
Proof. by destruct d, c. Qed.
Lemma quiet_owned w i r st st' s' g' p :
  world_ok w → tasks w !! i = Some (r, st) → (∀ p, ¬ notifies p (r, st)) →
  pending_host_approvals s' = pending_host_approvals (service w) → session_approved_hosts s' ⊆ g' → granted w ⊆ g' →
  owns st = Some p → owns st' = Some p → (grants st' = true → request_key r ∈ g') →
  stage_effect w i r st st' s' (heap w) g'.
Proof.
  intros Hok Hi Hn Hp Ha Hg H1 H2 H3. apply quiet_effect; try done; [left; congruence|]. intros q Hw. by destruct st'.
Qed.
Lemma not_notifying r st : match st with NotifyWaiters _ _ _ => False | _ => True end → ∀ p, ¬ notifies p (r, st).
Proof. intros Hst p (d & m & E). cbn in E. by subst. Qed.

Lemma advance_effect w i r st turn st' s' h' :
  world_ok w → tasks w !! i = Some (r, st) → advance turn r st (service w) (heap w) = Some (st', s', h') →
  stage_effect w i r st st' s' h' (granted w).
Proof.
  intros Hok Hi Hadv. pose proof (ok_approved _ Hok) as Ha. destruct (ok_tasks _ Hok _ _ _ Hi) as (T1 & T2 & T3).
  destruct st; cbn [advance] in Hadv; simplify_eq; cbn [owns waits grants] in *.
  - apply quiet_effect; try done; [by apply not_notifying|case_match; by right|by case_match|by case_match].
  - apply quiet_effect; try done; [by apply not_notifying|case_match; by right| |by case_match].
    case_bool_decide; [|done]. intros _. by apply Ha.
  - destruct (pending_host_approvals (service w) !! request_key r) as [p|] eqn:Ep; simplify_eq; [|by apply create_effect].
    apply quiet_effect; try done; [by apply not_notifying|by right|]. intros q [= <-].
    destruct (ok_pending _ Hok _ _ Ep) as (a & Hpa). by exists a.
  - destruct (T2 _ eq_refl) as (a & Hpa & _). rewrite Hpa in Hadv. cbn in Hadv. simplify_eq.
    apply quiet_effect; try done; [by apply not_notifying|by right|]. intros q [= <-]. exists a. split; [done|cbn; lia].
  - destruct (T2 _ eq_refl) as (a & Hpa & Htk). rewrite Hpa in Hadv. cbn in Hadv, Htk. simplify_eq.
    destruct (pending_decision a) as [d|] eqn:Ed; (apply quiet_effect; try done; [by apply not_notifying|by right|..]).
    + cbn. intros Hg. apply (ok_decided _ Hok _ _ _ d Hpa Ed). by destruct d.
    + intros q [= <-]. exists a. split; [done|]. split; [done|]. by rewrite Ed.
  - destruct (T2 _ eq_refl) as (a & Hpa & _). rewrite Hpa in Hadv. case_match; simplify_eq.
    apply quiet_effect; try done; [by apply not_notifying|by right|]. intros q [= <-]. by exists a.
  - eapply quiet_owned; try done; [by apply not_notifying|by destruct turn as [[pol g]|]; try case_match..].
  - by eapply quiet_owned; try done; apply not_notifying.
  - destruct (record_call_pending id o (service w)) as [Hp Hs]. destruct (after_record_owns p resolved cache_session_deny) as (O1 & O2 & O3).
    eapply quiet_owned; try done; [by apply not_notifying|by rewrite Hs|]. intros Hg. by apply T3, O3.
  - eapply quiet_owned; try done; by apply not_notifying.
  - eapply quiet_owned; try done; [by apply not_notifying|cbn; specialize (T3 eq_refl); set_solver].
  - eapply quiet_owned; try done; [by apply not_notifying|cbn; set_solver].
  - by eapply quiet_owned; try done; apply not_notifying.
  - eapply owned_effect; try done.
    + intros a. left. split; [done|]. by exists d, refused.
    + intros q _. by apply not_notifying.
    + intros a d' [= <-] Hal. by right.
  - eapply owned_effect; try done.
    + intros a. right. cbn. rewrite notify_waiters_spec. lia.
    + intros q Hq (d' & m & [= ? _ _]). congruence.
    + intros a d' Hd' _. by left.
  - apply remove_effect; [done..|by case_match|by case_match|]. by destruct refused, d.
  - apply quiet_effect; try done; [by apply not_notifying|right; by destruct (resolve_single_active_call (service w)) as [[]|]|
      by destruct (resolve_single_active_call (service w)) as [[]|]..].
  - destruct (record_call_pending id (DeniedByPolicy message) (service w)) as [Hp Hs].
    apply quiet_effect; try done; [by apply not_notifying|by rewrite Hs|by right].
Qed.

Lemma world_ok_service w s' g' :
  world_ok w → pending_host_approvals s' = pending_host_approvals (service w) → session_approved_hosts s' ⊆ g' → granted w ⊆ g' →
  world_ok {| service := s'; heap := heap w; tasks := tasks w; granted := g' |}.
Proof.
  intros [Ht Ho Hp Ha Hd] Hs Hsa Hg. split; cbn; rewrite ?Hs; try done.
  - intros i r st Hi. destruct (Ht _ _ _ Hi) as (T1 & T2 & T3). split_and!; cbn; rewrite ?Hs; [done|done|]. intros Hgr. by apply Hg, T3.
  - intros p k a d H1 H2 H3. by apply Hg, (Hd p k a d).
Qed.
Lemma calls_pending s : (∀ id turn, pending_host_approvals (register_call id turn s) = pending_host_approvals s)
  ∧ ∀ b, pending_host_approvals (record_blocked_request b s) = pending_host_approvals s
       ∧ session_approved_hosts (record_blocked_request b s) = session_approved_hosts s.
Proof.
  split; [done|]. intros b. unfold record_blocked_request, record_outcome_for_single_active_call.
  destruct (denied_network_policy_message b); [|done]. destruct (resolve_single_active_call s) as [[]|]; [|done]. apply record_call_pending.
Qed.
Lemma reviewed_effect w i r p g owner d :
  world_ok w → tasks w !! i = Some (r, Ask p g owner) →
  stage_effect w i r (Ask p g owner) (reviewed p g owner d) (service w) (heap w)
    (if approves d then {[request_key r]} ∪ granted w else granted w).
Proof.
  intros Hok Hi. pose proof (ok_approved _ Hok) as Ha.
  assert (Hr : owns (reviewed p g owner d) = Some p ∧ (grants (reviewed p g owner d) = true → approves d = true)).
  { unfold reviewed, review_result. destruct d as [| | |a| |], owner as [[id t]|]; cbn; try done.
    all: destruct (amendment_action a) eqn:E; cbn; by rewrite ?E. }
  destruct Hr as [O1 O2]. eapply quiet_owned; try done; [by apply not_notifying|case_match; set_solver..|].
  intros Hg. rewrite (O2 Hg). set_solver.
Qed.
Lemma world_ok_step w w' : world_ok w → step w w' → world_ok w'.
Proof.
  intros Hok Hs. pose proof (ok_approved _ Hok) as Ha. destruct Hs.
  - destruct Hok as [Ht Ho Hp _ Hd]. split; cbn; try done.
    + intros i r' st Hi. apply lookup_app_Some in Hi as [Hi|[_ Hi]].
      * destruct (Ht _ _ _ Hi) as (T1 & T2 & T3). split_and!; try done. intros p Hw. destruct (T2 p Hw) as (a & Hpa & Htk).
        exists a. split; [done|]. destruct st; try done. destruct Htk as [Hle Hn]. split; [done|]. intros H1 H2.
        destruct (Hn H1 H2) as (j & e & Hj & He). exists j, e. split; [|done]. by apply lookup_app_l_Some.
      * apply list_lookup_singleton_Some in Hi as [_ [= <- <-]]. done.
    + intros i j r1 r2 st1 st2 Hne H1 H2 O1 O2.
      apply lookup_app_Some in H1 as [H1|[_ H1]]; [|apply list_lookup_singleton_Some in H1 as [_ [= <- <-]]; done].
      apply lookup_app_Some in H2 as [H2|[_ H2]]; [|apply list_lookup_singleton_Some in H2 as [_ [= <- <-]]; done].
      by apply (Ho i j r1 r2 st1 st2).
  - eapply (stage_effect_ok w); [done..|]. by eapply advance_effect.
  - eapply (stage_effect_ok w); [done..|]. by apply reviewed_effect.
  - eapply (stage_effect_ok w); [done..|]. apply quiet_effect; try done; [|by right]. apply not_notifying. by destruct st.
  - by apply world_ok_service.
  - by apply world_ok_service.
  - by apply world_ok_service.
  - destruct (calls_pending (service w)) as [_ Hb]. destruct (Hb b) as [H1 H2]. apply world_ok_service; [done|done|by rewrite H2|done].
  - apply world_ok_service; [done|done|cbn; set_solver|set_solver].
Qed.
Lemma world_ok_run w w' : world_ok w → rtc step w w' → world_ok w'.
Proof. intros Hok. induction 1; [done|]. eauto using world_ok_step. Qed.

(** ** Owners and their waiters *)

Definition settled (h : heap_of) (p : nat) : Prop := ∃ e, h !! p = Some e ∧ pending_decision e.2 ≠ None.
Definition undecided (h : heap_of) (p : nat) : Prop := ∃ e, h !! p = Some e ∧ pending_decision e.2 = None.
Definition some_dropped (w : world) : Prop := ∃ j r, tasks w !! j = Some (r, Dropped).
(** The approval a stage has already decided. *)
Definition decided_by (st : stage) : option nat :=
  match st with NotifyWaiters p _ _ | RemovePending p _ _ => Some p | _ => None end.
(** An undecided approval has an owner, unless an owner was dropped; an owner
    that is past its decision has made it. *)
Record world_live (w : world) : Prop := {
  live_owner p : undecided (heap w) p → (∃ j r st, tasks w !! j = Some (r, st) ∧ owns st = Some p) ∨ some_dropped w;
  live_decided i r st p : tasks w !! i = Some (r, st) → decided_by st = Some p → settled (heap w) p }.
Record live_effect (w : world) (st st' : stage) (h' : heap_of) : Prop := {
  le_owns p : owns st = Some p → owns st' = Some p ∨ st' = Dropped ∨ settled h' p;
  le_undecided p : undecided h' p → undecided (heap w) p ∨ owns st' = Some p;
  le_settled p : settled (heap w) p → settled h' p;
  le_decided p : decided_by st' = Some p → settled h' p }.
Lemma settled_undecided h p : settled h p → undecided h p → False.
Proof. intros (e & He & Hn) (e' & He' & Hn'). congruence. Qed.
Lemma live_effect_ok w i r st st' s' h' g' :
  world_live w → tasks w !! i = Some (r, st) → st ≠ Dropped → live_effect w st st' h' →
  world_live {| service := s'; heap := h'; tasks := <[i := (r, st')]> (tasks w); granted := g' |}.
Proof.
  intros [Ho Hd] Hi Hnd [L1 L2 L3 L4]. assert (Hl : i < length (tasks w)) by by eapply lookup_lt_Some.
  assert (Hnew : <[i := (r, st')]> (tasks w) !! i = Some (r, st')) by by apply list_lookup_insert_eq.
  split; cbn.
  - intros p Hu. destruct (L2 p Hu) as [Hu'|Hown]; [|by left; exists i, r, st'].
    destruct (Ho p Hu') as [(j & r2 & st2 & Hj & Hp)|(j & r2 & Hj)]; destruct (decide (j = i)) as [->|Hne].
    + rewrite Hi in Hj. injection Hj as <- <-. destruct (L1 _ Hp) as [E|[->|E]].
      * by left; exists i, r, st'.
      * by right; exists i, r.
      * by destruct (settled_undecided _ _ E Hu).
    + left. exists j, r2, st2. by rewrite list_lookup_insert_ne.
    + rewrite Hi in Hj. by injection Hj as _ ->.
    + right. exists j, r2. cbn. by rewrite list_lookup_insert_ne.
  - intros j r2 st2 p Hj Hp. destruct (decide (j = i)) as [->|Hne].
    + rewrite Hnew in Hj. injection Hj as <- <-. by apply L4.
    + rewrite list_lookup_insert_ne in Hj by done. by apply L3, (Hd j r2 st2).
Qed.
(** A stage that leaves the heap alone. *)
Lemma live_quiet w st st' :
  (∀ p, owns st = Some p → owns st' = Some p ∨ st' = Dropped ∨ decided_by st = Some p) →
  (∀ p, decided_by st = Some p → settled (heap w) p) → decided_by st' = None → live_effect w st st' (heap w).
Proof.
  intros Ho Hd Hn. split; [|by left|done|congruence].
  intros p Hp. destruct (Ho p Hp) as [?|[?|?]]; eauto.
Qed.
Lemma settled_update p f h : (∀ a, pending_decision a ≠ None → pending_decision (f a) ≠ None) → ∀ q, settled h q → settled (heap_update p f h) q.
Proof.
  intros Hf q (e & He & Hn). unfold settled. rewrite heap_update_lookup, He. case_decide; cbn; eexists; (split; [done|]); [by apply Hf|done].
Qed.
Lemma undecided_update p f h : (∀ a, pending_decision a ≠ None → pending_decision (f a) ≠ None) → ∀ q, undecided (heap_update p f h) q → undecided h q.
Proof.
  intros Hf q (e & He & Hn). rewrite heap_update_lookup in He. case_decide; [|by exists e].
  apply fmap_Some in He as ([k a] & He & ->). exists (k, a). split; [done|]. cbn in *.
  destruct (pending_decision a) eqn:E; [|done]. by destruct (Hf a); rewrite ?E.
Qed.
Lemma advance_live w i r st turn st' s' h' :
  world_ok w → world_live w → tasks w !! i = Some (r, st) → advance turn r st (service w) (heap w) = Some (st', s', h') →
  live_effect w st st' h'.
Proof.
  intros Hok Hlive Hi Hadv. destruct (ok_tasks _ Hok _ _ _ Hi) as (T1 & _ & _).
  assert (Hdec : ∀ p, decided_by st = Some p → settled (heap w) p) by by intros p; apply (live_decided _ Hlive i r).
  destruct st; cbn [advance] in Hadv; simplify_eq.
  - apply live_quiet; try done. by case_match.
  - apply live_quiet; try done. by case_match.
  - destruct (pending_host_approvals (service w) !! request_key r) as [p|] eqn:Ep; simplify_eq; [by apply live_quiet|].
    split; try done; cbn.
    + intros p (e & He & Hn). apply lookup_app_Some in He as [He|[Hle He]]; [left; by exists e|].
      apply list_lookup_singleton_Some in He as [E <-]. right. f_equal. lia.
    + intros p (e & He & Hn). exists e. split; [by apply lookup_app_l_Some|done].
  - apply fmap_Some in Hadv as (e & _ & [= -> -> ->]). by apply live_quiet.
  - apply fmap_Some in Hadv as (e & _ & [= -> -> ->]). apply live_quiet; try done. by case_match.
  - case_match; [|done]. case_match; simplify_eq. by apply live_quiet.
  - apply live_quiet; try done; [|by destruct turn as [[? ?]|]; try case_match].
    intros q [= <-]. left. by destruct turn as [[? ?]|]; try case_match.
  - apply live_quiet; try done. intros q [= <-]. by left.
  - apply live_quiet; try done; [|by destruct resolved, cache_session_deny].
    intros q [= <-]. left. by destruct resolved, cache_session_deny.
  - apply live_quiet; try done. intros q [= <-]. by left.
  - apply live_quiet; try done. intros q [= <-]. by left.
  - apply live_quiet; try done. intros q [= <-]. by left.
  - apply live_quiet; try done. intros q [= <-]. by left.
  - assert (Hs : settled (heap_update p (decide_pending d) (heap w)) p).
    { destruct (ok_pending _ Hok _ _ (T1 _ eq_refl)) as (a & Ha). eexists. rewrite heap_update_lookup, Ha. by case_decide. }
    split; cbn; [by intros q [= <-]; left| |by apply settled_update|by intros q [= <-]].
    intros q Hq. left. by apply (undecided_update p (decide_pending d)).
  - split; cbn; [by intros q [= <-]; left| |by apply settled_update|intros q [= <-]; by apply settled_update, Hdec].
    intros q Hq. left. by apply (undecided_update p notify_pending).
  - apply live_quiet; try done; [|by case_match]. intros q [= <-]. by right; right.
  - apply live_quiet; try done. by destruct (resolve_single_active_call (service w)) as [[]|].
  - by apply live_quiet.
Qed.
Lemma initial_live : world_live initial.
Proof. split; [by intros p (e & He & _)|done]. Qed.
Lemma world_live_step w w' : world_ok w → world_live w → step w w' → world_live w'.
Proof.
  intros Hok Hlive Hs. destruct Hs; try by destruct Hlive.
  - destruct Hlive as [Ho Hd]. split; cbn.
    + intros p Hu. destruct (Ho p Hu) as [(j & r2 & st & Hj & Hp)|(j & r2 & Hj)]; [left; exists j, r2, st|right; exists j, r2; cbn];
        [split; [|done]|]; by apply lookup_app_l_Some.
    + intros i r' st p Hi Hp. apply lookup_app_Some in Hi as [Hi|[_ Hi]]; [by eapply Hd|].
      by apply list_lookup_singleton_Some in Hi as [_ [= <- <-]].
  - eapply live_effect_ok; [done..|by intros ->|]. by eapply advance_live.
  - eapply live_effect_ok; [done..|]. apply live_quiet; try done; unfold reviewed, review_result.
    + intros q [= <-]. left. destruct decision as [| | |a| |], owner_call as [[]|]; try done; by destruct (amendment_action a).
    + destruct decision as [| | |a| |], owner_call as [[]|]; try done; by destruct (amendment_action a).
  - eapply live_effect_ok; [done..|by intros ->|]. apply live_quiet; try done; [by right; left|]. intros p. by apply (live_decided _ Hlive i r).
Qed.
Lemma net_reachable_ok w : rtc step initial w → world_ok w ∧ world_live w.
Proof.
  intros Hr. assert (Hind : world_ok initial ∧ world_live initial) by eauto using initial_ok, initial_live.
  revert Hind. induction Hr as [|w1 w2 w3 Hs _ IH]; [done|]. intros [H1 H2]. apply IH. eauto using world_ok_step, world_live_step.
Qed.

(** How a host gets allowed: an approving answer to a review of it, or the
    approvals of another session. *)
Definition host_allowed_by (k : HostApprovalKey) (w w' : world) : Prop :=
  (∃ j r p g o d, tasks w !! j = Some (r, Ask p g o) ∧ tasks w' !! j = Some (r, reviewed p g o d) ∧ request_key r = k ∧ approves d = true)
  ∨ ∃ other, k ∈ session_approved_hosts other ∧ service w' = sync_session_approved_hosts_to other (service w).
Lemma granted_step k w w' : step w w' → k ∉ granted w → k ∈ granted w' → host_allowed_by k w w'.
Proof.
  intros Hs Hn Hk. destruct Hs; try done; cbn in Hk.
  - left. exists i, r, p, guardian, owner_call, decision. case_match; [|done]. split_and!; [done| |set_solver|done].
    cbn. apply list_lookup_insert_eq. by eapply lookup_lt_Some.
  - right. exists other. split; [set_solver|done].
Qed.
Lemma granted_run k w : rtc step initial w → k ∈ granted w → ∃ w1 w2, rtc step initial w1 ∧ step w1 w2 ∧ rtc step w2 w ∧ host_allowed_by k w1 w2.
Proof.
  intros Hr. revert w Hr. apply (rtc_ind_r (λ w, k ∈ granted w → ∃ w1 w2, rtc step initial w1 ∧ step w1 w2 ∧ rtc step w2 w ∧ host_allowed_by k w1 w2));
    [set_solver|]. intros w2 w3 Hr Hs IH Hk. destruct (decide (k ∈ granted w2)) as [Hin|Hnin].
  - destruct (IH Hin) as (w0 & w1 & H0 & H1 & H2 & Hh). exists w0, w1. split_and!; [done..| |done]. by eapply rtc_r.
  - exists w2, w3. split_and!; [done|done|by apply rtc_refl|]. by apply granted_step.
Qed.

(** The steps of one request. *)
Definition task_step (i : nat) (w w' : world) : Prop :=
  ∃ turn r st st' s' h', tasks w !! i = Some (r, st) ∧ advance turn r st (service w) (heap w) = Some (st', s', h') ∧ w' = set_stage i r st' s' h' w.
Lemma task_step_quiet i w r st st' :
  tasks w !! i = Some (r, st) → advance None r st (service w) (heap w) = Some (st', service w, heap w) →
  task_step i w (set_stage i r st' (service w) (heap w) w).
Proof. intros Hi Ha. by exists None, r, st, st', (service w), (heap w). Qed.
Lemma set_stage_lookup i r st s h w : i < length (tasks w) → tasks (set_stage i r st s h w) !! i = Some (r, st).
Proof. intros Hi. by apply list_lookup_insert_eq. Qed.
Lemma look_returns w i r p t e d :
  tasks w !! i = Some (r, Look p t) → heap w !! p = Some e → pending_decision e.2 = Some d →
  ∃ w', task_step i w w' ∧ tasks w' !! i = Some (r, Finished (to_network_decision d)).
Proof.
  intros Hi He Hd. eexists. split.
  - eapply task_step_quiet; [done|]. cbn. by rewrite He; cbn; rewrite Hd.
  - apply set_stage_lookup. by eapply lookup_lt_Some.
Qed.
Lemma listen_returns w i r p e d :
  tasks w !! i = Some (r, Listen p) → heap w !! p = Some e → pending_decision e.2 = Some d →
  ∃ w', nsteps (task_step i) 2 w w' ∧ tasks w' !! i = Some (r, Finished (to_network_decision d)).
Proof.
  intros Hi He Hd. set (w1 := set_stage i r (Look p (notifications (pending_notify e.2))) (service w) (heap w) w).
  destruct (look_returns w1 i r p (notifications (pending_notify e.2)) e d) as (w' & Hs & Hw'); [|done|done|].
  { apply set_stage_lookup. by eapply lookup_lt_Some. }
  exists w'. split; [|done]. apply nsteps_l with w1; [|by apply nsteps_once]. eapply task_step_quiet; [done|]. cbn. by rewrite He.
Qed.
Lemma parked_returns w i r p t e d :
  tasks w !! i = Some (r, Parked p t) → heap w !! p = Some e → pending_decision e.2 = Some d → t < notifications (pending_notify e.2) →
  ∃ w', nsteps (task_step i) 3 w w' ∧ tasks w' !! i = Some (r, Finished (to_network_decision d)).
Proof.
  intros Hi He Hd Ht. set (w1 := set_stage i r (Listen p) (service w) (heap w) w).
  destruct (listen_returns w1 i r p e d) as (w' & Hs & Hw'); [|done|done|].
  { apply set_stage_lookup. by eapply lookup_lt_Some. }
  exists w'. split; [|done]. apply nsteps_l with w1; [|done]. eapply task_step_quiet; [done|]. cbn [advance]. rewrite He.
  rewrite (proj2 (Nat.ltb_lt _ _) Ht). done.
Qed.
(** What keeps a request from advancing. *)
Lemma blocked_request w i r st turn :
  world_ok w → tasks w !! i = Some (r, st) → advance turn r st (service w) (heap w) = None →
  (∃ d, st = Finished d) ∨ st = Dropped ∨ (∃ p g o, st = Ask p g o)
  ∨ ∃ p t a, st = Parked p t ∧ heap w !! p = Some (request_key r, a) ∧ (pending_decision a = None ∨ ∃ j e, tasks w !! j = Some e ∧ notifies p e).
Proof.
  intros Hok Hi Hadv. destruct (ok_tasks _ Hok _ _ _ Hi) as (_ & T2 & _).
  destruct st as [| | |p|p t|p t|p|p g|p g o|p d c id o|p|p|p|p|p d m|p d m|p d m|m|id m|d|]; cbn [advance] in Hadv; try discriminate.
  - by destruct (pending_host_approvals (service w) !! request_key r).
  - destruct (T2 _ eq_refl) as (a & Ha & _). by rewrite Ha in Hadv.
  - destruct (T2 _ eq_refl) as (a & Ha & _). by rewrite Ha in Hadv.
  - destruct (T2 _ eq_refl) as (a & Ha & Hle & Hn). rewrite Ha in Hadv. cbn [snd] in Hadv.
    destruct (Nat.ltb_spec t (notifications (pending_notify a))); [done|].
    right; right; right. exists p, t, a. split_and!; [done..|]. destruct (pending_decision a); [right|by left]. apply Hn; [lia|done].
  - right; right; left. eauto.
  - left. eauto.
  - by right; left.
Qed.
Lemma notifies_owns p r st : notifies p (r, st) → owns st = Some p.
Proof. by intros (d & m & E); cbn in E; subst. Qed.
Lemma owner_of w j r st p : world_ok w → tasks w !! j = Some (r, st) → owns st = Some p → ∃ a, heap w !! p = Some (request_key r, a).
Proof. intros Hok Hj Ho. destruct (ok_tasks _ Hok _ _ _ Hj) as (T1 & _). apply (ok_pending _ Hok), T1, Ho. Qed.
Lemma owner_moves w r st p turn :
  owns st = Some p → (∃ g o, st = Ask p g o) ∨ is_Some (advance turn r st (service w) (heap w)).
Proof. by destruct st; try done; intros [= <-]; eauto; right; eexists. Qed.

(** An undecided approval that nobody owns. *)
Definition stranded (k : HostApprovalKey) (p : nat) (w : world) : Prop :=
  pending_host_approvals (service w) !! k = Some p ∧ (∃ a, heap w !! p = Some (k, a) ∧ pending_decision a = None)
  ∧ ∀ j r st, tasks w !! j = Some (r, st) → owns st ≠ Some p.
(** Requests that wait for it, or are about to. *)
Definition bound_to (k : HostApprovalKey) (p : nat) (r : NetworkPolicyRequest) (st : stage) : Prop :=
  st = Dropped ∨ waits st = Some p ∨ st = GetPending ∧ request_key r = k.

Lemma heap_update_other p q f (h : heap_of) : q ≠ p → heap_update p f h !! q = h !! q.
Proof. intros Hne. rewrite heap_update_lookup. by case_decide. Qed.
Lemma advance_stranded k p w i r st turn st' s' h' :
  world_ok w → stranded k p w → tasks w !! i = Some (r, st) → advance turn r st (service w) (heap w) = Some (st', s', h') →
  pending_host_approvals s' !! k = Some p ∧ (∃ a, h' !! p = Some (k, a) ∧ pending_decision a = None) ∧ owns st' ≠ Some p.
Proof.
  intros Hok (Hp & (a & Ha & Hd) & Hno) Hi Hadv. specialize (Hno _ _ _ Hi). destruct (ok_tasks _ Hok _ _ _ Hi) as (T1 & _).
  assert (Hkeep : pending_host_approvals s' = pending_host_approvals (service w) → h' = heap w → (owns st' = None ∨ owns st' = owns st) →
    pending_host_approvals s' !! k = Some p ∧ (∃ a, h' !! p = Some (k, a) ∧ pending_decision a = None) ∧ owns st' ≠ Some p).
  { intros -> -> Ho. split_and!; [done|by exists a|]. by destruct Ho as [-> | ->]. }
  destruct st; cbn [advance owns] in *; simplify_eq.
  - apply Hkeep; [done|done|left; by case_match].
  - apply Hkeep; [done|done|left; by case_match].
  - destruct (pending_host_approvals (service w) !! request_key r) as [q|] eqn:Eq; simplify_eq; [by apply Hkeep; [..|left]|].
    cbn. rewrite lookup_insert_ne by congruence. split_and!; [done|exists a; split; [by apply lookup_app_l_Some|done]|].
    apply lookup_lt_Some in Ha. intros [= E]. lia.
  - apply fmap_Some in Hadv as (e & _ & [= -> -> ->]). by apply Hkeep; [..|left].
  - apply fmap_Some in Hadv as (e & _ & [= -> -> ->]). apply Hkeep; [done|done|left]. by case_match.
  - case_match; [|done]. case_match; simplify_eq. by apply Hkeep; [..|left].
  - apply Hkeep; [done|done|right]. by destruct turn as [[? ?]|]; try case_match.
  - by apply Hkeep; [..|right].
  - apply Hkeep; [apply record_call_pending|done|right]. by destruct resolved, cache_session_deny.
  - by apply Hkeep; [..|right].
  - by apply Hkeep; [..|right].
  - by apply Hkeep; [..|right].
  - by apply Hkeep; [..|right].
  - split_and!; [done| |done]. exists a. rewrite heap_update_other by congruence. done.
  - split_and!; [done| |done]. exists a. rewrite heap_update_other by congruence. done.
  - cbn. rewrite lookup_delete_ne by (specialize (T1 _ eq_refl); congruence).
    split_and!; [done|by exists a|by destruct refused].
  - apply Hkeep; [done|done|left]. by destruct (resolve_single_active_call (service w)) as [[]|].
  - apply Hkeep; [apply record_call_pending|done|by left].
Qed.
Lemma reviewed_owns p g o d : owns (reviewed p g o d) = Some p.
Proof. unfold reviewed, review_result. destruct d as [| | |a| |], o as [[]|]; try done; by destruct (amendment_action a). Qed.
Lemma stranded_update k p w i r st' s' h' g' :
  stranded k p w → pending_host_approvals s' !! k = Some p → (∃ a, h' !! p = Some (k, a) ∧ pending_decision a = None) → owns st' ≠ Some p →
  stranded k p {| service := s'; heap := h'; tasks := <[i := (r, st')]> (tasks w); granted := g' |}.
Proof.
  intros (_ & _ & Hno) Hp Ha Ho. split_and!; [done|done|]. cbn. intros j r2 st2 Hj.
  destruct (decide (j = i)) as [->|Hne]; [|rewrite list_lookup_insert_ne in Hj by done; by eapply Hno].
  apply list_lookup_insert_Some in Hj as [(_ & [= <- <-] & _)|[? _]]; done.
Qed.
Lemma stranded_step k p w w' : world_ok w → stranded k p w → step w w' → stranded k p w'.
Proof.
  intros Hok Hst Hs. pose proof Hst as (Hp & Ha & Hno). destruct Hs.
  - split_and!; [done..|]. cbn. intros j r2 st Hj. apply lookup_app_Some in Hj as [Hj|[_ Hj]]; [by eapply Hno|].
    by apply list_lookup_singleton_Some in Hj as [_ [= <- <-]].
  - destruct (advance_stranded _ _ _ _ _ _ _ _ _ _ Hok Hst H0 H1) as (H2 & H3 & H4). by apply stranded_update.
  - apply stranded_update; [done..|]. rewrite reviewed_owns. by apply (Hno _ _ _ H0).
  - by apply stranded_update.
  - done.
  - done.
  - done.
  - split_and!; [|done..]. cbn. destruct (calls_pending (service w)) as [_ Hb]. by rewrite (proj1 (Hb b)).
  - done.
Qed.
Lemma bound_advance k p w r st turn st' s' h' :
  stranded k p w → bound_to k p r st → advance turn r st (service w) (heap w) = Some (st', s', h') → bound_to k p r st'.
Proof.
  intros (Hp & (a & Ha & Hd) & _) [->|[Hw|[-> Hk]]] Hadv; [done| |].
  - destruct st; simplify_eq; injection Hw as ->; cbn [advance] in Hadv; rewrite Ha in Hadv; cbn in Hadv.
    + injection Hadv as <- _ _. by right; left.
    + rewrite Hd in Hadv. injection Hadv as <- _ _. by right; left.
    + case_match; simplify_eq. by right; left.
  - cbn [advance] in Hadv. rewrite Hk, Hp in Hadv. injection Hadv as <- _ _. by right; left.
Qed.
Lemma bound_step k p w w' j r st :
  stranded k p w → step w w' → tasks w !! j = Some (r, st) → bound_to k p r st → ∃ st', tasks w' !! j = Some (r, st') ∧ bound_to k p r st'.
Proof.
  intros Hst Hs Hj Hb.
  assert (Hins : ∀ i r2 st2 st2', tasks w !! i = Some (r2, st2) → (i = j → r2 = r → st2 = st → bound_to k p r st2') →
    ∃ st', <[i := (r2, st2')]> (tasks w) !! j = Some (r, st') ∧ bound_to k p r st').
  { intros i r2 st2 st2' Hi Hb'. destruct (decide (i = j)) as [->|Hne]; [|exists st; by rewrite list_lookup_insert_ne].
    rewrite Hj in Hi. injection Hi as <- <-. exists st2'. rewrite list_lookup_insert_eq by by eapply lookup_lt_Some. eauto. }
  destruct Hs; try by exists st.
  - exists st. split; [|done]. by apply lookup_app_l_Some.
  - eapply Hins; [done|]. intros _ -> ->. by eapply bound_advance.
  - eapply Hins; [done|]. intros _ -> <-. destruct Hb as [?|[?|[? _]]]; done.
  - eapply Hins; [done|]. intros _ _ _. by left.
Qed.
Lemma bound_run k p w w' j r st :
  world_ok w → stranded k p w → rtc step w w' → tasks w !! j = Some (r, st) → bound_to k p r st →
  ∃ st', tasks w' !! j = Some (r, st') ∧ bound_to k p r st'.
Proof.
  intros Hok Hst Hr. revert st. induction Hr as [w|w w1 w' Hs _ IH]; intros st Hj Hb; [by exists st|].
  destruct (bound_step _ _ _ _ _ _ _ Hst Hs Hj Hb) as (st1 & Hj1 & Hb1).
  apply IH with st1; eauto using world_ok_step, stranded_step.
Qed.

(** * Properties *)

(** C5. A request that the service allows was reviewed: some earlier step of the
    run is an approving answer to a review of its host, protocol and port, or
    takes over the approvals of another session that has them. No interleaving
    of requests, dropped futures, tool calls or caches lets one through. *)
Theorem allowed_requests_were_reviewed w i r :
  rtc step initial w → tasks w !! i = Some (r, Finished AllowRequest) →
  ∃ w1 w2, rtc step initial w1 ∧ step w1 w2 ∧ rtc step w2 w ∧ host_allowed_by (request_key r) w1 w2.
Proof.
  intros Hr Hi. destruct (net_reachable_ok w Hr) as [Hok _]. destruct (ok_tasks _ Hok _ _ _ Hi) as (_ & _ & Hg). by apply granted_run, Hg.
Qed.

(** At any moment at most one review of a host, protocol and port is under
    way, and it decides the approval that the table holds for them. *)
Theorem one_review_per_host w i j r r' p p' g g' o o' :
  rtc step initial w → tasks w !! i = Some (r, Ask p g o) → tasks w !! j = Some (r', Ask p' g' o') → request_key r = request_key r' →
  i = j ∧ pending_host_approvals (service w) !! request_key r = Some p.
Proof.
  intros Hr Hi Hj Hk. destruct (net_reachable_ok w Hr) as [Hok _]. split; [|by apply (ok_tasks _ Hok _ _ _ Hi)].
  destruct (decide (i = j)) as [|Hne]; [done|]. by destruct (ok_owners _ Hok _ _ _ _ _ _ Hne Hi Hj).
Qed.

(** C6. No request is stuck: when none was dropped, a request that cannot go on has
    its answer, or is a review, or waits for one: another request for the same
    host is under review or can go on. *)
Theorem blocked_requests_wait_for_a_review w i r st turn :
  rtc step initial w → ¬ some_dropped w → tasks w !! i = Some (r, st) → advance turn r st (service w) (heap w) = None →
  (∃ d, st = Finished d)
  ∨ ∃ j r' st', tasks w !! j = Some (r', st') ∧ request_key r' = request_key r
      ∧ ((∃ p g o, st' = Ask p g o) ∨ is_Some (advance turn r' st' (service w) (heap w))).
Proof.
  intros Hr Hnd Hi Hadv. destruct (net_reachable_ok w Hr) as [Hok Hlive].
  destruct (blocked_request _ _ _ _ _ Hok Hi Hadv) as [?|[->|[Hask|(p & t & a & -> & Ha & Hwhy)]]]; [by left|by destruct Hnd; exists i, r| |]; right.
  - exists i, r, st. eauto.
  - assert (Howner : ∃ j r' st', tasks w !! j = Some (r', st') ∧ owns st' = Some p).
    { destruct Hwhy as [Hd|(j & [r' st'] & Hj & He)]; [|exists j, r', st'; eauto using notifies_owns].
      destruct (live_owner _ Hlive p) as [?|?]; [by exists (request_key r, a)|done|done]. }
    destruct Howner as (j & r' & st' & Hj & Hp). destruct (owner_of _ _ _ _ _ Hok Hj Hp) as (a' & Ha'). exists j, r', st'.
    split; [done|]. split; [congruence|]. destruct (owner_moves w r' st' p turn Hp) as [(g & o & ->)|?]; eauto.
Qed.

(** A request that waits for an approval that has been decided returns that
    decision within three steps of its own, unless the notification is still to
    come: it is not left waiting, whether it looked before or after the
    decision was made. *)
Theorem waiters_get_the_decision w i r st p e d :
  rtc step initial w → tasks w !! i = Some (r, st) → waits st = Some p → heap w !! p = Some e → pending_decision e.2 = Some d →
  (∃ j e', tasks w !! j = Some e' ∧ notifies p e')
  ∨ ∃ n w', n ≤ 3 ∧ nsteps (task_step i) n w w' ∧ tasks w' !! i = Some (r, Finished (to_network_decision d)).
Proof.
  intros Hr Hi Hw He Hd. destruct (net_reachable_ok w Hr) as [Hok _]. destruct (ok_tasks _ Hok _ _ _ Hi) as (_ & T2 & _).
  destruct (T2 _ Hw) as (a & Ha & Ht). rewrite He in Ha. injection Ha as ->. destruct st; simplify_eq; injection Hw as ->.
  - right. destruct (listen_returns _ _ _ _ _ _ Hi He Hd) as (w' & ? & ?). by exists 2, w'; split_and!; [lia|..].
  - right. destruct (look_returns _ _ _ _ _ _ _ Hi He Hd) as (w' & ? & ?). exists 1, w'. split_and!; [lia|by apply nsteps_once|done].
  - destruct Ht as [Hle Hn]. cbn in Hd. destruct (decide (ticket = notifications (pending_notify a))) as [Heq|Hne].
    + left. apply Hn; [done|]. by rewrite Hd.
    + right. destruct (parked_returns w i r p ticket _ d Hi He Hd) as (w' & ? & ?); [cbn; lia|]. by exists 3, w'; split_and!; [lia|..].
Qed.

(** When the future of the request that owns an approval is dropped before its
    decision (the proxy's client goes away during the review), the approval
    stays in the table undecided: every request for that host that waits for it,
    or reaches the table later, waits forever. *)
Theorem dropped_owner_strands_waiters w w' i j r r' st st' p :
  rtc step initial w → tasks w !! i = Some (r, st) → owns st = Some p → undecided (heap w) p →
  tasks w !! j = Some (r', st') → i ≠ j → bound_to (request_key r) p r' st' →
  rtc step (set_stage i r Dropped (service w) (heap w) w) w' →
  ∃ st1, tasks w' !! j = Some (r', st1) ∧ bound_to (request_key r) p r' st1.
Proof.
  intros Hr Hi Ho Hu Hj Hne Hb Hrun. pose proof Hu as (e & He & Hd). destruct (net_reachable_ok w Hr) as [Hok Hlive].
  destruct (owner_of _ _ _ _ _ Hok Hi Ho) as (a & Ha). rewrite He in Ha. injection Ha as ->.
  eapply bound_run; [| |exact Hrun| |exact Hb].
  - eapply world_ok_step; [exact Hok|]. apply step_drop with st; [done|]. destruct st; try done.
    injection Ho as ->. destruct (settled_undecided (heap w) p); [by apply (live_decided _ Hlive i r _ _ Hi)|done].
  - split_and!; cbn; [by apply (ok_tasks _ Hok _ _ _ Hi)|by exists a|].
    intros j2 r2 st2 Hj2 Ho2. destruct (decide (j2 = i)) as [->|Hne2].
    + rewrite list_lookup_insert_eq in Hj2 by by eapply lookup_lt_Some. by injection Hj2 as <- <-.
    + rewrite list_lookup_insert_ne in Hj2 by done. destruct (owner_of _ _ _ _ _ Hok Hj2 Ho2) as (a2 & Ha2).
      assert (E : request_key r2 = request_key r) by congruence. destruct (ok_owners _ Hok _ _ _ _ _ _ Hne2 Hj2 Hi); [by rewrite Ho2|by rewrite Ho|done].
  - cbn. by rewrite list_lookup_insert_ne.
Qed.
End service.

(** * Witnesses *)

Definition sample_net_request : NetworkPolicyRequest :=
  {| request_protocol := HttpsConnect; request_host := lit "Example.com"; request_port := 443; client_addr := None;
     request_method := None; command := None; exec_policy_hint := None |}.
Definition under_review : list action :=
  [Arrive sample_net_request; Advance 0 None; Advance 0 None; Advance 0 None; Advance 0 (Some (OnRequest, false)); Advance 0 None].
(** A second request for the host comes while the first is reviewed. *)
Definition second_waits : list action :=
  under_review ++ [Arrive sample_net_request; Advance 1 None; Advance 1 None; Advance 1 None; Advance 1 None; Advance 1 None].
Definition world_after (l : list action) : world := default initial (perform_all l initial).
Definition performs (l : list action) : bool := match perform_all l initial with Some _ => true | None => false end.
Lemma world_after_run l : performs l = true → rtc step initial (world_after l).
Proof. unfold performs, world_after. destruct (perform_all l initial) as [w|] eqn:Hw; [|done]. intros _. by apply (perform_all_run l). Qed.

Lemma allowed_requests_were_reviewed_witness :
  ∃ w1 w2, rtc step initial w1 ∧ step w1 w2 ∧ rtc step w2 (world_after (under_review ++ [Answer 0 Approved; Advance 0 None; Advance 0 None; Advance 0 None]))
    ∧ host_allowed_by (request_key sample_net_request) w1 w2.
Proof.
  apply (allowed_requests_were_reviewed _ 0); [apply world_after_run; vm_compute; reflexivity|vm_compute; reflexivity].
Defined.
Lemma one_review_per_host_witness :
  0 = 0 ∧ pending_host_approvals (service (world_after second_waits)) !! request_key sample_net_request = Some 0.
Proof.
  apply (one_review_per_host _ 0 0 sample_net_request sample_net_request 0 0 false false None None);
    [apply world_after_run; vm_compute; reflexivity|vm_compute; reflexivity..].
Defined.
Lemma blocked_requests_wait_for_a_review_witness :
  (∃ d, Parked 0 0 = Finished d)
  ∨ ∃ j r' st', tasks (world_after second_waits) !! j = Some (r', st') ∧ request_key r' = request_key sample_net_request
      ∧ ((∃ p g o, st' = Ask p g o)
         ∨ is_Some (advance None r' st' (service (world_after second_waits)) (heap (world_after second_waits)))).
Proof.
  apply (blocked_requests_wait_for_a_review _ 1); [apply world_after_run; vm_compute; reflexivity| |vm_compute; reflexivity..].
  intros (j & r & Hj). destruct j as [|[|j]]; vm_compute in Hj; discriminate Hj.
Defined.
Lemma waiters_get_the_decision_witness :
  let w := world_after (second_waits ++ [Answer 0 Denied; Advance 0 None; Advance 0 None]) in
  (∃ j e', tasks w !! j = Some e' ∧ notifies 0 e')
  ∨ ∃ n w', n ≤ 3 ∧ nsteps (task_step 1) n w w' ∧ tasks w' !! 1 = Some (sample_net_request, Finished (to_network_decision PendingDeny)).
Proof.
  intros w. apply (waiters_get_the_decision w 1 sample_net_request (Parked 0 0) 0
                     (request_key sample_net_request, notify_pending (decide_pending PendingDeny pending_new)));
    [apply world_after_run; vm_compute; reflexivity|vm_compute; reflexivity..].
Defined.
Lemma dropped_owner_strands_waiters_witness :
  let w := world_after second_waits in
  let w' := world_after (second_waits ++ [Drop 0; Advance 1 None]) in
  ∃ st1, tasks (set_stage 0 sample_net_request Dropped (service w) (heap w) w) !! 1 = Some (sample_net_request, st1)
    ∧ bound_to (request_key sample_net_request) 0 sample_net_request st1.
Proof.
  intros w w'.
  apply (dropped_owner_strands_waiters w _ 0 1 sample_net_request sample_net_request (Ask 0 false None) (Parked 0 0) 0);
    [apply world_after_run; vm_compute; reflexivity|vm_compute; reflexivity|vm_compute; reflexivity
    |exists (request_key sample_net_request, pending_new); split; vm_compute; reflexivity|vm_compute; reflexivity|done|by right; left|apply rtc_refl].
Defined.
