(* ===== verification/SandboxTransform.v ===== *)
(** Additional permissions and sandboxed commands:
    [codex-rs/sandboxing/src/policy_transforms.rs] (profiles of permissions,
    the policies that result from them), [landlock.rs] (the arguments of the
    Linux helper) and [manager.rs] ([transform]). The JSON of the policies and
    the arguments of macOS's sandbox are parameters. *)
From stdpp Require Import gmap.
From S2P Require Import Prelude RustStr RustPath FileSystem AbsolutePath Protocol Permissions Safety ToolApproval.

(** * Profiles *)

Record NetworkPermissions : Type := { enabled : option bool }.
Record FileSystemPermissions : Type := { read : option (list str); write : option (list str) }.
Record PermissionProfile : Type := { network : option NetworkPermissions; file_system : option FileSystemPermissions }.
Definition network_is_empty (n : NetworkPermissions) : bool := bool_decide (enabled n = None).
Definition file_system_is_empty (f : FileSystemPermissions) : bool := bool_decide (read f = None) && bool_decide (write f = None).
Definition profile_is_empty (p : PermissionProfile) : bool :=
  match network p, file_system p with None, None => true | _, _ => false end.
Definition profile_default : PermissionProfile := {| network := None; file_system := None |}.
(** [Option::filter]. *)
Definition option_filter {A} (p : A → bool) (o : option A) : option A :=
  match o with Some a => if p a then Some a else None | None => None end.
Definition network_enabled (n : option NetworkPermissions) : bool :=
  match n with Some {| enabled := Some true |} => true | _ => false end.

Section profiles.
Context `{PermEnv}.
(** [canonicalize] is [dunce::canonicalize], the identity on its results
    outside Windows. *)
Definition normalize_permission_paths (paths : list str) : list str :=
  dedup_loop (λ p, default p (c ← canonicalize p; ok (from_absolute_path c))) [] paths.
Definition normalize_additional_permissions (additional_permissions : PermissionProfile) : outcome str PermissionProfile :=
  Ok {| network := option_filter (λ n, negb (network_is_empty n)) (network additional_permissions);
        file_system :=
          option_filter (λ f, negb (file_system_is_empty f))
            ((λ f, {| read := normalize_permission_paths <$> read f; write := normalize_permission_paths <$> write f |})
               <$> file_system additional_permissions) |}.
End profiles.

Definition merge_permission_paths (base permissions : option (list str)) : option (list str) :=
  match base, permissions with
  | Some base, Some permissions =>
      option_filter (λ l, negb (bool_decide (l = []))) (Some (dedup_loop id [] (base ++ permissions)))
  | Some base, None => Some base
  | None, Some permissions => Some permissions
  | None, None => None
  end.
Definition merge_permission_profiles (base permissions : option PermissionProfile) : option PermissionProfile :=
  match permissions with
  | None => base
  | Some permissions =>
      match base with
      | Some base =>
          let net := if network_enabled (network base) || network_enabled (network permissions)
                     then Some {| enabled := Some true |} else None in
          let fs :=
            match file_system base, file_system permissions with
            | Some b, Some p =>
                option_filter (λ f, negb (file_system_is_empty f))
                  (Some {| read := merge_permission_paths (read b) (read p); write := merge_permission_paths (write b) (write p) |})
            | Some b, None => Some b
            | None, Some p => Some p
            | None, None => None
            end in
          option_filter (λ p, negb (profile_is_empty p)) (Some {| network := net; file_system := fs |})
      | None => option_filter (λ p, negb (profile_is_empty p)) (Some permissions)
      end
  end.
Definition contains_path (l : list str) (p : str) : bool := existsb (λ q, bool_decide (path_eq q p)) l.
Definition intersect_permission_paths (requested granted : option (list str)) : option (list str) :=
  match requested with
  | None => None
  | Some [] => (λ _, []) <$> granted
  | Some requested_paths =>
      let granted_paths := default [] granted in
      option_filter (λ l, negb (bool_decide (l = [])))
        (Some (filter (λ p, contains_path granted_paths p = true) requested_paths))
  end.
Definition intersect_permission_profiles (requested granted : PermissionProfile) : PermissionProfile :=
  {| network := if network_enabled (network requested) && network_enabled (network granted)
                then Some {| enabled := Some true |} else None;
     file_system :=
       option_filter (λ f, negb (file_system_is_empty f))
         ((λ f, let g := default {| read := None; write := None |} (file_system granted) in
                {| read := intersect_permission_paths (read f) (read g); write := intersect_permission_paths (write f) (write g) |})
            <$> file_system requested) |}.
(** The derived comparison of profiles; paths are compared by components. *)
Definition paths_option_eq (l k : option (list str)) : bool :=
  match l, k with Some l, Some k => paths_eq l k | None, None => true | _, _ => false end.
Definition profile_eq (a b : PermissionProfile) : bool :=
  match network a, network b with
  | Some n, Some m => bool_decide (enabled n = enabled m) | None, None => true | _, _ => false
  end
  && match file_system a, file_system b with
     | Some f, Some g => paths_option_eq (read f) (read g) && paths_option_eq (write f) (write g)
     | None, None => true | _, _ => false
     end.

(** * Effective policies *)

Definition dedup_roots (paths : list str) : list str := dedup_loop id [] paths.
Definition additional_permission_roots (p : PermissionProfile) : list str * list str :=
  (dedup_roots (default [] (file_system p ≫= read)), dedup_roots (default [] (file_system p ≫= write))).
Definition contains_entry (l : list FileSystemSandboxEntry) (p : str) (a : FileSystemAccessMode) : bool :=
  existsb (λ e, match path e with FsPath q => bool_decide (path_eq q p) | _ => false end && bool_decide (access e = a)) l.
Fixpoint push_entries (a : FileSystemAccessMode) (roots : list str) (l : list FileSystemSandboxEntry) : list FileSystemSandboxEntry :=
  match roots with
  | [] => l
  | p :: roots' => push_entries a roots' (if contains_entry l p a then l else l ++ [{| path := FsPath p; access := a |}])
  end.
Definition merge_file_system_policy_with_additional_permissions (p : FileSystemSandboxPolicy) (extra_reads extra_writes : list str)
    : FileSystemSandboxPolicy :=
  match fs_kind p with
  | FsRestricted => {| fs_kind := fs_kind p; entries := push_entries Write extra_writes (push_entries Read extra_reads (entries p)) |}
  | FsUnrestricted | FsExternalSandbox => p
  end.
Definition effective_file_system_sandbox_policy (p : FileSystemSandboxPolicy) (additional : option PermissionProfile)
    : FileSystemSandboxPolicy :=
  match additional with
  | None => p
  | Some perms =>
      let '(extra_reads, extra_writes) := additional_permission_roots perms in
      match extra_reads, extra_writes with
      | [], [] => p
      | _, _ => merge_file_system_policy_with_additional_permissions p extra_reads extra_writes
      end
  end.
Definition merge_read_only_access_with_additional_reads (a : ReadOnlyAccess) (extra_reads : list str) : ReadOnlyAccess :=
  match a with
  | FullAccess => FullAccess
  | RestrictedAccess platform_defaults roots => RestrictedAccess platform_defaults (dedup_roots (roots ++ extra_reads))
  end.
Definition merge_network_access (base_network_access : bool) (p : PermissionProfile) : bool :=
  base_network_access || default false (network p ≫= enabled).
Definition effective_network_sandbox_policy (n : NetworkSandboxPolicy) (additional : option PermissionProfile) : NetworkSandboxPolicy :=
  match additional with
  | Some perms => if merge_network_access (is_enabled n) perms then NetEnabled else NetRestricted
  | None => n
  end.
Definition sandbox_policy_with_additional_permissions (policy : SandboxPolicy) (perms : PermissionProfile) : SandboxPolicy :=
  if profile_is_empty perms then policy
  else
    let '(extra_reads, extra_writes) := additional_permission_roots perms in
    match policy with
    | DangerFullAccess => DangerFullAccess
    | ExternalSandbox n =>
        ExternalSandbox
          (if merge_network_access match n with NetworkEnabled => true | NetworkRestricted => false end perms
           then NetworkEnabled else NetworkRestricted)
    | WorkspaceWrite roots ro n exclude_tmpdir exclude_slash_tmp =>
        WorkspaceWrite (dedup_roots (roots ++ extra_writes)) (merge_read_only_access_with_additional_reads ro extra_reads)
          (merge_network_access n perms) exclude_tmpdir exclude_slash_tmp
    | ReadOnly a n =>
        match extra_writes with
        | [] => ReadOnly (merge_read_only_access_with_additional_reads a extra_reads) (merge_network_access n perms)
        | _ => WorkspaceWrite (dedup_roots extra_writes) (merge_read_only_access_with_additional_reads a extra_reads)
                 (merge_network_access n perms) false false
        end
    end.
Definition effective_sandbox_policy (policy : SandboxPolicy) (additional : option PermissionProfile) : SandboxPolicy :=
  match additional with Some perms => sandbox_policy_with_additional_permissions policy perms | None => policy end.
(** [EffectiveSandboxPermissions::new]. *)
Definition effective_sandbox_permissions (policy : SandboxPolicy) (additional : option PermissionProfile) : SandboxPolicy :=
  match additional with None => policy | Some _ => effective_sandbox_policy policy additional end.

(** * Commands *)

(** [serde_json::to_string] of the policies. *)
Class PolicyJson : Type := {
  sandbox_policy_json : SandboxPolicy → str;
  file_system_policy_json : FileSystemSandboxPolicy → str;
  network_policy_json : NetworkSandboxPolicy → str }.
Definition CODEX_LINUX_SANDBOX_ARG0 : str := lit "codex-linux-sandbox".
Definition MACOS_PATH_TO_SEATBELT_EXECUTABLE : str := lit "/usr/bin/sandbox-exec".
Definition allow_network_for_proxy (enforce_managed_network : bool) : bool := enforce_managed_network.
Definition create_linux_sandbox_command_args_for_policies `{PolicyJson} (command : list str) (command_cwd : str)
    (sandbox_policy : SandboxPolicy) (fs : FileSystemSandboxPolicy) (n : NetworkSandboxPolicy) (sandbox_policy_cwd : str)
    (use_legacy_landlock allow_network_for_proxy : bool) : list str :=
  [lit "--sandbox-policy-cwd"; sandbox_policy_cwd; lit "--command-cwd"; command_cwd;
   lit "--sandbox-policy"; sandbox_policy_json sandbox_policy; lit "--file-system-sandbox-policy"; file_system_policy_json fs;
   lit "--network-sandbox-policy"; network_policy_json n]
  ++ (if use_legacy_landlock then [lit "--use-legacy-landlock"] else [])
  ++ (if allow_network_for_proxy then [lit "--allow-network-for-proxy"] else [])
  ++ [lit "--"] ++ command.

Record SandboxCommand : Type := {
  program : str; args : list str; cmd_cwd : str; cmd_env : gmap str str; cmd_permissions : option PermissionProfile }.
Inductive SandboxTransformError : Type := MissingLinuxSandboxExecutable | SeatbeltUnavailable.
Definition transform_error_display (e : SandboxTransformError) : str :=
  match e with
  | MissingLinuxSandboxExecutable => lit "missing codex-linux-sandbox executable path"
  | SeatbeltUnavailable => lit "seatbelt sandbox is only available on macOS"
  end.
Definition linux_sandbox_arg0_override (exe : str) : str :=
  if bool_decide (file_name exe = Some CODEX_LINUX_SANDBOX_ARG0) then exe else CODEX_LINUX_SANDBOX_ARG0.
Section transform.
Context `{PolicyJson} {NetworkProxy : Type}.
(** [create_seatbelt_command_args_for_policies]. *)
Variable seatbelt_args : list str → FileSystemSandboxPolicy → NetworkSandboxPolicy → str → bool → option NetworkProxy → list str.
Record SandboxTransformRequest : Type := {
  req_command : SandboxCommand; req_policy : SandboxPolicy; req_file_system_policy : FileSystemSandboxPolicy;
  req_network_policy : NetworkSandboxPolicy; req_sandbox : SandboxType; enforce_managed_network : bool;
  req_network : option NetworkProxy; sandbox_policy_cwd : str; codex_linux_sandbox_exe : option str; use_legacy_landlock : bool }.
Record SandboxExecRequest : Type := {
  exec_command : list str; exec_cwd : str; exec_env : gmap str str; exec_network : option NetworkProxy; exec_sandbox : SandboxType;
  exec_sandbox_policy : SandboxPolicy; exec_file_system_policy : FileSystemSandboxPolicy; exec_network_policy : NetworkSandboxPolicy;
  exec_arg0 : option str }.
Definition transform (os : target_os) (r : SandboxTransformRequest) : outcome SandboxTransformError SandboxExecRequest :=
  let command := req_command r in
  let additional := cmd_permissions command in
  let effective_policy := effective_sandbox_permissions (req_policy r) additional in
  let effective_fs := effective_file_system_sandbox_policy (req_file_system_policy r) additional in
  let effective_network := effective_network_sandbox_policy (req_network_policy r) additional in
  let argv := program command :: args command in
  let result :=
    match req_sandbox r with
    | SandboxNone | WindowsRestrictedToken => Ok (argv, None)
    | MacosSeatbelt =>
        match os with
        | MacOS => Ok (MACOS_PATH_TO_SEATBELT_EXECUTABLE
                         :: seatbelt_args argv effective_fs effective_network (sandbox_policy_cwd r) (enforce_managed_network r) (req_network r), None)
        | _ => Err SeatbeltUnavailable
        end
    | LinuxSeccomp =>
        match codex_linux_sandbox_exe r with
        | None => Err MissingLinuxSandboxExecutable
        | Some exe =>
            Ok (exe :: create_linux_sandbox_command_args_for_policies argv (cmd_cwd command) effective_policy effective_fs effective_network
                         (sandbox_policy_cwd r) (use_legacy_landlock r) (allow_network_for_proxy (enforce_managed_network r)),
                Some (linux_sandbox_arg0_override exe))
        end
    end in
  '(argv, arg0) ← result;
  Ok {| exec_command := argv; exec_cwd := cmd_cwd command; exec_env := cmd_env command; exec_network := req_network r;
        exec_sandbox := req_sandbox r; exec_sandbox_policy := effective_policy; exec_file_system_policy := effective_fs;
        exec_network_policy := effective_network; exec_arg0 := arg0 |}.
End transform.
Arguments SandboxTransformRequest : clear implicits.
Arguments SandboxExecRequest : clear implicits.

(** * Lemmas *)

Inductive permission : Type := MayRead (p : str) | MayWrite (p : str) | MayUseNetwork.
Definition profile_allows (p : PermissionProfile) (x : permission) : bool :=
  match x with
  | MayRead q => contains_path (default [] (file_system p ≫= read)) q
  | MayWrite q => contains_path (default [] (file_system p ≫= write)) q
  | MayUseNetwork => network_enabled (network p)
  end.
Definition allows_option (o : option PermissionProfile) (x : permission) : bool :=
  match o with Some p => profile_allows p x | None => false end.

Lemma contains_path_spec l p : contains_path l p = true ↔ ∃ q, q ∈ l ∧ path_eq q p.
Proof. unfold contains_path. rewrite existsb_elem. setoid_rewrite bool_decide_eq_true. done. Qed.
Lemma contains_path_app l k p : contains_path (l ++ k) p = contains_path l p || contains_path k p.
Proof. apply existsb_app. Qed.
Lemma contains_path_eq l p q : path_eq p q → contains_path l p = contains_path l q.
Proof.
  intros E. apply eq_bool_prop_intro. rewrite !Is_true_true, !contains_path_spec. unfold path_eq in *. by rewrite E.
Qed.
Lemma contains_path_dedup l p : contains_path (dedup_loop id [] l) p = contains_path l p.
Proof.
  apply eq_bool_prop_intro. rewrite !Is_true_true, !contains_path_spec. split.
  - intros (q & Hq & E). exists q. split; [by eapply dedup_loop_subset|done].
  - intros (q & Hq & E). destruct (dedup_loop_covers id [] l q Hq) as [(x & Hx & Ex)|(x & Hx & _)]; [|by apply elem_of_nil in Hx].
    exists x. split; [done|]. unfold path_eq, id in *. congruence.
Qed.
Lemma filter_nonempty_paths (l : list str) p :
  contains_path (default [] (option_filter (λ l, negb (bool_decide (l = []))) (Some l))) p = contains_path l p.
Proof. by destruct l. Qed.
Lemma merge_paths_contains b r p :
  contains_path (default [] (merge_permission_paths b r)) p = contains_path (default [] b) p || contains_path (default [] r) p.
Proof.
  destruct b as [b|], r as [r|]; cbn [merge_permission_paths default]; rewrite ?orb_false_r; try done.
  by rewrite filter_nonempty_paths, contains_path_dedup, contains_path_app.
Qed.
Lemma intersect_paths_contains a b p :
  contains_path (default [] (intersect_permission_paths a b)) p = contains_path (default [] a) p && contains_path (default [] b) p.
Proof.
  destruct a as [[|q l]|]; cbn [intersect_permission_paths default]; [by destruct b| |done].
  rewrite filter_nonempty_paths. apply eq_bool_prop_intro. rewrite andb_True, !Is_true_true, !contains_path_spec. split.
  - intros (x & [Hb Hx]%list_elem_of_filter & E). split; [by exists x|]. apply contains_path_spec.
    by rewrite <-(contains_path_eq _ _ _ E).
  - intros [(x & Hx & E) Hb]. exists x. split; [|done]. apply list_elem_of_filter. split; [|done].
    rewrite (contains_path_eq _ _ _ E). by apply contains_path_spec.
Qed.
Lemma filter_file_system f (g : FileSystemPermissions → option (list str)) : g = read ∨ g = write →
  (option_filter (λ f, negb (file_system_is_empty f)) (Some f) ≫= g) = g f.
Proof. intros [-> | ->]; destruct f as [[] []]; done. Qed.

Lemma option_filter_profile p x : allows_option (option_filter (λ p, negb (profile_is_empty p)) (Some p)) x = profile_allows p x.
Proof. destruct p as [[n|] [f|]]; try done. by destruct x. Qed.
Lemma merge_allows base permissions x :
  allows_option (merge_permission_profiles base permissions) x = allows_option base x || allows_option permissions x.
Proof.
  destruct permissions as [[pn pf]|]; [|by rewrite orb_false_r]. destruct base as [[bn bf]|]; cbn [merge_permission_profiles];
    rewrite option_filter_profile; [|done].
  assert (Hg : ∀ g q, g = read ∨ g = write →
    contains_path (default [] (match bf, pf with
      | Some b, Some p => option_filter (λ f, negb (file_system_is_empty f))
          (Some {| read := merge_permission_paths (read b) (read p); write := merge_permission_paths (write b) (write p) |})
      | Some b, None => Some b | None, Some p => Some p | None, None => None end ≫= g)) q
    = contains_path (default [] (bf ≫= g)) q || contains_path (default [] (pf ≫= g)) q).
  { intros g q Hg. destruct bf as [b|], pf as [f|]; cbn [default mbind option_bind]; rewrite ?orb_false_r; try done.
    rewrite filter_file_system by done. by destruct Hg as [-> | ->]; cbn [read write]; apply merge_paths_contains. }
  destruct x; cbn [allows_option profile_allows network file_system]; [apply Hg; auto|apply Hg; auto|].
  by destruct (network_enabled bn || network_enabled pn).
Qed.
Lemma intersect_allows requested granted x :
  profile_allows (intersect_permission_profiles requested granted) x = profile_allows requested x && profile_allows granted x.
Proof.
  destruct x as [q|q|]; unfold intersect_permission_profiles; cbn [profile_allows network file_system];
    [| |by destruct (network_enabled (network requested) && network_enabled (network granted))].
  all: destruct (file_system requested) as [f|]; [|done]; cbn [fmap option_fmap option_map]; rewrite filter_file_system by auto;
    cbn [read write]; rewrite intersect_paths_contains; by destruct (file_system granted).
Qed.
Lemma contains_paths_eq l k p : paths_eq l k = true → contains_path l p = contains_path k p.
Proof.
  unfold paths_eq. intros E%bool_decide_eq_true. apply eq_bool_prop_intro. rewrite !Is_true_true, !contains_path_spec.
  assert (Hc : ∀ l : list str, (∃ q, q ∈ l ∧ path_eq q p) ↔ components p ∈ components <$> l).
  { intros l'. unfold path_eq. rewrite list_elem_of_fmap. naive_solver. }
  by rewrite !Hc, E.
Qed.
Lemma profile_eq_allows a b x : profile_eq a b = true → profile_allows a x = profile_allows b x.
Proof.
  unfold profile_eq. intros [Hn Hf]%andb_true_iff. destruct x as [q|q|]; cbn.
  - destruct (file_system a) as [f|], (file_system b) as [g|]; try done. apply andb_true_iff in Hf as [Hr _]. cbn.
    destruct (read f), (read g); try done. by apply contains_paths_eq.
  - destruct (file_system a) as [f|], (file_system b) as [g|]; try done. apply andb_true_iff in Hf as [_ Hw]. cbn.
    destruct (write f), (write g); try done. by apply contains_paths_eq.
  - destruct (network a) as [[n]|], (network b) as [[m]|]; try done. apply bool_decide_eq_true in Hn. cbn in Hn. by subst.
Qed.

(** ** Entries that are added to a policy *)

Definition resolved_as (a : FileSystemAccessMode) (p : str) : ResolvedFileSystemEntry := {| resolved_path := p; resolved_access := a |}.
Lemma contains_entry_spec l p a :
  contains_entry l p a = true ↔ ∃ q, path_entry a q ∈ l ∧ path_eq q p.
Proof.
  unfold contains_entry. rewrite existsb_elem. split.
  - intros ([[q|s] a'] & He & [Hq Ha]%andb_true_iff); [|done]. apply bool_decide_eq_true in Hq, Ha. cbn in Ha. subst. by exists q.
  - intros (q & He & E). exists (path_entry a q). split; [done|]. cbn. by rewrite !bool_decide_true.
Qed.
Lemma push_entries_spec a roots : ∀ l, ∃ new, push_entries a roots l = l ++ (path_entry a <$> new) ∧ new ⊆ roots
  ∧ ∀ r, r ∈ roots → ∃ q, path_entry a q ∈ l ++ (path_entry a <$> new) ∧ path_eq q r.
Proof.
  induction roots as [|r roots IH]; intros l; cbn [push_entries].
  { exists []. rewrite app_nil_r. split_and!; [done|done|by intros ? ?%elem_of_nil]. }
  destruct (contains_entry l r a) eqn:Ec.
  - destruct (IH l) as (new & -> & Hs & Hr). exists new. split_and!; [done|set_solver|].
    intros q [->|Hq]%elem_of_cons; [|by apply Hr]. apply contains_entry_spec in Ec as (q & Hq & E). exists q. set_solver.
  - destruct (IH (l ++ [path_entry a r])) as (new & E & Hs & Hr). unfold path_entry at 1 in E.
    exists (r :: new). rewrite E, <-app_assoc. split_and!; [done|set_solver|].
    intros q [->|Hq]%elem_of_cons; [exists r; split; [set_solver|done]|]. destruct (Hr q Hq) as (q' & Hq' & E').
    exists q'. rewrite <-app_assoc in Hq'. done.
Qed.
Section resolve.
Context `{PermEnv}.
Lemma resolve_path_entries a l cwd : resolve_entries (path_entry a <$> l) cwd = Ok (resolved_as a <$> l).
Proof. induction l as [|p l IH]; [done|]. cbn [fmap list_fmap resolve_entries]. cbn. by rewrite IH. Qed.
Lemma resolve_entries_member l cwd k a q : resolve_entries l cwd = Ok k → path_entry a q ∈ l → resolved_as a q ∈ k.
Proof.
  revert k. induction l as [|e l IH]; intros k; [by intros _ ?%elem_of_nil|]. cbn [resolve_entries].
  intros (o & Ho & (rest & Hr & [= <-])%bind_Ok_inv)%bind_Ok_inv [<-|Hin]%elem_of_cons.
  - cbn in Ho. injection Ho as <-. by left.
  - destruct o; [right|]; by apply IH.
Qed.
End resolve.

(** A list of entries to which read and write entries for some roots, and no
    others, are added. *)
Definition entry_for (reads writes : list str) (e : ResolvedFileSystemEntry) : Prop :=
  resolved_access e = Read ∧ resolved_path e ∈ reads ∨ resolved_access e = Write ∧ resolved_path e ∈ writes.
Lemma added_bounded reads writes l new c a a' :
  Forall (entry_for reads writes) new → grants l c a → grants (l ++ new) c a' →
  (can_write a' = true → can_write a = true ∨ ∃ w, w ∈ writes ∧ path_starts_with w c = true)
  ∧ (can_read a' = true → can_read a = true ∨ ∃ r, r ∈ reads ++ writes ∧ path_starts_with r c = true)
  ∧ ((∀ r, r ∈ reads ++ writes → path_starts_with r c = false) → a' = a).
Proof.
  intros Hnew Ha [(e & [He|He]%elem_of_app & Hc & <- & Hm)|[-> Hn]].
  - assert (Hg : grants l c (resolved_access e)). { left. exists e. split_and!; [done..|]. intros e' He'. apply Hm. set_solver. }
    rewrite (grants_unique _ _ _ _ Ha Hg). auto.
  - rewrite Forall_forall in Hnew. apply Hnew in He as [[-> He]|[-> He]]; unfold covers in Hc.
    + split_and!; [done|right; exists (resolved_path e); set_solver|]. intros Ho. rewrite Ho in Hc by set_solver. done.
    + split_and!; [right; eauto|right; exists (resolved_path e); set_solver|]. intros Ho. rewrite Ho in Hc by set_solver. done.
  - assert (Hg : grants l c NoAccess) by (right; split; [done|]; intros e He; apply Hn; set_solver).
    rewrite (grants_unique _ _ _ _ Ha Hg). auto.
Qed.
(** An entry for exactly a path is outranked there only by another for it. *)
Lemma exact_entry_wins l c q mode a :
  resolved_as mode q ∈ l → path_eq q c → grants l c a →
  ∃ e, e ∈ l ∧ path_eq (resolved_path e) c ∧ resolved_access e = a ∧ access_rank mode ≤ access_rank a.
Proof.
  intros Hq E Hg. assert (Hcq : covers c (resolved_as mode q)).
  { unfold covers, path_starts_with. cbn. unfold path_eq in E. rewrite E. apply path_starts_with_refl. }
  destruct Hg as [(e & He & Hc & <- & Hm)|[-> Hn]]; [|by destruct (Hn _ Hq)].
  specialize (Hm _ Hq Hcq). rewrite outranks_spec in Hm. cbn in Hm.
  assert (Hlen : length (components (resolved_path e)) ≤ length (components c)).
  { apply path_starts_with_spec in Hc as [k Hk]. rewrite Hk, length_app. lia. }
  unfold path_eq in E. rewrite E in Hm. assert (Hl : length (components (resolved_path e)) = length (components c)) by lia.
  exists e. split_and!; [done| |done|lia].
  pose proof (covering_same_length c e _ Hc Hcq) as Hp. cbn in Hp. unfold path_eq in *. rewrite E in Hp. auto.
Qed.
Section effective.
Context `{PermEnvLaws}.
Lemma effective_resolved p perms cwd l :
  fs_kind p = FsRestricted → resolved_entries_with_cwd p cwd = Ok l →
  let p' := effective_file_system_sandbox_policy p (Some perms) in
  let '(reads, writes) := additional_permission_roots perms in
  ∃ new, resolved_entries_with_cwd p' cwd = Ok (l ++ new) ∧ fs_kind p' = FsRestricted ∧ Forall (entry_for reads writes) new
    ∧ (∀ r, r ∈ reads → ∃ q, resolved_as Read q ∈ l ++ new ∧ path_eq q r)
    ∧ (∀ w, w ∈ writes → ∃ q, resolved_as Write q ∈ l ++ new ∧ path_eq q w).
Proof.
  intros Hk Hl p'. unfold p', effective_file_system_sandbox_policy. destruct (additional_permission_roots perms) as [reads writes].
  assert (Hm : ∃ new, resolved_entries_with_cwd (merge_file_system_policy_with_additional_permissions p reads writes) cwd = Ok (l ++ new)
    ∧ fs_kind (merge_file_system_policy_with_additional_permissions p reads writes) = FsRestricted ∧ Forall (entry_for reads writes) new
    ∧ (∀ r, r ∈ reads → ∃ q, resolved_as Read q ∈ l ++ new ∧ path_eq q r)
    ∧ (∀ w, w ∈ writes → ∃ q, resolved_as Write q ∈ l ++ new ∧ path_eq q w)).
  { unfold merge_file_system_policy_with_additional_permissions, resolved_entries_with_cwd in *. rewrite Hk. cbn [entries fs_kind].
    destruct (push_entries_spec Read reads (entries p)) as (nr & Er & Hsr & Hr). rewrite Er in *.
    destruct (push_entries_spec Write writes (entries p ++ (path_entry Read <$> nr))) as (nw & Ew & Hsw & Hw). rewrite Ew in *.
    pose proof (resolve_entries_app _ _ _ _ _ Hl (resolve_path_entries Read nr (ok (from_absolute_path cwd)))) as H1.
    pose proof (resolve_entries_app _ _ _ _ _ H1 (resolve_path_entries Write nw (ok (from_absolute_path cwd)))) as H2.
    exists ((resolved_as Read <$> nr) ++ (resolved_as Write <$> nw)). rewrite app_assoc. split_and!; [done|done| | |].
    - apply Forall_app. split; apply Forall_fmap, Forall_forall; intros q Hq; [left; split; [done|by apply Hsr]|right; split; [done|by apply Hsw]].
    - intros r Hin. destruct (Hr r Hin) as (q & Hq & E). exists q. split; [|done].
      eapply resolve_entries_member; [exact H2|]. set_solver.
    - intros w Hin. destruct (Hw w Hin) as (q & Hq & E). exists q. split; [|done]. by eapply resolve_entries_member. }
  destruct reads as [|r reads], writes as [|w writes]; [|exact Hm..].
  exists []. rewrite app_nil_r. split_and!; try done; by intros ? ?%elem_of_nil.
Qed.
End effective.

Lemma effective_scope `{PermEnvLaws} p perms cwd l candidate c :
  fs_kind p = FsRestricted → resolved_entries_with_cwd p cwd = Ok l → resolve_candidate_path candidate cwd = Some c →
  let p' := effective_file_system_sandbox_policy p (Some perms) in
  let '(reads, writes) := additional_permission_roots perms in
  ∃ a a', resolve_access_with_cwd p candidate cwd = Ok a ∧ resolve_access_with_cwd p' candidate cwd = Ok a'
    ∧ (can_write a' = true → can_write a = true ∨ ∃ w, w ∈ writes ∧ path_starts_with w c = true)
    ∧ (can_read a' = true → can_read a = true ∨ ∃ r, r ∈ reads ++ writes ∧ path_starts_with r c = true)
    ∧ ((∀ r, r ∈ reads ++ writes → path_starts_with r c = false) → a' = a)
    ∧ (¬ denied_at l c → (∃ w, w ∈ writes ∧ path_eq w c) → a' = Write)
    ∧ (¬ denied_at l c → (∃ r, r ∈ reads ∧ path_eq r c) → can_read a' = true).
Proof.
  intros Hk Hl Hc. pose proof (effective_resolved p perms cwd l Hk Hl) as Heff. cbv zeta in *.
  destruct (additional_permission_roots perms) as [reads writes]. destruct Heff as (new & Hl' & Hk' & Hnew & Hr & Hw).
  destruct (resolve_access_eq p candidate cwd c l Hk Hc Hl) as (a & Ea & Ha).
  destruct (resolve_access_eq _ candidate cwd c _ Hk' Hc Hl') as (a' & Ea' & Ha'). exists a, a'.
  destruct (added_bounded _ _ _ _ _ _ _ Hnew Ha Ha') as (B1 & B2 & B3).
  assert (Hexact : ∀ mode q, resolved_as mode q ∈ l ++ new → path_eq q c → ¬ denied_at l c → a' ≠ NoAccess ∧ access_rank mode ≤ access_rank a').
  { intros mode q Hq E Hd. destruct (exact_entry_wins _ _ _ _ _ Hq E Ha') as (e & [He|He]%elem_of_app & Hp & Hae & Hrank); (split; [|done]).
    - intros ->. by destruct Hd; exists e.
    - rewrite Forall_forall in Hnew. destruct (Hnew _ He) as [[? _]|[? _]]; congruence. }
  split_and!; [done..| |]; intros Hd (q0 & Hin & E).
  - destruct (Hw _ Hin) as (q & Hq & E'). destruct (Hexact _ q Hq) as [? ?]; [by unfold path_eq in *; congruence|done|].
    destruct a'; cbn in *; (done || lia).
  - destruct (Hr _ Hin) as (q & Hq & E'). destruct (Hexact _ q Hq) as [? _]; [by unfold path_eq in *; congruence|done|]. by destruct a'.
Qed.

(** * Properties *)

(** What profiles mean under the two operations: a merge allows what either
    allows, an intersection what both allow; nothing is lost and nothing is
    gained, whatever lists are absent, empty or repeat paths. *)
Theorem merge_and_intersect_semantics (base permissions : option PermissionProfile) (requested granted : PermissionProfile) (x : permission) :
  allows_option (merge_permission_profiles base permissions) x = allows_option base x || allows_option permissions x
  ∧ profile_allows (intersect_permission_profiles requested granted) x = profile_allows requested x && profile_allows granted x.
Proof. split; [apply merge_allows|apply intersect_allows]. Qed.

(** C25. The policy that results from additional permissions changes the access of
    paths below the granted roots only, makes nothing writable outside the
    granted writable roots and nothing readable outside the granted roots; each
    granted root is writable, or readable, unless an entry denies exactly it. *)
Theorem additional_permissions_scope `{PermEnvLaws} p perms cwd l candidate c :
  fs_kind p = FsRestricted → resolved_entries_with_cwd p cwd = Ok l → resolve_candidate_path candidate cwd = Some c →
  let p' := effective_file_system_sandbox_policy p (Some perms) in
  let '(reads, writes) := additional_permission_roots perms in
  ∃ a a', resolve_access_with_cwd p candidate cwd = Ok a ∧ resolve_access_with_cwd p' candidate cwd = Ok a'
    ∧ (can_write a' = true → can_write a = true ∨ ∃ w, w ∈ writes ∧ path_starts_with w c = true)
    ∧ (can_read a' = true → can_read a = true ∨ ∃ r, r ∈ reads ++ writes ∧ path_starts_with r c = true)
    ∧ ((∀ r, r ∈ reads ++ writes → path_starts_with r c = false) → a' = a)
    ∧ (¬ denied_at l c → (∃ w, w ∈ writes ∧ path_eq w c) → a' = Write)
    ∧ (¬ denied_at l c → (∃ r, r ∈ reads ∧ path_eq r c) → can_read a' = true).
Proof. apply effective_scope. Qed.

(** A path that is writable through an entry for a directory above it stops
    being writable when additional permission to read it is granted, while the
    legacy policy keeps its writable roots: the entry that is added is the more
    specific one. *)
Theorem additional_read_revokes_write `{PermEnvLaws} p cwd l r c roots ro net t1 t2 :
  fs_kind p = FsRestricted → resolved_entries_with_cwd p cwd = Ok l → resolve_candidate_path r cwd = Some c → path_eq r c →
  resolve_access_with_cwd p r cwd = Ok Write → (∀ e, e ∈ l → ¬ path_eq (resolved_path e) c) →
  let perms := {| network := None; file_system := Some {| read := Some [r]; write := None |} |} in
  resolve_access_with_cwd (effective_file_system_sandbox_policy p (Some perms)) r cwd = Ok Read
  ∧ ∃ ro', effective_sandbox_policy (WorkspaceWrite roots ro net t1 t2) (Some perms) = WorkspaceWrite (dedup_roots (roots ++ [])) ro' net t1 t2.
Proof.
  intros Hk Hl Hc E Hw Hno perms. split.
  - pose proof (effective_resolved p perms cwd l Hk Hl) as Heff. cbv zeta in Heff.
    change (additional_permission_roots perms) with ([r], @nil str) in Heff. cbv beta iota in Heff.
    destruct Heff as (new & Hl' & Hk' & Hnew & Hr & _). destruct (resolve_access_eq _ r cwd c _ Hk' Hc Hl') as (a' & -> & Ha').
    destruct (Hr r) as (q & Hq & Eq); [by left|].
    assert (Eqc : path_eq q c) by (unfold path_eq in *; congruence).
    destruct (exact_entry_wins _ _ _ _ _ Hq Eqc Ha') as (e & [He|He]%elem_of_app & Hp & Hae & _);
      [by destruct (Hno _ He)|]. rewrite Forall_forall in Hnew.
    destruct (Hnew _ He) as [[? _]|[_ ?%elem_of_nil]]; [congruence|done].
  - eexists. cbn. unfold merge_network_access. cbn. by rewrite orb_false_r.
Qed.

(** On Linux a sandboxed command becomes the helper, its policies (the ones that
    result from the command's additional permissions) and, after [--], the
    command as it was given; without a sandbox the command runs as it is; the
    only errors are a sandbox of another system and a helper that is missing. *)
Theorem linux_transform_spec `{PolicyJson} {NetworkProxy : Type} (seatbelt_args : list str → FileSystemSandboxPolicy → NetworkSandboxPolicy → str → bool → option NetworkProxy → list str)
    (r : SandboxTransformRequest NetworkProxy) :
  let argv := program (req_command r) :: args (req_command r) in
  let additional := cmd_permissions (req_command r) in
  match transform seatbelt_args Linux r with
  | Ok e =>
      exec_sandbox e = req_sandbox r ∧ exec_cwd e = cmd_cwd (req_command r) ∧ exec_env e = cmd_env (req_command r)
      ∧ exec_file_system_policy e = effective_file_system_sandbox_policy (req_file_system_policy r) additional
      ∧ exec_network_policy e = effective_network_sandbox_policy (req_network_policy r) additional
      ∧ match req_sandbox r with
        | LinuxSeccomp =>
            ∃ exe flags, codex_linux_sandbox_exe r = Some exe ∧ exec_command e = exe :: flags ++ lit "--" :: argv
              ∧ take 10 flags = [lit "--sandbox-policy-cwd"; sandbox_policy_cwd r; lit "--command-cwd"; exec_cwd e;
                   lit "--sandbox-policy"; sandbox_policy_json (effective_sandbox_policy (req_policy r) additional);
                   lit "--file-system-sandbox-policy"; file_system_policy_json (exec_file_system_policy e);
                   lit "--network-sandbox-policy"; network_policy_json (exec_network_policy e)]
              ∧ (lit "--allow-network-for-proxy" ∈ drop 10 flags ↔ enforce_managed_network r = true)
        | _ => exec_command e = argv ∧ exec_arg0 e = None
        end
  | Err MissingLinuxSandboxExecutable => req_sandbox r = LinuxSeccomp ∧ codex_linux_sandbox_exe r = None
  | Err SeatbeltUnavailable => req_sandbox r = MacosSeatbelt
  | Panic | OutOfFuel => False
  end.
Proof.
  cbv zeta. unfold transform. destruct (req_sandbox r) eqn:Es; cbn [mbind]; run_bind; try done.
  destruct (codex_linux_sandbox_exe r) as [exe|] eqn:Ee; [|done]. run_bind. cbn [exec_sandbox exec_cwd exec_env exec_file_system_policy exec_network_policy exec_command].
  split_and!; try done. eexists exe, ([_; _; _; _; _; _; _; _; _; _] ++ (if use_legacy_landlock r then [lit "--use-legacy-landlock"] else [])
    ++ (if enforce_managed_network r then [lit "--allow-network-for-proxy"] else [])).
  split; [done|]. split; [|split].
  - unfold create_linux_sandbox_command_args_for_policies, allow_network_for_proxy. rewrite <-!app_assoc. reflexivity.
  - cbn. f_equal. unfold effective_sandbox_permissions, effective_sandbox_policy. by destruct (cmd_permissions (req_command r)).
  - cbn [app drop]. destruct (use_legacy_landlock r), (enforce_managed_network r); cbn; vm_compute; set_solver.
Qed.

(** * Witnesses *)

Definition sample_grant : PermissionProfile :=
  {| network := Some {| enabled := Some true |}; file_system := Some {| read := Some [lit "/work/src"]; write := Some [lit "/opt"] |} |}.
Definition sample_entries : list ResolvedFileSystemEntry :=
  default [] (ok (@resolved_entries_with_cwd perm_env perm_policy (lit "/work"))).
Lemma additional_permissions_scope_witness :
  ∃ a a', @resolve_access_with_cwd perm_env perm_policy (lit "/opt/tool") (lit "/work") = Ok a
    ∧ @resolve_access_with_cwd perm_env (effective_file_system_sandbox_policy perm_policy (Some sample_grant)) (lit "/opt/tool") (lit "/work") = Ok a'
    ∧ (can_write a' = true → can_write a = true ∨ ∃ w, w ∈ [lit "/opt"] ∧ path_starts_with w (lit "/opt/tool") = true).
Proof.
  destruct (additional_permissions_scope (H := perm_env) perm_policy sample_grant (lit "/work") sample_entries (lit "/opt/tool") (lit "/opt/tool"))
    as (a & a' & Ha & Ha' & Hw & _); [done|vm_compute; reflexivity|vm_compute; reflexivity|]. by exists a, a'.
Defined.
Lemma additional_read_revokes_write_witness :
  @resolve_access_with_cwd perm_env perm_policy (lit "/work/src") (lit "/work") = Ok Write
  ∧ @resolve_access_with_cwd perm_env
      (effective_file_system_sandbox_policy perm_policy
         (Some {| network := None; file_system := Some {| read := Some [lit "/work/src"]; write := None |} |})) (lit "/work/src") (lit "/work") = Ok Read.
Proof.
  split; [vm_compute; reflexivity|].
  apply (additional_read_revokes_write (H := perm_env) perm_policy (lit "/work") sample_entries (lit "/work/src") (lit "/work/src")
           [lit "/work"] FullAccess false false false); try (vm_compute; reflexivity).
  intros e He E. vm_compute in He. repeat (apply elem_of_cons in He as [->|He]; [by vm_compute in E|]). by apply elem_of_nil in He.
Defined.
