(* ===== verification/PermissionGrants.v ===== *)
(** Permissions that are granted during a turn or a session, and what a command
    may use of them: [codex-rs/core/src/tools/handlers/mod.rs], the grants that
    [core/src/state/turn.rs] and [session.rs] keep, and the requests and
    responses of [core/src/codex.rs]. *)
From stdpp Require Import gmap relations.
From S2P Require Import Prelude RustStr RustPath FileSystem AbsolutePath Protocol Permissions SandboxTransform.

(** * Commands with additional permissions *)

Definition uses_additional_permissions (p : SandboxPermissions) : bool :=
  match p with WithAdditionalPermissions => true | _ => false end.
(** [{:?}] of an approval policy. *)
Definition show_bool (b : bool) : str := lit (if b then "true" else "false").
Definition debug_approval_policy (p : AskForApproval) : str :=
  match p with
  | UnlessTrusted => lit "UnlessTrusted" | OnFailure => lit "OnFailure" | OnRequest => lit "OnRequest" | Never => lit "Never"
  | Granular c =>
      lit "Granular(GranularApprovalConfig { sandbox_approval: " ++ show_bool (sandbox_approval c)
      ++ lit ", rules: " ++ show_bool (rules c) ++ lit ", skill_approval: " ++ show_bool (skill_approval c)
      ++ lit ", request_permissions: " ++ show_bool (request_permissions c)
      ++ lit ", mcp_elicitations: " ++ show_bool (mcp_elicitations c) ++ lit " })"
  end.
Definition is_on_request (p : AskForApproval) : bool := match p with OnRequest => true | _ => false end.

Section handlers.
Context `{PermEnv}.
Definition normalize_and_validate_additional_permissions (additional_permissions_allowed : bool) (policy : AskForApproval)
    (sandbox_permissions : SandboxPermissions) (additional : option PermissionProfile) (permissions_preapproved : bool)
    : outcome str (option PermissionProfile) :=
  let uses := uses_additional_permissions sandbox_permissions in
  if negb permissions_preapproved && negb additional_permissions_allowed && (uses || bool_decide (is_Some additional)) then
    Err (lit "additional permissions are disabled; enable `features.exec_permission_approvals` before using `with_additional_permissions`")
  else if uses then
    if negb permissions_preapproved && negb (is_on_request policy) then
      Err (lit "approval policy is " ++ debug_approval_policy policy
             ++ lit "; reject command — you cannot request additional permissions unless the approval policy is OnRequest")
    else
      match additional with
      | None =>
          Err (lit "missing `additional_permissions`; provide at least one of `network` or `file_system` when using `with_additional_permissions`")
      | Some additional =>
          normalized ← normalize_additional_permissions additional;
          if profile_is_empty normalized then
            Err (lit "`additional_permissions` must include at least one requested permission in `network` or `file_system`")
          else Ok (Some normalized)
      end
  else
    match additional with
    | Some _ => Err (lit "`additional_permissions` requires `sandbox_permissions` set to `with_additional_permissions`")
    | None => Ok None
    end.
End handlers.

Record EffectiveAdditionalPermissions : Type := {
  eff_sandbox_permissions : SandboxPermissions; eff_additional : option PermissionProfile; eff_preapproved : bool }.
Definition implicit_granted_permissions (sandbox_permissions : SandboxPermissions) (additional : option PermissionProfile)
    (e : EffectiveAdditionalPermissions) : option PermissionProfile :=
  match sandbox_permissions, additional with
  | UseDefault, None => eff_additional e
  | _, _ => None
  end.
(** [apply_granted_turn_permissions], given what the session and the turn have
    been granted. *)
Definition apply_granted_turn_permissions (granted_session granted_turn : option PermissionProfile)
    (sandbox_permissions : SandboxPermissions) (additional : option PermissionProfile) : EffectiveAdditionalPermissions :=
  match sandbox_permissions with
  | RequireEscalated =>
      {| eff_sandbox_permissions := sandbox_permissions; eff_additional := additional; eff_preapproved := false |}
  | _ =>
      let granted := merge_permission_profiles granted_session granted_turn in
      let effective := merge_permission_profiles additional granted in
      let preapproved :=
        match effective, granted with
        | Some effective, Some granted => profile_eq (intersect_permission_profiles effective granted) effective
        | _, _ => false
        end in
      {| eff_sandbox_permissions :=
           match effective with
           | Some _ => if uses_additional_permissions sandbox_permissions then sandbox_permissions else WithAdditionalPermissions
           | None => sandbox_permissions
           end;
         eff_additional := effective; eff_preapproved := preapproved |}
  end.

(** * Requests for permissions *)

Inductive PermissionGrantScope : Type := TurnScope | SessionScope.
Record RequestPermissionsResponse : Type := { response_permissions : PermissionProfile; scope : PermissionGrantScope }.
Definition record_granted_permissions (granted : option PermissionProfile) (permissions : PermissionProfile) : option PermissionProfile :=
  merge_permission_profiles granted (Some permissions).

(** A call of [request_permissions] waits on a one-shot channel, whose sender
    the turn keeps. *)
Inductive reply : Type := Waiting | Replied (r : RequestPermissionsResponse) | Cancelled.
Record TurnState : Type := { pending_request_permissions : gmap str nat; turn_granted : option PermissionProfile }.
Definition turn_default : TurnState := {| pending_request_permissions := ∅; turn_granted := None |}.
(** [answered] and [turn_answered] are the responses that reached a pending
    request, in the session and in the current turn. *)
Record grant_state : Type := {
  session_granted : option PermissionProfile; active_turn : option TurnState; replies : list reply;
  answered : list RequestPermissionsResponse; turn_answered : list RequestPermissionsResponse }.

Definition denies_request_permissions (policy : AskForApproval) : bool :=
  match policy with Never => true | Granular c => negb (request_permissions c) | _ => false end.
Definition empty_response : RequestPermissionsResponse := {| response_permissions := profile_default; scope := TurnScope |}.
Definition cancel (n : nat) (l : list reply) : list reply := alter (λ r, match r with Waiting => Cancelled | _ => r end) n l.
(** [Session::request_permissions], up to its wait: the index of the call's
    channel, and the state. *)
Definition session_request_permissions (policy : AskForApproval) (call_id : str) (s : grant_state) : nat * grant_state :=
  let n := length (replies s) in
  if denies_request_permissions policy then
    (n, {| session_granted := session_granted s; active_turn := active_turn s; replies := replies s ++ [Replied empty_response];
           answered := answered s; turn_answered := turn_answered s |})
  else
    match active_turn s with
    | Some ts =>
        let l := match pending_request_permissions ts !! call_id with Some m => cancel m (replies s) | None => replies s end in
        (n, {| session_granted := session_granted s;
               active_turn := Some {| pending_request_permissions := <[call_id := n]> (pending_request_permissions ts); turn_granted := turn_granted ts |};
               replies := l ++ [Waiting]; answered := answered s; turn_answered := turn_answered s |})
    | None =>
        (n, {| session_granted := session_granted s; active_turn := None; replies := replies s ++ [Cancelled];
               answered := answered s; turn_answered := turn_answered s |})
    end.
Definition notify_request_permissions_response (call_id : str) (r : RequestPermissionsResponse) (s : grant_state) : grant_state :=
  match active_turn s with
  | Some ts =>
      match pending_request_permissions ts !! call_id with
      | Some n =>
          let pending := delete call_id (pending_request_permissions ts) in
          let records := negb (profile_is_empty (response_permissions r)) in
          let for_turn := records && match scope r with TurnScope => true | SessionScope => false end in
          let for_session := records && match scope r with TurnScope => false | SessionScope => true end in
          {| session_granted := if for_session then record_granted_permissions (session_granted s) (response_permissions r) else session_granted s;
             active_turn := Some {| pending_request_permissions := pending;
                                    turn_granted := if for_turn then record_granted_permissions (turn_granted ts) (response_permissions r)
                                                    else turn_granted ts |};
             replies := alter (λ x, match x with Waiting => Replied r | _ => x end) n (replies s);
             answered := answered s ++ [r]; turn_answered := turn_answered s ++ [r] |}
      | None => s
      end
  | None => s
  end.
Definition cancel_all (m : gmap str nat) (l : list reply) : list reply := map_fold (λ _ n l, cancel n l) l m.
Definition end_turn (s : grant_state) : grant_state :=
  {| session_granted := session_granted s; active_turn := None;
     replies := match active_turn s with Some ts => cancel_all (pending_request_permissions ts) (replies s) | None => replies s end;
     answered := answered s; turn_answered := [] |}.
(** [get_or_insert_with(ActiveTurn::default)]. *)
Definition start_turn (s : grant_state) : grant_state :=
  match active_turn s with
  | Some _ => s
  | None => {| session_granted := session_granted s; active_turn := Some turn_default; replies := replies s; answered := answered s; turn_answered := [] |}
  end.
Definition clear_pending (s : grant_state) : grant_state :=
  match active_turn s with
  | Some ts =>
      {| session_granted := session_granted s; active_turn := Some {| pending_request_permissions := ∅; turn_granted := turn_granted ts |};
         replies := cancel_all (pending_request_permissions ts) (replies s); answered := answered s; turn_answered := turn_answered s |}
  | None => s
  end.
Definition granted_turn_permissions (s : grant_state) : option PermissionProfile := active_turn s ≫= turn_granted.

Inductive grant_step : grant_state → grant_state → Prop :=
| grant_request s policy call_id : grant_step s (session_request_permissions policy call_id s).2
| grant_respond s call_id r : grant_step s (notify_request_permissions_response call_id r s)
| grant_start s : grant_step s (start_turn s)
| grant_clear s : grant_step s (clear_pending s)
| grant_end s : grant_step s (end_turn s).
Definition no_grants : grant_state := {| session_granted := None; active_turn := None; replies := []; answered := []; turn_answered := [] |}.

(** * Lemmas *)

Definition some_allows (scoped : PermissionGrantScope) (l : list RequestPermissionsResponse) (x : permission) : Prop :=
  ∃ r, r ∈ l ∧ scope r = scoped ∧ profile_allows (response_permissions r) x = true.
Lemma some_allows_snoc sc l r x :
  some_allows sc (l ++ [r]) x ↔ some_allows sc l x ∨ scope r = sc ∧ profile_allows (response_permissions r) x = true.
Proof.
  unfold some_allows. split.
  - intros (r' & [Hr| ->%list_elem_of_singleton]%elem_of_app & Hs & Ha); [left; by exists r'|by right].
  - intros [(r' & Hr & Hs & Ha)|[Hs Ha]]; [exists r'|exists r]; set_solver.
Qed.
Lemma record_allows g p x : allows_option (record_granted_permissions g p) x = allows_option g x || profile_allows p x.
Proof. apply merge_allows. Qed.
Lemma empty_allows p x : profile_is_empty p = true → profile_allows p x = false.
Proof. destruct p as [[n|] [f|]]; try done. by destruct x. Qed.

(** What has been granted is what the answered requests allow. *)
Record grants_ok (s : grant_state) : Prop := {
  go_session x : allows_option (session_granted s) x = true ↔ some_allows SessionScope (answered s) x;
  go_turn x : allows_option (granted_turn_permissions s) x = true ↔ some_allows TurnScope (turn_answered s) x;
  go_answered : turn_answered s ⊆ answered s }.
Lemma no_grants_ok : grants_ok no_grants.
Proof. split; cbn; [..|done]; intros x; split; try done; by intros (r & Hr%elem_of_nil & _). Qed.
Lemma no_answers sc x : some_allows sc [] x ↔ false = true.
Proof. split; [|done]. by intros (r & Hr%elem_of_nil & _). Qed.
Lemma grants_ok_respond call_id r s : grants_ok s → grants_ok (notify_request_permissions_response call_id r s).
Proof.
  intros [Hs Ht Ha]. unfold notify_request_permissions_response. destruct (active_turn s) as [ts|] eqn:E; [|by split].
  destruct (pending_request_permissions ts !! call_id) as [n|]; [|by split].
  unfold granted_turn_permissions in Ht. rewrite E in Ht. cbn [mbind option_bind] in Ht.
  split; cbn [session_granted active_turn replies answered turn_answered granted_turn_permissions mbind option_bind turn_granted]; [| |set_solver].
  - intros x. rewrite some_allows_snoc, <-Hs. destruct (profile_is_empty (response_permissions r)) eqn:Ee, (scope r); cbn [negb andb];
      rewrite ?record_allows, ?(empty_allows _ _ Ee), ?orb_true_iff; naive_solver.
  - intros x. unfold granted_turn_permissions. cbn [active_turn mbind option_bind turn_granted].
    rewrite some_allows_snoc, <-Ht. destruct (profile_is_empty (response_permissions r)) eqn:Ee, (scope r); cbn [negb andb];
      rewrite ?record_allows, ?(empty_allows _ _ Ee), ?orb_true_iff; naive_solver.
Qed.
Lemma grants_ok_step s s' : grants_ok s → grant_step s s' → grants_ok s'.
Proof.
  intros Hok Hs. destruct Hs as [s policy call_id|s call_id r|s|s|s].
  - destruct Hok as [Hs Ht Ha]. unfold session_request_permissions, granted_turn_permissions in *.
    destruct (denies_request_permissions policy); [by split|]. destruct (active_turn s) as [ts|]; by split.
  - by apply grants_ok_respond.
  - destruct Hok as [Hs Ht Ha]. unfold start_turn. destruct (active_turn s) as [ts|] eqn:E; [by split|].
    split; cbn; [done| |set_solver]. intros x. by rewrite no_answers.
  - destruct Hok as [Hs Ht Ha]. unfold clear_pending, granted_turn_permissions in *. destruct (active_turn s) as [ts|] eqn:E; [by split|].
    split; [done| |done]. unfold granted_turn_permissions. by rewrite E.
  - destruct Hok as [Hs Ht Ha]. split; cbn; [done| |set_solver]. intros x. by rewrite no_answers.
Qed.
Lemma grants_ok_run s : rtc grant_step no_grants s → grants_ok s.
Proof. revert s. apply rtc_ind_r; [apply no_grants_ok|]. eauto using grants_ok_step. Qed.

Lemma preapproved_allows gs gt sp add x :
  eff_preapproved (apply_granted_turn_permissions gs gt sp add) = true →
  allows_option (eff_additional (apply_granted_turn_permissions gs gt sp add)) x = true →
  allows_option gs x = true ∨ allows_option gt x = true.
Proof.
  unfold apply_granted_turn_permissions. rewrite <-orb_true_iff, <-merge_allows.
  destruct sp; [|done|]; cbn [eff_preapproved eff_additional];
    destruct (merge_permission_profiles add _) as [e|]; try done; destruct (merge_permission_profiles gs gt) as [g|]; try done;
    intros He Hx; apply (profile_eq_allows _ _ x) in He; rewrite intersect_allows in He; cbn in Hx |- *; rewrite Hx in He; cbn in He; done.
Qed.

(** The profiles that are their own intersection: they do not deny the network
    in so many words, and name files if they mention them. *)
Definition restates_itself (g : PermissionProfile) : bool :=
  match network g with None | Some {| enabled := Some true |} => true | _ => false end
  && match file_system g with Some f => negb (file_system_is_empty f) | None => true end.
Lemma intersect_paths_self o : paths_option_eq (intersect_permission_paths o o) o = true.
Proof.
  destruct o as [[|p l]|]; [done| |done]. cbn [intersect_permission_paths default].
  rewrite filter_true; [by apply bool_decide_eq_true|]. intros q Hq. apply contains_path_spec. by exists q.
Qed.
Lemma intersect_paths_some o : is_Some (intersect_permission_paths o o) ↔ is_Some o.
Proof.
  pose proof (intersect_paths_self o) as Hs. destruct (intersect_permission_paths o o), o; try done; split; eauto.
Qed.
Lemma intersect_self g : profile_eq (intersect_permission_profiles g g) g = restates_itself g.
Proof.
  unfold profile_eq, restates_itself, intersect_permission_profiles. cbn [network file_system]. f_equal.
  - by destruct (network g) as [[[[]|]]|].
  - destruct (file_system g) as [f|]; [|done]. cbn [fmap option_fmap option_map default].
    assert (He : file_system_is_empty {| read := intersect_permission_paths (read f) (read f);
                                         write := intersect_permission_paths (write f) (write f) |} = file_system_is_empty f).
    { unfold file_system_is_empty. cbn [read write]. f_equal; apply bool_decide_ext; rewrite !eq_None_not_Some; by rewrite intersect_paths_some. }
    cbv beta zeta. cbn [default option_filter id read write]. rewrite He. destruct (file_system_is_empty f); [done|]. cbn [negb read write]. by rewrite !intersect_paths_self.
Qed.

(** ** Answers that come through the app server *)

(** The app server intersects an answer with what was asked for
    ([request_permissions_response_from_client_result]). *)
Inductive client_step : grant_state → grant_state → Prop :=
| client_request s policy call_id : client_step s (session_request_permissions policy call_id s).2
| client_respond s call_id asked answer sc :
    client_step s (notify_request_permissions_response call_id
      {| response_permissions := intersect_permission_profiles asked answer; scope := sc |} s)
| client_start s : client_step s (start_turn s)
| client_clear s : client_step s (clear_pending s)
| client_end s : client_step s (end_turn s).
Definition restates_option (o : option PermissionProfile) : Prop := ∀ g, o = Some g → restates_itself g = true ∧ profile_is_empty g = false.
Lemma intersect_restates a b : restates_itself (intersect_permission_profiles a b) = true.
Proof.
  unfold restates_itself, intersect_permission_profiles. cbn [network file_system]. apply andb_true_iff. split.
  - by destruct (network_enabled (network a) && network_enabled (network b)).
  - destruct (_ <$> file_system a) as [f|]; [|done]. cbn [option_filter]. destruct (negb (file_system_is_empty f)) eqn:E; [done|done].
Qed.
Lemma merge_restates o r : restates_option o → restates_option (Some r) ∨ profile_is_empty r = true ∧ restates_itself r = true →
  restates_option (merge_permission_profiles o (Some r)).
Proof.
  intros Ho Hr. assert (Hrr : restates_itself r = true) by (destruct Hr as [Hr|[_ ?]]; [by apply (Hr r)|done]).
  intros g. destruct o as [b|]; cbn [merge_permission_profiles].
  - destruct (Ho b eq_refl) as [Hb _]. unfold option_filter. destruct (negb _) eqn:E; [|done]. intros [= <-].
    split; [|by apply negb_true_iff]. clear E. unfold restates_itself in *. cbn [network file_system].
    rewrite andb_true_iff in Hb, Hrr. destruct Hb as [_ Hb], Hrr as [_ Hrr]. apply andb_true_iff. split.
    + by destruct (network_enabled (network b) || network_enabled (network r)).
    + destruct (file_system b) as [fb|], (file_system r) as [fr|]; try done. unfold option_filter.
      match goal with |- context [negb (file_system_is_empty ?f)] => destruct (negb (file_system_is_empty f)) eqn:E; [exact E|done] end.
  - unfold option_filter. destruct (profile_is_empty r) eqn:E; [done|]. by intros [= <-].
Qed.
Lemma record_restates o a b : profile_is_empty (intersect_permission_profiles a b) = false →
  restates_option o → restates_option (record_granted_permissions o (intersect_permission_profiles a b)).
Proof. intros He Ho. apply merge_restates; [done|left]. intros g [= <-]. split; [apply intersect_restates|done]. Qed.
Lemma client_grants_restate s : rtc client_step no_grants s → restates_option (session_granted s) ∧ restates_option (granted_turn_permissions s).
Proof.
  revert s. apply (rtc_ind_r (λ s, restates_option (session_granted s) ∧ restates_option (granted_turn_permissions s))); [by split|].
  intros s s' _ Hs [H1 H2]. destruct Hs as [s policy call_id|s call_id a b sc|s|s|s]; unfold granted_turn_permissions in *.
  - unfold session_request_permissions. destruct (denies_request_permissions policy); [by split|]. destruct (active_turn s) as [ts|]; by split.
  - unfold notify_request_permissions_response. destruct (active_turn s) as [ts|] eqn:E; [|by rewrite E].
    destruct (pending_request_permissions ts !! call_id) as [n|]; [|by rewrite E]. cbn [mbind option_bind] in H2.
    cbn [session_granted active_turn mbind option_bind turn_granted response_permissions scope].
    destruct (profile_is_empty (intersect_permission_profiles a b)) eqn:Ee; cbn [negb andb]; [by split|]. destruct sc; split; by try apply record_restates.
  - unfold start_turn. destruct (active_turn s) as [ts|] eqn:E; [by rewrite E|]. by split.
  - unfold clear_pending. destruct (active_turn s) as [ts|] eqn:E; [|by rewrite E]. by split.
  - by split.
Qed.
Lemma granted_restates gs gt : restates_option gs → restates_option gt → restates_option (merge_permission_profiles gs gt).
Proof. intros Hs Ht. destruct gt as [g|]; [|done]. apply merge_restates; [done|by left]. Qed.
(** What a command that asks for nothing gets. *)
Lemma default_effective gs gt : restates_option gs → restates_option gt →
  let e := apply_granted_turn_permissions gs gt UseDefault None in
  eff_additional e = merge_permission_profiles gs gt
  ∧ (eff_additional e = None ∧ eff_sandbox_permissions e = UseDefault
     ∨ is_Some (eff_additional e) ∧ eff_sandbox_permissions e = WithAdditionalPermissions ∧ eff_preapproved e = true).
Proof.
  intros Hs Ht. pose proof (granted_restates gs gt Hs Ht) as Hr. unfold apply_granted_turn_permissions.
  destruct (merge_permission_profiles gs gt) as [g|] eqn:Eg; [|by split; [|left]].
  destruct (Hr g eq_refl) as [H1 H2]. cbn [merge_permission_profiles]. unfold option_filter. rewrite H2. cbn. rewrite intersect_self. split; [done|right]. split_and!; eauto.
Qed.
(** * Properties *)

(** What a session and its turn have been granted is exactly what the answers
    to their requests allow: those for the session for good, those for a turn
    until it ends. Answers to requests that are not pending, to requests of an
    earlier turn and to requests the policy refuses grant nothing. *)
Theorem grants_are_the_answers s x :
  rtc grant_step no_grants s →
  (allows_option (session_granted s) x = true ↔ some_allows SessionScope (answered s) x)
  ∧ (allows_option (granted_turn_permissions s) x = true ↔ some_allows TurnScope (turn_answered s) x)
  ∧ (active_turn s = None → allows_option (granted_turn_permissions s) x = false).
Proof.
  intros Hr. destruct (grants_ok_run s Hr) as [Hs Ht _]. split_and!; [done|done|]. unfold granted_turn_permissions. by intros ->.
Qed.

(** C24. A command whose permissions count as approved in advance may use only what
    some answer has granted, whatever it asks for itself. *)
Theorem preapproved_permissions_were_granted s sandbox_permissions additional x :
  rtc grant_step no_grants s →
  let e := apply_granted_turn_permissions (session_granted s) (granted_turn_permissions s) sandbox_permissions additional in
  eff_preapproved e = true → allows_option (eff_additional e) x = true →
  ∃ r, r ∈ answered s ∧ profile_allows (response_permissions r) x = true ∧ (scope r = SessionScope ∨ r ∈ turn_answered s).
Proof.
  intros Hr e Hp Hx. destruct (grants_ok_run s Hr) as [Hs Ht Ha].
  destruct (preapproved_allows _ _ _ _ _ Hp Hx) as [(r & Hin & Hsc & Hal)%Hs|(r & Hin & Hsc & Hal)%Ht]; exists r; split_and!; auto.
Qed.

(** Additional permissions pass the checks of a command in three ways only:
    there are none; they are asked for under [OnRequest] with the feature on;
    or they are approved in advance. What passes is not empty, and every path in
    it is the canonical form of one that was asked for. *)
Theorem validated_permissions `{PermEnv} allowed policy sandbox_permissions additional preapproved out :
  normalize_and_validate_additional_permissions allowed policy sandbox_permissions additional preapproved = Ok out →
  match out with
  | None => sandbox_permissions ≠ WithAdditionalPermissions ∧ additional = None
  | Some p =>
      sandbox_permissions = WithAdditionalPermissions
      ∧ (preapproved = true ∨ allowed = true ∧ policy = OnRequest)
      ∧ profile_is_empty p = false
      ∧ ∃ asked, additional = Some asked ∧ ∀ g l q, g = read ∨ g = write → file_system p ≫= g = Some l → q ∈ l →
          ∃ l' q', file_system asked ≫= g = Some l' ∧ q' ∈ l' ∧ q = default q' (c ← canonicalize q'; ok (from_absolute_path c))
  end.
Proof.
  unfold normalize_and_validate_additional_permissions, normalize_additional_permissions.
  destruct (negb preapproved && negb allowed && _) eqn:E1; [done|].
  destruct (uses_additional_permissions sandbox_permissions) eqn:Eu; [|destruct additional; [done|]; intros [= <-]; by destruct sandbox_permissions].
  destruct (negb preapproved && negb (is_on_request policy)) eqn:E2; [done|].
  destruct additional as [asked|]; [|done]. run_bind. destruct (profile_is_empty _) eqn:Ee; [done|]. intros [= <-].
  split_and!; [by destruct sandbox_permissions| |done|].
  - destruct preapproved; [by left|right]. destruct allowed; [|done]. by destruct policy.
  - exists asked. split; [done|]. intros g l q Hg. cbn [file_system]. destruct (file_system asked) as [f|]; [|done].
    cbn [fmap option_fmap option_map]. rewrite filter_file_system by done. cbn [mbind option_bind].
    intros Hl Hq. destruct Hg as [-> | ->]; cbn [read write] in Hl;
      [destruct (read f) as [l'|]|destruct (write f) as [l'|]]; try done; injection Hl as <-;
      apply dedup_loop_elem in Hq as (q' & Hq' & ->); by exists l', q'.
Qed.

(** Grants apply to later commands without their asking: the permissions are the
    granted ones, approved in advance exactly if the profile is its own
    intersection. *)
Theorem sticky_grants_spec gs gt g :
  merge_permission_profiles gs gt = Some g → profile_is_empty g = false →
  apply_granted_turn_permissions gs gt UseDefault None
  = {| eff_sandbox_permissions := WithAdditionalPermissions; eff_additional := Some g; eff_preapproved := restates_itself g |}.
Proof.
  intros Hg He. unfold apply_granted_turn_permissions. rewrite Hg. cbn [merge_permission_profiles option_filter].
  rewrite He. cbn [negb]. by rewrite intersect_self.
Qed.

(** * Witnesses *)

Definition opt_grant : RequestPermissionsResponse :=
  {| response_permissions := {| network := None; file_system := Some {| read := None; write := Some [lit "/opt"] |} |}; scope := TurnScope |}.
(** A turn in which the model asked for a permission and got it. *)
Definition granted_state : grant_state :=
  notify_request_permissions_response (lit "c") opt_grant (session_request_permissions OnRequest (lit "c") (start_turn no_grants)).2.
Lemma granted_state_run : rtc grant_step no_grants granted_state.
Proof.
  eapply rtc_l; [apply grant_start|]. eapply rtc_l; [apply (grant_request _ OnRequest (lit "c"))|].
  apply rtc_once, grant_respond.
Qed.
Lemma granted_state_client_run : rtc client_step no_grants granted_state.
Proof.
  eapply rtc_l; [apply client_start|]. eapply rtc_l; [apply (client_request _ OnRequest (lit "c"))|].
  replace granted_state with (notify_request_permissions_response (lit "c")
    {| response_permissions := intersect_permission_profiles (response_permissions opt_grant) (response_permissions opt_grant); scope := TurnScope |}
    (session_request_permissions OnRequest (lit "c") (start_turn no_grants)).2) by (vm_compute; reflexivity).
  apply rtc_once, client_respond.
Qed.
Lemma grants_are_the_answers_witness :
  some_allows TurnScope (turn_answered granted_state) (MayWrite (lit "/opt"))
  ∧ ¬ some_allows TurnScope (turn_answered granted_state) (MayWrite (lit "/etc")).
Proof.
  destruct (grants_are_the_answers granted_state (MayWrite (lit "/opt")) granted_state_run) as (_ & H1 & _).
  destruct (grants_are_the_answers granted_state (MayWrite (lit "/etc")) granted_state_run) as (_ & H2 & _).
  split; [apply H1; vm_compute; reflexivity|]. intros Hx%H2. vm_compute in Hx. discriminate Hx.
Defined.
Lemma preapproved_permissions_were_granted_witness :
  ∃ r, r ∈ answered granted_state ∧ profile_allows (response_permissions r) (MayWrite (lit "/opt")) = true
    ∧ (scope r = SessionScope ∨ r ∈ turn_answered granted_state).
Proof.
  apply (preapproved_permissions_were_granted granted_state UseDefault None); [exact granted_state_run|vm_compute; reflexivity..].
Defined.
Lemma validated_permissions_witness :
  WithAdditionalPermissions = WithAdditionalPermissions ∧ (false = true ∨ true = true ∧ OnRequest = OnRequest).
Proof.
  destruct (validated_permissions (H := perm_env) true OnRequest WithAdditionalPermissions (Some (response_permissions opt_grant)) false
    (Some (response_permissions opt_grant))) as (H1 & H2 & _); [vm_compute; reflexivity|done].
Defined.
Lemma sticky_grants_spec_witness :
  apply_granted_turn_permissions (session_granted granted_state) (granted_turn_permissions granted_state) UseDefault None
  = {| eff_sandbox_permissions := WithAdditionalPermissions; eff_additional := Some (response_permissions opt_grant); eff_preapproved := true |}.
Proof. apply (sticky_grants_spec _ _ (response_permissions opt_grant)); vm_compute; reflexivity. Defined.
