(* ===== verification/Orchestrator.v ===== *)
(** The orchestrator of tools: [codex-rs/core/src/tools/orchestrator.rs], with
    the traits of [core/src/tools/sandboxing.rs] as a class, and the calls that
    [core/src/tools/network_approval.rs] registers for it. What the session,
    other tasks and the outside do while a tool is reviewed or runs is what the
    tool's own functions do to the session; the orchestrator's steps are
    recorded in a trace. *)
From stdpp Require Import gmap.
From S2P Require Import Prelude RustStr RustPath FileSystem AbsolutePath ExecPolicy ExecEnv Protocol Permissions Bash ExecApproval Safety Tokio NetState NetApproval ToolApproval SandboxTransform PermissionGrants.

(** * Sessions and turns *)

(** A session, as far as tools go; [new_v4] is the next random identifier. *)
Class ToolSession (S : Type) : Type := {
  session_approvals :: HasApprovals S;
  network_approval : S → NetworkApprovalService;
  set_network_approval : NetworkApprovalService → S → S;
  network_approval_set n s : network_approval (set_network_approval n s) = n;
  new_v4 : S → str }.
Record TurnContext : Type := {
  turn_policy : AskForApproval; turn_guardian : bool; sub_id : str;
  turn_sandbox_policy : SandboxPolicy; turn_file_system_policy : FileSystemSandboxPolicy; turn_network_policy : NetworkSandboxPolicy;
  turn_windows_level : WindowsSandboxLevel; turn_cwd : str; turn_linux_sandbox_exe : option str; turn_legacy_landlock : bool;
  turn_environment : ShellEnvironmentPolicy; turn_allow_login_shell : bool;
  (** [requirements_toml().network.is_some()] *)
  turn_managed_network : bool }.
Definition routes_approval_to_guardian (t : TurnContext) : bool := is_on_request (turn_policy t) && turn_guardian t.

Inductive tool_event : Type :=
| Asked (d : ReviewDecision)          (* the user or the guardian was asked *)
| Decided (d : ReviewDecision)        (* what the tool's approval came to *)
| Registered (id : str) | Unregistered (id : str)
| Ran (sandbox : SandboxType)         (* an attempt *)
| Executed (command : list str) (sandbox : SandboxType) (policy : FileSystemSandboxPolicy).   (* a process *)
Record run_state (S : Type) : Type := { session : S; trace : list tool_event }.
Arguments session {S} _.
Arguments trace {S} _.
Arguments Build_run_state {S} _ _.
Definition log {S} (e : tool_event) (st : run_state S) : run_state S := {| session := session st; trace := trace st ++ [e] |}.
Definition with_session {S} (s : S) (st : run_state S) : run_state S := {| session := s; trace := trace st |}.
#[export] Instance run_state_approvals S `{!HasApprovals S} : HasApprovals (run_state S).
Proof.
  refine {| approvals st := approvals (session st); set_approvals m st := with_session (set_approvals m (session st)) st |}.
  intros m [s l]. apply approvals_set.
Defined.

(** * Tools *)

Record ApprovalCtx : Type := { retry_reason : option str; network_approval_context : option NetworkApprovalContext }.
Inductive ToolError (DeniedOutput CodexErr : Type) : Type :=
| Rejected (message : str)
| SandboxDenied (output : DeniedOutput) (network_policy_decision : option NetworkPolicyDecisionPayload)
| OtherCodexErr (e : CodexErr).
Arguments Rejected {_ _} _.
Arguments SandboxDenied {_ _} _ _.
Arguments OtherCodexErr {_ _} _.
Record SandboxAttempt : Type := {
  attempt_sandbox : SandboxType; attempt_policy : SandboxPolicy; attempt_file_system_policy : FileSystemSandboxPolicy;
  attempt_network_policy : NetworkSandboxPolicy; attempt_managed_network : bool; attempt_cwd : str;
  attempt_linux_sandbox_exe : option str; attempt_legacy_landlock : bool }.
(** [spec_network] is whether the specification has a proxy. *)
Record NetworkApprovalSpec : Type := { spec_network : bool; spec_mode : NetworkApprovalMode }.

(** The traits [Approvable], [Sandboxable] and [ToolRuntime]. *)
Class ToolRuntime (S Req Out DeniedOutput CodexErr : Type) : Type := {
  exec_approval_requirement : Req → option ExecApprovalRequirement;
  sandbox_mode_for_first_attempt : Req → SandboxOverride;
  should_bypass_approval : AskForApproval → bool → bool;
  wants_no_sandbox_approval : AskForApproval → bool;
  start_approval : Req → TurnContext → ApprovalCtx → run_state S → run_state S * ReviewDecision;
  sandbox_preference : SandboxablePreference;
  escalate_on_failure : bool;
  network_approval_spec : Req → option NetworkApprovalSpec;
  tool_run : Req → TurnContext → SandboxAttempt → run_state S → run_state S * (Out + ToolError DeniedOutput CodexErr) }.
(** The defaults of the traits. *)
Definition default_should_bypass_approval (policy : AskForApproval) (already_approved : bool) : bool :=
  if already_approved then true else match policy with Never => true | _ => false end.
Definition default_wants_no_sandbox_approval (policy : AskForApproval) : bool :=
  match policy with
  | OnFailure | UnlessTrusted => true
  | Never | OnRequest => false
  | Granular c => sandbox_approval c
  end.

(** * Registered calls *)

Section network.
Context {S : Type} `{!ToolSession S}.
Definition update_network (f : NetworkApprovalService → NetworkApprovalService) (st : run_state S) : run_state S :=
  with_session (set_network_approval (f (network_approval (session st))) (session st)) st.
(** An [ActiveNetworkApproval]: its registration and mode. *)
Definition begin_network_approval (turn_id : str) (has_managed_network_requirements : bool) (spec : option NetworkApprovalSpec)
    (st : run_state S) : run_state S * option (str * NetworkApprovalMode) :=
  match spec with
  | None => (st, None)
  | Some spec =>
      if negb has_managed_network_requirements || negb (spec_network spec) then (st, None)
      else
        let registration_id := new_v4 (session st) in
        (log (Registered registration_id) (update_network (register_call registration_id turn_id) st), Some (registration_id, spec_mode spec))
  end.
Definition unregister (registration_id : str) (st : run_state S) : run_state S :=
  log (Unregistered registration_id) (update_network (unregister_call registration_id) st).
Definition finish_immediate_network_approval {D C} (registration_id : str) (st : run_state S) : run_state S * option (ToolError D C) :=
  let approval_outcome := (take_call_outcome registration_id (network_approval (session st))).2 in
  let st := update_network (λ n, (take_call_outcome registration_id n).1) st in
  let st := unregister registration_id st in
  (st, match approval_outcome with
       | Some DeniedByUser => Some (Rejected (lit "rejected by user"))
       | Some (DeniedByPolicy message) => Some (Rejected message)
       | None => None
       end).
Definition finish_deferred_network_approval (deferred : option str) (st : run_state S) : run_state S :=
  match deferred with Some registration_id => unregister registration_id st | None => st end.
End network.

(** * The orchestrator *)

Section orchestrator.
Context {S Req Out D C : Type} `{!ToolSession S, !ToolRuntime S Req Out D C}.
Implicit Types (st : run_state S) (t : TurnContext) (req : Req).

Definition run_attempt req t (attempt : SandboxAttempt) (has_managed_network_requirements : bool) st
    : run_state S * ((Out + ToolError D C) * option str) :=
  let '(st, approval) := begin_network_approval (sub_id t) has_managed_network_requirements (network_approval_spec req) st in
  let st := log (Ran (attempt_sandbox attempt)) st in
  let '(st, result) := tool_run req t attempt st in
  match approval with
  | None => (st, (result, None))
  | Some (id, Immediate) =>
      let '(st, error) := finish_immediate_network_approval id st in
      (st, (match error with Some e => inr e | None => result end, None))
  | Some (id, Deferred) =>
      match result with
      | inr _ => (finish_deferred_network_approval (Some id) st, (result, None))
      | inl _ => (st, (result, Some id))
      end
  end.

(** The decision of a review: the error it comes to, if any. *)
Definition review_error t (decision : ReviewDecision) : option (ToolError D C) :=
  match decision with
  | Denied | Abort =>
      Some (Rejected (if routes_approval_to_guardian t then GUARDIAN_REJECTION_MESSAGE else lit "rejected by user"))
  | Approved | ApprovedExecpolicyAmendment _ | ApprovedForSession => None
  | NetworkAmendment a =>
      match amendment_action a with RuleAllow => None | RuleDeny => Some (Rejected (lit "rejected by user")) end
  end.
Definition review req t (ctx : ApprovalCtx) st : run_state S * option (ToolError D C) :=
  let '(st, decision) := start_approval req t ctx st in
  (log (Decided decision) st, review_error t decision).
Definition requirement_for req t (policy : AskForApproval) : ExecApprovalRequirement :=
  default (default_exec_approval_requirement policy (turn_file_system_policy t)) (exec_approval_requirement req).
(** "1) Approval": whether the user has approved, or the error. *)
Definition approval_phase req t (policy : AskForApproval) st : run_state S * (bool + ToolError D C) :=
  match requirement_for req t policy with
  | Skip _ _ => (st, inl false)
  | ReqForbidden reason => (st, inr (Rejected reason))
  | NeedsApproval reason _ =>
      let '(st, error) := review req t {| retry_reason := reason; network_approval_context := None |} st in
      (st, match error with Some e => inr e | None => inl true end)
  end.
(** "2) First attempt under the selected sandbox." *)
Definition initial_sandbox (os : target_os) req t : SandboxType :=
  match sandbox_mode_for_first_attempt req with
  | BypassSandboxFirstAttempt => SandboxNone
  | NoOverride =>
      select_initial os (turn_file_system_policy t) (turn_network_policy t) sandbox_preference (turn_windows_level t) (turn_managed_network t)
  end.
Definition attempt_in t (sandbox : SandboxType) (exe : option str) : SandboxAttempt :=
  {| attempt_sandbox := sandbox; attempt_policy := turn_sandbox_policy t; attempt_file_system_policy := turn_file_system_policy t;
     attempt_network_policy := turn_network_policy t; attempt_managed_network := turn_managed_network t; attempt_cwd := turn_cwd t;
     attempt_linux_sandbox_exe := exe; attempt_legacy_landlock := turn_legacy_landlock t |}.
Definition retry_reason_for (context : option NetworkApprovalContext) : str :=
  match context with
  | Some c => lit "Network access to " ++ [34%N] ++ context_host c ++ [34%N] ++ lit " is blocked by policy."
  | None => lit "command failed; retry without sandbox?"
  end.
Definition denial_context t (decision : option NetworkPolicyDecisionPayload) : option NetworkApprovalContext :=
  if turn_managed_network t then decision ≫= network_approval_context_from_payload else None.
(** Whether a denial is final. *)
Definition denial_is_final t (policy : AskForApproval) (decision : option NetworkPolicyDecisionPayload) : bool :=
  let context := denial_context t decision in
  (bool_decide (is_Some decision) && negb (bool_decide (is_Some context)))
  || negb escalate_on_failure
  || (negb (wants_no_sandbox_approval policy)
      && negb (is_on_request policy && bool_decide (is_Some context)
               && match default_exec_approval_requirement policy (turn_file_system_policy t) with NeedsApproval _ _ => true | _ => false end)).
(** What follows an attempt that the sandbox denied. *)
Definition retry_phase req t (policy : AskForApproval) (already_approved : bool) (output : D)
    (decision : option NetworkPolicyDecisionPayload) st : run_state S * ((Out + ToolError D C) * option str) :=
  if denial_is_final t policy decision then (st, (inr (SandboxDenied output decision), None))
  else
    let context := denial_context t decision in
    let bypass_retry_approval := should_bypass_approval policy already_approved && negb (bool_decide (is_Some context)) in
    let '(st, error) :=
      if bypass_retry_approval then (st, None)
      else review req t {| retry_reason := Some (retry_reason_for context); network_approval_context := context |} st in
    match error with
    | Some e => (st, (inr e, None))
    | None => run_attempt req t (attempt_in t SandboxNone None) (turn_managed_network t) st
    end.
(** [ToolOrchestrator::run]: the result, with the registration of a deferred
    network approval. *)
Definition run (os : target_os) req t (policy : AskForApproval) st : run_state S * ((Out + ToolError D C) * option str) :=
  let '(st, approval) := approval_phase req t policy st in
  match approval with
  | inr e => (st, (inr e, None))
  | inl already_approved =>
      let attempt := attempt_in t (initial_sandbox os req t) (turn_linux_sandbox_exe t) in
      let '(st, (result, deferred)) := run_attempt req t attempt (turn_managed_network t) st in
      match result with
      | inl out => (st, (inl out, deferred))
      | inr (SandboxDenied output decision) => retry_phase req t policy already_approved output decision st
      | inr e => (st, (inr e, None))
      end
  end.
End orchestrator.

(** * What a tool promises the orchestrator *)

Definition is_asked (e : tool_event) : Prop := match e with Asked _ => True | _ => False end.
Definition is_executed (sandbox : SandboxType) (e : tool_event) : Prop := match e with Executed _ s _ => s = sandbox | _ => False end.
Class ToolRuntimeLaws (S Req Out D C : Type) `{!ToolRuntime S Req Out D C} : Prop := {
  start_approval_trace req t ctx (st : run_state S) : ∃ l, trace (start_approval req t ctx st).1 = trace st ++ l ∧ Forall is_asked l;
  tool_run_trace req t attempt (st : run_state S) :
    ∃ l, trace (tool_run req t attempt st).1 = trace st ++ l ∧ Forall (is_executed (attempt_sandbox attempt)) l;
  bypass_is_default policy already : should_bypass_approval policy already = default_should_bypass_approval policy already;
  never_stays_sandboxed : wants_no_sandbox_approval Never = false }.

(** * Lemmas *)

(** Events that are neither attempts nor decisions. *)
Definition quiet (e : tool_event) : Prop := match e with Ran _ | Decided _ => False | _ => True end.
Definition network_quiet (e : tool_event) : Prop := match e with Registered _ | Unregistered _ => False | _ => True end.
Lemma asked_quiet l : Forall is_asked l → Forall quiet l ∧ Forall network_quiet l.
Proof. intros H. split; (eapply Forall_impl; [exact H|]); by intros []. Qed.
Lemma executed_quiet sb l : Forall (is_executed sb) l → Forall quiet l ∧ Forall network_quiet l.
Proof. intros H. split; (eapply Forall_impl; [exact H|]); by intros []. Qed.
(** Where an event of a concatenation is. *)
Lemma split_at {A} (e : A) k l pre post : k ++ l = pre ++ e :: post →
  (∃ post', k = pre ++ e :: post' ∧ post = post' ++ l) ∨ (∃ pre', pre = k ++ pre' ∧ l = pre' ++ e :: post).
Proof.
  revert pre. induction k as [|x k IH]; intros pre; [right; by exists pre|]. destruct pre as [|y pre]; cbn.
  - intros [= -> <-]. left. by exists k.
  - intros [= -> E]. destruct (IH _ E) as [(q & -> & ->)|(q & -> & ->)]; [left|right]; by exists q.
Qed.
Lemma quiet_no_ran (l : list tool_event) pre sb post : Forall quiet l → l ≠ pre ++ Ran sb :: post.
Proof. intros H ->. apply Forall_app in H as [_ H]. by apply Forall_cons in H as [? _]. Qed.

Section lemmas.
Context {S Req Out D C : Type} `{!ToolSession S, !ToolRuntime S Req Out D C, !ToolRuntimeLaws S Req Out D C}.
Implicit Types (st : run_state S) (t : TurnContext) (req : Req) (l : list tool_event).

Lemma review_error_spec t d : review_error (D := D) (C := C) t d = None ↔ approves d = true.
Proof. destruct d as [| | |a| |]; try done. cbn. by destruct (amendment_action a). Qed.
Lemma review_error_rejects t d e : review_error (D := D) (C := C) t d = Some e → ∃ m, e = Rejected m.
Proof. destruct d as [| | |a| |]; cbn; try done; [destruct (amendment_action a); [done|]|..]; intros [= <-]; eauto. Qed.
Lemma review_trace req t ctx st :
  ∃ asked d, trace (review req t ctx st).1 = trace st ++ asked ++ [Decided d] ∧ Forall is_asked asked
    ∧ (review req t ctx st).2 = review_error (D := D) (C := C) t d.
Proof.
  unfold review. destruct (start_approval_trace req t ctx st) as (l & Hl & Ha).
  destruct (start_approval req t ctx st) as [st' d]. cbn in *. exists l, d. by rewrite Hl, <-app_assoc.
Qed.
(** What one attempt adds to the trace, and what it leaves registered. *)
Lemma run_attempt_trace req t attempt managed st :
  let '(st', (result, deferred)) := run_attempt (D := D) (C := C) req t attempt managed st in
  ∃ before executed after,
    trace st' = trace st ++ before ++ Ran (attempt_sandbox attempt) :: executed ++ after
    ∧ Forall (is_executed (attempt_sandbox attempt)) executed
    ∧ (before = [] ∧ after = [] ∧ deferred = None
       ∨ ∃ id, before = [Registered id]
           ∧ (after = [Unregistered id] ∧ deferred = None ∨ after = [] ∧ deferred = Some id ∧ ∃ out, result = inl out)).
Proof.
  unfold run_attempt, begin_network_approval.
  assert (Hrun : ∀ st, ∃ l, trace (tool_run req t attempt (log (Ran (attempt_sandbox attempt)) st)).1
    = trace st ++ Ran (attempt_sandbox attempt) :: l ∧ Forall (is_executed (attempt_sandbox attempt)) l).
  { intros st0. destruct (tool_run_trace req t attempt (log (Ran (attempt_sandbox attempt)) st0)) as (l & Hl & He).
    exists l. split; [|done]. rewrite Hl. cbn. by rewrite <-app_assoc. }
  destruct (network_approval_spec req) as [spec|]; [destruct (negb managed || negb (spec_network spec))|].
  1,3: destruct (Hrun st) as (l & Hl & He); destruct (tool_run _ _ _ _) as [st1 result]; cbn in Hl; exists [], l, []; cbn;
    rewrite app_nil_r; split_and!; [done..|by left].
  set (id := new_v4 (session st)). set (st0 := log (Registered id) (update_network (register_call id (sub_id t)) st)).
  destruct (Hrun st0) as (l & Hl & He). destruct (tool_run _ _ _ _) as [st1 result]. cbn in Hl. rewrite <-app_assoc in Hl. cbn in Hl.
  destruct (spec_mode spec).
  - exists [Registered id], l, [Unregistered id]. cbn. rewrite Hl. split_and!; [by rewrite <-!app_assoc|done|].
    right. exists id. by split; [|left].
  - destruct result as [out|e].
    + exists [Registered id], l, []. rewrite app_nil_r. split_and!; [done..|]. right. exists id. split; [done|right; eauto].
    + exists [Registered id], l, [Unregistered id]. cbn. rewrite Hl. split_and!; [by rewrite <-!app_assoc|done|].
      right. exists id. by split; [|left].
Qed.

(** One attempt in the trace. *)
Definition attempt_segment (sandbox : SandboxType) (l : list tool_event) (result : Out + ToolError D C) (deferred : option str) : Prop :=
  ∃ before executed after, l = before ++ Ran sandbox :: executed ++ after ∧ Forall (is_executed sandbox) executed
    ∧ (before = [] ∧ after = [] ∧ deferred = None
       ∨ ∃ id, before = [Registered id]
           ∧ (after = [Unregistered id] ∧ deferred = None ∨ after = [] ∧ deferred = Some id ∧ ∃ out, result = inl out)).
(** The approval before the first attempt. *)
Definition approval_segment req t policy (l : list tool_event) (already : bool) : Prop :=
  (∃ b a, requirement_for req t policy = Skip b a ∧ l = [] ∧ already = false)
  ∨ (∃ r a asked d, requirement_for req t policy = NeedsApproval r a ∧ l = asked ++ [Decided d] ∧ Forall is_asked asked
       ∧ approves d = true ∧ already = true).
(** The approval before a retry: none when the user has approved already. *)
Definition retry_segment (already : bool) (l : list tool_event) : Prop :=
  l = [] ∧ already = true ∨ (∃ asked d, l = asked ++ [Decided d] ∧ Forall is_asked asked ∧ approves d = true).
(** What a call of the orchestrator does: it is forbidden; or refused; or tried
    once; or tried, denied by the sandbox, and refused a retry or retried without
    a sandbox. *)
Inductive run_spec os req t policy : list tool_event → (Out + ToolError D C) → option str → Prop :=
| spec_forbidden m : requirement_for req t policy = ReqForbidden m → run_spec os req t policy [] (inr (Rejected m)) None
| spec_refused asked d m r a : requirement_for req t policy = NeedsApproval r a → Forall is_asked asked → approves d = false →
    run_spec os req t policy (asked ++ [Decided d]) (inr (Rejected m)) None
| spec_tried l0 already seg result deferred :
    approval_segment req t policy l0 already → attempt_segment (initial_sandbox os req t) seg result deferred →
    run_spec os req t policy (l0 ++ seg) result deferred
| spec_retry_refused l0 already seg output decision asked d m :
    approval_segment req t policy l0 already →
    attempt_segment (initial_sandbox os req t) seg (inr (SandboxDenied output decision)) None →
    Forall is_asked asked → approves d = false → policy ≠ Never →
    run_spec os req t policy (l0 ++ seg ++ asked ++ [Decided d]) (inr (Rejected m)) None
| spec_retried l0 already seg output decision mid seg2 result deferred :
    approval_segment req t policy l0 already →
    attempt_segment (initial_sandbox os req t) seg (inr (SandboxDenied output decision)) None →
    retry_segment already mid → policy ≠ Never → attempt_segment SandboxNone seg2 result deferred →
    run_spec os req t policy (l0 ++ seg ++ mid ++ seg2) result deferred.

Lemma run_attempt_segment req t attempt managed st :
  let '(st', (result, deferred)) := run_attempt (D := D) (C := C) req t attempt managed st in
  ∃ l, trace st' = trace st ++ l ∧ attempt_segment (attempt_sandbox attempt) l result deferred.
Proof.
  pose proof (run_attempt_trace req t attempt managed st) as H. destruct (run_attempt _ _ _ _ _) as [st' [result deferred]].
  destruct H as (b & e & a & Ht & He & Hc). eexists. split; [exact Ht|]. exists b, e, a. done.
Qed.
Lemma approval_phase_trace req t policy st :
  let '(st', r) := approval_phase (D := D) (C := C) req t policy st in
  match r with
  | inl already => ∃ l, trace st' = trace st ++ l ∧ approval_segment req t policy l already
  | inr e => ∃ l m, trace st' = trace st ++ l ∧ e = Rejected m ∧ (∀ os, run_spec os req t policy l (inr e) None)
  end.
Proof.
  unfold approval_phase. destruct (requirement_for req t policy) as [b a|r a|m] eqn:Er.
  - exists []. rewrite app_nil_r. split; [done|]. left. eauto.
  - destruct (review_trace req t {| retry_reason := r; network_approval_context := None |} st) as (asked & d & Ht & Ha & Hd).
    destruct (review _ _ _ _) as [st' error]. cbn in *. destruct error as [e|].
    + destruct (review_error_rejects t d e) as [m ->]; [done|]. exists (asked ++ [Decided d]), m. split_and!; [done..|].
      intros os. eapply spec_refused; [done..|]. apply not_true_is_false. rewrite <-review_error_spec, <-Hd. done.
    + exists (asked ++ [Decided d]). split; [done|]. right. exists r, a, asked, d. split_and!; try done. by eapply review_error_spec.
  - exists [], m. rewrite app_nil_r. split_and!; [done..|]. intros os. by constructor.
Qed.
Lemma retry_not_never t policy decision :
  denial_is_final (S := S) (Req := Req) (Out := Out) (D := D) (C := C) t policy decision = false → policy ≠ Never.
Proof.
  unfold denial_is_final. intros Hf ->. rewrite never_stays_sandboxed in Hf. cbn in Hf.
  by rewrite !orb_false_iff in Hf; destruct Hf as [_ ?].
Qed.
Lemma bypass_already policy already context :
  should_bypass_approval (S := S) (Req := Req) (Out := Out) (DeniedOutput := D) (CodexErr := C) policy already && context = true →
  policy ≠ Never → already = true.
Proof.
  rewrite bypass_is_default. unfold default_should_bypass_approval. destruct already; [done|]. by destruct policy.
Qed.
Lemma run_meets_spec os req t policy st :
  let '(st', (result, deferred)) := run (D := D) (C := C) os req t policy st in
  ∃ l, trace st' = trace st ++ l ∧ run_spec os req t policy l result deferred.
Proof.
  unfold run. pose proof (approval_phase_trace req t policy st) as Ha.
  destruct (approval_phase req t policy st) as [st1 [already|e]]; [|destruct Ha as (l & m & ? & -> & ?); eauto].
  destruct Ha as (l0 & Ht0 & Hap).
  pose proof (run_attempt_segment req t (attempt_in t (initial_sandbox os req t) (turn_linux_sandbox_exe t)) (turn_managed_network t) st1) as Hs.
  destruct (run_attempt _ _ _ _ st1) as [st2 [result deferred]]. destruct Hs as (seg & Ht1 & Hseg). cbn in Hseg.
  assert (Htr : trace st2 = trace st ++ l0 ++ seg) by by rewrite Ht1, Ht0, <-app_assoc.
  destruct result as [out|e]; [exists (l0 ++ seg); split; [done|]; by eapply spec_tried|].
  assert (deferred = None) as ->.
  { destruct Hseg as (? & ? & ? & _ & _ & [(_ & _ & ->)|(? & _ & [[_ ->]|(_ & _ & ? & ?)])]); done. }
  destruct e as [m|output decision|e]; [exists (l0 ++ seg); split; [done|by eapply spec_tried]| |exists (l0 ++ seg); split; [done|by eapply spec_tried]].
  unfold retry_phase. destruct (denial_is_final t policy decision) eqn:Ef; [exists (l0 ++ seg); split; [done|by eapply spec_tried]|].
  pose proof (retry_not_never _ _ _ Ef) as Hnn. clear Ef.
  destruct (should_bypass_approval policy already && _) eqn:Eb.
  - pose proof (run_attempt_segment req t (attempt_in t SandboxNone None) (turn_managed_network t) st2) as Hs.
    destruct (run_attempt _ _ _ _ st2) as [st3 [result deferred]]. destruct Hs as (seg2 & Ht2 & Hseg2).
    exists (l0 ++ seg ++ [] ++ seg2). split; [by rewrite Ht2, Htr, <-!app_assoc|].
    eapply spec_retried; [done..|left; split; [done|by eapply bypass_already]|done|done].
  - set (ctx := {| retry_reason := _; network_approval_context := _ |}).
    destruct (review_trace req t ctx st2) as (asked & d & Ht2 & Hasked & Hd). destruct (review req t ctx st2) as [st3 error]. cbn in Ht2, Hd.
    destruct error as [e|].
    + destruct (review_error_rejects t d e) as [m ->]; [done|].
      exists (l0 ++ seg ++ asked ++ [Decided d]). split; [by rewrite Ht2, Htr, <-!app_assoc|].
      eapply spec_retry_refused; [done..| |done]. apply not_true_is_false. rewrite <-review_error_spec, <-Hd. done.
    + pose proof (run_attempt_segment req t (attempt_in t SandboxNone None) (turn_managed_network t) st3) as Hs.
      destruct (run_attempt _ _ _ _ st3) as [st4 [result deferred]]. destruct Hs as (seg2 & Ht3 & Hseg2).
      exists (l0 ++ seg ++ (asked ++ [Decided d]) ++ seg2). split; [by rewrite Ht3, Ht2, Htr, <-!app_assoc|].
      eapply spec_retried; [done..| |done|done]. right. exists asked, d. split_and!; [done..|]. by eapply review_error_spec.
Qed.

(** ** Attempts and decisions of a call *)

Lemma asked_no_ran asked (l : list tool_event) pre sb post :
  Forall is_asked asked → asked ++ l = pre ++ Ran sb :: post → ∃ pre', pre = asked ++ pre' ∧ l = pre' ++ Ran sb :: post.
Proof.
  intros Ha E. apply split_at in E as [(q & Hq & _)|(q & -> & ->)]; [|by exists q].
  by destruct (quiet_no_ran asked pre sb q (proj1 (asked_quiet _ Ha))).
Qed.
Lemma decided_no_ran (asked : list tool_event) d pre sb post : Forall is_asked asked → asked ++ [Decided d] ≠ pre ++ Ran sb :: post.
Proof.
  intros Ha E. destruct (asked_no_ran _ _ _ _ _ Ha E) as (pre' & _ & E').
  destruct pre' as [|x [|]]; cbn in E'; try done; injection E'; done.
Qed.
Lemma attempt_no_other sandbox seg result deferred pre sb post (l : list tool_event) :
  attempt_segment sandbox seg result deferred → seg ++ l = pre ++ Ran sb :: post →
  sb = sandbox ∧ Forall quiet pre ∨ ∃ pre', pre = seg ++ pre' ∧ l = pre' ++ Ran sb :: post.
Proof.
  intros (b & e & a & -> & He & Hc) E. apply split_at in E as [(q & Hq & _)|(q & -> & ->)]; [left|right; by exists q].
  assert (Hb : Forall quiet b) by (destruct Hc as [(-> & _)|(id & -> & _)]; repeat constructor).
  assert (Ha : Forall quiet a) by (destruct Hc as [(_ & -> & _)|(id & _ & [[-> _]|[-> _]])]; repeat constructor).
  apply split_at in Hq as [(q' & Hq & _)|(q' & -> & Hq)]; [by destruct (quiet_no_ran _ _ _ _ Hb Hq)|].
  destruct q' as [|x q']; cbn in Hq; [injection Hq as -> _; split; [done|by rewrite app_nil_r]|].
  injection Hq as _ Hq. assert (Hea : Forall quiet (e ++ a)) by (apply Forall_app; split; [by eapply executed_quiet|done]).
  by destruct (quiet_no_ran _ _ _ _ Hea Hq).
Qed.
Lemma attempt_decided sandbox seg result deferred d : attempt_segment sandbox seg result deferred → Decided d ∉ seg.
Proof.
  intros (b & e & a & -> & He & Hc) Hin. apply elem_of_app in Hin as [Hin|[?|Hin]%elem_of_cons]; [|done|].
  - destruct Hc as [(-> & _)|(id & -> & _)]; set_solver.
  - apply elem_of_app in Hin as [Hin|Hin].
    + rewrite Forall_forall in He. by apply He in Hin.
    + destruct Hc as [(_ & -> & _)|(id & _ & [[-> _]|[-> _]])]; set_solver.
Qed.
Lemma asked_decided asked d : Forall is_asked asked → Decided d ∉ asked.
Proof. rewrite Forall_forall. intros Ha Hin. by apply Ha in Hin. Qed.
Lemma approval_decided req t policy l already d : approval_segment req t policy l already → Decided d ∈ l → approves d = true.
Proof.
  intros [(b & a & _ & -> & _)|(r & a & asked & d' & _ & -> & Ha & Hd & _)]; [by intros ?%elem_of_nil|].
  intros [Hin|Hin]%elem_of_app; [by destruct (asked_decided asked d)|]. apply list_elem_of_singleton in Hin. by injection Hin as ->.
Qed.
Lemma approval_gate req t policy l already : approval_segment req t policy l already →
  ((∃ b a, requirement_for req t policy = Skip b a) ∨ ∃ d, Decided d ∈ l ∧ approves d = true)
  ∧ (already = true → ∃ d, Decided d ∈ l ∧ approves d = true)
  ∧ ∀ pre sb post, l ≠ pre ++ Ran sb :: post.
Proof.
  intros [(b & a & Hr & -> & ->)|(r & a & asked & d & Hr & -> & Ha & Hd & _)].
  - split_and!; [left; eauto|done|by destruct pre].
  - split_and!; [right|intros _|intros; by apply decided_no_ran]; exists d; set_solver.
Qed.
Lemma retry_gate already l : retry_segment already l →
  (already = true ∨ ∃ d, Decided d ∈ l ∧ approves d = true) ∧ (∀ d, Decided d ∈ l → approves d = true)
  ∧ ∀ pre sb post, l ≠ pre ++ Ran sb :: post.
Proof.
  intros [[-> ->]|(asked & d & -> & Ha & Hd)].
  - split_and!; [by left|by intros ? ?%elem_of_nil|by destruct pre].
  - split_and!; [right; exists d; set_solver| |intros; by apply decided_no_ran].
    intros d' [Hin|Hin]%elem_of_app; [by destruct (asked_decided asked d')|]. apply list_elem_of_singleton in Hin. by injection Hin as ->.
Qed.
Lemma first_attempt req t policy l0 already sandbox seg result deferred l pre sb post :
  approval_segment req t policy l0 already → attempt_segment sandbox seg result deferred → l0 ++ seg ++ l = pre ++ Ran sb :: post →
  (sb = sandbox ∧ ∃ q, pre = l0 ++ q ∧ Forall quiet q) ∨ ∃ pre', pre = l0 ++ seg ++ pre' ∧ l = pre' ++ Ran sb :: post.
Proof.
  intros Ha Hs E. apply split_at in E as [(q & Hq & _)|(q & -> & Hq)]; [by destruct (proj2 (proj2 (approval_gate _ _ _ _ _ Ha)) _ _ _ Hq)|].
  destruct (attempt_no_other _ _ _ _ _ _ _ _ Hs Hq) as [[-> Hq']|(q' & -> & ->)]; [left; eauto|right].
  by exists q'.
Qed.
Lemma quiet_decided (l : list tool_event) d : Forall quiet l → Decided d ∉ l.
Proof. rewrite Forall_forall. intros Hl Hin. by apply Hl in Hin. Qed.
Lemma spec_authorised os req t policy l result deferred pre sb post :
  run_spec os req t policy l result deferred → l = pre ++ Ran sb :: post →
  ((∃ b a, requirement_for req t policy = Skip b a) ∨ ∃ d, Decided d ∈ pre ∧ approves d = true)
  ∧ (sb = initial_sandbox os req t ∨ sb = SandboxNone ∧ policy ≠ Never ∧ ∃ d, Decided d ∈ pre ∧ approves d = true)
  ∧ ∀ d, Decided d ∈ pre → approves d = true.
Proof.
  intros Hs E.
  assert (Hfirst : ∀ l0 already q, approval_segment req t policy l0 already → pre = l0 ++ q → Forall quiet q → sb = initial_sandbox os req t →
    ((∃ b a, requirement_for req t policy = Skip b a) ∨ ∃ d, Decided d ∈ pre ∧ approves d = true)
    ∧ (sb = initial_sandbox os req t ∨ sb = SandboxNone ∧ policy ≠ Never ∧ ∃ d, Decided d ∈ pre ∧ approves d = true)
    ∧ ∀ d, Decided d ∈ pre → approves d = true).
  { intros l0 already q Ha -> Hq ->. destruct (approval_gate _ _ _ _ _ Ha) as (Hg & _). split_and!; [set_solver|by left|].
    intros d [Hin|Hin]%elem_of_app; [by eapply approval_decided|by destruct (quiet_decided q d)]. }
  destruct Hs as [m Hr|asked d m r a Hr Ha Hd|l0 already seg result deferred Ha Hseg|l0 already seg output decision asked d m Ha Hseg Hask Hd Hn
    |l0 already seg output decision mid seg2 result deferred Ha Hseg Hmid Hn Hseg2].
  - by destruct pre.
  - by destruct (decided_no_ran asked d pre sb post).
  - rewrite <-(app_nil_r seg) in E. destruct (first_attempt _ _ _ _ _ _ _ _ _ _ _ _ _ Ha Hseg E) as [(-> & q & -> & Hq)|(q & _ & Hq)]; [eauto|by destruct q].
  - destruct (first_attempt _ _ _ _ _ _ _ _ _ _ _ _ _ Ha Hseg E) as [(-> & q & -> & Hq)|(q & _ & Hq)]; [eauto|].
    by destruct (decided_no_ran asked d q sb post).
  - destruct (first_attempt _ _ _ _ _ _ _ _ _ _ _ _ _ Ha Hseg E) as [(-> & q & -> & Hq)|(q & -> & Hq)]; [eauto|].
    destruct (approval_gate _ _ _ _ _ Ha) as (Hg & Hal & _). destruct (retry_gate _ _ Hmid) as (Hm & Hmd & Hmr).
    apply split_at in Hq as [(q' & Hq & _)|(q' & -> & Hq)]; [by destruct (Hmr _ _ _ Hq)|].
    rewrite <-(app_nil_r seg2) in Hq. destruct (attempt_no_other _ _ _ _ _ _ _ _ Hseg2 Hq) as [[-> Hq']|(q2 & _ & Hq2)]; [|by destruct q2].
    assert (Hd : ∃ d, Decided d ∈ l0 ++ mid ∧ approves d = true).
    { destruct Hm as [Hm|(d & ? & ?)]; [destruct (Hal Hm) as (d & ? & ?)|]; exists d; set_solver. }
    split_and!; [set_solver|right; split_and!; [done|done|set_solver]|].
    intros d. rewrite !elem_of_app. intros [Hin|[Hin|[Hin|Hin]]];
      [by eapply approval_decided|by destruct (attempt_decided _ _ _ _ d Hseg)|by apply Hmd|by destruct (quiet_decided q' d)].
Qed.

(** A process runs in an attempt with its sandbox. *)
Lemma executed_in_attempt sandbox seg result deferred pre c sb pol post (l : list tool_event) :
  attempt_segment sandbox seg result deferred → seg ++ l = pre ++ Executed c sb pol :: post →
  (sb = sandbox ∧ ∃ q r post', pre = q ++ Ran sandbox :: r ∧ Forall quiet r ∧ seg = q ++ Ran sandbox :: post')
  ∨ ∃ pre', pre = seg ++ pre' ∧ l = pre' ++ Executed c sb pol :: post.
Proof.
  intros (b & e & a & -> & He & Hc) E. apply split_at in E as [(q & Hq & _)|(q & -> & ->)]; [left|right; by exists q].
  assert (Hb : Executed c sb pol ∉ b) by (destruct Hc as [(-> & _)|(id & -> & _)]; set_solver).
  assert (Ha : Executed c sb pol ∉ a) by (destruct Hc as [(_ & -> & _)|(id & _ & [[-> _]|[-> _]])]; set_solver).
  apply split_at in Hq as [(q' & -> & _)|(q' & -> & Hq)]; [destruct Hb; set_solver|].
  destruct q' as [|x q']; cbn in Hq; [done|]. injection Hq as <- Hq. apply split_at in Hq as [(q2 & -> & _)|(q2 & -> & ->)]; [|destruct Ha; set_solver].
  apply Forall_app in He as [He1 He2]. apply Forall_cons in He2 as [He2 _]. split; [done|].
  eexists b, q', _. split_and!; [done| |done]. by eapply executed_quiet.
Qed.
Lemma asked_no_executed (asked : list tool_event) d c sb pol : Forall is_asked asked → Executed c sb pol ∉ asked ++ [Decided d].
Proof. rewrite Forall_forall. intros Ha [Hin|Hin]%elem_of_app; [by apply Ha in Hin|set_solver]. Qed.
Lemma skip_event (e : tool_event) (k l : list tool_event) pre post : e ∉ k → k ++ l = pre ++ e :: post → ∃ pre', pre = k ++ pre' ∧ l = pre' ++ e :: post.
Proof. intros Hn E. apply split_at in E as [(q & -> & _)|?]; [by destruct Hn; set_solver|done]. Qed.
Lemma approval_no_executed req t policy l already c sb pol : approval_segment req t policy l already → Executed c sb pol ∉ l.
Proof. intros [(b & a & _ & -> & _)|(r & a & asked & d & _ & -> & Ha & _)]; [by intros ?%elem_of_nil|by apply asked_no_executed]. Qed.
(** Every process belongs to an attempt. *)
Lemma spec_executed os req t policy l result deferred pre c sb pol post :
  run_spec os req t policy l result deferred → l = pre ++ Executed c sb pol :: post →
  ∃ q r post', pre = q ++ Ran sb :: r ∧ l = q ++ Ran sb :: post'.
Proof.
  assert (Hnil : ∀ pre post, [] ≠ pre ++ Executed c sb pol :: post) by by intros [].
  intros [m Hr|asked d m r a Hr Ha Hd|l0 already seg res def Ha Hseg|l0 already seg output decision asked d m Ha Hseg Hask Hd Hn
    |l0 already seg output decision mid seg2 res def Ha Hseg Hmid Hn Hseg2] E; [by destruct (Hnil _ _ E)|..].
  - destruct (asked_no_executed asked d c sb pol Ha). rewrite E. set_solver.
  - apply skip_event in E as (q & -> & E); [|by eapply approval_no_executed]. rewrite <-(app_nil_r seg) in E.
    destruct (executed_in_attempt _ _ _ _ _ _ _ _ _ _ Hseg E) as [(-> & q1 & r & p' & -> & _ & ->)|(q' & _ & Hq)]; [|by destruct (Hnil _ _ Hq)].
    exists (l0 ++ q1), r, p'. by rewrite <-!app_assoc.
  - apply skip_event in E as (q & -> & E); [|by eapply approval_no_executed].
    destruct (executed_in_attempt _ _ _ _ _ _ _ _ _ _ Hseg E) as [(-> & q1 & r & p' & -> & _ & ->)|(q' & _ & Hq)].
    + eexists (l0 ++ q1), r, _. rewrite <-!app_assoc. cbn. by rewrite <-?app_assoc.
    + destruct (asked_no_executed asked d c sb pol Hask). rewrite Hq. set_solver.
  - apply skip_event in E as (q & -> & E); [|by eapply approval_no_executed].
    destruct (executed_in_attempt _ _ _ _ _ _ _ _ _ _ Hseg E) as [(-> & q1 & r & p' & -> & _ & ->)|(q' & -> & Hq)].
    + eexists (l0 ++ q1), r, _. rewrite <-!app_assoc. cbn. by rewrite <-?app_assoc.
    + apply skip_event in Hq as (q2 & -> & Hq);
        [|destruct Hmid as [[-> _]|(asked & d & -> & Hask & _)]; [by intros ?%elem_of_nil|by apply asked_no_executed]].
      rewrite <-(app_nil_r seg2) in Hq.
      destruct (executed_in_attempt _ _ _ _ _ _ _ _ _ _ Hseg2 Hq) as [(-> & q1 & r & p' & -> & _ & ->)|(q3 & _ & Hq3)]; [|by destruct (Hnil _ _ Hq3)].
      exists (l0 ++ seg ++ mid ++ q1), r, p'. by rewrite <-!app_assoc.
Qed.
Lemma run_executed os req t policy st pre c sb pol post :
  trace (run (D := D) (C := C) os req t policy st).1 = trace st ++ pre ++ Executed c sb pol :: post →
  ((∃ b a, requirement_for req t policy = Skip b a) ∨ ∃ d, Decided d ∈ pre ∧ approves d = true)
  ∧ (sb = initial_sandbox os req t ∨ sb = SandboxNone ∧ policy ≠ Never ∧ ∃ d, Decided d ∈ pre ∧ approves d = true).
Proof.
  pose proof (run_meets_spec os req t policy st) as Hs. destruct (run os req t policy st) as [st' [result deferred]].
  destruct Hs as (l & Ht & Hs). cbn. rewrite Ht. intros E%app_inv_head.
  destruct (spec_executed _ _ _ _ _ _ _ _ _ _ _ _ Hs E) as (q & r & post' & -> & El).
  destruct (spec_authorised _ _ _ _ _ _ _ _ _ _ Hs El) as (H1 & H2 & _). split; [set_solver|].
  destruct H2 as [?|(? & ? & d & ? & ?)]; [by left|right]. split_and!; [done|done|]. exists d. set_solver.
Qed.

Definition is_ran (e : tool_event) : bool := match e with Ran _ => true | _ => false end.
Definition is_decided (e : tool_event) : bool := match e with Decided _ => true | _ => false end.
Definition count (f : tool_event → bool) (l : list tool_event) : nat := length (List.filter f l).
Lemma count_app f (l k : list tool_event) : count f (l ++ k) = count f l + count f k.
Proof. unfold count. by rewrite List.filter_app, length_app. Qed.
Lemma count_quiet l : Forall quiet l → count is_ran l = 0 ∧ count is_decided l = 0.
Proof. unfold count. induction 1 as [|e l He _ [IH1 IH2]]; [done|]. by destruct e. Qed.
Lemma attempt_counts sandbox seg result deferred : attempt_segment sandbox seg result deferred → count is_ran seg = 1 ∧ count is_decided seg = 0.
Proof.
  intros (b & e & a & -> & He & Hc). change (Ran sandbox :: e ++ a) with ([Ran sandbox] ++ e ++ a).
  rewrite !count_app. destruct (count_quiet e (proj1 (executed_quiet _ _ He))) as [-> ->].
  by destruct Hc as [(-> & -> & _)|(id & -> & [[-> _]|[-> _]])].
Qed.
Lemma asked_counts asked d : Forall is_asked asked → count is_ran (asked ++ [Decided d]) = 0 ∧ count is_decided (asked ++ [Decided d]) = 1.
Proof. intros Ha. rewrite !count_app. by destruct (count_quiet asked (proj1 (asked_quiet _ Ha))) as [-> ->]. Qed.
Lemma approval_counts req t policy l already : approval_segment req t policy l already → count is_ran l = 0 ∧ count is_decided l ≤ 1.
Proof. intros [(b & a & _ & -> & _)|(r & a & asked & d & _ & -> & Ha & _)]; [cbn; lia|]. destruct (asked_counts asked d Ha) as [-> ->]. lia. Qed.
Lemma spec_counts os req t policy l result deferred : run_spec os req t policy l result deferred → count is_ran l ≤ 2 ∧ count is_decided l ≤ 2.
Proof.
  intros [m Hr|asked d m r a Hr Ha Hd|l0 already seg res def Ha Hseg|l0 already seg output decision asked d m Ha Hseg Hask Hd Hn
    |l0 already seg output decision mid seg2 res def Ha Hseg Hmid Hn Hseg2]; [cbn; lia|destruct (asked_counts asked d Ha); lia|..];
    destruct (approval_counts _ _ _ _ _ Ha), (attempt_counts _ _ _ _ Hseg); rewrite ?(count_app _ l0), ?(count_app _ seg); [lia| |].
  - destruct (asked_counts asked d Hask). lia.
  - rewrite !(count_app _ mid). destruct (attempt_counts _ _ _ _ Hseg2).
    assert (count is_ran mid = 0 ∧ count is_decided mid ≤ 1) as [? ?]; [|lia].
    destruct Hmid as [[-> _]|(asked & d & -> & Hask & _)]; [cbn; lia|]. destruct (asked_counts asked d Hask). lia.
Qed.

Lemma registered_in_attempt sandbox seg result deferred pre id post (l : list tool_event) :
  attempt_segment sandbox seg result deferred → seg ++ l = pre ++ Registered id :: post →
  (Unregistered id ∈ post ∨ deferred = Some id ∧ ∃ out, result = inl out) ∨ ∃ pre', pre = seg ++ pre' ∧ l = pre' ++ Registered id :: post.
Proof.
  intros (b & e & a & -> & He & Hc) E. apply split_at in E as [(q & Hq & ->)|(q & -> & ->)]; [left|right; by exists q].
  assert (Hno : ∀ p id' q, Ran sandbox :: e ++ a ≠ p ++ Registered id' :: q).
  { intros p id' q' Hp. assert (Hin : Registered id' ∈ Ran sandbox :: e ++ a) by (rewrite Hp; set_solver).
    apply elem_of_cons in Hin as [?|[Hin|Hin]%elem_of_app]; [done|rewrite Forall_forall in He; by apply He in Hin|].
    destruct Hc as [(_ & -> & _)|(id2 & _ & [[-> _]|[-> _]])]; set_solver. }
  destruct Hc as [(-> & _)|(id' & -> & Hc)]; [by destruct (Hno _ _ _ Hq)|]. destruct pre as [|x pre]; cbn in Hq; injection Hq as Hx Hq.
  - subst id' q. destruct Hc as [[-> _]|(-> & -> & Hout)]; [left; set_solver|by right].
  - by destruct (Hno _ _ _ Hq).
Qed.
Lemma asked_no_registered (asked : list tool_event) d id : Forall is_asked asked → Registered id ∉ asked ++ [Decided d].
Proof. rewrite Forall_forall. intros Ha [Hin|Hin]%elem_of_app; [by apply Ha in Hin|set_solver]. Qed.
Lemma spec_registered os req t policy l result deferred pre id post :
  run_spec os req t policy l result deferred → l = pre ++ Registered id :: post →
  Unregistered id ∈ post ∨ deferred = Some id ∧ ∃ out, result = inl out.
Proof.
  assert (Hnil : ∀ pre id post, [] ≠ pre ++ Registered id :: post) by by intros [].
  assert (Hap : ∀ l0 already id, approval_segment req t policy l0 already → Registered id ∉ l0).
  { intros l0 already id' [(b & a & _ & -> & _)|(r & a & asked & d & _ & -> & Ha & _)]; [by intros ?%elem_of_nil|by apply asked_no_registered]. }
  intros [m Hr|asked d m r a Hr Ha Hd|l0 already seg res def Ha Hseg|l0 already seg output decision asked d m Ha Hseg Hask Hd Hn
    |l0 already seg output decision mid seg2 res def Ha Hseg Hmid Hn Hseg2] E; [by destruct (Hnil _ _ _ E)|..].
  - destruct (asked_no_registered asked d id Ha). rewrite E. set_solver.
  - apply skip_event in E as (q & -> & E); [|by eapply Hap]. rewrite <-(app_nil_r seg) in E.
    destruct (registered_in_attempt _ _ _ _ _ _ _ _ Hseg E) as [?|(q' & _ & Hq)]; [done|by destruct (Hnil _ _ _ Hq)].
  - apply skip_event in E as (q & -> & E); [|by eapply Hap].
    destruct (registered_in_attempt _ _ _ _ _ _ _ _ Hseg E) as [[?|[? _]]|(q' & _ & Hq)]; [by left|done|].
    destruct (asked_no_registered asked d id Hask). rewrite Hq. set_solver.
  - apply skip_event in E as (q & -> & E); [|by eapply Hap].
    destruct (registered_in_attempt _ _ _ _ _ _ _ _ Hseg E) as [[?|[? _]]|(q' & _ & Hq)]; [by left|done|].
    apply skip_event in Hq as (q2 & -> & Hq);
      [|destruct Hmid as [[-> _]|(asked & d & -> & Hask & _)]; [by intros ?%elem_of_nil|by apply asked_no_registered]].
    rewrite <-(app_nil_r seg2) in Hq. destruct (registered_in_attempt _ _ _ _ _ _ _ _ Hseg2 Hq) as [?|(q3 & _ & Hq3)]; [done|by destruct (Hnil _ _ _ Hq3)].
Qed.
Lemma spec_refusal os req t policy l result deferred d :
  run_spec os req t policy l result deferred → Decided d ∈ l → approves d = false → ∃ m, result = inr (Rejected m) ∧ deferred = None.
Proof.
  intros Hs Hin Hd. assert (Hne : ∀ d', approves d' = true → d' ≠ d) by (intros d' ? ->; congruence).
  destruct Hs as [m Hr|asked d' m r a Hr Ha Hd'|l0 already seg res def Ha Hseg|l0 already seg output decision asked d' m Ha Hseg Hask Hd' Hn
    |l0 already seg output decision mid seg2 res def Ha Hseg Hmid Hn Hseg2]; [eauto|eauto| |eauto|]; exfalso.
  - apply elem_of_app in Hin as [Hin|Hin]; [destruct (Hne d); [by eapply approval_decided|done]|by destruct (attempt_decided _ _ _ _ d Hseg)].
  - rewrite !elem_of_app in Hin. destruct (retry_gate _ _ Hmid) as (_ & Hmd & _).
    destruct Hin as [Hin|[Hin|[Hin|Hin]]]; [destruct (Hne d); [by eapply approval_decided|done]|by destruct (attempt_decided _ _ _ _ d Hseg)
      |destruct (Hne d); [by apply Hmd|done]|by destruct (attempt_decided _ _ _ _ d Hseg2)].
Qed.

(** * Properties *)

(** C4. No attempt without authority: each attempt of a tool comes after an
    approving decision, unless the requirement skips approval; it runs in the
    sandbox that was selected, or without one after an approving decision under
    a policy other than [Never]; and nothing is attempted after a refusal. *)
Theorem attempts_are_authorised os req t policy st pre sb post :
  trace (run (D := D) (C := C) os req t policy st).1 = trace st ++ pre ++ Ran sb :: post →
  ((∃ b a, requirement_for req t policy = Skip b a) ∨ ∃ d, Decided d ∈ pre ∧ approves d = true)
  ∧ (sb = initial_sandbox os req t ∨ sb = SandboxNone ∧ policy ≠ Never ∧ ∃ d, Decided d ∈ pre ∧ approves d = true)
  ∧ ∀ d, Decided d ∈ pre → approves d = true.
Proof.
  pose proof (run_meets_spec os req t policy st) as Hs. destruct (run os req t policy st) as [st' [result deferred]].
  destruct Hs as (l & Ht & Hs). cbn. rewrite Ht. intros E%app_inv_head. by eapply spec_authorised.
Qed.

(** A call is reviewed and attempted at most twice; what is forbidden is neither
    reviewed nor attempted; a refusal ends the call with a rejection. *)
Theorem refusals_end_calls os req t policy st :
  let '(st', (result, deferred)) := run (D := D) (C := C) os req t policy st in
  ∃ l, trace st' = trace st ++ l ∧ count is_ran l ≤ 2 ∧ count is_decided l ≤ 2
    ∧ (∀ m, requirement_for req t policy = ReqForbidden m → l = [] ∧ result = inr (Rejected m))
    ∧ ∀ d, Decided d ∈ l → approves d = false → ∃ m, result = inr (Rejected m) ∧ deferred = None.
Proof.
  pose proof (run_meets_spec os req t policy st) as Hs. destruct (run os req t policy st) as [st' [result deferred]].
  destruct Hs as (l & Ht & Hs). exists l. destruct (spec_counts _ _ _ _ _ _ _ Hs). split_and!; [done..| |by intros; eapply spec_refusal].
  intros m Hm. assert (Hap : ∀ l0 already, ¬ approval_segment req t policy l0 already).
  { intros l0 already [(b & a & Hr & _)|(r & a & asked & d & Hr & _)]; congruence. }
  destruct Hs as [m' Hr|asked d' m' r a Hr|l0 already seg res def Ha|l0 already seg output decision asked d' m' Ha|l0 already seg output decision mid seg2 res def Ha];
    [by replace m' with m by congruence|congruence|by destruct (Hap l0 already)..].
Qed.

(** Every call that is registered for network approvals is unregistered before
    the orchestrator returns, unless it is handed on with a successful result. *)
Theorem registrations_are_released os req t policy st pre id post :
  trace (run (D := D) (C := C) os req t policy st).1 = trace st ++ pre ++ Registered id :: post →
  Unregistered id ∈ post
  ∨ (run (D := D) (C := C) os req t policy st).2.2 = Some id ∧ ∃ out, (run (D := D) (C := C) os req t policy st).2.1 = inl out.
Proof.
  pose proof (run_meets_spec os req t policy st) as Hs. destruct (run os req t policy st) as [st' [result deferred]].
  destruct Hs as (l & Ht & Hs). cbn. rewrite Ht. intros E%app_inv_head. by eapply spec_registered.
Qed.

(** When a call is registered for immediate approval, an outcome that was
    recorded for it while the tool ran replaces the tool's own result, success
    or not, by a rejection; and the call leaves no trace in the service. *)
Theorem network_outcome_overrides_result req t attempt st result st1 :
  network_approval_spec req = Some {| spec_network := true; spec_mode := Immediate |} →
  let id := new_v4 (session st) in
  tool_run (DeniedOutput := D) (CodexErr := C) req t attempt
    (log (Ran (attempt_sandbox attempt)) (log (Registered id) (update_network (register_call id (sub_id t)) st))) = (st1, result) →
  let '(st', (result', deferred)) := run_attempt (D := D) (C := C) req t attempt true st in
  deferred = None
  ∧ result' = match call_outcomes (network_approval (session st1)) !! id with
              | Some DeniedByUser => inr (Rejected (lit "rejected by user"))
              | Some (DeniedByPolicy message) => inr (Rejected message)
              | None => result
              end
  ∧ (id ∉ (active_calls (network_approval (session st'))).*1) ∧ call_outcomes (network_approval (session st')) !! id = None.
Proof.
  intros Hspec id Hrun. unfold run_attempt, begin_network_approval. rewrite Hspec. cbn [negb orb spec_network spec_mode].
  fold id. rewrite Hrun. cbn [finish_immediate_network_approval take_call_outcome].
  split_and!; [done| | |]; [unfold take_call_outcome; cbn [snd]; by destruct (call_outcomes (network_approval (session st1)) !! id) as [[]|]|..].
  - unfold unregister, update_network. cbn [session log with_session]. rewrite !network_approval_set. cbn.
    unfold shift_remove. intros ([k v] & Hk & Hin)%list_elem_of_fmap. apply list_elem_of_filter in Hin as [Hne _]. cbn in *. congruence.
  - unfold unregister, update_network. cbn [session log with_session]. rewrite !network_approval_set. cbn. apply lookup_delete_eq.
Qed.
End lemmas.

(** * Witnesses *)

(** A session that keeps approvals, calls and a counter for identifiers. *)
Record plain_session : Type := { plain_approvals : ApprovalStore; plain_network : NetworkApprovalService; plain_next : nat }.
#[export] Instance plain_has_approvals : HasApprovals plain_session.
Proof.
  refine {| approvals := plain_approvals;
            set_approvals m s := {| plain_approvals := m; plain_network := plain_network s; plain_next := plain_next s |} |}. done.
Defined.
#[export] Instance plain_tool_session : ToolSession plain_session.
Proof.
  refine {| network_approval := plain_network;
            set_network_approval n s := {| plain_approvals := plain_approvals s; plain_network := n; plain_next := S (plain_next s) |};
            new_v4 s := show_nat (plain_next s) |}. done.
Defined.
Definition plain_start : run_state plain_session :=
  {| session := {| plain_approvals := ∅; plain_network := service_new; plain_next := 0 |}; trace := [] |}.
(** A tool that the user approves and that succeeds outside a sandbox only. *)
Definition sample_tool : ToolRuntime plain_session unit unit unit unit := {|
  exec_approval_requirement _ := Some (NeedsApproval None None);
  sandbox_mode_for_first_attempt _ := NoOverride;
  should_bypass_approval := default_should_bypass_approval;
  wants_no_sandbox_approval := default_wants_no_sandbox_approval;
  start_approval _ _ _ st := (log (Asked Approved) st, Approved);
  sandbox_preference := PreferAuto;
  escalate_on_failure := true;
  network_approval_spec _ := Some {| spec_network := true; spec_mode := Immediate |};
  tool_run _ _ attempt st :=
    (log (Executed [lit "x"] (attempt_sandbox attempt) default_policy) st,
     match attempt_sandbox attempt with SandboxNone => inl tt | _ => inr (SandboxDenied tt None) end) |}.
#[local] Existing Instance sample_tool.
#[local] Instance sample_tool_laws : ToolRuntimeLaws plain_session unit unit unit unit.
Proof.
  split; [| |done|done].
  - intros req t ctx st. exists [Asked Approved]. split; [done|]. by repeat constructor.
  - intros req t attempt st. exists [Executed [lit "x"] (attempt_sandbox attempt) default_policy]. split; [done|]. by repeat constructor.
Qed.
Definition sample_turn : TurnContext := {|
  turn_policy := OnFailure; turn_guardian := false; sub_id := lit "1"; turn_sandbox_policy := ReadOnly FullAccess false;
  turn_file_system_policy := default_policy; turn_network_policy := NetRestricted; turn_windows_level := LevelDisabled;
  turn_cwd := lit "/work"; turn_linux_sandbox_exe := Some (lit "/bin/helper"); turn_legacy_landlock := false;
  turn_environment := default_shell_environment_policy; turn_allow_login_shell := true; turn_managed_network := true |}.
Example sample_trace :
  trace (run (D := unit) (C := unit) Linux tt sample_turn OnFailure plain_start).1
  = [Asked Approved; Decided Approved;
     Registered (lit "0"); Ran LinuxSeccomp; Executed [lit "x"] LinuxSeccomp default_policy; Unregistered (lit "0");
     Registered (lit "3"); Ran SandboxNone; Executed [lit "x"] SandboxNone default_policy; Unregistered (lit "3")].
Proof. vm_compute. reflexivity. Qed.
Lemma attempts_are_authorised_witness :
  let pre := [Asked Approved; Decided Approved; Registered (lit "0"); Ran LinuxSeccomp; Executed [lit "x"] LinuxSeccomp default_policy; Unregistered (lit "0");
              Registered (lit "3")] in
  SandboxNone = initial_sandbox (D := unit) (C := unit) Linux tt sample_turn
  ∨ SandboxNone = SandboxNone ∧ OnFailure ≠ Never ∧ ∃ d, Decided d ∈ pre ∧ approves d = true.
Proof.
  intros pre. apply (attempts_are_authorised (Req := unit) (Out := unit) (D := unit) (C := unit) Linux tt sample_turn OnFailure plain_start
    pre SandboxNone [Executed [lit "x"] SandboxNone default_policy; Unregistered (lit "3")]). vm_compute. reflexivity.
Defined.
Lemma refusals_end_calls_witness :
  let '(st', (result, deferred)) := run (Out := unit) (D := unit) (C := unit) Linux tt sample_turn OnFailure plain_start in
  ∃ l, trace st' = trace plain_start ++ l ∧ count is_ran l ≤ 2 ∧ count is_decided l ≤ 2
    ∧ (∀ m, requirement_for (Out := unit) (D := unit) (C := unit) tt sample_turn OnFailure = ReqForbidden m → l = [] ∧ result = inr (Rejected m))
    ∧ ∀ d, Decided d ∈ l → approves d = false → ∃ m, result = inr (Rejected m) ∧ deferred = None.
Proof. exact (refusals_end_calls (Req := unit) (Out := unit) (D := unit) (C := unit) Linux tt sample_turn OnFailure plain_start). Defined.
Lemma registrations_are_released_witness :
  Unregistered (lit "3") ∈ [Ran SandboxNone; Executed [lit "x"] SandboxNone default_policy; Unregistered (lit "3")]
  ∨ (run (D := unit) (C := unit) Linux tt sample_turn OnFailure plain_start).2.2 = Some (lit "3")
    ∧ ∃ out, (run (D := unit) (C := unit) Linux tt sample_turn OnFailure plain_start).2.1 = inl out.
Proof.
  apply (registrations_are_released (Req := unit) (Out := unit) (D := unit) (C := unit) Linux tt sample_turn OnFailure plain_start
    [Asked Approved; Decided Approved; Registered (lit "0"); Ran LinuxSeccomp; Executed [lit "x"] LinuxSeccomp default_policy; Unregistered (lit "0")]).
  vm_compute. reflexivity.
Defined.
Lemma network_outcome_overrides_result_witness :
  (run_attempt (D := unit) (C := unit) tt sample_turn (attempt_in sample_turn SandboxNone None) true plain_start).2.2 = None.
Proof.
  pose proof (network_outcome_overrides_result (Req := unit) (Out := unit) (D := unit) (C := unit) tt sample_turn
    (attempt_in sample_turn SandboxNone None) plain_start (inl tt) _ eq_refl eq_refl) as H.
  destruct (run_attempt _ _ _ _ _) as [st' [result' deferred]]. exact (proj1 H).
Defined.
