(* ===== verification/Snapshot.v ===== *)
(** The command line of a tool: [codex-rs/core/src/tools/runtimes/mod.rs]
    (the wrapper that sources a snapshot of the user's shell, and the quoting it
    relies on) and the comparison of paths of [utils/path-utils/src/lib.rs]. *)
From stdpp Require Import gmap.
From S2P Require Import Prelude RustStr BTreeMap RustPath FileSystem AbsolutePath Protocol Permissions Bash Safety SandboxTransform.

(** * Paths *)

Definition is_ascii_alphabetic (c : N) : bool := is_ascii_uppercase c || is_ascii_lowercase c.
(** On Linux; elsewhere nothing is case-insensitive. *)
Definition is_wsl_case_insensitive_path (os : target_os) (path : str) : bool :=
  match os, components path with
  | Linux, RootDir :: Normal mnt :: Normal drive :: _ =>
      bool_decide (to_ascii_lowercase mnt = lit "mnt")
      && match drive with [c] => is_ascii_alphabetic c | _ => false end
  | _, _ => false
  end.
Definition lower_ascii_path (os : target_os) (path : str) : str :=
  match os with Linux => to_ascii_lowercase path | _ => path end.
Definition normalize_for_wsl_with_flag (os : target_os) (path : str) (is_wsl : bool) : str :=
  if negb is_wsl then path else if negb (is_wsl_case_insensitive_path os path) then path else lower_ascii_path os path.
Definition normalize_for_path_comparison `{PermEnv} (os : target_os) (is_wsl : bool) (path : str) : option str :=
  (λ p, normalize_for_wsl_with_flag os p is_wsl) <$> canonicalize path.

(** * Quoting *)

Definition quote : N := 39.
Definition dquote : N := 34.
(** [input.replace('\'', r#"'"'"'"#)]. *)
Fixpoint shell_single_quote (input : str) : str :=
  match input with
  | [] => []
  | c :: rest =>
      if bool_decide (c = quote) then [quote; dquote; quote; dquote; quote] ++ shell_single_quote rest
      else c :: shell_single_quote rest
  end.
Definition is_valid_shell_variable_name (name : str) : bool :=
  match name with
  | [] => false
  | first :: _ =>
      if negb ((first =? 95)%N || is_ascii_alphabetic first) then false
      else forallb (λ c, (c =? 95)%N || is_ascii_alphanumeric c) (tail name)
  end.

(** * The wrapper *)

Definition override_capture (idx : nat) (key : str) : str :=
  lit "__CODEX_SNAPSHOT_OVERRIDE_SET_" ++ show_nat idx ++ lit "=" ++ [dquote] ++ lit "${" ++ key ++ lit "+x}" ++ [dquote; nl]
  ++ lit "__CODEX_SNAPSHOT_OVERRIDE_" ++ show_nat idx ++ lit "=" ++ [dquote] ++ lit "${" ++ key ++ lit "-}" ++ [dquote].
Definition override_restore (idx : nat) (key : str) : str :=
  lit "if [ -n " ++ [dquote] ++ lit "${__CODEX_SNAPSHOT_OVERRIDE_SET_" ++ show_nat idx ++ lit "}" ++ [dquote]
  ++ lit " ]; then export " ++ key ++ lit "=" ++ [dquote] ++ lit "${__CODEX_SNAPSHOT_OVERRIDE_" ++ show_nat idx ++ lit "}" ++ [dquote]
  ++ lit "; else unset " ++ key ++ lit "; fi".
(** The keys of the overrides, sorted. *)
Definition override_keys (explicit_env_overrides : gmap str str) : list str :=
  (btree_of ((λ e, (e.1, tt)) <$> filter (λ e, is_valid_shell_variable_name e.1 = true) (map_to_list explicit_env_overrides))).*1.
Definition build_override_exports (explicit_env_overrides : gmap str str) : str * str :=
  match override_keys explicit_env_overrides with
  | [] => ([], [])
  | keys => (join [nl] (imap override_capture keys), join [nl] (imap override_restore keys))
  end.

Record ShellSnapshot : Type := { snapshot_path : str; snapshot_cwd : str }.
Record Shell : Type := { shell_type : ShellType; shell_path : str; shell_snapshot : option ShellSnapshot }.
(** The line that runs the original command. *)
Definition exec_line (original_shell original_script : str) (trailing : list str) : str :=
  lit "exec '" ++ shell_single_quote original_shell ++ lit "' -c '" ++ shell_single_quote original_script ++ lit "'"
  ++ concat ((λ arg, lit " '" ++ shell_single_quote arg ++ lit "'") <$> trailing).
Definition source_line (snapshot : str) : str :=
  lit "if . '" ++ shell_single_quote snapshot ++ lit "' >/dev/null 2>&1; then :; fi".
(** The early returns before the command line is looked at. *)
Definition applicable_snapshot `{PermEnv} (os : target_os) (is_wsl : bool) (session_shell : Shell) (cwd : str) : option ShellSnapshot :=
  if match os with Windows => true | _ => false end then None
  else
    snapshot ← shell_snapshot session_shell;
    let elsewhere :=
      match normalize_for_path_comparison os is_wsl (snapshot_cwd snapshot), normalize_for_path_comparison os is_wsl cwd with
      | Some snapshot_cwd, Some command_cwd => negb (bool_decide (path_eq snapshot_cwd command_cwd))
      | _, _ => negb (bool_decide (path_eq (snapshot_cwd snapshot) cwd))
      end in
    if negb (path_exists (snapshot_path snapshot)) || elsewhere then None else Some snapshot.
Definition rewritten_script (snapshot : ShellSnapshot) (explicit_env_overrides : gmap str str) (original_shell original_script : str)
    (trailing : list str) : str :=
  match build_override_exports explicit_env_overrides with
  | (_, []) => source_line (snapshot_path snapshot) ++ [nl; nl] ++ exec_line original_shell original_script trailing
  | (captures, exports) =>
      captures ++ [nl; nl] ++ source_line (snapshot_path snapshot) ++ [nl; nl] ++ exports ++ [nl; nl]
      ++ exec_line original_shell original_script trailing
  end.
Definition maybe_wrap_shell_lc_with_snapshot `{PermEnv} (os : target_os) (is_wsl : bool) (command : list str) (session_shell : Shell)
    (cwd : str) (explicit_env_overrides : gmap str str) : list str :=
  match applicable_snapshot os is_wsl session_shell cwd, command with
  | Some snapshot, original_shell :: flag :: original_script :: trailing =>
      if negb (bool_decide (flag = lit "-lc")) then command
      else [shell_path session_shell; lit "-c"; rewritten_script snapshot explicit_env_overrides original_shell original_script trailing]
  | _, _ => command
  end.
Definition build_sandbox_command (command : list str) (cwd : str) (env : gmap str str) (additional : option PermissionProfile)
    : option SandboxCommand :=
  match command with
  | [] => None
  | program :: args => Some {| program := program; args := args; cmd_cwd := cwd; cmd_env := env; cmd_permissions := additional |}
  end.

(** * How a shell reads the line *)

(** A POSIX shell's reading of a line as words, for lines that use quoting
    only: inside single quotes every character stands for itself; inside double
    quotes so does every one but [$], backquote, backslash and the quote; outside,
    blanks separate words and the characters that mean something are not
    handled. [word] is the word being read, if one has begun. *)
Inductive quoting : Type := Unquoted | InSingle | InDouble.
Definition plain_char (c : N) : bool := is_ascii_alphanumeric c || (c =? 45)%N || (c =? 95)%N || (c =? 46)%N || (c =? 47)%N.
Definition finish_word (word : option str) (rest : list str) : list str := match word with Some w => w :: rest | None => rest end.
Fixpoint posix_words (q : quoting) (word : option str) (s : str) : option (list str) :=
  match s with
  | [] => match q with Unquoted => Some (finish_word word []) | _ => None end
  | c :: s' =>
      let w := default [] word in
      match q with
      | Unquoted =>
          if bool_decide (c = quote) then posix_words InSingle (Some w) s'
          else if bool_decide (c = dquote) then posix_words InDouble (Some w) s'
          else if bool_decide (c = 32%N) then finish_word word <$> posix_words Unquoted None s'
          else if plain_char c then posix_words Unquoted (Some (w ++ [c])) s'
          else None
      | InSingle =>
          if bool_decide (c = quote) then posix_words Unquoted (Some w) s' else posix_words InSingle (Some (w ++ [c])) s'
      | InDouble =>
          if bool_decide (c = dquote) then posix_words Unquoted (Some w) s'
          else if bool_decide (c ∈ [36; 96; 92]%N) then None
          else posix_words InDouble (Some (w ++ [c])) s'
      end
  end.

(** * Lemmas *)

Lemma quoted_reads s w rest :
  posix_words InSingle (Some w) (shell_single_quote s ++ quote :: rest) = posix_words Unquoted (Some (w ++ s)) rest.
Proof.
  revert w. induction s as [|c s IH]; intros w; cbn [shell_single_quote app].
  - cbn [posix_words]. rewrite bool_decide_true by done. by rewrite app_nil_r.
  - destruct (decide (c = quote)) as [->|Hc].
    + rewrite bool_decide_true by done. cbn [app posix_words].
      change (bool_decide (quote = quote)) with true. change (bool_decide (dquote = quote)) with false.
      change (bool_decide (dquote = dquote)) with true. change (bool_decide (quote = dquote)) with false.
      change (bool_decide (quote ∈ [36; 96; 92]%N)) with false. cbn [default id]. by rewrite IH, <-app_assoc.
    + rewrite bool_decide_false by done. cbn [app posix_words]. rewrite bool_decide_false by done. cbn [default id].
      by rewrite IH, <-app_assoc.
Qed.
Lemma trailing_reads args w : posix_words Unquoted (Some w) (concat ((λ arg, lit " '" ++ shell_single_quote arg ++ lit "'") <$> args))
  = Some (w :: args).
Proof.
  revert w. induction args as [|a args IH]; intros w; [done|]. cbn [fmap list_fmap concat].
  rewrite <-!app_assoc. change (lit " '") with [32%N; quote]. change (lit "'") with [quote]. cbn [app posix_words].
  rewrite bool_decide_false by done. rewrite bool_decide_false by done. rewrite !bool_decide_true by done. cbn [default id].
  rewrite quoted_reads. cbn [app]. by rewrite IH.
Qed.

(** * Properties *)

(** Quoting is undone by the shell: a quoted text between single quotes is read
    as exactly the text, whatever it contains, and reading goes on after it. *)
Theorem shell_single_quote_round_trip (s rest : str) (word : option str) :
  posix_words Unquoted word ([quote] ++ shell_single_quote s ++ [quote] ++ rest) = posix_words Unquoted (Some (default [] word ++ s)) rest.
Proof. cbn [app posix_words]. rewrite bool_decide_true by done. apply quoted_reads. Qed.

Lemma exec_line_reads shell script trailing :
  posix_words Unquoted None (exec_line shell script trailing) = Some (lit "exec" :: shell :: lit "-c" :: script :: trailing).
Proof.
  unfold exec_line. change (lit "' -c '") with ([quote] ++ lit " -c " ++ [quote]). rewrite <-!app_assoc. change (lit "'") with [quote].
  transitivity (cons (lit "exec") <$> posix_words InSingle (Some []) (shell_single_quote shell ++ [quote] ++ lit " -c " ++ [quote]
    ++ shell_single_quote script ++ quote :: concat ((λ arg, lit " '" ++ shell_single_quote arg ++ lit "'") <$> trailing))); [reflexivity|].
  cbn [app]. rewrite quoted_reads. cbn [app].
  transitivity (cons (lit "exec") <$> (cons shell <$> (cons (lit "-c") <$> posix_words InSingle (Some []) (shell_single_quote script ++ quote
    :: concat ((λ arg, lit " '" ++ shell_single_quote arg ++ lit "'") <$> trailing))))); [reflexivity|].
  rewrite quoted_reads. cbn [app]. by rewrite trailing_reads.
Qed.

(** The wrapper runs the same command: when a command line is rewritten, the
    original was [-lc], and the last line of the script that is run instead is
    read by the shell as [exec], the original shell, [-c] and the original
    script and arguments, word for word. Everything before that line depends on
    the snapshot and the names of the variables only. *)
Theorem wrapper_preserves_command `{PermEnv} os is_wsl command shell cwd overrides :
  let wrapped := maybe_wrap_shell_lc_with_snapshot os is_wsl command shell cwd overrides in
  wrapped = command
  ∨ ∃ original_shell original_script trailing snapshot before line,
      command = original_shell :: lit "-lc" :: original_script :: trailing ∧ shell_snapshot shell = Some snapshot
      ∧ wrapped = [shell_path shell; lit "-c"; before ++ [nl; nl] ++ line]
      ∧ posix_words Unquoted None line = Some (lit "exec" :: original_shell :: lit "-c" :: original_script :: trailing)
      ∧ before = match build_override_exports overrides with
                 | (_, []) => source_line (snapshot_path snapshot)
                 | (captures, exports) => captures ++ [nl; nl] ++ source_line (snapshot_path snapshot) ++ [nl; nl] ++ exports
                 end.
Proof.
  intros wrapped. unfold wrapped, maybe_wrap_shell_lc_with_snapshot.
  destruct (applicable_snapshot os is_wsl shell cwd) as [snapshot|] eqn:Es; [|by left].
  destruct command as [|sh [|flag [|script trailing]]]; [by left..|].
  destruct (bool_decide (flag = lit "-lc")) eqn:Ef; [|by left]. apply bool_decide_eq_true in Ef as ->. right.
  assert (Hs : shell_snapshot shell = Some snapshot).
  { unfold applicable_snapshot in Es. case_match; [done|]. apply bind_Some in Es as (x & -> & Hx). cbv zeta in Hx. by case_match; simplify_eq. }
  unfold rewritten_script. exists sh, script, trailing, snapshot. destruct (build_override_exports overrides) as [captures [|x exports]];
    eexists _, (exec_line sh script trailing); (split; [done|]; split; [done|]; split; [|split; [apply exec_line_reads|reflexivity]]);
    by rewrite <-?app_assoc.
Qed.
