(* ===== verification/Shells.v ===== *)
(** The shells of a session and the command lines they run:
    [codex-rs/core/src/shell.rs]. The account's shell, the search of the [PATH]
    and the file system are parameters; the watch channel of a snapshot is in
    [Snapshot]. *)
From S2P Require Import Prelude RustStr RustPath FileSystem AbsolutePath Permissions Bash Safety SandboxTransform Snapshot.

(** [which] is that of the which crate, [windows] and [macos] the platform. *)
Class ShellEnv : Type := {
  user_shell_path : option str;
  which : str → option str;
  windows : bool; macos : bool }.
(** Documented: what [which] finds is the absolute path of a file of that name. *)
Class ShellEnvLaws `{ShellEnv} : Prop :=
  which_name binary p : which binary = Some p → is_absolute p = true ∧ file_name p = Some binary.

Definition shell_with (t : ShellType) (path : str) : Shell := {| shell_type := t; shell_path := path; shell_snapshot := None |}.
Definition name (s : Shell) : str :=
  match shell_type s with
  | Zsh => lit "zsh" | Bash => lit "bash" | PowerShell => lit "powershell" | Sh => lit "sh" | Cmd => lit "cmd"
  end.
Definition derive_exec_args (s : Shell) (command : str) (use_login_shell : bool) : list str :=
  match shell_type s with
  | Zsh | Bash | Sh => [shell_path s; lit (if use_login_shell then "-lc" else "-c"); command]
  | PowerShell => [shell_path s] ++ (if use_login_shell then [] else [lit "-NoProfile"]) ++ [lit "-Command"; command]
  | Cmd => [shell_path s; lit "/c"; command]
  end.

Definition ZSH_FALLBACK_PATHS : list str := [lit "/bin/zsh"].
Definition BASH_FALLBACK_PATHS : list str := [lit "/bin/bash"].
Definition SH_FALLBACK_PATHS : list str := [lit "/bin/sh"].
Section shells.
Context `{PermEnv, ShellEnv}.
Definition PWSH_FALLBACK_PATHS : list str :=
  if windows then [lit "C:\Program Files\PowerShell\7\pwsh.exe"] else [lit "/usr/local/bin/pwsh"].
Definition POWERSHELL_FALLBACK_PATHS : list str :=
  if windows then [lit "C:\Windows\System32\WindowsPowerShell\v1.0\powershell.exe"] else [].
Definition file_exists (path : str) : option str := if is_file path then Some path else None.
Fixpoint first_existing (paths : list str) : option str :=
  match paths with [] => None | p :: paths' => match file_exists p with Some p => Some p | None => first_existing paths' end end.
Definition get_shell_path (t : ShellType) (provided_path : option str) (binary_name : str) (fallback_paths : list str) : option str :=
  match provided_path ≫= file_exists with
  | Some _ => provided_path
  | None =>
      match d ← user_shell_path;
            if decide (detect_shell_type d = Some t) then file_exists d else None with
      | Some d => Some d
      | None => match which binary_name with Some p => Some p | None => first_existing fallback_paths end
      end
  end.
Definition get_zsh_shell (path : option str) : option Shell := shell_with Zsh <$> get_shell_path Zsh path (lit "zsh") ZSH_FALLBACK_PATHS.
Definition get_bash_shell (path : option str) : option Shell := shell_with Bash <$> get_shell_path Bash path (lit "bash") BASH_FALLBACK_PATHS.
Definition get_sh_shell (path : option str) : option Shell := shell_with Sh <$> get_shell_path Sh path (lit "sh") SH_FALLBACK_PATHS.
Definition get_powershell_shell (path : option str) : option Shell :=
  shell_with PowerShell <$>
    match get_shell_path PowerShell path (lit "pwsh") PWSH_FALLBACK_PATHS with
    | Some p => Some p
    | None => get_shell_path PowerShell path (lit "powershell") POWERSHELL_FALLBACK_PATHS
    end.
Definition get_cmd_shell (path : option str) : option Shell := shell_with Cmd <$> get_shell_path Cmd path (lit "cmd") [].
Definition ultimate_fallback_shell : Shell := if windows then shell_with Cmd (lit "cmd.exe") else shell_with Sh (lit "/bin/sh").
Definition get_shell (t : ShellType) (path : option str) : option Shell :=
  match t with
  | Zsh => get_zsh_shell path | Bash => get_bash_shell path | PowerShell => get_powershell_shell path
  | Sh => get_sh_shell path | Cmd => get_cmd_shell path
  end.
Definition get_shell_by_model_provided_path (shell_path : str) : Shell :=
  default ultimate_fallback_shell (t ← detect_shell_type shell_path; get_shell t (Some shell_path)).
Definition first_shell (a b : option Shell) : option Shell := match a with Some s => Some s | None => b end.
Definition default_user_shell_from_path (user_shell_path : option str) : Shell :=
  if windows then default ultimate_fallback_shell (get_shell PowerShell None)
  else
    let user_default_shell := shell ← user_shell_path; t ← detect_shell_type shell; get_shell t None in
    let shell_with_fallback :=
      if macos then first_shell (first_shell user_default_shell (get_shell Zsh None)) (get_shell Bash None)
      else first_shell (first_shell user_default_shell (get_shell Bash None)) (get_shell Zsh None) in
    default ultimate_fallback_shell shell_with_fallback.
Definition default_user_shell : Shell := default_user_shell_from_path user_shell_path.

(** * Lemmas *)

(** A shell whose path tells its type. *)
Definition recognised (s : Shell) : Prop := detect_shell_type (shell_path s) = Some (shell_type s).
Lemma shell_name_plain b t : shell_of_name b = Some t → file_name b = Some b ∧ stem_of_name b = b ∧ is_absolute b = false.
Proof.
  intros Hb. assert (Hin : b ∈ map lit ["zsh"; "sh"; "cmd"; "bash"; "pwsh"; "powershell"]%string).
  { unfold shell_of_name in Hb. cbn [map]. repeat (case_decide; [subst; set_solver|]). done. }
  cbn [map] in Hin. repeat (apply elem_of_cons in Hin as [->|Hin]; [by vm_compute|]). by apply elem_of_nil in Hin.
Qed.
Lemma detect_file_name p b t : is_absolute p = true → file_name p = Some b → shell_of_name b = Some t → detect_shell_type p = Some t.
Proof.
  intros Ha Hf Hb. destruct (shell_name_plain b t Hb) as (_ & Hs & Hr). unfold detect_shell_type.
  destruct (detect_shell_type_total (S (length p)) p) as [r Hr2]; [lia|]. rewrite Hr2. cbn [detect_shell_type_fuel] in Hr2.
  destruct (shell_of_name p) as [t'|] eqn:Ep; [destruct (shell_name_plain p t' Ep) as (_ & _ & ?); congruence|].
  unfold file_stem in Hr2. rewrite Hf in Hr2. cbn [fmap option_fmap option_map] in Hr2. rewrite Hs in Hr2.
  destruct (decide (path_eq b p)) as [E|_]; [apply is_absolute_path_eq in E; congruence|].
  destruct (length p) as [|k] eqn:El; [destruct p; [done|cbn in El; lia]|]. cbn [detect_shell_type_fuel] in Hr2. rewrite Hb in Hr2. congruence.
Qed.
Lemma first_existing_elem l p : first_existing l = Some p → p ∈ l.
Proof.
  induction l as [|q l IH]; [done|]. cbn. unfold file_exists at 1. destruct (is_file q); [intros [= ->]; by left|]. intros ?%IH. by right.
Qed.
Lemma get_shell_path_recognised t provided binary fallbacks p : ShellEnvLaws →
  shell_of_name binary = Some t → Forall (λ q, detect_shell_type q = Some t) fallbacks →
  (∀ q, provided = Some q → detect_shell_type q = Some t) →
  get_shell_path t provided binary fallbacks = Some p → detect_shell_type p = Some t.
Proof.
  intros Hlaws Hb Hf Hp. unfold get_shell_path. destruct (provided ≫= file_exists); [intros [= ->]; by apply Hp|].
  destruct (d ← user_shell_path; _) as [d|] eqn:Ed.
  - intros [= ->]. destruct user_shell_path as [d|]; [|done]. cbn in Ed. destruct (decide _) as [Hd|]; [|done].
    unfold file_exists in Ed. destruct (is_file d); [congruence|done].
  - destruct (which binary) as [q|] eqn:Eq.
    + intros [= ->]. apply which_name in Eq as [? ?]. by eapply detect_file_name.
    + intros Hq%first_existing_elem. rewrite Forall_forall in Hf. by apply Hf.
Qed.
Lemma get_shell_recognised t provided s : ShellEnvLaws → windows = false →
  (∀ q, provided = Some q → detect_shell_type q = Some t) → get_shell t provided = Some s → shell_type s = t ∧ recognised s.
Proof.
  intros Hlaws Hw Hp. unfold recognised.
  assert (Hg : ∀ binary fallbacks, shell_of_name binary = Some t → forallb (λ q, bool_decide (detect_shell_type q = Some t)) fallbacks = true →
    ∀ p, get_shell_path t provided binary fallbacks = Some p → detect_shell_type p = Some t).
  { intros binary fallbacks Hb Hf p. apply get_shell_path_recognised; [done..| |done]. apply Forall_forall. intros q Hq.
    rewrite forallb_forall in Hf. apply (bool_decide_eq_true_1 _), Hf, list_elem_of_In, Hq. }
  destruct t; cbn [get_shell]; unfold get_zsh_shell, get_bash_shell, get_powershell_shell, get_sh_shell, get_cmd_shell;
    unfold PWSH_FALLBACK_PATHS, POWERSHELL_FALLBACK_PATHS; rewrite ?Hw.
  3: { set (first := get_shell_path PowerShell provided (lit "pwsh") [lit "/usr/local/bin/pwsh"]).
       assert (Hfirst : ∀ p, first = Some p → detect_shell_type p = Some PowerShell) by (apply Hg; vm_compute; reflexivity).
       destruct first as [p|].
       - intros [= <-]. split; [done|]. by apply Hfirst.
       - intros (p & E2 & ->)%fmap_Some. split; [done|]. eapply Hg; [| |exact E2]; vm_compute; reflexivity. }
  all: intros (p & E & ->)%fmap_Some; (split; [done|]); eapply Hg; [| |exact E]; vm_compute; reflexivity.
Qed.
Lemma fallback_recognised : windows = false → recognised ultimate_fallback_shell.
Proof. unfold ultimate_fallback_shell. intros ->. by vm_compute. Qed.

(** * Properties *)

(** Every shell that is chosen, for the account or at a path the model gives,
    tells its type by its path, and the script of every command line built for
    a POSIX shell is what the approval of commands takes out of it again. *)
Theorem scripts_of_shells_are_seen (Hlaws : ShellEnvLaws) (Hw : windows = false) s command login :
  (∃ o, s = default_user_shell_from_path o) ∨ (∃ p, s = get_shell_by_model_provided_path p) →
  recognised s
  ∧ match shell_type s with
    | Zsh | Bash | Sh => extract_bash_command (derive_exec_args s command login) = Some (shell_path s, command)
    | PowerShell | Cmd => last (derive_exec_args s command login) = Some command
    end.
Proof.
  intros Hs. assert (Hr : recognised s).
  { pose proof (fallback_recognised Hw) as Hf.
    assert (Hget : ∀ t s', get_shell t None = Some s' → recognised s') by (intros t s' E; by eapply (get_shell_recognised t None)).
    destruct Hs as [[o ->]|[p ->]].
    - unfold default_user_shell_from_path. rewrite Hw.
      assert (Hfs : ∀ a b : option Shell, (∀ s', a = Some s' → recognised s') → (∀ s', b = Some s' → recognised s') →
        ∀ s', first_shell a b = Some s' → recognised s') by (intros [a|] b Ha Hb s'; cbn; auto).
      assert (Hu : ∀ s', (shell ← o; t ← detect_shell_type shell; get_shell t None) = Some s' → recognised s').
      { intros s' (sh & _ & (t & _ & ?)%bind_Some)%bind_Some. eauto. }
      set (all := if macos then _ else _). assert (Hall : ∀ s', all = Some s' → recognised s').
      { unfold all. destruct macos; repeat (apply Hfs; [|by apply Hget]); exact Hu. }
      destruct all as [s'|] eqn:E; [by apply Hall|done].
    - unfold get_shell_by_model_provided_path. destruct (t ← detect_shell_type p; _) as [s'|] eqn:E; [|done].
      apply bind_Some in E as (t & Et & E). apply (get_shell_recognised t (Some p)) in E as [_ ?]; [done..|]. by intros q [= <-]. }
  split; [done|]. unfold derive_exec_args. pose proof Hr as Hd. unfold recognised in Hd.
  destruct (shell_type s) eqn:Et; [| |by destruct login| |done].
  all: unfold extract_bash_command; rewrite Hd; by destruct login.
Qed.
End shells.

(** * Witnesses *)

Definition sample_shell_env : ShellEnv := {|
  user_shell_path := Some (lit "/usr/bin/fish");
  which b := if decide (b = lit "bash") then Some (lit "/usr/bin/bash") else None; windows := false; macos := false |}.
#[local] Existing Instances perm_env sample_shell_env.
#[local] Instance sample_shell_env_laws : ShellEnvLaws.
Proof. intros b p. cbn. case_decide as E; [|done]. subst b. intros [= <-]. by vm_compute. Qed.
Lemma scripts_of_shells_are_seen_witness :
  recognised default_user_shell
  ∧ extract_bash_command (derive_exec_args default_user_shell (lit "ls | wc") true) = Some (lit "/usr/bin/bash", lit "ls | wc").
Proof.
  assert (Hs : default_user_shell = shell_with Bash (lit "/usr/bin/bash")) by (vm_compute; reflexivity).
  pose proof (scripts_of_shells_are_seen sample_shell_env_laws eq_refl default_user_shell (lit "ls | wc") true) as H.
  rewrite Hs in *. apply H. left. exists (Some (lit "/usr/bin/fish")). symmetry. exact Hs.
Defined.
