(* ===== verification/Runtimes.v ===== *)
(** The tools that run commands: [codex-rs/core/src/tools/runtimes/shell.rs],
    [unified_exec.rs] and [apply_patch.rs], as instances of the orchestrator's
    class. The answers of the user and of the guardian, the processes, and the
    zsh-fork back ends are parameters; a process that is started is recorded in
    the trace. *)
From stdpp Require Import gmap.
From S2P Require Import Prelude RustStr BTreeMap RustPath FileSystem AbsolutePath ExecPolicy Protocol Permissions Bash ExecApproval Safety Tokio NetState NetApproval ToolApproval SandboxTransform PermissionGrants Orchestrator Snapshot.

(** * The world of the tools *)

Record CommandPrompt : Type := {
  prompt_command : list str; prompt_cwd : str; prompt_reason : option str; prompt_network : option NetworkApprovalContext;
  prompt_amendment : option (list str); prompt_permissions : option PermissionProfile }.
Record PatchPrompt : Type := { patch_files : list str; patch_reason : option str }.
(** Kinds of a guardian's request that tools make, without the identifiers. *)
Inductive GuardianApprovalRequest : Type :=
| GuardianShell (command : list str) (cwd : str) (sandbox_permissions : SandboxPermissions) (additional : option PermissionProfile)
    (justification : option str)
| GuardianExecCommand (command : list str) (cwd : str) (sandbox_permissions : SandboxPermissions) (additional : option PermissionProfile)
    (justification : option str) (tty : bool)
| GuardianApplyPatch (cwd : str) (files : list str) (patch : str).
Inductive UnifiedExecError (Output : Type) : Type :=
| UnifiedSandboxDenied (output : Output)
| OtherUnifiedError (message : str).
Arguments UnifiedSandboxDenied {_} _.
Arguments OtherUnifiedError {_} _.

Class ToolWorld (S NetworkProxy Output CodexErr Process : Type) `{!ToolSession S} : Type := {
  world_env :: PermEnv;
  world_json :: PolicyJson;
  world_os : target_os;
  is_wsl : bool;
  try_parse_shell : str → option Tree;
  seatbelt_args : list str → FileSystemSandboxPolicy → NetworkSandboxPolicy → str → bool → option NetworkProxy → list str;
  apply_to_env : NetworkProxy → gmap str str → gmap str str;
  codex_self_exe : str;
  from_transform_error : SandboxTransformError → CodexErr;
  user_shell : S → Shell;
  request_command_approval : CommandPrompt → S → S * ReviewDecision;
  request_patch_approval : PatchPrompt → S → S * ReviewDecision;
  review_approval_request : GuardianApprovalRequest → option str → S → S * ReviewDecision;
  execute_env : SandboxExecRequest NetworkProxy → S → S * (Output + ToolError Output CodexErr);
  open_session_with_exec_env : SandboxExecRequest NetworkProxy → bool → S → S * (Process + UnifiedExecError Output);
  zsh_fork_shell_command : list str → SandboxAttempt → S → S * (option Output + ToolError Output CodexErr);
  zsh_fork_unified_exec : SandboxExecRequest NetworkProxy → bool → S → S * (option Process + ToolError Output CodexErr) }.

(** ** Steps on the session, recorded in the trace *)

Section steps.
Context {S : Type}.
Definition on_session {A} (f : S → S * A) (st : run_state S) : run_state S * A :=
  let '(s, a) := f (session st) in (with_session s st, a).
(** A review by the user or the guardian. *)
Definition asking (f : S → S * ReviewDecision) (st : run_state S) : run_state S * ReviewDecision :=
  let '(st, d) := on_session f st in (log (Asked d) st, d).
Definition executing {A NP} (e : SandboxExecRequest NP) (f : S → S * A) (st : run_state S) : run_state S * A :=
  on_session f (log (Executed (exec_command e) (exec_sandbox e) (exec_file_system_policy e)) st).
End steps.

Section runtimes.
Context {S NetworkProxy Output CodexErr Process : Type} `{!ToolSession S, !ToolWorld S NetworkProxy Output CodexErr Process}.
Implicit Types (st : run_state S) (t : TurnContext).

(** [SandboxAttempt::env_for]. *)
Definition env_for (attempt : SandboxAttempt) (command : SandboxCommand) (network : option NetworkProxy)
    : outcome SandboxTransformError (SandboxExecRequest NetworkProxy) :=
  transform seatbelt_args world_os
    {| req_command := command; req_policy := attempt_policy attempt; req_file_system_policy := attempt_file_system_policy attempt;
       req_network_policy := attempt_network_policy attempt; req_sandbox := attempt_sandbox attempt;
       enforce_managed_network := attempt_managed_network attempt; req_network := network; sandbox_policy_cwd := attempt_cwd attempt;
       codex_linux_sandbox_exe := attempt_linux_sandbox_exe attempt; use_legacy_landlock := attempt_legacy_landlock attempt |}.
(** The canonical command line; [canonical_command_total] shows there is one. *)
Definition canonical_command (command : list str) : list str :=
  match canonicalize_command_for_approval try_parse_shell command with Ok k => k | _ => [] end.
(** The command line a shell tool really runs. *)
Definition shell_command_line (st : run_state S) (command : list str) (cwd : str) (explicit_env_overrides : gmap str str) : list str :=
  let shell := user_shell (session st) in
  let command := maybe_wrap_shell_lc_with_snapshot world_os is_wsl command shell cwd explicit_env_overrides in
  if bool_decide (shell_type shell = PowerShell) then prefix_powershell_script_with_utf8 command else command.

(** * [shell] *)

Inductive ShellRuntimeBackend : Type := Generic | ShellCommandClassic | ShellCommandZshFork.
Record ShellRequest : Type := {
  shell_req_command : list str; shell_cwd : str; shell_env : gmap str str; shell_env_overrides : gmap str str;
  shell_network : option NetworkProxy; shell_permissions : SandboxPermissions; shell_additional : option PermissionProfile;
  shell_justification : option str; shell_requirement : ExecApprovalRequirement }.
Record ApprovalKey : Type := {
  key_command : list str; key_cwd : str; key_sandbox_permissions : SandboxPermissions; key_additional : option PermissionProfile }.
Definition shell_approval_keys (req : ShellRequest) : list ApprovalKey :=
  [{| key_command := canonical_command (shell_req_command req); key_cwd := shell_cwd req;
      key_sandbox_permissions := shell_permissions req; key_additional := shell_additional req |}].
Definition reason_or {A} (a b : option A) : option A := match a with Some _ => a | None => b end.
Definition shell_start_approval `{!KeyJson ApprovalKey} (req : ShellRequest) t (ctx : ApprovalCtx) st : run_state S * ReviewDecision :=
  if routes_approval_to_guardian t then
    asking (review_approval_request
              (GuardianShell (shell_req_command req) (shell_cwd req) (shell_permissions req) (shell_additional req) (shell_justification req))
              (retry_reason ctx)) st
  else
    with_cached_approval (shell_approval_keys req)
      (asking (request_command_approval
                 {| prompt_command := shell_req_command req; prompt_cwd := shell_cwd req;
                    prompt_reason := reason_or (retry_reason ctx) (shell_justification req);
                    prompt_network := network_approval_context ctx;
                    prompt_amendment := proposed_execpolicy_amendment (shell_requirement req);
                    prompt_permissions := shell_additional req |})) st.
(** The part of [run] after the zsh-fork back end. *)
Definition shell_run_command (req : ShellRequest) (attempt : SandboxAttempt) (command : list str) st
    : run_state S * (Output + ToolError Output CodexErr) :=
  match build_sandbox_command command (shell_cwd req) (shell_env req) (shell_additional req) with
  | None => (st, inr (Rejected (lit "command args are empty")))
  | Some c =>
      match env_for attempt c (shell_network req) with
      | Ok e => executing e (execute_env e) st
      | Err error => (st, inr (OtherCodexErr (from_transform_error error)))
      | Panic | OutOfFuel => (st, inr (Rejected []))
      end
  end.
Definition shell_run (backend : ShellRuntimeBackend) (req : ShellRequest) t (attempt : SandboxAttempt) st
    : run_state S * (Output + ToolError Output CodexErr) :=
  let command := shell_command_line st (shell_req_command req) (shell_cwd req) (shell_env_overrides req) in
  match backend with
  | ShellCommandZshFork =>
      let '(st, result) := on_session (zsh_fork_shell_command command attempt) st in
      match result with
      | inr e => (st, inr e)
      | inl (Some out) => (st, inl out)
      | inl None => shell_run_command req attempt command st
      end
  | _ => shell_run_command req attempt command st
  end.
Definition ShellRuntime `{!KeyJson ApprovalKey} (backend : ShellRuntimeBackend) : ToolRuntime S ShellRequest Output Output CodexErr := {|
  exec_approval_requirement req := Some (shell_requirement req);
  sandbox_mode_for_first_attempt req := sandbox_override_for_first_attempt (shell_permissions req) (shell_requirement req);
  should_bypass_approval := default_should_bypass_approval;
  wants_no_sandbox_approval := default_wants_no_sandbox_approval;
  start_approval := shell_start_approval;
  sandbox_preference := PreferAuto;
  escalate_on_failure := true;
  network_approval_spec req := (λ _, {| spec_network := true; spec_mode := Immediate |}) <$> shell_network req;
  tool_run := shell_run backend |}.

(** * [exec_command] *)

Inductive UnifiedExecShellMode : Type := Direct | ZshFork.
Record UnifiedExecRequest : Type := {
  unified_command : list str; unified_cwd : str; unified_env : gmap str str; unified_env_overrides : gmap str str;
  unified_network : option NetworkProxy; tty : bool; unified_permissions : SandboxPermissions;
  unified_additional : option PermissionProfile; unified_justification : option str; unified_requirement : ExecApprovalRequirement }.
Record UnifiedExecApprovalKey : Type := {
  ukey_command : list str; ukey_cwd : str; ukey_tty : bool; ukey_sandbox_permissions : SandboxPermissions; ukey_additional : option PermissionProfile }.
Definition unified_approval_keys (req : UnifiedExecRequest) : list UnifiedExecApprovalKey :=
  [{| ukey_command := canonical_command (unified_command req); ukey_cwd := unified_cwd req; ukey_tty := tty req;
      ukey_sandbox_permissions := unified_permissions req; ukey_additional := unified_additional req |}].
Definition unified_start_approval `{!KeyJson UnifiedExecApprovalKey} (req : UnifiedExecRequest) t (ctx : ApprovalCtx) st : run_state S * ReviewDecision :=
  if routes_approval_to_guardian t then
    asking (review_approval_request
              (GuardianExecCommand (unified_command req) (unified_cwd req) (unified_permissions req) (unified_additional req)
                 (unified_justification req) (tty req))
              (retry_reason ctx)) st
  else
    with_cached_approval (unified_approval_keys req)
      (asking (request_command_approval
                 {| prompt_command := unified_command req; prompt_cwd := unified_cwd req;
                    prompt_reason := reason_or (retry_reason ctx) (unified_justification req);
                    prompt_network := network_approval_context ctx;
                    prompt_amendment := proposed_execpolicy_amendment (unified_requirement req);
                    prompt_permissions := unified_additional req |})) st.
Definition unified_env_for (req : UnifiedExecRequest) : gmap str str :=
  match unified_network req with Some network => apply_to_env network (unified_env req) | None => unified_env req end.
(** The environment and the sandboxed request for a command line, or the error. *)
Definition unified_exec_request (req : UnifiedExecRequest) (attempt : SandboxAttempt) (command : list str)
    : SandboxExecRequest NetworkProxy + ToolError Output CodexErr :=
  match build_sandbox_command command (unified_cwd req) (unified_env_for req) (unified_additional req) with
  | None => inr (Rejected (lit "missing command line for PTY"))
  | Some c =>
      match env_for attempt c (unified_network req) with
      | Ok e => inl e
      | Err error => inr (OtherCodexErr (from_transform_error error))
      | Panic | OutOfFuel => inr (Rejected [])
      end
  end.
Definition unified_open (req : UnifiedExecRequest) (e : SandboxExecRequest NetworkProxy) st : run_state S * (Process + ToolError Output CodexErr) :=
  let '(st, result) := executing e (open_session_with_exec_env e (tty req)) st in
  (st, match result with
       | inl process => inl process
       | inr (UnifiedSandboxDenied output) => inr (SandboxDenied output None)
       | inr (OtherUnifiedError message) => inr (Rejected message)
       end).
Definition unified_run (mode : UnifiedExecShellMode) (req : UnifiedExecRequest) t (attempt : SandboxAttempt) st
    : run_state S * (Process + ToolError Output CodexErr) :=
  let command := shell_command_line st (unified_command req) (unified_cwd req) (unified_env_overrides req) in
  match unified_exec_request req attempt command with
  | inr error => (st, inr error)
  | inl e =>
      match mode with
      | Direct => unified_open req e st
      | ZshFork =>
          let '(st, result) := on_session (zsh_fork_unified_exec e (tty req)) st in
          match result with
          | inr error => (st, inr error)
          | inl (Some process) => (st, inl process)
          | inl None => unified_open req e st
          end
      end
  end.
Definition UnifiedExecRuntime `{!KeyJson UnifiedExecApprovalKey} (mode : UnifiedExecShellMode)
    : ToolRuntime S UnifiedExecRequest Process Output CodexErr := {|
  exec_approval_requirement req := Some (unified_requirement req);
  sandbox_mode_for_first_attempt req := sandbox_override_for_first_attempt (unified_permissions req) (unified_requirement req);
  should_bypass_approval := default_should_bypass_approval;
  wants_no_sandbox_approval := default_wants_no_sandbox_approval;
  start_approval := unified_start_approval;
  sandbox_preference := PreferAuto;
  escalate_on_failure := true;
  network_approval_spec req := (λ _, {| spec_network := true; spec_mode := Deferred |}) <$> unified_network req;
  tool_run := unified_run mode |}.

(** * [apply_patch] *)

Definition CODEX_CORE_APPLY_PATCH_ARG1 : str := lit "--codex-run-as-apply-patch".
Record ApplyPatchRequest : Type := {
  patch_text : str; patch_cwd : str; file_paths : list str; patch_requirement : ExecApprovalRequirement;
  patch_additional : option PermissionProfile; permissions_preapproved : bool }.
Definition patch_start_approval `{!KeyJson str} (req : ApplyPatchRequest) t (ctx : ApprovalCtx) st : run_state S * ReviewDecision :=
  if permissions_preapproved req && bool_decide (retry_reason ctx = None) then (st, Approved)
  else if routes_approval_to_guardian t then
    asking (review_approval_request (GuardianApplyPatch (patch_cwd req) (file_paths req) (patch_text req)) (retry_reason ctx)) st
  else
    match retry_reason ctx with
    | Some reason => asking (request_patch_approval {| patch_files := file_paths req; patch_reason := Some reason |}) st
    | None =>
        with_cached_approval (file_paths req)
          (asking (request_patch_approval {| patch_files := file_paths req; patch_reason := None |})) st
    end.
Definition patch_sandbox_command (req : ApplyPatchRequest) : SandboxCommand :=
  {| program := codex_self_exe; args := [CODEX_CORE_APPLY_PATCH_ARG1; patch_text req]; cmd_cwd := patch_cwd req; cmd_env := ∅;
     cmd_permissions := patch_additional req |}.
Definition patch_run (req : ApplyPatchRequest) t (attempt : SandboxAttempt) st : run_state S * (Output + ToolError Output CodexErr) :=
  match env_for attempt (patch_sandbox_command req) None with
  | Ok e => executing e (execute_env e) st
  | Err error => (st, inr (OtherCodexErr (from_transform_error error)))
  | Panic | OutOfFuel => (st, inr (Rejected []))
  end.
Definition patch_wants_no_sandbox_approval (policy : AskForApproval) : bool :=
  match policy with
  | Never => false
  | Granular c => allows_sandbox_approval c
  | OnFailure | OnRequest | UnlessTrusted => true
  end.
Definition ApplyPatchRuntime `{!KeyJson str} : ToolRuntime S ApplyPatchRequest Output Output CodexErr := {|
  exec_approval_requirement req := Some (patch_requirement req);
  sandbox_mode_for_first_attempt _ := NoOverride;
  should_bypass_approval := default_should_bypass_approval;
  wants_no_sandbox_approval := patch_wants_no_sandbox_approval;
  start_approval := patch_start_approval;
  sandbox_preference := PreferAuto;
  escalate_on_failure := true;
  network_approval_spec _ := None;
  tool_run := patch_run |}.

(** * The tools keep the orchestrator's promises *)

Lemma transform_total {NP} `{!PolicyJson} seatbelt os (r : SandboxTransformRequest NP) :
  match transform seatbelt os r with Ok _ | Err _ => True | Panic | OutOfFuel => False end.
Proof.
  unfold transform. destruct (req_sandbox r); [done|by destruct os| |done]. by destruct (codex_linux_sandbox_exe r).
Qed.
Lemma canonical_command_total command : ∃ k, canonicalize_command_for_approval try_parse_shell command = Ok k ∧ canonical_command command = k.
Proof.
  unfold canonical_command, canonicalize_command_for_approval.
  destruct (plain_commands_total try_parse_shell command) as [[[|c []]|] ->]; cbn; eauto.
Qed.
Lemma env_for_sandbox attempt c network e : env_for attempt c network = Ok e → exec_sandbox e = attempt_sandbox attempt.
Proof.
  unfold env_for, transform. cbn [req_sandbox]. destruct (attempt_sandbox attempt); cbn.
  - by intros [= <-].
  - destruct world_os; [|done..]. by intros [= <-].
  - destruct (attempt_linux_sandbox_exe attempt); [|done]. by intros [= <-].
  - by intros [= <-].
Qed.

Lemma env_for_policy attempt c network e :
  env_for attempt c network = Ok e →
  exec_file_system_policy e = effective_file_system_sandbox_policy (attempt_file_system_policy attempt) (cmd_permissions c).
Proof.
  unfold env_for, transform. cbn [req_sandbox]. destruct (attempt_sandbox attempt); cbn.
  - by intros [= <-].
  - destruct world_os; [|done..]. by intros [= <-].
  - destruct (attempt_linux_sandbox_exe attempt); [|done]. by intros [= <-].
  - by intros [= <-].
Qed.
Definition extends (P : tool_event → Prop) (st st' : run_state S) : Prop := ∃ l, trace st' = trace st ++ l ∧ Forall P l.
Lemma extends_refl P st st' : trace st' = trace st → extends P st st'.
Proof. intros E. exists []. rewrite app_nil_r. by split. Qed.
Lemma extends_trans P st1 st2 st3 : extends P st1 st2 → extends P st2 st3 → extends P st1 st3.
Proof. intros (l & E & Hl) (k & E' & Hk). exists (l ++ k). rewrite E', E, app_assoc. split; [done|by apply Forall_app]. Qed.
Lemma no_new_event (st : run_state S) pre e post : trace st ≠ trace st ++ pre ++ e :: post.
Proof. intros Ht. apply (f_equal length) in Ht. rewrite !length_app in Ht. cbn in Ht. lia. Qed.
Lemma on_session_trace {A} (f : S → S * A) st : trace (on_session f st).1 = trace st.
Proof. unfold on_session. by destruct (f (session st)). Qed.
Lemma asking_extends f st : extends is_asked st (asking f st).1.
Proof.
  unfold asking. pose proof (on_session_trace f st) as E. destruct (on_session f st) as [st' d]. cbn in *.
  exists [Asked d]. cbn. rewrite E. split; [done|by repeat constructor].
Qed.
Lemma executing_extends {A} (e : SandboxExecRequest NetworkProxy) (f : S → S * A) st sb :
  exec_sandbox e = sb → extends (is_executed sb) st (executing e f st).1.
Proof.
  intros Hsb. unfold executing. exists [Executed (exec_command e) (exec_sandbox e) (exec_file_system_policy e)]. rewrite on_session_trace.
  split; [done|]. by repeat constructor.
Qed.
Lemma cached_extends {K} `{!KeyJson K} P (keys : list K) (fetch : run_state S → run_state S * ReviewDecision) st :
  extends P st (fetch st).1 → extends P st (with_cached_approval keys fetch st).1.
Proof.
  intros Hf. unfold with_cached_approval. destruct keys as [|k keys]; [done|]. destruct (all_approved _ _); [by apply extends_refl|].
  destruct (fetch st) as [st1 d]. cbn in Hf. by destruct d.
Qed.
(** The processes of a shell command have the policy of the attempt, widened by
    the command's permissions. *)
Definition has_policy (pol : FileSystemSandboxPolicy) (e : tool_event) : Prop := match e with Executed _ _ p => p = pol | _ => True end.
Lemma shell_run_policy backend req t attempt st :
  extends (has_policy (effective_file_system_sandbox_policy (attempt_file_system_policy attempt) (shell_additional req))) st
    (shell_run backend req t attempt st).1.
Proof.
  set (P := has_policy _). assert (Hrun : ∀ command st', extends P st' (shell_run_command req attempt command st').1).
  { intros command st'. unfold shell_run_command. destruct (build_sandbox_command _ _ _ _) as [c|] eqn:Ec; [|by apply extends_refl].
    destruct (env_for _ _ _) as [e| | |] eqn:Ee; [|by apply extends_refl..]. unfold executing.
    exists [Executed (exec_command e) (exec_sandbox e) (exec_file_system_policy e)]. rewrite on_session_trace. split; [done|].
    constructor; [|done]. cbn. rewrite (env_for_policy _ _ _ _ Ee). unfold build_sandbox_command in Ec. by destruct command; simplify_eq. }
  unfold shell_run. destruct backend; [apply Hrun..|].
  pose proof (on_session_trace (zsh_fork_shell_command (shell_command_line st (shell_req_command req) (shell_cwd req) (shell_env_overrides req)) attempt) st) as E.
  destruct (on_session _ st) as [st' [[out|]|e]]; [by apply extends_refl| |by apply extends_refl].
  eapply extends_trans; [by apply extends_refl|apply Hrun].
Qed.
#[export] Instance ShellRuntime_laws `{!KeyJson ApprovalKey} backend :
  @ToolRuntimeLaws S ShellRequest Output Output CodexErr (ShellRuntime backend).
Proof.
  split; [| |done|done].
  - intros req t ctx st. change (extends is_asked st (shell_start_approval req t ctx st).1). unfold shell_start_approval.
    destruct (routes_approval_to_guardian t); [|apply cached_extends]; apply asking_extends.
  - intros req t attempt st. change (extends (is_executed (attempt_sandbox attempt)) st (shell_run backend req t attempt st).1).
    assert (Hrun : ∀ command st', extends (is_executed (attempt_sandbox attempt)) st' (shell_run_command req attempt command st').1).
    { intros command st'. unfold shell_run_command. destruct (build_sandbox_command _ _ _ _) as [c|]; [|by apply extends_refl].
      destruct (env_for _ _ _) as [e| | |] eqn:Ee; [|by apply extends_refl..]. by eapply executing_extends, env_for_sandbox. }
    unfold shell_run. destruct backend; [apply Hrun..|].
    pose proof (on_session_trace (zsh_fork_shell_command (shell_command_line st (shell_req_command req) (shell_cwd req) (shell_env_overrides req)) attempt) st) as E.
    destruct (on_session _ st) as [st' [[out|]|e]]; [by apply extends_refl| |by apply extends_refl].
    eapply extends_trans; [by apply extends_refl|apply Hrun].
Qed.
#[export] Instance UnifiedExecRuntime_laws `{!KeyJson UnifiedExecApprovalKey} mode :
  @ToolRuntimeLaws S UnifiedExecRequest Process Output CodexErr (UnifiedExecRuntime mode).
Proof.
  split; [| |done|done].
  - intros req t ctx st. change (extends is_asked st (unified_start_approval req t ctx st).1). unfold unified_start_approval.
    destruct (routes_approval_to_guardian t); [|apply cached_extends]; apply asking_extends.
  - intros req t attempt st. change (extends (is_executed (attempt_sandbox attempt)) st (unified_run mode req t attempt st).1).
    unfold unified_run. destruct (unified_exec_request _ _ _) as [e|] eqn:Ee; [|by apply extends_refl].
    assert (Hsb : exec_sandbox e = attempt_sandbox attempt).
    { unfold unified_exec_request in Ee. destruct (build_sandbox_command _ _ _ _) as [c|]; [|done].
      destruct (env_for _ _ _) eqn:E; simplify_eq. by eapply env_for_sandbox. }
    assert (Hrun : ∀ st', extends (is_executed (attempt_sandbox attempt)) st' (unified_open req e st').1).
    { intros st'. unfold unified_open. pose proof (executing_extends e (open_session_with_exec_env e (tty req)) st' _ Hsb) as H.
      by destruct (executing _ _ st'). }
    destruct mode; [apply Hrun|]. pose proof (on_session_trace (zsh_fork_unified_exec e (tty req)) st) as E.
    destruct (on_session _ st) as [st' [[out|]|err]]; [by apply extends_refl| |by apply extends_refl].
    eapply extends_trans; [by apply extends_refl|apply Hrun].
Qed.
#[export] Instance ApplyPatchRuntime_laws `{!KeyJson str} : @ToolRuntimeLaws S ApplyPatchRequest Output Output CodexErr ApplyPatchRuntime.
Proof.
  split; [| |done|done].
  - intros req t ctx st. change (extends is_asked st (patch_start_approval req t ctx st).1). unfold patch_start_approval.
    destruct (permissions_preapproved req && _); [by apply extends_refl|]. destruct (routes_approval_to_guardian t); [apply asking_extends|].
    destruct (retry_reason ctx); [|apply cached_extends]; apply asking_extends.
  - intros req t attempt st. change (extends (is_executed (attempt_sandbox attempt)) st (patch_run req t attempt st).1).
    unfold patch_run. destruct (env_for _ _ _) as [e| | |] eqn:Ee; [|by apply extends_refl..]. by eapply executing_extends, env_for_sandbox.
Qed.
End runtimes.

(** A run only does what its parts do: the reviews and the attempts. *)
Section run_extends.
Context {S Req Out D C : Type} `{!ToolSession S, !ToolRuntime S Req Out D C}.
Implicit Types (st : run_state S).
Context (P : tool_event → Prop) (HP : ∀ e, match e with Executed _ _ _ | Asked _ => True | _ => P e end).
Lemma log_extends e st : match e with Executed _ _ _ | Asked _ => False | _ => True end → extends P st (log e st).
Proof. intros He. exists [e]. split; [done|]. constructor; [|done]. specialize (HP e). by destruct e. Qed.
Lemma run_attempt_events (req : Req) t attempt managed st :
  (∀ st', extends P st' (tool_run req t attempt st').1) → extends P st (run_attempt (D := D) (C := C) req t attempt managed st).1.
Proof.
  intros Hrun. unfold run_attempt.
  assert (Hb : extends P st (begin_network_approval (sub_id t) managed (network_approval_spec req) st).1).
  { unfold begin_network_approval. destruct (network_approval_spec req) as [spec|]; [|by apply extends_refl].
    destruct (negb managed || _); [by apply extends_refl|]. eapply extends_trans; [|by apply log_extends]. by apply extends_refl. }
  destruct (begin_network_approval _ _ _ _) as [st1 approval]. cbn in Hb.
  pose proof (log_extends (Ran (attempt_sandbox attempt)) st1 I) as Hl. specialize (Hrun (log (Ran (attempt_sandbox attempt)) st1)).
  destruct (tool_run _ _ _ _) as [st2 result]. cbn in Hrun.
  assert (H2 : extends P st st2) by (eapply extends_trans; [exact Hb|eapply extends_trans; eassumption]).
  destruct approval as [[id []]|]; [| |done].
  - cbn. eapply extends_trans; [exact H2|]. eapply extends_trans; [|by apply log_extends]. by apply extends_refl.
  - destruct result; [done|]. cbn. eapply extends_trans; [exact H2|]. eapply extends_trans; [|by apply log_extends]. by apply extends_refl.
Qed.
Lemma review_events (req : Req) t ctx st :
  (∀ st', extends P st' (start_approval req t ctx st').1) → extends P st (review (D := D) (C := C) req t ctx st).1.
Proof.
  intros Ha. unfold review. specialize (Ha st). destruct (start_approval req t ctx st) as [st1 d]. cbn in *.
  eapply extends_trans; [exact Ha|by apply log_extends].
Qed.
Lemma run_events os (req : Req) t policy st :
  (∀ ctx st', extends P st' (start_approval req t ctx st').1) →
  (∀ sandbox exe st', extends P st' (tool_run req t (attempt_in t sandbox exe) st').1) →
  extends P st (run (D := D) (C := C) os req t policy st).1.
Proof.
  intros Ha Hrun. unfold run.
  assert (Hap : extends P st (approval_phase (D := D) (C := C) req t policy st).1).
  { unfold approval_phase. destruct (requirement_for req t policy); [by apply extends_refl| |by apply extends_refl].
    match goal with |- context [review req t ?c st] => pose proof (review_events req t c st (Ha c)) as Hr; destruct (review req t c st) as [st1 e] end.
    exact Hr. }
  destruct (approval_phase req t policy st) as [st1 [already|e]]; [|exact Hap]. cbn in Hap.
  pose proof (run_attempt_events req t (attempt_in t (initial_sandbox os req t) (turn_linux_sandbox_exe t)) (turn_managed_network t) st1 (Hrun _ _)) as H1.
  destruct (run_attempt _ _ _ _ st1) as [st2 [result deferred]]. cbn in H1.
  assert (H2 : extends P st st2) by (eapply extends_trans; eassumption).
  destruct result as [out|[m|output decision|e]]; [done|done| |done]. unfold retry_phase.
  destruct (denial_is_final _ _ _); [done|].
  assert (Hretry : ∀ st', extends P st st' → extends P st (run_attempt (D := D) (C := C) req t (attempt_in t SandboxNone None) (turn_managed_network t) st').1).
  { intros st' H'. eapply extends_trans; [exact H'|]. by apply run_attempt_events. }
  destruct (should_bypass_approval _ _ && _); [by apply Hretry|].
  match goal with |- context [review req t ?c st2] => pose proof (review_events req t c st2 (Ha c)) as Hr; destruct (review req t c st2) as [st3 [e|]] end;
    cbn in Hr; [by eapply extends_trans|]. apply Hretry. by eapply extends_trans.
Qed.
End run_extends.

(** * A world for witnesses *)

(** The user approves everything, and processes succeed outside a sandbox only. *)
Definition plain_json : PolicyJson := {|
  sandbox_policy_json _ := lit "{}"; file_system_policy_json _ := lit "{}"; network_policy_json _ := lit "{}" |}.
Definition plain_process (e : SandboxExecRequest unit) (s : plain_session) : plain_session * (str + ToolError str str) :=
  (s, match exec_sandbox e with SandboxNone => inl (lit "done") | _ => inr (SandboxDenied (lit "denied") None) end).
Definition plain_world : ToolWorld plain_session unit str str nat := {|
  world_env := perm_env; world_json := plain_json; world_os := Linux; is_wsl := false;
  try_parse_shell _ := None; seatbelt_args _ _ _ _ _ _ := []; apply_to_env _ m := m; codex_self_exe := lit "/bin/codex";
  from_transform_error := transform_error_display;
  user_shell _ := {| shell_type := Sh; shell_path := lit "/bin/sh"; shell_snapshot := None |};
  request_command_approval _ s := (s, Approved); request_patch_approval _ s := (s, Approved);
  review_approval_request _ _ s := (s, Approved);
  execute_env := plain_process;
  open_session_with_exec_env _ _ s := (s, inl 0);
  zsh_fork_shell_command _ _ s := (s, inl None);
  zsh_fork_unified_exec _ _ s := (s, inl None) |}.
