(* ===== verification/PatchTool.v ===== *)
(** The [apply_patch] tool from the patch to its processes:
    [codex-rs/core/src/tools/handlers/apply_patch.rs], over the verification of
    the patch, its assessment ([core/src/safety.rs]), the permissions that were
    granted and the orchestrator. The events sent to the user interface are not
    modelled. *)
From stdpp Require Import gmap.
From S2P Require Import Prelude RustStr BTreeMap RustPath FileSystem PatchParser ApplyPatch Invocation AbsolutePath ExecPolicy Protocol Permissions Bash ExecApproval Safety Tokio NetState NetApproval ToolApproval SandboxTransform PermissionGrants Orchestrator Snapshot Runtimes.

(** * Sets of paths *)

Fixpoint path_set_insert (p : str) (l : list str) : list str :=
  match l with
  | [] => [p]
  | q :: l' => match path_cmp p q with Lt => p :: l | Eq => l | Gt => q :: path_set_insert p l' end
  end.
Definition path_set (l : list str) : list str := foldl (λ s p, path_set_insert p s) [] l.

(** * Permissions of a patch *)

Definition option_list {A} (o : option A) : list A := match o with Some a => [a] | None => [] end.
Section permissions.
Context `{PermEnv}.
Definition to_abs_path (cwd path : str) : option str := ok (resolve_path_against_base path cwd).
Definition file_paths_for_action (action : ApplyPatchAction) : list str :=
  concat ((λ e : str * ApplyPatchFileChange,
             option_list (to_abs_path (action_cwd action) e.1)
             ++ match e.2 with
                | Update _ (Some dest) _ => option_list (to_abs_path (action_cwd action) dest)
                | _ => []
                end) <$> map_to_list (changes action)).
Fixpoint collect_some {A B} (f : A → option B) (l : list A) : option (list B) :=
  match l with [] => Some [] | a :: l' => b ← f a; k ← collect_some f l'; Some (b :: k) end.
Definition write_permissions_for_paths (paths : list str) (policy : FileSystemSandboxPolicy) (cwd : str)
    : outcome Empty_set (option PermissionProfile) :=
  dirs ← filterM (λ p, b ← can_write_path_with_cwd policy p cwd; Ok (negb b)) ((λ p, default p (parent p)) <$> paths);
  Ok match collect_some (λ p, ok (from_absolute_path p)) (path_set dirs) with
     | None | Some [] => None
     | Some write_paths =>
         ok (normalize_additional_permissions {| network := None; file_system := Some {| read := Some []; write := Some write_paths |} |})
     end.
Definition effective_patch_permissions (g : grant_state) (t : TurnContext) (action : ApplyPatchAction)
    : outcome Empty_set (list str * EffectiveAdditionalPermissions * FileSystemSandboxPolicy) :=
  let file_paths := file_paths_for_action action in
  let granted := merge_permission_profiles (session_granted g) (granted_turn_permissions g) in
  let policy := effective_file_system_sandbox_policy (turn_file_system_policy t) granted in
  additional ← write_permissions_for_paths file_paths policy (turn_cwd t);
  Ok (file_paths, apply_granted_turn_permissions (session_granted g) (granted_turn_permissions g) UseDefault additional, policy).
End permissions.

(** * The tool *)

Class PatchWorld (S FS : Type) : Type := {
  patch_files_of :: FileSystem FS;
  files : S → FS;
  grants_of : S → grant_state;
  extract_apply_patch_from_bash : str → outcome ExtractHeredocError (str * option str);
  text_diff : str → str → nat → str }.
Inductive patch_result (Result : Type) : Type :=
| NotAPatch
| PatchShellError (e : ExtractHeredocError)
| PatchVerificationFailed (e : ApplyPatchError)
| PatchRespond (message : str)
| PatchRan (result : Result).
Arguments NotAPatch {_}.
Arguments PatchShellError {_} _.
Arguments PatchVerificationFailed {_} _.
Arguments PatchRespond {_} _.
Arguments PatchRan {_} _.

Section tool.
Context {S FS NetworkProxy Output CodexErr Process : Type}
  `{!ToolSession S, !ToolWorld S NetworkProxy Output CodexErr Process, !PatchWorld S FS, !KeyJson str}.
Implicit Types (st : run_state S) (t : TurnContext).
(** A verified patch: its permissions, its assessment, and the orchestrator. *)
Definition patch_request (e : EffectiveAdditionalPermissions) (file_paths : list str) (action : ApplyPatchAction)
    (requirement : ExecApprovalRequirement) : ApplyPatchRequest :=
  {| patch_text := action_patch action; patch_cwd := action_cwd action; file_paths := file_paths; patch_requirement := requirement;
     patch_additional := eff_additional e; permissions_preapproved := eff_preapproved e |}.
Definition run_patch t (action : ApplyPatchAction) st
    : outcome Empty_set (run_state S * patch_result (Output + ToolError Output CodexErr)) :=
  '(file_paths, e, policy) ← effective_patch_permissions (grants_of (session st)) t action;
  decision ← apply_patch_decision world_os (turn_policy t) (turn_sandbox_policy t) policy (turn_cwd t) (turn_windows_level t) action;
  match decision with
  | RespondToModel message => Ok (st, PatchRespond message)
  | DelegateToExec action _ requirement =>
      let '(st, (result, _)) :=
        run (ToolRuntime0 := ApplyPatchRuntime) world_os (patch_request e file_paths action requirement) t (turn_policy t) st in
      Ok (st, PatchRan result)
  end.
(** [intercept_apply_patch]: a command that is a patch is run as one. *)
Definition intercept_apply_patch (command : list str) (cwd : str) t st
    : outcome Empty_set (run_state S * patch_result (Output + ToolError Output CodexErr)) :=
  v ← maybe_parse_apply_patch_verified extract_apply_patch_from_bash text_diff (files (session st)) command cwd;
  match v with
  | VBody action => run_patch t action st
  | VCorrectnessError e => Ok (st, PatchVerificationFailed e)
  | VShellParseError _ | VNotApplyPatch => Ok (st, NotAPatch)
  end.
(** [ApplyPatchHandler::handle], for the text of a patch. *)
Definition apply_patch_handle (patch_input : str) t st
    : outcome Empty_set (run_state S * patch_result (Output + ToolError Output CodexErr)) :=
  v ← maybe_parse_apply_patch_verified extract_apply_patch_from_bash text_diff (files (session st)) [lit "apply_patch"; patch_input] (turn_cwd t);
  match v with
  | VBody action => run_patch t action st
  | VCorrectnessError e => Ok (st, PatchVerificationFailed e)
  | VShellParseError _ => Ok (st, PatchRespond (lit "apply_patch handler received invalid patch input"))
  | VNotApplyPatch => Ok (st, PatchRespond (lit "apply_patch handler received non-apply_patch input"))
  end.
End tool.

(** * Lemmas *)

Lemma path_set_insert_elem p l q : q ∈ path_set_insert p l → q = p ∨ q ∈ l.
Proof.
  induction l as [|x l IH]; cbn; [set_solver|]. destruct (path_cmp p x); [set_solver..|].
  intros [->|Hq]%elem_of_cons; [set_solver|]. destruct (IH Hq); set_solver.
Qed.
Lemma path_set_insert_covers p l q : path_eq q p ∨ q ∈ l → ∃ q', q' ∈ path_set_insert p l ∧ path_eq q' q.
Proof.
  induction l as [|x l IH]; cbn; [intros [E|?%elem_of_nil]; [|done]; exists p; split; [set_solver|by symmetry]|].
  destruct (path_cmp p x) eqn:Ec.
  - apply path_cmp_eq in Ec. intros [E|Hq]; [exists x; split; [set_solver|unfold path_eq in *; congruence]|by exists q].
  - intros [E|Hq]; [exists p; split; [set_solver|by symmetry]|exists q; split; [set_solver|done]].
  - intros [E|[->|Hq]%elem_of_cons]; [|exists x; split; [set_solver|done]|];
      [destruct IH as (q' & ? & ?); [by left|]|destruct IH as (q' & ? & ?); [by right|]]; exists q'; (split; [set_solver|done]).
Qed.
Lemma path_set_fold l : ∀ s,
  (∀ q, q ∈ foldl (λ s p, path_set_insert p s) s l → q ∈ s ∨ q ∈ l)
  ∧ (∀ q, q ∈ s ∨ q ∈ l → ∃ q', q' ∈ foldl (λ s p, path_set_insert p s) s l ∧ path_eq q' q).
Proof.
  induction l as [|p l IH]; intros s; cbn [foldl].
  - split; [by left|]. intros q [Hq|?%elem_of_nil]; [by exists q|done].
  - destruct (IH (path_set_insert p s)) as [H1 H2]. split.
    + intros q [Hq|Hq]%H1; [|set_solver]. apply path_set_insert_elem in Hq as [->|?]; set_solver.
    + intros q Hq. assert (Hc : (∃ q', q' ∈ path_set_insert p s ∧ path_eq q' q) ∨ q ∈ l).
      { destruct Hq as [Hq|[->|Hq]%elem_of_cons]; [left; apply path_set_insert_covers; by right|left; apply path_set_insert_covers; by left|by right]. }
      destruct Hc as [(q' & Hq' & E)|Hin]; [|apply H2; by right]. destruct (H2 q') as (q2 & ? & ?); [by left|].
      exists q2. split; [done|]. unfold path_eq in *. congruence.
Qed.
(** A set of paths has the paths of the list, up to the components. *)
Lemma path_set_elem l q : q ∈ path_set l → q ∈ l.
Proof. intros [?%elem_of_nil|?]%(proj1 (path_set_fold l [])); done. Qed.
Lemma path_set_covers l q : q ∈ l → ∃ q', q' ∈ path_set l ∧ path_eq q' q.
Proof. intros Hq. apply (proj2 (path_set_fold l [])). by right. Qed.

(** ** The permissions of a patch *)

(** The directory that holds a file. *)
Definition dir_of (p : str) : str := default p (parent p).
(** A directory that is reached without symbolic links, or does not exist. *)
Definition canonical `{PermEnv} (d : str) : Prop := ∀ q, path_eq q d → path_eq (default q (c ← canonicalize q; ok (from_absolute_path c))) d.

Lemma collect_some_total {A B} (f : A → option B) l : (∀ x, x ∈ l → ∃ y, f x = Some y) →
  ∃ k, collect_some f l = Some k ∧ ∀ y, y ∈ k ↔ ∃ x, x ∈ l ∧ f x = Some y.
Proof.
  induction l as [|x l IH]; intros Hf; [exists []; split; [done|set_solver]|].
  destruct IH as (k & E & Hk); [intros; apply Hf; by right|]. destruct (Hf x (list_elem_of_here _ _)) as [y Ey].
  exists (y :: k). cbn. rewrite Ey. cbn. rewrite E. split; [done|]. intros z. rewrite elem_of_cons, Hk. split.
  - intros [->|(x' & ? & ?)]; [exists x|exists x']; set_solver.
  - intros (x' & [->|?]%elem_of_cons & ?); [left; congruence|right; eauto].
Qed.
Lemma dir_of_clean p : clean p → clean (dir_of p).
Proof.
  intros [Ha Hd]. destruct (components_absolute p Ha) as (cs & Ec & Hp). unfold dir_of.
  destruct cs as [|c cs _] using rev_ind; [unfold parent; by rewrite Ec|].
  destruct (parent_absolute p cs c Ec Hp) as (q & -> & Eq). cbn. split; [apply components_root_absolute; by rewrite Eq|].
  rewrite Eq. rewrite Ec in Hd. set_solver.
Qed.
Lemma dedup_roots_contains l p : contains_path (dedup_roots l) p = contains_path l p.
Proof. apply contains_path_dedup. Qed.

Section laws.
Context `{PermEnvLaws}.
Lemma to_abs_path_clean cwd p q : is_absolute cwd = true → to_abs_path cwd p = Some q → clean q.
Proof.
  intros Hc. unfold to_abs_path, resolve_path_against_base. destruct (absolutize_from _ _) as [a| | |] eqn:E; [|done..]. intros [= <-].
  split; [by eapply absolutize_from_absolute|by eapply absolutize_from_no_dots].
Qed.
Lemma file_paths_clean action f : is_absolute (action_cwd action) = true → f ∈ file_paths_for_action action → clean f.
Proof.
  intros Hc. unfold file_paths_for_action. rewrite list_elem_of_In, in_concat.
  intros (l & Hl%list_elem_of_In & Hf%list_elem_of_In). apply list_elem_of_fmap in Hl as (e & -> & _).
  assert (Ho : ∀ p, f ∈ option_list (to_abs_path (action_cwd action) p) → clean f).
  { intros p Hp. destruct (to_abs_path _ p) eqn:E; [|by apply elem_of_nil in Hp]. apply list_elem_of_singleton in Hp as ->. by eapply to_abs_path_clean. }
  apply elem_of_app in Hf as [?|Hf]; [by eapply Ho|]. destruct e.2 as [| |? [dest|] ?]; try by apply elem_of_nil in Hf. by eapply Ho.
Qed.
Lemma can_write_total policy p cwd : is_absolute cwd = true → ∃ b, can_write_path_with_cwd policy p cwd = Ok b.
Proof.
  intros Hc. unfold can_write_path_with_cwd, resolve_access_with_cwd. destruct (fs_kind policy); run_bind; [|eauto..].
  destruct (resolve_candidate_path _ _); run_bind; [|eauto].
  destruct (resolved_entries_total policy cwd Hc) as (_ & k & _ & _ & _ & ->). run_bind. eauto.
Qed.
(** The permissions that are added are to write in the directories of the
    files that are not writable as it is, in their canonical form. *)
Lemma write_permissions_spec paths policy cwd :
  is_absolute cwd = true → Forall clean paths →
  ∃ o, write_permissions_for_paths paths policy cwd = Ok o
    ∧ (∀ f, f ∈ paths → can_write_path_with_cwd policy (dir_of f) cwd = Ok false → canonical (dir_of f) →
         allows_option o (MayWrite (dir_of f)) = true)
    ∧ ∀ x, allows_option o x = true → ∃ q f r, x = MayWrite q ∧ f ∈ paths ∧ can_write_path_with_cwd policy (dir_of f) cwd = Ok false
         ∧ path_eq r (dir_of f) ∧ path_eq q (default r (c ← canonicalize r; ok (from_absolute_path c))).
Proof.
  intros Hc Hp. rewrite Forall_forall in Hp. unfold write_permissions_for_paths.
  assert (Hcl : ∀ d, d ∈ dir_of <$> paths → clean d) by (intros d (f & -> & Hf)%list_elem_of_fmap; by apply dir_of_clean, Hp).
  destruct (filterM_spec (λ p, b ← can_write_path_with_cwd policy p cwd; Ok (negb b)) (dir_of <$> paths)) as (dirs & Ed & Hd).
  { intros x _. destruct (can_write_total policy x cwd Hc) as [b ->]. run_bind. eauto. }
  change (λ p, default p (parent p)) with dir_of. rewrite Ed. run_bind. eexists. split; [done|].
  assert (Hds : ∀ d, d ∈ dirs ↔ d ∈ dir_of <$> paths ∧ can_write_path_with_cwd policy d cwd = Ok false).
  { intros d. rewrite Hd. split; intros [? E]; (split; [done|]); [destruct (can_write_path_with_cwd policy d cwd) as [[]| | |]; by try destruct e|by rewrite E]. }
  clear Ed Hd. destruct (collect_some_total (λ p, ok (from_absolute_path p)) (path_set dirs)) as (ws & -> & Hws).
  { intros d Hin%path_set_elem. destruct (from_absolute_clean d) as (q & E & _); [by apply Hcl, Hds|]. exists q. by rewrite E. }
  assert (Hmem : ∀ w, w ∈ ws → ∃ f, f ∈ paths ∧ can_write_path_with_cwd policy (dir_of f) cwd = Ok false ∧ path_eq w (dir_of f)).
  { intros w (d & Hin & E)%Hws. apply path_set_elem, Hds in Hin as [Hin Hw]. destruct (from_absolute_clean d) as (q & E' & Hq); [by apply Hcl|].
    rewrite E' in E. injection E as <-. apply list_elem_of_fmap in Hin as (f & -> & Hf). eauto. }
  assert (Hall : ∀ x, allows_option match ws with [] => None | _ :: _ =>
      ok (normalize_additional_permissions {| network := None; file_system := Some {| read := Some []; write := Some ws |} |}) end x = true
    ↔ ∃ q, x = MayWrite q ∧ contains_path (normalize_permission_paths ws) q = true).
  { intros x. destruct ws as [|w l]; [split; [done|by intros (? & _ & ?)]|].
    cbv [normalize_additional_permissions option_filter network file_system ok fmap option_fmap option_map allows_option].
    destruct x as [q|q|]; cbn [profile_allows file_system network read write mbind option_bind default negb];
      [split; [done|by intros (? & ? & _)]| |split; [done|by intros (? & ? & _)]].
    split; [by exists q|]. by intros (q' & [= <-] & ?). }
  split.
  - intros f Hf Hw Hcan. apply Hall. exists (dir_of f). split; [done|]. apply contains_path_spec.
    destruct (path_set_covers dirs (dir_of f)) as (d & Hin & E); [apply Hds; split; [by apply list_elem_of_fmap_2|done]|].
    destruct (from_absolute_clean d) as (w & Ew & Eq); [apply Hcl; by apply path_set_elem, Hds in Hin as [? _]|].
    assert (Hin' : w ∈ ws) by (apply Hws; exists d; by rewrite Ew).
    destruct (dedup_loop_covers (λ p, default p (c ← canonicalize p; ok (from_absolute_path c))) [] ws w Hin') as [(x & Hx & E2)|(x & Hx%elem_of_nil & _)]; [|done].
    exists x. split; [done|]. assert (path_eq w (dir_of f)) by (unfold path_eq in *; congruence).
    specialize (Hcan w ltac:(done)). unfold path_eq in *. congruence.
  - intros x (q & -> & (y & Hy & E)%contains_path_spec)%Hall. apply dedup_loop_elem in Hy as (w & Hw & ->).
    destruct (Hmem w Hw) as (f & ? & ? & ?). by exists q, f, w.
Qed.
(** What was granted, and the policy that results from it. *)
Definition granted_for (g : grant_state) : option PermissionProfile :=
  merge_permission_profiles (session_granted g) (granted_turn_permissions g).
Definition policy_for (g : grant_state) t : FileSystemSandboxPolicy :=
  effective_file_system_sandbox_policy (turn_file_system_policy t) (granted_for g).
Lemma effective_patch_allows g t action :
  is_absolute (turn_cwd t) = true → is_absolute (action_cwd action) = true →
  ∃ e, effective_patch_permissions g t action = Ok (file_paths_for_action action, e, policy_for g t)
    ∧ (∀ f, f ∈ file_paths_for_action action → can_write_path_with_cwd (policy_for g t) (dir_of f) (turn_cwd t) = Ok false →
         canonical (dir_of f) → allows_option (eff_additional e) (MayWrite (dir_of f)) = true)
    ∧ ∀ x, allows_option (eff_additional e) x = true →
        allows_option (granted_for g) x = true
        ∨ ∃ q f r, x = MayWrite q ∧ f ∈ file_paths_for_action action
            ∧ can_write_path_with_cwd (policy_for g t) (dir_of f) (turn_cwd t) = Ok false
            ∧ path_eq r (dir_of f) ∧ path_eq q (default r (c ← canonicalize r; ok (from_absolute_path c))).
Proof.
  intros Hc Ha. unfold effective_patch_permissions.
  destruct (write_permissions_spec (file_paths_for_action action) (policy_for g t) (turn_cwd t) Hc) as (o & E & H1 & H2).
  { apply Forall_forall. intros f. by apply file_paths_clean. }
  fold (granted_for g). fold (policy_for g t). rewrite E. run_bind. eexists. split; [done|].
  cbn [apply_granted_turn_permissions eff_additional]. fold (granted_for g).
  split; [intros f Hf Hw Hcan; by rewrite merge_allows, H1|].
  intros x. rewrite merge_allows, orb_true_iff. intros [Hx|?]; [right; by apply H2|by left].
Qed.
End laws.

(** ** The runs of a patch *)

Section tool_laws.
Context {S FS NetworkProxy Output CodexErr Process : Type}
  `{!ToolSession S, !ToolWorld S NetworkProxy Output CodexErr Process, !PatchWorld S FS, !KeyJson str, !PermEnvLaws}.
Implicit Types (st : run_state S) (t : TurnContext).

(** The sandbox a turn runs its commands and patches in. *)
Definition turn_sandbox t : SandboxType :=
  select_initial world_os (turn_file_system_policy t) (turn_network_policy t) PreferAuto (turn_windows_level t) (turn_managed_network t).

(** C7. A patch is always decided on, and no process is started for it without
    authority: an approving decision comes first, or the policy is not
    [UnlessTrusted], every file that is touched is writable as it is (or the
    policy is [OnFailure]), and the process runs in the turn's sandbox. *)
Theorem patch_processes_are_authorised t action st :
  is_absolute (turn_cwd t) = true → is_absolute (action_cwd action) = true →
  ∃ st' r, run_patch t action st = Ok (st', r)
    ∧ ∀ pre c sb pol post, trace st' = trace st ++ pre ++ Executed c sb pol :: post →
        (∃ d, Decided d ∈ pre ∧ approves d = true)
        ∨ changes action ≠ ∅ ∧ turn_policy t ≠ UnlessTrusted ∧ sb = turn_sandbox t
          ∧ may_write (turn_policy t) (policy_for (grants_of (session st)) t) (turn_cwd t) action.
Proof.
  intros Hc Ha. unfold run_patch. destruct (effective_patch_allows (grants_of (session st)) t action Hc Ha) as (e & -> & _).
  set (pol0 := policy_for (grants_of (session st)) t). run_bind. unfold apply_patch_decision.
  destruct (assess_justified world_os action (turn_policy t) (turn_sandbox_policy t) pol0 (turn_cwd t) (turn_windows_level t) Hc)
    as (check & -> & Hj). run_bind.
  assert (Hrun : ∀ req, exec_approval_requirement (ToolRuntime := ApplyPatchRuntime) req = Some (patch_requirement req)) by done.
  destruct check as [sb0 explicit| |reason]; cbv beta iota.
  - destruct Hj as (-> & Hne & Hp & Hm & _). destruct (run _ _ _ _ _) as [st' [result deferred]] eqn:E.
    exists st', (PatchRan result). split; [done|]. intros pre c sb pol post Ht.
    pose proof (run_executed (ToolRuntime0 := ApplyPatchRuntime) world_os
      (patch_request e (file_paths_for_action action) action (Skip false None)) t (turn_policy t) st pre c sb pol post) as Hx.
    rewrite E in Hx. destruct (Hx Ht) as [_ [->|(_ & _ & ?)]]; [right|by left]. done.
  - destruct (run _ _ _ _ _) as [st' [result deferred]] eqn:E. exists st', (PatchRan result). split; [done|]. intros pre c sb pol post Ht.
    pose proof (run_executed (ToolRuntime0 := ApplyPatchRuntime) world_os
      (patch_request e (file_paths_for_action action) action (NeedsApproval None None)) t (turn_policy t) st pre c sb pol post) as Hx.
    rewrite E in Hx. destruct (Hx Ht) as [[(b & a & Hr)|?] _]; [|by left]. done.
  - eexists st, _. split; [done|]. by intros pre c sb pol post ?%no_new_event.
Qed.

Lemma run_attempt_extends {Req Out D C} `{!ToolRuntime S Req Out D C, !ToolRuntimeLaws S Req Out D C} (req : Req) t attempt managed st :
  ∃ l, trace (run_attempt (D := D) (C := C) req t attempt managed st).1 = trace st ++ l.
Proof.
  pose proof (run_attempt_segment (D := D) (C := C) req t attempt managed st) as Hat. destruct (run_attempt _ _ _ _ _) as [st' [result deferred]].
  destruct Hat as (l & ? & _). eauto.
Qed.
Lemma retry_phase_extends {Req Out D C} `{!ToolRuntime S Req Out D C, !ToolRuntimeLaws S Req Out D C} (req : Req) t policy already output decision st :
  ∃ l, trace (retry_phase (D := D) (C := C) req t policy already output decision st).1 = trace st ++ l.
Proof.
  unfold retry_phase. destruct (denial_is_final _ _ _); [exists []; by rewrite app_nil_r|].
  destruct (should_bypass_approval _ _ && _); [apply run_attempt_extends|].
  match goal with |- context [review ?r ?t0 ?ctx ?s] => destruct (review_trace (D := D) (C := C) r t0 ctx s) as (asked & d & Ht & _);
    destruct (review r t0 ctx s) as [st' [error|]] end; cbn in Ht; [by eexists|].
  destruct (run_attempt_extends (D := D) (C := C) req t (attempt_in t SandboxNone None) (turn_managed_network t) st') as [l ->].
  rewrite Ht, <-app_assoc. by eexists.
Qed.
(** The first process of a patch that needs no approval. *)
Lemma patch_first_process e paths action t st exe :
  turn_sandbox t = LinuxSeccomp → turn_linux_sandbox_exe t = Some exe →
  ∃ command rest,
    trace (run (ToolRuntime0 := ApplyPatchRuntime) world_os (patch_request e paths action (Skip false None)) t (turn_policy t) st).1
    = trace st ++ [Ran LinuxSeccomp;
                   Executed command LinuxSeccomp (effective_file_system_sandbox_policy (turn_file_system_policy t) (eff_additional e))] ++ rest.
Proof.
  intros Hsb Hexe. set (req := patch_request e paths action (Skip false None)). unfold run.
  change (approval_phase (ToolRuntime0 := ApplyPatchRuntime) req t (turn_policy t) st) with (st, @inl bool (ToolError Output CodexErr) false).
  change (initial_sandbox (ToolRuntime0 := ApplyPatchRuntime) world_os req t) with (turn_sandbox t). rewrite Hsb.
  set (attempt := attempt_in t LinuxSeccomp (turn_linux_sandbox_exe t)).
  unfold run_attempt, begin_network_approval. cbn [network_approval_spec ApplyPatchRuntime tool_run]. unfold patch_run, env_for, transform.
  cbn [attempt attempt_in attempt_sandbox attempt_linux_sandbox_exe req_sandbox codex_linux_sandbox_exe]. rewrite Hexe. run_bind.
  unfold executing, on_session.
  match goal with |- context [execute_env ?x ?s] => destruct (execute_env x s) as [s1 result]; set (ex := x) end.
  cbn [session trace with_session log].
  match goal with |- context [Executed (exec_command ex) ?a ?b] => exists (exec_command ex) end.
  assert (Hdone : ∀ (l : list tool_event) a b, (l ++ [a]) ++ [b] = l ++ [a; b] ++ []) by (intros l a b; by rewrite <-app_assoc).
  destruct result as [out|[m|output decision|err]]; [exists []; apply Hdone|exists []; apply Hdone| |exists []; apply Hdone].
  match goal with |- context [retry_phase ?r ?t0 ?p ?a ?o ?d ?s] => destruct (retry_phase_extends (ToolRuntime0 := ApplyPatchRuntime) r t0 p a o d s) as [l Hl] end.
  rewrite Hl. exists l. cbn [trace with_session log]. by rewrite <-!app_assoc.
Qed.

(** Under [OnFailure] a patch writes outside the places the policy allows
    without anyone's approval: it is approved because its processes are
    sandboxed, and the sandbox of the first of them has been widened to the
    directories of its files. *)
Theorem on_failure_patch_widens_sandbox t action st f l exe :
  turn_policy t = OnFailure → turn_sandbox t = LinuxSeccomp → world_os = Linux → turn_linux_sandbox_exe t = Some exe →
  ¬ unsandboxed_policy (turn_sandbox_policy t) →
  is_absolute (turn_cwd t) = true → is_absolute (action_cwd action) = true →
  f ∈ file_paths_for_action action → canonical (dir_of f) →
  can_write_path_with_cwd (policy_for (grants_of (session st)) t) (dir_of f) (turn_cwd t) = Ok false →
  fs_kind (turn_file_system_policy t) = FsRestricted →
  resolved_entries_with_cwd (turn_file_system_policy t) (turn_cwd t) = Ok l → ¬ denied_at l (dir_of f) →
  ∃ st' r command pol rest, run_patch t action st = Ok (st', r)
    ∧ trace st' = trace st ++ [Ran LinuxSeccomp; Executed command LinuxSeccomp pol] ++ rest
    ∧ resolve_access_with_cwd pol (dir_of f) (turn_cwd t) = Ok Write.
Proof.
  intros Hp Hsb Hos Hexe Hu Hc Ha Hf Hcan Hw Hk Hl Hd. unfold run_patch.
  destruct (effective_patch_allows (grants_of (session st)) t action Hc Ha) as (e & -> & Hall & _).
  specialize (Hall f Hf Hw Hcan). run_bind. unfold apply_patch_decision.
  destruct (assess_justified world_os action (turn_policy t) (turn_sandbox_policy t) (policy_for (grants_of (session st)) t) (turn_cwd t)
    (turn_windows_level t) Hc) as (check & -> & Hj). run_bind.
  assert (Hne : changes action ≠ ∅).
  { intros He. unfold file_paths_for_action in Hf. rewrite He, map_to_list_empty in Hf. by apply elem_of_nil in Hf. }
  assert (Hm : may_write (turn_policy t) (policy_for (grants_of (session st)) t) (turn_cwd t) action) by by left.
  assert (He : enforceable world_os (turn_windows_level t) (turn_sandbox_policy t) LinuxSeccomp) by (right; by rewrite Hos).
  destruct check as [sb0 explicit| |reason]; cbv beta iota.
  2: { destruct Hj as (_ & _ & [Hx|[Hx|Hx]]); [congruence|done|by destruct (Hx LinuxSeccomp)]. }
  2: { destruct Hj as [[? _]|(_ & Hx & _)]; [done|]. by rewrite Hp in Hx. }
  destruct Hj as (-> & _). cbn [negb].
  destruct (patch_first_process e (file_paths_for_action action) action t st exe Hsb Hexe) as (command & rest & Ht).
  destruct (run _ _ _ _ _) as [st' [result deferred]]. cbn in Ht. eexists st', _, command, _, rest. split; [done|split; [exact Ht|]].
  destruct (eff_additional e) as [perms|]; [|done]. destruct (resolve_candidate_clean (dir_of f) (turn_cwd t)) as (c & Ec & Hce).
  { apply dir_of_clean. by eapply file_paths_clean. }
  pose proof (effective_scope (turn_file_system_policy t) perms (turn_cwd t) l (dir_of f) c Hk Hl Ec) as Hs. cbv zeta in Hs.
  destruct (additional_permission_roots perms) as [reads writes] eqn:Er. destruct Hs as (a & a' & _ & -> & _ & _ & _ & Hwr & _). f_equal.
  apply Hwr; [intros Hx; apply Hd; revert Hx; unfold denied_at, path_eq in *; by rewrite Hce|].
  injection Er as <- <-. cbn in Hall. rewrite <-dedup_roots_contains in Hall. apply contains_path_spec in Hall as (w & ? & ?).
  exists w. split; [done|]. unfold path_eq in *. congruence.
Qed.
End tool_laws.

(** * Witnesses *)

Definition plain_patch_world : PatchWorld plain_session mem_fs := {|
  files _ := safety_fs; grants_of _ := no_grants; extract_apply_patch_from_bash := no_heredoc; text_diff := no_diff |}.
#[local] Existing Instances plain_world plain_patch_world.
#[local] Instance patch_key : KeyJson str := Some.
Definition opt_patch : str := join [nl] [lit "*** Begin Patch"; lit "*** Add File: /opt/x"; lit "+y"; lit "*** End Patch"].
Definition opt_action : ApplyPatchAction :=
  {| changes := {[ lit "/opt/x" := Add (lit "y") ]}; action_patch := opt_patch; action_cwd := lit "/work" |}.
Definition patch_turn : TurnContext := {|
  turn_policy := OnFailure; turn_guardian := false; sub_id := lit "1"; turn_sandbox_policy := workspace_policy;
  turn_file_system_policy := perm_policy; turn_network_policy := NetRestricted; turn_windows_level := LevelDisabled;
  turn_cwd := lit "/work"; turn_linux_sandbox_exe := Some (lit "/bin/helper"); turn_legacy_landlock := false;
  turn_environment := ExecEnv.default_shell_environment_policy; turn_allow_login_shell := true; turn_managed_network := false |}.
Definition opt_run : outcome Empty_set (run_state plain_session * patch_result (str + ToolError str str)) :=
  run_patch patch_turn opt_action plain_start.
(** The first run of the patch is not approved by anyone; the second, without
    a sandbox, is. *)
Example opt_run_events :
  ∃ c d pol pol' r, opt_run = Ok r ∧ trace r.1 = [Ran LinuxSeccomp; Executed c LinuxSeccomp pol; Asked Approved; Decided Approved;
                                             Ran SandboxNone; Executed d SandboxNone pol'].
Proof. do 5 eexists. split; vm_compute; reflexivity. Qed.
Lemma patch_processes_are_authorised_witness :
  ∃ st' r, run_patch (NetworkProxy := unit) (Output := str) (CodexErr := str) (Process := nat) patch_turn opt_action plain_start = Ok (st', r)
    ∧ ∀ pre c sb pol post, trace st' = trace plain_start ++ pre ++ Executed c sb pol :: post →
        (∃ d, Decided d ∈ pre ∧ approves d = true)
        ∨ changes opt_action ≠ ∅ ∧ turn_policy patch_turn ≠ UnlessTrusted ∧ sb = turn_sandbox patch_turn
          ∧ may_write (turn_policy patch_turn) (policy_for (grants_of (session plain_start)) patch_turn) (turn_cwd patch_turn) opt_action.
Proof. apply (patch_processes_are_authorised (NetworkProxy := unit) (Output := str) (CodexErr := str) (Process := nat) patch_turn opt_action plain_start); reflexivity. Defined.
Lemma on_failure_patch_widens_sandbox_witness :
  ∃ st' r command pol rest, run_patch (NetworkProxy := unit) (Output := str) (CodexErr := str) (Process := nat) patch_turn opt_action plain_start = Ok (st', r)
    ∧ trace st' = trace plain_start ++ [Ran LinuxSeccomp; Executed command LinuxSeccomp pol] ++ rest
    ∧ resolve_access_with_cwd pol (dir_of (lit "/opt/x")) (turn_cwd patch_turn) = Ok Write.
Proof.
  apply (on_failure_patch_widens_sandbox (NetworkProxy := unit) (Output := str) (CodexErr := str) (Process := nat) patch_turn opt_action plain_start (lit "/opt/x") sample_entries (lit "/bin/helper"));
    try (vm_compute; reflexivity).
  - by intros [].
  - vm_compute. by left.
  - intros q E. assert (Hq : clean q).
    { apply clean_by. rewrite (is_absolute_path_eq _ _ E). unfold path_eq in E. rewrite E. vm_compute. reflexivity. }
    destruct (from_absolute_clean (H := perm_env) q Hq) as (y & Ey & Hy).
    change (path_eq (default q (ok (@from_absolute_path (@perm_path_env perm_env) q))) (dir_of (lit "/opt/x"))).
    rewrite Ey. exact (eq_trans Hy E).
  - intros (e & He & Hd). vm_compute in He. revert Hd.
    repeat (apply elem_of_cons in He as [->|He]; [vm_compute; intuition discriminate|]). by apply elem_of_nil in He.
Defined.
