(* ===== verification/ShellTool.v ===== *)
(** The shell tools from the model's call to the processes:
    [codex-rs/core/src/tools/handlers/shell.rs], over the environment of
    commands, granted permissions, the approval of commands, patches and the
    orchestrator. The JSON of the arguments, the events sent to the user
    interface and the text made of a result are not modelled. *)
From stdpp Require Import gmap.
From S2P Require Import Prelude RustStr BTreeMap RustPath FileSystem PatchParser ApplyPatch Invocation AbsolutePath ExecPolicy ExecEnv Protocol Permissions Bash CommandSafety ExecApproval Safety Tokio NetState NetApproval ToolApproval SandboxTransform PermissionGrants Orchestrator Snapshot Shells Runtimes PatchTool.

(** * Calls *)

Record ShellToolCallParams : Type := {
  call_command : list str; call_workdir : option str; call_permissions : option SandboxPermissions; call_prefix_rule : option (list str);
  call_additional : option PermissionProfile; call_justification : option str }.
Record ShellCommandToolCallParams : Type := {
  script : str; script_workdir : option str; login : option bool; script_permissions : option SandboxPermissions;
  script_prefix_rule : option (list str); script_additional : option PermissionProfile; script_justification : option str }.
Record ExecParams (NetworkProxy : Type) : Type := {
  param_command : list str; param_cwd : str; param_env : gmap str str; param_network : option NetworkProxy;
  param_permissions : SandboxPermissions; param_justification : option str }.
Arguments Build_ExecParams {_} _ _ _ _ _ _.
Arguments param_command {_} _.
Arguments param_cwd {_} _.
Arguments param_env {_} _.
Arguments param_network {_} _.
Arguments param_permissions {_} _.
Arguments param_justification {_} _.

Class ShellWorld (S NetworkProxy : Type) : Type := {
  wildcards :: WildMatch;
  parse_with_powershell_ast : str → str → option (list (list str));
  shlex_try_join : list str → option str;
  env_vars : list (str * str);
  conversation_id : S → str;
  dependency_env : S → gmap str str;
  exec_policy_of : S → Policy;
  exec_permission_approvals : S → bool;
  request_permissions_tool : S → bool;
  network_of : TurnContext → option NetworkProxy }.

Inductive shell_result (Result : Type) : Type :=
| ShellRejected (message : str)
| ShellPatch (r : patch_result Result)
| ShellRan (result : Result).
Arguments ShellRejected {_} _.
Arguments ShellPatch {_} _.
Arguments ShellRan {_} _.

Definition turn_resolve_path (t : TurnContext) (path : option str) : str :=
  match path with None => turn_cwd t | Some p => path_join (turn_cwd t) p end.
Definition login_disabled : str := lit "login shell is disabled by config; omit `login` or set it to false.".
Definition resolve_use_login_shell (login : option bool) (allow_login_shell : bool) : outcome str bool :=
  if negb allow_login_shell && bool_decide (login = Some true) then Err login_disabled else Ok (default allow_login_shell login).
Definition base_command (shell : Shell) (command : str) (use_login_shell : bool) : list str := derive_exec_args shell command use_login_shell.

(** ** The guard of both handlers *)

Definition escalation_refused (t : TurnContext) (e : EffectiveAdditionalPermissions) : bool :=
  requests_sandbox_override (eff_sandbox_permissions e) && negb (eff_preapproved e) && negb (is_on_request (turn_policy t)).
Definition escalation_message (verb : str) (t : TurnContext) : str :=
  lit "approval policy is " ++ debug_approval_policy (turn_policy t) ++ lit "; reject command — you " ++ verb
  ++ lit " ask for escalated permissions if the approval policy is " ++ debug_approval_policy (turn_policy t).

Section tool.
Context {S FS NetworkProxy Output CodexErr Process : Type}
  `{!ToolSession S, !ToolWorld S NetworkProxy Output CodexErr Process, !PatchWorld S FS, !ShellWorld S NetworkProxy, !KeyJson str, !KeyJson ApprovalKey}.
Implicit Types (st : run_state S) (t : TurnContext).

Definition command_env (t : TurnContext) (st : run_state S) : gmap str str :=
  populate_env (match world_os with Windows => true | _ => false end) env_vars (turn_environment t) (Some (conversation_id (session st))).
Definition to_exec_params (p : ShellToolCallParams) t st : ExecParams NetworkProxy :=
  {| param_command := call_command p; param_cwd := turn_resolve_path t (call_workdir p); param_env := command_env t st;
     param_network := network_of t; param_permissions := default UseDefault (call_permissions p); param_justification := call_justification p |}.
(** [ShellCommandHandler::to_exec_params]. *)
Definition script_to_exec_params (p : ShellCommandToolCallParams) t st : outcome str (ExecParams NetworkProxy) :=
  use_login_shell ← resolve_use_login_shell (login p) (turn_allow_login_shell t);
  Ok {| param_command := base_command (user_shell (session st)) (script p) use_login_shell; param_cwd := turn_resolve_path t (script_workdir p);
        param_env := command_env t st; param_network := network_of t; param_permissions := default UseDefault (script_permissions p);
        param_justification := script_justification p |}.

(** The permissions of a command, when they pass the checks. *)
Definition checked_permissions (allowed : bool) t (sandbox_permissions : SandboxPermissions) (requested : option PermissionProfile)
    (e : EffectiveAdditionalPermissions) : outcome str (option PermissionProfile) :=
  match implicit_granted_permissions sandbox_permissions requested e with
  | Some permissions => Ok (Some permissions)
  | None =>
      normalize_and_validate_additional_permissions allowed (turn_policy t) (eff_sandbox_permissions e) (eff_additional e) (eff_preapproved e)
  end.
Definition permissions_allowed st (e : EffectiveAdditionalPermissions) : bool :=
  exec_permission_approvals (session st) || request_permissions_tool (session st) && eff_preapproved e.
Definition effective_permissions st (sandbox_permissions : SandboxPermissions) (requested : option PermissionProfile) : EffectiveAdditionalPermissions :=
  apply_granted_turn_permissions (session_granted (grants_of (session st))) (granted_turn_permissions (grants_of (session st)))
    sandbox_permissions requested.
Definition exec_approval_request (command : list str) t (e : EffectiveAdditionalPermissions) (prefix_rule : option (list str)) : ExecApprovalRequest :=
  {| ExecApproval.command := command; approval_policy := turn_policy t; ExecApproval.sandbox_policy := turn_sandbox_policy t;
     file_system_sandbox_policy := turn_file_system_policy t;
     sandbox_permissions := if eff_preapproved e then UseDefault else eff_sandbox_permissions e; prefix_rule_request := prefix_rule |}.
Definition requirement_of_command st t (command : list str) (e : EffectiveAdditionalPermissions) (prefix_rule : option (list str))
    : outcome Empty_set ExecApprovalRequirement :=
  create_exec_approval_requirement_for_command try_parse_shell parse_with_powershell_ast shlex_try_join (exec_policy_of (session st))
    (exec_approval_request command t e prefix_rule).
(** The variables that are set on purpose. *)
Definition explicit_env t st (env : gmap str str) : gmap str str :=
  map_fold (λ k _ m, match env !! k with Some v => <[k := v]> m | None => m end) (env_set (turn_environment t)) (dependency_env (session st)).

Definition run_exec_like (backend : ShellRuntimeBackend) (params : ExecParams NetworkProxy) (additional : option PermissionProfile)
    (prefix_rule : option (list str)) t st : outcome Empty_set (run_state S * shell_result (Output + ToolError Output CodexErr)) :=
  let env := dependency_env (session st) ∪ param_env params in
  let explicit_env_overrides := explicit_env t st env in
  let e := effective_permissions st (param_permissions params) additional in
  match checked_permissions (permissions_allowed st e) t (param_permissions params) additional e with
  | Err message => Ok (st, ShellRejected message)
  | Panic => Panic | OutOfFuel => OutOfFuel
  | Ok normalized =>
      if escalation_refused t e then Ok (st, ShellRejected (escalation_message (lit "should not") t))
      else
        '(st, patch) ← intercept_apply_patch (param_command params) (param_cwd params) t st;
        match patch with
        | NotAPatch =>
            requirement ← requirement_of_command st t (param_command params) e prefix_rule;
            let req := {| shell_req_command := param_command params; shell_cwd := param_cwd params; shell_env := env;
                          shell_env_overrides := explicit_env_overrides; shell_network := param_network params;
                          shell_permissions := eff_sandbox_permissions e; shell_additional := normalized;
                          shell_justification := param_justification params; shell_requirement := requirement |} in
            let '(st, (result, _)) := run (ToolRuntime0 := ShellRuntime backend) world_os req t (turn_policy t) st in
            Ok (st, ShellRan result)
        | patch => Ok (st, ShellPatch patch)
        end
  end.
(** [ShellHandler::handle] and [ShellCommandHandler::handle], for arguments
    that parse. *)
Definition shell_handle (p : ShellToolCallParams) t st : outcome Empty_set (run_state S * shell_result (Output + ToolError Output CodexErr)) :=
  run_exec_like Generic (to_exec_params p t st) (call_additional p) (call_prefix_rule p) t st.
Definition shell_command_handle (backend : ShellRuntimeBackend) (p : ShellCommandToolCallParams) t st
    : outcome Empty_set (run_state S * shell_result (Output + ToolError Output CodexErr)) :=
  match script_to_exec_params p t st with
  | Ok params => run_exec_like backend params (script_additional p) (script_prefix_rule p) t st
  | Err message => Ok (st, ShellRejected message)
  | Panic => Panic | OutOfFuel => OutOfFuel
  end.
(** The [local_shell] tool: no permissions and no rule of its own. *)
Definition local_shell_handle (p : ShellToolCallParams) t st : outcome Empty_set (run_state S * shell_result (Output + ToolError Output CodexErr)) :=
  run_exec_like Generic (to_exec_params p t st) None None t st.

(** * Lemmas *)

Definition not_a_patch st (params : ExecParams NetworkProxy) : Prop :=
  ∃ v, maybe_parse_apply_patch_verified extract_apply_patch_from_bash text_diff (files (session st)) (param_command params) (param_cwd params) = Ok v
    ∧ match v with VNotApplyPatch | VShellParseError _ => True | _ => False end.
Lemma checked_permissions_total allowed t sp requested e :
  match checked_permissions allowed t sp requested e with Ok _ | Err _ => True | Panic | OutOfFuel => False end.
Proof.
  unfold checked_permissions. destruct (implicit_granted_permissions _ _ _); [done|].
  unfold normalize_and_validate_additional_permissions, normalize_additional_permissions.
  destruct (negb _ && negb _ && _); [done|]. destruct (uses_additional_permissions _); [|by destruct (eff_additional e)].
  destruct (negb _ && negb _); [done|]. destruct (eff_additional e); [|done]. run_bind. by destruct (profile_is_empty _).
Qed.
(** A command that is no patch is refused before anything runs, or given to the
    orchestrator. *)
Lemma run_exec_like_command backend params additional prefix_rule t st :
  not_a_patch st params →
  let e := effective_permissions st (param_permissions params) additional in
  let checked := checked_permissions (permissions_allowed st e) t (param_permissions params) additional e in
  (∃ m, run_exec_like backend params additional prefix_rule t st = Ok (st, ShellRejected m) ∧ (checked = Err m ∨ escalation_refused t e = true))
  ∨ ∃ req st' result deferred,
      checked = Ok (shell_additional req) ∧ escalation_refused t e = false
      ∧ requirement_of_command st t (param_command params) e prefix_rule = Ok (shell_requirement req)
      ∧ shell_req_command req = param_command params ∧ shell_permissions req = eff_sandbox_permissions e
      ∧ run (ToolRuntime0 := ShellRuntime backend) world_os req t (turn_policy t) st = (st', (result, deferred))
      ∧ run_exec_like backend params additional prefix_rule t st = Ok (st', ShellRan result).
Proof.
  intros (v & Hv & Hp) e checked. unfold run_exec_like. fold e. pose proof (checked_permissions_total (permissions_allowed st e) t (param_permissions params) additional e) as Ht.
  fold checked in Ht |- *. destruct checked as [normalized|m| |] eqn:Ec; [|left; by exists m; auto|done..].
  destruct (escalation_refused t e) eqn:Er; [left; eexists; auto|right].
  unfold intercept_apply_patch. rewrite Hv. run_bind.
  destruct (requirement_run try_parse_shell parse_with_powershell_ast shlex_try_join (exec_policy_of (session st)) (exec_approval_request (param_command params) t e prefix_rule))
    as (cmds & complex & evs & ev & requested & _ & _ & _ & _ & _ & _ & Hreq & _).
  match type of Hreq with _ = Ok ?r => assert (Hq : requirement_of_command st t (param_command params) e prefix_rule = Ok r) by exact Hreq end.
  destruct v; try done; cbv beta iota; run_bind; rewrite Hq; run_bind;
    (match goal with |- context [run world_os ?r t _ st] => exists r; destruct (run (ToolRuntime0 := ShellRuntime backend) world_os r t (turn_policy t) st) as [st' [result deferred]] eqn:E end);
    exists st', result, deferred; split_and!; done.
Qed.
(** Under [Never] there is no one to ask. *)
Lemma requirement_never st t command e prefix_rule r : turn_policy t = Never → requirement_of_command st t command e prefix_rule = Ok r →
  (∃ b a, r = Skip b a) ∨ ∃ m, r = ReqForbidden m.
Proof.
  intros Hn Hr. destruct (requirement_run try_parse_shell parse_with_powershell_ast shlex_try_join (exec_policy_of (session st))
    (exec_approval_request command t e prefix_rule)) as (cmds & complex & evs & ev & requested & _ & _ & _ & _ & _ & _ & Hreq & _).
  assert (Er : r = requirement_of shlex_try_join (exec_approval_request command t e prefix_rule) ev (negb complex) requested)
    by (change (requirement_of_command st t command e prefix_rule = Ok (requirement_of shlex_try_join (exec_approval_request command t e prefix_rule) ev (negb complex) requested)) in Hreq; congruence).
  unfold requirement_of in Er. cbn [approval_policy exec_approval_request] in Er. rewrite Hn in Er. destruct (decision ev); cbn in Er; eauto.
Qed.
Lemma forbidden_does_nothing backend req t st m : shell_requirement req = ReqForbidden m →
  run (ToolRuntime0 := ShellRuntime backend) world_os req t (turn_policy t) st = (st, (inr (Rejected m), None)).
Proof.
  intros Hm. unfold run, approval_phase, requirement_for.
  change (exec_approval_requirement (ToolRuntime := ShellRuntime backend) req) with (Some (shell_requirement req)). by rewrite Hm.
Qed.

(** ** Permissions of commands *)

(** What an answer that is still in force allows. *)
Definition granted_to (g : grant_state) (x : permission) : Prop :=
  ∃ r, r ∈ answered g ∧ profile_allows (response_permissions r) x = true ∧ (scope r = SessionScope ∨ r ∈ turn_answered g).
Lemma granted_sound g x : grants_ok g →
  allows_option (session_granted g) x = true ∨ allows_option (granted_turn_permissions g) x = true → granted_to g x.
Proof.
  intros [Hs Ht Ha] [(r & Hin & Hsc & Hal)%Hs|(r & Hin & Hsc & Hal)%Ht]; exists r; split_and!; auto.
Qed.
Lemma default_checked allowed t e :
  (eff_additional e = None ∧ eff_sandbox_permissions e = UseDefault
   ∨ is_Some (eff_additional e) ∧ eff_sandbox_permissions e = WithAdditionalPermissions ∧ eff_preapproved e = true) →
  checked_permissions allowed t UseDefault None e = Ok (eff_additional e) ∧ escalation_refused t e = false.
Proof.
  unfold checked_permissions, escalation_refused. intros [(Hn & Hu)|((p & Hp) & Hw & Hpre)]; cbn [implicit_granted_permissions].
  - rewrite Hn, Hu. unfold normalize_and_validate_additional_permissions. cbn. by rewrite andb_false_r.
  - rewrite Hp, Hw, Hpre. by cbn.
Qed.
Lemma effective_allows st sandbox_permissions requested x :
  allows_option (eff_additional (effective_permissions st sandbox_permissions requested)) x = true →
  (allows_option (session_granted (grants_of (session st))) x = true ∨ allows_option (granted_turn_permissions (grants_of (session st))) x = true)
  ∨ allows_option requested x = true.
Proof.
  unfold effective_permissions, apply_granted_turn_permissions.
  destruct sandbox_permissions; cbn [eff_additional]; [|by right|]; rewrite !merge_allows, !orb_true_iff; tauto.
Qed.
(** A call that asks to leave the sandbox is never approved by earlier grants. *)
Lemma escalated_not_preapproved st sandbox_permissions requested :
  requires_escalated_permissions (eff_sandbox_permissions (effective_permissions st sandbox_permissions requested)) = true →
  eff_preapproved (effective_permissions st sandbox_permissions requested) = false.
Proof.
  unfold effective_permissions, apply_granted_turn_permissions. destruct sandbox_permissions; cbn [eff_sandbox_permissions eff_preapproved]; try done;
    by destruct (merge_permission_profiles requested _).
Qed.
(** Why a command may have additional permissions [p]: they are, up to
    canonical paths, permissions each of which was granted, or is one that the
    call itself requests, where the policy is [OnRequest] and the feature is on. *)
Definition permissions_justified t st (requested : option PermissionProfile) (p : PermissionProfile) : Prop :=
  ∃ asked, (p = asked ∨ normalize_additional_permissions asked = Ok p)
    ∧ ∀ x, profile_allows asked x = true →
        granted_to (grants_of (session st)) x
        ∨ allows_option requested x = true ∧ turn_policy t = OnRequest ∧ exec_permission_approvals (session st) = true.
Lemma checked_justified t st sandbox_permissions requested p : grants_ok (grants_of (session st)) →
  let e := effective_permissions st sandbox_permissions requested in
  checked_permissions (permissions_allowed st e) t sandbox_permissions requested e = Ok (Some p) → permissions_justified t st requested p.
Proof.
  intros Hok e. unfold checked_permissions. destruct (implicit_granted_permissions sandbox_permissions requested e) as [p'|] eqn:Ei.
  - intros [= ->]. exists p. split; [by left|]. intros x Hx. left. apply granted_sound; [done|].
    destruct sandbox_permissions, requested; try done. cbn in Ei.
    set (granted := merge_permission_profiles (session_granted (grants_of (session st))) (granted_turn_permissions (grants_of (session st)))) in *.
    assert (Ha : allows_option (merge_permission_profiles None granted) x = true) by by rewrite Ei.
    rewrite merge_allows in Ha. cbn [allows_option orb] in Ha. unfold granted in Ha. rewrite merge_allows in Ha. by apply orb_true_iff.
  - unfold normalize_and_validate_additional_permissions. destruct (negb (eff_preapproved e) && _ && _) eqn:E1; [done|].
    destruct (uses_additional_permissions _) eqn:Eu; [|by destruct (eff_additional e)].
    destruct (negb (eff_preapproved e) && negb (is_on_request (turn_policy t))) eqn:E2; [done|].
    destruct (eff_additional e) as [asked|] eqn:Ea; [|done].
    destruct (normalize_additional_permissions asked) as [norm| | |] eqn:En; run_bind; try done.
    destruct (profile_is_empty norm); [done|]. intros [= ->].
    exists asked. split; [by right|]. intros x Hx. destruct (eff_preapproved e) eqn:Ep.
    + left. apply granted_sound; [done|].
      apply (preapproved_allows _ _ sandbox_permissions requested x); [exact Ep|]. change (allows_option (eff_additional e) x = true). by rewrite Ea.
    + cbn [negb andb] in E1, E2. cbn [orb andb] in E1. destruct (effective_allows st sandbox_permissions requested x) as [Hg|Hg];
        [change (allows_option (eff_additional e) x = true); by rewrite Ea|left; by apply granted_sound|right].
      split_and!; [done|by destruct (turn_policy t)|].
      unfold permissions_allowed in E1. rewrite Ep in E1. destruct (exec_permission_approvals (session st)); [done|].
      by rewrite andb_false_r in E1.
Qed.

(** The policy of every process. *)
Lemma shell_run_events backend req t st :
  extends (has_policy (effective_file_system_sandbox_policy (turn_file_system_policy t) (shell_additional req))) st
    (run (ToolRuntime0 := ShellRuntime backend) world_os req t (turn_policy t) st).1.
Proof.
  set (P := has_policy _).
  pose proof (run_events (ToolRuntime0 := ShellRuntime backend) P ltac:(by intros []) world_os req t (turn_policy t) st) as Hev.
  unfold extends. destruct (run _ _ _ _ _) as [st' [result deferred]]. cbn in *. apply Hev.
  - intros ctx st0. destruct (start_approval_trace (ToolRuntime0 := ShellRuntime backend) req t ctx st0) as (l & Hl & Ha).
    exists l. split; [exact Hl|]. eapply Forall_impl; [exact Ha|]. by intros [].
  - intros sandbox exe st0. apply (shell_run_policy backend req t (attempt_in t sandbox exe) st0).
Qed.

(** * Properties *)

(** C1. A command that the shell tools do not take for a patch, and that holds a
    command which is dangerous, which no rule governs and which is not known to
    be safe (or was only understood through the here-document fallback), runs
    only after an approving decision and not under [Never]; except that it runs
    unasked under [Never] where the policy of the turn has no sandbox, full
    access or an external one. *)
Theorem dangerous_commands_are_reviewed backend params additional prefix_rule t st cmds complex c :
  not_a_patch st params →
  commands_for_exec_policy try_parse_shell (param_command params) = Ok (cmds, complex) → c ∈ cmds →
  (∀ r o m, ¬ governs (exec_policy_of (session st)) host_options c r o m) →
  (complex = true ∨ is_known_safe_command try_parse_shell parse_with_powershell_ast c = Ok false) →
  command_might_be_dangerous try_parse_shell c = Ok true →
  ∃ st' r, run_exec_like backend params additional prefix_rule t st = Ok (st', r)
    ∧ ∀ pre cmd sb pol post, trace st' = trace st ++ pre ++ Executed cmd sb pol :: post →
        turn_policy t ≠ Never ∧ (∃ d, Decided d ∈ pre ∧ approves d = true)
        ∨ turn_policy t = Never ∧ no_sandbox (turn_sandbox_policy t).
Proof.
  intros Hp Hc Hin Hno Hsafe Hd.
  destruct (run_exec_like_command backend params additional prefix_rule t st Hp) as [(m & -> & _)|(req & st' & result & deferred & _ & _ & Hq & _ & _ & Hrun & ->)].
  { eexists st, _. split; [done|]. by intros pre cmd sb pol post ?%no_new_event. }
  eexists st', _. split; [done|]. intros pre cmd sb pol post Ht.
  assert (Hskip : ∀ b a, shell_requirement req = Skip b a → turn_policy t = Never ∧ no_sandbox (turn_sandbox_policy t)).
  { intros b a Hs. rewrite Hs in Hq.
    exact (dangerous_skipped try_parse_shell parse_with_powershell_ast shlex_try_join (exec_policy_of (session st))
      (exec_approval_request (param_command params) t (effective_permissions st (param_permissions params) additional) prefix_rule)
      cmds complex c b a Hc Hin Hno Hsafe Hd Hq). }
  pose proof (run_executed (ToolRuntime0 := ShellRuntime backend) world_os req t (turn_policy t) st pre cmd sb pol post) as Hx.
  rewrite Hrun in Hx. destruct (Hx Ht) as [[(b & a & Hs)|Hdec] _]; [right; by apply (Hskip b a)|].
  assert (Hcase : turn_policy t = Never ∨ turn_policy t ≠ Never) by (destruct (turn_policy t); auto). destruct Hcase as [Hn|Hn]; [right|by left].
  destruct (requirement_never _ _ _ _ _ _ Hn Hq) as [(b & a & Hs)|(m & Hs)]; [by apply (Hskip b a)|].
  rewrite (forbidden_does_nothing backend req t st m Hs) in Hrun. injection Hrun as <- _ _. by apply no_new_event in Ht.
Qed.

(** Why a command runs outside the sandbox with nobody asked: all its commands
    are allowed and a rule allows one of them; or the call asks to leave the
    sandbox under [OnRequest], and each of its commands is governed by rules
    that allow it, or by none and is known to be safe, or by none and is not
    dangerous where the files are not restricted anyway. *)
Definition unsandboxed_unasked t st (command : list str) (e : EffectiveAdditionalPermissions) prefix_rule : Prop :=
  ∃ cmds complex, commands_for_exec_policy try_parse_shell command = Ok (cmds, complex)
    ∧ ((∀ c, c ∈ cmds → decided (exec_policy_of (session st))
          (exec_policy_fallback try_parse_shell parse_with_powershell_ast (exec_approval_request command t e prefix_rule) complex) c Allow)
       ∧ (∃ c r o m, c ∈ cmds ∧ governs (exec_policy_of (session st)) host_options c r o m ∧ rule_decision r = Allow)
       ∨ turn_policy t = OnRequest ∧ requires_escalated_permissions (eff_sandbox_permissions e) = true
         ∧ ∀ c, c ∈ cmds →
             (∀ r o m, governs (exec_policy_of (session st)) host_options c r o m → rule_decision r = Allow)
             ∧ ((∃ r o m, governs (exec_policy_of (session st)) host_options c r o m)
                ∨ is_known_safe_command try_parse_shell parse_with_powershell_ast c = Ok true ∧ complex = false
                ∨ command_might_be_dangerous try_parse_shell c = Ok false ∧ fs_kind (turn_file_system_policy t) ≠ FsRestricted)).
Lemma skipped_unsandboxed t st command sandbox_permissions requested prefix_rule b a :
  let e := effective_permissions st sandbox_permissions requested in
  escalation_refused t e = false → requirement_of_command st t command e prefix_rule = Ok (Skip b a) →
  b = true ∨ requires_escalated_permissions (eff_sandbox_permissions e) = true → unsandboxed_unasked t st command e prefix_rule.
Proof.
  intros e Hesc Hq%skipped_commands Hor. destruct Hq as (cmds & complex & Hc & Hall & Hrule). exists cmds, complex. split; [exact Hc|].
  destruct b; [left; by split; [|apply Hrule]|right]. destruct Hor as [?|Hr]; [done|].
  pose proof (escalated_not_preapproved st sandbox_permissions requested Hr) as Hpre. fold e in Hpre.
  assert (Hover : requests_sandbox_override (eff_sandbox_permissions e) = true) by (by destruct (eff_sandbox_permissions e)).
  assert (Hon : turn_policy t = OnRequest).
  { unfold escalation_refused in Hesc. rewrite Hover, Hpre in Hesc. by destruct (turn_policy t). }
  split_and!; [done..|]. intros c Hin. destruct (Hall c Hin) as [[(r & o & m & Hg & Hd) Hle]|[Hno Hf]].
  - split; [|left; eauto]. intros r' o' m' Hg'. specialize (Hle r' o' m' Hg'). destruct (rule_decision r'); [done|by unfold decision_le in Hle; simpl in Hle; lia..].
  - split; [by intros r o m Hg%Hno|right]. apply fallback_allow in Hf.
    cbn [approval_policy ExecApproval.sandbox_permissions file_system_sandbox_policy exec_approval_request] in Hf. rewrite Hpre, Hon, Hover in Hf.
    destruct Hf as [[Hk ->]|[(_ & [=] & _)|(Hd & [Hfs|[=]])]]; [by left|by right].
Qed.

(** C8. Every process of a command that is not taken for a patch is given the
    turn's file-system policy, widened only by permissions each of which was
    granted, or is requested by the call itself under [OnRequest] with the
    feature on; and it runs in the turn's sandbox, unless an approving decision
    comes before it, or it may leave the sandbox unasked
    ([unsandboxed_unasked]). *)
Theorem shell_processes_are_confined backend params additional prefix_rule t st :
  not_a_patch st params → rtc grant_step no_grants (grants_of (session st)) →
  let e := effective_permissions st (param_permissions params) additional in
  ∃ st' r, run_exec_like backend params additional prefix_rule t st = Ok (st', r)
    ∧ ∀ pre cmd sb pol post, trace st' = trace st ++ pre ++ Executed cmd sb pol :: post →
        (∃ extra, pol = effective_file_system_sandbox_policy (turn_file_system_policy t) extra
           ∧ ∀ p, extra = Some p → permissions_justified t st additional p)
        ∧ (sb = turn_sandbox t
           ∨ sb = SandboxNone
             ∧ ((∃ d, Decided d ∈ pre ∧ approves d = true) ∨ unsandboxed_unasked t st (param_command params) e prefix_rule)).
Proof.
  intros Hp Hg%grants_ok_run e.
  destruct (run_exec_like_command backend params additional prefix_rule t st Hp) as [(m & -> & _)|(req & st' & result & deferred & Hck & Hesc & Hq & _ & Hperm & Hrun & ->)].
  { eexists st, _. split; [done|]. by intros pre cmd sb pol post ?%no_new_event. }
  eexists st', _. split; [done|]. intros pre cmd sb pol post Ht.
  pose proof (shell_run_events backend req t st) as Hev. rewrite Hrun in Hev. split.
  - exists (shell_additional req). split; [|intros p Hsome; rewrite Hsome in Hck; by eapply checked_justified].
    destruct Hev as (l & Hl & Hall). cbn in Hl. rewrite Ht in Hl. apply app_inv_head in Hl as <-.
    rewrite Forall_forall in Hall. apply (Hall (Executed cmd sb pol)). set_solver.
  - pose proof (run_executed (ToolRuntime0 := ShellRuntime backend) world_os req t (turn_policy t) st pre cmd sb pol post) as Hx.
    rewrite Hrun in Hx. destruct (Hx Ht) as [Hauth [->|(-> & _ & ?)]]; [|by right; split; [|left]].
    unfold initial_sandbox. cbn [sandbox_mode_for_first_attempt ShellRuntime]. fold e in Hq, Hperm. rewrite Hperm in *.
    destruct Hauth as [(b & a & Hs)|?]; [|destruct (sandbox_override_for_first_attempt _ _); [by left|by right; split; [|left]]].
    change (shell_requirement req = Skip b a) in Hs. rewrite Hs in Hq |- *. unfold sandbox_override_for_first_attempt.
    pose proof (skipped_unsandboxed t st _ _ _ _ b a Hesc Hq) as Hunasked. fold e in Hunasked.
    destruct (requires_escalated_permissions _) eqn:Er, b; cbn; [right; split; [done|right; auto]..|by left].
Qed.

(** Permissions that were granted do not get in the way: a command that asks
    for nothing is not refused because of them, and the permissions it runs
    with are all of them. *)
Theorem granted_commands_are_not_refused backend params prefix_rule t st :
  not_a_patch st params → rtc client_step no_grants (grants_of (session st)) → param_permissions params = UseDefault →
  ∃ req st' result deferred,
    run_exec_like backend params None prefix_rule t st = Ok (st', ShellRan result)
    ∧ run (ToolRuntime0 := ShellRuntime backend) world_os req t (turn_policy t) st = (st', (result, deferred))
    ∧ shell_req_command req = param_command params
    ∧ shell_additional req = merge_permission_profiles (session_granted (grants_of (session st))) (granted_turn_permissions (grants_of (session st))).
Proof.
  intros Hp [Hs Ht]%client_grants_restate Hsp.
  pose proof (default_effective _ _ Hs Ht) as [Hm Hcases].
  change (apply_granted_turn_permissions _ _ _ _) with (effective_permissions st UseDefault None) in Hm, Hcases.
  destruct (run_exec_like_command backend params None prefix_rule t st Hp) as [(m & _ & Hbad)|(req & st' & result & deferred & Hck & _ & _ & Hcmd & _ & Hrun & Hok)];
    rewrite Hsp in *; set (e := effective_permissions st UseDefault None) in *;
    destruct (default_checked (permissions_allowed st e) t e Hcases) as [Hok' Href].
  - exfalso. destruct Hbad as [Hbad|Hbad]; congruence.
  - exists req, st', result, deferred. split_and!; [done..|]. rewrite <-Hm. congruence.
Qed.
End tool.

(** * Witnesses *)

Definition plain_shell_world : ShellWorld plain_session unit := {|
  wildcards := λ _ _, false; parse_with_powershell_ast := no_powershell; shlex_try_join _ := None; env_vars := []; conversation_id _ := lit "7";
  dependency_env _ := ∅; exec_policy_of _ := policy_empty; exec_permission_approvals _ := false; request_permissions_tool _ := true;
  network_of _ := None |}.
(** The turn has been granted a directory. *)
Definition granted_patch_world : PatchWorld plain_session mem_fs := {|
  files _ := safety_fs; grants_of _ := granted_state; extract_apply_patch_from_bash := no_heredoc; text_diff := no_diff |}.
#[local] Existing Instances plain_world granted_patch_world plain_shell_world.
#[local] Instance shell_patch_key : KeyJson str := Some.
#[local] Instance shell_approval_key : KeyJson ApprovalKey := λ _, None.
Definition rm_params : ExecParams unit :=
  {| param_command := [lit "rm"; lit "-rf"; lit "/"]; param_cwd := lit "/work"; param_env := ∅; param_network := None;
     param_permissions := UseDefault; param_justification := None |}.
Lemma rm_not_a_patch : not_a_patch plain_start rm_params.
Proof. eexists. split; [vm_compute; reflexivity|]. exact I. Qed.
(** The user is asked, the command is tried in the sandbox, and again without. *)
Example rm_run_events :
  ∃ c d pol pol' r, run_exec_like (Process := nat) (Output := str) (CodexErr := str) Generic rm_params None None patch_turn plain_start = Ok r
    ∧ trace r.1 = [Asked Approved; Decided Approved; Ran LinuxSeccomp; Executed c LinuxSeccomp pol; Ran SandboxNone; Executed d SandboxNone pol'].
Proof. do 5 eexists. split; vm_compute; reflexivity. Qed.
Lemma dangerous_commands_are_reviewed_witness :
  ∃ st' r, run_exec_like (Process := nat) (Output := str) (CodexErr := str) Generic rm_params None None patch_turn plain_start = Ok (st', r)
    ∧ ∀ pre cmd sb pol post, trace st' = trace plain_start ++ pre ++ Executed cmd sb pol :: post →
        turn_policy patch_turn ≠ Never ∧ (∃ d, Decided d ∈ pre ∧ approves d = true)
        ∨ turn_policy patch_turn = Never ∧ no_sandbox (turn_sandbox_policy patch_turn).
Proof.
  apply (dangerous_commands_are_reviewed (NetworkProxy := unit) (Process := nat) (Output := str) (CodexErr := str) Generic rm_params None None patch_turn plain_start
    [[lit "rm"; lit "-rf"; lit "/"]] false [lit "rm"; lit "-rf"; lit "/"]).
  - exact rm_not_a_patch.
  - vm_compute. reflexivity.
  - apply list_elem_of_here.
  - intros r o m. apply empty_governs.
  - right. vm_compute. reflexivity.
  - vm_compute. reflexivity.
Defined.
Lemma shell_processes_are_confined_witness :
  let e := effective_permissions plain_start (param_permissions rm_params) None in
  ∃ st' r, run_exec_like (Process := nat) (Output := str) (CodexErr := str) Generic rm_params None None patch_turn plain_start = Ok (st', r)
    ∧ ∀ pre cmd sb pol post, trace st' = trace plain_start ++ pre ++ Executed cmd sb pol :: post →
        (∃ extra, pol = effective_file_system_sandbox_policy (turn_file_system_policy patch_turn) extra
           ∧ ∀ p, extra = Some p → permissions_justified patch_turn plain_start None p)
        ∧ (sb = turn_sandbox patch_turn
           ∨ sb = SandboxNone
             ∧ ((∃ d, Decided d ∈ pre ∧ approves d = true)
                ∨ unsandboxed_unasked (NetworkProxy := unit) patch_turn plain_start (param_command rm_params) e None)).
Proof.
  apply (shell_processes_are_confined (NetworkProxy := unit) (Process := nat) (Output := str) (CodexErr := str) Generic rm_params None None patch_turn plain_start).
  - exact rm_not_a_patch.
  - exact granted_state_run.
Defined.
Lemma granted_commands_are_not_refused_witness :
  ∃ req st' result deferred,
    run_exec_like (Process := nat) (Output := str) (CodexErr := str) Generic rm_params None None patch_turn plain_start = Ok (st', ShellRan result)
    ∧ run (ToolRuntime0 := ShellRuntime Generic) world_os req patch_turn (turn_policy patch_turn) plain_start = (st', (result, deferred))
    ∧ shell_req_command req = param_command rm_params
    ∧ shell_additional req = merge_permission_profiles (session_granted (grants_of (session plain_start))) (granted_turn_permissions (grants_of (session plain_start))).
Proof.
  apply (granted_commands_are_not_refused (NetworkProxy := unit) (Process := nat) (Output := str) (CodexErr := str) Generic rm_params None patch_turn plain_start).
  - exact rm_not_a_patch.
  - exact granted_state_client_run.
  - reflexivity.
Defined.
