(* ===== verification/HeadTailBuffer.v ===== *)
(** The capped output buffer of a running command:
    [codex-rs/core/src/unified_exec/head_tail_buffer.rs]. Bytes are [N],
    counters are [usize] with the saturating arithmetic of the code. *)
From S2P Require Import Prelude.

Abbreviation bytes := (list N) (only parsing).

Record HeadTailBuffer : Type := {
  max_bytes : N;
  head_budget : N;
  tail_budget : N;
  head : list bytes;
  tail : list bytes;
  head_bytes : N;
  tail_bytes : N;
  omitted_bytes : N }.

Definition new (max : N) : HeadTailBuffer :=
  {| max_bytes := max; head_budget := (max / 2)%N; tail_budget := (max - max / 2)%N;
     head := []; tail := []; head_bytes := 0; tail_bytes := 0; omitted_bytes := 0 |}.

Definition retained_bytes (b : HeadTailBuffer) : N := saturating_add (head_bytes b) (tail_bytes b).

(** Record updates of the counters and queues. *)
Definition with_head (h : list bytes) (n : N) (b : HeadTailBuffer) : HeadTailBuffer :=
  {| max_bytes := max_bytes b; head_budget := head_budget b; tail_budget := tail_budget b;
     head := h; tail := tail b; head_bytes := n; tail_bytes := tail_bytes b;
     omitted_bytes := omitted_bytes b |}.
Definition with_tail (t : list bytes) (n omitted : N) (b : HeadTailBuffer) : HeadTailBuffer :=
  {| max_bytes := max_bytes b; head_budget := head_budget b; tail_budget := tail_budget b;
     head := head b; tail := t; head_bytes := head_bytes b; tail_bytes := n;
     omitted_bytes := omitted |}.

(** [while excess > 0], on the front of the queue. *)
Fixpoint trim_loop (excess : N) (t : list bytes) (tail_bytes omitted : N) : list bytes * N * N :=
  if (excess =? 0)%N then (t, tail_bytes, omitted)
  else
    match t with
    | [] => (t, tail_bytes, omitted)
    | front :: t' =>
        if (len front <=? excess)%N
        then trim_loop (excess - len front) t' (tail_bytes - len front)
               (saturating_add omitted (len front))
        else (dropN excess front :: t', (tail_bytes - excess)%N, saturating_add omitted excess)
    end.
Definition trim_tail_to_budget (b : HeadTailBuffer) : HeadTailBuffer :=
  let '(t, n, o) := trim_loop (tail_bytes b - tail_budget b) (tail b) (tail_bytes b) (omitted_bytes b) in
  with_tail t n o b.

Definition push_to_tail (chunk : bytes) (b : HeadTailBuffer) : HeadTailBuffer :=
  if (tail_budget b =? 0)%N
  then with_tail (tail b) (tail_bytes b) (saturating_add (omitted_bytes b) (len chunk)) b
  else if (tail_budget b <=? len chunk)%N then
    let start := (len chunk - tail_budget b)%N in
    let kept := dropN start chunk in
    let dropped := (len chunk - len kept)%N in
    with_tail [kept] (len kept)
      (saturating_add (saturating_add (omitted_bytes b) (tail_bytes b)) dropped) b
  else
    trim_tail_to_budget
      (with_tail (tail b ++ [chunk]) (saturating_add (tail_bytes b) (len chunk)) (omitted_bytes b) b).

Definition push_chunk (chunk : bytes) (b : HeadTailBuffer) : HeadTailBuffer :=
  if (max_bytes b =? 0)%N
  then with_tail (tail b) (tail_bytes b) (saturating_add (omitted_bytes b) (len chunk)) b
  else if (head_bytes b <? head_budget b)%N then
    let remaining_head := (head_budget b - head_bytes b)%N in
    if (len chunk <=? remaining_head)%N
    then with_head (head b ++ [chunk]) (saturating_add (head_bytes b) (len chunk)) b
    else
      let head_part := takeN remaining_head chunk in
      let tail_part := dropN remaining_head chunk in
      push_to_tail tail_part
        (if decide (head_part = []) then b
         else with_head (head b ++ [head_part]) (saturating_add (head_bytes b) (len head_part)) b)
  else push_to_tail chunk b.

Definition snapshot_chunks (b : HeadTailBuffer) : list bytes := head b ++ tail b.
Definition to_bytes (b : HeadTailBuffer) : bytes := concat (head b) ++ concat (tail b).
Definition drain_chunks (b : HeadTailBuffer) : list bytes * HeadTailBuffer :=
  (head b ++ tail b,
   {| max_bytes := max_bytes b; head_budget := head_budget b; tail_budget := tail_budget b;
      head := []; tail := []; head_bytes := 0; tail_bytes := 0; omitted_bytes := 0 |}).

(** * The abstract buffer *)

(** What the buffer stands for: the bytes pushed since it was created or last
    drained. It keeps the first half of the capacity and the last bytes of the
    rest that fit the other half. *)
Definition kept_head (max : N) (s : bytes) : bytes := takeN (max / 2) s.
Definition kept_tail (max : N) (s : bytes) : bytes := lastn (max - max / 2) (dropN (max / 2) s).
Definition kept (max : N) (s : bytes) : bytes := kept_head max s ++ kept_tail max s.

Record represents (b : HeadTailBuffer) (max : N) (s : bytes) : Prop := {
  rep_max : max_bytes b = max ∧ (max ≤ USIZE_MAX)%N;
  rep_budgets : head_budget b = (max / 2)%N ∧ tail_budget b = (max - max / 2)%N;
  rep_head : concat (head b) = kept_head max s;
  rep_tail : concat (tail b) = kept_tail max s;
  rep_counts : head_bytes b = len (kept_head max s) ∧ tail_bytes b = len (kept_tail max s);
  rep_omitted : omitted_bytes b = N.min (len s - len (kept max s)) USIZE_MAX }.

Lemma saturating_add_min a b : saturating_add (N.min a USIZE_MAX) b = N.min (a + b) USIZE_MAX.
Proof. unfold saturating_add. lia. Qed.

Lemma trim_loop_spec excess t n o :
  (excess ≤ len (concat t))%N →
  ∃ t', trim_loop excess t n (N.min o USIZE_MAX) = (t', (n - excess)%N, N.min (o + excess) USIZE_MAX)
        ∧ concat t' = dropN excess (concat t).
Proof.
  revert excess n o. induction t as [|front t IH]; intros excess n o Hle; cbn [trim_loop].
  { unfold len in Hle. simpl in Hle. assert (excess = 0%N) as -> by lia. rewrite N.eqb_refl.
    exists []. split; [f_equal; [f_equal|]; lia|done]. }
  destruct (N.eqb_spec excess 0) as [->|Hne].
  { exists (front :: t). split; [f_equal; [f_equal|]; lia|done]. }
  simpl in Hle. rewrite len_app in Hle. destruct (N.leb_spec (len front) excess).
  - rewrite saturating_add_min. destruct (IH (excess - len front) (n - len front) (o + len front))%N as (t' & -> & Ht').
    { lia. }
    exists t'. split; [f_equal; [f_equal|]; lia|]. rewrite Ht'. simpl. rewrite dropN_app_ge by lia. done.
  - rewrite saturating_add_min. eexists. split; [reflexivity|].
    simpl. by rewrite dropN_app_le by lia.
Qed.

Lemma kept_full_head max s c :
  (max / 2 ≤ len s)%N →
  kept_head max (s ++ c) = kept_head max s
  ∧ kept_tail max (s ++ c) = lastn (max - max / 2) (kept_tail max s ++ c).
Proof.
  intros Hs. unfold kept_head, kept_tail. rewrite takeN_app_le, dropN_app_le by done.
  split; [done|]. apply lastn_app_lastn.
Qed.

(** Once the head is full, a chunk goes to the tail. *)
Lemma push_to_tail_represents b max s c :
  represents b max s → (max / 2 ≤ len s)%N → represents (push_to_tail c b) max (s ++ c).
Proof.
  intros [[Hm Hmax] [Hhb Htb] Hh Ht [Hnh Hnt] Ho] Hs.
  destruct (kept_full_head max s c Hs) as [Ekh Ekt].
  assert (len (kept max s) ≤ len s)%N as Hks.
  { unfold kept, kept_head, kept_tail. autorewrite with len. lia. }
  assert (len (kept max (s ++ c)) = len (kept_head max s) + len (lastn (max - max / 2) (kept_tail max s ++ c)))%N as Hk'.
  { unfold kept. by rewrite len_app, Ekh, Ekt. }
  unfold kept in Ho, Hks. rewrite len_app in Ho, Hks.
  assert (len (kept_tail max s) ≤ max - max / 2)%N as Hkt by (unfold kept_tail; autorewrite with len; lia).
  unfold push_to_tail. rewrite Htb, Hnt, Ho.
  destruct (N.eqb_spec (max - max / 2) 0) as [Hz|Hnz].
  { split; cbn; try done; rewrite ?Ekh, ?Ekt; try done.
    - rewrite Ht, Hz. unfold kept_tail. rewrite Hz. unfold lastn. rewrite !dropN_ge by lia. done.
    - split; [done|]. rewrite len_lastn, Hz in *. lia.
    - rewrite saturating_add_min, Hk', len_app, len_lastn. lia. }
  destruct (N.leb_spec (max - max / 2) (len c)) as [Hbig|Hsmall].
  { split; cbn; try done; rewrite ?Ekh, ?Ekt, ?app_nil_r; try done.
    - by rewrite lastn_app_ge.
    - split; [done|]. by rewrite lastn_app_ge.
    - rewrite !saturating_add_min, Hk', len_app, len_lastn, len_app, len_dropN. lia. }
  unfold trim_tail_to_budget. cbn [tail_bytes tail_budget with_tail tail omitted_bytes].
  assert (saturating_add (len (kept_tail max s)) (len c) = len (kept_tail max s ++ c)) as Hsum.
  { rewrite len_app. unfold saturating_add. unfold USIZE_MAX in *.
    pose proof (N.div_mod max 2 ltac:(lia)). pose proof (N.mod_lt max 2 ltac:(lia)). lia. }
  rewrite Hsum, Htb.
  assert (concat (tail b ++ [c]) = kept_tail max s ++ c) as Hcat by (by rewrite concat_app, Ht; simpl; rewrite app_nil_r).
  edestruct (trim_loop_spec (len (kept_tail max s ++ c) - (max - max / 2))%N (tail b ++ [c])) as (t' & -> & Ht').
  { rewrite Hcat. lia. }
  rewrite Hcat in Ht'. split; cbn; try done; rewrite ?Ekh, ?Ekt; try done.
  - split; [done|]. autorewrite with len. lia.
  - rewrite Hk', !len_app, len_lastn, len_app. lia.
Qed.

Lemma push_chunk_represents b max s c :
  represents b max s → represents (push_chunk c b) max (s ++ c).
Proof.
  intros Hrep. pose proof Hrep as [[Hm Hmax] [Hhb Htb] Hh Ht [Hnh Hnt] Ho].
  unfold push_chunk. rewrite Hm, Hhb, Hnh.
  destruct (N.eqb_spec max 0) as [->|Hnz].
  { pose proof (push_to_tail_represents b 0 s c Hrep) as Hp. unfold push_to_tail in Hp.
    rewrite Htb in Hp. apply Hp. change (0 / 2)%N with 0%N. lia. }
  destruct (N.ltb_spec (len (kept_head max s)) (max / 2)) as [Hlt|Hge].
  2:{ apply push_to_tail_represents; [done|]. unfold kept_head in Hge. autorewrite with len in Hge. lia. }
  assert (len s < max / 2)%N as Hs by (unfold kept_head in Hlt; rewrite len_takeN in Hlt; lia).
  assert (∀ t, (len (s ++ t) ≤ max / 2)%N → kept_head max (s ++ t) = s ++ t ∧ kept_tail max (s ++ t) = []) as Hfit.
  { intros t Hle. unfold kept_head, kept_tail. rewrite takeN_ge, dropN_ge by done.
    split; [done|]. apply dropN_ge. unfold len. simpl. lia. }
  destruct (Hfit []) as [Eh Et]; [rewrite app_nil_r; lia|]. rewrite app_nil_r in Eh, Et. rewrite Eh, Et in *.
  assert (∀ t, (len (s ++ t) ≤ max / 2)%N →
    represents (with_head (head b ++ [t]) (saturating_add (len s) (len t)) b) max (s ++ t)) as Hwith.
  { intros t Hle. destruct (Hfit t Hle) as [Eh' Et']. pose proof (N.Div0.div_le_upper_bound max 2 max).
    rewrite len_app in Hle. split; cbn; try done; rewrite ?Eh', ?Et'; try done.
    - by rewrite concat_app, Hh; simpl; rewrite app_nil_r.
    - split; [rewrite len_app; unfold saturating_add; lia|done].
    - unfold kept. rewrite Eh', Et', app_nil_r. rewrite Ho. unfold kept. rewrite Eh, Et, app_nil_r. lia. }
  destruct (N.leb_spec (len c) (max / 2 - len s)) as [Hfits|Hover].
  - apply Hwith. rewrite len_app. lia.
  - replace (s ++ c) with ((s ++ takeN (max / 2 - len s) c) ++ dropN (max / 2 - len s) c)
      by (by rewrite <-app_assoc, takeN_dropN).
    apply push_to_tail_represents; [|autorewrite with len; lia].
    rewrite decide_False.
    + apply Hwith. autorewrite with len. lia.
    + intros Hn. apply len_nil in Hn. rewrite len_takeN in Hn. lia.
Qed.

Lemma new_represents max : (max ≤ USIZE_MAX)%N → represents (new max) max [].
Proof.
  intros Hmax. unfold new. assert (kept_head max [] = []) as E1 by (apply takeN_ge, N.le_0_l).
  assert (kept_tail max [] = []) as E2.
  { unfold kept_tail. rewrite dropN_ge by apply N.le_0_l. apply dropN_ge, N.le_0_l. }
  split; cbn; try done; rewrite ?E1, ?E2; done.
Qed.

(** A use of the buffer: chunks pushed and drains. *)
Inductive op : Type := Push (chunk : bytes) | Drain.
Definition step (b : HeadTailBuffer) (o : op) : HeadTailBuffer :=
  match o with Push c => push_chunk c b | Drain => (drain_chunks b).2 end.
(** The bytes pushed since the last drain. *)
Definition stream_step (s : bytes) (o : op) : bytes := match o with Push c => s ++ c | Drain => [] end.

Lemma step_represents b max s o :
  represents b max s → represents (step b o) max (stream_step s o).
Proof.
  intros Hrep. destruct o as [c|]; simpl; [by apply push_chunk_represents|].
  destruct Hrep as [[Hm Hmax] [Hhb Htb] _ _ _ _].
  destruct (new_represents max Hmax) as [_ _ Hh Ht Hn Ho]. by split.
Qed.

Lemma run_represents max ops :
  (max ≤ USIZE_MAX)%N → represents (foldl step (new max) ops) max (foldl stream_step [] ops).
Proof.
  intros Hmax. induction ops as [|o ops IH] using rev_ind; [by apply new_represents|].
  rewrite !foldl_app. simpl. by apply step_represents.
Qed.

(** C23. Whatever is pushed and drained, the buffer holds the first half of
    its capacity of the bytes since the last drain, then the last bytes of the
    rest that fit the other half: at most [max] bytes, all of them when they
    fit; it counts the bytes it dropped, saturating; the chunks of a snapshot
    or drain are the same bytes. *)
Theorem head_tail_buffer_refines max ops :
  (max ≤ USIZE_MAX)%N →
  let b := foldl step (new max) ops in
  let s := foldl stream_step [] ops in
  to_bytes b = kept max s
  ∧ concat (snapshot_chunks b) = kept max s
  ∧ concat (drain_chunks b).1 = kept max s
  ∧ (len (kept max s) ≤ max)%N
  ∧ ((len s ≤ max)%N → kept max s = s)
  ∧ retained_bytes b = len (kept max s)
  ∧ omitted_bytes b = N.min (len s - len (kept max s)) USIZE_MAX.
Proof.
  intros Hmax b s. destruct (run_represents max ops Hmax) as [[Hm _] _ Hh Ht [Hnh Hnt] Ho].
  fold b s in Hh, Ht, Hnh, Hnt, Ho.
  assert (len (kept max s) ≤ max)%N as Hle.
  { unfold kept, kept_head, kept_tail. rewrite len_app, len_takeN, len_lastn.
    pose proof (N.Div0.div_le_upper_bound max 2 max ltac:(lia)) as Hq. revert Hq.
    generalize (max / 2)%N (len (dropN (max / 2) s)). clear. intros. lia. }
  unfold to_bytes, snapshot_chunks, drain_chunks. cbn [fst]. rewrite concat_app, Hh, Ht.
  do 3 (split; [done|]). split; [done|]. split; [|split; [|done]].
  - intros Hs. unfold kept, kept_head, kept_tail. rewrite lastn_all by (autorewrite with len; lia).
    apply takeN_dropN.
  - unfold retained_bytes. rewrite Hnh, Hnt. unfold kept in *. rewrite len_app in *.
    unfold saturating_add. lia.
Qed.

Lemma head_tail_buffer_refines_witness :
  let ops := [Push [1; 2; 3]; Push [4; 5]; Push [6]; Drain; Push [7; 8; 9; 10; 11; 12]]%N in
  let b := foldl step (new 4) ops in
  let s := foldl stream_step [] ops in
  to_bytes b = kept 4 s
  ∧ concat (snapshot_chunks b) = kept 4 s
  ∧ concat (drain_chunks b).1 = kept 4 s
  ∧ (len (kept 4 s) ≤ 4)%N
  ∧ ((len s ≤ 4)%N → kept 4 s = s)
  ∧ retained_bytes b = len (kept 4 s)
  ∧ omitted_bytes b = N.min (len s - len (kept 4 s)) USIZE_MAX.
Proof. apply (head_tail_buffer_refines 4). vm_compute. discriminate. Defined.

Example buffer_ex :
  to_bytes (foldl step (new 4) [Push [1; 2; 3]; Push [4; 5]; Push [6]]%N) = [1; 2; 5; 6]%N.
Proof. reflexivity. Qed.
