(* ===== verification/CollectOutput.v ===== *)
(** Waiting for the output of a process: the loop of
    [collect_output_until_deadline] in
    [codex-rs/core/src/unified_exec/process_manager.rs], by which the calls of
    UnifiedExec collect what they return. The collector runs beside the tasks that
    read the process, that see it exit and that pause the session; a step of it is
    what it does between two waits or locks. Times are counted in
    nanoseconds, and none passes within a step. *)
From stdpp Require Import relations.
From S2P Require Import Prelude HeadTailBuffer.

Definition POST_EXIT_CLOSE_WAIT_CAP : N := 50000000.

(** * State *)

(** What is shared: the buffer, the flag and the token that tell of the end, the
    channel of the pause state (its value, the version of it, and whether its
    sender is gone), and the clock. [notices] and [closings] count the calls of
    [notify_waiters] for output and for its end; [unannounced] is whether a chunk
    was pushed and its notice is still to come. *)
Record outputs : Type := {
  output_buffer : HeadTailBuffer; output_closed : bool; cancelled : bool;
  paused : bool; pause_version : N; sender_gone : bool; now : N;
  notices : N; unannounced : bool; closings : N }.

(** Where the collector is: [noted] is the count of notices at the moment its
    future was made, [until] the end of its sleep. *)
Inductive phase : Type :=
| Top
| Pausing (paused_at : N)
| PauseWait (paused_at : N)
| Draining
| Checking (noted : N)
| Arming (noted until : N)
| WaitClosed (noted noted_closings until : N)
| WaitOutput (noted until : N)
| Done.
(** [pause_seen] is the version its receiver has seen, if it has one. *)
Record collector : Type := {
  at_phase : phase; deadline : N; post_exit_deadline : option N; exit_signal_received : bool;
  pause_seen : option N; collected : list N }.
Definition goto (p : phase) (k : collector) : collector :=
  {| at_phase := p; deadline := deadline k; post_exit_deadline := post_exit_deadline k;
     exit_signal_received := exit_signal_received k; pause_seen := pause_seen k; collected := collected k |}.
Definition note_exit (b : bool) (k : collector) : collector :=
  {| at_phase := at_phase k; deadline := deadline k; post_exit_deadline := post_exit_deadline k;
     exit_signal_received := exit_signal_received k || b; pause_seen := pause_seen k; collected := collected k |}.
Definition see_pause (v : N) (k : collector) : collector :=
  {| at_phase := at_phase k; deadline := deadline k; post_exit_deadline := post_exit_deadline k;
     exit_signal_received := exit_signal_received k; pause_seen := Some v; collected := collected k |}.
(** [extend_deadlines_while_paused], when the pause ends. *)
Definition extend_deadlines (paused_for : N) (k : collector) : collector :=
  {| at_phase := at_phase k; deadline := deadline k + paused_for; post_exit_deadline := (λ d, d + paused_for)%N <$> post_exit_deadline k;
     exit_signal_received := exit_signal_received k; pause_seen := pause_seen k; collected := collected k |}.
Definition set_post_exit (d : N) (k : collector) : collector :=
  {| at_phase := at_phase k; deadline := deadline k; post_exit_deadline := Some d;
     exit_signal_received := exit_signal_received k; pause_seen := pause_seen k; collected := collected k |}.
Definition take_chunks (chunks : list (list N)) (k : collector) : collector :=
  {| at_phase := at_phase k; deadline := deadline k; post_exit_deadline := post_exit_deadline k;
     exit_signal_received := exit_signal_received k; pause_seen := pause_seen k; collected := collected k ++ concat chunks |}.

(** * The loop *)

(** The branch of [select!] that is taken. *)
Inductive wake : Type := ByOutput | ByEnd | BySleep | ByPause.
(** [changed] on a receiver, and [wait_for_pause_change] on a copy of it. *)
Definition pause_changed (k : collector) (o : outputs) : bool :=
  match pause_seen k with Some v => negb (v =? pause_version o)%N || sender_gone o | None => false end.
(** The loop of [extend_deadlines_while_paused]: [Pausing] looks at the value,
    [PauseWait] waits for a change, [None] while there is none. *)
Definition resumed (paused_at : N) (k : collector) (o : outputs) : collector :=
  goto Draining (extend_deadlines (now o - paused_at) k).
Definition pausing_step (paused_at : N) (k : collector) (o : outputs) : collector :=
  if paused o then goto (PauseWait paused_at) k else resumed paused_at k o.
Definition pause_wait_step (paused_at : N) (k : collector) (o : outputs) : option collector :=
  match pause_seen k with
  | None => None
  | Some v =>
      if negb (v =? pause_version o)%N then Some (goto (Pausing paused_at) (see_pause (pause_version o) k))
      else if sender_gone o then Some (resumed paused_at k o)
      else None
  end.
Definition checking_step (noted : N) (k : collector) (o : outputs) : collector :=
  let k := note_exit (cancelled o) k in
  if exit_signal_received k && output_closed o then goto Done k
  else
    let remaining := (deadline k - now o)%N in
    if (remaining =? 0)%N then goto Done k
    else if exit_signal_received k then
      let close_wait_deadline := default (now o + N.min remaining POST_EXIT_CLOSE_WAIT_CAP)%N (post_exit_deadline k) in
      let k := set_post_exit close_wait_deadline k in
      if (close_wait_deadline - now o =? 0)%N then goto Done k else goto (Arming noted close_wait_deadline) k
    else goto (WaitOutput noted (deadline k)) k.
Definition with_buffer (b : HeadTailBuffer) (o : outputs) : outputs :=
  {| output_buffer := b; output_closed := output_closed o; cancelled := cancelled o; paused := paused o;
     pause_version := pause_version o; sender_gone := sender_gone o; now := now o; notices := notices o;
     unannounced := unannounced o; closings := closings o |}.
(** The collector and what it leaves in the buffer; [None] where it waits. *)
Definition collector_step (w : wake) (k : collector) (o : outputs) : option (collector * outputs) :=
  match at_phase k with
  | Top => Some (match pause_seen k with
                 | Some _ => if paused o then goto (Pausing (now o)) k else goto Draining k
                 | None => goto Draining k
                 end, o)
  | Pausing paused_at => Some (pausing_step paused_at k o, o)
  | PauseWait paused_at => (λ k, (k, o)) <$> pause_wait_step paused_at k o
  | Draining =>
      let '(drained_chunks, b) := drain_chunks (output_buffer o) in
      match drained_chunks with
      | [] => Some (goto (Checking (notices o)) k, with_buffer b o)
      | _ =>
          let k := note_exit (cancelled o) (take_chunks drained_chunks k) in
          Some (goto (if deadline k <=? now o then Done else Top)%N k, with_buffer b o)
      end
  | Checking noted => Some (checking_step noted k o, o)
  | Arming noted until => Some (goto (WaitClosed noted (closings o) until) k, o)
  | WaitClosed noted noted_closings until =>
      match w with
      | ByOutput => if negb (noted =? notices o)%N then Some (goto Top k, o) else None
      | ByEnd => if negb (noted_closings =? closings o)%N then Some (goto Top k, o) else None
      | BySleep => if (until <=? now o)%N then Some (goto Done k, o) else None
      | ByPause => if pause_changed k o then Some (goto Top k, o) else None
      end
  | WaitOutput noted until =>
      match w with
      | ByOutput => if negb (noted =? notices o)%N then Some (goto Top k, o) else None
      | ByEnd => if cancelled o then Some (goto Top (note_exit true k), o) else None
      | BySleep => if (until <=? now o)%N then Some (goto Done k, o) else None
      | ByPause => if pause_changed k o then Some (goto Top k, o) else None
      end
  | Done => None
  end.

(** * What goes on beside it *)

(** A chunk is pushed, then its notice is given; another call drains the buffer;
    the output is closed, then its notice is given; the process is seen to exit; the
    session is paused or goes on; its channel is dropped; time passes. *)
Inductive event : Type :=
| Pushed (chunk : list N) | Announced | DrainedElsewhere | Closed | ClosedAnnounced | ProcessExited
| PauseSet (b : bool) | SenderGone | TimePassed (ns : N).
Definition output_event (e : event) (o : outputs) : outputs :=
  match e with
  | Pushed chunk =>
      {| output_buffer := push_chunk chunk (output_buffer o); output_closed := output_closed o; cancelled := cancelled o; paused := paused o;
         pause_version := pause_version o; sender_gone := sender_gone o; now := now o; notices := notices o; unannounced := true; closings := closings o |}
  | Announced =>
      {| output_buffer := output_buffer o; output_closed := output_closed o; cancelled := cancelled o; paused := paused o;
         pause_version := pause_version o; sender_gone := sender_gone o; now := now o; notices := notices o + 1; unannounced := false; closings := closings o |}
  | DrainedElsewhere => with_buffer (drain_chunks (output_buffer o)).2 o
  | Closed =>
      {| output_buffer := output_buffer o; output_closed := true; cancelled := cancelled o; paused := paused o;
         pause_version := pause_version o; sender_gone := sender_gone o; now := now o; notices := notices o; unannounced := unannounced o; closings := closings o |}
  | ClosedAnnounced =>
      {| output_buffer := output_buffer o; output_closed := output_closed o; cancelled := cancelled o; paused := paused o;
         pause_version := pause_version o; sender_gone := sender_gone o; now := now o; notices := notices o; unannounced := unannounced o; closings := closings o + 1 |}
  | ProcessExited =>
      {| output_buffer := output_buffer o; output_closed := output_closed o; cancelled := true; paused := paused o;
         pause_version := pause_version o; sender_gone := sender_gone o; now := now o; notices := notices o; unannounced := unannounced o; closings := closings o |}
  | PauseSet b =>
      {| output_buffer := output_buffer o; output_closed := output_closed o; cancelled := cancelled o; paused := b;
         pause_version := pause_version o + 1; sender_gone := sender_gone o; now := now o; notices := notices o; unannounced := unannounced o; closings := closings o |}
  | SenderGone =>
      {| output_buffer := output_buffer o; output_closed := output_closed o; cancelled := cancelled o; paused := paused o;
         pause_version := pause_version o; sender_gone := true; now := now o; notices := notices o; unannounced := unannounced o; closings := closings o |}
  | TimePassed ns =>
      {| output_buffer := output_buffer o; output_closed := output_closed o; cancelled := cancelled o; paused := paused o;
         pause_version := pause_version o; sender_gone := sender_gone o; now := now o + ns; notices := notices o; unannounced := unannounced o; closings := closings o |}
  end.

(** * Runs *)

(** The collection with what it is measured by: [since] holds the bytes pushed since
    the buffer was last drained, [taken] those behind each of its own drains, [held]
    the time that passed while it was held by a pause. *)
Record world : Type := { outs : outputs; coll : collector; since : list N; taken : list (list N); held : N }.
Inductive act : Type := Own (w : wake) | Beside (e : event).
Definition in_pause (k : collector) : bool :=
  match at_phase k with Pausing _ | PauseWait _ => true | _ => false end.
Definition own_act (w : wake) (x : world) : option world :=
  '(k, o) ← collector_step w (coll x) (outs x);
  Some {| outs := o; coll := k;
          since := match at_phase (coll x) with Draining => [] | _ => since x end;
          taken := match at_phase (coll x) with Draining => taken x ++ [since x] | _ => taken x end;
          held := held x |}.
Definition beside_act (e : event) (x : world) : world :=
  {| outs := output_event e (outs x); coll := coll x;
     since := match e with Pushed chunk => since x ++ chunk | DrainedElsewhere => [] | _ => since x end;
     taken := taken x;
     held := match e with TimePassed ns => if in_pause (coll x) then (held x + ns)%N else held x | _ => held x end |}.
Definition act_step (a : act) (x : world) : option world :=
  match a with Own w => own_act w x | Beside e => Some (beside_act e x) end.
Fixpoint run (acts : list act) (x : world) : option world :=
  match acts with [] => Some x | a :: acts => act_step a x ≫= run acts end.

(** The first lines of the function. *)
Definition collect_start (d : N) (receiver : option N) (o : outputs) (s : list N) : world :=
  {| outs := o; since := s; taken := []; held := 0;
     coll := {| at_phase := Top; deadline := d; post_exit_deadline := None; exit_signal_received := cancelled o;
                pause_seen := receiver; collected := [] |} |}.

(** * What always holds *)

Definition chunks_held (o : outputs) : list (list N) := snapshot_chunks (output_buffer o).
(** A collector that saw its buffer empty hears of what is pushed after. *)
Definition hears (noted : N) (o : outputs) : Prop :=
  (noted ≤ notices o)%N ∧ (chunks_held o = [] ∨ unannounced o = true ∨ noted ≠ notices o).
(** Why a collection ends. *)
Definition ended (k : collector) (o : outputs) : Prop :=
  (deadline k ≤ now o)%N
  ∨ (exit_signal_received k = true ∧ output_closed o = true)
  ∨ (exit_signal_received k = true ∧ ∃ p, post_exit_deadline k = Some p ∧ (p ≤ now o)%N).
Definition phase_fits (k : collector) (o : outputs) : Prop :=
  match at_phase k with
  | Top | Draining => True
  | Pausing paused_at => is_Some (pause_seen k) ∧ (paused_at ≤ now o)%N
  | PauseWait paused_at =>
      (∃ v, pause_seen k = Some v ∧ (v = pause_version o → paused o = true)) ∧ (paused_at ≤ now o)%N
  | Checking noted => hears noted o
  | Arming noted until | WaitClosed noted _ until =>
      hears noted o ∧ exit_signal_received k = true ∧ post_exit_deadline k = Some until
  | WaitOutput noted until => hears noted o ∧ until = deadline k
  | Done => ended k o
  end.
Definition pause_so_far (k : collector) (o : outputs) : N :=
  match at_phase k with Pausing paused_at | PauseWait paused_at => now o - paused_at | _ => 0 end.

Record collecting (max d : N) (x : world) : Prop := {
  col_buffer : represents (output_buffer (outs x)) max (since x);
  col_collected : collected (coll x) = concat (kept max <$> taken x);
  col_exit : exit_signal_received (coll x) = true → cancelled (outs x) = true;
  col_seen : ∀ v, pause_seen (coll x) = Some v → (v ≤ pause_version (outs x))%N;
  col_deadline : (deadline (coll x) + pause_so_far (coll x) (outs x) = d + held x)%N;
  col_post : ∀ p, post_exit_deadline (coll x) = Some p → (p ≤ deadline (coll x))%N;
  col_phase : phase_fits (coll x) (outs x) }.

Lemma collect_start_collecting max d receiver o s :
  represents (output_buffer o) max s → (∀ v, receiver = Some v → v ≤ pause_version o)%N →
  collecting max d (collect_start d receiver o s).
Proof. by intros Hb Hv. Qed.

Lemma beside_phase_fits e k o : (∀ v, pause_seen k = Some v → v ≤ pause_version o)%N →
  phase_fits k o → phase_fits k (output_event e o).
Proof.
  intros Hv. unfold phase_fits, hears, ended, chunks_held.
  destruct (at_phase k), e; simpl; try done; intros Hp;
    repeat match goal with
      | H : _ ∧ _ |- _ => destruct H
      | H : ∃ v, _ |- _ => destruct H as [??]
      end; intuition eauto; try lia.
  - eexists. split; [eassumption|]. intros ->. match goal with H : pause_seen k = _ |- _ => specialize (Hv _ H) end. lia.
  - right; right. split; [done|]. match goal with H : ∃ p, _ |- _ => destruct H as (p & Ep & Hp) end. exists p. split; [done|lia].
Qed.

Lemma beside_collecting max d e x : collecting max d x → collecting max d (beside_act e x).
Proof.
  intros [Hb Hc He Hs Hd Hp Hf]. split; cbn [beside_act outs coll since taken held].
  - destruct e; try exact Hb.
    + exact (step_represents _ max _ (Push chunk) Hb).
    + exact (step_represents _ max _ Drain Hb).
  - done.
  - intros H. specialize (He H). by destruct e.
  - intros v H. specialize (Hs v H). destruct e; simpl in *; lia.
  - clear Hs He Hc Hb Hp. unfold in_pause, pause_so_far, phase_fits in *.
    destruct (at_phase (coll x)), e; simpl in *; lia.
  - done.
  - by apply beside_phase_fits.
Qed.

(** A step that leaves the buffer and what was collected. *)
Lemma moved_collecting max d x k :
  collecting max d x → collected k = collected (coll x) →
  (exit_signal_received k = true → exit_signal_received (coll x) = true ∨ cancelled (outs x) = true) →
  (∀ v, pause_seen k = Some v → pause_seen (coll x) = Some v ∨ v = pause_version (outs x)) →
  (deadline k + pause_so_far k (outs x) = deadline (coll x) + pause_so_far (coll x) (outs x))%N →
  (∀ p, post_exit_deadline k = Some p → (p ≤ deadline k)%N) → phase_fits k (outs x) →
  collecting max d {| outs := outs x; coll := k; since := since x; taken := taken x; held := held x |}.
Proof.
  intros [Hb Hc He Hs Hd Hp Hf] Ec Ee Es Ed Ep Ef. split; simpl; try done.
  - congruence.
  - intros H. destruct (Ee H); auto.
  - intros v H. destruct (Es v H) as [H'| ->]; [by apply Hs|lia].
  - lia.
Qed.

Lemma pausing_collecting max d x k pa :
  collecting max d x → at_phase (coll x) = Pausing pa ∨ at_phase (coll x) = PauseWait pa →
  k = resumed pa (coll x) (outs x) →
  collecting max d {| outs := outs x; coll := k; since := since x; taken := taken x; held := held x |}.
Proof.
  intros Hx Hph ->. apply moved_collecting; simpl; try done; auto.
  - unfold pause_so_far, resumed. simpl. destruct Hph as [-> | ->]; lia.
  - intros p. destruct (post_exit_deadline (coll x)) eqn:E; simpl; [|done].
    intros [= <-]. pose proof (col_post _ _ _ Hx _ E). lia.
Qed.

Lemma checking_collecting max d x n :
  collecting max d x → at_phase (coll x) = Checking n →
  collecting max d {| outs := outs x; coll := checking_step n (coll x) (outs x);
                      since := since x; taken := taken x; held := held x |}.
Proof.
  intros Hx Hph. pose proof (col_phase _ _ _ Hx) as Hf. unfold phase_fits in Hf. rewrite Hph in Hf.
  pose proof (col_post _ _ _ Hx) as Hp.
  set (p := default (now (outs x) + N.min (deadline (coll x) - now (outs x)) POST_EXIT_CLOSE_WAIT_CAP)%N (post_exit_deadline (coll x))).
  unfold checking_step, set_post_exit, goto. simpl. fold p.
  assert (p ≤ deadline (coll x) ∨ deadline (coll x) ≤ now (outs x))%N as Hle.
  { subst p. destruct (post_exit_deadline (coll x)) as [p|]; simpl; [left; by apply Hp|lia]. }
  clearbody p. assert (∀ b, exit_signal_received (coll x) || cancelled (outs x) = b → b = true →
    exit_signal_received (coll x) = true ∨ cancelled (outs x) = true) as He.
  { intros b <-. apply orb_true_iff. }
  specialize (He _ eq_refl). destruct (exit_signal_received (coll x) || cancelled (outs x)) eqn:Ee; simpl;
    [destruct (output_closed (outs x)) eqn:Ecl; simpl|]; repeat case_match;
    apply moved_collecting; simpl; try done; auto; unfold pause_so_far; rewrite ?Hph; simpl; try done;
    rewrite ?N.eqb_eq, ?N.eqb_neq in *; try (intros ? [= <-]; lia); unfold phase_fits, ended; simpl; try lia.
  - auto.
  - right; right. split; [done|]. exists p. split; [done|lia].
Qed.

Lemma draining_collecting max d w x k o :
  collecting max d x → at_phase (coll x) = Draining → collector_step w (coll x) (outs x) = Some (k, o) →
  collecting max d {| outs := o; coll := k; since := []; taken := taken x ++ [since x]; held := held x |}.
Proof.
  intros [Hb Hc He Hs Hd Hp Hf] Eph Hk. unfold collector_step in Hk. unfold pause_so_far in Hd. rewrite Eph in Hk, Hd.
  pose proof (step_represents _ max _ Drain Hb) as Hb'.
  assert (concat (drain_chunks (output_buffer (outs x))).1 = kept max (since x)) as Hch.
  { simpl. by rewrite concat_app, (rep_head _ _ _ Hb), (rep_tail _ _ _ Hb). }
  change (represents (drain_chunks (output_buffer (outs x))).2 max []) in Hb'.
  assert (concat (kept max <$> (taken x ++ [since x])) = concat (kept max <$> taken x) ++ kept max (since x)) as Et.
  { by rewrite fmap_app, concat_app; cbn -[kept]; rewrite app_nil_r. }
  destruct (drain_chunks (output_buffer (outs x))) as [chs b] eqn:Edr. simpl in Hb', Hch.
  destruct chs as [|ch chs]; injection Hk as <- <-; split; cbn -[concat kept]; try done; rewrite ?Et.
  - by rewrite <- Hch, Hc, app_nil_r.
  - split; [apply N.le_refl|]. left. unfold drain_chunks in Edr. by injection Edr as _ <-.
  - by rewrite Hch, Hc.
  - intros H. apply orb_true_iff in H as [H|H]; auto.
  - unfold pause_so_far, goto. cbn [at_phase]. by destruct (deadline (coll x) <=? now (outs x))%N.
  - unfold phase_fits. cbn [at_phase goto]. destruct (deadline (coll x) <=? now (outs x))%N eqn:El; [|done].
    left. by apply N.leb_le.
Qed.

Lemma own_collecting max d w x x' : collecting max d x → own_act w x = Some x' → collecting max d x'.
Proof.
  intros Hx Hown. pose proof Hx as [Hb Hc He Hs Hd Hp Hf].
  unfold own_act in Hown. apply bind_Some in Hown as ([k o] & Hk & [= <-]).
  unfold collector_step in Hk. unfold phase_fits, pause_so_far in Hd, Hf.
  destruct (at_phase (coll x)) as [|pa|pa| |n|n u|n c u|n u|] eqn:Eph; try done.
  - injection Hk as <- <-. destruct (pause_seen (coll x)) as [v|] eqn:Ev; [destruct (paused (outs x)) eqn:Epa|];
      apply moved_collecting; simpl; auto; unfold pause_so_far, phase_fits; rewrite ?Eph; simpl; try done; try lia.
  - injection Hk as <- <-. unfold pausing_step. destruct (paused (outs x)) eqn:Epa.
    + apply moved_collecting; simpl; auto; unfold pause_so_far, phase_fits; rewrite ?Eph; simpl; [done|].
      destruct Hf as [[v Hv] Hn]. split; [by exists v|done].
    + eapply pausing_collecting; eauto.
  - destruct (pause_wait_step _ _ _) as [k'|] eqn:Ek; [|done]. injection Hk as <- <-.
    unfold pause_wait_step in Ek. destruct (pause_seen (coll x)) as [v|] eqn:Ev; [|done].
    repeat case_match; simplify_eq.
    + apply moved_collecting; simpl; auto; unfold pause_so_far, phase_fits; rewrite ?Eph; simpl; try done.
      * intros v' [= <-]. by right.
      * split; [done|lia].
    + eapply pausing_collecting; eauto.
  - eapply (draining_collecting max d w); [done|done|]. unfold collector_step. by rewrite Eph.
  - injection Hk as <- <-. by eapply checking_collecting.
  - injection Hk as <- <-. apply moved_collecting; simpl; auto; unfold pause_so_far, phase_fits; by rewrite ?Eph.
  - destruct Hf as (Hh & Hex & Hpo). destruct w; repeat case_match; simplify_eq;
      apply moved_collecting; simpl; auto; unfold pause_so_far, phase_fits, ended; rewrite ?Eph; simpl; try done.
    right; right. split; [done|]. eexists. split; [done|]. by apply N.leb_le.
  - destruct Hf as (Hh & ->). destruct w; repeat case_match; simplify_eq;
      apply moved_collecting; simpl; auto; unfold pause_so_far, phase_fits, ended; rewrite ?Eph; simpl; try done.
    left. by apply N.leb_le.
Qed.

Lemma run_collecting max d acts : ∀ x x', collecting max d x → run acts x = Some x' → collecting max d x'.
Proof.
  induction acts as [|a acts IH]; simpl; intros x x' Hx H; [by simplify_eq|].
  apply bind_Some in H as (x1 & Ha & H). apply (IH x1); [|done]. destruct a as [w|e]; simpl in Ha.
  - by eapply own_collecting.
  - injection Ha as <-. by apply beside_collecting.
Qed.

(** * Waiting and ending *)

(** The steps left once the deadline has passed. *)
Definition steps_left (k : collector) : nat :=
  match at_phase k with
  | Arming _ _ => 5 | WaitClosed _ _ _ | WaitOutput _ _ => 4 | Top => 3 | Draining => 2 | Checking _ => 1 | _ => 0
  end.
(** Nothing it could do. *)
Definition stuck (x : world) : Prop := ∀ w, own_act w x = None.
(** It waits only for the end of a pause, or for output, the end or its deadline, and
    never with output in the buffer whose notice was given. *)
Definition waits_rightly (x : world) : Prop :=
  let k := coll x in let o := outs x in
  at_phase k = Done
  ∨ (in_pause k = true ∧ paused o = true ∧ sender_gone o = false)
  ∨ (in_pause k = false ∧ (now o < deadline k)%N ∧ (chunks_held o = [] ∨ unannounced o = true)
     ∧ (exit_signal_received k = true ∨ cancelled o = false)
     ∧ (exit_signal_received k = true →
          ∃ p, post_exit_deadline k = Some p ∧ (now o < p)%N ∧ (p ≤ deadline k)%N)).

Lemma stuck_waits_rightly max d x : collecting max d x → stuck x → waits_rightly x.
Proof.
  intros [Hb Hc He Hs Hd Hp Hf] Hst.
  assert (∀ w, collector_step w (coll x) (outs x) = None) as Hn.
  { intros w. specialize (Hst w). unfold own_act in Hst.
    by destruct (collector_step w (coll x) (outs x)) as [[??]|]. }
  clear Hst. unfold collector_step, phase_fits, waits_rightly, in_pause in *.
  destruct (at_phase (coll x)) as [|pa|pa| |n|n u|n c u|n u|] eqn:Eph; auto; try (by specialize (Hn ByOutput)).
  - specialize (Hn ByOutput). destruct Hf as [(v & Ev & Hv) _]. right; left. split; [done|].
    unfold pause_wait_step in Hn. rewrite Ev in Hn. destruct (v =? pause_version (outs x))%N eqn:E; [|done].
    apply N.eqb_eq in E. simpl in Hn. destruct (sender_gone (outs x)) eqn:Eg; [done|]. auto.
  - specialize (Hn ByOutput). destruct (drain_chunks (output_buffer (outs x))) as [[|ch chs] b]; done.
  - right; right. destruct Hf as ([Hle Hh] & Hex & Hpo). pose proof (Hn ByOutput) as H1. pose proof (Hn BySleep) as H2.
    specialize (Hp _ Hpo). simpl in H1, H2. destruct (n =? notices (outs x))%N eqn:E1; [|done].
    destruct (u <=? now (outs x))%N eqn:E2; [done|]. apply N.eqb_eq in E1. apply N.leb_gt in E2.
    split; [done|]. split; [lia|]. split; [naive_solver|]. split; [by left|].
    intros _. exists u. auto with lia.
  - right; right. destruct Hf as ([Hle Hh] & ->). pose proof (Hn ByOutput) as H1. pose proof (Hn BySleep) as H2.
    pose proof (Hn ByEnd) as H3. simpl in H1, H2, H3. destruct (n =? notices (outs x))%N eqn:E1; [|done].
    destruct (deadline (coll x) <=? now (outs x))%N eqn:E2; [done|]. apply N.eqb_eq in E1. apply N.leb_gt in E2.
    destruct (cancelled (outs x)) eqn:E3; [done|].
    split; [done|]. split; [lia|]. split; [naive_solver|]. split; [by right|]. intros H. by specialize (He H).
Qed.

(** The deadline has passed, and the session is not paused. *)
Definition past (x : world) : Prop :=
  (deadline (coll x) ≤ now (outs x))%N ∧ in_pause (coll x) = false
  ∧ (pause_seen (coll x) = None ∨ paused (outs x) = false).
Definition pauses_again (a : act) : bool := match a with Beside (PauseSet true) => true | _ => false end.
Definition own_steps (acts : list act) : nat := sum_list_with (λ a, match a with Own _ => 1 | Beside _ => 0 end) acts.

Lemma past_own w x x' : past x → own_act w x = Some x' → past x' ∧ (steps_left (coll x') < steps_left (coll x)).
Proof.
  intros (Hd & Hi & Hp) Hown. unfold own_act in Hown. apply bind_Some in Hown as ([k o] & Hk & [= <-]).
  unfold collector_step in Hk. unfold past, steps_left, in_pause in *.
  destruct (at_phase (coll x)) as [|pa|pa| |n|n u|n c u|n u|] eqn:Eph; try done.
  - injection Hk as <- <-. destruct Hp as [Hp|Hp]; simpl; rewrite Hp; [|destruct (pause_seen (coll x)) eqn:Ep];
      simpl; rewrite ?Ep; auto with lia.
  - destruct (drain_chunks (output_buffer (outs x))) as [[|ch chs] b]; injection Hk as <- <-; simpl; [auto with lia|].
    rewrite (proj2 (N.leb_le _ _) Hd). auto with lia.
  - injection Hk as <- <-. unfold checking_step. simpl. replace (deadline (coll x) - now (outs x))%N with 0%N by lia.
    simpl. case_match; simpl; auto with lia.
  - injection Hk as <- <-. simpl. auto with lia.
  - destruct w; repeat case_match; simplify_eq; simpl; auto with lia.
  - destruct w; repeat case_match; simplify_eq; simpl; auto with lia.
Qed.
Lemma past_beside e x : past x → pauses_again (Beside e) = false →
  past (beside_act e x) ∧ steps_left (coll (beside_act e x)) = steps_left (coll x).
Proof.
  intros (Hd & Hi & Hp) He. unfold past. simpl. split; [|done].
  destruct e as [| | | | | |[]| |]; simpl in *; try done; split_and?; auto; lia.
Qed.
Lemma past_run acts : ∀ x x', past x → run acts x = Some x' → forallb (λ a, negb (pauses_again a)) acts = true →
  past x' ∧ (own_steps acts + steps_left (coll x') ≤ steps_left (coll x)).
Proof.
  induction acts as [|a acts IH]; simpl; intros x x' Hx H Ha; [simplify_eq; unfold own_steps; simpl; auto|].
  apply bind_Some in H as (x1 & H1 & H). apply andb_true_iff in Ha as [Ha Has]. apply negb_true_iff in Ha.
  destruct a as [w|e]; simpl in H1; unfold own_steps in *.
  - destruct (past_own _ _ _ Hx H1) as [Hx1 Hlt]. destruct (IH _ _ Hx1 H Has) as [Hx' Hle].
    split; [done|lia].
  - injection H1 as <-. destruct (past_beside _ _ Hx Ha) as [Hx1 Heq]. destruct (IH _ _ Hx1 H Has) as [Hx' Hle].
    split; [done|lia].
Qed.
Lemma past_stuck max d x : collecting max d x → past x → stuck x → at_phase (coll x) = Done.
Proof.
  intros Hx (Hd & Hi & _) Hst. destruct (stuck_waits_rightly _ _ _ Hx Hst) as [H|[(H & _)|(_ & H & _)]]; [done|congruence|lia].
Qed.

(** What is pushed in a run, when no other call drains the buffer. *)
Definition pushed (a : act) : list N := match a with Beside (Pushed chunk) => chunk | _ => [] end.
Definition drains_elsewhere (a : act) : bool := match a with Beside DrainedElsewhere => true | _ => false end.
Lemma run_taken acts : ∀ x x', run acts x = Some x' → forallb (λ a, negb (drains_elsewhere a)) acts = true →
  concat (taken x') ++ since x' = (concat (taken x) ++ since x) ++ concat (pushed <$> acts).
Proof.
  induction acts as [|a acts IH]; simpl; intros x x' H Ha; [simplify_eq; by rewrite app_nil_r|].
  apply bind_Some in H as (x1 & H1 & H). apply andb_true_iff in Ha as [Ha Has].
  rewrite (IH _ _ H Has), app_assoc. f_equal. destruct a as [w|e]; simpl in *.
  - apply bind_Some in H1 as ([k o] & Hk & [= <-]). simpl. rewrite app_nil_r.
    case_match; simpl; rewrite ?concat_app; simpl; by rewrite ?app_nil_r.
  - injection H1 as <-. destruct e; simpl; rewrite ?app_nil_r, ?app_assoc; done.
Qed.

(** C36. The loop that collects the output of a process, beside any events (chunks
    pushed and announced, other calls that drain, the end of the output, the exit, a
    pause of the session, time):
    - it returns, drain by drain, what the buffer kept of the bytes pushed between two
      drains; when no other call drains, those drained and those still in the buffer
      are all the bytes, in order;
    - its deadline is the given one, later by exactly the time it was held by a pause;
    - it never waits but for the end of a pause; or before its deadline, when no chunk
      in the buffer was announced and, if it was told of the exit, only up to a time
      set then, itself not after the deadline; if not, the process has not exited;
    - once the deadline has passed outside a pause, it takes at most five more steps
      until a new pause, whatever the events, and it is only without a step when done;
    - it ends only when the deadline has passed, or the process has exited and its
      output is closed or the time set at the exit has passed. *)
Theorem output_collection max d receiver o s acts x :
  represents (output_buffer o) max s → (∀ v, receiver = Some v → v ≤ pause_version o)%N →
  run acts (collect_start d receiver o s) = Some x →
  (collected (coll x) = concat (kept max <$> taken x) ∧ represents (output_buffer (outs x)) max (since x)
   ∧ (forallb (λ a, negb (drains_elsewhere a)) acts = true →
        concat (taken x) ++ since x = s ++ concat (pushed <$> acts)))
  ∧ (deadline (coll x) + pause_so_far (coll x) (outs x) = d + held x)%N
  ∧ (stuck x → waits_rightly x)
  ∧ (past x → ∀ later y, run later x = Some y → forallb (λ a, negb (pauses_again a)) later = true →
       own_steps later ≤ 5 ∧ (stuck y → at_phase (coll y) = Done))
  ∧ (at_phase (coll x) = Done →
       ended (coll x) (outs x) ∧ (exit_signal_received (coll x) = true → cancelled (outs x) = true)).
Proof.
  intros Hb Hv Hrun. pose proof (run_collecting _ _ _ _ _ (collect_start_collecting _ d _ _ _ Hb Hv) Hrun) as Hx.
  split_and!.
  - by destruct Hx.
  - by destruct Hx.
  - intros Ha. by rewrite (run_taken _ _ _ Hrun Ha).
  - by destruct Hx.
  - by apply (stuck_waits_rightly max d).
  - intros Hp later y Hl Ha. destruct (past_run _ _ _ Hp Hl Ha) as [Hy Hle]. split.
    + revert Hle. unfold steps_left at 2. destruct (at_phase (coll x)); lia.
    + by apply (past_stuck max d); [eapply run_collecting|].
  - intros Hdone. pose proof (col_phase _ _ _ Hx) as Hf. unfold phase_fits in Hf. rewrite Hdone in Hf.
    split; [done|by destruct Hx].
Qed.

(** A process that writes, is held by a pause, writes more and is seen to exit. *)
#[local] Definition quiet : outputs :=
  {| output_buffer := new 4; output_closed := false; cancelled := false; paused := false; pause_version := 0;
     sender_gone := false; now := 0; notices := 0; unannounced := false; closings := 0 |}.
#[local] Definition own n : list act := replicate n (Own ByOutput).
#[local] Definition session : list act :=
  own 3 ++ [Beside (Pushed [1; 2]%N); Beside Announced] ++ own 2 ++ [Beside (PauseSet true)] ++ own 4
  ++ [Beside (TimePassed 70); Beside (PauseSet false)] ++ own 3 ++ [Beside (Pushed [3; 4; 5; 6; 7; 8]%N); Beside Announced;
      Beside ProcessExited] ++ own 7 ++ [Beside Closed; Beside ClosedAnnounced; Own ByEnd] ++ own 3.

Lemma output_collection_witness :
  ∃ x, run session (collect_start 100 (Some 0%N) quiet []) = Some x
  ∧ at_phase (coll x) = Done ∧ collected (coll x) = [1; 2; 3; 4; 7; 8]%N ∧ deadline (coll x) = 170%N
  ∧ ended (coll x) (outs x).
Proof.
  destruct (run session (collect_start 100 (Some 0%N) quiet [])) as [x|] eqn:Hrun; [|by vm_compute in Hrun].
  destruct (output_collection 4 100 (Some 0%N) quiet [] session x) as (_ & _ & _ & _ & Hend);
    [apply (new_represents 4); by vm_compute| |done|].
  { intros v [= <-]. done. }
  assert (Some x = run session (collect_start 100 (Some 0%N) quiet [])) as E by done. clear Hrun.
  exists x. split; [done|]. vm_compute in E. injection E as ->. split; [done|]. split; [done|]. split; [done|].
  by apply Hend.
Defined.

(** * What the loop gets wrong *)

(** A pause that began and ended since the receiver last looked: the value is [false]
    again, but its version was not seen. *)
Definition missed_pause (x : world) : Prop :=
  at_phase (coll x) = Top ∧ paused (outs x) = false ∧ chunks_held (outs x) = []
  ∧ cancelled (outs x) = false ∧ exit_signal_received (coll x) = false ∧ (now (outs x) < deadline (coll x))%N
  ∧ ∃ v, pause_seen (coll x) = Some v ∧ v ≠ pause_version (outs x).
(** [extend_deadlines_while_paused] then returns without marking it as seen, and the
    copy of [wait_for_pause_change] wakes at once: the loop spins until the deadline. *)
Lemma missed_pause_spins x : missed_pause x → ∃ y, run (replicate 4 (Own ByPause)) x = Some y ∧ missed_pause y.
Proof.
  destruct x as [o [p d pe ex ps cs] s t h]. unfold missed_pause, chunks_held, snapshot_chunks.
  cbn [coll outs at_phase deadline exit_signal_received pause_seen].
  intros (-> & Hp & Hc & Hk & -> & Hd & v & -> & Hv).
  cbn -[negb N.sub N.eqb]. rewrite Hp. cbn -[negb N.sub N.eqb]. rewrite Hc. cbn -[negb N.sub N.eqb].
  unfold own_act. cbn -[negb N.sub N.eqb checking_step]. unfold checking_step. cbn -[N.sub N.eqb]. rewrite Hk.
  destruct (d - now o =? 0)%N eqn:E; [apply N.eqb_eq in E; lia|]. cbn -[N.sub N.eqb].
  unfold own_act. cbn -[N.eqb]. unfold pause_changed. cbn -[N.eqb].
  rewrite (proj2 (N.eqb_neq _ _) Hv). cbn. eexists. split; [done|]. cbn. split_and!; try done. by exists v.
Qed.

(** The last chunk, pushed and closed between the look at the buffer and the look at
    the flag, is left in the buffer. *)
Lemma last_chunk_is_left :
  ∃ x, run (own 2 ++ [Beside (Pushed [1]%N); Beside Announced; Beside Closed; Beside ProcessExited] ++ own 1)
         (collect_start 100 None quiet []) = Some x
  ∧ at_phase (coll x) = Done ∧ collected (coll x) = [] ∧ chunks_held (outs x) = [[1]]%N.
Proof. eexists. vm_compute. done. Qed.
