(* ===== verification/OutputDelta.v ===== *)
(** Output of a running command as events:
    [codex-rs/core/src/unified_exec/async_watcher.rs]. A background task reads
    chunks of bytes, cuts them into deltas of text, keeps them in a transcript
    and sends them to the client; the end of the command carries the
    transcript. Times and the session the events are sent to are left out. *)
From Stdlib Require Import ZifyN Zify ZifyNat.
From S2P Require Import Prelude RustStr Utf8 HeadTailBuffer.

(** * Deltas *)

Definition UNIFIED_EXEC_OUTPUT_DELTA_MAX_BYTES : nat := 8192.
Definition UNIFIED_EXEC_OUTPUT_MAX_BYTES : N := 1024 * 1024.
Definition MAX_EXEC_OUTPUT_DELTAS_PER_CALL : nat := 10000.

(** [std::str::from_utf8(..).is_ok()]. *)
Definition is_utf8 (b : list N) : bool := bool_decide (utf8_error (from_utf8 b) = None).
(** The longest valid prefix of at most [split] bytes, among the last five
    lengths below [max_len]. *)
Fixpoint split_at (buffer : list N) (max_len split : nat) : option nat :=
  match split with
  | 0 => None
  | S split' =>
      if is_utf8 (take split buffer) then Some split
      else if 4 <? max_len - split then None
      else split_at buffer max_len split'
  end.
(** The prefix that is cut off, and the rest of the buffer. *)
Definition split_valid_utf8_prefix_with_max (buffer : list N) (max_bytes : nat) : option (list N * list N) :=
  match buffer with
  | [] => None
  | _ :: _ =>
      let max_len := length buffer `min` max_bytes in
      let split := default 1 (split_at buffer max_len max_len) in
      Some (take split buffer, drop split buffer)
  end.
Definition split_valid_utf8_prefix (buffer : list N) : option (list N * list N) :=
  split_valid_utf8_prefix_with_max buffer UNIFIED_EXEC_OUTPUT_DELTA_MAX_BYTES.

(** The task's state, and the deltas it has sent. *)
Record delta_state : Type := {
  pending : list N; transcript : HeadTailBuffer; emitted_deltas : nat; sent : list (list N) }.
Definition delta_start : delta_state :=
  {| pending := []; transcript := new UNIFIED_EXEC_OUTPUT_MAX_BYTES; emitted_deltas := 0; sent := [] |}.
(** One delta, and what remains to be cut. *)
Definition emit_delta (prefix rest : list N) (st : delta_state) : delta_state :=
  let st := {| pending := rest; transcript := push_chunk prefix (transcript st); emitted_deltas := emitted_deltas st; sent := sent st |} in
  if MAX_EXEC_OUTPUT_DELTAS_PER_CALL <=? emitted_deltas st then st
  else {| pending := pending st; transcript := transcript st; emitted_deltas := S (emitted_deltas st); sent := sent st ++ [prefix] |}.
Fixpoint drain_pending (fuel : nat) (st : delta_state) : outcome Empty_set delta_state :=
  match split_valid_utf8_prefix (pending st) with
  | None => Ok st
  | Some (prefix, rest) =>
      match fuel with
      | 0 => OutOfFuel
      | S fuel => drain_pending fuel (emit_delta prefix rest st)
      end
  end.
Definition process_chunk (chunk : list N) (st : delta_state) : outcome Empty_set delta_state :=
  let buffer := pending st ++ chunk in
  drain_pending (length buffer)
    {| pending := buffer; transcript := transcript st; emitted_deltas := emitted_deltas st; sent := sent st |}.

(** What the task receives from the broadcast channel of the process. The list
    ends when the command has exited and the grace period is over. *)
Inductive received : Type := Chunk (c : list N) | Lagged (missed : N) | Closed.
Fixpoint start_streaming_output (l : list received) (st : delta_state) : outcome Empty_set delta_state :=
  match l with
  | [] | Closed :: _ => Ok st
  | Lagged _ :: l => start_streaming_output l st
  | Chunk c :: l => st ← process_chunk c st; start_streaming_output l st
  end.

(** * The end of a command *)

Record ExecToolCallOutput : Type := { exit_code : Z; stdout : str; stderr : str; aggregated_output : str }.
Definition resolve_aggregated_output (transcript : HeadTailBuffer) (fallback : str) : str :=
  if (retained_bytes transcript =? 0)%N then fallback else from_utf8_lossy (to_bytes transcript).
(** The outputs of [emit_exec_end_for_unified_exec] and of
    [emit_failed_exec_end_for_unified_exec]. *)
Definition exec_end_output (transcript : HeadTailBuffer) (fallback_output : str) (exit_code : Z) : ExecToolCallOutput :=
  let aggregated := resolve_aggregated_output transcript fallback_output in
  {| exit_code := exit_code; stdout := aggregated; stderr := []; aggregated_output := aggregated |}.
Definition failed_exec_end_output (transcript : HeadTailBuffer) (message : str) : ExecToolCallOutput :=
  let out := resolve_aggregated_output transcript [] in
  {| exit_code := -1; stdout := out; stderr := message;
     aggregated_output := match out with [] => message | _ :: _ => out ++ nl :: message end |}.

(** * Lemmas *)

Lemma is_utf8_spec b : is_utf8 b = true ↔ utf8_error (from_utf8 b) = None.
Proof. apply bool_decide_eq_true. Qed.
Lemma is_utf8_app a b : is_utf8 a = true → is_utf8 b = true → is_utf8 (a ++ b) = true.
Proof. rewrite !is_utf8_spec. apply valid_app. Qed.
Lemma is_utf8_concat l : Forall (λ p, is_utf8 p = true) l → is_utf8 (concat l) = true.
Proof. induction 1; [done|]. by apply is_utf8_app. Qed.

Lemma split_at_Some buffer max_len split k : split_at buffer max_len split = Some k → 0 < k ≤ split ∧ is_utf8 (take k buffer) = true.
Proof.
  induction split as [|split IH]; [done|]. cbn [split_at]. destruct (is_utf8 (take (S split) buffer)) eqn:Eu; [intros [= <-]; split; [lia|done]|].
  destruct (4 <? _); [done|]. intros [? ?]%IH. split; [lia|done].
Qed.
Lemma split_at_None buffer max_len split k :
  split_at buffer max_len split = None → 0 < k ≤ split → max_len ≤ k + 5 → split ≤ max_len → is_utf8 (take k buffer) = false.
Proof.
  induction split as [|split IH]; [lia|]. cbn [split_at]. destruct (is_utf8 (take (S split) buffer)) eqn:Eu; [done|]. intros Hn Hk Hm Hs.
  destruct (decide (k = S split)) as [->|Hne]; [done|]. destruct (Nat.ltb_spec 4 (max_len - S split)); [lia|]. apply IH; [done|lia..].
Qed.
(** What is cut off: a part of the buffer, not empty, no longer than allowed,
    and valid, unless it is a single byte; and valid whenever the buffer is. *)
Lemma split_prefix buffer max prefix rest :
  split_valid_utf8_prefix_with_max buffer max = Some (prefix, rest) → 4 ≤ max →
  buffer = prefix ++ rest ∧ 0 < length prefix ≤ max ∧ (is_utf8 prefix = true ∨ length prefix = 1)
  ∧ (is_utf8 buffer = true → is_utf8 prefix = true).
Proof.
  destruct buffer as [|x buffer]; [done|]. unfold split_valid_utf8_prefix_with_max. set (b := x :: buffer). cbv zeta.
  set (max_len := length b `min` max). assert (Hb : 0 < length b) by (subst b; cbn; lia).
  assert (Hml : max_len ≤ length b ∧ max_len ≤ max ∧ (max_len < max → max_len = length b)) by (subst max_len; lia).
  intros [= <- <-] Hmax. split; [by rewrite take_drop|]. destruct (split_at b max_len max_len) as [k|] eqn:Es; cbn [default id].
  - apply split_at_Some in Es as [Hk Hu]. rewrite length_take. split_and!; [lia|lia|by left|done].
  - rewrite length_take. split_and!; [lia|lia|right; lia|]. intros Hv%is_utf8_spec.
    destruct (valid_boundary b max_len Hv) as (k & [Hk1 Hk2] & Hk); [lia|]. apply is_utf8_spec in Hk.
    destruct (decide (k = 0)) as [->|Hne].
    + assert (Hlen : max_len = length b) by lia.
      assert (Hf : is_utf8 (take max_len b) = false) by (eapply split_at_None; [exact Es|lia..]).
      rewrite Hlen, firstn_all in Hf. apply is_utf8_spec in Hv. congruence.
    + assert (Hf : is_utf8 (take k b) = false) by (eapply split_at_None; [exact Es|lia..]). congruence.
Qed.
Lemma split_nonempty buffer max : buffer ≠ [] → is_Some (split_valid_utf8_prefix_with_max buffer max).
Proof. destruct buffer; [done|]. eauto. Qed.

(** What the task has done with the parts its bytes were cut into. *)
Record delta_ok (parts : list (list N)) (st : delta_state) : Prop := {
  delta_transcript : transcript st = foldl (λ b p, push_chunk p b) (new UNIFIED_EXEC_OUTPUT_MAX_BYTES) parts;
  delta_emitted : emitted_deltas st = length (sent st);
  delta_sent : sent st = take MAX_EXEC_OUTPUT_DELTAS_PER_CALL parts }.
Definition part_ok (p : list N) : Prop :=
  0 < length p ≤ UNIFIED_EXEC_OUTPUT_DELTA_MAX_BYTES ∧ (is_utf8 p = true ∨ length p = 1).

Lemma emit_delta_ok parts prefix rest st : delta_ok parts st →
  delta_ok (parts ++ [prefix]) (emit_delta prefix rest st) ∧ pending (emit_delta prefix rest st) = rest.
Proof.
  intros [Ht He Hs]. unfold emit_delta. cbn [transcript emitted_deltas sent pending].
  assert (Hl : length (sent st) = MAX_EXEC_OUTPUT_DELTAS_PER_CALL `min` length parts) by (rewrite Hs; apply length_take).
  destruct (Nat.leb_spec MAX_EXEC_OUTPUT_DELTAS_PER_CALL (emitted_deltas st)); (split; [|done]);
    split; cbn [transcript emitted_deltas sent pending]; rewrite ?Ht, ?foldl_app; try done.
  - rewrite take_app_le by lia. done.
  - rewrite length_app. cbn. lia.
  - rewrite Hs, take_app_ge, (take_ge parts), (take_ge [prefix]) by (cbn [length]; lia). done.
Qed.
Lemma drain_pending_ok fuel : ∀ parts st, length (pending st) ≤ fuel → delta_ok parts st →
  ∃ parts' st', drain_pending fuel st = Ok st' ∧ pending st' = [] ∧ delta_ok (parts ++ parts') st' ∧ concat parts' = pending st
    ∧ Forall part_ok parts' ∧ (is_utf8 (pending st) = true → Forall (λ p, is_utf8 p = true) parts').
Proof.
  assert (Hend : ∀ parts st, pending st = [] → delta_ok parts st →
    ∃ parts' st', @Ok Empty_set _ st = Ok st' ∧ pending st' = [] ∧ delta_ok (parts ++ parts') st' ∧ concat parts' = pending st
      ∧ Forall part_ok parts' ∧ (is_utf8 (pending st) = true → Forall (λ p, is_utf8 p = true) parts')).
  { intros parts st Hp Hok. exists [], st. rewrite app_nil_r. split_and!; try done; by constructor. }
  induction fuel as [|fuel IH]; intros parts st Hl Hok; cbn [drain_pending].
  - assert (Ep : pending st = []) by (destruct (pending st); [done|cbn in Hl; lia]). assert (Es : split_valid_utf8_prefix (pending st) = None) by by rewrite Ep.
    rewrite Es. by apply Hend.
  - unfold split_valid_utf8_prefix. destruct (split_valid_utf8_prefix_with_max (pending st) _) as [[prefix rest]|] eqn:Es.
    2:{ apply Hend; [|done]. destruct (decide (pending st = [])) as [|Hne]; [done|].
        destruct (split_nonempty _ UNIFIED_EXEC_OUTPUT_DELTA_MAX_BYTES Hne); congruence. }
    destruct (split_prefix _ _ _ _ Es) as (Eb & Hlen & Hval & Hvalid); [by apply Nat.leb_le; vm_compute|].
    destruct (emit_delta_ok parts prefix rest st Hok) as [Hok1 Hp1].
    destruct (IH _ _ ltac:(rewrite Hp1; rewrite Eb, length_app in Hl; lia) Hok1) as (parts' & st' & Hd & Hp & Hok' & Hc & Hf & Hu).
    exists (prefix :: parts'), st'. rewrite <-app_assoc in Hok'. split_and!; [done|done|done| |by constructor|].
    + cbn [concat]. by rewrite Hc, Hp1, Eb.
    + intros Hb. pose proof (Hvalid Hb) as Hpre. constructor; [done|]. apply Hu. rewrite Hp1. apply is_utf8_spec.
      apply (valid_rest prefix); [rewrite <-Eb|]; by apply is_utf8_spec.
Qed.
Lemma process_chunk_ok parts chunk st : pending st = [] → delta_ok parts st →
  ∃ parts' st', process_chunk chunk st = Ok st' ∧ pending st' = [] ∧ delta_ok (parts ++ parts') st' ∧ concat parts' = chunk
    ∧ Forall part_ok parts' ∧ (is_utf8 chunk = true → Forall (λ p, is_utf8 p = true) parts').
Proof.
  intros Hp [Ht He Hs]. unfold process_chunk. rewrite Hp. cbn [app].
  apply (drain_pending_ok (length chunk) parts
    {| pending := chunk; transcript := transcript st; emitted_deltas := emitted_deltas st; sent := sent st |}); [done|by split].
Qed.
(** The chunks that are read before the channel closes. *)
Fixpoint chunks_of (l : list received) : list (list N) :=
  match l with
  | [] | Closed :: _ => []
  | Lagged _ :: l => chunks_of l
  | Chunk c :: l => c :: chunks_of l
  end.
Lemma streaming_ok l : ∀ parts st, pending st = [] → delta_ok parts st →
  ∃ parts' st', start_streaming_output l st = Ok st' ∧ pending st' = [] ∧ delta_ok (parts ++ parts') st' ∧ concat parts' = concat (chunks_of l)
    ∧ Forall part_ok parts' ∧ (Forall (λ p, is_utf8 p = true) parts' ↔ Forall (λ c, is_utf8 c = true) (chunks_of l)).
Proof.
  induction l as [|[c|n|] l IH]; intros parts st Hp Hok; cbn [start_streaming_output chunks_of].
  - exists [], st. rewrite app_nil_r. split_and!; try done; by constructor.
  - destruct (process_chunk_ok parts c st Hp Hok) as (p1 & st1 & -> & Hp1 & Hok1 & Hc1 & Hf1 & Hu1). run_bind.
    destruct (IH _ _ Hp1 Hok1) as (p2 & st2 & E2 & Hp2 & Hok2 & Hc2 & Hf2 & Hu2). exists (p1 ++ p2), st2. rewrite app_assoc, concat_app, Hc1, Hc2.
    split_and!; [done|done|done|done|by apply Forall_app|]. rewrite Forall_app, Forall_cons, Hu2. split; [|intros [? ?]; split; auto].
    intros [H1 ?]. split; [|done]. rewrite <-Hc1. by apply is_utf8_concat.
  - by apply IH.
  - exists [], st. rewrite app_nil_r. split_and!; try done; by constructor.
Qed.
Lemma transcript_bytes parts :
  to_bytes (foldl (λ b p, push_chunk p b) (new UNIFIED_EXEC_OUTPUT_MAX_BYTES) parts) = kept UNIFIED_EXEC_OUTPUT_MAX_BYTES (concat parts).
Proof.
  pose proof (run_represents UNIFIED_EXEC_OUTPUT_MAX_BYTES (Push <$> parts)) as Hr.
  assert (E1 : ∀ b, foldl HeadTailBuffer.step b (Push <$> parts) = foldl (λ b p, push_chunk p b) b parts).
  { clear Hr. induction parts as [|p parts IH]; intros b; [done|]. apply IH. }
  assert (E2 : ∀ s, foldl stream_step s (Push <$> parts) = s ++ concat parts).
  { clear. induction parts as [|p parts IH]; intros s; [by rewrite app_nil_r|]. rewrite fmap_cons. cbn [foldl stream_step concat]. by rewrite IH, app_assoc. }
  rewrite E1, E2 in Hr. destruct Hr as [_ _ Hh Ht _ _]; [vm_compute; discriminate|]. unfold to_bytes, kept. by rewrite Hh, Ht.
Qed.

(** * Properties *)

(** Every byte the task reads reaches the transcript, in order; the deltas are
    the same bytes, cut into parts of at most 8192 bytes, each of them valid
    UTF-8 or a single byte, up to the greatest number of deltas; nothing is
    left pending, and the loop ends. *)
Theorem output_deltas_spec l :
  let read := concat (chunks_of l) in
  ∃ st parts, start_streaming_output l delta_start = Ok st ∧ pending st = []
    ∧ to_bytes (transcript st) = kept UNIFIED_EXEC_OUTPUT_MAX_BYTES read
    ∧ concat parts = read ∧ sent st = take MAX_EXEC_OUTPUT_DELTAS_PER_CALL parts
    ∧ Forall (λ p, 0 < length p ≤ UNIFIED_EXEC_OUTPUT_DELTA_MAX_BYTES ∧ (is_utf8 p = true ∨ length p = 1)) parts
    ∧ (Forall (λ p, is_utf8 p = true) parts ↔ Forall (λ c, is_utf8 c = true) (chunks_of l)).
Proof.
  intros read. destruct (streaming_ok l [] delta_start) as (parts & st & E & Hp & [Ht _ Hs] & Hc & Hf & Hu); [done|done|].
  exists st, parts. split_and!; try done. rewrite Ht. cbn [app]. rewrite transcript_bytes. unfold read. by rewrite Hc.
Qed.

(** A character that two chunks share reaches the events in pieces: the bytes
    a chunk ends with are sent at once, although they begin a character, and
    the delta they make is not valid. *)
Theorem cut_character_is_sent_in_pieces l s c :
  concat (chunks_of l) = encode_utf8 s → c ∈ chunks_of l → is_utf8 c = false →
  length (encode_utf8 s) ≤ MAX_EXEC_OUTPUT_DELTAS_PER_CALL →
  ∃ st p, start_streaming_output l delta_start = Ok st ∧ p ∈ sent st ∧ is_utf8 p = false ∧ length p = 1.
Proof.
  intros Hc Hin Hbad Hlen. destruct (streaming_ok l [] delta_start) as (parts & st & E & _ & [_ _ Hs] & Hcat & Hf & Hu); [done|done|].
  assert (Hall : length parts ≤ length (concat parts)).
  { clear -Hf. induction Hf as [|p parts [? _] _ IH]; cbn [concat length]; [lia|]. rewrite length_app. lia. }
  rewrite Hcat, Hc in Hall. cbn [app] in Hs. rewrite take_ge in Hs by lia.
  assert (Hex : Exists (λ p, is_utf8 p ≠ true) parts).
  { apply not_Forall_Exists; [intros p; apply _|]. rewrite Hu, Forall_forall. intros Hv. specialize (Hv c Hin). congruence. }
  apply Exists_exists in Hex as (p & Hp & Hn%not_true_is_false). exists st, p. rewrite Hs. split_and!; [done..|].
  rewrite Forall_forall in Hf. destruct (Hf p Hp) as [_ [?|?]]; [congruence|done].
Qed.

(** * Witness *)

(** The two bytes of "é" in two chunks. *)
Lemma cut_character_is_sent_in_pieces_witness :
  ∃ st p, start_streaming_output [Chunk [0x61; 0xC3]; Chunk [0xA9; 0x62]]%N delta_start = Ok st
    ∧ p ∈ sent st ∧ is_utf8 p = false ∧ length p = 1.
Proof.
  apply (cut_character_is_sent_in_pieces _ [0x61; 0xE9; 0x62]%N [0x61; 0xC3]%N).
  - vm_compute. reflexivity.
  - apply list_elem_of_here.
  - vm_compute. reflexivity.
  - apply Nat.leb_le. vm_compute. reflexivity.
Defined.
Example deltas_of_cut_character :
  sent <$> (match start_streaming_output [Chunk [0x61; 0xC3]; Lagged 2; Chunk [0xA9; 0x62]; Closed; Chunk [0x63]]%N delta_start with
            | Ok st => Some st | _ => None end) = Some [[0x61]; [0xC3]; [0xA9]; [0x62]]%N.
Proof. vm_compute. reflexivity. Qed.
