(* ===== verification/UnifiedExec.v ===== *)
(** The store of running processes: [codex-rs/core/src/unified_exec] (mod.rs,
    process_state.rs, process_manager.rs and the state of process.rs). Calls of
    [exec_command] and [write_stdin] and the termination of all processes are
    tasks that share the store; a step of a task is what it does between two
    waits. A task that is interrupted stops where it waits. What the tasks and
    the store hold is followed in ExecTasks; collecting output is one step here, and
    CollectOutput is its loop. *)
From stdpp Require Import gmap relations sorting.
From S2P Require Import Prelude RustStr Safety OutputDelta.

#[export] Instance SandboxType_eq_dec : EqDecision SandboxType.
Proof. solve_decision. Defined.

(** Opens a move: the matches of its body, each with its equation. *)
Ltac move_cases H :=
  repeat lazymatch type of H with
    | None = Some _ => discriminate H
    | Some _ = Some _ => injection H as <- <-
    | _ ≫= _ = _ => apply bind_Some in H as (? & ? & H)
    | context [match ?x with _ => _ end] => destruct x eqn:?
    end.
Create HintDb wf.
Create HintDb evolve.

(** * Limits *)

Definition MIN_YIELD_TIME_MS : N := 250.
Definition MIN_EMPTY_YIELD_TIME_MS : N := 5000.
Definition MAX_YIELD_TIME_MS : N := 30000.
Definition DEFAULT_MAX_BACKGROUND_TERMINAL_TIMEOUT_MS : N := 300000.
Definition MAX_UNIFIED_EXEC_PROCESSES : nat := 64.

(** [Ord::clamp], which panics on an empty range. *)
Definition clamp (x lo hi : N) : outcome Empty_set N := if (lo <=? hi)%N then Ok (N.max lo (N.min x hi)) else Panic.
Definition clamp_yield_time (yield_time_ms : N) : outcome Empty_set N := clamp yield_time_ms MIN_YIELD_TIME_MS MAX_YIELD_TIME_MS.
(** [UnifiedExecProcessManager::new]: the bound that is kept. *)
Definition max_write_stdin_yield_time_ms (configured : N) : N := N.max configured MIN_EMPTY_YIELD_TIME_MS.
Definition write_stdin_yield_time (max_yield_time_ms : N) (input : str) (yield_time_ms : N) : outcome Empty_set N :=
  let time_ms := N.max yield_time_ms MIN_YIELD_TIME_MS in
  match input with
  | [] => clamp time_ms MIN_EMPTY_YIELD_TIME_MS max_yield_time_ms
  | _ :: _ => Ok (N.min time_ms MAX_YIELD_TIME_MS)
  end.

(** * Processes *)

Record ProcessState : Type := { state_exited : bool; state_exit_code : option Z; state_failure : option str }.
Definition process_state_default : ProcessState := {| state_exited := false; state_exit_code := None; state_failure := None |}.
Definition exited (exit_code : option Z) (s : ProcessState) : ProcessState :=
  {| state_exited := true; state_exit_code := exit_code; state_failure := state_failure s |}.
Definition failed (message : str) (s : ProcessState) : ProcessState :=
  {| state_exited := true; state_exit_code := state_exit_code s; state_failure := Some message |}.

(** The handle of a local process knows of its exit by itself. *)
Inductive ProcessHandle : Type := Local (handle_exited : bool) (handle_exit_code : option Z) | Remote.
Record UnifiedExecProcess : Type := {
  process_handle : ProcessHandle; process_state : ProcessState; sandbox_type : SandboxType; terminated : bool }.
Definition has_exited (p : UnifiedExecProcess) : bool :=
  match process_handle p with
  | Local handle_exited _ => state_exited (process_state p) || handle_exited
  | Remote => state_exited (process_state p)
  end.
Definition process_exit_code (p : UnifiedExecProcess) : option Z :=
  match process_handle p with
  | Local _ handle_exit_code => match state_exit_code (process_state p) with Some c => Some c | None => handle_exit_code end
  | Remote => state_exit_code (process_state p)
  end.
Definition failure_message (p : UnifiedExecProcess) : option str := state_failure (process_state p).
Definition terminate (p : UnifiedExecProcess) : UnifiedExecProcess :=
  {| process_handle := process_handle p; process_state := process_state p; sandbox_type := sandbox_type p; terminated := true |}.
Definition with_state (f : ProcessState → ProcessState) (p : UnifiedExecProcess) : UnifiedExecProcess :=
  {| process_handle := process_handle p; process_state := f (process_state p); sandbox_type := sandbox_type p; terminated := terminated p |}.
Definition handle_exits (code : option Z) (p : UnifiedExecProcess) : UnifiedExecProcess :=
  {| process_handle := match process_handle p with Local _ _ => Local true code | Remote => Remote end;
     process_state := process_state p; sandbox_type := sandbox_type p; terminated := terminated p |}.
(** A process that nobody has stopped and that has not ended. *)
Definition live (p : UnifiedExecProcess) : Prop := terminated p = false ∧ has_exited p = false.

(** * The store *)

(** [entry_process] is the index of the shared process, [entry_registration] its
    registration for network approvals; times count the steps of a clock. *)
Record ProcessEntry : Type := {
  entry_process : nat; entry_id : Z; entry_tty : bool; entry_registration : option str; last_used : nat }.
Record ProcessStore : Type := { processes : gmap Z ProcessEntry; reserved_process_ids : gset Z }.
Definition store_default : ProcessStore := {| processes := ∅; reserved_process_ids := ∅ |}.
Definition store_remove (id : Z) (s : ProcessStore) : ProcessStore :=
  {| processes := delete id (processes s); reserved_process_ids := reserved_process_ids s ∖ {[id]} |}.
Definition reserve (id : Z) (s : ProcessStore) : ProcessStore :=
  {| processes := processes s; reserved_process_ids := {[id]} ∪ reserved_process_ids s |}.
(** [allocate_process_id], given what the generator of random numbers draws;
    [None] while every draw is reserved. *)
Fixpoint allocate_process_id (draws : list Z) (s : ProcessStore) : option (Z * ProcessStore) :=
  match draws with
  | [] => None
  | process_id :: draws =>
      if bool_decide (process_id ∈ reserved_process_ids s) then allocate_process_id draws s
      else Some (process_id, reserve process_id s)
  end.

(** The entries a prune chooses from: id, last use, and whether it has exited. *)
Definition prune_meta : Type := Z * nat * bool.
Definition meta_id (m : prune_meta) : Z := m.1.1.
Definition meta_used (m : prune_meta) : nat := m.1.2.
Definition meta_exited (m : prune_meta) : bool := m.2.
(** [sort_by_key] with [Reverse] keys. *)
Fixpoint insert_recent (x : prune_meta) (l : list prune_meta) : list prune_meta :=
  match l with
  | [] => [x]
  | y :: l' => if meta_used y <=? meta_used x then x :: l else y :: insert_recent x l'
  end.
Definition sort_by_recency (l : list prune_meta) : list prune_meta := foldr insert_recent [] l.
Definition process_id_to_prune_from_meta (meta : list prune_meta) : option Z :=
  match meta with
  | [] => None
  | _ :: _ =>
      let protected := meta_id <$> take 8 (sort_by_recency meta) in
      let lru := sort_by_key meta_used meta in
      let open m := negb (bool_decide (meta_id m ∈ protected)) in
      match List.find (λ m, open m && meta_exited m) lru with
      | Some m => Some (meta_id m)
      | None => meta_id <$> List.find open lru
      end
  end.
(** What the prune sees of an entry. *)
Definition entry_meta (procs : list UnifiedExecProcess) (e : Z * ProcessEntry) : prune_meta :=
  (e.1, last_used e.2, bool_decide (has_exited <$> procs !! entry_process e.2 = Some true)).
(** [iteration] lists the entries in the order the map iterates. *)
Definition prune_processes_if_needed (procs : list UnifiedExecProcess) (iteration : list (Z * ProcessEntry)) (s : ProcessStore)
    : option ProcessEntry * ProcessStore :=
  if size (processes s) <? MAX_UNIFIED_EXEC_PROCESSES then (None, s)
  else
    match process_id_to_prune_from_meta (entry_meta procs <$> iteration) with
    | Some id => (processes s !! id, store_remove id s)
    | None => (None, s)
    end.

(** [refresh_process_state]: an entry whose process has ended is removed. *)
Inductive ProcessStatus : Type := Alive (exit_code : option Z) (id : Z) | Exited (exit_code : option Z) (entry : ProcessEntry) | Unknown.
Definition refresh_process_state (procs : list UnifiedExecProcess) (id : Z) (s : ProcessStore) : ProcessStatus * ProcessStore :=
  match processes s !! id with
  | None => (Unknown, s)
  | Some entry =>
      match procs !! entry_process entry with
      | None => (Unknown, s)
      | Some p =>
          if has_exited p then
            match processes s !! entry_id entry with
            | None => (Unknown, store_remove (entry_id entry) s)
            | Some entry' => (Exited (process_exit_code p) entry', store_remove (entry_id entry) s)
            end
          else (Alive (process_exit_code p) (entry_id entry), s)
      end
  end.
(** [prepare_process_handles]: the entry, used now. *)
Definition touch (now : nat) (e : ProcessEntry) : ProcessEntry :=
  {| entry_process := entry_process e; entry_id := entry_id e; entry_tty := entry_tty e; entry_registration := entry_registration e; last_used := now |}.
Definition prepare_process_handles (now : nat) (id : Z) (s : ProcessStore) : option (ProcessEntry * ProcessStore) :=
  (λ e, (touch now e, {| processes := <[id := touch now e]> (processes s); reserved_process_ids := reserved_process_ids s |}))
    <$> processes s !! id.

(** * Denials of the sandbox *)

Section exec.
(** [str::to_lowercase]. *)
Context (to_lowercase : str → str).

Definition SANDBOX_DENIED_KEYWORDS : list str :=
  map lit ["operation not permitted"; "permission denied"; "read-only file system"; "seccomp"; "sandbox"; "landlock"; "failed to write file"]%string.
Definition QUICK_REJECT_EXIT_CODES : list Z := [2; 126; 127]%Z.
(** 128 and the number of the signal [SIGSYS]. *)
Definition SIGSYS_EXIT_CODE : Z := 128 + 31.
Definition is_likely_sandbox_denied (sandbox : SandboxType) (o : ExecToolCallOutput) : bool :=
  if bool_decide (sandbox = SandboxNone) || bool_decide (exit_code o = 0%Z) then false
  else if existsb (λ section, existsb (λ needle, contains needle (to_lowercase section)) SANDBOX_DENIED_KEYWORDS)
            [stderr o; stdout o; aggregated_output o] then true
  else if bool_decide (exit_code o ∈ QUICK_REJECT_EXIT_CODES) then false
  else bool_decide (sandbox = LinuxSeccomp) && bool_decide (exit_code o = SIGSYS_EXIT_CODE).
(** [check_for_sandbox_denial_with_text]: whether it fails. *)
Definition check_for_sandbox_denial_with_text (p : UnifiedExecProcess) (text : str) : bool :=
  if bool_decide (sandbox_type p = SandboxNone) || negb (has_exited p) then false
  else is_likely_sandbox_denied (sandbox_type p)
         {| exit_code := default (-1)%Z (process_exit_code p); stdout := []; stderr := text; aggregated_output := text |}.

(** * Tasks *)

(** How the handler of [exec_command] goes on once it has an id. *)
Inductive prepared : Type := InvalidCommand | PermissionsRefused | PatchFailed | PatchApplied | CommandReady.
Inductive call_result : Type :=
| CallRejected | CallPatched | CreateProcessFailed | ProcessFailed (message : str) | UnknownProcessId (id : Z)
| StdinClosed | WriteToStdin | DeniedBySandbox | StillRunning (id : Z) (exit_code : option Z) | HasEnded (exit_code : option Z) | AllTerminated.
Inductive stage : Type :=
| Allocate | Prepare (id : Z) | Opening (id : Z)
| Opened (id : Z) (p : nat) (tty : bool) (reg : option str) (started : nat)
| Collect (id : Z) (p : nat) (reg : option str) (process_started_alive : bool)
| Refresh (id : Z) (p : nat) (text : str)
| CheckDenial (p : nat) (text : str) (exit_code : option Z)
| Lookup (id : Z) (input : str) | Write (id : Z) (p : nat)
| RefreshAfterWrite (id : Z) (p : nat) (failure : option str)
| KillWritten (id : Z) (p : nat) (message : str)
| Poll (id : Z) (p : nat) (status_after_write : option call_result)
| RefreshPolled (id : Z)
| TerminateAll
| Release (id : Z) (k : stage) | Unregister (reg : option str) (k : stage) | Terminate (p : nat) (k : stage)
| Finished (r : call_result)
| Dropped.

(** What the tasks share. [registered] are the ids of deferred network
    approvals; [given] records the process ids that were ever given. *)
Record shared : Type := {
  store : ProcessStore; procs : list UnifiedExecProcess; registered : gset str; clock : nat; given : list Z }.
Definition with_store (st : ProcessStore) (s : shared) : shared :=
  {| store := st; procs := procs s; registered := registered s; clock := clock s; given := given s |}.
Definition with_procs (l : list UnifiedExecProcess) (s : shared) : shared :=
  {| store := store s; procs := l; registered := registered s; clock := clock s; given := given s |}.
Definition with_registered (r : gset str) (s : shared) : shared :=
  {| store := store s; procs := procs s; registered := r; clock := clock s; given := given s |}.

(** What a step depends on beside the shared state. *)
Inductive write_outcome : Type := Written | WriteRefused | WriteFailed (message : str).
Record choice : Type := {
  draws : list Z; preparation : prepared; opening : option (UnifiedExecProcess * bool * option str); output : str;
  iteration : list (Z * ProcessEntry); write_result : write_outcome }.

Definition after_prepare (id : Z) (r : prepared) : stage :=
  match r with
  | InvalidCommand | PatchFailed => Finished CallRejected
  | PermissionsRefused => Release id (Finished CallRejected)
  | PatchApplied => Release id (Finished CallPatched)
  | CommandReady => Opening id
  end.
(** [store_process]. *)
Definition store_process (c : choice) (id : Z) (p : nat) (tty : bool) (reg : option str) (started : nat) (s : shared)
    : option ProcessEntry * ProcessStore :=
  let '(pruned, st) := prune_processes_if_needed (procs s) (iteration c) (store s) in
  let entry := {| entry_process := p; entry_id := id; entry_tty := tty; entry_registration := reg; last_used := started |} in
  (pruned, {| processes := <[id := entry]> (processes st); reserved_process_ids := reserved_process_ids st |}).
Definition end_entry (e : ProcessEntry) (k : stage) : stage := Unregister (entry_registration e) (Terminate (entry_process e) k).
(** [release_process_id]: the approval of the removed entry is unregistered after the store is unlocked. *)
Definition release_process_id (id : Z) (k : stage) (s : shared) : stage * shared :=
  (match processes (store s) !! id with Some e => Unregister (entry_registration e) k | None => k end, with_store (store_remove id (store s)) s).
Definition unregister_network_approval_for_entry (reg : option str) (s : shared) : shared :=
  with_registered (match reg with Some r => registered s ∖ {[r]} | None => registered s end) s.
(** [terminate_all_processes]: the entries are ended after the store is emptied. *)
Definition terminate_all_processes (c : choice) (s : shared) : stage * shared :=
  (foldr (λ e, end_entry e.2) (Finished AllTerminated) (iteration c), with_store store_default s).
Definition is_alive (p : UnifiedExecProcess) : bool := negb (has_exited p) && bool_decide (process_exit_code p = None).

(** One step of a task; [None] if it has ended, or the choice does not fit. *)
Definition move (c : choice) (st : stage) (s : shared) : option (stage * shared) :=
  match st with
  | Allocate =>
      '(id, store') ← allocate_process_id (draws c) (store s);
      Some (Prepare id, {| store := store'; procs := procs s; registered := registered s; clock := clock s; given := given s ++ [id] |})
  | Prepare id => Some (after_prepare id (preparation c), s)
  | Opening id =>
      match opening c with
      | None => Some (Release id (Finished CreateProcessFailed), s)
      | Some (p, tty, reg) =>
          Some (Opened id (length (procs s)) tty reg (clock s),
                with_registered (match reg with Some r => {[r]} ∪ registered s | None => registered s end) (with_procs (procs s ++ [p]) s))
      end
  | Opened id p tty reg started =>
      proc ← procs s !! p;
      if is_alive proc then
        let '(pruned, store') := store_process c id p tty reg started s in
        let k := Collect id p reg true in
        Some (match pruned with Some e => end_entry e k | None => k end, with_store store' s)
      else Some (Collect id p reg false, s)
  | Collect id p reg alive =>
      proc ← procs s !! p;
      Some (match failure_message proc with
            | Some message => Release id (Unregister reg (Finished (ProcessFailed message)))
            | None => if alive then Refresh id p (output c)
                      else Release id (Unregister reg (CheckDenial p (output c) (process_exit_code proc)))
            end, s)
  | Refresh id p text =>
      let '(status, store') := refresh_process_state (procs s) id (store s) in
      Some (match status with
            | Alive code id' => Finished (StillRunning id' code)
            | Exited code e => Unregister (entry_registration e) (CheckDenial p text code)
            | Unknown => Finished (UnknownProcessId id)
            end, with_store store' s)
  | CheckDenial p text code =>
      proc ← procs s !! p;
      Some (Terminate p (Finished (if check_for_sandbox_denial_with_text proc text then DeniedBySandbox else HasEnded code)), s)
  | Lookup id input =>
      match prepare_process_handles (clock s) id (store s) with
      | None => Some (Finished (UnknownProcessId id), s)
      | Some (e, store') =>
          Some (match input with
                | [] => Poll (entry_id e) (entry_process e) None
                | _ :: _ => if entry_tty e then Write (entry_id e) (entry_process e) else Finished StdinClosed
                end, with_store store' s)
      end
  | Write id p =>
      Some (match write_result c with
            | Written => Poll id p None
            | WriteRefused => RefreshAfterWrite id p None
            | WriteFailed message => RefreshAfterWrite id p (Some message)
            end, s)
  | RefreshAfterWrite id p failure =>
      let '(status, store') := refresh_process_state (procs s) id (store s) in
      Some (match status, failure with
            | Exited code e, _ => Unregister (entry_registration e) (Poll id p (Some (HasEnded code)))
            | _, Some message => KillWritten id p message
            | _, None => Finished WriteToStdin
            end, with_store store' s)
  | KillWritten id p message => Some (Release id (Finished (ProcessFailed message)), with_procs (alter terminate p (procs s)) s)
  | Poll id p status =>
      proc ← procs s !! p;
      Some (match failure_message proc with
            | Some message => Release id (Finished (ProcessFailed message))
            | None => match status with Some r => Finished r | None => RefreshPolled id end
            end, s)
  | RefreshPolled id =>
      let '(status, store') := refresh_process_state (procs s) id (store s) in
      Some (match status with
            | Alive code id' => Finished (StillRunning id' code)
            | Exited code e => Unregister (entry_registration e) (Finished (HasEnded code))
            | Unknown => Finished (UnknownProcessId id)
            end, with_store store' s)
  | TerminateAll => Some (terminate_all_processes c s)
  | Release id k => Some (release_process_id id k s)
  | Unregister reg k => Some (k, unregister_network_approval_for_entry reg s)
  | Terminate p k => Some (k, with_procs (alter terminate p (procs s)) s)
  | Finished _ | Dropped => None
  end.

(** * Runs *)

Record world : Type := { world_shared : shared; tasks : list stage }.
Definition initial : world :=
  {| world_shared := {| store := store_default; procs := []; registered := ∅; clock := 0; given := [] |}; tasks := [] |}.
Definition with_shared (s : shared) (w : world) : world := {| world_shared := s; tasks := tasks w |}.
Definition set_task (i : nat) (st : stage) (s : shared) (w : world) : world := {| world_shared := s; tasks := <[i := st]> (tasks w) |}.
(** The handlers and the session start these. *)
Inductive call : Type := ExecCommand | WriteStdin (id : Z) (input : str) | TerminateAllProcesses.
Definition first_stage (c : call) : stage :=
  match c with ExecCommand => Allocate | WriteStdin id input => Lookup id input | TerminateAllProcesses => TerminateAll end.
(** The processes that end with the task, which holds their only handle: those
    that are stored are held by their exit watchers too. *)
Fixpoint held (st : stage) : list nat :=
  match st with
  | Opened _ p _ _ _ | Collect _ p _ false | CheckDenial p _ _ => [p]
  | Release _ k | Unregister _ k => held k
  | _ => []
  end.
Inductive process_event : Type := StateExits (code : option Z) | StateFails (message : str) | HandleExits (code : option Z).
Definition process_step (e : process_event) : UnifiedExecProcess → UnifiedExecProcess :=
  match e with
  | StateExits code => with_state (exited code)
  | StateFails message => with_state (failed message)
  | HandleExits code => handle_exits code
  end.
Inductive event : Type := Starts (c : call) | Moves (i : nat) (c : choice) | Happens (p : nat) (e : process_event) | Ticks | Interrupted (i : nat).
Definition perform (e : event) (w : world) : option world :=
  let s := world_shared w in
  match e with
  | Starts c => Some {| world_shared := s; tasks := tasks w ++ [first_stage c] |}
  | Moves i c => st ← tasks w !! i; '(st', s') ← move c st s; Some (set_task i st' s' w)
  | Happens p e => Some (with_shared (with_procs (alter (process_step e) p (procs s)) s) w)
  | Ticks => Some (with_shared {| store := store s; procs := procs s; registered := registered s; clock := S (clock s); given := given s |} w)
  | Interrupted i =>
      st ← tasks w !! i;
      Some (set_task i Dropped (with_procs (foldr (λ p, alter terminate p) (procs s) (held st)) s) w)
  end.
(** Choices that can be made: the iteration is that of the store, and a process
    that is opened runs, or its failure is known. *)
Definition failure_is_exit (p : UnifiedExecProcess) : Prop := failure_message p ≠ None → has_exited p = true.
Definition choice_fits (s : shared) (c : choice) : Prop :=
  iteration c ≡ₚ map_to_list (processes (store s)) ∧ Forall (λ id, 1000 ≤ id < 100000)%Z (draws c) ∧
  match opening c with Some (p, _, _) => failure_is_exit p | None => True end.
Definition possible (w : world) (e : event) : Prop :=
  match e with Moves _ c => choice_fits (world_shared w) c | _ => True end.
Definition step (P : world → event → Prop) (w w' : world) : Prop := ∃ e, possible w e ∧ P w e ∧ perform e w = Some w'.
Definition perform_all (es : list event) (w : world) : option world := foldl (λ w e, w ≫= perform e) (Some w) es.

(** * Pruning *)

Lemma insert_recent_perm x l : insert_recent x l ≡ₚ x :: l.
Proof.
  induction l as [|y l IH]; cbn; [done|]. case_match; [done|].
  by rewrite IH, Permutation_swap.
Qed.
Lemma sort_by_recency_perm l : sort_by_recency l ≡ₚ l.
Proof. induction l as [|x l IH]; cbn; [done|]. by rewrite insert_recent_perm, IH. Qed.
Definition no_newer (a b : prune_meta) : Prop := meta_used b ≤ meta_used a.
#[local] Instance no_newer_trans : Transitive no_newer.
Proof. intros a b c. unfold no_newer. lia. Qed.
Lemma insert_recent_sorted x l : StronglySorted no_newer l → StronglySorted no_newer (insert_recent x l).
Proof.
  induction 1 as [|y l Hl IH Hy]; cbn; [repeat constructor|]. case_match eqn:E.
  - apply Nat.leb_le in E. repeat constructor; [done..|]. eapply Forall_impl; [done|]. intros z Hz. by trans y.
  - apply Nat.leb_gt in E. constructor; [done|]. apply Forall_forall. intros z Hz. rewrite insert_recent_perm in Hz.
    apply elem_of_cons in Hz as [->|Hz]; [unfold no_newer; lia|]. by apply (proj1 (Forall_forall _ _) Hy).
Qed.
Lemma sort_by_recency_sorted l : StronglySorted no_newer (sort_by_recency l).
Proof. induction l; cbn; [constructor|by apply insert_recent_sorted]. Qed.

Lemma find_sorted {A} (R : relation A) (f : A → bool) l m :
  StronglySorted R l → List.find f l = Some m → m ∈ l ∧ f m = true ∧ ∀ b, b ∈ l → f b = true → b = m ∨ R m b.
Proof.
  induction 1 as [|y l Hl IH Hy]; cbn; [done|]. destruct (f y) eqn:Ey; [intros [= ->]|intros Hf].
  - split_and!; [left|done|]. intros b [->|Hb]%elem_of_cons _; [by left|right]. by apply (proj1 (Forall_forall _ _) Hy).
  - destruct (IH Hf) as (?&?&Hmin). split_and!; [by right|done|].
    intros b [->|Hb]%elem_of_cons Hfb; [congruence|by apply Hmin].
Qed.
Lemma find_none_iff {A} (f : A → bool) l : List.find f l = None ↔ ∀ b, b ∈ l → f b = false.
Proof.
  induction l as [|y l IH]; cbn; [split; [by intros _ b ?%elem_of_nil|done]|]. destruct (f y) eqn:Ey.
  - split; [done|]. intros H. specialize (H y (list_elem_of_here _ _)). congruence.
  - rewrite IH. split; [intros H b [->|Hb]%elem_of_cons; auto|]. intros H b Hb. apply H. by right.
Qed.

(** The entries that may go: all but the eight used last. *)
Definition unprotected (meta : list prune_meta) : list prune_meta := drop 8 (sort_by_recency meta).
Lemma unprotected_perm meta : meta ≡ₚ take 8 (sort_by_recency meta) ++ unprotected meta.
Proof. unfold unprotected. by rewrite take_drop, sort_by_recency_perm. Qed.
Lemma unprotected_length meta : length (unprotected meta) = length meta - 8.
Proof. unfold unprotected. by rewrite length_drop, sort_by_recency_perm. Qed.
Lemma open_unprotected meta m :
  NoDup (meta_id <$> meta) → m ∈ meta →
  negb (bool_decide (meta_id m ∈ meta_id <$> take 8 (sort_by_recency meta))) = true ↔ m ∈ unprotected meta.
Proof.
  intros Hnd Hm. rewrite unprotected_perm, fmap_app, NoDup_app in Hnd. destruct Hnd as (_ & Hd & _).
  rewrite negb_true_iff, bool_decide_eq_false. split.
  - intros Hn. rewrite unprotected_perm in Hm. apply elem_of_app in Hm as [Hm|Hm]; [|done].
    destruct Hn. by apply list_elem_of_fmap_2.
  - intros Hr Hp. apply (Hd _ Hp). by apply list_elem_of_fmap_2.
Qed.
Definition better (m b : prune_meta) : Prop :=
  (meta_exited b = true → meta_exited m = true) ∧ (meta_exited b = meta_exited m → meta_used m ≤ meta_used b).
Lemma prune_choice meta :
  NoDup (meta_id <$> meta) →
  match process_id_to_prune_from_meta meta with
  | None => unprotected meta = []
  | Some id => ∃ m, m ∈ unprotected meta ∧ meta_id m = id ∧ ∀ b, b ∈ unprotected meta → better m b
  end.
Proof.
  intros Hnd. destruct meta as [|m0 meta0] eqn:Em; [done|]. rewrite <- Em in *.
  replace (process_id_to_prune_from_meta meta) with (process_id_to_prune_from_meta (m0 :: meta0)) by by subst meta.
  cbn [process_id_to_prune_from_meta]. rewrite <- Em. clear Em m0 meta0.
  set (open := λ m, negb (bool_decide (meta_id m ∈ meta_id <$> take 8 (sort_by_recency meta)))).
  pose proof (sort_by_key_sorted meta_used meta) as Hs.
  assert (Hopen : ∀ m, m ∈ sort_by_key meta_used meta → open m = true ↔ m ∈ unprotected meta).
  { intros m Hm. rewrite sort_by_key_perm in Hm. by apply open_unprotected. }
  assert (Hin : ∀ m, m ∈ unprotected meta → m ∈ sort_by_key meta_used meta).
  { intros m Hm. rewrite sort_by_key_perm, unprotected_perm. set_solver. }
  destruct (List.find _ _) as [m|] eqn:E1.
  - destruct (find_sorted _ _ _ _ Hs E1) as (Hm & [Ho He]%andb_true_iff & Hmin).
    exists m. split_and!; [by apply Hopen|done|]. intros b Hb. split; [done|]. intros Hx.
    destruct (Hmin b) as [->|]; [auto|apply andb_true_iff; split; [by apply Hopen; auto|congruence]|lia|done].
  - destruct (List.find open _) as [m|] eqn:E2; cbn.
    + destruct (find_sorted _ _ _ _ Hs E2) as (Hm & Ho & Hmin).
      assert (Hnone : ∀ b, b ∈ unprotected meta → meta_exited b = false).
      { intros b Hb. destruct (meta_exited b) eqn:Eb; [|done]. pose proof (proj1 (find_none_iff _ _) E1 b (Hin b Hb)) as Hf.
        change (open b && meta_exited b = false) in Hf. rewrite Eb, andb_true_r in Hf. apply Hopen in Hb; [congruence|auto]. }
      exists m. split_and!; [by apply Hopen|done|]. intros b Hb. split; [rewrite Hnone by done; done|]. intros _.
      destruct (Hmin b) as [->|]; [auto|by apply Hopen; auto|lia|done].
    + destruct (unprotected meta) as [|b l] eqn:Eu; [done|].
      pose proof (Hin b (list_elem_of_here _ _)) as Hb. pose proof (proj1 (find_none_iff _ _) E2 b Hb) as Hf.
      by rewrite (proj2 (Hopen b Hb) (list_elem_of_here _ _)) in Hf.
Qed.

Lemma entry_meta_ids procs l : meta_id <$> (entry_meta procs <$> l) = l.*1.
Proof. rewrite <- list_fmap_compose. by apply list_fmap_ext. Qed.
Lemma iteration_ids (m : gmap Z ProcessEntry) l : l ≡ₚ map_to_list m → NoDup l.*1.
Proof. intros ->. apply NoDup_fst_map_to_list. Qed.
Lemma iteration_lookup (m : gmap Z ProcessEntry) l id e : l ≡ₚ map_to_list m → (id, e) ∈ l ↔ m !! id = Some e.
Proof. intros ->. by rewrite elem_of_map_to_list. Qed.
Lemma iteration_length (m : gmap Z ProcessEntry) l : l ≡ₚ map_to_list m → length l = size m.
Proof. intros ->. apply length_map_to_list. Qed.

Lemma prune_processes_cases procs l s r :
  l ≡ₚ map_to_list (processes s) → size (processes s) ≤ MAX_UNIFIED_EXEC_PROCESSES → prune_processes_if_needed procs l s = r →
  (r = (None, s) ∧ size (processes s) < MAX_UNIFIED_EXEC_PROCESSES) ∨
  ∃ id e, processes s !! id = Some e ∧ r = (Some e, store_remove id s) ∧ size (processes s) = MAX_UNIFIED_EXEC_PROCESSES ∧
    entry_meta procs (id, e) ∈ unprotected (entry_meta procs <$> l) ∧
    ∀ b, b ∈ unprotected (entry_meta procs <$> l) → better (entry_meta procs (id, e)) b.
Proof.
  intros Hl Hsize <-. unfold prune_processes_if_needed. destruct (_ <? _) eqn:E; [left; split; [done|by apply Nat.ltb_lt]|right].
  apply Nat.ltb_ge in E.
  pose proof (iteration_ids _ _ Hl) as Hnd. rewrite <- (entry_meta_ids procs) in Hnd. pose proof (prune_choice _ Hnd) as Hp.
  destruct (process_id_to_prune_from_meta _) as [id|].
  - destruct Hp as (m & Hm & <- & Hbest). assert (Hm' : m ∈ entry_meta procs <$> l) by (rewrite unprotected_perm; set_solver).
    apply list_elem_of_fmap in Hm' as ([id e] & -> & Hie). apply (iteration_lookup _ _ _ _ Hl) in Hie.
    exists id, e. split_and!; [done| |lia|done|done]. cbn. by rewrite Hie.
  - apply (f_equal length) in Hp. rewrite unprotected_length, length_fmap, (iteration_length _ _ Hl) in Hp.
    unfold MAX_UNIFIED_EXEC_PROCESSES in *. cbn [length] in Hp. lia.
Qed.

(** * The store stays bounded *)

Definition entry_fits (procs : list UnifiedExecProcess) (id : Z) (e : ProcessEntry) : Prop :=
  entry_id e = id ∧ entry_process e < length procs.
Record shared_wf (s : shared) : Prop := {
  wf_entries : map_Forall (entry_fits (procs s)) (processes (store s));
  wf_given : Forall (λ id, 1000 ≤ id < 100000)%Z (given s);
  wf_failures : Forall failure_is_exit (procs s);
  wf_size : size (processes (store s)) ≤ MAX_UNIFIED_EXEC_PROCESSES }.

Lemma size_store_remove id s : size (processes (store_remove id s)) ≤ size (processes s).
Proof. apply map_subseteq_size, delete_subseteq. Qed.
Lemma map_Forall_store_remove P id s : map_Forall P (processes s) → map_Forall P (processes (store_remove id s)).
Proof. apply map_Forall_delete. Qed.
Lemma refresh_process_state_cases procs id s :
  map_Forall (entry_fits procs) (processes s) →
  (refresh_process_state procs id s = (Unknown, s) ∧ processes s !! id = None) ∨
  ∃ e p, processes s !! id = Some e ∧ procs !! entry_process e = Some p ∧
    refresh_process_state procs id s =
      if has_exited p then (Exited (process_exit_code p) e, store_remove id s) else (Alive (process_exit_code p) id, s).
Proof.
  intros Hwf. unfold refresh_process_state. destruct (processes s !! id) as [e|] eqn:Ee; [right|by left].
  destruct (Hwf _ _ Ee) as [<- [p Hp]%lookup_lt_is_Some]. exists e, p. rewrite Hp. split_and!; [done..|].
  destruct (has_exited p); [by rewrite Ee|done].
Qed.

Lemma with_store_wf st s :
  shared_wf s → map_Forall (entry_fits (procs s)) (processes st) → size (processes st) ≤ MAX_UNIFIED_EXEC_PROCESSES →
  shared_wf (with_store st s).
Proof. intros [] ??. by constructor. Qed.
Lemma with_store_remove_wf id s : shared_wf s → shared_wf (with_store (store_remove id (store s)) s).
Proof.
  intros Hwf. apply with_store_wf; [done|by apply map_Forall_store_remove, Hwf|].
  etrans; [apply size_store_remove|apply Hwf].
Qed.
Lemma refresh_wf id status st s :
  shared_wf s → refresh_process_state (procs s) id (store s) = (status, st) → shared_wf (with_store st s).
Proof.
  intros Hwf Hr. destruct (refresh_process_state_cases _ id _ (wf_entries _ Hwf)) as [[E _]|(e & p & _ & _ & E)]; rewrite E in Hr.
  - injection Hr as <- <-. by destruct s.
  - destruct (has_exited p); injection Hr as <- <-; [by apply with_store_remove_wf|by destruct s].
Qed.
(** A change of processes that keeps what has happened. *)
Definition keeps_failures (f : UnifiedExecProcess → UnifiedExecProcess) : Prop := ∀ p, failure_is_exit p → failure_is_exit (f p).
Lemma with_procs_wf l s :
  shared_wf s → length (procs s) ≤ length l → Forall failure_is_exit l → shared_wf (with_procs l s).
Proof.
  intros [He Hg Hf Hs] Hl HF. constructor; [|done..]. cbn. eapply map_Forall_impl; [exact He|]. intros id e [? ?]. split; [done|lia].
Qed.
Lemma alter_wf f p s : keeps_failures f → shared_wf s → shared_wf (with_procs (alter f p (procs s)) s).
Proof.
  intros Hk Hwf. apply with_procs_wf; [done|by rewrite length_alter|]. apply Forall_alter; [apply Hwf|]. intros x _. apply Hk.
Qed.
Lemma keeps_failures_terminate : keeps_failures terminate.
Proof. intros p Hp. exact Hp. Qed.
Lemma keeps_failures_process_step e : keeps_failures (process_step e).
Proof. intros p Hp. unfold failure_is_exit, has_exited, failure_message in *. destruct e, (process_handle p) eqn:E; cbn; rewrite ?E; cbn; rewrite ?orb_true_r; auto. Qed.

Lemma store_process_cases c id p tty reg started s pruned st :
  shared_wf s → choice_fits s c → store_process c id p tty reg started s = (pruned, st) →
  ∃ st0, st = {| processes := <[id := {| entry_process := p; entry_id := id; entry_tty := tty; entry_registration := reg; last_used := started |}]>
                                (processes st0); reserved_process_ids := reserved_process_ids st0 |} ∧
    match pruned with
    | None => st0 = store s ∧ size (processes (store s)) < MAX_UNIFIED_EXEC_PROCESSES
    | Some e => ∃ id', processes (store s) !! id' = Some e ∧ st0 = store_remove id' (store s)
    end.
Proof.
  intros Hwf [Hit _] E. unfold store_process in E.
  destruct (prune_processes_if_needed _ _ _) as [pruned' st0] eqn:Ep. injection E as <- <-.
  exists st0. split; [done|].
  destruct (prune_processes_cases _ _ _ _ Hit (wf_size _ Hwf) Ep) as [[[= -> ->] ?]|(id' & e & He & [= -> ->] & _)]; [done|by exists id'].
Qed.
Lemma store_process_wf c id p tty reg started s pruned st :
  shared_wf s → choice_fits s c → is_Some (procs s !! p) → store_process c id p tty reg started s = (pruned, st) → shared_wf (with_store st s).
Proof.
  intros Hwf Hc Hp%lookup_lt_is_Some E. destruct (store_process_cases _ _ _ _ _ _ _ _ _ Hwf Hc E) as (st0 & -> & H0).
  assert (H : map_Forall (entry_fits (procs s)) (processes st0) ∧ size (processes st0) < MAX_UNIFIED_EXEC_PROCESSES).
  { destruct pruned as [e|].
    - destruct H0 as (id' & He & ->). split; [apply map_Forall_store_remove, Hwf|].
      cbn. rewrite map_size_delete, He. cbn. pose proof (wf_size _ Hwf). assert (size (processes (store s)) ≠ 0); [|lia].
      intros He0%map_size_empty_inv. by rewrite He0, lookup_empty in He.
    - destruct H0 as [-> ?]. split; [apply Hwf|done]. }
  destruct H as [HF Hs]. apply with_store_wf; [done|cbn..].
  - apply map_Forall_insert_2; [done|exact HF].
  - rewrite map_size_insert. unfold MAX_UNIFIED_EXEC_PROCESSES in *. destruct (processes st0 !! id); cbn; lia.
Qed.
Lemma with_registered_wf r s : shared_wf s → shared_wf (with_registered r s).
Proof. by intros []. Qed.
Lemma prepare_wf now id e st s :
  shared_wf s → prepare_process_handles now id (store s) = Some (e, st) → shared_wf (with_store st s).
Proof.
  intros Hwf H. unfold prepare_process_handles in H. apply fmap_Some in H as (e0 & He & [= -> ->]).
  pose proof (wf_entries _ Hwf _ _ He) as Hfit. apply with_store_wf; [done|cbn..].
  - apply map_Forall_insert_2; [done|apply Hwf].
  - rewrite map_size_insert_Some by done. apply Hwf.
Qed.
#[local] Hint Resolve alter_wf keeps_failures_terminate with_registered_wf with_store_remove_wf store_process_wf prepare_wf refresh_wf : wf.

Lemma allocate_process_id_spec l s id st :
  allocate_process_id l s = Some (id, st) → id ∈ l ∧ id ∉ reserved_process_ids s ∧ st = reserve id s.
Proof.
  induction l as [|x l IH]; cbn; [done|]. case_bool_decide as Hx; [|intros [= -> <-]; set_solver].
  intros (?&?&?)%IH. split_and!; [by right|done..].
Qed.
Lemma with_store_reserve_wf id s : shared_wf s → shared_wf (with_store (reserve id (store s)) s).
Proof. by intros []. Qed.
Lemma allocate_wf l s id st :
  shared_wf s → Forall (λ id, (1000 ≤ id < 100000)%Z) l → allocate_process_id l (store s) = Some (id, st) →
  shared_wf {| store := st; procs := procs s; registered := registered s; clock := clock s; given := given s ++ [id] |}.
Proof.
  intros [He Hg Hf Hs] Hl (Hid & _ & ->)%allocate_process_id_spec. constructor; [exact He| |exact Hf|exact Hs].
  apply Forall_app_2; [done|]. apply Forall_singleton. by apply (proj1 (Forall_forall _ _) Hl).
Qed.
Lemma opened_wf p s : shared_wf s → failure_is_exit p → shared_wf (with_procs (procs s ++ [p]) s).
Proof.
  intros Hwf Hp. apply with_procs_wf; [done|rewrite length_app; lia|]. apply Forall_app_2; [apply Hwf|by apply Forall_singleton].
Qed.
Lemma store_default_wf s : shared_wf s → shared_wf (with_store store_default s).
Proof. intros Hwf. apply with_store_wf; [done|apply map_Forall_empty|cbn; unfold MAX_UNIFIED_EXEC_PROCESSES; rewrite map_size_empty; lia]. Qed.
#[local] Hint Resolve allocate_wf opened_wf store_default_wf : wf.
Lemma choice_fits_draws s c : choice_fits s c → Forall (λ id, 1000 ≤ id < 100000)%Z (draws c).
Proof. by intros (_ & ? & _). Qed.
Lemma choice_fits_opening s c p tty reg : choice_fits s c → opening c = Some (p, tty, reg) → failure_is_exit p.
Proof. intros (_ & _ & H) E. by rewrite E in H. Qed.
#[local] Hint Resolve choice_fits_draws choice_fits_opening : wf.
(** Opens a move of the task, down to the branch it takes. *)
Ltac open_move H :=
  cbn [move] in H; unfold release_process_id, unregister_network_approval_for_entry, terminate_all_processes in H; move_cases H.
Lemma move_wf c st s st' s' : shared_wf s → choice_fits s c → move c st s = Some (st', s') → shared_wf s'.
Proof. intros Hwf Hc H. destruct st; open_move H; subst; eauto with wf. Qed.

Lemma terminate_held_wf l s : shared_wf s → shared_wf (with_procs (foldr (λ p, alter terminate p) (procs s) l) s).
Proof.
  intros Hwf. induction l as [|p l IH]; cbn; [by destruct s|]. exact (alter_wf terminate p _ keeps_failures_terminate IH).
Qed.
Lemma perform_wf e w w' : shared_wf (world_shared w) → possible w e → perform e w = Some w' → shared_wf (world_shared w').
Proof.
  intros Hwf Hp H. destruct e as [c|i c|p e| |i]; cbn in H.
  - by injection H as <-.
  - destruct (tasks w !! i) as [st|]; [cbn in H|done]. destruct (move c st _) as [[st' s']|] eqn:E; [|done].
    injection H as <-. by eapply move_wf.
  - injection H as <-. apply alter_wf; [apply keeps_failures_process_step|done].
  - injection H as <-. by destruct Hwf.
  - destruct (tasks w !! i) as [st|]; [|done]. injection H as <-. by apply terminate_held_wf.
Qed.
Lemma initial_wf : shared_wf (world_shared initial).
Proof. constructor; cbn; [apply map_Forall_empty|constructor..|]. unfold MAX_UNIFIED_EXEC_PROCESSES. rewrite map_size_empty. lia. Qed.
Lemma reachable_wf P w : rtc (step P) initial w → shared_wf (world_shared w).
Proof.
  intros Hr. generalize initial_wf. induction Hr as [|w1 w2 w3 (e & Hp & _ & He) _ IH]; [done|].
  intros Hwf. by eapply IH, perform_wf.
Qed.

(** * Properties *)

(** * Yield times *)

(** A call waits for output for a bounded time, and the bounds never make [clamp] panic. *)
Lemma yield_times_bounded yield_time_ms configured input :
  (∃ t, clamp_yield_time yield_time_ms = Ok t ∧ 250 ≤ t ≤ 30000)%N ∧
  (∃ t, write_stdin_yield_time (max_write_stdin_yield_time_ms configured) input yield_time_ms = Ok t ∧ 250 ≤ t ∧
     (input = [] → 5000 ≤ t ≤ N.max configured 5000) ∧ (input ≠ [] → t ≤ 30000))%N.
Proof.
  split; [unfold clamp_yield_time, clamp; eexists; split; [reflexivity|unfold MIN_YIELD_TIME_MS, MAX_YIELD_TIME_MS; lia]|].
  unfold write_stdin_yield_time, clamp, max_write_stdin_yield_time_ms, MIN_EMPTY_YIELD_TIME_MS, MIN_YIELD_TIME_MS, MAX_YIELD_TIME_MS.
  destruct input as [|x input]; [|eexists; split_and!; [reflexivity|lia|done|lia]].
  rewrite (proj2 (N.leb_le _ _)) by lia. eexists. split_and!; [reflexivity|lia|lia|done].
Qed.

(** What a prune takes when the store is full: never one of the eight entries
    used last; an entry whose process has exited if another than these has; and
    among those the one used longest ago. A store that is not full loses nothing. *)
Theorem prune_takes_the_oldest procs l s :
  l ≡ₚ map_to_list (processes s) → size (processes s) ≤ MAX_UNIFIED_EXEC_PROCESSES →
  match prune_processes_if_needed procs l s with
  | (None, s') => s' = s ∧ size (processes s) < MAX_UNIFIED_EXEC_PROCESSES
  | (Some e, s') => ∃ id newest rest,
      processes s !! id = Some e ∧ s' = store_remove id s ∧ size (processes s') = 63 ∧
      entry_meta procs <$> l ≡ₚ newest ++ rest ∧ length newest = 8 ∧ (∀ a b, a ∈ newest → b ∈ rest → meta_used b ≤ meta_used a) ∧
      entry_meta procs (id, e) ∈ rest ∧ ∀ b, b ∈ rest → better (entry_meta procs (id, e)) b
  end.
Proof.
  intros Hl Hs. destruct (prune_processes_if_needed procs l s) as [o s'] eqn:E.
  destruct (prune_processes_cases _ _ _ _ Hl Hs E) as [[[= -> ->] ?]|(id & e & He & [= -> ->] & Hsize & Hin & Hbest)]; [done|].
  exists id, (take 8 (sort_by_recency (entry_meta procs <$> l))), (unprotected (entry_meta procs <$> l)). split_and!; [done|done| | | | |done|done].
  - cbn. rewrite map_size_delete, He. cbn. by rewrite Hsize.
  - apply unprotected_perm.
  - rewrite length_take, sort_by_recency_perm, length_fmap, (iteration_length _ _ Hl), Hsize. done.
  - intros a b Ha Hb. pose proof (sort_by_recency_sorted (entry_meta procs <$> l)) as Hsort.
    rewrite <- (take_drop 8) in Hsort. exact (StronglySorted_app_1_elem_of _ _ _ _ _ Hsort Ha Hb).
Qed.

End exec.

(** * Instances *)

Local Open Scope Z_scope.
(** A process that has just been started in the sandbox of Linux. *)
Definition sample_process : UnifiedExecProcess :=
  {| process_handle := Local false None; process_state := process_state_default; sandbox_type := LinuxSeccomp; terminated := false |}.
Definition full_store : ProcessStore :=
  {| processes := list_to_map ((λ i, (1000 + Z.of_nat i, {| entry_process := i; entry_id := 1000 + Z.of_nat i; entry_tty := false; entry_registration := None; last_used := i |})) <$> seq 0 64);
     reserved_process_ids := ∅ |}.
Definition some_exited : list UnifiedExecProcess := (λ i, if (i =? 5)%nat then with_state (exited (Some 0)) sample_process else sample_process) <$> seq 0 64.
Definition iteration_of (s : ProcessStore) : list (Z * ProcessEntry) := map_to_list (processes s).
Lemma prune_takes_the_oldest_witness :
  entry_id <$> (prune_processes_if_needed some_exited (iteration_of full_store) full_store).1 = Some 1005 ∧
  match prune_processes_if_needed some_exited (iteration_of full_store) full_store with
  | (None, s') => s' = full_store ∧ (size (processes full_store) < MAX_UNIFIED_EXEC_PROCESSES)%nat
  | (Some e, s') => ∃ id newest rest,
      processes full_store !! id = Some e ∧ s' = store_remove id full_store ∧ size (processes s') = 63%nat ∧
      entry_meta some_exited <$> iteration_of full_store ≡ₚ newest ++ rest ∧ length newest = 8%nat ∧
      (∀ a b, a ∈ newest → b ∈ rest → (meta_used b ≤ meta_used a)%nat) ∧
      entry_meta some_exited (id, e) ∈ rest ∧ ∀ b, b ∈ rest → better (entry_meta some_exited (id, e)) b
  end.
Proof.
  split; [vm_compute; reflexivity|]. apply (prune_takes_the_oldest some_exited (iteration_of full_store) full_store); [reflexivity|].
  apply Nat.leb_le. vm_compute. reflexivity.
Defined.
