(* ===== verification/ExecTasks.v ===== *)
(** The processes, ids and network approvals of running commands: who holds
    them at each moment of a run of UnifiedExec, that none is lost and none is
    left over, and that every step brings a call nearer its end, where a wait and the
    collection of output, which CollectOutput follows, are one step each. *)
From stdpp Require Import gmap relations sorting.
From S2P Require Import Prelude RustStr Safety OutputDelta UnifiedExec.

Section exec.
Context (to_lowercase : str → str).
#[local] Notation move := (UnifiedExec.move to_lowercase).
#[local] Notation perform := (UnifiedExec.perform to_lowercase).
#[local] Notation step := (UnifiedExec.step to_lowercase).
#[local] Notation move_wf := (UnifiedExec.move_wf to_lowercase).
#[local] Notation perform_wf := (UnifiedExec.perform_wf to_lowercase).
#[local] Notation reachable_wf := (UnifiedExec.reachable_wf to_lowercase).
(** Opens a move of the task, down to the branch it takes. *)
Ltac open_move H :=
  cbn [UnifiedExec.move] in H; unfold release_process_id, unregister_network_approval_for_entry, terminate_all_processes in H; move_cases H.

(** * What the store and the tasks hold *)

(** Processes that run, ids that are reserved and network approvals that are
    registered are to be held by an entry of the store or by a task. *)
Inductive item : Type := AProcess (p : nat) | AnId (id : Z) | AnApproval (r : str).
#[export] Instance item_eq_dec : EqDecision item.
Proof. solve_decision. Defined.
Definition needed (s : shared) (x : item) : Prop :=
  match x with
  | AProcess p => ∃ proc, procs s !! p = Some proc ∧ live proc
  | AnId id => id ∈ reserved_process_ids (store s)
  | AnApproval r => r ∈ registered s
  end.
Definition approval_items (reg : option str) : list item := match reg with Some r => [AnApproval r] | None => [] end.
Definition entry_items (e : ProcessEntry) : list item := AProcess (entry_process e) :: AnId (entry_id e) :: approval_items (entry_registration e).
Definition stored (st : ProcessStore) (x : item) : Prop := ∃ id e, processes st !! id = Some e ∧ x ∈ entry_items e.
Fixpoint items (st : stage) : list item :=
  match st with
  | Prepare id | Opening id => [AnId id]
  | Opened id p _ reg _ | Collect id p reg false => AProcess p :: AnId id :: approval_items reg
  | CheckDenial p _ _ => [AProcess p]
  | Release id k => AnId id :: items k
  | Unregister reg k => approval_items reg ++ items k
  | Terminate p k => AProcess p :: items k
  | _ => []
  end.
(** The ids of processes that are yet to be stored. *)
Definition claims (st : stage) : list Z := match st with Prepare id | Opening id | Opened id _ _ _ _ => [id] | _ => [] end.
(** The ids that a task goes on to use after it has given up its claim, and
    what it knows of their entries. *)
Fixpoint known (st : stage) : list Z :=
  match st with
  | Collect id _ _ _ | Refresh id _ _ | Write id _ | RefreshAfterWrite id _ _ | KillWritten id _ _ | Poll id _ _ => [id]
  | Release id k => id :: known k
  | Unregister _ k | Terminate _ k => known k
  | _ => []
  end.
Fixpoint agrees (s : shared) (st : stage) : Prop :=
  match st with
  | Collect id _ _ false => processes (store s) !! id = None
  | Collect id p _ true | Refresh id p _ | Write id p | RefreshAfterWrite id p _ | KillWritten id p _ | Poll id p _ =>
      ∀ e, processes (store s) !! id = Some e → entry_process e = p
  | Release id k => (∀ e, processes (store s) !! id = Some e → ¬ needed s (AProcess (entry_process e))) ∧ claims k = [] ∧ agrees s k
  | Unregister _ k | Terminate _ k => claims k = [] ∧ agrees s k
  | _ => True
  end.

(** Removals. *)
Lemma stored_remove id s x e :
  processes s !! id = Some e → stored s x → stored (store_remove id s) x ∨ x ∈ entry_items e.
Proof.
  intros He (id' & e' & He' & Hx). destruct (decide (id' = id)) as [->|Hne]; [right; congruence|left].
  exists id', e'. split; [|done]. cbn. by rewrite lookup_delete_ne.
Qed.
Lemma stored_remove_none id s x : processes s !! id = None → stored s x → stored (store_remove id s) x.
Proof.
  intros He (id' & e' & He' & Hx). exists id', e'. split; [|done]. cbn. rewrite lookup_delete_ne; [done|congruence].
Qed.
Lemma stored_insert id e s x :
  processes s !! id = None → stored s x → stored {| processes := <[id := e]> (processes s); reserved_process_ids := reserved_process_ids s |} x.
Proof.
  intros He (id' & e' & He' & Hx). exists id', e'. split; [|done]. cbn. rewrite lookup_insert_ne; [done|congruence].
Qed.
Lemma stored_here id e m r x : x ∈ entry_items e → stored {| processes := <[id := e]> m; reserved_process_ids := r |} x.
Proof. intros Hx. exists id, e. split; [|done]. cbn. by rewrite lookup_insert_eq. Qed.
(** What remains of a removed entry: its process, unless it has ended, and its approval. *)
Lemma needed_removed id s x st :
  needed (with_store (store_remove id st) s) x → x ≠ AnId id ∧ needed (with_store st s) x.
Proof. destruct x as [p|i|r]; cbn; [done| |done]. set_solver. Qed.

(** Processes only end. *)
Definition only_ends (f : UnifiedExecProcess → UnifiedExecProcess) : Prop := ∀ p, live (f p) → live p.
Lemma only_ends_terminate : only_ends terminate.
Proof. by intros p [? _]. Qed.
Lemma only_ends_process_step e : only_ends (process_step e).
Proof.
  intros p [Ht Hx]. split; [by destruct e|]. unfold has_exited in *. destruct e, (process_handle p) eqn:E; cbn in Hx; rewrite ?E in Hx; cbn in Hx;
    rewrite ?orb_true_r in Hx; done.
Qed.
Lemma needed_alter f p s x : only_ends f → needed (with_procs (alter f p (procs s)) s) x → needed s x.
Proof.
  intros Hf. destruct x as [q| |]; cbn; [|done..]. intros (proc & Hq & Hl). destruct (decide (p = q)) as [->|Hne].
  - rewrite list_lookup_alter_eq in Hq. apply fmap_Some in Hq as (proc' & Hq & ->). eauto.
  - rewrite list_lookup_alter_ne in Hq by done. eauto.
Qed.
Lemma needed_terminated p s : ¬ needed (with_procs (alter terminate p (procs s)) s) (AProcess p).
Proof. cbn. intros (proc & Hp & [Ht _]). rewrite list_lookup_alter_eq in Hp. apply fmap_Some in Hp as (proc' & _ & ->). done. Qed.
Lemma exited_not_needed p proc s : procs s !! p = Some proc → has_exited proc = true → ¬ needed s (AProcess p).
Proof. cbn. intros Hp Hx (proc' & Hp' & [_ Hl]). congruence. Qed.
Lemma failed_not_needed p proc s m :
  shared_wf s → procs s !! p = Some proc → failure_message proc = Some m → ¬ needed s (AProcess p).
Proof.
  intros Hwf Hp Hf. eapply exited_not_needed; [done|]. apply (Forall_lookup_1 _ _ _ _ (wf_failures _ Hwf) Hp). congruence.
Qed.

(** A step accounts for an item when what is needed after it is still held,
    by the store, by the task or by others ([R]). *)
Definition accounts (x : item) (R : Prop) (s : shared) (st : stage) : Prop := needed s x → stored (store s) x ∨ x ∈ items st ∨ R.
Lemma accounts_items x R s st st' : (needed s x → x ∈ items st → x ∈ items st') → accounts x R s st → accounts x R s st'.
Proof. unfold accounts. intros Hi H Hn. destruct (H Hn) as [|[|]]; auto. Qed.
Lemma accounts_procs x R s st st' f p :
  only_ends f → (needed (with_procs (alter f p (procs s)) s) x → x ∈ items st → x ∈ items st') →
  accounts x R s st → accounts x R (with_procs (alter f p (procs s)) s) st'.
Proof. intros Hf Hi H Hn. destruct (H (needed_alter _ _ _ _ Hf Hn)) as [|[|]]; auto. Qed.
(** An entry is removed: its approval, and its process if it runs, go to the task. *)
Lemma accounts_remove x R s st st' id e :
  shared_wf s → processes (store s) !! id = Some e →
  (needed s (AProcess (entry_process e)) → AProcess (entry_process e) ∈ items st') →
  (∀ y, y ∈ approval_items (entry_registration e) → y ∈ items st') →
  (x ≠ AnId id → x ∈ items st → x ∈ items st') →
  accounts x R s st → accounts x R (with_store (store_remove id (store s)) s) st'.
Proof.
  intros Hwf He Hp Hr Hi H Hn. apply needed_removed in Hn as [Hne Hn]. destruct (wf_entries _ Hwf _ _ He) as [Hid _].
  replace (with_store (store s) s) with s in Hn by by destruct s.
  destruct (H Hn) as [Hs|[Hx|]]; [|auto..].
  destruct (stored_remove _ _ _ _ He Hs) as [|Hx]; [by left|right; left].
  unfold entry_items in Hx. apply elem_of_cons in Hx as [->|Hx]; [auto|]. apply elem_of_cons in Hx as [->|Hx]; [congruence|auto].
Qed.
Lemma accounts_refresh x R s st st' id status store' :
  shared_wf s → refresh_process_state (procs s) id (store s) = (status, store') →
  (∀ code e, status = Exited code e → ∀ y, y ∈ approval_items (entry_registration e) → y ∈ items st') →
  (x ∈ items st → x ∈ items st') →
  accounts x R s st → accounts x R (with_store store' s) st'.
Proof.
  intros Hwf Hr Ha Hi H. destruct (refresh_process_state_cases _ id _ (wf_entries _ Hwf)) as [[E _]|(e & p & He & Hp & E)]; rewrite E in Hr.
  { injection Hr as <- <-. replace (with_store (store s) s) with s by by destruct s. by apply accounts_items with st. }
  destruct (has_exited p) eqn:Ex; injection Hr as <- <-.
  - eapply accounts_remove; [done..| | |by intros _|done]; [|by eapply Ha].
    intros Hn. by destruct (exited_not_needed _ _ _ Hp Ex).
  - replace (with_store (store s) s) with s by by destruct s. by apply accounts_items with st.
Qed.
Lemma accounts_unregister x R s st k reg :
  (x ∈ items st → x ∈ approval_items reg ∨ x ∈ items k) →
  accounts x R s st → accounts x R (with_registered (match reg with Some r => registered s ∖ {[r]} | None => registered s end) s) k.
Proof.
  intros Hi H Hn. assert (x ∉ approval_items reg ∧ needed s x) as [Hx Hn'].
  { destruct x, reg; cbn in *; set_solver. }
  destruct (H Hn') as [|[Hx'|]]; [by left| |by auto]. destruct (Hi Hx'); [done|auto].
Qed.

Definition tidy_choice (x : item) (c : choice) : Prop :=
  match x with AnId _ => preparation c ≠ InvalidCommand ∧ preparation c ≠ PatchFailed | _ => True end.

Lemma accounts_allocate x R s l id st' :
  allocate_process_id l (store s) = Some (id, st') → accounts x R s Allocate →
  accounts x R {| store := st'; procs := procs s; registered := registered s; clock := clock s; given := given s ++ [id] |} (Prepare id).
Proof.
  intros (_ & _ & ->)%allocate_process_id_spec H Hn. destruct x as [p|i|r]; cbn in Hn.
  - destruct (H Hn) as [|[|]]; [by left|set_solver|auto].
  - apply elem_of_union in Hn as [->%elem_of_singleton|Hn]; [right; left; left|]. destruct (H Hn) as [|[|]]; [by left|set_solver|auto].
  - destruct (H Hn) as [|[|]]; [by left|set_solver|auto].
Qed.
Lemma accounts_opening x R s id p tty reg :
  accounts x R s (Opening id) →
  accounts x R (with_registered (match reg with Some r => {[r]} ∪ registered s | None => registered s end) (with_procs (procs s ++ [p]) s))
    (Opened id (length (procs s)) tty reg (clock s)).
Proof.
  intros H Hn. destruct x as [q|i|r]; cbn in Hn.
  - destruct Hn as (proc & Hq & Hl). apply lookup_snoc_Some in Hq as [[Hlt Hq]|[-> _]]; [|right; left; left].
    destruct H as [|[Hx|]]; [by exists proc|by left|cbn in Hx|auto]. set_solver.
  - destruct (H Hn) as [|[Hx|]]; [by left|right; left|auto]. cbn in *. set_solver.
  - destruct (decide (AnApproval r ∈ approval_items reg)) as [Hr|Hr]; [right; left; cbn; set_solver|].
    destruct H as [|[Hx|]]; [destruct reg; cbn in *; set_solver|by left|cbn in Hx; set_solver|auto].
Qed.

Lemma accounts_store x R s c id p tty reg started st' :
  shared_wf s → choice_fits s c → processes (store s) !! id = None →
  ∀ pruned store', store_process c id p tty reg started s = (pruned, store') →
  st' = match pruned with Some e => end_entry e (Collect id p reg true) | None => Collect id p reg true end →
  accounts x R s (Opened id p tty reg started) → accounts x R (with_store store' s) st'.
Proof.
  intros Hwf Hc Hid pruned store' E -> H. destruct (store_process_cases _ _ _ _ _ _ _ _ _ Hwf Hc E) as (st0 & -> & H0).
  assert (Hhere : x ∈ items (Opened id p tty reg started) →
    stored {| processes := <[id := {| entry_process := p; entry_id := id; entry_tty := tty; entry_registration := reg; last_used := started |}]>
                (processes st0); reserved_process_ids := reserved_process_ids st0 |} x).
  { intros Hx. eexists _, _. split; [apply lookup_insert_eq|exact Hx]. }
  destruct pruned as [e|].
  - destruct H0 as (id' & He & ->). intros Hn.
    assert (Hrem : accounts x (R ∨ x ∈ items (Opened id p tty reg started)) (with_store (store_remove id' (store s)) s) (end_entry e (Collect id p reg true))).
    { eapply (accounts_remove _ _ _ Allocate); [done|exact He|cbn; set_solver..| |]; [cbn; set_solver|].
      intros Hn'. destruct (H Hn') as [|[|]]; auto. }
    destruct (Hrem Hn) as [Hs|[|[|]]]; [left|by auto|by auto|by auto]. apply (stored_insert _ _ (store_remove id' (store s))); [|done].
    cbn. apply lookup_delete_None. by right.
  - destruct H0 as [-> _]. intros Hn. replace (needed _ x) with (needed s x) in Hn by by destruct x.
    destruct (H Hn) as [Hs|[|]]; [left; by apply stored_insert|by auto|by auto].
Qed.
Lemma accounts_touch x R s st st' now id e store' :
  prepare_process_handles now id (store s) = Some (e, store') → items st = [] → accounts x R s st → accounts x R (with_store store' s) st'.
Proof.
  intros E Hst H Hn. unfold prepare_process_handles in E. apply fmap_Some in E as (e0 & He & [= -> ->]).
  replace (needed _ x) with (needed s x) in Hn by by destruct x. destruct (H Hn) as [(id' & e' & He' & Hx)|[Hx|]]; [left|by rewrite Hst in Hx; apply elem_of_nil in Hx|auto].
  destruct (decide (id' = id)) as [->|Hne].
  - apply stored_here. rewrite He in He'. by injection He' as ->.
  - exists id', e'. split; [|done]. cbn. by rewrite lookup_insert_ne.
Qed.
Lemma items_end_entries (l : list (Z * ProcessEntry)) k x :
  x ∈ items (foldr (λ e, end_entry e.2) k l) ↔ (∃ e, e ∈ l ∧ (x = AProcess (entry_process e.2) ∨ x ∈ approval_items (entry_registration e.2))) ∨ x ∈ items k.
Proof.
  induction l as [|e l IH]; cbn; [set_solver|]. rewrite elem_of_app, elem_of_cons, IH. setoid_rewrite elem_of_cons. split.
  - intros [?|[?|[(e'&?&?)|?]]]; [left; exists e; auto..|left; eauto|auto].
  - intros [(e'&[->|?]&[?|?])|?]; [auto..|right; right; left; eauto|right; right; left; eauto|auto].
Qed.
Lemma accounts_terminate_all x R s l :
  l ≡ₚ map_to_list (processes (store s)) → accounts x R s TerminateAll →
  accounts x R (with_store store_default s) (foldr (λ e, end_entry e.2) (Finished AllTerminated) l).
Proof.
  intros Hl H Hn. assert (Hx : needed s x ∧ ∀ id, x ≠ AnId id) by (destruct x; cbn in *; set_solver).
  destruct Hx as [Hn' Hx]. destruct (H Hn') as [(id & e & He & Hxe)|[|]]; [|by set_solver|auto].
  right; left. apply items_end_entries. left. exists (id, e). split; [by apply (iteration_lookup _ _ _ _ Hl)|].
  unfold entry_items in Hxe. apply elem_of_cons in Hxe as [->|Hxe]; [auto|]. apply elem_of_cons in Hxe as [->|Hxe]; [by destruct (Hx (entry_id e))|auto].
Qed.

Lemma move_accounts x R c st s st' s' :
  shared_wf s → choice_fits s c → agrees s st → (∀ id, id ∈ claims st → processes (store s) !! id = None) → tidy_choice x c →
  move c st s = Some (st', s') → accounts x R s st → accounts x R s' st'.
Proof.
  intros Hwf Hc Hag Hcl Ht H Ha. destruct st; open_move H; subst.
  all: try solve [by eapply accounts_allocate | by eapply accounts_opening | eapply accounts_store; eauto; apply Hcl; left
    | eapply accounts_touch; [eassumption| |exact Ha]; done | by eapply accounts_terminate_all; [apply Hc|]
    | eapply accounts_items; [|done]; cbn; set_solver
    | eapply accounts_refresh; [done|eassumption| | |exact Ha]; [intros ?? -> ??; cbn; apply elem_of_app; by left|by intros ?%elem_of_nil]].
  - eapply accounts_items; [|done]. destruct x as [| |]; cbn in *; [set_solver| |set_solver].
    destruct Ht. destruct (preparation c); cbn; set_solver.
  - eapply accounts_items; [|done]. intros Hn Hx. destruct (failure_message x0) as [message|] eqn:Ef; [|destruct process_started_alive; cbn in *; set_solver].
    destruct process_started_alive; [by apply elem_of_nil in Hx|]. cbn in Hx |- *.
    apply elem_of_cons in Hx as [->|Hx]; [by destruct (failed_not_needed _ _ _ _ Hwf H0 Ef)|set_solver].
  - apply accounts_procs with (KillWritten id p message); [apply only_ends_terminate|cbn; set_solver|done].
  - destruct Hag as [Hag _]. destruct (processes (store s) !! id) as [e|] eqn:He.
    + apply accounts_remove with (Release id st) e; [done|exact He|intros Hn; by destruct (Hag _ eq_refl)|cbn; set_solver|cbn; set_solver|done].
    + intros Hn. apply needed_removed in Hn as [Hne Hn]. replace (with_store (store s) s) with s in Hn by by destruct s.
      destruct (Ha Hn) as [Hs|[Hx|]]; [left; by apply stored_remove_none|cbn in Hx; set_solver|auto].
  - eapply accounts_unregister; [|done]. cbn. set_solver.
  - intros Hn. destruct (decide (x = AProcess p)) as [->|Hne]; [by apply needed_terminated in Hn|].
    revert Hn. apply accounts_procs with (Terminate p st); [apply only_ends_terminate|cbn; set_solver|done].
Qed.

(** * What tasks know of the store *)

(** The entries of [s'] are those of [s], but for the ids [X]; no process starts to run again. *)
Definition evolves (X : list Z) (s s' : shared) : Prop :=
  (∀ id e', processes (store s') !! id = Some e' →
     id ∈ X ∨ ∃ e, processes (store s) !! id = Some e ∧ entry_process e = entry_process e') ∧
  (∀ p, p < length (procs s) → needed s' (AProcess p) → needed s (AProcess p)).
Lemma evolves_refl X s : evolves X s s.
Proof. split; [|done]. intros id e' He. right. by exists e'. Qed.
Lemma evolves_entries X s st :
  (∀ id e', processes st !! id = Some e' → id ∈ X ∨ ∃ e, processes (store s) !! id = Some e ∧ entry_process e = entry_process e') →
  evolves X s (with_store st s).
Proof. by split. Qed.
Lemma evolves_remove X id s : evolves X s (with_store (store_remove id (store s)) s).
Proof. apply evolves_entries. intros id' e' He. cbn in He. apply lookup_delete_Some in He as [_ He]. right. by exists e'. Qed.
Lemma evolves_procs X f p s : only_ends f → evolves X s (with_procs (alter f p (procs s)) s).
Proof. intros Hf. split; [|intros q _; by apply needed_alter]. intros id e' He. right. by exists e'. Qed.
Lemma evolves_refresh X id status st s :
  shared_wf s → refresh_process_state (procs s) id (store s) = (status, st) → evolves X s (with_store st s).
Proof.
  intros Hwf Hr. destruct (refresh_process_state_cases _ id _ (wf_entries _ Hwf)) as [[E _]|(e & p & _ & _ & E)]; rewrite E in Hr.
  - injection Hr as <- <-. destruct s; apply evolves_refl.
  - destruct (has_exited p); injection Hr as <- <-; [apply evolves_remove|destruct s; apply evolves_refl].
Qed.
Lemma evolves_touch X now id e st s : prepare_process_handles now id (store s) = Some (e, st) → evolves X s (with_store st s).
Proof.
  intros H. unfold prepare_process_handles in H. apply fmap_Some in H as (e0 & He & [= -> ->]).
  apply evolves_entries. intros id' e' He'. cbn in He'. apply lookup_insert_Some in He' as [[<- <-]|[_ He']]; right; eauto.
Qed.
Lemma evolves_store c id p tty reg started s pruned st :
  shared_wf s → choice_fits s c → store_process c id p tty reg started s = (pruned, st) → evolves [id] s (with_store st s).
Proof.
  intros Hwf Hc E. destruct (store_process_cases _ _ _ _ _ _ _ _ _ Hwf Hc E) as (st0 & -> & H0).
  apply evolves_entries. intros id' e' He. cbn in He. apply lookup_insert_Some in He as [[<- _]|[_ He]]; [by left; left|right].
  destruct pruned; [destruct H0 as (? & _ & ->)|destruct H0 as [-> _]]; cbn in He; [apply lookup_delete_Some in He as [_ He]|]; eauto.
Qed.
Lemma evolves_allocate X l s id st :
  allocate_process_id l (store s) = Some (id, st) →
  evolves X s {| store := st; procs := procs s; registered := registered s; clock := clock s; given := given s ++ [id] |}.
Proof. intros (_ & _ & ->)%allocate_process_id_spec. split; [|done]. intros i e' He. right. by exists e'. Qed.
Lemma evolves_opening X s r p : evolves X s (with_registered r (with_procs (procs s ++ [p]) s)).
Proof.
  split; [intros i e' He; right; by exists e'|]. cbn. intros q Hq (proc & Hp & Hl). rewrite lookup_app_l in Hp by done. eauto.
Qed.
Lemma evolves_registered X s r : evolves X s (with_registered r s).
Proof. split; [intros i e' He; right; by exists e'|done]. Qed.
Lemma evolves_default X s : evolves X s (with_store store_default s).
Proof. apply evolves_entries. intros id e' He. cbn in He. by rewrite lookup_empty in He. Qed.
#[local] Hint Resolve evolves_refl evolves_remove evolves_procs evolves_refresh evolves_touch evolves_store evolves_allocate evolves_opening
  evolves_registered evolves_default only_ends_terminate only_ends_process_step : evolve.

Lemma move_evolves c st s st' s' : shared_wf s → choice_fits s c → move c st s = Some (st', s') → evolves (claims st) s s'.
Proof. intros Hwf Hc H. destruct st; open_move H; subst; eauto with evolve. Qed.

Lemma agrees_evolves X s s' k :
  shared_wf s → evolves X s s' → (∀ id, id ∈ known k → id ∉ X) → agrees s k → agrees s' k.
Proof.
  intros Hwf [He Hn]. induction k as [| | | |id p reg alive| | | | | | | | | |id k IH|reg k IH|p k IH| |]; cbn; intros Hx Ha; try done.
  2-6: intros e He'; destruct (He _ _ He') as [?|(e0 & He0 & <-)]; [by destruct (Hx id (list_elem_of_here _ _))|by apply Ha].
  - assert (Hid : id ∉ X) by (apply Hx; left). destruct alive.
    + intros e He'. destruct (He _ _ He') as [?|(e0 & He0 & <-)]; [done|by apply Ha].
    + apply eq_None_not_Some. intros [e He']. destruct (He _ _ He') as [?|(e0 & He0 & _)]; congruence.
  - destruct Ha as (Ha & Hc & Hk). split; [|split; [done|apply IH; [set_solver|done]]]. intros e He' Hnd.
    destruct (He _ _ He') as [?|(e0 & He0 & Heq)]; [by destruct (Hx id (list_elem_of_here _ _))|]. rewrite <- Heq in Hnd.
    apply (Ha _ He0). apply Hn; [|done]. by destruct (wf_entries _ Hwf _ _ He0).
  - split; [apply Ha|]. by apply IH, Ha.
  - split; [apply Ha|]. by apply IH, Ha.
Qed.

Lemma known_end_entries (l : list (Z * ProcessEntry)) k : known (foldr (λ e, end_entry e.2) k l) = known k.
Proof. by induction l. Qed.
Lemma claims_end_entries (l : list (Z * ProcessEntry)) k : claims k = [] → claims (foldr (λ e, end_entry e.2) k l) = [].
Proof. by destruct l. Qed.
Lemma agrees_end_entries s (l : list (Z * ProcessEntry)) k : claims k = [] → agrees s k → agrees s (foldr (λ e, end_entry e.2) k l).
Proof. intros Hc Ha. induction l as [|e l IH]; cbn; [done|]. split_and!; [done|by apply claims_end_entries|done]. Qed.
Lemma prepare_spec now id s e st :
  prepare_process_handles now id s = Some (e, st) →
  ∃ e0, processes s !! id = Some e0 ∧ e = touch now e0 ∧ processes st = <[id := e]> (processes s).
Proof. intros H. unfold prepare_process_handles in H. apply fmap_Some in H as (e0 & He & [= -> ->]). by exists e0. Qed.

Lemma move_agrees c st s st' s' :
  shared_wf s → choice_fits s c → agrees s st → (∀ id, id ∈ claims st → processes (store s) !! id = None) →
  move c st s = Some (st', s') → agrees s' st'.
Proof.
  intros Hwf Hc Hag Hcl H. pose proof (move_evolves _ _ _ _ _ Hwf Hc H) as Hev.
  assert (Hk : ∀ k, claims st = [] → agrees s k → agrees s' k).
  { intros k Hst. apply (agrees_evolves _ _ _ _ Hwf Hev). rewrite Hst. intros id _. apply not_elem_of_nil. }
  assert (Hnone : ∀ id, claims st = [id] → processes (store s) !! id = None) by (intros id Hst; apply Hcl; rewrite Hst; left).
  destruct st; open_move H; subst; cbn; try done.
  - destruct (preparation c); cbn; try done; (split; [|done]); intros e He; specialize (Hnone id eq_refl); congruence.
  - split; [|done]. intros e He. specialize (Hnone id eq_refl). congruence.
  - destruct (store_process_cases _ _ _ _ _ _ _ _ _ Hwf Hc Heqp0) as (st0 & -> & _).
    assert (Hent : ∀ e m r, processes {| processes := <[id := e]> m; reserved_process_ids := r |} !! id = Some e) by (intros; cbn; apply lookup_insert_eq).
    destruct o as [e|]; cbn; rewrite lookup_insert_eq; split_and?; try done; by intros ? [= <-].
  - by apply Hnone.
  - destruct (failure_message x) eqn:Ef; destruct process_started_alive; cbn in *; split_and?; try done; intros e He; [|congruence..].
    rewrite (Hag _ He). by eapply failed_not_needed.
  - by destruct p0; cbn.
  - destruct (prepare_spec _ _ _ _ _ Heqo) as (e0 & He0 & -> & Hst). destruct (wf_entries _ Hwf _ _ He0) as [Hid _]. cbn.
    destruct input; [|destruct (entry_tty e0)]; cbn; try done; rewrite Hst, Hid, lookup_insert_eq; by intros ? [= <-].
  - by destruct (write_result c).
  - assert (agrees (with_store p1 s) (Poll id p None)) as Hp by by apply Hk.
    by destruct p0, failure; cbn in *.
  - split; [|done]. intros e He. rewrite (Hag _ He). apply needed_terminated.
  - destruct (failure_message x) eqn:Ef; [|by destruct status_after_write]. cbn. split; [|done]. intros e He.
    rewrite (Hag _ He). by eapply failed_not_needed.
  - by destruct p.
  - by apply agrees_end_entries.
  - destruct Hag as (_ & Hst & Hag). destruct (processes (store s) !! id); cbn; [split; [done|]|]; by apply Hk.
  - by apply Hk, Hag.
  - by apply Hk, Hag.
Qed.

(** * Ids *)

Inductive id_move (c : choice) (s s' : shared) (st st' : stage) : Prop :=
| ids_given id : st = Allocate → allocate_process_id (draws c) (store s) = Some (id, store s') →
    claims st' = [id] → known st' = [] → store s' = reserve id (store s) → id_move c s s' st st'
| ids_kept : claims st' = claims st → known st' = [] → store s' = store s → id_move c s s' st st'
| ids_claimed : claims st' = [] → id_move c s s' st st'.
Lemma move_claims c st s st' s' : agrees s st → move c st s = Some (st', s') → id_move c s s' st st'.
Proof.
  intros Hag H. destruct st; open_move H; subst.
  all: try solve [by apply ids_claimed | by apply ids_kept | apply ids_claimed; repeat (case_match; cbn; try done)].
  - destruct (allocate_process_id_spec _ _ _ _ H0) as (_ & _ & E). by eapply ids_given.
  - destruct (preparation c); [by apply ids_claimed..|by apply ids_kept].
  - apply ids_claimed. by apply claims_end_entries.
  - destruct Hag as (_ & Hst & _). apply ids_claimed. by destruct (processes _ !! id).
  - apply ids_claimed, Hag.
  - apply ids_claimed, Hag.
Qed.
Lemma move_known c st s st' s' :
  shared_wf s → move c st s = Some (st', s') →
  ∀ id, id ∈ known st' → id ∈ known st ∨ id ∈ claims st ∨ is_Some (processes (store s) !! id).
Proof.
  intros Hwf H id. destruct st; open_move H; subst.
  all: try solve [cbn; set_solver | repeat (case_match; cbn); set_solver].
  - destruct (preparation c); cbn; set_solver.
  - destruct (prepare_spec _ _ _ _ _ Heqo) as (e0 & He0 & -> & _). destruct (wf_entries _ Hwf _ _ He0) as [Hid _].
    destruct input; [|destruct (entry_tty _)]; cbn; rewrite ?Hid, ?elem_of_nil, ?list_elem_of_singleton; naive_solver.
  - rewrite known_end_entries. by intros ?%elem_of_nil.
Qed.

(** The ids of the tasks and of the store agree. *)
Record consistent (s : shared) (l : list stage) : Prop := {
  consistent_claims : NoDup (l ≫= claims);
  consistent_unstored id : id ∈ l ≫= claims → processes (store s) !! id = None;
  consistent_known id : id ∈ l ≫= known → id ∉ l ≫= claims;
  consistent_agrees : Forall (agrees s) l }.
Lemma bind_middle {A B} (f : A → list B) l1 y l2 : (l1 ++ y :: l2) ≫= f ≡ₚ f y ++ (l1 ++ l2) ≫= f.
Proof. rewrite !bind_app, bind_cons. solve_Permutation. Qed.
Lemma elem_of_bind_middle {A B} (f : A → list B) l1 y l2 x : x ∈ (l1 ++ y :: l2) ≫= f ↔ x ∈ f y ∨ x ∈ (l1 ++ l2) ≫= f.
Proof. by rewrite bind_middle, elem_of_app. Qed.
Lemma insert_split {A} (l : list A) i x : l !! i = Some x → ∃ l1 l2, l = l1 ++ x :: l2 ∧ ∀ y, <[i := y]> l = l1 ++ y :: l2.
Proof.
  intros H. apply list_elem_of_split_length in H as (l1 & l2 & -> & ->). exists l1, l2. split; [done|].
  intros y. rewrite <- (Nat.add_0_r (length l1)). by rewrite insert_app_r.
Qed.

Lemma agrees_move c l1 l2 st s st' s' :
  shared_wf s → choice_fits s c → consistent s (l1 ++ st :: l2) → move c st s = Some (st', s') → Forall (agrees s') (l1 ++ st' :: l2).
Proof.
  intros Hwf Hc [_ Hun Hkn Hag] H. pose proof (move_evolves _ _ _ _ _ Hwf Hc H) as Hev.
  assert (Hbind : ∀ (f : stage → list Z) k id, id ∈ f k → k ∈ l1 ++ st :: l2 → id ∈ (l1 ++ st :: l2) ≫= f).
  { intros f k id ??. apply list_elem_of_bind. by exists k. }
  assert (Hst : st ∈ l1 ++ st :: l2) by (apply elem_of_app; right; left).
  assert (Hothers : ∀ k, k ∈ l1 ++ st :: l2 → agrees s k → agrees s' k).
  { intros k Hkl. apply (agrees_evolves _ _ _ _ Hwf Hev). intros id Hid Hcl. apply (Hkn id); eauto. }
  rewrite Forall_forall in Hag. apply Forall_app. split; [|constructor].
  - apply Forall_forall. intros k Hk. assert (k ∈ l1 ++ st :: l2) by set_solver. auto.
  - eapply move_agrees; [done..|by apply Hag| |done]. intros id Hid. apply Hun. eauto.
  - apply Forall_forall. intros k Hk. assert (k ∈ l1 ++ st :: l2) by set_solver. auto.
Qed.
(** An id that a call under way uses, or that a stored process has. *)
Definition in_use (s : shared) (l : list stage) (id : Z) : Prop :=
  id ∈ l ≫= claims ∨ id ∈ l ≫= known ∨ is_Some (processes (store s) !! id).
Lemma consistent_new s st' s' id l1 l2 :
  consistent s (l1 ++ Allocate :: l2) → ¬ in_use s (l1 ++ Allocate :: l2) id → claims st' = [id] → known st' = [] →
  store s' = reserve id (store s) → Forall (agrees s') (l1 ++ st' :: l2) → consistent s' (l1 ++ st' :: l2).
Proof.
  intros [Hcl Hun Hkn _] Hnew E' Ek Es Hag. unfold in_use in Hnew. rewrite !elem_of_bind_middle in Hnew.
  setoid_rewrite elem_of_bind_middle in Hun. setoid_rewrite elem_of_bind_middle in Hkn. rewrite bind_middle in Hcl. cbn in Hcl.
  constructor; [| | |done].
  - rewrite bind_middle, E'. apply NoDup_app. split_and!; [apply NoDup_singleton| |done].
    intros i' ->%list_elem_of_singleton Hi'. naive_solver.
  - intros i'. rewrite elem_of_bind_middle, E', list_elem_of_singleton, Es. cbn. intros [->|Hi']; [|auto].
    apply eq_None_not_Some. naive_solver.
  - intros i'. rewrite !elem_of_bind_middle, E', Ek, list_elem_of_singleton, elem_of_nil.
    intros [[]|Hi'] [->|Hi'']; [naive_solver|]. apply (Hkn i'); auto.
Qed.
Lemma consistent_gives_up st s st' s' l1 l2 :
  consistent s (l1 ++ st :: l2) → claims st' = [] → evolves (claims st) s s' →
  (∀ id, id ∈ known st' → id ∈ known st ∨ id ∈ claims st ∨ is_Some (processes (store s) !! id)) →
  Forall (agrees s') (l1 ++ st' :: l2) → consistent s' (l1 ++ st' :: l2).
Proof.
  intros [Hcl Hun Hkn _] E [Hev _] Hk Hag. rewrite bind_middle in Hcl. apply NoDup_app in Hcl as (_ & Hcl1 & Hcl2).
  setoid_rewrite elem_of_bind_middle in Hun. setoid_rewrite elem_of_bind_middle in Hkn.
  assert (Hdom : ∀ id, is_Some (processes (store s') !! id) → id ∈ claims st ∨ is_Some (processes (store s) !! id)).
  { intros id [e He]. destruct (Hev _ _ He) as [?|(e0 & He0 & _)]; [by left|right; by exists e0]. }
  constructor; [| | |done].
  - by rewrite bind_middle, E.
  - intros i'. rewrite elem_of_bind_middle, E, elem_of_nil. intros [[]|Hi']. apply eq_None_not_Some. intros [Hs|Hs]%Hdom; [by apply (Hcl1 i')|].
    rewrite Hun in Hs by auto. by destruct Hs.
  - intros i'. rewrite !elem_of_bind_middle, E, elem_of_nil. intros [Hi'|Hi'] [[]|Hi'']; [|by apply (Hkn i'); auto].
    apply Hk in Hi' as [?|[?|Hs]]; [by apply (Hkn i'); auto|by apply (Hcl1 i')|]. rewrite Hun in Hs by auto. by destruct Hs.
Qed.
Lemma consistent_same s s' l1 st l2 st' :
  consistent s (l1 ++ st :: l2) → claims st' = claims st → known st' = [] → store s' = store s →
  Forall (agrees s') (l1 ++ st' :: l2) → consistent s' (l1 ++ st' :: l2).
Proof.
  intros [Hcl Hun Hkn _] E Ek Es Hag.
  setoid_rewrite elem_of_bind_middle in Hun. setoid_rewrite elem_of_bind_middle in Hkn.
  constructor; [| | |done].
  - by rewrite bind_middle, E, <- bind_middle.
  - intros i'. rewrite elem_of_bind_middle, E, Es. auto.
  - intros i'. rewrite !elem_of_bind_middle, E, Ek, elem_of_nil. intros [[]|Hi']. apply Hkn. auto.
Qed.
Lemma consistent_move c l i st s st' s' :
  shared_wf s → choice_fits s c → consistent s l → l !! i = Some st → move c st s = Some (st', s') →
  (st = Allocate → ∀ id store', allocate_process_id (draws c) (store s) = Some (id, store') → ¬ in_use s l id) →
  consistent s' (<[i := st']> l).
Proof.
  intros Hwf Hc Hcon Hi H Hnew. destruct (insert_split l i st Hi) as (l1 & l2 & -> & ->).
  pose proof (agrees_move _ _ _ _ _ _ _ Hwf Hc Hcon H) as Hag.
  assert (Hag0 : agrees s st) by by pose proof (consistent_agrees _ _ Hcon) as [_ [? _]%Forall_cons]%Forall_app.
  destruct (move_claims _ _ _ _ _ Hag0 H) as [id -> Ea E' Ek Es|E Ek Es|E].
  - eapply consistent_new; eauto.
  - by eapply consistent_same.
  - eapply consistent_gives_up; [done..| | |done]; [by eapply move_evolves|by eapply move_known].
Qed.

Lemma consistent_evolves s s' l :
  shared_wf s → evolves [] s s' → store s' = store s → consistent s l → consistent s' l.
Proof.
  intros Hwf Hev Es [Hcl Hun Hkn Hag]. constructor; rewrite ?Es; [done..|].
  eapply Forall_impl; [exact Hag|]. intros k. apply (agrees_evolves _ _ _ _ Hwf Hev). intros id _. apply not_elem_of_nil.
Qed.
Lemma needed_terminate x l s : needed (with_procs (foldr (λ p, alter terminate p) (procs s) l) s) x → needed s x.
Proof.
  destruct x as [q| |]; [|done..]. intros (proc & Hp & Hl). cbn in *. revert proc Hp Hl.
  induction l as [|p l IH]; cbn; [eauto|]. intros proc Hp Hl. destruct (decide (p = q)) as [->|Hne].
  - rewrite list_lookup_alter_eq in Hp. apply fmap_Some in Hp as (proc' & _ & ->). by destruct Hl.
  - rewrite list_lookup_alter_ne in Hp by done. eauto.
Qed.
Lemma evolves_terminate l s : evolves [] s (with_procs (foldr (λ p, alter terminate p) (procs s) l) s).
Proof.
  split; [intros id e He; right; by exists e|]. intros q _. apply needed_terminate.
Qed.
Lemma terminate_held_not_needed p l s : p ∈ l → ¬ needed (with_procs (foldr (λ p, alter terminate p) (procs s) l) s) (AProcess p).
Proof.
  intros Hp (proc & Hlook & Hl). cbn in Hlook. revert proc Hlook Hl. induction Hp as [l|p q l Hp IH]; cbn; intros proc Hlook [Ht Hx].
  - rewrite list_lookup_alter_eq in Hlook. apply fmap_Some in Hlook as (proc' & _ & ->). done.
  - destruct (decide (q = p)) as [->|Hne].
    + rewrite list_lookup_alter_eq in Hlook. apply fmap_Some in Hlook as (proc' & _ & ->). done.
    + rewrite list_lookup_alter_ne in Hlook by done. by eapply IH.
Qed.
Lemma consistent_drop s s' l1 st l2 :
  consistent s (l1 ++ st :: l2) → store s' = store s → shared_wf s → evolves [] s s' → consistent s' (l1 ++ Dropped :: l2).
Proof.
  intros Hcon Es Hwf Hev. eapply consistent_gives_up; [exact Hcon|done| |by intros id ?%elem_of_nil|].
  - split; [|apply Hev]. intros id e He. rewrite Es in He. right. by exists e.
  - pose proof (consistent_agrees _ _ (consistent_evolves _ _ _ Hwf Hev Es Hcon)) as [? [_ ?]%Forall_cons]%Forall_app.
    apply Forall_app. by split; [|constructor].
Qed.
(** An id that is drawn is not in use. *)
Definition ids_apart (w : world) (e : event) : Prop :=
  match e with
  | Moves i c => tasks w !! i = Some Allocate → ∀ id store', allocate_process_id (draws c) (store (world_shared w)) = Some (id, store') →
      ¬ in_use (world_shared w) (tasks w) id
  | _ => True
  end.
Lemma perform_consistent e w w' :
  shared_wf (world_shared w) → possible w e → perform e w = Some w' → ids_apart w e →
  consistent (world_shared w) (tasks w) → consistent (world_shared w') (tasks w').
Proof.
  intros Hwf Hp H Hnew Hcon. destruct e as [c|i c|p e| |i]; cbn in H.
  - injection H as <-. destruct Hcon as [Hcl Hun Hkn Hag]. assert (E : claims (first_stage c) = [] ∧ known (first_stage c) = []) by by destruct c.
    destruct E as [E E']. constructor; cbn [world_shared tasks]; rewrite ?bind_app, ?bind_cons, ?bind_nil, ?E, ?E', ?app_nil_r; [done..|].
    apply Forall_app_2; [done|]. apply Forall_singleton. by destruct c.
  - destruct (tasks w !! i) as [st|] eqn:Hi; [cbn in H|done]. destruct (move c st _) as [[st' s']|] eqn:E; [|done].
    injection H as <-. eapply consistent_move; try done. intros ->. by apply Hnew.
  - injection H as <-. apply (consistent_evolves (world_shared w)); [done|apply evolves_procs, only_ends_process_step|done..].
  - injection H as <-. apply (consistent_evolves (world_shared w)); [done| |done..]. split; [intros id e He; right; by exists e|done].
  - destruct (tasks w !! i) as [st|] eqn:Hi; [|done]. injection H as <-. cbn [world_shared tasks set_task].
    destruct (insert_split _ i st Hi) as (l1 & l2 & El & ->). rewrite El in Hcon. eapply consistent_drop; [done..|]. apply evolves_terminate.
Qed.
Lemma reachable_consistent P w : (∀ w e, P w e → ids_apart w e) → rtc (step P) initial w → consistent (world_shared w) (tasks w).
Proof.
  intros HP Hr. revert w Hr. apply (rtc_ind_r (λ w, consistent (world_shared w) (tasks w))).
  - constructor; cbn; [constructor|by intros ? ?%elem_of_nil|by intros ? ?%elem_of_nil|constructor].
  - intros w1 w2 Hr (e & Hp & HPe & He) IH. eapply perform_consistent; [by eapply reachable_wf|done..|by apply HP|done].
Qed.

(** * What is needed is held *)

Definition held_somewhere (x : item) (w : world) : Prop :=
  needed (world_shared w) x → stored (store (world_shared w)) x ∨ ∃ i st, tasks w !! i = Some st ∧ x ∈ items st.
(** What the events are to respect for an item to stay held. *)
Definition respects (x : item) (w : world) (e : event) : Prop :=
  match e with
  | Moves _ c => tidy_choice x c
  | Interrupted i => ∀ st, tasks w !! i = Some st → x ∈ items st → ∃ p, x = AProcess p ∧ p ∈ held st
  | _ => True
  end.
(** An item that a task holds is held by that task or by the others. *)
Definition others_hold (x : item) (l : list stage) (i : nat) : Prop := ∃ j st, j ≠ i ∧ l !! j = Some st ∧ x ∈ items st.
Lemma held_accounts x s l i st : l !! i = Some st → held_somewhere x {| world_shared := s; tasks := l |} → accounts x (others_hold x l i) s st.
Proof.
  intros Hi H Hn. destruct (H Hn) as [|(j & st' & Hj & Hx)]; [by left|right]. cbn in Hj.
  destruct (decide (j = i)) as [->|Hne]; [left; congruence|right]. by exists j, st'.
Qed.
Lemma accounts_held x s l i st st' :
  l !! i = Some st → accounts x (others_hold x l i) s st' → held_somewhere x {| world_shared := s; tasks := <[i := st']> l |}.
Proof.
  intros Hi H Hn. destruct (H Hn) as [|[Hx|(j & k & Hne & Hj & Hx)]]; [by left|right..].
  - exists i, st'. split; [|done]. apply list_lookup_insert_eq. by eapply lookup_lt_Some.
  - exists j, k. split; [|done]. cbn. by rewrite list_lookup_insert_ne.
Qed.
Lemma perform_held x e w w' :
  shared_wf (world_shared w) → consistent (world_shared w) (tasks w) → possible w e → respects x w e → perform e w = Some w' →
  held_somewhere x w → held_somewhere x w'.
Proof.
  intros Hwf Hcon Hp Hres H Hx. destruct w as [s l]. destruct e as [c|i c|p e| |i]; cbn in H.
  - injection H as <-. intros Hn. destruct (Hx Hn) as [|(j & st & Hj & ?)]; [by left|right].
    exists j, st. split; [|done]. cbn. by apply lookup_app_l_Some.
  - destruct (l !! i) as [st|] eqn:Hi; [cbn in H|done]. destruct (move c st s) as [[st' s']|] eqn:E; [|done].
    injection H as <-. apply (accounts_held _ _ _ _ st); [done|]. cbn in Hcon.
    assert (Hst : st ∈ l) by by eapply list_elem_of_lookup_2.
    eapply move_accounts; [exact Hwf|done| | |done|done|by apply held_accounts].
    + by apply (proj1 (Forall_forall _ _) (consistent_agrees _ _ Hcon)).
    + intros id Hid. apply (consistent_unstored _ _ Hcon). apply list_elem_of_bind. by exists st.
  - injection H as <-. intros Hn. apply Hx. eapply needed_alter; [apply only_ends_process_step|exact Hn].
  - injection H as <-. intros Hn. apply Hx. by destruct x.
  - destruct (l !! i) as [st|] eqn:Hi; [|done]. injection H as <-. apply (accounts_held _ _ _ _ st); [done|].
    intros Hn. destruct (decide (x ∈ items st)) as [Hin|Hin].
    + destruct (Hres st Hi Hin) as (p & -> & Hp'). by apply terminate_held_not_needed in Hn.
    + apply needed_terminate in Hn as Hn'.
      destruct (held_accounts x s l i st Hi Hx Hn') as [|[|]]; [by left|done|auto].
Qed.
Lemma reachable_held x P w :
  (∀ w e, P w e → respects x w e ∧ ids_apart w e) → rtc (step P) initial w → held_somewhere x w.
Proof.
  intros HP Hr. assert (HP' : ∀ w e, P w e → ids_apart w e) by (intros ???; by apply HP).
  revert w Hr. apply (rtc_ind_r (λ w, held_somewhere x w)).
  - intros Hn. destruct x as [p|id|r]; cbn in Hn; [destruct Hn as (? & [=] & _)|set_solver..].
  - intros w1 w2 Hr (e & Hp & HPe & He) IH.
    eapply perform_held; [by eapply reachable_wf|by eapply reachable_consistent|done|by apply HP|done|done].
Qed.

(** A task that is to end processes it took from the store. *)
Fixpoint ending (st : stage) : bool :=
  match st with Terminate _ _ => true | Release _ k | Unregister _ k => ending k | _ => false end.
Definition cleanups_finish (w : world) (e : event) : Prop :=
  match e with Interrupted i => ∀ st, tasks w !! i = Some st → ending st = false | _ => True end.
Lemma process_of_items p q id reg : AProcess p ∈ AProcess q :: AnId id :: approval_items reg → p = q.
Proof.
  intros [[= ->]|[?|Hin]%elem_of_cons]%elem_of_cons; [done..|].
  destruct reg as [r|]; cbn in Hin; [by apply list_elem_of_singleton in Hin|by apply elem_of_nil in Hin].
Qed.
Lemma held_by_unending st p : ending st = false → AProcess p ∈ items st → p ∈ held st.
Proof.
  induction st; cbn; intros He Hin; try done; try (by apply elem_of_nil in Hin).
  all: try (apply list_elem_of_singleton in Hin; simplify_eq; left).
  - apply process_of_items in Hin as ->. left.
  - destruct process_started_alive; [by apply elem_of_nil in Hin|]. apply process_of_items in Hin as ->. left.
  - apply elem_of_cons in Hin as [?|Hin]; [done|auto].
  - apply elem_of_app in Hin as [Hin|Hin]; [|auto]. destruct reg as [r|]; cbn in Hin; [by apply list_elem_of_singleton in Hin|by apply elem_of_nil in Hin].
Qed.
Lemma cleanups_finish_respects p w e : cleanups_finish w e → respects (AProcess p) w e.
Proof.
  destruct e as [|i c|??| |i]; cbn; [done..|]. intros Hc st Hi Hin. exists p. split; [done|]. apply held_by_unending; [by apply Hc|done].
Qed.
(** No interruption, and no call that fails while its command or patch is prepared. *)
Definition orderly (w : world) (e : event) : Prop :=
  match e with
  | Moves _ c => preparation c ≠ InvalidCommand ∧ preparation c ≠ PatchFailed
  | Interrupted _ => False
  | _ => True
  end.
Lemma orderly_respects x w e : orderly w e → respects x w e.
Proof. destruct e as [|i c|??| |i]; cbn; [done| |done..]. by destruct x. Qed.
Definition finished (st : stage) : bool := match st with Finished _ | Dropped => true | _ => false end.
Lemma finished_items st : finished st = true → items st = [].
Proof. by destruct st. Qed.

(** * Calls end *)

Fixpoint measure (st : stage) : nat :=
  match st with
  | Allocate => 12 | Prepare _ => 11 | Opening _ => 10 | Opened _ _ _ _ _ => 9 | Collect _ _ _ _ => 6
  | Refresh _ _ _ => 4 | CheckDenial _ _ _ => 2
  | Lookup _ _ => 7 | Write _ _ => 6 | RefreshAfterWrite _ _ _ => 5 | KillWritten _ _ _ => 3 | Poll _ _ _ => 3 | RefreshPolled _ => 2
  | TerminateAll => 2 * MAX_UNIFIED_EXEC_PROCESSES + 1
  | Release _ k => 2 + measure k
  | Unregister _ k | Terminate _ k => 1 + measure k
  | Finished _ | Dropped => 0
  end.
Lemma measure_end_entries (l : list (Z * ProcessEntry)) k : measure (foldr (λ e, end_entry e.2) k l) = 2 * length l + measure k.
Proof. induction l as [|e l IH]; cbn; [done|]. rewrite IH. cbn. lia. Qed.
Lemma move_measure c st s st' s' : shared_wf s → choice_fits s c → move c st s = Some (st', s') → measure st' < measure st.
Proof.
  intros Hwf Hc H. destruct st; open_move H; subst; cbn [measure]; try lia.
  all: try (repeat (case_match; cbn); lia).
  - destruct (preparation c); cbn; lia.
  - rewrite measure_end_entries, (iteration_length (processes (store s))) by apply Hc. pose proof (wf_size _ Hwf). cbn [measure]. lia.
Qed.
(** The processes that a task goes on to look at exist. *)
Fixpoint refs (st : stage) : list nat :=
  match st with
  | Opened _ p _ _ _ | Collect _ p _ _ | Refresh _ p _ | CheckDenial p _ _ | Write _ p | RefreshAfterWrite _ p _ | KillWritten _ p _ | Poll _ p _ => [p]
  | Release _ k | Unregister _ k | Terminate _ k => refs k
  | _ => []
  end.
Definition refs_ok (s : shared) (st : stage) : Prop := ∀ p, p ∈ refs st → p < length (procs s).
Lemma refs_end_entries (l : list (Z * ProcessEntry)) k : refs (foldr (λ e, end_entry e.2) k l) = refs k.
Proof. by induction l. Qed.
Lemma move_procs_grow c st s st' s' : move c st s = Some (st', s') → length (procs s) ≤ length (procs s').
Proof.
  intros H. destruct st; open_move H; subst; cbn; rewrite ?length_alter, ?length_app; lia.
Qed.
Lemma move_refs c st s st' s' : shared_wf s → refs_ok s st → move c st s = Some (st', s') → refs_ok s' st'.
Proof.
  intros Hwf Hr H p Hp. pose proof (move_procs_grow _ _ _ _ _ H) as Hgrow.
  assert (Hkeep : p ∈ refs st → p < length (procs s')) by (intros Hin; specialize (Hr p Hin); lia). clear Hr Hgrow.
  destruct st; open_move H; subst.
  all: try solve [cbn in Hp; by apply elem_of_nil in Hp | apply Hkeep; revert Hp; clear; cbn; repeat (case_match; cbn); set_solver].
  - by destruct (preparation c); cbn in Hp; apply elem_of_nil in Hp.
  - cbn in Hp. apply list_elem_of_singleton in Hp as ->. cbn. rewrite length_app. cbn. lia.
  - destruct (prepare_spec _ _ _ _ _ Heqo) as (e0 & He0 & -> & _). destruct (wf_entries _ Hwf _ _ He0) as [_ Hlt]. cbn.
    destruct input; [|destruct (entry_tty _)]; cbn in Hp; [apply list_elem_of_singleton in Hp as ->; done..|by apply elem_of_nil in Hp].
  - rewrite refs_end_entries in Hp. by apply elem_of_nil in Hp.
Qed.
Fixpoint settled (st : stage) : bool :=
  match st with Allocate => false | Release _ k | Unregister _ k | Terminate _ k => settled k | _ => true end.
Lemma settled_end_entries (l : list (Z * ProcessEntry)) k : settled k = true → settled (foldr (λ e, end_entry e.2) k l) = true.
Proof. intros Hk. by induction l. Qed.
Definition ready (s : shared) (st : stage) : Prop := refs_ok s st ∧ (st = Allocate ∨ settled st = true).
Lemma move_settled c st s st' s' : st = Allocate ∨ settled st = true → move c st s = Some (st', s') → settled st' = true.
Proof.
  intros [->|Hs] H; [|destruct st]; open_move H; subst; try done.
  all: try solve [repeat (case_match; try done)].
  - by destruct (preparation c).
  - by apply settled_end_entries.
Qed.
Lemma move_ready c st s st' s' : shared_wf s → ready s st → move c st s = Some (st', s') → ready s' st'.
Proof. intros Hwf [Hr Hs] H. split; [by eapply move_refs|right; by eapply move_settled]. Qed.
Lemma refs_ok_grow s s' st : length (procs s) ≤ length (procs s') → ready s st → ready s' st.
Proof. intros Hl [Hr Hs]. split; [|done]. intros p Hp. specialize (Hr p Hp). lia. Qed.
Lemma length_terminate l (ps : list UnifiedExecProcess) : length (foldr (λ p, alter terminate p) ps l) = length ps.
Proof. induction l as [|p l IH]; cbn; [done|]. by rewrite length_alter. Qed.
Lemma perform_ready e w w' :
  shared_wf (world_shared w) → Forall (ready (world_shared w)) (tasks w) → perform e w = Some w' → Forall (ready (world_shared w')) (tasks w').
Proof.
  intros Hwf HF H. assert (Hothers : length (procs (world_shared w)) ≤ length (procs (world_shared w')) → Forall (ready (world_shared w')) (tasks w)).
  { intros Hl. eapply Forall_impl; [exact HF|]. intros st. by apply refs_ok_grow. }
  destruct e as [c|i c|p e| |i]; cbn in H.
  - injection H as <-. apply Forall_app_2; [by apply Hothers|]. apply Forall_singleton.
    split; [intros p Hp; by destruct c; apply elem_of_nil in Hp|destruct c; auto].
  - destruct (tasks w !! i) as [st|] eqn:Hi; [cbn in H|done]. destruct (move c st _) as [[st' s']|] eqn:E; [|done].
    injection H as <-. cbn in *. apply Forall_insert; [apply Hothers; by eapply move_procs_grow|].
    eapply move_ready; [done| |done]. by apply (Forall_lookup_1 _ _ _ _ HF Hi).
  - injection H as <-. apply Hothers. cbn. by rewrite length_alter.
  - injection H as <-. by apply Hothers.
  - destruct (tasks w !! i) as [st|] eqn:Hi; [|done]. injection H as <-. cbn in *. apply Forall_insert; [apply Hothers; by rewrite length_terminate|].
    split; [intros p Hp; by apply elem_of_nil in Hp|by right].
Qed.
Lemma reachable_ready P w : rtc (step P) initial w → Forall (ready (world_shared w)) (tasks w).
Proof.
  intros Hr. revert w Hr. apply (rtc_ind_r (λ w, Forall (ready (world_shared w)) (tasks w))); [constructor|].
  intros w1 w2 Hr (e & _ & _ & He) IH. eapply perform_ready; [by eapply reachable_wf|done..].
Qed.
(** What lets every call go on: a fresh id, an opening that fails, writing that succeeds. *)
Definition plain_choice (s : shared) (id : Z) : choice :=
  {| draws := [id]; preparation := CommandReady; opening := None; output := []; iteration := map_to_list (processes (store s)); write_result := Written |}.
Lemma plain_choice_fits s id : (1000 ≤ id < 100000)%Z → choice_fits s (plain_choice s id).
Proof. intros Hid. split_and!; [done|by apply Forall_singleton|done]. Qed.
Lemma plain_choice_moves s id st :
  refs_ok s st → finished st = false → (st = Allocate → id ∉ reserved_process_ids (store s)) → is_Some (move (plain_choice s id) st s).
Proof.
  intros Hr Hf Ha. assert (Hp : ∀ p, p ∈ refs st → is_Some (procs s !! p)) by (intros p Hp; by apply lookup_lt_is_Some, Hr).
  destruct st; cbn [move refs] in *; try done.
  all: try (destruct (Hp p (list_elem_of_here _ _)) as [proc ->]; cbn).
  - cbn. rewrite bool_decide_eq_false_2 by by apply Ha. done.
  - destruct (is_alive proc); [|done]. by destruct (store_process _ _ _ _ _ _ _) as [[?|] ?].
  - done.
  - by destruct (refresh_process_state _ _ _) as [? ?].
  - done.
  - by destruct (prepare_process_handles _ _ _) as [[? ?]|].
  - by destruct (refresh_process_state _ _ _) as [? ?].
  - done.
  - by destruct (refresh_process_state _ _ _) as [? ?].
Qed.

(** * Properties *)

(** However calls, interruptions and the processes interleave, the store never
    holds more than 64 processes; a stored process stays under the id that its
    call was given, and every id given is at least 1000 and below 100000. *)
Theorem store_stays_bounded w :
  rtc (step (λ _ _, True)) initial w →
  size (processes (store (world_shared w))) ≤ MAX_UNIFIED_EXEC_PROCESSES ∧
  (∀ id e, processes (store (world_shared w)) !! id = Some e → entry_id e = id ∧ entry_process e < length (procs (world_shared w))) ∧
  Forall (λ id, 1000 ≤ id < 100000)%Z (given (world_shared w)).
Proof. intros Hr. destruct (reachable_wf _ _ Hr) as [He Hg _ Hs]. done. Qed.

(** C34. No process is lost. As long as an id that is drawn for a call is not in
    use (no call under way uses it, no stored process has it) and no task is
    interrupted while it ends processes that it took from the store, every process
    that runs is in the store, where calls and the end of the session find it, or a
    task that has not ended holds it and will store or end it; in every other
    interleaving of the calls and with every other interruption. *)
Theorem running_processes_are_tracked w p proc :
  rtc (step (λ w e, cleanups_finish w e ∧ ids_apart w e)) initial w →
  procs (world_shared w) !! p = Some proc → live proc →
  (∃ id e, processes (store (world_shared w)) !! id = Some e ∧ entry_id e = id ∧ entry_process e = p) ∨
  ∃ i st, tasks w !! i = Some st ∧ finished st = false ∧ AProcess p ∈ items st.
Proof.
  intros Hr Hp Hl. pose proof (reachable_wf _ _ Hr) as Hwf.
  destruct (reachable_held (AProcess p) _ _ (λ w e H, conj (cleanups_finish_respects p w e (proj1 H)) (proj2 H)) Hr) as [(id & e & He & Hin)|(i & st & Hi & Hin)].
  - by exists proc.
  - left. exists id, e. destruct (wf_entries _ Hwf _ _ He) as [<- _]. split_and!; [done..|].
    unfold entry_items in Hin. apply elem_of_cons in Hin as [[= ->]|Hin]; [done|].
    apply elem_of_cons in Hin as [?|Hin]; [done|]. destruct (entry_registration e); cbn in Hin; set_solver.
  - right. exists i, st. split_and!; [done| |done]. destruct (finished st) eqn:E; [|done]. rewrite (finished_items _ E) in Hin. by apply elem_of_nil in Hin.
Qed.

(** Nothing is left over. When the calls have all returned, no id drawn for one
    while it was in use, none of them interrupted nor failed in the preparation of its command or patch, the
    processes that run, the reserved ids and the registered network approvals
    are all those of entries of the store. *)
Theorem finished_calls_leave_nothing_over w :
  rtc (step (λ w e, orderly w e ∧ ids_apart w e)) initial w → Forall (λ st, finished st = true) (tasks w) →
  (∀ p proc, procs (world_shared w) !! p = Some proc → live proc → ∃ id e, processes (store (world_shared w)) !! id = Some e ∧ entry_process e = p) ∧
  (∀ id, id ∈ reserved_process_ids (store (world_shared w)) → is_Some (processes (store (world_shared w)) !! id)) ∧
  (∀ r, r ∈ registered (world_shared w) → ∃ id e, processes (store (world_shared w)) !! id = Some e ∧ entry_registration e = Some r).
Proof.
  intros Hr Hfin. pose proof (reachable_wf _ _ Hr) as Hwf.
  assert (Hst : ∀ x, needed (world_shared w) x → stored (store (world_shared w)) x).
  { intros x Hx. destruct (reachable_held x _ _ (λ w e H, conj (orderly_respects x w e (proj1 H)) (proj2 H)) Hr Hx) as [|(i & st & Hi & Hin)]; [done|].
    rewrite finished_items in Hin; [by apply elem_of_nil in Hin|]. by apply (Forall_lookup_1 _ _ _ _ Hfin Hi). }
  assert (Happ : ∀ e y, y ∈ approval_items (entry_registration e) → ∃ r, y = AnApproval r ∧ entry_registration e = Some r).
  { intros e y. destruct (entry_registration e) as [r|]; cbn; [intros ->%list_elem_of_singleton; eauto|by intros ?%elem_of_nil]. }
  split_and!.
  - intros p proc Hp Hl. destruct (Hst (AProcess p)) as (id & e & He & Hin); [by exists proc|]. exists id, e. split; [done|].
    unfold entry_items in Hin. apply elem_of_cons in Hin as [[= ->]|[?|(? & ? & _)%Happ]%elem_of_cons]; done.
  - intros i Hi. destruct (Hst (AnId i) Hi) as (id & e & He & Hin). destruct (wf_entries _ Hwf _ _ He) as [Hid _].
    unfold entry_items in Hin. apply elem_of_cons in Hin as [?|[[= ->]|(? & ? & _)%Happ]%elem_of_cons]; [done| |done]. rewrite Hid. by exists e.
  - intros r Hi. destruct (Hst (AnApproval r) Hi) as (id & e & He & Hin). exists id, e. split; [done|].
    unfold entry_items in Hin. apply elem_of_cons in Hin as [?|[?|(r' & [= ->] & ?)%Happ]%elem_of_cons]; done.
Qed.

(** In these steps every call ends: a call takes at most 129 steps, since each brings it
    nearer its end, and one that has not ended can take its next step, unless it
    waits for an id and all are reserved. *)
Theorem every_call_ends P w i st :
  rtc (step P) initial w → tasks w !! i = Some st →
  (∀ c w', choice_fits (world_shared w) c → perform (Moves i c) w = Some w' → ∃ st', tasks w' !! i = Some st' ∧ measure st' < measure st) ∧
  (finished st = false → (∃ id, (1000 ≤ id < 100000)%Z ∧ id ∉ reserved_process_ids (store (world_shared w))) →
   ∃ c w', choice_fits (world_shared w) c ∧ perform (Moves i c) w = Some w') ∧
  (∀ c, measure (first_stage c) ≤ 129) ∧ (measure st = 0 ↔ finished st = true).
Proof.
  intros Hr Hi. pose proof (reachable_wf _ _ Hr) as Hwf. split_and!.
  - intros c w' Hc H. cbn in H. rewrite Hi in H. cbn in H. destruct (move c st _) as [[st' s']|] eqn:E; [|done]. injection H as <-.
    exists st'. split; [apply list_lookup_insert_eq; by eapply lookup_lt_Some|]. by eapply move_measure.
  - intros Hf (id & Hid & Hfree). exists (plain_choice (world_shared w) id).
    pose proof (Forall_lookup_1 _ _ _ _ (reachable_ready _ _ Hr) Hi) as [Hready _].
    destruct (plain_choice_moves _ id st Hready Hf (λ _, Hfree)) as [[st' s'] E].
    eexists. split; [by apply plain_choice_fits|]. cbn. rewrite Hi. cbn. by rewrite E.
  - intros [|? ?|]; cbn; lia.
  - by destruct st.
Qed.
End exec.

(** * Instances *)

Local Open Scope Z_scope.
(** What a task does in a sample run: [Go i id prep] moves the task [i], and would
    give it the id [id]. *)
Inductive act : Type := Start (c : call) | Go (i : nat) (id : Z) (prep : prepared).
Definition sample_choice (w : world) (id : Z) (prep : prepared) : choice :=
  {| draws := [id]; preparation := prep; opening := Some (sample_process, true, Some (lit "call")); output := [];
     iteration := map_to_list (processes (store (world_shared w))); write_result := Written |}.
Definition act_event (a : act) (w : world) : event :=
  match a with Start c => Starts c | Go i id prep => Moves i (sample_choice w id prep) end.
Definition act_fits (a : act) : bool := match a with Start _ => true | Go _ id _ => (1000 <=? id) && (id <? 100000) end.
Definition same (s : str) : str := s.
Definition run_acts (l : list act) (w : world) : option world := foldl (λ w a, w ≫= λ w, perform same (act_event a w) w) (Some w) l.
Lemma run_acts_none l : foldl (λ w a, w ≫= λ w, perform same (act_event a w) w) None l = None.
Proof. by induction l. Qed.
(** Each event of a run passes a test in the world it finds. *)
Fixpoint run_allows (ok : world → event → bool) (l : list act) (w : world) : bool :=
  match l with
  | [] => true
  | a :: l => ok w (act_event a w) && match perform same (act_event a w) w with Some w' => run_allows ok l w' | None => true end
  end.
Lemma run_acts_passes (P : world → event → Prop) ok l w w' :
  forallb act_fits l = true → run_allows ok l w = true → (∀ a w, a ∈ l → ok w (act_event a w) = true → P w (act_event a w)) →
  run_acts l w = Some w' → rtc (step same P) w w'.
Proof.
  unfold run_acts. revert w. induction l as [|a l IH]; cbn; intros w Hf Hok HP H; [by injection H as ->|].
  apply andb_true_iff in Hf as [Ha Hf]. apply andb_true_iff in Hok as [Ho Hok].
  destruct (perform same (act_event a w) w) as [w1|] eqn:E; [|by rewrite run_acts_none in H].
  apply rtc_l with w1; [|apply IH; [done|done| |done]; intros ???; apply HP; by right].
  exists (act_event a w). split_and!; [|apply HP; [left|done]|done]. destruct a as [c|i id prep]; [done|]. cbn in Ha |- *.
  split_and!; [done|apply Forall_singleton; lia|by intros Hp].
Qed.
Lemma run_acts_reaches (P : world → event → Prop) l w w' :
  forallb act_fits l = true → (∀ a w, a ∈ l → P w (act_event a w)) → run_acts l w = Some w' → rtc (step same P) w w'.
Proof.
  intros Hf HP. apply (run_acts_passes P (λ _ _, true) l w w' Hf); [|by intros; apply HP].
  clear. revert w. induction l as [|a l IH]; intros w; cbn; [done|]. by destruct (perform same _ w).
Qed.
(** [ids_apart], as a test. *)
Definition apart_test (w : world) (e : event) : bool :=
  match e with
  | Moves i c =>
      match tasks w !! i with
      | Some Allocate =>
          match allocate_process_id (draws c) (store (world_shared w)) with
          | Some (id, _) => bool_decide (id ∉ (tasks w ≫= claims) ++ (tasks w ≫= known)) && bool_decide (processes (store (world_shared w)) !! id = None)
          | None => true
          end
      | _ => true
      end
  | _ => true
  end.
Lemma apart_test_apart w e : apart_test w e = true → ids_apart w e.
Proof.
  destruct e as [|i c|??| |]; try done. cbn. destruct (tasks w !! i) as [[]|]; try done. intros H _ id st E. rewrite E in H.
  apply andb_true_iff in H as [H1%bool_decide_eq_true_1 H2%bool_decide_eq_true_1]. rewrite not_elem_of_app in H1. unfold in_use. rewrite H2.
  destruct H1 as [H1 H1']. intros [?|[?|[? ?]]]; done.
Qed.
(** A call whose process goes on to run. *)
Definition background_call (i : nat) (id : Z) : list act := replicate 6 (Go i id CommandReady).
Definition tracked_world : world := Eval vm_compute in default initial (run_acts (Start ExecCommand :: background_call 0 1000) initial).
Lemma tracked_world_reached (P : world → event → Prop) :
  (∀ w c, P w (Starts c)) → (∀ w i c, preparation c = CommandReady → ids_apart w (Moves i c) → P w (Moves i c)) →
  rtc (step same P) initial tracked_world.
Proof.
  intros Hs Hm. apply (run_acts_passes _ apart_test (Start ExecCommand :: background_call 0 1000)); [reflexivity|vm_compute; reflexivity| |vm_compute; reflexivity].
  intros a w. cbn [background_call replicate]. rewrite !elem_of_cons, elem_of_nil. intros [->|H] Hok; [apply Hs|].
  assert (a = Go 0 1000 CommandReady) as -> by naive_solver. apply Hm; [done|]. by apply apart_test_apart.
Qed.
Lemma store_stays_bounded_witness :
  (size (processes (store (world_shared tracked_world))) ≤ MAX_UNIFIED_EXEC_PROCESSES)%nat.
Proof. apply (store_stays_bounded same tracked_world). by apply tracked_world_reached. Defined.

Lemma running_processes_are_tracked_witness :
  (∃ id e, processes (store (world_shared tracked_world)) !! id = Some e ∧ entry_id e = id ∧ entry_process e = 0%nat) ∨
  ∃ i st, tasks tracked_world !! i = Some st ∧ finished st = false ∧ AProcess 0 ∈ items st.
Proof.
  apply (running_processes_are_tracked same tracked_world 0 sample_process).
  - apply tracked_world_reached; [done|]. intros w i c _ Ha. split; [exact I|exact Ha].
  - vm_compute. reflexivity.
  - split; vm_compute; reflexivity.
Defined.
Lemma finished_calls_leave_nothing_over_witness :
  (∀ p proc, procs (world_shared tracked_world) !! p = Some proc → live proc →
     ∃ id e, processes (store (world_shared tracked_world)) !! id = Some e ∧ entry_process e = p) ∧
  (∀ id, id ∈ reserved_process_ids (store (world_shared tracked_world)) → is_Some (processes (store (world_shared tracked_world)) !! id)) ∧
  (∀ r, r ∈ registered (world_shared tracked_world) →
     ∃ id e, processes (store (world_shared tracked_world)) !! id = Some e ∧ entry_registration e = Some r).
Proof.
  apply (finished_calls_leave_nothing_over same tracked_world).
  - apply tracked_world_reached; [done|]. intros w i c E Ha. split; [|exact Ha]. cbn. rewrite E. done.
  - vm_compute. repeat constructor.
Defined.
Definition allocating_world : world := Eval vm_compute in default initial (run_acts [Start ExecCommand] initial).
Lemma every_call_ends_witness :
  (∀ c w', choice_fits (world_shared allocating_world) c → perform same (Moves 0 c) allocating_world = Some w' →
     ∃ st', tasks w' !! 0%nat = Some st' ∧ (measure st' < measure Allocate)%nat) ∧
  (finished Allocate = false → (∃ id, 1000 ≤ id < 100000 ∧ id ∉ reserved_process_ids (store (world_shared allocating_world))) →
   ∃ c w', choice_fits (world_shared allocating_world) c ∧ perform same (Moves 0 c) allocating_world = Some w') ∧
  (∀ c, measure (first_stage c) ≤ 129)%nat ∧ (measure Allocate = 0%nat ↔ finished Allocate = true).
Proof.
  apply (every_call_ends same (λ _ _, True) allocating_world 0 Allocate); [|reflexivity].
  apply (run_acts_reaches _ [Start ExecCommand]); [reflexivity|done|vm_compute; reflexivity].
Defined.

(** ** What goes wrong *)

(** A call whose command is not valid, or whose patch fails, returns without
    giving its id back: nothing runs, and the id stays reserved. *)
Theorem failed_preparation_keeps_its_id prep :
  prep = InvalidCommand ∨ prep = PatchFailed →
  ∃ w, rtc (step same (λ _ _, True)) initial w ∧ tasks w = [Finished CallRejected] ∧ processes (store (world_shared w)) = ∅ ∧
    procs (world_shared w) = [] ∧ 1000 ∈ reserved_process_ids (store (world_shared w)).
Proof.
  intros Hp. exists {| world_shared := {| store := reserve 1000 store_default; procs := []; registered := ∅; clock := 0; given := [1000] |}; tasks := [Finished CallRejected] |}.
  split_and!; [|done..|cbn; set_solver].
  apply (run_acts_reaches _ [Start ExecCommand; Go 0 1000 prep; Go 0 1000 prep]); [reflexivity|done|]. by destruct Hp as [-> | ->].
Qed.
Lemma failed_preparation_keeps_its_id_witness :
  ∃ w, rtc (step same (λ _ _, True)) initial w ∧ tasks w = [Finished CallRejected] ∧ processes (store (world_shared w)) = ∅ ∧
    procs (world_shared w) = [] ∧ 1000 ∈ reserved_process_ids (store (world_shared w)).
Proof. apply (failed_preparation_keeps_its_id InvalidCommand). by left. Defined.

(** The end of all processes also forgets the ids of calls that are under way:
    an id can then be given again, and the process that is stored last takes the
    place of another, which runs on out of reach. *)
Definition twice_given : list act :=
  [Start ExecCommand; Go 0 1000 CommandReady; Start TerminateAllProcesses; Go 1 1000 CommandReady; Start ExecCommand]
  ++ background_call 2 1000 ++ replicate 5 (Go 0 1000 CommandReady).
Theorem terminating_all_frees_ids_in_use :
  ∃ w, rtc (step same orderly) initial w ∧ Forall (λ st, finished st = true) (tasks w) ∧ given (world_shared w) = [1000; 1000] ∧
    (∃ proc, procs (world_shared w) !! 0%nat = Some proc ∧ live proc) ∧
    ∀ id e, processes (store (world_shared w)) !! id = Some e → entry_process e ≠ 0%nat.
Proof.
  exists (default initial (run_acts twice_given initial)). split_and!.
  - apply (run_acts_reaches _ twice_given); [reflexivity| |vm_compute; reflexivity].
    intros a w Ha. destruct a as [c|i id prep]; [done|]. unfold twice_given, background_call in Ha. cbn in Ha. rewrite !elem_of_cons, elem_of_nil in Ha.
    assert (prep = CommandReady) as -> by naive_solver. done.
  - vm_compute. repeat constructor.
  - vm_compute. reflexivity.
  - eexists. split; [vm_compute; reflexivity|]. split; vm_compute; reflexivity.
  - apply map_Forall_lookup. apply (bool_decide_unpack _). vm_compute. exact I.
Qed.
