(* ===== verification/Template.v ===== *)
(** Templates of prompts: [codex-rs/utils/template/src/lib.rs]. Placeholders
    between double braces are replaced by values; doubled delimiters stand for
    themselves. Offsets are in bytes, as in the code. *)
From S2P Require Import Prelude RustStr TextOffsets BTreeMap.

(** * Data *)

Inductive TemplateParseError : Type :=
| EmptyPlaceholder (start : N) | NestedPlaceholder (start : N) | UnmatchedClosingDelimiter (start : N) | UnterminatedPlaceholder (start : N).
Inductive TemplateRenderError : Type := DuplicateValue (name : str) | ExtraValue (name : str) | MissingValue (name : str).
Inductive TemplateError : Type := ParseFailed (e : TemplateParseError) | RenderFailed (e : TemplateRenderError).
Inductive Segment : Type := Literal (text : str) | Placeholder (name : str).
(** [placeholders] is a sorted set. *)
Record Template : Type := { placeholders : list (str * unit); segments : list Segment }.

(** * Operations *)

Definition push_literal (segs : list Segment) (literal : str) : list Segment :=
  match literal with
  | [] => segs
  | _ :: _ =>
      match reverse segs with
      | Literal existing :: before => reverse before ++ [Literal (existing ++ literal)]
      | _ => segs ++ [Literal literal]
      end
  end.
Fixpoint placeholder_loop (fuel : nat) (source : str) (start placeholder_start cursor : N) : outcome TemplateParseError (str * N) :=
  match fuel with
  | O => OutOfFuel
  | S fuel =>
      if (cursor <? str_len source)%N then
        rest ← slice_from cursor source;
        if starts_with (lit "{{") rest then Err (NestedPlaceholder start)
        else if starts_with (lit "}}") rest then
          raw ← slice_range placeholder_start cursor source;
          let placeholder := trim raw in
          match placeholder with
          | [] => Err (EmptyPlaceholder start)
          | _ :: _ => Ok (placeholder, cursor + str_len (lit "}}"))%N
          end
        else
          match rest with
          | [] => Err (UnterminatedPlaceholder start)
          | ch :: _ => placeholder_loop fuel source start placeholder_start (cursor + len_utf8 ch)
          end
      else Err (UnterminatedPlaceholder start)
  end.
Definition parse_placeholder (source : str) (start : N) : outcome TemplateParseError (str * N) :=
  placeholder_loop (S (length source)) source start (start + str_len (lit "{{")) (start + str_len (lit "{{")).
Fixpoint parse_loop (fuel : nat) (source : str) (literal_start cursor : N) (phs : list (str * unit)) (segs : list Segment)
    : outcome TemplateParseError Template :=
  match fuel with
  | O => OutOfFuel
  | S fuel =>
      let finish := literal ← slice_from literal_start source; Ok {| placeholders := phs; segments := push_literal segs literal |} in
      if (cursor <? str_len source)%N then
        rest ← slice_from cursor source;
        if starts_with (lit "{{{{") rest then
          literal ← slice_range literal_start cursor source;
          let cursor' := (cursor + str_len (lit "{{{{"))%N in
          parse_loop fuel source cursor' cursor' phs (push_literal (push_literal segs literal) (lit "{{"))
        else if starts_with (lit "}}}}") rest then
          literal ← slice_range literal_start cursor source;
          let cursor' := (cursor + str_len (lit "}}}}"))%N in
          parse_loop fuel source cursor' cursor' phs (push_literal (push_literal segs literal) (lit "}}"))
        else if starts_with (lit "{{") rest then
          literal ← slice_range literal_start cursor source;
          '(placeholder, next_cursor) ← parse_placeholder source cursor;
          parse_loop fuel source next_cursor next_cursor (btree_insert placeholder tt phs) (push_literal segs literal ++ [Placeholder placeholder])
        else if starts_with (lit "}}") rest then Err (UnmatchedClosingDelimiter cursor)
        else
          match rest with
          | [] => finish
          | ch :: _ => parse_loop fuel source literal_start (cursor + len_utf8 ch) phs segs
          end
      else finish
  end.
Definition parse (source : str) : outcome TemplateParseError Template := parse_loop (S (length source)) source 0 0 [] [].

Definition contains_key {A} (k : str) (m : list (str * A)) : bool := if lookup_entry k m is Some _ then true else false.
Fixpoint build_variable_map (variables : list (str * str)) (map : list (str * str)) : outcome TemplateRenderError (list (str * str)) :=
  match variables with
  | [] => Ok map
  | (name, value) :: variables =>
      if contains_key name map then Err (DuplicateValue name) else build_variable_map variables (btree_insert name value map)
  end.
Fixpoint check_all (p : str → bool) (e : str → TemplateRenderError) (names : list str) : outcome TemplateRenderError unit :=
  match names with
  | [] => Ok tt
  | name :: names => if p name then check_all p e names else Err (e name)
  end.
Fixpoint render_segments (variables : list (str * str)) (segs : list Segment) (rendered : str) : outcome TemplateRenderError str :=
  match segs with
  | [] => Ok rendered
  | Literal literal :: segs => render_segments variables segs (rendered ++ literal)
  | Placeholder name :: segs =>
      match lookup_entry name variables with
      | None => Err (MissingValue name)
      | Some value => render_segments variables segs (rendered ++ value)
      end
  end.
Definition render_template (t : Template) (variables : list (str * str)) : outcome TemplateRenderError str :=
  variables ← build_variable_map variables [];
  check_all (λ name, contains_key name variables) MissingValue (placeholders t).*1 ;;
  check_all (λ name, contains_key name (placeholders t)) ExtraValue variables.*1 ;;
  render_segments variables (segments t) [].
Definition render (template : str) (variables : list (str * str)) : outcome TemplateError str :=
  t ← map_err ParseFailed (parse template);
  map_err RenderFailed (render_template t variables).

Example render_sample :
  render (lit "Hi {{ name }}, {{{{x}}}} {y}") [(lit "name", lit "Bo")] = Ok (lit "Hi Bo, {{x}} {y}") ∧
  render (lit "a {{{{{{ x }}") [(lit "x", lit "1")] = Ok (lit "a {{1") ∧ parse (lit "ab }} c") = Err (UnmatchedClosingDelimiter 3).
Proof. vm_compute. done. Qed.

(** * What a template says *)

(** A template is read as a sequence of tokens, each of which is followed by
    the text of the next ones. *)
Inductive token : Type := Char (c : N) | Open | Close | Place (before name after : str).
Definition token_text (t : token) : str :=
  match t with
  | Char c => [c]
  | Open => lit "{{{{"
  | Close => lit "}}}}"
  | Place before name after => lit "{{" ++ before ++ name ++ after ++ lit "}}"
  end.
Definition delimiter_at (s : str) : bool := starts_with (lit "{{") s || starts_with (lit "}}") s.
(** No delimiter begins within [body], when [rest] follows it. *)
Fixpoint delimiter_free (body rest : str) : bool :=
  match body with [] => true | _ :: body' => negb (delimiter_at (body ++ rest)) && delimiter_free body' rest end.
Definition blank_text (s : str) : Prop := Forall (λ c, is_whitespace c = true) s.
Definition visible (c : option N) : Prop := match c with Some c => is_whitespace c = false | None => False end.
Definition trimmed (s : str) : Prop := visible (head s) ∧ visible (last s).
Definition token_ok (t : token) (rest : str) : Prop :=
  match t with
  | Char c => delimiter_at (c :: rest) = false
  | Open | Close => True
  | Place before name after =>
      blank_text before ∧ blank_text after ∧ trimmed name ∧ delimiter_free (before ++ name ++ after) (lit "}}" ++ rest) = true
  end.
(** [reads s ts rest]: the tokens [ts] are read from [s], and [rest] remains. *)
Inductive reads : str → list token → str → Prop :=
| reads_nil s : reads s [] s
| reads_cons t s ts rest : token_ok t s → reads s ts rest → reads (token_text t ++ s) (t :: ts) rest.
Definition token_segments (segs : list Segment) (t : token) : list Segment :=
  match t with
  | Char c => push_literal segs [c]
  | Open => push_literal segs (lit "{{")
  | Close => push_literal segs (lit "}}")
  | Place _ name _ => segs ++ [Placeholder name]
  end.
Definition token_placeholders (phs : list (str * unit)) (t : token) : list (str * unit) :=
  match t with Place _ name _ => btree_insert name tt phs | _ => phs end.
Definition template_of (ts : list token) : Template :=
  {| placeholders := foldl token_placeholders [] ts; segments := foldl token_segments [] ts |}.
(** What stops the reading at a text, and the error at its offset. *)
Inductive fault : str → (N → TemplateParseError) → Prop :=
| fault_closing r : starts_with (lit "}}") r = false → fault (lit "}}" ++ r) UnmatchedClosingDelimiter
| fault_nested body r : body ≠ [] → delimiter_free body (lit "{{" ++ r) = true → fault (lit "{{" ++ body ++ lit "{{" ++ r) NestedPlaceholder
| fault_empty body r : blank_text body → delimiter_free body (lit "}}" ++ r) = true → fault (lit "{{" ++ body ++ lit "}}" ++ r) EmptyPlaceholder
| fault_unterminated body : delimiter_free body [] = true → fault (lit "{{" ++ body) UnterminatedPlaceholder.

(** * Scanning *)

Lemma before_end a c r : (str_len a <? str_len (a ++ c :: r))%N = true.
Proof. apply N.ltb_lt. rewrite str_len_app. cbn. pose proof (len_utf8_pos c). lia. Qed.
Lemma str_len_snoc a c : (str_len a + len_utf8 c)%N = str_len (a ++ [c]).
Proof. rewrite str_len_app. cbn. lia. Qed.

Lemma placeholder_skip body : ∀ fuel a r start ps,
  delimiter_free body r = true →
  placeholder_loop (length body + fuel) (a ++ body ++ r) start ps (str_len a)
  = placeholder_loop fuel (a ++ body ++ r) start ps (str_len (a ++ body)).
Proof.
  induction body as [|c body IH]; intros fuel a r start ps Hd; cbn [length Nat.add app]; [by rewrite app_nil_r|].
  cbn [delimiter_free] in Hd. apply andb_true_iff in Hd as [Hd Hb]. apply negb_true_iff, orb_false_iff in Hd as [H1 H2].
  cbn [placeholder_loop]. rewrite before_end, slice_from_app. cbn [mbind outcome_bind].
  change ((c :: body) ++ r) with (c :: body ++ r) in H1, H2. rewrite H1, H2, str_len_snoc.
  replace (a ++ c :: body ++ r) with ((a ++ [c]) ++ body ++ r) by by rewrite <- app_assoc.
  rewrite IH by done. by rewrite <- !app_assoc.
Qed.
Lemma starts_with_app p r : starts_with p (p ++ r) = true.
Proof. apply starts_with_spec. by exists r. Qed.
Lemma fuel_split (a body r : str) : ∃ k, S (length (a ++ lit "{{" ++ body ++ r)) = length body + S k.
Proof. exists (length a + 2 + length r). rewrite !length_app. change (length (lit "{{")) with 2. lia. Qed.
Lemma parse_placeholder_skip a body r :
  delimiter_free body r = true →
  ∃ k, parse_placeholder (a ++ lit "{{" ++ body ++ r) (str_len a) =
    placeholder_loop (S k) (a ++ lit "{{" ++ body ++ r) (str_len a) (str_len (a ++ lit "{{")) (str_len (a ++ lit "{{" ++ body)).
Proof.
  intros Hd. destruct (fuel_split a body r) as [k Hk]. exists k. unfold parse_placeholder. rewrite Hk, <- str_len_app.
  pose proof (placeholder_skip body (S k) (a ++ lit "{{") r (str_len a) (str_len (a ++ lit "{{")) Hd) as H. by rewrite <- !app_assoc in H.
Qed.
Lemma parse_placeholder_closed a body r :
  delimiter_free body (lit "}}" ++ r) = true →
  parse_placeholder (a ++ lit "{{" ++ body ++ lit "}}" ++ r) (str_len a) =
    match trim body with [] => Err (EmptyPlaceholder (str_len a)) | _ :: _ => Ok (trim body, str_len (a ++ lit "{{" ++ body ++ lit "}}")) end.
Proof.
  intros Hd. destruct (parse_placeholder_skip a body _ Hd) as [k ->]. cbn [placeholder_loop].
  replace (a ++ lit "{{" ++ body ++ lit "}}" ++ r) with ((a ++ lit "{{" ++ body) ++ lit "}}" ++ r) by by rewrite <- !app_assoc.
  change (lit "}}" ++ r) with (125%N :: 125%N :: r) at 1. rewrite before_end, slice_from_app. cbn [mbind outcome_bind].
  replace (starts_with (lit "{{") (lit "}}" ++ r)) with false by done. rewrite starts_with_app.
  replace ((a ++ lit "{{" ++ body) ++ lit "}}" ++ r) with ((a ++ lit "{{") ++ body ++ lit "}}" ++ r) by by rewrite <- !app_assoc.
  replace (a ++ lit "{{" ++ body) with ((a ++ lit "{{") ++ body) by by rewrite <- app_assoc. rewrite slice_range_app. cbn [mbind outcome_bind].
  replace (a ++ lit "{{" ++ body ++ lit "}}") with (((a ++ lit "{{") ++ body) ++ lit "}}") by by rewrite <- !app_assoc.
  by rewrite (str_len_app _ (lit "}}")).
Qed.
Lemma parse_placeholder_nested a body r :
  delimiter_free body (lit "{{" ++ r) = true →
  parse_placeholder (a ++ lit "{{" ++ body ++ lit "{{" ++ r) (str_len a) = Err (NestedPlaceholder (str_len a)).
Proof.
  intros Hd. destruct (parse_placeholder_skip a body _ Hd) as [k ->]. cbn [placeholder_loop].
  replace (a ++ lit "{{" ++ body ++ lit "{{" ++ r) with ((a ++ lit "{{" ++ body) ++ lit "{{" ++ r) by by rewrite <- !app_assoc.
  change (lit "{{" ++ r) with (123%N :: 123%N :: r) at 1. rewrite before_end, slice_from_app. cbn [mbind outcome_bind].
  by rewrite starts_with_app.
Qed.
Lemma parse_placeholder_unterminated a body :
  delimiter_free body [] = true → parse_placeholder (a ++ lit "{{" ++ body) (str_len a) = Err (UnterminatedPlaceholder (str_len a)).
Proof.
  intros Hd. destruct (parse_placeholder_skip a body [] Hd) as [k Hk]. rewrite !app_nil_r in Hk. rewrite Hk. cbn [placeholder_loop].
  by rewrite N.ltb_irrefl.
Qed.


(** Trimming, of what is read between the braces. *)
Lemma trim_start_split p s :
  ∃ b, Forall (λ c, p c = true) b ∧ s = b ++ trim_start_matches p s ∧
    match trim_start_matches p s with [] => True | c :: _ => p c = false end.
Proof.
  induction s as [|c s (b & Hb & Hs & Hc)]; cbn; [by exists []|]. destruct (p c) eqn:E.
  - exists (c :: b). split_and!; [by constructor|cbn; by f_equal|done].
  - exists []. split_and!; [constructor|done|done].
Qed.
Lemma trim_start_blank p b s :
  Forall (λ c, p c = true) b → match s with [] => True | c :: _ => p c = false end → trim_start_matches p (b ++ s) = s.
Proof.
  induction 1 as [|c b Hc Hb IH]; cbn; intros Hs; [|rewrite Hc; by apply IH]. destruct s as [|c s]; cbn; [done|by rewrite Hs].
Qed.
Lemma trim_end_split s : ∃ a, blank_text a ∧ s = trim_end s ++ a ∧ match last (trim_end s) with Some c => is_whitespace c = false | None => True end.
Proof.
  destruct (trim_start_split is_whitespace (reverse s)) as (b & Hb & Hs & Hc). exists (reverse b). unfold trim_end, trim_end_matches. split_and!.
  - unfold blank_text. by rewrite Forall_reverse.
  - rewrite <- reverse_app, <- Hs. by rewrite reverse_involutive.
  - rewrite last_reverse. by destruct (trim_start_matches _ _).
Qed.
Lemma trim_split s : ∃ b a, blank_text b ∧ blank_text a ∧ s = b ++ trim s ++ a ∧ (trim s = [] ∨ trimmed (trim s)).
Proof.
  destruct (trim_start_split is_whitespace s) as (b & Hb & Hs & Hc). destruct (trim_end_split (trim_start s)) as (a & Ha & Hs' & Hd).
  exists b, a. fold trim_start in *. unfold trim. split_and!; [done|done|by rewrite <- Hs'|].
  destruct (trim_end (trim_start s)) as [|c t] eqn:E; [by left|right]. unfold trimmed, visible. split.
  - rewrite Hs' in Hc. done.
  - destruct (last (c :: t)) eqn:El; [done|]. by apply last_None in El.
Qed.
Lemma trim_blank s : blank_text s → trim s = [].
Proof.
  intros Hs. unfold trim. replace s with (s ++ []) by apply app_nil_r. unfold trim_start. by rewrite trim_start_blank.
Qed.
Lemma trim_padded b n a : blank_text b → blank_text a → trimmed n → trim (b ++ n ++ a) = n.
Proof.
  intros Hb Ha [Hh Hl]. unfold trim, trim_start. rewrite trim_start_blank; [|done|by destruct n].
  unfold trim_end, trim_end_matches. rewrite reverse_app, trim_start_blank; [apply reverse_involutive|by apply Forall_reverse|].
  destruct (reverse n) as [|c t] eqn:E; [done|]. apply (f_equal reverse) in E. rewrite reverse_involutive, reverse_cons in E. subst n.
  by rewrite last_snoc in Hl.
Qed.

(** * Parsing *)

Lemma push_literal_app segs a b : push_literal (push_literal segs a) b = push_literal segs (a ++ b).
Proof.
  destruct a as [|x a]; [done|]. destruct b as [|y b]; [by rewrite app_nil_r|].
  unfold push_literal at 2 3. cbn [app]. destruct (reverse segs) as [|[existing|name] before] eqn:E.
  - cbn. rewrite reverse_snoc. cbn. by rewrite reverse_involutive.
  - cbn. rewrite reverse_snoc. cbn. by rewrite reverse_involutive, <- app_assoc.
  - cbn. rewrite reverse_snoc. cbn. by rewrite reverse_involutive.
Qed.
Lemma push_literal_nil segs : push_literal segs [] = segs.
Proof. done. Qed.
(** The loop stands between the literal [l] that it has passed and the text [s]. *)
Definition loop_at (fuel : nat) (a l s : str) (phs : list (str * unit)) (segs : list Segment) : outcome TemplateParseError Template :=
  parse_loop fuel (a ++ l ++ s) (str_len a) (str_len (a ++ l)) phs segs.
Lemma before_end_app a l c r : (str_len (a ++ l) <? str_len (a ++ l ++ c :: r))%N = true.
Proof. rewrite app_assoc. apply before_end. Qed.
Lemma slice_from_two {E} a l s : slice_from (E := E) (str_len (a ++ l)) (a ++ l ++ s) = Ok s.
Proof. rewrite app_assoc. apply slice_from_app. Qed.
(** Reads the text at the cursor. *)
Ltac at_cursor :=
  unfold loop_at; cbn [parse_loop]; rewrite ?before_end_app, slice_from_two; cbn [mbind outcome_bind].

Lemma starts_with_weaken p q r : starts_with p r = false → starts_with (p ++ q) r = false.
Proof.
  intros H. destruct (starts_with (p ++ q) r) eqn:E; [|done]. apply starts_with_spec in E as [t ->].
  rewrite <- app_assoc, starts_with_app in H. done.
Qed.
Lemma no_delimiter_at s : delimiter_at s = false →
  starts_with (lit "{{{{") s = false ∧ starts_with (lit "}}}}") s = false ∧ starts_with (lit "{{") s = false ∧ starts_with (lit "}}") s = false.
Proof.
  intros [H1 H2]%orb_false_iff. split_and!; [|..|done|done].
  - exact (starts_with_weaken (lit "{{") (lit "{{") s H1).
  - exact (starts_with_weaken (lit "}}") (lit "}}") s H2).
Qed.
Lemma loop_char fuel a l c s phs segs :
  delimiter_at (c :: s) = false → loop_at (S fuel) a l (c :: s) phs segs = loop_at fuel a (l ++ [c]) s phs segs.
Proof.
  intros (H1 & H2 & H3 & H4)%no_delimiter_at. at_cursor. rewrite H1, H2, H3, H4.
  replace (a ++ l ++ c :: s) with (a ++ (l ++ [c]) ++ s) by by rewrite <- !app_assoc.
  rewrite str_len_snoc. by rewrite <- (app_assoc a l [c]).
Qed.
Lemma loop_open fuel a l s phs segs :
  loop_at (S fuel) a l (lit "{{{{" ++ s) phs segs = loop_at fuel (a ++ l ++ lit "{{{{") [] s phs (push_literal (push_literal segs l) (lit "{{")).
Proof.
  at_cursor. change (lit "{{{{" ++ s) with (123%N :: 123%N :: 123%N :: 123%N :: s) at 1. rewrite before_end_app, starts_with_app, slice_range_app.
  cbn [mbind outcome_bind]. rewrite <- str_len_app, app_nil_r, <- !app_assoc. done.
Qed.
Lemma loop_close fuel a l s phs segs :
  loop_at (S fuel) a l (lit "}}}}" ++ s) phs segs = loop_at fuel (a ++ l ++ lit "}}}}") [] s phs (push_literal (push_literal segs l) (lit "}}")).
Proof.
  at_cursor. change (lit "}}}}" ++ s) with (125%N :: 125%N :: 125%N :: 125%N :: s) at 1. rewrite before_end_app, starts_with_app, slice_range_app.
  replace (starts_with (lit "{{{{") (lit "}}}}" ++ s)) with false by done.
  cbn [mbind outcome_bind]. rewrite <- str_len_app, app_nil_r, <- !app_assoc. done.
Qed.
(** A text after braces that does not begin with a brace opens a placeholder. *)
Lemma opens_placeholder body r : starts_with (lit "{{") (body ++ r) = false → starts_with (lit "{{{{") (lit "{{" ++ body ++ r) = false.
Proof.
  intros H. destruct (starts_with (lit "{{{{") _) eqn:E; [|done]. apply starts_with_spec in E as [t E].
  injection E as E. by rewrite E in H.
Qed.
Lemma loop_placeholder fuel a l body r phs segs :
  starts_with (lit "{{") (body ++ r) = false →
  loop_at (S fuel) a l (lit "{{" ++ body ++ r) phs segs =
    '(placeholder, next) ← parse_placeholder (a ++ l ++ lit "{{" ++ body ++ r) (str_len (a ++ l));
    parse_loop fuel (a ++ l ++ lit "{{" ++ body ++ r) next next (btree_insert placeholder tt phs) (push_literal segs l ++ [Placeholder placeholder]).
Proof.
  intros H. at_cursor. change (lit "{{" ++ body ++ r) with (123%N :: 123%N :: body ++ r) at 1. rewrite before_end_app, opens_placeholder by done.
  replace (starts_with (lit "}}}}") (lit "{{" ++ body ++ r)) with false by done. by rewrite starts_with_app, slice_range_app.
Qed.
Lemma delimiter_free_start body r : body ≠ [] → delimiter_free body r = true → starts_with (lit "{{") (body ++ r) = false.
Proof.
  destruct body as [|c body]; [done|]. cbn [delimiter_free]. intros _ [Hd _]%andb_true_iff. by apply negb_true_iff, orb_false_iff in Hd as [? _].
Qed.
Lemma trimmed_not_nil s : trimmed s → s ≠ [].
Proof. by intros [H _] ->. Qed.
Lemma loop_token fuel a l t s phs segs :
  token_ok t s → ∃ a' l' segs', a' ++ l' = a ++ l ++ token_text t ∧ push_literal segs' l' = token_segments (push_literal segs l) t ∧
    loop_at (S fuel) a l (token_text t ++ s) phs segs = loop_at fuel a' l' s (token_placeholders phs t) segs'.
Proof.
  intros Hok. destruct t as [c| | |before name after]; cbn [token_text token_segments token_placeholders] in *.
  - exists a, (l ++ [c]), segs. split_and!; [done|by rewrite push_literal_app|]. by apply loop_char.
  - eexists _, [], _. split_and!; [by rewrite app_nil_r|done|]. apply loop_open.
  - eexists _, [], _. split_and!; [by rewrite app_nil_r|done|]. apply loop_close.
  - destruct Hok as (Hb & Ha & Hn & Hd). set (body := before ++ name ++ after) in *.
    assert (Hbody : body ≠ []) by (intros E; apply app_eq_nil in E as [_ E]; apply app_eq_nil in E as [E _]; by apply trimmed_not_nil in Hn).
    replace (lit "{{" ++ before ++ name ++ after ++ lit "}}") with (lit "{{" ++ body ++ lit "}}") by (unfold body; by rewrite <- !app_assoc).
    assert (Htrim : trim body = name) by by apply trim_padded. clearbody body.
    exists (a ++ l ++ lit "{{" ++ body ++ lit "}}"), [], (push_literal segs l ++ [Placeholder name]). split_and!; [by rewrite app_nil_r|done|].
    replace ((lit "{{" ++ body ++ lit "}}") ++ s) with (lit "{{" ++ body ++ lit "}}" ++ s) by by rewrite <- !app_assoc.
    rewrite loop_placeholder by by apply delimiter_free_start.
    pose proof (parse_placeholder_closed (a ++ l) body s Hd) as Hp. rewrite <- !app_assoc in Hp. rewrite Hp.
    rewrite Htrim. destruct name as [|c name]; [by apply trimmed_not_nil in Hn|]. cbn [mbind outcome_bind].
    unfold loop_at. rewrite app_nil_r. by rewrite <- !app_assoc.
Qed.
Lemma token_text_length t : 1 ≤ length (token_text t).
Proof. destruct t; apply le_n_S, Nat.le_0_l. Qed.
Lemma loop_reads s ts rest : reads s ts rest → ∀ fuel a l phs segs, length s < fuel →
  ∃ fuel' a' l' segs', length rest < fuel' ∧ a' ++ l' ++ rest = a ++ l ++ s ∧ push_literal segs' l' = foldl token_segments (push_literal segs l) ts ∧
    loop_at fuel a l s phs segs = loop_at fuel' a' l' rest (foldl token_placeholders phs ts) segs'.
Proof.
  induction 1 as [s|t s ts rest Hok Hr IH]; intros fuel a l phs segs Hf; [by exists fuel, a, l, segs|].
  rewrite length_app in Hf. pose proof (token_text_length t). destruct fuel as [|fuel]; [lia|].
  destruct (loop_token fuel a l t s phs segs Hok) as (a1 & l1 & segs1 & Ha & Hs & ->).
  destruct (IH fuel a1 l1 (token_placeholders phs t) segs1) as (f2 & a2 & l2 & segs2 & Hf2 & Ha2 & Hs2 & ->); [lia|].
  exists f2, a2, l2, segs2. split_and!; [done| |by rewrite Hs2, Hs|done]. by rewrite Ha2, app_assoc, Ha, <- !app_assoc.
Qed.
Lemma loop_end fuel a l phs segs : loop_at (S fuel) a l [] phs segs = Ok {| placeholders := phs; segments := push_literal segs l |}.
Proof.
  unfold loop_at. cbn [parse_loop]. rewrite app_nil_r. rewrite N.ltb_irrefl. by rewrite slice_from_app.
Qed.
Lemma loop_fault fuel a l rest e phs segs : fault rest e → loop_at (S fuel) a l rest phs segs = Err (e (str_len (a ++ l))).
Proof.
  intros [r Hr|body r Hne Hd|body r Hb Hd|body Hd].
  - at_cursor. change (lit "}}" ++ r) with (125%N :: 125%N :: r) at 1. rewrite before_end_app.
    replace (starts_with (lit "{{{{") (lit "}}" ++ r)) with false by done. replace (starts_with (lit "{{") (lit "}}" ++ r)) with false by done.
    rewrite starts_with_app. destruct (starts_with (lit "}}}}") _) eqn:E; [|done]. apply starts_with_spec in E as [t E]. injection E as E. by rewrite E in Hr.
  - rewrite loop_placeholder by by apply delimiter_free_start. pose proof (parse_placeholder_nested (a ++ l) body r Hd) as Hp. rewrite <- !app_assoc in Hp. by rewrite Hp.
  - rewrite loop_placeholder; [|destruct body; [done|by apply delimiter_free_start]].
    pose proof (parse_placeholder_closed (a ++ l) body r Hd) as Hp. rewrite <- !app_assoc in Hp. by rewrite Hp, trim_blank.
  - replace (lit "{{" ++ body) with (lit "{{" ++ body ++ []) by by rewrite app_nil_r.
    rewrite loop_placeholder; [|destruct body; [done|by apply delimiter_free_start]]. rewrite app_nil_r.
    pose proof (parse_placeholder_unterminated (a ++ l) body Hd) as Hp. rewrite <- !app_assoc in Hp. by rewrite Hp.
Qed.
Lemma parse_start s : parse s = loop_at (S (length s)) [] [] s [] [].
Proof. done. Qed.
Lemma parse_reads s ts : reads s ts [] → parse s = Ok (template_of ts).
Proof.
  intros Hr. rewrite parse_start. destruct (loop_reads _ _ _ Hr (S (length s)) [] [] [] []) as (f & a & l & segs & Hf & _ & Hs & ->); [lia|].
  destruct f as [|f]; [cbn in Hf; lia|]. rewrite loop_end, Hs. done.
Qed.
Lemma parse_fault s ts rest e : reads s ts rest → fault rest e → parse s = Err (e (str_len s - str_len rest)%N).
Proof.
  intros Hr He. rewrite parse_start. destruct (loop_reads _ _ _ Hr (S (length s)) [] [] [] []) as (f & a & l & segs & Hf & Ha & _ & ->); [lia|].
  destruct f as [|f]; [cbn in Hf; lia|]. rewrite (loop_fault _ _ _ _ _ _ _ He). f_equal. f_equal.
  apply (f_equal str_len) in Ha. rewrite !str_len_app in Ha. rewrite str_len_app. cbn [str_len] in Ha. lia.
Qed.

(** Every text is read to its end, or up to a fault. *)
Lemma scan_body r : ∃ body rest, r = body ++ rest ∧ delimiter_free body rest = true ∧ (rest = [] ∨ delimiter_at rest = true).
Proof.
  induction r as [|c r (body & rest & -> & Hd & Hr)]; [by exists [], []; auto|].
  destruct (delimiter_at (c :: body ++ rest)) eqn:E; [exists [], (c :: body ++ rest); auto|].
  exists (c :: body), rest. split_and!; [done| |done]. cbn [delimiter_free app]. by rewrite E, Hd.
Qed.
Lemma reads_step s : s ≠ [] → (∃ t s', token_ok t s' ∧ s = token_text t ++ s') ∨ ∃ e, fault s e.
Proof.
  intros Hs. destruct (starts_with (lit "{{{{") s) eqn:E1; [apply starts_with_spec in E1 as [r ->]; left; by exists Open, r|].
  destruct (starts_with (lit "}}}}") s) eqn:E2; [apply starts_with_spec in E2 as [r ->]; left; by exists Close, r|].
  destruct (starts_with (lit "{{") s) eqn:E3.
  - apply starts_with_spec in E3 as [r ->]. destruct (scan_body r) as (body & rest & -> & Hd & [->|Hr]).
    { right. exists UnterminatedPlaceholder. rewrite app_nil_r. by apply fault_unterminated. }
    apply orb_true_iff in Hr as [[r' ->]%starts_with_spec|[r' ->]%starts_with_spec].
    + right. exists NestedPlaceholder. apply fault_nested; [|done]. intros ->.
      change (lit "{{" ++ [] ++ lit "{{" ++ r') with (lit "{{{{" ++ r') in E1. by rewrite starts_with_app in E1.
    + destruct (trim_split body) as (b & a & Hb & Ha & Hbody & [Hn|Hn]).
      * right. exists EmptyPlaceholder. apply fault_empty; [|done]. rewrite Hbody, Hn. by apply Forall_app_2.
      * left. exists (Place b (trim body) a), r'. split.
        -- split_and!; [done..|]. by rewrite <- Hbody.
        -- cbn [token_text]. rewrite Hbody at 1. by rewrite <- !app_assoc.
  - destruct (starts_with (lit "}}") s) eqn:E4.
    + apply starts_with_spec in E4 as [r ->]. right. exists UnmatchedClosingDelimiter. apply fault_closing.
      destruct (starts_with (lit "}}") r) eqn:E; [|done]. apply starts_with_spec in E as [r' ->].
      change (lit "}}" ++ lit "}}" ++ r') with (lit "}}}}" ++ r') in E2. by rewrite starts_with_app in E2.
    + left. destruct s as [|c s]; [done|]. exists (Char c), s. split; [|done]. cbn. unfold delimiter_at. by rewrite E3, E4.
Qed.
Lemma reads_total s : (∃ ts, reads s ts []) ∨ ∃ ts rest e, reads s ts rest ∧ fault rest e.
Proof.
  induction s as [s IH] using (induction_ltof1 _ length). unfold ltof in IH. destruct s as [|c s]; [left; exists []; constructor|].
  destruct (reads_step (c :: s)) as [(t & s' & Hok & E)|[e He]]; [done| |right; exists [], (c :: s), e; split; [constructor|done]].
  rewrite E in *. destruct (IH s') as [[ts Hts]|(ts & rest & e & Hts & He)].
  - rewrite length_app. pose proof (token_text_length t). lia.
  - left. exists (t :: ts). by constructor.
  - right. exists (t :: ts), rest, e. split; [by constructor|done].
Qed.

(** * Rendering *)

Definition placeholder_names (ts : list token) : list str := omap (λ t, match t with Place _ name _ => Some name | _ => None end) ts.
Definition token_value (variables : list (str * str)) (t : token) : str :=
  match t with
  | Char c => [c]
  | Open => lit "{{"
  | Close => lit "}}"
  | Place _ name _ => default [] (lookup_entry name variables)
  end.
Lemma contains_key_spec {A} k (m : list (str * A)) : contains_key k m = true ↔ k ∈ m.*1.
Proof.
  unfold contains_key. destruct (lookup_entry k m) eqn:E; split; try done.
  - intros _. apply lookup_entry_elem in E. by apply (list_elem_of_fmap_2 fst) in E.
  - by rewrite lookup_entry_None in E.
Qed.
Lemma elem_of_btree_insert {A} k v (m : list (str * A)) x : x ∈ (btree_insert k v m).*1 ↔ x = k ∨ x ∈ m.*1.
Proof.
  rewrite <- !contains_key_spec. unfold contains_key. destruct (decide (x = k)) as [->|Hne].
  - rewrite lookup_entry_insert. naive_solver.
  - rewrite lookup_entry_insert_ne by done. naive_solver.
Qed.
Lemma template_placeholders ts n : n ∈ (placeholders (template_of ts)).*1 ↔ n ∈ placeholder_names ts.
Proof.
  unfold template_of. cbn [placeholders]. assert (H : ∀ m, n ∈ (foldl token_placeholders m ts).*1 ↔ n ∈ m.*1 ∨ n ∈ placeholder_names ts).
  { induction ts as [|t ts IH]; intros m; cbn; [set_solver|]. rewrite IH. destruct t; cbn; [done..|]. rewrite elem_of_btree_insert, elem_of_cons. tauto. }
  rewrite H. cbn. set_solver.
Qed.
Lemma check_all_spec p e names :
  match check_all p e names with
  | Ok _ => ∀ n, n ∈ names → p n = true
  | Err err => ∃ n, n ∈ names ∧ p n = false ∧ err = e n
  | _ => False
  end.
Proof.
  induction names as [|n names IH]; cbn; [by intros ? ?%elem_of_nil|]. destruct (p n) eqn:E.
  - destruct (check_all p e names); try done.
    + intros x [->|Hx]%elem_of_cons; auto.
    + destruct IH as (x & Hx & ? & ?). exists x. split_and!; [by right|done..].
  - exists n. split_and!; [left|done..].
Qed.
Lemma build_spec vars : ∀ map, 
  match build_variable_map vars map with
  | Ok m => NoDup vars.*1 ∧ (∀ n, n ∈ vars.*1 → n ∉ map.*1) ∧ (∀ n, n ∈ m.*1 ↔ n ∈ vars.*1 ∨ n ∈ map.*1) ∧
      ∀ n, lookup_entry n m = match lookup_entry n vars with Some v => Some v | None => lookup_entry n map end
  | Err e => ∃ n, e = DuplicateValue n ∧ n ∈ vars.*1 ∧ ¬ (NoDup vars.*1 ∧ ∀ n, n ∈ vars.*1 → n ∉ map.*1)
  | _ => False
  end.
Proof.
  induction vars as [|[name value] vars IH]; intros map; [cbn; split_and!; [constructor|by intros ? ?%elem_of_nil|set_solver|done]|].
  cbn [build_variable_map fmap list_fmap fst].
  destruct (contains_key name map) eqn:E.
  - apply contains_key_spec in E. exists name. split_and!; [done|left|]. intros [_ H]. apply (H name); [left|done].
  - assert (Hname : name ∉ map.*1) by (rewrite <- contains_key_spec, E; done).
    specialize (IH (btree_insert name value map)). destruct (build_variable_map vars _) as [m|e| |]; [| |done..].
    + destruct IH as (Hnd & Hfresh & Hkeys & Hlook). setoid_rewrite elem_of_btree_insert in Hfresh. setoid_rewrite elem_of_btree_insert in Hkeys. split_and!.
      * constructor; [|done]. intros Hin. apply (Hfresh _ Hin). by left.
      * intros n [->|Hn]%elem_of_cons; [done|]. intros Hm. apply (Hfresh _ Hn). by right.
      * intros n. rewrite Hkeys, elem_of_cons. tauto.
      * intros n. rewrite Hlook, lookup_entry_cons. cbn [fst snd]. case_decide as Hn.
        -- subst n. assert (lookup_entry name vars = None) as -> by (apply lookup_entry_None; intros Hin; apply (Hfresh _ Hin); by left).
           apply lookup_entry_insert.
        -- by rewrite lookup_entry_insert_ne.
    + destruct IH as (n & -> & Hn & Hnot). exists n. split_and!; [done|by right|]. intros [[Hni Hnd]%NoDup_cons H]. apply Hnot. split; [done|].
      intros x Hx. rewrite elem_of_btree_insert. intros [->|Hm]; [done|]. apply (H x); [by right|done].
Qed.
Definition segment_value (variables : list (str * str)) (s : Segment) : str :=
  match s with Literal text => text | Placeholder name => default [] (lookup_entry name variables) end.
Lemma concat_snoc {A} (l : list (list A)) x : concat (l ++ [x]) = concat l ++ x.
Proof. by rewrite concat_app; cbn; rewrite app_nil_r. Qed.
Lemma push_literal_value vars segs l :
  concat (segment_value vars <$> push_literal segs l) = concat (segment_value vars <$> segs) ++ l.
Proof.
  destruct l as [|x l]; [by rewrite app_nil_r|]. unfold push_literal. destruct (reverse segs) as [|[existing|name] before] eqn:E;
    apply (f_equal reverse) in E; rewrite reverse_involutive in E; subst segs; rewrite ?reverse_cons, ?fmap_app, ?concat_snoc, ?fmap_app; cbn;
    rewrite ?concat_snoc; cbn; rewrite ?app_nil_r, <- ?app_assoc; done.
Qed.
Lemma template_value vars ts :
  concat (segment_value vars <$> segments (template_of ts)) = concat (token_value vars <$> ts).
Proof.
  unfold template_of. cbn [segments]. assert (H : ∀ segs, concat (segment_value vars <$> foldl token_segments segs ts) =
    concat (segment_value vars <$> segs) ++ concat (token_value vars <$> ts)); [|by rewrite H].
  induction ts as [|t ts IH]; intros segs; cbn [foldl fmap list_fmap concat]; [by rewrite app_nil_r|].
  rewrite IH, app_assoc. f_equal. destruct t; cbn [token_segments token_value]; try apply push_literal_value.
  rewrite fmap_app. apply concat_snoc.
Qed.
Lemma template_segment_names ts n : Placeholder n ∈ segments (template_of ts) → n ∈ placeholder_names ts.
Proof.
  unfold template_of. cbn [segments]. assert (H : ∀ segs, Placeholder n ∈ foldl token_segments segs ts → Placeholder n ∈ segs ∨ n ∈ placeholder_names ts);
    [|intros Hin; by destruct (H _ Hin) as [?%elem_of_nil|]].
  assert (Hl : ∀ segs l, Placeholder n ∈ push_literal segs l → Placeholder n ∈ segs).
  { intros segs [|x l]; [done|]. unfold push_literal. destruct (reverse segs) as [|[existing|name] before] eqn:E;
      apply (f_equal reverse) in E; rewrite reverse_involutive in E; subst segs; rewrite ?reverse_cons, !elem_of_app, ?list_elem_of_singleton; naive_solver. }
  induction ts as [|t ts IH]; intros segs; cbn; [auto|]. intros [Hin|Hin]%IH; [|right; destruct t; cbn; [done..|by right]].
  destruct t; cbn [token_segments] in Hin; [left; by eapply Hl..|].
  apply elem_of_app in Hin as [?|Hin]; [auto|right]. apply list_elem_of_singleton in Hin as [= ->]. left.
Qed.
Lemma render_segments_ok vars segs : ∀ acc,
  (∀ n, Placeholder n ∈ segs → is_Some (lookup_entry n vars)) → render_segments vars segs acc = Ok (acc ++ concat (segment_value vars <$> segs)).
Proof.
  induction segs as [|[text|name] segs IH]; intros acc H; cbn; [by rewrite app_nil_r|..].
  - rewrite IH, <- app_assoc; [done|]. intros n Hn. apply H. by right.
  - destruct (H name) as [v ->]; [left|]. rewrite IH, <- app_assoc; [done|]. intros n Hn. apply H. by right.
Qed.
Lemma segment_value_ext vars vars' (segs : list Segment) :
  (∀ n, lookup_entry n vars = lookup_entry n vars') → segment_value vars <$> segs = segment_value vars' <$> segs.
Proof. intros H. apply list_fmap_ext. intros ? [text|name] _; cbn; [done|by rewrite H]. Qed.

(** * Properties *)

(** C22. What rendering does, on every template and all values. It fails exactly as
    it says: the template has a delimiter out of place, at the offset given, or
    a name is given twice, has no value, or is not in the template. Otherwise
    the names of the values are those of the placeholders, and the result is
    the text with each placeholder replaced and doubled delimiters undone. *)
Theorem render_spec template variables :
  match render template variables with
  | Ok out => ∃ ts, reads template ts [] ∧ NoDup variables.*1 ∧ (∀ n, n ∈ variables.*1 ↔ n ∈ placeholder_names ts) ∧
      out = concat (token_value variables <$> ts)
  | Err (ParseFailed e) => ∃ ts rest f, reads template ts rest ∧ fault rest f ∧ e = f (str_len template - str_len rest)%N
  | Err (RenderFailed e) => ∃ ts, reads template ts [] ∧
      match e with
      | DuplicateValue n => n ∈ variables.*1 ∧ ¬ NoDup variables.*1
      | MissingValue n => NoDup variables.*1 ∧ n ∈ placeholder_names ts ∧ n ∉ variables.*1
      | ExtraValue n => NoDup variables.*1 ∧ (∀ m, m ∈ placeholder_names ts → m ∈ variables.*1) ∧ n ∈ variables.*1 ∧ n ∉ placeholder_names ts
      end
  | Panic | OutOfFuel => False
  end.
Proof.
  unfold render. destruct (reads_total template) as [[ts Hts]|(ts & rest & f & Hts & Hf)]; cycle 1.
  { rewrite (parse_fault _ _ _ _ Hts Hf). cbn. by exists ts, rest, f. }
  rewrite (parse_reads _ _ Hts). cbn [map_err mbind outcome_bind]. unfold render_template.
  pose proof (build_spec variables []) as Hb. destruct (build_variable_map variables []) as [m|e| |]; [| |done..]; cycle 1.
  { destruct Hb as (n & -> & Hn & Hnot). cbn. exists ts. split_and!; [done..|]. intros Hnd. apply Hnot. split; [done|]. intros x _ ?%elem_of_nil. done. }
  destruct Hb as (Hnd & _ & Hkeys & Hlook). assert (Hkeys' : ∀ n, n ∈ m.*1 ↔ n ∈ variables.*1).
  { intros n. rewrite Hkeys. cbn. rewrite elem_of_nil. tauto. }
  cbn [mbind outcome_bind]. pose proof (check_all_spec (λ name, contains_key name m) MissingValue (placeholders (template_of ts)).*1) as H1.
  destruct (check_all _ MissingValue _) as [[]|e| |]; [| |done..]; cycle 1.
  { destruct H1 as (n & Hn & Hm & ->). cbn. exists ts. split_and!; [done..|by apply template_placeholders|].
    rewrite <- Hkeys', <- contains_key_spec, Hm. done. }
  cbn [mbind outcome_bind]. pose proof (check_all_spec (λ name, contains_key name (placeholders (template_of ts))) ExtraValue m.*1) as H2.
  assert (Hsub : ∀ n, n ∈ placeholder_names ts → n ∈ variables.*1).
  { intros n Hn. apply Hkeys', contains_key_spec, H1. by apply template_placeholders. }
  destruct (check_all _ ExtraValue _) as [[]|e| |]; [| |done..]; cycle 1.
  { destruct H2 as (n & Hn & Hm & ->). cbn. exists ts. split_and!; [done..|by apply Hkeys'|].
    rewrite <- template_placeholders, <- contains_key_spec, Hm. done. }
  cbn [mbind outcome_bind]. rewrite render_segments_ok.
  - cbn [map_err app]. exists ts. split_and!; [done..| |].
    + intros n. split; [|by apply Hsub]. intros Hn. by apply template_placeholders, contains_key_spec, H2, Hkeys'.
    + rewrite (segment_value_ext m variables), template_value; [done|]. intros n. rewrite Hlook. by destruct (lookup_entry n variables).
  - intros n Hn%template_segment_names%Hsub. rewrite Hlook. destruct (lookup_entry n variables) eqn:E; [done|]. by apply lookup_entry_None in E.
Qed.
