(* ===== verification/Truncate.v ===== *)
(** Shortening text for the model: [codex-rs/utils/string/src/truncate.rs],
    parts of [codex-rs/utils/string/src/lib.rs], and
    [codex-rs/utils/output-truncation/src/lib.rs]. Lengths are byte lengths of
    UTF-8 text as [usize]. *)
From S2P Require Import Prelude RustStr.

Definition APPROX_BYTES_PER_TOKEN : N := 4.
Definition approx_token_count (text : str) : N :=
  (saturating_add (str_len text) (APPROX_BYTES_PER_TOKEN - 1) / APPROX_BYTES_PER_TOKEN)%N.
Definition approx_bytes_for_tokens (tokens : N) : N := saturating_mul tokens APPROX_BYTES_PER_TOKEN.
(** [u64], which has the width of [usize]. *)
Definition approx_tokens_from_byte_count (bytes : N) : N :=
  (saturating_add bytes (APPROX_BYTES_PER_TOKEN - 1) / APPROX_BYTES_PER_TOKEN)%N.
Definition I64_MAX : Z := 9223372036854775807.
Definition approx_tokens_from_byte_count_i64 (bytes : Z) : Z :=
  if (bytes <=? 0)%Z then 0%Z
  else Z.min (Z.of_N (approx_tokens_from_byte_count (N.min (Z.to_N bytes) USIZE_MAX))) I64_MAX.

(** * Prefixes and suffixes at character boundaries *)

Fixpoint take_loop (i last_ok maxb : N) (s : str) : N :=
  match s with
  | [] => last_ok
  | ch :: s' => let nb := (i + len_utf8 ch)%N in
                if (maxb <? nb)%N then last_ok else take_loop nb nb maxb s'
  end.
Definition take_bytes_at_char_boundary (s : str) (maxb : N) : outcome Empty_set str :=
  if (str_len s <=? maxb)%N then Ok s else slice_to (take_loop 0 0 maxb s) s.

(** The characters from the last one; [i] is where the current one ends. *)
Fixpoint take_last_loop (i start used maxb : N) (rev : str) : N :=
  match rev with
  | [] => start
  | ch :: rev' =>
      let nb := len_utf8 ch in
      if (maxb <? used + nb)%N then start
      else let start' := (i - nb)%N in
           if (start' =? 0)%N then start' else take_last_loop start' start' (used + nb) maxb rev'
  end.
Definition take_last_bytes_at_char_boundary (s : str) (maxb : N) : outcome Empty_set str :=
  if (str_len s <=? maxb)%N then Ok s
  else slice_from (take_last_loop (str_len s) (str_len s) 0 maxb (reverse s)) s.

(** * The middle of a text *)

Definition split_budget (budget : N) : N * N := (budget / 2, budget - budget / 2)%N.

Definition ellipsis : str := [8230%N].
Definition format_truncation_marker (use_tokens : bool) (removed_count : N) : str :=
  if use_tokens then ellipsis ++ show_N removed_count ++ lit " tokens truncated" ++ ellipsis
  else ellipsis ++ show_N removed_count ++ lit " chars truncated" ++ ellipsis.
Definition removed_units (use_tokens : bool) (removed_bytes removed_chars : N) : N :=
  if use_tokens then approx_tokens_from_byte_count removed_bytes else removed_chars.
Definition assemble_truncated_output (prefix suffix marker : str) : str := prefix ++ marker ++ suffix.

(** The state of the loop of [split_string]. *)
Record split_state : Type := {
  prefix_end : N; suffix_start : N; removed_chars : N; suffix_started : bool }.
Definition split_step (beginning_bytes tail_start_target idx : N) (ch : N) (st : split_state) : split_state :=
  let char_end := (idx + len_utf8 ch)%N in
  if (char_end <=? beginning_bytes)%N
  then {| prefix_end := char_end; suffix_start := suffix_start st;
          removed_chars := removed_chars st; suffix_started := suffix_started st |}
  else if (tail_start_target <=? idx)%N then
    if suffix_started st then st
    else {| prefix_end := prefix_end st; suffix_start := idx;
            removed_chars := removed_chars st; suffix_started := true |}
  else {| prefix_end := prefix_end st; suffix_start := suffix_start st;
          removed_chars := saturating_add (removed_chars st) 1; suffix_started := suffix_started st |}.
Fixpoint split_loop (beginning_bytes tail_start_target idx : N) (s : str) (st : split_state) : split_state :=
  match s with
  | [] => st
  | ch :: s' => split_loop beginning_bytes tail_start_target (idx + len_utf8 ch) s'
                  (split_step beginning_bytes tail_start_target idx ch st)
  end.
Definition split_string (s : str) (beginning_bytes end_bytes : N) : outcome Empty_set (N * str * str) :=
  if decide (s = []) then Ok (0%N, [], [])
  else
    let length := str_len s in
    let st := split_loop beginning_bytes (length - end_bytes) 0 s
                {| prefix_end := 0; suffix_start := length; removed_chars := 0; suffix_started := false |} in
    let suffix_start := if (suffix_start st <? prefix_end st)%N then prefix_end st else suffix_start st in
    before ← slice_to (prefix_end st) s;
    after ← slice_from suffix_start s;
    Ok (removed_chars st, before, after).

Definition truncate_with_byte_estimate (s : str) (max_bytes : N) (use_tokens : bool)
    : outcome Empty_set str :=
  if decide (s = []) then Ok []
  else
    let total_chars := len s in
    if (max_bytes =? 0)%N
    then Ok (format_truncation_marker use_tokens (removed_units use_tokens (str_len s) total_chars))
    else if (str_len s <=? max_bytes)%N then Ok s
    else
      let '(left_budget, right_budget) := split_budget max_bytes in
      '(removed_chars, prefix, suffix) ← split_string s left_budget right_budget;
      Ok (assemble_truncated_output prefix suffix
            (format_truncation_marker use_tokens
               (removed_units use_tokens (str_len s - max_bytes) removed_chars))).

Definition truncate_middle_chars (s : str) (max_bytes : N) : outcome Empty_set str :=
  truncate_with_byte_estimate s max_bytes false.
Definition truncate_middle_with_token_budget (s : str) (max_tokens : N)
    : outcome Empty_set (str * option N) :=
  if decide (s = []) then Ok ([], None)
  else if (0 <? max_tokens)%N && (str_len s <=? approx_bytes_for_tokens max_tokens)%N then Ok (s, None)
  else
    truncated ← truncate_with_byte_estimate s (approx_bytes_for_tokens max_tokens) true;
    Ok (if decide (truncated = s) then (truncated, None) else (truncated, Some (approx_token_count s))).

(** * Policies *)

Inductive TruncationPolicy : Type := Bytes (bytes : N) | Tokens (tokens : N).
Definition token_budget (p : TruncationPolicy) : N :=
  match p with Bytes bytes => approx_tokens_from_byte_count bytes | Tokens tokens => tokens end.
Definition byte_budget (p : TruncationPolicy) : N :=
  match p with Bytes bytes => bytes | Tokens tokens => approx_bytes_for_tokens tokens end.

Definition truncate_text (content : str) (policy : TruncationPolicy) : outcome Empty_set str :=
  match policy with
  | Bytes bytes => truncate_middle_chars content bytes
  | Tokens tokens => '(t, _) ← truncate_middle_with_token_budget content tokens; Ok t
  end.
Definition formatted_truncate_text (content : str) (policy : TruncationPolicy) : outcome Empty_set str :=
  if (str_len content <=? byte_budget policy)%N then Ok content
  else
    result ← truncate_text content policy;
    Ok (lit "Total output lines: " ++ show_nat (length (lines content)) ++ [nl; nl] ++ result).

(** Items of a function output; the detail of an image is kept as it is. *)
Inductive FunctionCallOutputContentItem (Detail : Type) : Type :=
| InputText (text : str)
| InputImage (image_url : str) (detail : option Detail).
Arguments InputText {Detail}.
Arguments InputImage {Detail}.

Section items.
Context {Detail : Type}.
Abbreviation item := (FunctionCallOutputContentItem Detail).

Definition text_of (i : item) : option str :=
  match i with InputText text => Some text | InputImage _ _ => None end.
Definition image_of (i : item) : option item :=
  match i with InputText _ => None | InputImage image_url detail => Some (InputImage image_url detail) end.
Fixpoint combine_texts (combined : str) (texts : list str) : str :=
  match texts with
  | [] => combined
  | text :: texts' =>
      combine_texts ((if decide (combined = []) then [] else combined ++ [nl]) ++ text) texts'
  end.

Definition formatted_truncate_text_content_items_with_policy (items : list item)
    (policy : TruncationPolicy) : outcome Empty_set (list item * option N) :=
  let text_segments := omap text_of items in
  if decide (text_segments = []) then Ok (items, None)
  else
    let combined := combine_texts [] text_segments in
    if (str_len combined <=? byte_budget policy)%N then Ok (items, None)
    else
      text ← formatted_truncate_text combined policy;
      Ok (InputText text :: omap image_of items, Some (approx_token_count combined)).

Definition text_cost (policy : TruncationPolicy) (text : str) : N :=
  match policy with Bytes _ => str_len text | Tokens _ => approx_token_count text end.
Definition with_budget (policy : TruncationPolicy) (n : N) : TruncationPolicy :=
  match policy with Bytes _ => Bytes n | Tokens _ => Tokens n end.
Fixpoint truncate_items_loop (policy : TruncationPolicy) (items : list item)
    (remaining_budget omitted_text_items : N) : outcome Empty_set (list item * N) :=
  match items with
  | [] => Ok ([], omitted_text_items)
  | InputText text :: items' =>
      if (remaining_budget =? 0)%N
      then truncate_items_loop policy items' remaining_budget (omitted_text_items + 1)
      else
        let cost := text_cost policy text in
        if (cost <=? remaining_budget)%N then
          '(out, omitted) ← truncate_items_loop policy items' (remaining_budget - cost) omitted_text_items;
          Ok (InputText text :: out, omitted)
        else
          snippet ← truncate_text text (with_budget policy remaining_budget);
          if decide (snippet = []) then truncate_items_loop policy items' 0 (omitted_text_items + 1)
          else
            '(out, omitted) ← truncate_items_loop policy items' 0 omitted_text_items;
            Ok (InputText snippet :: out, omitted)
  | InputImage image_url detail :: items' =>
      '(out, omitted) ← truncate_items_loop policy items' remaining_budget omitted_text_items;
      Ok (InputImage image_url detail :: out, omitted)
  end.
Definition truncate_function_output_items_with_policy (items : list item) (policy : TruncationPolicy)
    : outcome Empty_set (list item) :=
  let budget := match policy with Bytes _ => byte_budget policy | Tokens _ => token_budget policy end in
  '(out, omitted) ← truncate_items_loop policy items budget 0;
  Ok (if (0 <? omitted)%N
      then out ++ [InputText (lit "[omitted " ++ show_N omitted ++ lit " text items ...]")] else out).
End items.

(** * Lemmas: the three parts of a text *)

(** The longest prefix of at most [b] bytes, and the rest. *)
Fixpoint fitting (b : N) (s : str) : str * str :=
  match s with
  | [] => ([], [])
  | c :: s' => if (len_utf8 c <=? b)%N
               then let '(p, r) := fitting (b - len_utf8 c) s' in (c :: p, r) else ([], s)
  end.
(** The characters that start before [target], the first starting at [i]. *)
Fixpoint before_target (target i : N) (s : str) : str * str :=
  match s with
  | [] => ([], [])
  | c :: s' => if (i <? target)%N
               then let '(m, a) := before_target target (i + len_utf8 c) s' in (c :: m, a) else ([], s)
  end.

Definition too_long (b i : N) (s : str) : Prop :=
  match s with [] => True | c :: _ => (b < i + len_utf8 c)%N end.

Lemma fitting_spec b s p r :
  fitting b s = (p, r) → s = p ++ r ∧ (str_len p ≤ b)%N ∧ too_long b (str_len p) r.
Proof.
  revert b p r. induction s as [|c s IH]; intros b p r; simpl.
  { intros [= <- <-]. split; [done|]. split; [simpl; lia|done]. }
  destruct (N.leb_spec (len_utf8 c) b) as [Hle|Hlt].
  - destruct (fitting (b - len_utf8 c) s) as [p' r'] eqn:E. intros [= <- <-].
    destruct (IH _ _ _ E) as (-> & Hp & Hr). split; [done|]. split; [simpl; lia|].
    destruct r' as [|d r']; [done|]. simpl in *. lia.
  - intros [= <- <-]. split; [done|]. split; [simpl; lia|]. simpl. lia.
Qed.

Lemma before_target_spec t i s m a :
  before_target t i s = (m, a) →
  s = m ++ a ∧ (a = [] ∨ t ≤ i + str_len m)%N
  ∧ ∀ m' c, m = m' ++ [c] → (i + str_len m' < t)%N.
Proof.
  revert i m a. induction s as [|c s IH]; intros i m a; simpl.
  { intros [= <- <-]. split; [done|]. split; [by left|]. by intros []. }
  destruct (N.ltb_spec i t) as [Hlt|Hge].
  - destruct (before_target t (i + len_utf8 c) s) as [m' a'] eqn:E. intros [= <- <-].
    destruct (IH _ _ _ E) as (-> & Ha & Hm). split; [done|]. split.
    + destruct Ha as [->|Ha]; [by left|right; simpl; lia].
    + intros [|x m''] d.
      * intros [= _ _]. simpl. lia.
      * intros [= <- Hm']. specialize (Hm _ _ Hm'). simpl. lia.
  - intros [= <- <-]. split; [done|]. split; [right; simpl; lia|]. by intros [].
Qed.

Lemma split_loop_prefix b t i p r st :
  prefix_end st = i → (i + str_len p ≤ b)%N →
  split_loop b t i (p ++ r) st =
  split_loop b t (i + str_len p) r
    {| prefix_end := i + str_len p; suffix_start := suffix_start st;
       removed_chars := removed_chars st; suffix_started := suffix_started st |}.
Proof.
  revert i st. induction p as [|c p IH]; intros i st Hst Hb; simpl.
  { rewrite N.add_0_r. destruct st; simpl in *; by subst. }
  simpl in Hb. unfold split_step at 1. cmp_lia.
  rewrite IH by (simpl; lia). simpl. by rewrite N.add_assoc.
Qed.

Lemma split_loop_suffix b t i a st :
  too_long b i a → (a = [] ∨ t ≤ i)%N → suffix_started st = true → split_loop b t i a st = st.
Proof.
  revert i. induction a as [|c a IH]; intros i Hb Ht Hst; simpl; [done|].
  destruct Ht as [?|Ht]; [done|]. simpl in Hb. unfold split_step.
  cmp_lia. cmp_lia. rewrite Hst.
  apply IH; [|right; lia|done]. destruct a as [|d a]; [done|]. simpl. lia.
Qed.

Lemma split_loop_rest b t i s m a st :
  before_target t i s = (m, a) → too_long b i s → suffix_started st = false →
  ∃ removed, split_loop b t i s st =
    {| prefix_end := prefix_end st;
       suffix_start := match a with [] => suffix_start st | _ => i + str_len m end;
       removed_chars := removed;
       suffix_started := match a with [] => false | _ => true end |}%N
    ∧ (removed_chars st + len s ≤ USIZE_MAX → removed = removed_chars st + len m)%N.
Proof.
  revert i m a st. induction s as [|c s IH]; intros i m a st Hm Hb Hst; simpl in Hm.
  { injection Hm as <- <-. exists (removed_chars st). unfold len. simpl. rewrite !N.add_0_r.
    destruct st; simpl in *; by subst. }
  simpl in Hb. assert (too_long b (i + len_utf8 c) s) as Hb'.
  { destruct s as [|d s]; [done|]. simpl. lia. }
  cbn [split_loop]. unfold split_step at 1. cmp_lia.
  destruct (N.ltb_spec i t) as [Hlt|Hge].
  - cmp_lia.
    destruct (before_target t (i + len_utf8 c) s) as [m' a'] eqn:E. injection Hm as <- <-.
    unfold len in *. cbn [length] in *.
    destruct (IH _ _ _ {| prefix_end := prefix_end st; suffix_start := suffix_start st;
      removed_chars := saturating_add (removed_chars st) 1; suffix_started := suffix_started st |} E Hb' Hst)
      as (removed & -> & Hr). simpl in Hr. exists removed. split.
    + f_equal. simpl. destruct a'; [done|lia].
    + unfold saturating_add in Hr. lia.
  - cmp_lia. rewrite Hst. injection Hm as <- <-. exists (removed_chars st).
    rewrite split_loop_suffix; [|done|right; lia|done]. unfold len. simpl. by rewrite !N.add_0_r.
Qed.

(** [split_string]: a prefix within the first budget, a suffix within the
    second, both as long as they can be, and the number of characters between. *)
Lemma split_string_spec s b e :
  s ≠ [] →
  ∃ removed p m a, s = p ++ m ++ a ∧ split_string s b e = Ok (removed, p, a)
    ∧ ((str_len s ≤ USIZE_MAX)%N → removed = len m)
    ∧ (str_len p ≤ b)%N ∧ (str_len a ≤ e)%N
    ∧ (m ++ a = [] ∨ ∃ c, head (m ++ a) = Some c ∧ b < str_len p + len_utf8 c)%N
    ∧ (m = [] ∨ ∃ c, last m = Some c ∧ e < len_utf8 c + str_len a)%N.
Proof.
  intros Hne. unfold split_string. rewrite decide_False by done.
  destruct (fitting b s) as [p r] eqn:Ef. destruct (fitting_spec _ _ _ _ Ef) as (Hs & Hp & Hr).
  destruct (before_target (str_len s - e) (str_len p) r) as [m a] eqn:Eb.
  destruct (before_target_spec _ _ _ _ _ Eb) as (Hr' & Ha & Hm). subst r.
  pose proof (str_len_ge s) as Hls. rewrite Hs in Hls at 1. rewrite !len_app in Hls.
  assert (str_len s = str_len p + (str_len m + str_len a))%N as Hlen by (by rewrite Hs, !str_len_app).
  remember (str_len s) as total eqn:Et. rewrite Hs.
  rewrite (split_loop_prefix b _ 0 p (m ++ a)) by (simpl; lia).
  rewrite N.add_0_l. cbn [suffix_start removed_chars suffix_started].
  destruct (split_loop_rest _ _ _ _ _ _ {| prefix_end := str_len p; suffix_start := total; removed_chars := 0;
    suffix_started := false |} Eb Hr eq_refl) as (removed & -> & Hrem).
  simpl in Hrem. rewrite len_app in Hrem. exists removed, p, m, a. split; [done|].
  cbn [prefix_end suffix_start removed_chars].
  replace (if (match a with [] => total | _ => (str_len p + str_len m)%N end <? str_len p)%N
           then str_len p else match a with [] => total | _ => (str_len p + str_len m)%N end)
    with (str_len (p ++ m)).
  2:{ rewrite str_len_app. rewrite Hlen. destruct a as [|c a]; simpl;
        (rewrite (proj2 (N.ltb_ge _ _)); lia). }
  rewrite slice_to_app. run_bind.
  rewrite (app_assoc p m a), slice_from_app. run_bind.
  split; [done|]. split; [lia|]. split; [done|]. split; [destruct Ha as [->|Ha]; [simpl; lia|lia]|]. split.
  - destruct (m ++ a) as [|c x] eqn:E; [by left|right]. exists c. split; [done|]. exact Hr.
  - destruct m as [|c m _] using rev_ind; [by left|right]. exists c. rewrite last_snoc. split; [done|].
    specialize (Hm m c eq_refl). rewrite str_len_app in Hlen. simpl in Hlen. lia.
Qed.

(** The two boundary functions take the longest prefix and suffix that fit. *)
Lemma take_loop_spec i maxb s :
  (i ≤ maxb)%N → take_loop i i maxb s = (i + str_len (fitting (maxb - i) s).1)%N.
Proof.
  revert i. induction s as [|c s IH]; intros i Hi; simpl; [lia|].
  destruct (N.ltb_spec maxb (i + len_utf8 c)).
  - cmp_lia. simpl. lia.
  - cmp_lia. rewrite IH by lia.
    replace (maxb - (i + len_utf8 c))%N with (maxb - i - len_utf8 c)%N by lia.
    destruct (fitting _ s) as [p r]. simpl. lia.
Qed.

Lemma take_bytes_longest s maxb : take_bytes_at_char_boundary s maxb = Ok (fitting maxb s).1.
Proof.
  unfold take_bytes_at_char_boundary. destruct (fitting maxb s) as [p r] eqn:E.
  destruct (fitting_spec _ _ _ _ E) as (Hs & Hp & Hr). cbn [fst].
  destruct (N.leb_spec (str_len s) maxb) as [Hle|Hgt].
  - f_equal. rewrite Hs in Hle |- *. rewrite str_len_app in Hle. destruct r as [|c r]; [by rewrite app_nil_r|].
    simpl in Hr, Hle. lia.
  - rewrite take_loop_spec by lia. rewrite N.sub_0_r, E. cbn [fst]. rewrite N.add_0_l, Hs. apply slice_to_app.
Qed.

Lemma take_last_loop_spec total used maxb rev :
  (total = used + str_len rev)%N → (used ≤ maxb)%N →
  take_last_loop (total - used) (total - used) used maxb rev =
  (total - used - str_len (fitting (maxb - used) rev).1)%N.
Proof.
  revert used. induction rev as [|c rev IH]; intros used Ht Hu; cbn [take_last_loop fitting]; [simpl; lia|].
  simpl in Ht. destruct (N.ltb_spec maxb (used + len_utf8 c)).
  - cmp_lia. simpl. lia.
  - cmp_lia.
    replace (total - used - len_utf8 c)%N with (total - (used + len_utf8 c))%N by lia.
    replace (maxb - used - len_utf8 c)%N with (maxb - (used + len_utf8 c))%N by lia.
    destruct (N.eqb_spec (total - (used + len_utf8 c)) 0) as [E|E].
    + assert (rev = []) as -> by (apply str_len_nil; lia). simpl. lia.
    + rewrite IH by lia. destruct (fitting _ rev) as [p r]. simpl. lia.
Qed.

Lemma take_last_bytes_longest s maxb :
  take_last_bytes_at_char_boundary s maxb = Ok (reverse (fitting maxb (reverse s)).1).
Proof.
  assert (∀ t, str_len (reverse t) = str_len t) as Hrev.
  { induction t as [|c t IH]; [done|]. rewrite reverse_cons, str_len_app, IH. simpl. lia. }
  unfold take_last_bytes_at_char_boundary. destruct (fitting maxb (reverse s)) as [p r] eqn:E.
  destruct (fitting_spec _ _ _ _ E) as (Hs & Hp & Hr). cbn [fst].
  assert (s = reverse r ++ reverse p) as Hs'.
  { by rewrite <-(reverse_involutive s), Hs, reverse_app. }
  destruct (N.leb_spec (str_len s) maxb) as [Hle|Hgt].
  - f_equal. rewrite Hs' in Hle |- *. rewrite str_len_app, !Hrev in Hle. destruct r as [|c r]; [done|].
    simpl in Hr, Hle. lia.
  - pose proof (take_last_loop_spec (str_len s) 0 maxb (reverse s)) as Hl.
    rewrite !N.sub_0_r, E in Hl. cbn [fst] in Hl. rewrite Hl; [|by rewrite Hrev|lia].
    rewrite Hs' at 1 2. rewrite str_len_app, Hrev, Hrev.
    replace (str_len r + str_len p - str_len p)%N with (str_len (reverse r)) by (rewrite Hrev; lia).
    apply slice_from_app.
Qed.

(** What truncating [s] to [max] bytes gives: a prefix and a suffix of [s]
    around a marker that counts what is missing. *)
Definition truncated_to (use_tokens : bool) (max : N) (s out : str) : Prop :=
  ∃ p m a, s = p ++ m ++ a ∧ m ≠ []
    ∧ out = p ++ format_truncation_marker use_tokens (removed_units use_tokens (str_len s - max) (len m)) ++ a
    ∧ (str_len p ≤ max / 2 ∧ str_len a ≤ max - max / 2)%N
    ∧ (∃ c, head (m ++ a) = Some c ∧ max / 2 < str_len p + len_utf8 c)%N
    ∧ (∃ c, last m = Some c ∧ max - max / 2 < len_utf8 c + str_len a)%N.

Lemma truncate_with_byte_estimate_spec s max use_tokens :
  (str_len s ≤ USIZE_MAX)%N →
  ∃ out, truncate_with_byte_estimate s max use_tokens = Ok out
    ∧ ((str_len s ≤ max)%N → out = s) ∧ ((max < str_len s)%N → truncated_to use_tokens max s out).
Proof.
  intros Hmax. unfold truncate_with_byte_estimate. case_decide as Hne.
  { subst. eexists. split; [done|]. split; [done|]. simpl. lia. }
  destruct (N.eqb_spec max 0) as [->|Hnz].
  { eexists. split; [done|]. split.
    - intros Hle. destruct Hne. apply str_len_nil. lia.
    - intros _. exists [], s, []. rewrite app_nil_r, N.sub_0_r. split; [done|]. split; [done|].
      split; [by rewrite app_nil_r|]. split; [by simpl|].
      destruct s as [|c s]; [done|]. split.
      + exists c. split; [done|]. pose proof (len_utf8_pos c). change (0 / 2)%N with 0%N. simpl. lia.
      + destruct (last (c :: s)) as [d|] eqn:E; [|by apply last_None in E]. exists d. split; [done|].
        pose proof (len_utf8_pos d). change (0 - 0 / 2)%N with 0%N. simpl. lia. }
  destruct (N.leb_spec (str_len s) max) as [Hle|Hgt].
  { eexists. split; [done|]. split; [done|]. lia. }
  unfold split_budget.
  destruct (split_string_spec s (max / 2) (max - max / 2) Hne)
    as (removed & p & m & a & Hs & -> & Hrem & Hp & Ha & Hhead & Hlast). rewrite (Hrem Hmax).
  run_bind. eexists. split; [reflexivity|]. split; [lia|]. intros _.
  assert (m ≠ []) as Hm.
  { intros ->. assert (str_len s = str_len p + str_len a)%N by (by rewrite Hs, str_len_app).
    pose proof (N.Div0.div_le_upper_bound max 2 max ltac:(lia)). lia. }
  exists p, m, a. split; [done|]. split; [done|]. split; [done|]. split; [done|].
  destruct Hhead as [Hn|Hhead]; [by apply app_nil in Hn as [-> _]|].
  destruct Hlast as [?|Hlast]; done.
Qed.

(** No truncation panics, whatever the text. *)
Lemma truncate_with_byte_estimate_total s max use_tokens :
  ∃ out, truncate_with_byte_estimate s max use_tokens = Ok out.
Proof.
  unfold truncate_with_byte_estimate. destruct (decide (s = [])) as [|Hne]; [eauto|].
  destruct (max =? 0)%N; [eauto|]. destruct (str_len s <=? max)%N; [eauto|]. unfold split_budget.
  destruct (split_string_spec s (max / 2) (max - max / 2) Hne) as (r & p & m & a & _ & -> & _).
  run_bind. eauto.
Qed.
Lemma truncate_text_total s policy : ∃ out, truncate_text s policy = Ok out.
Proof.
  destruct policy as [bytes|tokens]; unfold truncate_text; [apply truncate_with_byte_estimate_total|].
  unfold truncate_middle_with_token_budget. destruct (decide (s = [])); [cbn; eauto|].
  destruct (_ && _); [cbn; eauto|].
  destruct (truncate_with_byte_estimate_total s (approx_bytes_for_tokens tokens) true) as [o ->].
  run_bind. destruct (decide (o = s)); cbn; eauto.
Qed.

(** Truncating text never slices inside a character. A text within the
    budget is unchanged; a longer one becomes a prefix of at most half the
    budget, a marker, and a suffix of at most the other half, both as long as
    whole characters allow; the marker counts the characters between, or the
    approximate tokens beyond the budget. *)
Theorem truncate_text_spec s policy :
  (str_len s ≤ USIZE_MAX)%N →
  ∃ out, truncate_text s policy = Ok out
    ∧ ((str_len s ≤ byte_budget policy)%N → out = s)
    ∧ ((byte_budget policy < str_len s)%N →
       truncated_to (match policy with Bytes _ => false | Tokens _ => true end)
         (byte_budget policy) s out).
Proof.
  intros Hmax. destruct policy as [bytes|tokens]; unfold truncate_text, byte_budget.
  - by apply truncate_with_byte_estimate_spec.
  - unfold truncate_middle_with_token_budget. case_decide as Hne.
    { subst. eexists. split; [done|]. split; [done|]. simpl. lia. }
    destruct (_ && _) eqn:E.
    { apply andb_true_iff in E as [_ ?%N.leb_le]. eexists. split; [done|]. split; [done|]. lia. }
    destruct (truncate_with_byte_estimate_spec s (approx_bytes_for_tokens tokens) true Hmax)
      as (out & -> & Hsame & Htr). run_bind.
    exists out. split; [by destruct (decide (out = s))|]. done.
Qed.

(** A cost that is not zero. *)
Lemma text_cost_pos policy text : text ≠ [] → (1 ≤ text_cost policy text)%N.
Proof.
  intros Hne. assert (1 ≤ str_len text)%N as Hl.
  { destruct text as [|c t]; [done|]. simpl. pose proof (len_utf8_pos c). lia. }
  destruct policy; [done|]. unfold text_cost, approx_token_count, saturating_add, APPROX_BYTES_PER_TOKEN, USIZE_MAX.
  apply N.div_le_lower_bound; lia.
Qed.

Section items_theorems.
Context {Detail : Type}.
Abbreviation item := (FunctionCallOutputContentItem Detail).

Definition total_cost (policy : TruncationPolicy) (items : list item) : N :=
  foldr (λ t acc, text_cost policy t + acc)%N 0%N (omap text_of items).
Definition item_texts_ok (items : list item) : Prop :=
  Forall (λ t, t ≠ []) (omap text_of items).

(** The texts that come out, each whole, shortened to a positive budget, or gone. *)
Lemma truncate_items_loop_spec policy items remaining omitted :
  ∃ out om, truncate_items_loop policy items remaining omitted = Ok (out, om)
    ∧ omap image_of out = omap image_of items
    ∧ (omitted ≤ om)%N
    ∧ (item_texts_ok items → (total_cost policy items ≤ remaining)%N → out = items ∧ om = omitted).
Proof.
  revert remaining omitted. induction items as [|[text|url d] items IH]; intros remaining omitted;
    cbn [truncate_items_loop].
  - exists [], omitted. repeat split; lia.
  - unfold item_texts_ok, total_cost in *. cbn [omap list_omap text_of foldr].
    assert (Hpos : text ≠ [] → (1 ≤ text_cost policy text)%N) by apply text_cost_pos.
    destruct (N.eqb_spec remaining 0) as [->|Hnz].
    { destruct (IH 0%N (omitted + 1)%N) as (out & om & -> & Himg & Hom & _).
      exists out, om. split_and!; [done..|lia|]. intros [Hne _]%Forall_cons Htot. specialize (Hpos Hne). lia. }
    destruct (N.leb_spec (text_cost policy text) remaining) as [Hle|Hgt].
    { destruct (IH (remaining - text_cost policy text)%N omitted) as (out & om & -> & Himg & Hom & Hfit).
      run_bind. exists (InputText text :: out), om. split_and!; [done..|].
      intros [_ Hok]%Forall_cons Htot. destruct (Hfit Hok) as [-> ->]; [lia|done]. }
    destruct (truncate_text_total text (with_budget policy remaining)) as [snippet ->].
    run_bind. destruct (decide (snippet = [])).
    + destruct (IH 0%N (omitted + 1)%N) as (out & om & -> & Himg & Hom & _).
      exists out, om. split_and!; [done..|lia|]. intros _ Htot. lia.
    + destruct (IH 0%N omitted) as (out & om & -> & Himg & Hom & _).
      run_bind. exists (InputText snippet :: out), om. split_and!; [done..|]. intros _ Htot. lia.
  - destruct (IH remaining omitted) as (out & om & -> & Himg & Hom & Hfit). run_bind.
    exists (InputImage url d :: out), om. split; [done|].
    split; [change (InputImage url d :: omap image_of out = InputImage url d :: omap image_of items); by rewrite Himg|].
    split; [done|]. intros Hok Htot. destruct (Hfit Hok Htot) as [-> ->]. done.
Qed.

Lemma truncate_items_eq (items : list item) policy :
  ∃ out, truncate_function_output_items_with_policy items policy = Ok out
    ∧ omap image_of out = omap image_of items
    ∧ (item_texts_ok items → (total_cost policy items ≤ match policy with Bytes n | Tokens n => n end)%N →
       out = items).
Proof.
  unfold truncate_function_output_items_with_policy.
  replace (match policy with Bytes _ => byte_budget policy | Tokens _ => token_budget policy end)
    with (match policy with Bytes n | Tokens n => n end) by (by destruct policy).
  destruct (truncate_items_loop_spec policy items (match policy with Bytes n | Tokens n => n end) 0)
    as (out & om & -> & Himg & _ & Hfit).
  run_bind. eexists. split; [reflexivity|]. split.
  - destruct (0 <? om)%N; [|done]. rewrite omap_app. simpl. by rewrite app_nil_r.
  - intros Hok Htot. destruct (Hfit Hok Htot) as [-> ->]. done.
Qed.

(** Truncating the items of a function output keeps every image, in
    order, never fails, and changes nothing when the texts fit the budget and
    none of them is empty. *)
Theorem truncate_items_spec (items : list item) policy :
  ∃ out, truncate_function_output_items_with_policy items policy = Ok out
    ∧ omap image_of out = omap image_of items
    ∧ (item_texts_ok items → (total_cost policy items ≤ match policy with Bytes n | Tokens n => n end)%N →
       out = items).
Proof. apply truncate_items_eq. Qed.
End items_theorems.

(** * Witnesses *)

Lemma truncate_text_spec_witness :
  ∃ out, truncate_text (lit "hello wide world") (Bytes 8) = Ok out
    ∧ ((str_len (lit "hello wide world") ≤ 8)%N → out = lit "hello wide world")
    ∧ ((8 < str_len (lit "hello wide world"))%N → truncated_to false 8 (lit "hello wide world") out).
Proof. apply (truncate_text_spec (lit "hello wide world") (Bytes 8)). vm_compute. discriminate. Defined.

(** The marker is not counted: the result can be longer than the text. *)
Example truncate_longer :
  truncate_middle_chars (lit "abcde") 4 = Ok (lit "ab" ++ ellipsis ++ lit "1 chars truncated" ++ ellipsis ++ lit "de").
Proof. vm_compute. reflexivity. Qed.
