(* ===== verification/History.v ===== *)
(** The transcript sent to the model: its items, and the normalization of
    [codex-rs/core/src/context_manager/normalize.rs] with the operations of
    history.rs that call it for a prompt. Nested structures the code never
    looks into have the opaque type [Data]. *)
From S2P Require Import Prelude RustStr Truncate.

(** * Items *)

Inductive ContentItem : Type :=
| ContentInputText (text : str)
| ContentInputImage (image_url : str)
| ContentOutputText (text : str).

Inductive ImageDetail : Type := Auto | Low | High | Original.
Abbreviation output_item := (FunctionCallOutputContentItem ImageDetail).

Section history.
Context {Data : Type}.

Inductive FunctionCallOutputBody : Type := Text (content : str) | ContentItems (items : list output_item).
Record FunctionCallOutputPayload : Type := { body : FunctionCallOutputBody; success : option bool }.
Definition from_text (content : str) : FunctionCallOutputPayload := {| body := Text content; success := None |}.

Inductive ResponseItem : Type :=
| Message (id : option str) (role : str) (content : list ContentItem) (end_turn : option bool)
    (phase : option Data)
| Reasoning (id : str) (summary : list Data) (content : option (list Data)) (encrypted_content : option str)
| LocalShellCall (id : option str) (call_id : option str) (status action : Data)
| FunctionCall (id : option str) (name : str) (namespace : option str) (arguments call_id : str)
| ToolSearchCall (id : option str) (call_id : option str) (status : option str) (execution : str)
    (arguments : Data)
| FunctionCallOutput (call_id : str) (output : FunctionCallOutputPayload)
| CustomToolCall (id status : option str) (call_id name input : str)
| CustomToolCallOutput (call_id : str) (name : option str) (output : FunctionCallOutputPayload)
| ToolSearchOutput (call_id : option str) (status execution : str) (tools : list Data)
| WebSearchCall (id status : option str) (action : option Data)
| ImageGenerationCall (id status : str) (revised_prompt : option str) (result : str)
| GhostSnapshot (ghost_commit : Data)
| Compaction (encrypted_content : str)
| Other.

(** * Outputs for calls *)

(** Tests on an item, by kind and call id. *)
Definition is_function_output (c : str) (i : ResponseItem) : bool :=
  match i with FunctionCallOutput existing _ => bool_decide (existing = c) | _ => false end.
Definition is_tool_search_output (c : str) (i : ResponseItem) : bool :=
  match i with ToolSearchOutput (Some existing) _ _ _ => bool_decide (existing = c) | _ => false end.
Definition is_custom_output (c : str) (i : ResponseItem) : bool :=
  match i with CustomToolCallOutput existing _ _ => bool_decide (existing = c) | _ => false end.
Definition is_function_call (c : str) (i : ResponseItem) : bool :=
  match i with FunctionCall _ _ _ _ existing => bool_decide (existing = c) | _ => false end.
Definition is_local_shell_call (c : str) (i : ResponseItem) : bool :=
  match i with LocalShellCall _ (Some existing) _ _ => bool_decide (existing = c) | _ => false end.
Definition is_tool_search_call (c : str) (i : ResponseItem) : bool :=
  match i with ToolSearchCall _ (Some existing) _ _ _ => bool_decide (existing = c) | _ => false end.
Definition is_custom_call (c : str) (i : ResponseItem) : bool :=
  match i with CustomToolCall _ _ existing _ _ => bool_decide (existing = c) | _ => false end.

(** [error_or_panic]: panics with debug assertions, logs otherwise. *)
Variable debug_assertions : bool.
Definition error_or_panic {A} (r : A) : outcome Empty_set A := if debug_assertions then Panic else Ok r.

Definition aborted : FunctionCallOutputPayload := from_text (lit "aborted").

(** The output to insert after [item], if it is a call without one. *)
Definition missing_output (items : list ResponseItem) (item : ResponseItem)
    : outcome Empty_set (option ResponseItem) :=
  match item with
  | FunctionCall _ _ _ _ call_id =>
      if existsb (is_function_output call_id) items then Ok None
      else Ok (Some (FunctionCallOutput call_id aborted))
  | ToolSearchCall _ (Some call_id) _ _ _ =>
      if existsb (is_tool_search_output call_id) items then Ok None
      else Ok (Some (ToolSearchOutput (Some call_id) (lit "completed") (lit "client") []))
  | CustomToolCall _ _ call_id _ _ =>
      if existsb (is_custom_output call_id) items then Ok None
      else error_or_panic (Some (CustomToolCallOutput call_id None aborted))
  | LocalShellCall _ (Some call_id) _ _ =>
      if existsb (is_function_output call_id) items then Ok None
      else error_or_panic (Some (FunctionCallOutput call_id aborted))
  | _ => Ok None
  end.

(** The pairs of positions and outputs, for the items from [idx] on. *)
Fixpoint missing_outputs (all : list ResponseItem) (idx : nat) (items : list ResponseItem)
    : outcome Empty_set (list (nat * ResponseItem)) :=
  match items with
  | [] => Ok []
  | item :: items' =>
      missing ← missing_output all item;
      rest ← missing_outputs all (S idx) items';
      Ok (match missing with Some o => (idx, o) :: rest | None => rest end)
  end.
Fixpoint insert_outputs (missing : list (nat * ResponseItem)) (items : list ResponseItem)
    : outcome Empty_set (list ResponseItem) :=
  match missing with
  | [] => Ok items
  | (idx, output) :: missing' =>
      items' ← vec_insert (idx + 1) output items;
      insert_outputs missing' items'
  end.
Definition ensure_call_outputs_present (items : list ResponseItem)
    : outcome Empty_set (list ResponseItem) :=
  missing ← missing_outputs items 0 items;
  insert_outputs (reverse missing) items.

(** * Outputs without calls *)

Definition server : str := lit "server".
(** Whether [retain] keeps an item. *)
Definition keep_output (items : list ResponseItem) (item : ResponseItem) : outcome Empty_set bool :=
  match item with
  | FunctionCallOutput call_id _ =>
      if existsb (is_function_call call_id) items || existsb (is_local_shell_call call_id) items
      then Ok true else error_or_panic false
  | CustomToolCallOutput call_id _ _ =>
      if existsb (is_custom_call call_id) items then Ok true else error_or_panic false
  | ToolSearchOutput call_id _ execution _ =>
      if decide (execution = server) then Ok true
      else match call_id with
           | Some call_id => if existsb (is_tool_search_call call_id) items then Ok true else error_or_panic false
           | None => Ok true
           end
  | _ => Ok true
  end.
Fixpoint retain_outputs (all items : list ResponseItem) : outcome Empty_set (list ResponseItem) :=
  match items with
  | [] => Ok []
  | item :: items' =>
      keep ← keep_output all item;
      rest ← retain_outputs all items';
      Ok (if keep : bool then item :: rest else rest)
  end.
Definition remove_orphan_outputs (items : list ResponseItem) : outcome Empty_set (list ResponseItem) :=
  retain_outputs items items.

(** * Removing the counterpart of an item *)

Fixpoint remove_first_matching (predicate : ResponseItem → bool) (items : list ResponseItem)
    : list ResponseItem :=
  match items with
  | [] => []
  | i :: items' => if predicate i then items' else i :: remove_first_matching predicate items'
  end.
Definition remove_corresponding_for (items : list ResponseItem) (item : ResponseItem) : list ResponseItem :=
  match item with
  | FunctionCall _ _ _ _ call_id => remove_first_matching (is_function_output call_id) items
  | FunctionCallOutput call_id _ =>
      if existsb (is_function_call call_id) items
      then remove_first_matching (is_function_call call_id) items
      else remove_first_matching (is_local_shell_call call_id) items
  | ToolSearchCall _ (Some call_id) _ _ _ => remove_first_matching (is_tool_search_output call_id) items
  | ToolSearchOutput (Some call_id) _ _ _ => remove_first_matching (is_tool_search_call call_id) items
  | CustomToolCall _ _ call_id _ _ => remove_first_matching (is_custom_output call_id) items
  | CustomToolCallOutput call_id _ _ => remove_first_matching (is_custom_call call_id) items
  | LocalShellCall _ (Some call_id) _ _ => remove_first_matching (is_function_output call_id) items
  | _ => items
  end.

(** * Images *)

Definition IMAGE_CONTENT_OMITTED_PLACEHOLDER : str :=
  lit "image content omitted because you do not support image input".
Definition strip_content (c : ContentItem) : ContentItem :=
  match c with ContentInputImage _ => ContentInputText IMAGE_CONTENT_OMITTED_PLACEHOLDER | c => c end.
Definition strip_output_item (placeholder : str) (i : output_item) : output_item :=
  match i with InputImage _ _ => InputText placeholder | i => i end.
Definition strip_payload (p : FunctionCallOutputPayload) : FunctionCallOutputPayload :=
  match body p with
  | ContentItems items =>
      {| body := ContentItems (strip_output_item IMAGE_CONTENT_OMITTED_PLACEHOLDER <$> items);
         success := success p |}
  | Text _ => p
  end.
Definition strip_images (item : ResponseItem) : ResponseItem :=
  match item with
  | Message id role content end_turn phase => Message id role (strip_content <$> content) end_turn phase
  | FunctionCallOutput call_id output => FunctionCallOutput call_id (strip_payload output)
  | CustomToolCallOutput call_id name output => CustomToolCallOutput call_id name (strip_payload output)
  | ImageGenerationCall id status revised_prompt _ => ImageGenerationCall id status revised_prompt []
  | other => other
  end.
(** [supports_images]: the modalities contain [Image]. *)
Definition strip_images_when_unsupported (supports_images : bool) (items : list ResponseItem)
    : list ResponseItem :=
  if supports_images then items else strip_images <$> items.

Definition normalize_history (supports_images : bool) (items : list ResponseItem)
    : outcome Empty_set (list ResponseItem) :=
  items ← ensure_call_outputs_present items;
  items ← remove_orphan_outputs items;
  Ok (strip_images_when_unsupported supports_images items).
Definition is_ghost_snapshot (i : ResponseItem) : bool :=
  match i with GhostSnapshot _ => true | _ => false end.
Definition for_prompt (supports_images : bool) (items : list ResponseItem)
    : outcome Empty_set (list ResponseItem) :=
  items ← normalize_history supports_images items;
  Ok (filter (λ i, is_ghost_snapshot i = false) items).

End history.

(** * What normalization guarantees *)

Section pairing.
Context {Data : Type}.
Abbreviation item := (@ResponseItem Data).
Implicit Types (i o : item) (items : list item).

(** [o] is an output for the call [i]. *)
Definition answers o i : bool :=
  match o, i with
  | FunctionCallOutput c _, FunctionCall _ _ _ _ c' => bool_decide (c = c')
  | FunctionCallOutput c _, LocalShellCall _ (Some c') _ _ => bool_decide (c = c')
  | CustomToolCallOutput c _ _, CustomToolCall _ _ c' _ _ => bool_decide (c = c')
  | ToolSearchOutput (Some c) _ _ _, ToolSearchCall _ (Some c') _ _ _ => bool_decide (c = c')
  | _, _ => false
  end.
(** The output that stands for an aborted call: none for an item that is not
    a call, or a call without an id. *)
Definition abort_output i : option item :=
  match i with
  | FunctionCall _ _ _ _ c | LocalShellCall _ (Some c) _ _ => Some (FunctionCallOutput c aborted)
  | CustomToolCall _ _ c _ _ => Some (CustomToolCallOutput c None aborted)
  | ToolSearchCall _ (Some c) _ _ _ => Some (ToolSearchOutput (Some c) (lit "completed") (lit "client") [])
  | _ => None
  end.
(** A call whose missing output is reported as an error. *)
Definition loud_call i : bool :=
  match i with CustomToolCall _ _ _ _ _ | LocalShellCall _ _ _ _ => true | _ => false end.
(** An output that needs a call: not one of a search the server ran. *)
Definition needs_call o : bool :=
  match o with
  | FunctionCallOutput _ _ | CustomToolCallOutput _ _ _ => true
  | ToolSearchOutput (Some _) _ execution _ => bool_decide (execution ≠ server)
  | _ => false
  end.
Definition answered items i : bool := existsb (λ o, answers o i) items.
Definition orphan items o : bool := needs_call o && negb (existsb (answers o) items).

(** Every call has an output, and every output a call. *)
Definition paired items : Prop :=
  ∀ i, i ∈ items →
    (is_Some (abort_output i) → answered items i = true) ∧ orphan items i = false.

(** The transcript with the orphan outputs dropped and each unanswered call
    followed by the output of an aborted call. *)
Definition added items i : list item :=
  if answered items i then [] else option_list (abort_output i).
Definition completed items : list item :=
  items ≫= λ i, if orphan items i then [] else i :: added items i.


(** Compares two tests on items by cases on the item. *)
Ltac by_item :=
  erewrite existsb_ext; [reflexivity|];
  intros [| | | | | | | |[?|] ? ? ?| | | | |]; simpl; try done;
  try (apply bool_decide_ext; naive_solver).

Lemma missing_output_eq debug items i :
  missing_output debug items i =
    match abort_output i with
    | Some o => if answered items i then Ok None
                else if loud_call i then error_or_panic debug (Some o) else Ok (Some o)
    | None => Ok None
    end.
Proof.
  destruct i as [| |? [c|] ? ?|? ? ? ? c|? [c|] ? ? ?| |? ? c ? ?| | | | | | |]; try done; unfold answered;
    cbn [missing_output abort_output loud_call]; by_item.
Qed.

Lemma function_output_calls items c p :
  existsb (answers (FunctionCallOutput c p)) items
  = existsb (is_function_call c) items || existsb (is_local_shell_call c) items.
Proof.
  rewrite <- existsb_orb. apply existsb_ext.
  intros [| |? [?|] ? ?| | | | | | | | | | |]; simpl; try done; rewrite ?orb_false_r;
    apply bool_decide_ext; naive_solver.
Qed.

Lemma keep_output_eq debug items o :
  keep_output debug items o = if orphan items o then error_or_panic debug false else Ok true.
Proof.
  unfold orphan.
  destruct o as [| |? ? ? ?|? ? ? ? c|? ? ? ? ?|c p|? ? c ? ?|c n p|[c|] ? e ?| | | | |]; try done;
    cbn [keep_output needs_call]; rewrite ?andb_true_l.
  - rewrite function_output_calls. by destruct (_ || _).
  - rewrite (existsb_ext (is_custom_call c) (answers (CustomToolCallOutput c n p))).
    + by destruct (existsb _ _).
    + intros []; simpl; try done. apply bool_decide_ext. naive_solver.
  - destruct (decide (e = server)) as [E|E].
    + by rewrite bool_decide_eq_false_2 by tauto.
    + rewrite bool_decide_eq_true_2 by done.
      rewrite (existsb_ext (is_tool_search_call c) (answers (ToolSearchOutput (Some c) status e tools))).
      * by destruct (existsb _ _).
      * intros [| | | |? [?|] ? ? ?| | | | | | | | |]; simpl; try done. apply bool_decide_ext. naive_solver.
  - by destruct (decide _).
Qed.

(** An item a build with debug assertions panics on. *)
Definition unanswered_loud items i : bool :=
  bool_decide (is_Some (abort_output i)) && loud_call i && negb (answered items i).
Definition reported items i : bool := unanswered_loud items i || orphan items i.

Fixpoint positions (f : item → list item) (idx : nat) items : list (nat * item) :=
  match items with [] => [] | i :: items' => (pair idx <$> f i) ++ positions f (S idx) items' end.

Lemma missing_outputs_eq debug all idx items :
  missing_outputs debug all idx items
  = if debug && existsb (unanswered_loud all) items then Panic else Ok (positions (added all) idx items).
Proof.
  revert idx; induction items as [|i items IH]; intros idx; [by rewrite andb_false_r|].
  cbn [missing_outputs positions existsb]. rewrite missing_output_eq, IH. unfold added.
  change (unanswered_loud all i)
    with (bool_decide (is_Some (abort_output i)) && loud_call i && negb (answered all i)).
  destruct (abort_output i) as [o|]; simpl.
  - unfold error_or_panic.
    destruct (answered all i), (loud_call i), debug, (existsb _ items); simpl; done.
  - destruct (answered all i), debug, (existsb _ items); simpl; done.
Qed.

Lemma insert_outputs_app (a b : list (nat * item)) items :
  insert_outputs (a ++ b) items = (items' ← insert_outputs a items; insert_outputs b items').
Proof.
  revert items; induction a as [|[idx o] a IH]; intros items; [done|].
  cbn [insert_outputs app]. destruct (vec_insert _ _ _); done || apply IH.
Qed.

Lemma insert_outputs_positions (f : item → option item) pre items :
  insert_outputs (reverse (positions (λ i, option_list (f i)) (length pre) items)) (pre ++ items)
  = Ok (pre ++ (items ≫= λ i, i :: option_list (f i))).
Proof.
  revert pre; induction items as [|i items IH]; intros pre; [done|].
  cbn [positions]. rewrite reverse_app, insert_outputs_app.
  specialize (IH (pre ++ [i])). rewrite length_app, <- app_assoc in IH. simpl in IH.
  rewrite Nat.add_1_r in IH. rewrite IH. rewrite <- app_assoc. simpl.
  destruct (f i) as [o|]; simpl; [|done]. unfold vec_insert.
  rewrite (proj2 (Nat.leb_le _ _)) by (rewrite length_app; simpl; lia). simpl.
  replace (pre ++ i :: (items ≫= λ i, i :: option_list (f i)))
    with ((pre ++ [i]) ++ (items ≫= λ i, i :: option_list (f i))) by by rewrite <- app_assoc.
  rewrite take_app_length', drop_app_length' by (rewrite length_app; simpl; lia).
  by rewrite <- app_assoc.
Qed.

Definition ensured items : list item := items ≫= λ i, i :: added items i.
Lemma ensure_call_outputs_present_eq debug items :
  ensure_call_outputs_present debug items
  = if debug && existsb (unanswered_loud items) items then Panic else Ok (ensured items).
Proof.
  unfold ensure_call_outputs_present. rewrite missing_outputs_eq.
  destruct (_ && _); [done|]. simpl. unfold ensured.
  pose (f i := if answered items i then None else abort_output i).
  assert (E : ∀ i, added items i = option_list (f i)) by (intros i; unfold added, f; by destruct (answered _ _)).
  assert (F : ∀ k l, positions (added items) k l = positions (λ i, option_list (f i)) k l).
  { intros k l; revert k; induction l as [|x l IH]; intros k; [done|]. simpl. by rewrite E, IH. }
  rewrite F. etrans; [apply (insert_outputs_positions f [] items)|]. f_equal. simpl.
  apply list_bind_ext; [|done]. intros i. by rewrite E.
Qed.


Lemma retain_outputs_eq debug all items :
  retain_outputs debug all items
  = if debug && existsb (orphan all) items then Panic
    else Ok (items ≫= λ i, if orphan all i then [] else [i]).
Proof.
  induction items as [|i items IH]; [by rewrite andb_false_r|].
  cbn [retain_outputs existsb]. rewrite keep_output_eq, IH. unfold error_or_panic. simpl.
  destruct (orphan all i), debug, (existsb _ items); done.
Qed.

(** Facts on which items are calls and which are outputs. *)
Lemma answers_call o i : answers o i = true → needs_call i = false ∧ abort_output o = None ∧ is_Some (abort_output i).
Proof.
  destruct o as [| |? [?|] ? ?|? ? ? ? ?|? [?|] ? ? ?|? ?|? ? ? ? ?|? ? ?|[?|] ? ? ?| | | | |]; try done;
    destruct i as [| |? [?|] ? ?|? ? ? ? ?|? [?|] ? ? ?|? ?|? ? ? ? ?|? ? ?|[?|] ? ? ?| | | | |]; try done; eauto.
Qed.
Lemma abort_output_answers i o :
  abort_output i = Some o → answers o i = true ∧ needs_call i = false ∧ abort_output o = None.
Proof.
  destruct i as [| |? [?|] ? ?|? ? ? ? ?|? [?|] ? ? ?|? ?|? ? ? ? ?|? ? ?|[?|] ? ? ?| | | | |]; try done;
    intros [= <-]; simpl; by rewrite bool_decide_eq_true_2.
Qed.
Lemma not_orphan items o i : i ∈ items → answers o i = true → orphan items o = false.
Proof.
  intros Hi Ha. unfold orphan. rewrite (proj2 (existsb_elem (answers o) items)) by eauto. by rewrite andb_false_r.
Qed.
Lemma call_not_orphan items i : needs_call i = false → orphan items i = false.
Proof. unfold orphan. by intros ->. Qed.
Lemma elem_of_added items i o : o ∈ added items i ↔ answered items i = false ∧ abort_output i = Some o.
Proof.
  unfold added. destruct (answered items i); [set_solver|]. destruct (abort_output i); simpl; [|set_solver].
  rewrite list_elem_of_singleton. naive_solver.
Qed.

Lemma orphan_ensured items o : orphan (ensured items) o = orphan items o.
Proof.
  unfold orphan, ensured. do 2 f_equal. rewrite existsb_bind. apply existsb_ext. intros i. simpl.
  destruct (existsb (answers o) (added items i)) eqn:E; [|by rewrite orb_false_r].
  apply existsb_elem in E as (o' & [_ Ho']%elem_of_added & Ha).
  apply abort_output_answers in Ho' as (_ & _ & Ho'). apply answers_call in Ha as (_ & _ & [? Ha]). congruence.
Qed.
Lemma added_not_orphan items i o : i ∈ items → o ∈ added items i → orphan items o = false.
Proof. intros Hi [_ (Ho & _)%abort_output_answers]%elem_of_added. by eapply not_orphan. Qed.
Lemma orphan_added items i : orphan items i = true → added items i = [].
Proof.
  unfold orphan. intros [Hn _]%andb_true_iff. unfold added. destruct (answered items i); [done|].
  destruct (abort_output i) as [o|] eqn:E; [|done]. apply abort_output_answers in E as (_ & E & _). congruence.
Qed.


Lemma retain_ensured items : (ensured items ≫= λ i, if orphan items i then [] else [i]) = completed items.
Proof.
  unfold ensured, completed. rewrite bind_bind. apply Forall_bind_ext, Forall_forall. intros i Hi. simpl.
  rewrite bind_keep by (intros o; by apply added_not_orphan).
  destruct (orphan items i) eqn:E; [|done]. simpl. by rewrite orphan_added.
Qed.
Lemma existsb_orphan_ensured items : existsb (orphan items) (ensured items) = existsb (orphan items) items.
Proof.
  unfold ensured. rewrite existsb_bind. apply eq_iff_eq_true. rewrite !existsb_elem. split.
  - intros (i & Hi & E). exists i. split; [done|]. simpl in E.
    rewrite (existsb_false _ (added items i)) in E by (intros o; by apply added_not_orphan).
    by rewrite orb_false_r in E.
  - intros (i & Hi & E). exists i. simpl. by rewrite E.
Qed.

Lemma normalize_history_eq debug supports_images items :
  normalize_history debug supports_images items
  = if debug && existsb (reported items) items then Panic
    else Ok (strip_images_when_unsupported supports_images (completed items)).
Proof.
  unfold normalize_history, remove_orphan_outputs. rewrite ensure_call_outputs_present_eq.
  unfold reported. rewrite existsb_orb.
  destruct debug, (existsb (unanswered_loud items) items); simpl; try done.
  all: rewrite retain_outputs_eq, (existsb_ext _ _ (ensured items) (orphan_ensured items)).
  all: rewrite existsb_orphan_ensured; destruct (existsb (orphan items) items); simpl; try done.
  all: rewrite <- retain_ensured; do 2 f_equal; apply list_bind_ext; [|done]; intros i; by rewrite orphan_ensured.
Qed.

Lemma elem_of_completed items j :
  j ∈ completed items ↔ ∃ i, i ∈ items ∧ orphan items i = false ∧ (j = i ∨ j ∈ added items i).
Proof.
  unfold completed. rewrite list_elem_of_bind. split.
  - intros (i & Hj & Hi). exists i. destruct (orphan items i); set_solver.
  - intros (i & Hi & E & Hj). exists i. rewrite E. set_solver.
Qed.
Lemma call_in_completed items o i : i ∈ items → answers o i = true → i ∈ completed items.
Proof.
  intros Hi Ha. apply elem_of_completed. exists i. split_and!; [done| |by left].
  apply call_not_orphan. by apply (answers_call o).
Qed.

Lemma paired_completed items : paired (completed items).
Proof.
  intros j (i & Hi & E & [->|Hj])%elem_of_completed.
  - split.
    + intros [o Ho]. unfold answered. apply existsb_elem.
      destruct (answered items i) eqn:Ha.
      * apply existsb_elem in Ha as (o' & Ho' & Ha). exists o'. split; [|done].
        apply elem_of_completed. exists o'. split_and!; [done| |by left].
        by apply (not_orphan _ _ i).
      * exists o. split; [|by apply abort_output_answers].
        apply elem_of_completed. exists i. split_and!; [done..|right]. by apply elem_of_added.
    + destruct (needs_call i) eqn:Hn; [|by apply call_not_orphan].
      unfold orphan in E. rewrite Hn in E. apply negb_false_iff, existsb_elem in E as (c & Hc & Ha).
      by apply (not_orphan _ _ c), Ha; apply (call_in_completed _ i).
  - pose proof Hj as [Hu (Ha & _ & Hn)%abort_output_answers]%elem_of_added. split.
    + intros [? ?]. congruence.
    + by apply (not_orphan _ _ i), Ha; apply (call_in_completed _ j).
Qed.

Lemma paired_clean items : paired items → completed items = items ∧ existsb (reported items) items = false.
Proof.
  intros H. split.
  - rewrite <- (bind_keep (λ _, false) items) at 2 by done. unfold completed.
    apply Forall_bind_ext, Forall_forall. intros i Hi. destruct (H i Hi) as [Ha ->].
    unfold added. destruct (answered items i); [done|]. destruct (abort_output i); [|done].
    by specialize (Ha ltac:(eauto)).
  - apply existsb_false. intros i Hi. destruct (H i Hi) as [Ha Ho]. unfold reported, unanswered_loud.
    rewrite Ho, orb_false_r. destruct (decide (is_Some (abort_output i))) as [E|E].
    + by rewrite Ha, andb_false_r.
    + by rewrite bool_decide_eq_false_2.
Qed.

(** Stripping the images of a transcript keeps the pairing. *)
Lemma strip_answers o i : answers (strip_images o) (strip_images i) = answers o i.
Proof. by destruct o as [| | | | | | | |[]| | | | |], i as [| |? []| |? []| | | | | | | | |]. Qed.
Lemma strip_shape i : abort_output (strip_images i) = abort_output i ∧ needs_call (strip_images i) = needs_call i.
Proof. by destruct i. Qed.
Lemma paired_strip s items : paired items → paired (strip_images_when_unsupported s items).
Proof.
  intros H. destruct s; [done|]. simpl. intros j (i & -> & Hi)%list_elem_of_fmap.
  destruct (H i Hi) as [Ha Ho]. unfold answered, orphan. rewrite !existsb_fmap.
  destruct (strip_shape i) as [-> ->]. split.
  - intros Hs. rewrite <- (Ha Hs). apply existsb_ext. intros o. apply strip_answers.
  - unfold orphan in Ho. rewrite <- Ho. do 2 f_equal. apply existsb_ext. intros o. apply strip_answers.
Qed.
Lemma strip_idem s items :
  strip_images_when_unsupported s (strip_images_when_unsupported s items) = strip_images_when_unsupported s items.
Proof.
  destruct s; [done|]. simpl. rewrite <- list_fmap_compose. apply list_fmap_ext. intros _ i _. simpl.
  destruct i as [id r c| | | | |c p| |c n p| | | | | |]; try done; simpl.
  - f_equal. rewrite <- list_fmap_compose. apply list_fmap_ext. by intros _ [] _.
  - destruct p as [[|l] ?]; [done|]. unfold strip_payload. simpl. do 3 f_equal.
    rewrite <- list_fmap_compose. apply list_fmap_ext. by intros _ [] _.
  - destruct p as [[|l] ?]; [done|]. unfold strip_payload. simpl. do 3 f_equal.
    rewrite <- list_fmap_compose. apply list_fmap_ext. by intros _ [] _.
Qed.

(** C14. Normalizing a transcript panics only in a build with debug
    assertions, and only when it holds a custom or shell call without output
    or an output without call. Otherwise it keeps every item that is not an
    orphan output, in order, puts the output of an aborted call right after
    each unanswered call, and strips the images a model does not support. In
    the result every call with an id has an output and every output that
    needs one has a call, and normalizing it again, in any build, changes
    nothing. *)
Theorem normalize_history_spec debug supports_images items :
  let out := strip_images_when_unsupported supports_images (completed items) in
  normalize_history debug supports_images items
  = (if debug && existsb (reported items) items then Panic else Ok out)
  ∧ paired out
  ∧ ∀ debug', normalize_history debug' supports_images out = Ok out.
Proof.
  intros out.
  assert (P : paired out) by apply paired_strip, paired_completed.
  split_and!; [apply normalize_history_eq|done|]. intros debug'. rewrite normalize_history_eq.
  destruct (paired_clean out P) as [-> ->]. rewrite andb_false_r. unfold out. by rewrite strip_idem.
Qed.
End pairing.
