(* ===== verification/ContextManager.v ===== *)
(** The history of a thread: [codex-rs/core/src/context_manager/history.rs],
    the predicates on contextual messages of [core/src/event_mapping.rs],
    [core/src/contextual_user_message.rs] and [instructions/src/fragment.rs],
    and the token usage of [protocol/src/protocol.rs]. The XML and JSON decoders, the
    length of a serialized item and the decoder of images are parameters. *)
From S2P Require Import Prelude RustStr Truncate History.

(** * Contextual fragments *)

(** [s.get(..n)] and [s.get(n..)]. *)
Definition get_to (n : N) (s : str) : option str :=
  match slice_to (E := Empty_set) n s with Ok t => Some t | _ => None end.
Definition get_from (n : N) (s : str) : option str :=
  match slice_from (E := Empty_set) n s with Ok t => Some t | _ => None end.
Definition eq_ignore_ascii_case (a b : str) : bool :=
  bool_decide (to_ascii_lowercase a = to_ascii_lowercase b).
Definition is_some_and {A} (f : A → bool) (o : option A) : bool :=
  match o with Some a => f a | None => false end.

Record ContextualUserFragmentDefinition : Type := { start_marker : str; end_marker : str }.
Definition matches_text (d : ContextualUserFragmentDefinition) (text : str) : bool :=
  let trimmed := trim_start text in
  let starts_with_marker :=
    is_some_and (λ candidate, eq_ignore_ascii_case candidate (start_marker d))
      (get_to (str_len (start_marker d)) trimmed) in
  let trimmed := trim_end trimmed in
  let ends_with_marker :=
    is_some_and (λ candidate, eq_ignore_ascii_case candidate (end_marker d))
      (get_from (str_len trimmed - str_len (end_marker d)) trimmed) in
  starts_with_marker && ends_with_marker.
Definition wrap (d : ContextualUserFragmentDefinition) (body : str) : str :=
  start_marker d ++ [nl] ++ body ++ [nl] ++ end_marker d.

Definition AGENTS_MD_FRAGMENT : ContextualUserFragmentDefinition :=
  {| start_marker := lit "# AGENTS.md instructions for "; end_marker := lit "</INSTRUCTIONS>" |}.
Definition SKILL_FRAGMENT : ContextualUserFragmentDefinition :=
  {| start_marker := lit "<skill>"; end_marker := lit "</skill>" |}.
Definition ENVIRONMENT_CONTEXT_FRAGMENT : ContextualUserFragmentDefinition :=
  {| start_marker := lit "<environment_context>"; end_marker := lit "</environment_context>" |}.
Definition USER_SHELL_COMMAND_FRAGMENT : ContextualUserFragmentDefinition :=
  {| start_marker := lit "<user_shell_command>"; end_marker := lit "</user_shell_command>" |}.
Definition TURN_ABORTED_FRAGMENT : ContextualUserFragmentDefinition :=
  {| start_marker := lit "<turn_aborted>"; end_marker := lit "</turn_aborted>" |}.
Definition SUBAGENT_NOTIFICATION_FRAGMENT : ContextualUserFragmentDefinition :=
  {| start_marker := lit "<subagent_notification>"; end_marker := lit "</subagent_notification>" |}.
Definition CONTEXTUAL_USER_FRAGMENTS : list ContextualUserFragmentDefinition :=
  [AGENTS_MD_FRAGMENT; ENVIRONMENT_CONTEXT_FRAGMENT; SKILL_FRAGMENT; USER_SHELL_COMMAND_FRAGMENT;
   TURN_ABORTED_FRAGMENT; SUBAGENT_NOTIFICATION_FRAGMENT].
Definition is_standard_contextual_user_text (text : str) : bool :=
  existsb (λ definition, matches_text definition text) CONTEXTUAL_USER_FRAGMENTS.
Definition is_memory_excluded_contextual_user_fragment (content_item : ContentItem) : bool :=
  match content_item with
  | ContentInputText text => matches_text AGENTS_MD_FRAGMENT text || matches_text SKILL_FRAGMENT text
  | _ => false
  end.

Definition CONTEXTUAL_DEVELOPER_PREFIXES : list str :=
  [lit "<permissions instructions>"; lit "<model_switch>"; lit "<collaboration_mode>";
   lit "<realtime_conversation>"; lit "<personality_spec>"].
Definition is_contextual_dev_fragment (content_item : ContentItem) : bool :=
  match content_item with
  | ContentInputText text =>
      let trimmed := trim_start text in
      existsb (λ prefix, is_some_and (λ candidate, eq_ignore_ascii_case candidate prefix)
                           (get_to (str_len prefix) trimmed)) CONTEXTUAL_DEVELOPER_PREFIXES
  | _ => false
  end.
Definition is_contextual_dev_message_content (message : list ContentItem) : bool :=
  existsb is_contextual_dev_fragment message.
Definition has_non_contextual_dev_message_content (message : list ContentItem) : bool :=
  existsb (λ c, negb (is_contextual_dev_fragment c)) message.

(** * Token usage *)

(** [i64] additions and subtractions: a build with debug assertions panics on
    overflow, another wraps around. [saturating_add] on [i64]. *)
Definition I64_MIN : Z := (- I64_MAX - 1)%Z.
Definition in_i64 (z : Z) : bool := ((I64_MIN <=? z) && (z <=? I64_MAX))%Z.
Definition wrap_i64 (z : Z) : Z := ((z - I64_MIN) mod 2 ^ 64 + I64_MIN)%Z.
Definition arith_i64 (debug_assertions : bool) (z : Z) : outcome Empty_set Z :=
  if in_i64 z then Ok z else if debug_assertions then Panic else Ok (wrap_i64 z).
Definition saturate_i64 (z : Z) : Z := Z.max I64_MIN (Z.min z I64_MAX).
Definition saturating_add_i64 (a b : Z) : Z := saturate_i64 (a + b).
Definition saturating_sub_i64 (a b : Z) : Z := saturate_i64 (a - b).
Definition saturating_mul_i64 (a b : Z) : Z := saturate_i64 (a * b).
Definition i64_try_from (n : N) : Z := Z.min (Z.of_N n) I64_MAX.

Record TokenUsage : Type := {
  input_tokens : Z; cached_input_tokens : Z; output_tokens : Z; reasoning_output_tokens : Z;
  total_tokens : Z }.
Definition TokenUsage_default : TokenUsage := Build_TokenUsage 0 0 0 0 0.
Record TokenUsageInfo : Type := {
  total_token_usage : TokenUsage; last_token_usage : TokenUsage; model_context_window : option Z }.

Definition add_assign (debug : bool) (u other : TokenUsage) : outcome Empty_set TokenUsage :=
  input ← arith_i64 debug (input_tokens u + input_tokens other);
  cached ← arith_i64 debug (cached_input_tokens u + cached_input_tokens other);
  output ← arith_i64 debug (output_tokens u + output_tokens other);
  reasoning ← arith_i64 debug (reasoning_output_tokens u + reasoning_output_tokens other);
  total ← arith_i64 debug (total_tokens u + total_tokens other);
  Ok (Build_TokenUsage input cached output reasoning total).
Definition append_last_usage (debug : bool) (info : TokenUsageInfo) (last : TokenUsage)
    : outcome Empty_set TokenUsageInfo :=
  total ← add_assign debug (total_token_usage info) last;
  Ok {| total_token_usage := total; last_token_usage := last;
        model_context_window := model_context_window info |}.
Definition new_or_append (debug : bool) (info : option TokenUsageInfo) (last : option TokenUsage)
    (window : option Z) : outcome Empty_set (option TokenUsageInfo) :=
  match info, last with
  | None, None => Ok None
  | _, _ =>
      let info := default {| total_token_usage := TokenUsage_default; last_token_usage := TokenUsage_default;
                             model_context_window := window |} info in
      info ← match last with Some last => append_last_usage debug info last | None => Ok info end;
      Ok (Some match window with
               | Some w => {| total_token_usage := total_token_usage info;
                              last_token_usage := last_token_usage info;
                              model_context_window := Some w |}
               | None => info
               end)
  end.
Definition fill_to_context_window (debug : bool) (info : TokenUsageInfo) (context_window : Z)
    : outcome Empty_set TokenUsageInfo :=
  delta ← arith_i64 debug (context_window - total_tokens (total_token_usage info));
  Ok {| total_token_usage := Build_TokenUsage 0 0 0 0 context_window;
        last_token_usage := Build_TokenUsage 0 0 0 0 (Z.max delta 0);
        model_context_window := Some context_window |}.
Definition full_context_window (debug : bool) (context_window : Z) : outcome Empty_set TokenUsageInfo :=
  fill_to_context_window debug
    {| total_token_usage := TokenUsage_default; last_token_usage := TokenUsage_default;
       model_context_window := Some context_window |} context_window.

(** * Scaling a budget *)

(** An integer rounded to 53 significant bits, to nearest and ties to even, as
    the conversion to [f64] and the product of two [f64] do. *)
Definition round_f64 (m : N) : N :=
  let k := (N.size m - 53)%N in
  let q := N.shiftr m k in
  let r := (m - N.shiftl q k)%N in
  let half := (2 ^ k / 2)%N in
  if (r =? 0)%N then m
  else N.shiftl (if (half <? r)%N || (half =? r)%N && N.odd q then q + 1 else q) k.
(** [(n as f64 * 1.2).ceil() as usize]: the [f64] nearest to 1.2 is
    [5404319552844595 / 2^52]. *)
Definition scale_budget (n : N) : N :=
  let product := round_f64 (round_f64 n * 5404319552844595) in
  N.min ((product + (2 ^ 52 - 1)) / 2 ^ 52) USIZE_MAX.
Definition scale_policy (p : TruncationPolicy) : TruncationPolicy :=
  match p with Bytes bytes => Bytes (scale_budget bytes) | Tokens tokens => Tokens (scale_budget tokens) end.

Example scale_budget_values :
  scale_budget <$> [0; 1; 5; 10; 10000; 1000001; USIZE_MAX]%N = [0; 2; 6; 12; 12000; 1200002; USIZE_MAX]%N.
Proof. vm_compute. reflexivity. Qed.

Section context_manager.
Context {Data : Type}.
Abbreviation item := (@ResponseItem Data).

(** [from_xml_str::<HookPromptXml>]: the text and the hook run id. *)
Variable from_xml : str → option (str * str).
(** [serde_json::from_str::<InterAgentCommunication>]: its [trigger_turn]. *)
Variable from_json : str → option bool.
Variable debug_assertions : bool.

Definition parse_hook_prompt_fragment (text : str) : option (str * str) :=
  '(text, hook_run_id) ← from_xml (trim text);
  if decide (trim hook_run_id = []) then None else Some (text, hook_run_id).
Definition is_contextual_user_fragment (content_item : ContentItem) : bool :=
  match content_item with
  | ContentInputText text =>
      bool_decide (is_Some (parse_hook_prompt_fragment text)) || is_standard_contextual_user_text text
  | _ => false
  end.
Definition is_contextual_user_message_content (message : list ContentItem) : bool :=
  existsb is_contextual_user_fragment message.

(** The fragments of a hook prompt, [None] when the message is not one. *)
Fixpoint hook_fragments (content : list ContentItem) : option (list (str * str)) :=
  match content with
  | [] => Some []
  | ContentInputText text :: content' =>
      match parse_hook_prompt_fragment text with
      | Some fragment => fragments ← hook_fragments content'; Some (fragment :: fragments)
      | None => if is_standard_contextual_user_text text then hook_fragments content' else None
      end
  | _ :: _ => None
  end.
Definition parse_visible_hook_prompt_message (content : list ContentItem) : option (list (str * str)) :=
  fragments ← hook_fragments content;
  if decide (fragments = []) then None else Some fragments.

(** [InterAgentCommunication::from_message_content]. *)
Definition from_message_content (content : list ContentItem) : option bool :=
  match content with
  | [ContentInputText text] | [ContentOutputText text] => from_json text
  | _ => None
  end.
Definition is_inter_agent_instruction_content (content : list ContentItem) : bool :=
  bool_decide (is_Some (from_message_content content)).

Definition user : str := lit "user".
Definition assistant : str := lit "assistant".
Definition developer : str := lit "developer".
Definition is_user_turn_boundary (i : item) : bool :=
  match i with
  | Message _ role content _ _ =>
      bool_decide (role = user) && negb (is_contextual_user_message_content content)
      || bool_decide (role = assistant) && is_inter_agent_instruction_content content
  | _ => false
  end.
Definition is_api_message (i : item) : bool :=
  match i with
  | Message _ role _ _ _ => bool_decide (role ≠ lit "system")
  | GhostSnapshot _ | Other => false
  | _ => true
  end.
Definition is_model_generated_item (i : item) : bool :=
  match i with
  | Message _ role _ _ _ => bool_decide (role = assistant)
  | Reasoning _ _ _ _ | FunctionCall _ _ _ _ _ | ToolSearchCall _ _ _ _ _ | WebSearchCall _ _ _
  | ImageGenerationCall _ _ _ _ | CustomToolCall _ _ _ _ _ | LocalShellCall _ _ _ _ | Compaction _ => true
  | _ => false
  end.
Definition is_codex_generated_item (i : item) : bool :=
  match i with
  | FunctionCallOutput _ _ | ToolSearchOutput _ _ _ _ | CustomToolCallOutput _ _ _ => true
  | Message _ role _ _ _ => bool_decide (role = developer)
  | _ => false
  end.

(** * Recording *)

Record ContextManager : Type := {
  items : list item; token_info : option TokenUsageInfo; reference_context_item : option Data }.
Definition new : ContextManager := {| items := []; token_info := None; reference_context_item := None |}.
Definition replace (h : ContextManager) (l : list item) : ContextManager :=
  {| items := l; token_info := token_info h; reference_context_item := reference_context_item h |}.
Definition set_token_info (h : ContextManager) (info : option TokenUsageInfo) : ContextManager :=
  {| items := items h; token_info := info; reference_context_item := reference_context_item h |}.
Definition set_reference_context_item (h : ContextManager) (r : option Data) : ContextManager :=
  {| items := items h; token_info := token_info h; reference_context_item := r |}.
Definition set_token_usage_full (h : ContextManager) (context_window : Z) : outcome Empty_set ContextManager :=
  info ← match token_info h with
         | Some info => fill_to_context_window debug_assertions info context_window
         | None => full_context_window debug_assertions context_window
         end;
  Ok (set_token_info h (Some info)).
Definition update_token_info (h : ContextManager) (usage : TokenUsage) (window : option Z)
    : outcome Empty_set ContextManager :=
  info ← new_or_append debug_assertions (token_info h) (Some usage) window;
  Ok (set_token_info h info).

Definition truncate_function_output_payload (output : FunctionCallOutputPayload) (policy : TruncationPolicy)
    : outcome Empty_set FunctionCallOutputPayload :=
  b ← match body output with
      | Text content => t ← truncate_text content policy; Ok (Text t)
      | ContentItems l => l' ← truncate_function_output_items_with_policy l policy; Ok (ContentItems l')
      end;
  Ok {| body := b; success := success output |}.
Definition process_item (i : item) (policy : TruncationPolicy) : outcome Empty_set item :=
  match i with
  | FunctionCallOutput call_id output =>
      o ← truncate_function_output_payload output (scale_policy policy); Ok (FunctionCallOutput call_id o)
  | CustomToolCallOutput call_id name output =>
      o ← truncate_function_output_payload output (scale_policy policy); Ok (CustomToolCallOutput call_id name o)
  | i => Ok i
  end.
Fixpoint record_loop (l : list item) (policy : TruncationPolicy) (new_items : list item)
    : outcome Empty_set (list item) :=
  match new_items with
  | [] => Ok l
  | i :: new_items' =>
      if negb (is_api_message i) && negb (is_ghost_snapshot i) then record_loop l policy new_items'
      else processed ← process_item i policy; record_loop (l ++ [processed]) policy new_items'
  end.
Definition record_items (h : ContextManager) (new_items : list item) (policy : TruncationPolicy)
    : outcome Empty_set ContextManager :=
  l ← record_loop (items h) policy new_items; Ok (replace h l).

(** * Removing and rewriting items *)

Definition remove_first_item (h : ContextManager) : ContextManager :=
  match items h with
  | [] => h
  | removed :: l => replace h (remove_corresponding_for l removed)
  end.
Definition remove_last_item (h : ContextManager) : ContextManager * bool :=
  match last (items h) with
  | Some removed => (replace h (remove_corresponding_for (take (length (items h) - 1) (items h)) removed), true)
  | None => (h, false)
  end.
Definition clear_encrypted (i : item) : option item :=
  match i with
  | Reasoning id summary content _ => Some (Reasoning id summary content None)
  | Compaction _ => None
  | i => Some i
  end.
Definition clear_encrypted_reasoning_content (h : ContextManager) : ContextManager :=
  replace h (omap clear_encrypted (items h)).

(** [rposition]: the index of the last item that passes the test. *)
Fixpoint rposition (p : item → bool) (l : list item) : option nat :=
  match l with
  | [] => None
  | i :: l' => match rposition p l' with
               | Some n => Some (S n)
               | None => if p i then Some 0 else None
               end
  end.
Definition is_function_call_output (i : item) : bool :=
  match i with FunctionCallOutput _ _ => true | _ => false end.
Definition is_output_image (i : output_item) : bool := match i with InputImage _ _ => true | InputText _ => false end.
Definition replace_last_turn_images (h : ContextManager) (placeholder : str) : ContextManager * bool :=
  match rposition (λ i, is_function_call_output i || is_user_turn_boundary i) (items h) with
  | None => (h, false)
  | Some index =>
      match items h !! index with
      | Some (FunctionCallOutput call_id {| body := ContentItems content_items; success := s |}) =>
          let output := {| body := ContentItems (strip_output_item placeholder <$> content_items); success := s |} in
          (replace h (<[index := FunctionCallOutput call_id output]> (items h)), existsb is_output_image content_items)
      | _ => (h, false)
      end
  end.

(** * Rolling back turns *)

Fixpoint positions_where (p : item → bool) (idx : nat) (l : list item) : list nat :=
  match l with
  | [] => []
  | i :: l' => (if p i then [idx] else []) ++ positions_where p (S idx) l'
  end.
Definition user_message_positions (l : list item) : list nat := positions_where is_user_turn_boundary 0 l.

(** The walk back from the cut; [r] is the reference context item. *)
Fixpoint trim_pre_turn_context_updates (snapshot : list item) (first_instruction_turn_idx cut_idx : nat)
    (r : option Data) : outcome Empty_set (nat * option Data) :=
  match cut_idx with
  | 0 => Ok (0, r)
  | S previous =>
      if cut_idx <=? first_instruction_turn_idx then Ok (cut_idx, r)
      else match snapshot !! previous with
           | None => Panic
           | Some (Message _ role content _ _) =>
               if bool_decide (role = developer) && is_contextual_dev_message_content content
               then trim_pre_turn_context_updates snapshot first_instruction_turn_idx previous
                      (if has_non_contextual_dev_message_content content then None else r)
               else if bool_decide (role = user) && is_contextual_user_message_content content
               then trim_pre_turn_context_updates snapshot first_instruction_turn_idx previous r
               else Ok (cut_idx, r)
           | Some _ => Ok (cut_idx, r)
           end
  end.
(** [num_turns] is a [u32], which fits in a [usize]. *)
Definition drop_last_n_user_turns (h : ContextManager) (num_turns : nat) : outcome Empty_set ContextManager :=
  if num_turns =? 0 then Ok h
  else
    let snapshot := items h in
    let user_positions := user_message_positions snapshot in
    match user_positions with
    | [] => Ok (replace h snapshot)
    | first_instruction_turn_idx :: _ =>
        cut_idx ← (if length user_positions <=? num_turns then Ok first_instruction_turn_idx
                   else match user_positions !! (length user_positions - num_turns) with
                        | Some idx => Ok idx
                        | None => Panic
                        end);
        '(cut_idx, r) ← trim_pre_turn_context_updates snapshot first_instruction_turn_idx cut_idx
                          (reference_context_item h);
        Ok {| items := take cut_idx snapshot; token_info := token_info h; reference_context_item := r |}
    end.

(** * Estimates *)

(** [serde_json::to_string(item)], as the length of the result. *)
Variable serialized_len : item → option N.
(** Decoding a base64 payload and the image in it: width and height. *)
Variable decode_image : str → option (N * N).

Definition data_prefix : str := lit "data:".
Definition image_prefix : str := lit "image/".
Definition parse_base64_image_data_url (url : str) : outcome Empty_set (option str) :=
  if negb (is_some_and (λ prefix, eq_ignore_ascii_case prefix data_prefix) (get_to (str_len data_prefix) url))
  then Ok None
  else match split_once 44 url with
  | None => Ok None
  | Some (metadata, payload) =>
      metadata_without_scheme ← slice_from (str_len data_prefix) metadata;
      let metadata_parts := split_char 59 metadata_without_scheme in
      let mime_type := default [] (head metadata_parts) in
      let has_base64_marker := existsb (λ part, eq_ignore_ascii_case part (lit "base64")) (tail metadata_parts) in
      if negb (is_some_and (λ prefix, eq_ignore_ascii_case prefix image_prefix)
                 (get_to (str_len image_prefix) mime_type)) then Ok None
      else if negb has_base64_marker then Ok None
      else Ok (Some payload)
  end.

Definition RESIZED_IMAGE_BYTES_ESTIMATE : Z := 7373.
Definition ORIGINAL_IMAGE_PATCH_SIZE : Z := 32.
(** Division on [i64] of numbers that are not negative. *)
Definition estimate_original_image_bytes (image_url : str) : outcome Empty_set (option Z) :=
  payload ← parse_base64_image_data_url image_url;
  Ok ('(width, height) ← (payload ≫= decode_image);
      let patches n :=
        (saturating_add_i64 (Z.of_N n) (saturating_sub_i64 ORIGINAL_IMAGE_PATCH_SIZE 1) `div` ORIGINAL_IMAGE_PATCH_SIZE)%Z in
      let patch_count := saturating_mul_i64 (patches width) (patches height) in
      let patch_count := if (patch_count <? 0)%Z then USIZE_MAX else Z.to_N patch_count in
      Some (i64_try_from (approx_bytes_for_tokens patch_count))).
Definition accumulate (acc : Z * Z) (image : str * option ImageDetail) : outcome Empty_set (Z * Z) :=
  let '(payload_bytes, replacement_bytes) := acc in
  let '(image_url, detail) := image in
  parsed ← parse_base64_image_data_url image_url;
  match parsed with
  | None => Ok acc
  | Some payload =>
      replacement ← match detail with
                    | Some Original =>
                        o ← estimate_original_image_bytes image_url;
                        Ok (default RESIZED_IMAGE_BYTES_ESTIMATE o)
                    | _ => Ok RESIZED_IMAGE_BYTES_ESTIMATE
                    end;
      Ok (saturating_add_i64 payload_bytes (i64_try_from (str_len payload)),
          saturating_add_i64 replacement_bytes replacement)
  end.
Fixpoint accumulate_all (acc : Z * Z) (images : list (str * option ImageDetail)) : outcome Empty_set (Z * Z) :=
  match images with
  | [] => Ok acc
  | image :: images' => acc ← accumulate acc image; accumulate_all acc images'
  end.
Definition content_image (c : ContentItem) : option (str * option ImageDetail) :=
  match c with ContentInputImage image_url => Some (image_url, None) | _ => None end.
Definition output_image (c : output_item) : option (str * option ImageDetail) :=
  match c with InputImage image_url detail => Some (image_url, detail) | InputText _ => None end.
Definition image_data_url_estimate_adjustment (i : item) : outcome Empty_set (Z * Z) :=
  accumulate_all (0, 0)%Z
    match i with
    | Message _ _ content _ _ => omap content_image content
    | FunctionCallOutput _ {| body := ContentItems l |} | CustomToolCallOutput _ _ {| body := ContentItems l |} =>
        omap output_image l
    | _ => []
    end.

Definition estimate_reasoning_length (encoded_len : N) : N := (saturating_mul encoded_len 3 / 4 - 650)%N.
Definition estimate_response_item_model_visible_bytes (i : item) : outcome Empty_set Z :=
  match i with
  | GhostSnapshot _ => Ok 0%Z
  | Reasoning _ _ _ (Some content) | Compaction content =>
      Ok (i64_try_from (estimate_reasoning_length (str_len content)))
  | i =>
      let raw := match serialized_len i with Some n => i64_try_from n | None => 0%Z end in
      '(payload_bytes, replacement_bytes) ← image_data_url_estimate_adjustment i;
      Ok (if ((payload_bytes =? 0) || (replacement_bytes =? 0))%Z then raw
          else saturating_add_i64 (saturating_sub_i64 raw payload_bytes) replacement_bytes)
  end.
Definition estimate_item_token_count (i : item) : outcome Empty_set Z :=
  b ← estimate_response_item_model_visible_bytes i; Ok (approx_tokens_from_byte_count_i64 b).
(** [map(f).fold(0, saturating_add)]. *)
Fixpoint sum_estimates (f : item → outcome Empty_set Z) (acc : Z) (l : list item) : outcome Empty_set Z :=
  match l with
  | [] => Ok acc
  | i :: l' => n ← f i; sum_estimates f (saturating_add_i64 acc n) l'
  end.
Definition estimate_token_count_with_base_instructions (h : ContextManager) (base_instructions : str)
    : outcome Empty_set Z :=
  items_tokens ← sum_estimates estimate_item_token_count 0 (items h);
  Ok (saturating_add_i64 (i64_try_from (approx_token_count base_instructions)) items_tokens).
Definition is_encrypted_reasoning (i : item) : bool :=
  match i with Reasoning _ _ _ (Some _) => true | _ => false end.
Definition get_non_last_reasoning_items_tokens (h : ContextManager) : outcome Empty_set Z :=
  match rposition is_user_turn_boundary (items h) with
  | None => Ok 0%Z
  | Some last_user_index =>
      sum_estimates estimate_item_token_count 0
        (filter (λ i, is_encrypted_reasoning i = true) (take last_user_index (items h)))
  end.
Definition items_after_last_model_generated_item (h : ContextManager) : list item :=
  match rposition is_model_generated_item (items h) with
  | None => []
  | Some index => drop (S index) (items h)
  end.
Definition get_total_token_usage (h : ContextManager) (server_reasoning_included : bool) : outcome Empty_set Z :=
  let last_tokens := match token_info h with Some info => total_tokens (last_token_usage info) | None => 0%Z end in
  after ← sum_estimates estimate_item_token_count 0 (items_after_last_model_generated_item h);
  if server_reasoning_included then Ok (saturating_add_i64 last_tokens after)
  else
    reasoning ← get_non_last_reasoning_items_tokens h;
    Ok (saturating_add_i64 (saturating_add_i64 last_tokens reasoning) after).
Record TotalTokenUsageBreakdown : Type := {
  last_api_response_total_tokens : Z;
  all_history_items_model_visible_bytes : Z;
  estimated_tokens_of_items_added_since_last_successful_api_response : Z;
  estimated_bytes_of_items_added_since_last_successful_api_response : Z }.
Definition get_total_token_usage_breakdown (h : ContextManager) : outcome Empty_set TotalTokenUsageBreakdown :=
  let last_usage := match token_info h with Some info => last_token_usage info | None => TokenUsage_default end in
  let added := items_after_last_model_generated_item h in
  all_bytes ← sum_estimates estimate_response_item_model_visible_bytes 0 (items h);
  tokens ← sum_estimates estimate_item_token_count 0 added;
  bytes ← sum_estimates estimate_response_item_model_visible_bytes 0 added;
  Ok (Build_TotalTokenUsageBreakdown (total_tokens last_usage) all_bytes tokens bytes).
End context_manager.

(** * Rolling back: lemmas *)

Section rollback.
Context {Data : Type} (from_xml : str → option (str * str)) (from_json : str → option bool).
Abbreviation item := (@ResponseItem Data).
Abbreviation boundary := (is_user_turn_boundary (Data := Data) from_xml from_json).
Implicit Types (l : list item).

Lemma positions_where_app (p : item → bool) idx l k :
  positions_where p idx (l ++ k) = positions_where p idx l ++ positions_where p (idx + length l) k.
Proof.
  revert idx; induction l as [|i l IH]; intros idx; simpl; [by rewrite Nat.add_0_r|].
  by rewrite IH, <- app_assoc, <- Nat.add_succ_comm.
Qed.
Lemma positions_where_none (p : item → bool) idx l :
  (∀ i, i ∈ l → p i = false) → positions_where p idx l = [].
Proof.
  revert idx; induction l as [|i l IH]; intros idx H; [done|]. simpl.
  rewrite (H i) by set_solver. apply IH. set_solver.
Qed.
Lemma positions_where_lookup (p : item → bool) idx l m c :
  positions_where p idx l !! m = Some c →
  ∃ d, c = idx + d ∧ d < length l ∧ positions_where p idx (take d l) = take m (positions_where p idx l).
Proof.
  revert idx m; induction l as [|i l IH]; intros idx m; [done|]. simpl.
  destruct (p i) eqn:E; simpl.
  - destruct m as [|m]; simpl.
    + intros [= <-]. exists 0. simpl. split_and!; [lia..|done].
    + intros (d & -> & Hd & Hp)%IH. exists (S d). simpl. rewrite E, Hp. split_and!; [lia..|done].
  - intros (d & -> & Hd & Hp)%IH. exists (S d). simpl. rewrite E, Hp. split_and!; [lia..|done].
Qed.

Lemma positions_where_first (p : item → bool) idx l m first c :
  positions_where p idx l !! 0 = Some first → positions_where p idx l !! m = Some c → first ≤ c.
Proof.
  revert idx m first; induction l as [|i l IH]; intros idx m first; [done|]. simpl.
  destruct (p i); simpl; [|apply IH].
  intros [= <-]. destruct m as [|m]; simpl; [by intros [= <-]|].
  intros (d & -> & _)%positions_where_lookup. lia.
Qed.

(** An item the trim walk removes, and one that also clears the baseline. *)
Definition context_update (i : item) : bool :=
  match i with
  | Message _ role content _ _ =>
      bool_decide (role = developer) && is_contextual_dev_message_content content
      || bool_decide (role = user) && is_contextual_user_message_content from_xml content
  | _ => false
  end.
Definition mixed_bundle (i : item) : bool :=
  match i with
  | Message _ role content _ _ =>
      bool_decide (role = developer) && is_contextual_dev_message_content content
      && has_non_contextual_dev_message_content content
  | _ => false
  end.

Lemma context_update_not_boundary i : context_update i = true → boundary i = false.
Proof.
  destruct i as [id role content ? ?| | | | | | | | | | | | |]; try done. simpl.
  destruct (decide (role = user)) as [->|Hu].
  - rewrite (bool_decide_eq_true_2 (user = user)) by done.
    rewrite (bool_decide_eq_false_2 (user = developer)) by (by vm_compute).
    rewrite (bool_decide_eq_false_2 (user = assistant)) by (by vm_compute). simpl. by intros ->.
  - rewrite (bool_decide_eq_false_2 (role = user)) by done. simpl. rewrite orb_false_r.
    destruct (decide (role = developer)) as [->|Hd].
    + by rewrite (bool_decide_eq_false_2 (developer = assistant)) by (by vm_compute).
    + by rewrite bool_decide_eq_false_2.
Qed.

Lemma trim_spec l first cut (r : option Data) :
  first ≤ cut ≤ length l →
  ∃ k, trim_pre_turn_context_updates from_xml l first cut r
       = Ok (k, if existsb mixed_bundle (drop k (take cut l)) then None else r)
    ∧ first ≤ k ≤ cut
    ∧ Forall (λ i, context_update i = true) (drop k (take cut l))
    ∧ (k = first ∨ ∃ i, l !! (k - 1) = Some i ∧ context_update i = false).
Proof.
  revert r. induction cut as [|c IH]; intros r Hc; cbn [trim_pre_turn_context_updates].
  { exists 0. simpl. split_and!; [done|lia..|done|left; lia]. }
  destruct (Nat.leb_spec (S c) first) as [Hf|Hf].
  { exists (S c). rewrite drop_ge by (rewrite length_take; lia). split_and!; [done|lia..|done|left; lia]. }
  destruct (lookup_lt_is_Some_2 l c) as [x Hx]; [lia|]. rewrite Hx.
  assert (stop : context_update x = false → ∃ k,
    Ok (E := Empty_set) (S c, r) = Ok (k, if existsb mixed_bundle (drop k (take (S c) l)) then None else r)
    ∧ first ≤ k ≤ S c ∧ Forall (λ i, context_update i = true) (drop k (take (S c) l))
    ∧ (k = first ∨ ∃ i, l !! (k - 1) = Some i ∧ context_update i = false)).
  { intros Hn. exists (S c). rewrite drop_ge by (rewrite length_take; lia). split_and!; [done|lia..|done|].
    right. exists x. by rewrite Nat.sub_succ, Nat.sub_0_r. }
  assert (go : ∀ r', context_update x = true → r' = (if mixed_bundle x then None else r) → ∃ k,
    trim_pre_turn_context_updates from_xml l first c r'
    = Ok (k, if existsb mixed_bundle (drop k (take (S c) l)) then None else r)
    ∧ first ≤ k ≤ S c ∧ Forall (λ i, context_update i = true) (drop k (take (S c) l))
    ∧ (k = first ∨ ∃ i, l !! (k - 1) = Some i ∧ context_update i = false)).
  { intros r' Hn ->. destruct (IH (if mixed_bundle x then None else r)) as (k & E & Hk & HF & Hlast); [lia|].
    exists k. rewrite (take_S_r _ _ _ Hx), drop_app_le by (rewrite length_take; lia).
    rewrite existsb_app, E. split_and!; [|lia..|by apply Forall_app; auto|done].
    simpl. rewrite orb_false_r. by destruct (existsb _ _), (mixed_bundle x). }
  destruct x as [id role content ? ?| | | | | | | | | | | | |]; try by apply stop.
  simpl in stop, go. destruct (bool_decide (role = developer) && _) eqn:Ed; [by apply go|].
  destruct (bool_decide (role = user) && _) eqn:Eu; [by apply go|by apply stop].
Qed.

(** The walk does not depend on the baseline. *)
Lemma trim_baseline l first cut (r r' : option Data) k s :
  trim_pre_turn_context_updates from_xml l first cut r = Ok (k, s) →
  ∃ s', trim_pre_turn_context_updates from_xml l first cut r' = Ok (k, s').
Proof.
  revert r r'. induction cut as [|c IH]; intros r r'; cbn [trim_pre_turn_context_updates].
  { intros [= <- <-]. eauto. }
  destruct (S c <=? first); [intros [= <- <-]; eauto|].
  destruct (l !! c) as [[? role content ? ?| | | | | | | | | | | | |]|]; try (intros [= <- <-]; by eauto).
  destruct (bool_decide (role = developer) && _); [apply IH|].
  destruct (bool_decide (role = user) && _); [apply IH|]. intros [= <- <-]. eauto.
Qed.
Lemma drop_last_n_baseline (h h' : ContextManager (Data := Data)) n g :
  items h = items h' → drop_last_n_user_turns from_xml from_json h n = Ok g →
  ∃ g', drop_last_n_user_turns from_xml from_json h' n = Ok g' ∧ items g' = items g.
Proof.
  intros E. unfold drop_last_n_user_turns. rewrite <- E. destruct (n =? 0); [intros [= <-]; eauto|].
  destruct (user_message_positions from_xml from_json (items h)) as [|first rest]; [intros [= <-]; eauto|].
  destruct (if _ <=? n then _ else _) as [cut| | |]; try done. run_bind.
  destruct (trim_pre_turn_context_updates from_xml (items h) first cut (reference_context_item h))
    as [[k s]| | |] eqn:Et; try done. run_bind. intros [= <-].
  destruct (trim_baseline _ _ _ _ (reference_context_item h') _ _ Et) as [s' ->].
  run_bind. eauto.
Qed.

Lemma drop_last_n_user_turns_eq (h : ContextManager (Data := Data)) (n : nat) :
  let ps := user_message_positions from_xml from_json (items h) in
  ∃ h' k, drop_last_n_user_turns from_xml from_json h n = Ok h'
    ∧ items h' = take k (items h) ∧ token_info h' = token_info h
    ∧ user_message_positions from_xml from_json (items h') = take (length ps - n) ps
    ∧ (n = 0 ∨ ps = [] → h' = h)
    ∧ (n ≠ 0 → ∀ first cut, ps !! 0 = Some first → ps !! (length ps - n) = Some cut →
        first ≤ k ≤ cut
        ∧ Forall (λ i, context_update i = true) (drop k (take cut (items h)))
        ∧ (k = first ∨ ∃ i, items h !! (k - 1) = Some i ∧ context_update i = false)
        ∧ reference_context_item h'
          = if existsb mixed_bundle (drop k (take cut (items h))) then None else reference_context_item h).
Proof.
  intros ps. unfold drop_last_n_user_turns. fold ps.
  assert (Eps : ps = user_message_positions from_xml from_json (items h)) by done. clearbody ps.
  destruct (Nat.eqb_spec n 0) as [->|Hn].
  { exists h, (length (items h)). rewrite firstn_all, Nat.sub_0_r, firstn_all. split_and!; done. }
  destruct ps as [|first rest] eqn:Hps.
  { exists h, (length (items h)). rewrite firstn_all. destruct h. split_and!; try done. }
  rewrite <- Hps in *. assert (H0 : ps !! 0 = Some first) by by rewrite Hps.
  destruct (lookup_lt_is_Some_2 ps (length ps - n)) as [cut Hcut]; [rewrite Hps; simpl; lia|].
  replace (if length ps <=? n then Ok first else match ps !! (length ps - n) with Some idx => Ok idx | None => Panic end)
    with (Ok (E := Empty_set) cut).
  2:{ destruct (Nat.leb_spec (length ps) n); [|by rewrite Hcut].
      replace (length ps - n) with 0 in Hcut by lia. congruence. }
  run_bind.
  pose proof H0 as H1. pose proof Hcut as Hcut'. rewrite Eps in H1, Hcut'.
  destruct (positions_where_lookup _ _ _ _ _ Hcut') as (d & Ed & Hd & Hp). simpl in Ed. subst d.
  assert (first ≤ cut) by (eapply positions_where_first; [exact H1|exact Hcut']).
  destruct (trim_spec (items h) first cut (reference_context_item h)) as (k & -> & Hk & HF & Hl); [lia|].
  run_bind. eexists _, k. split_and!; [reflexivity|done..| | |].
  - simpl. rewrite Eps. etrans; [|exact Hp]. unfold user_message_positions.
    rewrite <- (take_drop k (take cut (items h))).
    rewrite positions_where_app, take_take, Nat.min_l by lia.
    rewrite (positions_where_none _ _ (drop k _)), app_nil_r; [done|].
    intros i Hi. apply context_update_not_boundary. by rewrite Forall_forall in HF; apply HF.
  - intros [?|?]; congruence.
  - intros _ first' cut' E1 E2. simplify_eq. simpl. split_and!; try done; lia.
Qed.

(** C19. Dropping the last [n] turns never panics and leaves a prefix of the
    history that holds exactly the first [total - n] turn boundaries (none
    when [n] is larger); asking for no turns, or having none, changes nothing.
    Otherwise the prefix ends at the boundary of the first dropped turn, less
    the run of contextual updates just before it, never going before the first
    turn; the baseline is forgotten exactly when a mixed bundle was trimmed,
    and the token counts are kept. *)
Theorem drop_last_n_user_turns_spec (h : ContextManager (Data := Data)) (n : nat) :
  let ps := user_message_positions from_xml from_json (items h) in
  ∃ h' k, drop_last_n_user_turns from_xml from_json h n = Ok h'
    ∧ items h' = take k (items h) ∧ token_info h' = token_info h
    ∧ user_message_positions from_xml from_json (items h') = take (length ps - n) ps
    ∧ (n = 0 ∨ ps = [] → h' = h)
    ∧ (n ≠ 0 → ∀ first cut, ps !! 0 = Some first → ps !! (length ps - n) = Some cut →
        first ≤ k ≤ cut
        ∧ Forall (λ i, context_update i = true) (drop k (take cut (items h)))
        ∧ (k = first ∨ ∃ i, items h !! (k - 1) = Some i ∧ context_update i = false)
        ∧ reference_context_item h'
          = if existsb mixed_bundle (drop k (take cut (items h))) then None else reference_context_item h).
Proof. apply drop_last_n_user_turns_eq. Qed.
End rollback.

(** * Removing an item with its counterpart *)

Section removal.
Context {Data : Type}.
Abbreviation item := (@ResponseItem Data).
Implicit Types (i o x : item) (l : list item).

(** What a call and its output share. *)
Definition call_key i : option (nat * str) :=
  match i with
  | FunctionCall _ _ _ _ c | LocalShellCall _ (Some c) _ _ => Some (0, c)
  | CustomToolCall _ _ c _ _ => Some (1, c)
  | ToolSearchCall _ (Some c) _ _ _ => Some (2, c)
  | _ => None
  end.
Definition output_key o : option (nat * str) :=
  match o with
  | FunctionCallOutput c _ => Some (0, c)
  | CustomToolCallOutput c _ _ => Some (1, c)
  | ToolSearchOutput (Some c) _ _ _ => Some (2, c)
  | _ => None
  end.
(** No two calls, and no two outputs, share their key. *)
Definition distinct_ids l : Prop := NoDup (omap call_key l) ∧ NoDup (omap output_key l).

Lemma answers_key o i : answers o i = true ↔ ∃ k, output_key o = Some k ∧ call_key i = Some k.
Proof.
  destruct o as [| |? [?|] ? ?|? ? ? ? ?|? [?|] ? ? ?|? ?|? ? ? ? ?|? ? ?|[?|] ? ? ?| | | | |];
    try (split; [done|naive_solver]);
    destruct i as [| |? [?|] ? ?|? ? ? ? ?|? [?|] ? ? ?|? ?|? ? ? ? ?|? ? ?|[?|] ? ? ?| | | | |];
    try (split; [done|naive_solver]); simpl; rewrite bool_decide_eq_true; naive_solver.
Qed.


Lemma remove_first_matching_filter (p : item → bool) (key : item → option (nat * str)) k l :
  NoDup (omap key l) → (∀ i, p i = true → key i = Some k) →
  remove_first_matching p l = filter (λ i, p i = false) l.
Proof.
  intros Hd Hp. induction l as [|i l IH]; [done|]. cbn [remove_first_matching]. simpl in Hd.
  rewrite filter_cons. destruct (p i) eqn:E.
  - rewrite decide_False by done. rewrite (Hp i E) in Hd. apply NoDup_cons in Hd as [Hk _].
    symmetry. apply filter_true. intros j Hj. destruct (p j) eqn:Ej; [|done]. destruct Hk.
    apply list_elem_of_omap. eauto.
  - rewrite decide_True by done. f_equal. apply IH. destruct (key i); [by apply NoDup_cons in Hd as [_ ?]|done].
Qed.

Lemma remove_first_matching_or (p q : item → bool) (key : item → option (nat * str)) k l :
  NoDup (omap key l) → (∀ i, p i = true ∨ q i = true → key i = Some k) →
  (if existsb p l then remove_first_matching p l else remove_first_matching q l)
  = remove_first_matching (λ i, p i || q i) l.
Proof.
  intros Hd Hp. induction l as [|i l IH]; [done|]. cbn [existsb remove_first_matching]. simpl in Hd.
  destruct (p i) eqn:Ep; [done|]. simpl. destruct (q i) eqn:Eq.
  - rewrite (Hp i) in Hd by auto. apply NoDup_cons in Hd as [Hk _].
    rewrite existsb_false; [done|]. intros j Hj. destruct (p j) eqn:Ej; [|done]. destruct Hk.
    apply list_elem_of_omap. eauto.
  - rewrite <- IH by (destruct (key i); [by apply NoDup_cons in Hd as [_ ?]|done]). by destruct (existsb p l).
Qed.

Definition counterpart x i : bool := answers x i || answers i x.

(** Compares tests on items by cases on the kind of the item. *)
Ltac by_kind :=
  intros [| |? [?|] ? ?|? ? ? ? ?|? [?|] ? ? ?|? ?|? ? ? ? ?|? ? ?|[?|] ? ? ?| | | | |];
  unfold counterpart; simpl; rewrite ?orb_false_r; try done; rewrite ?bool_decide_eq_true;
  first [apply bool_decide_ext; naive_solver | naive_solver].

Lemma remove_corresponding_for_eq l x :
  distinct_ids l → remove_corresponding_for l x = filter (λ i, counterpart x i = false) l.
Proof.
  intros [Hc Ho].
  assert (by_key : ∀ (p : item → bool) (key : item → option (nat * str)) k, NoDup (omap key l) → (∀ i, p i = true → key i = Some k) →
    (∀ i, p i = counterpart x i) → remove_first_matching p l = filter (λ i, counterpart x i = false) l).
  { intros p key k Hd Hk E. rewrite (remove_first_matching_filter p key k) by done.
    apply list_filter_iff. intros i. by rewrite E. }
  assert (none : (∀ i, counterpart x i = false) → l = filter (λ i, counterpart x i = false) l).
  { intros E. symmetry. by apply filter_true. }
  destruct x as [| |? [c|] ? ?|? ? ? ? c|? [c|] ? ? ?|c ?|? ? c ? ?|c ? ?|[c|] ? ? ?| | | | |];
    cbn [remove_corresponding_for];
    try (apply none; intros [| |? [?|] ? ?|? ? ? ? ?|? [?|] ? ? ?|? ?|? ? ? ? ?|? ? ?|[?|] ? ? ?| | | | |]; done).
  - apply (by_key _ output_key (0, c)); [done|by_kind..].
  - apply (by_key _ output_key (0, c)); [done|by_kind..].
  - apply (by_key _ output_key (2, c)); [done|by_kind..].
  - rewrite (remove_first_matching_or _ _ call_key (0, c)); [|done|by_kind].
    apply (by_key _ call_key (0, c)); [done|by_kind..].
  - apply (by_key _ output_key (1, c)); [done|by_kind..].
  - apply (by_key _ call_key (1, c)); [done|by_kind..].
  - apply (by_key _ call_key (2, c)); [done|by_kind..].
Qed.

Lemma call_or_output i k k' : call_key i = Some k → output_key i = Some k' → False.
Proof. by destruct i as [| |? [?|] ? ?|? ? ? ? ?|? [?|] ? ? ?|? ?|? ? ? ? ?|? ? ?|[?|] ? ? ?| | | | |]. Qed.
Lemma distinct_cons_inv x l :
  distinct_ids (x :: l) →
  distinct_ids l ∧ (∀ i k, i ∈ l → call_key i = Some k → call_key x ≠ Some k)
  ∧ (∀ i k, i ∈ l → output_key i = Some k → output_key x ≠ Some k).
Proof.
  unfold distinct_ids. simpl. intros [Hc Ho].
  assert (inv : ∀ key : item → option (nat * str),
    NoDup (match key x with Some k => k :: omap key l | None => omap key l end) →
    NoDup (omap key l) ∧ ∀ i k, i ∈ l → key i = Some k → key x ≠ Some k).
  { intros key. destruct (key x) as [k|]; [|done]. intros [Hk Hd]%NoDup_cons. split; [done|].
    intros i k' Hi Hik [= ->]. apply Hk, list_elem_of_omap. eauto. }
  destruct (inv _ Hc), (inv _ Ho). done.
Qed.

Lemma paired_removed x l :
  distinct_ids (x :: l) → paired (x :: l) → paired (filter (λ i, counterpart x i = false) l).
Proof.
  intros (_ & Hc & Ho)%distinct_cons_inv HP j [Hj Hjl]%list_elem_of_filter.
  apply orb_false_iff in Hj as [Hxj Hjx]. destruct (HP j) as [Ha Horph]; [by right|].
  assert (keep : ∀ y, y ∈ l → (answers x y = true → False) → (answers y x = true → False) →
    y ∈ filter (λ i, counterpart x i = false) l).
  { intros y Hy H1 H2. apply list_elem_of_filter. split; [|done]. unfold counterpart.
    destruct (answers x y), (answers y x); naive_solver. }
  split.
  - intros Hs. specialize (Ha Hs). unfold answered in *. apply existsb_elem in Ha as (o & Ho' & Ha).
    apply existsb_elem. exists o. split; [|done]. apply elem_of_cons in Ho' as [->|Hol]; [congruence|].
    pose proof Ha as (k & Hk1 & Hk2)%answers_key. apply keep; [done| |].
    + intros (k' & _ & Hk')%answers_key. by eapply call_or_output.
    + intros (k' & Hk3 & Hk4)%answers_key. eapply Hc; [exact Hjl|exact Hk2|]. congruence.
  - unfold orphan in *. destruct (needs_call j); [|done]. simpl in *.
    rewrite negb_false_iff in *. change (existsb (answers j) (x :: l) = true) in Horph.
    apply existsb_elem in Horph as (c & Hc' & Hjc).
    apply existsb_elem. exists c. split; [|done]. apply elem_of_cons in Hc' as [->|Hcl]; [congruence|].
    pose proof Hjc as (k & Hk1 & Hk2)%answers_key. apply keep; [done| |].
    + intros (k' & Hk3 & Hk4)%answers_key. eapply Ho; [exact Hjl|exact Hk1|]. congruence.
    + intros (k' & Hk' & _)%answers_key. by eapply call_or_output.
Qed.
Lemma paired_perm l k : l ≡ₚ k → paired l → paired k.
Proof.
  intros E HP i Hi. rewrite <- E in Hi. destruct (HP i Hi) as [Ha Ho].
  assert (ex : ∀ p : item → bool, existsb p l = existsb p k).
  { intros p. apply eq_iff_eq_true. rewrite !existsb_elem. by setoid_rewrite E. }
  unfold answered, orphan in *. by rewrite <- !ex.
Qed.
Lemma distinct_perm l k : l ≡ₚ k → distinct_ids l → distinct_ids k.
Proof. unfold distinct_ids. intros E [H1 H2]. by rewrite <- E. Qed.

(** Taking the oldest or the newest item out of a history whose calls
    and outputs are paired and whose ids are distinct also takes out its call
    or output, and nothing else, and leaves the rest paired. *)
Theorem remove_item_keeps_pairs (h : ContextManager (Data := Data)) x l :
  distinct_ids (items h) → paired (items h) →
  (items h = x :: l →
     items (remove_first_item h) = filter (λ i, counterpart x i = false) l
     ∧ paired (items (remove_first_item h)))
  ∧ (items h = l ++ [x] →
     (remove_last_item h).2 = true
     ∧ items (remove_last_item h).1 = filter (λ i, counterpart x i = false) l
     ∧ paired (items (remove_last_item h).1)).
Proof.
  intros Hd HP. split; intros E.
  - unfold remove_first_item. rewrite E in *. simpl.
    rewrite remove_corresponding_for_eq by (by apply distinct_cons_inv in Hd as [? _]).
    split; [done|]. by apply paired_removed.
  - unfold remove_last_item. rewrite E, last_snoc in *. simpl.
    assert (P : l ++ [x] ≡ₚ x :: l) by (by rewrite Permutation_app_comm).
    apply (distinct_perm _ _ P) in Hd. apply (paired_perm _ _ P) in HP.
    rewrite length_app, Nat.add_sub, take_app_length.
    rewrite remove_corresponding_for_eq by (by apply distinct_cons_inv in Hd as [? _]).
    split_and!; [done..|]. by apply paired_removed.
Qed.
End removal.

(** * Recording never fails *)

Section recording.
Context {Data : Type}.
Abbreviation item := (@ResponseItem Data).

Lemma process_item_total (i : item) policy : ∃ j, process_item i policy = Ok j.
Proof.
  assert (P : ∀ o p, ∃ o', truncate_function_output_payload o p = Ok o').
  { intros [[t|l] s] p; unfold truncate_function_output_payload; simpl.
    - destruct (truncate_text_total t p) as [t' ->]. cbn. eauto.
    - destruct (truncate_items_eq l p) as (l' & -> & _). cbn. eauto. }
  destruct i as [| | | | |c o| |c n o| | | | | |]; try (simpl; by eauto); simpl;
    destruct (P o (scale_policy policy)) as [o' ->]; cbn; eauto.
Qed.
Lemma record_loop_spec (l : list item) policy new_items :
  ∃ k, record_loop l policy new_items = Ok (l ++ k)
    ∧ Forall2 (λ i j, process_item i policy = Ok j)
        (filter (λ i, is_api_message i || is_ghost_snapshot i = true) new_items) k.
Proof.
  revert l. induction new_items as [|i new_items IH]; intros l; cbn [record_loop].
  { exists []. rewrite app_nil_r. auto. }
  destruct (negb (is_api_message i) && negb (is_ghost_snapshot i)) eqn:E.
  - destruct (IH l) as (k & -> & Hk). exists k. split; [done|]. rewrite filter_cons_False; [done|].
    rewrite <- negb_orb in E. apply negb_true_iff in E. by rewrite E.
  - destruct (process_item_total i policy) as [j Ej]. rewrite Ej. run_bind.
    destruct (IH (l ++ [j])) as (k & -> & Hk). exists (j :: k). rewrite <- app_assoc. split; [done|].
    rewrite filter_cons_True; [by constructor|].
    rewrite <- negb_orb in E. apply negb_false_iff in E. done.
Qed.

(** Whether an item carries an output the recording may shorten. *)
Definition output_payload (i : item) : option FunctionCallOutputPayload :=
  match i with FunctionCallOutput _ o | CustomToolCallOutput _ _ o => Some o | _ => None end.
Definition within_budget (policy : TruncationPolicy) (o : FunctionCallOutputPayload) : Prop :=
  match body o with
  | Text t => (str_len t ≤ byte_budget (scale_policy policy))%N ∧ (str_len t ≤ USIZE_MAX)%N
  | ContentItems l =>
      item_texts_ok l ∧ (total_cost policy l ≤ match scale_policy policy with Bytes n | Tokens n => n end)%N
  end.
Lemma truncate_text_fits s policy :
  (str_len s ≤ byte_budget policy)%N → (str_len s ≤ USIZE_MAX)%N → truncate_text s policy = Ok s.
Proof.
  intros Hle Hmax. destruct policy as [b|t]; unfold truncate_text; simpl in Hle.
  - destruct (truncate_with_byte_estimate_spec s b false Hmax) as (o & E & Ho & _). rewrite <- (Ho Hle) at 2. done.
  - unfold truncate_middle_with_token_budget. destruct (decide (s = [])) as [->|Hne]; [done|].
    destruct (_ && _); [done|].
    destruct (truncate_with_byte_estimate_spec s (approx_bytes_for_tokens t) true Hmax) as (o & -> & Ho & _).
    rewrite (Ho Hle). cbn. by rewrite decide_True.
Qed.

Lemma process_item_unchanged (i : item) policy :
  (∀ o, output_payload i = Some o → within_budget policy o) → process_item i policy = Ok i.
Proof.
  intros H.
  assert (P : ∀ o, output_payload i = Some o → truncate_function_output_payload o (scale_policy policy) = Ok o).
  { intros o Ho. specialize (H o Ho). destruct o as [[t|l] s]; unfold truncate_function_output_payload; simpl.
    - destruct H as [Hle Hmax]. by rewrite truncate_text_fits.
    - destruct H as [Hok Htot]. destruct (truncate_items_eq l (scale_policy policy)) as (l' & -> & _ & Hl).
      run_bind. rewrite Hl; [done..|]. by destruct policy. }
  destruct i as [| | | | |c o| |c n o| | | | | |]; try done; simpl; by rewrite P.
Qed.

(** Recording never fails: it appends, in order, the items that are
    messages for the API (no system message, no unknown item) or ghost
    snapshots, each processed on its own; processing leaves an item as it is
    unless it is a tool output whose text exceeds the scaled budget, and never
    changes its kind or call id. *)
Theorem record_items_spec (h : ContextManager (Data := Data)) new_items policy :
  ∃ k, record_items h new_items policy = Ok (replace h (items h ++ k))
    ∧ Forall2 (λ i j, process_item i policy = Ok j
                      ∧ call_key j = call_key i ∧ output_key j = output_key i
                      ∧ ((∀ o, output_payload i = Some o → within_budget policy o) → j = i))
        (filter (λ i, is_api_message i || is_ghost_snapshot i = true) new_items) k.
Proof.
  destruct (record_loop_spec (items h) policy new_items) as (k & E & Hk). exists k.
  unfold record_items. rewrite E. split; [done|]. eapply Forall2_impl; [exact Hk|].
  intros i j Hij. cbv beta in Hij. split; [done|]. split; [|split].
  - destruct i; simpl in Hij; try (injection Hij as <-; done);
      destruct (truncate_function_output_payload _ _); try done; injection Hij as <-; done.
  - destruct i; simpl in Hij; try (injection Hij as <-; done);
      destruct (truncate_function_output_payload _ _); try done; injection Hij as <-; done.
  - intros H. pose proof (process_item_unchanged i policy H). congruence.
Qed.
End recording.

(** * Wrapped fragments *)

Lemma get_to_app a b : get_to (str_len a) (a ++ b) = Some a.
Proof. unfold get_to. by rewrite slice_to_app. Qed.
Lemma get_from_app a b : get_from (str_len a) (a ++ b) = Some b.
Proof. unfold get_from. by rewrite slice_from_app. Qed.
Lemma eq_ignore_ascii_case_refl a : eq_ignore_ascii_case a a = true.
Proof. by apply bool_decide_eq_true. Qed.

(** A fragment wrapped by its definition is recognised, whatever its body. *)
Lemma matches_text_wrap d body c e :
  head (start_marker d) = Some c → is_whitespace c = false →
  last (end_marker d) = Some e → is_whitespace e = false →
  matches_text d (wrap d body) = true.
Proof.
  intros Hs Hc He Hw. unfold matches_text, wrap.
  destruct (start_marker d) as [|c' s'] eqn:Es; [done|]. injection Hs as ->.
  apply last_Some in He as (e' & He).
  assert (T : trim_start ((c :: s') ++ [nl] ++ body ++ [nl] ++ end_marker d)
              = (c :: s') ++ [nl] ++ body ++ [nl] ++ end_marker d) by (by apply trim_start_matches_id).
  rewrite T, get_to_app. simpl is_some_and at 1. rewrite eq_ignore_ascii_case_refl.
  assert (T' : trim_end ((c :: s') ++ [nl] ++ body ++ [nl] ++ end_marker d)
               = ((c :: s') ++ [nl] ++ body ++ [nl]) ++ end_marker d).
  { rewrite He. unfold trim_end. replace ((c :: s') ++ [nl] ++ body ++ [nl] ++ e' ++ [e])
      with (((c :: s') ++ [nl] ++ body ++ [nl] ++ e') ++ [e]) by by rewrite <- !app_assoc.
    rewrite trim_end_matches_snoc by done. by rewrite <- !app_assoc. }
  rewrite T', str_len_app, N.add_sub, get_from_app. simpl. apply eq_ignore_ascii_case_refl.
Qed.
Lemma contextual_fragment_recognised d body :
  d ∈ CONTEXTUAL_USER_FRAGMENTS → is_standard_contextual_user_text (wrap d body) = true.
Proof.
  intros Hd. apply existsb_elem. exists d. split; [done|]. unfold CONTEXTUAL_USER_FRAGMENTS in Hd.
  repeat (apply elem_of_cons in Hd as [->|Hd]; [by eapply matches_text_wrap|]). set_solver.
Qed.

(** * Witnesses *)

Definition sample_history : list (ResponseItem (Data := unit)) :=
  [FunctionCall None (lit "shell") None [] (lit "c1");
   Message None user [ContentInputText (lit "hi")] None None;
   FunctionCallOutput (lit "c1") (from_text (lit "ok"))].
Definition sample_manager : ContextManager (Data := unit) :=
  {| items := sample_history; token_info := None; reference_context_item := Some tt |}.

Lemma remove_item_keeps_pairs_witness :
  items (remove_first_item sample_manager) = [Message None user [ContentInputText (lit "hi")] None None]
  ∧ paired (items (remove_first_item sample_manager)).
Proof.
  refine (proj1 (remove_item_keeps_pairs sample_manager
    (FunctionCall None (lit "shell") None [] (lit "c1")) (tail sample_history) _ _) eq_refl).
  - split; vm_compute; repeat constructor; set_solver.
  - intros i Hi. vm_compute in Hi. repeat (apply elem_of_cons in Hi as [->|Hi]; [split; vm_compute; [|reflexivity]|]).
    + reflexivity.
    + intros [? [=]].
    + intros [? [=]].
    + set_solver.
Defined.
