(* ===== verification/Rollout.v ===== *)
(** Rollouts, the persisted record of a thread: the positions of its turns
    ([codex-rs/core/src/thread_rollout_truncation.rs]), the user messages of
    [core/src/event_mapping.rs], local compaction ([core/src/compact.rs]) and
    the reconstruction of a history from a rollout
    ([core/src/codex/rollout_reconstruction.rs]). *)
From S2P Require Import Prelude RustStr Truncate History ContextManager.

(** * User messages *)

Inductive UserInput : Type := UserText (text : str) | UserImage (image_url : str).

Definition IMAGE_OPEN_TAG : str := lit "<image>".
Definition IMAGE_CLOSE_TAG : str := lit "</image>".
Definition is_local_image_open_tag_text (text : str) : bool :=
  match strip_prefix (lit "<image name=") text with Some rest => ends_with (lit ">") rest | None => false end.
Definition is_image_open_tag_text (text : str) : bool := bool_decide (text = IMAGE_OPEN_TAG).
Definition is_image_close_tag_text (text : str) : bool := bool_decide (text = IMAGE_CLOSE_TAG).
Definition is_local_image_close_tag_text (text : str) : bool := is_image_close_tag_text text.

Definition is_content_image (c : option ContentItem) : bool :=
  match c with Some (ContentInputImage _) => true | _ => false end.
(** The inputs of a message; [previous] is the item before [message]. *)
Fixpoint user_inputs (previous : option ContentItem) (message : list ContentItem) : list UserInput :=
  match message with
  | [] => []
  | content_item :: message' =>
      match content_item with
      | ContentInputText text =>
          if (is_local_image_open_tag_text text || is_image_open_tag_text text) && is_content_image (head message')
             || (is_local_image_close_tag_text text || is_image_close_tag_text text) && is_content_image previous
          then [] else [UserText text]
      | ContentInputImage image_url => [UserImage image_url]
      | ContentOutputText _ => []
      end ++ user_inputs (Some content_item) message'
  end.
(** [UserMessageItem::message]. *)
Definition message_text (content : list UserInput) : str :=
  concat ((λ c, match c with UserText text => text | UserImage _ => [] end) <$> content).

Definition SUMMARY_PREFIX : str :=
  lit "Another language model started to solve this problem and produced a summary of its thinking process. You also have access to the state of the tools that were used by that language model. Use this to build on the work that has already been done and avoid duplicating work. Here is the summary produced by the other language model, use the information in this summary to assist with your own analysis:".
Definition is_summary_message (message : str) : bool := starts_with (SUMMARY_PREFIX ++ [nl]) message.

Section rollout.
Context {Data : Type} (from_xml : str → option (str * str)) (from_json : str → option bool).
Abbreviation item := (@ResponseItem Data).

Definition parse_user_message (message : list ContentItem) : option (list UserInput) :=
  if is_contextual_user_message_content from_xml message then None else Some (user_inputs None message).
(** [parse_turn_item], when the result is a user message. *)
Definition parse_turn_user_message (i : item) : option (list UserInput) :=
  match i with
  | Message _ role content _ _ =>
      if decide (role = user) then
        match parse_visible_hook_prompt_message from_xml content with
        | Some _ => None
        | None => parse_user_message content
        end
      else None
  | _ => None
  end.
Definition is_real_user_message_boundary (i : item) : bool :=
  match parse_turn_user_message i with Some _ => true | None => false end.
Definition is_trigger_turn_boundary (i : item) : bool :=
  match i with
  | Message _ role content _ _ =>
      bool_decide (role = assistant) && is_some_and id (from_message_content from_json content)
  | _ => false
  end.
Abbreviation is_user_turn_boundary := (is_user_turn_boundary (Data := Data) from_xml from_json).

(** * Compaction *)

Definition collect_user_messages (l : list item) : list str :=
  omap (λ i, content ← parse_turn_user_message i;
             if is_summary_message (message_text content) then None else Some (message_text content)) l.

Definition COMPACT_USER_MESSAGE_MAX_TOKENS : N := 20000.
Definition user_text_message (text : str) : item := Message None user [ContentInputText text] None None.
(** The newest messages that fit, newest first. *)
Fixpoint select_messages (remaining : N) (messages : list str) : outcome Empty_set (list str) :=
  match messages with
  | [] => Ok []
  | message :: messages' =>
      if (remaining =? 0)%N then Ok []
      else
        let tokens := approx_token_count message in
        if (tokens <=? remaining)%N
        then selected ← select_messages (remaining - tokens) messages'; Ok (message :: selected)
        else truncated ← truncate_text message (Tokens remaining); Ok [truncated]
  end.
Definition build_compacted_history_with_limit (history : list item) (user_messages : list str)
    (summary_text : str) (max_tokens : N) : outcome Empty_set (list item) :=
  selected_messages ← (if (0 <? max_tokens)%N
                       then selected ← select_messages max_tokens (reverse user_messages); Ok (reverse selected)
                       else Ok []);
  let summary_text := if decide (summary_text = []) then lit "(no summary available)" else summary_text in
  Ok (history ++ (user_text_message <$> selected_messages) ++ [user_text_message summary_text]).
Definition build_compacted_history (initial_context : list item) (user_messages : list str)
    (summary_text : str) : outcome Empty_set (list item) :=
  build_compacted_history_with_limit initial_context user_messages summary_text COMPACT_USER_MESSAGE_MAX_TOKENS.

(** Walking back from the newest item: the last user-message-like item, and
    the last one that is not a summary, at which the walk stops. *)
Fixpoint last_user_indices (rev : list item) (last_user_or_summary_index : option nat)
    : option nat * option nat :=
  match rev with
  | [] => (last_user_or_summary_index, None)
  | i :: rev' =>
      match parse_turn_user_message i with
      | None => last_user_indices rev' last_user_or_summary_index
      | Some content =>
          let index := length rev' in
          let last_user_or_summary_index :=
            match last_user_or_summary_index with Some n => Some n | None => Some index end in
          if is_summary_message (message_text content) then last_user_indices rev' last_user_or_summary_index
          else (last_user_or_summary_index, Some index)
      end
  end.
Definition is_compaction (i : item) : bool := match i with Compaction _ => true | _ => false end.
Definition insert_initial_context_before_last_real_user_or_summary (compacted_history initial_context : list item)
    : list item :=
  let '(last_user_or_summary_index, last_real_user_index) := last_user_indices (reverse compacted_history) None in
  let last_compaction_index := rposition is_compaction compacted_history in
  let insertion_index :=
    match last_real_user_index, last_user_or_summary_index with
    | Some n, _ | None, Some n => Some n
    | None, None => last_compaction_index
    end in
  match insertion_index with
  | Some n => take n compacted_history ++ initial_context ++ drop n compacted_history
  | None => compacted_history ++ initial_context
  end.

(** * Rollout items *)

Record PreviousTurnSettings : Type := { model : str; realtime_active : option bool }.
(** [details] are the fields the reconstruction only copies. *)
Record TurnContextItem : Type := {
  turn_id : option str; ctx_model : str; ctx_realtime_active : option bool; details : Data }.
(** [num_turns] is a [u32]; the events the code does not look at are [OtherEvent]. *)
Inductive EventMsg : Type :=
| ThreadRolledBack (num_turns : nat)
| TurnComplete (turn_id : str)
| TurnAborted (turn_id : option str)
| UserMessage
| TurnStarted (turn_id : str)
| OtherEvent.
Inductive RolloutItem : Type :=
| SessionMeta (meta : Data)
| RResponseItem (i : item)
| Compacted (message : str) (replacement_history : option (list item))
| TurnContext (ctx : TurnContextItem)
| REventMsg (event : EventMsg).

(** ** Positions of turns *)

Fixpoint user_positions_loop (idx : nat) (l : list RolloutItem) (user_positions : list nat) : list nat :=
  match l with
  | [] => user_positions
  | it :: l' =>
      user_positions_loop (S idx) l'
        match it with
        | RResponseItem (Message _ _ _ _ _ as i) =>
            if is_real_user_message_boundary i then user_positions ++ [idx] else user_positions
        | REventMsg (ThreadRolledBack num_turns) => take (length user_positions - num_turns) user_positions
        | _ => user_positions
        end
  end.
Definition user_message_positions_in_rollout (l : list RolloutItem) : list nat := user_positions_loop 0 l [].

(** The loop keeps the rollback positions and the fork positions. *)
Definition rollback_positions (num_turns : nat) (rollback_turn_positions fork_turn_positions : list nat)
    : list nat * list nat :=
  if num_turns =? 0 then (rollback_turn_positions, fork_turn_positions)
  else
    let rollback_start_idx :=
      match (if num_turns <=? length rollback_turn_positions
             then rollback_turn_positions !! (length rollback_turn_positions - num_turns) else None) with
      | Some start => Some start
      | None => head rollback_turn_positions
      end in
    match rollback_start_idx with
    | None => (rollback_turn_positions, fork_turn_positions)
    | Some start => (take (length rollback_turn_positions - num_turns) rollback_turn_positions,
                     filter (λ position, position < start) fork_turn_positions)
    end.
Fixpoint fork_positions_loop (idx : nat) (l : list RolloutItem) (positions : list nat * list nat) : list nat :=
  match l with
  | [] => positions.2
  | it :: l' =>
      fork_positions_loop (S idx) l'
        match it with
        | RResponseItem i =>
            (if is_user_turn_boundary i then positions.1 ++ [idx] else positions.1,
             if is_real_user_message_boundary i || is_trigger_turn_boundary i
             then positions.2 ++ [idx] else positions.2)
        | REventMsg (ThreadRolledBack num_turns) => rollback_positions num_turns positions.1 positions.2
        | _ => positions
        end
  end.
Definition fork_turn_positions_in_rollout (l : list RolloutItem) : list nat := fork_positions_loop 0 l ([], []).

(** [usize::MAX] asks for no truncation. *)
Definition truncate_rollout_before_nth_user_message_from_start (l : list RolloutItem) (n_from_start : N)
    : outcome Empty_set (list RolloutItem) :=
  if (n_from_start =? USIZE_MAX)%N then Ok l
  else
    let user_positions := user_message_positions_in_rollout l in
    if (len user_positions <=? n_from_start)%N then Ok l
    else match user_positions !! N.to_nat n_from_start with
         | Some cut_idx => if cut_idx <=? length l then Ok (take cut_idx l) else Panic
         | None => Panic
         end.
Definition truncate_rollout_to_last_n_fork_turns (l : list RolloutItem) (n_from_end : nat)
    : outcome Empty_set (list RolloutItem) :=
  if n_from_end =? 0 then Ok []
  else
    let fork_turn_positions := fork_turn_positions_in_rollout l in
    if length fork_turn_positions <=? n_from_end then Ok l
    else match fork_turn_positions !! (length fork_turn_positions - n_from_end) with
         | Some keep_idx => if keep_idx <=? length l then Ok (drop keep_idx l) else Panic
         | None => Panic
         end.

(** * Reconstruction *)

Inductive TurnReferenceContextItem : Type := NeverSet | Cleared | Latest (ctx : TurnContextItem).
Record ActiveReplaySegment : Type := {
  seg_turn_id : option str; counts_as_user_turn : bool;
  seg_previous_turn_settings : option PreviousTurnSettings;
  seg_reference_context_item : TurnReferenceContextItem;
  seg_base_replacement_history : option (list item) }.
Definition default_segment : ActiveReplaySegment :=
  {| seg_turn_id := None; counts_as_user_turn := false; seg_previous_turn_settings := None;
     seg_reference_context_item := NeverSet; seg_base_replacement_history := None |}.
(** The local variables of the reverse scan. *)
Record Scan : Type := {
  base_replacement_history : option (list item);
  previous_turn_settings : option PreviousTurnSettings;
  scan_reference : TurnReferenceContextItem;
  pending_rollback_turns : N;
  rollout_suffix : list RolloutItem;
  active_segment : option ActiveReplaySegment }.
Definition with_active (st : Scan) (seg : option ActiveReplaySegment) : Scan :=
  {| base_replacement_history := base_replacement_history st;
     previous_turn_settings := previous_turn_settings st; scan_reference := scan_reference st;
     pending_rollback_turns := pending_rollback_turns st; rollout_suffix := rollout_suffix st;
     active_segment := seg |}.

Definition turn_ids_are_compatible (active_turn_id item_turn_id : option str) : bool :=
  match active_turn_id, item_turn_id with
  | Some turn_id, Some item_turn_id => bool_decide (item_turn_id = turn_id)
  | _, _ => true
  end.

Definition is_never_set (r : TurnReferenceContextItem) : bool := match r with NeverSet => true | _ => false end.
Definition is_cleared (r : TurnReferenceContextItem) : bool := match r with Cleared => true | _ => false end.
Definition finalize_active_segment (st : Scan) (seg : ActiveReplaySegment) : Scan :=
  if (0 <? pending_rollback_turns st)%N then
    {| base_replacement_history := base_replacement_history st;
       previous_turn_settings := previous_turn_settings st; scan_reference := scan_reference st;
       pending_rollback_turns :=
         (if counts_as_user_turn seg then pending_rollback_turns st - 1 else pending_rollback_turns st)%N;
       rollout_suffix := rollout_suffix st; active_segment := active_segment st |}
  else
    {| base_replacement_history :=
         match base_replacement_history st with
         | None => seg_base_replacement_history seg
         | Some h => Some h
         end;
       previous_turn_settings :=
         match previous_turn_settings st with
         | None => if counts_as_user_turn seg then seg_previous_turn_settings seg else None
         | Some s => Some s
         end;
       scan_reference :=
         if is_never_set (scan_reference st)
            && (counts_as_user_turn seg || is_cleared (seg_reference_context_item seg))
         then seg_reference_context_item seg else scan_reference st;
       pending_rollback_turns := pending_rollback_turns st;
       rollout_suffix := rollout_suffix st; active_segment := active_segment st |}.

(** Updates of a segment. *)
Definition set_turn_id (seg : ActiveReplaySegment) (id : option str) : ActiveReplaySegment :=
  {| seg_turn_id := match seg_turn_id seg with None => id | Some t => Some t end;
     counts_as_user_turn := counts_as_user_turn seg;
     seg_previous_turn_settings := seg_previous_turn_settings seg;
     seg_reference_context_item := seg_reference_context_item seg;
     seg_base_replacement_history := seg_base_replacement_history seg |}.
Definition count_turn (seg : ActiveReplaySegment) (b : bool) : ActiveReplaySegment :=
  {| seg_turn_id := seg_turn_id seg; counts_as_user_turn := counts_as_user_turn seg || b;
     seg_previous_turn_settings := seg_previous_turn_settings seg;
     seg_reference_context_item := seg_reference_context_item seg;
     seg_base_replacement_history := seg_base_replacement_history seg |}.
Definition attach_context (seg : ActiveReplaySegment) (ctx : TurnContextItem) : ActiveReplaySegment :=
  let seg := set_turn_id seg (turn_id ctx) in
  if turn_ids_are_compatible (seg_turn_id seg) (turn_id ctx) then
    {| seg_turn_id := seg_turn_id seg; counts_as_user_turn := counts_as_user_turn seg;
       seg_previous_turn_settings := Some {| model := ctx_model ctx; realtime_active := ctx_realtime_active ctx |};
       seg_reference_context_item :=
         if is_never_set (seg_reference_context_item seg) then Latest ctx else seg_reference_context_item seg;
       seg_base_replacement_history := seg_base_replacement_history seg |}
  else seg.

(** One iteration of the reverse scan; [after] are the items newer than [it]. *)
Definition scan_compacted (replacement_history : option (list item)) (after : list RolloutItem) (st : Scan) : Scan :=
  let seg := default default_segment (active_segment st) in
  let adopt := match seg_base_replacement_history seg, replacement_history with
               | None, Some h => Some h
               | _, _ => None
               end in
  let seg := {| seg_turn_id := seg_turn_id seg; counts_as_user_turn := counts_as_user_turn seg;
                seg_previous_turn_settings := seg_previous_turn_settings seg;
                seg_reference_context_item :=
                  if is_never_set (seg_reference_context_item seg) then Cleared
                  else seg_reference_context_item seg;
                seg_base_replacement_history :=
                  match adopt with Some h => Some h | None => seg_base_replacement_history seg end |} in
  {| base_replacement_history := base_replacement_history st;
     previous_turn_settings := previous_turn_settings st; scan_reference := scan_reference st;
     pending_rollback_turns := pending_rollback_turns st;
     rollout_suffix := match adopt with Some _ => after | None => rollout_suffix st end;
     active_segment := Some seg |}.
Definition scan_step (it : RolloutItem) (after : list RolloutItem) (st : Scan) : Scan :=
  let seg := default default_segment (active_segment st) in
  match it with
  | Compacted _ replacement_history => scan_compacted replacement_history after st
  | REventMsg (ThreadRolledBack num_turns) =>
      {| base_replacement_history := base_replacement_history st;
         previous_turn_settings := previous_turn_settings st; scan_reference := scan_reference st;
         pending_rollback_turns := saturating_add (pending_rollback_turns st) (N.of_nat num_turns);
         rollout_suffix := rollout_suffix st; active_segment := active_segment st |}
  | REventMsg (TurnComplete id) => with_active st (Some (set_turn_id seg (Some id)))
  | REventMsg (TurnAborted id) =>
      match active_segment st, id with
      | Some seg, _ => with_active st (Some (set_turn_id seg id))
      | None, Some id => with_active st (Some (set_turn_id default_segment (Some id)))
      | None, None => st
      end
  | REventMsg UserMessage => with_active st (Some (count_turn seg true))
  | TurnContext ctx => with_active st (Some (attach_context seg ctx))
  | REventMsg (TurnStarted id) =>
      match active_segment st with
      | Some seg => if turn_ids_are_compatible (seg_turn_id seg) (Some id)
                    then finalize_active_segment (with_active st None) seg else st
      | None => st
      end
  | RResponseItem i => with_active st (Some (count_turn seg (is_user_turn_boundary i)))
  | REventMsg OtherEvent | SessionMeta _ => st
  end.
Definition scan_complete (st : Scan) : bool :=
  bool_decide (is_Some (base_replacement_history st)) && bool_decide (is_Some (previous_turn_settings st))
  && negb (is_never_set (scan_reference st)).
Fixpoint scan_loop (rev after : list RolloutItem) (st : Scan) : Scan :=
  match rev with
  | [] => st
  | it :: rev' =>
      let st := scan_step it after st in
      if scan_complete st then st else scan_loop rev' (it :: after) st
  end.
Definition initial_scan (rollout_items : list RolloutItem) : Scan :=
  {| base_replacement_history := None; previous_turn_settings := None; scan_reference := NeverSet;
     pending_rollback_turns := 0; rollout_suffix := rollout_items; active_segment := None |}.
Definition scan (rollout_items : list RolloutItem) : Scan :=
  let st := scan_loop (reverse rollout_items) [] (initial_scan rollout_items) in
  match active_segment st with
  | Some seg => finalize_active_segment (with_active st None) seg
  | None => st
  end.

(** The forward replay; the flag is whether a legacy compaction was seen. *)
Definition replay_step (policy : TruncationPolicy) (h : ContextManager (Data := Data)) (it : RolloutItem)
    : outcome Empty_set (ContextManager (Data := Data)) :=
  match it with
  | RResponseItem i => record_items h [i] policy
  | Compacted _ (Some replacement_history) => Ok (replace h replacement_history)
  | Compacted message None =>
      rebuilt ← build_compacted_history [] (collect_user_messages (items h)) message;
      Ok (replace h rebuilt)
  | REventMsg (ThreadRolledBack num_turns) => drop_last_n_user_turns from_xml from_json h num_turns
  | REventMsg _ | TurnContext _ | SessionMeta _ => Ok h
  end.
Fixpoint replay (policy : TruncationPolicy) (h : ContextManager (Data := Data)) (l : list RolloutItem)
    : outcome Empty_set (ContextManager (Data := Data)) :=
  match l with
  | [] => Ok h
  | it :: l' => h' ← replay_step policy h it; replay policy h' l'
  end.
Definition is_legacy_compaction (it : RolloutItem) : bool :=
  match it with Compacted _ None => true | _ => false end.

Record RolloutReconstruction : Type := {
  history : list item;
  rec_previous_turn_settings : option PreviousTurnSettings;
  rec_reference_context_item : option TurnContextItem }.
Definition reconstruct_history_from_rollout (policy : TruncationPolicy) (rollout_items : list RolloutItem)
    : outcome Empty_set RolloutReconstruction :=
  let st := scan rollout_items in
  let h := match base_replacement_history st with Some base => replace new base | None => new end in
  h ← replay policy h (rollout_suffix st);
  let reference := match scan_reference st with Latest ctx => Some ctx | NeverSet | Cleared => None end in
  Ok {| history := items h;
        rec_previous_turn_settings := previous_turn_settings st;
        rec_reference_context_item :=
          if existsb is_legacy_compaction (rollout_suffix st) then None else reference |}.
End rollout.

(** * The turns of a rollout *)

Section positions.
Context {Data : Type} (from_xml : str → option (str * str)) (from_json : str → option bool).
Abbreviation item := (@ResponseItem Data).
Abbreviation boundary := (is_user_turn_boundary (Data := Data) from_xml from_json).
Abbreviation real := (is_real_user_message_boundary (Data := Data) from_xml).
Abbreviation fork i := (real i || is_trigger_turn_boundary (Data := Data) from_json i).
Implicit Types (acc : list (nat * item)).

(** The items of the thread with their positions in the rollout, as the
    rollback markers leave them: a rollback by [n] keeps what comes before the
    turn that is [n]-th from the end, or before the first. *)
Definition positions_of (p : item → bool) acc : list nat := fst <$> filter (λ x, p x.2 = true) acc.
Definition turns acc : nat := length (positions_of boundary acc).
Fixpoint before_turn (m : nat) acc : list (nat * item) :=
  match acc with
  | [] => []
  | x :: acc' => if boundary x.2 then match m with 0 => [] | S m' => x :: before_turn m' acc' end
                 else x :: before_turn m acc'
  end.
Fixpoint surviving (idx : nat) (l : list (RolloutItem (Data := Data))) acc : list (nat * item) :=
  match l with
  | [] => acc
  | it :: l' =>
      surviving (S idx) l'
        match it with
        | RResponseItem i => acc ++ [(idx, i)]
        | REventMsg (ThreadRolledBack n) => before_turn (turns acc - n) acc
        | _ => acc
        end
  end.

Lemma positions_of_cons p x acc :
  positions_of p (x :: acc) = if p x.2 then x.1 :: positions_of p acc else positions_of p acc.
Proof.
  unfold positions_of. rewrite filter_cons. destruct (decide (p x.2 = true)) as [->|H]; [done|].
  by destruct (p x.2).
Qed.
Lemma positions_of_app p acc acc' : positions_of p (acc ++ acc') = positions_of p acc ++ positions_of p acc'.
Proof. unfold positions_of. by rewrite filter_app, fmap_app. Qed.
Lemma positions_of_elem p acc n : n ∈ positions_of p acc → n ∈ acc.*1.
Proof.
  unfold positions_of. intros (x & -> & [_ Hx]%list_elem_of_filter)%list_elem_of_fmap.
  apply list_elem_of_fmap. eauto.
Qed.

(** Where the cut falls: at the [m]-th turn, or nowhere. *)
Lemma before_turn_split m acc :
  match positions_of boundary acc !! m with
  | None => before_turn m acc = acc
  | Some start => ∃ i rest, acc = before_turn m acc ++ (start, i) :: rest
      ∧ positions_of boundary (before_turn m acc) = take m (positions_of boundary acc)
  end.
Proof.
  revert m. induction acc as [|[p i] acc IH]; intros m; [done|]. cbn [before_turn].
  rewrite positions_of_cons. cbn [fst snd]. destruct (boundary i) eqn:E.
  - destruct m as [|m]; simpl; [by exists i, acc|]. specialize (IH m).
    destruct (positions_of boundary acc !! m) as [start|]; [|by f_equal].
    destruct IH as (j & rest & Hacc & Hp). exists j, rest. split; [by rewrite Hacc at 1|].
    rewrite positions_of_cons. simpl. by rewrite E, Hp.
  - specialize (IH m). destruct (positions_of boundary acc !! m) as [start|]; [|by f_equal].
    destruct IH as (j & rest & Hacc & Hp). exists j, rest. split; [by rewrite Hacc at 1|].
    rewrite positions_of_cons. simpl. by rewrite E, Hp.
Qed.

Definition increasing (idx : nat) acc : Prop := StronglySorted lt acc.*1 ∧ ∀ n, n ∈ acc.*1 → n < idx.

Lemma increasing_snoc idx acc i : increasing idx acc → increasing (S idx) (acc ++ [(idx, i)]).
Proof.
  intros [Hs Hb]. split.
  - rewrite fmap_app. simpl. apply StronglySorted_app. split_and!; [|done|by repeat constructor].
    intros x y Hx ->%list_elem_of_singleton. by apply Hb.
  - intros n. rewrite fmap_app, elem_of_app. simpl. intros [Hn| ->%list_elem_of_singleton]; [|lia].
    specialize (Hb n Hn). lia.
Qed.
Lemma increasing_before idx m acc : increasing idx acc → increasing (S idx) (before_turn m acc).
Proof.
  intros [Hs Hb]. pose proof (before_turn_split m acc) as H.
  destruct (positions_of boundary acc !! m) as [start|].
  - destruct H as (i & rest & Hacc & _). rewrite Hacc, fmap_app in Hs, Hb. split.
    + by apply StronglySorted_app in Hs as (_ & ? & _).
    + intros n Hn. specialize (Hb n). rewrite elem_of_app in Hb. specialize (Hb (or_introl Hn)). lia.
  - rewrite H. split; [done|]. intros n Hn. specialize (Hb n Hn). lia.
Qed.


(** In an increasing list, the positions before the cut are those below it. *)
Lemma filter_before p acc a start i rest :
  StronglySorted lt acc.*1 → acc = a ++ (start, i) :: rest →
  filter (λ position, position < start) (positions_of p acc) = positions_of p a.
Proof.
  intros Hs ->. rewrite fmap_app in Hs. simpl in Hs. apply StronglySorted_app in Hs as (Hlt & _ & Hr).
  rewrite positions_of_app, filter_app.
  rewrite filter_true, filter_false, app_nil_r; [done|..].
  - intros n Hn%positions_of_elem. simpl in Hn. apply elem_of_cons in Hn as [->|Hn]; [lia|].
    inversion_clear Hr as [|? ? _ HF]. rewrite Forall_forall in HF. specialize (HF n Hn). lia.
  - intros n Hn%positions_of_elem. apply Hlt; set_solver.
Qed.

Lemma fork_positions_loop_eq idx l acc :
  increasing idx acc →
  fork_positions_loop from_xml from_json idx l (positions_of boundary acc, positions_of (λ i, fork i) acc)
  = positions_of (λ i, fork i) (surviving idx l acc).
Proof.
  revert idx acc. induction l as [|it l IH]; intros idx acc Hinc; [done|]. cbn [fork_positions_loop surviving].
  assert (skip : increasing (S idx) acc).
  { destruct Hinc as [Hs Hb]. split; [done|]. intros n Hn. specialize (Hb n Hn). lia. }
  destruct it as [m|i|msg r|ctx|[n|t|t| |t|]]; try (by apply IH).
  - rewrite <- IH by (by apply increasing_snoc). f_equal. rewrite !positions_of_app, !positions_of_cons. simpl.
    change (positions_of ?p []) with (@nil nat). by destruct (boundary i), (fork i); rewrite ?app_nil_r.
  - rewrite <- IH by (by apply increasing_before). f_equal. cbn [fst snd].
    pose proof (before_turn_split (turns acc - n) acc) as Hcut. unfold rollback_positions, turns in *.
    destruct (Nat.eqb_spec n 0) as [->|Hn].
    { rewrite Nat.sub_0_r in *. rewrite (lookup_ge_None_2 _ _ (le_n _)) in Hcut. by rewrite Hcut. }
    replace (match _ with Some start => Some start | None => head (positions_of boundary acc) end)
      with (positions_of boundary acc !! (length (positions_of boundary acc) - n)).
    2:{ destruct (Nat.leb_spec n (length (positions_of boundary acc))).
        - destruct (lookup_lt_is_Some_2 (positions_of boundary acc) (length (positions_of boundary acc) - n))
            as [x ->]; [lia|done].
        - replace (length (positions_of boundary acc) - n) with 0 by lia. by destruct (positions_of boundary acc). }
    destruct (positions_of boundary acc !! _) as [start|] eqn:Es.
    + destruct Hcut as (i & rest & Hacc & Hp). rewrite Hp. f_equal.
      eapply filter_before; [apply Hinc|exact Hacc].
    + by rewrite Hcut.
Qed.

(** A hook prompt is contextual, so the user messages are the user turns that
    are not contextual. *)
Lemma hook_prompt_contextual content fragments :
  parse_visible_hook_prompt_message from_xml content = Some fragments →
  is_contextual_user_message_content from_xml content = true.
Proof.
  unfold parse_visible_hook_prompt_message. destruct content as [|[t|u|t] content]; try done.
  cbn [hook_fragments is_contextual_user_message_content existsb is_contextual_user_fragment].
  destruct (parse_hook_prompt_fragment from_xml t) as [f|]; [done|].
  destruct (is_standard_contextual_user_text t); [done|]. done.
Qed.
Lemma real_boundary_eq (i : item) :
  real i = match i with
           | Message _ role content _ _ =>
               bool_decide (role = user) && negb (is_contextual_user_message_content from_xml content)
           | _ => false
           end.
Proof.
  unfold is_real_user_message_boundary, parse_turn_user_message, parse_user_message.
  destruct i as [? role content ? ?| | | | | | | | | | | | |]; try done.
  destruct (decide (role = user)) as [->|Hr]; [|by rewrite bool_decide_eq_false_2].
  rewrite bool_decide_eq_true_2 by done. simpl.
  destruct (parse_visible_hook_prompt_message from_xml content) eqn:E.
  - by rewrite (hook_prompt_contextual _ _ E).
  - by destruct (is_contextual_user_message_content from_xml content).
Qed.
Lemma real_is_boundary (i : item) : real i = true → boundary i = true.
Proof.
  rewrite real_boundary_eq. destruct i as [? role content ? ?| | | | | | | | | | | | |]; try done.
  simpl. by intros ->.
Qed.

Lemma surviving_increasing idx l acc : increasing idx acc → increasing (idx + length l) (surviving idx l acc).
Proof.
  revert idx acc. induction l as [|it l IH]; intros idx acc Hinc; simpl; [by rewrite Nat.add_0_r|].
  rewrite <- Nat.add_succ_comm.
  assert (skip : increasing (S idx) acc).
  { destruct Hinc as [Hs Hb]. split; [done|]. intros n Hn. specialize (Hb n Hn). lia. }
  apply IH. destruct it as [m|i|msg r|ctx|[n|t|t| |t|]]; try done.
  - by apply increasing_snoc.
  - by apply increasing_before.
Qed.
Lemma surviving_below p l n : n ∈ positions_of p (surviving 0 l []) → n < length l.
Proof.
  intros Hn%positions_of_elem. apply (surviving_increasing 0 l []); [|done].
  split; [constructor|]. set_solver.
Qed.

(** The fork turns of a rollout are the user messages and the triggering
    agent messages that survive its rollback markers, each marker dropping
    everything from the [n]-th turn from the end; keeping the last [n] fork
    turns never panics and cuts right before the [n]-th surviving one from the
    end, or not at all when there are not more than [n]. *)
Theorem fork_turns_spec (l : list (RolloutItem (Data := Data))) n :
  let ps := positions_of (λ i, fork i) (surviving 0 l []) in
  fork_turn_positions_in_rollout from_xml from_json l = ps
  ∧ ((length ps ≤ n ∧ 0 < n → truncate_rollout_to_last_n_fork_turns from_xml from_json l n = Ok l)
     ∧ (0 < n < length ps →
        ∃ k, ps !! (length ps - n) = Some k ∧ k < length l
          ∧ truncate_rollout_to_last_n_fork_turns from_xml from_json l n = Ok (drop k l)))
  ∧ truncate_rollout_to_last_n_fork_turns from_xml from_json l 0 = Ok [].
Proof.
  intros ps.
  assert (E : fork_turn_positions_in_rollout from_xml from_json l = ps).
  { apply (fork_positions_loop_eq 0 l []). split; [constructor|]. set_solver. }
  split; [done|]. split; [|done]. unfold truncate_rollout_to_last_n_fork_turns. rewrite E. split.
  - intros [Hle Hn]. rewrite (proj2 (Nat.eqb_neq n 0)) by lia. by rewrite (proj2 (Nat.leb_le _ _)).
  - intros [Hn Hlt]. cmp_lia.
    destruct (lookup_lt_is_Some_2 ps (length ps - n)) as [k Hk]; [lia|]. exists k. rewrite Hk.
    assert (Hkl : k < length l) by (eapply surviving_below, list_elem_of_lookup_2, Hk).
    split_and!; [done..|]. by cmp_lia.
Qed.

(** Every turn is started by the user: no agent instructs this thread. *)
Definition user_driven (l : list (RolloutItem (Data := Data))) : Prop :=
  ∀ i, RResponseItem i ∈ l → boundary i = real i.

Lemma before_turn_sub m acc x : x ∈ before_turn m acc → x ∈ acc.
Proof.
  revert m. induction acc as [|y acc IH]; intros m; simpl; [done|].
  destruct (boundary y.2); [destruct m; [set_solver|]|]; rewrite elem_of_cons; intros [->|Hx];
    [set_solver|apply IH in Hx; set_solver|set_solver|apply IH in Hx; set_solver].
Qed.
Lemma positions_of_agree acc :
  (∀ x, x ∈ acc → boundary x.2 = real x.2) → positions_of boundary acc = positions_of real acc.
Proof.
  induction acc as [|x acc IH]; intros H; [done|]. rewrite !positions_of_cons, (H x), IH; set_solver.
Qed.
Lemma user_positions_loop_eq idx l acc :
  user_driven l → (∀ x, x ∈ acc → boundary x.2 = real x.2) →
  user_positions_loop from_xml idx l (positions_of real acc) = positions_of real (surviving idx l acc).
Proof.
  revert idx acc. induction l as [|it l IH]; intros idx acc Hl Hacc; [done|].
  cbn [user_positions_loop surviving].
  assert (Hl' : user_driven l) by (intros i Hi; apply Hl; set_solver).
  destruct it as [m|i|msg r|ctx|[n|t|t| |t|]]; try (by apply IH).
  - rewrite <- IH; [|done|].
    + f_equal. rewrite positions_of_app, positions_of_cons. change (positions_of real []) with (@nil nat).
      cbn [fst snd]. destruct i; try (rewrite real_boundary_eq; by rewrite app_nil_r).
      destruct (real _); by rewrite ?app_nil_r.
    + intros x [Hx| ->%list_elem_of_singleton]%elem_of_app; [by apply Hacc|]. apply Hl. set_solver.
  - rewrite <- IH; [|done|intros x Hx%before_turn_sub; by apply Hacc]. f_equal.
    rewrite <- (positions_of_agree (before_turn _ _)) by (intros x Hx%before_turn_sub; by apply Hacc).
    rewrite <- (positions_of_agree acc) by done. unfold turns.
    pose proof (before_turn_split (length (positions_of boundary acc) - n) acc) as Hcut.
    destruct (positions_of boundary acc !! _) as [start|] eqn:E.
    + by destruct Hcut as (i & rest & _ & ->).
    + rewrite Hcut. apply lookup_ge_None_1 in E. by rewrite take_ge.
Qed.

(** When every turn of a rollout is started by the user, the user
    message positions are those of the user messages that survive the rollback
    markers, and cutting before the [n]-th one never panics: it keeps what
    comes before it, or everything when there are not more than [n]. *)
Theorem user_positions_spec (l : list (RolloutItem (Data := Data))) n :
  user_driven l → (N.of_nat n < USIZE_MAX)%N →
  let ps := positions_of real (surviving 0 l []) in
  user_message_positions_in_rollout from_xml l = ps
  ∧ truncate_rollout_before_nth_user_message_from_start from_xml l (N.of_nat n)
    = Ok (match ps !! n with Some k => take k l | None => l end).
Proof.
  intros Hl Hn ps.
  assert (E : user_message_positions_in_rollout from_xml l = ps).
  { apply (user_positions_loop_eq 0 l []); [done|set_solver]. }
  split; [done|]. unfold truncate_rollout_before_nth_user_message_from_start, len. rewrite E.
  cmp_lia. rewrite Nat2N.id.
  destruct (ps !! n) as [k|] eqn:Ek.
  - pose proof (lookup_lt_Some _ _ _ Ek). cmp_lia.
    assert (k < length l) by (eapply surviving_below, list_elem_of_lookup_2, Ek).
    by cmp_lia.
  - apply lookup_ge_None_1 in Ek. by cmp_lia.
Qed.
End positions.

(** * Reconstructing a history *)

Section reconstruction.
Context {Data : Type} (from_xml : str → option (str * str)) (from_json : str → option bool).
Abbreviation item := (@ResponseItem Data).
Abbreviation ritem := (RolloutItem (Data := Data)).
Abbreviation replay := (replay from_xml from_json).
Abbreviation scan_step := (scan_step from_xml from_json).
Abbreviation scan_loop := (scan_loop from_xml from_json).
Implicit Types (h g : ContextManager (Data := Data)) (l : list ritem).

Lemma select_messages_total remaining messages : ∃ sel, select_messages remaining messages = Ok sel.
Proof.
  revert remaining. induction messages as [|m messages IH]; intros remaining; cbn [select_messages]; [eauto|].
  destruct (remaining =? 0)%N; [eauto|]. destruct (approx_token_count m <=? remaining)%N.
  - destruct (IH (remaining - approx_token_count m)%N) as [sel ->]. cbn. eauto.
  - destruct (truncate_text_total m (Tokens remaining)) as [t ->]. cbn. eauto.
Qed.
Lemma build_compacted_history_total (initial : list item) messages summary :
  ∃ built, build_compacted_history initial messages summary = Ok built.
Proof.
  unfold build_compacted_history, build_compacted_history_with_limit. destruct (0 <? _)%N; [|cbn; eauto].
  destruct (select_messages_total COMPACT_USER_MESSAGE_MAX_TOKENS (reverse messages)) as [l ->]. cbn. eauto.
Qed.

(** The replay never fails, and what it gives depends on the items only. *)
Lemma replay_step_items policy h h' it :
  items h = items h' →
  ∃ g g', replay_step from_xml from_json policy h it = Ok g
    ∧ replay_step from_xml from_json policy h' it = Ok g' ∧ items g = items g'.
Proof.
  intros E. destruct it as [m|i|msg [r|]|ctx|[n|t|t| |t|]]; cbn [replay_step]; try (by eauto 6).
  - unfold record_items. rewrite <- E. destruct (record_loop_spec (items h) policy [i]) as (k & -> & _).
    eexists _, _. split_and!; reflexivity.
  - rewrite <- E.
    destruct (build_compacted_history_total [] (collect_user_messages from_xml (items h)) msg)
      as [l ->]. eexists _, _. split_and!; reflexivity.
  - destruct (drop_last_n_user_turns_eq from_xml from_json h n) as (g & k & Hg & _).
    destruct (drop_last_n_baseline from_xml from_json h h' n g E Hg) as (g' & Hg' & E').
    exists g, g'. split_and!; done.
Qed.
Lemma replay_items policy h h' l :
  items h = items h' →
  ∃ g g', replay policy h l = Ok g ∧ replay policy h' l = Ok g' ∧ items g = items g'.
Proof.
  revert h h'. induction l as [|it l IH]; intros h h' E; cbn [Rollout.replay]; [by eauto 6|].
  destruct (replay_step_items policy h h' it E) as (g & g' & -> & -> & E'). run_bind. by apply IH.
Qed.
Lemma replay_app policy h l k : replay policy h (l ++ k) = (g ← replay policy h l; replay policy g k).
Proof.
  revert h. induction l as [|it l IH]; intros h; [done|]. cbn [app Rollout.replay].
  destruct (replay_step _ _ _ _ _); done || apply IH.
Qed.
(** After a checkpoint, what came before no longer matters. *)
Lemma replay_checkpoint policy h h' l m r k :
  ∃ g g', replay policy h (l ++ Compacted m (Some r) :: k) = Ok g
    ∧ replay policy (replace h' r) k = Ok g' ∧ items g = items g'.
Proof.
  rewrite replay_app. destruct (replay_items policy h h l eq_refl) as (g & _ & -> & _).
  cbn [mbind outcome_bind Rollout.replay replay_step]. by apply replay_items.
Qed.

Definition checkpoint (it : ritem) : option (list item) :=
  match it with Compacted _ (Some r) => Some r | _ => None end.
Definition newest_checkpoint l : option (list item) := last (omap checkpoint l).
Definition is_rollback (it : ritem) : bool :=
  match it with REventMsg (ThreadRolledBack _) => true | _ => false end.

Lemma newest_cons it l :
  newest_checkpoint (it :: l) = match newest_checkpoint l with Some r => Some r | None => checkpoint it end.
Proof.
  unfold newest_checkpoint. cbn [omap list_omap]. destruct (checkpoint it) as [r|]; [|by destruct (last _)].
  change (list_omap ritem (list item) checkpoint l) with (omap checkpoint l).
  apply last_cons.
Qed.
Lemma newest_app_checkpoint l m r k : newest_checkpoint (l ++ Compacted m (Some r) :: k) = newest_checkpoint (Compacted m (Some r) :: k).
Proof.
  induction l as [|it l IH]; [done|]. cbn [app]. rewrite newest_cons, IH, newest_cons.
  by destruct (newest_checkpoint k).
Qed.
Lemma newest_split l r :
  newest_checkpoint l = Some r → ∃ a m b, l = a ++ Compacted m (Some r) :: b ∧ newest_checkpoint b = None.
Proof.
  induction l as [|it l IH]; [done|]. rewrite newest_cons.
  destruct (newest_checkpoint l) as [r'|] eqn:E.
  - intros [= ->]. destruct (IH eq_refl) as (a & m & b & -> & Hb). by exists (it :: a), m, b.
  - intros H. destruct it as [|?|m [?|]|?|?]; try done. injection H as ->. by exists [], m, l.
Qed.

(** The base the scan has found, in the segment it is in or before it. *)
Definition found (st : Scan (Data := Data)) : option (list item) :=
  match base_replacement_history st with
  | Some b => Some b
  | None => active_segment st ≫= seg_base_replacement_history
  end.
(** The invariant of the scan: [after] are the items scanned so far. *)
Record scan_inv (full after : list ritem) (st : Scan (Data := Data)) : Prop := {
  inv_pending : pending_rollback_turns st = 0%N ∨ newest_checkpoint after = None;
  inv_found : found st = newest_checkpoint after;
  inv_suffix : match newest_checkpoint after with
               | None => rollout_suffix st = full
               | Some _ => ∃ a m r, after = a ++ Compacted m (Some r) :: rollout_suffix st
               end }.

Lemma finalize_inv full after st seg :
  active_segment st = Some seg → scan_inv full after st →
  scan_inv full after (finalize_active_segment (with_active st None) seg)
  ∧ base_replacement_history (finalize_active_segment (with_active st None) seg) = newest_checkpoint after.
Proof.
  intros Hseg [Hp Hf Hs]. unfold found in Hf. rewrite Hseg in Hf. unfold finalize_active_segment.
  cbn [pending_rollback_turns with_active base_replacement_history].
  destruct (N.ltb_spec 0 (pending_rollback_turns st)) as [Hgt|Hle].
  - destruct Hp as [Hp|Hp]; [lia|]. rewrite Hp in *.
    assert (Hb : base_replacement_history st = None) by (by destruct (base_replacement_history st)).
    split; [|done]. split; [by right|..]; unfold found; simpl; by rewrite ?Hb, ?Hp.
  - assert (Hb : match base_replacement_history st with None => seg_base_replacement_history seg | Some x => Some x end
                 = newest_checkpoint after) by (by destruct (base_replacement_history st)).
    split; [|exact Hb]. split; [left; simpl; lia|unfold found; simpl|exact Hs].
    by destruct (base_replacement_history st); [|destruct (seg_base_replacement_history seg)].
Qed.

(** The two situations in which no checkpoint is dropped. *)
Definition harmless (st : Scan (Data := Data)) (rev after : list ritem) : Prop :=
  (pending_rollback_turns st = 0%N ∧ ∀ it, it ∈ rev → is_rollback it = false)
  ∨ (newest_checkpoint after = None ∧ ∀ it, it ∈ rev → checkpoint it = None).

(** A step that keeps the base of the active segment keeps the invariant. *)
Lemma with_active_inv full after st seg :
  scan_inv full after st → seg_base_replacement_history seg = active_segment st ≫= seg_base_replacement_history →
  scan_inv full after (with_active st (Some seg)).
Proof.
  intros [Hp Hf Hs] E. split; [exact Hp| |exact Hs]. rewrite <- Hf. unfold found. simpl. by rewrite E.
Qed.
Lemma scan_inv_skip full after st it :
  checkpoint it = None → scan_inv full after st → scan_inv full (it :: after) st.
Proof.
  intros Hc [Hp Hf Hs]. assert (E : newest_checkpoint (it :: after) = newest_checkpoint after).
  { rewrite newest_cons, Hc. by destruct (newest_checkpoint after). }
  split; rewrite E; [done..|]. destruct (newest_checkpoint after); [|done].
  destruct Hs as (a & m & r & ->). by exists (it :: a), m, r.
Qed.
Lemma compacted_inv full after st m r rev :
  harmless st (Compacted m r :: rev) after → scan_inv full after st →
  scan_inv full (Compacted m r :: after) (scan_compacted r after st).
Proof.
  intros Hh [Hp Hf Hs]. destruct r as [r|].
  - assert (Hp0 : pending_rollback_turns st = 0%N).
    { destruct Hh as [[? _]|[_ Hh]]; [done|]. specialize (Hh (Compacted m (Some r)) ltac:(set_solver)). done. }
    assert (E : newest_checkpoint (Compacted m (Some r) :: after)
                = Some (default r (newest_checkpoint after))) by (rewrite newest_cons; by destruct (newest_checkpoint after)).
    unfold found in Hf. unfold scan_compacted.
    split; rewrite ?E; [by left|unfold found; simpl|simpl].
    + destruct (base_replacement_history st); [by rewrite <- Hf|].
      destruct (active_segment st) as [seg|]; simpl in *; [|by rewrite <- Hf].
      destruct (seg_base_replacement_history seg); by rewrite <- Hf.
    + destruct (seg_base_replacement_history (default default_segment (active_segment st))) as [b|] eqn:Eb.
      * assert (is_Some (newest_checkpoint after)) as [c Hc].
        { rewrite <- Hf. destruct (base_replacement_history st); [done|].
          destruct (active_segment st); [|done]. simpl in *. by rewrite Eb. }
        rewrite Hc in Hs. destruct Hs as (a & m' & r' & ->). by exists (Compacted m (Some r) :: a), m', r'.
      * by exists [], m, r.
  - apply scan_inv_skip; [done|]. unfold scan_compacted. unfold found in Hf. split; [exact Hp| |].
    + rewrite <- Hf. unfold found. simpl. destruct (base_replacement_history st); [done|].
      destruct (active_segment st) as [seg|]; [|done]. simpl. by destruct (seg_base_replacement_history seg).
    + simpl. by destruct (seg_base_replacement_history _).
Qed.

Lemma attach_context_base seg (ctx : TurnContextItem (Data := Data)) :
  seg_base_replacement_history (attach_context seg ctx) = seg_base_replacement_history seg.
Proof. unfold attach_context. by destruct (turn_ids_are_compatible _ _). Qed.
Lemma default_base (st : Scan (Data := Data)) :
  seg_base_replacement_history (default default_segment (active_segment st))
  = active_segment st ≫= seg_base_replacement_history.
Proof. by destruct (active_segment st). Qed.

Lemma scan_step_inv full after st it rev :
  harmless st (it :: rev) after → scan_inv full after st → scan_inv full (it :: after) (scan_step it after st).
Proof.
  intros Hh Hi. destruct it as [m|i|m r|ctx|[n|t|t| |t|]]; cbn [Rollout.scan_step];
    try (apply scan_inv_skip; [done|]).
  - done.
  - apply with_active_inv; [done|apply default_base].
  - by eapply compacted_inv.
  - apply with_active_inv; [done|]. rewrite attach_context_base. apply default_base.
  - destruct Hi as [Hp Hf Hs]. split; [|exact Hf|exact Hs]. right.
    destruct Hh as [[_ Hh]|[? _]]; [|done]. specialize (Hh (REventMsg (ThreadRolledBack n)) ltac:(set_solver)). done.
  - apply with_active_inv; [done|apply default_base].
  - destruct (active_segment st) as [seg|] eqn:Es; [|destruct t; [|done]];
      (apply with_active_inv; [done|by rewrite Es]).
  - apply with_active_inv; [done|apply default_base].
  - destruct (active_segment st) as [seg|] eqn:Es; [|done].
    destruct (turn_ids_are_compatible _ _); [|done]. by apply finalize_inv.
  - done.
Qed.
Lemma scan_step_harmless after st it rev :
  harmless st (it :: rev) after → harmless (scan_step it after st) rev (it :: after).
Proof.
  intros [[Hp Hr]|[Hn Hr]]; [left|right]; (split; [|intros x Hx; apply Hr; set_solver]).
  - specialize (Hr it ltac:(set_solver)).
    destruct it as [m|i|m [r|]|ctx|[n|t|t| |t|]]; try done; cbn [Rollout.scan_step].
    + by destruct (active_segment st), t.
    + destruct (active_segment st) as [seg|]; [|done]. destruct (turn_ids_are_compatible _ _); [|done].
      unfold finalize_active_segment. simpl. by rewrite Hp.
  - rewrite newest_cons, Hn. apply Hr. set_solver.
Qed.

Lemma scan_loop_inv full rev after st :
  harmless st rev after → scan_inv full after st →
  ∃ pre after', reverse rev ++ after = pre ++ after' ∧ scan_inv full after' (scan_loop rev after st)
    ∧ (pre = [] ∨ is_Some (base_replacement_history (scan_loop rev after st))).
Proof.
  revert after st. induction rev as [|it rev IH]; intros after st Hh Hi; cbn [Rollout.scan_loop].
  { exists [], after. split_and!; [done..|by left]. }
  pose proof (scan_step_inv full after st it rev Hh Hi) as Hi'.
  pose proof (scan_step_harmless after st it rev Hh) as Hh'.
  rewrite reverse_cons, <- app_assoc. simpl. destruct (scan_complete _) eqn:Ec.
  - exists (reverse rev), (it :: after). split_and!; [done..|right].
    unfold scan_complete in Ec. apply andb_true_iff in Ec as [[Ec _]%andb_true_iff _].
    by apply bool_decide_eq_true in Ec.
  - by apply IH.
Qed.

(** Where the scan ends: the base is the newest checkpoint, and the suffix
    starts after it or after an older one. *)
Lemma rollout_scan_spec l :
  (∀ it, it ∈ l → is_rollback it = false) ∨ (∀ it, it ∈ l → checkpoint it = None) →
  base_replacement_history (scan from_xml from_json l) = newest_checkpoint l
  ∧ match newest_checkpoint l with
    | None => rollout_suffix (scan from_xml from_json l) = l
    | Some _ => ∃ a m r, l = a ++ Compacted m (Some r) :: rollout_suffix (scan from_xml from_json l)
    end.
Proof.
  intros Hl. destruct (scan_loop_inv l (reverse l) [] (initial_scan l)) as (pre & after & El & Hi & Hpre).
  - destruct Hl as [Hl|Hl]; [left|right]; (split; [done|]; intros it Hit; apply Hl; revert Hit; rewrite elem_of_reverse; auto).
  - split; [by left|done..].
  - rewrite reverse_involutive, app_nil_r in El. unfold scan.
    set (st := scan_loop (reverse l) [] (initial_scan l)) in *.
    set (st' := match active_segment st with Some seg => finalize_active_segment (with_active st None) seg | None => st end).
    assert (F : scan_inv l after st' ∧ base_replacement_history st' = newest_checkpoint after).
    { unfold st'. destruct (active_segment st) as [seg|] eqn:Es; [by apply finalize_inv|]. split; [done|].
      rewrite <- (inv_found _ _ _ Hi). unfold found. rewrite Es. by destruct (base_replacement_history st). }
    destruct F as [[_ _ Hs] Hb].
    assert (N : newest_checkpoint l = newest_checkpoint after).
    { rewrite El. destruct (newest_checkpoint after) as [c|] eqn:Ec.
      - destruct (newest_split _ _ Ec) as (a & m & b & -> & Hn). rewrite app_assoc, newest_app_checkpoint, newest_cons.
        by rewrite Hn.
      - destruct Hpre as [->|[b Hb']]; [done|].
        assert (Hf := inv_found _ _ _ Hi). unfold found in Hf. rewrite Hb' in Hf. congruence. }
    rewrite N, Hb. split; [done|]. destruct (newest_checkpoint after); [|done].
    destruct Hs as (a & m & r & E). exists (pre ++ a), m, r. rewrite El at 1. rewrite E at 1.
    by rewrite <- app_assoc.
Qed.

Lemma reconstruct_total policy l : ∃ r, reconstruct_history_from_rollout from_xml from_json policy l = Ok r.
Proof.
  unfold reconstruct_history_from_rollout.
  set (h := match base_replacement_history _ with Some base => replace new base | None => new end).
  destruct (replay_items policy h h (rollout_suffix (scan from_xml from_json l)) eq_refl) as (g & _ & -> & _).
  run_bind. eauto.
Qed.
Lemma reconstruct_forward policy l :
  (∀ it, it ∈ l → is_rollback it = false) ∨ (∀ it, it ∈ l → checkpoint it = None) →
  ∃ r h, reconstruct_history_from_rollout from_xml from_json policy l = Ok r
    ∧ replay policy new l = Ok h ∧ history r = items h.
Proof.
  intros Hl. destruct (rollout_scan_spec l Hl) as [Hb Hs]. unfold reconstruct_history_from_rollout. rewrite Hb.
  destruct (newest_checkpoint l) as [c|] eqn:Ec.
  - destruct Hs as (a & m & r & El). set (suffix := rollout_suffix (scan from_xml from_json l)) in *.
    destruct (replay_checkpoint policy new new a m r suffix) as (h & h' & E1 & E2 & E3).
    rewrite <- El in E1. rewrite El, newest_app_checkpoint, newest_cons in Ec.
    assert (∃ g, replay policy (replace new c) suffix = Ok g ∧ items g = items h') as (g & -> & Eg).
    { destruct (newest_checkpoint suffix) as [c'|] eqn:Es; injection Ec as <-; [|by eauto].
      destruct (newest_split _ _ Es) as (x & m' & y & E & _). rewrite E in E2 |- *.
      destruct (replay_checkpoint policy (replace new c') new x m' c' y) as (g & g' & Eg & Eg' & Egg).
      destruct (replay_checkpoint policy (replace new r) new x m' c' y) as (k & k' & Ek & Ek' & Ekk).
      exists g. split; [done|]. rewrite Ek in E2. injection E2 as <-. congruence. }
    run_bind. eexists _, h. split_and!; [reflexivity|done|]. simpl. congruence.
  - rewrite Hs. destruct (replay_items policy new new l eq_refl) as (h & _ & -> & _).
    run_bind. eexists _, h. split_and!; reflexivity.
Qed.

(** C17. Reconstructing a history never panics, and when the rollout holds no
    rollback marker, or no checkpoint with a replacement history, the reverse
    scan that looks for the newest checkpoint gives the same items as
    replaying the whole rollout forward from an empty history. *)
Theorem reconstruct_history_spec policy l :
  ∃ r h, reconstruct_history_from_rollout from_xml from_json policy l = Ok r
    ∧ replay policy new l = Ok h
    ∧ ((∀ it, it ∈ l → is_rollback it = false) ∨ (∀ it, it ∈ l → checkpoint it = None) → history r = items h).
Proof.
  destruct (reconstruct_total policy l) as [r Er].
  destruct (replay_items policy new new l eq_refl) as (h & _ & Eh & _).
  exists r, h. split_and!; [done..|]. intros (r' & h' & Er' & Eh' & E)%(reconstruct_forward policy). congruence.
Qed.
End reconstruction.

(** * Examples *)

Definition no_xml (s : str) : option (str * str) := None.
Definition agent_json (s : str) : option bool := if decide (s = lit "agent") then Some false else None.
Definition agent_text (text : str) : ResponseItem (Data := unit) :=
  Message None assistant [ContentOutputText text] None None.
Definition user_item (text : string) : RolloutItem (Data := unit) := RResponseItem (user_text_message (lit text)).

(** A turn, and a second one in which the history is compacted, rolled back. *)
Definition rolled_back_compaction : list (RolloutItem (Data := unit)) :=
  [REventMsg (TurnStarted (lit "t1")); REventMsg UserMessage; user_item "first";
   REventMsg (TurnComplete (lit "t1"));
   REventMsg (TurnStarted (lit "t2")); REventMsg UserMessage; user_item "second";
   Compacted [] (Some [user_text_message (lit "first"); user_text_message (lit "second");
                       user_text_message (lit "summary")]);
   RResponseItem (agent_text (lit "done"));
   REventMsg (TurnComplete (lit "t2"));
   REventMsg (ThreadRolledBack 1)].

(** When the turn in which the history was compacted is rolled back, the
    suffix to replay still starts after its checkpoint although the checkpoint
    is not used as the base: the reconstructed history has lost the turn that
    survives, and keeps an item of the turn that was rolled back. *)
Theorem rolled_back_checkpoint_loses_history :
  ∃ r, reconstruct_history_from_rollout no_xml agent_json (Bytes 1000) rolled_back_compaction = Ok r
    ∧ history r = [agent_text (lit "done")]
    ∧ surviving no_xml agent_json 0 rolled_back_compaction [] = [(2, user_text_message (lit "first"))].
Proof. eexists. split_and!; vm_compute; reflexivity. Qed.

(** A rollback counts the turns an agent started, the user positions do not:
    the user message survives the rollback, yet is not in the positions. *)
Example user_positions_miss_agent_turns :
  let l := [user_item "first"; RResponseItem (agent_text (lit "agent")); REventMsg (ThreadRolledBack 1)] in
  user_message_positions_in_rollout no_xml l = []
  ∧ surviving no_xml agent_json 0 l [] = [(0, user_text_message (lit "first"))].
Proof. split; vm_compute; reflexivity. Qed.

Lemma user_positions_spec_witness :
  let l := [user_item "first"; user_item "second"; REventMsg (ThreadRolledBack 1); user_item "third"] in
  user_message_positions_in_rollout no_xml l = [0; 3]
  ∧ truncate_rollout_before_nth_user_message_from_start no_xml l 1 = Ok (take 3 l).
Proof.
  intros l. apply (user_positions_spec no_xml agent_json l 1).
  - intros i Hi. unfold l in Hi. repeat (apply elem_of_cons in Hi as [Hi|Hi]; [try discriminate Hi; injection Hi as ->; vm_compute; reflexivity|]).
    by apply elem_of_nil in Hi.
  - vm_compute. reflexivity.
Defined.
