(* ===== verification/Substring.v ===== *)
(** Occurrences of a needle in a growing text: where [find] answers and what
    more text can change. Shared by the incremental parsers. *)
From S2P Require Import Prelude RustStr.

(** [needle] is, or may with more text become, a match at position [i]. *)
Definition compatible (needle s : str) (i : nat) : Prop :=
  needle `prefix_of` drop i s ∨ drop i s `prefix_of` needle.

Lemma starts_with_prefix n s : starts_with n s = true ↔ n `prefix_of` s.
Proof. apply starts_with_spec. Qed.
Lemma ends_with_suffix n s : ends_with n s = true ↔ n `suffix_of` s.
Proof. apply ends_with_spec. Qed.

Lemma find_Some n s i :
  find n s = Some i ↔ i ≤ length s ∧ n `prefix_of` drop i s ∧ ∀ j, j < i → ¬ n `prefix_of` drop j s.
Proof.
  revert i. induction s as [|x s IH]; intros i; cbn [find].
  - destruct (starts_with n []) eqn:E.
    + apply starts_with_prefix in E. split; [intros [= <-]; split_and!; [done|done|lia]|].
      intros (Hi & _). simpl in Hi. f_equal. lia.
    + split; [done|]. intros (Hi & Hp & _). rewrite drop_nil in Hp. apply starts_with_prefix in Hp. congruence.
  - destruct (starts_with n (x :: s)) eqn:E.
    + apply starts_with_prefix in E. split; [intros [= <-]; split_and!; [lia|done|lia]|].
      intros (_ & _ & Hm). destruct i as [|i]; [done|]. by destruct (Hm 0 ltac:(lia)).
    + assert (E' : ¬ n `prefix_of` x :: s) by (rewrite <-starts_with_prefix; congruence).
      destruct i as [|i]; [split; [by destruct (find n s)|by intros (_ & ? & _)]|].
      rewrite (fmap_Some S (find n s)). split.
      * intros (j & (Hj & Hp & Hm)%IH & [= ->]). split_and!; [simpl; lia|done|].
        intros [|k] Hk; [done|]. apply Hm. lia.
      * intros (Hi & Hp & Hm). exists i. split; [|done]. apply IH. split_and!; [simpl in Hi; lia|done|].
        intros j Hj. apply (Hm (S j)). lia.
Qed.
Lemma find_None n s : find n s = None ↔ ∀ j, j ≤ length s → ¬ n `prefix_of` drop j s.
Proof.
  induction s as [|x s IH]; cbn [find].
  - destruct (starts_with n []) eqn:E.
    + apply starts_with_prefix in E. split; [done|]. intros Hn. by destruct (Hn 0 ltac:(lia)).
    + split; [|done]. intros _ j _ Hp. rewrite drop_nil in Hp. apply starts_with_prefix in Hp. congruence.
  - destruct (starts_with n (x :: s)) eqn:E.
    + apply starts_with_prefix in E. split; [done|]. intros Hn. by destruct (Hn 0 ltac:(lia)).
    + assert (E' : ¬ n `prefix_of` x :: s) by (rewrite <-starts_with_prefix; congruence).
      rewrite (fmap_None S (find n s)), IH. split.
      * intros Hn [|j] Hj; [done|]. apply Hn. simpl in Hj. lia.
      * intros Hn j Hj. apply (Hn (S j)). simpl. lia.
Qed.

(** A match stays when text is added. *)
Lemma prefix_drop_app (n a b : str) i : i ≤ length a → n `prefix_of` drop i a → n `prefix_of` drop i (a ++ b).
Proof. intros Hi Hp. rewrite drop_app_le by lia. by apply prefix_app_r. Qed.
Lemma prefix_drop_fits (n a b : str) i :
  i + length n ≤ length a → n `prefix_of` drop i (a ++ b) → n `prefix_of` drop i a.
Proof.
  intros Hi [k Hk]. rewrite drop_app_le in Hk by lia.
  apply app_eq_inv in Hk as [(k' & Hd & _)|(k' & Hd & _)]; [by exists k'|].
  apply (f_equal length) in Hd as Hl. rewrite length_app, length_drop in Hl.
  assert (k' = []) as -> by (destruct k'; [done|simpl in Hl; lia]). exists []. by rewrite Hd, !app_nil_r.
Qed.
Lemma find_app_Some n a b i : n ≠ [] → find n a = Some i → find n (a ++ b) = Some i ∧ i + length n ≤ length a.
Proof.
  intros Hne (Hi & Hp & Hm)%find_Some.
  assert (Hl : i + length n ≤ length a).
  { destruct Hp as [k Hk]. apply (f_equal length) in Hk. rewrite length_drop, length_app in Hk.
    destruct n; [done|]. simpl in *. lia. }
  split; [|done]. apply find_Some. split_and!.
  - rewrite length_app. lia.
  - by apply prefix_drop_app.
  - intros j Hj Hp'. apply (Hm j Hj). apply (prefix_drop_fits n a b j); [lia|done].
Qed.

(** More text does not make a position compatible. *)
Lemma compatible_app n a b i : i ≤ length a → compatible n (a ++ b) i → compatible n a i.
Proof.
  intros Hi. unfold compatible. rewrite drop_app_le by lia. intros [Hp|Hp].
  - destruct (prefix_weak_total n (drop i a) (drop i a ++ b) Hp ltac:(by apply prefix_app_r)); auto.
  - right. etrans; [|exact Hp]. by apply prefix_app_r.
Qed.
Lemma find_skip n s m :
  m ≤ length s → (∀ i, i < m → ¬ compatible n s i) → find n s = (λ i, m + i) <$> find n (drop m s).
Proof.
  intros Hm Hn. destruct (find n (drop m s)) as [i|] eqn:E; cbn.
  - apply find_Some in E as (Hi & Hp & Hmin). rewrite length_drop in Hi. rewrite drop_drop in Hp.
    apply find_Some. split_and!; [lia|done|]. intros j Hj Hpj.
    destruct (decide (j < m)) as [Hjm|Hjm]; [apply (Hn j Hjm); by left|].
    apply (Hmin (j - m)); [lia|]. rewrite drop_drop. by replace (m + (j - m)) with j by lia.
  - apply find_None. rewrite find_None in E. intros j Hj Hpj.
    destruct (decide (j < m)) as [Hjm|Hjm]; [apply (Hn j Hjm); by left|].
    apply (E (j - m)); [rewrite length_drop; lia|]. rewrite drop_drop. by replace (m + (j - m)) with j by lia.
Qed.
