(* ===== verification/StreamText.v ===== *)
(** The interface of incremental text parsers, [StreamTextParser] of
    [codex-rs/utils/stream-parser/src/stream_text.rs], with the law that makes
    the result of a stream independent of how it is cut into chunks. *)
From S2P Require Import Prelude RustStr.

Record StreamTextChunk (X : Type) : Type := { visible_text : str; extracted : list X }.
Arguments visible_text {X} _.
Arguments extracted {X} _.
Arguments Build_StreamTextChunk {X} _ _.
Definition default_chunk {X} : StreamTextChunk X := {| visible_text := []; extracted := [] |}.
Definition is_empty {X} (c : StreamTextChunk X) : bool :=
  bool_decide (visible_text c = []) && match extracted c with [] => true | _ => false end.
(** What a consumer does with the next chunk. *)
Definition chunk_app {X} (c d : StreamTextChunk X) : StreamTextChunk X :=
  {| visible_text := visible_text c ++ visible_text d; extracted := extracted c ++ extracted d |}.

(** The loops of a parser take fuel, so both operations return an outcome. *)
Class StreamTextParser (P X : Type) : Type := {
  push_str : P → str → outcome Empty_set (P * StreamTextChunk X);
  finish : P → outcome Empty_set (P * StreamTextChunk X) }.

(** [norm] is the canonical form of the payloads: parsers that may cut one
    payload in two are compared up to it. Well-formed parsers never fail. *)
Class StreamParserLaws (P X : Type) `{StreamTextParser P X} : Type := {
  parser_wf : P → Prop;
  norm : list X → list X;
  norm_app l k : norm (norm l ++ norm k) = norm (l ++ k);
  push_total p s : parser_wf p → ∃ p' c, push_str p s = Ok (p', c) ∧ parser_wf p';
  finish_total p : parser_wf p → ∃ p' c, finish p = Ok (p', c);
  push_app p a b p1 c1 p2 c2 :
    parser_wf p → push_str p a = Ok (p1, c1) → push_str p1 b = Ok (p2, c2) →
    ∃ c, push_str p (a ++ b) = Ok (p2, c)
      ∧ visible_text c = visible_text c1 ++ visible_text c2
      ∧ norm (extracted c) = norm (extracted c1 ++ extracted c2);
  (** A pushed chunk leaves nothing that an empty one would release. *)
  push_nil p s p1 c1 : parser_wf p → push_str p s = Ok (p1, c1) → push_str p1 [] = Ok (p1, default_chunk) }.

Section collect.
Context {P X : Type} `{StreamParserLaws P X}.

(** A stream: every chunk pushed, then the end. *)
Fixpoint push_all (p : P) (chunks : list str) : outcome Empty_set (P * StreamTextChunk X) :=
  match chunks with
  | [] => Ok (p, default_chunk)
  | chunk :: chunks' =>
      '(p1, c) ← push_str p chunk;
      '(p2, rest) ← push_all p1 chunks';
      Ok (p2, chunk_app c rest)
  end.
Definition collect (p : P) (chunks : list str) : outcome Empty_set (StreamTextChunk X) :=
  '(p1, c) ← push_all p chunks;
  '(_, tail) ← finish p1;
  Ok (chunk_app c tail).

Definition chunk_equiv (c d : StreamTextChunk X) : Prop :=
  visible_text c = visible_text d ∧ norm (extracted c) = norm (extracted d).

Lemma norm_app_l l l' k : norm l = norm l' → norm (l ++ k) = norm (l' ++ k).
Proof. intros E. by rewrite <-(norm_app l k), <-(norm_app l' k), E. Qed.
Lemma norm_app_r l k k' : norm k = norm k' → norm (l ++ k) = norm (l ++ k').
Proof. intros E. by rewrite <-(norm_app l k), <-(norm_app l k'), E. Qed.
Lemma chunk_equiv_app c c' d d' : chunk_equiv c c' → chunk_equiv d d' → chunk_equiv (chunk_app c d) (chunk_app c' d').
Proof.
  intros [Hv He] [Hv' He']. split; cbn; [by rewrite Hv, Hv'|].
  by rewrite (norm_app_l _ _ _ He), (norm_app_r _ _ _ He').
Qed.
Lemma push_all_cons p s chunks :
  push_all p (s :: chunks) = '(p1, c) ← push_str p s; '(p2, rest) ← push_all p1 chunks; Ok (p2, chunk_app c rest).
Proof. reflexivity. Qed.
Lemma push_all_total p chunks : parser_wf p → ∃ p' c, push_all p chunks = Ok (p', c) ∧ parser_wf p'.
Proof.
  revert p. induction chunks as [|s chunks IH]; intros p Hp; cbn [push_all]; [by exists p, default_chunk|].
  destruct (push_total p s Hp) as (p1 & c & -> & Hp1). run_bind.
  destruct (IH p1 Hp1) as (p2 & c2 & -> & Hp2). run_bind. eauto.
Qed.
(** Pushing chunks one by one is pushing their concatenation. *)
Lemma push_all_concat p s chunks p1 c1 p2 c2 :
  parser_wf p → push_all p (s :: chunks) = Ok (p1, c1) → push_str p (concat (s :: chunks)) = Ok (p2, c2) →
  p1 = p2 ∧ chunk_equiv c1 c2.
Proof.
  revert p s p1 c1 p2 c2. induction chunks as [|s' chunks IH]; intros p s p1 c1 p2 c2 Hp Hall Hone.
  - cbn [push_all concat] in *. rewrite app_nil_r in Hone. rewrite Hone in Hall. revert Hall. run_bind.
    intros [= -> <-]. split; [done|]. split; cbn; by rewrite app_nil_r.
  - rewrite push_all_cons in Hall. destruct (push_total p s Hp) as (q & d & Eq & Hq). rewrite Eq in Hall. revert Hall. run_bind.
    destruct (push_all_total q (s' :: chunks) Hq) as (q' & d' & Eq' & _).
    rewrite Eq'. run_bind. intros [= <- <-].
    destruct (push_total q (concat (s' :: chunks)) Hq) as (q2 & d2 & Eq2 & _).
    destruct (IH q s' q' d' q2 d2 Hq Eq' Eq2) as [-> Hd].
    destruct (push_app p s (concat (s' :: chunks)) q d q2 d2 Hp Eq Eq2) as (c & Ec & Hv & He).
    change (concat (s :: s' :: chunks)) with (s ++ concat (s' :: chunks)) in Hone. rewrite Ec in Hone.
    injection Hone as <- <-. split; [done|].
    destruct Hd as [Hdv Hde]. split; cbn; [by rewrite Hv, Hdv|]. rewrite He. by apply norm_app_r.
Qed.
Lemma chunk_app_nil_r' (a : StreamTextChunk X) : chunk_app a default_chunk = a.
Proof. destruct a. unfold chunk_app. cbn. by rewrite !app_nil_r. Qed.
Lemma collect_concat p s chunks :
  parser_wf p → ∃ c c', collect p (s :: chunks) = Ok c ∧ collect p [concat (s :: chunks)] = Ok c' ∧ chunk_equiv c c'.
Proof.
  intros Hp. destruct (push_all_total p (s :: chunks) Hp) as (p1 & c1 & E1 & Hp1).
  destruct (push_total p (concat (s :: chunks)) Hp) as (p2 & c2 & E2 & _).
  destruct (push_all_concat p s chunks p1 c1 p2 c2 Hp E1 E2) as [<- He].
  destruct (finish_total p1 Hp1) as (p3 & f & E3). exists (chunk_app c1 f), (chunk_app c2 f). unfold collect.
  rewrite E1. run_bind. rewrite E3, push_all_cons, E2. run_bind. cbn [push_all]. run_bind. rewrite chunk_app_nil_r', E3.
  run_bind. split_and!; [done|done|]. by apply chunk_equiv_app.
Qed.
End collect.
