(* ===== verification/InlineTag.v ===== *)
(** Hidden inline tags in a stream of text:
    [codex-rs/utils/stream-parser/src/inline_hidden_tag.rs] and the citations
    of [citation.rs] built on it. Positions inside the buffered text are
    counted in characters; the byte offsets of the code fall on the same
    boundaries. *)
From S2P Require Import Prelude RustStr Substring StreamText.

Record InlineTagSpec (T : Type) : Type := { spec_tag : T; open : str; close : str }.
Arguments spec_tag {T} _.
Arguments open {T} _.
Arguments close {T} _.
Record ExtractedInlineTag (T : Type) : Type := { tag : T; tag_content : str }.
Arguments tag {T} _.
Arguments tag_content {T} _.
Arguments Build_ExtractedInlineTag {T} _ _.
Record ActiveTag (T : Type) : Type := { active_tag : T; active_close : str; content : str }.
Arguments active_tag {T} _.
Arguments active_close {T} _.
Arguments content {T} _.
Arguments Build_ActiveTag {T} _ _ _.
Record InlineHiddenTagParser (T : Type) : Type := {
  specs : list (InlineTagSpec T); pending : str; active : option (ActiveTag T) }.
Arguments specs {T} _.
Arguments pending {T} _.
Arguments active {T} _.
Arguments Build_InlineHiddenTagParser {T} _ _ _.

(** The longest suffix of [s] that is a proper prefix of [needle]. *)
Fixpoint longest_from (k : nat) (s needle : str) : nat :=
  match k with
  | O => 0
  | S k' => if ends_with (take k needle) s then k else longest_from k' s needle
  end.
Definition longest_suffix_prefix_len (s needle : str) : nat :=
  longest_from (min (length s) (length needle - 1)) s needle.

Section inline.
Context {T : Type}.

(** [InlineHiddenTagParser::new], which asserts that delimiters are not empty. *)
Definition new (specs : list (InlineTagSpec T)) : outcome Empty_set (InlineHiddenTagParser T) :=
  if bool_decide (length specs = 0)
     || existsb (λ s, bool_decide (open s = []) || bool_decide (close s = [])) specs then Panic
  else Ok {| specs := specs; pending := []; active := None |}.

(** The order of the candidates: the first position, then the longest opener,
    then the first specification. *)
Definition opener_le (a b : nat * nat * nat) : bool :=
  let '(pos_a, len_a, idx_a) := a in
  let '(pos_b, len_b, idx_b) := b in
  (pos_a <? pos_b)
  || ((pos_a =? pos_b) && ((len_b <? len_a) || ((len_a =? len_b) && (idx_a <=? idx_b)))).
Fixpoint openers (pending : str) (idx : nat) (specs : list (InlineTagSpec T)) : list (nat * nat * nat) :=
  match specs with
  | [] => []
  | spec :: specs' =>
      match find (open spec) pending with
      | Some pos => [(pos, length (open spec), idx)]
      | None => []
      end ++ openers pending (S idx) specs'
  end.
Definition min_opener (l : list (nat * nat * nat)) : option (nat * nat * nat) :=
  match l with
  | [] => None
  | x :: l' => Some (foldl (λ best y, if opener_le best y then best else y) x l')
  end.
Definition find_next_open (specs : list (InlineTagSpec T)) (pending : str) : option (nat * nat) :=
  (λ '(pos, _, idx), (pos, idx)) <$> min_opener (openers pending 0 specs).
Definition max_open_prefix_suffix_len (specs : list (InlineTagSpec T)) (pending : str) : nat :=
  max_list (longest_suffix_prefix_len pending ∘ open <$> specs).

Definition push_visible (out : StreamTextChunk (ExtractedInlineTag T)) (text : str) :=
  {| visible_text := visible_text out ++ text; extracted := extracted out |}.
Definition push_extracted (out : StreamTextChunk (ExtractedInlineTag T)) (x : ExtractedInlineTag T) :=
  {| visible_text := visible_text out; extracted := extracted out ++ [x] |}.
Definition extend_content (a : ActiveTag T) (text : str) : ActiveTag T :=
  {| active_tag := active_tag a; active_close := active_close a; content := content a ++ text |}.

(** The loop of [push_str]; every round removes a delimiter. *)
Fixpoint push_loop (fuel : nat) (specs : list (InlineTagSpec T)) (pending : str) (active : option (ActiveTag T))
    (out : StreamTextChunk (ExtractedInlineTag T))
    : outcome Empty_set (str * option (ActiveTag T) * StreamTextChunk (ExtractedInlineTag T)) :=
  match fuel with
  | O => OutOfFuel
  | S fuel' =>
      match active with
      | Some a =>
          match find (active_close a) pending with
          | Some close_idx =>
              push_loop fuel' specs (drop (close_idx + length (active_close a)) pending) None
                (push_extracted out
                   {| tag := active_tag a; tag_content := content a ++ take close_idx pending |})
          | None =>
              let keep := longest_suffix_prefix_len pending (active_close a) in
              let n := length pending - keep in
              Ok (drop n pending, Some (extend_content a (take n pending)), out)
          end
      | None =>
          match find_next_open specs pending with
          | Some (open_idx, spec_idx) =>
              match specs !! spec_idx with
              | Some spec =>
                  push_loop fuel' specs (drop (open_idx + length (open spec)) pending)
                    (Some {| active_tag := spec_tag spec; active_close := close spec; content := [] |})
                    (push_visible out (take open_idx pending))
              | None => Panic
              end
          | None =>
              let keep := max_open_prefix_suffix_len specs pending in
              let n := length pending - keep in
              Ok (drop n pending, None, push_visible out (take n pending))
          end
      end
  end.
Definition inline_push_str (p : InlineHiddenTagParser T) (chunk : str)
    : outcome Empty_set (InlineHiddenTagParser T * StreamTextChunk (ExtractedInlineTag T)) :=
  let buffer := pending p ++ chunk in
  '(rest, a, out) ← push_loop (S (length buffer)) (specs p) buffer (active p) default_chunk;
  Ok ({| specs := specs p; pending := rest; active := a |}, out).
Definition inline_finish (p : InlineHiddenTagParser T)
    : outcome Empty_set (InlineHiddenTagParser T * StreamTextChunk (ExtractedInlineTag T)) :=
  Ok ({| specs := specs p; pending := []; active := None |},
      match active p with
      | Some a => {| visible_text := [];
                     extracted := [{| tag := active_tag a; tag_content := content a ++ pending p |}] |}
      | None => {| visible_text := pending p; extracted := [] |}
      end).
#[export] Instance inline_parser : StreamTextParser (InlineHiddenTagParser T) (ExtractedInlineTag T) :=
  {| push_str := inline_push_str; finish := inline_finish |}.
End inline.

(** * Citations *)

Definition CITATION_OPEN : str := lit "<oai-mem-citation>".
Definition CITATION_CLOSE : str := lit "</oai-mem-citation>".
Definition citation_spec : InlineTagSpec unit := {| spec_tag := tt; open := CITATION_OPEN; close := CITATION_CLOSE |}.
Record CitationStreamParser : Type := { inner : InlineHiddenTagParser unit }.
Definition citation_new : outcome Empty_set CitationStreamParser :=
  inner ← new [citation_spec]; Ok {| inner := inner |}.
Definition citation_chunk (c : StreamTextChunk (ExtractedInlineTag unit)) : StreamTextChunk str :=
  {| visible_text := visible_text c; extracted := tag_content <$> extracted c |}.
#[export] Instance citation_parser : StreamTextParser CitationStreamParser str :=
  {| push_str p chunk := '(q, c) ← push_str (inner p) chunk; Ok ({| inner := q |}, citation_chunk c);
     finish p := '(q, c) ← finish (inner p); Ok ({| inner := q |}, citation_chunk c) |}.
Definition strip_citations (text : str) : outcome Empty_set (str * list str) :=
  parser ← citation_new;
  '(parser, out) ← push_str parser text;
  '(_, tail) ← finish parser;
  Ok (visible_text out ++ visible_text tail, extracted out ++ extracted tail).

Example citations_ex :
  strip_citations (lit "a<oai-mem-citation>x<oai-mem-citation>y</oai-mem-citation>z</oai-mem-citation>b<oai-mem-")
  = Ok (lit "az</oai-mem-citation>b<oai-mem-", [lit "x<oai-mem-citation>y"]).
Proof. vm_compute. reflexivity. Qed.

(** * Lemmas *)

Lemma longest_from_spec k s n :
  longest_from k s n ≤ k ∧ take (longest_from k s n) n `suffix_of` s
  ∧ ∀ j, longest_from k s n < j → j ≤ k → ¬ take j n `suffix_of` s.
Proof.
  induction k as [|k (Hle & Hs & Hm)]; cbn [longest_from].
  { split_and!; [done|apply suffix_nil|lia]. }
  destruct (ends_with (take (S k) n) s) eqn:E.
  - apply ends_with_suffix in E. split_and!; [done|done|lia].
  - split_and!; [lia|done|]. intros j Hj Hjk. destruct (decide (j = S k)) as [->|]; [|apply Hm; lia].
    rewrite <-ends_with_suffix. congruence.
Qed.
Lemma suffix_drop (k s : str) i : k `suffix_of` s → i + length k ≤ length s → k `suffix_of` drop i s.
Proof.
  intros [x ->] Hi. rewrite length_app in Hi. exists (drop i x). by rewrite drop_app_le by lia.
Qed.
Lemma suffix_of_drop (k s : str) i : k `suffix_of` drop i s → k `suffix_of` s.
Proof. intros [x E]. exists (take i s ++ x). rewrite <-app_assoc, <-E. by rewrite take_drop. Qed.
Lemma suffix_take_drop (k s : str) : k `suffix_of` s → k = drop (length s - length k) s.
Proof. intros [x ->]. rewrite length_app. rewrite drop_app_ge by lia. by replace (_ - _) with 0 by lia. Qed.

Lemma lsp_bound s n : longest_suffix_prefix_len s n ≤ length s.
Proof. unfold longest_suffix_prefix_len. destruct (longest_from_spec (min (length s) (length n - 1)) s n). lia. Qed.
(** What is not kept cannot become a match. *)
Lemma not_kept_quiet s n i :
  find n s = None → i < length s - longest_suffix_prefix_len s n → ¬ compatible n s i.
Proof.
  intros Hf Hi. rewrite find_None in Hf.
  destruct (longest_from_spec (min (length s) (length n - 1)) s n) as (Hle & _ & Hm).
  fold (longest_suffix_prefix_len s n) in Hle, Hm. intros [Hp|Hp]; [apply (Hf i); [lia|done]|].
  assert (Hlen : length (drop i s) = length s - i) by apply length_drop.
  destruct (decide (length s - i < length n)) as [Hlt|Hge].
  - apply (Hm (length s - i)); [lia|lia|]. destruct Hp as [k ->]. rewrite take_app_length' by lia.
    exists (take i s). by rewrite take_drop.
  - apply (Hf i); [lia|]. destruct Hp as [k ->]. rewrite length_app in Hge.
    assert (k = []) as -> by (destruct k; [done|simpl in Hge; lia]). by rewrite app_nil_r.
Qed.
Lemma lsp_skip s n m :
  m ≤ length s → (∀ i, i < m → ¬ compatible n s i) →
  longest_suffix_prefix_len s n = longest_suffix_prefix_len (drop m s) n.
Proof.
  intros Hm Hq. unfold longest_suffix_prefix_len. rewrite length_drop.
  destruct (longest_from_spec (min (length s) (length n - 1)) s n) as (H1 & H2 & H3).
  destruct (longest_from_spec (min (length s - m) (length n - 1)) (drop m s) n) as (H4 & H5 & H6).
  set (a := longest_from _ s n) in *. set (b := longest_from _ (drop m s) n) in *.
  assert (Ha : a ≤ length s - m).
  { destruct (decide (a ≤ length s - m)) as [|Hn]; [done|]. exfalso. apply (Hq (length s - a)); [lia|]. right.
    assert (La : length (take a n) = a) by (rewrite length_take; lia).
    pose proof (suffix_take_drop _ _ H2) as E. rewrite La in E. rewrite <-E. apply prefix_take. }
  destruct (lt_eq_lt_dec a b) as [[Hlt|E]|Hgt]; [|done|].
  - exfalso. apply (H3 b); [done|lia|]. by apply suffix_of_drop in H5.
  - exfalso. apply (H6 a); [done|lia|]. apply suffix_drop; [done|]. rewrite length_take. lia.
Qed.

(** The first opener. *)
Lemma opener_le_spec p l i p' l' i' :
  opener_le (p, l, i) (p', l', i') = true ↔ p < p' ∨ (p = p' ∧ (l' < l ∨ (l = l' ∧ i ≤ i'))).
Proof.
  cbn [opener_le]. rewrite !orb_true_iff, !andb_true_iff, !orb_true_iff, !andb_true_iff, !Nat.ltb_lt, !Nat.eqb_eq, Nat.leb_le. done.
Qed.
Lemma fold_min_spec l : ∀ x, let m := foldl (λ best y, if opener_le best y then best else y) x l in
  (m = x ∨ m ∈ l) ∧ opener_le m x = true ∧ ∀ y, y ∈ l → opener_le m y = true.
Proof.
  induction l as [|y l IH]; intros x; cbn.
  { split_and!; [by left| |by intros y ?%elem_of_nil]. destruct x as [[p n] i]. apply opener_le_spec. lia. }
  destruct (IH (if opener_le x y then x else y)) as (Hin & Hle & Hall). set (m := foldl _ _ l) in *.
  assert (Htrans : ∀ a b c, opener_le a b = true → opener_le b c = true → opener_le a c = true).
  { intros [[??]?] [[??]?] [[??]?]. rewrite !opener_le_spec. lia. }
  destruct (opener_le x y) eqn:E.
  - split_and!; [destruct Hin; [by left|by right; right]|done|].
    intros z [->|Hz]%elem_of_cons; [by eapply Htrans|by apply Hall].
  - assert (Hyx : opener_le y x = true).
    { destruct x as [[??]?], y as [[??]?]. apply not_true_iff_false in E. rewrite opener_le_spec in E. apply opener_le_spec. lia. }
    split_and!; [right; destruct Hin as [->|]; [by left|by right]|by eapply Htrans|].
    intros z [->|Hz]%elem_of_cons; [done|by apply Hall].
Qed.
Lemma min_opener_spec l x : min_opener l = Some x ↔ x ∈ l ∧ ∀ y, y ∈ l → opener_le x y = true.
Proof.
  destruct l as [|z l]; cbn [min_opener]; [split; [done|by intros [?%elem_of_nil _]]|].
  destruct (fold_min_spec l z) as (Hin & Hle & Hall). set (m := foldl _ z l) in *. split.
  - intros [= <-]. split; [destruct Hin as [->|]; [by left|by right]|].
    intros y [->|Hy]%elem_of_cons; [done|by apply Hall].
  - intros [Hx Hm]. f_equal.
    assert (Hxm : opener_le x m = true) by (apply Hm; destruct Hin as [->|]; [by left|by right]).
    assert (Hmx : opener_le m x = true) by (apply elem_of_cons in Hx as [->|Hx]; [done|by apply Hall]).
    destruct x as [[p n] i], m as [[p' n'] i']. rewrite opener_le_spec in Hxm, Hmx. repeat f_equal; lia.
Qed.

Section first.
Context {T : Type} (specs : list (InlineTagSpec T)).
Lemma openers_elem s pos n idx :
  (pos, n, idx) ∈ openers s 0 specs ↔
  ∃ spec : InlineTagSpec T, specs !! idx = Some spec ∧ find (open spec) s = Some pos ∧ n = length (open spec).
Proof.
  assert (Hgen : ∀ l k, (pos, n, idx) ∈ openers s k l ↔
    ∃ (spec : InlineTagSpec T) j, idx = k + j ∧ l !! j = Some spec ∧ find (open spec) s = Some pos ∧ n = length (open spec)).
  { induction l as [|spec l IH]; intros k; cbn [openers].
    { split; [by intros ?%elem_of_nil|by intros (? & ? & _ & ? & _)]. }
    rewrite elem_of_app, IH. split.
    - intros [Hin|(sp & j & -> & ? & ? & ?)]; [|exists sp, (S j); by split_and!; try lia].
      destruct (find (open spec) s) as [p|] eqn:E; [|by apply elem_of_nil in Hin].
      apply list_elem_of_singleton in Hin as [= -> -> ->]. exists spec, 0. split_and!; try done; lia.
    - intros (sp & [|j] & -> & Hl & Hf & ->).
      + left. injection Hl as ->. rewrite Hf. replace (k + 0) with k by lia. by left.
      + right. exists sp, j. split_and!; try done; lia. }
  rewrite Hgen. split; [intros (spec & j & -> & ?); by exists spec|intros (spec & ?); by exists spec, idx].
Qed.
Lemma find_next_open_Some s pos idx :
  find_next_open specs s = Some (pos, idx) ↔
  ∃ spec : InlineTagSpec T, specs !! idx = Some spec ∧ find (open spec) s = Some pos
    ∧ ∀ idx' (spec' : InlineTagSpec T) pos', specs !! idx' = Some spec' → find (open spec') s = Some pos' →
        opener_le (pos, length (open spec), idx) (pos', length (open spec'), idx') = true.
Proof.
  unfold find_next_open. rewrite fmap_Some. split.
  - intros ([[p n] i] & [Hin Hm]%min_opener_spec & [= -> ->]). apply openers_elem in Hin as (spec & ? & ? & ->).
    exists spec. split_and!; [done..|]. intros idx' spec' pos' ? ?. apply Hm, openers_elem. eauto.
  - intros (spec & ? & ? & Hm). exists (pos, length (open spec), idx). split; [|done].
    apply min_opener_spec. split; [apply openers_elem; eauto|].
    intros [[p n] i] (spec' & ? & ? & ->)%openers_elem. by apply Hm.
Qed.
Lemma find_next_open_None s :
  find_next_open specs s = None ↔ ∀ idx (spec : InlineTagSpec T), specs !! idx = Some spec → find (open spec) s = None.
Proof.
  unfold find_next_open. rewrite fmap_None. split.
  - intros Hn idx spec Hl. destruct (find (open spec) s) as [pos|] eqn:E; [|done].
    assert (Hin : (pos, length (open spec), idx) ∈ openers s 0 specs) by (apply openers_elem; eauto).
    destruct (openers s 0 specs); [by apply elem_of_nil in Hin|done].
  - intros Hall. destruct (openers s 0 specs) as [|[[p n] i] l] eqn:E; [done|].
    assert (Hin : (p, n, i) ∈ openers s 0 specs) by (rewrite E; by left).
    apply openers_elem in Hin as (spec & Hl & Hf & _). rewrite (Hall i spec Hl) in Hf. done.
Qed.

(** No opener occurs inside a different one. *)
Definition openers_apart : Prop :=
  ∀ i j (spec spec' : InlineTagSpec T) a b, specs !! i = Some spec → specs !! j = Some spec' →
    open spec' = a ++ open spec ++ b → open spec' = open spec.
Definition specs_wf : Prop := Forall (λ s, open s ≠ [] ∧ close s ≠ []) specs.

Lemma find_next_open_app s c pos idx :
  specs_wf → openers_apart → find_next_open specs s = Some (pos, idx) → find_next_open specs (s ++ c) = Some (pos, idx).
Proof.
  intros Hwf Hap (spec & Hl & Hf & Hm)%find_next_open_Some.
  assert (Hne : ∀ i sp, specs !! i = Some sp → open sp ≠ []).
  { intros i sp Hi. unfold specs_wf in Hwf. rewrite Forall_lookup in Hwf. by apply (Hwf i sp). }
  destruct (find_app_Some (open spec) s c pos (Hne _ _ Hl) Hf) as [Hf' Hfit].
  apply find_next_open_Some. exists spec. split_and!; [done..|].
  intros idx' spec' pos' Hl' Hfc. destruct (decide (pos' + length (open spec') ≤ length s)) as [Hin|Hout].
  - apply (Hm idx' spec' pos' Hl'). apply find_Some in Hfc as (_ & Hp & Hmin). apply find_Some.
    split_and!; [lia|by eapply prefix_drop_fits|]. intros j Hj Hpj. apply (Hmin j Hj).
    apply prefix_drop_app; [lia|done].
  - apply opener_le_spec. destruct (decide (pos < pos')) as [|Hge]; [by left|exfalso].
    apply find_Some in Hfc as (_ & [x Hx] & _). apply find_Some in Hf' as (Hb & [y Hy] & _).
    assert (Ein : ∃ a b, open spec' = a ++ open spec ++ b).
    { assert (E2 : open spec ++ y = drop (pos - pos') (open spec') ++ x).
      { rewrite <-Hy. rewrite <-(drop_app_le (open spec') x) by lia. rewrite <-Hx, drop_drop.
        by replace (pos' + (pos - pos')) with pos by lia. }
      symmetry in E2. apply app_eq_inv in E2 as [(k & Ek & _)|(k & Ek & _)].
      - exists (take (pos - pos') (open spec')), k. rewrite <-Ek. by rewrite take_drop.
      - exists (take (pos - pos') (open spec')), [].
        assert (k = []) as ->.
        { apply (f_equal length) in Ek. rewrite length_app, length_drop in Ek. destruct k; [done|]. simpl in Ek. lia. }
        rewrite app_nil_r in Ek |- *. rewrite Ek. by rewrite take_drop. }
    destruct Ein as (a & b & Ein). pose proof (Hap idx idx' spec spec' a b Hl Hl' Ein) as Eq.
    rewrite Eq in Hout. lia.
Qed.
Lemma find_next_open_skip s m :
  m ≤ length s → (∀ j (spec : InlineTagSpec T), specs !! j = Some spec → ∀ i, i < m → ¬ compatible (open spec) s i) →
  find_next_open specs s = (λ '(pos, idx), (m + pos, idx)) <$> find_next_open specs (drop m s).
Proof.
  intros Hm Hq.
  assert (Hshift : ∀ j (spec : InlineTagSpec T), specs !! j = Some spec →
    find (open spec) s = (λ i, m + i) <$> find (open spec) (drop m s)).
  { intros j spec Hl. apply find_skip; [done|]. by apply (Hq j). }
  destruct (find_next_open specs (drop m s)) as [[pos idx]|] eqn:E; cbn.
  - apply find_next_open_Some in E as (spec & Hl & Hf & Hmin). apply find_next_open_Some.
    exists spec. rewrite (Hshift _ _ Hl), Hf. split_and!; [done..|].
    intros idx' spec' pos' Hl' Hf'. rewrite (Hshift _ _ Hl') in Hf'.
    destruct (find (open spec') (drop m s)) as [q|] eqn:Eq; [|done]. injection Hf' as <-.
    specialize (Hmin idx' spec' q Hl' Eq). rewrite opener_le_spec in *. lia.
  - rewrite find_next_open_None in E. apply find_next_open_None. intros idx spec Hl.
    by rewrite (Hshift _ _ Hl), (E _ _ Hl).
Qed.
End first.

(** * The loop *)

Section loop.
Context {T : Type} (specs : list (InlineTagSpec T)).
Abbreviation out_chunk := (StreamTextChunk (ExtractedInlineTag T)).
Definition active_wf (a : option (ActiveTag T)) : Prop := ∀ t, a = Some t → active_close t ≠ [].

Lemma specs_wf_lookup i spec : specs_wf specs → specs !! i = Some spec → open spec ≠ [] ∧ close spec ≠ [].
Proof. intros Hwf Hi. unfold specs_wf in Hwf. rewrite Forall_lookup in Hwf. by apply (Hwf i spec). Qed.
Lemma chunk_app_assoc {X} (a b c : StreamTextChunk X) : chunk_app a (chunk_app b c) = chunk_app (chunk_app a b) c.
Proof. unfold chunk_app. cbn. by rewrite !app_assoc. Qed.
Lemma chunk_app_nil_l {X} (a : StreamTextChunk X) : chunk_app default_chunk a = a.
Proof. by destruct a. Qed.
Lemma chunk_app_nil_r {X} (a : StreamTextChunk X) : chunk_app a default_chunk = a.
Proof. destruct a. unfold chunk_app. cbn. by rewrite !app_nil_r. Qed.

(** The output only grows. *)
Lemma push_loop_out fuel s a out :
  push_loop fuel specs s a out
  = '(rest, a', o) ← push_loop fuel specs s a default_chunk; Ok (rest, a', chunk_app out o).
Proof.
  revert s a out. induction fuel as [|fuel IH]; intros s a out; [done|]. cbn [push_loop]. destruct a as [a|].
  - destruct (find (active_close a) s) as [i|].
    + rewrite IH. rewrite (IH _ _ (push_extracted default_chunk _)).
      destruct (push_loop fuel specs _ _ default_chunk) as [[[r a'] o]| | |]; try done. run_bind.
      unfold chunk_app, push_extracted. cbn. by rewrite <-app_assoc.
    + run_bind. by rewrite chunk_app_nil_r.
  - destruct (find_next_open specs s) as [[i idx]|].
    + destruct (specs !! idx); [|done]. rewrite IH. rewrite (IH _ _ (push_visible default_chunk _)).
      destruct (push_loop fuel specs _ _ default_chunk) as [[[r a'] o]| | |]; try done. run_bind.
      unfold chunk_app, push_visible. cbn. by rewrite <-app_assoc.
    + run_bind. unfold chunk_app, push_visible. cbn. by rewrite app_nil_r.
Qed.
Lemma push_loop_total fuel s a out :
  specs_wf specs → active_wf a → length s < fuel →
  ∃ rest a' o, push_loop fuel specs s a out = Ok (rest, a', o) ∧ active_wf a'.
Proof.
  intros Hwf. revert s a out. induction fuel as [|fuel IH]; intros s a out Ha Hf; [lia|]. cbn [push_loop].
  destruct a as [a|].
  - specialize (Ha a eq_refl). destruct (find (active_close a) s) as [i|] eqn:E.
    + destruct (find_app_Some _ s [] i Ha E) as [_ Hi]. apply IH; [by intros t|].
      rewrite length_drop. destruct (active_close a); [done|simpl in *; lia].
    + eexists _, _, _. split; [done|]. intros t [= <-]. exact Ha.
  - destruct (find_next_open specs s) as [[i idx]|] eqn:E; [|by eexists _, _, _].
    apply find_next_open_Some in E as (spec & Hl & Hfd & _). rewrite Hl.
    destruct (specs_wf_lookup _ _ Hwf Hl) as [Ho Hc]. destruct (find_app_Some _ s [] i Ho Hfd) as [_ Hi].
    apply IH; [by intros t [= <-]|]. rewrite length_drop. destruct (open spec); [done|simpl in *; lia].
Qed.
Lemma push_loop_fuel fuel fuel' s a out r :
  push_loop fuel specs s a out = Ok r → fuel ≤ fuel' → push_loop fuel' specs s a out = Ok r.
Proof.
  revert fuel' s a out. induction fuel as [|fuel IH]; intros fuel' s a out; [done|].
  destruct fuel' as [|fuel']; [intros _ Hf; lia|]. intros Hr Hf. cbn [push_loop] in *.
  destruct a as [a|]; [destruct (find _ s); [apply IH; [exact Hr|lia]|done]|].
  destruct (find_next_open specs s) as [[i idx]|]; [|done]. destruct (specs !! idx); [apply IH; [exact Hr|lia]|done].
Qed.

(** A quiet beginning can be taken off the buffer before or after more text
    arrives. *)
Lemma max_open_le s i spec : specs !! i = Some spec → longest_suffix_prefix_len s (open spec) ≤ max_open_prefix_suffix_len specs s.
Proof.
  intros Hl. apply max_list_elem_of_le. apply list_elem_of_fmap. exists spec. split; [done|]. by apply list_elem_of_lookup_2 in Hl.
Qed.
Lemma max_open_bound s : max_open_prefix_suffix_len specs s ≤ length s.
Proof.
  unfold max_open_prefix_suffix_len. induction specs as [|sp l IH]; cbn; [lia|]. pose proof (lsp_bound s (open sp)). lia.
Qed.
Lemma max_open_skip s m :
  m ≤ length s → (∀ j spec, specs !! j = Some spec → ∀ i, i < m → ¬ compatible (open spec) s i) →
  max_open_prefix_suffix_len specs s = max_open_prefix_suffix_len specs (drop m s).
Proof.
  intros Hm Hq. unfold max_open_prefix_suffix_len. f_equal. apply list_fmap_ext. intros j spec Hl. cbn.
  apply lsp_skip; [done|]. by apply (Hq j).
Qed.
Lemma take_in_two (s : str) m n : m ≤ length s → m ≤ n → take m s ++ take (n - m) (drop m s) = take n s.
Proof.
  intros Hm Hn. rewrite <-(take_drop m s) at 3. rewrite take_app_ge by (rewrite length_take; lia).
  by rewrite length_take, Nat.min_l by lia.
Qed.
Lemma active_skip fuel s m a out :
  m ≤ length s → (∀ i, i < m → ¬ compatible (active_close a) s i) →
  push_loop (S fuel) specs (drop m s) (Some (extend_content a (take m s))) out
  = push_loop (S fuel) specs s (Some a) out.
Proof.
  intros Hm Hq. cbn [push_loop extend_content active_close content active_tag].
  rewrite (find_skip _ s m Hm Hq). destruct (find (active_close a) (drop m s)) as [i|] eqn:E; cbn [fmap option_fmap option_map].
  - rewrite drop_drop, Nat.add_assoc. rewrite <-app_assoc.
    rewrite <-(take_in_two s m (m + i)) by lia. by replace (m + i - m) with i by lia.
  - rewrite <-(lsp_skip s _ m Hm Hq), length_drop, drop_drop.
    pose proof (lsp_bound (drop m s) (active_close a)) as Hb. rewrite <-(lsp_skip s _ m Hm Hq), length_drop in Hb.
    set (k := longest_suffix_prefix_len _ _) in *. unfold extend_content; cbn. rewrite <-app_assoc.
    replace (length s - m - k) with (length s - k - m) by lia. rewrite take_in_two by lia.
    by replace (m + (length s - k - m)) with (length s - k) by lia.
Qed.
Lemma idle_skip fuel s m out :
  m ≤ length s → (∀ j spec, specs !! j = Some spec → ∀ i, i < m → ¬ compatible (open spec) s i) →
  push_loop (S fuel) specs (drop m s) None (push_visible out (take m s)) = push_loop (S fuel) specs s None out.
Proof.
  intros Hm Hq. cbn [push_loop]. rewrite (find_next_open_skip specs s m Hm Hq).
  assert (Ev : ∀ n, m ≤ n → push_visible (push_visible out (take m s)) (take (n - m) (drop m s)) = push_visible out (take n s)).
  { intros n Hn. unfold push_visible. cbn. by rewrite <-app_assoc, take_in_two. }
  destruct (find_next_open specs (drop m s)) as [[i idx]|] eqn:E; cbn [fmap option_fmap option_map].
  - destruct (specs !! idx); [|done]. rewrite drop_drop, Nat.add_assoc, <-(Ev (m + i)) by lia.
    by replace (m + i - m) with i by lia.
  - rewrite <-(max_open_skip s m Hm Hq), length_drop, drop_drop.
    pose proof (max_open_bound (drop m s)) as Hb. rewrite <-(max_open_skip s m Hm Hq), length_drop in Hb.
    set (k := max_open_prefix_suffix_len _ _) in *. rewrite <-(Ev (length s - k)) by lia.
    replace (length s - m - k) with (length s - k - m) by lia. by replace (m + (length s - k - m)) with (length s - k) by lia.
Qed.

Lemma active_wf_None : active_wf None.
Proof. by intros t. Qed.
Lemma active_wf_Some a : active_close a ≠ [] → active_wf (Some a).
Proof. by intros Ha t [= <-]. Qed.
(** More text after a stopped loop continues it. *)
Lemma push_loop_app fuel s a out s1 a1 out1 c fuel2 n r :
  fuel2 = S n → specs_wf specs → openers_apart specs → active_wf a →
  push_loop fuel specs s a out = Ok (s1, a1, out1) → push_loop fuel2 specs (s1 ++ c) a1 out1 = Ok r →
  ∃ fuel3, push_loop fuel3 specs (s ++ c) a out = Ok r.
Proof.
  intros Hfuel2 Hwf Hap. revert s a out. induction fuel as [|fuel IH]; intros s a out Ha; [done|]. cbn [push_loop].
  destruct a as [a|].
  - pose proof (Ha a eq_refl) as Hne. destruct (find (active_close a) s) as [i|] eqn:E.
    + intros H1 H2. destruct (find_app_Some _ s c i Hne E) as [Ec Hi].
      destruct (IH _ None _ active_wf_None H1 H2) as [f3 Hf3]. exists (S f3). cbn [push_loop]. rewrite Ec.
      rewrite drop_app_le, take_app_le by lia. exact Hf3.
    + intros [= <- <- <-] H2. exists fuel2. rewrite <-H2. symmetry. rewrite Hfuel2.
      pose proof (lsp_bound s (active_close a)) as Hb. set (m := length s - _) in *.
      rewrite <-drop_app_le by lia. rewrite <-(take_app_le s c m) by lia. apply active_skip.
      * rewrite length_app. lia.
      * intros i Hi Hc. apply (not_kept_quiet s (active_close a) i E); [exact Hi|]. apply (compatible_app _ s c); [lia|done].
  - destruct (find_next_open specs s) as [[i idx]|] eqn:E.
    + destruct (specs !! idx) as [spec|] eqn:El; [|done]. intros H1 H2.
      pose proof (find_next_open_app specs s c i idx Hwf Hap E) as Ec.
      destruct (specs_wf_lookup _ _ Hwf El) as [Ho Hcl].
      assert (Hi : i + length (open spec) ≤ length s).
      { apply find_next_open_Some in E as (sp & El' & Hf & _). rewrite El in El'. injection El' as <-.
        by destruct (find_app_Some _ s [] i Ho Hf). }
      destruct (IH _ _ _ (active_wf_Some (Build_ActiveTag (spec_tag spec) (close spec) []) Hcl) H1 H2) as [f3 Hf3]. exists (S f3). cbn [push_loop]. rewrite Ec, El.
      rewrite drop_app_le, take_app_le by lia. exact Hf3.
    + intros [= <- <- <-] H2. exists fuel2. rewrite <-H2. symmetry. rewrite Hfuel2. rewrite find_next_open_None in E.
      pose proof (max_open_bound s) as Hb. set (m := length s - _) in *.
      rewrite <-drop_app_le by lia. rewrite <-(take_app_le s c m) by lia. apply idle_skip.
      * rewrite length_app. lia.
      * intros j spec Hl i Hi Hc. apply (not_kept_quiet s (open spec) i (E j spec Hl)).
        -- pose proof (max_open_le s j spec Hl). lia.
        -- apply (compatible_app _ s c); [lia|done].
Qed.
End loop.

Section laws.
Context {T : Type}.
Definition inline_wf (p : InlineHiddenTagParser T) : Prop :=
  specs_wf (specs p) ∧ openers_apart (specs p) ∧ active_wf (active p).
Lemma inline_push_total p s :
  inline_wf p → ∃ p' c, inline_push_str p s = Ok (p', c) ∧ inline_wf p' ∧ specs p' = specs p.
Proof.
  intros (Hwf & Hap & Ha). unfold inline_push_str.
  destruct (push_loop_total (specs p) (S (length (pending p ++ s))) (pending p ++ s) (active p) default_chunk Hwf Ha)
    as (rest & a' & o & -> & Ha'); [lia|]. run_bind. eexists _, _. split; [done|]. by split_and!.
Qed.
Lemma inline_push_app p a b p1 c1 p2 c2 :
  inline_wf p → inline_push_str p a = Ok (p1, c1) → inline_push_str p1 b = Ok (p2, c2) →
  inline_push_str p (a ++ b) = Ok (p2, chunk_app c1 c2).
Proof.
  intros (Hwf & Hap & Ha). unfold inline_push_str. set (f1 := S (length (pending p ++ a))).
  destruct (push_loop f1 _ _ _ _) as [[[r1 a1] o1]| | |] eqn:E1; try done. run_bind. intros [= <- <-]. cbn [specs pending active].
  set (f2 := length (r1 ++ b)). rewrite push_loop_out.
  destruct (push_loop (S f2) (specs p) (r1 ++ b) a1 default_chunk) as [[[r2 a2] o2]| | |] eqn:E2; try done. run_bind.
  intros [= <- <-].
  assert (E2' : push_loop (S f2) (specs p) (r1 ++ b) a1 o1 = Ok (r2, a2, chunk_app o1 o2)) by (by rewrite push_loop_out, E2).
  destruct (push_loop_app (specs p) f1 _ _ _ r1 a1 o1 b (S f2) f2 _ eq_refl Hwf Hap Ha E1 E2') as [f3 E3].
  rewrite <-app_assoc in E3.
  destruct (push_loop_total (specs p) (S (length (pending p ++ a ++ b))) (pending p ++ a ++ b) (active p) default_chunk Hwf Ha)
    as (r & a' & o & Et & _); [lia|].
  rewrite Et. run_bind. pose proof (push_loop_fuel _ _ (max f3 (S (length (pending p ++ a ++ b)))) _ _ _ _ E3 ltac:(lia)) as E3'.
  pose proof (push_loop_fuel _ _ (max f3 (S (length (pending p ++ a ++ b)))) _ _ _ _ Et ltac:(lia)) as Et'.
  rewrite E3' in Et'. by injection Et' as <- <- <-.
Qed.
#[export] Program Instance inline_laws : StreamParserLaws (InlineHiddenTagParser T) (ExtractedInlineTag T) :=
  {| parser_wf := inline_wf; norm := id |}.
Next Obligation. done. Qed.
Next Obligation. intros p s Hp. destruct (inline_push_total p s Hp) as (p' & c & E & Hp' & _). eauto. Qed.
Next Obligation. intros p _. cbn. unfold inline_finish. eauto. Qed.
Next Obligation. intros p a b p1 c1 p2 c2 Hp E1 E2. exists (chunk_app c1 c2). split_and!; [by eapply inline_push_app|done|done]. Qed.
Next Obligation.
  intros p s p1 c1 Hp E1. destruct (inline_push_total p s Hp) as (q & d & Eq & Hq & _).
  assert (q = p1 ∧ d = c1) as [-> ->] by (change (inline_push_str p s = Ok (p1, c1)) in E1; rewrite Eq in E1; by injection E1).
  destruct (inline_push_total p1 [] Hq) as (p2 & c2 & E2 & _).
  pose proof (inline_push_app p s [] _ _ _ _ Hp Eq E2) as E. rewrite app_nil_r, Eq in E.
  injection E as <- Ec. change (inline_push_str p1 [] = Ok (p1, default_chunk)). rewrite E2. repeat f_equal.
  destruct c1 as [v x], c2 as [v' x']. unfold chunk_app in Ec. cbn in Ec. injection Ec as Ev Ex.
  apply (f_equal length) in Ev, Ex. rewrite length_app in Ev, Ex. unfold default_chunk.
  destruct v', x'; simpl in *; try lia. done.
Qed.
End laws.

(** * Citations, lemmas *)

Lemma citation_new_eq : citation_new = Ok {| inner := {| specs := [citation_spec]; pending := []; active := None |} |}.
Proof. reflexivity. Qed.
Lemma single_apart {T} (spec : InlineTagSpec T) : openers_apart [spec].
Proof. intros [|i] [|j] sp sp' a b; try done; simpl; try (by intros [= <-] [= <-]). Qed.
#[export] Program Instance citation_laws : StreamParserLaws CitationStreamParser str :=
  {| parser_wf p := inline_wf (inner p) ∧ specs (inner p) = [citation_spec]; norm := id |}.
Next Obligation. done. Qed.
Next Obligation.
  intros p s [Hp Hs]. destruct (inline_push_total (inner p) s Hp) as (q & c & E & Hq & Hs').
  exists {| inner := q |}, (citation_chunk c). split; [|by rewrite <-Hs].
  change (('(q, c) ← inline_push_str (inner p) s; Ok ({| inner := q |}, citation_chunk c)) = Ok ({| inner := q |}, citation_chunk c)).
  by rewrite E.
Qed.
Next Obligation. intros p _. cbn. eauto. Qed.
Lemma citation_push_inv p s q c :
  push_str p s = Ok (q, c) ↔ ∃ d, inline_push_str (inner p) s = Ok (inner q, d) ∧ c = citation_chunk d.
Proof.
  change (push_str p s) with ('(q, c) ← inline_push_str (inner p) s; Ok ({| inner := q |}, citation_chunk c)).
  destruct (inline_push_str (inner p) s) as [[r d]| | |]; run_bind; [|by split; [|intros (? & ? & _)]..].
  destruct q as [q]. split; [intros [= <- <-]; by exists d|]. intros (d' & [= -> ->] & ->). done.
Qed.
Next Obligation.
  intros p a b p1 c1 p2 c2 [Hp Hs] (d1 & E1 & ->)%citation_push_inv (d2 & E2 & ->)%citation_push_inv.
  exists (citation_chunk (chunk_app d1 d2)). split_and!.
  - apply citation_push_inv. eexists. split; [by eapply inline_push_app|done].
  - done.
  - cbn. by rewrite fmap_app.
Qed.
Next Obligation.
  intros p s p1 c1 [Hp Hs] (d1 & E1 & ->)%citation_push_inv. apply citation_push_inv.
  exists default_chunk. split; [|done]. exact (push_nil (inner p) s _ _ Hp E1).
Qed.

Lemma citation_new_wf : parser_wf {| inner := {| specs := [citation_spec]; pending := []; active := None |} |}.
Proof. split; [|done]. split_and!; [by repeat constructor|apply single_apart|apply active_wf_None]. Qed.
(** Stripping a text is what a stream of it gives, however it is cut. *)
Lemma strip_citations_collect chunks :
  ∃ v cites, collect {| inner := {| specs := [citation_spec]; pending := []; active := None |} |} chunks
             = Ok {| visible_text := v; extracted := cites |}
    ∧ strip_citations (concat chunks) = Ok (v, cites).
Proof.
  unfold strip_citations. rewrite citation_new_eq. run_bind. set (p := {| inner := _ |}).
  pose proof citation_new_wf as Hwf. fold p in Hwf.
  destruct chunks as [|c chunks]; [by exists [], []|].
  destruct (push_all_total p (c :: chunks) Hwf) as (p1 & c1 & E1 & Hp1).
  destruct (push_total p (concat (c :: chunks)) Hwf) as (p2 & c2 & E2 & Hp2).
  destruct (push_all_concat p c chunks p1 c1 p2 c2 Hwf E1 E2) as [<- [Hv He]].
  destruct (finish_total p1 Hp1) as (p3 & f & E3).
  unfold collect. rewrite E1, E2. run_bind. rewrite E3. run_bind.
  exists (visible_text c2 ++ visible_text f), (extracted c2 ++ extracted f). split; [|done].
  unfold chunk_app. cbn in He. by rewrite Hv, He.
Qed.

(** A document: passages of text, each followed by a citation, and a last one. *)
Fixpoint cited (doc : list (str * str)) (rest : str) : str :=
  match doc with
  | [] => rest
  | (text, citation) :: doc' => text ++ CITATION_OPEN ++ citation ++ CITATION_CLOSE ++ cited doc' rest
  end.
(** The delimiters occur only where they are meant to. *)
Definition plain_document (doc : list (str * str)) (rest : str) : Prop :=
  Forall (λ '(text, citation), find CITATION_OPEN (text ++ CITATION_OPEN) = Some (length text)
                               ∧ find CITATION_CLOSE (citation ++ CITATION_CLOSE) = Some (length citation)) doc
  ∧ find CITATION_OPEN rest = None.

Lemma find_next_open_single s :
  find_next_open [citation_spec] s = (λ pos, (pos, 0)) <$> find CITATION_OPEN s.
Proof. unfold find_next_open. cbn [openers]. by destruct (find _ s). Qed.
Lemma push_loop_cited doc rest out :
  plain_document doc rest →
  ∃ fuel s o, push_loop fuel [citation_spec] (cited doc rest) None out = Ok (s, None, o)
    ∧ visible_text o ++ s = visible_text out ++ concat doc.*1 ++ rest
    ∧ extracted o = extracted out ++ ((λ c, {| tag := tt; tag_content := c |}) <$> doc.*2).
Proof.
  intros [Hdoc Hrest]. revert out. induction Hdoc as [|[text citation] doc [Ht Hc] _ IH]; intros out.
  - exists 1. cbn [push_loop cited]. rewrite find_next_open_single, Hrest. eexists _, _. split; [done|]. cbn.
    rewrite app_nil_r. split; [|done]. rewrite <-app_assoc. f_equal. apply take_drop.
  - destruct (IH (push_extracted (push_visible out text) {| tag := tt; tag_content := citation |}))
      as (fuel & s & o & E & Hv & He).
    exists (S (S fuel)), s, o. split_and!.
    + cbn [push_loop cited]. rewrite find_next_open_single.
      destruct (find_app_Some CITATION_OPEN _ (citation ++ CITATION_CLOSE ++ cited doc rest) _ ltac:(done) Ht) as [Ef _].
      rewrite <-app_assoc in Ef. rewrite Ef. cbn [fmap option_fmap option_map lookup list_lookup citation_spec open close spec_tag active_close active_tag content].
      rewrite take_app_length, <-drop_drop, drop_app_length, drop_app_length.
      destruct (find_app_Some CITATION_CLOSE _ (cited doc rest) _ ltac:(done) Hc) as [Ef' _].
      rewrite <-app_assoc in Ef'. rewrite Ef'. rewrite take_app_length, <-drop_drop, drop_app_length, drop_app_length.
      exact E.
    + rewrite Hv. cbn. by rewrite <-!app_assoc.
    + rewrite He. cbn. by rewrite <-app_assoc.
Qed.

(** However a stream of text is cut into chunks, the parser of hidden tags
    shows the same text and extracts the same tags, in order, as when it gets
    the text in one piece, provided no opening delimiter occurs inside
    another; it never fails, and only the empty or delimiterless
    specifications its constructor rejects are excluded. *)
Theorem inline_chunks_irrelevant {T} (sps : list (InlineTagSpec T)) p chunks s :
  new sps = Ok p → openers_apart sps →
  ∃ out, collect p (s :: chunks) = Ok out ∧ collect p [concat (s :: chunks)] = Ok out.
Proof.
  unfold new. destruct (_ || _) eqn:Hnew; [done|]. intros [= <-] Hap. apply orb_false_iff in Hnew as [_ Hnew].
  set (p := {| specs := sps; pending := []; active := None |}).
  assert (Hwf : parser_wf (X := ExtractedInlineTag T) p).
  { split_and!; [|done|by intros t]. apply Forall_forall. intros spec Hin. apply not_true_iff_false in Hnew.
    split; intros E; apply Hnew, existsb_elem; exists spec; (split; [done|]); rewrite E; [done|].
    by rewrite (bool_decide_true (@nil N = [])), orb_true_r. }
  destruct (push_all_total p (s :: chunks) Hwf) as (p1 & c1 & E1 & Hp1).
  destruct (inline_push_total p (concat (s :: chunks)) Hwf) as (p2 & c2 & E2 & _ & _).
  destruct (push_all_concat p s chunks p1 c1 p2 c2 Hwf E1 E2) as [<- [Hv He]].
  assert (c1 = c2) as -> by (destruct c1, c2; cbn in *; by subst).
  unfold collect. rewrite E1. rewrite push_all_cons. change (push_str p) with (inline_push_str p). rewrite E2. run_bind.
  cbn [push_all]. run_bind. rewrite chunk_app_nil_r. cbn. eauto.
Qed.

(** A document whose citations are marked, cut into chunks anyhow, is shown
    without its citations, which are all extracted in order. *)
Theorem citations_of_document doc rest chunks :
  plain_document doc rest → concat chunks = cited doc rest →
  ∃ p, citation_new = Ok p
    ∧ collect p chunks = Ok {| visible_text := concat doc.*1 ++ rest; extracted := doc.*2 |}
    ∧ strip_citations (cited doc rest) = Ok (concat doc.*1 ++ rest, doc.*2).
Proof.
  intros Hdoc Hch. eexists. split; [apply citation_new_eq|].
  set (p := {| inner := _ |}).
  assert (Hwf : parser_wf p).
  { split; [|done]. split_and!; [by repeat constructor|apply single_apart|apply active_wf_None]. }
  destruct (push_loop_cited doc rest default_chunk Hdoc) as (fuel & s & o & E & Hv & He).
  assert (Epush : ∃ q, push_str p (cited doc rest) = Ok (q, citation_chunk o) ∧ finish q = Ok ({| inner := {| specs := [citation_spec]; pending := []; active := None |} |}, {| visible_text := s; extracted := [] |})).
  { destruct (push_loop_total [citation_spec] (S (length (cited doc rest))) (cited doc rest) None default_chunk)
      as (r & a' & o' & Et & _); [apply Hwf|apply active_wf_None|lia|].
    pose proof (push_loop_fuel _ _ (max fuel (S (length (cited doc rest)))) _ _ _ _ E ltac:(lia)) as E'.
    pose proof (push_loop_fuel _ _ (max fuel (S (length (cited doc rest)))) _ _ _ _ Et ltac:(lia)) as Et'.
    rewrite E' in Et'. injection Et' as <- <- <-.
    exists {| inner := {| specs := [citation_spec]; pending := s; active := None |} |}. split; [|reflexivity].
    apply citation_push_inv. exists o. split; [|done]. unfold inline_push_str. cbn [pending p inner specs active app].
    by rewrite Et. }
  destruct Epush as (q & Ep & Ef).
  assert (Hout : chunk_app (citation_chunk o) {| visible_text := s; extracted := [] |}
    = {| visible_text := concat doc.*1 ++ rest; extracted := doc.*2 |}).
  { unfold chunk_app. cbn. rewrite Hv, He, app_nil_r. cbn. f_equal. rewrite <-list_fmap_compose. apply list_fmap_id. }
  split.
  - destruct chunks as [|c chunks].
    { destruct doc as [|[text cit] doc]; [|by destruct text]. cbn in Hch. by subst rest. }
    destruct (push_all_total p (c :: chunks) Hwf) as (p1 & c1 & E1 & Hp1). rewrite <-Hch in Ep.
    destruct (push_all_concat p c chunks p1 c1 q _ Hwf E1 Ep) as [-> [Hv1 He1]].
    unfold collect. rewrite E1. run_bind. rewrite Ef. run_bind. f_equal. rewrite <-Hout.
    unfold chunk_app. cbn in Hv1, He1 |- *. by rewrite Hv1, He1.
  - unfold strip_citations. rewrite citation_new_eq. run_bind. fold p. rewrite Ep. run_bind. rewrite Ef. run_bind.
    f_equal. unfold chunk_app in Hout. injection Hout as <- <-. done.
Qed.

(** * Witnesses *)

Lemma inline_chunks_irrelevant_witness :
  let sps := [{| spec_tag := true; open := lit "<a>"; close := lit "</a>" |};
              {| spec_tag := false; open := lit "<b>"; close := lit "</b>" |}] in
  ∃ p, new sps = Ok p
    ∧ ∃ out, collect p [lit "1<"; lit "a>x</"; lit "a>2<b>y"] = Ok out
           ∧ collect p [lit "1<a>x</a>2<b>y"] = Ok out.
Proof.
  intros sps. eexists. split; [reflexivity|].
  refine (inline_chunks_irrelevant sps _ [lit "a>x</"; lit "a>2<b>y"] (lit "1<") eq_refl _).
  intros [|[|i]] [|[|j]] spec spec' a b Hi Hj; try done; injection Hi as <-; injection Hj as <-; try done; cbn;
    intros E; exfalso; repeat (destruct a as [|? a]; [done|]; injection E as ? E); by destruct a.
Defined.
Lemma citations_of_document_witness :
  let doc := [(lit "a <b ", lit "doc<A>"); (lit "", lit "x")] in
  plain_document doc (lit " end<")
  ∧ ∃ p, citation_new = Ok p
    ∧ collect p [lit "a <b <oai-mem-cit"; lit "ation>doc<A></oai-mem-citation><oai-mem-citation>x</oai-mem-citation> end<"]
      = Ok {| visible_text := lit "a <b  end<"; extracted := [lit "doc<A>"; lit "x"] |}.
Proof.
  assert (Hdoc : plain_document [(lit "a <b ", lit "doc<A>"); (lit "", lit "x")] (lit " end<")).
  { split; [|reflexivity]. repeat constructor. }
  split; [exact Hdoc|].
  destruct (citations_of_document _ (lit " end<") [lit "a <b <oai-mem-cit"; lit "ation>doc<A></oai-mem-citation><oai-mem-citation>x</oai-mem-citation> end<"] Hdoc eq_refl)
    as (p & Ep & Ec & _).
  exists p. split; [exact Ep|]. exact Ec.
Defined.
