(* ===== verification/TaggedLine.v ===== *)
(** Tag blocks whose tags stand alone on a line, in a stream of text:
    [codex-rs/utils/stream-parser/src/tagged_line_parser.rs], the proposed
    plans of [proposed_plan.rs] and the parser of assistant messages of
    [assistant_text.rs], which strips citations first. *)
From S2P Require Import Prelude RustStr StreamText InlineTag.

Record TagSpec (T : Type) : Type := { tag_open : str; tag_close : str; tag_of : T }.
Arguments tag_open {T} _.
Arguments tag_close {T} _.
Arguments tag_of {T} _.
Inductive TaggedLineSegment (T : Type) : Type :=
| Normal (text : str) | TagStart (t : T) | TagDelta (t : T) (text : str) | TagEnd (t : T).
Arguments Normal {T} text.
Arguments TagStart {T} t.
Arguments TagDelta {T} t text.
Arguments TagEnd {T} t.
Record TaggedLineParser (T : Type) : Type := {
  line_specs : list (TagSpec T); active_block : option T; detect_tag : bool; line_buffer : str }.
Arguments line_specs {T} _.
Arguments active_block {T} _.
Arguments detect_tag {T} _.
Arguments line_buffer {T} _.
Arguments Build_TaggedLineParser {T} _ _ _ _.

Section tagged.
Context {T : Type} `{!EqDecision T}.

Definition tagged_new (specs : list (TagSpec T)) : TaggedLineParser T :=
  {| line_specs := specs; active_block := None; detect_tag := true; line_buffer := [] |}.

(** Segments are kept in order; the last one may be extended. *)
Definition push_segment (segments : list (TaggedLineSegment T)) (segment : TaggedLineSegment T)
    : list (TaggedLineSegment T) :=
  match segment with
  | Normal delta =>
      if decide (delta = []) then segments
      else match last segments with
           | Some (Normal existing) => removelast segments ++ [Normal (existing ++ delta)]
           | _ => segments ++ [Normal delta]
           end
  | TagDelta tag delta =>
      if decide (delta = []) then segments
      else match last segments with
           | Some (TagDelta existing_tag existing) =>
               if decide (existing_tag = tag) then removelast segments ++ [TagDelta tag (existing ++ delta)]
               else segments ++ [TagDelta tag delta]
           | _ => segments ++ [TagDelta tag delta]
           end
  | TagStart _ | TagEnd _ => segments ++ [segment]
  end.
Definition text_segment (active : option T) (text : str) : TaggedLineSegment T :=
  match active with Some tag => TagDelta tag text | None => Normal text end.
Definition push_text (active : option T) (text : str) (segments : list (TaggedLineSegment T)) :=
  push_segment segments (text_segment active text).

Definition is_tag_prefix (specs : list (TagSpec T)) (slug : str) : bool :=
  let slug := trim_end slug in
  existsb (λ spec, starts_with slug (tag_open spec) || starts_with slug (tag_close spec)) specs.
Definition match_open (specs : list (TagSpec T)) (slug : str) : option T :=
  tag_of <$> List.find (λ spec, bool_decide (tag_open spec = slug)) specs.
Definition match_close (specs : list (TagSpec T)) (slug : str) : option T :=
  tag_of <$> List.find (λ spec, bool_decide (tag_close spec = slug)) specs.

(** A complete line: a tag, or text. *)
Definition line_slug (line : str) : str :=
  trim_end (trim_start match strip_suffix [nl] line with Some l => l | None => line end).
Definition finish_line (specs : list (TagSpec T)) (active : option T) (line : str)
    (segments : list (TaggedLineSegment T)) : option T * list (TaggedLineSegment T) :=
  let slug := line_slug line in
  match match_open specs slug, active with
  | Some tag, None => (Some tag, push_segment segments (TagStart tag))
  | _, _ =>
      match match_close specs slug, active with
      | Some tag, Some a =>
          if decide (a = tag) then (None, push_segment segments (TagEnd tag))
          else (active, push_text active line segments)
      | _, _ => (active, push_text active line segments)
      end
  end.

(** The loop of [parse] over the characters; [run] is text not yet pushed. *)
Fixpoint parse_loop (p : TaggedLineParser T) (run : str) (segments : list (TaggedLineSegment T)) (delta : str)
    : TaggedLineParser T * list (TaggedLineSegment T) :=
  match delta with
  | [] => (p, if decide (run = []) then segments else push_text (active_block p) run segments)
  | ch :: delta' =>
      if detect_tag p then
        let segments := if decide (run = []) then segments else push_text (active_block p) run segments in
        let line := line_buffer p ++ [ch] in
        if (ch =? nl)%N then
          let '(active, segments) := finish_line (line_specs p) (active_block p) line segments in
          parse_loop {| line_specs := line_specs p; active_block := active; detect_tag := true; line_buffer := [] |}
            [] segments delta'
        else
          let slug := trim_start line in
          if bool_decide (slug = []) || is_tag_prefix (line_specs p) slug then
            parse_loop {| line_specs := line_specs p; active_block := active_block p; detect_tag := true;
                          line_buffer := line |} [] segments delta'
          else
            parse_loop {| line_specs := line_specs p; active_block := active_block p; detect_tag := false;
                          line_buffer := [] |} [] (push_text (active_block p) line segments) delta'
      else
        let run := run ++ [ch] in
        if (ch =? nl)%N then
          parse_loop {| line_specs := line_specs p; active_block := active_block p; detect_tag := true;
                        line_buffer := line_buffer p |} [] (push_text (active_block p) run segments) delta'
        else parse_loop p run segments delta'
  end.
Definition parse (p : TaggedLineParser T) (delta : str) := parse_loop p [] [] delta.
Definition tagged_finish (p : TaggedLineParser T) : TaggedLineParser T * list (TaggedLineSegment T) :=
  let '(active, segments) :=
    if decide (line_buffer p = []) then (active_block p, [])
    else finish_line (line_specs p) (active_block p) (line_buffer p) [] in
  ({| line_specs := line_specs p; active_block := None; detect_tag := true; line_buffer := [] |},
   match active with Some tag => push_segment segments (TagEnd tag) | None => segments end).
End tagged.

(** * Proposed plans *)

Definition OPEN_TAG : str := lit "<proposed_plan>".
Definition CLOSE_TAG : str := lit "</proposed_plan>".
Inductive ProposedPlanSegment : Type :=
| PlanNormal (text : str) | ProposedPlanStart | ProposedPlanDelta (text : str) | ProposedPlanEnd.
Record ProposedPlanParser : Type := { plan_parser : TaggedLineParser unit }.
Definition plan_new : ProposedPlanParser :=
  {| plan_parser := tagged_new [{| tag_open := OPEN_TAG; tag_close := CLOSE_TAG; tag_of := tt |}] |}.
Definition map_segment (segment : TaggedLineSegment unit) : ProposedPlanSegment :=
  match segment with
  | Normal text => PlanNormal text
  | TagStart _ => ProposedPlanStart
  | TagDelta _ text => ProposedPlanDelta text
  | TagEnd _ => ProposedPlanEnd
  end.
Definition map_segments (segments : list (TaggedLineSegment unit)) : StreamTextChunk ProposedPlanSegment :=
  {| visible_text := concat ((λ s, match map_segment s with PlanNormal text => text | _ => [] end) <$> segments);
     extracted := map_segment <$> segments |}.
#[export] Instance plan_stream_parser : StreamTextParser ProposedPlanParser ProposedPlanSegment :=
  {| push_str p chunk := let '(q, segments) := parse (plan_parser p) chunk in
                         Ok ({| plan_parser := q |}, map_segments segments);
     finish p := let '(q, segments) := tagged_finish (plan_parser p) in
                 Ok ({| plan_parser := q |}, map_segments segments) |}.
Definition strip_proposed_plan_blocks (text : str) : outcome Empty_set str :=
  '(p, out) ← push_str plan_new text;
  '(_, tail) ← finish p;
  Ok (visible_text out ++ visible_text tail).
Fixpoint extract_loop (plan_text : str) (saw_plan_block : bool) (l : list ProposedPlanSegment) : str * bool :=
  match l with
  | [] => (plan_text, saw_plan_block)
  | ProposedPlanStart :: l' => extract_loop [] true l'
  | ProposedPlanDelta delta :: l' => extract_loop (plan_text ++ delta) saw_plan_block l'
  | (ProposedPlanEnd | PlanNormal _) :: l' => extract_loop plan_text saw_plan_block l'
  end.
Definition extract_proposed_plan_text (text : str) : outcome Empty_set (option str) :=
  '(p, out) ← push_str plan_new text;
  '(_, tail) ← finish p;
  let '(plan_text, saw_plan_block) := extract_loop [] false (extracted out ++ extracted tail) in
  Ok (if saw_plan_block : bool then Some plan_text else None).

(** * Assistant messages *)

Record AssistantTextChunk : Type := {
  shown : str; citations : list str; plan_segments : list ProposedPlanSegment }.
Definition assistant_is_empty (c : AssistantTextChunk) : bool :=
  bool_decide (shown c = []) && bool_decide (citations c = [])
  && match plan_segments c with [] => true | _ => false end.
Record AssistantTextStreamParser : Type := {
  plan_mode : bool; citation_state : CitationStreamParser; plan : ProposedPlanParser }.
Definition assistant_new (plan_mode : bool) : outcome Empty_set AssistantTextStreamParser :=
  c ← citation_new; Ok {| plan_mode := plan_mode; citation_state := c; plan := plan_new |}.
Definition parse_visible_text (p : AssistantTextStreamParser) (visible : str)
    : outcome Empty_set (ProposedPlanParser * AssistantTextChunk) :=
  if negb (plan_mode p) then Ok (plan p, {| shown := visible; citations := []; plan_segments := [] |})
  else
    '(q, chunk) ← push_str (plan p) visible;
    Ok (q, {| shown := visible_text chunk; citations := []; plan_segments := extracted chunk |}).
Definition assistant_push_str (p : AssistantTextStreamParser) (chunk : str)
    : outcome Empty_set (AssistantTextStreamParser * AssistantTextChunk) :=
  '(c, citation_chunk) ← push_str (citation_state p) chunk;
  '(q, out) ← parse_visible_text p (visible_text citation_chunk);
  Ok ({| plan_mode := plan_mode p; citation_state := c; plan := q |},
      {| shown := shown out; citations := extracted citation_chunk; plan_segments := plan_segments out |}).
Definition assistant_finish (p : AssistantTextStreamParser)
    : outcome Empty_set (AssistantTextStreamParser * AssistantTextChunk) :=
  '(c, citation_chunk) ← finish (citation_state p);
  '(q, out) ← parse_visible_text p (visible_text citation_chunk);
  '(q, tail) ← (if plan_mode p then finish q else Ok (q, default_chunk));
  Ok ({| plan_mode := plan_mode p; citation_state := c; plan := q |},
      {| shown := shown out ++ visible_text tail; citations := extracted citation_chunk;
         plan_segments := plan_segments out ++ extracted tail |}).

Example plan_ex :
  let text := lit "Intro" ++ [nl] ++ lit " <proposed_plan> " ++ [nl] ++ lit "- step" ++ [nl]
              ++ lit "</proposed_plan>" ++ [nl] ++ lit "<proposed_plan> x" in
  strip_proposed_plan_blocks text = Ok (lit "Intro" ++ [nl] ++ lit "<proposed_plan> x")
  ∧ extract_proposed_plan_text text = Ok (Some (lit "- step" ++ [nl])).
Proof. vm_compute. done. Qed.

(** * Lemmas on segments *)

Section segments.
Context {T : Type} `{!EqDecision T}.
Abbreviation segment := (TaggedLineSegment T).

(** Segments with adjacent texts of the same kind joined. *)
Definition push_segments (acc l : list segment) : list segment := foldl push_segment acc l.
Definition norm_segments (l : list segment) : list segment := push_segments [] l.

Lemma push_text_nil a (s : list segment) : push_segment s (text_segment a []) = s.
Proof. by destruct a. Qed.
Lemma push_text_merge a x y (s : list segment) :
  push_segment (push_segment s (text_segment a x)) (text_segment a y) = push_segment s (text_segment a (x ++ y)).
Proof.
  destruct (decide (x = [])) as [->|Hx]; [by rewrite push_text_nil|].
  destruct (decide (y = [])) as [->|Hy]; [by rewrite push_text_nil, app_nil_r|].
  assert (x ++ y ≠ []) by (by destruct x).
  destruct a as [t|]; cbn [push_segment text_segment]; rewrite !(decide_False (P := x = [])), !(decide_False (P := y = [])), !(decide_False (P := x ++ y = [])) by done.
  - destruct (last s) as [[]|] eqn:E; rewrite ?last_snoc, ?removelast_snoc; try by rewrite decide_True.
    destruct (decide (t0 = t)); rewrite last_snoc, removelast_snoc, decide_True by done; by rewrite <-?app_assoc.
  - destruct (last s) as [[]|] eqn:E; rewrite last_snoc, removelast_snoc; by rewrite <-?app_assoc.
Qed.
Lemma push_segment_cases (s : list segment) x :
  (∃ a, x = text_segment a [] ∧ push_segment s x = s) ∨ push_segment s x = s ++ [x]
  ∨ ∃ a e d r, s = r ++ [text_segment a e] ∧ x = text_segment a d ∧ push_segment s x = r ++ [text_segment a (e ++ d)].
Proof.
  assert (Hlast : ∀ y, last s = Some y → s = removelast s ++ [y]).
  { intros y [k ->]%last_Some. by rewrite removelast_snoc. }
  destruct x as [d|t|t d|t]; cbn [push_segment]; auto.
  - destruct (decide (d = [])) as [->|]; [left; by exists None|]. right.
    destruct (last s) as [[e|t|t e|t]|] eqn:E; auto. right. exists None, e, d, (removelast s). split_and!; [by apply Hlast|done..].
  - destruct (decide (d = [])) as [->|]; [left; by exists (Some t)|]. right.
    destruct (last s) as [[e|t'|t' e|t']|] eqn:E; auto. destruct (decide (t' = t)) as [->|]; auto.
    right. exists (Some t), e, d, (removelast s). split_and!; [by apply Hlast|done..].
Qed.
Lemma push_segments_app acc l k : push_segments acc (l ++ k) = push_segments (push_segments acc l) k.
Proof. apply foldl_app. Qed.
(** Pushing on a list and then merging is merging and then pushing. *)
Lemma push_segments_push acc s x : push_segments acc (push_segment s x) = push_segment (push_segments acc s) x.
Proof.
  destruct (push_segment_cases s x) as [(a & -> & E)|[E|(a & e & d & r & -> & -> & E)]]; rewrite E.
  - by rewrite push_text_nil.
  - by rewrite push_segments_app.
  - rewrite !push_segments_app. cbn. by rewrite push_text_merge.
Qed.
Lemma push_segments_norm acc s l : push_segments acc (push_segments s l) = push_segments (push_segments acc s) l.
Proof.
  revert s. induction l as [|x l IH]; intros s; [done|]. cbn. rewrite IH. by rewrite push_segments_push.
Qed.
Lemma norm_segments_app l k : norm_segments (norm_segments l ++ norm_segments k) = norm_segments (l ++ k).
Proof. unfold norm_segments. by rewrite !push_segments_app, !push_segments_norm. Qed.
Lemma push_segments_idem acc l : push_segments acc (norm_segments l) = push_segments acc l.
Proof. unfold norm_segments. by rewrite push_segments_norm. Qed.

(** The text outside blocks. *)
Definition normal_text (x : segment) : str := match x with Normal text => text | _ => [] end.
Lemma normal_text_push s x :
  concat (normal_text <$> push_segment s x) = concat (normal_text <$> s) ++ normal_text x.
Proof.
  destruct (push_segment_cases s x) as [(a & -> & E)|[E|(a & e & d & r & -> & -> & E)]]; rewrite E.
  - by destruct a; rewrite app_nil_r.
  - rewrite fmap_app, concat_app. cbn. by rewrite app_nil_r.
  - rewrite !fmap_app, !concat_app. destruct a; cbn; rewrite ?app_nil_r; [done|]. by rewrite app_assoc.
Qed.
Lemma normal_text_norm acc l :
  concat (normal_text <$> push_segments acc l) = concat (normal_text <$> acc) ++ concat (normal_text <$> l).
Proof.
  revert acc. induction l as [|x l IH]; intros acc; cbn; [by rewrite app_nil_r|].
  unfold push_segments in IH. rewrite IH, normal_text_push. by rewrite <-app_assoc.
Qed.
End segments.

(** * The parser one character at a time *)

Section steps.
Context {T : Type} `{!EqDecision T}.

Definition step (p : TaggedLineParser T) (ch : N) : TaggedLineParser T * list (TaggedLineSegment T) :=
  if detect_tag p then
    let line := line_buffer p ++ [ch] in
    if (ch =? nl)%N then
      let '(active, segments) := finish_line (line_specs p) (active_block p) line [] in
      ({| line_specs := line_specs p; active_block := active; detect_tag := true; line_buffer := [] |}, segments)
    else if bool_decide (trim_start line = []) || is_tag_prefix (line_specs p) (trim_start line) then
      ({| line_specs := line_specs p; active_block := active_block p; detect_tag := true; line_buffer := line |}, [])
    else ({| line_specs := line_specs p; active_block := active_block p; detect_tag := false; line_buffer := [] |},
          [text_segment (active_block p) line])
  else
    ({| line_specs := line_specs p; active_block := active_block p; detect_tag := (ch =? nl)%N;
        line_buffer := line_buffer p |}, [text_segment (active_block p) [ch]]).
Fixpoint steps (p : TaggedLineParser T) (s : str) : TaggedLineParser T * list (TaggedLineSegment T) :=
  match s with
  | [] => (p, [])
  | ch :: s' => let '(p1, l) := step p ch in let '(p2, k) := steps p1 s' in (p2, l ++ k)
  end.

Lemma steps_app (p : TaggedLineParser T) a b :
  steps p (a ++ b) = let '(p1, l) := steps p a in let '(p2, k) := steps p1 b in (p2, l ++ k).
Proof.
  revert p. induction a as [|ch a IH]; intros p; cbn [steps app]; [by destruct (steps p b)|].
  destruct (step p ch) as [p1 l]. rewrite IH. destruct (steps p1 a) as [p2 k]. destruct (steps p2 b) as [p3 m].
  by rewrite app_assoc.
Qed.
Lemma finish_line_push (sps : list (TagSpec T)) (a : option T) line segs :
  finish_line sps a line segs
  = let '(a', l) := finish_line sps a line [] in (a', push_segments segs l).
Proof.
  assert (Hp : ∀ x, push_segments segs (push_segment [] x) = push_segment segs x) by (intros x; apply push_segments_push).
  unfold finish_line, push_text.
  destruct (match_open sps (line_slug line)) as [t|], a as [a|]; destruct (match_close sps (line_slug line)) as [t'|];
    try (destruct (decide (a = t')) as [->|]); by rewrite Hp.
Qed.
Lemma parse_loop_steps delta : ∀ (p : TaggedLineParser T) run segs,
  parse_loop p run segs delta
  = let '(q, l) := steps p delta in (q, push_segments segs (text_segment (active_block p) run :: l)).
Proof.
  assert (Hrun : ∀ a run (segs : list (TaggedLineSegment T)), (if decide (run = []) then segs else push_text a run segs) = push_segment segs (text_segment a run)).
  { intros a run segs. destruct (decide (run = [])) as [->|]; [by rewrite push_text_nil|done]. }
  assert (Hnil : ∀ a (segs : list (TaggedLineSegment T)) l, push_segments segs (text_segment a [] :: l) = push_segments segs l).
  { intros. cbn. by rewrite push_text_nil. }
  induction delta as [|ch delta IH]; intros p run segs; cbn [parse_loop steps].
  { by rewrite Hrun. }
  unfold step. destruct (detect_tag p) eqn:Ed.
  - rewrite Hrun. destruct (ch =? nl)%N.
    + rewrite finish_line_push. destruct (finish_line _ _ _ []) as [a' l]. rewrite IH.
      destruct (steps _ delta) as [q k]. rewrite Hnil. cbn. by rewrite <-push_segments_app.
    + destruct (_ || _); rewrite IH; destruct (steps _ delta) as [q k]; rewrite Hnil; done.
  - assert (Em : ∀ l, push_segments segs (text_segment (active_block p) run :: text_segment (active_block p) [ch] :: l)
      = push_segments segs (text_segment (active_block p) (run ++ [ch]) :: l)).
    { intros l. cbn. by rewrite push_text_merge. }
    destruct (ch =? nl)%N eqn:En; rewrite IH; cbn [active_block].
    + destruct (steps _ delta) as [q k]. cbn [app]. rewrite Em, Hnil. done.
    + replace p with {| line_specs := line_specs p; active_block := active_block p; detect_tag := false; line_buffer := line_buffer p |}
        at 1 by (destruct p; cbn in *; by subst).
      destruct (steps _ delta) as [q k]. cbn [app]. by rewrite Em.
Qed.
Lemma parse_steps (p : TaggedLineParser T) s : parse p s = let '(q, l) := steps p s in (q, norm_segments l).
Proof.
  unfold parse. rewrite parse_loop_steps. destruct (steps p s) as [q l]. cbn. by rewrite push_text_nil.
Qed.

(** * The reference: one line at a time *)

(** The lines of a text, each with its line feed. *)
Fixpoint lines_of (ps : list str) : list str :=
  match ps with
  | [] => []
  | [p] => if decide (p = []) then [] else [p]
  | p :: ps' => (p ++ [nl]) :: lines_of ps'
  end.
Definition text_lines (s : str) : list str := lines_of (split_char nl s).
Fixpoint line_blocks (sps : list (TagSpec T)) (active : option T) (ls : list str) : list (TaggedLineSegment T) :=
  match ls with
  | [] => match active with Some t => [TagEnd t] | None => [] end
  | line :: ls' => let '(active, l) := finish_line sps active line [] in l ++ line_blocks sps active ls'
  end.

Lemma trim_end_prefix (s : str) : trim_end s `prefix_of` s.
Proof.
  unfold trim_end, trim_end_matches.
  assert (Hsuf : ∀ t, ∃ k, t = k ++ trim_start_matches is_whitespace t).
  { induction t as [|c t [k Hk]]; [by exists []|]. cbn. destruct (is_whitespace c); [exists (c :: k); by rewrite Hk at 1|by exists []]. }
  destruct (Hsuf (reverse s)) as [k Hk]. exists (reverse k).
  rewrite <-(reverse_involutive s) at 1. rewrite Hk at 1. by rewrite reverse_app.
Qed.
Lemma trim_end_app_ws (s t : str) : trim_end t = [] → trim_end (s ++ t) = trim_end s.
Proof.
  unfold trim_end, trim_end_matches. rewrite reverse_app. generalize (reverse s). intros r E.
  apply (f_equal reverse) in E. rewrite reverse_involutive in E. change (reverse []) with (@nil N) in E. f_equal.
  induction (reverse t) as [|c u IH]; [done|]. cbn in *. destruct (is_whitespace c); [by apply IH|done].
Qed.
Lemma trim_end_mono (a b : str) : a `prefix_of` b → trim_end a `prefix_of` trim_end b.
Proof.
  intros [k ->]. destruct (decide (trim_end k = [])) as [E|E].
  - by rewrite trim_end_app_ws.
  - rewrite trim_end_app_nonempty by done. etrans; [apply trim_end_prefix|]. by apply prefix_app_r.
Qed.
(** A line of which a beginning is not that of a tag is not a tag. *)
Lemma disproved_text (sps : list (TagSpec T)) (a : option T) q line :
  q `prefix_of` line → trim_start q ≠ [] → is_tag_prefix sps (trim_start q) = false → nl ∉ line →
  ∀ line', (line' = line ∨ line' = line ++ [nl]) → finish_line sps a line' [] = (a, push_segment [] (text_segment a line')).
Proof.
  intros [k ->] Hq Hn Hnl line' Hline'.
  assert (Hslug : line_slug line' = trim_end (trim_start (q ++ k))).
  { unfold line_slug. destruct Hline' as [->| ->].
    - destruct (strip_suffix [nl] (q ++ k)) as [l|] eqn:E; [|done]. apply strip_suffix_Some in E.
      destruct Hnl. rewrite E. apply elem_of_app. right. by left.
    - by rewrite (proj2 (strip_suffix_Some [nl] _ (q ++ k)) eq_refl). }
  assert (Hpre : ∀ o, line_slug line' = o → trim_end (trim_start q) `prefix_of` o).
  { intros o <-. rewrite Hslug. apply trim_end_mono. unfold trim_start. rewrite trim_start_matches_app by done. by apply prefix_app_r. }
  assert (Hnone : ∀ spec, spec ∈ sps → tag_open spec ≠ line_slug line' ∧ tag_close spec ≠ line_slug line').
  { intros spec Hin. apply not_true_iff_false in Hn.
    split; intros E; apply Hn; unfold is_tag_prefix; apply existsb_elem; exists spec; (split; [done|]);
      apply orb_true_iff; [left|right]; apply starts_with_spec; symmetry in E; apply Hpre in E; destruct E as [r ->]; eauto. }
  assert (Hopen : match_open sps (line_slug line') = None ∧ match_close sps (line_slug line') = None).
  { unfold match_open, match_close. split; apply fmap_None;
      (match goal with |- List.find ?f sps = None => destruct (List.find f sps) as [spec|] eqn:E; [|done];
        apply find_some in E as [Hin%list_elem_of_In Hb%bool_decide_eq_true_1]; by destruct (Hnone spec Hin) end). }
  unfold finish_line, push_text. destruct Hopen as [-> ->]. by destruct a.
Qed.

Definition same_segments (l k : list (TaggedLineSegment T)) : Prop := ∀ acc, push_segments acc l = push_segments acc k.
Definition line_state (sps : list (TagSpec T)) (a : option T) (detect : bool) (buffer : str) : TaggedLineParser T :=
  {| line_specs := sps; active_block := a; detect_tag := detect; line_buffer := buffer |}.

Lemma same_segments_app l l' k k' : same_segments l l' → same_segments k k' → same_segments (l ++ k) (l' ++ k').
Proof. intros H1 H2 acc. by rewrite !push_segments_app, H1, H2. Qed.
Lemma same_segments_push x : same_segments (push_segment [] x) [x].
Proof. intros acc. by rewrite push_segments_push. Qed.
Lemma partial_line sps a q :
  nl ∉ q → ∃ p l, steps (line_state sps a true []) q = (p, l) ∧
    ((p = line_state sps a true q ∧ l = [])
     ∨ (p = line_state sps a false [] ∧ same_segments l [text_segment a q]
        ∧ ∃ q0, q0 `prefix_of` q ∧ trim_start q0 ≠ [] ∧ is_tag_prefix sps (trim_start q0) = false)).
Proof.
  induction q as [|ch q IH] using rev_ind; intros Hq; [by eexists _, _; split; [done|left]|].
  apply not_elem_of_app in Hq as [Hq Hch]. rewrite list_elem_of_singleton in Hch.
  destruct (IH Hq) as (p & l & E & Hcase). rewrite steps_app, E. cbn [steps]. unfold step.
  destruct Hcase as [[-> ->]|(-> & Hl & q0 & Hp & H1 & H2)]; cbn [line_state detect_tag line_buffer line_specs active_block].
  - destruct (N.eqb_spec ch nl); [congruence|].
    destruct (bool_decide (trim_start (q ++ [ch]) = []) || is_tag_prefix sps (trim_start (q ++ [ch]))) eqn:Eb.
    + eexists _, _. split; [reflexivity|]. by left.
    + eexists _, _. split; [reflexivity|]. right. split_and!; [done|done|].
      apply orb_false_iff in Eb as [H1%bool_decide_eq_false_1 H2]. by exists (q ++ [ch]).
  - eexists _, _. split; [reflexivity|]. right. split_and!.
    + by destruct (N.eqb_spec ch nl).
    + intros acc. rewrite app_nil_r, push_segments_app, Hl. cbn. apply push_text_merge.
    + exists q0. split_and!; [|done..]. by apply prefix_app_r.
Qed.
Lemma full_line sps a q :
  nl ∉ q → ∃ a' l k, steps (line_state sps a true []) (q ++ [nl]) = (line_state sps a' true [], l)
    ∧ finish_line sps a (q ++ [nl]) [] = (a', k) ∧ same_segments l k.
Proof.
  intros Hq. destruct (partial_line sps a q Hq) as (p & l & E & Hcase). rewrite steps_app, E. cbn [steps]. unfold step.
  destruct Hcase as [[-> ->]|(-> & Hl & q0 & Hp & H1 & H2)]; cbn [line_state detect_tag line_buffer line_specs active_block].
  - change (nl =? nl)%N with true. destruct (finish_line sps a (q ++ [nl]) []) as [a' k].
    eexists _, _, _. split_and!; [reflexivity|done|]. intros acc. by rewrite app_nil_r.
  - change (nl =? nl)%N with true. rewrite (disproved_text sps a q0 q Hp H1 H2 Hq (q ++ [nl])) by by right.
    eexists _, _, _. split_and!; [reflexivity|reflexivity|]. intros acc.
    rewrite same_segments_push, app_nil_r, push_segments_app, Hl. cbn. apply push_text_merge.
Qed.
Lemma last_line sps a q :
  nl ∉ q → ∃ p l, steps (line_state sps a true []) q = (p, l)
    ∧ same_segments (l ++ (tagged_finish p).2) (line_blocks sps a (if decide (q = []) then [] else [q])).
Proof.
  intros Hq. destruct (partial_line sps a q Hq) as (p & l & E & Hcase). exists p, l. split; [done|].
  unfold tagged_finish.
  destruct Hcase as [[-> ->]|(-> & Hl & q0 & Hp & H1 & H2)]; cbn [line_state detect_tag line_buffer line_specs active_block app].
  - destruct (decide (q = [])) as [->|Hne]; [by destruct a|]. cbn [line_blocks].
    destruct (finish_line sps a q []) as [[t|] k]; cbn; by rewrite ?app_nil_r.
  - rewrite (decide_True (P := @nil N = [])) by done. rewrite decide_False.
    2:{ intros ->. destruct Hp as [k Hk]. by destruct q0. }
    cbn [line_blocks]. rewrite (disproved_text sps a q0 q Hp H1 H2 Hq q) by by left.
    apply same_segments_app; [intros acc; by rewrite Hl, same_segments_push|by destruct a].
Qed.
Lemma steps_by_lines n s : length s < n → ∀ sps a, ∃ p l, steps (line_state sps a true []) s = (p, l)
  ∧ same_segments (l ++ (tagged_finish p).2) (line_blocks sps a (text_lines s)).
Proof.
  revert s. induction n as [|n IH]; intros s Hn sps a; [lia|]. unfold text_lines.
  destruct (decide (nl ∈ s)) as [Hin|Hout].
  - apply list_elem_of_split_l in Hin as (q & s' & -> & Hq). rewrite split_char_app by done.
    rewrite length_app in Hn. simpl in Hn. destruct (full_line sps a q Hq) as (a' & l & k & E & Ek & Hlk).
    destruct (IH s' ltac:(lia) sps a') as (p & l2 & E2 & H2).
    exists p, (l ++ l2). split.
    + rewrite cons_middle, app_assoc, steps_app, E, E2. done.
    + assert (El : lines_of (q :: split_char nl s') = (q ++ [nl]) :: text_lines s').
      { unfold text_lines. pose proof (split_char_not_nil nl s'). by destruct (split_char nl s'). }
      rewrite El. cbn [line_blocks]. rewrite Ek, <-app_assoc. by apply same_segments_app.
  - rewrite split_char_single by done. cbn [lines_of]. by apply last_line.
Qed.

(** * Streams *)

Fixpoint tagged_stream (p : TaggedLineParser T) (chunks : list str) : list (TaggedLineSegment T) :=
  match chunks with
  | [] => (tagged_finish p).2
  | chunk :: chunks' => let '(q, segments) := parse p chunk in segments ++ tagged_stream q chunks'
  end.
Lemma tagged_stream_steps p chunks :
  same_segments (tagged_stream p chunks)
    (let '(q, l) := steps p (concat chunks) in l ++ (tagged_finish q).2).
Proof.
  revert p. induction chunks as [|c chunks IH]; intros p; cbn [tagged_stream concat]; [done|].
  rewrite parse_steps, steps_app. destruct (steps p c) as [q l]. specialize (IH q).
  destruct (steps q (concat chunks)) as [r k]. intros acc.
  rewrite push_segments_app, push_segments_idem, IH. by rewrite !push_segments_app.
Qed.

(** However a stream of text is cut into chunks, the segments reported are,
    up to the joining of adjacent texts, those of the text taken one line at a
    time: a line that holds nothing but an opening or closing tag starts or
    ends a block, every other line is text of the block it is in, and an open
    block ends with the stream. *)
Theorem tagged_stream_by_lines (sps : list (TagSpec T)) chunks :
  norm_segments (tagged_stream (tagged_new sps) chunks)
  = norm_segments (line_blocks sps None (text_lines (concat chunks))).
Proof.
  unfold norm_segments. rewrite tagged_stream_steps.
  destruct (steps_by_lines _ (concat chunks) (Nat.lt_succ_diag_r _) sps None) as (p & l & E & Hl).
  change (tagged_new sps) with (line_state sps None true []). rewrite E. apply Hl.
Qed.
End steps.

(** * Plans and assistant messages, lemmas *)

Definition unmap_segment (x : ProposedPlanSegment) : TaggedLineSegment unit :=
  match x with
  | PlanNormal text => Normal text
  | ProposedPlanStart => TagStart tt
  | ProposedPlanDelta text => TagDelta tt text
  | ProposedPlanEnd => TagEnd tt
  end.
Lemma unmap_map (l : list (TaggedLineSegment unit)) : unmap_segment <$> (map_segment <$> l) = l.
Proof. induction l as [|[?|[]|[] ?|[]] l IH]; cbn; f_equal; done. Qed.
Definition norm_plan (l : list ProposedPlanSegment) : list ProposedPlanSegment :=
  map_segment <$> norm_segments (unmap_segment <$> l).
Lemma norm_plan_map (l : list (TaggedLineSegment unit)) : norm_plan (map_segment <$> l) = map_segment <$> norm_segments l.
Proof. unfold norm_plan. by rewrite unmap_map. Qed.
Lemma norm_plan_app l k : norm_plan (norm_plan l ++ norm_plan k) = norm_plan (l ++ k).
Proof. unfold norm_plan. rewrite !fmap_app, !unmap_map. by rewrite norm_segments_app. Qed.
Lemma visible_map_segments l : visible_text (map_segments l) = concat (normal_text <$> l).
Proof. unfold map_segments. cbn. f_equal. apply list_fmap_ext. by intros _ [] _. Qed.
Lemma plan_push_inv p s q c :
  push_str p s = Ok (q, c) ↔ ∃ l, steps (plan_parser p) s = (plan_parser q, l) ∧ c = map_segments (norm_segments l).
Proof.
  cbn [push_str plan_stream_parser]. rewrite parse_steps. destruct (steps (plan_parser p) s) as [r l]. destruct q as [q].
  split; [intros [= <- <-]; by exists l|]. intros (l' & [= -> ->] & ->). done.
Qed.
#[export] Program Instance plan_laws : StreamParserLaws ProposedPlanParser ProposedPlanSegment :=
  {| parser_wf _ := True; norm := norm_plan |}.
Next Obligation. apply norm_plan_app. Qed.
Next Obligation. intros p s _. cbn. destruct (parse _ _). eauto. Qed.
Next Obligation. intros p _. cbn. destruct (tagged_finish _). eauto. Qed.
Next Obligation.
  intros p a b p1 c1 p2 c2 _ (l1 & E1 & ->)%plan_push_inv (l2 & E2 & ->)%plan_push_inv.
  exists (map_segments (norm_segments (l1 ++ l2))). split_and!.
  - apply plan_push_inv. exists (l1 ++ l2). by rewrite steps_app, E1, E2.
  - rewrite !visible_map_segments. unfold norm_segments. rewrite !normal_text_norm. cbn. by rewrite fmap_app, concat_app.
  - cbn [extracted map_segments]. rewrite <-fmap_app, !norm_plan_map. f_equal.
    rewrite <-(norm_segments_app l1 l2). unfold norm_segments at 1. by rewrite push_segments_idem.
Qed.
Next Obligation. intros p s p1 c1 _ _. by destruct p1. Qed.

(** The text a consumer of an assistant message accumulates. *)
Definition assistant_app (a b : AssistantTextChunk) : AssistantTextChunk :=
  {| shown := shown a ++ shown b; citations := citations a ++ citations b;
     plan_segments := plan_segments a ++ plan_segments b |}.
Fixpoint assistant_collect (p : AssistantTextStreamParser) (chunks : list str) : outcome Empty_set AssistantTextChunk :=
  match chunks with
  | [] => '(_, tail) ← assistant_finish p; Ok tail
  | chunk :: chunks' =>
      '(q, out) ← assistant_push_str p chunk;
      rest ← assistant_collect q chunks';
      Ok (assistant_app out rest)
  end.
Definition plan_specs : list (TagSpec unit) := line_specs (plan_parser plan_new).

(** What is shown of [visible] from a state of the plan parser. *)
Definition shows_plan (q : ProposedPlanParser) (visible : str) (out : AssistantTextChunk) : Prop :=
  let '(r, l) := steps (plan_parser q) visible in
  let segments := l ++ (tagged_finish r).2 in
  shown out = concat (normal_text <$> segments)
  ∧ norm_plan (plan_segments out) = map_segment <$> norm_segments segments.
Lemma citation_collect_cons (c : CitationStreamParser) s chunks :
  parser_wf c → ∃ c1 d cc, push_str c s = Ok (c1, d) ∧ parser_wf c1 ∧ collect c1 chunks = Ok cc
    ∧ collect c (s :: chunks) = Ok (chunk_app d cc).
Proof.
  intros Hc. destruct (push_total c s Hc) as (c1 & d & E & Hc1). exists c1, d.
  destruct (push_all_total c1 chunks Hc1) as (c2 & e & E2 & Hc2).
  destruct (finish_total c2 Hc2) as (c3 & f & E3).
  exists (chunk_app e f). unfold collect. rewrite push_all_cons, E. run_bind. rewrite E2. run_bind. rewrite E3. run_bind.
  by rewrite chunk_app_assoc.
Qed.
Lemma assistant_collect_spec mode (c : CitationStreamParser) q chunks :
  parser_wf c → ∃ cc out, collect c chunks = Ok cc
    ∧ assistant_collect {| plan_mode := mode; citation_state := c; plan := q |} chunks = Ok out
    ∧ citations out = extracted cc
    ∧ if mode then shows_plan q (visible_text cc) out
      else shown out = visible_text cc ∧ plan_segments out = [].
Proof.
  revert c q. induction chunks as [|s chunks IH]; intros c q Hc.
  - destruct (finish_total c Hc) as (c3 & f & E3). exists f. unfold collect. cbn [push_all]. run_bind. rewrite E3. run_bind.
    rewrite chunk_app_nil_l. cbn [assistant_collect]. unfold assistant_finish, parse_visible_text.
    cbn [citation_state plan_mode plan]. rewrite E3. run_bind. destruct mode; cbn [negb]; run_bind.
    + cbn [push_str plan_stream_parser finish]. rewrite parse_steps. unfold shows_plan.
      destruct (steps (plan_parser q) (visible_text f)) as [r l]. run_bind. cbn [plan_parser].
      destruct (tagged_finish r) as [r' k]. run_bind. eexists. split_and!; [done|done|done| |]; cbn [shown plan_segments].
      * rewrite !visible_map_segments. unfold norm_segments. rewrite normal_text_norm. cbn. by rewrite fmap_app, concat_app.
      * cbn [extracted map_segments]. rewrite <-fmap_app, norm_plan_map. f_equal. unfold norm_segments.
        by rewrite !push_segments_app, push_segments_norm.
    + eexists. split_and!; [done|done|done| |done]. cbn. by rewrite app_nil_r.
  - destruct (citation_collect_cons c s chunks Hc) as (c1 & d & cc & E & Hc1 & Ecc & Eall).
    exists (chunk_app d cc). cbn [assistant_collect]. unfold assistant_push_str, parse_visible_text.
    cbn [citation_state plan_mode plan]. rewrite E. run_bind. destruct mode; cbn [negb]; run_bind.
    + cbn [push_str plan_stream_parser]. rewrite parse_steps. destruct (steps (plan_parser q) (visible_text d)) as [r l] eqn:Es.
      run_bind. destruct (IH c1 {| plan_parser := r |} Hc1) as (cc' & out & Ecc' & Eo & Hcit & Hs).
      rewrite Ecc in Ecc'. injection Ecc' as <-. rewrite Eo. run_bind. eexists. split_and!; [done|done|by cbn; rewrite Hcit|].
      unfold shows_plan in *. cbn [visible_text chunk_app plan_parser] in *. rewrite steps_app, Es.
      destruct (steps r (visible_text cc)) as [r' k]. destruct Hs as [Hv Hp]. split.
      * cbn [shown assistant_app]. rewrite visible_map_segments, Hv. unfold norm_segments. rewrite normal_text_norm.
        cbn. by rewrite !fmap_app, !concat_app, app_assoc.
      * cbn [plan_segments assistant_app extracted map_segments]. rewrite <-norm_plan_app.
        rewrite Hp, norm_plan_map, <-fmap_app, norm_plan_map. f_equal.
        rewrite norm_segments_app. unfold norm_segments. by rewrite <-!app_assoc, !push_segments_app, push_segments_norm.
    + destruct (IH c1 q Hc1) as (cc' & out & Ecc' & Eo & Hcit & Hs & Hp). rewrite Ecc in Ecc'. injection Ecc' as <-.
      rewrite Eo. run_bind. eexists. split_and!; [done|done|by cbn; rewrite Hcit|by cbn; rewrite Hs|by cbn; rewrite Hp].
Qed.

(** An assistant message streamed in any chunks is shown without its
    citations, all of which are reported in order; in plan mode the text
    without citations is further split by lines, the plan blocks being left
    out of what is shown and reported as segments. *)
Theorem assistant_message_spec mode chunks :
  ∃ p out visible cites, assistant_new mode = Ok p ∧ assistant_collect p chunks = Ok out
    ∧ strip_citations (concat chunks) = Ok (visible, cites) ∧ citations out = cites
    ∧ if mode then
        let segments := line_blocks plan_specs None (text_lines visible) in
        shown out = concat (normal_text <$> segments)
        ∧ norm_plan (plan_segments out) = map_segment <$> norm_segments segments
      else shown out = visible ∧ plan_segments out = [].
Proof.
  unfold assistant_new. rewrite citation_new_eq. run_bind. set (c := {| inner := _ |}).
  assert (Hc : parser_wf c) by apply citation_new_wf.
  destruct (assistant_collect_spec mode c plan_new chunks Hc) as (cc & out & Ecc & Eo & Hcit & Hs).
  destruct (strip_citations_collect chunks) as (v & cites & Ev & Estrip).
  fold c in Ev. rewrite Ecc in Ev. injection Ev as ->. cbn [visible_text extracted] in *.
  eexists _, out, v, cites. split_and!; [done|done|done|done|]. destruct mode; [|done].
  unfold shows_plan in Hs.
  destruct (steps_by_lines _ v (Nat.lt_succ_diag_r _) plan_specs None) as (r & l & El & Hl).
  change (line_state plan_specs None true []) with (plan_parser plan_new) in El. rewrite El in Hs. destruct Hs as [Hv Hp].
  split; [|by rewrite Hp; unfold norm_segments; rewrite Hl].
  rewrite Hv. specialize (Hl []). apply (f_equal (λ k, concat (normal_text <$> k))) in Hl. by rewrite !normal_text_norm in Hl.
Qed.
