(* ===== verification/ToolCalls.v ===== *)
(** Calls of tools and the responses to them: the recognition of calls in the
    items of the model ([codex-rs/core/src/tools/router.rs]), payloads and
    outputs ([tools/context.rs], [protocol/src/models.rs]) and the responses of
    calls that fail or are aborted ([tools/parallel.rs]). JSON values, the
    parameters of a local shell call and the results of MCP servers are opaque. *)
From S2P Require Import Prelude RustStr Truncate History.

Section calls.
Context {Data CallToolResult : Type}.
Abbreviation item := (@ResponseItem Data).

(** * Data *)

Inductive FunctionCallError : Type := RespondToModel (message : str) | MissingLocalShellCallId | Fatal (message : str).
Definition call_error_text (e : FunctionCallError) : str :=
  match e with
  | RespondToModel message => message
  | MissingLocalShellCallId => lit "LocalShellCall without call_id or id"
  | Fatal message => lit "Fatal error: " ++ message
  end.
(** [search] are the arguments of a tool search, [params] those of a local shell call. *)
Inductive ToolPayload : Type :=
| PayloadFunction (arguments : str) | PayloadToolSearch (search : Data) | PayloadCustom (input : str)
| PayloadLocalShell (params : Data) | PayloadMcp (mcp_server tool raw_arguments : str).
Record ToolCall : Type := { tool_name : str; tool_namespace : option str; call_id : str; payload : ToolPayload }.
Inductive ResponseInputItem : Type :=
| InputMessage (role : str) (content : list ContentItem)
| InputFunctionCallOutput (call_id : str) (output : FunctionCallOutputPayload)
| InputMcpToolCallOutput (call_id : str) (output : CallToolResult)
| InputCustomToolCallOutput (call_id : str) (name : option str) (output : FunctionCallOutputPayload)
| InputToolSearchOutput (call_id status execution : str) (tools : list Data).

(** * Recognising calls *)

Section recognising.
(** [Session::parse_mcp_tool_name], the parsing of the arguments of a search,
    and the parameters made from a local shell action. *)
Variable parse_mcp_tool_name : str → option str → option (str * str).
Variable parse_search_arguments : Data → str + Data.
Variable shell_params : Data → Data.

Definition client : str := lit "client".
Definition build_tool_call (i : item) : outcome FunctionCallError (option ToolCall) :=
  match i with
  | FunctionCall _ name namespace arguments id =>
      let p := match parse_mcp_tool_name name namespace with
               | Some (mcp_server, tool) => PayloadMcp mcp_server tool arguments
               | None => PayloadFunction arguments
               end in
      Ok (Some {| tool_name := name; tool_namespace := namespace; call_id := id; payload := p |})
  | ToolSearchCall _ (Some id) _ execution arguments =>
      if bool_decide (execution = client) then
        match parse_search_arguments arguments with
        | inl err => Err (RespondToModel (lit "failed to parse tool_search arguments: " ++ err))
        | inr search => Ok (Some {| tool_name := lit "tool_search"; tool_namespace := None; call_id := id; payload := PayloadToolSearch search |})
        end
      else Ok None
  | ToolSearchCall _ None _ _ _ => Ok None
  | CustomToolCall _ _ id name input =>
      Ok (Some {| tool_name := name; tool_namespace := None; call_id := id; payload := PayloadCustom input |})
  | LocalShellCall id call_id _ action =>
      match (match call_id with Some c => Some c | None => id end) with
      | None => Err MissingLocalShellCallId
      | Some c => Ok (Some {| tool_name := lit "local_shell"; tool_namespace := None; call_id := c; payload := PayloadLocalShell (shell_params action) |})
      end
  | _ => Ok None
  end.
End recognising.

(** * Outputs *)

(** The results of tools, by the type that implements [ToolOutput]; the outputs of
    [exec_command] and of agent tools by the text that they are sent as. *)
Inductive ToolOutput : Type :=
| OutputMcp (result : CallToolResult)
| OutputToolSearch (tools : list Data)
| FunctionToolOutput (content : list output_item) (output_success : option bool)
| ApplyPatchToolOutput (text : str)
| AbortedToolOutput (message : str)
| ExecCommandToolOutput (response_text : str)
| AgentToolOutput (json : str) (output_success : option bool)
| PlanToolOutput
| ViewImageOutput (image_url : str) (image_detail : option ImageDetail).
Definition text_output (text : str) (s : option bool) : ToolOutput := FunctionToolOutput [InputText text] s.

Definition is_custom (p : ToolPayload) : bool := match p with PayloadCustom _ => true | _ => false end.
Definition function_tool_response (id : str) (p : ToolPayload) (content : list output_item) (s : option bool) : ResponseInputItem :=
  let b := match content with [InputText text] => Text text | _ => ContentItems content end in
  if is_custom p then InputCustomToolCallOutput id None {| body := b; success := s |}
  else InputFunctionCallOutput id {| body := b; success := s |}.
Definition PLAN_UPDATED_MESSAGE : str := lit "Plan updated".
Section responding.
(** [CallToolResult::from_error_text]. *)
Variable from_error_text : str → CallToolResult.

Definition to_response_item (o : ToolOutput) (id : str) (p : ToolPayload) : ResponseInputItem :=
  match o with
  | OutputMcp result => InputMcpToolCallOutput id result
  | OutputToolSearch tools => InputToolSearchOutput id (lit "completed") client tools
  | FunctionToolOutput content s => function_tool_response id p content s
  | ApplyPatchToolOutput text | ExecCommandToolOutput text => function_tool_response id p [InputText text] (Some true)
  | AgentToolOutput json s => function_tool_response id p [InputText json] s
  | AbortedToolOutput message =>
      match p with
      | PayloadToolSearch _ => InputToolSearchOutput id (lit "completed") client []
      | PayloadMcp _ _ _ => InputMcpToolCallOutput id (from_error_text message)
      | _ => function_tool_response id p [InputText message] None
      end
  | PlanToolOutput => InputFunctionCallOutput id {| body := Text PLAN_UPDATED_MESSAGE; success := Some true |}
  | ViewImageOutput url detail => InputFunctionCallOutput id {| body := ContentItems [InputImage url detail]; success := Some true |}
  end.
Definition success_for_logging (mcp_success : CallToolResult → bool) (o : ToolOutput) : bool :=
  match o with
  | OutputMcp result => mcp_success result
  | FunctionToolOutput _ s | AgentToolOutput _ s => default true s
  | AbortedToolOutput _ => false
  | _ => true
  end.

Record AnyToolResult : Type := { result_call_id : str; result_payload : ToolPayload; result : ToolOutput }.
Definition into_response (r : AnyToolResult) : ResponseInputItem := to_response_item (result r) (result_call_id r) (result_payload r).
(** The response to a call that failed. *)
Definition failure_response (c : ToolCall) (e : FunctionCallError) : ResponseInputItem :=
  let output := {| body := Text (call_error_text e); success := Some false |} in
  match payload c with
  | PayloadToolSearch _ => InputToolSearchOutput (call_id c) (lit "completed") client []
  | PayloadCustom _ => InputCustomToolCallOutput (call_id c) None output
  | _ => InputFunctionCallOutput (call_id c) output
  end.
(** [secs] is the time the call took, printed with one decimal. *)
Definition shell_tools : list str := map lit ["shell"; "container.exec"; "local_shell"; "shell_command"; "unified_exec"]%string.
Definition abort_message (c : ToolCall) (secs : str) : str :=
  if bool_decide (tool_name c ∈ shell_tools) then lit "Wall time: " ++ secs ++ lit " seconds" ++ [nl] ++ lit "aborted by user"
  else lit "aborted by user after " ++ secs ++ lit "s".
Definition aborted_response (c : ToolCall) (secs : str) : AnyToolResult :=
  {| result_call_id := call_id c; result_payload := payload c; result := AbortedToolOutput (abort_message c secs) |}.
(** [handle_tool_call]: what a call that has ended sends to the model, or the
    error that ends the turn. *)
Definition handle_tool_call (c : ToolCall) (ended : FunctionCallError + AnyToolResult) : str + ResponseInputItem :=
  match ended with
  | inr r => inr (into_response r)
  | inl (Fatal message) => inl message
  | inl e => inr (failure_response c e)
  end.
End responding.

(** [From<ResponseInputItem> for ResponseItem], given how the result of an MCP
    server is turned into an output. *)
Definition of_input (mcp_output : CallToolResult → FunctionCallOutputPayload) (i : ResponseInputItem) : item :=
  match i with
  | InputMessage role content => Message None role content None None
  | InputFunctionCallOutput id output => FunctionCallOutput id output
  | InputMcpToolCallOutput id output => FunctionCallOutput id (mcp_output output)
  | InputCustomToolCallOutput id name output => CustomToolCallOutput id name output
  | InputToolSearchOutput id status execution tools => ToolSearchOutput (Some id) status execution tools
  end.
(** [response_input_to_response_item]. *)
Definition response_input_to_response_item (mcp_output : CallToolResult → FunctionCallOutputPayload) (i : ResponseInputItem) : option item :=
  match i with InputMessage _ _ => None | i => Some (of_input mcp_output i) end.

(** * Handlers *)

(** The handlers of [tools/handlers] and [tools/code_mode], by the payloads they
    take and what they return. *)
Inductive HandlerKind : Type :=
| ShellHandler | ShellCommandHandler | UnifiedExecHandler | ApplyPatchHandler | JsReplHandler | CodeModeExecuteHandler
| AgentJobsHandler | AgentHandler | ToolSearchHandler | McpHandler | PlanHandler | ViewImageHandler
| DynamicToolHandler | OtherFunctionHandler.
Definition matches_kind (h : HandlerKind) (p : ToolPayload) : bool :=
  match h, p with
  | ShellHandler, (PayloadFunction _ | PayloadLocalShell _) => true
  | (ShellCommandHandler | UnifiedExecHandler | AgentJobsHandler | AgentHandler), PayloadFunction _ => true
  | (ApplyPatchHandler | JsReplHandler), (PayloadFunction _ | PayloadCustom _) => true
  | CodeModeExecuteHandler, PayloadCustom _ => true
  | McpHandler, PayloadMcp _ _ _ => true
  | (ToolSearchHandler | PlanHandler | ViewImageHandler | DynamicToolHandler | OtherFunctionHandler), (PayloadFunction _ | PayloadToolSearch _) => true
  | _, _ => false
  end.
(** What a handler can return for a payload ([Output] of its [ToolHandler]; the
    search handler returns nothing for other payloads). *)
Definition can_return (h : HandlerKind) (p : ToolPayload) (o : ToolOutput) : bool :=
  match h, o with
  | UnifiedExecHandler, ExecCommandToolOutput _ => true
  | ApplyPatchHandler, ApplyPatchToolOutput _ => true
  | AgentHandler, AgentToolOutput _ _ => true
  | ToolSearchHandler, OutputToolSearch _ => match p with PayloadToolSearch _ => true | _ => false end
  | McpHandler, OutputMcp _ => true
  | PlanHandler, PlanToolOutput => true
  | ViewImageHandler, ViewImageOutput _ _ => true
  | (ShellHandler | ShellCommandHandler | JsReplHandler | CodeModeExecuteHandler | AgentJobsHandler | DynamicToolHandler | OtherFunctionHandler), FunctionToolOutput _ _ => true
  | _, _ => false
  end.

(** * Responses answer calls *)

(** An output of a kind that a call with this payload can be answered with. *)
Definition fits (p : ToolPayload) (o : ToolOutput) : bool :=
  match p, o with
  | _, AbortedToolOutput _ => true
  | PayloadToolSearch _, OutputToolSearch _ => true
  | PayloadToolSearch _, _ | _, OutputToolSearch _ => false
  | PayloadCustom _, (OutputMcp _ | PlanToolOutput | ViewImageOutput _ _) => false
  | _, _ => true
  end.
(** A search is always sent to the handler of searches. *)
Lemma returned_output_fits h p o :
  matches_kind h p = true → can_return h p o = true → (match p with PayloadToolSearch _ => h = ToolSearchHandler | _ => True end) → fits p o = true.
Proof. destruct h, p, o; cbn; done. Qed.

Definition answered_by_id (i : item) : bool := match i with LocalShellCall _ None _ _ => false | _ => true end.
Section answering.
Context (parse_mcp_tool_name : str → option str → option (str * str)) (parse_search_arguments : Data → str + Data)
  (shell_params : Data → Data) (from_error_text : str → CallToolResult) (mcp_output : CallToolResult → FunctionCallOutputPayload).
Abbreviation recognise := (build_tool_call parse_mcp_tool_name parse_search_arguments shell_params).

Lemma call_of_item i c :
  recognise i = Ok (Some c) → answered_by_id i = true →
  match payload c with
  | PayloadToolSearch _ => ∃ id s e a, i = ToolSearchCall id (Some (call_id c)) s e a
  | PayloadCustom _ => ∃ id s n input, i = CustomToolCall id s (call_id c) n input
  | PayloadLocalShell _ => ∃ id s a, i = LocalShellCall id (Some (call_id c)) s a
  | _ => ∃ id n ns a, i = FunctionCall id n ns a (call_id c)
  end.
Proof.
  destruct i as [| |id [cid|] s a|id n ns a cid|id [cid|] s e a| |id s cid n input| | | | | | |]; cbn; try done.
  - intros [= <-] _. cbn. eauto.
  - intros [= <-] _. cbn. destruct (parse_mcp_tool_name n ns) as [[? ?]|]; eauto.
  - case_bool_decide; [|done]. destruct (parse_search_arguments a); [done|]. intros [= <-] _. cbn. eauto.
  - intros [= <-] _. cbn. eauto.
Qed.
(** A response of the right kind with the id of the call. *)
Definition right_response (c : ToolCall) (r : ResponseInputItem) : bool :=
  match payload c, r with
  | PayloadToolSearch _, InputToolSearchOutput id _ _ _ | PayloadCustom _, InputCustomToolCallOutput id _ _ => bool_decide (id = call_id c)
  | PayloadToolSearch _, _ | PayloadCustom _, _ => false
  | _, (InputFunctionCallOutput id _ | InputMcpToolCallOutput id _) => bool_decide (id = call_id c)
  | _, _ => false
  end.
Lemma right_response_answers i c r :
  recognise i = Ok (Some c) → answered_by_id i = true → right_response c r = true → answers (of_input mcp_output r) i = true.
Proof.
  intros Hc Hi Hr. pose proof (call_of_item i c Hc Hi) as H. unfold right_response in Hr.
  destruct (payload c), r; try done; destruct H as (? & H); repeat destruct H as (? & H); subst i; exact Hr.
Qed.
Lemma fitting_output_is_right c o : fits (payload c) o = true → right_response c (to_response_item from_error_text o (call_id c) (payload c)) = true.
Proof.
  intros Hf. unfold right_response, to_response_item, function_tool_response.
  destruct (payload c), o; cbn in *; try done; by rewrite bool_decide_eq_true_2.
Qed.
Lemma failure_is_right c e : right_response c (failure_response c e) = true.
Proof. unfold right_response, failure_response. destruct (payload c); by apply bool_decide_eq_true_2. Qed.
Lemma aborted_is_right c secs : right_response c (into_response from_error_text (aborted_response c secs)) = true.
Proof. apply fitting_output_is_right. by destruct (payload c). Qed.

End answering.
End calls.
