(* ===== verification/HookOutput.v ===== *)
(** What hooks print: the outputs of [codex-rs/hooks/src/schema.rs], what
    [engine/output_parser.rs] makes of them, and the helpers of
    [events/common.rs] that the events share. Parsing JSON is an interface. *)
From S2P Require Import Prelude RustStr.

(** * Outputs as they are written *)

Record HookUniversalOutputWire : Type := {
  wire_continue : bool; wire_stop_reason : option str; wire_suppress_output : bool; wire_system_message : option str }.
Inductive HookEventName : Type := PreToolUse | PostToolUse | SessionStart | UserPromptSubmit | Stop.
#[export] Instance HookEventName_eq_dec : EqDecision HookEventName.
Proof. solve_decision. Defined.
Inductive PreToolUsePermissionDecisionWire : Type := Allow | Deny | Ask.
Inductive PreToolUseDecisionWire : Type := Approve | Block.
Inductive BlockDecisionWire : Type := BlockDecision.

Section wire.
Context {Value : Type}.
Record PreToolUseHookSpecificOutputWire : Type := {
  pre_hook_event_name : HookEventName;
  permission_decision : option PreToolUsePermissionDecisionWire;
  permission_decision_reason : option str;
  updated_input : option Value;
  pre_additional_context : option str }.
Record PreToolUseCommandOutputWire : Type := {
  pre_universal : HookUniversalOutputWire; pre_decision : option PreToolUseDecisionWire; pre_reason : option str;
  pre_hook_specific_output : option PreToolUseHookSpecificOutputWire }.
Record PostToolUseHookSpecificOutputWire : Type := {
  post_hook_event_name : HookEventName; post_additional_context : option str; updated_mcp_tool_output : option Value }.
Record PostToolUseCommandOutputWire : Type := {
  post_universal : HookUniversalOutputWire; post_decision : option BlockDecisionWire; post_reason : option str;
  post_hook_specific_output : option PostToolUseHookSpecificOutputWire }.
End wire.
Arguments PreToolUseCommandOutputWire : clear implicits.
Arguments PostToolUseCommandOutputWire : clear implicits.
Arguments PreToolUseHookSpecificOutputWire : clear implicits.
Arguments PostToolUseHookSpecificOutputWire : clear implicits.
(** The same fields for the start of a session and for a submitted prompt. *)
Record ContextHookSpecificOutputWire : Type := { ctx_hook_event_name : HookEventName; ctx_additional_context : option str }.
Record SessionStartCommandOutputWire : Type := {
  start_universal : HookUniversalOutputWire; start_hook_specific_output : option ContextHookSpecificOutputWire }.
Record UserPromptSubmitCommandOutputWire : Type := {
  prompt_universal : HookUniversalOutputWire; prompt_decision : option BlockDecisionWire; prompt_reason : option str;
  prompt_hook_specific_output : option ContextHookSpecificOutputWire }.
Record StopCommandOutputWire : Type := {
  stop_universal : HookUniversalOutputWire; stop_decision : option BlockDecisionWire; stop_wire_reason : option str }.

(** [serde_json]: values, and their reading as one of the outputs. *)
Class HookJson : Type := {
  json_value : Type;
  from_str : str → option json_value;
  is_object : json_value → bool;
  session_start_of_value : json_value → option SessionStartCommandOutputWire;
  pre_tool_use_of_value : json_value → option (PreToolUseCommandOutputWire json_value);
  post_tool_use_of_value : json_value → option (PostToolUseCommandOutputWire json_value);
  user_prompt_submit_of_value : json_value → option UserPromptSubmitCommandOutputWire;
  stop_of_value : json_value → option StopCommandOutputWire }.

(** * Outputs as they are understood *)

Record UniversalOutput : Type := {
  continue_processing : bool; stop_reason : option str; suppress_output : bool; system_message : option str }.
Definition universal_from (value : HookUniversalOutputWire) : UniversalOutput :=
  {| continue_processing := wire_continue value; stop_reason := wire_stop_reason value;
     suppress_output := wire_suppress_output value; system_message := wire_system_message value |}.
Record SessionStartOutput : Type := { start_output : UniversalOutput; start_context : option str }.
Record PreToolUseOutput : Type := { pre_output : UniversalOutput; pre_block_reason : option str; pre_invalid_reason : option str }.
Record PostToolUseOutput : Type := {
  post_output : UniversalOutput; post_should_block : bool; post_output_reason : option str;
  post_invalid_block_reason : option str; post_context : option str; post_invalid_reason : option str }.
Record UserPromptSubmitOutput : Type := {
  prompt_output : UniversalOutput; prompt_should_block : bool; prompt_output_reason : option str;
  prompt_invalid_block_reason : option str; prompt_context : option str }.
Record StopOutput : Type := {
  stop_output : UniversalOutput; stop_should_block : bool; stop_output_reason : option str; stop_invalid_block_reason : option str }.

(** [trimmed_reason], and [trimmed_non_empty] of the events. *)
Definition trimmed_reason (reason : str) : option str := match trim reason with [] => None | trimmed => Some trimmed end.
Definition trimmed_non_empty : str → option str := trimmed_reason.
Definition join_text_chunks (chunks : list str) : option str :=
  match chunks with [] => None | _ => Some (join [nl; nl] chunks) end.

Definition invalid_block_message (event_name : string) : str :=
  lit event_name ++ lit " hook returned decision:block without a non-empty reason".
Definition unsupported_pre_tool_use_universal (u : UniversalOutput) : option str :=
  if negb (continue_processing u) then Some (lit "PreToolUse hook returned unsupported continue:false")
  else if is_some (stop_reason u) then Some (lit "PreToolUse hook returned unsupported stopReason")
  else if suppress_output u then Some (lit "PreToolUse hook returned unsupported suppressOutput")
  else None.
Definition unsupported_post_tool_use_universal (u : UniversalOutput) : option str :=
  if suppress_output u then Some (lit "PostToolUse hook returned unsupported suppressOutput") else None.
Definition invalid_pre_tool_use_reason_message : str :=
  lit "PreToolUse hook returned permissionDecision:deny without a non-empty permissionDecisionReason".
Definition unsupported_pre_tool_use_legacy_decision (decision : option PreToolUseDecisionWire) (reason : option str) : option str :=
  match decision with
  | Some Approve => Some (lit "PreToolUse hook returned unsupported decision:approve")
  | Some Block => match reason ≫= trimmed_reason with None => Some (invalid_block_message "PreToolUse") | Some _ => None end
  | None => match reason with Some _ => Some (lit "PreToolUse hook returned reason without decision") | None => None end
  end.

Section parsing.
Context `{HookJson}.

Definition unsupported_post_tool_use_hook_specific_output (o : PostToolUseHookSpecificOutputWire json_value) : option str :=
  if is_some (updated_mcp_tool_output o) then Some (lit "PostToolUse hook returned unsupported updatedMCPToolOutput") else None.
Definition unsupported_pre_tool_use_hook_specific_output (o : PreToolUseHookSpecificOutputWire json_value) : option str :=
  if is_some (updated_input o) then Some (lit "PreToolUse hook returned unsupported updatedInput")
  else if is_some (pre_additional_context o ≫= trimmed_reason) then Some (lit "PreToolUse hook returned unsupported additionalContext")
  else match permission_decision o with
       | Some Allow => Some (lit "PreToolUse hook returned unsupported permissionDecision:allow")
       | Some Ask => Some (lit "PreToolUse hook returned unsupported permissionDecision:ask")
       | Some Deny =>
           match permission_decision_reason o ≫= trimmed_reason with
           | None => Some invalid_pre_tool_use_reason_message
           | Some _ => None
           end
       | None =>
           if is_some (permission_decision_reason o)
           then Some (lit "PreToolUse hook returned permissionDecisionReason without permissionDecision")
           else None
       end.

Definition parse_json {T} (from_value : json_value → option T) (stdout : str) : option T :=
  match trim stdout with
  | [] => None
  | trimmed => value ← from_str trimmed; if is_object value then from_value value else None
  end.

Definition parse_session_start (stdout : str) : option SessionStartOutput :=
  wire ← parse_json session_start_of_value stdout;
  Some {| start_output := universal_from (start_universal wire);
          start_context := start_hook_specific_output wire ≫= ctx_additional_context |}.

Definition use_hook_specific_decision (o : option (PreToolUseHookSpecificOutputWire json_value)) : bool :=
  match o with
  | Some o => is_some (permission_decision o) || is_some (permission_decision_reason o) || is_some (updated_input o) || is_some (pre_additional_context o)
  | None => false
  end.
Definition parse_pre_tool_use (stdout : str) : option PreToolUseOutput :=
  wire ← parse_json pre_tool_use_of_value stdout;
  let universal := universal_from (pre_universal wire) in
  let specific := use_hook_specific_decision (pre_hook_specific_output wire) in
  let invalid_reason :=
    or_else (unsupported_pre_tool_use_universal universal)
      (if specific then pre_hook_specific_output wire ≫= unsupported_pre_tool_use_hook_specific_output
       else unsupported_pre_tool_use_legacy_decision (pre_decision wire) (pre_reason wire)) in
  let block_reason :=
    if is_some invalid_reason then None
    else if specific then
      o ← pre_hook_specific_output wire;
      match permission_decision o with Some Deny => permission_decision_reason o ≫= trimmed_reason | _ => None end
    else match pre_decision wire with Some Block => pre_reason wire ≫= trimmed_reason | _ => None end in
  Some {| pre_output := universal; pre_block_reason := block_reason; pre_invalid_reason := invalid_reason |}.

(** [reason] is missing or blank. *)
Definition no_reason (reason : option str) : bool :=
  match reason with Some reason => match trim reason with [] => true | _ => false end | None => true end.
Definition parse_post_tool_use (stdout : str) : option PostToolUseOutput :=
  wire ← parse_json post_tool_use_of_value stdout;
  let universal := universal_from (post_universal wire) in
  let invalid_reason :=
    or_else (unsupported_post_tool_use_universal universal)
      (post_hook_specific_output wire ≫= unsupported_post_tool_use_hook_specific_output) in
  let should_block := is_some (post_decision wire) in
  let invalid_block_reason :=
    if should_block && no_reason (post_reason wire) then Some (invalid_block_message "PostToolUse")
    else if negb should_block && continue_processing universal && is_some (post_reason wire)
    then Some (lit "PostToolUse hook returned reason without decision")
    else None in
  Some {| post_output := universal;
          post_should_block := should_block && negb (is_some invalid_reason) && negb (is_some invalid_block_reason);
          post_output_reason := post_reason wire; post_invalid_block_reason := invalid_block_reason;
          post_context := post_hook_specific_output wire ≫= post_additional_context;
          post_invalid_reason := invalid_reason |}.

Definition parse_user_prompt_submit (stdout : str) : option UserPromptSubmitOutput :=
  wire ← parse_json user_prompt_submit_of_value stdout;
  let should_block := is_some (prompt_decision wire) in
  let invalid_block_reason :=
    if should_block && no_reason (prompt_reason wire) then Some (invalid_block_message "UserPromptSubmit") else None in
  Some {| prompt_output := universal_from (prompt_universal wire);
          prompt_should_block := should_block && negb (is_some invalid_block_reason);
          prompt_output_reason := prompt_reason wire; prompt_invalid_block_reason := invalid_block_reason;
          prompt_context := prompt_hook_specific_output wire ≫= ctx_additional_context |}.

Definition parse_stop (stdout : str) : option StopOutput :=
  wire ← parse_json stop_of_value stdout;
  let should_block := is_some (stop_decision wire) in
  let invalid_block_reason :=
    if should_block && no_reason (stop_wire_reason wire) then Some (invalid_block_message "Stop") else None in
  Some {| stop_output := universal_from (stop_universal wire);
          stop_should_block := should_block && negb (is_some invalid_block_reason);
          stop_output_reason := stop_wire_reason wire; stop_invalid_block_reason := invalid_block_reason |}.

(** * What the outputs ask for *)

(** The deny decision of an output, and its reason: in the fields of the
    event when one of them is given, else in the older fields. *)
Definition denies (w : PreToolUseCommandOutputWire json_value) (reason : str) : Prop :=
  wire_continue (pre_universal w) = true ∧ wire_stop_reason (pre_universal w) = None ∧ wire_suppress_output (pre_universal w) = false ∧
  ((∃ o, pre_hook_specific_output w = Some o ∧ updated_input o = None ∧ (pre_additional_context o ≫= trimmed_reason) = None ∧
      permission_decision o = Some Deny ∧ (permission_decision_reason o ≫= trimmed_reason) = Some reason)
   ∨ (use_hook_specific_decision (pre_hook_specific_output w) = false ∧
      pre_decision w = Some Block ∧ (pre_reason w ≫= trimmed_reason) = Some reason)).

Lemma block_reason_spec stdout reason :
  (∃ out, parse_pre_tool_use stdout = Some out ∧ pre_invalid_reason out = None ∧ pre_block_reason out = Some reason) ↔
  (∃ w, parse_json pre_tool_use_of_value stdout = Some w ∧ denies w reason).
Proof.
  unfold parse_pre_tool_use, denies. destruct (parse_json _ stdout) as [[[c sr so sm] d r s]|]; cbn; [|split; [by intros (? & [=] & _)|by intros (? & [=] & _)]].
  split.
  - intros (out & [= <-] & Hi & Hb). exists {| pre_universal := {| wire_continue := c; wire_stop_reason := sr; wire_suppress_output := so; wire_system_message := sm |}; pre_decision := d; pre_reason := r; pre_hook_specific_output := s |}.
    split; [done|]. cbn in *. rewrite Hi in Hb. cbn in Hb.
    destruct c, sr, so; cbn in Hi; try done. repeat split; [].
    destruct s as [[e pd pr ui ac]|]; cbn in *.
    + destruct (is_some pd || _ || _ || _) eqn:Hs; cbn in *.
      * left. eexists; split; [done|]. unfold unsupported_pre_tool_use_hook_specific_output in Hi. cbn in *.
        destruct ui; [done|]. destruct (ac ≫= trimmed_reason); [done|]. destruct pd as [[]|]; cbn in *; done.
      * right. destruct d as [[]|]; done.
    + right. destruct d as [[]|]; done.
  - intros (w & [= <-] & Hc & Hr & Hs & Hd). cbn in *. subst c sr so. eexists; split; [done|]. cbn.
    destruct Hd as [(o & -> & Hu & Ha & Hp & Hq)|(Hn & -> & Hq)].
    + destruct o as [e pd pr ui ac]; cbn in *. subst. unfold unsupported_pre_tool_use_hook_specific_output. cbn.
      rewrite Ha, Hq. cbn. done.
    + rewrite Hn. cbn. rewrite Hq. cbn. done.
Qed.
End parsing.
