(* ===== verification/Hooks.v ===== *)
(** Hooks: the commands of the user that run around tools, prompts and turns
    ([codex-rs/hooks/src]: [engine], [events], [registry.rs]) and their callers
    in a session ([core/src/hook_runtime.rs]). Regular expressions, the
    serialization of inputs, time and processes are an interface. *)
From stdpp Require Import pretty.
From S2P Require Import Prelude RustStr Protocol Truncate History HookOutput.

(** * Handlers and runs *)

Record ConfiguredHandler : Type := {
  event_name : HookEventName; matcher : option str; command : str; timeout_sec : N; status_message : option str;
  source_path : str; display_order : Z }.
Definition show_Z (z : Z) : str := lit (pretty z).
Definition event_name_label (h : ConfiguredHandler) : str :=
  match event_name h with
  | PreToolUse => lit "pre-tool-use" | PostToolUse => lit "post-tool-use" | SessionStart => lit "session-start"
  | UserPromptSubmit => lit "user-prompt-submit" | Stop => lit "stop"
  end.
Definition run_id (h : ConfiguredHandler) : str :=
  event_name_label h ++ lit ":" ++ show_Z (display_order h) ++ lit ":" ++ source_path h.

Inductive HookHandlerType : Type := CommandHandlerType | PromptHandlerType | AgentHandlerType.
Inductive HookExecutionMode : Type := Sync | Async.
Inductive HookScope : Type := ThreadScope | TurnScope.
Inductive HookRunStatus : Type := Running | Completed | Failed | Blocked | Stopped.
Inductive HookOutputEntryKind : Type := WarningEntry | StopEntry | FeedbackEntry | ContextEntry | ErrorEntry.
Record HookOutputEntry : Type := { entry_kind : HookOutputEntryKind; entry_text : str }.
Record HookRunSummary : Type := {
  summary_id : str; summary_event : HookEventName; handler_type : HookHandlerType; execution_mode : HookExecutionMode;
  scope : HookScope; summary_source : str; summary_order : Z; status : HookRunStatus; summary_message : option str;
  summary_started_at : Z; summary_completed_at : option Z; summary_duration_ms : option Z; entries : list HookOutputEntry }.
Record HookCompletedEvent : Type := { completed_turn_id : option str; run : HookRunSummary }.
Record CommandRunResult : Type := {
  started_at : Z; completed_at : Z; duration_ms : Z; exit_code : option Z; stdout : str; stderr : str; error : option str }.
Record CommandShell : Type := { shell_program : str; shell_args : list str }.

(** What is written to a hook, by the event. *)
Inductive HookCommandInput : Type :=
| SessionStartCommandInput (session_id : str) (transcript_path : option str) (cwd hook_event_name model permission_mode source : str)
| PreToolUseCommandInput (session_id turn_id : str) (transcript_path : option str)
    (cwd hook_event_name model permission_mode tool_name tool_command tool_use_id : str)
| PostToolUseCommandInput (session_id turn_id : str) (transcript_path : option str)
    (cwd hook_event_name model permission_mode tool_name tool_command tool_response tool_use_id : str)
| UserPromptSubmitCommandInput (session_id turn_id : str) (transcript_path : option str)
    (cwd hook_event_name model permission_mode prompt : str)
| StopCommandInput (session_id turn_id : str) (transcript_path : option str)
    (cwd hook_event_name model permission_mode : str) (stop_hook_active : bool) (last_assistant_message : option str).

(** How the process of a hook ends. *)
Inductive ProcessEnd : Type :=
| SpawnFailed (err : str) | StdinFailed (err : str) | WaitFailed (err : str) | TimedOut
| Exited (code : option Z) (out err : str).
(** A regular expression is invalid or a predicate; [process] is given the
    program, its arguments, its input and its directory, and says how it ends
    with the start, the end and the duration. *)
Class HookEnv : Type := {
  regex_new : str → str + (str → bool);
  input_to_string : HookCommandInput → str + str;
  now : Z;
  default_shell : str;
  process : ConfiguredHandler → str → list str → str → str → ProcessEnd * (Z * Z * Z) }.

Definition entry (k : HookOutputEntryKind) (text : str) : HookOutputEntry := {| entry_kind := k; entry_text := text |}.
Definition scope_for_event (e : HookEventName) : HookScope := match e with SessionStart => ThreadScope | _ => TurnScope end.
Definition is_match_all_matcher (m : str) : bool := match m with [] => true | _ => bool_decide (m = lit "*") end.

Section engine.
Context {HE : HookEnv}.

Definition validate_matcher_pattern (m : str) : str + unit :=
  if is_match_all_matcher m then inr () else match regex_new m with inl err => inl err | inr _ => inr () end.
Definition matches_matcher (m input : option str) : bool :=
  match m with
  | None => true
  | Some m =>
      if is_match_all_matcher m then true
      else match input with
           | Some input => match regex_new m with inr is_match => is_match input | inl _ => false end
           | None => false
           end
  end.
Definition matcher_pattern_for_event (e : HookEventName) (m : option str) : option str :=
  match e with PreToolUse | PostToolUse | SessionStart => m | UserPromptSubmit | Stop => None end.

(** * The dispatcher *)

Definition handler_selected (e : HookEventName) (matcher_input : option str) (h : ConfiguredHandler) : bool :=
  bool_decide (event_name h = e) &&
  match e with
  | PreToolUse | PostToolUse | SessionStart => matches_matcher (matcher h) matcher_input
  | UserPromptSubmit | Stop => true
  end.
Definition select_handlers (handlers : list ConfiguredHandler) (e : HookEventName) (matcher_input : option str) : list ConfiguredHandler :=
  filter (λ h, handler_selected e matcher_input h = true) handlers.
Definition summary (h : ConfiguredHandler) (st : HookRunStatus) (start : Z) (fin duration : option Z) (es : list HookOutputEntry) : HookRunSummary :=
  {| summary_id := run_id h; summary_event := event_name h; handler_type := CommandHandlerType; execution_mode := Sync;
     scope := scope_for_event (event_name h); summary_source := source_path h; summary_order := display_order h; status := st;
     summary_message := status_message h; summary_started_at := start; summary_completed_at := fin;
     summary_duration_ms := duration; entries := es |}.
Definition running_summary (h : ConfiguredHandler) : HookRunSummary := summary h Running now None None [].
Definition completed_summary (h : ConfiguredHandler) (r : CommandRunResult) (st : HookRunStatus) (es : list HookOutputEntry) : HookRunSummary :=
  summary h st (started_at r) (Some (completed_at r)) (Some (duration_ms r)) es.

Definition build_command (shell : CommandShell) (h : ConfiguredHandler) : str * list str :=
  match shell_program shell with
  | [] => (default_shell, [lit "-lc"; command h])
  | program => (program, shell_args shell ++ [command h])
  end.
Definition run_command (shell : CommandShell) (h : ConfiguredHandler) (input_json cwd : str) : CommandRunResult :=
  let '(program, args) := build_command shell h in
  let '(ended, (start, fin, duration)) := process h program args input_json cwd in
  let failed err := {| started_at := start; completed_at := fin; duration_ms := duration; exit_code := None;
                       stdout := []; stderr := []; error := Some err |} in
  match ended with
  | SpawnFailed err | WaitFailed err => failed err
  | StdinFailed err => failed (lit "failed to write hook stdin: " ++ err)
  | TimedOut => failed (lit "hook timed out after " ++ show_N (timeout_sec h) ++ lit "s")
  | Exited code out err =>
      {| started_at := start; completed_at := fin; duration_ms := duration; exit_code := code; stdout := out; stderr := err; error := None |}
  end.

Record ParsedHandler {D : Type} : Type := { completed : HookCompletedEvent; data : D }.
Arguments ParsedHandler : clear implicits.
Definition execute_handlers {D} (shell : CommandShell) (handlers : list ConfiguredHandler) (input_json cwd : str) (turn_id : option str)
    (parse : ConfiguredHandler → CommandRunResult → option str → ParsedHandler D) : list (ParsedHandler D) :=
  let results := map (λ h, run_command shell h input_json cwd) handlers in
  zip_with (λ h r, parse h r turn_id) handlers results.
Definition serialization_failure_hook_events (handlers : list ConfiguredHandler) (turn_id : option str) (error_message : str) : list HookCompletedEvent :=
  map (λ h, {| completed_turn_id := turn_id; run := summary h Failed now (Some now) (Some 0%Z) [entry ErrorEntry error_message] |}) handlers.

(** What [run] does for every event until the results are joined: nothing when
    no handler is selected, and failed runs when the input is not serialized. *)
Definition run_handlers {D} (handlers : list ConfiguredHandler) (shell : CommandShell) (e : HookEventName) (matcher_input : option str)
    (what : string) (input : HookCommandInput) (cwd : str) (turn_id : option str)
    (parse : ConfiguredHandler → CommandRunResult → option str → ParsedHandler D) : list HookCompletedEvent + list (ParsedHandler D) :=
  match select_handlers handlers e matcher_input with
  | [] => inl []
  | matched =>
      match input_to_string input with
      | inl err => inl (serialization_failure_hook_events matched turn_id (lit "failed to serialize " ++ lit what ++ lit " hook input: " ++ err))
      | inr input_json => inr (execute_handlers shell matched input_json cwd turn_id parse)
      end
  end.
Definition hook_events_of {D} (results : list HookCompletedEvent + list (ParsedHandler D)) : list HookCompletedEvent :=
  match results with inl events => events | inr results => map completed results end.
Definition data_of {D} (results : list HookCompletedEvent + list (ParsedHandler D)) : list D :=
  match results with inl _ => [] | inr results => map data results end.
Definition preview (handlers : list ConfiguredHandler) (e : HookEventName) (matcher_input : option str) : list HookRunSummary :=
  map running_summary (select_handlers handlers e matcher_input).
End engine.
Arguments ParsedHandler : clear implicits.

(** * Reading the end of a run *)

(** Status, entries and data of a run. *)
Abbreviation reading D := (HookRunStatus * list HookOutputEntry * D)%type.
Definition completed_run {D} (h : ConfiguredHandler) (r : CommandRunResult) (turn_id : option str) (x : reading D) : ParsedHandler D :=
  let '(st, es, d) := x in {| completed := {| completed_turn_id := turn_id; run := completed_summary h r st es |}; data := d |}.
Definition failed_run {D} (d : D) (text : str) : reading D := (Failed, [entry ErrorEntry text], d).
Definition exited_with (code : Z) : str := lit "hook exited with code " ++ show_Z code.
Definition without_status : str := lit "hook exited without a status code".
(** [trimmed.starts_with('{') || trimmed.starts_with('[')]. *)
Definition looks_like_json (trimmed : str) : bool := starts_with (lit "{") trimmed || starts_with (lit "[") trimmed.
Definition warning (u : UniversalOutput) : list HookOutputEntry :=
  match system_message u with Some text => [entry WarningEntry text] | None => [] end.
(** Entries of an optional text. *)
Definition opt_entry (k : HookOutputEntryKind) (text : option str) : list HookOutputEntry :=
  match text with Some text => [entry k text] | None => [] end.

(** * Events *)

Record HookRequest : Type := {
  session_id : str; turn_id : str; cwd : str; transcript_path : option str; model : str; permission_mode : str }.

(** ** Before a tool *)

Record PreToolUseHandlerData : Type := { pre_data_block : bool; pre_data_reason : option str }.
Record PreToolUseOutcome : Type := { pre_hook_events : list HookCompletedEvent; pre_blocked : bool; pre_outcome_reason : option str }.
Section events.
Context {HJ : HookJson} {HE : HookEnv}.

Definition pre_tool_use_reading (r : CommandRunResult) : reading PreToolUseHandlerData :=
  let passed := {| pre_data_block := false; pre_data_reason := None |} in
  let blocked es reason := (Blocked, es ++ [entry FeedbackEntry reason], {| pre_data_block := true; pre_data_reason := Some reason |}) in
  match error r with
  | Some err => failed_run passed err
  | None =>
      match exit_code r with
      | Some 0%Z =>
          match trim (stdout r) with
          | [] => (Completed, [], passed)
          | trimmed =>
              match parse_pre_tool_use (stdout r) with
              | Some parsed =>
                  let es := warning (pre_output parsed) in
                  match pre_invalid_reason parsed with
                  | Some invalid_reason => (Failed, es ++ [entry ErrorEntry invalid_reason], passed)
                  | None =>
                      match pre_block_reason parsed with
                      | Some reason => blocked es reason
                      | None => (Completed, es, passed)
                      end
                  end
              | None =>
                  if looks_like_json trimmed then failed_run passed (lit "hook returned invalid pre-tool-use JSON output")
                  else (Completed, [], passed)
              end
          end
      | Some 2%Z =>
          match trimmed_non_empty (stderr r) with
          | Some reason => blocked [] reason
          | None => failed_run passed (lit "PreToolUse hook exited with code 2 but did not write a blocking reason to stderr")
          end
      | Some code => failed_run passed (exited_with code)
      | None => failed_run passed without_status
      end
  end.
Definition pre_tool_use_completed (h : ConfiguredHandler) (r : CommandRunResult) (turn_id : option str) : ParsedHandler PreToolUseHandlerData :=
  completed_run h r turn_id (pre_tool_use_reading r).
(** [preview] and [run] take the name of the tool; the input always says [Bash]. *)
Definition pre_tool_use_run (handlers : list ConfiguredHandler) (shell : CommandShell) (q : HookRequest) (tool_name tool_use_id command : str) : PreToolUseOutcome :=
  let input := PreToolUseCommandInput (session_id q) (turn_id q) (transcript_path q) (cwd q) (lit "PreToolUse") (model q)
                 (permission_mode q) (lit "Bash") command tool_use_id in
  let results := run_handlers handlers shell PreToolUse (Some tool_name) "pre tool use" input (cwd q) (Some (turn_id q)) pre_tool_use_completed in
  {| pre_hook_events := hook_events_of results; pre_blocked := existsb pre_data_block (data_of results);
     pre_outcome_reason := find_map pre_data_reason (data_of results) |}.

(** ** After a tool *)

Record PostToolUseHandlerData : Type := {
  post_data_stop : bool; post_data_stop_reason : option str; post_data_contexts : list str; post_data_feedback : list str }.
Record PostToolUseOutcome : Type := {
  post_hook_events : list HookCompletedEvent; post_should_stop : bool; post_stop_reason : option str;
  post_additional_contexts : list str; post_feedback_message : option str }.
Definition post_tool_use_reading (r : CommandRunResult) : reading PostToolUseHandlerData :=
  let with_data contexts feedback :=
    {| post_data_stop := false; post_data_stop_reason := None; post_data_contexts := contexts; post_data_feedback := feedback |} in
  let passed := with_data [] [] in
  match error r with
  | Some err => failed_run passed err
  | None =>
      match exit_code r with
      | Some 0%Z =>
          match trim (stdout r) with
          | [] => (Completed, [], passed)
          | trimmed =>
              match parse_post_tool_use (stdout r) with
              | Some parsed =>
                  let u := post_output parsed in
                  let context := if is_some (post_invalid_reason parsed) || is_some (post_invalid_block_reason parsed) then None else post_context parsed in
                  let contexts := match context with Some c => [c] | None => [] end in
                  let es := warning u ++ opt_entry ContextEntry context in
                  if negb (continue_processing u) then
                    let stop_text := default (lit "PostToolUse hook stopped execution") (stop_reason u) in
                    let model_feedback := default stop_text (post_output_reason parsed ≫= trimmed_non_empty) in
                    (Stopped, es ++ [entry StopEntry stop_text],
                     {| post_data_stop := true; post_data_stop_reason := stop_reason u; post_data_contexts := contexts;
                        post_data_feedback := [model_feedback] |})
                  else match post_invalid_reason parsed with
                  | Some invalid_reason => (Failed, es ++ [entry ErrorEntry invalid_reason], with_data contexts [])
                  | None =>
                      match post_invalid_block_reason parsed with
                      | Some invalid => (Failed, es ++ [entry ErrorEntry invalid], with_data contexts [])
                      | None =>
                          if post_should_block parsed then
                            let reason := post_output_reason parsed in
                            (Blocked, es ++ opt_entry FeedbackEntry reason, with_data contexts (match reason with Some x => [x] | None => [] end))
                          else (Completed, es, with_data contexts [])
                      end
                  end
              | None =>
                  if looks_like_json trimmed then failed_run passed (lit "hook returned invalid post-tool-use JSON output")
                  else (Completed, [], passed)
              end
          end
      | Some 2%Z =>
          match trimmed_non_empty (stderr r) with
          | Some reason => (Completed, [entry FeedbackEntry reason], with_data [] [reason])
          | None => failed_run passed (lit "PostToolUse hook exited with code 2 but did not write feedback to stderr")
          end
      | Some code => failed_run passed (exited_with code)
      | None => failed_run passed without_status
      end
  end.
Definition post_tool_use_completed (h : ConfiguredHandler) (r : CommandRunResult) (turn_id : option str) : ParsedHandler PostToolUseHandlerData :=
  completed_run h r turn_id (post_tool_use_reading r).
Definition post_tool_use_run (handlers : list ConfiguredHandler) (shell : CommandShell) (q : HookRequest)
    (tool_name tool_use_id command tool_response : str) : PostToolUseOutcome :=
  let input := PostToolUseCommandInput (session_id q) (turn_id q) (transcript_path q) (cwd q) (lit "PostToolUse") (model q)
                 (permission_mode q) (lit "Bash") command tool_response tool_use_id in
  let results := run_handlers handlers shell PostToolUse (Some tool_name) "post tool use" input (cwd q) (Some (turn_id q)) post_tool_use_completed in
  {| post_hook_events := hook_events_of results; post_should_stop := existsb post_data_stop (data_of results);
     post_stop_reason := find_map post_data_stop_reason (data_of results);
     post_additional_contexts := concat (map post_data_contexts (data_of results));
     post_feedback_message := join_text_chunks (concat (map post_data_feedback (data_of results))) |}.

(** ** The start of a session and a submitted prompt *)

(** [SessionStartHandlerData] and [UserPromptSubmitHandlerData] have the same fields. *)
Record ContextHandlerData : Type := { ctx_data_stop : bool; ctx_data_stop_reason : option str; ctx_data_contexts : list str }.
Record ContextOutcome : Type := {
  ctx_hook_events : list HookCompletedEvent; ctx_should_stop : bool; ctx_stop_reason : option str; ctx_additional_contexts : list str }.
Definition context_outcome (results : list HookCompletedEvent + list (ParsedHandler ContextHandlerData)) : ContextOutcome :=
  {| ctx_hook_events := hook_events_of results; ctx_should_stop := existsb ctx_data_stop (data_of results);
     ctx_stop_reason := find_map ctx_data_stop_reason (data_of results);
     ctx_additional_contexts := concat (map ctx_data_contexts (data_of results)) |}.
Definition no_stop (contexts : list str) : ContextHandlerData :=
  {| ctx_data_stop := false; ctx_data_stop_reason := None; ctx_data_contexts := contexts |}.
Definition stop_with (reason : option str) (contexts : list str) : ContextHandlerData :=
  {| ctx_data_stop := true; ctx_data_stop_reason := reason; ctx_data_contexts := contexts |}.

Inductive SessionStartSource : Type := Startup | Resume.
Definition source_as_str (s : SessionStartSource) : str := match s with Startup => lit "startup" | Resume => lit "resume" end.
Definition session_start_reading (r : CommandRunResult) : reading ContextHandlerData :=
  match error r with
  | Some err => failed_run (no_stop []) err
  | None =>
      match exit_code r with
      | Some 0%Z =>
          match trim (stdout r) with
          | [] => (Completed, [], no_stop [])
          | trimmed =>
              match parse_session_start (stdout r) with
              | Some parsed =>
                  let u := start_output parsed in
                  let contexts := match start_context parsed with Some c => [c] | None => [] end in
                  let es := warning u ++ opt_entry ContextEntry (start_context parsed) in
                  if negb (continue_processing u) then (Stopped, es ++ opt_entry StopEntry (stop_reason u), stop_with (stop_reason u) contexts)
                  else (Completed, es, no_stop contexts)
              | None =>
                  if looks_like_json trimmed then failed_run (no_stop []) (lit "hook returned invalid session start JSON output")
                  else (Completed, [entry ContextEntry trimmed], no_stop [trimmed])
              end
          end
      | Some code => failed_run (no_stop []) (exited_with code)
      | None => failed_run (no_stop []) without_status
      end
  end.
Definition session_start_completed (h : ConfiguredHandler) (r : CommandRunResult) (turn_id : option str) : ParsedHandler ContextHandlerData :=
  completed_run h r turn_id (session_start_reading r).
Definition session_start_run (handlers : list ConfiguredHandler) (shell : CommandShell) (q : HookRequest) (source : SessionStartSource)
    (turn_id : option str) : ContextOutcome :=
  let input := SessionStartCommandInput (session_id q) (transcript_path q) (cwd q) (lit "SessionStart") (model q)
                 (permission_mode q) (source_as_str source) in
  context_outcome (run_handlers handlers shell SessionStart (Some (source_as_str source)) "session start" input (cwd q) turn_id session_start_completed).

Definition user_prompt_submit_reading (r : CommandRunResult) : reading ContextHandlerData :=
  match error r with
  | Some err => failed_run (no_stop []) err
  | None =>
      match exit_code r with
      | Some 0%Z =>
          match trim (stdout r) with
          | [] => (Completed, [], no_stop [])
          | trimmed =>
              match parse_user_prompt_submit (stdout r) with
              | Some parsed =>
                  let u := prompt_output parsed in
                  let context := if is_some (prompt_invalid_block_reason parsed) then None else prompt_context parsed in
                  let contexts := match context with Some c => [c] | None => [] end in
                  let es := warning u ++ opt_entry ContextEntry context in
                  if negb (continue_processing u) then (Stopped, es ++ opt_entry StopEntry (stop_reason u), stop_with (stop_reason u) contexts)
                  else match prompt_invalid_block_reason parsed with
                  | Some invalid => (Failed, es ++ [entry ErrorEntry invalid], no_stop contexts)
                  | None =>
                      if prompt_should_block parsed then
                        (Blocked, es ++ opt_entry FeedbackEntry (prompt_output_reason parsed), stop_with (prompt_output_reason parsed) contexts)
                      else (Completed, es, no_stop contexts)
                  end
              | None =>
                  if looks_like_json trimmed then failed_run (no_stop []) (lit "hook returned invalid user prompt submit JSON output")
                  else (Completed, [entry ContextEntry trimmed], no_stop [trimmed])
              end
          end
      | Some 2%Z =>
          match trimmed_non_empty (stderr r) with
          | Some reason => (Blocked, [entry FeedbackEntry reason], stop_with (Some reason) [])
          | None => failed_run (no_stop []) (lit "UserPromptSubmit hook exited with code 2 but did not write a blocking reason to stderr")
          end
      | Some code => failed_run (no_stop []) (exited_with code)
      | None => failed_run (no_stop []) without_status
      end
  end.
Definition user_prompt_submit_completed (h : ConfiguredHandler) (r : CommandRunResult) (turn_id : option str) : ParsedHandler ContextHandlerData :=
  completed_run h r turn_id (user_prompt_submit_reading r).
Definition user_prompt_submit_run (handlers : list ConfiguredHandler) (shell : CommandShell) (q : HookRequest) (prompt : str) : ContextOutcome :=
  let input := UserPromptSubmitCommandInput (session_id q) (turn_id q) (transcript_path q) (cwd q) (lit "UserPromptSubmit") (model q)
                 (permission_mode q) prompt in
  context_outcome (run_handlers handlers shell UserPromptSubmit None "user prompt submit" input (cwd q) (Some (turn_id q)) user_prompt_submit_completed).

(** ** The end of a turn *)

Record HookPromptFragment : Type := { fragment_text : str; hook_run_id : str }.
Record StopHandlerData : Type := {
  should_stop : bool; stop_data_reason : option str; should_block : bool; block_reason : option str;
  continuation_fragments : list HookPromptFragment }.
Record StopOutcome : Type := { stop_hook_events : list HookCompletedEvent; stop_aggregate : StopHandlerData }.
Definition stop_passed : StopHandlerData :=
  {| should_stop := false; stop_data_reason := None; should_block := false; block_reason := None; continuation_fragments := [] |}.
Definition stop_reading (run_id : str) (r : CommandRunResult) : reading StopHandlerData :=
  let blocked es reason :=
    (Blocked, es ++ [entry FeedbackEntry reason],
     {| should_stop := false; stop_data_reason := None; should_block := true; block_reason := Some reason;
        continuation_fragments := [{| fragment_text := reason; hook_run_id := run_id |}] |}) in
  match error r with
  | Some err => failed_run stop_passed err
  | None =>
      match exit_code r with
      | Some 0%Z =>
          match trim (stdout r) with
          | [] => (Completed, [], stop_passed)
          | _ =>
              match parse_stop (stdout r) with
              | Some parsed =>
                  let u := stop_output parsed in
                  let es := warning u in
                  if negb (continue_processing u) then
                    (Stopped, es ++ opt_entry StopEntry (stop_reason u),
                     {| should_stop := true; stop_data_reason := stop_reason u; should_block := false; block_reason := None;
                        continuation_fragments := [] |})
                  else match stop_invalid_block_reason parsed with
                  | Some invalid => (Failed, es ++ [entry ErrorEntry invalid], stop_passed)
                  | None =>
                      if stop_should_block parsed then
                        match stop_output_reason parsed ≫= trimmed_non_empty with
                        | Some reason => blocked es reason
                        | None => (Failed, es ++ [entry ErrorEntry (lit "Stop hook returned decision:block without a non-empty reason")], stop_passed)
                        end
                      else (Completed, es, stop_passed)
                  end
              | None => failed_run stop_passed (lit "hook returned invalid stop hook JSON output")
              end
          end
      | Some 2%Z =>
          match trimmed_non_empty (stderr r) with
          | Some reason => blocked [] reason
          | None => failed_run stop_passed (lit "Stop hook exited with code 2 but did not write a continuation prompt to stderr")
          end
      | Some code => failed_run stop_passed (exited_with code)
      | None => failed_run stop_passed without_status
      end
  end.
Definition stop_completed (h : ConfiguredHandler) (r : CommandRunResult) (turn_id : option str) : ParsedHandler StopHandlerData :=
  completed_run h r turn_id (stop_reading (run_id h) r).
Definition aggregate_results (results : list StopHandlerData) : StopHandlerData :=
  let stop := existsb should_stop results in
  let block := negb stop && existsb should_block results in
  {| should_stop := stop; stop_data_reason := find_map stop_data_reason results; should_block := block;
     block_reason := if block then join_text_chunks (omap block_reason results) else None;
     continuation_fragments := if block then concat (map continuation_fragments (filter (λ d, should_block d = true) results)) else [] |}.
Definition stop_run (handlers : list ConfiguredHandler) (shell : CommandShell) (q : HookRequest) (stop_hook_active : bool)
    (last_assistant_message : option str) : StopOutcome :=
  let input := StopCommandInput (session_id q) (turn_id q) (transcript_path q) (cwd q) (lit "Stop") (model q) (permission_mode q)
                 stop_hook_active last_assistant_message in
  let results := run_handlers handlers shell Stop None "stop" input (cwd q) (Some (turn_id q)) stop_completed in
  {| stop_hook_events := hook_events_of results; stop_aggregate := aggregate_results (data_of results) |}.
End events.

(** * In a session *)

(** What the hooks of a session take from the turn, and the events they emit. *)
Record HookContext : Type := {
  conversation_id : str; sub_id : str; turn_cwd : str; hook_transcript_path : option str; model_slug : str; approval_policy : AskForApproval }.
Inductive HookEventMsg : Type := HookStarted (turn_id : option str) (r : HookRunSummary) | HookCompleted (e : HookCompletedEvent).
Definition hook_permission_mode (p : AskForApproval) : str := match p with Never => lit "bypassPermissions" | _ => lit "default" end.
Definition hook_request (c : HookContext) : HookRequest :=
  {| session_id := conversation_id c; turn_id := sub_id c; cwd := turn_cwd c; transcript_path := hook_transcript_path c;
     model := model_slug c; permission_mode := hook_permission_mode (approval_policy c) |}.
Definition emit_hook_started_events (c : HookContext) (runs : list HookRunSummary) : list HookEventMsg :=
  map (HookStarted (Some (sub_id c))) runs.
Definition emit_hook_completed_events (events : list HookCompletedEvent) : list HookEventMsg := map HookCompleted events.
Definition bash_tool : str := lit "Bash".

Section runtime.
Context {Data : Type} {HJ : HookJson} {HE : HookEnv} (handlers : list ConfiguredHandler) (shell : CommandShell) (c : HookContext).

Definition run_pre_tool_use_hooks (tool_use_id command : str) : list HookEventMsg * option str :=
  let o := pre_tool_use_run handlers shell (hook_request c) bash_tool tool_use_id command in
  (emit_hook_started_events c (preview handlers PreToolUse (Some bash_tool)) ++ emit_hook_completed_events (pre_hook_events o),
   if pre_blocked o then pre_outcome_reason o else None).
Definition run_post_tool_use_hooks (tool_use_id command tool_response : str) : list HookEventMsg * PostToolUseOutcome :=
  let o := post_tool_use_run handlers shell (hook_request c) bash_tool tool_use_id command tool_response in
  (emit_hook_started_events c (preview handlers PostToolUse (Some bash_tool)) ++ emit_hook_completed_events (post_hook_events o), o).
Record HookRuntimeOutcome : Type := { runtime_should_stop : bool; runtime_contexts : list str }.
Definition run_context_injecting_hook (preview_runs : list HookRunSummary) (o : ContextOutcome) : list HookEventMsg * HookRuntimeOutcome :=
  (emit_hook_started_events c preview_runs ++ emit_hook_completed_events (ctx_hook_events o),
   {| runtime_should_stop := ctx_should_stop o; runtime_contexts := ctx_additional_contexts o |}).
Definition run_user_prompt_submit_hooks (prompt : str) : list HookEventMsg * HookRuntimeOutcome :=
  run_context_injecting_hook (preview handlers UserPromptSubmit None) (user_prompt_submit_run handlers shell (hook_request c) prompt).
Definition additional_context_messages (contexts : list str) : list (@ResponseItem Data) :=
  map (λ text, Message None (lit "developer") [ContentInputText text] None None) contexts.
(** The items [record_additional_contexts] records. *)
Definition run_pending_session_start_hooks (source : option SessionStartSource) : list HookEventMsg * list (@ResponseItem Data) * bool :=
  match source with
  | None => ([], [], false)
  | Some source =>
      let '(events, o) := run_context_injecting_hook (preview handlers SessionStart (Some (source_as_str source)))
                            (session_start_run handlers shell (hook_request c) source (Some (sub_id c))) in
      (events, additional_context_messages (runtime_contexts o), runtime_should_stop o)
  end.

(** [user_message] is the text of the item when it is a message of the user
    ([parse_turn_item]). *)
Inductive PendingInputRecord : Type :=
| PendingUserMessage (response_item : @ResponseItem Data) (contexts : list str)
| PendingConversationItem (response_item : @ResponseItem Data).
Inductive PendingInputHookDisposition : Type := PendingAccepted (r : PendingInputRecord) | PendingBlocked (contexts : list str).
Definition inspect_pending_input (user_message : @ResponseItem Data → option str) (i : @ResponseItem Data) : list HookEventMsg * PendingInputHookDisposition :=
  match user_message i with
  | Some text =>
      let '(events, o) := run_user_prompt_submit_hooks text in
      (events, if runtime_should_stop o then PendingBlocked (runtime_contexts o) else PendingAccepted (PendingUserMessage i (runtime_contexts o)))
  | None => ([], PendingAccepted (PendingConversationItem i))
  end.
(** The items a record adds to the history. *)
Definition record_pending_input (r : PendingInputRecord) : list (@ResponseItem Data) :=
  match r with
  | PendingUserMessage i contexts => i :: additional_context_messages contexts
  | PendingConversationItem i => [i]
  end.

(** * When a command is blocked *)

(** A run asks to block: with code 2 and a reason on stderr, or with a
    decision that the output parser accepts. *)
Definition asks_to_block (r : CommandRunResult) (reason : str) : Prop :=
  error r = None ∧
  ((exit_code r = Some 2%Z ∧ trimmed_non_empty (stderr r) = Some reason) ∨
   (exit_code r = Some 0%Z ∧ ∃ w, parse_json pre_tool_use_of_value (stdout r) = Some w ∧ denies w reason)).

Lemma parse_json_trimmed {T} (f : json_value → option T) s w : parse_json f s = Some w → trim s ≠ [].
Proof. unfold parse_json. by destruct (trim s). Qed.
Lemma reading_reason r : pre_data_block (pre_tool_use_reading r).2 = is_some (pre_data_reason (pre_tool_use_reading r).2).
Proof.
  unfold pre_tool_use_reading. repeat (case_match; try done).
Qed.
Lemma reading_asks r reason : pre_data_reason (pre_tool_use_reading r).2 = Some reason ↔ asks_to_block r reason.
Proof.
  unfold asks_to_block, pre_tool_use_reading. destruct (error r); [cbn; split; [done|by intros [[=] _]]|].
  destruct (exit_code r) as [[|[|[]|]|]|]; cbn; try (split; [done|by intros (_ & [[[=] _]|[[=] _]])]).
  - (* success *)
    rewrite <- (block_reason_spec (stdout r) reason). split.
    + intros Hp. split; [done|]. right. split; [done|]. destruct (trim (stdout r)) eqn:Ht; [done|].
      destruct (parse_pre_tool_use (stdout r)) as [p|]; [|by destruct (looks_like_json _)].
      exists p. destruct (pre_invalid_reason p); [done|]. destruct (pre_block_reason p); done.
    + intros (_ & [[[=] _]|(_ & p & Hp & Hi & Hb)]).
      assert (Ht : trim (stdout r) ≠ []).
      { unfold parse_pre_tool_use in Hp. apply bind_Some in Hp as (w & Hw & _). by eapply parse_json_trimmed. }
      destruct (trim (stdout r)); [done|]. by rewrite Hp, Hi, Hb.
  - destruct (trimmed_non_empty (stderr r)); cbn; split; try done.
    + intros [= ->]. split; [done|]. by left.
    + by intros (_ & [[_ [= ->]]|[[=] _]]).
    + by intros (_ & [[_ [=]]|[[=] _]]).
Qed.

Lemma find_map_spec {A B} (f : A → option B) l b :
  find_map f l = Some b ↔ ∃ before a after, l = before ++ a :: after ∧ f a = Some b ∧ Forall (λ x, f x = None) before.
Proof.
  induction l as [|x l IH]; cbn; [split; [done|by intros ([|? ?] & ? & ? & [=] & _)]|].
  destruct (f x) as [y|] eqn:Hx.
  - split.
    + intros [= ->]. by exists [], x, l.
    + intros ([|z before] & a & after & [= <- Hl] & Ha & Hb); [congruence|]. apply Forall_cons in Hb as [Hb _]. congruence.
  - rewrite IH. split; intros (before & a & after & Hl & Ha & Hb).
    + exists (x :: before), a, after. subst. split; [done|]. split; [done|]. by constructor.
    + destruct before as [|z before]; injection Hl as <- Hl; [congruence|]. apply Forall_cons in Hb as [_ Hb]. by exists before, a, after.
Qed.
Lemma find_map_is_some {A B} (f : A → option B) l : is_some (find_map f l) = existsb (λ a, is_some (f a)) l.
Proof. induction l as [|a l IH]; cbn; [done|]. by destruct (f a). Qed.
Lemma find_map_map {A B D} (g : A → B) (f : B → option D) l : find_map f (map g l) = find_map (λ a, f (g a)) l.
Proof. induction l as [|a l IH]; cbn; [done|]. by rewrite IH. Qed.
Lemma existsb_map {A B} (g : A → B) (f : B → bool) l : existsb f (map g l) = existsb (λ a, f (g a)) l.
Proof. induction l as [|a l IH]; cbn; [done|]. by rewrite IH. Qed.

(** The data of an event: those of the selected handlers in order, when there
    is an input. *)
Lemma data_of_run {D} (e : HookEventName) m what input dir turn (read : ConfiguredHandler → CommandRunResult → reading D) :
  data_of (run_handlers handlers shell e m what input dir turn (λ h r t, completed_run h r t (read h r))) =
  match input_to_string input with
  | inl _ => []
  | inr json => map (λ h, (read h (run_command shell h json dir)).2) (select_handlers handlers e m)
  end.
Proof.
  unfold run_handlers. destruct (select_handlers handlers e m) as [|h0 hs0]; [by destruct (input_to_string input)|].
  destruct (input_to_string input); [done|]. cbn [data_of]. unfold execute_handlers. generalize (h0 :: hs0). intros hs.
  induction hs as [|h hs IH]; cbn; [done|]. rewrite IH. f_equal. unfold completed_run. by destruct (read h _) as [[? ?] ?].
Qed.

(** The input of a run before a tool. *)
Definition pre_input (tool_use_id command : str) : HookCommandInput :=
  let q := hook_request c in
  PreToolUseCommandInput (session_id q) (turn_id q) (transcript_path q) (cwd q) (lit "PreToolUse") (model q) (permission_mode q)
    (lit "Bash") command tool_use_id.
Lemma pre_blocked_is_reason tool_use_id command :
  (run_pre_tool_use_hooks tool_use_id command).2 = pre_outcome_reason (pre_tool_use_run handlers shell (hook_request c) bash_tool tool_use_id command).
Proof.
  cbn [run_pre_tool_use_hooks snd]. unfold pre_tool_use_run, pre_tool_use_completed. cbn [pre_blocked pre_outcome_reason].
  rewrite data_of_run. destruct (input_to_string _) as [|json]; [done|].
  rewrite existsb_map, (existsb_ext _ _ _ (λ h, reading_reason _)).
  rewrite <- (existsb_map _ (λ d, is_some (pre_data_reason d))), <- find_map_is_some. by destruct (find_map _ _).
Qed.

(** C20. A command is blocked before it runs exactly when the input of the hooks
    could be written and one of the hooks selected for it asks to block: the
    reason is that of the first such hook. A hook that fails to start, is
    killed or times out, exits with another code, prints something that is not
    an accepted decision, or gives no reason never blocks. *)
Theorem command_blocked_spec tool_use_id command reason :
  (run_pre_tool_use_hooks tool_use_id command).2 = Some reason ↔
  ∃ json before h after,
    input_to_string (pre_input tool_use_id command) = inr json ∧
    select_handlers handlers PreToolUse (Some bash_tool) = before ++ h :: after ∧
    asks_to_block (run_command shell h json (turn_cwd c)) reason ∧
    Forall (λ h', ∀ r, ¬ asks_to_block (run_command shell h' json (turn_cwd c)) r) before.
Proof.
  rewrite pre_blocked_is_reason. unfold pre_tool_use_run, pre_tool_use_completed. cbn [pre_outcome_reason]. rewrite data_of_run.
  change (PreToolUseCommandInput _ _ _ _ _ _ _ _ _ _) with (pre_input tool_use_id command).
  destruct (input_to_string _) as [err|json]; [split; [done|by intros (? & ? & ? & ? & [=] & _)]|].
  rewrite find_map_map, find_map_spec. split.
  - intros (before & h & after & Hs & Hr & Hb). exists json, before, h, after. split_and!; [done|done|by apply reading_asks|].
    eapply Forall_impl; [done|]. intros h' Hn r Ha. apply reading_asks in Ha. cbn in Hn. congruence.
  - intros (json' & before & h & after & [= <-] & Hs & Hr & Hb). exists before, h, after. split_and!; [done|by apply reading_asks|].
    eapply Forall_impl; [done|]. intros h' Hn. cbn. destruct (pre_data_reason _) as [r|] eqn:E; [|done]. apply reading_asks in E. by destruct (Hn r).
Qed.

(** * When a turn goes on after its end *)

Definition wants_stop (r : CommandRunResult) : Prop :=
  error r = None ∧ exit_code r = Some 0%Z ∧
  ∃ w, parse_json stop_of_value (stdout r) = Some w ∧ wire_continue (stop_universal w) = false.
Definition wants_continuation (r : CommandRunResult) (reason : str) : Prop :=
  error r = None ∧
  ((exit_code r = Some 2%Z ∧ trimmed_non_empty (stderr r) = Some reason) ∨
   (exit_code r = Some 0%Z ∧ ∃ w, parse_json stop_of_value (stdout r) = Some w ∧ wire_continue (stop_universal w) = true ∧
      stop_decision w = Some BlockDecision ∧ stop_wire_reason w ≫= trimmed_non_empty = Some reason)).

Lemma no_reason_spec reason : no_reason reason = negb (is_some (reason ≫= trimmed_non_empty)).
Proof. destruct reason as [s|]; cbn; [|done]. unfold trimmed_non_empty, trimmed_reason. by destruct (trim s). Qed.
Lemma stop_reading_spec id r :
  let d := (stop_reading id r).2 in
  (should_stop d = true ↔ wants_stop r) ∧ (∀ reason, block_reason d = Some reason ↔ wants_continuation r reason) ∧
  should_block d = is_some (block_reason d) ∧
  continuation_fragments d = match block_reason d with Some reason => [{| fragment_text := reason; hook_run_id := id |}] | None => [] end.
Proof.
  unfold wants_stop, wants_continuation, stop_reading. cbn zeta.
  destruct (error r); [cbn; repeat split; (done || by intros [[=] _])|].
  destruct (exit_code r) as [[|[|[]|]|]|]; cbn; try (repeat split; (done || by intros (_ & [=] & _) || by intros (_ & [[[=] _]|[[=] _]]))).
  - unfold parse_stop. pose proof (λ w, parse_json_trimmed stop_of_value (stdout r) w) as Ht.
    destruct (parse_json _ (stdout r)) as [w|]; cbn.
    2:{ destruct (trim _); cbn; repeat split; (done || by intros (_ & _ & ? & [=] & _) || by intros (_ & [[[=] _]|(_ & ? & [=] & _)])). }
    specialize (Ht w eq_refl). destruct (trim (stdout r)); [done|]. cbn. rewrite no_reason_spec.
    destruct (wire_continue (stop_universal w)) eqn:Hc; cbn;
      [destruct (stop_decision w) as [[]|] eqn:Hd; cbn; [destruct (stop_wire_reason w ≫= trimmed_non_empty) as [reason'|] eqn:Hr; cbn|]|].
    all: repeat split; try done; intros; destruct_and?; destruct_or?; destruct_and?; destruct_or?; repeat destruct_and?; naive_solver congruence.
  - destruct (trimmed_non_empty (stderr r)); cbn; repeat split; naive_solver congruence.
Qed.

(** The runs of the hooks of the end of a turn. *)
Definition stop_input (stop_hook_active : bool) (last_assistant_message : option str) : HookCommandInput :=
  let q := hook_request c in
  StopCommandInput (session_id q) (turn_id q) (transcript_path q) (cwd q) (lit "Stop") (model q) (permission_mode q)
    stop_hook_active last_assistant_message.
Definition stop_runs (active : bool) (message : option str) : list (str * CommandRunResult) :=
  match input_to_string (stop_input active message) with
  | inl _ => []
  | inr json => map (λ h, (run_id h, run_command shell h json (turn_cwd c))) (select_handlers handlers Stop None)
  end.
Lemma stop_data_spec active message :
  stop_aggregate (stop_run handlers shell (hook_request c) active message) =
  aggregate_results (map (λ x, (stop_reading x.1 x.2).2) (stop_runs active message)).
Proof.
  unfold stop_run, stop_runs. cbn [stop_aggregate]. f_equal.
  change (StopCommandInput _ _ _ _ _ _ _ _ _) with (stop_input active message).
  unfold stop_completed. rewrite (data_of_run Stop None _ _ _ _ (λ h r, stop_reading (run_id h) r)).
  destruct (input_to_string _); [done|]. by rewrite map_map.
Qed.
Lemma existsb_Exists {A} (f : A → bool) l : existsb f l = true ↔ Exists (λ a, f a = true) l.
Proof. induction l as [|a l IH]; cbn; [by rewrite Exists_nil|]. by rewrite orb_true_iff, IH, Exists_cons. Qed.
Lemma fragments_of (l : list (str * CommandRunResult)) f :
  f ∈ concat (map continuation_fragments (filter (λ d, should_block d = true) (map (λ x, (stop_reading x.1 x.2).2) l))) ↔
  ∃ r, (hook_run_id f, r) ∈ l ∧ wants_continuation r (fragment_text f).
Proof.
  induction l as [|[id r] l IH]; [cbn; split; [by rewrite elem_of_nil|by intros (? & ?%elem_of_nil & _)]|].
  destruct (stop_reading_spec id r) as (_ & Hw & Hb & Hf). setoid_rewrite elem_of_cons. rewrite map_cons, filter_cons. cbn [fst snd]. rewrite Hb.
  destruct (block_reason (stop_reading id r).2) as [reason|]; cbn [is_some].
  - rewrite decide_True by done. cbn. rewrite Hf. cbn. rewrite elem_of_cons, IH. split.
    + intros [->|(r' & Hl & Hr)]; [exists r; split; [by left|by apply Hw]|exists r'; auto].
    + intros (r' & [[= Hid ->]|Hl] & Hr); [left|right; eauto]. apply Hw in Hr as [= ->]. by destruct f; cbn in *; subst.
  - rewrite decide_False by done. rewrite IH. split; intros (r' & Hl & Hr); [exists r'; auto|].
    destruct Hl as [[= _ ->]|Hl]; [by apply Hw in Hr|eauto].
Qed.

(** At the end of a turn the hooks are asked whether to go on: one that says
    [continue: false] ends the turn, whatever the others say; otherwise the turn
    goes on exactly when a hook gives a reason to, there is then a message for
    the model, and the fragments of that message are the reasons of those hooks
    under the identifiers of their runs. *)
Theorem stop_hooks_spec active message :
  let runs := stop_runs active message in
  let d := stop_aggregate (stop_run handlers shell (hook_request c) active message) in
  (should_stop d = true ↔ Exists (λ x, wants_stop x.2) runs) ∧
  (should_block d = true ↔ ¬ Exists (λ x, wants_stop x.2) runs ∧ Exists (λ x, ∃ reason, wants_continuation x.2 reason) runs) ∧
  (should_block d = is_some (block_reason d)) ∧
  (∀ f, f ∈ continuation_fragments d ↔
     should_block d = true ∧ ∃ r, (hook_run_id f, r) ∈ runs ∧ wants_continuation r (fragment_text f)).
Proof.
  cbn zeta. rewrite stop_data_spec. generalize (stop_runs active message). intros runs. unfold aggregate_results. cbn.
  assert (Hs : existsb should_stop (map (λ x, (stop_reading x.1 x.2).2) runs) = true ↔ Exists (λ x, wants_stop x.2) runs).
  { rewrite existsb_map, existsb_Exists. apply Exists_proper; [|done]. intros x. apply stop_reading_spec. }
  assert (Hb : existsb should_block (map (λ x, (stop_reading x.1 x.2).2) runs) = true ↔ Exists (λ x, ∃ reason, wants_continuation x.2 reason) runs).
  { rewrite existsb_map, existsb_Exists. apply Exists_proper; [|done]. intros x.
    destruct (stop_reading_spec x.1 x.2) as (_ & Hw & -> & _). destruct (block_reason _) as [reason|] eqn:E.
    - split; [intros _; exists reason; by apply Hw|done].
    - split; [done|]. by intros (reason & Hr%Hw). }
  split_and!; [done| | |].
  - rewrite andb_true_iff, negb_true_iff, <- Hs, <- Hb, not_true_iff_false. done.
  - destruct (negb _ && _) eqn:E; [|done]. apply andb_true_iff in E as [_ E]. rewrite existsb_map, existsb_Exists in E.
    unfold join_text_chunks. destruct (omap block_reason _) eqn:Ho; [|done]. exfalso. clear Hs Hb.
    apply Exists_exists in E as (x & Hx & E). destruct (stop_reading_spec x.1 x.2) as (_ & _ & Hb & _). rewrite Hb in E.
    destruct (block_reason (stop_reading x.1 x.2).2) as [reason|] eqn:Hr; [|done].
    apply (elem_of_nil reason). rewrite <- Ho, list_elem_of_omap. exists (stop_reading x.1 x.2).2. split; [|done].
    apply list_elem_of_fmap. by exists x.
  - intros f. destruct (negb _ && _); [|split; [by rewrite elem_of_nil|by intros [[=] _]]]. rewrite fragments_of. naive_solver.
Qed.
End runtime.
