(* ===== verification/HookDiscovery.v ===== *)
(** The hooks of a configuration: [codex-rs/hooks/src/engine/discovery.rs],
    [config.rs] and [ClaudeHooksEngine::new]. The files are those of the folders
    of the enabled layers, from the lowest precedence. *)
From stdpp Require Import pretty.
From S2P Require Import Prelude RustStr RustPath FileSystem AbsolutePath ConfigLayers ConfigLoader HookOutput Hooks.

(** * Files *)

Inductive HookHandlerConfig : Type :=
| CommandConfig (command : str) (timeout_sec : option N) (is_async : bool) (status_message : option str)
| PromptConfig
| AgentConfig.
Record MatcherGroup : Type := { group_matcher : option str; group_hooks : list HookHandlerConfig }.
Record HookEvents : Type := {
  on_pre_tool_use : list MatcherGroup; on_post_tool_use : list MatcherGroup; on_session_start : list MatcherGroup;
  on_user_prompt_submit : list MatcherGroup; on_stop : list MatcherGroup }.
(** Files and their parsing; [debug] writes a string with its escapes. *)
Class HookFiles : Type := {
  hooks_is_file : str → bool;
  parse_hooks_file : str → str + HookEvents;
  debug : str → str;
  on_windows : bool }.

(** * Discovery *)

Record Discovery : Type := { handlers : list ConfiguredHandler; warnings : list str; next_order : Z }.
Definition warn (s : Discovery) (w : str) : Discovery :=
  {| handlers := handlers s; warnings := warnings s ++ [w]; next_order := next_order s |}.

Section discovery.
Context {PE : PathEnv} {FS : ConfigFs} {HE : HookEnv} {HF : HookFiles}.

Definition append_handler (source : str) (e : HookEventName) (m : option str) (s : Discovery) (c : HookHandlerConfig) : Discovery :=
  match c with
  | CommandConfig command timeout_sec is_async status_message =>
      if is_async then warn s (lit "skipping async hook in " ++ source ++ lit ": async hooks are not supported yet")
      else match trim command with
           | [] => warn s (lit "skipping empty hook command in " ++ source)
           | _ =>
               {| handlers := handlers s ++
                    [{| event_name := e; matcher := m; command := command; timeout_sec := N.max (default 600%N timeout_sec) 1;
                        status_message := status_message; source_path := source; display_order := next_order s |}];
                  warnings := warnings s; next_order := (next_order s + 1)%Z |}
           end
  | PromptConfig => warn s (lit "skipping prompt hook in " ++ source ++ lit ": prompt hooks are not supported yet")
  | AgentConfig => warn s (lit "skipping agent hook in " ++ source ++ lit ": agent hooks are not supported yet")
  end.
Definition append_group_handlers (source : str) (e : HookEventName) (m : option str) (cs : list HookHandlerConfig) (s : Discovery) : Discovery :=
  match m with
  | Some pattern =>
      match validate_matcher_pattern pattern with
      | inl err => warn s (lit "invalid matcher " ++ debug pattern ++ lit " in " ++ source ++ lit ": " ++ err)
      | inr _ => foldl (append_handler source e m) s cs
      end
  | None => foldl (append_handler source e m) s cs
  end.
Definition append_matcher_groups (source : str) (s : Discovery) (x : HookEventName * list MatcherGroup) : Discovery :=
  foldl (λ s g, append_group_handlers source x.1 (matcher_pattern_for_event x.1 (group_matcher g)) (group_hooks g) s) s x.2.
Definition events_in_order (h : HookEvents) : list (HookEventName * list MatcherGroup) :=
  [(PreToolUse, on_pre_tool_use h); (PostToolUse, on_post_tool_use h); (SessionStart, on_session_start h);
   (UserPromptSubmit, on_user_prompt_submit h); (Stop, on_stop h)].
Definition discover_layer (s : Discovery) (l : ConfigLayerEntry) : Discovery :=
  match config_folder l with
  | None => s
  | Some folder =>
      match abs_join folder (lit "hooks.json") with
      | Ok source =>
          if hooks_is_file source then
            match read_to_string source with
            | ReadNotFound => warn s (lit "failed to read hooks config " ++ source ++ lit ": No such file or directory (os error 2)")
            | ReadFailed err => warn s (lit "failed to read hooks config " ++ source ++ lit ": " ++ err)
            | ReadOk contents =>
                match parse_hooks_file contents with
                | inl err => warn s (lit "failed to parse hooks config " ++ source ++ lit ": " ++ err)
                | inr events => foldl (append_matcher_groups source) s (events_in_order events)
                end
            end
          else s
      | Err err => warn s (lit "failed to resolve hooks config path from " ++ folder ++ lit ": " ++ err)
      | _ => s
      end
  end.
Definition nothing_found : Discovery := {| handlers := []; warnings := []; next_order := 0 |}.
Definition discover_handlers (stack : option ConfigLayerStack) : Discovery :=
  match stack with
  | None => nothing_found
  | Some stack => foldl discover_layer nothing_found (get_layers stack LowestPrecedenceFirst false)
  end.

Record ClaudeHooksEngine : Type := { engine_handlers : list ConfiguredHandler; engine_warnings : list str; shell : CommandShell }.
Definition engine_new (enabled : bool) (stack : option ConfigLayerStack) (sh : CommandShell) : ClaudeHooksEngine :=
  if negb enabled then {| engine_handlers := []; engine_warnings := []; shell := sh |}
  else if on_windows then
    {| engine_handlers := [];
       engine_warnings := [lit "Disabled `codex_hooks` for this session because `hooks.json` lifecycle hooks are not supported on Windows yet."];
       shell := sh |}
  else
    let discovered := discover_handlers stack in
    {| engine_handlers := handlers discovered; engine_warnings := warnings discovered; shell := sh |}.

(** * What is discovered *)

(** A hook that can run: it is numbered, has a command and a positive timeout, and its
    pattern, when its event has one, is a regular expression or matches all. *)
Definition runnable (h : ConfiguredHandler) : Prop :=
  (1 ≤ timeout_sec h)%N ∧ trim (command h) ≠ [] ∧
  match matcher h with
  | Some m => validate_matcher_pattern m = inr () ∧ match event_name h with UserPromptSubmit | Stop => False | _ => True end
  | None => True
  end.
Definition numbered (s : Discovery) : Prop :=
  map display_order (handlers s) = seqZ 0 (Z.of_nat (length (handlers s))) ∧ next_order s = Z.of_nat (length (handlers s)).
Definition discovery_wf (s : Discovery) : Prop := numbered s ∧ Forall runnable (handlers s).

Lemma warn_wf s w : discovery_wf s → discovery_wf (warn s w).
Proof. done. Qed.
Lemma append_handler_wf source e m s c :
  match m with Some p => validate_matcher_pattern p = inr () ∧ match e with UserPromptSubmit | Stop => False | _ => True end | None => True end →
  discovery_wf s → discovery_wf (append_handler source e m s c).
Proof.
  intros Hm [[Hn Ho] Hr]. destruct c as [cmd t a st| |]; cbn; try by apply warn_wf.
  destruct a; [by apply warn_wf|]. destruct (trim cmd) eqn:Ht; [by apply warn_wf|].
  split; [split|]; cbn.
  - rewrite map_app, length_app, Hn, Ho. cbn. rewrite Nat2Z.inj_add, seqZ_app by lia. cbn. done.
  - rewrite length_app, Ho. cbn. lia.
  - apply Forall_app. split; [done|]. apply Forall_singleton. split; [cbn; lia|]. split; [cbn [command]; by rewrite Ht|]. done.
Qed.
Lemma foldl_wf {A} (f : Discovery → A → Discovery) l s :
  (∀ s x, discovery_wf s → discovery_wf (f s x)) → discovery_wf s → discovery_wf (foldl f s l).
Proof. intros Hf. revert s. induction l as [|x l IH]; intros s Hs; cbn; auto. Qed.

Lemma append_groups_wf source s x : discovery_wf s → discovery_wf (append_matcher_groups source s x).
Proof.
  intros Hs. apply foldl_wf; [|done]. clear s Hs. intros s g Hs. unfold append_group_handlers.
  destruct (matcher_pattern_for_event x.1 (group_matcher g)) as [p|] eqn:Hm; [|apply foldl_wf; [|done]; intros; by apply append_handler_wf].
  destruct (validate_matcher_pattern p) as [|[]] eqn:Hv; [by apply warn_wf|].
  apply foldl_wf; [|done]. intros. apply append_handler_wf; [|done]. split; [done|]. by destruct x.1.
Qed.
Lemma discover_wf stack : discovery_wf (discover_handlers stack).
Proof.
  assert (H0 : discovery_wf nothing_found) by done.
  destruct stack as [stack|]; [|done]. cbn. apply foldl_wf; [|done]. intros s l Hs. unfold discover_layer.
  destruct (config_folder l); [|done]. destruct (abs_join _ _); [|by apply warn_wf|done|done].
  destruct (hooks_is_file _); [|done]. destruct (read_to_string _); [|by apply warn_wf|by apply warn_wf].
  destruct (parse_hooks_file _); [by apply warn_wf|]. apply foldl_wf; [|done]. intros. by apply append_groups_wf.
Qed.

(** ** The identifiers of runs *)

Lemma show_Z_no_colon z : Forall (λ ch, negb (ch =? 58)%N = true) (show_Z z).
Proof.
  assert (H : ∀ p, Forall (λ ch, negb (ch =? 58)%N = true) (show_N (N.pos p))).
  { intros p. eapply Forall_impl; [apply show_N_digits|]. intros ch Hd. cbn in Hd. unfold is_ascii_digit in Hd.
    apply negb_true_iff, N.eqb_neq. intros ->. done. }
  destruct z as [|p|p]; [by repeat constructor|apply H|]. change (show_Z (Z.neg p)) with (45%N :: show_N (N.pos p)). by constructor.
Qed.
Lemma label_no_colon h : Forall (λ ch, negb (ch =? 58)%N = true) (event_name_label h).
Proof. unfold event_name_label. destruct (event_name h); by repeat constructor. Qed.
(** The identifier of a run tells the event, the number and the file of its hook. *)
Lemma run_id_inj h h' : run_id h = run_id h' →
  event_name_label h = event_name_label h' ∧ display_order h = display_order h' ∧ source_path h = source_path h'.
Proof.
  unfold run_id. change (lit ":") with [58%N]. cbn [app]. intros E.
  apply (run_unique (λ ch, negb (ch =? 58)%N)) in E as [-> E]; [|apply label_no_colon|apply label_no_colon|done|done].
  injection E as E. apply (run_unique (λ ch, negb (ch =? 58)%N)) in E as [Ez E]; [|apply show_Z_no_colon|apply show_Z_no_colon|done|done].
  injection E as E. apply lit_inj, (inj pretty) in Ez. done.
Qed.

(** The hooks found in the layers of a configuration, in any state of the
    files: they are numbered from zero in the order they are found, no two have
    the same run identifier, and each can run, with a command that is not
    blank, a timeout of a second at least, and a pattern that is valid when its
    event is matched and absent otherwise. *)
Theorem discovered_hooks_spec stack :
  let hs := handlers (discover_handlers stack) in
  map display_order hs = seqZ 0 (Z.of_nat (length hs)) ∧ NoDup (map run_id hs) ∧ Forall runnable hs.
Proof.
  destruct (discover_wf stack) as [[Hn _] Hr]. cbn zeta. split_and!; [done| |done].
  assert (Hd : NoDup (map display_order (handlers (discover_handlers stack)))) by (rewrite Hn; apply NoDup_seqZ).
  revert Hd. generalize (handlers (discover_handlers stack)) as hs. intros hs. induction hs as [|h hs IH]; cbn; [by constructor|].
  rewrite !NoDup_cons. intros [Hh Hd]. split; [|by apply IH]. intros Hin. apply Hh.
  apply list_elem_of_fmap in Hin as (h' & E & Hin). apply run_id_inj in E as (_ & E & _). apply list_elem_of_fmap. by exists h'.
Qed.

(** A selected hook matches its input: its pattern is absent, matches
    everything, or is a regular expression that matches the text. *)
Lemma selected_pattern stack e input h :
  h ∈ select_handlers (handlers (discover_handlers stack)) e input →
  event_name h = e ∧
  match matcher h with
  | Some m => is_match_all_matcher m = true ∨ ∃ text is_match, input = Some text ∧ regex_new m = inr is_match ∧ is_match text = true
  | None => True
  end.
Proof.
  unfold select_handlers. rewrite list_elem_of_filter. intros [Hs Hin]. destruct (discover_wf stack) as [_ Hr].
  rewrite Forall_forall in Hr. destruct (Hr h Hin) as (_ & _ & Hm). unfold handler_selected in Hs. apply andb_true_iff in Hs as [He Hs].
  apply bool_decide_eq_true in He. split; [done|]. destruct (matcher h) as [m|]; [|done]. destruct Hm as [_ He'].
  rewrite He in He'. assert (Hmm : matches_matcher (Some m) input = true) by (by destruct e).
  unfold matches_matcher in Hmm. destruct (is_match_all_matcher m); [by left|]. right.
  destruct input as [text|]; [|done]. destruct (regex_new m) as [|f]; [done|]. eauto.
Qed.
End discovery.
