(* ===== verification/ToolDispatch.v ===== *)
(** The dispatch of a call to its handler: [codex-rs/core/src/tools/registry.rs]
    and the guard of [router.rs], with what the handlers say of a call before it
    runs ([handlers/shell.rs], [handlers/unified_exec.rs]). What a handler does
    is a parameter; the arguments of calls are parsed by one. Telemetry is left out. *)
From stdpp Require Import gmap.
From S2P Require Import Prelude RustStr RustPath Permissions Protocol Bash CommandSafety Snapshot Shells ShellTool Truncate History ToolCalls HookOutput Hooks.

(** * What handlers say of a call *)

Inductive UnifiedExecShellMode : Type := Direct | ZshFork (shell_zsh_path : str).
Record ExecCommandArgs : Type := { cmd : str; exec_shell : option str; exec_login : option bool; tty : bool }.
(** The tools of a turn. *)
Record TurnTools : Type := {
  user_shell : Shell; allow_login_shell : bool; shell_mode : UnifiedExecShellMode; js_repl_tools_only : bool }.
Inductive ToolCallSource : Type := DirectCall | JsRepl | CodeMode.
#[export] Instance ToolCallSource_eq_dec : EqDecision ToolCallSource.
Proof. solve_decision. Defined.

(** The arguments of the tools that run commands, [shlex::try_join], and the
    parsers of the safety check. *)
Class ToolArgs (Data : Type) : Type := {
  parse_shell_arguments : str → option (list str);
  local_shell_command : Data → list str;
  parse_shell_command_arguments : str → option (str * option bool);
  parse_exec_command_arguments : str → option ExecCommandArgs;
  try_join : list str → option str;
  try_parse_shell : str → option Bash.Tree;
  parse_powershell : str → str → option (list (list str)) }.

Section handlers.
Context {Data CallToolResult : Type} {TA : ToolArgs Data} {PE : PermEnv} {SE : ShellEnv} (turn : TurnTools).
Abbreviation call := (@ToolCall Data).
Abbreviation toolpayload := (@ToolPayload Data).
Abbreviation tooloutput := (@ToolOutput Data CallToolResult).

Definition shlex_join (tokens : list str) : str := default (lit "<command included NUL byte>") (try_join tokens).
Definition shell_payload_command (p : toolpayload) : option str :=
  match p with
  | PayloadFunction arguments => command ← parse_shell_arguments arguments; Some (shlex_join command)
  | PayloadLocalShell params => Some (shlex_join (local_shell_command params))
  | _ => None
  end.
Definition shell_command_payload_command (p : toolpayload) : option str :=
  match p with
  | PayloadFunction arguments => params ← parse_shell_command_arguments arguments; Some params.1
  | _ => None
  end.
Definition get_command (args : ExecCommandArgs) : outcome str (list str) :=
  use_login_shell ← match exec_login args with
                    | Some true => if allow_login_shell turn then Ok true else Err login_disabled
                    | Some false => Ok false
                    | None => Ok (allow_login_shell turn)
                    end;
  match shell_mode turn with
  | Direct =>
      let sh := default (user_shell turn) (get_shell_by_model_provided_path <$> exec_shell args) in
      Ok (derive_exec_args sh (cmd args) use_login_shell)
  | ZshFork path => Ok [path; lit (if use_login_shell : bool then "-lc" else "-c"); cmd args]
  end.
Definition exec_command_name : str := lit "exec_command".

Definition mutating_unless_safe (command : list str) : outcome Empty_set bool :=
  safe ← is_known_safe_command try_parse_shell parse_powershell command; Ok (negb safe).
Definition is_mutating (h : HandlerKind) (c : call) : outcome Empty_set bool :=
  match h with
  | ShellHandler =>
      match payload c with
      | PayloadFunction arguments =>
          match parse_shell_arguments arguments with Some command => mutating_unless_safe command | None => Ok true end
      | PayloadLocalShell params => mutating_unless_safe (local_shell_command params)
      | _ => Ok true
      end
  | ShellCommandHandler =>
      match payload c with
      | PayloadFunction arguments =>
          match parse_shell_command_arguments arguments with
          | Some (command, login) =>
              match resolve_use_login_shell login (allow_login_shell turn) with
              | Ok use_login_shell => mutating_unless_safe (base_command (user_shell turn) command use_login_shell)
              | _ => Ok true
              end
          | None => Ok true
          end
      | _ => Ok true
      end
  | UnifiedExecHandler =>
      match payload c with
      | PayloadFunction arguments =>
          match parse_exec_command_arguments arguments with
          | Some args => match get_command args with Ok command => mutating_unless_safe command | _ => Ok true end
          | None => Ok true
          end
      | _ => Ok true
      end
  | ApplyPatchHandler | DynamicToolHandler => Ok true
  | _ => Ok false
  end.
Definition pre_tool_use_payload (h : HandlerKind) (c : call) : option str :=
  match h with
  | ShellHandler => shell_payload_command (payload c)
  | ShellCommandHandler => shell_command_payload_command (payload c)
  | UnifiedExecHandler =>
      if bool_decide (tool_name c = exec_command_name) then
        match payload c with PayloadFunction arguments => cmd <$> parse_exec_command_arguments arguments | _ => None end
      else None
  | _ => None
  end.
(** [response] is the [post_tool_use_response] of the output. *)
Definition post_tool_use_payload (response : tooloutput → option str) (h : HandlerKind) (p : toolpayload) (o : tooloutput) : option (str * str) :=
  match h with
  | ShellHandler => r ← response o; command ← shell_payload_command p; Some (command, r)
  | ShellCommandHandler => r ← response o; command ← shell_command_payload_command p; Some (command, r)
  | UnifiedExecHandler =>
      match p with
      | PayloadFunction arguments =>
          args ← parse_exec_command_arguments arguments; if tty args then None else r ← response o; Some (cmd args, r)
      | _ => None
      end
  | _ => None
  end.
End handlers.

(** * Hooks after a tool (deprecated) *)

Inductive HookResult : Type := Success | FailedContinue (err : str) | FailedAbort (err : str).
Definition should_abort_operation (r : HookResult) : bool := match r with FailedAbort _ => true | _ => false end.
Inductive HookToolKind : Type := KindFunction | KindCustom | KindLocalShell | KindMcp.
Inductive HookToolInput {Data : Type} : Type :=
| HookFunction (arguments : str) | HookCustom (input : str) | HookLocalShell (params : Data) | HookMcp (mcp_server tool arguments : str).
Arguments HookToolInput : clear implicits.
(** Without the duration and the sandbox of the call. *)
Record HookEventAfterToolUse {Data : Type} : Type := {
  after_turn_id : str; after_call_id : str; after_tool_name : str; tool_kind : HookToolKind; tool_input : HookToolInput Data;
  executed : bool; after_success : bool; mutating : bool; output_preview : str }.
Arguments HookEventAfterToolUse : clear implicits.
Record Hook {Data : Type} : Type := { hook_name : str; func : HookEventAfterToolUse Data → HookResult }.
Arguments Hook : clear implicits.
(** [Hooks::dispatch] on this event. *)
Fixpoint dispatch_hooks {Data} (hooks : list (Hook Data)) (e : HookEventAfterToolUse Data) : list (str * HookResult) :=
  match hooks with
  | [] => []
  | h :: hooks' =>
      let r := func h e in
      (hook_name h, r) :: (if should_abort_operation r then [] else dispatch_hooks hooks' e)
  end.
(** [search_text] writes the arguments of a search as JSON. *)
Definition hook_tool_input {Data} (search_text : Data → str) (p : @ToolPayload Data) : HookToolInput Data :=
  match p with
  | PayloadFunction arguments => HookFunction arguments
  | PayloadToolSearch search => HookFunction (search_text search)
  | PayloadCustom input => HookCustom input
  | PayloadLocalShell params => HookLocalShell params
  | PayloadMcp mcp_server tool raw_arguments => HookMcp mcp_server tool raw_arguments
  end.
Definition hook_tool_kind {Data} (i : HookToolInput Data) : HookToolKind :=
  match i with HookFunction _ => KindFunction | HookCustom _ => KindCustom | HookLocalShell _ => KindLocalShell | HookMcp _ _ _ => KindMcp end.
Fixpoint hook_abort_error (outcomes : list (str * HookResult)) : option FunctionCallError :=
  match outcomes with
  | [] => None
  | (name, FailedAbort err) :: _ => Some (Fatal (lit "after_tool_use hook '" ++ name ++ lit "' failed and aborted operation: " ++ err))
  | _ :: rest => hook_abort_error rest
  end.

(** * Dispatch *)

Definition tool_handler_key (tool_name : str) (namespace : option str) : str :=
  match namespace with Some namespace => namespace ++ lit ":" ++ tool_name | None => tool_name end.
Definition unsupported_tool_call_message {Data} (p : @ToolPayload Data) (tool_name : str) (namespace : option str) : str :=
  (if is_custom p then lit "unsupported custom tool call: " else lit "unsupported call: ") ++ tool_handler_key tool_name namespace.
Definition post_hook_stopped : str := lit "PostToolUse hook stopped execution".

(** What a dispatch does, in order. *)
Inductive DispatchEvent {Data : Type} : Type :=
| ToolCallCounted
| PreHooksRan (events : list HookEventMsg)
| GateAwaited
| HandlerRan (h : HandlerKind) (c : @ToolCall Data)
| PostHooksRan (events : list HookEventMsg)
| AfterToolUse (e : HookEventAfterToolUse Data)
| ContextsRecorded (items : list (@ResponseItem Data)).
Arguments DispatchEvent : clear implicits.

(** The hooks of the session, and the code the dispatch calls: the handlers, on
    a state of their own, and the texts of outputs. *)
Class Dispatcher (Data CallToolResult S : Type) : Type := {
  hook_handlers : list ConfiguredHandler;
  hook_shell : CommandShell;
  hook_context : HookContext;
  after_tool_use : list (Hook Data);
  search_text : Data → str;
  mcp_success : CallToolResult → bool;
  log_preview : @ToolOutput Data CallToolResult → str;
  post_tool_use_response : @ToolOutput Data CallToolResult → option str;
  handle : HandlerKind → @ToolCall Data → S → S * (FunctionCallError + @ToolOutput Data CallToolResult) }.

Section dispatch.
Context {Data CallToolResult S : Type} {TA : ToolArgs Data} {PE : PermEnv} {SE : ShellEnv} {HJ : HookJson} {HE : HookEnv}
  {DP : Dispatcher Data CallToolResult S} (turn : TurnTools) (registry : gmap str HandlerKind).
Abbreviation call := (@ToolCall Data).
Abbreviation anyresult := (@AnyToolResult Data CallToolResult).
Abbreviation events := (list (DispatchEvent Data)).

Definition handle_any (h : HandlerKind) (c : call) (s : S) : S * (FunctionCallError + anyresult) :=
  let '(s', r) := handle h c s in
  (s', match r with inl e => inl e | inr o => inr {| result_call_id := call_id c; result_payload := payload c; result := o |} end).

Definition dispatch_after_tool_use_hook (c : call) (preview : str) (success mutates : bool) : events * option FunctionCallError :=
  let input := hook_tool_input search_text (payload c) in
  let e := {| after_turn_id := sub_id hook_context; after_call_id := call_id c; after_tool_name := tool_name c;
              tool_kind := hook_tool_kind input; tool_input := input; executed := true; after_success := success;
              mutating := mutates; output_preview := preview |} in
  ([AfterToolUse e], hook_abort_error (dispatch_hooks after_tool_use e)).

(** The text that takes the place of the output. *)
Definition replacement_text (o : PostToolUseOutcome) : option str :=
  if post_should_stop o then
    Some (default post_hook_stopped (or_else (post_feedback_message o) (post_stop_reason o)))
  else post_feedback_message o.
Definition after_post_hooks (o : PostToolUseOutcome) (r : anyresult) : anyresult :=
  match replacement_text o with
  | Some text => {| result_call_id := result_call_id r; result_payload := result_payload r; result := text_output text None |}
  | None => r
  end.

(** From the guards on: the handler runs, then the hooks after it. *)
Definition run_handler (h : HandlerKind) (mutates : bool) (c : call) (s : S) : events * S * (FunctionCallError + anyresult) :=
  let '(s', r) := handle_any h c s in
  let '(preview, success) :=
    match r with inr r => (log_preview (result r), success_for_logging mcp_success (result r)) | inl e => (call_error_text e, false) end in
  let post :=
    match r with
    | inr r =>
        if success then
          x ← post_tool_use_payload post_tool_use_response h (result_payload r) (result r);
          Some (run_post_tool_use_hooks hook_handlers hook_shell hook_context (call_id c) x.1 x.2)
        else None
    | inl _ => None
    end in
  let '(after, abort) := dispatch_after_tool_use_hook c preview success mutates in
  let ran := (if mutates then [GateAwaited] else []) ++ [HandlerRan h c]
             ++ (match post with Some (evs, _) => [PostHooksRan evs] | None => [] end) ++ after in
  match abort with
  | Some err => (ran, s', inl err)
  | None =>
      match post with
      | Some (_, o) =>
          (ran ++ [ContextsRecorded (additional_context_messages (post_additional_contexts o))], s',
           match r with inr r => inr (after_post_hooks o r) | inl e => inl e end)
      | None => (ran, s', r)
      end
  end.
Definition blocked_message (reason command : str) : str :=
  lit "Command blocked by PreToolUse hook: " ++ reason ++ lit ". Command: " ++ command.
Definition dispatch_any (c : call) (s : S) : outcome Empty_set (events * S * (FunctionCallError + anyresult)) :=
  match registry !! tool_handler_key (tool_name c) (tool_namespace c) with
  | None => Ok ([ToolCallCounted], s, inl (RespondToModel (unsupported_tool_call_message (payload c) (tool_name c) (tool_namespace c))))
  | Some h =>
      if negb (matches_kind h (payload c)) then
        Ok ([ToolCallCounted], s, inl (Fatal (lit "tool " ++ tool_name c ++ lit " invoked with incompatible payload")))
      else
        let pre := command ← pre_tool_use_payload h c;
                   Some (command, run_pre_tool_use_hooks hook_handlers hook_shell hook_context (call_id c) command) in
        let before := ToolCallCounted :: (match pre with Some (_, (evs, _)) => [PreHooksRan evs] | None => [] end) in
        match pre with
        | Some (command, (_, Some reason)) => Ok (before, s, inl (RespondToModel (blocked_message reason command)))
        | _ =>
            mutates ← is_mutating turn h c;
            let '(ran, s', r) := run_handler h mutates c s in
            Ok (before ++ ran, s', r)
        end
  end.
Definition direct_calls_disabled : str := lit "direct tool calls are disabled; use js_repl and codex.tool(...) instead".
Definition dispatch_tool_call (c : call) (source : ToolCallSource) (s : S) : outcome Empty_set (events * S * (FunctionCallError + anyresult)) :=
  if bool_decide (source = DirectCall) && js_repl_tools_only turn
     && negb (bool_decide (tool_name c = lit "js_repl") || bool_decide (tool_name c = lit "js_repl_reset"))
  then Ok ([], s, inl (RespondToModel direct_calls_disabled))
  else dispatch_any c s.
End dispatch.

(** * What a dispatch does *)

Section spec.
Context {Data CallToolResult S : Type} {TA : ToolArgs Data} {PE : PermEnv} {SE : ShellEnv} {HJ : HookJson} {HE : HookEnv}
  {DP : Dispatcher Data CallToolResult S} (turn : TurnTools) (registry : gmap str HandlerKind).
Abbreviation call := (@ToolCall Data).

Definition handler_calls (l : list (DispatchEvent Data)) : list (HandlerKind * call) :=
  omap (λ e, match e with HandlerRan h c => Some (h, c) | _ => None end) l.
Definition passed_hooks (h : HandlerKind) (c : call) : Prop :=
  ∀ command, pre_tool_use_payload h c = Some command →
    (run_pre_tool_use_hooks hook_handlers hook_shell hook_context (call_id c) command).2 = None.
Definition runs_only_js_repl (c : call) : Prop := tool_name c = lit "js_repl" ∨ tool_name c = lit "js_repl_reset".

Lemma mutating_unless_safe_total command : ∃ b, mutating_unless_safe command = Ok b.
Proof.
  unfold mutating_unless_safe. destruct (is_known_safe_command_total try_parse_shell parse_powershell command) as [b ->]. by eexists.
Qed.
Lemma is_mutating_total h (c : call) : ∃ b, is_mutating turn h c = Ok b.
Proof.
  pose proof mutating_unless_safe_total. destruct h; cbn; eauto; destruct (payload c); eauto.
  - destruct (parse_shell_arguments _); eauto.
  - destruct (parse_shell_command_arguments _) as [[? ?]|]; eauto. destruct (resolve_use_login_shell _ _); eauto.
  - destruct (parse_exec_command_arguments _); eauto. destruct (get_command _ _); eauto.
Qed.

(** The events after the guards: the gate, the handler once, then no other handler. *)
Lemma run_handler_spec h mutates (c : call) s :
  ∃ after r, run_handler h mutates c s = ((if mutates then [GateAwaited] else []) ++ HandlerRan h c :: after, (handle h c s).1, r)
    ∧ handler_calls after = [].
Proof.
  unfold run_handler, handle_any. destruct (handle h c s) as [s' out]. cbn [fst].
  set (r := match out with inl e => inl e | inr o => inr _ end). clearbody r.
  destruct (match r with inl e => _ | inr r0 => _ end) as [preview success].
  set (post := match r with inl _ => None | inr r0 => _ end). clearbody post.
  cbn [dispatch_after_tool_use_hook]. destruct (hook_abort_error _), post as [[evs o]|]; cbn;
    rewrite <- ?app_assoc; cbn; (eexists _, _; split; [reflexivity|done]).
Qed.

(** One handler runs, once, under these guards. *)
Definition one_run (h : HandlerKind) (c : call) (s : S) (l : list (DispatchEvent Data)) (s' : S) : Prop :=
  ∃ before after, l = before ++ HandlerRan h c :: after ∧ handler_calls before = [] ∧ handler_calls after = [] ∧
    s' = (handle h c s).1 ∧ (is_mutating turn h c = Ok true → GateAwaited ∈ before).
Lemma guarded_run h (c : call) s before : handler_calls before = [] →
  ∃ l s' r, (mutates ← is_mutating turn h c; let '(ran, s', r) := run_handler h mutates c s in Ok (before ++ ran, s', r)) = Ok (l, s', r)
    ∧ one_run h c s l s'.
Proof.
  intros Hb. destruct (is_mutating_total h c) as [m Hm]. rewrite Hm. run_bind.
  destruct (run_handler_spec h m c s) as (after & r & -> & Ha). eexists _, _, _. split; [reflexivity|].
  exists (before ++ if m then [GateAwaited] else []), after. rewrite <- app_assoc. split_and!; try done.
  - unfold handler_calls in *. rewrite omap_app, Hb. by destruct m.
  - rewrite Hm. intros [= ->]. set_solver.
Qed.

Definition refused (s : S) (l : list (DispatchEvent Data)) (s' : S) (r : FunctionCallError + @AnyToolResult Data CallToolResult) : Prop :=
  handler_calls l = [] ∧ s' = s ∧ ∃ e, r = inl e.
Definition ran_guarded (c : call) (source : ToolCallSource) (s : S) (l : list (DispatchEvent Data)) (s' : S) : Prop :=
  ∃ h, one_run h c s l s' ∧
    registry !! tool_handler_key (tool_name c) (tool_namespace c) = Some h ∧ matches_kind h (payload c) = true ∧ passed_hooks h c ∧
    (source = DirectCall ∧ js_repl_tools_only turn = true → runs_only_js_repl c).

(** C13. Whatever the tools, the hooks and the handlers are, a call ends in one of
    two ways. It is refused: no handler runs, nothing changes, and the caller
    gets an error. Or exactly one handler runs, once: the one registered under
    the name of the call, for a payload of a kind it takes, after the hooks were
    shown its command and none asked to block it, after the gate of the turn was
    awaited when the call may change something, and not for another tool than
    the REPL when direct calls are disabled. *)
Theorem handler_runs_guarded (c : call) source s :
  ∃ l s' r, dispatch_tool_call turn registry c source s = Ok (l, s', r) ∧
    (refused s l s' r ∨ ran_guarded c source s l s').
Proof.
  unfold dispatch_tool_call. destruct (bool_decide (source = DirectCall) && _ && _) eqn:Hd.
  { eexists _, _, _. split; [reflexivity|]. left. unfold refused. eauto. }
  assert (Hj : source = DirectCall ∧ js_repl_tools_only turn = true → runs_only_js_repl c).
  { intros [-> Hj]. rewrite Hj in Hd. cbn in Hd. apply negb_false_iff, orb_true_iff in Hd.
    unfold runs_only_js_repl. destruct Hd as [Hd|Hd]; apply bool_decide_eq_true in Hd; auto. }
  unfold dispatch_any. destruct (registry !! _) as [h|] eqn:Hh; [|eexists _, _, _; split; [reflexivity|]; left; unfold refused; eauto].
  destruct (matches_kind h (payload c)) eqn:Hk; cbn [negb]; [|eexists _, _, _; split; [reflexivity|]; left; unfold refused; eauto].
  assert (Hrun : ∀ before, handler_calls before = [] → passed_hooks h c →
    ∃ l s' r, (mutates ← is_mutating turn h c; let '(ran, s', r) := run_handler h mutates c s in Ok (before ++ ran, s', r)) = Ok (l, s', r)
      ∧ (refused s l s' r ∨ ran_guarded c source s l s')).
  { intros before Hb Hp. destruct (guarded_run h c s before Hb) as (l & s' & r & E & Hr). exists l, s', r. split; [exact E|].
    right. by exists h. }
  unfold passed_hooks in Hrun. destruct (pre_tool_use_payload h c) as [command|]; cbn [mbind option_bind]; [|by apply Hrun].
  destruct (run_pre_tool_use_hooks _ _ _ _ command) as [evs [reason|]] eqn:E.
  - eexists _, _, _. split; [reflexivity|]. left. unfold refused. eauto.
  - apply Hrun; [done|]. intros command' [= <-]. by rewrite E.
Qed.

(** ** Responses *)

(** Handlers return an output of their type. *)
Definition handlers_return : Prop := ∀ h (c : call) s o,
  matches_kind h (payload c) = true → (handle h c s).2 = inr o → can_return h (payload c) o = true.
(** Searches are handled by the search handler. *)
Definition searches_handled : Prop := ∀ h, registry !! lit "tool_search" = Some h → h = ToolSearchHandler.

Lemma post_payload_text h (p : @ToolPayload Data) (o : @ToolOutput Data CallToolResult) x text s :
  post_tool_use_payload post_tool_use_response h p o = Some x → fits p (text_output (CallToolResult := CallToolResult) text s) = true.
Proof.
  unfold post_tool_use_payload. destruct h; try done; destruct p; try done; cbn; by destruct (post_tool_use_response o).
Qed.
Lemma run_handler_fits h mutates (c : call) s l s' r :
  handlers_return → matches_kind h (payload c) = true → (match payload c with PayloadToolSearch _ => h = ToolSearchHandler | _ => True end) →
  run_handler h mutates c s = (l, s', inr r) → result_call_id r = call_id c ∧ result_payload r = payload c ∧ fits (payload c) (result r) = true.
Proof.
  intros Hret Hk Hsearch. unfold run_handler, handle_any. destruct (handle h c s) as [s1 out] eqn:Hh.
  destruct out as [e|o].
  - cbn. destruct (hook_abort_error _); [by intros [=]|]. by intros [=].
  - assert (Hf : fits (payload c) o = true) by (eapply returned_output_fits; [done| |done]; eapply Hret; [done|by rewrite Hh]).
    cbn [result result_payload]. destruct (success_for_logging mcp_success o).
    + destruct (post_tool_use_payload post_tool_use_response h (payload c) o) as [x|] eqn:Hx; cbn;
        (destruct (hook_abort_error _); [by intros [=]|]); intros [= <- <- <-]; [|done].
      unfold after_post_hooks. destruct (replacement_text _); [|done]. cbn. split; [done|]. split; [done|]. by eapply post_payload_text.
    + cbn. destruct (hook_abort_error _); [by intros [=]|]. by intros [= <- <- <-].
Qed.
Lemma dispatch_result_fits (c : call) source s l s' r :
  handlers_return → searches_handled →
  (match payload c with PayloadToolSearch _ => tool_handler_key (tool_name c) (tool_namespace c) = lit "tool_search" | _ => True end) →
  dispatch_tool_call turn registry c source s = Ok (l, s', inr r) →
  result_call_id r = call_id c ∧ result_payload r = payload c ∧ fits (payload c) (result r) = true.
Proof.
  intros Hret Hs Hc. unfold dispatch_tool_call. destruct (_ && _ && _); [by intros [=]|]. unfold dispatch_any.
  destruct (registry !! _) as [h|] eqn:Hh; [|by intros [=]]. destruct (matches_kind h (payload c)) eqn:Hk; cbn [negb]; [|by intros [=]].
  assert (Hsearch : match payload c with PayloadToolSearch _ => h = ToolSearchHandler | _ => True end).
  { destruct (payload c); try done. apply Hs. by rewrite <- Hc. }
  assert (Hrun : ∀ before, (mutates ← is_mutating turn h c; let '(ran, s', r) := run_handler h mutates c s in Ok (before ++ ran, s', r)) = Ok (l, s', inr r) →
    result_call_id r = call_id c ∧ result_payload r = payload c ∧ fits (payload c) (result r) = true).
  { intros before. destruct (is_mutating_total h c) as [m ->]. run_bind. destruct (run_handler h m c s) as [[ran s1] r1] eqn:E.
    intros [= _ <- ->]. by eapply run_handler_fits. }
  destruct (pre_tool_use_payload h c) as [command|]; cbn [mbind option_bind]; [|by apply Hrun].
  destruct (run_pre_tool_use_hooks _ _ _ _ command) as [evs [reason|]]; [by intros [=]|by apply Hrun].
Qed.
End spec.
