(* ===== verification/Sampling.v ===== *)
(** A request to the model: the items of its stream, the calls of tools they
    start and the outputs that are recorded ([codex-rs/core/src/stream_events_utils.rs],
    [try_run_sampling_request], [drain_in_flight] and the retries of
    [run_sampling_request] in [codex.rs]). Calls run while the stream is read; a
    step is an event of the stream, the end of a call, or the recording of one
    output. How a call can end is an interface, which ToolDispatch implements.
    Text deltas, turn items and telemetry are left out. *)
From stdpp Require Import gmap relations.
From S2P Require Import Prelude RustStr Permissions Truncate History ContextManager StreamText InlineTag TaggedLine Shells ToolCalls HookOutput Hooks ToolDispatch.

(** * Errors *)

(** [CodexErr]: the payloads that the loop does not look at are a text. *)
Inductive CodexErr : Type :=
| TurnAborted | StreamErr (message : str) (requested_delay : option N) | ContextWindowExceeded | ThreadNotFound (id : str)
| AgentLimitReached (max_threads : N) | SessionConfiguredNotFirstEvent | Timeout | Spawn | Interrupted
| UnexpectedStatus (status : N) (response_body : str) | InvalidRequest (message : str) | InvalidImageRequest
| UsageLimitReached (message : str) | ServerOverloaded | ResponseStreamFailed (message : str) | ConnectionFailed (message : str)
| QuotaExceeded | UsageNotIncluded | InternalServerError | RetryLimit (message : str) | InternalAgentDied
| SandboxError (message : str) | LandlockSandboxExecutableNotProvided | UnsupportedOperation (message : str)
| RefreshTokenFailed (message : str) | FatalErr (message : str) | IoErr (message : str) | JsonErr (message : str)
| LandlockRuleset (message : str) | LandlockPathFd (message : str) | TokioJoin (message : str) | EnvVar (message : str).
Definition is_retryable (e : CodexErr) : bool :=
  match e with
  | StreamErr _ _ | Timeout | UnexpectedStatus _ _ | ResponseStreamFailed _ | ConnectionFailed _ | InternalServerError
  | InternalAgentDied | IoErr _ | JsonErr _ | TokioJoin _ => true
  | _ => false
  end.
Record SamplingRequestResult : Type := { result_needs_follow_up : bool; result_last_agent_message : option str }.
Inductive MailboxDeliveryPhase : Type := CurrentTurn | NextTurn.

(** * How calls end *)

Class ToolRunner (Data CallToolResult : Type) : Type := {
  parse_mcp_tool_name : str → option str → option (str * str);
  parse_search_arguments : Data → str + Data;
  shell_params : Data → Data;
  from_error_text : str → CallToolResult;
  mcp_output : CallToolResult → FunctionCallOutputPayload;
  (** The call can end so, and record these texts for the model while it runs. *)
  may_end : @ToolCall Data → FunctionCallError + @AnyToolResult Data CallToolResult → Prop;
  may_record : @ToolCall Data → list str → Prop }.
Abbreviation recognise := (build_tool_call parse_mcp_tool_name parse_search_arguments shell_params).
(** A call ends with a result of its own, of a kind that answers it. *)
Class ToolRunnerLaws {Data CallToolResult} (R : ToolRunner Data CallToolResult) : Prop :=
  ends_with_own_result i c r :
    recognise i = Ok (Some c) → may_end c (inr r) →
    result_call_id r = call_id c ∧ result_payload r = payload c ∧ fits (payload c) (result r) = true.

(** * Items of the stream *)

Section items.
Context {Data : Type}.
Abbreviation item := (@ResponseItem Data).
(** The texts of an assistant's message. *)
Definition raw_assistant_output_text_from_item (i : item) : option str :=
  match i with
  | Message _ role content _ _ =>
      if bool_decide (role = lit "assistant") then Some (concat (omap (λ c, match c with ContentOutputText text => Some text | _ => None end) content))
      else None
  | _ => None
  end.
Definition strip_hidden_assistant_markup (text : str) (plan_mode : bool) : outcome Empty_set str :=
  '(without_citations, _) ← strip_citations text;
  if plan_mode then strip_proposed_plan_blocks without_citations else Ok without_citations.
Definition last_assistant_message_from_item (i : item) (plan_mode : bool) : outcome Empty_set (option str) :=
  match raw_assistant_output_text_from_item i with
  | None | Some [] => Ok None
  | Some combined =>
      stripped ← strip_hidden_assistant_markup combined plan_mode;
      Ok (match trim stripped with [] => None | _ => Some stripped end)
  end.
(** [is_commentary] tells the phase of a message. *)
Definition completed_item_defers_mailbox_delivery_to_next_turn (is_commentary : Data → bool) (i : item) (plan_mode : bool) : outcome Empty_set bool :=
  match i with
  | Message _ role _ _ phase =>
      if negb (bool_decide (role = lit "assistant")) || (match phase with Some p => is_commentary p | None => false end) then Ok false
      else message ← last_assistant_message_from_item i plan_mode; Ok (is_some message)
  | ImageGenerationCall _ _ _ _ => Ok true
  | _ => Ok false
  end.
End items.

(** * The state of a request *)

Inductive SamplingPhase : Type :=
| Receiving
| Draining (outcome : CodexErr + SamplingRequestResult)
| Returned (result : CodexErr + SamplingRequestResult)
| Panicked.
Section state.
Context {Data CallToolResult : Type}.
Abbreviation item := (@ResponseItem Data).
Abbreviation call := (@ToolCall Data).
(** [in_flight] are the calls in the order they were made, with what
    [handle_tool_call] gave for those that have ended. The calls made and those
    whose output is given up are recorded for the theorems. *)
Record sampling : Type := {
  history : @ContextManager Data; in_flight : list (call * option (str + @ResponseInputItem Data CallToolResult));
  needs_follow_up : bool; last_agent_message : option str; mailbox : MailboxDeliveryPhase; cancelled : bool;
  phase : SamplingPhase; made : list call; given_up : list call }.
Definition started (h : ContextManager) (m : MailboxDeliveryPhase) : sampling :=
  {| history := h; in_flight := []; needs_follow_up := false; last_agent_message := None; mailbox := m; cancelled := false;
     phase := Receiving; made := []; given_up := [] |}.
Definition with_history (s : sampling) (h : ContextManager) : sampling :=
  {| history := h; in_flight := in_flight s; needs_follow_up := needs_follow_up s; last_agent_message := last_agent_message s;
     mailbox := mailbox s; cancelled := cancelled s; phase := phase s; made := made s; given_up := given_up s |}.
Definition with_mailbox (s : sampling) (m : MailboxDeliveryPhase) : sampling :=
  {| history := history s; in_flight := in_flight s; needs_follow_up := needs_follow_up s; last_agent_message := last_agent_message s;
     mailbox := m; cancelled := cancelled s; phase := phase s; made := made s; given_up := given_up s |}.
Definition with_phase (s : sampling) (p : SamplingPhase) : sampling :=
  {| history := history s; in_flight := in_flight s; needs_follow_up := needs_follow_up s; last_agent_message := last_agent_message s;
     mailbox := mailbox s; cancelled := cancelled s; phase := p; made := made s; given_up := given_up s |}.
Definition with_in_flight (s : sampling) (l : list (call * option (str + @ResponseInputItem Data CallToolResult))) (lost : list call) : sampling :=
  {| history := history s; in_flight := l; needs_follow_up := needs_follow_up s; last_agent_message := last_agent_message s;
     mailbox := mailbox s; cancelled := cancelled s; phase := phase s; made := made s; given_up := given_up s ++ lost |}.
Definition with_message (s : sampling) (message : option str) : sampling :=
  {| history := history s; in_flight := in_flight s; needs_follow_up := needs_follow_up s; last_agent_message := or_else message (last_agent_message s);
     mailbox := mailbox s; cancelled := cancelled s; phase := phase s; made := made s; given_up := given_up s |}.
Definition with_follow_up (s : sampling) (b : bool) : sampling :=
  {| history := history s; in_flight := in_flight s; needs_follow_up := needs_follow_up s || b; last_agent_message := last_agent_message s;
     mailbox := mailbox s; cancelled := cancelled s; phase := phase s; made := made s; given_up := given_up s |}.
Definition with_cancelled (s : sampling) : sampling :=
  {| history := history s; in_flight := in_flight s; needs_follow_up := needs_follow_up s; last_agent_message := last_agent_message s;
     mailbox := mailbox s; cancelled := true; phase := phase s; made := made s; given_up := given_up s |}.
(** Queues a call. *)
Definition push_back (s : sampling) (c : call) : sampling :=
  {| history := history s; in_flight := in_flight s ++ [(c, None)]; needs_follow_up := true; last_agent_message := last_agent_message s;
     mailbox := mailbox s; cancelled := cancelled s; phase := phase s; made := made s ++ [c]; given_up := given_up s |}.
End state.

(** * Operations *)

(** What the turn gives: its truncation policy, its mode, whether input is
    pending, the phases of messages, and where a generated image was saved (its
    directory and path), if it could be. *)
Record TurnParams {Data : Type} : Type := {
  truncation_policy : TruncationPolicy; plan_mode : bool; has_pending_input : bool; is_commentary : Data → bool;
  image_saved : @ResponseItem Data → option (str * str) }.
Arguments TurnParams : clear implicits.

Section sampling.
Context {Data CallToolResult : Type} {R : ToolRunner Data CallToolResult} (debug_assertions : bool) (t : TurnParams Data).
Abbreviation item := (@ResponseItem Data).
Abbreviation call := (@ToolCall Data).
Abbreviation state := (@sampling Data CallToolResult).
Abbreviation input_item := (@ResponseInputItem Data CallToolResult).

Definition record_conversation_items (s : state) (l : list item) : outcome Empty_set state :=
  h ← record_items (history s) l (truncation_policy t); Ok (with_history s h).
Definition record_completed_response_item (s : state) (i : item) : outcome Empty_set state :=
  s ← record_conversation_items s [i];
  defers ← completed_item_defers_mailbox_delivery_to_next_turn (is_commentary t) i (plan_mode t);
  Ok (if defers && negb (has_pending_input t) then with_mailbox s NextTurn else s).
Definition developer_message (text : str) : item := Message None (lit "developer") [ContentInputText text] None None.
(** The messages recorded with an image that was saved. *)
Definition image_messages (i : item) : list item :=
  match i with
  | ImageGenerationCall _ _ _ _ =>
      match image_saved t i with
      | Some (dir, path) =>
          [developer_message (lit "Generated images are saved to " ++ dir ++ lit " as " ++ path ++ lit " by default.");
           developer_message (lit "If you need to use a generated image at another path, copy it and leave the original in place unless the user explicitly asks you to delete it.")]
      | None => []
      end
  | _ => []
  end.
(** The output recorded for a call that is not recognised. *)
Definition unrecognised_output (text : str) : item := FunctionCallOutput [] {| body := Text text; success := None |}.
Definition unrecognised (s : state) (i : item) (text : str) : outcome str state :=
  s ← no_err (record_completed_response_item s i);
  s ← no_err (record_conversation_items s [unrecognised_output text]);
  Ok (with_follow_up s true).
(** [handle_output_item_done] and what the loop does with its result; the
    error is the one that ends the request. *)
Definition handle_output_item_done (s : state) (i : item) : outcome str state :=
  match recognise i with
  | Ok (Some c) =>
      s ← no_err (record_completed_response_item (with_mailbox s CurrentTurn) i);
      Ok (push_back s c)
  | Ok None =>
      s ← no_err (record_conversation_items s (image_messages i));
      s ← no_err (record_completed_response_item s i);
      message ← no_err (last_assistant_message_from_item i (plan_mode t));
      Ok (with_message s message)
  | Err MissingLocalShellCallId => unrecognised s i (lit "LocalShellCall without call_id or id")
  | Err (RespondToModel message) => unrecognised s i message
  | Err (Fatal message) => Err message
  | Panic => Panic
  | OutOfFuel => OutOfFuel
  end.

(** The end of the stream. *)
Definition stream_ends (s : state) (outcome : CodexErr + SamplingRequestResult) : state := with_phase s (Draining outcome).
Definition closed_early : CodexErr := StreamErr (lit "stream closed before response.completed") None.
(** [ResponseEvent::Completed], when input of the user may be [pending]. *)
Definition completed_event (s : state) (pending : bool) : state :=
  let s := with_follow_up s pending in
  stream_ends s (inr {| result_needs_follow_up := needs_follow_up s; result_last_agent_message := last_agent_message s |}).
(** An error returned from inside the loop: the calls in flight are dropped,
    which aborts them. *)
Definition returns_early (s : state) (e : CodexErr) : state :=
  with_in_flight (with_phase s (Returned (inl e))) [] (map fst (in_flight s)).
(** One turn of [drain_in_flight], once the first call has ended. *)
Definition drain_one (s : state) (c : call) (res : str + input_item) (rest : list (call * option (str + input_item))) : outcome Empty_set state :=
  match res with
  | inr response => s ← record_conversation_items s [of_input mcp_output response]; Ok (with_in_flight s rest [])
  | inl _ => if debug_assertions then Ok (with_phase s Panicked) else Ok (with_in_flight s rest [c])
  end.
Definition set_result (s : state) (n : nat) (c : call) (res : str + input_item) : state :=
  with_in_flight s (<[n := (c, Some res)]> (in_flight s)) [].
(** What ends the request once the calls are drained. *)
Definition finish_request (s : state) (o : CodexErr + SamplingRequestResult) : state :=
  with_phase s (Returned (if cancelled s then inl TurnAborted else o)).

(** The steps of a request whose stream sends items with [P]. *)
Inductive step (P : item → Prop) : state → state → Prop :=
| step_item s s' i : phase s = Receiving → P i → handle_output_item_done s i = Ok s' → step P s s'
| step_fatal s i message : phase s = Receiving → P i → handle_output_item_done s i = Err message → step P s (returns_early s (FatalErr message))
| step_stream_error s e : phase s = Receiving → step P s (returns_early s e)
| step_completed s pending : phase s = Receiving → step P s (completed_event s pending)
| step_closed s : phase s = Receiving → step P s (stream_ends s (inl closed_early))
| step_cancelled s : phase s = Receiving → cancelled s = true → step P s (stream_ends s (inl TurnAborted))
| step_cancel s : step P s (with_cancelled s)
| step_records s s' c texts :
    (c, None) ∈ in_flight s → may_record c texts → record_conversation_items s (additional_context_messages texts) = Ok s' → step P s s'
| step_ends s n c r : in_flight s !! n = Some (c, None) → may_end c r → step P s (set_result s n c (handle_tool_call from_error_text c r))
| step_aborts s n c secs : in_flight s !! n = Some (c, None) → cancelled s = true →
    step P s (set_result s n c (handle_tool_call from_error_text c (inr (aborted_response c secs))))
| step_join_fails s n c message : in_flight s !! n = Some (c, None) → step P s (set_result s n c (inl message))
| step_drain s s' o c res rest : phase s = Draining o → in_flight s = (c, Some res) :: rest → drain_one s c res rest = Ok s' → step P s s'
| step_done s o : phase s = Draining o → in_flight s = [] → step P s (finish_request s o).

(** * Calls and outputs stay paired *)

(** An item that the loop answers well: calls with the id their output will
    have, searches that the client runs, no call that is not recognised, and no
    output. *)
Definition well_formed (i : item) : Prop :=
  answered_by_id i = true ∧ needs_call i = false ∧
  match recognise i with Ok (Some _) => True | Ok None => abort_output i = None | _ => False end.

Definition items_of (s : state) : list item := items (history s).
(** Every output has a call; every call has an output, is in flight, or was
    given up; and the calls in flight are of items of the history and, when they
    have ended, have the output that answers them. *)
Definition pairs_inv (l : list item) (flight : list (call * option (str + input_item))) (lost : list call) : Prop :=
  (∀ o, o ∈ l → orphan l o = false) ∧
  (∀ i, i ∈ l → is_Some (abort_output i) → answered l i = true ∨
     ∃ c, recognise i = Ok (Some c) ∧ answered_by_id i = true ∧ (c ∈ map fst flight ∨ c ∈ lost)) ∧
  (∀ c res, (c, res) ∈ flight →
     (∃ i, i ∈ l ∧ recognise i = Ok (Some c) ∧ answered_by_id i = true) ∧
     (∀ response, res = Some (inr response) → right_response c response = true)).
Definition follow_up_inv (s : state) : Prop :=
  (made s ≠ [] → needs_follow_up s = true) ∧
  (∀ r, phase s = Draining (inr r) ∨ phase s = Returned (inr r) → made s ≠ [] → result_needs_follow_up r = true).
Definition sampling_inv (s : state) : Prop := pairs_inv (items_of s) (in_flight s) (given_up s) ∧ follow_up_inv s.

Lemma answered_app (l k : list item) i : answered l i = true → answered (l ++ k) i = true.
Proof. unfold answered. rewrite existsb_app. by intros ->. Qed.
Lemma orphan_app (l k : list item) o : orphan l o = false → orphan (l ++ k) o = false.
Proof. unfold orphan. rewrite existsb_app. destruct (needs_call o); cbn; [|done]. by destruct (existsb _ l). Qed.
Lemma orphan_needs (l : list item) o : needs_call o = false → orphan l o = false.
Proof. unfold orphan. by intros ->. Qed.
Lemma answered_in (l : list item) (o i : item) : o ∈ l → answers o i = true → answered l i = true.
Proof. intros Hin Ha. unfold answered. apply existsb_Exists. apply Exists_exists. eauto. Qed.

(** The history grows by items that keep the pairs. *)
Lemma pairs_grow l k flight lost :
  pairs_inv l flight lost → (∀ o, o ∈ k → orphan (l ++ k) o = false) →
  (∀ i, i ∈ k → is_Some (abort_output i) → answered (l ++ k) i = true ∨
     ∃ c, recognise i = Ok (Some c) ∧ answered_by_id i = true ∧ (c ∈ map fst flight ∨ c ∈ lost)) →
  pairs_inv (l ++ k) flight lost.
Proof.
  intros (Ho & Ha & Hf) Hk Hc. split_and!.
  - intros o [Hin|Hin]%elem_of_app; [|by apply Hk]. by apply orphan_app, Ho.
  - intros i [Hin|Hin]%elem_of_app Hi; [|by apply Hc]. destruct (Ha i Hin Hi) as [E|E]; [left; by apply answered_app|by right].
  - intros c res Hin. destruct (Hf c res Hin) as [(i & Hi & E) Hr]. split; [|done]. exists i. rewrite elem_of_app. auto.
Qed.
Lemma pairs_quiet l k flight lost :
  pairs_inv l flight lost → Forall (λ i, needs_call i = false ∧ abort_output i = None) k → pairs_inv (l ++ k) flight lost.
Proof.
  intros Hp Hk. rewrite Forall_forall in Hk. apply pairs_grow; [done|..].
  - intros o Hin. by apply orphan_needs, Hk.
  - intros i Hin [x Hx]. destruct (Hk i Hin) as [_ E]. congruence.
Qed.

(** Recording appends the items that are kept, each processed. *)
Lemma record_spec s l s' : record_conversation_items s l = Ok s' →
  ∃ k, s' = with_history s (replace (history s) (items_of s ++ k)) ∧
    Forall2 (λ i j, process_item i (truncation_policy t) = Ok j) (filter (λ i, is_api_message i || is_ghost_snapshot i = true) l) k.
Proof.
  unfold record_conversation_items, record_items. destruct (record_loop_spec (items (history s)) (truncation_policy t) l) as (k & -> & Hk).
  run_bind. intros [= <-]. by exists k.
Qed.
Lemma process_quiet (i j : item) policy : process_item i policy = Ok j → needs_call i = false → j = i.
Proof. destruct i; cbn; try done; by intros [= ->]. Qed.
Lemma process_shape (o j : item) policy : process_item o policy = Ok j →
  j = o ∨ (∃ c x y, o = FunctionCallOutput c x ∧ j = FunctionCallOutput c y) ∨
  (∃ c n x y, o = CustomToolCallOutput c n x ∧ j = CustomToolCallOutput c n y).
Proof.
  destruct o as [| | | | |c x| |c n x| | | | | |]; cbn; try (intros [= ->]; by left).
  - destruct (truncate_function_output_payload x _) as [y| | |]; try done. intros [= <-]. right; left. by exists c, x, y.
  - destruct (truncate_function_output_payload x _) as [y| | |]; try done. intros [= <-]. right; right. by exists c, n, x, y.
Qed.
Lemma process_answers (o j i : item) policy : process_item o policy = Ok j → answers j i = answers o i.
Proof. by intros [->|[(c & x & y & -> & ->)|(c & n & x & y & -> & ->)]]%process_shape. Qed.
Lemma process_orphan (o j : item) l policy : process_item o policy = Ok j → orphan l j = orphan l o ∧ abort_output j = abort_output o.
Proof. by intros [->|[(c & x & y & -> & ->)|(c & n & x & y & -> & ->)]]%process_shape. Qed.

(** Items that are neither calls nor outputs. *)
Definition quiet (i : item) : Prop := needs_call i = false ∧ abort_output i = None.
Lemma record_quiet s l s' : record_conversation_items s l = Ok s' → Forall quiet l → sampling_inv s → sampling_inv s'.
Proof.
  intros (k & -> & Hk)%record_spec Hl [Hp Hf]. split; [|exact Hf]. cbn. apply pairs_quiet; [exact Hp|].
  assert (Hl' : Forall quiet (filter (λ i, is_api_message i || is_ghost_snapshot i = true) l)).
  { rewrite Forall_forall in *. intros i [_ Hi]%list_elem_of_filter. by apply Hl. }
  clear Hl Hp Hf. induction Hk as [|i j l' k E _ IH]; [by constructor|]. apply Forall_cons in Hl' as [[Hn Ha] Hl']. constructor; [|by apply IH].
  by rewrite (process_quiet i j _ E Hn).
Qed.
Lemma recorded_call s i s' c : record_conversation_items s [i] = Ok s' → recognise i = Ok (Some c) →
  s' = with_history s (replace (history s) (items_of s ++ [i])).
Proof.
  intros (k & -> & Hk)%record_spec Hc. rewrite filter_cons_True in Hk.
  - apply Forall2_cons_inv_l in Hk as (j & k' & E & ->%Forall2_nil_inv_l & ->). f_equal. by destruct i; try done; cbn in E; injection E as <-.
  - by destruct i.
Qed.
Lemma defers_fields s i s' : record_completed_response_item s i = Ok s' →
  ∃ s1, record_conversation_items s [i] = Ok s1 ∧ (s' = s1 ∨ s' = with_mailbox s1 NextTurn).
Proof.
  unfold record_completed_response_item. destruct (record_conversation_items s [i]) as [s1| | |]; run_bind; try done.
  destruct (completed_item_defers_mailbox_delivery_to_next_turn _ _ _) as [d| | |]; run_bind; try done.
  intros [= <-]. exists s1. split; [done|]. destruct (_ && _); auto.
Qed.

(** ** The steps *)

Lemma image_quiet i : Forall quiet (image_messages i).
Proof. destruct i; try by constructor. cbn. destruct (image_saved t _) as [[? ?]|]; by repeat constructor. Qed.
Lemma item_step_inv s i s' : well_formed i → phase s = Receiving → handle_output_item_done s i = Ok s' → sampling_inv s → sampling_inv s'.
Proof.
  intros (Hid & Hn & Hw) Hph. unfold handle_output_item_done. destruct (recognise i) as [[c|]| | |] eqn:Hc; try done.
  - (* a call *)
    destruct (record_completed_response_item _ i) as [s0| | |] eqn:E; cbn [mbind outcome_bind no_err map_err]; try done. intros [= <-] [Hp [Hu1 Hu2]].
    apply defers_fields in E as (s1 & E & Hs0). apply recorded_call with (c := c) in E; [|done]. cbn in E.
    assert (Hg : pairs_inv (items_of s ++ [i]) (in_flight s ++ [(c, None)]) (given_up s)).
    { destruct Hp as (Ho & Ha & Hf). split_and!.
      - intros o [Hin|Hin]%elem_of_app; [by apply orphan_app, Ho|]. apply list_elem_of_singleton in Hin as ->. by apply orphan_needs.
      - intros i' [Hin|Hin]%elem_of_app Hi'.
        + destruct (Ha i' Hin Hi') as [H1|(c' & H1 & H2 & H3)]; [left; by apply answered_app|right]. exists c'. rewrite map_app, elem_of_app. naive_solver.
        + apply list_elem_of_singleton in Hin as ->. right. exists c. split; [done|]. split; [done|]. left. rewrite map_app. set_solver.
      - intros c' res [Hin|Hin]%elem_of_app.
        + destruct (Hf c' res Hin) as [(i' & Hi' & H1) H2]. split; [|done]. exists i'. rewrite elem_of_app. auto.
        + apply list_elem_of_singleton in Hin as [= -> ->]. split; [|done]. exists i. split; [set_solver|done]. }
    destruct Hs0 as [->| ->]; subst s1; split; try exact Hg; split; cbn; try done; intros r [Hr|Hr]; congruence.
  - (* another item *)
    destruct (record_conversation_items s _) as [s1| | |] eqn:E1; cbn [mbind outcome_bind no_err map_err]; try done.
    destruct (record_completed_response_item s1 i) as [s2| | |] eqn:E2; cbn [mbind outcome_bind no_err map_err]; try done.
    destruct (last_assistant_message_from_item i _) as [m| | |]; cbn [mbind outcome_bind no_err map_err]; try done. intros [= <-] Hs.
    apply record_quiet in E1; [|apply image_quiet|done].
    apply defers_fields in E2 as (s2' & E2 & Hs2). apply record_quiet in E2; [|by repeat constructor|done].
    by destruct Hs2 as [->| ->].
Qed.

Lemma in_fst (l : list (call * option (str + input_item))) c r : (c, r) ∈ l → c ∈ map fst l.
Proof. intros Hin. apply list_elem_of_fmap. by exists (c, r). Qed.
(** The calls in flight are the same, some with a result. *)
Lemma map_fst_insert (l : list (call * option (str + input_item))) n c r r' :
  l !! n = Some (c, r) → map fst (<[n := (c, r')]> l) = map fst l.
Proof.
  revert n. induction l as [|x l IH]; intros [|n] E; try done; cbn in *.
  - by injection E as ->.
  - f_equal. by apply IH.
Qed.
Lemma result_inv s n c res : in_flight s !! n = Some (c, None) →
  (∀ response, res = inr response → right_response c response = true) → sampling_inv s → sampling_inv (set_result s n c res).
Proof.
  intros Hn Hr [(Ho & Ha & Hf) Hu]. split; [|exact Hu]. cbn. rewrite app_nil_r. split_and!.
  - exact Ho.
  - intros i Hi Hs. rewrite (map_fst_insert _ _ _ None) by done. by apply Ha.
  - intros c' res' Hin. apply list_elem_of_lookup in Hin as [m Hm]. destruct (decide (n = m)) as [<-|Hnm].
    + rewrite list_lookup_insert_eq in Hm by (by eapply lookup_lt_Some). injection Hm as <- <-.
      split; [|intros response [= ->]; by apply Hr]. by destruct (Hf c None (list_elem_of_lookup_2 _ _ _ Hn)) as [? _].
    + rewrite list_lookup_insert_ne in Hm by done. apply Hf. by eapply list_elem_of_lookup_2.
Qed.
Lemma drop_inv s p lost rest :
  (∀ c, c ∈ map fst (in_flight s) → c ∈ map fst rest ∨ c ∈ lost) → (∀ x, x ∈ rest → x ∈ in_flight s) →
  (∀ r, p = Draining (inr r) ∨ p = Returned (inr r) → made s ≠ [] → result_needs_follow_up r = true) →
  sampling_inv s → sampling_inv (with_in_flight (with_phase s p) rest lost).
Proof.
  intros Hc Hrest Hp [(Ho & Ha & Hf) [Hu _]]. split; [|by split]. cbn. split_and!.
  - exact Ho.
  - intros i Hi Hs. destruct (Ha i Hi Hs) as [H1|(c & H1 & H2 & H3)]; [by left|right]. exists c. setoid_rewrite elem_of_app. naive_solver.
  - intros c res Hin. by apply Hf, Hrest.
Qed.
Lemma phase_inv s p :
  (∀ r, p = Draining (inr r) ∨ p = Returned (inr r) → made s ≠ [] → result_needs_follow_up r = true) →
  sampling_inv s → sampling_inv (with_phase s p).
Proof. intros Hp [Hi [Hu _]]. split; [exact Hi|]. split; [exact Hu|exact Hp]. Qed.

Lemma drain_inv s o c res rest s' :
  phase s = Draining o → in_flight s = (c, Some res) :: rest → drain_one s c res rest = Ok s' → sampling_inv s → sampling_inv s'.
Proof.
  intros Hph Hfl. destruct res as [message|response]; cbn [drain_one].
  - destruct debug_assertions; intros [= <-] Hs; [apply phase_inv; [|done]; intros r [Hr|Hr]; done|].
    assert (E : with_in_flight s rest [c] = with_in_flight (with_phase s (phase s)) rest [c]) by (by destruct s). rewrite E.
    apply drop_inv; [| | |done].
    + rewrite Hfl. cbn. set_solver.
    + rewrite Hfl. set_solver.
    + apply Hs.
  - destruct (record_conversation_items s _) as [s1| | |] eqn:E; cbn [mbind outcome_bind]; try done. intros [= <-] [Hp Hu].
    apply record_spec in E as (k & -> & Hk). split; [|exact Hu]. cbn. rewrite app_nil_r. destruct Hp as (Ho & Ha & Hf).
    destruct (Hf c (Some (inr response))) as [(i & Hi & Hc & Hid) Hr]; [rewrite Hfl; by left|].
    specialize (Hr response eq_refl).
    assert (Hans : ∀ i, recognise i = Ok (Some c) → answered_by_id i = true → answers (of_input mcp_output response) i = true)
      by (intros; by eapply right_response_answers).
    set (o' := of_input mcp_output response) in *.
    assert (Hapi : is_api_message o' || is_ghost_snapshot o' = true) by (specialize (Hans i Hc Hid); by destruct o').
    rewrite filter_cons_True in Hk by done. apply Forall2_cons_inv_l in Hk as (j & k' & Ej & ->%Forall2_nil_inv_l & ->).
    assert (Hja : ∀ i, answers j i = answers o' i) by (intros; by eapply process_answers).
    assert (Hfrom : ∀ x, x ∈ rest → x ∈ in_flight s) by (intros x Hx; rewrite Hfl; by right).
    split_and!.
    + intros x [Hin|Hin]%elem_of_app; [by apply orphan_app, Ho|]. apply list_elem_of_singleton in Hin as ->.
      destruct (process_orphan o' j (items_of s ++ [j]) _ Ej) as [-> _]. apply (not_orphan _ _ i); [set_solver|]. by apply Hans.
    + intros i' [Hin|Hin]%elem_of_app Hi'.
      * destruct (Ha i' Hin Hi') as [H1|(c' & H1 & H2 & H3)]; [left; by apply answered_app|].
        destruct H3 as [H3|H3]; [|right; exists c'; auto]. rewrite Hfl in H3. cbn in H3. apply elem_of_cons in H3 as [->|H3]; [|right; exists c'; auto].
        left. apply (answered_in _ j); [set_solver|]. rewrite Hja. by apply Hans.
      * apply list_elem_of_singleton in Hin as ->. destruct (process_orphan o' j [] _ Ej) as [_ Eab]. rewrite Eab in Hi'.
        pose proof (answers_call o' i (Hans i Hc Hid)) as (_ & Hno & _). rewrite Hno in Hi'. by destruct Hi'.
    + intros c' res' Hin. destruct (Hf c' res' (Hfrom _ Hin)) as [(i' & Hi' & H1) H2]. split; [|done]. exists i'. rewrite elem_of_app. auto.
Qed.

Lemma lost_inv s c : sampling_inv s → sampling_inv (with_cancelled s) ∧ sampling_inv (returns_early s c).
Proof.
  intros Hs. split; [exact Hs|]. unfold returns_early. apply drop_inv; [|set_solver| |done].
  - by right.
  - intros r [Hr|Hr]; done.
Qed.
Lemma handled_right {LAW : ToolRunnerLaws R} c r i response :
  recognise i = Ok (Some c) → may_end c r → handle_tool_call from_error_text c r = inr response → right_response c response = true.
Proof.
  intros Hc Hm. destruct r as [e|r]; cbn.
  - destruct e; intros [= <-]; apply failure_is_right.
  - intros [= <-]. destruct (ends_with_own_result i c r Hc Hm) as (Hi & Hp & Hf). unfold into_response. rewrite Hi, Hp.
    by apply fitting_output_is_right.
Qed.
Lemma step_inv {LAW : ToolRunnerLaws R} s s' : step well_formed s s' → sampling_inv s → sampling_inv s'.
Proof.
  destruct 1 as [s s' i Hph Hi E|s i message Hph Hi E|s e Hph|s pending Hph|s Hph|s Hph Hc|s|s s' c texts Hin Hm E|s n c r Hn Hm
    |s n c secs Hn Hc|s n c message Hn|s s' o c res rest Hph Hfl E|s o Hph Hfl]; intros Hs.
  - by eapply item_step_inv.
  - by apply lost_inv.
  - by apply lost_inv.
  - destruct Hs as [Hp [Hu _]]. split; [exact Hp|]. split; cbn.
    + intros Hm. by rewrite Hu.
    + intros r [[= <-]|[=]] Hm. cbn. by rewrite Hu.
  - apply phase_inv; [|done]. intros r [[=]|[=]].
  - apply phase_inv; [|done]. intros r [[=]|[=]].
  - by apply (lost_inv s TurnAborted).
  - eapply record_quiet; [exact E| |done]. clear. induction texts; by constructor.
  - apply result_inv; [done| |done]. destruct Hs as [(_ & _ & Hf) _].
    destruct (Hf c None (list_elem_of_lookup_2 _ _ _ Hn)) as [(i & _ & Hi & _) _].
    intros response Hr. by eapply handled_right.
  - apply result_inv; [done| |done]. intros response [= <-]. apply aborted_is_right.
  - apply result_inv; [done| |done]. by intros response [=].
  - by eapply drain_inv.
  - apply phase_inv; [|done]. intros r [[=]|Hr]. destruct Hs as [_ [_ Hu]]. apply Hu. destruct (cancelled s); [done|]. injection Hr as ->. by left.
Qed.
Lemma start_inv h m : paired (items h) → sampling_inv (started h m).
Proof.
  intros Hp. split; [|split; cbn; [done|by intros r [[=]|[=]]]]. split_and!.
  - intros o Hin. by apply Hp.
  - intros i Hin Hi. left. by apply Hp.
  - intros c res Hin. by apply elem_of_nil in Hin.
Qed.
(** ** What a returned request leaves *)

Lemma record_fields s l s' : record_conversation_items s l = Ok s' → phase s' = phase s ∧ in_flight s' = in_flight s.
Proof. by intros (k & -> & _)%record_spec. Qed.
Lemma completed_fields s i s' : record_completed_response_item s i = Ok s' → phase s' = phase s.
Proof. intros (s1 & [E _]%record_fields & [->| ->])%defers_fields; done. Qed.
Lemma unrecognised_phase s i text s' : unrecognised s i text = Ok s' → phase s' = phase s.
Proof.
  unfold unrecognised. destruct (record_completed_response_item s i) as [s1| | |] eqn:E1; cbn [mbind outcome_bind no_err map_err]; try done.
  destruct (record_conversation_items s1 _) as [s2| | |] eqn:E2; cbn [mbind outcome_bind no_err map_err]; try done. intros [= <-].
  apply completed_fields in E1. apply record_fields in E2 as [E2 _]. cbn. congruence.
Qed.
Lemma item_phase s i s' : handle_output_item_done s i = Ok s' → phase s' = phase s.
Proof.
  unfold handle_output_item_done. destruct (recognise i) as [[c|]|[message| |message]| |]; try done; try apply unrecognised_phase.
  - destruct (record_completed_response_item _ i) as [s1| | |] eqn:E1; cbn [mbind outcome_bind no_err map_err]; try done. intros [= <-]. by apply completed_fields in E1.
  - destruct (record_conversation_items s _) as [s1| | |] eqn:E1; cbn [mbind outcome_bind no_err map_err]; try done.
    destruct (record_completed_response_item s1 i) as [s2| | |] eqn:E2; cbn [mbind outcome_bind no_err map_err]; try done.
    destruct (last_assistant_message_from_item i _); cbn [mbind outcome_bind no_err map_err]; try done. intros [= <-].
    apply record_fields in E1 as [E1 _]. apply completed_fields in E2. cbn. congruence.
Qed.
Lemma returned_empty P s s' :
  step P s s' → (∀ r, phase s = Returned r → in_flight s = []) → ∀ r, phase s' = Returned r → in_flight s' = [].
Proof.
  intros Hst IH r.
  destruct Hst as [s s' i Hph Hi E|s i message Hph Hi E|s e Hph|s pending Hph|s Hph|s Hph Hc|s|s s' c texts Hin Hm E|s n c r' Hn Hm
    |s n c secs Hn Hc|s n c message Hn|s s' o c res rest Hph Hfl E|s o Hph Hfl]; cbn [mbind outcome_bind no_err map_err]; try done; try congruence; try by apply IH.
  - apply item_phase in E. congruence.
  - apply record_fields in E as [-> ->]. by apply IH.
  - intros Hr. by rewrite (IH r Hr) in Hn.
  - intros Hr. by rewrite (IH r Hr) in Hn.
  - intros Hr. by rewrite (IH r Hr) in Hn.
  - unfold drain_one in E. destruct res as [|response].
    + destruct debug_assertions; injection E as <-; cbn; congruence.
    + destruct (record_conversation_items s _) as [s1| | |] eqn:E1; cbn in E; try done. injection E as <-.
      apply record_fields in E1 as [E1 _]. cbn. congruence.
Qed.
End sampling.

(** * Requests of a session *)

Section session.
Context {Data CallToolResult S : Type} {TA : ToolArgs Data} {PE : PermEnv} {SE : ShellEnv} {HJ : HookJson} {HE : HookEnv}
  {DP : Dispatcher Data CallToolResult S} (turn : TurnTools) (registry : gmap str HandlerKind)
  (mcp_name : str → option str → option (str * str)) (search_arguments : Data → str + Data) (params_of : Data → Data)
  (error_result : str → CallToolResult) (output_of_mcp : CallToolResult → FunctionCallOutputPayload).

(** Calls are dispatched, in any state the handlers are in. *)
Definition dispatch_runner : ToolRunner Data CallToolResult := {|
  parse_mcp_tool_name := mcp_name; parse_search_arguments := search_arguments; shell_params := params_of;
  from_error_text := error_result; mcp_output := output_of_mcp;
  may_end c r := ∃ st l st', dispatch_tool_call turn registry c DirectCall st = Ok (l, st', r);
  may_record c texts := ∃ st l st' r, dispatch_tool_call turn registry c DirectCall st = Ok (l, st', r) ∧
                          ContextsRecorded (additional_context_messages texts) ∈ l |}.
Lemma recognised_search (i : @ResponseItem Data) c x :
  build_tool_call mcp_name search_arguments params_of i = Ok (Some c) → payload c = PayloadToolSearch x →
  tool_handler_key (tool_name c) (tool_namespace c) = lit "tool_search".
Proof.
  destruct i as [| |id cid st a|id n ns a cid|id cid st e a| |id st cid n input| | | | | | |]; cbn; try done.
  - destruct (match cid with Some _ => _ | None => _ end); [|done]. by intros [= <-].
  - intros [= <-]. cbn. by destruct (mcp_name n ns) as [[? ?]|].
  - destruct cid; [|done]. case_bool_decide; [|done]. destruct (search_arguments a); [done|]. by intros [= <-].
  - by intros [= <-].
Qed.
Lemma dispatch_runner_laws : handlers_return → searches_handled registry → ToolRunnerLaws dispatch_runner.
Proof.
  intros Hret Hs i c r Hc (st & l & st' & E). eapply dispatch_result_fits; [done|done| |exact E].
  destruct (payload c) eqn:Hp; try done. by eapply recognised_search.
Qed.

Section request.
Context (debug_assertions : bool) (t : TurnParams Data).
Abbreviation reaches h m s := (rtc (step (R := dispatch_runner) debug_assertions t (well_formed (R := dispatch_runner))) (started h m) s).

(** C12. A request that starts from a transcript whose calls and outputs are paired,
    with a stream of well-formed items, whatever the order in which the stream
    is read, the calls end, fail or are aborted and the outputs are recorded:
    when the request returns, every output of the transcript has a call, and
    every call has an output unless that output was given up, by an error
    returned from inside the loop or by a task that failed for good. When none
    was given up the transcript can be sent as it is: normalizing it changes
    nothing and reports nothing, in debug builds too. And when a call was made
    and the request succeeds, it asks for a follow-up, so that the model sees
    the outputs. *)
Theorem sampling_keeps_pairs h m s o :
  handlers_return → searches_handled registry → paired (items h) → reaches h m s → phase s = Returned o →
  (∀ x, x ∈ items_of s → orphan (items_of s) x = false) ∧
  (∀ i, i ∈ items_of s → is_Some (abort_output i) → answered (items_of s) i = true ∨
     ∃ c, c ∈ given_up s ∧ build_tool_call mcp_name search_arguments params_of i = Ok (Some c)) ∧
  (given_up s = [] → ∀ debug, normalize_history debug true (items_of s) = Ok (items_of s)) ∧
  (∀ r, o = inr r → made s ≠ [] → result_needs_follow_up r = true).
Proof.
  intros Hret Hsh Hp Hr Hph. pose proof (dispatch_runner_laws Hret Hsh) as LAW.
  assert (Hinv : sampling_inv (R := dispatch_runner) s ∧ (∀ r, phase s = Returned r → in_flight s = [])).
  { clear Hph. revert s Hr. apply (rtc_ind_r (λ s, sampling_inv (R := dispatch_runner) s ∧ (∀ r, phase s = Returned r → in_flight s = []))).
    - split; [by apply start_inv|done].
    - intros s s' _ Hst [Hs He]. split; [by eapply step_inv|]. by eapply returned_empty. }
  destruct Hinv as [[(Ho & Ha & _) [_ Hu]] He]. specialize (He _ Hph). rewrite He in Ha.
  assert (Ha' : ∀ i, i ∈ items_of s → is_Some (abort_output i) → answered (items_of s) i = true ∨
     ∃ c, c ∈ given_up s ∧ build_tool_call mcp_name search_arguments params_of i = Ok (Some c)).
  { intros i Hi Hs. destruct (Ha i Hi Hs) as [?|(c & Hc & _ & [H0|H0])]; [by left|by apply elem_of_nil in H0|right; eauto]. }
  split_and!; [done|done| |].
  - intros Hg debug. assert (P : paired (items_of s)).
    { intros i Hi. split; [|by apply Ho]. intros Hs. destruct (Ha' i Hi Hs) as [?|(c & Hc & _)]; [done|]. rewrite Hg in Hc. by apply elem_of_nil in Hc. }
    rewrite normalize_history_eq. destruct (paired_clean _ P) as [-> ->]. by rewrite andb_false_r.
  - intros r ->. apply Hu. by right.
Qed.
End request.
End session.

(** * Witnesses *)

Module Example_request.
#[local] Instance no_json : HookJson := {|
  json_value := unit; from_str _ := None; is_object _ := false; session_start_of_value _ := None; pre_tool_use_of_value _ := None;
  post_tool_use_of_value _ := None; user_prompt_submit_of_value _ := None; stop_of_value _ := None |}.
#[local] Instance no_hook_env : HookEnv := {|
  regex_new _ := inl []; input_to_string _ := inl []; now := 0%Z; default_shell := lit "/bin/sh";
  process _ _ _ _ _ := (TimedOut, (0, 0, 0)%Z) |}.
#[local] Instance no_args : ToolArgs unit := {|
  parse_shell_arguments _ := None; local_shell_command _ := []; parse_shell_command_arguments _ := None;
  parse_exec_command_arguments _ := None; try_join _ := None; try_parse_shell _ := None; parse_powershell _ _ := None |}.
#[local] Existing Instances perm_env sample_shell_env.
(** A session without hooks, whose plan tool works. *)
#[local] Instance plan_session : Dispatcher unit unit unit := {|
  hook_handlers := []; hook_shell := {| shell_program := []; shell_args := [] |};
  hook_context := {| conversation_id := lit "t"; sub_id := lit "1"; turn_cwd := lit "/"; hook_transcript_path := None;
                     model_slug := lit "m"; approval_policy := Protocol.Never |};
  after_tool_use := []; search_text _ := []; mcp_success _ := true; log_preview _ := []; post_tool_use_response _ := None;
  handle h c s := (s, match h with PlanHandler => inr PlanToolOutput | _ => inl (RespondToModel (lit "unknown")) end) |}.
Definition tools : TurnTools := {|
  user_shell := default_user_shell; allow_login_shell := true; shell_mode := Direct; js_repl_tools_only := false |}.
Definition plan_registry : gmap str HandlerKind := {[ lit "update_plan" := PlanHandler ]}.
Definition params : TurnParams unit := {|
  truncation_policy := Bytes 10000; plan_mode := false; has_pending_input := false; is_commentary _ := false; image_saved _ := None |}.
Definition plan_call : @ResponseItem unit := FunctionCall None (lit "update_plan") None (lit "{}") (lit "c1").
Definition plan_output : @ResponseItem unit := FunctionCallOutput (lit "c1") {| body := Text (lit "Plan updated"); success := Some true |}.
#[local] Instance runner : ToolRunner unit unit :=
  dispatch_runner tools plan_registry (λ _ _, None) (λ _, inl []) id (λ _, tt) (λ _, from_text []).
Definition one_item (i : @ResponseItem unit) : ContextManager := {| items := [i]; token_info := None; reference_context_item := None |}.
Definition after_call (f : list (@ToolCall unit * option (str + @ResponseInputItem unit unit))) (l : list ResponseItem) (p : SamplingPhase) : @sampling unit unit :=
  {| history := {| items := l; token_info := None; reference_context_item := None |}; in_flight := f; needs_follow_up := true;
     last_agent_message := None; mailbox := CurrentTurn; cancelled := false; phase := p;
     made := [{| tool_name := lit "update_plan"; tool_namespace := None; call_id := lit "c1"; payload := PayloadFunction (lit "{}") |}]; given_up := [] |}.
Definition plan_tool_call : @ToolCall unit :=
  {| tool_name := lit "update_plan"; tool_namespace := None; call_id := lit "c1"; payload := PayloadFunction (lit "{}") |}.
Definition plan_response : @ResponseInputItem unit unit := InputFunctionCallOutput (lit "c1") {| body := Text (lit "Plan updated"); success := Some true |}.
Definition follow_up : SamplingRequestResult := {| result_needs_follow_up := true; result_last_agent_message := None |}.
Definition returned : @sampling unit unit := after_call [] [plan_call; plan_output] (Returned (inr follow_up)).

Lemma plan_run : rtc (step true params well_formed) (started ContextManager.new CurrentTurn) returned.
Proof.
  apply (rtc_l _ _ (after_call [(plan_tool_call, None)] [plan_call] Receiving)).
  { eapply step_item with (i := plan_call); [done|done|]. vm_compute. reflexivity. }
  apply (rtc_l _ _ (after_call [(plan_tool_call, None)] [plan_call] (Draining (inr follow_up)))).
  { exact (step_completed true params well_formed (after_call [(plan_tool_call, None)] [plan_call] Receiving) false eq_refl). }
  apply (rtc_l _ _ (after_call [(plan_tool_call, Some (inr plan_response))] [plan_call] (Draining (inr follow_up)))).
  { apply (step_ends true params well_formed (after_call [(plan_tool_call, None)] [plan_call] (Draining (inr follow_up))) 0 plan_tool_call (inr {| result_call_id := lit "c1"; result_payload := PayloadFunction (lit "{}"); result := PlanToolOutput |})); [done|].
    exists tt. eexists _, tt. vm_compute. reflexivity. }
  apply (rtc_l _ _ (after_call [] [plan_call; plan_output] (Draining (inr follow_up)))).
  { eapply step_drain; [done|reflexivity|]. vm_compute. reflexivity. }
  apply rtc_once. exact (step_done true params well_formed (after_call [] [plan_call; plan_output] (Draining (inr follow_up))) (inr follow_up) eq_refl eq_refl).
Qed.
Lemma plan_handlers_return : handlers_return (Data := unit) (CallToolResult := unit) (S := unit).
Proof. intros h c s o Hm. destruct h; cbn; try done. by intros [= <-]. Qed.
End Example_request.
Import Example_request.
#[local] Existing Instance runner.

Lemma sampling_keeps_pairs_witness :
  normalize_history false true (items_of returned) = Ok (items_of returned) ∧ result_needs_follow_up follow_up = true.
Proof.
  assert (Hp : paired (items (ContextManager.new (Data := unit)))) by (intros i Hi; by apply elem_of_nil in Hi).
  assert (Hs : searches_handled plan_registry) by (intros h; by vm_compute).
  destruct (sampling_keeps_pairs tools plan_registry (λ _ _, None) (λ _, inl []) id (λ _, tt) (λ _, from_text []) true params
    ContextManager.new CurrentTurn returned (inr follow_up) plan_handlers_return Hs Hp plan_run eq_refl) as (_ & _ & Hn & Hf).
  split; [by apply Hn|by apply Hf].
Defined.

(** * What the loop does not keep *)

(** A call that is not recognised: its error is recorded for the model under an
    empty call id, which no call has, so normalization drops it (and panics in
    debug builds). The request asks for a follow-up that does not show the error. *)
Lemma unrecognised_error_is_dropped :
  let bad : @ResponseItem unit := LocalShellCall None None tt tt in
  ∃ s, handle_output_item_done params (started ContextManager.new CurrentTurn) bad = Ok s ∧ needs_follow_up s = true ∧
    length (items_of s) = 2 ∧ normalize_history false true (items_of s) = Ok [bad] ∧ normalize_history true true (items_of s) = Panic.
Proof. eexists. split; [vm_compute; reflexivity|]. by vm_compute. Qed.
(** A local shell call that has an [id] and no [call_id] runs under the [id]; no
    output with that id counts as its own. *)
Lemma call_with_only_an_id_loses_its_output p :
  let shell : @ResponseItem unit := LocalShellCall (Some (lit "ls1")) None tt tt in
  ∃ c, recognise shell = Ok (Some c) ∧ call_id c = lit "ls1" ∧
    normalize_history false true [shell; FunctionCallOutput (lit "ls1") p] = Ok [shell] ∧
    normalize_history true true [shell; FunctionCallOutput (lit "ls1") p] = Panic.
Proof. eexists. split; [vm_compute; reflexivity|]. by vm_compute. Qed.

Definition custom_item : @ResponseItem unit := CustomToolCall None None (lit "c2") (lit "update_plan") (lit "x").
Definition custom_call : @ToolCall unit :=
  {| tool_name := lit "update_plan"; tool_namespace := None; call_id := lit "c2"; payload := PayloadCustom (lit "x") |}.
Definition custom_state (f : list (@ToolCall unit * option (str + @ResponseInputItem unit unit))) (p : SamplingPhase) (lost : list ToolCall) : @sampling unit unit :=
  {| history := one_item custom_item; in_flight := f; needs_follow_up := true; last_agent_message := None; mailbox := CurrentTurn;
     cancelled := false; phase := p; made := [custom_call]; given_up := lost |}.
(** In a release build a call that fails for good (here, a handler that does not
    take its payload) does not end the request: the error is logged, the request
    succeeds and the call stays without an output. *)
Lemma fatal_error_does_not_end_the_request :
  rtc (step false params well_formed) (started ContextManager.new CurrentTurn) (custom_state [] (Returned (inr follow_up)) [custom_call]) ∧
  answered (items_of (custom_state [] (Returned (inr follow_up)) [custom_call])) custom_item = false.
Proof.
  split; [|done].
  apply (rtc_l _ _ (custom_state [(custom_call, None)] Receiving [])).
  { eapply step_item with (i := custom_item); [done|done|]. vm_compute. reflexivity. }
  apply (rtc_l _ _ (custom_state [(custom_call, None)] (Draining (inr follow_up)) [])).
  { exact (step_completed false params well_formed (custom_state [(custom_call, None)] Receiving []) false eq_refl). }
  apply (rtc_l _ _ (custom_state [(custom_call, Some (inl (lit "tool update_plan invoked with incompatible payload")))] (Draining (inr follow_up)) [])).
  { apply (step_ends false params well_formed (custom_state [(custom_call, None)] (Draining (inr follow_up)) []) 0 custom_call
             (inl (Fatal (lit "tool update_plan invoked with incompatible payload")))); [done|].
    exists tt. eexists _, tt. vm_compute. reflexivity. }
  apply (rtc_l _ _ (custom_state [] (Draining (inr follow_up)) [custom_call])).
  { eapply step_drain; [done|reflexivity|]. vm_compute. reflexivity. }
  apply rtc_once. exact (step_done false params well_formed (custom_state [] (Draining (inr follow_up)) [custom_call]) (inr follow_up) eq_refl eq_refl).
Qed.
(** An error of the stream returns without draining the calls in flight, which
    the closed stream and the cancellation do: a custom call is left without an
    output, which normalization reports as an error (a panic in debug builds). *)
Lemma stream_error_leaves_calls e :
  let s := returns_early (custom_state [(custom_call, None)] Receiving []) e in
  step true params well_formed (custom_state [(custom_call, None)] Receiving []) s ∧ phase s = Returned (inl e) ∧
  normalize_history true true (items_of s) = Panic ∧
  normalize_history false true (items_of s) = Ok [custom_item; CustomToolCallOutput (lit "c2") None (from_text (lit "aborted"))].
Proof. split; [by apply step_stream_error|]. by vm_compute. Qed.
