(* ===== verification/SamplingRetry.v ===== *)
(** The retries of a request: the loop of [run_sampling_request]
    ([codex-rs/core/src/codex.rs]), the fallback of [client.rs] and the budget of
    [model-provider-info/src/lib.rs]. What an attempt gives and whether the
    history can be compacted are parameters; the delays are left out. *)
From S2P Require Import Prelude RustStr Sampling.

(** * Errors that are recovered from *)

Definition is_invalid_encrypted_content_message (message : str) : bool :=
  contains (lit "invalid_encrypted_content") message || contains (lit "invalid encrypted content") (to_ascii_lowercase message).
Definition is_invalid_encrypted_content_error (e : CodexErr) : bool :=
  match e with
  | InvalidRequest message => is_invalid_encrypted_content_message message
  | UnexpectedStatus _ body => is_invalid_encrypted_content_message body
  | _ => false
  end.
Record ModelProviderInfo : Type := {
  provider_name : str; base_url : option str; configured_stream_max_retries : option N; supports_websockets : bool }.
Definition is_github_copilot_request_body_timeout (e : CodexErr) (p : ModelProviderInfo) : bool :=
  (bool_decide (provider_name p = lit "GitHub Copilot")
   || match base_url p with Some u => contains (lit "githubcopilot.com") u || contains (lit "copilot-api.") u | None => false end)
  && match e with UnexpectedStatus status body => (status =? 408)%N && contains (lit "Timed out reading request body") body | _ => false end.

(** * The budget *)

Definition DEFAULT_STREAM_MAX_RETRIES : N := 5.
Definition MAX_STREAM_MAX_RETRIES : N := 100.
Definition stream_max_retries (p : ModelProviderInfo) : N :=
  N.min (default DEFAULT_STREAM_MAX_RETRIES (configured_stream_max_retries p)) MAX_STREAM_MAX_RETRIES.
Record retry_state : Type := {
  retries : N; recovered_invalid_encrypted_content : bool; recovered_request_body_timeout : bool; disable_websockets : bool }.
(** [force_http_fallback]: whether it was activated. *)
Definition force_http_fallback (p : ModelProviderInfo) (s : retry_state) : retry_state * bool :=
  let enabled := supports_websockets p && negb (disable_websockets s) in
  ({| retries := retries s; recovered_invalid_encrypted_content := recovered_invalid_encrypted_content s;
      recovered_request_body_timeout := recovered_request_body_timeout s; disable_websockets := disable_websockets s || enabled |}, enabled).

(** * The loop *)

Section retries.
Context (p : ModelProviderInfo) (compaction : option CodexErr).

(** Errors that are reported as they are, with the token count or the limits updated. *)
Definition reported_at_once (e : CodexErr) : bool := match e with ContextWindowExceeded | UsageLimitReached _ => true | _ => false end.
(** What follows an attempt that failed: the state of the next one, or the
    error that is returned. *)
Definition after_error (e : CodexErr) (s : retry_state) : CodexErr + retry_state :=
  if reported_at_once e then inl e
  else if is_invalid_encrypted_content_error e && negb (recovered_invalid_encrypted_content s) then
    inr {| retries := 0; recovered_invalid_encrypted_content := true;
           recovered_request_body_timeout := recovered_request_body_timeout s; disable_websockets := disable_websockets s |}
  else if is_github_copilot_request_body_timeout e p && negb (recovered_request_body_timeout s) then
    match compaction with
    | Some err => inl err
    | None => inr {| retries := 0; recovered_invalid_encrypted_content := recovered_invalid_encrypted_content s;
                     recovered_request_body_timeout := true; disable_websockets := disable_websockets s |}
    end
  else if negb (is_retryable e) then inl e
  else
    let '(s, fell_back) := if (stream_max_retries p <=? retries s)%N then force_http_fallback p s else (s, false) in
    if fell_back then
      inr {| retries := 0; recovered_invalid_encrypted_content := recovered_invalid_encrypted_content s;
             recovered_request_body_timeout := recovered_request_body_timeout s; disable_websockets := disable_websockets s |}
    else if (retries s <? stream_max_retries p)%N then
      inr {| retries := retries s + 1; recovered_invalid_encrypted_content := recovered_invalid_encrypted_content s;
             recovered_request_body_timeout := recovered_request_body_timeout s; disable_websockets := disable_websockets s |}
    else inl e.
(** [attempt n s] is the result of the attempt of number [n]. *)
Fixpoint sampling_loop (fuel : nat) (attempt : nat → CodexErr + SamplingRequestResult) (n : nat) (s : retry_state)
    : outcome CodexErr (SamplingRequestResult * nat) :=
  match fuel with
  | O => OutOfFuel
  | S fuel' =>
      match attempt n with
      | inr r => Ok (r, S n)
      | inl e => match after_error e s with inl e => Err e | inr s => sampling_loop fuel' attempt (S n) s end
      end
  end.
Definition first_state (disabled : bool) : retry_state :=
  {| retries := 0; recovered_invalid_encrypted_content := false; recovered_request_body_timeout := false; disable_websockets := disabled |}.
Definition run_sampling_request (fuel : nat) (attempt : nat → CodexErr + SamplingRequestResult) (disabled : bool) : outcome CodexErr (SamplingRequestResult * nat) :=
  sampling_loop fuel attempt 0 (first_state disabled).

(** * The loop ends *)

(** Resets that are left, and what is left of the budget. *)
Definition resets_left (s : retry_state) : N :=
  (if recovered_invalid_encrypted_content s then 0 else 1) + (if recovered_request_body_timeout s then 0 else 1)
  + (if disable_websockets s then 0 else 1).
Definition attempts_left (s : retry_state) : N := resets_left s * (stream_max_retries p + 1) + (stream_max_retries p - retries s).
Lemma after_error_decreases e s s' :
  (retries s ≤ stream_max_retries p)%N → after_error e s = inr s' →
  (retries s' ≤ stream_max_retries p)%N ∧ (attempts_left s' < attempts_left s)%N.
Proof.
  intros Hs. unfold after_error. destruct (reported_at_once e); [done|].
  destruct (is_invalid_encrypted_content_error e && negb (recovered_invalid_encrypted_content s)) eqn:He.
  { intros [= <-]. apply andb_true_iff in He as [_ He]. apply negb_true_iff in He. unfold attempts_left, resets_left; cbn. rewrite He. lia. }
  destruct (is_github_copilot_request_body_timeout e p && negb (recovered_request_body_timeout s)) eqn:Hc.
  { destruct compaction; [done|]. intros [= <-]. apply andb_true_iff in Hc as [_ Hc]. apply negb_true_iff in Hc.
    unfold attempts_left, resets_left; cbn. rewrite Hc. lia. }
  destruct (negb (is_retryable e)); [done|].
  destruct (N.leb_spec (stream_max_retries p) (retries s)) as [Hle|Hlt].
  - unfold force_http_fallback. destruct (supports_websockets p && negb (disable_websockets s)) eqn:Hw; cbn.
    + intros [= <-]. apply andb_true_iff in Hw as [_ Hw]. apply negb_true_iff in Hw. unfold attempts_left, resets_left; cbn. rewrite Hw. cbn. lia.
    + rewrite (proj2 (N.ltb_ge _ _)) by done. done.
  - rewrite (proj2 (N.ltb_lt _ _)) by done. intros [= <-]. unfold attempts_left, resets_left; cbn. lia.
Qed.
Lemma sampling_loop_ends fuel attempt n s :
  (retries s ≤ stream_max_retries p)%N → (attempts_left s < N.of_nat fuel)%N →
  (∃ r k, sampling_loop fuel attempt n s = Ok (r, k) ∧ n < k ≤ n + S (N.to_nat (attempts_left s)) ∧ attempt (pred k) = inr r) ∨
  (∃ e, sampling_loop fuel attempt n s = Err e).
Proof.
  revert n s. induction fuel as [|fuel IH]; intros n s Hr Hf; [lia|]. cbn [sampling_loop].
  destruct (attempt n) as [e|r] eqn:Ha; [|left; exists r, (S n); split; [done|]; split; [lia|done]].
  destruct (after_error e s) as [e'|s'] eqn:E; [right; eauto|]. destruct (after_error_decreases e s s' Hr E) as [Hr' Hd].
  destruct (IH (S n) s' Hr' ltac:(lia)) as [(r & k & E' & Hk & Hl)|?]; [|by right]. left. exists r, k. split; [done|]. split; [lia|done].
Qed.

(** C21. A request always ends, whatever its attempts give: after at most four times
    the budget of retries and one more attempt each, that is 404 attempts. The
    three recoveries that start the budget again (encrypted content, the timeout
    of a request body, the fallback from WebSockets) happen once each. The result
    is that of the last attempt, or an error. *)
Theorem sampling_request_ends attempt disabled :
  let most := (4 * (stream_max_retries p + 1))%N in
  (most ≤ 404)%N ∧
  ((∃ r k, run_sampling_request (N.to_nat most) attempt disabled = Ok (r, k) ∧ (N.of_nat k ≤ most)%N ∧ attempt (pred k) = inr r) ∨
   (∃ e, run_sampling_request (N.to_nat most) attempt disabled = Err e)).
Proof.
  cbn zeta. assert (Hm : (stream_max_retries p ≤ 100)%N) by (unfold stream_max_retries, MAX_STREAM_MAX_RETRIES; lia).
  split; [lia|]. assert (Ha : (attempts_left (first_state disabled) < 4 * (stream_max_retries p + 1))%N).
  { unfold attempts_left, resets_left, first_state; cbn. destruct disabled; lia. }
  destruct (sampling_loop_ends (N.to_nat (4 * (stream_max_retries p + 1))) attempt 0 (first_state disabled)) as [(r & k & E & Hk & Hl)|?];
    [cbn; lia|lia| |by right]. left. exists r, k. split; [done|]. split; [|done]. lia.
Qed.
End retries.
