(* ===== verification/Utf8Stream.v ===== *)
(** Streams of bytes: [codex-rs/utils/stream-parser/src/utf8_stream.rs], which
    feeds a parser of text from chunks that may cut a character. *)
From Stdlib Require Import ZifyN Zify.
From S2P Require Import Prelude RustStr Utf8 StreamText InlineTag.
Local Open Scope N_scope.
Local Ltac Zify.zify_post_hook ::= Z.div_mod_to_equations.

(** * The parser *)

Inductive Utf8StreamParserError : Type :=
| InvalidUtf8 (error_offset error_len : nat)
| IncompleteUtf8AtEof.
Record Utf8StreamParser (P : Type) : Type := { inner : P; pending_utf8 : list N }.
Arguments inner {P} _.
Arguments pending_utf8 {P} _.
Arguments Build_Utf8StreamParser {P} _ _.

Section utf8.
Context {P X : Type} `{StreamTextParser P X}.

Definition utf8_new (inner : P) : Utf8StreamParser P := {| inner := inner; pending_utf8 := [] |}.
Definition push_inner (p : Utf8StreamParser P) (text : str) (rest : list N)
    : Utf8StreamParser P * outcome Utf8StreamParserError (StreamTextChunk X) :=
  match push_str (inner p) text with
  | Ok (q, out) => ({| inner := q; pending_utf8 := rest |}, Ok out)
  | Err e => match e with end
  | Panic => (p, Panic)
  | OutOfFuel => (p, OutOfFuel)
  end.
(** On an error the buffer is cut back to what it was. *)
Definition push_bytes (chunk : list N) : stm (Utf8StreamParser P) Utf8StreamParserError (StreamTextChunk X) := λ p,
  let buffer := pending_utf8 p ++ chunk in
  let r := from_utf8 buffer in
  match utf8_error r with
  | None => push_inner p (decoded r) []
  | Some (Some error_len) => (p, Err (InvalidUtf8 (valid_up_to r) error_len))
  | Some None =>
      if decide (valid_up_to r = 0%nat) then ({| inner := inner p; pending_utf8 := buffer |}, Ok default_chunk)
      else
        let prefix := from_utf8 (take (valid_up_to r) buffer) in
        match utf8_error prefix with
        | None => push_inner p (decoded prefix) (drop (valid_up_to r) buffer)
        | Some e => (p, Err (InvalidUtf8 (valid_up_to prefix) (default 0%nat e)))
        end
  end.
Definition utf8_finish : stm (Utf8StreamParser P) Utf8StreamParserError (StreamTextChunk X) := λ p,
  let r := from_utf8 (pending_utf8 p) in
  match (if decide (pending_utf8 p = []) then None else utf8_error r) with
  | Some (Some error_len) => (p, Err (InvalidUtf8 (valid_up_to r) error_len))
  | Some None => (p, Err IncompleteUtf8AtEof)
  | None =>
      let '(p, pushed) :=
        if decide (pending_utf8 p = []) then (p, Ok default_chunk) else push_inner p (decoded r) [] in
      match pushed with
      | Ok out =>
          match finish (inner p) with
          | Ok (q, tail) => ({| inner := q; pending_utf8 := pending_utf8 p |}, Ok (chunk_app out tail))
          | Err e => match e with end
          | Panic => (p, Panic)
          | OutOfFuel => (p, OutOfFuel)
          end
      | failed => (p, failed)
      end
  end.
Definition into_inner (p : Utf8StreamParser P) : outcome Utf8StreamParserError P :=
  if decide (pending_utf8 p = []) then Ok (inner p)
  else match utf8_error (from_utf8 (pending_utf8 p)) with
       | None => Ok (inner p)
       | Some (Some error_len) => Err (InvalidUtf8 (valid_up_to (from_utf8 (pending_utf8 p))) error_len)
       | Some None => Err IncompleteUtf8AtEof
       end.
Definition into_inner_lossy (p : Utf8StreamParser P) : P := inner p.
End utf8.

(** * Lemmas *)

Section stream.
Context {P X : Type} `{StreamParserLaws P X}.

(** A stream of bytes: every chunk pushed, then the end. *)
Fixpoint collect_bytes (chunks : list (list N)) : stm (Utf8StreamParser P) Utf8StreamParserError (StreamTextChunk X) :=
  match chunks with
  | [] => utf8_finish
  | chunk :: chunks' => λ p,
      match push_bytes chunk p with
      | (q, Ok out) =>
          match collect_bytes chunks' q with
          | (r, Ok rest) => (r, Ok (chunk_app out rest))
          | failed => failed
          end
      | (q, Err e) => (q, Err e)
      | (q, Panic) => (q, Panic)
      | (q, OutOfFuel) => (q, OutOfFuel)
      end
  end.
Lemma push_bytes_step p pend chunk rest s :
  parser_wf p → Forall is_scalar s → pend ++ chunk ++ rest = encode_utf8 s →
  ∃ s1 s2 r, s = s1 ++ s2 ∧ r ++ rest = encode_utf8 s2 ∧ (r = [] ∨ cut_character r) ∧
    ((s1 = [] ∧ r ≠ [] ∧ push_bytes chunk (Build_Utf8StreamParser p pend) = (Build_Utf8StreamParser p r, Ok default_chunk))
     ∨ ∃ q c, push_str p s1 = Ok (q, c) ∧ parser_wf q
         ∧ push_bytes chunk (Build_Utf8StreamParser p pend) = (Build_Utf8StreamParser q r, Ok c)).
Proof.
  intros Hp Hs E. rewrite app_assoc in E.
  destruct (from_utf8_prefix s Hs _ _ E) as (s1 & s2 & r & -> & Eb & Er & Hr & Ef).
  exists s1, s2, r. split_and!; [done..|]. unfold push_bytes. cbn [pending_utf8 inner]. rewrite Ef. cbn [utf8_error valid_up_to decoded].
  destruct (push_total p s1 Hp) as (q & c & Eq & Hq).
  destruct (decide (r = [])) as [->|Hne].
  - right. exists q, c. split_and!; [done..|]. unfold push_inner. cbn [inner]. by rewrite Eq.
  - destruct (decide (length (encode_utf8 s1) = 0%nat)) as [Hz|Hz].
    + left. apply nil_length_inv in Hz. apply encode_utf8_nil in Hz as ->. split_and!; [done..|]. by rewrite Eb.
    + right. exists q, c. split_and!; [done..|]. rewrite Eb, take_app_length, drop_app_length.
      apply Forall_app in Hs as [Hs1 _].
      rewrite (from_utf8_encode s1 Hs1). cbn [utf8_error decoded]. unfold push_inner. cbn [inner]. by rewrite Eq.
Qed.
Lemma cut_character_not_whole r s : Forall is_scalar s → r = encode_utf8 s → ¬ cut_character r.
Proof. intros Hs -> [_ Hc]. rewrite from_utf8_encode in Hc by done. done. Qed.
Lemma utf8_finish_empty p q tail :
  finish p = Ok (q, tail) →
  collect_bytes [] (Build_Utf8StreamParser p []) = (Build_Utf8StreamParser q [], Ok tail).
Proof.
  intros E. cbn [collect_bytes]. unfold utf8_finish. cbn [pending_utf8]. rewrite !decide_True by done.
  cbv iota beta zeta. cbn [inner]. rewrite E. cbv iota beta. by destruct tail.
Qed.
(** The bytes of a text reach the parser inside as texts that make it up. *)
Lemma collect_bytes_texts chunks : ∀ p pend s,
  parser_wf p → Forall is_scalar s → pend = [] ∨ cut_character pend → pend ++ concat chunks = encode_utf8 s →
  ∃ texts out, collect p texts = Ok out ∧ concat texts = s ∧ (chunks ≠ [] → texts ≠ [])
    ∧ (collect_bytes chunks (Build_Utf8StreamParser p pend)).2 = Ok out.
Proof.
  induction chunks as [|chunk chunks IH]; intros p pend s Hp Hs Hpend E.
  - cbn in E. rewrite app_nil_r in E.
    destruct Hpend as [->|Hcut]; [|by destruct (cut_character_not_whole pend s Hs E)].
    symmetry in E. apply encode_utf8_nil in E as ->. destruct (finish_total p Hp) as (q & tail & Et).
    exists [], tail. unfold collect. cbn [push_all]. run_bind. rewrite Et. run_bind.
    assert (En : chunk_app default_chunk tail = tail) by (by destruct tail). rewrite En.
    split_and!; [done..|]. by rewrite (utf8_finish_empty p q tail Et).
  - destruct (push_bytes_step p pend chunk (concat chunks) s Hp Hs E) as (s1 & s2 & r & -> & Er & Hr & Hcase).
    apply Forall_app in Hs as [Hs1 Hs2]. cbn [collect_bytes].
    destruct Hcase as [(-> & Hne & ->)|(q & c & Eq & Hq & ->)].
    + destruct (IH p r s2 Hp Hs2 Hr Er) as (texts & out & Ec & Et & Hn & Eb). exists texts, out.
      split_and!; [done|done| |].
      * intros _. apply Hn. intros ->. cbn in Er. rewrite app_nil_r in Er.
        destruct Hr as [?|Hcut]; [done|]. by destruct (cut_character_not_whole r s2 Hs2 Er).
      * destruct (collect_bytes chunks _) as [q res]. cbn in *. subst res. cbn. f_equal. by destruct out.
    + destruct (IH q r s2 Hq Hs2 Hr Er) as (texts & out & Ec & Et & Hn & Eb). exists (s1 :: texts), (chunk_app c out).
      split_and!; [|by cbn; rewrite Et|done|].
      * unfold collect in *. rewrite push_all_cons, Eq. run_bind. destruct (push_all q texts) as [[p2 d]| | |]; try done.
        revert Ec. run_bind. destruct (finish p2) as [[p3 tail]| | |]; try done. run_bind. intros [= <-].
        unfold chunk_app. cbn. by rewrite !app_assoc.
      * destruct (collect_bytes chunks _) as [q' res]. cbn in *. by subst res.
Qed.

(** C40. A text sent as bytes in any chunks, even cut inside characters, gives
    what the wrapped parser gives for the text in one piece: no character is
    lost, duplicated or delayed past the end of the stream. *)
Theorem utf8_stream_decodes p chunks s :
  parser_wf p → Forall is_scalar s → chunks ≠ [] → concat chunks = encode_utf8 s →
  ∃ out out', (collect_bytes chunks (utf8_new p)).2 = Ok out ∧ collect p [s] = Ok out' ∧ chunk_equiv out out'.
Proof.
  intros Hp Hs Hne E. destruct (collect_bytes_texts chunks p [] s Hp Hs (or_introl eq_refl) E) as (texts & out & Ec & Et & Hn & Eb).
  specialize (Hn Hne). destruct texts as [|t texts]; [done|]. destruct (collect_concat p t texts Hp) as (c & c' & E1 & E2 & He).
  rewrite Ec in E1. injection E1 as <-. rewrite Et in E2. by exists out, c'.
Qed.
(** A chunk with invalid bytes is refused as a whole: the error reports
    where decoding failed, and neither the buffered bytes nor the wrapped
    parser have changed, so the stream can go on as if the chunk had not been
    sent. *)
Theorem push_bytes_rolls_back chunk p q e :
  push_bytes chunk p = (q, Err e) →
  q = p ∧ ∃ offset n, e = InvalidUtf8 offset n
    ∧ utf8_error (from_utf8 (pending_utf8 p ++ chunk)) = Some (Some n)
    ∧ valid_up_to (from_utf8 (pending_utf8 p ++ chunk)) = offset.
Proof.
  unfold push_bytes. destruct (utf8_error (from_utf8 (pending_utf8 p ++ chunk))) as [[n|]|] eqn:E.
  - intros [= <- <-]. split; [done|]. eauto.
  - destruct (decide _); [done|]. rewrite from_utf8_valid_prefix. cbn [utf8_error]. unfold push_inner.
    by destruct (push_str _ _) as [[? ?]|[]| |].
  - unfold push_inner. by destruct (push_str _ _) as [[? ?]|[]| |].
Qed.
End stream.

Lemma utf8_stream_decodes_witness :
  ∃ p, citation_new = Ok p ∧ Forall is_scalar [0x41; 0xE9]
    ∧ ∃ out out', (collect_bytes [[0x41; 0xC3]; [0xA9]] (utf8_new p)).2 = Ok out
        ∧ collect p [[0x41; 0xE9]] = Ok out' ∧ chunk_equiv out out'.
Proof.
  assert (Hs : Forall is_scalar [0x41; 0xE9]) by (repeat constructor; unfold is_scalar; lia).
  eexists. split; [reflexivity|]. split; [exact Hs|].
  apply (utf8_stream_decodes _ [[0x41; 0xC3]; [0xA9]] [0x41; 0xE9]); [by apply citation_new_wf|exact Hs|done|reflexivity].
Defined.
Lemma push_bytes_rolls_back_witness :
  ∃ p, citation_new = Ok p
    ∧ ∃ q, push_bytes [0x41; 0xFF] (Build_Utf8StreamParser p []) = (q, Err (InvalidUtf8 1 1))
        ∧ q = Build_Utf8StreamParser p [].
Proof.
  eexists. split; [reflexivity|]. eexists. split; [reflexivity|].
  refine (proj1 (push_bytes_rolls_back [0x41; 0xFF] _ _ (InvalidUtf8 1 1) _)). reflexivity.
Defined.
