(* ===== verification/AgentPath.v ===== *)
(** The names of agents: [codex-rs/protocol/src/agent_path.rs]. A path is
    [/root] followed by the names of the agents down the tree; its type keeps a
    string private, so every value comes from the constructors below. *)
From S2P Require Import Prelude RustStr.

Definition slash : N := 47.
(** [AgentPath], a wrapped [String]. *)
Record AgentPath : Type := { as_str : str }.
#[export] Instance AgentPath_eq_dec : EqDecision AgentPath.
Proof. solve_decision. Defined.
Definition ROOT : str := lit "/root".
Definition ROOT_SEGMENT : str := lit "root".
Definition root : AgentPath := {| as_str := ROOT |}.
Definition is_root (p : AgentPath) : bool := bool_decide (as_str p = ROOT).

Definition name_char (c : N) : bool := is_ascii_lowercase c || is_ascii_digit c || (c =? 95)%N.
Definition validate_agent_name (agent_name : str) : outcome str unit :=
  if bool_decide (agent_name = []) then Err (lit "agent_name must not be empty")
  else if bool_decide (agent_name = ROOT_SEGMENT) then Err (lit "agent_name `root` is reserved")
  else if bool_decide (agent_name = lit ".") || bool_decide (agent_name = lit "..") then
    Err (lit "agent_name `" ++ agent_name ++ lit "` is reserved")
  else if contains_char slash agent_name then Err (lit "agent_name must not contain `/`")
  else if negb (forallb name_char agent_name) then
    Err (lit "agent_name must use only lowercase letters, digits, and underscores")
  else Ok tt.
(** The loop over the segments, in order, up to the first error. *)
Fixpoint validate_segments (segments : list str) : outcome str unit :=
  match segments with
  | [] => Ok tt
  | segment :: segments' => _ ← validate_agent_name segment; validate_segments segments'
  end.
Definition validate_absolute_path (path : str) : outcome str unit :=
  match strip_prefix [slash] path with
  | None => Err (lit "absolute agent paths must start with `/root`")
  | Some stripped =>
      match split_char slash stripped with
      | [] => Err (lit "absolute agent path must not be empty")
      | first :: segments =>
          if negb (bool_decide (first = ROOT_SEGMENT)) then Err (lit "absolute agent paths must start with `/root`")
          else if ends_with [slash] stripped then Err (lit "absolute agent path must not end with `/`")
          else validate_segments segments
      end
  end.
Definition validate_relative_reference (reference : str) : outcome str unit :=
  if ends_with [slash] reference then Err (lit "relative agent path must not end with `/`")
  else validate_segments (split_char slash reference).

Definition from_string (path : str) : outcome str AgentPath :=
  _ ← validate_absolute_path path; Ok {| as_str := path |}.
Definition name (p : AgentPath) : str :=
  if is_root p then ROOT_SEGMENT
  else match last (split_char slash (as_str p)) with
       | Some segment => if bool_decide (segment = []) then ROOT_SEGMENT else segment
       | None => ROOT_SEGMENT
       end.
Definition join_name (p : AgentPath) (agent_name : str) : outcome str AgentPath :=
  _ ← validate_agent_name agent_name; from_string (as_str p ++ [slash] ++ agent_name).
Definition resolve (p : AgentPath) (reference : str) : outcome str AgentPath :=
  if bool_decide (reference = []) then Err (lit "agent path must not be empty")
  else if bool_decide (reference = ROOT) then Ok root
  else if starts_with [slash] reference then from_string reference
  else _ ← validate_relative_reference reference; from_string (as_str p ++ [slash] ++ reference).

Example resolve_ex :
  resolve root (lit "a/b_1") = Ok {| as_str := lit "/root/a/b_1" |}
  ∧ resolve {| as_str := lit "/root/a" |} (lit "/root/b") = Ok {| as_str := lit "/root/b" |}
  ∧ resolve root (lit "a/") = Err (lit "relative agent path must not end with `/`")
  ∧ join_name root (lit "Bad") = Err (lit "agent_name must use only lowercase letters, digits, and underscores")
  ∧ name {| as_str := lit "/root/a/b" |} = lit "b".
Proof. vm_compute. done. Qed.

(** * Well-formed paths *)

Definition valid_name (s : str) : Prop := validate_agent_name s = Ok tt.
(** The string of the path with these names below the root. *)
Definition path_of (segments : list str) : str := [slash] ++ join [slash] (ROOT_SEGMENT :: segments).
Definition agent_path_wf (p : AgentPath) : Prop := ∃ segments, Forall valid_name segments ∧ as_str p = path_of segments.

Lemma valid_name_spec s :
  valid_name s ↔ s ≠ [] ∧ s ≠ ROOT_SEGMENT ∧ Forall (λ c, name_char c = true) s.
Proof.
  unfold valid_name, validate_agent_name. rewrite Forall_forall. split.
  - repeat case_bool_decide; cbn; try done. destruct (contains_char slash s); [done|].
    destruct (forallb name_char s) eqn:E; [|done]. intros _. split_and!; [done..|].
    intros c Hc. apply list_elem_of_In in Hc. by apply (proj1 (forallb_forall _ _) E).
  - intros (Hne & Hr & Hall). rewrite !bool_decide_eq_false_2; [|by intros ->; specialize (Hall 46%N ltac:(set_solver))..|done|done].
    cbn. destruct (contains_char slash s) eqn:Ec.
    { apply contains_char_spec, Hall in Ec. done. }
    replace (forallb name_char s) with true; [done|]. symmetry. apply forallb_forall.
    intros c Hc. by apply Hall, list_elem_of_In.
Qed.
Lemma valid_name_no_slash s : valid_name s → slash ∉ s.
Proof. intros (_ & _ & Hall)%valid_name_spec Hs. rewrite Forall_forall in Hall. by apply Hall in Hs. Qed.
Lemma valid_name_ends s l : valid_name s → ends_with [slash] (l ++ s) = false.
Proof.
  intros Hs. destruct (ends_with [slash] (l ++ s)) eqn:E; [|done]. apply ends_with_spec in E as [t E].
  pose proof (valid_name_no_slash s Hs) as Hn. apply valid_name_spec in Hs as (Hne & _).
  destruct (exists_last Hne) as (s' & c & ->). rewrite app_assoc in E. apply app_inj_tail in E as [_ ->]. set_solver.
Qed.
Lemma validate_segments_Ok l : validate_segments l = Ok tt ↔ Forall valid_name l.
Proof.
  induction l as [|s l IH]; [by split|]. cbn [validate_segments]. rewrite Forall_cons, <-IH. unfold valid_name.
  destruct (validate_agent_name s) as [[]| | |]; run_bind; tauto || (split; [done|by intros [? ?]]).
Qed.
Lemma validate_agent_name_returns s : returns (validate_agent_name s).
Proof. unfold validate_agent_name. by repeat (case_bool_decide || destruct (contains_char _ _) || destruct (forallb _ _)). Qed.
Lemma validate_segments_returns l : returns (validate_segments l).
Proof.
  induction l as [|s l IH]; [done|]. cbn [validate_segments]. pose proof (validate_agent_name_returns s).
  by destruct (validate_agent_name s) as [[]| | |].
Qed.
Lemma join_split_char c s : join [c] (split_char c s) = s.
Proof.
  induction s as [|x s IH]; [done|]. cbn [split_char]. pose proof (split_char_not_nil c s) as Hne.
  destruct (N.eqb_spec x c) as [->|Hx].
  - rewrite join_cons by done. by rewrite IH.
  - destruct (split_char c s) as [|l ls] eqn:E; [done|]. rewrite <-IH. by destruct ls.
Qed.
Lemma join_app_pieces sep l k : l ≠ [] → k ≠ [] → join sep (l ++ k) = join sep l ++ sep ++ join sep k.
Proof.
  intros Hl Hk. induction l as [|x l IH]; [done|]. destruct l as [|y l]; [by apply join_cons|].
  rewrite <-app_comm_cons, !join_cons, IH by done. by rewrite <-!app_assoc.
Qed.
Lemma path_of_app l k : k ≠ [] → path_of (l ++ k) = path_of l ++ [slash] ++ join [slash] k.
Proof. intros Hk. unfold path_of. rewrite app_comm_cons, join_app_pieces by done. by rewrite <-!app_assoc. Qed.
Lemma root_no_slash : slash ∉ ROOT_SEGMENT.
Proof. intros H. by repeat (apply elem_of_cons in H as [H|H]; [done|]); apply elem_of_nil in H. Qed.
Lemma names_no_slash l : Forall valid_name l → Forall (λ s, slash ∉ s) l.
Proof. intros. eapply Forall_impl; [done|]. apply valid_name_no_slash. Qed.
(** No path ends with a separator. *)
Lemma join_names_ends l pre : l ≠ [] → Forall valid_name l → ends_with [slash] (pre ++ join [slash] l) = false.
Proof.
  intros Hne HF. destruct (exists_last Hne) as (l' & s & ->). apply Forall_app in HF as [_ HF].
  apply Forall_cons in HF as [HF _]. destruct (decide (l' = [])) as [->|Hl']; [by apply valid_name_ends|].
  rewrite join_snoc by done. rewrite !app_assoc. by apply valid_name_ends.
Qed.
Lemma validate_absolute_path_Ok s :
  validate_absolute_path s = Ok tt ↔ ∃ segments, Forall valid_name segments ∧ s = path_of segments.
Proof.
  unfold validate_absolute_path, path_of. split.
  - destruct (strip_prefix [slash] s) as [t|] eqn:E; [|done]. apply strip_prefix_Some in E as ->.
    destruct (split_char slash t) as [|first segments] eqn:Es; [done|]. case_bool_decide as Hf; [|done]. cbn [negb].
    destruct (ends_with [slash] t); [done|]. intros HF%validate_segments_Ok. exists segments. split; [done|].
    subst first. by rewrite <-Es, join_split_char.
  - intros (segments & HF & ->). rewrite strip_prefix_app, split_char_join;
      [|done|constructor; [apply root_no_slash|by apply names_no_slash]].
    rewrite bool_decide_eq_true_2 by done. cbn [negb]. replace (ends_with _ _) with false; [by apply validate_segments_Ok|].
    destruct segments as [|x l]; [done|]. rewrite join_cons, app_assoc by done. symmetry. by apply join_names_ends.
Qed.
Lemma validate_absolute_path_returns s : returns (validate_absolute_path s).
Proof.
  unfold validate_absolute_path. destruct (strip_prefix _ _); [|done]. destruct (split_char _ _); [done|].
  destruct (negb _); [done|]. destruct (ends_with _ _); [done|]. apply validate_segments_returns.
Qed.
Lemma from_string_Ok s p : from_string s = Ok p ↔ as_str p = s ∧ agent_path_wf p.
Proof.
  unfold from_string, agent_path_wf. split.
  - intros ([] & E & [= <-])%bind_Ok_inv. split; [done|]. by apply validate_absolute_path_Ok.
  - intros (<- & Hw%validate_absolute_path_Ok). rewrite Hw. by destruct p.
Qed.
Lemma from_string_path_of l : Forall valid_name l → from_string (path_of l) = Ok {| as_str := path_of l |}.
Proof. intros. apply from_string_Ok. split; [done|]. by exists l. Qed.
Lemma from_string_returns s : returns (from_string s).
Proof. unfold from_string. pose proof (validate_absolute_path_returns s). by destruct (validate_absolute_path s). Qed.
Lemma validate_relative_Ok r :
  validate_relative_reference r = Ok tt ↔ ∃ names, names ≠ [] ∧ Forall valid_name names ∧ r = join [slash] names.
Proof.
  unfold validate_relative_reference. split.
  - destruct (ends_with _ _); [done|]. intros HF%validate_segments_Ok. exists (split_char slash r).
    split_and!; [apply split_char_not_nil|done|by rewrite join_split_char].
  - intros (names & Hne & HF & ->). pose proof (join_names_ends names [] Hne HF) as E. cbn [app] in E. rewrite E.
    rewrite split_char_join; [by apply validate_segments_Ok|done|by apply names_no_slash].
Qed.
Lemma root_wf : agent_path_wf root.
Proof. by exists []. Qed.
Lemma path_of_slash l : starts_with [slash] (path_of l) = true.
Proof. apply starts_with_spec. by eexists. Qed.
Lemma join_not_slash l : Forall valid_name l → starts_with [slash] (join [slash] l) = false.
Proof.
  destruct l as [|s l]; [done|]. intros [Hs _]%Forall_cons. destruct (starts_with _ _) eqn:E; [|done].
  apply starts_with_spec in E as [t E]. pose proof (valid_name_no_slash s Hs). apply valid_name_spec in Hs as (Hne & _).
  destruct s as [|c s]; [done|]. assert (c = slash) as ->; [|set_solver]. destruct l; cbn in E; congruence.
Qed.
Lemma relative_Ok p segments names q :
  as_str p = path_of segments → Forall valid_name segments → names ≠ [] → Forall valid_name names →
  from_string (as_str p ++ [slash] ++ join [slash] names) = Ok q ↔ as_str q = path_of (segments ++ names).
Proof.
  intros -> Hs Hne Hn. rewrite <-path_of_app by done. rewrite from_string_path_of by by apply Forall_app.
  split; [by intros [= <-]|]. intros <-. by destruct q.
Qed.
Lemma split_path_of l : Forall valid_name l → split_char slash (path_of l) = [] :: ROOT_SEGMENT :: l.
Proof.
  intros HF. unfold path_of. change ([slash] ++ ?x) with ([] ++ slash :: x).
  rewrite split_char_app by set_solver. f_equal. apply split_char_join; [done|].
  constructor; [apply root_no_slash|by apply names_no_slash].
Qed.
Lemma path_of_inj l k : Forall valid_name l → Forall valid_name k → path_of l = path_of k → l = k.
Proof. intros Hl Hk E. apply (f_equal (split_char slash)) in E. rewrite !split_path_of in E by done. by injection E. Qed.
(** The name of an agent is the last one of its path. *)
Lemma name_path_of l p : Forall valid_name l → as_str p = path_of l → name p = default ROOT_SEGMENT (last l).
Proof.
  intros HF E. unfold name, is_root. rewrite E. case_bool_decide as Hr.
  { apply (path_of_inj l []) in Hr as ->; done. }
  rewrite split_path_of by done. destruct (decide (l = [])) as [->|Hne]; [done|].
  destruct (exists_last Hne) as (l' & s & ->). rewrite !app_comm_cons, !last_snoc. cbn.
  apply Forall_app in HF as [_ HF]. apply Forall_cons in HF as [(Hs & _)%valid_name_spec _].
  by rewrite bool_decide_eq_false_2.
Qed.
Lemma resolve_Ok p segments r q :
  as_str p = path_of segments → Forall valid_name segments →
  resolve p r = Ok q ↔ ∃ names, Forall valid_name names
    ∧ ((r = path_of names ∧ as_str q = path_of names)
       ∨ (names ≠ [] ∧ r = join [slash] names ∧ as_str q = path_of (segments ++ names))).
Proof.
  intros Ep Hs. unfold resolve. case_bool_decide as Hnil.
  { split; [done|]. intros (names & Hn & [[-> _]|(Hne & -> & _)]); [done|].
    pose proof (join_not_slash names Hn). destruct names as [|x l]; [done|].
    apply Forall_cons in Hn as [(Hx & _)%valid_name_spec _]. destruct l; [done|]. by destruct x. }
  case_bool_decide as Hroot.
  { subst r. split; [intros [= <-]; exists []; by split; [|left]|].
    intros (names & Hn & [[E Eq]|(Hne & E & _)]).
    - apply (path_of_inj [] names) in E as <-; [|done..]. f_equal. destruct q. by cbn in *; subst.
    - pose proof (join_not_slash names Hn) as Hj. by rewrite <-E in Hj. }
  destruct (starts_with [slash] r) eqn:Es.
  - rewrite from_string_Ok. split.
    + intros (<- & names & Hn & E). exists names. split; [done|]. by left.
    + intros (names & Hn & [[-> E]|(Hne & -> & _)]); [|by rewrite join_not_slash in Es]. split; [done|]. by exists names.
  - split.
    + intros ([] & (names & Hne & Hn & ->)%validate_relative_Ok & E)%bind_Ok_inv. exists names. split; [done|]. right.
      split_and!; [done..|]. by apply (relative_Ok p segments names q).
    + intros (names & Hn & [[-> _]|(Hne & -> & E)]); [by rewrite path_of_slash in Es|].
      rewrite (proj2 (validate_relative_Ok _)) by eauto. run_bind. by apply (relative_Ok p segments names q).
Qed.
Lemma resolve_returns p r : returns (resolve p r).
Proof.
  unfold resolve. do 2 (case_bool_decide; [done|]). destruct (starts_with _ _); [apply from_string_returns|].
  unfold validate_relative_reference. destruct (ends_with _ _); [done|].
  pose proof (validate_segments_returns (split_char slash r)).
  destruct (validate_segments _); try done. run_bind. apply from_string_returns.
Qed.

(** * Properties *)

(** The type of agent paths is sound: the root, every parsed string, every
    child and every resolved reference is [/root] followed by valid names, and
    conversely a path read back from its own string is itself, as its
    serialization requires. *)
Theorem agent_path_type p q s :
  agent_path_wf p →
  agent_path_wf root
  ∧ (from_string s = Ok q ↔ as_str q = s ∧ agent_path_wf q)
  ∧ (join_name p s = Ok q → agent_path_wf q ∧ name q = s)
  ∧ (resolve p s = Ok q → agent_path_wf q)
  ∧ from_string (as_str p) = Ok p.
Proof.
  intros (l & HF & Ep). split_and!.
  - apply root_wf.
  - apply from_string_Ok.
  - intros ([] & Hs & (E & Hq)%from_string_Ok)%bind_Ok_inv. split; [done|].
    assert (HF' : Forall valid_name (l ++ [s])) by (by apply Forall_app; split; [|constructor]).
    rewrite (name_path_of (l ++ [s])); [by rewrite last_snoc|done|]. by rewrite E, Ep, path_of_app.
  - intros (names & Hn & E)%(resolve_Ok p l s q Ep HF). destruct E as [[_ E]|(_ & _ & E)]; [by exists names|].
    exists (l ++ names). by rewrite Forall_app.
  - rewrite Ep, from_string_path_of by done. by rewrite <-Ep; destruct p.
Qed.
(** Resolving a reference always returns, and succeeds exactly for an
    absolute path, which it gives back, and for a sequence of valid names,
    which it appends; the name of the result is the last one. *)
Theorem resolve_spec p segments reference :
  as_str p = path_of segments → Forall valid_name segments →
  returns (resolve p reference)
  ∧ ∀ q, resolve p reference = Ok q ↔ ∃ names, Forall valid_name names
      ∧ ((reference = path_of names ∧ as_str q = path_of names)
         ∨ (names ≠ [] ∧ reference = join [slash] names ∧ as_str q = path_of (segments ++ names))).
Proof. intros Ep HF. split; [apply resolve_returns|]. intros q. by apply resolve_Ok. Qed.

Lemma agent_path_type_witness :
  let p := {| as_str := lit "/root/worker_1" |} in
  agent_path_wf p ∧ join_name p (lit "b2") = Ok {| as_str := lit "/root/worker_1/b2" |}
  ∧ name {| as_str := lit "/root/worker_1/b2" |} = lit "b2" ∧ from_string (as_str p) = Ok p.
Proof.
  set (p := {| as_str := lit "/root/worker_1" |}).
  assert (Hp : agent_path_wf p) by (exists [lit "worker_1"]; split; [by constructor|reflexivity]).
  assert (E : join_name p (lit "b2") = Ok {| as_str := lit "/root/worker_1/b2" |}) by reflexivity.
  destruct (agent_path_type p {| as_str := lit "/root/worker_1/b2" |} (lit "b2") Hp) as (_ & _ & Hj & _ & Hr).
  split; [exact Hp|]. split; [exact E|]. split; [exact (proj2 (Hj E))|exact Hr].
Defined.
Lemma resolve_spec_witness :
  resolve {| as_str := lit "/root/a" |} (lit "b/c_1") = Ok {| as_str := lit "/root/a/b/c_1" |}.
Proof.
  apply (resolve_spec {| as_str := lit "/root/a" |} [lit "a"] (lit "b/c_1") eq_refl); [by constructor|].
  exists [lit "b"; lit "c_1"]. split; [by repeat constructor|]. right. by split_and!.
Defined.
