(* ===== verification/AgentRegistry.v ===== *)
(** The registry of the agents of a session:
    [codex-rs/core/src/agent/registry.rs]. All agents share one registry, so
    its operations interleave: the operations on the map run under a mutex and
    are single steps here, those on the atomic counter are steps of their own.
    The names of a program's threads (UUIDs) are any type with an injective
    printing. *)
From Stdlib Require Import ZifyN.
From stdpp Require Import gmap.
From S2P Require Import Prelude RustStr AgentPath.
Local Open Scope N_scope.

Class ThreadIds (ThreadId : Type) `{EqDecision ThreadId} : Type := {
  thread_id_string : ThreadId → str;
  thread_id_string_inj : Inj (=) (=) thread_id_string }.
#[export] Existing Instance thread_id_string_inj.

Section registry.
Context {ThreadId : Type} `{ThreadIds ThreadId}.

Record AgentMetadata : Type := {
  agent_id : option ThreadId;
  agent_path : option AgentPath;
  agent_nickname : option str;
  agent_role : option str;
  last_task_message : option str }.
Definition default_metadata : AgentMetadata :=
  {| agent_id := None; agent_path := None; agent_nickname := None; agent_role := None; last_task_message := None |}.
Record ActiveAgents : Type := {
  agent_tree : gmap str AgentMetadata;
  used_agent_nicknames : gset str;
  nickname_reset_count : N }.
Record AgentRegistry : Type := { active_agents : ActiveAgents; total_count : N }.
Definition default_registry : AgentRegistry :=
  {| active_agents := {| agent_tree := ∅; used_agent_nicknames := ∅; nickname_reset_count := 0 |}; total_count := 0 |}.
Definition with_agents (f : ActiveAgents → ActiveAgents) (r : AgentRegistry) : AgentRegistry :=
  {| active_agents := f (active_agents r); total_count := total_count r |}.
Definition with_tree (f : gmap str AgentMetadata → gmap str AgentMetadata) : AgentRegistry → AgentRegistry :=
  with_agents (λ a, {| agent_tree := f (agent_tree a); used_agent_nicknames := used_agent_nicknames a;
                       nickname_reset_count := nickname_reset_count a |}).
Definition tree (r : AgentRegistry) : gmap str AgentMetadata := agent_tree (active_agents r).

(** The order in which a [HashMap] is iterated is not specified. *)
Class HashOrder : Type := {
  entries : gmap str AgentMetadata → list (str * AgentMetadata);
  entries_perm t : entries t ≡ₚ map_to_list t }.
Definition sorted_order : HashOrder := {| entries := map_to_list; entries_perm _ := reflexivity _ |}.

(** ** Spawn depth *)

Inductive SubAgentSource : Type :=
| Review | Compact | MemoryConsolidation | OtherSource (s : str)
| ThreadSpawn (parent_thread_id : ThreadId) (depth : Z) (agent_path : option AgentPath)
    (agent_nickname agent_role : option str).
Inductive SessionSource : Type :=
| Cli | VSCode | Exec | Mcp | Custom (s : str) | SubAgent (s : SubAgentSource) | UnknownSource.
(** Depths are [i32]. *)
Definition I32_MAX : Z := 2147483647.
Definition session_depth (s : SessionSource) : Z :=
  match s with SubAgent (ThreadSpawn _ depth _ _ _) => depth | _ => 0 end.
Definition next_thread_spawn_depth (s : SessionSource) : Z := Z.min (session_depth s + 1) I32_MAX.
Definition exceeds_thread_spawn_depth_limit (depth max_depth : Z) : bool := (max_depth <? depth)%Z.

(** ** Operations under the mutex *)

Definition has_id (t : ThreadId) (e : str * AgentMetadata) : bool := bool_decide (agent_id e.2 = Some t).
(** An entry that takes one of the slots of the counter once its agent lives. *)
Definition rooted (md : AgentMetadata) : bool := match agent_path md with Some p => is_root p | None => false end.
Definition counted (md : AgentMetadata) : bool := bool_decide (is_Some (agent_id md)) && negb (rooted md).

(** The first part of [release_spawned_thread]; the counter follows. *)
Definition release_entry `{HashOrder} (t : ThreadId) (r : AgentRegistry) : AgentRegistry * bool :=
  match fst <$> List.find (has_id t) (entries (tree r)) with
  | None => (r, false)
  | Some key =>
      (with_tree (delete key) r,
       match tree r !! key with Some md => negb (rooted md) | None => false end)
  end.
Definition register_root_thread (t : ThreadId) (r : AgentRegistry) : AgentRegistry :=
  match tree r !! ROOT with
  | Some _ => r
  | None =>
      with_tree (<[ROOT := {| agent_id := Some t; agent_path := Some root; agent_nickname := None;
                              agent_role := None; last_task_message := None |}]>) r
  end.
Definition agent_id_for_path (p : AgentPath) (r : AgentRegistry) : option ThreadId :=
  md ← tree r !! as_str p; agent_id md.
Definition agent_metadata_for_thread `{HashOrder} (t : ThreadId) (r : AgentRegistry) : option AgentMetadata :=
  snd <$> List.find (has_id t) (entries (tree r)).
Definition live_agents `{HashOrder} (r : AgentRegistry) : list AgentMetadata :=
  filter (λ md, counted md = true) (snd <$> entries (tree r)).
Definition update_last_task_message `{HashOrder} (t : ThreadId) (message : str) (r : AgentRegistry) : AgentRegistry :=
  match List.find (has_id t) (entries (tree r)) with
  | None => r
  | Some (key, md) =>
      with_tree (<[key := {| agent_id := agent_id md; agent_path := agent_path md; agent_nickname := agent_nickname md;
                             agent_role := agent_role md; last_task_message := Some message |}]>) r
  end.
Definition metadata_key (t : ThreadId) (md : AgentMetadata) : str :=
  match agent_path md with Some p => as_str p | None => lit "thread:" ++ thread_id_string t end.
Definition register_spawned_thread (md : AgentMetadata) (r : AgentRegistry) : AgentRegistry :=
  match agent_id md with
  | None => r
  | Some t =>
      with_agents (λ a,
        {| agent_tree := <[metadata_key t md := md]> (agent_tree a);
           used_agent_nicknames :=
             match agent_nickname md with Some n => {[n]} ∪ used_agent_nicknames a | None => used_agent_nicknames a end;
           nickname_reset_count := nickname_reset_count a |}) r
  end.
Definition reserve_agent_path (p : AgentPath) (r : AgentRegistry) : outcome str AgentRegistry :=
  match tree r !! as_str p with
  | Some _ => Err (lit "agent path `" ++ as_str p ++ lit "` already exists")
  | None =>
      Ok (with_tree (<[as_str p := {| agent_id := None; agent_path := Some p; agent_nickname := None;
                                      agent_role := None; last_task_message := None |}]>) r)
  end.
Definition release_reserved_agent_path (p : AgentPath) (r : AgentRegistry) : AgentRegistry :=
  match tree r !! as_str p with
  | Some md => if decide (agent_id md = None) then with_tree (delete (as_str p)) r else r
  | None => r
  end.

(** ** Nicknames *)

(** The count of resets is a [usize] that grows by one when every name has been
    given out; it is not assumed to wrap. *)
Definition ordinal_suffix (value : N) : str :=
  if (11 <=? value mod 100) && (value mod 100 <=? 13) then lit "th"
  else if value mod 10 =? 1 then lit "st"
  else if value mod 10 =? 2 then lit "nd"
  else if value mod 10 =? 3 then lit "rd"
  else lit "th".
Definition format_agent_nickname (name : str) (nickname_reset_count : N) : str :=
  if nickname_reset_count =? 0 then name
  else let value := nickname_reset_count + 1 in name ++ lit " the " ++ show_N value ++ ordinal_suffix value.

(** [choose] is a random choice in a slice; the crate returns [None] for the
    empty slice only. *)
Definition chooses (choose : list str → option str) : Prop :=
  ∀ l, match choose l with Some x => x ∈ l | None => l = [] end.
Definition available_names (names : list str) (a : ActiveAgents) : list str :=
  filter (λ n, n ∉ used_agent_nicknames a) ((λ n, format_agent_nickname n (nickname_reset_count a)) <$> names).
Definition use_nickname (n : str) (a : ActiveAgents) : ActiveAgents :=
  {| agent_tree := agent_tree a; used_agent_nicknames := {[n]} ∪ used_agent_nicknames a;
     nickname_reset_count := nickname_reset_count a |}.
Definition reset_nicknames (a : ActiveAgents) : ActiveAgents :=
  {| agent_tree := agent_tree a; used_agent_nicknames := ∅; nickname_reset_count := nickname_reset_count a + 1 |}.
Definition reserve_agent_nickname (choose : list str → option str) (names : list str) (preferred : option str)
    (r : AgentRegistry) : AgentRegistry * option str :=
  let a := active_agents r in
  match preferred with
  | Some n => (with_agents (use_nickname n) r, Some n)
  | None =>
      if decide (names = []) then (r, None)
      else match choose (available_names names a) with
           | Some n => (with_agents (use_nickname n) r, Some n)
           | None =>
               let a := reset_nicknames a in
               match choose names with
               | None => (with_agents (λ _, a) r, None)
               | Some n =>
                   let n := format_agent_nickname n (nickname_reset_count a) in
                   (with_agents (λ _, use_nickname n a) r, Some n)
               end
           end
  end.

(** ** The counter of spawned threads, an atomic [usize] *)

Definition fetch_add (r : AgentRegistry) : AgentRegistry :=
  {| active_agents := active_agents r;
     total_count := if total_count r =? USIZE_MAX then 0 else total_count r + 1 |}.
Definition fetch_sub (r : AgentRegistry) : AgentRegistry :=
  {| active_agents := active_agents r;
     total_count := if total_count r =? 0 then USIZE_MAX else total_count r - 1 |}.
(** One round of the loop of [try_increment_spawned], from the count it last
    read; [compare_exchange_weak] may fail without a reason. *)
Inductive increment_result : Type := Rejected | Incremented | Updated (current : N).
Definition try_increment_round (max_threads current : N) (spurious : bool) (r : AgentRegistry)
    : AgentRegistry * increment_result :=
  if max_threads <=? current then (r, Rejected)
  else if (total_count r =? current) && negb spurious then
    ({| active_agents := active_agents r; total_count := current + 1 |}, Incremented)
  else (r, Updated (total_count r)).

(** ** Reservations *)

Record SpawnReservation : Type := {
  active : bool; reserved_agent_nickname : option str; reserved_agent_path : option AgentPath }.
Definition new_reservation : SpawnReservation :=
  {| active := true; reserved_agent_nickname := None; reserved_agent_path := None |}.
Definition reserve_agent_nickname_with_preference (choose : list str → option str) (names : list str)
    (preferred : option str) : stm (AgentRegistry * SpawnReservation) str str := λ '(r, s),
  let '(r', n) := reserve_agent_nickname choose names preferred r in
  match n with
  | None => ((r', s), Err (lit "no available agent nicknames"))
  | Some n =>
      ((r', {| active := active s; reserved_agent_nickname := Some n; reserved_agent_path := reserved_agent_path s |}),
       Ok n)
  end.
Definition reservation_path (p : AgentPath) : stm (AgentRegistry * SpawnReservation) str unit := λ '(r, s),
  match reserve_agent_path p r with
  | Ok r' =>
      ((r', {| active := active s; reserved_agent_nickname := reserved_agent_nickname s; reserved_agent_path := Some p |}),
       Ok tt)
  | Err e => ((r, s), Err e)
  | Panic => ((r, s), Panic)
  | OutOfFuel => ((r, s), OutOfFuel)
  end.
Definition commit (md : AgentMetadata) (r : AgentRegistry) (s : SpawnReservation) : AgentRegistry * SpawnReservation :=
  (register_spawned_thread md r, {| active := false; reserved_agent_nickname := None; reserved_agent_path := None |}).
(** The first part of [drop]; the counter follows when the reservation is active. *)
Definition drop_entry (r : AgentRegistry) (s : SpawnReservation) : AgentRegistry :=
  if active s then
    match reserved_agent_path s with Some p => release_reserved_agent_path p r | None => r end
  else r.
(** ** The threads that use a registry *)

(** What a thread is doing: nothing, the loop of [try_increment_spawned], using
    its reservation, or about to give its slot back. *)
Inductive actor : Type :=
| Idle | Incrementing (max_threads current : N) | Holding (s : SpawnReservation) | GivingBack.
Record system : Type := { shared : AgentRegistry; actors : list actor }.
Definition update (r : AgentRegistry) (i : nat) (a : actor) (s : system) : system :=
  {| shared := r; actors := <[i := a]> (actors s) |}.

(** How [core/src/agent/control.rs] uses a reservation: at most one path, below
    the root, and a commit of a new thread under that path. *)
Definition path_protocol (p : AgentPath) (s : SpawnReservation) : Prop :=
  agent_path_wf p ∧ p ≠ root ∧ reserved_agent_path s = None.
Definition commit_protocol (md : AgentMetadata) (r : AgentRegistry) (s : SpawnReservation) : Prop :=
  agent_path md = reserved_agent_path s
  ∧ ∃ t, agent_id md = Some t ∧ ∀ key md', tree r !! key = Some md' → agent_id md' ≠ Some t.

(** [limit] is the largest [max_threads] in use, [None] when there is none;
    [protocol] tells whether callers follow the protocol above. *)
Inductive step `{HashOrder} (limit : option N) (protocol : bool) : system → system → Prop :=
| step_load s i max_threads :
    actors s !! i = Some Idle → (∀ M, limit = Some M → max_threads ≤ M) → max_threads ≤ USIZE_MAX →
    step limit protocol s (update (shared s) i (Incrementing max_threads (total_count (shared s))) s)
| step_increment s i max_threads current spurious r result :
    actors s !! i = Some (Incrementing max_threads current) →
    try_increment_round max_threads current spurious (shared s) = (r, result) →
    step limit protocol s
      (update r i match result with
                  | Rejected => Idle
                  | Incremented => Holding new_reservation
                  | Updated current => Incrementing max_threads current
                  end s)
| step_unlimited s i :
    actors s !! i = Some Idle → limit = None → total_count (shared s) < USIZE_MAX →
    step limit protocol s (update (fetch_add (shared s)) i (Holding new_reservation) s)
| step_register_root s t : step limit protocol s {| shared := register_root_thread t (shared s); actors := actors s |}
| step_update_message s t message :
    step limit protocol s {| shared := update_last_task_message t message (shared s); actors := actors s |}
| step_nickname s i v choose names preferred r v' result :
    actors s !! i = Some (Holding v) → active v = true → chooses choose →
    reserve_agent_nickname_with_preference choose names preferred (shared s, v) = ((r, v'), result) →
    step limit protocol s (update r i (Holding v') s)
| step_path s i v p r v' result :
    actors s !! i = Some (Holding v) → active v = true → (protocol = true → path_protocol p v) →
    reservation_path p (shared s, v) = ((r, v'), result) →
    step limit protocol s (update r i (Holding v') s)
| step_commit s i v md r v' :
    actors s !! i = Some (Holding v) → active v = true → (protocol = true → commit_protocol md (shared s) v) →
    commit md (shared s) v = (r, v') → step limit protocol s (update r i (Holding v') s)
| step_drop s i v :
    actors s !! i = Some (Holding v) →
    step limit protocol s (update (drop_entry (shared s) v) i (if active v then GivingBack else Idle) s)
| step_release s i t r removed :
    actors s !! i = Some Idle → release_entry t (shared s) = (r, removed) →
    step limit protocol s (update r i (if removed : bool then GivingBack else Idle) s)
| step_give_back s i :
    actors s !! i = Some GivingBack → step limit protocol s (update (fetch_sub (shared s)) i Idle s).
Definition initial (threads : nat) : system := {| shared := default_registry; actors := replicate threads Idle |}.

(** * Lemmas *)

(** ** The number of slots in use *)

Definition weight (md : AgentMetadata) : nat := if counted md then 1 else 0.
Definition count (t : gmap str AgentMetadata) : nat := sum_list_with (λ e, weight e.2) (map_to_list t).
Definition holds (a : actor) : nat :=
  match a with Holding s => if active s then 1 else 0 | GivingBack => 1 | _ => 0 end.
Definition held (l : list actor) : nat := sum_list_with holds l.
Definition slots (s : system) : nat := count (tree (shared s)) + held (actors s).

Lemma count_insert_new t k md : t !! k = None → count (<[k := md]> t) = (weight md + count t)%nat.
Proof. intros Hk. unfold count. by rewrite (sum_list_with_perm _ _ _ (map_to_list_insert t k md Hk)). Qed.
Lemma count_delete t k md : t !! k = Some md → count t = (weight md + count (delete k t))%nat.
Proof. intros Hk. unfold count. by rewrite <-(sum_list_with_perm _ _ _ (map_to_list_delete t k md Hk)). Qed.
Lemma count_insert t k md old : t !! k = Some old → (count (<[k := md]> t) + weight old = count t + weight md)%nat.
Proof.
  intros Hk. rewrite <-insert_delete_eq, count_insert_new by apply lookup_delete_eq. rewrite (count_delete t k old Hk). lia.
Qed.
Lemma held_update l i a b : l !! i = Some a → (held (<[i := b]> l) + holds a = held l + holds b)%nat.
Proof.
  apply sum_list_with_insert.
Qed.
Lemma held_replicate n : held (replicate n Idle) = 0%nat.
Proof. unfold held. rewrite sum_list_with_replicate. apply Nat.mul_0_r. Qed.

Section order.
Context `{HashOrder}.
Lemma elem_of_entries t k md : (k, md) ∈ entries t ↔ t !! k = Some md.
Proof. rewrite entries_perm. apply elem_of_map_to_list. Qed.
Lemma find_entry t r k md : List.find (has_id t) (entries (tree r)) = Some (k, md) → tree r !! k = Some md ∧ agent_id md = Some t.
Proof.
  intros [Hin Hid]%find_some. apply list_elem_of_In, elem_of_entries in Hin. split; [done|].
  by apply bool_decide_eq_true in Hid.
Qed.
Lemma length_live_agents r : length (live_agents r) = count (tree r).
Proof.
  unfold live_agents, count. rewrite <-(sum_list_with_perm _ _ _ (entries_perm (tree r))). unfold weight.
  induction (entries (tree r)) as [|[k md] l IH]; [done|]. rewrite fmap_cons, filter_cons. cbn [sum_list_with snd].
  destruct (counted md); simpl; lia.
Qed.

Lemma count_release t r : let '(r', removed) := release_entry t r in
  total_count r' = total_count r ∧ count (tree r) = ((if removed : bool then 1 else 0) + count (tree r'))%nat.
Proof.
  unfold release_entry. destruct (List.find _ _) as [[k md]|] eqn:E; [|done]. cbn [fmap option_fmap option_map fst].
  apply find_entry in E as [Ek Eid]. rewrite Ek. split; [done|]. rewrite (count_delete _ _ _ Ek).
  unfold weight, counted. rewrite Eid. rewrite bool_decide_eq_true_2 by done. done.
Qed.

(** ** What each operation does to the slots *)

Definition same_slots (r r' : AgentRegistry) : Prop := total_count r' = total_count r ∧ count (tree r') = count (tree r).
Lemma register_root_slots t r : same_slots r (register_root_thread t r).
Proof.
  unfold register_root_thread. destruct (tree r !! ROOT) eqn:E; [done|]. split; [done|].
  by apply count_insert_new.
Qed.
Lemma update_message_slots t message r : same_slots r (update_last_task_message t message r).
Proof.
  unfold update_last_task_message. destruct (List.find _ _) as [[k md]|] eqn:E; [|done]. apply find_entry in E as [Ek _].
  split; [done|]. apply (Nat.add_cancel_r _ _ (weight md)). etrans; [apply (count_insert (tree r) k _ md Ek)|done].
Qed.
Lemma reserve_nickname_tree choose names preferred r s r' s' result :
  reserve_agent_nickname_with_preference choose names preferred (r, s) = ((r', s'), result) →
  total_count r' = total_count r ∧ tree r' = tree r ∧ active s' = active s ∧ reserved_agent_path s' = reserved_agent_path s.
Proof.
  unfold reserve_agent_nickname_with_preference, reserve_agent_nickname.
  destruct preferred as [nick|]; [by intros [= <- <- _]|]. destruct (decide (names = [])); [by intros [= <- <- _]|].
  destruct (choose (available_names _ _)) as [nick|]; [by intros [= <- <- _]|].
  destruct (choose names) as [nick|]; by intros [= <- <- _].
Qed.
Lemma reservation_path_cases p r s r' s' result :
  reservation_path p (r, s) = ((r', s'), result) →
  (r' = r ∧ s' = s)
  ∨ (tree r !! as_str p = None ∧ total_count r' = total_count r ∧ active s' = active s ∧ reserved_agent_path s' = Some p
     ∧ ∃ md, tree r' = <[as_str p := md]> (tree r) ∧ agent_id md = None ∧ agent_path md = Some p).
Proof.
  unfold reservation_path, reserve_agent_path. destruct (tree r !! as_str p) eqn:E; intros [= <- <- _]; [by left|].
  right. split_and!; [done..|]. eexists. by split_and!.
Qed.
Lemma weight_no_id md : agent_id md = None → weight md = 0%nat.
Proof. unfold weight, counted. intros ->. by rewrite bool_decide_eq_false_2 by by intros []. Qed.
Lemma reservation_path_slots p r s r' s' result :
  reservation_path p (r, s) = ((r', s'), result) → same_slots r r' ∧ active s' = active s.
Proof.
  intros [[-> ->]|(E & Et & Ea & _ & md & Etree & Hid & _)]%reservation_path_cases; [done|]. split; [split; [done|]|done].
  rewrite Etree, count_insert_new, weight_no_id by done. done.
Qed.
Lemma weight_le md : (weight md ≤ 1)%nat.
Proof. unfold weight. destruct (counted md); lia. Qed.
Lemma register_spawned_slots md r :
  total_count (register_spawned_thread md r) = total_count r
  ∧ (count (tree (register_spawned_thread md r)) ≤ count (tree r) + 1)%nat.
Proof.
  unfold register_spawned_thread. destruct (agent_id md) as [t|]; [|split; [done|lia]]. split; [done|].
  unfold tree. cbn [with_agents active_agents agent_tree]. set (tr := agent_tree _). pose proof (weight_le md).
  destruct (tr !! metadata_key t md) as [old|] eqn:E; [pose proof (count_insert tr _ md old E); lia|].
  rewrite count_insert_new by done. lia.
Qed.
Lemma drop_entry_slots r s : same_slots r (drop_entry r s).
Proof.
  unfold drop_entry, release_reserved_agent_path. destruct (active s); [|done].
  destruct (reserved_agent_path s) as [p|]; [|done]. destruct (tree r !! as_str p) as [md|] eqn:E; [|done].
  destruct (decide (agent_id md = None)) as [Hid|]; [|done]. split; [done|].
  rewrite (count_delete (tree r) _ _ E), weight_no_id by done. done.
Qed.

(** ** The counter covers the slots *)

Definition within (limit : option N) (n : N) : Prop := (∀ M, limit = Some M → n ≤ M) ∧ n ≤ USIZE_MAX.
Definition actor_within (limit : option N) (a : actor) : Prop :=
  match a with Incrementing max_threads _ => within limit max_threads | _ => True end.
Definition covered (limit : option N) (s : system) : Prop :=
  N.of_nat (slots s) ≤ total_count (shared s) ∧ within limit (total_count (shared s))
  ∧ Forall (actor_within limit) (actors s).
Lemma covered_initial limit n : covered limit (initial n).
Proof.
  split_and!; [| |by apply Forall_replicate].
  - unfold slots, count. cbn. rewrite held_replicate. done.
  - split; [intros; apply N.le_0_l|done].
Qed.
Lemma covered_update limit s i a b r :
  covered limit s → actors s !! i = Some a → actor_within limit b →
  within limit (total_count r) →
  (N.of_nat (count (tree r) + holds b) + total_count (shared s)
   ≤ total_count r + N.of_nat (count (tree (shared s)) + holds a)) →
  covered limit (update r i b s).
Proof.
  intros (Hs & _ & HF) Hi Hb Hw Hc. split_and!; [|done|by apply Forall_insert].
  unfold slots in *. cbn [update shared actors]. pose proof (held_update _ _ _ b Hi). lia.
Qed.
Lemma held_in l i a : l !! i = Some a → (holds a ≤ held l)%nat.
Proof. intros Hi. pose proof (held_update l i a Idle Hi). cbn [holds] in *. lia. Qed.
Lemma covered_step limit protocol s s' : covered limit s → step limit protocol s s' → covered limit s'.
Proof.
  intros Hc Hstep. pose proof Hc as (Hs & [Hlim Hmax] & HF).
  destruct Hstep as [s i m Hi Hm Hm'|s i m current spurious r result Hi E|s i Hi Hnone Hlt|s t|s t message
    |s i v choose names preferred r v' result Hi Ha _ E|s i v p r v' result Hi Ha _ E|s i v md r v' Hi Ha _ E
    |s i v Hi|s i t r removed Hi E|s i Hi].
  - eapply covered_update; [done..|]. cbn [holds]. lia.
  - rewrite Forall_lookup in HF. pose proof (HF _ _ Hi) as [Hm Hm']. unfold try_increment_round in E.
    destruct (N.leb_spec m current); [injection E as <- <-; eapply covered_update; [done..|cbn [holds]; lia]|].
    destruct (N.eqb_spec (total_count (shared s)) current) as [Et|Et]; cbn [andb] in E;
      [destruct spurious; cbn [negb] in E|]; injection E as <- <-; try (eapply covered_update; [done..|cbn [holds]; lia]).
    eapply covered_update; [done..| |cbn; unfold tree; cbn; lia].
    split; cbn [total_count]; [intros M EM; specialize (Hm M EM)|]; lia.
  - eapply covered_update; [done..| |]; unfold fetch_add; destruct (N.eqb_spec (total_count (shared s)) USIZE_MAX); try lia.
    + split; cbn [total_count]; [by rewrite Hnone|lia].
    + cbn [total_count holds active new_reservation]. unfold tree. cbn [active_agents]. lia.
  - pose proof (register_root_slots t (shared s)) as [E1 E2]. unfold covered, slots, within in *. cbn [shared actors]. by rewrite E1, E2.
  - pose proof (update_message_slots t message (shared s)) as [E1 E2]. unfold covered, slots, within in *. cbn [shared actors]. by rewrite E1, E2.
  - apply reserve_nickname_tree in E as (E1 & E2 & E3 & _). eapply covered_update; [done..| |]; [by rewrite E1|].
    rewrite E1, E2. cbn [holds]. rewrite E3. lia.
  - apply reservation_path_slots in E as [[E1 E2] E3]. eapply covered_update; [done..| |]; [by rewrite E1|].
    rewrite E1, E2. cbn [holds]. rewrite E3. lia.
  - injection E as <- <-. pose proof (register_spawned_slots md (shared s)) as [E1 E2].
    eapply covered_update; [done..| |]; [by rewrite E1|]. rewrite E1. cbn [holds active]. rewrite Ha. lia.
  - pose proof (drop_entry_slots (shared s) v) as [E1 E2]. eapply covered_update; [done|done|by destruct (active v)| |]; [by rewrite E1|].
    rewrite E1, E2. cbn [holds]. destruct (active v); cbn [holds]; lia.
  - pose proof (count_release t (shared s)) as Hr. rewrite E in Hr. destruct Hr as [E1 E2].
    eapply covered_update; [done|done|by destruct removed| |]; [by rewrite E1|]. rewrite E1, E2. destruct removed; cbn [holds]; lia.
  - pose proof (held_in _ _ _ Hi) as Hh. cbn [holds] in Hh. unfold slots in Hs. unfold fetch_sub.
    destruct (N.eqb_spec (total_count (shared s)) 0) as [Ez|Ez]; [lia|].
    eapply covered_update; [done..| |]; cbn [total_count].
    + split; cbn [total_count]; [intros M EM; specialize (Hlim M EM)|]; lia.
    + cbn [holds]. unfold tree. cbn [active_agents]. lia.
Qed.
Lemma covered_reachable limit protocol n s : rtc (step limit protocol) (initial n) s → covered limit s.
Proof.
  intros Hr. assert (Hc : covered limit (initial n)) by apply covered_initial. revert Hc.
  induction Hr as [|s1 s2 s3 Hs _ IH]; [done|]. intros Hc. apply IH. by eapply covered_step.
Qed.

(** ** Callers that follow the protocol *)

Definition placeholder (tr : gmap str AgentMetadata) (p : AgentPath) : Prop :=
  ∃ md, tr !! as_str p = Some md ∧ agent_id md = None.
Definition filed (key : str) (md : AgentMetadata) : Prop :=
  (∃ p, agent_path md = Some p ∧ key = as_str p ∧ agent_path_wf p)
  ∨ (∃ t, agent_path md = None ∧ agent_id md = Some t ∧ key = lit "thread:" ++ thread_id_string t).
Definition actor_path (a : actor) : option AgentPath :=
  match a with Holding v => if active v then reserved_agent_path v else None | _ => None end.
Definition holds_path (s : system) (i : nat) (p : AgentPath) : Prop :=
  ∃ a, actors s !! i = Some a ∧ actor_path a = Some p.
Record exact (s : system) : Prop := {
  exact_count : N.of_nat (slots s) = total_count (shared s);
  exact_filed : map_Forall filed (tree (shared s));
  exact_paths i p : holds_path s i p → p ≠ root ∧ agent_path_wf p ∧ placeholder (tree (shared s)) p;
  exact_exclusive i j p : holds_path s i p → holds_path s j p → i = j }.

Lemma exact_initial n : exact (initial n).
Proof.
  split.
  - unfold slots, count. cbn. by rewrite held_replicate.
  - apply map_Forall_empty.
  - intros i p (a & [-> _]%lookup_replicate & Ha). done.
  - intros i j p (a & [-> _]%lookup_replicate & Ha). done.
Qed.
Lemma holds_path_update s r i b j p :
  holds_path (update r i b s) j p → (j = i ∧ actor_path b = Some p) ∨ (j ≠ i ∧ holds_path s j p).
Proof.
  intros (a & Ha & Hp). cbn in Ha. apply list_lookup_insert_Some in Ha as [(-> & -> & _)|[Hne Ha]]; [by left|].
  right. split; [done|]. by exists a.
Qed.
Lemma exact_update s i a b r :
  exact s → actors s !! i = Some a →
  N.of_nat (count (tree r) + holds b) + total_count (shared s)
    = total_count r + N.of_nat (count (tree (shared s)) + holds a) →
  map_Forall filed (tree r) →
  (∀ j p, j ≠ i → holds_path s j p → placeholder (tree r) p) →
  (∀ p, actor_path b = Some p →
    p ≠ root ∧ agent_path_wf p ∧ placeholder (tree r) p ∧ ∀ j, j ≠ i → ¬ holds_path s j p) →
  exact (update r i b s).
Proof.
  intros He Hi Hc Hf Hother Hown. split.
  - pose proof (exact_count s He) as Hs. unfold slots in *. cbn [update shared actors]. pose proof (held_update _ _ _ b Hi). lia.
  - done.
  - intros j p [[-> Hp]|[Hne Hp]]%holds_path_update; [by destruct (Hown p Hp) as (? & ? & ? & _)|].
    destruct (exact_paths s He j p Hp) as (? & ? & _). split_and!; [done..|]. by eapply Hother.
  - intros j k p [[-> Hp]|[Hne Hp]]%holds_path_update [[-> Hp']|[Hne' Hp']]%holds_path_update; try done.
    + by destruct (Hown p Hp) as (_ & _ & _ & Hno); destruct (Hno k Hne').
    + by destruct (Hown p Hp') as (_ & _ & _ & Hno); destruct (Hno j Hne).
    + by eapply exact_exclusive.
Qed.
(** Operations of others leave the placeholders of a path in place. *)
Lemma exact_same s i a b r :
  exact s → actors s !! i = Some a → tree r = tree (shared s) → total_count r = total_count (shared s) →
  holds b = holds a → actor_path b = actor_path a → exact (update r i b s).
Proof.
  intros He Hi Et Ec Hh Hp. eapply exact_update; [done..| | | |]; rewrite ?Et, ?Ec, ?Hh; [lia|apply (exact_filed s He)| |].
  - intros j p _ Hj. by eapply exact_paths.
  - intros p Hb. rewrite Hp in Hb. assert (Hhp : holds_path s i p) by by exists a.
    destruct (exact_paths s He i p Hhp) as (? & ? & ?). split_and!; [done..|].
    intros j Hne Hj. by destruct (Hne (exact_exclusive s He _ _ _ Hj Hhp)).
Qed.
Lemma placeholder_insert tr key md p : key ≠ as_str p → placeholder tr p → placeholder (<[key := md]> tr) p.
Proof. intros Hne (md' & E & Hid). exists md'. by rewrite lookup_insert_ne. Qed.
Lemma placeholder_delete tr key p : key ≠ as_str p → placeholder tr p → placeholder (delete key tr) p.
Proof. intros Hne (md' & E & Hid). exists md'. by rewrite lookup_delete_ne. Qed.
Lemma AgentPath_eq p q : as_str p = as_str q → p = q.
Proof. destruct p, q. by intros [= ->]. Qed.
Lemma path_not_thread p t : agent_path_wf p → as_str p ≠ lit "thread:" ++ thread_id_string t.
Proof. by intros (l & _ & ->). Qed.
Lemma exact_count_le s limit a i : covered limit s → actors s !! i = Some a → N.of_nat (holds a) ≤ total_count (shared s).
Proof. intros (Hs & _) Hi. pose proof (held_in _ _ _ Hi). unfold slots in Hs. lia. Qed.
Lemma exact_path s i v p r v' result :
  exact s → actors s !! i = Some (Holding v) → active v = true → path_protocol p v →
  reservation_path p (shared s, v) = ((r, v'), result) → exact (update r i (Holding v') s).
Proof.
  intros He Hi Ha (Hwf & Hroot & Hv) E. pose proof (reservation_path_slots _ _ _ _ _ _ E) as [[E1 E2] E3].
  apply reservation_path_cases in E as [[-> ->]|(Ev & _ & Ea & Ep & md & Et & Hid & Hpath)]; [by eapply exact_same|].
  eapply exact_update; [done..| | | |].
  - rewrite E1, E2. cbn [holds]. rewrite E3. lia.
  - rewrite Et. apply map_Forall_insert_2; [left; by exists p|apply (exact_filed s He)].
  - intros k q _ Hk. destruct (exact_paths s He k q Hk) as (_ & _ & Hq). rewrite Et. apply placeholder_insert; [|done].
    intros E. destruct Hq as (md' & Hq & _). by rewrite <-E, Ev in Hq.
  - intros q. cbn [actor_path]. rewrite Ea, Ha, Ep. intros [= <-]. split_and!; [done..| |].
    + rewrite Et. exists md. by rewrite lookup_insert_eq.
    + intros k _ Hk. destruct (exact_paths s He k p Hk) as (_ & _ & md' & Hq & _). by rewrite Ev in Hq.
Qed.
Lemma register_spawned_tree md r t :
  agent_id md = Some t → tree (register_spawned_thread md r) = <[metadata_key t md := md]> (tree r).
Proof. unfold register_spawned_thread. by intros ->. Qed.
Lemma weight_spawned md t : agent_id md = Some t → rooted md = false → weight md = 1%nat.
Proof. unfold weight, counted. intros -> ->. by rewrite bool_decide_eq_true_2. Qed.
Lemma exact_commit s i v md :
  exact s → actors s !! i = Some (Holding v) → active v = true → commit_protocol md (shared s) v →
  exact (update (register_spawned_thread md (shared s)) i (Holding (commit md (shared s) v).2) s).
Proof.
  intros He Hi Ha (Hpath & t & Hid & Hfresh).
  assert (Hown : ∀ p, reserved_agent_path v = Some p → holds_path s i p).
  { intros p Hp. exists (Holding v). split; [done|]. cbn. by rewrite Ha. }
  assert (Hcases : filed (metadata_key t md) md ∧ rooted md = false
    ∧ (tree (shared s) !! metadata_key t md = None
       ∨ ∃ old, tree (shared s) !! metadata_key t md = Some old ∧ agent_id old = None)
    ∧ ∀ k p, k ≠ i → holds_path s k p → metadata_key t md ≠ as_str p).
  { unfold metadata_key, rooted. rewrite Hpath. destruct (reserved_agent_path v) as [p|] eqn:Ep.
    - destruct (exact_paths s He i p (Hown p eq_refl)) as (Hroot & Hwf & Hph). split_and!; [left; by exists p| |by right|].
      + unfold is_root. apply bool_decide_eq_false_2. intros E. by destruct Hroot; apply (AgentPath_eq p root).
      + intros k q Hne Hk E. apply AgentPath_eq in E as <-. by destruct (Hne (exact_exclusive s He _ _ _ Hk (Hown p eq_refl))).
    - split_and!; [right; by exists t|done| |].
      + destruct (tree (shared s) !! _) as [old|] eqn:E; [right|by left]. exists old. split; [done|].
        destruct (exact_filed s He _ old E) as [(p & _ & Ek & Hwf)|(t' & _ & Hold & Ek)]; [by destruct (path_not_thread p t Hwf)|].
        apply app_inv_head, thread_id_string_inj in Ek as <-. by destruct (Hfresh _ old E).
      + intros k p _ Hk E. destruct (exact_paths s He k p Hk) as (_ & Hwf & _). by destruct (path_not_thread p t Hwf). }
  destruct Hcases as (Hf & Hr & Hold & Hne). pose proof (weight_spawned md t Hid Hr) as Hw.
  assert (Ec : count (tree (register_spawned_thread md (shared s))) = (count (tree (shared s)) + 1)%nat).
  { rewrite (register_spawned_tree md _ t Hid). destruct Hold as [E|(old & E & Ho)].
    - rewrite count_insert_new by done. lia.
    - pose proof (count_insert (tree (shared s)) _ md old E). pose proof (weight_no_id old Ho). lia. }
  eapply exact_update; [done..| | | |].
  - rewrite (proj1 (register_spawned_slots md (shared s))), Ec. cbn [holds commit snd active]. rewrite Ha. lia.
  - rewrite (register_spawned_tree md _ t Hid). apply map_Forall_insert_2; [done|apply (exact_filed s He)].
  - intros k p Hk Hp. rewrite (register_spawned_tree md _ t Hid). destruct (exact_paths s He k p Hp) as (_ & _ & Hph).
    apply placeholder_insert; [by eapply Hne|done].
  - done.
Qed.
Lemma exact_drop s i v :
  exact s → actors s !! i = Some (Holding v) →
  exact (update (drop_entry (shared s) v) i (if active v then GivingBack else Idle) s).
Proof.
  intros He Hi. pose proof (drop_entry_slots (shared s) v) as [E1 E2]. eapply exact_update; [done..| | | |].
  - rewrite E1, E2. cbn [holds]. destruct (active v); cbn [holds]; lia.
  - unfold drop_entry, release_reserved_agent_path. destruct (active v); [|apply (exact_filed s He)].
    destruct (reserved_agent_path v) as [p|]; [|apply (exact_filed s He)].
    destruct (tree (shared s) !! as_str p) as [md|]; [|apply (exact_filed s He)].
    destruct (decide _); [|apply (exact_filed s He)]. apply map_Forall_delete, (exact_filed s He).
  - intros k q Hk Hq. pose proof (exact_paths s He k q Hq) as (_ & _ & Hph).
    unfold drop_entry, release_reserved_agent_path. destruct (active v) eqn:Ha; [|done].
    destruct (reserved_agent_path v) as [p|] eqn:Ep; [|done]. destruct (tree (shared s) !! as_str p) as [md|]; [|done].
    destruct (decide _); [|done]. apply placeholder_delete; [|done]. intros E. apply AgentPath_eq in E as ->.
    destruct Hk. eapply (exact_exclusive s He); [done|]. exists (Holding v). split; [done|]. cbn. by rewrite Ha.
  - by destruct (active v).
Qed.
Lemma exact_release s i t r removed :
  exact s → actors s !! i = Some Idle → release_entry t (shared s) = (r, removed) →
  exact (update r i (if removed : bool then GivingBack else Idle) s).
Proof.
  intros He Hi E. pose proof (count_release t (shared s)) as Hr. rewrite E in Hr. destruct Hr as [E1 E2].
  assert (Ht : tree r = tree (shared s) ∨ ∃ k md, tree (shared s) !! k = Some md ∧ agent_id md = Some t ∧ tree r = delete k (tree (shared s))).
  { revert E. unfold release_entry. destruct (List.find _ _) as [[k md]|] eqn:Ef; intros [= <- _]; [right|by left].
    apply find_entry in Ef as [? ?]. by exists k, md. }
  eapply exact_update; [done..| | | |].
  - rewrite E1, E2. cbn [holds]. destruct removed; cbn [holds]; lia.
  - destruct Ht as [->|(k & md & _ & _ & ->)]; [|apply map_Forall_delete]; apply (exact_filed s He).
  - intros j p _ Hj. pose proof (exact_paths s He j p Hj) as (_ & _ & Hph).
    destruct Ht as [->|(k & md & Ek & Hid & ->)]; [done|]. apply placeholder_delete; [|done].
    intros ->. destruct Hph as (md' & E' & Hid'). rewrite Ek in E'. injection E' as <-. by rewrite Hid in Hid'.
  - by destruct removed.
Qed.
Lemma exact_shared s r :
  exact s → same_slots (shared s) r → map_Forall filed (tree r) →
  (∀ p, p ≠ root → placeholder (tree (shared s)) p → placeholder (tree r) p) →
  exact {| shared := r; actors := actors s |}.
Proof.
  intros He [E1 E2] Hf Hp. split; cbn [shared actors].
  - pose proof (exact_count s He). unfold slots in *. cbn [shared actors]. by rewrite E1, E2.
  - done.
  - intros i p Hi. destruct (exact_paths s He i p Hi) as (? & ? & ?). split_and!; [done..|]. by apply Hp.
  - intros i j p. apply (exact_exclusive s He).
Qed.
Lemma exact_register_root s t : exact s → exact {| shared := register_root_thread t (shared s); actors := actors s |}.
Proof.
  intros He. pose proof (register_root_slots t (shared s)) as Hs. revert Hs. unfold register_root_thread.
  destruct (tree (shared s) !! ROOT) eqn:E; intros Hs; apply exact_shared; try done; try apply (exact_filed s He).
  - apply map_Forall_insert_2; [left; exists root; split_and!; [done..|apply root_wf]|apply (exact_filed s He)].
  - intros p Hp. apply placeholder_insert. intros Er. by destruct Hp; apply (AgentPath_eq p root).
Qed.
Lemma exact_update_message s t message :
  exact s → exact {| shared := update_last_task_message t message (shared s); actors := actors s |}.
Proof.
  intros He. pose proof (update_message_slots t message (shared s)) as Hs. revert Hs. unfold update_last_task_message.
  destruct (List.find _ _) as [[k md]|] eqn:E; intros Hs; apply exact_shared; try done; try apply (exact_filed s He).
  - apply find_entry in E as [E _]. pose proof (exact_filed s He k md E) as Hk.
    apply map_Forall_insert_2; [exact Hk|apply (exact_filed s He)].
  - apply find_entry in E as [E Hid]. intros p Hp Hph. apply placeholder_insert; [|done]. intros ->.
    destruct Hph as (md' & E' & Hid'). rewrite E in E'. injection E' as <-. by rewrite Hid in Hid'.
Qed.
Lemma exact_step limit s s' : covered limit s → exact s → step limit true s s' → exact s'.
Proof.
  intros Hc He Hstep.
  destruct Hstep as [s i m Hi Hm Hm'|s i m current spurious r result Hi E|s i Hi Hnone Hlt|s t|s t message
    |s i v choose names preferred r v' result Hi Ha _ E|s i v p r v' result Hi Ha Hp E|s i v md r v' Hi Ha Hp E
    |s i v Hi|s i t r removed Hi E|s i Hi].
  - by eapply exact_same.
  - unfold try_increment_round in E. destruct (N.leb_spec m current); [injection E as <- <-; by eapply exact_same|].
    destruct (N.eqb_spec (total_count (shared s)) current) as [Et|Et]; cbn [andb] in E;
      [destruct spurious; cbn [negb] in E|]; injection E as <- <-; try by eapply exact_same.
    eapply exact_update; [done..| |apply (exact_filed s He)| |done].
    + unfold tree. cbn. lia.
    + intros j p _ Hj. apply (exact_paths s He j p Hj).
  - eapply exact_update; [done..| |apply (exact_filed s He)| |done].
    + unfold fetch_add. destruct (N.eqb_spec (total_count (shared s)) USIZE_MAX); [lia|]. unfold tree. cbn. lia.
    + intros j p _ Hj. apply (exact_paths s He j p Hj).
  - by apply exact_register_root.
  - by apply exact_update_message.
  - apply reserve_nickname_tree in E as (E1 & E2 & E3 & E4). eapply exact_same; try done; cbn [holds actor_path]; by rewrite E3, ?E4.
  - by eapply exact_path; [..|apply Hp|].
  - injection E as <- <-. by eapply (exact_commit s i v md); [..|apply Hp].
  - by apply exact_drop.
  - by eapply exact_release.
  - eapply exact_update; [done..| |apply (exact_filed s He)| |done].
    + pose proof (exact_count_le s limit _ i Hc Hi) as Hle. cbn [holds] in Hle. unfold fetch_sub.
      destruct (N.eqb_spec (total_count (shared s)) 0); [lia|]. unfold tree. cbn. lia.
    + intros j p _ Hj. apply (exact_paths s He j p Hj).
Qed.
Lemma exact_reachable limit n s : rtc (step limit true) (initial n) s → exact s.
Proof.
  intros Hr. assert (Hc : covered limit (initial n)) by apply covered_initial.
  assert (He : exact (initial n)) by apply exact_initial. revert Hc He.
  induction Hr as [|s1 s2 s3 Hs _ IH]; [done|]. intros Hc He. apply IH; [by eapply covered_step|by eapply exact_step].
Qed.

(** ** Nicknames *)

(** A run of a session as its nicknames see it: the nicknames chosen so far,
    and operations of others that use more names but do not reset them. *)
Definition spaceless (s : str) : Prop := Forall (λ c, negb (c =? 32) = true) s.
Inductive nickname_run : list str → AgentRegistry → Prop :=
| run_start : nickname_run [] default_registry
| run_reserve l r r' choose names n :
    nickname_run l r → chooses choose → Forall spaceless names →
    reserve_agent_nickname choose names None r = (r', Some n) → nickname_run (n :: l) r'
| run_other l r r' :
    nickname_run l r → used_agent_nicknames (active_agents r) ⊆ used_agent_nicknames (active_agents r') →
    nickname_reset_count (active_agents r') = nickname_reset_count (active_agents r) → nickname_run l r'.

Lemma ordinal_suffix_letter value : ∃ c s, ordinal_suffix value = c :: s ∧ is_ascii_digit c = false.
Proof.
  unfold ordinal_suffix. destruct (_ && _); [by do 2 eexists|].
  by destruct (value mod 10 =? 1), (value mod 10 =? 2), (value mod 10 =? 3); do 2 eexists.
Qed.
Lemma format_nickname_inj n m c d :
  spaceless n → spaceless m → format_agent_nickname n c = format_agent_nickname m d → n = m ∧ c = d.
Proof.
  intros Hn Hm. unfold format_agent_nickname.
  assert (Hno : ∀ s x, spaceless s → s ≠ x ++ lit " the " ++ show_N (c + 1) ++ ordinal_suffix (c + 1)).
  { intros s x Hs ->. unfold spaceless in Hs. rewrite !Forall_app in Hs. destruct Hs as (_ & Hs & _). by inversion Hs. }
  assert (Hno' : ∀ s x, spaceless s → s ≠ x ++ lit " the " ++ show_N (d + 1) ++ ordinal_suffix (d + 1)).
  { intros s x Hs ->. unfold spaceless in Hs. rewrite !Forall_app in Hs. destruct Hs as (_ & Hs & _). by inversion Hs. }
  destruct (N.eqb_spec c 0) as [->|Hc], (N.eqb_spec d 0) as [->|Hd]; intros E; [done|by destruct (Hno' n m Hn)|by destruct (Hno m n Hm)|].
  change (lit " the " ++ ?x) with (32 :: lit "the " ++ x) in E.
  apply (run_unique (λ c, negb (c =? 32))) in E as [-> E]; [|done..]. split; [done|].
  injection E as E. destruct (ordinal_suffix_letter (c + 1)) as (x & a & Ex & Hx), (ordinal_suffix_letter (d + 1)) as (y & b & Ey & Hy).
  rewrite Ex, Ey in E.
  apply (run_unique is_ascii_digit) in E as [E _]; [|by apply show_N_digits|by apply show_N_digits|done|done].
  apply show_N_inj in E. lia.
Qed.
(** What is known of the nicknames chosen so far. *)
Definition nicknames_known (l : list str) (r : AgentRegistry) : Prop :=
  NoDup l ∧ ∀ n, n ∈ l → ∃ name c, n = format_agent_nickname name c ∧ spaceless name
    ∧ c ≤ nickname_reset_count (active_agents r)
    ∧ (c = nickname_reset_count (active_agents r) → n ∈ used_agent_nicknames (active_agents r)).
Lemma nickname_run_known l r : nickname_run l r → nicknames_known l r.
Proof.
  induction 1 as [|l r r' choose names n _ [Hnd Hk] Hch Hsp E|l r r' _ [Hnd Hk] Hsub Hcount].
  - split; [apply NoDup_nil_2|]. intros n Hn. by apply elem_of_nil in Hn.
  - unfold reserve_agent_nickname in E. destruct (decide (names = [])) as [|Hne]; [done|].
    rewrite Forall_forall in Hsp. pose proof (Hch (available_names names (active_agents r))) as Hav.
    destruct (choose (available_names _ _)) as [m|].
    + injection E as <- <-. unfold available_names in Hav. apply list_elem_of_filter in Hav as [Hfree Hin].
      apply list_elem_of_fmap in Hin as (name & -> & Hname%Hsp). split.
      * apply NoDup_cons. split; [|done]. intros (name' & c & E & Hs' & _ & Hused)%Hk.
        apply format_nickname_inj in E as [-> <-]; [|done..]. by destruct Hfree; apply Hused.
      * intros n [->|Hn]%elem_of_cons; cbn; [exists name, (nickname_reset_count (active_agents r)); split_and!; [done..|]; set_solver|].
        destruct (Hk n Hn) as (name' & c & -> & Hs' & Hc & Hused). exists name', c. split_and!; [done..|]. set_solver.
    + pose proof (Hch names) as Hn. destruct (choose names) as [name|]; [|done]. injection E as <- <-. apply Hsp in Hn. split.
      * apply NoDup_cons. split; [|done]. intros (name' & c & E & Hs' & Hc & _)%Hk.
        apply format_nickname_inj in E as [_ E]; [|done..]. cbn in E. lia.
      * intros n [->|Hin]%elem_of_cons; cbn; [eexists name, _; split_and!; [done..|]; set_solver|].
        destruct (Hk n Hin) as (name' & c & -> & Hs' & Hc & _). exists name', c. split_and!; [done..|lia|]. intros ->. lia.
  - split; [done|]. intros n Hn. destruct (Hk n Hn) as (name & c & -> & Hs & Hc & Hused). exists name, c.
    rewrite Hcount. split_and!; [done..|]. set_solver.
Qed.

(** ** Spawning below a depth *)

(** [n] spawns below a session that was not spawned, each allowed by the check
    its handler makes before it starts. *)
Inductive spawn_chain (max_depth : Z) : nat → SessionSource → Prop :=
| chain_start s : session_depth s = 0%Z → spawn_chain max_depth 0 s
| chain_spawn n s t p nick role :
    spawn_chain max_depth n s → exceeds_thread_spawn_depth_limit (next_thread_spawn_depth s) max_depth = false →
    spawn_chain max_depth (S n) (SubAgent (ThreadSpawn t (next_thread_spawn_depth s) p nick role)).
Lemma spawn_chain_depth max_depth n s :
  (max_depth < I32_MAX)%Z → spawn_chain max_depth n s → session_depth s = Z.of_nat n ∧ (Z.of_nat n ≤ Z.max 0 max_depth)%Z.
Proof.
  intros Hm. induction 1 as [s Hs|n s t p nick role _ [IH Hn] Hx]; [by rewrite Hs; lia|].
  unfold exceeds_thread_spawn_depth_limit, next_thread_spawn_depth in Hx. apply Z.ltb_ge in Hx. cbn [session_depth].
  unfold next_thread_spawn_depth. rewrite IH in *. lia.
Qed.

(** ** Finding an agent *)

Lemma find_fresh t r : (∀ k md, tree r !! k = Some md → agent_id md ≠ Some t) → List.find (has_id t) (entries (tree r)) = None.
Proof.
  intros Hf. destruct (List.find _ _) as [[k md]|] eqn:E; [|done]. apply find_entry in E as [Ek Hid]. by destruct (Hf k md Ek).
Qed.
Lemma find_only t r k md :
  tree r !! k = Some md → agent_id md = Some t → (∀ k' md', tree r !! k' = Some md' → agent_id md' = Some t → k' = k) →
  List.find (has_id t) (entries (tree r)) = Some (k, md).
Proof.
  intros Hk Hid Hu. destruct (List.find _ _) as [[k' md']|] eqn:E.
  - apply find_entry in E as [Ek Hid']. pose proof (Hu k' md' Ek Hid') as ->. by rewrite Hk in Ek; injection Ek as ->.
  - apply elem_of_entries, list_elem_of_In in Hk. pose proof (find_none _ _ E _ Hk) as Hn. unfold has_id in Hn. cbn in Hn.
    by rewrite bool_decide_eq_false in Hn.
Qed.

(** * Properties *)

(** C38. However threads interleave, the agents that live together with the
    reservations under way never exceed the largest limit in use: the counter
    covers them, never passes the limit and never wraps around. *)
Theorem agents_within_limit M protocol threads s :
  rtc (step (Some M) protocol) (initial threads) s →
  N.of_nat (length (live_agents (shared s)) + held (actors s)) ≤ total_count (shared s)
  ∧ total_count (shared s) ≤ M ∧ total_count (shared s) ≤ USIZE_MAX.
Proof.
  intros Hr. apply covered_reachable in Hr as (Hs & [Hl Hm] & _). rewrite length_live_agents. split_and!; [done| |done]. by apply Hl.
Qed.
(** When callers use reservations as the agent control does, no slot is
    lost: the counter is exactly the number of live agents and of slots under
    way, so it is the number of live agents when no thread is at work. *)
Theorem no_slot_leaks limit threads s :
  rtc (step limit true) (initial threads) s →
  total_count (shared s) = N.of_nat (length (live_agents (shared s)) + held (actors s))
  ∧ (Forall (λ a, a = Idle) (actors s) → total_count (shared s) = N.of_nat (length (live_agents (shared s)))).
Proof.
  intros Hr. apply exact_reachable in Hr as [Hc _ _ _]. unfold slots in Hc. rewrite length_live_agents. split; [done|].
  intros HF. rewrite <-Hc. replace (held (actors s)) with 0%nat; [by rewrite Nat.add_0_r|].
  induction HF as [|a l -> _ IH]; [done|]. unfold held in *. cbn. lia.
Qed.
(** Two reservations never hold the same path, and until its reservation is
    committed a reserved path leads to no agent. *)
Theorem reserved_paths_exclusive limit threads s i p :
  rtc (step limit true) (initial threads) s → holds_path s i p →
  agent_id_for_path p (shared s) = None ∧ ∀ j, holds_path s j p → j = i.
Proof.
  intros Hr Hi. apply exact_reachable in Hr as [_ _ Hp He]. split; [|intros j Hj; by eapply He].
  destruct (Hp i p Hi) as (_ & _ & md & E & Hid). unfold agent_id_for_path. by rewrite E.
Qed.
(** Nicknames picked from names without spaces are never repeated in a
    session, also after the pool of names has been reset. *)
Theorem nicknames_distinct l r : nickname_run l r → NoDup l.
Proof. intros [Hnd _]%nickname_run_known. done. Qed.
(** A spawned agent is found by its path and by its thread, and is among the
    live agents; releasing its thread removes it and nothing else. *)
Theorem spawned_agent_lifecycle t p md r :
  agent_id md = Some t → agent_path md = Some p → p ≠ root →
  (∀ k md', tree r !! k = Some md' → agent_id md' ≠ Some t) →
  let r' := register_spawned_thread md r in
  agent_id_for_path p r' = Some t ∧ agent_metadata_for_thread t r' = Some md ∧ md ∈ live_agents r'
  ∧ (release_entry t r').2 = true ∧ tree (release_entry t r').1 = delete (as_str p) (tree r)
  ∧ agent_metadata_for_thread t (release_entry t r').1 = None.
Proof.
  intros Hid Hp Hroot Hfresh r'. assert (Ht : tree r' = <[as_str p := md]> (tree r)).
  { unfold r'. rewrite (register_spawned_tree md r t Hid). unfold metadata_key. by rewrite Hp. }
  assert (Hk : tree r' !! as_str p = Some md) by by rewrite Ht, lookup_insert_eq.
  assert (Hrt : rooted md = false).
  { unfold rooted. rewrite Hp. apply bool_decide_eq_false_2. intros E. by destruct Hroot; apply (AgentPath_eq p root). }
  assert (Hf : List.find (has_id t) (entries (tree r')) = Some (as_str p, md)).
  { apply find_only; [done..|]. intros k md' E Hid'. rewrite Ht in E. apply lookup_insert_Some in E as [[<- _]|[_ E]]; [done|].
    by destruct (Hfresh k md' E). }
  assert (Hrel : release_entry t r' = (with_tree (delete (as_str p)) r', true)).
  { unfold release_entry. rewrite Hf. cbn [fmap option_fmap option_map fst]. by rewrite Hk, Hrt. }
  rewrite Hrel. split_and!.
  - unfold agent_id_for_path. by rewrite Hk.
  - unfold agent_metadata_for_thread. by rewrite Hf.
  - unfold live_agents. apply list_elem_of_filter. split.
    + unfold counted. by rewrite Hid, Hrt, bool_decide_eq_true_2.
    + apply list_elem_of_fmap. exists (as_str p, md). split; [done|]. by apply elem_of_entries.
  - done.
  - change (delete (as_str p) (tree r') = delete (as_str p) (tree r)). by rewrite Ht, delete_insert_eq.
  - unfold agent_metadata_for_thread. rewrite find_fresh; [done|]. intros k md' E.
    change (delete (as_str p) (tree r') !! k = Some md') in E. rewrite Ht, delete_insert_eq in E.
    apply lookup_delete_Some in E as [_ E]. by eapply Hfresh.
Qed.
End order.
End registry.

(** * Witnesses *)

#[local] Instance numbered_threads : ThreadIds N := {| thread_id_string := show_N; thread_id_string_inj := show_N_inj |}.
#[local] Existing Instance sorted_order.
Definition example_path : AgentPath := {| as_str := lit "/root/worker" |}.
Definition example_metadata : AgentMetadata (ThreadId := N) :=
  {| agent_id := Some 7; agent_path := Some example_path; agent_nickname := None; agent_role := None;
     last_task_message := None |}.
Definition reserved_system : system (ThreadId := N) :=
  {| shared := {| active_agents := active_agents default_registry; total_count := 1 |};
     actors := [Holding new_reservation] |}.
Definition placed : SpawnReservation :=
  {| active := true; reserved_agent_nickname := None; reserved_agent_path := Some example_path |}.
Definition placed_system : system (ThreadId := N) :=
  {| shared := with_tree (<[as_str example_path :=
       {| agent_id := None; agent_path := Some example_path; agent_nickname := None; agent_role := None;
          last_task_message := None |}]>) (shared reserved_system);
     actors := [Holding placed] |}.
Lemma example_path_wf : agent_path_wf example_path.
Proof. exists [lit "worker"]. split; [by constructor|done]. Qed.
Lemma reserve_run protocol : rtc (step (Some 1) protocol) (initial 1) reserved_system.
Proof.
  eapply rtc_l; [by eapply (step_load _ _ _ 0 1); [|intros M [= <-]|]|].
  eapply rtc_l; [by eapply (step_increment _ _ _ 0 1 0 false)|]. apply rtc_refl.
Qed.
Lemma place_run : rtc (step (Some 1) true) (initial 1) placed_system.
Proof.
  eapply rtc_r; [apply reserve_run|].
  refine (step_path _ _ reserved_system 0 new_reservation example_path (shared placed_system) placed (Ok tt) _ _ _ _); [done..| |done].
  intros _. split_and!; [apply example_path_wf|done|done].
Qed.
Lemma spawn_run : ∃ s, rtc (step (Some 1) true) (initial 1) s ∧ actors s = [Idle] ∧ total_count (shared s) = 1.
Proof.
  eexists. split; [|split].
  - eapply rtc_r; [eapply rtc_r; [apply place_run|]|].
    + eapply (step_commit _ _ _ 0 placed example_metadata); [done|done| |done]. intros _. split; [done|].
      exists 7. split; [done|]. intros k md. cbn. intros [[_ <-]|[_ E]]%lookup_insert_Some; [done|by rewrite lookup_empty in E].
    + eapply (step_drop _ _ _ 0). done.
  - done.
  - done.
Qed.

Lemma agents_within_limit_witness :
  rtc (step (Some 1) true) (initial 1) reserved_system
  ∧ N.of_nat (length (live_agents (shared reserved_system)) + held (actors reserved_system)) ≤ 1.
Proof.
  assert (Hr := reserve_run true). split; [exact Hr|].
  destruct (agents_within_limit 1 true 1 reserved_system Hr) as (H1 & H2 & _). exact (N.le_trans _ _ _ H1 H2).
Defined.
Lemma no_slot_leaks_witness :
  ∃ s, rtc (step (Some 1) true) (initial 1) s ∧ total_count (shared s) = 1
    ∧ length (live_agents (shared s)) = 1%nat.
Proof.
  destruct spawn_run as (s & Hr & Ha & Hc). exists s. split; [exact Hr|]. split; [exact Hc|].
  destruct (no_slot_leaks (Some 1) 1 s Hr) as [_ Hn]. rewrite Ha in Hn.
  specialize (Hn ltac:(by repeat constructor)). rewrite Hc in Hn. lia.
Defined.
Lemma reserved_paths_exclusive_witness :
  rtc (step (Some 1) true) (initial 1) placed_system ∧ holds_path placed_system 0 example_path
  ∧ agent_id_for_path example_path (shared placed_system) = None.
Proof.
  assert (Hr := place_run). assert (Hh : holds_path placed_system 0 example_path) by (exists (Holding placed); by split).
  split; [exact Hr|]. split; [exact Hh|]. exact (proj1 (reserved_paths_exclusive (Some 1) 1 placed_system 0 example_path Hr Hh)).
Defined.
Lemma head_chooses : chooses head.
Proof. intros [|x l]; [done|]. apply list_elem_of_here. Qed.
Lemma nicknames_distinct_witness :
  ∃ r, nickname_run (ThreadId := N) [lit "Euclid the 2nd"; lit "Euclid"] r ∧ NoDup [lit "Euclid the 2nd"; lit "Euclid"].
Proof.
  assert (Hs : Forall spaceless [lit "Euclid"]) by by repeat constructor.
  eassert (Hr1 : nickname_run (ThreadId := N) [lit "Euclid"] _).
  { eapply (run_reserve _ _ _ head [lit "Euclid"]); [apply run_start|apply head_chooses|exact Hs|reflexivity]. }
  eassert (Hr : nickname_run [lit "Euclid the 2nd"; lit "Euclid"] _).
  { eapply (run_reserve _ _ _ head [lit "Euclid"]); [exact Hr1|apply head_chooses|exact Hs|vm_compute; reflexivity]. }
  eexists. split; [exact Hr|]. exact (nicknames_distinct _ _ Hr).
Defined.
Lemma spawned_agent_lifecycle_witness :
  agent_metadata_for_thread 7 (register_spawned_thread example_metadata default_registry) = Some example_metadata
  ∧ tree (release_entry 7 (register_spawned_thread example_metadata default_registry)).1 = delete (as_str example_path) ∅.
Proof.
  assert (Hf : ∀ k md', tree (ThreadId := N) default_registry !! k = Some md' → agent_id md' ≠ Some 7).
  { intros k md E. change ((∅ : gmap str (AgentMetadata (ThreadId := N))) !! k = Some md) in E. by rewrite lookup_empty in E. }
  destruct (spawned_agent_lifecycle 7 example_path example_metadata default_registry eq_refl eq_refl ltac:(done) Hf)
    as (_ & H1 & _ & _ & H2 & _).
  split; [exact H1|exact H2].
Defined.
