(* ===== verification/Mailbox.v ===== *)
(** The mailbox through which agents write to each other:
    [codex-rs/core/src/agent/mailbox.rs]. Sending takes three atomic steps, so
    the sends of several agents interleave; the receiver is under a lock of its
    session. *)
From Stdlib Require Import ZifyN.
From stdpp Require Import relations.
From S2P Require Import Prelude RustStr AgentPath Tokio.

Record InterAgentCommunication : Type := {
  author : AgentPath; recipient : AgentPath; other_recipients : list AgentPath; mail_content : str; trigger_turn : bool }.

Section mailbox.
Context `{!Mpsc InterAgentCommunication, !Watch N}.

(** Both ends: the channel they share, the counter and the watch channel of the
    [Mailbox], and the mails its [MailboxReceiver] has taken from the channel.
    The counter, a [u64], is not assumed to wrap. *)
Record mailbox : Type := {
  channel : queue; next_seq : N; seq_tx : watch; pending_mails : list InterAgentCommunication }.
Definition new : mailbox :=
  {| channel := unbounded_channel; next_seq := 0; seq_tx := watch_new 0%N; pending_mails := [] |}.
Definition subscribe (m : mailbox) : mailbox :=
  {| channel := channel m; next_seq := next_seq m; seq_tx := watch_subscribe (seq_tx m); pending_mails := pending_mails m |}.

(** The steps of [send]. *)
Definition take_number (m : mailbox) : mailbox * N :=
  ({| channel := channel m; next_seq := next_seq m + 1; seq_tx := seq_tx m; pending_mails := pending_mails m |},
   (next_seq m + 1)%N).
Definition post (mail : InterAgentCommunication) (m : mailbox) : mailbox :=
  {| channel := tx_send mail (channel m); next_seq := next_seq m; seq_tx := seq_tx m; pending_mails := pending_mails m |}.
Definition notify (seq : N) (m : mailbox) : mailbox :=
  {| channel := channel m; next_seq := next_seq m; seq_tx := watch_replace seq (seq_tx m); pending_mails := pending_mails m |}.
Definition send (mail : InterAgentCommunication) (m : mailbox) : mailbox * N :=
  let '(m, seq) := take_number m in
  (notify seq (post mail m), seq).

(** The loop of [sync_pending_mails] takes one mail a round. *)
Fixpoint sync_loop (fuel : nat) (m : mailbox) : outcome Empty_set mailbox :=
  match fuel with
  | O => OutOfFuel
  | S fuel' =>
      match try_recv (channel m) with
      | (Some mail, c) =>
          sync_loop fuel' {| channel := c; next_seq := next_seq m; seq_tx := seq_tx m;
                             pending_mails := pending_mails m ++ [mail] |}
      | (None, c) =>
          Ok {| channel := c; next_seq := next_seq m; seq_tx := seq_tx m; pending_mails := pending_mails m |}
      end
  end.
Definition sync_pending_mails (m : mailbox) : outcome Empty_set mailbox := sync_loop (S (length (queued (channel m)))) m.
Definition has_pending (m : mailbox) : outcome Empty_set (mailbox * bool) :=
  m ← sync_pending_mails m; Ok (m, negb (bool_decide (length (pending_mails m) = 0))).
Definition has_pending_trigger_turn (m : mailbox) : outcome Empty_set (mailbox * bool) :=
  m ← sync_pending_mails m; Ok (m, existsb trigger_turn (pending_mails m)).
Definition drain (m : mailbox) : outcome Empty_set (mailbox * list InterAgentCommunication) :=
  m ← sync_pending_mails m;
  Ok ({| channel := channel m; next_seq := next_seq m; seq_tx := seq_tx m; pending_mails := [] |}, pending_mails m).

(** ** Agents that share a mailbox *)

Inductive sender : Type := Ready | Numbered (seq : N) (mail : InterAgentCommunication) | Posted (seq : N).
(** [posted] records which sender put which mail in the channel, [delivered]
    what the receiver has drained. *)
Record mail_system : Type := {
  box : mailbox; senders : list sender;
  posted : list (nat * InterAgentCommunication); delivered : list InterAgentCommunication }.
Definition sender_step (m : mailbox) (i : nat) (a : sender) (log : list (nat * InterAgentCommunication)) (s : mail_system)
    : mail_system :=
  {| box := m; senders := <[i := a]> (senders s); posted := posted s ++ log; delivered := delivered s |}.
Definition receiver_step (m : mailbox) (l : list InterAgentCommunication) (s : mail_system) : mail_system :=
  {| box := m; senders := senders s; posted := posted s; delivered := delivered s ++ l |}.
Inductive mail_step : mail_system → mail_system → Prop :=
| step_number s i mail m seq :
    senders s !! i = Some Ready → take_number (box s) = (m, seq) →
    mail_step s (sender_step m i (Numbered seq mail) [] s)
| step_post s i seq mail :
    senders s !! i = Some (Numbered seq mail) →
    mail_step s (sender_step (post mail (box s)) i (Posted seq) [(i, mail)] s)
| step_notify s i seq :
    senders s !! i = Some (Posted seq) → mail_step s (sender_step (notify seq (box s)) i Ready [] s)
| step_subscribe s : mail_step s (receiver_step (subscribe (box s)) [] s)
| step_pending s m b : has_pending (box s) = Ok (m, b) → mail_step s (receiver_step m [] s)
| step_trigger s m b : has_pending_trigger_turn (box s) = Ok (m, b) → mail_step s (receiver_step m [] s)
| step_drain s m l : drain (box s) = Ok (m, l) → mail_step s (receiver_step m l s).
Definition mail_initial (n : nat) : mail_system :=
  {| box := new; senders := replicate n Ready; posted := []; delivered := [] |}.

(** * Lemmas *)

(** What is waiting for the receiver. *)
Definition waiting (m : mailbox) : list InterAgentCommunication := pending_mails m ++ queued (channel m).
Lemma sync_loop_ok fuel : ∀ m, length (queued (channel m)) < fuel →
  ∃ m', sync_loop fuel m = Ok m' ∧ queued (channel m') = [] ∧ pending_mails m' = waiting m
    ∧ next_seq m' = next_seq m ∧ seq_tx m' = seq_tx m.
Proof.
  induction fuel as [|fuel IH]; intros m Hf; [lia|]. cbn [sync_loop]. unfold waiting.
  pose proof (try_recv_spec (channel m)) as Ht. destruct (queued (channel m)) as [|a l] eqn:E.
  - rewrite Ht. eexists. split; [done|]. cbn. by rewrite app_nil_r.
  - destruct (try_recv (channel m)) as [x c]. cbn in Ht. destruct Ht as [-> Hl].
    destruct (IH {| channel := c; next_seq := next_seq m; seq_tx := seq_tx m; pending_mails := pending_mails m ++ [a] |})
      as (m' & -> & Hq & Hp & Hn & Hw); [cbn in *; rewrite Hl; lia|].
    exists m'. split_and!; [done..| |done|done]. rewrite Hp. unfold waiting. cbn. by rewrite Hl, <-app_assoc.
Qed.
Lemma sync_ok m : ∃ m', sync_pending_mails m = Ok m' ∧ queued (channel m') = [] ∧ pending_mails m' = waiting m
    ∧ next_seq m' = next_seq m ∧ seq_tx m' = seq_tx m.
Proof. apply sync_loop_ok. lia. Qed.
(** Synchronized boxes hold the same mails and give out the same numbers. *)
Definition same_box (m m' : mailbox) : Prop :=
  waiting m' = waiting m ∧ next_seq m' = next_seq m ∧ watch_version (seq_tx m') = watch_version (seq_tx m).
Lemma has_pending_ok m : ∃ m', has_pending m = Ok (m', negb (bool_decide (length (waiting m) = 0))) ∧ same_box m m'.
Proof.
  unfold has_pending. destruct (sync_ok m) as (m' & -> & Hq & Hp & Hn & Hw). exists m'. run_bind. rewrite <-Hp.
  split; [done|]. unfold same_box, waiting. by rewrite Hq, Hp, app_nil_r, Hn, Hw.
Qed.
Lemma has_trigger_ok m : ∃ m', has_pending_trigger_turn m = Ok (m', existsb trigger_turn (waiting m)) ∧ same_box m m'.
Proof.
  unfold has_pending_trigger_turn. destruct (sync_ok m) as (m' & -> & Hq & Hp & Hn & Hw). exists m'. run_bind. rewrite <-Hp.
  split; [done|]. unfold same_box, waiting. by rewrite Hq, Hp, app_nil_r, Hn, Hw.
Qed.
Lemma drain_ok m : ∃ m', drain m = Ok (m', waiting m) ∧ waiting m' = []
  ∧ next_seq m' = next_seq m ∧ watch_version (seq_tx m') = watch_version (seq_tx m).
Proof.
  unfold drain. destruct (sync_ok m) as (m' & -> & Hq & Hp & Hn & Hw). eexists. run_bind. rewrite Hp.
  split; [done|]. unfold waiting. cbn. by rewrite Hq, Hn, Hw.
Qed.

Definition unposted (a : sender) : nat := match a with Numbered _ _ => 1 | _ => 0 end.
Definition unnotified (a : sender) : nat := match a with Ready => 0 | _ => 1 end.
Record mail_inv (s : mail_system) : Prop := {
  inv_mails : (posted s).*2 = delivered s ++ waiting (box s);
  inv_posted : N.to_nat (next_seq (box s)) = length (posted s) + sum_list_with unposted (senders s);
  inv_version : N.to_nat (next_seq (box s)) = watch_version (seq_tx (box s)) + sum_list_with unnotified (senders s) }.
Lemma mail_inv_initial n : mail_inv (mail_initial n).
Proof.
  split; cbn; rewrite ?sum_list_with_replicate; unfold waiting; cbn.
  - by rewrite queued_new.
  - unfold unposted. lia.
  - destruct (watch_new_spec 0%N) as (_ & -> & _). unfold unnotified. lia.
Qed.
Lemma mail_inv_sender s i a b m log :
  mail_inv s → senders s !! i = Some a → waiting m = waiting (box s) ++ log.*2 →
  N.to_nat (next_seq m) + unposted a = N.to_nat (next_seq (box s)) + length log + unposted b →
  N.to_nat (next_seq m) + watch_version (seq_tx (box s)) + unnotified a
    = N.to_nat (next_seq (box s)) + watch_version (seq_tx m) + unnotified b →
  mail_inv (sender_step m i b log s).
Proof.
  intros [Hm Hp Hv] Hi Hw H1 H2. pose proof (sum_list_with_insert unposted _ _ _ b Hi).
  pose proof (sum_list_with_insert unnotified _ _ _ b Hi). split; cbn [sender_step box senders posted delivered].
  - by rewrite fmap_app, Hm, Hw, app_assoc.
  - rewrite length_app. lia.
  - lia.
Qed.
Lemma mail_inv_receiver s m l :
  mail_inv s → waiting (box s) = l ++ waiting m → next_seq m = next_seq (box s) →
  watch_version (seq_tx m) = watch_version (seq_tx (box s)) → mail_inv (receiver_step m l s).
Proof.
  intros [Hm Hp Hv] Hw Hn Hver. split; cbn [receiver_step box senders posted delivered].
  - by rewrite Hm, Hw, app_assoc.
  - by rewrite Hn.
  - by rewrite Hn, Hver.
Qed.
Lemma mail_inv_step s s' : mail_inv s → mail_step s s' → mail_inv s'.
Proof.
  intros Hs Hstep. destruct Hstep as [s i mail m seq Hi E|s i seq mail Hi|s i seq Hi|s|s m b E|s m b E|s m l E].
  - injection E as <- <-. eapply mail_inv_sender; [done..| | |]; cbn [fmap list_fmap length unposted unnotified next_seq seq_tx].
    + unfold waiting. cbn. by rewrite app_nil_r.
    + lia.
    + lia.
  - eapply mail_inv_sender; [done..| | |]; cbn [post fmap list_fmap length unposted unnotified next_seq seq_tx].
    + unfold waiting. cbn. by rewrite queued_send, app_assoc.
    + lia.
    + lia.
  - eapply mail_inv_sender; [done..| | |]; cbn [notify fmap list_fmap length unposted unnotified next_seq seq_tx].
    + unfold waiting. cbn. by rewrite app_nil_r.
    + lia.
    + destruct (watch_replace_spec seq (seq_tx (box s))) as (_ & -> & _). lia.
  - apply mail_inv_receiver; [done..|]. cbn. by destruct (watch_subscribe_spec (seq_tx (box s))) as (_ & -> & _).
  - destruct (has_pending_ok (box s)) as (m' & E' & Hw & Hn & Hv). rewrite E in E'. injection E' as -> _.
    by apply mail_inv_receiver.
  - destruct (has_trigger_ok (box s)) as (m' & E' & Hw & Hn & Hv). rewrite E in E'. injection E' as -> _.
    by apply mail_inv_receiver.
  - destruct (drain_ok (box s)) as (m' & E' & Hw & Hn & Hv). rewrite E in E'. injection E' as -> ->.
    apply mail_inv_receiver; [done| |done..]. by rewrite Hw, app_nil_r.
Qed.
Lemma mail_inv_run s s' : mail_inv s → rtc mail_step s s' → mail_inv s'.
Proof. intros Hs Hr. revert Hs. induction Hr as [|s1 s2 s3 H _ IH]; [done|]. intros Hs. by eapply IH, mail_inv_step. Qed.

(** The senders never wait: each can end its send, whatever the others do. *)
Lemma finish_sender s i a :
  senders s !! i = Some a → ∃ s', rtc mail_step s s' ∧ senders s' = <[i := Ready]> (senders s)
    ∧ length (posted s) ≤ length (posted s').
Proof.
  intros Hi. assert (Hpost : ∀ s seq, senders s !! i = Some (Posted seq) →
    ∃ s', rtc mail_step s s' ∧ senders s' = <[i := Ready]> (senders s) ∧ length (posted s) ≤ length (posted s')).
  { clear. intros s seq Hi. eexists. split; [apply rtc_once; by eapply step_notify|]. cbn. rewrite app_nil_r. split; [done|lia]. }
  destruct a as [|seq mail|seq].
  - exists s. split; [apply rtc_refl|]. split; [by rewrite list_insert_id|lia].
  - destruct (Hpost (sender_step (post mail (box s)) i (Posted seq) [(i, mail)] s) seq) as (s' & Hr & Es & El).
    { cbn. apply list_lookup_insert_eq. by eapply lookup_lt_Some. }
    exists s'. split; [eapply rtc_l; [by eapply step_post|done]|]. cbn in Es, El. rewrite Es, list_insert_insert_eq.
    rewrite length_app in El. split; [done|lia].
  - by eapply Hpost.
Qed.
Lemma finish_senders s : ∃ s', rtc mail_step s s' ∧ Forall (λ a, a = Ready) (senders s') ∧ length (posted s) ≤ length (posted s').
Proof.
  assert (Hk : ∀ k, k ≤ length (senders s) → ∃ s', rtc mail_step s s' ∧ length (senders s') = length (senders s)
    ∧ Forall (λ a, a = Ready) (take k (senders s')) ∧ length (posted s) ≤ length (posted s')).
  { intros k. induction k as [|k IH]; intros Hk.
    - exists s. split_and!; [apply rtc_refl|done|by rewrite take_0|lia].
    - destruct IH as (s1 & Hr & El & HF & Hp); [lia|].
      destruct (lookup_lt_is_Some_2 (senders s1) k ltac:(lia)) as [a Ha].
      destruct (finish_sender s1 k a Ha) as (s2 & Hr2 & Es & Hp2). exists s2.
      split_and!; [by etrans|by rewrite Es, length_insert| |lia].
      rewrite Es, (take_S_r _ _ Ready) by (apply list_lookup_insert_eq; by eapply lookup_lt_Some).
      rewrite take_insert_ge by lia. apply Forall_app. split; [done|by constructor]. }
  destruct (Hk (length (senders s)) ltac:(done)) as (s' & Hr & El & HF & Hp). exists s'. split_and!; [done| |done].
  by rewrite <-El, firstn_all in HF.
Qed.
Lemma version_le_posted s : mail_inv s → watch_version (seq_tx (box s)) ≤ length (posted s).
Proof.
  intros [_ Hp Hv]. assert (sum_list_with unposted (senders s) ≤ sum_list_with unnotified (senders s)); [|lia].
  clear. induction (senders s) as [|[] l IH]; simpl; lia.
Qed.
Lemma version_all_ready s :
  mail_inv s → Forall (λ a, a = Ready) (senders s) → watch_version (seq_tx (box s)) = length (posted s).
Proof.
  intros [_ Hp Hv] HF. assert (sum_list_with unposted (senders s) = 0 ∧ sum_list_with unnotified (senders s) = 0) as [E1 E2]; [|lia].
  clear Hp Hv. induction HF as [|a l -> _ [IH1 IH2]]; [done|]. simpl. lia.
Qed.

(** * Properties *)

(** C39. Every mail put in the channel is delivered once, in the order in which
    the senders put them there: what has been drained and what [drain] returns
    now are all of them; [has_pending] and [has_pending_trigger_turn] describe
    what it would return. *)
Theorem mailbox_delivers n s :
  rtc mail_step (mail_initial n) s →
  ∃ m1 m2 m3 l, drain (box s) = Ok (m1, l) ∧ delivered s ++ l = (posted s).*2
    ∧ has_pending (box s) = Ok (m2, negb (bool_decide (length l = 0)))
    ∧ has_pending_trigger_turn (box s) = Ok (m3, existsb trigger_turn l)
    ∧ ∃ m, drain m1 = Ok (m, []).
Proof.
  intros Hr. pose proof (mail_inv_run _ _ (mail_inv_initial n) Hr) as [Hm _ _].
  destruct (drain_ok (box s)) as (m1 & E1 & Hw & _), (has_pending_ok (box s)) as (m2 & E2 & _), (has_trigger_ok (box s)) as (m3 & E3 & _).
  exists m1, m2, m3, (waiting (box s)). split_and!; [done..|]. destruct (drain_ok m1) as (m & E & _). exists m. by rewrite E, Hw.
Qed.
(** An agent that waits for mail is woken: after a mail was posted behind
    the version it has seen, the senders, which never wait for anyone, can
    finish, and once they have the version has changed. *)
Theorem waiter_is_woken n s s' :
  rtc mail_step (mail_initial n) s → rtc mail_step s s' → length (posted s) < length (posted s') →
  (Forall (λ a, a = Ready) (senders s') → watch_version (seq_tx (box s)) < watch_version (seq_tx (box s')))
  ∧ ∃ s'', rtc mail_step s' s'' ∧ Forall (λ a, a = Ready) (senders s'')
      ∧ watch_version (seq_tx (box s)) < watch_version (seq_tx (box s'')).
Proof.
  intros H0 H1 Hlt. pose proof (mail_inv_run _ _ (mail_inv_initial n) H0) as Hs.
  pose proof (mail_inv_run _ _ Hs H1) as Hs'. pose proof (version_le_posted s Hs). split.
  - intros HF. rewrite (version_all_ready s' Hs' HF). lia.
  - destruct (finish_senders s') as (s2 & Hr & HF & Hp). exists s2. split_and!; [done..|].
    rewrite (version_all_ready s2 (mail_inv_run _ _ Hs' Hr) HF). lia.
Qed.
End mailbox.

Definition example_mail : InterAgentCommunication :=
  {| author := root; recipient := root; other_recipients := []; mail_content := []; trigger_turn := true |}.
Lemma one_mail_run : ∃ s, rtc mail_step (mail_initial 1) s ∧ length (posted s) = 1.
Proof.
  eexists. split; [eapply rtc_l; [by eapply (step_number _ 0 example_mail)|]; eapply rtc_l; [by eapply (step_post _ 0)|]; apply rtc_refl|done].
Qed.
Lemma mailbox_delivers_witness :
  ∃ s, rtc mail_step (mail_initial 1) s ∧ length (posted s) = 1
    ∧ ∃ m l, drain (box s) = Ok (m, l) ∧ delivered s ++ l = (posted s).*2.
Proof.
  destruct one_mail_run as (s & Hr & Hp). exists s. split; [exact Hr|]. split; [exact Hp|].
  destruct (mailbox_delivers 1 s Hr) as (m1 & _ & _ & l & E & Ed & _). exists m1, l. split; [exact E|exact Ed].
Defined.
Lemma waiter_is_woken_witness :
  ∃ s, rtc mail_step (mail_initial 1) s ∧ ∃ s'', rtc mail_step s s'' ∧ watch_version (seq_tx (box (mail_initial 1))) < watch_version (seq_tx (box s'')).
Proof.
  destruct one_mail_run as (s & Hr & Hp). exists s. split; [exact Hr|].
  assert (Hlt : length (posted (mail_initial 1)) < length (posted s)) by (rewrite Hp; apply Nat.lt_0_1).
  destruct (waiter_is_woken 1 (mail_initial 1) s (rtc_refl _ _) Hr Hlt) as (_ & s2 & H2 & _ & H3).
  exists s2. split; [exact H2|exact H3].
Defined.
