(* ===== verification/Readiness.v ===== *)
(** The readiness flag of [codex-rs/utils/readiness/src/lib.rs]: parties
    subscribe for a token, any of them marks the flag ready, and others wait for
    it. The token set is under a lock; the flag is an atomic that is only
    written under that lock, so each locked part is one step. *)
From Stdlib Require Import ZifyN Zify.
From stdpp Require Import gmap relations.
From S2P Require Import Prelude Tokio.
Local Open Scope Z_scope.
Local Ltac Zify.zify_post_hook ::= Z.div_mod_to_equations.

(** [Token], a wrapped [i32]. *)
Definition Token : Type := Z.
Definition wrap_i32 (z : Z) : Z := (z + 2147483648) mod 4294967296 - 2147483648.
Inductive ReadinessError : Type := TokenLockFailed | FlagAlreadyReady.

Section readiness.
Context `{!Watch bool}.

Record ReadinessFlag : Type := { ready : bool; next_id : Z; tokens : gset Token; tx : watch }.
Definition new : ReadinessFlag := {| ready := false; next_id := 1; tokens := ∅; tx := watch_new false |}.

(** ** Locked parts *)

(** The loop of [subscribe]: the next identifier, wrapping around, until it is
    neither zero nor in use. *)
Fixpoint subscribe_loop (fuel : nat) (f : ReadinessFlag) : outcome Empty_set (ReadinessFlag * Token) :=
  match fuel with
  | O => OutOfFuel
  | S fuel' =>
      let token := next_id f in
      let next := wrap_i32 (next_id f + 1) in
      if decide (token ≠ 0 ∧ token ∉ tokens f) then
        Ok ({| ready := ready f; next_id := next; tokens := {[token]} ∪ tokens f; tx := tx f |}, token)
      else subscribe_loop fuel' {| ready := ready f; next_id := next; tokens := tokens f; tx := tx f |}
  end.
Definition subscribe_locked (f : ReadinessFlag) : outcome Empty_set (ReadinessFlag * option Token) :=
  if ready f then Ok (f, None)
  else '(f, token) ← subscribe_loop (S (S (size (tokens f)))) f; Ok (f, Some token).
Definition mark_locked (token : Token) (f : ReadinessFlag) : ReadinessFlag * bool :=
  if decide (token ∈ tokens f) then
    ({| ready := true; next_id := next_id f; tokens := ∅; tx := tx f |}, true)
  else (f, false).
(** [is_ready] with the lock: without subscriptions the flag becomes ready. The
    result is whether it was, or [None] when there are subscriptions. *)
Definition check_locked (f : ReadinessFlag) : ReadinessFlag * option bool :=
  if decide (tokens f = ∅) then
    ({| ready := true; next_id := next_id f; tokens := tokens f; tx := tx f |}, Some (ready f))
  else (f, None).
(** [self.tx.send(true)], whose error is ignored. *)
Definition announce (f : ReadinessFlag) : ReadinessFlag :=
  {| ready := ready f; next_id := next_id f; tokens := tokens f; tx := (watch_send true (tx f)).2 |}.

(** The receiver of a task that has stopped waiting is dropped. *)
Definition close (f : ReadinessFlag) : ReadinessFlag :=
  {| ready := ready f; next_id := next_id f; tokens := tokens f; tx := watch_close (tx f) |}.

(** ** Operations run alone; [locked] tells whether the lock was obtained *)

Definition is_ready (locked : bool) (f : ReadinessFlag) : ReadinessFlag * bool :=
  if ready f then (f, true)
  else if locked then
    match check_locked f with
    | (f, Some was_ready) => (if was_ready then f else announce f, true)
    | (f, None) => (f, ready f)
    end
  else (f, ready f).
Definition subscribe (locked : bool) (f : ReadinessFlag) : ReadinessFlag * outcome ReadinessError Token :=
  if ready f then (f, Err FlagAlreadyReady)
  else if locked then
    match subscribe_locked f with
    | Ok (f, Some token) => (f, Ok token)
    | Ok (f, None) => (f, Err FlagAlreadyReady)
    | Err e => match e with end
    | Panic => (f, Panic)
    | OutOfFuel => (f, OutOfFuel)
    end
  else (f, Err TokenLockFailed).
Definition mark_ready (locked : bool) (token : Token) (f : ReadinessFlag) : ReadinessFlag * outcome ReadinessError bool :=
  if ready f then (f, Ok false)
  else if decide (token = 0) then (f, Ok false)
  else if locked then
    let '(f, marked) := mark_locked token f in
    if marked then (announce f, Ok true) else (f, Ok false)
  else (f, Err TokenLockFailed).

(** ** Tasks that share a flag *)

(** Where a task is. [waiting] tells a call of [is_ready] inside [wait_ready];
    numbers are the version of the channel its receiver has seen. *)
Inductive task : Type :=
| Free
| Asking (waiting : bool) | Announcing (waiting : bool) | Reloading (waiting : bool)
| Subscribing
| Marking (token : Token) | MarkAnnouncing
| WaitSubscribe | WaitBorrow (seen : nat) | Waiting (seen : nat).
Record flag_system : Type := { flag : ReadinessFlag; tasks : list task; marks : nat }.
Definition task_step (f : ReadinessFlag) (i : nat) (t : task) (s : flag_system) : flag_system :=
  {| flag := f; tasks := <[i := t]> (tasks s); marks := marks s |}.
(** The end of [is_ready] with its answer: [wait_ready] goes on when it is no. *)
Definition check_answered (waiting answer : bool) : task := if waiting && negb answer then WaitSubscribe else Free.
Inductive flag_step : flag_system → flag_system → Prop :=
| step_ask s i waiting :
    tasks s !! i = Some Free →
    flag_step s (task_step (flag s) i (if ready (flag s) then Free else Asking waiting) s)
| step_try_lock s i waiting f was_ready :
    tasks s !! i = Some (Asking waiting) → check_locked (flag s) = (f, was_ready) →
    flag_step s (task_step f i match was_ready with
                               | Some true => Free
                               | Some false => Announcing waiting
                               | None => Reloading waiting
                               end s)
| step_lock_busy s i waiting :
    tasks s !! i = Some (Asking waiting) → flag_step s (task_step (flag s) i (Reloading waiting) s)
| step_announce s i waiting :
    tasks s !! i = Some (Announcing waiting) → flag_step s (task_step (announce (flag s)) i Free s)
| step_reload s i waiting :
    tasks s !! i = Some (Reloading waiting) →
    flag_step s (task_step (flag s) i (check_answered waiting (ready (flag s))) s)
| step_subscribe s i :
    tasks s !! i = Some Free → flag_step s (task_step (flag s) i (if ready (flag s) then Free else Subscribing) s)
| step_subscribe_lock s i f token :
    tasks s !! i = Some Subscribing → subscribe_locked (flag s) = Ok (f, token) → flag_step s (task_step f i Free s)
| step_mark s i token :
    tasks s !! i = Some Free →
    flag_step s (task_step (flag s) i (if ready (flag s) || bool_decide (token = 0) then Free else Marking token) s)
| step_mark_lock s i token f marked :
    tasks s !! i = Some (Marking token) → mark_locked token (flag s) = (f, marked) →
    flag_step s {| flag := f; tasks := <[i := if marked : bool then MarkAnnouncing else Free]> (tasks s);
                   marks := (if marked then S (marks s) else marks s) |}
| step_mark_announce s i :
    tasks s !! i = Some MarkAnnouncing → flag_step s (task_step (announce (flag s)) i Free s)
| step_timeout s i t :
    tasks s !! i = Some t → t = Subscribing ∨ (∃ token, t = Marking token) → flag_step s (task_step (flag s) i Free s)
| step_wait_subscribe s i :
    tasks s !! i = Some WaitSubscribe →
    flag_step s (task_step {| ready := ready (flag s); next_id := next_id (flag s); tokens := tokens (flag s);
                              tx := watch_subscribe (tx (flag s)) |} i (WaitBorrow (watch_version (tx (flag s)))) s)
| step_wait_borrow s i seen f t :
    tasks s !! i = Some (WaitBorrow seen) →
    (if watch_value (tx (flag s)) then (close (flag s), Free) else (flag s, Waiting seen)) = (f, t) →
    flag_step s (task_step f i t s)
| step_wait_changed s i seen f t :
    tasks s !! i = Some (Waiting seen) → watch_version (tx (flag s)) ≠ seen →
    (if watch_value (tx (flag s)) then (close (flag s), Free) else (flag s, Waiting (watch_version (tx (flag s))))) = (f, t) →
    flag_step s (task_step f i t s).
Definition flag_initial (n : nat) : flag_system := {| flag := new; tasks := replicate n Free; marks := 0 |}.

(** * Lemmas *)

Definition in_i32 (z : Z) : Prop := (-2147483648) ≤ z ∧ z < 2147483648.
Lemma wrap_i32_range z : in_i32 (wrap_i32 z).
Proof. unfold in_i32, wrap_i32. lia. Qed.
Lemma wrap_i32_id z : in_i32 z → wrap_i32 z = z.
Proof. unfold in_i32, wrap_i32. lia. Qed.
Lemma wrap_i32_wrap z k : wrap_i32 (wrap_i32 z + k) = wrap_i32 (z + k).
Proof. unfold wrap_i32. lia. Qed.
Record tokens_wf (f : ReadinessFlag) : Prop := {
  wf_next : in_i32 (next_id f);
  wf_tokens : ∀ t, t ∈ tokens f → t ≠ 0 ∧ in_i32 t }.
Definition granted (f f' : ReadinessFlag) (token : Token) : Prop :=
  token ≠ 0 ∧ (token ∉ tokens f) ∧ tokens f' = {[token]} ∪ tokens f ∧ ready f' = ready f ∧ tx f' = tx f ∧ tokens_wf f'.
(** The loop stops at the first identifier that is free, or has tried as many
    as it has fuel. *)
Lemma subscribe_loop_cases fuel : ∀ f, tokens_wf f →
  (∃ f' token, subscribe_loop fuel f = Ok (f', token) ∧ granted f f' token)
  ∨ (subscribe_loop fuel f = OutOfFuel
     ∧ Forall (λ j, wrap_i32 (next_id f + Z.of_nat j) ∈ ({[0]} ∪ tokens f : gset Token)) (seq 0 fuel)).
Proof.
  induction fuel as [|fuel IH]; intros f Hf; [by right; split; [|constructor]|]. cbn [subscribe_loop]. destruct (decide _) as [[Hz Hin]|Hno].
  - left. eexists _, _. split; [done|]. split_and!; [done..|]. split; cbn [next_id tokens].
    + apply wrap_i32_range.
    + intros t [->%elem_of_singleton|Ht]%elem_of_union; [split; [done|apply Hf]|by apply Hf].
  - destruct (IH {| ready := ready f; next_id := wrap_i32 (next_id f + 1); tokens := tokens f; tx := tx f |}) as [H|[E H]].
    { split; [apply wrap_i32_range|apply Hf]. }
    + by left.
    + right. split; [exact E|]. cbn [seq]. constructor.
      * rewrite Z.add_0_r, wrap_i32_id by apply Hf. destruct (decide (next_id f = 0)) as [->|]; [set_solver|].
        destruct (decide (next_id f ∈ tokens f)); [set_solver|]. by destruct Hno.
      * rewrite <-fmap_S_seq. apply Forall_fmap. eapply Forall_impl; [exact H|]. intros j. cbn [next_id tokens compose].
        rewrite wrap_i32_wrap. by replace (next_id f + 1 + Z.of_nat j) with (next_id f + Z.of_nat (S j)) by lia.
Qed.
Lemma candidates_nodup z n : Z.of_nat n ≤ 4294967296 → NoDup ((λ j, wrap_i32 (z + Z.of_nat j)) <$> seq 0 n).
Proof.
  intros Hn. apply NoDup_fmap_2_strong; [|apply NoDup_seq]. intros i j Hi%elem_of_seq Hj%elem_of_seq.
  unfold wrap_i32. lia.
Qed.
Lemma subscribe_loop_grants f :
  tokens_wf f → Z.of_nat (size (tokens f)) < 4294967295 →
  ∃ f' token, subscribe_loop (S (S (size (tokens f)))) f = Ok (f', token) ∧ granted f f' token.
Proof.
  intros Hf Hs. destruct (subscribe_loop_cases (S (S (size (tokens f)))) f Hf) as [|[_ HF]]; [done|]. exfalso.
  pose proof (candidates_nodup (next_id f) (S (S (size (tokens f)))) ltac:(lia)) as Hnd.
  set (l := _ <$> _) in Hnd.
  assert (Hsub : (list_to_set l : gset Token) ⊆ {[0]} ∪ tokens f).
  { intros t Ht. apply elem_of_list_to_set in Ht. unfold l in Ht. apply list_elem_of_fmap in Ht as (j & -> & Hj).
    rewrite Forall_forall in HF. by apply HF. }
  apply subseteq_size in Hsub. rewrite size_list_to_set in Hsub by done. unfold l in Hsub.
  rewrite length_fmap, length_seq in Hsub. pose proof (size_union_alt {[0]} (tokens f)) as Hu.
  rewrite size_singleton in Hu. pose proof (subseteq_size (tokens f ∖ {[0]}) (tokens f) ltac:(set_solver)). lia.
Qed.

(** ** The invariant of a shared flag *)

Definition listening (t : task) : nat := match t with WaitBorrow _ | Waiting _ => 1 | _ => 0 end.
Definition seen_version (t : task) : option nat := match t with WaitBorrow n | Waiting n => Some n | _ => None end.
Definition announcer (t : task) : Prop := t = MarkAnnouncing ∨ ∃ waiting, t = Announcing waiting.
(** The flag and its channel agree, whatever the tasks are. *)
Record flag_ok (f : ReadinessFlag) : Prop := {
  ok_tokens : tokens_wf f;
  ok_ready : ready f = true → tokens f = ∅;
  ok_value : watch_value (tx f) = true → ready f = true;
  ok_version : (0 < watch_version (tx f))%nat → watch_value (tx f) = true }.
(** What a task tells of the flag. *)
Definition task_ok (f : ReadinessFlag) (t : task) : Prop :=
  (announcer t → ready f = true)
  ∧ ∀ seen, seen_version t = Some seen → (seen ≤ watch_version (tx f))%nat ∧ (seen = 0%nat ∨ ready f = true).
Record system_ok (s : flag_system) : Prop := {
  sys_flag : flag_ok (flag s);
  sys_tasks : Forall (task_ok (flag s)) (tasks s);
  sys_receivers : watch_receivers (tx (flag s)) = sum_list_with listening (tasks s);
  sys_marks : (marks s ≤ 1)%nat ∧ (marks s = 1%nat → ready (flag s) = true) }.
(** Changes of the flag that keep what is known of the tasks. *)
Definition flag_grows (f f' : ReadinessFlag) : Prop :=
  (ready f = true → ready f' = true) ∧ (watch_version (tx f) ≤ watch_version (tx f'))%nat.
Lemma task_ok_grows f f' t : flag_grows f f' → task_ok f t → task_ok f' t.
Proof.
  intros [Hr Hv] [Ha Hs]. split; [auto|]. intros seen E. destruct (Hs seen E) as [? [?|?]]; split; try lia; auto.
Qed.
Lemma system_ok_step s f i t t' n :
  system_ok s → tasks s !! i = Some t → flag_ok f → flag_grows (flag s) f → task_ok f t' →
  (watch_receivers (tx f) + listening t = watch_receivers (tx (flag s)) + listening t')%nat →
  (n ≤ 1)%nat → (n = 1%nat → ready f = true) →
  system_ok {| flag := f; tasks := <[i := t']> (tasks s); marks := n |}.
Proof.
  intros [_ Ht Hrec _] Hi Hf Hg Ht' Hc Hn Hn'. split; cbn [flag tasks marks]; [done| | |done].
  - apply Forall_insert; [|done]. eapply Forall_impl; [done|]. intros x. by apply task_ok_grows.
  - pose proof (sum_list_with_insert listening _ _ _ t' Hi). lia.
Qed.
Lemma system_ok_task_step s f i t t' :
  system_ok s → tasks s !! i = Some t → flag_ok f → flag_grows (flag s) f → task_ok f t' →
  (watch_receivers (tx f) + listening t = watch_receivers (tx (flag s)) + listening t')%nat →
  system_ok (task_step f i t' s).
Proof.
  intros Hs Hi Hf Hg Ht Hr. apply (system_ok_step s f i t t' (marks s)); try done; [apply (sys_marks s Hs)|].
  intros E. apply Hg. by apply (sys_marks s Hs).
Qed.
Lemma flag_grows_refl f : flag_grows f f.
Proof. by split. Qed.
Lemma task_ok_quiet f t : (announcer t → ready f = true) → seen_version t = None → task_ok f t.
Proof. intros Ha E. split; [done|]. intros seen. by rewrite E. Qed.
Lemma task_ok_free f : task_ok f Free.
Proof. apply task_ok_quiet; [|done]. by intros [|[? ?]]. Qed.
(** Steps that change the task only. *)
Lemma system_ok_task s i t t' :
  system_ok s → tasks s !! i = Some t → task_ok (flag s) t' → listening t = listening t' → system_ok (task_step (flag s) i t' s).
Proof.
  intros Hs Hi Ht Hl. apply (system_ok_task_step s (flag s) i t t'); [done..|apply Hs|apply flag_grows_refl|done|]. lia.
Qed.
Lemma announce_ok f : flag_ok f → ready f = true →
  flag_ok (announce f) ∧ flag_grows f (announce f) ∧ watch_receivers (tx (announce f)) = watch_receivers (tx f)
  ∧ ((0 < watch_receivers (tx f))%nat → watch_value (tx (announce f)) = true
                                       ∧ watch_version (tx (announce f)) = S (watch_version (tx f)))
  ∧ (watch_receivers (tx f) = 0%nat → announce f = f).
Proof.
  intros [Ht Hr Hv Hver] Hready. unfold announce. destruct (watch_receivers (tx f)) as [|k] eqn:Ek.
  - assert (E : {| ready := ready f; next_id := next_id f; tokens := tokens f; tx := (watch_send true (tx f)).2 |} = f).
    { rewrite (watch_send_closed true (tx f) Ek). by destruct f. }
    rewrite E. split_and!; [by split|by apply flag_grows_refl|done|lia|done].
  - rewrite (watch_send_open true (tx f)) by lia. cbn [snd].
    destruct (watch_replace_spec true (tx f)) as (E1 & E2 & E3). split_and!.
    + split; cbn [tokens ready tx]; [by destruct Ht; split|done|done|by rewrite E1].
    + split; cbn [ready tx]; [done|lia].
    + cbn [tx]. by rewrite E3.
    + cbn [tx]. by rewrite E1, E2.
    + done.
Qed.
Lemma check_locked_cases f f' r : flag_ok f → check_locked f = (f', r) →
  (r = None ∧ f' = f)
  ∨ (r = Some (ready f) ∧ tokens f = ∅ ∧ ready f' = true ∧ tx f' = tx f ∧ flag_ok f').
Proof.
  intros [Ht Hr Hv Hver]. unfold check_locked. destruct (decide (tokens f = ∅)) as [E|]; intros [= <- <-]; [right|by left].
  split_and!; [done..|]. split; cbn [tokens ready tx]; [by destruct Ht; split|done|done|done].
Qed.
Lemma mark_locked_cases token f f' marked : flag_ok f → mark_locked token f = (f', marked) →
  (marked = false ∧ f' = f ∧ token ∉ tokens f)
  ∨ (marked = true ∧ token ∈ tokens f ∧ ready f = false ∧ ready f' = true ∧ tokens f' = ∅ ∧ tx f' = tx f ∧ flag_ok f').
Proof.
  intros [Ht Hr Hv Hver]. unfold mark_locked. destruct (decide (token ∈ tokens f)) as [Hin|]; intros [= <- <-]; [right|by left].
  assert (Hf : ready f = false) by (destruct (ready f); [rewrite Hr in Hin by done; set_solver|done]).
  split_and!; [done..|]. split; cbn [tokens ready tx]; [|done..].
  destruct Ht. split; cbn [next_id tokens]; [done|]. intros t Htin. set_solver.
Qed.
Lemma subscribe_locked_cases f f' token : flag_ok f → subscribe_locked f = Ok (f', token) →
  f' = f ∨ (ready f = false ∧ ready f' = ready f ∧ tx f' = tx f ∧ flag_ok f').
Proof.
  intros [Ht Hr Hv Hver]. unfold subscribe_locked. destruct (ready f) eqn:Er; [intros [= <- <-]; by left|].
  destruct (subscribe_loop_cases (S (S (size (tokens f)))) f Ht) as [(g & tok & E & Hz & Hin & Etok & Erd & Etx & Hwf)|[E _]].
  - rewrite E. run_bind. intros [= <- _]. right. split_and!; [done|congruence|done|]. split; [done| |by rewrite Etx, Erd, Er|by rewrite Etx].
    rewrite Erd, Er. done.
  - by rewrite E.
Qed.
Lemma task_ok_check_answered f waiting answer : task_ok f (check_answered waiting answer).
Proof. unfold check_answered. destruct (waiting && negb answer); [apply task_ok_quiet; [by intros [|[? ?]]|done]|apply task_ok_free]. Qed.
Lemma listening_check_answered waiting answer : listening (check_answered waiting answer) = 0%nat.
Proof. unfold check_answered. by destruct (waiting && negb answer). Qed.
Lemma task_ok_lookup s i t : system_ok s → tasks s !! i = Some t → task_ok (flag s) t.
Proof. intros [_ Ht _ _] Hi. rewrite Forall_lookup in Ht. by eapply Ht. Qed.
Lemma announce_step_ok s i t :
  system_ok s → tasks s !! i = Some t → announcer t → listening t = 0%nat → system_ok (task_step (announce (flag s)) i Free s).
Proof.
  intros Hs Hi Ha Hl. pose proof (proj1 (task_ok_lookup s i t Hs Hi) Ha) as Hready.
  destruct (announce_ok (flag s) (sys_flag s Hs) Hready) as (Hf & Hg & Hr & _).
  apply (system_ok_task_step s (announce (flag s)) i t Free); [done..|apply task_ok_free|]. cbn [listening]. lia.
Qed.
Lemma close_ok f : flag_ok f → flag_ok (close f) ∧ flag_grows f (close f) ∧ watch_receivers (tx (close f)) = pred (watch_receivers (tx f)).
Proof.
  intros [Ht Hr Hv Hver]. destruct (watch_close_spec (tx f)) as (E1 & E2 & E3). unfold close. split_and!; [| |done].
  - split; cbn [tokens ready tx]; [by destruct Ht; split|done|by rewrite E1|by rewrite E1, E2].
  - split; cbn [ready tx]; [done|lia].
Qed.
(** A task that has been told stops listening. *)
Lemma leave_step_ok s i t seen t' f :
  system_ok s → tasks s !! i = Some t → seen_version t = Some seen →
  (if watch_value (tx (flag s)) then (close (flag s), Free) else (flag s, Waiting (watch_version (tx (flag s))))) = (f, t') →
  system_ok (task_step f i t' s).
Proof.
  intros Hs Hi Hseen. assert (Hl : listening t = 1%nat) by by destruct t.
  destruct (task_ok_lookup s i t Hs Hi) as [_ Hok]. destruct (Hok seen Hseen) as [Hle Hz].
  destruct (watch_value (tx (flag s))) eqn:Ev; intros [= <- <-].
  - destruct (close_ok (flag s) (sys_flag s Hs)) as (Hf & Hg & Hr).
    pose proof (sys_receivers s Hs) as Hrec. pose proof (sum_list_with_insert listening _ _ _ Free Hi) as Hsum.
    apply (system_ok_task_step s (close (flag s)) i t Free); [done..|apply task_ok_free|]. cbn [listening] in *. lia.
  - apply (system_ok_task s i t); [done..| |by rewrite Hl]. split; [by intros [|[? ?]]|].
    intros seen' [= <-]. split; [done|]. left.
    destruct (watch_version (tx (flag s))) eqn:E; [done|]. pose proof (ok_version _ (sys_flag s Hs)) as Hv.
    rewrite E in Hv. rewrite Hv in Ev; [done|lia].
Qed.
Lemma system_ok_flag_step s s' : system_ok s → flag_step s s' → system_ok s'.
Proof.
  intros Hs Hstep. destruct Hstep as [s i waiting Hi|s i waiting f r Hi E|s i waiting Hi|s i waiting Hi|s i waiting Hi|s i Hi
    |s i f token Hi E|s i token Hi|s i token f marked Hi E|s i Hi|s i t Hi Ht|s i Hi|s i seen f t Hi E|s i seen f t Hi Hne E].
  - eapply system_ok_task; [done..| |]; destruct (ready (flag s)); try done; try apply task_ok_free.
    apply task_ok_quiet; [by intros [|[? ?]]|done].
  - apply check_locked_cases in E as [[-> ->]|(-> & Htok & Hr & Etx & Hf)]; [| |apply Hs].
    + eapply system_ok_task; [done..| |done]. apply task_ok_quiet; [by intros [|[? ?]]|done].
    + eapply system_ok_task_step; [done..| | |].
      * split; [done|by rewrite Etx].
      * destruct (ready (flag s)); [apply task_ok_free|]. apply task_ok_quiet; done.
      * rewrite Etx. by destruct (ready (flag s)).
  - eapply system_ok_task; [done..| |done]. apply task_ok_quiet; [by intros [|[? ?]]|done].
  - eapply announce_step_ok; [done..|by right; exists waiting|done].
  - eapply system_ok_task; [done..|apply task_ok_check_answered|by rewrite listening_check_answered].
  - eapply system_ok_task; [done..| |by destruct (ready _)]. destruct (ready (flag s)); [apply task_ok_free|].
    apply task_ok_quiet; [by intros [|[? ?]]|done].
  - destruct (subscribe_locked_cases _ _ _ (sys_flag s Hs) E) as [->|(Hr & Er & Etx & Hf)].
    + eapply system_ok_task; [done..|apply task_ok_free|done].
    + eapply system_ok_task_step; [done..| |apply task_ok_free|].
      * split; [congruence|by rewrite Etx].
      * by rewrite Etx.
  - eapply system_ok_task; [done..| |by destruct (_ || _)]. destruct (_ || _); [apply task_ok_free|].
    apply task_ok_quiet; [by intros [|[? ?]]|done].
  - apply mark_locked_cases in E as [(-> & -> & _)|(-> & _ & Hr & Hr' & Htok & Etx & Hf)]; [| |apply Hs].
    + apply (system_ok_task s i (Marking token) Free); [done..|apply task_ok_free|done].
    + assert (marks s = 0%nat) as Hm.
      { destruct (sys_marks s Hs) as [Hle H1]. destruct (marks s) as [|[|]]; [done| |lia]. by rewrite H1 in Hr. }
      apply (system_ok_step s f i (Marking token) MarkAnnouncing (S (marks s))); [done..| | | |by rewrite Hm|done].
      * split; [done|by rewrite Etx].
      * apply task_ok_quiet; done.
      * by rewrite Etx.
  - eapply announce_step_ok; [done..|by left|done].
  - eapply system_ok_task; [done..|apply task_ok_free|]. by destruct Ht as [->|[? ->]].
  - destruct (watch_subscribe_spec (tx (flag s))) as (E1 & E2 & E3). destruct (sys_flag s Hs) as [Ht Hr Hv Hver].
    eapply system_ok_task_step; [done..| | | |].
    + split; cbn [tokens ready tx]; [by destruct Ht; split|done|by rewrite E1|by rewrite E1, E2].
    + split; cbn [ready tx]; [done|lia].
    + split; [by intros [|[? ?]]|]. intros seen [= <-]. cbn [tx ready]. split; [lia|].
      destruct (watch_version (tx (flag s))); [by left|]. right. apply Hv, Hver. lia.
    + cbn [tx listening]. lia.
  - destruct (task_ok_lookup s i _ Hs Hi) as [_ Hok]. destruct (Hok seen eq_refl) as [Hle Hz].
    destruct (watch_value (tx (flag s))) eqn:Ev.
    + eapply (leave_step_ok s i); [done..|]. by rewrite Ev.
    + injection E as <- <-. eapply system_ok_task; [done..| |done]. split; [by intros [|[? ?]]|]. by intros seen' [= <-].
  - by eapply (leave_step_ok s i).
Qed.
Lemma system_ok_initial n : system_ok (flag_initial n).
Proof.
  destruct (watch_new_spec false) as (E1 & E2 & E3). split; cbn [flag_initial flag tasks marks new tx].
  - split; cbn [new tokens ready tx]; rewrite ?E1, ?E2; try done. lia.
  - apply Forall_replicate, task_ok_free.
  - by rewrite E3, sum_list_with_replicate, Nat.mul_0_r.
  - split; [lia|done].
Qed.
Lemma system_ok_run s s' : system_ok s → rtc flag_step s s' → system_ok s'.
Proof. intros Hs Hr. revert Hs. induction Hr as [|s1 s2 s3 H _ IH]; [done|]. intros Hs. by eapply IH, system_ok_flag_step. Qed.

(** ** What a step does to the flag *)

Lemma flag_step_grows s s' : system_ok s → flag_step s s' → flag_grows (flag s) (flag s').
Proof.
  intros Hs Hstep. destruct Hstep as [s i waiting Hi|s i waiting f r Hi E|s i waiting Hi|s i waiting Hi|s i waiting Hi|s i Hi
    |s i f token Hi E|s i token Hi|s i token f marked Hi E|s i Hi|s i t Hi Ht|s i Hi|s i seen f t Hi E|s i seen f t Hi Hne E];
    cbn [task_step flag]; try apply flag_grows_refl.
  - apply check_locked_cases in E as [[_ ->]|(_ & _ & Hr & Etx & _)]; [apply flag_grows_refl| |apply Hs]. split; [done|by rewrite Etx].
  - apply announce_ok; [apply Hs|]. apply (task_ok_lookup s i _ Hs Hi). by right; exists waiting.
  - destruct (subscribe_locked_cases _ _ _ (sys_flag s Hs) E) as [->|(_ & Er & Etx & _)]; [apply flag_grows_refl|].
    split; [congruence|by rewrite Etx].
  - apply mark_locked_cases in E as [(_ & -> & _)|(_ & _ & _ & Hr & _ & Etx & _)]; [apply flag_grows_refl| |apply Hs].
    split; [done|by rewrite Etx].
  - apply announce_ok; [apply Hs|]. apply (task_ok_lookup s i _ Hs Hi). by left.
  - destruct (watch_subscribe_spec (tx (flag s))) as (_ & E2 & _). split; cbn [ready tx]; [done|lia].
  - destruct (watch_value _); injection E as <- <-; [apply close_ok, Hs|apply flag_grows_refl].
  - destruct (watch_value _); injection E as <- <-; [apply close_ok, Hs|apply flag_grows_refl].
Qed.
Lemma ready_stays s s' : system_ok s → rtc flag_step s s' → ready (flag s) = true → ready (flag s') = true.
Proof.
  intros Hs Hr. revert Hs. induction Hr as [|s1 s2 s3 H _ IH]; [done|]. intros Hs Hready.
  apply IH; [by eapply system_ok_flag_step|]. by apply (flag_step_grows s1 s2 Hs H).
Qed.

(** ** A registered waiter *)

(** A receiver that is going to hear of the flag: it is not ready yet, or a task
    is about to announce it, or it has been announced since. *)
Definition hears (i : nat) (s : flag_system) : Prop :=
  ∃ t seen, tasks s !! i = Some t ∧ seen_version t = Some seen
    ∧ (ready (flag s) = false ∨ (∃ k a, tasks s !! k = Some a ∧ announcer a)
       ∨ (seen < watch_version (tx (flag s)))%nat).
Definition listens (i : nat) (s : flag_system) : Prop := ∃ t seen, tasks s !! i = Some t ∧ seen_version t = Some seen.
Lemma hears_other i s j a f a' n :
  hears i s → j ≠ i → tasks s !! j = Some a → ¬ announcer a → ready f = ready (flag s) ∨ announcer a' →
  (watch_version (tx (flag s)) ≤ watch_version (tx f))%nat →
  hears i {| flag := f; tasks := <[j := a']> (tasks s); marks := n |}.
Proof.
  intros (t & seen & Hi & Hseen & Hcase) Hne Hj Ha Hr Hv. exists t, seen. cbn [flag tasks].
  rewrite list_lookup_insert_ne by done. split_and!; [done..|].
  assert (Hlt : (j < length (tasks s))%nat) by by eapply lookup_lt_Some.
  destruct Hcase as [Hf|[(k & b & Hk & Hb)|Hlt']]; [|right; left|right; right; lia].
  - destruct Hr as [->|Ha']; [by left|]. right. left. exists j, a'. by rewrite list_lookup_insert_eq.
  - exists k, b. split; [|done]. destruct (decide (j = k)) as [->|]; [|by rewrite list_lookup_insert_ne].
    rewrite Hj in Hk. by injection Hk as ->.
Qed.
Lemma hears_self i s t t' seen :
  hears i s → tasks s !! i = Some t → ¬ announcer t → seen_version t' = seen_version t → seen_version t = Some seen →
  hears i (task_step (flag s) i t' s).
Proof.
  intros (t0 & seen0 & Hi & Hseen & Hcase) Hi' Ha Ht' Hs. rewrite Hi in Hi'. injection Hi' as ->.
  exists t', seen0. cbn [task_step flag tasks]. rewrite list_lookup_insert_eq by by eapply lookup_lt_Some.
  split_and!; [done|by rewrite Ht'|]. destruct Hcase as [Hf|[(k & b & Hk & Hb)|Hlt]]; [by left|right; left|by right; right].
  exists k, b. split; [|done]. rewrite list_lookup_insert_ne; [done|]. intros ->. rewrite Hi in Hk. by injection Hk as ->.
Qed.
Lemma listens_receivers i s : system_ok s → listens i s → (0 < watch_receivers (tx (flag s)))%nat.
Proof.
  intros Hs (t & seen & Hi & Hseen). rewrite (sys_receivers s Hs). pose proof (sum_list_with_insert listening _ _ _ Free Hi) as E.
  assert (listening t = 1%nat) as El by by destruct t. cbn [listening] in E. lia.
Qed.
Lemma hears_announce i j s a :
  system_ok s → hears i s → tasks s !! j = Some a → announcer a → hears i (task_step (announce (flag s)) j Free s).
Proof.
  intros Hs Hh Hj Ha. pose proof Hh as (t & seen & Hi & Hseen & _).
  destruct (announce_ok (flag s) (sys_flag s Hs) (proj1 (task_ok_lookup s j a Hs Hj) Ha)) as (_ & _ & _ & Hopen & _).
  destruct Hopen as [_ Hv]; [apply (listens_receivers i s Hs); by exists t, seen|].
  destruct (task_ok_lookup s i t Hs Hi) as [_ Hok]. destruct (Hok seen Hseen) as [Hle _].
  exists t, seen. cbn [task_step flag tasks]. rewrite list_lookup_insert_ne.
  - split_and!; [done..|]. right. right. lia.
  - intros ->. rewrite Hj in Hi. injection Hi as ->. by destruct Ha as [->|[? ->]].
Qed.
Ltac quiet_task := by intros [?|[? ?]].
(** A waiter that has not been told yet has no reason to be told later. *)
Lemma value_of_hears s seen : system_ok s → (seen < watch_version (tx (flag s)))%nat → watch_value (tx (flag s)) = true.
Proof. intros Hs Hlt. apply (ok_version _ (sys_flag s Hs)). lia. Qed.
Lemma hears_step i s s' : system_ok s → hears i s → flag_step s s' → listens i s' → hears i s'.
Proof.
  intros Hs Hh Hstep Hl. pose proof Hh as (t0 & seen0 & Hi0 & Hseen0 & Hcase0).
  assert (Hne : ∀ j a, tasks s !! j = Some a → seen_version a = None → j ≠ i).
  { intros j a Hj Ha ->. rewrite Hj in Hi0. injection Hi0 as ->. by rewrite Hseen0 in Ha. }
  destruct Hstep as [s j waiting Hi|s j waiting f r Hi E|s j waiting Hi|s j waiting Hi|s j waiting Hi|s j Hi
    |s j f token Hi E|s j token Hi|s j token f marked Hi E|s j Hi|s j t Hi Ht|s j Hi|s j seen f t Hi E|s j seen f t Hi Hv E].
  - eapply hears_other; [done|by eapply Hne|done|quiet_task|by left|done].
  - apply check_locked_cases in E as [[-> ->]|(-> & _ & Hr & Etx & _)]; [| |apply Hs].
    + eapply hears_other; [done|by eapply Hne|done|quiet_task|by left|done].
    + eapply hears_other; [done|by eapply Hne|done|quiet_task| |by rewrite Etx].
      destruct (ready (flag s)); [by left|]. right. right. by exists waiting.
  - eapply hears_other; [done|by eapply Hne|done|quiet_task|by left|done].
  - eapply hears_announce; [done..|]. right. by exists waiting.
  - eapply hears_other; [done|by eapply Hne|done|quiet_task|by left|done].
  - eapply hears_other; [done|by eapply Hne|done|quiet_task|by left|done].
  - destruct (subscribe_locked_cases _ _ _ (sys_flag s Hs) E) as [->|(_ & Er & Etx & _)];
      (eapply hears_other; [done|by eapply Hne|done|quiet_task| |]); [by left|done|by left|by rewrite Etx].
  - eapply hears_other; [done|by eapply Hne|done|quiet_task|by left|done].
  - apply mark_locked_cases in E as [(-> & -> & _)|(-> & _ & _ & _ & _ & Etx & _)]; [| |apply Hs];
      (eapply hears_other; [done|by eapply Hne|done|quiet_task| |]); [by left|done|right; by left|by rewrite Etx].
  - eapply hears_announce; [done..|]. by left.
  - assert (seen_version t = None) as Hnone by by destruct Ht as [->|[? ->]].
    eapply hears_other; [done|by eapply Hne|done| |by left|done]. destruct Ht as [->|[? ->]]; quiet_task.
  - destruct (watch_subscribe_spec (tx (flag s))) as (_ & E2 & _).
    eapply hears_other; [done|by eapply Hne|done|quiet_task|by left|cbn [tx]; lia].
  - destruct (decide (j = i)) as [->|Hji].
    + rewrite Hi0 in Hi. injection Hi as ->. injection Hseen0 as <-. destruct (watch_value (tx (flag s))); injection E as <- <-.
      * destruct Hl as (t & n & Ht & Hn). cbn in Ht. rewrite list_lookup_insert_eq in Ht by by eapply lookup_lt_Some.
        by injection Ht as <-.
      * apply (hears_self i s (WaitBorrow seen) (Waiting seen) seen); [done|done|quiet_task|done|done].
    + destruct (close_ok (flag s) (sys_flag s Hs)) as (_ & [_ Hc] & _).
      destruct (watch_value _); injection E as <- <-;
        (eapply hears_other; [done|done|done|quiet_task|by left|first [exact Hc|done]]).
  - destruct (decide (j = i)) as [->|Hji].
    + rewrite Hi0 in Hi. injection Hi as ->. injection Hseen0 as <-.
      destruct (task_ok_lookup s i _ Hs Hi0) as [_ Hok]. destruct (Hok seen eq_refl) as [Hle _].
      rewrite (value_of_hears s seen Hs) in E by lia. injection E as <- <-.
      destruct Hl as (t & n & Ht & Hn). cbn in Ht. rewrite list_lookup_insert_eq in Ht by by eapply lookup_lt_Some.
      by injection Ht as <-.
    + destruct (close_ok (flag s) (sys_flag s Hs)) as (_ & [_ Hc] & _).
      destruct (watch_value _); injection E as <- <-;
        (eapply hears_other; [done|done|done|quiet_task|by left|first [exact Hc|done]]).
Qed.
(** Once the flag is ready, at most two steps wake such a waiter. *)
Lemma hears_woken i s :
  system_ok s → hears i s → ready (flag s) = true → ∃ s', rtc flag_step s s' ∧ tasks s' !! i = Some Free.
Proof.
  assert (Htold : ∀ s, system_ok s → (∃ t seen, tasks s !! i = Some t ∧ seen_version t = Some seen
    ∧ (seen < watch_version (tx (flag s)))%nat) → ∃ s', rtc flag_step s s' ∧ tasks s' !! i = Some Free).
  { clear s. intros s Hs (t & seen & Hi & Hseen & Hlt). pose proof (value_of_hears s seen Hs Hlt) as Hv.
    exists (task_step (close (flag s)) i Free s). cbn [task_step tasks].
    rewrite list_lookup_insert_eq by by eapply lookup_lt_Some. split; [|done]. apply rtc_once.
    destruct t; try done; injection Hseen as ->; [eapply step_wait_borrow|eapply step_wait_changed]; [done|by rewrite Hv|done|lia|by rewrite Hv]. }
  intros Hs Hh Hr. pose proof Hh as (t & seen & Hi & Hseen & [Hf|[(k & a & Hk & Ha)|Hlt]]); [congruence| |by apply Htold; eauto].
  pose proof (hears_announce i k s a Hs Hh Hk Ha) as (t' & seen' & Hi' & Hseen' & Hcase').
  assert (Hstep : flag_step s (task_step (announce (flag s)) k Free s)).
  { destruct Ha as [->|[w ->]]; [by apply step_mark_announce|by eapply step_announce]. }
  destruct (announce_ok (flag s) (sys_flag s Hs) Hr) as (_ & _ & _ & Hopen & _).
  destruct Hopen as [_ Hv]; [apply (listens_receivers i s Hs); by exists t, seen|].
  destruct (Htold (task_step (announce (flag s)) k Free s)) as (s2 & Hr2 & Hdone); [by eapply system_ok_flag_step| |].
  - exists t, seen. cbn [task_step tasks flag]. destruct (task_ok_lookup s i t Hs Hi) as [_ Hok]. destruct (Hok seen Hseen) as [Hle _].
    split_and!; [|done|lia]. rewrite list_lookup_insert_ne; [done|]. intros ->. rewrite Hi in Hk. injection Hk as ->.
    by destruct Ha as [->|[? ->]].
  - exists s2. split; [by eapply rtc_l|done].
Qed.

(** ** A waiter nobody will wake *)

(** The flag is ready, no task is about to say so, and a task waits for a
    version it has already seen. *)
Definition lost (i : nat) (s : flag_system) : Prop :=
  ready (flag s) = true ∧ tokens (flag s) = ∅ ∧ watch_version (tx (flag s)) = 0%nat
  ∧ tasks s !! i = Some (Waiting 0) ∧ ∀ k a, tasks s !! k = Some a → ¬ announcer a.
Lemma lost_other i s j a f a' n :
  lost i s → tasks s !! j = Some a → seen_version a = None ∨ j ≠ i → ready f = true → tokens f = ∅ →
  watch_version (tx f) = 0%nat → ¬ announcer a' →
  lost i {| flag := f; tasks := <[j := a']> (tasks s); marks := n |}.
Proof.
  intros (_ & _ & _ & Hi & Hno) Hj Hne Hr Ht Hv Ha. assert (Hji : j ≠ i).
  { destruct Hne as [Hne|]; [|done]. intros ->. rewrite Hj in Hi. by injection Hi as ->. }
  split_and!; [done..|by cbn; rewrite list_lookup_insert_ne|].
  intros k b Hk. cbn in Hk. apply list_lookup_insert_Some in Hk as [(_ & <- & _)|[_ Hk]]; [done|by eapply Hno].
Qed.
Lemma lost_step i s s' : lost i s → flag_step s s' → lost i s'.
Proof.
  intros Hl Hstep. pose proof Hl as (Hr & Ht & Hv & Hi0 & Hno).
  destruct Hstep as [s j waiting Hi|s j waiting f r Hi E|s j waiting Hi|s j waiting Hi|s j waiting Hi|s j Hi
    |s j f token Hi E|s j token Hi|s j token f marked Hi E|s j Hi|s j t Hi Htm|s j Hi|s j seen f t Hi E|s j seen f t Hi Hne E].
  - eapply lost_other; [done..|by left|done|done|done|]. rewrite Hr. quiet_task.
  - unfold check_locked in E. rewrite decide_True in E by done. injection E as <- <-. rewrite Hr.
    eapply lost_other; [done..|by left|done|done|done|quiet_task].
  - eapply lost_other; [done..|by left|done|done|done|quiet_task].
  - destruct (Hno j _ Hi). by right; exists waiting.
  - eapply lost_other; [done..|by left|done|done|done|]. rewrite Hr. destruct waiting; quiet_task.
  - eapply lost_other; [done..|by left|done|done|done|]. rewrite Hr. quiet_task.
  - unfold subscribe_locked in E. rewrite Hr in E. injection E as <- <-.
    eapply lost_other; [done..|by left|done|done|done|quiet_task].
  - eapply lost_other; [done..|by left|done|done|done|]. rewrite Hr. quiet_task.
  - unfold mark_locked in E. rewrite decide_False in E by set_solver. injection E as <- <-.
    eapply lost_other; [done..|by left|done|done|done|quiet_task].
  - destruct (Hno j _ Hi). by left.
  - eapply lost_other; [done|done| |done|done|done|quiet_task]. left. by destruct Htm as [->|[? ->]].
  - destruct (watch_subscribe_spec (tx (flag s))) as (_ & E2 & _).
    eapply lost_other; [done..|by left|done|done|cbn [tx]; congruence|quiet_task].
  - assert (j ≠ i) as Hji by (intros ->; rewrite Hi in Hi0; done).
    destruct (watch_close_spec (tx (flag s))) as (_ & Ec & _).
    destruct (watch_value _); injection E as <- <-;
      (eapply lost_other; [done|done|by right|done|done|first [done|cbn [close tx]; congruence]|quiet_task]).
  - assert (j ≠ i) as Hji by (intros ->; rewrite Hi in Hi0; injection Hi0 as ->; congruence).
    destruct (watch_close_spec (tx (flag s))) as (_ & Ec & _).
    destruct (watch_value _); injection E as <- <-;
      (eapply lost_other; [done|done|by right|done|done|first [done|cbn [close tx]; congruence]|quiet_task]).
Qed.
Lemma lost_forever i s s' : lost i s → rtc flag_step s s' → lost i s'.
Proof. intros Hl Hr. revert Hl. induction Hr as [|s1 s2 s3 H _ IH]; [done|]. intros Hl. by eapply IH, lost_step. Qed.

(** * Properties *)

(** A flag becomes ready once and for all: at most one call of [mark_ready]
    answers yes, it stays ready afterwards, and no token is left or given out
    that could mark it again. *)
Theorem ready_once n s s' :
  rtc flag_step (flag_initial n) s → rtc flag_step s s' →
  (marks s' ≤ 1)%nat ∧ (marks s' = 1%nat → ready (flag s') = true)
  ∧ (ready (flag s) = true → ready (flag s') = true ∧ tokens (flag s') = ∅)
  ∧ ∀ token, token ∈ tokens (flag s') → token ≠ 0.
Proof.
  intros H0 H1. pose proof (system_ok_run _ _ (system_ok_initial n) H0) as Hs. pose proof (system_ok_run _ _ Hs H1) as Hs'.
  destruct (sys_marks s' Hs') as [Hm Hm']. split_and!; [done..| |].
  - intros Hr. pose proof (ready_stays s s' Hs H1 Hr) as Hr'. split; [done|]. by apply (sys_flag s' Hs').
  - intros token Ht. by apply (wf_tokens _ (ok_tokens _ (sys_flag s' Hs'))).
Qed.
(** Subscribing to a flag that is not ready ends with a new token, also when
    identifiers wrap around, as long as some [i32] is free; the token marks the
    flag ready, once, and other tokens do not. *)
Theorem subscribe_grants f token' :
  tokens_wf f → ready f = false → Z.of_nat (size (tokens f)) < 4294967295 → token' ∉ tokens f →
  ∃ f' token, subscribe true f = (f', Ok token) ∧ token ≠ 0 ∧ (token ∉ tokens f) ∧ tokens f' = {[token]} ∪ tokens f
    ∧ mark_ready true token' f = (f, Ok false)
    ∧ ∃ f2, mark_ready true token f' = (f2, Ok true) ∧ ready f2 = true ∧ tokens f2 = ∅
        ∧ mark_ready true token f2 = (f2, Ok false) ∧ subscribe true f2 = (f2, Err FlagAlreadyReady).
Proof.
  intros Hwf Hr Hs Hn. destruct (subscribe_loop_grants f Hwf Hs) as (f' & token & E & Hz & Hin & Ht & Hr' & Hx & Hwf').
  exists f', token. unfold subscribe, subscribe_locked. rewrite Hr, E. run_bind. split_and!; [done..| |].
  - unfold mark_ready. rewrite Hr. destruct (decide (token' = 0)); [done|]. unfold mark_locked. by rewrite decide_False.
  - eexists. unfold mark_ready at 1, mark_locked. rewrite Hr', Hr, decide_False, decide_True by (set_solver || done).
    split; [done|]. by split_and!.
Qed.
(** A task that waits since before the flag became ready is woken: whatever
    the other tasks did meanwhile, once the flag is ready there are steps, of
    tasks that never wait for it, after which the task has returned. *)
Theorem registered_waiter_is_woken n i s s' :
  rtc flag_step (flag_initial n) s → listens i s → ready (flag s) = false →
  rtc (λ a b, flag_step a b ∧ listens i b) s s' → ready (flag s') = true →
  ∃ s'', rtc flag_step s' s'' ∧ tasks s'' !! i = Some Free.
Proof.
  intros H0 (t & seen & Hi & Hseen) Hr H1 Hr'. pose proof (system_ok_run _ _ (system_ok_initial n) H0) as Hs.
  assert (Hh : hears i s) by (exists t, seen; split_and!; [done..|by left]).
  assert (Hok : system_ok s' ∧ hears i s'); [|destruct Hok; by apply hears_woken].
  clear -Hs Hh H1. induction H1 as [|s1 s2 s3 [H Hl] _ IH]; [done|].
  apply IH; [by eapply system_ok_flag_step|by eapply hears_step].
Qed.
(** But a task can wait forever for a flag that is ready: when [mark_ready]
    runs between the check of [wait_ready] and its subscription, its message
    has no receiver and is dropped, and no step of any task ever wakes it. *)
Theorem wakeup_lost :
  ∃ s, rtc flag_step (flag_initial 2) s ∧ marks s = 1%nat
    ∧ ∀ s', rtc flag_step s s' → ready (flag s') = true ∧ tasks s' !! 0%nat = Some (Waiting 0).
Proof.
  destruct (watch_new_spec false) as (Ev & En & Er). destruct (watch_subscribe_spec (watch_new false)) as (Ev' & En' & _).
  set (f1 := {| ready := false; next_id := 2; tokens := {[1]} ∪ ∅; tx := watch_new false |}).
  set (f2 := {| ready := true; next_id := 2; tokens := ∅; tx := watch_new false |}).
  set (f3 := {| ready := true; next_id := 2; tokens := ∅; tx := watch_subscribe (watch_new false) |}).
  assert (Ea : announce f2 = f2) by (unfold announce, f2; cbn [ready next_id tokens tx]; by rewrite watch_send_closed).
  set (sys f a b n := {| flag := f; tasks := [a; b]; marks := n |}).
  exists (sys f3 (Waiting 0) Free 1%nat). split; [|split; [done|]].
  - apply (rtc_l _ _ (sys new Free Subscribing 0%nat)); [exact (step_subscribe (sys new Free Free 0%nat) 1 eq_refl)|].
    apply (rtc_l _ _ (sys f1 Free Free 0%nat));
      [exact (step_subscribe_lock (sys new Free Subscribing 0%nat) 1 f1 (Some 1) eq_refl eq_refl)|].
    apply (rtc_l _ _ (sys f1 (Asking true) Free 0%nat)); [exact (step_ask (sys f1 Free Free 0%nat) 0 true eq_refl)|].
    apply (rtc_l _ _ (sys f1 (Reloading true) Free 0%nat));
      [exact (step_try_lock (sys f1 (Asking true) Free 0%nat) 0 true f1 None eq_refl eq_refl)|].
    apply (rtc_l _ _ (sys f1 WaitSubscribe Free 0%nat)); [exact (step_reload (sys f1 (Reloading true) Free 0%nat) 0 true eq_refl)|].
    apply (rtc_l _ _ (sys f1 WaitSubscribe (Marking 1) 0%nat)); [exact (step_mark (sys f1 WaitSubscribe Free 0%nat) 1 1 eq_refl)|].
    apply (rtc_l _ _ (sys f2 WaitSubscribe MarkAnnouncing 1%nat));
      [exact (step_mark_lock (sys f1 WaitSubscribe (Marking 1) 0%nat) 1 1 f2 true eq_refl eq_refl)|].
    apply (rtc_l _ _ (sys f2 WaitSubscribe Free 1%nat)).
    { rewrite <-Ea at 2. exact (step_mark_announce (sys f2 WaitSubscribe MarkAnnouncing 1%nat) 1 eq_refl). }
    apply (rtc_l _ _ (sys f3 (WaitBorrow 0) Free 1%nat)).
    { pose proof (step_wait_subscribe (sys f2 WaitSubscribe Free 1%nat) 0 eq_refl) as St. cbn in St. rewrite En in St. exact St. }
    apply rtc_once. refine (step_wait_borrow (sys f3 (WaitBorrow 0) Free 1%nat) 0 0 f3 (Waiting 0) eq_refl _).
    cbn. by rewrite Ev', Ev.
  - intros s' Hr. assert (Hl : lost 0 (sys f3 (Waiting 0) Free 1%nat)).
    { unfold lost, sys, f3. cbn. split_and!; [done|done|congruence|done|]. intros [|[|k]] a; intros [= <-]; quiet_task. }
    destruct (lost_forever 0 _ s' Hl Hr) as (? & _ & _ & ? & _). done.
Qed.
End readiness.

(** A flag nobody has subscribed to becomes ready when it is asked. *)
Lemma is_ready_without_tokens : (is_ready true new).2 = true.
Proof. reflexivity. Qed.

(** * Witnesses *)

Definition example_system (f : ReadinessFlag) (a b : task) (n : nat) : flag_system :=
  {| flag := f; tasks := [a; b]; marks := n |}.
Definition one_token : ReadinessFlag := {| ready := false; next_id := 2; tokens := {[1]} ∪ ∅; tx := watch_new false |}.
Definition one_receiver : ReadinessFlag :=
  {| ready := false; next_id := 2; tokens := {[1]} ∪ ∅; tx := watch_subscribe (watch_new false) |}.
Definition marked_flag : ReadinessFlag :=
  {| ready := true; next_id := 2; tokens := ∅; tx := watch_subscribe (watch_new false) |}.
Lemma token_run : rtc flag_step (flag_initial 2) (example_system one_token Free Free 0).
Proof.
  apply (rtc_l _ _ (example_system new Free Subscribing 0)); [exact (step_subscribe (example_system new Free Free 0) 1 eq_refl)|].
  apply rtc_once. exact (step_subscribe_lock (example_system new Free Subscribing 0) 1 one_token (Some 1) eq_refl eq_refl).
Qed.
Lemma waiting_run : rtc flag_step (flag_initial 2) (example_system one_receiver (Waiting 0) (Marking 1) 0).
Proof.
  etrans; [apply token_run|].
  apply (rtc_l _ _ (example_system one_token (Asking true) Free 0)); [exact (step_ask (example_system one_token Free Free 0) 0 true eq_refl)|].
  apply (rtc_l _ _ (example_system one_token (Reloading true) Free 0));
    [exact (step_try_lock (example_system one_token (Asking true) Free 0) 0 true one_token None eq_refl eq_refl)|].
  apply (rtc_l _ _ (example_system one_token WaitSubscribe Free 0));
    [exact (step_reload (example_system one_token (Reloading true) Free 0) 0 true eq_refl)|].
  apply (rtc_l _ _ (example_system one_receiver (WaitBorrow 0) Free 0));
    [exact (step_wait_subscribe (example_system one_token WaitSubscribe Free 0) 0 eq_refl)|].
  apply (rtc_l _ _ (example_system one_receiver (Waiting 0) Free 0));
    [exact (step_wait_borrow (example_system one_receiver (WaitBorrow 0) Free 0) 0 0 one_receiver (Waiting 0) eq_refl eq_refl)|].
  apply rtc_once. exact (step_mark (example_system one_receiver (Waiting 0) Free 0) 1 1 eq_refl).
Qed.
Lemma marked_step : flag_step (example_system one_receiver (Waiting 0) (Marking 1) 0)
  (example_system marked_flag (Waiting 0) MarkAnnouncing 1).
Proof. exact (step_mark_lock (example_system one_receiver (Waiting 0) (Marking 1) 0) 1 1 marked_flag true eq_refl eq_refl). Qed.

Lemma ready_once_witness :
  rtc flag_step (flag_initial 2) (example_system marked_flag (Waiting 0) MarkAnnouncing 1)
  ∧ ready (flag (example_system marked_flag (Waiting 0) MarkAnnouncing 1)) = true.
Proof.
  assert (Hr : rtc flag_step (flag_initial 2) (example_system marked_flag (Waiting 0) MarkAnnouncing 1))
    by exact (rtc_r _ _ _ waiting_run marked_step).
  split; [exact Hr|].
  destruct (ready_once 2 _ _ Hr (rtc_refl _ _)) as (_ & H & _). exact (H eq_refl).
Defined.
Lemma subscribe_grants_witness :
  ∃ f' token, subscribe true new = (f', Ok token) ∧ tokens f' = {[token]} ∪ ∅.
Proof.
  assert (Hwf : tokens_wf new) by (split; [split; [by compute|by compute]|intros t Ht; by apply elem_of_empty in Ht]).
  destruct (subscribe_grants new 5 Hwf eq_refl ltac:(reflexivity) ltac:(apply not_elem_of_empty)) as (f' & token & E & _ & _ & Et & _).
  exists f', token. split; [exact E|exact Et].
Defined.
Lemma registered_waiter_is_woken_witness :
  ∃ s'', rtc flag_step (example_system marked_flag (Waiting 0) MarkAnnouncing 1) s'' ∧ tasks s'' !! 0%nat = Some Free.
Proof.
  assert (Hl : ∀ f b n, listens 0 (example_system f (Waiting 0) b n)) by (intros f b n; exists (Waiting 0), 0%nat; split; reflexivity).
  exact (registered_waiter_is_woken 2 0 _ _ waiting_run (Hl _ _ _) eq_refl (rtc_once _ _ (conj marked_step (Hl _ _ _))) eq_refl).
Defined.
