(* ===== verification/ParseCommand.v ===== *)
(** Summaries of commands: [codex-rs/shell-command/src/parse_command.rs]. A
    command is shown as the files it reads, lists or searches, or as it is when
    that is not known. [shlex] and the Tree-sitter parser are parameters. *)
From S2P Require Import Prelude RustStr RustPath Bash CommandSafety ToolApproval.
#[local] Notation "x ∈? l" := (bool_decide (x ∈ (map lit l))) (at level 70).
#[local] Notation "x =? s" := (bool_decide (x = lit s)).

(** * Data *)

(** [ParsedCommand]; a path is equal to another by components. *)
Inductive ParsedCommand : Type :=
| Read (cmd name path : str) | ListFiles (cmd : str) (path : option str) | Search (cmd : str) (query path : option str) | Unknown (cmd : str).
Definition same_command (a b : ParsedCommand) : bool :=
  match a, b with
  | Read c n p, Read c' n' p' => bool_decide (c = c' ∧ n = n' ∧ components p = components p')
  | ListFiles c p, ListFiles c' p' => bool_decide (c = c' ∧ p = p')
  | Search c q p, Search c' q' p' => bool_decide (c = c' ∧ q = q' ∧ p = p')
  | Unknown c, Unknown c' => bool_decide (c = c')
  | _, _ => false
  end.
Definition is_unknown (c : ParsedCommand) : bool := match c with Unknown _ => true | _ => false end.

(** * Words *)

Definition is_connector (t : str) : bool := t ∈? ["&&"; "||"; "|"; ";"]%string.
Definition is_flag (t : str) : bool := starts_with (lit "-") t.
Definition all_ascii_digits (s : str) : bool := forallb is_ascii_digit s.
Definition contains_connectors (tokens : list str) : bool := existsb is_connector tokens.
Fixpoint split_connectors_loop (tokens cur : list str) : list (list str) :=
  match tokens with
  | [] => match cur with [] => [] | _ => [cur] end
  | t :: tokens =>
      if is_connector t then match cur with [] => split_connectors_loop tokens [] | _ => cur :: split_connectors_loop tokens [] end
      else split_connectors_loop tokens (cur ++ [t])
  end.
Definition split_on_connectors (tokens : list str) : list (list str) := split_connectors_loop tokens [].
Fixpoint trim_at_connector (tokens : list str) : list str :=
  match tokens with [] => [] | t :: tokens => if is_connector t then [] else t :: trim_at_connector tokens end.
Definition shown_part (p : str) : bool := negb (p ∈? [""; "build"; "dist"; "node_modules"; "src"]%string).
Definition short_display_path (path : str) : str :=
  let normalized := (λ c, if (c =? 92)%N then slash else c) <$> path in
  let trimmed := trim_end_matches (N.eqb slash) normalized in
  default trimmed (head (List.filter shown_part (reverse (split_char slash trimmed)))).
(** Values of flags and [--flag=value] are left out; all after [--] are operands. *)
Fixpoint skip_flag_values (args : list str) (flags_with_vals : list string) : list str :=
  match args with
  | [] => []
  | a :: rest =>
      if a =? "--" then rest
      else if starts_with (lit "--") a && contains_char 61 a then skip_flag_values rest flags_with_vals
      else if a ∈? flags_with_vals then match rest with [] => [] | _ :: rest => skip_flag_values rest flags_with_vals end
      else a :: skip_flag_values rest flags_with_vals
  end.
Fixpoint positional_operands (args : list str) (flags_with_vals : list string) : list str :=
  match args with
  | [] => []
  | a :: rest =>
      if a =? "--" then rest
      else if starts_with (lit "--") a && contains_char 61 a then positional_operands rest flags_with_vals
      else if a ∈? flags_with_vals then match rest with [] => [] | _ :: rest => positional_operands rest flags_with_vals end
      else if is_flag a then positional_operands rest flags_with_vals
      else a :: positional_operands rest flags_with_vals
  end.
Definition first_non_flag_operand (args : list str) (flags_with_vals : list string) : option str := head (positional_operands args flags_with_vals).
Definition single_non_flag_operand (args : list str) (flags_with_vals : list string) : option str :=
  match positional_operands args flags_with_vals with [first] => Some first | _ => None end.
Definition non_flags (args : list str) (flags_with_vals : list string) : list str :=
  List.filter (λ a, negb (is_flag a)) (skip_flag_values args flags_with_vals).

(** ** Particular programs *)

Fixpoint range_scripts (args : list str) : bool :=
  match args with
  | [] => false
  | arg :: rest =>
      if arg ∈? ["-e"; "--expression"]%string then
        is_valid_sed_n_arg (head rest) || match rest with [] => false | _ :: rest => range_scripts rest end
      else if arg ∈? ["-f"; "--file"]%string then match rest with [] => false | _ :: rest => range_scripts rest end
      else range_scripts rest
  end.
Definition sed_read_path (args : list str) : option str :=
  let args_no_connector := trim_at_connector args in
  if negb (existsb (λ a, a =? "-n") args_no_connector) then None
  else if negb (range_scripts args_no_connector || existsb (λ a, negb (is_flag a) && is_valid_sed_n_arg (Some a)) args_no_connector) then None
  else
    match non_flags args_no_connector ["-e"; "-f"; "--expression"; "--file"]%string with
    | [] => None
    | first :: rest => if is_valid_sed_n_arg (Some first) then head rest else Some first
    end.
Fixpoint grep_loop (args : list str) (pattern : option str) : option str * list str :=
  match args with
  | [] => (pattern, [])
  | arg :: rest =>
      if arg =? "--" then (pattern, rest)
      else if arg ∈? ["-e"; "--regexp"; "-f"; "--file"]%string then
        match rest with
        | [] => (pattern, [])
        | pat :: rest => grep_loop rest (match pattern with Some _ => pattern | None => Some pat end)
        end
      else if arg ∈? ["-m"; "--max-count"; "-C"; "--context"; "-A"; "--after-context"; "-B"; "--before-context"]%string then
        match rest with [] => (pattern, []) | _ :: rest => grep_loop rest pattern end
      else if is_flag arg then grep_loop rest pattern
      else let '(pattern, operands) := grep_loop rest pattern in (pattern, arg :: operands)
  end.
Definition awk_data_file_operand (args : list str) : option str :=
  match args with
  | [] => None
  | _ =>
      let args_no_connector := trim_at_connector args in
      let has_script_file := existsb (λ a, a ∈? ["-f"; "--file"]%string) args_no_connector in
      let operands := non_flags args_no_connector ["-F"; "-v"; "-f"; "--field-separator"; "--assign"; "--file"]%string in
      if has_script_file then head operands else operands !! 1
  end.
Fixpoint python_script (args : list str) : option str :=
  match args with
  | [] => None
  | arg :: rest => if arg =? "-c" then head rest else python_script rest
  end.
Definition python_walks_files (args : list str) : bool :=
  match python_script (trim_at_connector args) with
  | Some script =>
      existsb (λ s, contains (lit s) script)
        ["os.walk"; "os.listdir"; "os.scandir"; "glob.glob"; "glob.iglob"; "pathlib.Path"; ".rglob("]%string
  | None => false
  end.
Definition is_python_command (cmd : str) : bool :=
  (cmd ∈? ["python"; "python2"; "python3"]%string) || starts_with (lit "python2.") cmd || starts_with (lit "python3.") cmd.
Fixpoint cd_loop (args : list str) (target : option str) : option str :=
  match args with
  | [] => target
  | arg :: rest => if arg =? "--" then head rest else if is_flag arg then cd_loop rest target else cd_loop rest (Some arg)
  end.
(** [-L] and [-P] are flags like the others. *)
Definition cd_target (args : list str) : option str := cd_loop args None.
Definition is_pathish (s : str) : bool :=
  (s ∈? ["."; ".."]%string) || starts_with (lit "./") s || starts_with (lit "../") s || contains_char slash s || contains_char 92 s.
Definition parse_fd_query_and_path (tail_ : list str) : option str * option str :=
  match non_flags (trim_at_connector tail_) ["-t"; "--type"; "-e"; "--extension"; "-E"; "--exclude"; "--search-path"]%string with
  | [one] => if is_pathish one then (None, Some (short_display_path one)) else (Some one, None)
  | q :: p :: _ => (Some q, Some (short_display_path p))
  | [] => (None, None)
  end.
Fixpoint find_query (args : list str) : option str :=
  match args with
  | [] => None
  | a :: rest => if a ∈? ["-name"; "-iname"; "-path"; "-regex"]%string then head rest else find_query rest
  end.
Definition parse_find_query_and_path (tail_ : list str) : option str * option str :=
  let args_no_connector := trim_at_connector tail_ in
  (find_query args_no_connector,
   short_display_path <$> List.find (λ a, negb (is_flag a) && negb (a ∈? ["!"; "("; ")"]%string)) args_no_connector).

(** ** Formatting helpers *)

(** The subcommand of [xargs], and whether it changes files. *)
Fixpoint xargs_loop (tokens : list str) : option (list str) :=
  match tokens with
  | [] => None
  | token :: rest =>
      if token =? "--" then match rest with [] => None | _ => Some rest end
      else if negb (is_flag token) then Some tokens
      else if token ∈? ["-E"; "-e"; "-I"; "-L"; "-n"; "-P"; "-s"]%string then match rest with [] => None | _ :: rest => xargs_loop rest end
      else xargs_loop rest
  end.
Definition xargs_subcommand (tokens : list str) : option (list str) :=
  match tokens with first :: rest => if first =? "xargs" then xargs_loop rest else None | [] => None end.
Definition xargs_has_in_place_flag (tokens : list str) : bool := existsb (λ t, starts_with (lit "-i") t || starts_with (lit "-pi") t) tokens.
Definition xargs_is_mutating_subcommand (tokens : list str) : bool :=
  match tokens with
  | [] => false
  | head :: tail_ =>
      if head ∈? ["perl"; "ruby"]%string then xargs_has_in_place_flag tail_
      else if head =? "sed" then xargs_has_in_place_flag tail_ || existsb (λ t, t =? "--in-place") tail_
      else if head =? "rg" then existsb (λ t, t =? "--replace") tail_
      else false
  end.
Definition is_mutating_xargs_command (tokens : list str) : bool :=
  match xargs_subcommand tokens with Some sub => xargs_is_mutating_subcommand sub | None => false end.
(** A number of lines or bytes, also from the start with a plus. *)
Definition plain_count (count : str) : bool := all_ascii_digits count.
Definition signed_count (count : str) : bool := all_ascii_digits count || match strip_prefix (lit "+") count with Some n => all_ascii_digits n | None => false end.
Definition count_only (count_ok : str → bool) (args : list str) : bool :=
  match args with
  | [] => true
  | [arg] => is_flag arg
  | [flag; count] => (flag ∈? ["-n"; "-c"]%string) && count_ok count
  | _ => false
  end.
Definition is_small_formatting_command (tokens : list str) : bool :=
  match tokens with
  | [] => false
  | cmd :: args =>
      if cmd ∈? ["wc"; "tr"; "cut"; "sort"; "uniq"; "tee"; "column"; "yes"; "printf"]%string then true
      else if cmd =? "xargs" then negb (is_mutating_xargs_command tokens)
      else if cmd =? "awk" then negb (is_some (awk_data_file_operand args))
      else if cmd =? "head" then count_only plain_count args
      else if cmd =? "tail" then count_only signed_count args
      else if cmd =? "sed" then negb (is_some (sed_read_path args))
      else false
  end.
Definition drop_small_formatting_commands (commands : list (list str)) : list (list str) :=
  List.filter (λ tokens, negb (is_small_formatting_command tokens)) commands.

(** ** Paths *)

Definition is_ascii_alphabetic (c : N) : bool := is_ascii_uppercase c || is_ascii_lowercase c.
Definition is_abs_like (path : str) : bool :=
  is_absolute path ||
  match path with
  | d :: c :: b :: _ => (is_ascii_alphabetic d && (c =? 58)%N && (b =? 92)%N) || ((d =? 92)%N && (c =? 92)%N)
  | [d; c] => (d =? 92)%N && (c =? 92)%N
  | _ => false
  end.
Definition join_paths (base rel : str) : str :=
  if is_abs_like rel then rel else match base with [] => rel | _ => path_join base rel end.

(** * Summaries *)

Section summaries.
(** [shlex::try_join], [shlex::split] and the Tree-sitter parser. *)
Context (shlex_try_join : list str → option str) (shlex_split : str → option (list str)) (try_parse_shell : str → option Tree).
Definition shlex_join (tokens : list str) : str := default (lit "<command included NUL byte>") (shlex_try_join tokens).
Definition extract_shell_command (command : list str) : option (str * str) :=
  match extract_bash_command command with Some r => Some r | None => extract_powershell_command command end.
Definition single_unknown_for_command (command : list str) : ParsedCommand :=
  match extract_shell_command command with Some (_, script) => Unknown script | None => Unknown (shlex_join command) end.
Definition read_summary (main_cmd : list str) (path : option str) : ParsedCommand :=
  match path with Some path => Read (shlex_join main_cmd) (short_display_path path) path | None => Unknown (shlex_join main_cmd) end.
Definition list_summary (main_cmd : list str) (path : option str) : ParsedCommand := ListFiles (shlex_join main_cmd) (short_display_path <$> path).
Definition searches_or_lists (main_cmd : list str) (found : option str * option str) : ParsedCommand :=
  match found.1 with Some _ => Search (shlex_join main_cmd) found.1 found.2 | None => ListFiles (shlex_join main_cmd) found.2 end.
Definition parse_grep_like (main_cmd args : list str) : ParsedCommand :=
  let '(pattern, operands) := grep_loop (trim_at_connector args) None in
  let path_index := match pattern with Some _ => 0 | None => 1 end in
  Search (shlex_join main_cmd) (match pattern with Some p => Some p | None => head operands end) (short_display_path <$> operands !! path_index).
(** The file of [head] and [tail]: after a count that is accepted, or alone. *)
Definition counted_file (attached separate : str → bool) (args : list str) : option str :=
  let has_valid_n :=
    match args with
    | first :: rest =>
        if first =? "-n" then match rest with n :: _ => separate n | [] => false end
        else match strip_prefix (lit "-n") first with Some v => attached v | None => false end
    | [] => false
    end in
  let candidates := match args with first :: n :: rest => if (first =? "-n") && separate n then rest else args | _ => args end in
  let named := if has_valid_n then List.find (λ p, negb (is_flag p)) candidates else None in
  match named with
  | Some p => Some p
  | None => match args with [path] => if is_flag path then None else Some path | _ => None end
  end.
Definition tail_count (n : str) : bool := let s := default n (strip_prefix (lit "+") n) in negb (bool_decide (s = [])) && all_ascii_digits s.
(** By the program: listings, searches, files that are read. *)
Definition summarize_listing (main_cmd : list str) (head_ : str) (tail_ : list str) : option ParsedCommand :=
  if head_ =? "ls" then
    Some (list_summary main_cmd (first_non_flag_operand tail_ ["-I"; "-w"; "--block-size"; "--format"; "--time-style"; "--color"; "--quoting-style"]%string))
  else if head_ ∈? ["eza"; "exa"]%string then
    Some (list_summary main_cmd (first_non_flag_operand tail_ ["-I"; "--ignore-glob"; "--color"; "--sort"; "--time-style"; "--time"]%string))
  else if head_ =? "tree" then
    Some (list_summary main_cmd (first_non_flag_operand tail_ ["-L"; "-P"; "-I"; "--charset"; "--filelimit"; "--sort"]%string))
  else if head_ =? "du" then
    Some (list_summary main_cmd (first_non_flag_operand tail_ ["-d"; "--max-depth"; "-B"; "--block-size"; "--exclude"; "--time-style"]%string))
  else if head_ ∈? ["rg"; "rga"; "ripgrep-all"]%string then
    let args_no_connector := trim_at_connector tail_ in
    let operands := non_flags args_no_connector ["-g"; "--glob"; "--iglob"; "-t"; "--type"; "--type-add"; "--type-not"; "-m"; "--max-count";
      "-A"; "-B"; "-C"; "--context"; "--max-depth"]%string in
    Some (if existsb (λ a, a =? "--files") args_no_connector then list_summary main_cmd (head operands)
          else Search (shlex_join main_cmd) (head operands) (short_display_path <$> operands !! 1))
  else None.
Definition summarize_searching (main_cmd : list str) (head_ : str) (tail_ : list str) : option ParsedCommand :=
  if head_ =? "git" then
    Some match tail_ with
         | subcmd :: sub_tail =>
             if subcmd =? "grep" then parse_grep_like main_cmd sub_tail
             else if subcmd =? "ls-files" then
               list_summary main_cmd (first_non_flag_operand sub_tail ["--exclude"; "--exclude-from"; "--pathspec-from-file"]%string)
             else Unknown (shlex_join main_cmd)
         | [] => Unknown (shlex_join main_cmd)
         end
  else if head_ =? "fd" then Some (searches_or_lists main_cmd (parse_fd_query_and_path tail_))
  else if head_ =? "find" then Some (searches_or_lists main_cmd (parse_find_query_and_path tail_))
  else if head_ ∈? ["grep"; "egrep"; "fgrep"]%string then Some (parse_grep_like main_cmd tail_)
  else if head_ ∈? ["ag"; "ack"; "pt"]%string then
    let operands := non_flags (trim_at_connector tail_) ["-G"; "-g"; "--file-search-regex"; "--ignore-dir"; "--ignore-file"; "--path-to-ignore"]%string in
    Some (Search (shlex_join main_cmd) (head operands) (short_display_path <$> operands !! 1))
  else None.
Definition summarize_reading (main_cmd : list str) (head_ : str) (tail_ : list str) : option ParsedCommand :=
  if head_ ∈? ["cat"; "more"]%string then Some (read_summary main_cmd (single_non_flag_operand tail_ []))
  else if head_ ∈? ["bat"; "batcat"]%string then
    Some (read_summary main_cmd (single_non_flag_operand tail_ ["--theme"; "--language"; "--style"; "--terminal-width"; "--tabs"; "--line-range"; "--map-syntax"]%string))
  else if head_ =? "less" then
    Some (read_summary main_cmd (single_non_flag_operand tail_ ["-p"; "-P"; "-x"; "-y"; "-z"; "-j"; "--pattern"; "--prompt"; "--tabs"; "--shift"; "--jump-target"]%string))
  else if head_ =? "head" then Some (read_summary main_cmd (counted_file all_ascii_digits all_ascii_digits tail_))
  else if head_ =? "tail" then Some (read_summary main_cmd (counted_file tail_count tail_count tail_))
  else None.
Definition summarize_main_tokens (main_cmd : list str) : ParsedCommand :=
  let unknown := Unknown (shlex_join main_cmd) in
  match main_cmd with
  | [] => unknown
  | head_ :: tail_ =>
      match summarize_listing main_cmd head_ tail_ with
      | Some c => c
      | None =>
          match summarize_searching main_cmd head_ tail_ with
          | Some c => c
          | None =>
              match summarize_reading main_cmd head_ tail_ with
              | Some c => c
              | None =>
                  if head_ =? "awk" then read_summary main_cmd (awk_data_file_operand tail_)
                  else if head_ =? "nl" then
                    read_summary main_cmd (List.find (λ p, negb (is_flag p)) (skip_flag_values tail_ ["-s"; "-w"; "-v"; "-i"; "-b"]%string))
                  else if head_ =? "sed" then read_summary main_cmd (sed_read_path tail_)
                  else if is_python_command head_ then if python_walks_files tail_ then ListFiles (shlex_join main_cmd) None else unknown
                  else unknown
              end
          end
      end
  end.

(** The summaries of the commands in order; [cd] changes where files are read. *)
Definition resolved (cwd : option str) (c : ParsedCommand) : ParsedCommand :=
  match c, cwd with Read cmd name path, Some base => Read cmd name (join_paths base path) | c, _ => c end.
Fixpoint summaries (parts : list (list str)) (cwd : option str) : list ParsedCommand :=
  match parts with
  | [] => []
  | tokens :: parts =>
      match tokens with
      | head_ :: tail_ =>
          if head_ =? "cd" then
            summaries parts (match cd_target tail_ with
                             | Some dir => Some (match cwd with Some base => join_paths base dir | None => dir end)
                             | None => cwd
                             end)
          else resolved cwd (summarize_main_tokens tokens) :: summaries parts cwd
      | [] => resolved cwd (summarize_main_tokens tokens) :: summaries parts cwd
      end
  end.

(** ** Simplification *)

Definition first_word_is (w : string) (c : ParsedCommand) : bool :=
  match c with Unknown cmd => match shlex_split cmd with Some (t :: _) => t =? w | _ => false end | _ => false end.
Definition is_bare_nl (c : ParsedCommand) : bool :=
  match c with Unknown cmd => match shlex_split cmd with Some (t :: ts) => (t =? "nl") && forallb is_flag ts | _ => false end | _ => false end.
Definition is_true (c : ParsedCommand) : bool := match c with Unknown cmd => cmd =? "true" | _ => false end.
(** The list without its first command that satisfies [p]; [last_stays] when
    the last command is not removed. *)
Fixpoint remove_first (p : ParsedCommand → bool) (last_stays : bool) (l : list ParsedCommand) : option (list ParsedCommand) :=
  match l with
  | [] => None
  | c :: l => if p c then if last_stays && bool_decide (l = []) then None else Some l else (λ l, c :: l) <$> remove_first p last_stays l
  end.
Definition simplify_once (commands : list ParsedCommand) : option (list ParsedCommand) :=
  match commands with
  | [] | [_] => None
  | first :: rest =>
      if first_word_is "echo" first then Some rest
      else
        match remove_first (first_word_is "cd") true commands with
        | Some out => Some out
        | None =>
            match remove_first is_true false commands with
            | Some out => Some out
            | None => remove_first is_bare_nl false commands
            end
        end
  end.
Fixpoint simplify_loop (fuel : nat) (commands : list ParsedCommand) : outcome Empty_set (list ParsedCommand) :=
  match fuel with
  | O => OutOfFuel
  | S fuel => match simplify_once commands with Some next => simplify_loop fuel next | None => Ok commands end
  end.
Definition simplify (commands : list ParsedCommand) : outcome Empty_set (list ParsedCommand) := simplify_loop (S (length commands)) commands.

(** ** Commands *)

Definition normalize_tokens (cmd : list str) : list str :=
  match cmd with
  | [shell; flag; script] =>
      if (shell ∈? ["yes"; "y"; "no"; "n"]%string) && (flag =? "|") then [script]
      else if (shell ∈? ["bash"; "zsh"]%string) && (flag ∈? ["-c"; "-lc"]%string) then default [shell; flag; script] (shlex_split script)
      else cmd
  | first :: pipe :: rest => if (first ∈? ["yes"; "y"; "no"; "n"]%string) && (pipe =? "|") then rest else cmd
  | _ => cmd
  end.
Fixpoint has_sed_n (tokens : list str) : bool :=
  match tokens with a :: ((b :: _) as rest) => ((a =? "sed") && (b =? "-n")) || has_sed_n rest | _ => false end.
(** The command shown with the only summary of a script. *)
Definition attributed (script : str) (script_tokens : list str) (had_connectors : bool) (c : ParsedCommand) : ParsedCommand :=
  match c with
  | Read cmd name path =>
      if had_connectors then
        if existsb (λ t, t =? "|") script_tokens && has_sed_n script_tokens then Read script name path else Read cmd name path
      else Read (shlex_join script_tokens) name path
  | ListFiles cmd path => if had_connectors then c else ListFiles (shlex_join script_tokens) path
  | Search cmd query path => if had_connectors then c else Search (shlex_join script_tokens) query path
  | Unknown _ => c
  end.
Definition script_summaries (script : str) (all_commands : list (list str)) : outcome Empty_set (list ParsedCommand) :=
  let script_tokens := default [script] (shlex_split script) in
  match drop_small_formatting_commands all_commands with
  | [] => Ok [Unknown script]
  | filtered_commands =>
      let commands := summaries filtered_commands None in
      commands ← (if 1 <? length commands then simplify (List.filter (λ c, negb (is_true c)) commands) else Ok commands);
      match commands with
      | [c] => Ok [attributed script script_tokens ((1 <? length all_commands) || existsb is_connector script_tokens) c]
      | _ => Ok commands
      end
  end.
Definition parse_shell_lc_commands (original : list str) : outcome Empty_set (option (list ParsedCommand)) :=
  match extract_bash_command original with
  | None => Ok None
  | Some (_, script) =>
      parsed ← match try_parse_shell script with Some tree => try_parse_word_only_commands_sequence tree | None => Ok None end;
      match parsed with
      | Some ((_ :: _) as all_commands) => commands ← script_summaries script all_commands; Ok (Some commands)
      | _ => Ok (Some [Unknown script])
      end
  end.
Definition parse_command_impl (command : list str) : outcome Empty_set (list ParsedCommand) :=
  of_shell ← parse_shell_lc_commands command;
  match of_shell with
  | Some commands => Ok commands
  | None =>
      match extract_powershell_command command with
      | Some (_, script) => Ok [Unknown script]
      | None =>
          let normalized := normalize_tokens command in
          let parts := if contains_connectors normalized then split_on_connectors normalized else [normalized] in
          simplify (summaries parts None)
      end
  end.
Fixpoint dedup_from (prev : option ParsedCommand) (parsed : list ParsedCommand) : list ParsedCommand :=
  match parsed with
  | [] => []
  | cmd :: parsed =>
      if match prev with Some p => same_command p cmd | None => false end then dedup_from prev parsed else cmd :: dedup_from (Some cmd) parsed
  end.
Definition parse_command (command : list str) : outcome Empty_set (list ParsedCommand) :=
  parsed ← parse_command_impl command;
  let deduped := dedup_from None parsed in
  Ok (if existsb is_unknown deduped then [single_unknown_for_command command] else deduped).
End summaries.

(** * What is shown *)

(** ** What a command may be shown as *)

(** [perl], [ruby], [sed] and [rg] told to change files, right after [xargs]. *)
Definition edits_files (args : list str) : Prop :=
  ∃ prog rest, args = prog :: rest ∧
    (((prog ∈? ["perl"; "ruby"; "sed"]%string) = true ∧ ∃ a, a ∈ rest ∧ (starts_with (lit "-i") a = true ∨ starts_with (lit "-pi") a = true))
     ∨ (prog = lit "sed" ∧ lit "--in-place" ∈ rest) ∨ (prog = lit "rg" ∧ lit "--replace" ∈ rest)).
(** A word that is neither a flag nor a connector. *)
Definition operand (w : str) : Prop := is_flag w = false ∧ is_connector w = false.
(** The helpers of a pipeline: the programs that only format, and those that name no
    file of their own. *)
Inductive helper : list str → Prop :=
| helper_format w args : (w ∈? ["wc"; "tr"; "cut"; "sort"; "uniq"; "tee"; "column"; "yes"; "printf"]%string) = true → helper (w :: args)
| helper_xargs args : ¬ edits_files args → helper (lit "xargs" :: args)
| helper_awk args : (∀ prog file, args = [prog; file] → operand prog → operand file → False) → helper (lit "awk" :: args)
| helper_head args : args = [] ∨ (∃ flag, args = [flag] ∧ is_flag flag = true)
    ∨ (∃ flag n, args = [flag; n] ∧ (flag ∈? ["-n"; "-c"]%string) = true ∧ all_ascii_digits n = true) → helper (lit "head" :: args)
| helper_tail args : args = [] ∨ (∃ flag, args = [flag] ∧ is_flag flag = true)
    ∨ (∃ flag n, args = [flag; n] ∧ (flag ∈? ["-n"; "-c"]%string) = true ∧ ∃ m, all_ascii_digits m = true ∧ (n = m ∨ n = lit "+" ++ m)) →
    helper (lit "tail" :: args)
| helper_sed args : (∀ range file, args = [lit "-n"; range; file] → is_valid_sed_n_arg (Some range) = true → operand range → operand file → False) →
    helper (lit "sed" :: args).

(** What a command that is known is shown as: the operands it names, by program. *)
Definition names (args : list str) (o : option str) : Prop := ∀ a, o = Some a → a ∈ args.
Definition names_path (args : list str) (o : option str) : Prop := ∀ p, o = Some p → ∃ a, a ∈ args ∧ p = short_display_path a.
Inductive summarises : list str → ParsedCommand → Prop :=
| sum_read w args cmd path :
    (w ∈? ["cat"; "more"; "bat"; "batcat"; "less"; "head"; "tail"; "awk"; "nl"; "sed"]%string) = true → path ∈ args →
    (lit "--" ∈ args ∨ is_flag path = false) → summarises (w :: args) (Read cmd (short_display_path path) path)
| sum_list w args cmd path :
    (w ∈? ["ls"; "eza"; "exa"; "tree"; "du"; "fd"; "find"]%string) = true → names_path args path → summarises (w :: args) (ListFiles cmd path)
| sum_rg_files w args cmd path :
    (w ∈? ["rg"; "rga"; "ripgrep-all"]%string) = true → lit "--files" ∈ args → names_path args path → summarises (w :: args) (ListFiles cmd path)
| sum_git_files args cmd path : names_path args path → summarises (lit "git" :: lit "ls-files" :: args) (ListFiles cmd path)
| sum_python w args cmd : is_python_command w = true → lit "-c" ∈ args → summarises (w :: args) (ListFiles cmd None)
| sum_search w args cmd query path :
    (w ∈? ["rg"; "rga"; "ripgrep-all"; "fd"; "find"; "grep"; "egrep"; "fgrep"; "ag"; "ack"; "pt"]%string) = true →
    names args query → names_path args path → summarises (w :: args) (Search cmd query path)
| sum_git_grep args cmd query path : names args query → names_path args path →
    summarises (lit "git" :: lit "grep" :: args) (Search cmd query path).

(** ** The operands found *)

Lemma trim_sub args a : a ∈ trim_at_connector args → a ∈ args.
Proof.
  induction args as [|b args IH]; cbn; [done|]. destruct (is_connector b); [by intros ?%elem_of_nil|].
  rewrite !elem_of_cons. intros [->|?]; auto.
Qed.
(** Some loops take a word and its value at once. *)
Lemma words_ind (P : list str → Prop) : P [] → (∀ b l, P l → (∀ c l', l = c :: l' → P l') → P (b :: l)) → ∀ l, P l.
Proof.
  intros H0 Hs l. assert (P l ∧ ∀ c l', l = c :: l' → P l') as [? _]; [|done]. induction l as [|b l [IH IH2]]; [done|].
  split; [by apply Hs|]. by intros c l' [= _ <-].
Qed.
Lemma skip_sub args fl a : a ∈ skip_flag_values args fl → a ∈ args.
Proof.
  induction args as [|b args IH IH2] using words_ind; cbn; [done|]. destruct (bool_decide (b = _)); [by apply list_elem_of_further|].
  destruct (_ && _); [intros H; by apply list_elem_of_further, IH|]. destruct (bool_decide _).
  - destruct args as [|c args]; [by intros ?%elem_of_nil|]. intros H. do 2 apply list_elem_of_further. by eapply IH2.
  - rewrite !elem_of_cons. intros [->|H]; [by left|right; by apply IH].
Qed.
Lemma non_flags_sub args fl a : a ∈ non_flags args fl → a ∈ args ∧ is_flag a = false.
Proof.
  unfold non_flags. rewrite list_elem_of_In, List.filter_In, <- list_elem_of_In. intros [H%skip_sub ?%negb_true_iff]. done.
Qed.
Lemma positional_sub args fl a : a ∈ positional_operands args fl → a ∈ args ∧ (lit "--" ∈ args ∨ is_flag a = false).
Proof.
  induction args as [|b args IH IH2] using words_ind; cbn; [by intros ?%elem_of_nil|]. destruct (bool_decide_reflect (b = lit "--")) as [->|].
  { intros H. split; [by apply list_elem_of_further|left; apply list_elem_of_here]. }
  assert (Hmore : ∀ l, (a ∈ l ∧ (lit "--" ∈ l ∨ is_flag a = false)) → a ∈ b :: l ∧ (lit "--" ∈ b :: l ∨ is_flag a = false)).
  { intros l [? [?|?]]; split; auto using list_elem_of_further. }
  destruct (_ && _); [intros H; by apply Hmore, IH|]. destruct (bool_decide (b ∈ _)).
  - destruct args as [|c args]; [by intros ?%elem_of_nil|]. intros H%(IH2 c args eq_refl). apply Hmore. destruct H as [? [?|?]]; split; auto using list_elem_of_further.
  - destruct (is_flag b) eqn:Eb; [intros H; by apply Hmore, IH|]. rewrite !elem_of_cons. intros [->|H%IH]; [auto|]. destruct H as [? [?|?]]; auto.
Qed.
Lemma head_in {A} (l : list A) a : head l = Some a → a ∈ l.
Proof. destruct l; [done|]. intros [= ->]. apply list_elem_of_here. Qed.
Lemma head_names (l args : list str) : (∀ a, a ∈ l → a ∈ args) → names args (head l).
Proof. intros H a Ha%head_in. auto. Qed.
Lemma lookup_names_path (l : list str) (i : nat) (args : list str) : (∀ a, a ∈ l → a ∈ args) → names_path args (short_display_path <$> l !! i).
Proof. intros H p (a & Ha & ->)%fmap_Some. exists a. split; [by eapply H, list_elem_of_lookup_2|done]. Qed.
Lemma fmap_names_path o (args : list str) : names args o → names_path args (short_display_path <$> o).
Proof. intros H p (a & Ha & ->)%fmap_Some. exists a. auto. Qed.
Lemma find_in (f : str → bool) l a : List.find f l = Some a → a ∈ l ∧ f a = true.
Proof. intros [Hin ?]%find_some. by rewrite list_elem_of_In. Qed.
Lemma grep_sub args pattern p ops : grep_loop args pattern = (p, ops) → (∀ a, a ∈ ops → a ∈ args) ∧ (∀ a, p = Some a → pattern = Some a ∨ a ∈ args).
Proof.
  revert pattern p ops. induction args as [|b args IH IH2] using words_ind; intros pattern p ops; cbn.
  { intros [= <- <-]. split; [done|auto]. }
  destruct (bool_decide (b = _)). { intros [= <- <-]. split; [by intros; apply list_elem_of_further|auto]. }
  destruct (bool_decide _).
  { destruct args as [|pat args]; [intros [= <- <-]; split; [by intros ? ?%elem_of_nil|auto]|]. intros H%(IH2 _ _ eq_refl). destruct H as [Ho Hp].
    split; [intros a Ha; do 2 apply list_elem_of_further; by apply Ho|]. intros a Ha. destruct (Hp a Ha) as [Hpat|?]; [|right; do 2 apply list_elem_of_further; done].
    destruct pattern; [by left|]. injection Hpat as ->. right. apply list_elem_of_further, list_elem_of_here. }
  destruct (bool_decide _).
  { destruct args as [|v args]; [intros [= <- <-]; split; [by intros ? ?%elem_of_nil|auto]|]. intros H%(IH2 _ _ eq_refl). destruct H as [Ho Hp].
    split; [intros a Ha; do 2 apply list_elem_of_further; by apply Ho|]. intros a Ha. destruct (Hp a Ha); [by left|right; do 2 apply list_elem_of_further; done]. }
  destruct (is_flag b).
  { intros H%IH. destruct H as [Ho Hp]. split; [intros a Ha; by apply list_elem_of_further, Ho|]. intros a Ha. destruct (Hp a Ha); [by left|right; by apply list_elem_of_further]. }
  destruct (grep_loop args pattern) as [p' ops'] eqn:E. intros [= <- <-]. apply IH in E as [Ho Hp].
  split; [intros a [->|Ha]%elem_of_cons; [apply list_elem_of_here|by apply list_elem_of_further, Ho]|].
  intros a Ha. destruct (Hp a Ha); [by left|right; by apply list_elem_of_further].
Qed.
Lemma awk_sub args a : awk_data_file_operand args = Some a → a ∈ args ∧ is_flag a = false.
Proof.
  unfold awk_data_file_operand. destruct args as [|b args]; [done|]. set (l := b :: args). intros H.
  assert (Hin : a ∈ non_flags (trim_at_connector l) ["-F"; "-v"; "-f"; "--field-separator"; "--assign"; "--file"]%string).
  { destruct (existsb _ _); [by apply head_in|by eapply list_elem_of_lookup_2]. }
  apply non_flags_sub in Hin as [Hin ?]. by split; [apply trim_sub|].
Qed.
Lemma sed_sub args a : sed_read_path args = Some a → a ∈ args ∧ is_flag a = false.
Proof.
  unfold sed_read_path. destruct (negb _); [done|]. destruct (negb _); [done|]. set (l := non_flags _ _). intros H.
  assert (Hin : a ∈ l).
  { destruct l as [|b l]; [done|]. destruct (is_valid_sed_n_arg _); [by apply list_elem_of_further, head_in|]. injection H as ->. apply list_elem_of_here. }
  apply non_flags_sub in Hin as [Hin ?]. by split; [apply trim_sub|].
Qed.
Lemma counted_sub f g args a : counted_file f g args = Some a → a ∈ args ∧ is_flag a = false.
Proof.
  unfold counted_file. set (valid := match args with [] => false | _ => _ end). set (cands := match args with [] => args | _ => _ end).
  assert (Hc : ∀ b, b ∈ cands → b ∈ args).
  { subst cands. intros b. destruct args as [|x [|n rest]]; [done..|]. destruct (_ && _); [|done]. intros. by do 2 apply list_elem_of_further. }
  clearbody valid cands. assert (Hone : (match args with [path] => if is_flag path then None else Some path | _ => None end) = Some a → a ∈ args ∧ is_flag a = false).
  { destruct args as [|x [|? ?]]; [done| |done]. destruct (is_flag x) eqn:E; [done|]. intros [= ->]. by split; [apply list_elem_of_here|]. }
  destruct valid; [|done]. destruct (List.find _ cands) as [p|] eqn:E; [|done]. intros [= ->]. apply find_in in E as [? ?%negb_true_iff]. auto.
Qed.
Lemma single_sub args fl a : single_non_flag_operand args fl = Some a → a ∈ args ∧ (lit "--" ∈ args ∨ is_flag a = false).
Proof.
  unfold single_non_flag_operand. destruct (positional_operands args fl) as [|x [|? ?]] eqn:E; [done| |done]. intros [= ->].
  apply (positional_sub args fl). rewrite E. apply list_elem_of_here.
Qed.
Lemma first_names args fl : names args (first_non_flag_operand args fl).
Proof. apply head_names. intros a [? _]%positional_sub. done. Qed.
Lemma trimmed_operands args fl a : a ∈ non_flags (trim_at_connector args) fl → a ∈ args.
Proof. intros [H%trim_sub _]%non_flags_sub. done. Qed.
Lemma fd_names args : names args (parse_fd_query_and_path args).1 ∧ names_path args (parse_fd_query_and_path args).2.
Proof.
  unfold parse_fd_query_and_path. pose proof (trimmed_operands args ["-t"; "--type"; "-e"; "--extension"; "-E"; "--exclude"; "--search-path"]%string) as H.
  destruct (non_flags _ _) as [|x [|y l]]; [by split; intros ?|..]; unfold names, names_path.
  - assert (x ∈ args) by (apply H, list_elem_of_here). destruct (is_pathish x); cbn; split; intros ? [= <-]; eauto.
  - assert (x ∈ args ∧ y ∈ args) as [? ?] by (split; apply H; rewrite !elem_of_cons; auto). cbn. split; intros ? [= <-]; eauto.
Qed.
Lemma find_names args : names args (parse_find_query_and_path args).1 ∧ names_path args (parse_find_query_and_path args).2.
Proof.
  unfold parse_find_query_and_path. cbn [fst snd]. split.
  - intros a H. apply trim_sub. revert H. generalize (trim_at_connector args) as l. induction l as [|b l IH]; cbn; [done|].
    destruct (bool_decide _); [intros ?%head_in|intros ?%IH]; by apply list_elem_of_further.
  - apply fmap_names_path. intros a [? _]%find_in. by apply trim_sub.
Qed.
Lemma walks_takes_script args : python_walks_files args = true → lit "-c" ∈ args.
Proof.
  unfold python_walks_files. destruct (python_script _) as [s|] eqn:E; [intros _|done]. apply trim_sub. revert E.
  generalize (trim_at_connector args) as l. induction l as [|b l IH]; cbn; [done|]. destruct (bool_decide_reflect (b = lit "-c")) as [->|]; [intros _; apply list_elem_of_here|].
  intros ?%IH. by apply list_elem_of_further.
Qed.

(** The words of a list, one by one. *)
Ltac word_cases H :=
  apply bool_decide_eq_true in H; cbn [map] in H; repeat (apply elem_of_cons in H as [->|H]); [..|by apply elem_of_nil in H].
Lemma word_in w xs ys : w ∈ map lit xs → forallb (λ x, lit x ∈? ys) xs = true → (w ∈? ys) = true.
Proof.
  intros Hw Hxs. rewrite forallb_forall in Hxs. apply list_elem_of_In, in_map_iff in Hw as (x & <- & Hx). by apply Hxs.
Qed.
Ltac in_words :=
  first [reflexivity | match goal with H : ?w ∈ map lit _ |- _ => apply (word_in _ _ _ H); reflexivity end].
Section sound.
Context (shlex_try_join : list str → option str).
(** A summary that is right, or none. *)
Definition right_or_none (tokens : list str) (c : ParsedCommand) : Prop := c = Unknown (shlex_join shlex_try_join tokens) ∨ summarises tokens c.
Lemma read_sound w args path : (w ∈? ["cat"; "more"; "bat"; "batcat"; "less"; "head"; "tail"; "awk"; "nl"; "sed"]%string) = true →
  (∀ a, path = Some a → a ∈ args ∧ (lit "--" ∈ args ∨ is_flag a = false)) →
  right_or_none (w :: args) (read_summary shlex_try_join (w :: args) path).
Proof. intros Hw H. destruct path as [a|]; [right|by left]. destruct (H a eq_refl). by apply sum_read. Qed.
Lemma grep_sound main args : ∃ query path, parse_grep_like shlex_try_join main args = Search (shlex_join shlex_try_join main) query path ∧
  names args query ∧ names_path args path.
Proof.
  unfold parse_grep_like. destruct (grep_loop _ _) as [p ops] eqn:E. apply grep_sub in E as [Ho Hp].
  assert (Ho' : ∀ a, a ∈ ops → a ∈ args) by (intros; by apply trim_sub, Ho). eexists _, _. split; [reflexivity|]. split; [|by apply lookup_names_path].
  destruct p as [q|]; [|by apply head_names]. intros a [= ->]. destruct (Hp a eq_refl) as [?|?]; [done|by apply trim_sub].
Qed.
Lemma listed_sound w args found : (w ∈? ["fd"; "find"]%string) = true → names args found.1 → names_path args found.2 →
  summarises (w :: args) (searches_or_lists shlex_try_join (w :: args) found).
Proof.
  intros Hw H1 H2. unfold searches_or_lists. destruct found.1 eqn:E; word_cases Hw; by constructor.
Qed.

Lemma listing_sound w args c : summarize_listing shlex_try_join (w :: args) w args = Some c → summarises (w :: args) c.
Proof.
  unfold summarize_listing. intros H. repeat case_bool_decide; simplify_eq;
    try (apply sum_list; [in_words|apply fmap_names_path, first_names]).
  set (fl := ["-g"; "--glob"; "--iglob"; "-t"; _; _; _; _; _; _; _; _; _; _]%string).
  destruct (existsb _ _) eqn:E.
  - apply existsb_elem in E as (a & Ha & ->%bool_decide_eq_true). apply sum_rg_files; [in_words|by apply trim_sub|].
    apply fmap_names_path, head_names, trimmed_operands.
  - apply sum_search; [in_words|apply head_names, trimmed_operands|apply lookup_names_path, trimmed_operands].
Qed.
Lemma searching_sound w args c : summarize_searching shlex_try_join (w :: args) w args = Some c → right_or_none (w :: args) c.
Proof.
  unfold summarize_searching. intros H. repeat case_bool_decide; simplify_eq.
  - destruct args as [|sub args]; [by left|]. repeat case_bool_decide; subst; [right..|by left].
    + destruct (grep_sound (lit "git" :: lit "grep" :: args) args) as (q & p & -> & ? & ?). by apply sum_git_grep.
    + apply sum_git_files, fmap_names_path, first_names.
  - right. destruct (fd_names args). by apply listed_sound.
  - right. destruct (find_names args). by apply listed_sound.
  - right. destruct (grep_sound (w :: args) args) as (q & p & -> & ? & ?). apply sum_search; [in_words|done..].
  - right. apply sum_search; [in_words|apply head_names, trimmed_operands|apply lookup_names_path, trimmed_operands].
Qed.
Lemma reading_sound w args c : summarize_reading shlex_try_join (w :: args) w args = Some c → right_or_none (w :: args) c.
Proof.
  unfold summarize_reading. intros H. repeat case_bool_decide; simplify_eq; (apply read_sound; [in_words|]).
  1-3: intros a Ha; by eapply single_sub.
  all: intros a [? ?]%counted_sub; auto.
Qed.
(** Whatever summary is found, the command may be shown as. *)
Lemma summarize_sound tokens : right_or_none tokens (summarize_main_tokens shlex_try_join tokens).
Proof.
  destruct tokens as [|w args]; [by left|]. cbn [summarize_main_tokens].
  destruct (summarize_listing _ _ _ _) as [c|] eqn:E1; [right; by apply listing_sound|].
  destruct (summarize_searching _ _ _ _) as [c|] eqn:E2; [by apply searching_sound|].
  destruct (summarize_reading _ _ _ _) as [c|] eqn:E3; [by apply reading_sound|]. clear E1 E2 E3.
  repeat case_bool_decide; subst; [apply read_sound; [reflexivity|]..|].
  - intros a [? ?]%awk_sub; auto.
  - intros a [?%skip_sub ?%negb_true_iff]%find_in; auto.
  - intros a [? ?]%sed_sub; auto.
  - destruct (is_python_command w) eqn:Ep; [|by left]. destruct (python_walks_files args) eqn:Ew; [|by left].
    right. apply sum_python; [done|by apply walks_takes_script].
Qed.
End sound.

(** ** Words that are operands *)

Lemma operand_dashes w : operand w → starts_with (lit "--") w = false.
Proof. unfold operand, is_flag. intros [H _]. destruct w as [|c w]; [done|]. revert H. unfold starts_with.
  change (lit "-") with [45%N]. change (lit "--") with [45%N; 45%N]. cbn [strip_prefix]. by destruct (45 =? c)%N. Qed.
Lemma operand_not w f : operand w → is_flag f = true → bool_decide (w = f) = false.
Proof. intros [H _] Hf. apply bool_decide_eq_false. intros ->. congruence. Qed.
Lemma operand_not_in w fl : operand w → forallb (λ f, is_flag (lit f)) fl = true → (w ∈? fl) = false.
Proof.
  intros [H _] Hf. apply bool_decide_eq_false. intros Hin. apply list_elem_of_In, in_map_iff in Hin as (f & <- & Hin).
  rewrite forallb_forall in Hf. specialize (Hf f Hin). congruence.
Qed.
Ltac operands := repeat (apply Forall_cons_2; [assumption|]); apply Forall_nil_2.
Lemma trim_operands ops : Forall operand ops → trim_at_connector ops = ops.
Proof. induction 1 as [|w ops [_ Hw] _ IH]; cbn; [done|]. by rewrite Hw, IH. Qed.
Lemma skip_operands ops fl : Forall operand ops → forallb (λ f, is_flag (lit f)) fl = true → skip_flag_values ops fl = ops.
Proof.
  intros H Hfl. induction H as [|w ops Hw _ IH]; cbn [skip_flag_values]; [done|].
  by rewrite (operand_not w (lit "--")), (operand_dashes w), (operand_not_in w fl), IH.
Qed.
Lemma positional_of_operands ops fl : Forall operand ops → forallb (λ f, is_flag (lit f)) fl = true → positional_operands ops fl = ops.
Proof.
  intros H Hfl. induction H as [|w ops Hw _ IH]; cbn [positional_operands]; [done|].
  rewrite (operand_not w (lit "--")), (operand_dashes w), (operand_not_in w fl) by done. cbn [andb]. destruct Hw as [-> _]. by rewrite IH.
Qed.
Lemma non_flags_operands ops fl : Forall operand ops → forallb (λ f, is_flag (lit f)) fl = true → non_flags ops fl = ops.
Proof.
  intros H Hfl. unfold non_flags. rewrite skip_operands by done. clear Hfl. induction H as [|w ops [Hw _] _ IH]; [done|].
  cbn [List.filter]. rewrite Hw. cbn [negb]. by rewrite IH.
Qed.
Lemma sed_reads range file : is_valid_sed_n_arg (Some range) = true → operand range → operand file →
  sed_read_path [lit "-n"; range; file] = Some file.
Proof.
  intros Hr Ho Hf. unfold sed_read_path. assert (Et : trim_at_connector [lit "-n"; range; file] = [lit "-n"; range; file]).
  { change (trim_at_connector (lit "-n" :: [range; file])) with (lit "-n" :: trim_at_connector [range; file]). by rewrite trim_operands by operands. }
  rewrite Et. cbn [existsb]. rewrite (bool_decide_true (lit "-n" = lit "-n")) by done. cbn [orb negb].
  assert (Ef : is_flag range = false) by apply Ho. rewrite Ef, Hr.
  replace (range_scripts _ || _) with true by (cbn [negb andb orb]; by rewrite ?orb_true_r). cbn [negb].
  unfold non_flags. change (skip_flag_values (lit "-n" :: [range; file]) ?fl) with (lit "-n" :: skip_flag_values [range; file] fl).
  rewrite skip_operands; [|operands|done]. change (is_flag (lit "-n")) with true. cbn [List.filter].
  change (is_flag (lit "-n")) with true. cbn [negb]. rewrite Ef. destruct Hf as [Hf _]. rewrite Hf. cbn [negb]. by rewrite Hr.
Qed.

(** What counts as formatting is a helper. *)
Lemma xargs_direct prog rest : is_flag prog = false → xargs_subcommand (lit "xargs" :: prog :: rest) = Some (prog :: rest).
Proof.
  intros Hf. unfold xargs_subcommand. cbn -[lit]. destruct (bool_decide_reflect (prog = lit "--")) as [->|]; [done|]. by rewrite Hf.
Qed.
Lemma edits_mutates args : edits_files args → is_mutating_xargs_command (lit "xargs" :: args) = true.
Proof.
  intros (prog & rest & -> & H). unfold is_mutating_xargs_command.
  assert (Hin : ∀ a, a ∈ rest → starts_with (lit "-i") a = true ∨ starts_with (lit "-pi") a = true → xargs_has_in_place_flag rest = true).
  { intros a Ha Hs. apply existsb_elem. exists a. split; [done|]. by apply orb_true_iff. }
  assert (Hex : ∀ w, w ∈ rest → existsb (λ t, bool_decide (t = w)) rest = true).
  { intros w Hw. apply existsb_elem. exists w. split; [done|]. by apply bool_decide_eq_true. }
  destruct H as [(Hw & a & Ha & Hs)|[(-> & Ha)|(-> & Ha)]].
  - word_cases Hw; rewrite xargs_direct by reflexivity; cbn -[lit starts_with]; by rewrite (Hin a Ha Hs).
  - rewrite xargs_direct by reflexivity. cbn -[lit starts_with]. rewrite (Hex _ Ha). apply orb_true_r.
  - rewrite xargs_direct by reflexivity. cbn -[lit starts_with]. by rewrite (Hex _ Ha).
Qed.
Lemma formatting_is_helper tokens : is_small_formatting_command tokens = true → helper tokens.
Proof.
  destruct tokens as [|w args]; [done|]. unfold is_small_formatting_command. intros H. repeat case_bool_decide; subst.
  - apply helper_format. by apply bool_decide_eq_true.
  - apply helper_xargs. intros He%edits_mutates. by rewrite He in H.
  - apply helper_awk. intros prog file -> Hp Hf. revert H. unfold awk_data_file_operand.
    rewrite trim_operands by operands. cbn [existsb]. rewrite !operand_not_in by done. cbn [orb].
    by rewrite non_flags_operands; [|operands|].
  - apply helper_head. destruct args as [|a [|n [|? ?]]]; cbn in H; [by left|right; left; eauto| |done].
    apply andb_true_iff in H as [? ?]. right; right. eauto.
  - apply helper_tail. destruct args as [|a [|n [|? ?]]]; cbn in H; [by left|right; left; eauto| |done].
    apply andb_true_iff in H as [? H]. right; right. exists a, n. split_and!; [done..|]. apply orb_true_iff in H as [H|H]; [by exists n; auto|].
    destruct (strip_prefix (lit "+") n) as [m|] eqn:Em; [|done]. exists m. split; [done|]. right. by apply strip_prefix_Some.
  - apply helper_sed. intros range file -> Hr Ho Hf. by rewrite sed_reads in H.
  - done.
Qed.

(** ** The commands and what is shown of them *)

(** The words before and after the connectors. *)
Fixpoint pieces (words : list str) : list (list str) :=
  match words with
  | [] => [[]]
  | w :: words =>
      if is_connector w then [] :: pieces words
      else match pieces words with p :: ps => (w :: p) :: ps | [] => [[w]] end
  end.
(** Where [cd] goes: to its last operand, or the word after [--]. *)
Definition cd_to (args : list str) (d : option str) : Prop :=
  (lit "--" ∉ args ∧ d = last (List.filter (λ a, negb (is_flag a)) args))
  ∨ ∃ before after, args = before ++ lit "--" :: after ∧ lit "--" ∉ before ∧ d = head after.
(** A path from the folder one is in. *)
Definition from_dir (cwd : option str) (path : str) : str :=
  match cwd with Some ((_ :: _) as base) => if is_abs_like path then path else path_join base path | _ => path end.
Definition placed (cwd : option str) (c : ParsedCommand) : ParsedCommand :=
  match c with Read cmd name path => Read cmd name (from_dir cwd path) | c => c end.
Lemma resolved_placed cwd c : resolved cwd c = placed cwd c.
Proof.
  unfold resolved, placed, from_dir, join_paths. destruct c as [cmd n p| | |], cwd as [[|b base]|]; try done; by destruct (is_abs_like p).
Qed.
Lemma cd_to_target args : cd_to args (cd_target args).
Proof.
  unfold cd_target. assert (H : ∀ t, (lit "--" ∉ args ∧ cd_loop args t = match last (List.filter (λ a, negb (is_flag a)) args) with Some d => Some d | None => t end)
    ∨ ∃ before after, args = before ++ lit "--" :: after ∧ lit "--" ∉ before ∧ cd_loop args t = head after).
  { induction args as [|a args IH]; intros t; [left; split; [by intros ?%elem_of_nil|done]|]. cbn [cd_loop].
    destruct (bool_decide_reflect (a = lit "--")) as [->|Hne]; [right; exists [], args; split_and!; [done|by intros ?%elem_of_nil|done]|].
    assert (Hstep : ∀ t', (lit "--" ∉ args ∧ cd_loop args t' = match last (List.filter (λ a, negb (is_flag a)) args) with Some d => Some d | None => t' end
        ∨ ∃ before after, args = before ++ lit "--" :: after ∧ lit "--" ∉ before ∧ cd_loop args t' = head after) →
      (lit "--" ∉ a :: args ∧ cd_loop args t' = match last (List.filter (λ a, negb (is_flag a)) args) with Some d => Some d | None => t' end)
      ∨ ∃ before after, a :: args = before ++ lit "--" :: after ∧ lit "--" ∉ before ∧ cd_loop args t' = head after).
    { intros t' [[Hn E]|(b & af & -> & Hb & E)]; [left; split; [by rewrite not_elem_of_cons|done]|right].
      exists (a :: b), af. split_and!; [done|by rewrite not_elem_of_cons|done]. }
    cbn [List.filter]. destruct (is_flag a); cbn [negb]; [exact (Hstep t (IH t))|].
    destruct (Hstep (Some a) (IH (Some a))) as [[Hn E]|H]; [left; split; [done|]|by right]. rewrite E.
    rewrite last_cons. by destruct (last _). }
  destruct (H None) as [[Hn E]|H']; [left; split; [done|]|by right]. rewrite E. by destruct (last _).
Qed.

Section showing.
Context (shlex_try_join : list str → option str) (shlex_split : str → option (list str)).
#[local] Abbreviation shlex_join := (shlex_join shlex_try_join).
(** What is shown of commands run in the folder [cwd], in order; [script] for those
    of a script, where helpers may be left out, [first] when nothing was shown before.
    [cd] only changes the folder; [true], [nl] without a file and an [echo] before
    all that is shown may be left out too; nothing else may. *)
Inductive shows (script : bool) : bool → option str → list (list str) → list ParsedCommand → Prop :=
| shows_nil first cwd : shows script first cwd [] []
| shows_cd first cwd args d cmds l :
    cd_to args d → shows script first (match d with Some d => Some (from_dir cwd d) | None => cwd end) cmds l →
    shows script first cwd ((lit "cd" :: args) :: cmds) l
| shows_helper first cwd tokens cmds l : script = true → helper tokens → shows script first cwd cmds l → shows script first cwd (tokens :: cmds) l
| shows_true first cwd cmds l : shows script first cwd cmds l → shows script first cwd ([lit "true"] :: cmds) l
| shows_nl first cwd flags cmds l : forallb is_flag flags = true → shows script first cwd cmds l → shows script first cwd ((lit "nl" :: flags) :: cmds) l
| shows_echo cwd args cmds l : shows script true cwd cmds l → shows script true cwd ((lit "echo" :: args) :: cmds) l
| shows_summary first cwd tokens c cmds l : head tokens ≠ Some (lit "cd") → summarises tokens c → shows script false cwd cmds l →
    shows script first cwd (tokens :: cmds) (placed cwd c :: l)
| shows_unknown first cwd tokens cmds l : head tokens ≠ Some (lit "cd") → shows script false cwd cmds l →
    shows script first cwd (tokens :: cmds) (Unknown (shlex_join tokens) :: l).
Lemma shows_first script first cwd cmds l : shows script false cwd cmds l → shows script first cwd cmds l.
Proof.
  destruct first; [|done]. intros H. remember false as f. induction H; subst; try done; try (by constructor; auto).
  by eapply shows_cd; [|apply IHshows].
Qed.
Lemma summaries_shows script parts cwd :
  shows script true cwd parts (summaries shlex_try_join (if script then drop_small_formatting_commands parts else parts) cwd).
Proof.
  assert (H : ∀ first, shows script first cwd parts (summaries shlex_try_join (if script then drop_small_formatting_commands parts else parts) cwd)); [|done].
  revert cwd. induction parts as [|tokens parts IH]; intros cwd first; [destruct script; constructor|].
  assert (Hkeep : shows script first cwd (tokens :: parts)
    (summaries shlex_try_join (tokens :: (if script then drop_small_formatting_commands parts else parts)) cwd)).
  { set (rest := if script then _ else _) in *.
    assert (Hs : head tokens ≠ Some (lit "cd") → shows script first cwd (tokens :: parts) (resolved cwd (summarize_main_tokens shlex_try_join tokens) :: summaries shlex_try_join rest cwd)).
    { intros Hcd. rewrite resolved_placed. destruct (summarize_sound shlex_try_join tokens) as [->|Hc]; [apply shows_unknown|apply shows_summary]; auto. }
    destruct tokens as [|w args]; cbn [summaries]; [by apply Hs|]. destruct (bool_decide_reflect (w = lit "cd")) as [->|Hne]; [|by apply Hs; intros [= ?]].
    eapply shows_cd; [apply cd_to_target|]. destruct (cd_target args) as [d|]; [|apply IH].
    replace (match cwd with Some base => join_paths base d | None => d end) with (from_dir cwd d); [apply IH|].
    unfold from_dir, join_paths. destruct cwd as [[|b base]|]; try done; by destruct (is_abs_like d). }
  destruct script; [|done]. unfold drop_small_formatting_commands in *. cbn [List.filter].
  destruct (is_small_formatting_command tokens) eqn:Ef; cbn [negb]; [|done]. apply shows_helper; [done|by apply formatting_is_helper|apply IH].
Qed.

(** Summaries that say the same, whatever command is shown with them. *)
Definition same_summary (a b : ParsedCommand) : Prop :=
  match a, b with
  | Read _ n p, Read _ n' p' => n = n' ∧ p = p'
  | ListFiles _ p, ListFiles _ p' => p = p'
  | Search _ q p, Search _ q' p' => q = q' ∧ p = p'
  | Unknown u, Unknown u' => u = u'
  | _, _ => False
  end.
Lemma same_summary_refl c : same_summary c c.
Proof. by destruct c. Qed.
Lemma summarises_same tokens cwd c c' : summarises tokens c → same_summary (placed cwd c) c' → ∃ d, summarises tokens d ∧ c' = placed cwd d.
Proof.
  intros H. destruct H; destruct c'; cbn; try done; intros E; repeat destruct E as [<- E]; subst; eexists; (split; [by econstructor|done]).
Qed.
Lemma shows_same script first cwd cmds l l' : shows script first cwd cmds l → Forall2 same_summary l l' → shows script first cwd cmds l'.
Proof.
  intros H. revert l'. induction H; intros l' Hl; try (by constructor; auto).
  - apply Forall2_nil_inv_l in Hl as ->. constructor.
  - by eapply shows_cd; [|apply IHshows].
  - apply Forall2_cons_inv_l in Hl as (c' & l1 & Hc & Hl & ->). destruct (summarises_same _ _ _ _ H0 Hc) as (d & Hd & ->). apply shows_summary; auto.
  - apply Forall2_cons_inv_l in Hl as (c' & l1 & Hc & Hl & ->). destruct c'; try done. cbn in Hc. subst. apply shows_unknown; auto.
Qed.

(** Taking away commands that say nothing. *)
Lemma summary_known tokens c : summarises tokens c → is_unknown c = false.
Proof. by destruct 1. Qed.
Lemma placed_unknown cwd c : is_unknown (placed cwd c) = is_unknown c.
Proof. by destruct c. Qed.
Section laws.
(** Splitting undoes joining; one word of letters is itself, and the text that stands
    for what cannot be joined is four words. *)
Hypothesis split_join : ∀ tokens s, shlex_try_join tokens = Some s → shlex_split s = Some tokens.
Hypothesis split_word : ∀ s, s ≠ [] → forallb is_ascii_alphabetic s = true → shlex_split s = Some [s].
Hypothesis split_nul : shlex_split (lit "<command included NUL byte>") = Some (map lit ["<command"; "included"; "NUL"; "byte>"]%string).
Lemma joined_split tokens t ts : shlex_split (shlex_join tokens) = Some (t :: ts) → t ≠ lit "<command" → tokens = t :: ts.
Proof.
  unfold ParseCommand.shlex_join. destruct (shlex_try_join tokens) as [s|] eqn:E; unfold default, from_option, id.
  - rewrite (split_join _ _ E). by intros [= ->].
  - rewrite split_nul. intros [= <- _]. done.
Qed.
Lemma joined_first w tokens : first_word_is shlex_split w (Unknown (shlex_join tokens)) = true → lit w ≠ lit "<command" → ∃ args, tokens = lit w :: args.
Proof.
  cbn [first_word_is]. destruct (shlex_split (shlex_join tokens)) as [[|t ts]|] eqn:E; try done. intros ->%bool_decide_eq_true Hw. exists ts. by apply joined_split.
Qed.
Lemma joined_true tokens : is_true (Unknown (shlex_join tokens)) = true → tokens = [lit "true"].
Proof. cbn [is_true]. intros E%bool_decide_eq_true. apply joined_split; [|done]. rewrite E. by apply split_word. Qed.
Lemma joined_nl tokens : is_bare_nl shlex_split (Unknown (shlex_join tokens)) = true → ∃ flags, tokens = lit "nl" :: flags ∧ forallb is_flag flags = true.
Proof.
  cbn [is_bare_nl]. destruct (shlex_split (shlex_join tokens)) as [[|t ts]|] eqn:E; try done. intros [->%bool_decide_eq_true Hf]%andb_true_iff.
  exists ts. split; [|done]. by apply joined_split.
Qed.
(** Commands that may be left out wherever they are. *)
Definition silent (p : ParsedCommand → bool) : Prop :=
  ∀ c, p c = true → ∃ u, c = Unknown u ∧ ∀ tokens, u = shlex_join tokens → head tokens = Some (lit "cd") ∨ tokens = [lit "true"] ∨ ∃ flags, tokens = lit "nl" :: flags ∧ forallb is_flag flags = true.
Lemma silent_true : silent is_true.
Proof. intros [| | |u]; try done. intros H. exists u. split; [done|]. intros tokens ->. right; left. by apply joined_true. Qed.
Lemma silent_nl : silent (is_bare_nl shlex_split).
Proof. intros [| | |u]; try done. intros H. exists u. split; [done|]. intros tokens ->. right; right. by apply joined_nl. Qed.
Lemma silent_cd : silent (first_word_is shlex_split "cd").
Proof. intros [| | |u]; try done. intros H. exists u. split; [done|]. intros tokens ->. left. by destruct (joined_first "cd" tokens H) as [args ->]. Qed.
Lemma silent_out script p first cwd tokens u cmds l : silent p → p (Unknown u) = true → u = shlex_join tokens → head tokens ≠ Some (lit "cd") →
  shows script false cwd cmds l → shows script first cwd (tokens :: cmds) l.
Proof.
  intros Hp Hu Eu Hcd H. apply (shows_first _ first) in H. destruct (Hp _ Hu) as (u' & [= <-] & Ht). destruct (Ht _ Eu) as [?|[->|(flags & -> & Hf)]]; [done|..].
  - by apply shows_true.
  - by apply shows_nl.
Qed.
Lemma shows_remove script p s first cwd cmds l l' : silent p → shows script first cwd cmds l → remove_first p s l = Some l' → shows script first cwd cmds l'.
Proof.
  intros Hp H. revert l'. induction H; intros l' Hl; cbn [remove_first] in Hl; try (by constructor; auto); try done.
  - by eapply shows_cd; [|apply IHshows].
  - destruct (p (placed cwd c)) eqn:Ep.
    + destruct (Hp _ Ep) as (u & Eu & _). pose proof (summary_known _ _ H0) as Hk. rewrite <- (placed_unknown cwd), Eu in Hk. done.
    + apply fmap_Some in Hl as (l1 & Hl & ->). apply shows_summary; auto.
  - destruct (p (Unknown (shlex_join tokens))) eqn:Ep.
    + destruct (_ && _); [done|]. injection Hl as <-. by eapply silent_out.
    + apply fmap_Some in Hl as (l1 & Hl & ->). apply shows_unknown; auto.
Qed.
Lemma shows_without_true script first cwd cmds l : shows script first cwd cmds l → shows script first cwd cmds (List.filter (λ c, negb (is_true c)) l).
Proof.
  induction 1; cbn [List.filter]; try (by constructor; auto).
  - by eapply shows_cd; [|apply IHshows].
  - replace (is_true (placed cwd c)) with false by (by destruct H0). cbn [negb]. by apply shows_summary.
  - destruct (is_true (Unknown (shlex_join tokens))) eqn:Et; cbn [negb]; [by eapply (silent_out _ is_true); [apply silent_true|..]|by apply shows_unknown].
Qed.
Lemma shows_echo_out script first cwd cmds l0 : shows script first cwd cmds l0 → ∀ c l, first = true → l0 = c :: l →
  first_word_is shlex_split "echo" c = true → shows script first cwd cmds l.
Proof.
  induction 1; intros c0 l0 Ef El Hc.
  - done.
  - eapply shows_cd; [done|by eapply IHshows].
  - apply shows_helper; [done..|by eapply IHshows].
  - apply shows_true. by eapply IHshows.
  - apply shows_nl; [done|by eapply IHshows].
  - apply shows_echo. by eapply IHshows.
  - injection El as <- <-. by destruct H0.
  - injection El as <- <-. destruct (joined_first "echo" tokens Hc) as [args ->]; [done|]. subst first. by apply shows_echo, shows_first.
Qed.
Lemma shows_simplify_once script cwd cmds l l' : shows script true cwd cmds l → simplify_once shlex_split l = Some l' → shows script true cwd cmds l'.
Proof.
  intros H. unfold simplify_once. destruct l as [|c [|c' l]]; [done..|]. destruct (first_word_is _ "echo" c) eqn:E; [intros [= <-]; by eapply shows_echo_out|].
  destruct (remove_first (first_word_is shlex_split "cd") _ _) eqn:E1; [intros [= <-]; by eapply shows_remove; [apply silent_cd|..]|].
  destruct (remove_first is_true _ _) eqn:E2; [intros [= <-]; by eapply shows_remove; [apply silent_true|..]|].
  intros E3. by eapply shows_remove; [apply silent_nl|..].
Qed.
Lemma shows_simplify script cwd cmds l l' : shows script true cwd cmds l → simplify shlex_split l = Ok l' → shows script true cwd cmds l'.
Proof.
  unfold simplify. generalize (S (length l)) as fuel. intros fuel. revert l. induction fuel as [|fuel IH]; intros l H; cbn [simplify_loop]; [done|].
  destruct (simplify_once _ l) as [next|] eqn:E; [|by intros [= <-]]. intros Hl. by eapply IH; [eapply shows_simplify_once|].
Qed.
End laws.
End showing.

(** Repeated commands are shown once: the first of each group. *)
Definition neighbours_differ (l : list ParsedCommand) : Prop := ∀ i a b, l !! i = Some a → l !! S i = Some b → same_command a b = false.
Definition group_of (c : ParsedCommand) (g : list ParsedCommand) : Prop := ∃ more, g = c :: more ∧ Forall (λ d, same_command c d = true) more.
Definition collapsed (shown l : list ParsedCommand) : Prop :=
  ∃ groups, shown = concat groups ∧ Forall2 group_of l groups ∧ neighbours_differ l.
Lemma dedup_neighbours l prev : neighbours_differ (dedup_from prev l) ∧ ∀ p b, prev = Some p → dedup_from prev l !! 0 = Some b → same_command p b = false.
Proof.
  revert prev. induction l as [|c l IH]; intros prev; cbn [dedup_from]; [done|]. destruct (match prev with Some _ => _ | None => _ end) eqn:Es; [apply IH|].
  destruct (IH (Some c)) as [Hn Hh]. split.
  - intros [|i] a b; cbn; [|by apply Hn]. intros [= <-]. by apply Hh.
  - intros p b -> [= <-]. done.
Qed.
Lemma dedup_groups l prev : ∃ g groups, l = g ++ concat groups ∧ Forall2 group_of (dedup_from prev l) groups ∧
  match prev with Some p => Forall (λ d, same_command p d = true) g | None => g = [] end.
Proof.
  revert prev. induction l as [|c l IH]; intros prev; cbn [dedup_from].
  { exists [], []. split_and!; [done|constructor|by destruct prev; [constructor|]]. }
  destruct (match prev with Some _ => _ | None => _ end) eqn:Es.
  - destruct prev as [p|]; [|done]. destruct (IH (Some p)) as (g & gs & -> & Hg & Hp). exists (c :: g), gs. split_and!; [done..|by constructor].
  - destruct (IH (Some c)) as (g & gs & -> & Hg & Hc). exists [], ((c :: g) :: gs). split_and!; [done| |by destruct prev; [constructor|]].
    constructor; [by exists g|done].
Qed.
Lemma dedup_collapsed l : collapsed l (dedup_from None l).
Proof. destruct (dedup_groups l None) as (g & gs & E & Hg & ->). exists gs. split_and!; [done..|apply dedup_neighbours]. Qed.
Lemma dedup_unknown l prev : existsb is_unknown (dedup_from prev l) = false → match prev with Some p => is_unknown p = false | None => True end → existsb is_unknown l = false.
Proof.
  revert prev. induction l as [|c l IH]; intros prev; cbn; [done|]. destruct prev as [p|]; cbn.
  - destruct (same_command p c) eqn:Es.
    + intros Hd Hp. rewrite (IH (Some p) Hd Hp), orb_false_r. by destruct p, c.
    + cbn. intros [Hc Hd]%orb_false_iff _. by rewrite Hc, (IH (Some c) Hd Hc).
  - intros [Hc Hd]%orb_false_iff _. by rewrite Hc, (IH (Some c) Hd Hc).
Qed.
Lemma dedup_known prev l : existsb is_unknown l = false → existsb is_unknown (dedup_from prev l) = false.
Proof.
  revert prev. induction l as [|c l IH]; intros prev; cbn; [done|]. intros [Hc Hl]%orb_false_iff. destruct (match prev with Some _ => _ | None => _ end); [by apply IH|].
  cbn. by rewrite Hc, IH.
Qed.

(** Cutting words at connectors. *)
Definition not_empty (p : list str) : bool := negb (bool_decide (p = [])).
Lemma pieces_cons words : ∃ p ps, pieces words = p :: ps.
Proof. induction words as [|w words (p & ps & E)]; cbn; [by eexists _, _|]. rewrite E. destruct (is_connector w); by eexists _, _. Qed.
Lemma split_loop_pieces words cur : split_connectors_loop words cur =
  List.filter not_empty (match pieces words with p :: ps => (cur ++ p) :: ps | [] => [] end).
Proof.
  revert cur. induction words as [|w words IH]; intros cur; cbn [split_connectors_loop pieces].
  { rewrite app_nil_r. by destruct cur. }
  destruct (pieces_cons words) as (p & ps & E). rewrite E in *. destruct (is_connector w).
  - rewrite app_nil_r, IH. by destruct cur.
  - rewrite IH. by rewrite <- app_assoc.
Qed.
Lemma split_pieces words : split_on_connectors words = List.filter not_empty (pieces words).
Proof. unfold split_on_connectors. rewrite split_loop_pieces. by destruct (pieces_cons words) as (p & ps & ->). Qed.
Lemma pieces_whole words : contains_connectors words = false → pieces words = [words].
Proof. unfold contains_connectors. induction words as [|w words IH]; cbn; [done|]. intros [-> H]%orb_false_iff. by rewrite IH. Qed.

Section spec.
Context (shlex_try_join : list str → option str) (shlex_split : str → option (list str)) (try_parse_shell : str → option Tree).
#[local] Abbreviation shlex_join := (shlex_join shlex_try_join).
#[local] Abbreviation simplify_once := (simplify_once shlex_split).
#[local] Abbreviation simplify := (simplify shlex_split).
#[local] Abbreviation summaries := (summaries shlex_try_join).
#[local] Abbreviation parse_command := (parse_command shlex_try_join shlex_split try_parse_shell).
#[local] Abbreviation attributed := (attributed shlex_try_join).
#[local] Abbreviation shows := (shows shlex_try_join).

(** The commands of a command: those of the script of a shell, or what its words
    have between connectors, after an answer that is piped into it. *)
Inductive answered (command : list str) : list str → Prop :=
| answered_piped y words : command = y :: lit "|" :: words → (y ∈? ["yes"; "y"; "no"; "n"]%string) = true → answered command words
| answered_same : (∀ y words, command = y :: lit "|" :: words → (y ∈? ["yes"; "y"; "no"; "n"]%string) = false) → answered command command.
Inductive commands_of (command : list str) : bool → list (list str) → Prop :=
| commands_script shell script tree cmds : extract_bash_command command = Some (shell, script) → try_parse_shell script = Some tree →
    try_parse_word_only_commands_sequence tree = Ok (Some cmds) → commands_of command true cmds
| commands_words words : extract_bash_command command = None → extract_powershell_command command = None → answered command words →
    commands_of command false (List.filter not_empty (pieces words)).

(** A step of the simplification takes one unknown command away. *)
Definition drops_unknown (l l' : list ParsedCommand) : Prop := ∃ a u b, l = a ++ Unknown u :: b ∧ l' = a ++ b.
Lemma remove_first_drops p s l l' : (∀ c, p c = true → is_unknown c = true) → remove_first p s l = Some l' → drops_unknown l l'.
Proof.
  intros Hp. revert l'. induction l as [|c l IH]; intros l'; cbn [remove_first]; [done|]. destruct (p c) eqn:Ec.
  - destruct (_ && _); [done|]. intros [= <-]. specialize (Hp c Ec). destruct c as [| | |u]; try done. by exists [], u, l.
  - intros (l1 & (a & u & b & -> & ->)%IH & ->)%fmap_Some. by exists (c :: a), u, b.
Qed.
Lemma first_word_unknown w c : first_word_is shlex_split w c = true → is_unknown c = true.
Proof. by destruct c. Qed.
Lemma simplify_once_drops l l' : simplify_once l = Some l' → drops_unknown l l'.
Proof.
  unfold ParseCommand.simplify_once. destruct l as [|c [|c' l]]; [done..|]. destruct (first_word_is _ "echo" c) eqn:E.
  { intros [= <-]. apply first_word_unknown in E. destruct c as [| | |u]; try done. by exists [], u, (c' :: l). }
  destruct (remove_first (first_word_is shlex_split "cd") _ _) eqn:E1.
  { intros [= <-]. apply (remove_first_drops _ _ _ _ (first_word_unknown "cd") E1). }
  destruct (remove_first is_true _ _) eqn:E2.
  { intros [= <-]. apply (remove_first_drops is_true _ _ _ ltac:(by intros []) E2). }
  apply (remove_first_drops (is_bare_nl shlex_split)). by intros [].
Qed.
Lemma drops_length l l' : drops_unknown l l' → length l = S (length l').
Proof. intros (a & u & b & -> & ->). rewrite !length_app. cbn. lia. Qed.
Lemma simplify_total l : ∃ l', simplify l = Ok l'.
Proof.
  unfold ParseCommand.simplify. assert (H : ∀ fuel, length l < fuel → ∃ l', simplify_loop shlex_split fuel l = Ok l'); [|apply H; lia].
  intros fuel. revert l. induction fuel as [|fuel IH]; intros l Hl; [lia|]. cbn [simplify_loop].
  destruct (simplify_once l) as [next|] eqn:E; [|by exists l]. pose proof (drops_length _ _ (simplify_once_drops l next E)). apply IH. lia.
Qed.
Lemma simplify_known l : existsb is_unknown l = false → simplify l = Ok l.
Proof.
  intros H. unfold ParseCommand.simplify. cbn [simplify_loop]. destruct (simplify_once l) as [next|] eqn:E; [|done].
  apply simplify_once_drops in E as (a & u & b & -> & _). rewrite existsb_app in H. cbn in H. by rewrite orb_true_r in H.
Qed.
Lemma attributed_same script tokens b c : same_summary c (attributed script tokens b c).
Proof. unfold ParseCommand.attributed. destruct c as [cmd n p| | |], b; try done. by destruct (_ && _). Qed.
Lemma attributed_only script tokens b l :
  Forall2 same_summary l (match l with [c] => [attributed script tokens b c] | _ => l end).
Proof.
  assert (Hrefl : ∀ l, Forall2 same_summary l l) by (induction l0; constructor; [apply same_summary_refl|done]).
  destruct l as [|c [|c' l]]; [constructor| |apply Hrefl]. constructor; [apply attributed_same|constructor].
Qed.

(** ** Nothing else is hidden *)

Lemma answered_normalize command : extract_bash_command command = None → answered command (normalize_tokens shlex_split command).
Proof.
  intros Hb. assert (Hpipe : ∀ first pipe rest, (first ∈? ["yes"; "y"; "no"; "n"]%string) && bool_decide (pipe = lit "|") = false →
    ∀ y words, first :: pipe :: rest = y :: lit "|" :: words → (y ∈? ["yes"; "y"; "no"; "n"]%string) = false).
  { intros first pipe rest H y words [= <- -> ->]. by rewrite (bool_decide_true (lit "|" = lit "|")), andb_true_r in H. }
  unfold normalize_tokens. destruct command as [|first [|pipe [|script [|more rest]]]]; try (by apply answered_same; intros ? ? [=]).
  - destruct (_ && _) eqn:E; [|by apply answered_same, Hpipe]. apply andb_true_iff in E as [Ey ->%bool_decide_eq_true]. by eapply answered_piped.
  - destruct (_ && _) eqn:E; [apply andb_true_iff in E as [Ey ->%bool_decide_eq_true]; by eapply answered_piped|].
    destruct (_ && (pipe ∈? _)) eqn:Es; [|by apply answered_same, Hpipe]. apply andb_true_iff in Es as [Hs Hf].
    exfalso. word_cases Hs; word_cases Hf; by vm_compute in Hb.
  - destruct (_ && _) eqn:E; [|by apply answered_same, Hpipe]. apply andb_true_iff in E as [Ey ->%bool_decide_eq_true]. by eapply answered_piped.
Qed.

Section laws.
Hypothesis split_join : ∀ tokens s, shlex_try_join tokens = Some s → shlex_split s = Some tokens.
Hypothesis split_word : ∀ s, s ≠ [] → forallb is_ascii_alphabetic s = true → shlex_split s = Some [s].
Hypothesis split_nul : shlex_split (lit "<command included NUL byte>") = Some (map lit ["<command"; "included"; "NUL"; "byte>"]%string).
Lemma script_shows script cmds : ∃ l, script_summaries shlex_try_join shlex_split script cmds = Ok l ∧
  (existsb is_unknown l = true ∨ shows true true None cmds l).
Proof.
  pose proof (summaries_shows shlex_try_join true cmds None) as Hs. cbn iota in Hs. unfold script_summaries.
  destruct (drop_small_formatting_commands cmds) as [|c0 cs] eqn:Ed; [eexists; split; [reflexivity|by left]|]. set (base := summaries (c0 :: cs) None) in *. cbn zeta.
  assert (H : ∃ l, (if 1 <? length base then simplify (List.filter (λ c, negb (is_true c)) base) else Ok base) = Ok l ∧ shows true true None cmds l).
  { destruct (1 <? length base); [|by exists base]. destruct (simplify_total (List.filter (λ c, negb (is_true c)) base)) as [l El]. exists l. split; [done|].
    eapply shows_simplify; [exact split_join|exact split_word|exact split_nul| |exact El]. by apply (shows_without_true shlex_try_join shlex_split). }
  destruct H as (l & -> & Hl). cbn [mbind outcome_bind]. 
  pose proof (attributed_only script (default [script] (shlex_split script)) ((1 <? length cmds) || existsb is_connector (default [script] (shlex_split script))) l) as Ha.
  apply (shows_same _ _ _ _ _ _ _ Hl) in Ha. destruct l as [|c [|c' l]]; eexists; (split; [reflexivity|by right]).
Qed.
Lemma impl_shows command : ∃ l, parse_command_impl shlex_try_join shlex_split try_parse_shell command = Ok l ∧
  (existsb is_unknown l = true ∨ ∃ script cmds, commands_of command script cmds ∧ shows script true None cmds l).
Proof.
  unfold parse_command_impl, parse_shell_lc_commands. destruct (extract_bash_command command) as [[shell script]|] eqn:Eb.
  - destruct (try_parse_shell script) as [tree|] eqn:Et; [|eexists; split; [reflexivity|by left]]. cbn [mbind outcome_bind].
    destruct (word_only_commands_spec tree) as (r & Er & _). rewrite Er. cbn [mbind outcome_bind].
    destruct r as [[|c0 cs]|]; [eexists; split; [reflexivity|by left]| |eexists; split; [reflexivity|by left]].
    destruct (script_shows script (c0 :: cs)) as (l & -> & Hl). cbn [mbind outcome_bind]. exists l. split; [done|].
    destruct Hl as [?|Hl]; [by left|right]. exists true, (c0 :: cs). split; [by eapply commands_script|done].
  - cbn [mbind outcome_bind]. destruct (extract_powershell_command command) as [[shell script]|] eqn:Ep; [eexists; split; [reflexivity|by left]|].
    pose proof (answered_normalize command Eb) as Hp. set (words := normalize_tokens shlex_split command) in *. cbn zeta.
    destruct words as [|w ws] eqn:Ew; [by eexists; split; [reflexivity|left]|]. rewrite <- Ew in *.
    replace (if contains_connectors words then split_on_connectors words else [words]) with (List.filter not_empty (pieces words)).
    2: { rewrite <- split_pieces. destruct (contains_connectors words) eqn:Ec; [done|]. rewrite split_pieces, pieces_whole by done. cbn. by rewrite Ew. }
    destruct (simplify_total (summaries (List.filter not_empty (pieces words)) None)) as [l El]. rewrite El. exists l. split; [done|right].
    exists false, (List.filter not_empty (pieces words)). split; [by apply commands_words|].
    eapply shows_simplify; [exact split_join|exact split_word|exact split_nul| |exact El].
    exact (summaries_shows shlex_try_join false (List.filter not_empty (pieces words)) None).
Qed.
End laws.

(** ** What is plain is told *)

(** Commands that are plain, and what is to be told of them ([cmd] is left open). *)
Inductive plain : list str → list ParsedCommand → Prop :=
| plain_read w f : (w ∈? ["cat"; "more"; "bat"; "batcat"; "less"; "nl"; "head"; "tail"]%string) = true → operand f →
    plain [w; f] [Read [] (short_display_path f) f]
| plain_counted w n f : (w ∈? ["head"; "tail"]%string) = true → n ≠ [] → all_ascii_digits n = true → operand f → plain [w; lit "-n"; n; f] [Read [] (short_display_path f) f]
| plain_sed range f : is_valid_sed_n_arg (Some range) = true → operand range → operand f → plain [lit "sed"; lit "-n"; range; f] [Read [] (short_display_path f) f]
| plain_ls w : (w ∈? ["ls"; "eza"; "exa"; "tree"; "du"]%string) = true → plain [w] [ListFiles [] None]
| plain_ls_dir w d : (w ∈? ["ls"; "eza"; "exa"; "tree"; "du"]%string) = true → operand d → plain [w; d] [ListFiles [] (Some (short_display_path d))]
| plain_search w p : (w ∈? ["rg"; "rga"; "ripgrep-all"; "grep"; "egrep"; "fgrep"; "ag"; "ack"; "pt"]%string) = true → operand p → plain [w; p] [Search [] (Some p) None]
| plain_search_in w p d : (w ∈? ["rg"; "rga"; "ripgrep-all"; "grep"; "egrep"; "fgrep"; "ag"; "ack"; "pt"]%string) = true → operand p → operand d →
    plain [w; p; d] [Search [] (Some p) (Some (short_display_path d))]
| plain_helper w args : (w ∈? ["wc"; "tr"; "cut"; "sort"; "uniq"; "tee"; "column"; "yes"; "printf"]%string) = true → plain (w :: args) [].
(** What is told of them in order, from the folder each is run in. *)
Inductive tells : option str → list (list str) → list ParsedCommand → Prop :=
| tells_nil cwd : tells cwd [] []
| tells_cd cwd d cmds l : operand d → tells (Some (from_dir cwd d)) cmds l → tells cwd ([lit "cd"; d] :: cmds) l
| tells_plain cwd tokens cs cmds l : plain tokens cs → tells cwd cmds l → tells cwd (tokens :: cmds) ((placed cwd <$> cs) ++ l).
Ltac decide_words :=
  repeat match goal with
    | |- context [@bool_decide ?P ?d] =>
        let b := eval vm_compute in (@bool_decide P d) in
        lazymatch b with true => idtac | false => idtac end; change (@bool_decide P d) with b; cbn iota
    end.
Lemma plain_formatting tokens cs : plain tokens cs → is_small_formatting_command tokens = match cs with [] => true | _ => false end.
Proof.
  destruct 1 as [w f Hw Hf|w n f Hw Hn Hd Hf|range f Hr Ho Hf|w Hw|w d Hw Hd|w p Hw Hp|w p d Hw Hp Hd|w args Hw]; unfold is_small_formatting_command; try word_cases Hw; decide_words; try done.
  - cbn [count_only]. apply Hf.
  - cbn [count_only]. apply Hf.
  - by rewrite sed_reads.
Qed.
Lemma operand_prefix w p : operand w → is_flag p = true → strip_prefix p w = None.
Proof.
  intros [H _] Hp. apply strip_prefix_None. destruct (starts_with p w) eqn:E; [|done]. revert H Hp. unfold is_flag, starts_with in *.
  change (lit "-") with [45%N]. destruct p as [|c p]; [done|]. destruct w as [|d w]; [done|]. cbn [strip_prefix] in *.
  destruct (N.eqb_spec c d) as [->|]; [|done]. by destruct (45 =? d)%N.
Qed.
Lemma counted_alone f g w : operand w → counted_file f g [w] = Some w.
Proof.
  intros Hw. unfold counted_file. rewrite (operand_not w (lit "-n")), (operand_prefix w (lit "-n")) by done.
  destruct Hw as [Hw _]. by rewrite Hw.
Qed.
Lemma counted_after f g n w : g n = true → operand w → counted_file f g [lit "-n"; n; w] = Some w.
Proof. intros Hn [Hw _]. unfold counted_file. decide_words. rewrite Hn. cbn [andb List.find]. by rewrite Hw. Qed.
Lemma digits_tail_count n : n ≠ [] → all_ascii_digits n = true → tail_count n = true.
Proof.
  intros Hn Hd. unfold tail_count. destruct n as [|c n]; [done|]. assert (strip_prefix (lit "+") (c :: n) = None) as ->.
  { change (lit "+") with [43%N]. cbn [strip_prefix]. destruct (N.eqb_spec 43 c) as [<-|]; [|done]. done. }
  cbn [default from_option id]. by rewrite Hd.
Qed.
Lemma grep_operands ops : Forall operand ops → grep_loop ops None = (None, ops).
Proof.
  induction 1 as [|w ops Hw _ IH]; cbn [grep_loop]; [done|]. rewrite (operand_not w (lit "--")), !operand_not_in by done.
  destruct Hw as [-> _]. by rewrite IH.
Qed.
Lemma no_files ops : Forall operand ops → existsb (λ a, bool_decide (a = lit "--files")) ops = false.
Proof. induction 1 as [|w ops Hw _ IH]; cbn [existsb]; [done|]. by rewrite operand_not. Qed.
Lemma plain_summary tokens c : plain tokens [c] → same_summary c (summarize_main_tokens shlex_try_join tokens).
Proof.
  intros H. inversion H as [w f Hw Hf|w n f Hw Hn Hd Hf|range f Hr Ho Hf|w Hw|w d Hw Hd|w p Hw Hp|w p d Hw Hp Hd|w args Hw]; subst; unfold summarize_main_tokens; try word_cases Hw.
  all: unfold summarize_listing, summarize_searching, summarize_reading; decide_words.
  all: unfold read_summary, list_summary, single_non_flag_operand, first_non_flag_operand; cbn zeta.
  all: rewrite ?positional_of_operands by (done || operands); try done.
  all: rewrite ?skip_operands, ?sed_reads, ?counted_alone, ?counted_after by (done || operands || by apply digits_tail_count).
  all: unfold parse_grep_like; rewrite ?trim_operands, ?no_files, ?non_flags_operands, ?grep_operands by (done || operands); try done.
  all: cbn [List.find]; destruct Hf as [-> _]; done.
Qed.
Lemma plain_cases tokens cs : plain tokens cs → head tokens ≠ Some (lit "cd") ∧ (cs = [] ∨ ∃ c, cs = [c] ∧ is_unknown c = false).
Proof.
  destruct 1 as [w f Hw Hf|w n f Hw Hn Hd Hf|range f Hr Ho Hf|w Hw|w d Hw Hd|w p Hw Hp|w p d Hw Hp Hd|w args Hw]; (split; [try word_cases Hw; done|]); eauto.
Qed.
Lemma placed_same cwd c c' : same_summary c c' → same_summary (placed cwd c) (placed cwd c').
Proof. by destruct c, c'; cbn; try done; intros [-> ->]. Qed.
Lemma same_known told l : Forall2 same_summary told l → existsb is_unknown told = false → existsb is_unknown l = false.
Proof. induction 1 as [|c c' told l Hc _ IH]; cbn; [done|]. intros [Hu H]%orb_false_iff. rewrite IH by done. by destruct c, c'. Qed.
Lemma tells_summaries cwd cmds told : tells cwd cmds told →
  Forall2 same_summary told (summaries (drop_small_formatting_commands cmds) cwd) ∧ existsb is_unknown told = false.
Proof.
  induction 1 as [cwd|cwd d cmds l Hd _ [IH Hk]|cwd tokens cs cmds l Hp _ [IH Hk]]; [by split; [constructor|]|..].
  - split; [|done]. unfold drop_small_formatting_commands in *. cbn [List.filter].
    replace (is_small_formatting_command [lit "cd"; d]) with false by (unfold is_small_formatting_command; by decide_words). cbn [negb summaries].
    decide_words. unfold cd_target. cbn [cd_loop]. rewrite (operand_not d (lit "--")) by done. destruct Hd as [-> _].
    replace (match cwd with Some base => join_paths base d | None => d end) with (from_dir cwd d); [done|].
    unfold from_dir, join_paths. destruct cwd as [[|b base]|]; try done; by destruct (is_abs_like d).
  - destruct (plain_cases _ _ Hp) as [Hcd Hcs]. unfold drop_small_formatting_commands in *. cbn [List.filter].
    rewrite (plain_formatting _ _ Hp). destruct Hcs as [->|(c & -> & Hc)]; cbn [negb fmap list_fmap app]; [done|].
    split; [|cbn [existsb]; by rewrite placed_unknown, Hc, Hk]. destruct tokens as [|w args]; [by inversion Hp|]. cbn [summaries].
    rewrite bool_decide_false by (intros ->; done). rewrite resolved_placed. constructor; [|done]. by apply placed_same, plain_summary.
Qed.
Lemma same_trans l1 l2 l3 : Forall2 same_summary l1 l2 → Forall2 same_summary l2 l3 → Forall2 same_summary l1 l3.
Proof.
  intros H. revert l3. induction H as [|a b l1 l2 Hab _ IH]; intros l3 H3; [by apply Forall2_nil_inv_l in H3 as ->; constructor|].
  apply Forall2_cons_inv_l in H3 as (c & l & Hbc & Hl & ->). constructor; [|by apply IH]. destruct a, b, c; cbn in *; intuition congruence.
Qed.
Lemma script_tells script cmds told : tells None cmds told → told ≠ [] →
  ∃ l, script_summaries shlex_try_join shlex_split script cmds = Ok l ∧ Forall2 same_summary told l.
Proof.
  intros Ht Hne. destruct (tells_summaries _ _ _ Ht) as [Hs Hk]. pose proof (same_known _ _ Hs Hk) as Hk'. unfold script_summaries.
  destruct (drop_small_formatting_commands cmds) as [|c0 cs]; [by inversion Hs; subst|]. set (base := summaries (c0 :: cs) None) in *. cbn zeta.
  assert (E : (if 1 <? length base then simplify (List.filter (λ c, negb (is_true c)) base) else Ok base) = Ok base).
  { destruct (1 <? length base); [|done]. replace (List.filter _ base) with base; [by apply simplify_known|].
    clear -Hk'. induction base as [|c base IH]; [done|]. cbn in Hk'. apply orb_false_iff in Hk' as [Hc Hb]. cbn. rewrite <- (IH Hb). by destruct c. }
  rewrite E. cbn [mbind outcome_bind].
  pose proof (attributed_only script (default [script] (shlex_split script)) ((1 <? length cmds) || existsb is_connector (default [script] (shlex_split script))) base) as Ha.
  assert (Hall : Forall2 same_summary told (match base with [c] => [attributed script (default [script] (shlex_split script)) ((1 <? length cmds) || existsb is_connector (default [script] (shlex_split script))) c] | _ => base end)).
  { by eapply same_trans. }
  destruct base as [|c [|c' l]]; eexists; (split; [reflexivity|done]).
Qed.

(** C37. With [shlex] splitting what it joined, summarising always ends. Its answer is
    the command as it is; or it shows every command of the script (or of the words),
    in order, as a reading, listing or search, by a program known for it, of operands
    it was given, with what is read placed where the [cd]s before it lead. Besides
    [cd], only [true], [nl] without a file, an [echo] before all that is shown and,
    in scripts, the helpers listed may be left out; commands repeated one after
    another are shown once. And the plain readings, listings and searches of a script,
    with [cd]s and helpers between them, are always shown so, one by one. *)
Theorem parse_command_spec command :
  (∀ tokens s, shlex_try_join tokens = Some s → shlex_split s = Some tokens) →
  (∀ s, s ≠ [] → forallb is_ascii_alphabetic s = true → shlex_split s = Some [s]) →
  shlex_split (lit "<command included NUL byte>") = Some (map lit ["<command"; "included"; "NUL"; "byte>"]%string) →
  ∃ l, parse_command command = Ok l ∧
    (l = [single_unknown_for_command shlex_try_join command]
     ∨ ∃ script cmds shown, commands_of command script cmds ∧ shows script true None cmds shown ∧
         existsb is_unknown shown = false ∧ collapsed shown l) ∧
    (∀ shell script tree cmds told, extract_bash_command command = Some (shell, script) → try_parse_shell script = Some tree →
       try_parse_word_only_commands_sequence tree = Ok (Some cmds) → tells None cmds told → told ≠ [] →
       ∃ shown, Forall2 same_summary told shown ∧ collapsed shown l).
Proof.
  intros H1 H2 H3. unfold ParseCommand.parse_command. destruct (impl_shows H1 H2 H3 command) as (parsed & E & H). rewrite E. cbn [mbind outcome_bind].
  eexists. split; [reflexivity|]. split.
  - destruct (existsb is_unknown (dedup_from None parsed)) eqn:Eu; [by left|right]. apply dedup_unknown in Eu; [|done].
    destruct H as [H|(script & cmds & Hc & Hs)]; [congruence|]. exists script, cmds, parsed. split_and!; [done..|apply dedup_collapsed].
  - intros shell script tree cmds told Eb Et Ew Ht Hne. unfold parse_command_impl, parse_shell_lc_commands in E. rewrite Eb, Et in E. cbn [mbind outcome_bind] in E.
    rewrite Ew in E. cbn [mbind outcome_bind] in E. destruct cmds as [|c0 cs]; [by inversion Ht; subst|].
    destruct (script_tells script _ _ Ht Hne) as (l & El & Hl). rewrite El in E. cbn [mbind outcome_bind] in E. injection E as <-.
    destruct (tells_summaries _ _ _ Ht) as [_ Hk]. rewrite (dedup_known None l) by (by eapply same_known). exists l. split; [done|apply dedup_collapsed].
Qed.

(** * What is not shown *)

(** [xargs] counts as formatting unless what it runs is one of four programs
    with a flag to edit files: with others that change files it is left out, and
    the command is shown as a listing. Likewise [tee] and [sed -i]. *)
Lemma removing_files_is_shown_as_listing script tree :
  try_parse_shell script = Some tree →
  try_parse_word_only_commands_sequence tree = Ok (Some [[lit "ls"]; [lit "xargs"; lit "rm"]]) →
  shlex_try_join [lit "ls"] = Some (lit "ls") →
  parse_command [lit "bash"; lit "-lc"; script] = Ok [ListFiles (lit "ls") None].
Proof.
  intros Et Ew Ej. assert (Eb : extract_bash_command [lit "bash"; lit "-lc"; script] = Some (lit "bash", script)) by done.
  unfold ParseCommand.parse_command, parse_command_impl, parse_shell_lc_commands. rewrite Eb, Et. cbn [mbind outcome_bind]. rewrite Ew. cbn [mbind outcome_bind].
  assert (Ed : drop_small_formatting_commands [[lit "ls"]; [lit "xargs"; lit "rm"]] = [[lit "ls"]]) by (vm_compute; reflexivity).
  unfold script_summaries. rewrite Ed. cbn zeta.
  assert (Es : summaries [[lit "ls"]] None = [ListFiles (lit "ls") None]).
  { vm_compute in Ej. vm_compute. by rewrite Ej. }
  rewrite Es. done.
Qed.
Lemma writing_commands_are_formatting :
  forallb is_small_formatting_command [[lit "tee"; lit "out.txt"]; [lit "sed"; lit "-i"; lit "s/a/b/"; lit "f"]; [lit "sort"; lit "-o"; lit "f"; lit "f"]] = true ∧
  is_unknown (summarize_main_tokens shlex_try_join [lit "find"; lit "."; lit "-delete"]) = false.
Proof. by split. Qed.
End spec.

(** * Witness *)

(** Words joined and split at spaces, and the tree of [cd src && cat a.rs | wc]. *)
#[local] Definition plain_word (w : str) : bool := negb (bool_decide (w = [])) && negb (contains_char 32 w).
#[local] Definition join_words (tokens : list str) : option str := if forallb plain_word tokens then Some (join [32%N] tokens) else None.
#[local] Definition split_words (s : str) : option (list str) := Some (List.filter (λ w, negb (bool_decide (w = []))) (split_char 32 s)).
#[local] Definition word_node (w : string) (at_ : nat) : Node := MkNode (lit "word") true at_ (Some (lit w)) [].
#[local] Definition command_node (w : string) (args : list string) (at_ : nat) : Node :=
  MkNode (lit "command") true at_ None (MkNode (lit "command_name") true at_ None [word_node w at_] :: map (λ a, word_node a at_) args).
#[local] Definition reading_tree : Tree :=
  {| root_node := MkNode (lit "program") true 0 None
       [MkNode (lit "list") true 0 None
          [command_node "cd" ["src"]%string 0; MkNode (lit "&&") false 7 None [];
           MkNode (lit "pipeline") true 10 None [command_node "cat" ["a.rs"]%string 10; MkNode (lit "|") false 19 None []; command_node "wc" [] 21]]];
     has_error := false |}.
#[local] Definition reading : str := lit "cd src && cat a.rs | wc".
#[local] Definition reads_script (s : str) : option Tree := if bool_decide (s = reading) then Some reading_tree else None.
Lemma words_split tokens s : join_words tokens = Some s → split_words s = Some tokens.
Proof.
  unfold join_words. destruct (forallb plain_word tokens) eqn:E; [|done]. intros [= <-]. unfold split_words. f_equal.
  assert (Hw : Forall (λ w, negb (bool_decide (w = [])) = true ∧ 32%N ∉ w) tokens).
  { rewrite Forall_forall. intros w Hw. rewrite forallb_forall in E. specialize (E w (proj1 (list_elem_of_In _ _) Hw)).
    unfold plain_word in E. apply andb_true_iff in E as [E Hs%negb_true_iff]. split; [done|by apply contains_char_false]. }
  destruct tokens as [|t ts]; [done|]. rewrite split_char_join; [|done|by eapply Forall_impl; [exact Hw|intros ? [_ ?]]].
  clear E. induction Hw as [|w ws [Hw _] _ IH]; [done|]. cbn [List.filter]. by rewrite Hw, IH.
Qed.
Lemma word_splits s : s ≠ [] → forallb is_ascii_alphabetic s = true → split_words s = Some [s].
Proof.
  intros Hs Ha. unfold split_words. rewrite split_char_single.
  - cbn. by rewrite bool_decide_false.
  - intros Hin. rewrite forallb_forall in Ha. specialize (Ha 32%N (proj1 (list_elem_of_In _ _) Hin)). done.
Qed.
Lemma parse_command_spec_witness :
  ∃ l shown, parse_command join_words split_words reads_script [lit "bash"; lit "-lc"; reading] = Ok l
  ∧ l = [Read (lit "cat a.rs") (lit "a.rs") (lit "src/a.rs")]
  ∧ Forall2 same_summary [Read [] (lit "a.rs") (lit "src/a.rs")] shown ∧ collapsed shown l.
Proof.
  destruct (parse_command_spec join_words split_words reads_script [lit "bash"; lit "-lc"; reading] words_split word_splits ltac:(vm_compute; reflexivity))
    as (l & E & _ & H).
  destruct (H (lit "bash") reading reading_tree [[lit "cd"; lit "src"]; [lit "cat"; lit "a.rs"]; [lit "wc"]] [Read [] (lit "a.rs") (lit "src/a.rs")])
    as (shown & Hs & Hc); [vm_compute; reflexivity..| |done|].
  - apply tells_cd; [done|].
    replace [Read [] (lit "a.rs") (lit "src/a.rs")] with
      ((placed (Some (from_dir None (lit "src"))) <$> [Read [] (short_display_path (lit "a.rs")) (lit "a.rs")]) ++ []) by (vm_compute; reflexivity).
    apply (tells_plain _ _ [Read [] (short_display_path (lit "a.rs")) (lit "a.rs")] _ []); [by apply plain_read|].
    apply (tells_plain _ _ [] _ []); [by apply plain_helper|apply tells_nil].
  - exists l, shown. split; [exact E|]. split; [|done]. vm_compute in E. injection E as <-. reflexivity.
Defined.
