(* ===== verification/TurnDiff.v ===== *)
(** The file changes of a turn: [codex-rs/core/src/turn_diff_tracker.rs]. What
    the files held when a patch first named them is compared with what they hold
    now. The disk, git, SHA-1 and the text of a diff are an interface. Paths are
    the keys of maps as texts, where the code compares them by components. *)
From stdpp Require Import gmap pretty.
From S2P Require Import Prelude RustStr Utf8 RustPath BTreeMap Safety.

(** * Interface *)

(** A state of the disk: what follows links ([exists], [is_dir], [is_file],
    [read]), what does not ([symlink_metadata]: whether a link, and the mode bits;
    [read_link]), and [git hash-object]: its output when it succeeds. *)
Class DiskEnv : Type := {
  Disk : Type;
  path_exists : Disk → str → bool; path_is_dir : Disk → str → bool; path_is_file : Disk → str → bool;
  symlink_metadata : Disk → str → option (bool * N);
  read_bytes : Disk → str → option (list N); read_link : Disk → str → option (list N);
  hash_object : Disk → str → str → option (list N);
  blob_sha1_hex : list N → str; new_uuid : nat → str;
  unified_diff : str → str → str → str → str }.
(** Identifiers are distinct. *)
Class DiskEnvLaws (E : DiskEnv) : Prop := { new_uuid_inj : Inj (=) (=) new_uuid }.
#[export] Existing Instance new_uuid_inj.

(** * Data *)

Inductive FileMode : Type := Regular | Executable | Symlink.
#[export] Instance FileMode_eq_dec : EqDecision FileMode.
Proof. solve_decision. Defined.
Definition ZERO_OID : str := lit "0000000000000000000000000000000000000000".
Record BaselineFileInfo : Type := { info_path : str; content : list N; mode : FileMode; oid : str }.
(** [uuids] counts the identifiers made. *)
Record TurnDiffTracker : Type := {
  external_to_temp_name : gmap str str; baseline_file_info : gmap str BaselineFileInfo;
  temp_name_to_current_path : gmap str str; git_root_cache : list str; uuids : nat }.
Definition new : TurnDiffTracker :=
  {| external_to_temp_name := ∅; baseline_file_info := ∅; temp_name_to_current_path := ∅; git_root_cache := []; uuids := 0 |}.

Section tracker.
Context {DE : DiskEnv} (d : Disk).

(** * Files *)

Definition file_mode_for_path (path : str) : option FileMode :=
  '(is_symlink, bits) ← symlink_metadata d path;
  Some (if is_symlink : bool then Symlink else if (N.land bits 73 =? 0)%N then Regular else Executable).
Definition blob_bytes (path : str) (m : FileMode) : option (list N) :=
  if path_exists d path then if bool_decide (m = Symlink) then read_link d path else read_bytes d path else None.

(** ** Git *)

Definition has_git_marker (cur : str) : bool :=
  let git_marker := path_join cur (lit ".git") in path_is_dir d git_marker || path_is_file d git_marker.
Definition find_git_root_cached (cache : list str) (start : str) : option str * list str :=
  match (if path_is_dir d start then Some start else parent start) with
  | None => (None, cache)
  | Some dir =>
      match List.find (λ r, path_starts_with r dir) cache with
      | Some root => (Some root, cache)
      | None =>
          match List.find has_git_marker (ancestors dir) with
          | Some cur => (Some cur, if existsb (λ r, bool_decide (components r = components cur)) cache then cache else cache ++ [cur])
          | None => (None, cache)
          end
      end
  end.
Definition slashes (s : str) : str := (λ c, if (c =? 92)%N then slash else c) <$> s.
Definition relative_to_git_root_str (cache : list str) (path : str) : str * list str :=
  let '(root, cache) := find_git_root_cached cache path in
  (slashes (match root with Some root => default path (path_strip_prefix root path) | None => path end), cache).
Definition git_blob_oid_for_path (cache : list str) (path : str) : option str * list str :=
  match find_git_root_cached cache path with
  | (None, cache) => (None, cache)
  | (Some root, cache) =>
      let rel := default path (path_strip_prefix root path) in
      (out ← hash_object d root rel; let s := trim (from_utf8_lossy out) in if (str_len s =? 40)%N then Some s else None, cache)
  end.
(** The object id of what a file holds. *)
Definition oid_of (cache : list str) (path : str) (m : option FileMode) (bytes : list N) : str * list str :=
  if bool_decide (m = Some Symlink) then (blob_sha1_hex bytes, cache)
  else let '(o, cache) := git_blob_oid_for_path cache path in (default (blob_sha1_hex bytes) o, cache).

(** * Patches *)

(** The baseline of a path that is seen for the first time. *)
Definition baseline_of (cache : list str) (path : str) : BaselineFileInfo * list str :=
  if path_exists d path then
    let m := file_mode_for_path path in
    let mode_val := default Regular m in
    let bytes := default [] (blob_bytes path mode_val) in
    let '(o, cache) := oid_of cache path m bytes in
    ({| info_path := path; content := bytes; mode := mode_val; oid := o |}, cache)
  else ({| info_path := path; content := []; mode := Regular; oid := ZERO_OID |}, cache).
Definition track (t : TurnDiffTracker) (path : str) : TurnDiffTracker :=
  match external_to_temp_name t !! path with
  | Some _ => t
  | None =>
      let internal := new_uuid (uuids t) in
      let '(info, cache) := baseline_of (git_root_cache t) path in
      {| external_to_temp_name := <[path := internal]> (external_to_temp_name t);
         baseline_file_info := <[internal := info]> (baseline_file_info t);
         temp_name_to_current_path := <[internal := path]> (temp_name_to_current_path t);
         git_root_cache := cache; uuids := S (uuids t) |}
  end.
(** The source is mapped when a move is followed; the code has a case for one
    that is not. *)
Definition follow_move (t : TurnDiffTracker) (path dest : str) : TurnDiffTracker :=
  let '(internal, t) :=
    match external_to_temp_name t !! path with
    | Some i => (i, t)
    | None =>
        let i := new_uuid (uuids t) in
        (i, {| external_to_temp_name := external_to_temp_name t;
               baseline_file_info := <[i := {| info_path := path; content := []; mode := Regular; oid := ZERO_OID |}]> (baseline_file_info t);
               temp_name_to_current_path := temp_name_to_current_path t; git_root_cache := git_root_cache t; uuids := S (uuids t) |})
    end in
  {| external_to_temp_name := <[dest := internal]> (delete path (external_to_temp_name t)); baseline_file_info := baseline_file_info t;
     temp_name_to_current_path := <[internal := dest]> (temp_name_to_current_path t); git_root_cache := git_root_cache t; uuids := uuids t |}.
Definition begin_change (t : TurnDiffTracker) (e : str * FileChange) : TurnDiffTracker :=
  let t := track t e.1 in
  match e.2 with FcUpdate _ (Some dest) => follow_move t e.1 dest | _ => t end.
(** [changes] are the entries of the map, in the order it gives them. *)
Definition on_patch_begin (t : TurnDiffTracker) (changes : list (str * FileChange)) : TurnDiffTracker := foldl begin_change t changes.

(** * Diffs *)

End tracker.

(** * When there is no diff *)


Section diffs.
Context {DE : DiskEnv} (d : Disk) (t : TurnDiffTracker).
End diffs.

(** * What is tracked *)

Section tracking.
Context {DE : DiskEnv} {L : DiskEnvLaws DE}.

Lemma baseline_of_path d cache p : info_path (baseline_of d cache p).1 = p.
Proof. unfold baseline_of. destruct (path_exists d p); [|done]. by destruct (oid_of d cache p _ _). Qed.

(** ** What the patches of a turn name *)


(** ** The tracker follows them *)




(** * Properties *)

End tracking.

(** * Witnesses *)

(** Directories and files; git does not run, and a hash is the bytes. *)
#[local] Instance plain_disk : DiskEnv := {|
  Disk := list str * gmap str (list N);
  path_exists d p := bool_decide (p ∈ d.1) || is_some (d.2 !! p);
  path_is_dir d p := bool_decide (p ∈ d.1); path_is_file d p := is_some (d.2 !! p);
  symlink_metadata d p := if bool_decide (p ∈ d.1) || is_some (d.2 !! p) then Some (false, 420%N) else None;
  read_bytes d p := d.2 !! p; read_link _ _ := None; hash_object _ _ _ := None;
  blob_sha1_hex bytes := bytes; new_uuid n := show_nat n; unified_diff left right _ _ := left ++ right |}.
#[local] Instance plain_disk_laws : DiskEnvLaws plain_disk.
Proof. split. intros n m E. apply lit_inj in E. by apply (inj pretty) in E. Qed.
Definition file_a : str := lit "/r/a".
Definition file_b : str := lit "/r/b".
Definition before_patch : Disk := ([lit "/r"], {[file_a := lit "x"; file_b := lit "y"]}).
Definition update_a : str * FileChange := (file_a, FcUpdate [] (Some file_b)).
Definition update_b : str * FileChange := (file_b, FcUpdate [] None).


(** * Where the tracker departs from its comments *)

(** The root of a path is the first cached root above it, not the nearest
    directory with a [.git] entry: a file of a nested repository is named from
    the outer one once that is in the cache. *)
Lemma cached_root_hides_inner_repository :
  let d : Disk := ([lit "/r"; lit "/r/.git"; lit "/r/s"; lit "/r/s/.git"], {[lit "/r/f" := []; lit "/r/s/g" := []]}) in
  (relative_to_git_root_str d [] (lit "/r/s/g")).1 = lit "g" ∧
  (relative_to_git_root_str d (relative_to_git_root_str d [] (lit "/r/f")).2 (lit "/r/s/g")).1 = lit "s/g".
Proof. by vm_compute. Qed.
(** A patch that moves a file onto another and names that one too: the other
    has a baseline, or none, by the order in which the map gives the two. *)
Lemma baselines_depend_on_the_order_of_the_map :
  length (map_to_list (baseline_file_info (on_patch_begin before_patch new [update_a; update_b]))) = 1 ∧
  length (map_to_list (baseline_file_info (on_patch_begin before_patch new [update_b; update_a]))) = 2.
Proof. by vm_compute. Qed.
