(* ===== verification/TextArea.v ===== *)
(** The composer's text area: [codex-rs/tui/src/bottom_pane/textarea.rs] and the
    wrapping of its text ([codex-rs/tui/src/wrapping.rs]). The text is edited by
    keys and by its owner; elements are parts of it that edits treat as one
    character. Offsets are in bytes. What unicode-segmentation, unicode-width and
    textwrap do is an interface; drawing is left out. *)
From stdpp Require Import relations.
From S2P Require Import Prelude RustStr TextOffsets.
#[local] Open Scope N_scope.

(** * Interfaces *)

(** A line of [textwrap::wrap]: a slice of the text, or a text of its own. *)
Inductive wrapped : Type := Borrowed (start stop : N) | Owned (slice : str).
(** The libraries. [graphemes] cuts a text into extended grapheme clusters;
    [prev_boundary] and [next_boundary] are those of a [GraphemeCursor] on the
    whole text, [inl] when it asks for more of it; [wrap] is that of
    textwrap with the options of the text area for a width. *)
Class Unicode : Type := {
  graphemes : str → list str;
  prev_boundary : str → N → unit + option N;
  next_boundary : str → N → unit + option N;
  text_width : str → N;
  wrap : N → str → list wrapped }.
(** Clusters make up the text; the cursor finds a boundary of characters before,
    or after, one; lines that need no hyphen or indent are slices, in order. *)
Class UnicodeLaws (U : Unicode) : Prop := {
  graphemes_concat : ∀ s, concat (graphemes s) = s;
  prev_boundary_law : ∀ s p r, boundary p s → prev_boundary s p = r →
    match r with inl _ => False | inr None => p = 0 | inr (Some b) => boundary b s ∧ b < p end;
  next_boundary_law : ∀ s p r, boundary p s → next_boundary s p = r →
    match r with inl _ => False | inr None => p = str_len s | inr (Some b) => boundary b s ∧ p < b end;
  wrap_slices : ∀ w s, Forall (λ l, ∃ a b, l = Borrowed a b ∧ a ≤ b ∧ boundary a s ∧ boundary b s) (wrap w s);
  wrap_ordered : ∀ w s, StronglySorted (λ l l', ∀ a b a' b', l = Borrowed a b → l' = Borrowed a' b' → a ≤ a') (wrap w s) }.

(** * Data *)

Definition WORD_SEPARATORS : str := lit "`~!@#$%^&*()-=+[{]}\|;:'" ++ [34] ++ lit ",.<>/?".
Definition is_word_separator (ch : N) : bool := contains_char ch WORD_SEPARATORS.
Record TextElement : Type := { id : N; start : N; stop : N; name : option str }.
#[export] Instance TextElement_eq_dec : EqDecision TextElement.
Proof. solve_decision. Defined.
Record WrapCache : Type := { width : N; cached_lines : list (N * N) }.
Record TextArea : Type := {
  text : str; cursor_pos : N; wrap_cache : option WrapCache; preferred_col : option N;
  elements : list TextElement; next_element_id : N; kill_buffer : str }.
Definition new : TextArea :=
  {| text := []; cursor_pos := 0; wrap_cache := None; preferred_col := None; elements := []; next_element_id := 1; kill_buffer := [] |}.

(** ** Updates of one field *)

Definition with_cursor (p : N) (t : TextArea) : TextArea :=
  {| text := text t; cursor_pos := p; wrap_cache := wrap_cache t; preferred_col := preferred_col t; elements := elements t;
     next_element_id := next_element_id t; kill_buffer := kill_buffer t |}.
Definition with_col (c : option N) (t : TextArea) : TextArea :=
  {| text := text t; cursor_pos := cursor_pos t; wrap_cache := wrap_cache t; preferred_col := c; elements := elements t;
     next_element_id := next_element_id t; kill_buffer := kill_buffer t |}.
Definition with_elements (es : list TextElement) (next : N) (t : TextArea) : TextArea :=
  {| text := text t; cursor_pos := cursor_pos t; wrap_cache := wrap_cache t; preferred_col := preferred_col t; elements := es;
     next_element_id := next; kill_buffer := kill_buffer t |}.
Definition with_kill (k : str) (t : TextArea) : TextArea :=
  {| text := text t; cursor_pos := cursor_pos t; wrap_cache := wrap_cache t; preferred_col := preferred_col t; elements := elements t;
     next_element_id := next_element_id t; kill_buffer := k |}.
Definition with_cache (c : option WrapCache) (t : TextArea) : TextArea :=
  {| text := text t; cursor_pos := cursor_pos t; wrap_cache := c; preferred_col := preferred_col t; elements := elements t;
     next_element_id := next_element_id t; kill_buffer := kill_buffer t |}.
(** A new text drops the lines and the column kept for the old one. *)
Definition with_text (s : str) (t : TextArea) : TextArea :=
  {| text := s; cursor_pos := cursor_pos t; wrap_cache := None; preferred_col := None; elements := elements t;
     next_element_id := next_element_id t; kill_buffer := kill_buffer t |}.

(** * Positions *)

Definition text_len (t : TextArea) : N := str_len (text t).
Fixpoint boundary_before (s : str) (p : nat) : N :=
  match p with O => 0 | S p' => if is_char_boundary (N.of_nat p) s then N.of_nat p else boundary_before s p' end.
(** [steps] are those left to the end of the text. *)
Fixpoint boundary_after (s : str) (steps : nat) (p : N) : N :=
  match steps with O => p | S steps => if is_char_boundary p s then p else boundary_after s steps (p + 1) end.
Definition clamp_pos_to_char_boundary (t : TextArea) (pos : N) : N :=
  let pos := N.min pos (text_len t) in
  if is_char_boundary pos (text t) then pos
  else
    let prev := boundary_before (text t) (N.to_nat pos) in
    let next := boundary_after (text t) (N.to_nat (text_len t - pos)) pos in
    if (pos - prev) <=? (next - pos) then prev else next.
Definition inside (pos : N) (e : TextElement) : bool := (start e <? pos) && (pos <? stop e).
Definition find_element_containing (t : TextArea) (pos : N) : option TextElement := List.find (inside pos) (elements t).
Definition clamp_pos_to_nearest_boundary (t : TextArea) (pos : N) : N :=
  let pos := clamp_pos_to_char_boundary t pos in
  match find_element_containing t pos with
  | Some e =>
      if (pos - start e) <=? (stop e - pos) then clamp_pos_to_char_boundary t (start e) else clamp_pos_to_char_boundary t (stop e)
  | None => pos
  end.
(** The code repeats the body of the other. *)
Definition clamp_pos_for_insertion (t : TextArea) (pos : N) : N :=
  let pos := clamp_pos_to_char_boundary t pos in
  match find_element_containing t pos with
  | Some e =>
      if (pos - start e) <=? (stop e - pos) then clamp_pos_to_char_boundary t (start e) else clamp_pos_to_char_boundary t (stop e)
  | None => pos
  end.
Definition adjust_pos_out_of_elements (t : TextArea) (pos : N) (prefer_start : bool) : N :=
  match find_element_containing t pos with Some e => if prefer_start then start e else stop e | None => pos end.

(** One round over the elements, and whether it changed the range. *)
Fixpoint expand_round (es : list TextElement) (from to : N) (changed : bool) : N * N * bool :=
  match es with
  | [] => (from, to, changed)
  | e :: es =>
      if (start e <? to) && (from <? stop e) then
        let new_start := N.min from (start e) in
        let new_end := N.max to (stop e) in
        if negb (new_start =? from) || negb (new_end =? to) then expand_round es new_start new_end true
        else expand_round es from to changed
      else expand_round es from to changed
  end.
Fixpoint expand_loop {E} (fuel : nat) (es : list TextElement) (from to : N) : outcome E (N * N) :=
  match fuel with
  | O => OutOfFuel
  | S fuel => let '(from, to, changed) := expand_round es from to false in if changed then expand_loop fuel es from to else Ok (from, to)
  end.
Definition expand_range_to_element_boundaries {E} (t : TextArea) (from to : N) : outcome E (N * N) :=
  expand_loop (S (length (elements t))) (elements t) from to.

(** * Edits *)

#[local] Abbreviation result := (outcome Empty_set).

Definition shift_element (at_ removed inserted : N) (e : TextElement) : TextElement :=
  let last := at_ + removed in
  if stop e <=? at_ then e
  else if last <=? start e then
    {| id := id e; start := start e + inserted - removed; stop := stop e + inserted - removed; name := name e |}
  else {| id := id e; start := N.min at_ (start e); stop := at_ + N.max inserted (stop e - last); name := name e |}.
Definition shift_elements (at_ removed inserted : N) (es : list TextElement) : list TextElement :=
  shift_element at_ removed inserted <$> filter (λ e, ¬ (at_ ≤ start e ∧ stop e ≤ at_ + removed)) es.
Definition insert_str_at (t : TextArea) (pos : N) (s : str) : result TextArea :=
  let pos := clamp_pos_for_insertion t pos in
  s' ← TextOffsets.insert_str_at pos s (text t);
  let cursor := if pos <=? cursor_pos t then cursor_pos t + str_len s else cursor_pos t in
  Ok (with_elements (shift_elements pos 0 (str_len s) (elements t)) (next_element_id t) (with_cursor cursor (with_text s' t))).
Definition insert_str (t : TextArea) (s : str) : result TextArea := insert_str_at t (cursor_pos t) s.
Definition replace_range_raw (t : TextArea) (from to : N) (s : str) : result TextArea :=
  if negb (from <=? to) then Panic
  else
    let first := N.min from (text_len t) in
    let last := N.min to (text_len t) in
    let removed_len := last - first in
    let inserted_len := str_len s in
    if (removed_len =? 0) && (inserted_len =? 0) then Ok t
    else
      s' ← replace_text from to s (text t);
      let es := shift_elements first (last - first) inserted_len (elements t) in
      let cursor :=
        N.min (if cursor_pos t <? first then cursor_pos t
               else if cursor_pos t <=? last then first + inserted_len
               else cursor_pos t + inserted_len - removed_len) (str_len s') in
      let t := with_elements es (next_element_id t) (with_text s' t) in
      Ok (with_cursor (clamp_pos_to_nearest_boundary t cursor) t).
Definition replace_range (t : TextArea) (from to : N) (s : str) : result TextArea :=
  '(from, to) ← expand_range_to_element_boundaries t from to; replace_range_raw t from to s.
Definition set_cursor (t : TextArea) (pos : N) : TextArea :=
  with_col None (with_cursor (clamp_pos_to_nearest_boundary t (N.min pos (text_len t))) t).

(** ** Elements *)

Definition sort_elements (es : list TextElement) : list TextElement := sort_by_key (λ e, N.to_nat (start e)) es.
Definition u64_max : N := 18446744073709551615.
Definition add_element_with_id (t : TextArea) (from to : N) (n : option str) : N * TextArea :=
  let i := next_element_id t in
  (i, with_elements (sort_elements (elements t ++ [{| id := i; start := from; stop := to; name := n |}])) (N.min (i + 1) u64_max) t).
Definition add_element (t : TextArea) (from to : N) : N * TextArea := add_element_with_id t from to None.
Fixpoint rebuild (t : TextArea) (ranges : list (N * N)) : TextArea :=
  match ranges with
  | [] => t
  | (from, to) :: ranges =>
      let from := clamp_pos_to_char_boundary t (N.min from (text_len t)) in
      let to := clamp_pos_to_char_boundary t (N.min to (text_len t)) in
      if to <=? from then rebuild t ranges
      else
        let i := next_element_id t in
        rebuild (with_elements (elements t ++ [{| id := i; start := from; stop := to; name := None |}]) (N.min (i + 1) u64_max) t) ranges
  end.
Definition set_text_inner (t : TextArea) (s : str) (ranges : option (list (N * N))) : TextArea :=
  let t := with_elements [] (next_element_id t) (with_cursor (N.min (cursor_pos t) (str_len s)) (with_text s t)) in
  let t :=
    match ranges with
    | Some ranges => let t := rebuild t ranges in with_elements (sort_elements (elements t)) (next_element_id t) t
    | None => t
    end in
  with_cursor (clamp_pos_to_nearest_boundary t (cursor_pos t)) t.
Definition set_text_clearing_elements (t : TextArea) (s : str) : TextArea := set_text_inner t s None.
Definition set_text_with_elements (t : TextArea) (s : str) (ranges : list (N * N)) : TextArea := set_text_inner t s (Some ranges).
Definition insert_named (t : TextArea) (s : str) (n : option str) : result (N * TextArea) :=
  let first := clamp_pos_for_insertion t (cursor_pos t) in
  t ← insert_str_at t first s;
  let '(i, t) := add_element_with_id t first (first + str_len s) n in
  Ok (i, set_cursor t (first + str_len s)).
Definition insert_element (t : TextArea) (s : str) : result (N * TextArea) := insert_named t s None.
Definition insert_named_element (t : TextArea) (s i : str) : result TextArea := '(_, t) ← insert_named t s (Some i); Ok t.
Definition element_named (t : TextArea) (i : str) : option TextElement := List.find (λ e, bool_decide (name e = Some i)) (elements t).
Definition replace_element_by_id (t : TextArea) (i s : str) : result (bool * TextArea) :=
  match element_named t i with
  | Some e =>
      t ← replace_range_raw t (start e) (stop e) s;
      Ok (true, with_elements (filter (λ e, name e ≠ Some i) (elements t)) (next_element_id t) t)
  | None => Ok (false, t)
  end.
Definition update_named_element_by_id (t : TextArea) (i s : str) : result (bool * TextArea) :=
  match element_named t i with
  | Some e =>
      t ← replace_range_raw t (start e) (stop e) s;
      Ok (true, (add_element_with_id t (start e) (start e + str_len s) (Some i)).2)
  | None => Ok (false, t)
  end.
Definition add_element_range (t : TextArea) (from to : N) : option N * TextArea :=
  let from := clamp_pos_to_char_boundary t (N.min from (text_len t)) in
  let to := clamp_pos_to_char_boundary t (N.min to (text_len t)) in
  if to <=? from then (None, t)
  else if existsb (λ e, (start e =? from) && (stop e =? to)) (elements t) then (None, t)
  else if existsb (λ e, (from <? stop e) && (start e <? to)) (elements t) then (None, t)
  else let '(i, t) := add_element t from to in (Some i, t).
Definition remove_element_range (t : TextArea) (from to : N) : bool * TextArea :=
  let from := clamp_pos_to_char_boundary t (N.min from (text_len t)) in
  let to := clamp_pos_to_char_boundary t (N.min to (text_len t)) in
  if to <=? from then (false, t)
  else
    let es := filter (λ e, start e ≠ from ∨ stop e ≠ to) (elements t) in
    (negb (bool_decide (length (elements t) = length es)), with_elements es (next_element_id t) t).
Definition element_payload (t : TextArea) (e : TextElement) : option str := get_range (start e) (stop e) (text t).
Definition element_payloads (t : TextArea) : list str := omap (element_payload t) (elements t).
Definition element_id_for_exact_range (t : TextArea) (from to : N) : option N :=
  id <$> List.find (λ e, (start e =? from) && (stop e =? to)) (elements t).
(** The other elements after the replacement of [first..last]. *)
Definition shift_other (first last inserted removed : N) (e : TextElement) : TextElement :=
  if (inserted =? removed) || (stop e <=? first) then e
  else if last <=? start e then
    {| id := id e; start := start e + inserted - removed; stop := stop e + inserted - removed; name := name e |}
  else {| id := id e; start := N.min first (start e); stop := N.max (first + inserted) (stop e + inserted - removed); name := name e |}.
Definition replace_element_payload (t : TextArea) (old new_ : str) : result (bool * TextArea) :=
  match list_find (λ e, element_payload t e = Some old) (elements t) with
  | None => Ok (false, t)
  | Some (idx, e) =>
      if (stop e <? start e) || (text_len t <? stop e) then Ok (false, t)
      else
        let inserted := str_len new_ in
        let removed := stop e - start e in
        s' ← replace_text (start e) (stop e) new_ (text t);
        let renamed := {| id := id e; start := start e; stop := start e + inserted; name := name e |} in
        let es := imap (λ j f, if (j =? idx)%nat then renamed else shift_other (start e) (stop e) inserted removed f) (elements t) in
        let cursor :=
          if cursor_pos t <? start e then cursor_pos t
          else if cursor_pos t <=? stop e then start e + inserted else cursor_pos t + inserted - removed in
        let t := with_elements es (next_element_id t) (with_text s' t) in
        let t := with_cursor (clamp_pos_to_nearest_boundary t cursor) t in
        Ok (true, with_elements (sort_elements (elements t)) (next_element_id t) t)
  end.

(** * Wrapped lines *)

Fixpoint count_spaces (s : str) : N := match s with c :: s => if c =? 32 then 1 + count_spaces s else 0 | [] => 0 end.
Fixpoint match_owned (s wrapped : str) (stop : N) (saw_source_char : bool) : result N :=
  match wrapped with
  | [] => Ok stop
  | ch :: more =>
      src ← (if stop <? str_len s then rest ← slice_from stop s; Ok (head rest) else Ok None);
      if bool_decide (src = Some ch) then match_owned s more (stop + len_utf8 ch) true
      else if (ch =? 45) && bool_decide (more = []) then match_owned s more stop saw_source_char
      else if negb saw_source_char then match_owned s more stop saw_source_char
      else Ok stop
  end.
Definition map_owned_wrapped_line_to_range (s : str) (cursor : N) (wrapped synthetic_prefix : str) : result (N * N) :=
  let wrapped := match synthetic_prefix with [] => wrapped | _ => default wrapped (strip_prefix synthetic_prefix wrapped) end in
  first ← (if (cursor <? str_len s) && negb (starts_with (lit " ") wrapped)
           then rest ← slice_from cursor s; Ok (cursor + count_spaces rest) else Ok cursor);
  last ← match_owned s wrapped first false;
  Ok (first, last).
Fixpoint wrap_ranges_loop (s initial_indent subsequent_indent : str) (line_index : nat) (cursor : N) (ls : list wrapped) : result (list (N * N)) :=
  match ls with
  | [] => Ok []
  | l :: ls =>
      '(first, last) ← match l with
                       | Borrowed from to => Ok (from, to)
                       | Owned slice =>
                           map_owned_wrapped_line_to_range s cursor slice (if (line_index =? 0)%nat then initial_indent else subsequent_indent)
                       end;
      rest ← slice_from last s;
      let trailing_spaces := count_spaces rest in
      more ← wrap_ranges_loop s initial_indent subsequent_indent (S line_index) (last + trailing_spaces) ls;
      Ok ((first, last + trailing_spaces + 1) :: more)
  end.
Section unicode.
Context {U : Unicode}.
(** The options of the text area have no indents. *)
Definition wrap_ranges (s : str) (width : N) : result (list (N * N)) := wrap_ranges_loop s [] [] 0 0 (wrap width s).
(** Brings the cache up to date. *)
Definition wrapped_lines (t : TextArea) (w : N) : result (list (N * N) * TextArea) :=
  let recalculated := ls ← wrap_ranges (text t) w; Ok (ls, with_cache (Some {| width := w; cached_lines := ls |}) t) in
  match wrap_cache t with
  | Some c => if width c =? w then Ok (cached_lines c, t) else recalculated
  | None => recalculated
  end.
(** [partition_point] on lines in order. *)
Definition wrapped_line_index_by_start (ls : list (N * N)) (pos : N) : option nat :=
  match length (filter (λ r, r.1 ≤ pos) ls) with O => None | S i => Some i end.
(** [as u16] truncates; the sum does not overflow. *)
Definition as_u16 (n : N) : N := n mod 65536.
Definition effective_scroll (t : TextArea) (area_height : N) (ls : list (N * N)) (current_scroll : N) : N :=
  let total_lines := as_u16 (len ls) in
  if total_lines <=? area_height then 0
  else
    let cursor_line_idx := as_u16 (N.of_nat (default O (wrapped_line_index_by_start ls (cursor_pos t)))) in
    let max_scroll := total_lines - area_height in
    let scroll := N.min current_scroll max_scroll in
    if cursor_line_idx <? scroll then cursor_line_idx
    else if scroll + area_height <=? cursor_line_idx then cursor_line_idx + 1 - area_height
    else scroll.

(** * Movement *)

Definition beginning_of_line (t : TextArea) (pos : N) : result N :=
  prefix ← slice_to pos (text t); Ok (match rfind_if (N.eqb nl) prefix with Some i => i + 1 | None => 0 end).
Definition beginning_of_current_line (t : TextArea) : result N := beginning_of_line t (cursor_pos t).
Definition end_of_line (t : TextArea) (pos : N) : result N :=
  rest ← slice_from pos (text t); Ok (match find_if (N.eqb nl) rest with Some i => i + pos | None => text_len t end).
Definition end_of_current_line (t : TextArea) : result N := end_of_line t (cursor_pos t).
Definition current_display_col (t : TextArea) : result N :=
  bol ← beginning_of_current_line t; s ← slice_range bol (cursor_pos t) (text t); Ok (text_width s).
(** The offset of the cluster that passes the column. *)
Fixpoint col_offset (gs : list str) (i width_so_far target_col : N) : option N :=
  match gs with
  | [] => None
  | g :: gs =>
      let width_so_far := width_so_far + text_width g in
      if target_col <? width_so_far then Some i else col_offset gs (i + str_len g) width_so_far target_col
  end.
Definition move_to_display_col_on_line (t : TextArea) (line_start line_end target_col : N) : result TextArea :=
  s ← slice_range line_start line_end (text t);
  let p := match col_offset (graphemes s) 0 0 target_col with Some i => line_start + i | None => line_end end in
  Ok (with_cursor (clamp_pos_to_nearest_boundary t p) t).
(** The column to keep, and the line above or below ([inl] when there is none),
    from the lines in the cache. *)
Definition visual_line (t : TextArea) (step : nat → option nat) : result (option (N * option (N * N))) :=
  match wrap_cache t with
  | None => Ok None
  | Some c =>
      match wrapped_line_index_by_start (cached_lines c) (cursor_pos t) with
      | None => Ok None
      | Some idx =>
          cur ← (match cached_lines c !! idx with Some r => Ok r | None => Panic end);
          target_col ← (match preferred_col t with
                        | Some c => Ok c
                        | None => s ← slice_range cur.1 (cursor_pos t) (text t); Ok (text_width s)
                        end);
          match (i ← step idx; cached_lines c !! i) with
          | Some r => Ok (Some (target_col, Some (r.1, r.2 - 1)))
          | None => Ok (Some (target_col, None))
          end
      end
  end.
Definition keep_col (t : TextArea) (target_col : N) : TextArea :=
  match preferred_col t with None => with_col (Some target_col) t | Some _ => t end.
Definition target_col (t : TextArea) : result N := match preferred_col t with Some c => Ok c | None => current_display_col t end.
Definition move_cursor_up (t : TextArea) : result TextArea :=
  visual ← visual_line t (λ idx, match idx with O => None | S i => Some i end);
  match visual with
  | Some (col, Some (line_start, line_end)) => move_to_display_col_on_line (keep_col t col) line_start line_end col
  | Some (_, None) => Ok (with_col None (with_cursor 0 t))
  | None =>
      prefix ← slice_to (cursor_pos t) (text t);
      match rfind_if (N.eqb nl) prefix with
      | Some prev_nl =>
          col ← target_col t;
          prev_line_start ← beginning_of_line t prev_nl;
          move_to_display_col_on_line (keep_col t col) prev_line_start prev_nl col
      | None => Ok (with_col None (with_cursor 0 t))
      end
  end.
Definition move_cursor_down (t : TextArea) : result TextArea :=
  visual ← visual_line t (λ idx, Some (S idx));
  match visual with
  | Some (col, Some (line_start, line_end)) => move_to_display_col_on_line (keep_col t col) line_start line_end col
  | Some (_, None) => Ok (with_col None (with_cursor (text_len t) t))
  | None =>
      col ← target_col t;
      let t := keep_col t col in
      rest ← slice_from (cursor_pos t) (text t);
      match find_if (N.eqb nl) rest with
      | Some i =>
          let next_line_start := i + cursor_pos t + 1 in
          next_line_end ← end_of_line t next_line_start;
          move_to_display_col_on_line t next_line_start next_line_end col
      | None => Ok (with_col None (with_cursor (text_len t) t))
      end
  end.
Definition move_cursor_to_beginning_of_line (t : TextArea) (move_up_at_bol : bool) : result TextArea :=
  bol ← beginning_of_current_line t;
  if move_up_at_bol && (cursor_pos t =? bol) then p ← beginning_of_line t (cursor_pos t - 1); Ok (set_cursor t p)
  else Ok (set_cursor t bol).
Definition move_cursor_to_end_of_line (t : TextArea) (move_down_at_eol : bool) : result TextArea :=
  eol ← end_of_current_line t;
  if move_down_at_eol && (cursor_pos t =? eol) then p ← end_of_line t (N.min (cursor_pos t + 1) (text_len t)); Ok (set_cursor t p)
  else Ok (set_cursor t eol).

Definition prev_atomic_boundary (t : TextArea) (pos : N) : N :=
  if pos =? 0 then 0
  else
    match List.find (λ e, (start e <? pos) && (pos <=? stop e)) (elements t) with
    | Some e => start e
    | None =>
        match prev_boundary (text t) pos with
        | inr (Some b) => match find_element_containing t b with Some e => start e | None => b end
        | inr None => 0
        | inl _ => pos - 1
        end
    end.
Definition next_atomic_boundary (t : TextArea) (pos : N) : N :=
  if text_len t <=? pos then text_len t
  else
    match List.find (λ e, (start e <=? pos) && (pos <? stop e)) (elements t) with
    | Some e => stop e
    | None =>
        match next_boundary (text t) pos with
        | inr (Some b) => match find_element_containing t b with Some e => stop e | None => b end
        | inr None => text_len t
        | inl _ => pos + 1
        end
    end.
Definition move_cursor_left (t : TextArea) : TextArea := with_col None (with_cursor (prev_atomic_boundary t (cursor_pos t)) t).
Definition move_cursor_right (t : TextArea) : TextArea := with_col None (with_cursor (next_atomic_boundary t (cursor_pos t)) t).

(** ** Words *)

Definition ends_word (is_separator : bool) (ch : N) : bool := is_whitespace ch || negb (Bool.eqb (is_word_separator ch) is_separator).
(** The characters before the one found, the last first. *)
Fixpoint word_start (is_separator : bool) (before : list (N * N)) (first : N) : N :=
  match before with
  | [] => first
  | (idx, ch) :: before => if ends_word is_separator ch then idx + len_utf8 ch else word_start is_separator before idx
  end.
Definition beginning_of_previous_word (t : TextArea) : result N :=
  prefix ← slice_to (cursor_pos t) (text t);
  match List.find (λ ic, negb (is_whitespace ic.2)) (reverse (char_indices prefix)) with
  | None => Ok 0
  | Some (first, ch) =>
      before ← slice_to first prefix;
      Ok (adjust_pos_out_of_elements t (word_start (is_word_separator ch) (reverse (char_indices before)) first) true)
  end.
Definition end_of_next_word (t : TextArea) : result N :=
  rest ← slice_from (cursor_pos t) (text t);
  match find_if (λ c, negb (is_whitespace c)) rest with
  | None => Ok (text_len t)
  | Some first_non_ws =>
      let word_start := cursor_pos t + first_non_ws in
      word ← slice_from word_start (text t);
      match char_indices word with
      | [] => Ok word_start
      | (_, first_ch) :: iter =>
          let last := match List.find (λ ic, ends_word (is_word_separator first_ch) ic.2) iter with
                      | Some (idx, _) => word_start + idx
                      | None => text_len t
                      end in
          Ok (adjust_pos_out_of_elements t last false)
      end
  end.

(** * Deleting and killing *)

Fixpoint boundaries_back (t : TextArea) (n : nat) (target : N) : N :=
  match n with
  | O => target
  | S n => let target := prev_atomic_boundary t target in if target =? 0 then target else boundaries_back t n target
  end.
Definition delete_backward (t : TextArea) (n : nat) : result TextArea :=
  if (n =? 0)%nat || (cursor_pos t =? 0) then Ok t
  else replace_range t (boundaries_back t n (cursor_pos t)) (cursor_pos t) [].
Fixpoint boundaries_on (t : TextArea) (n : nat) (target : N) : N :=
  match n with
  | O => target
  | S n => let target := next_atomic_boundary t target in if text_len t <=? target then target else boundaries_on t n target
  end.
Definition delete_forward (t : TextArea) (n : nat) : result TextArea :=
  if (n =? 0)%nat || (text_len t <=? cursor_pos t) then Ok t
  else replace_range t (cursor_pos t) (boundaries_on t n (cursor_pos t)) [].
Definition kill_range (t : TextArea) (from to : N) : result TextArea :=
  '(from, to) ← expand_range_to_element_boundaries t from to;
  if to <=? from then Ok t
  else
    removed ← slice_range from to (text t);
    match removed with [] => Ok t | _ => replace_range_raw (with_kill removed t) from to [] end.
Definition delete_backward_word (t : TextArea) : result TextArea :=
  first ← beginning_of_previous_word t; kill_range t first (cursor_pos t).
Definition delete_forward_word (t : TextArea) : result TextArea :=
  last ← end_of_next_word t; if cursor_pos t <? last then kill_range t (cursor_pos t) last else Ok t.
Definition kill_to_end_of_line (t : TextArea) : result TextArea :=
  eol ← end_of_current_line t;
  if cursor_pos t =? eol then if eol <? text_len t then kill_range t (cursor_pos t) (eol + 1) else Ok t
  else kill_range t (cursor_pos t) eol.
Definition kill_to_beginning_of_line (t : TextArea) : result TextArea :=
  bol ← beginning_of_current_line t;
  if cursor_pos t =? bol then if 0 <? bol then kill_range t (bol - 1) bol else Ok t
  else kill_range t bol (cursor_pos t).
Definition yank (t : TextArea) : result TextArea := match kill_buffer t with [] => Ok t | s => insert_str t s end.

(** * Keys *)

Inductive KeyCode : Type :=
| Char (c : N) | Enter | Backspace | Delete | Left | Right | Up | Down | Home | End_ | OtherKey.
Inductive KeyEventKind : Type := Press | Repeat | Release.
(** The flags of [KeyModifiers]. *)
Definition NONE : N := 0.
Definition SHIFT : N := 1.
Definition CONTROL : N := 2.
Definition ALT : N := 4.
Record KeyEvent : Type := { code : KeyCode; modifiers : N; event_kind : KeyEventKind }.
(** Not on Windows. *)
Definition is_altgr (mods : N) : bool := false.
Definition key (c : string) : N := default 0 (head (lit c)).
Definition input_char (t : TextArea) (c mods : N) : result TextArea :=
  if (mods =? NONE) && (c =? 2) then Ok (move_cursor_left t)
  else if (mods =? NONE) && (c =? 6) then Ok (move_cursor_right t)
  else if (mods =? NONE) && (c =? 16) then move_cursor_up t
  else if (mods =? NONE) && (c =? 14) then move_cursor_down t
  else if (mods =? NONE) || (mods =? SHIFT) then insert_str t [c]
  else if ((c =? key "j") || (c =? key "m")) && (mods =? CONTROL) then insert_str t [nl]
  else if (c =? key "h") && (mods =? N.lor CONTROL ALT) then delete_backward_word t
  else if is_altgr mods then insert_str t [c]
  else if (c =? key "h") && (mods =? CONTROL) then delete_backward t 1
  else if (c =? key "d") && (mods =? ALT) then delete_forward_word t
  else if (c =? key "d") && (mods =? CONTROL) then delete_forward t 1
  else if (c =? key "w") && (mods =? CONTROL) then delete_backward_word t
  else if (c =? key "b") && (mods =? ALT) then p ← beginning_of_previous_word t; Ok (set_cursor t p)
  else if (c =? key "f") && (mods =? ALT) then p ← end_of_next_word t; Ok (set_cursor t p)
  else if (c =? key "u") && (mods =? CONTROL) then kill_to_beginning_of_line t
  else if (c =? key "k") && (mods =? CONTROL) then kill_to_end_of_line t
  else if (c =? key "y") && (mods =? CONTROL) then yank t
  else if (c =? key "b") && (mods =? CONTROL) then Ok (move_cursor_left t)
  else if (c =? key "f") && (mods =? CONTROL) then Ok (move_cursor_right t)
  else if (c =? key "p") && (mods =? CONTROL) then move_cursor_up t
  else if (c =? key "n") && (mods =? CONTROL) then move_cursor_down t
  else if (c =? key "a") && (mods =? CONTROL) then move_cursor_to_beginning_of_line t true
  else if (c =? key "e") && (mods =? CONTROL) then move_cursor_to_end_of_line t true
  else Ok t.
(** The branches that name a character come first within a key code: the others
    match their key whatever comes before. *)
Definition input (t : TextArea) (event : KeyEvent) : result TextArea :=
  let mods := modifiers event in
  match event_kind event with
  | Release => Ok t
  | _ =>
      match code event with
      | Char c => input_char t c mods
      | Enter => insert_str t [nl]
      | Backspace => if mods =? ALT then delete_backward_word t else delete_backward t 1
      | Delete => if mods =? ALT then delete_forward_word t else delete_forward t 1
      | Left =>
          if mods =? NONE then Ok (move_cursor_left t)
          else if (mods =? ALT) || (mods =? CONTROL) then p ← beginning_of_previous_word t; Ok (set_cursor t p)
          else Ok t
      | Right =>
          if mods =? NONE then Ok (move_cursor_right t)
          else if (mods =? ALT) || (mods =? CONTROL) then p ← end_of_next_word t; Ok (set_cursor t p)
          else Ok t
      | Up => move_cursor_up t
      | Down => move_cursor_down t
      | Home => move_cursor_to_beginning_of_line t false
      | End_ => move_cursor_to_end_of_line t false
      | OtherKey => Ok t
      end
  end.
End unicode.

(** * Well-formed text areas *)

(** Elements are parts of the text that do not overlap, in order. *)
Definition element_ok (s : str) (e : TextElement) : Prop := start e < stop e ∧ boundary (start e) s ∧ boundary (stop e) s.
Definition elements_ok (s : str) (es : list TextElement) : Prop :=
  Forall (element_ok s) es ∧ StronglySorted (λ e f, stop e ≤ start f) es.
(** A position where the cursor is put: between characters, not in an element. *)
Definition legal (t : TextArea) (p : N) : Prop := boundary p (text t) ∧ ∀ e, e ∈ elements t → inside p e = false.
Section well_formed.
Context {U : Unicode}.
Record wf (t : TextArea) : Prop := {
  wf_elements : elements_ok (text t) (elements t);
  wf_cursor : boundary (cursor_pos t) (text t);
  wf_cache : ∀ c, wrap_cache t = Some c → wrap_ranges (text t) (width c) = Ok (cached_lines c) }.
End well_formed.
Definition cursor_outside (t : TextArea) : Prop := ∀ e, e ∈ elements t → inside (cursor_pos t) e = false.

Lemma inside_spec p e : inside p e = true ↔ start e < p ∧ p < stop e.
Proof. unfold inside. by rewrite andb_true_iff, !N.ltb_lt. Qed.
Lemma inside_false p e : inside p e = false ↔ p ≤ start e ∨ stop e ≤ p.
Proof. unfold inside. rewrite andb_false_iff, !N.ltb_ge. done. Qed.

(** ** Clamping *)

Lemma boundary_before_ok s p : boundary (boundary_before s p) s.
Proof.
  induction p as [|p IH]; cbn [boundary_before]; [apply boundary_0|].
  destruct (is_char_boundary _ s) eqn:E; [by apply is_char_boundary_spec|done].
Qed.
Lemma boundary_after_ok s steps p : p + N.of_nat steps = str_len s → boundary (boundary_after s steps p) s.
Proof.
  revert p. induction steps as [|steps IH]; intros p Hp; cbn [boundary_after].
  - replace p with (str_len s) by lia. apply boundary_end.
  - destruct (is_char_boundary p s) eqn:E; [by apply is_char_boundary_spec|]. apply IH. lia.
Qed.
Lemma clamp_char_ok t p : boundary (clamp_pos_to_char_boundary t p) (text t).
Proof.
  unfold clamp_pos_to_char_boundary. destruct (is_char_boundary _ _) eqn:E; [by apply is_char_boundary_spec|].
  destruct (_ <=? _); [apply boundary_before_ok|]. apply boundary_after_ok. unfold text_len. lia.
Qed.
Lemma clamp_char_id t p : boundary p (text t) → clamp_pos_to_char_boundary t p = p.
Proof.
  intros Hp. unfold clamp_pos_to_char_boundary. rewrite N.min_l by by apply boundary_le.
  apply is_char_boundary_spec in Hp. by rewrite Hp.
Qed.

Lemma sorted_apart es e f : StronglySorted (λ e f, stop e ≤ start f) es → e ∈ es → f ∈ es → e = f ∨ stop e ≤ start f ∨ stop f ≤ start e.
Proof.
  induction 1 as [|x es _ IH Hx]; [by intros ?%elem_of_nil|]. rewrite Forall_forall in Hx.
  rewrite !elem_of_cons. intros [->|He] [->|Hf]; auto. 
Qed.
Lemma edge_outside s es e f p : elements_ok s es → e ∈ es → f ∈ es → p = start e ∨ p = stop e → inside p f = false.
Proof.
  intros [Hok Hs] He Hf Hp. rewrite Forall_forall in Hok. destruct (Hok e He) as [? _], (Hok f Hf) as [? _].
  apply inside_false. destruct (sorted_apart es e f Hs He Hf) as [->|?]; destruct Hp as [-> | ->]; lia.
Qed.
Lemma edge_legal t e p : elements_ok (text t) (elements t) → e ∈ elements t → p = start e ∨ p = stop e → legal t p.
Proof.
  intros Hok He Hp. split; [|intros f Hf; exact (edge_outside _ _ e f p Hok He Hf Hp)].
  destruct Hok as [Hok _]. rewrite Forall_forall in Hok. destruct (Hok e He) as (_ & ? & ?). by destruct Hp as [-> | ->].
Qed.
Lemma find_containing t p :
  match find_element_containing t p with
  | Some e => e ∈ elements t ∧ start e < p ∧ p < stop e
  | None => ∀ e, e ∈ elements t → inside p e = false
  end.
Proof.
  unfold find_element_containing. destruct (List.find _ _) as [e|] eqn:E.
  - apply find_some in E as [Hin E]. by rewrite <- list_elem_of_In, inside_spec in *.
  - intros e He. apply (find_none _ _ E). by apply list_elem_of_In.
Qed.
Lemma clamp_nearest_legal t p : elements_ok (text t) (elements t) → legal t (clamp_pos_to_nearest_boundary t p).
Proof.
  intros Hok. unfold clamp_pos_to_nearest_boundary. pose proof (find_containing t (clamp_pos_to_char_boundary t p)) as Hf.
  destruct (find_element_containing _ _) as [e|]; [|by split; [apply clamp_char_ok|]].
  destruct Hf as [He _]. pose proof Hok as [Ho _]. rewrite Forall_forall in Ho. destruct (Ho e He) as (_ & ? & ?).
  destruct (_ <=? _); rewrite clamp_char_id by done; (eapply edge_legal; [done..|auto]).
Qed.
Lemma clamp_insertion_legal t p : elements_ok (text t) (elements t) → legal t (clamp_pos_for_insertion t p).
Proof. apply clamp_nearest_legal. Qed.
Lemma clamp_insertion_id t p : legal t p → clamp_pos_for_insertion t p = p.
Proof.
  intros [Hp Hi]. unfold clamp_pos_for_insertion. rewrite clamp_char_id by done.
  pose proof (find_containing t p) as Hf. destruct (find_element_containing t p) as [e|]; [|done].
  destruct Hf as (He & Hf). apply inside_spec in Hf. rewrite Hi in Hf by done. done.
Qed.
Lemma adjust_legal t p b : elements_ok (text t) (elements t) → boundary p (text t) → legal t (adjust_pos_out_of_elements t p b).
Proof.
  intros Hok Hp. unfold adjust_pos_out_of_elements. pose proof (find_containing t p) as Hf.
  destruct (find_element_containing _ _) as [e|]; [|done]. destruct Hf as [He _]. destruct b; (eapply edge_legal; [done..|auto]).
Qed.
Lemma element_bounds s es e : elements_ok s es → e ∈ es → start e < stop e ∧ stop e ≤ str_len s ∧ boundary (start e) s ∧ boundary (stop e) s.
Proof. intros [H _] He. rewrite Forall_forall in H. destruct (H e He) as (? & ? & ?). split_and!; [done|by apply boundary_le|done..]. Qed.
Lemma legal_0 t : legal t 0.
Proof. split; [apply boundary_0|]. intros e _. apply inside_false. lia. Qed.
Lemma legal_len t : elements_ok (text t) (elements t) → legal t (text_len t).
Proof.
  intros Hok. split; [apply boundary_end|]. intros e He. apply inside_false. right. by destruct (element_bounds _ _ e Hok He) as (_ & ? & _).
Qed.

(** ** Ranges *)

(** A range cuts no element: each is before it, after it, or within it. *)
Definition within (from to : N) (e : TextElement) : Prop := from ≤ start e ∧ stop e ≤ to.
#[export] Instance within_dec from to e : Decision (within from to e) := _.
Definition touches (from to : N) (e : TextElement) : Prop := start e < to ∧ from < stop e.
Definition uncut (from to : N) (es : list TextElement) : Prop := ∀ e, e ∈ es → stop e ≤ from ∨ to ≤ start e ∨ within from to e.
Definition edge (es : list TextElement) (p : N) : Prop := ∃ e, e ∈ es ∧ (p = start e ∨ p = stop e).
Lemma edge_tl e es p : edge es p → edge (e :: es) p.
Proof. intros (f & Hf & H). exists f. split; [by apply list_elem_of_further|done]. Qed.

Lemma expand_round_spec es from to c :
  let '(f, l, c') := expand_round es from to c in
  f ≤ from ∧ to ≤ l ∧ (f = from ∨ edge es f) ∧ (l = to ∨ edge es l) ∧
  (c' = false → c = false ∧ f = from ∧ l = to ∧ ∀ e, e ∈ es → touches from to e → within from to e) ∧
  (c' = true → c = true ∨ ∃ e, e ∈ es ∧ ¬ within from to e ∧ within f l e).
Proof.
  revert from to c. induction es as [|e es IH]; intros from to c; cbn [expand_round].
  { split_and!; [lia|lia|auto..]. intros ->. split_and!; [done..|]. intros e He. by apply elem_of_nil in He. }
  destruct ((start e <? to) && (from <? stop e)) eqn:Ht; [destruct (negb _ || negb _) eqn:Hc|].
  - specialize (IH (N.min from (start e)) (N.max to (stop e)) true). destruct (expand_round es _ _ _) as [[f l] c'].
    destruct IH as (Hf & Hl & Ef & El & H0 & H1). split_and!; [lia|lia| | | |].
    + destruct Ef as [->|Ef]; [|right; by apply edge_tl]. destruct (N.min_spec from (start e)) as [[? ->]|[? ->]]; [by left|].
      right. exists e. split; [apply list_elem_of_here|auto].
    + destruct El as [->|El]; [|right; by apply edge_tl]. destruct (N.max_spec to (stop e)) as [[? ->]|[? ->]]; [|by left].
      right. exists e. split; [apply list_elem_of_here|auto].
    + intros ->. by destruct H0.
    + intros _. right. exists e. split; [apply list_elem_of_here|]. apply orb_true_iff in Hc. rewrite !negb_true_iff, !N.eqb_neq in Hc.
      unfold within. lia.
  - specialize (IH from to c). destruct (expand_round es _ _ _) as [[f l] c']. destruct IH as (Hf & Hl & Ef & El & H0 & H1).
    split_and!; [lia|lia| | | |].
    + destruct Ef as [->|Ef]; [by left|right; by apply edge_tl].
    + destruct El as [->|El]; [by left|right; by apply edge_tl].
    + intros ->. destruct (H0 eq_refl) as (-> & -> & -> & H). split_and!; [done..|]. intros x [->|Hx]%elem_of_cons Htx; [|by auto].
      apply orb_false_iff in Hc. rewrite !negb_false_iff, !N.eqb_eq in Hc. unfold within. lia.
    + intros ->. destruct (H1 eq_refl) as [->|(x & Hx & ?)]; [by left|right]. exists x. split; [by apply list_elem_of_further|done].
  - specialize (IH from to c). destruct (expand_round es _ _ _) as [[f l] c']. destruct IH as (Hf & Hl & Ef & El & H0 & H1).
    split_and!; [lia|lia| | | |].
    + destruct Ef as [->|Ef]; [by left|right; by apply edge_tl].
    + destruct El as [->|El]; [by left|right; by apply edge_tl].
    + intros ->. destruct (H0 eq_refl) as (-> & -> & -> & H). split_and!; [done..|]. intros x [->|Hx]%elem_of_cons; [|by auto].
      intros [Ha Hb]. apply andb_false_iff in Ht. rewrite !N.ltb_ge in Ht. lia.
    + intros ->. destruct (H1 eq_refl) as [->|(x & Hx & ?)]; [by left|right]. exists x. split; [by apply list_elem_of_further|done].
Qed.
(** Every round that changes the range takes in an element. *)
Definition outside_range (es : list TextElement) (from to : N) : nat := length (filter (λ e, ¬ within from to e) es).
Lemma outside_range_lt es from to f l e :
  f ≤ from → to ≤ l → e ∈ es → ¬ within from to e → within f l e → (outside_range es f l < outside_range es from to)%nat.
Proof.
  intros Hf Hl He Hn Hw. unfold outside_range. induction es as [|x es IH]; [by apply elem_of_nil in He|].
  assert (Hmono : (length (filter (λ e, ¬ within f l e) es) ≤ length (filter (λ e, ¬ within from to e) es))%nat).
  { clear IH He. induction es as [|y es IH]; [done|]. rewrite !filter_cons. unfold within in *. repeat case_decide; cbn; lia. }
  rewrite !filter_cons. apply elem_of_cons in He as [->|He].
  - rewrite decide_False by tauto. rewrite decide_True by done. cbn. lia.
  - specialize (IH He). unfold within in *. repeat case_decide; cbn; lia.
Qed.
Lemma expand_loop_spec {E} fuel es from to :
  (outside_range es from to < fuel)%nat →
  ∃ f l, expand_loop (E := E) fuel es from to = Ok (f, l) ∧ f ≤ from ∧ to ≤ l ∧ (f = from ∨ edge es f) ∧ (l = to ∨ edge es l) ∧
    ∀ e, e ∈ es → touches f l e → within f l e.
Proof.
  revert from to. induction fuel as [|fuel IH]; intros from to Hlt; [lia|]. cbn [expand_loop].
  pose proof (expand_round_spec es from to false) as H. destruct (expand_round es from to false) as [[f l] c].
  destruct H as (Hf & Hl & Ef & El & H0 & H1). destruct c.
  - destruct (H1 eq_refl) as [?|(e & He & Hn & Hw)]; [done|].
    destruct (IH f l) as (f' & l' & -> & ? & ? & Ef' & El' & H').
    { pose proof (outside_range_lt es from to f l e Hf Hl He Hn Hw). lia. }
    exists f', l'. split_and!; [done|lia|lia| | |done]; [destruct Ef' as [->|]|destruct El' as [->|]]; auto.
  - destruct (H0 eq_refl) as (_ & -> & -> & H). exists from, to. split_and!; auto.
Qed.
Lemma expand_spec {E} t from to : elements_ok (text t) (elements t) → boundary from (text t) → boundary to (text t) → from ≤ to →
  ∃ f l, expand_range_to_element_boundaries (E := E) t from to = Ok (f, l) ∧ f ≤ from ∧ to ≤ l ∧
    boundary f (text t) ∧ boundary l (text t) ∧ uncut f l (elements t).
Proof.
  intros Hok Hf Hl Hle. destruct (expand_loop_spec (E := E) (S (length (elements t))) (elements t) from to) as (f & l & E1 & ? & ? & Ef & El & H).
  { unfold outside_range. pose proof (length_filter (λ e, ¬ within from to e) (elements t)). lia. }
  assert (Hedge : ∀ p, edge (elements t) p → boundary p (text t)).
  { intros p (e & He & Hp). by destruct (edge_legal t e p Hok He Hp). }
  exists f, l. split_and!; [done|lia|lia| | |]; [destruct Ef as [->|]; auto|destruct El as [->|]; auto|].
  intros e He. destruct (decide (touches f l e)) as [?|Hn]; [right; right; auto|]. unfold touches in Hn.
  destruct (decide (stop e ≤ f)); [by left|]. destruct (decide (l ≤ start e)); [by auto|]. lia.
Qed.

(** ** Edits *)

(** The same element, with the same text, at another place. *)
Definition moved (s s' : str) (e e' : TextElement) : Prop :=
  id e' = id e ∧ name e' = name e ∧ get_range (start e') (stop e') s' = get_range (start e) (stop e) s.

(** The move of an element that the edit leaves out. *)
Lemma shift_left at_ removed inserted e : stop e ≤ at_ → shift_element at_ removed inserted e = e.
Proof. intros H. unfold shift_element. by rewrite (proj2 (N.leb_le _ _) H). Qed.
Lemma shift_right at_ removed inserted e : at_ + removed ≤ start e → start e < stop e →
  shift_element at_ removed inserted e =
    {| id := id e; start := start e + inserted - removed; stop := stop e + inserted - removed; name := name e |}.
Proof. intros H1 H2. unfold shift_element. destruct (N.leb_spec (stop e) at_); [lia|]. by destruct (N.leb_spec (at_ + removed) (start e)); [|lia]. Qed.

Section edit.
Context (a m b n : str).
Let s := a ++ m ++ b.
Let s' := a ++ n ++ b.
Let shift := shift_element (str_len a) (str_len m) (str_len n).

Lemma shift_moved e : element_ok s e → stop e ≤ str_len a ∨ str_len (a ++ m) ≤ start e →
  element_ok s' (shift e) ∧ moved s s' e (shift e).
Proof.
  unfold element_ok, moved. intros (Hlt & Hb & He) [Hl|Hr].
  - unfold shift. rewrite shift_left by done. unfold s, s' in *. rewrite !(boundary_app_l a) in * by lia.
    rewrite !(get_range_l a) by (rewrite ?boundary_app_l by lia; done || lia). done.
  - unfold shift. rewrite shift_right by (rewrite ?str_len_app in Hr; lia). cbn.
    assert (Es : s = (a ++ m) ++ b) by (unfold s; by rewrite <- app_assoc). assert (Es' : s' = (a ++ n) ++ b) by (unfold s'; by rewrite <- app_assoc).
    rewrite Es in Hb, He |- *. rewrite Es'.
    apply boundary_above in Hb as (p & Ep & Hp); [|lia]. apply boundary_above in He as (q & Eq & Hq); [|lia].
    rewrite Ep, Eq in *. rewrite !str_len_app in *.
    replace (str_len a + str_len m + p + str_len n - str_len m) with (str_len (a ++ n) + p) by (rewrite str_len_app; lia).
    replace (str_len a + str_len m + q + str_len n - str_len m) with (str_len (a ++ n) + q) by (rewrite str_len_app; lia).
    rewrite !boundary_app_r. split_and!; [lia|done|done|done|done|].
    rewrite <- (str_len_app a m). by rewrite !get_range_r by (done || lia).
Qed.
(** The elements that the edit does not remove. *)
Definition kept (es : list TextElement) : list TextElement := filter (λ e, ¬ within (str_len a) (str_len a + str_len m) e) es.
Lemma shift_elements_kept es : shift_elements (str_len a) (str_len m) (str_len n) es = shift <$> kept es.
Proof. done. Qed.
Lemma kept_beside es e : uncut (str_len a) (str_len (a ++ m)) es → e ∈ kept es → e ∈ es ∧ (stop e ≤ str_len a ∨ str_len (a ++ m) ≤ start e).
Proof.
  intros Hu [Hn He]%list_elem_of_filter. split; [done|]. destruct (Hu e He) as [?|[?|Hw]]; [auto..|].
  rewrite str_len_app in Hw. done.
Qed.
Lemma shift_sorted es : Forall (λ e, start e < stop e ∧ (stop e ≤ str_len a ∨ str_len (a ++ m) ≤ start e)) es →
  StronglySorted (λ e f, stop e ≤ start f) es → StronglySorted (λ e f, stop e ≤ start f) (shift <$> es).
Proof.
  intros Hb. induction 1 as [|e es Hs IH He]; cbn; [constructor|]. apply Forall_cons in Hb as [[Hlt Hside] Hb].
  constructor; [by apply IH|]. rewrite Forall_fmap. rewrite !Forall_forall in *. intros f Hf.
  destruct (Hb f Hf) as [Hlt' Hside']. specialize (He f Hf). cbn. rewrite str_len_app in *. unfold shift.
  destruct Hside as [?|?], Hside' as [?|?]; rewrite ?shift_left, ?shift_right by done; cbn; lia.
Qed.
Lemma edited_elements es : elements_ok s es → uncut (str_len a) (str_len (a ++ m)) es →
  elements_ok s' (shift_elements (str_len a) (str_len m) (str_len n) es) ∧
  ∀ e', e' ∈ shift_elements (str_len a) (str_len m) (str_len n) es → ∃ e, e ∈ es ∧ e' = shift e ∧ moved s s' e e'.
Proof.
  intros [Hok Hs] Hu. rewrite shift_elements_kept. rewrite Forall_forall in Hok. split; [split|].
  - rewrite Forall_fmap, Forall_forall. intros e He. destruct (kept_beside es e Hu He) as [Hin Hside]. by apply shift_moved; [apply Hok|].
  - apply shift_sorted.
    + rewrite Forall_forall. intros e He. destruct (kept_beside es e Hu He) as [Hin Hside]. by destruct (Hok e Hin).
    + clear -Hs. unfold kept. induction Hs as [|e es Hs IH He]; [constructor|]. rewrite filter_cons. case_decide; [|done].
      constructor; [done|]. rewrite Forall_forall in *. intros f [_ Hf]%list_elem_of_filter. by apply He.
  - intros e' (e & -> & He)%list_elem_of_fmap. destruct (kept_beside es e Hu He) as [Hin Hside]. exists e.
    split_and!; [done|done|]. by apply shift_moved; [apply Hok|].
Qed.
(** Where the cursor goes: to the end of the new text when it was in the range. *)
Definition moved_cursor (p : N) : N :=
  if p <? str_len a then p else if p <=? str_len (a ++ m) then str_len a + str_len n else p + str_len n - str_len m.
Lemma moved_cursor_boundary p : boundary p s → boundary (moved_cursor p) s'.
Proof.
  intros Hp. unfold moved_cursor, s, s' in *. destruct (N.ltb_spec p (str_len a)).
  { rewrite boundary_app_l in * by lia. done. }
  destruct (N.leb_spec p (str_len (a ++ m))).
  { rewrite app_assoc, <- str_len_app. apply boundary_app. }
  rewrite app_assoc in Hp |- *. apply boundary_above in Hp as (q & -> & Hq); [|lia]. rewrite str_len_app.
  replace (str_len a + str_len m + q + str_len n - str_len m) with (str_len (a ++ n) + q) by (rewrite str_len_app; lia). by apply boundary_app_r.
Qed.
Lemma moved_cursor_outside es p : elements_ok s es → uncut (str_len a) (str_len (a ++ m)) es →
  (∀ e, e ∈ es → inside p e = false) → ∀ e', e' ∈ shift_elements (str_len a) (str_len m) (str_len n) es → inside (moved_cursor p) e' = false.
Proof.
  intros Hok Hu Hp e' He'. rewrite shift_elements_kept in He'. apply list_elem_of_fmap in He' as (e & -> & He).
  destruct (kept_beside es e Hu He) as [Hin Hside]. specialize (Hp e Hin). destruct (element_bounds _ _ e Hok Hin) as (Hlt & _).
  unfold moved_cursor. rewrite str_len_app in *. unfold shift. rewrite inside_false in Hp |- *.
  destruct Hside as [?|?]; rewrite ?shift_left, ?shift_right by lia; cbn;
    destruct (N.ltb_spec p (str_len a)), (N.leb_spec p (str_len a + str_len m)); lia.
Qed.
End edit.

Section keeping.
Context {U : Unicode}.

(** What every edit of the user keeps: the text area stays well formed, the cursor
    outside the elements if it was, and the elements it has are elements it had,
    with the same text. *)
Definition keeps (t t' : TextArea) : Prop :=
  wf t' ∧ (cursor_outside t → cursor_outside t') ∧ ∀ e', e' ∈ elements t' → ∃ e, e ∈ elements t ∧ moved (text t) (text t') e e'.
Definition safe (t : TextArea) (r : result TextArea) : Prop := ∃ t', r = Ok t' ∧ keeps t t'.

Lemma moved_refl s e : moved s s e e.
Proof. done. Qed.
Lemma keeps_same t t' : wf t → text t' = text t → elements t' = elements t → wrap_cache t' = wrap_cache t → legal t (cursor_pos t') → keeps t t'.
Proof.
  intros [Hok Hc Hw] Et Ee Ew [Hb Hl]. split; [split|split].
  - by rewrite Et, Ee.
  - by rewrite Et.
  - by rewrite Ew, Et.
  - intros _. unfold cursor_outside. by rewrite Ee.
  - rewrite Ee, Et. intros e He. exists e. split; [done|apply moved_refl].
Qed.
Lemma keeps_cursor t p c : wf t → legal t p → keeps t (with_col c (with_cursor p t)).
Proof. intros H Hl. by apply keeps_same. Qed.
Lemma keeps_refl t : wf t → keeps t t.
Proof. intros H. split; [done|]. split; [done|]. intros e He. by exists e. Qed.
Lemma keeps_trans t t' t'' : keeps t t' → keeps t' t'' → keeps t t''.
Proof.
  intros (_ & Ho & H) (Hw & Ho' & H'). split; [done|]. split; [auto|]. intros e'' He''. destruct (H' e'' He'') as (e' & He' & Hi & Hn & Hp).
  destruct (H e' He') as (e & He & Hi' & Hn' & Hp'). exists e. split; [done|]. unfold moved. split_and!; congruence.
Qed.
Lemma set_cursor_keeps t p : wf t → keeps t (set_cursor t p).
Proof. intros H. apply keeps_cursor; [done|]. apply clamp_nearest_legal, H. Qed.

(** Replacing a range that cuts no element. *)
Lemma replace_raw_spec t a m b n : text t = a ++ m ++ b → elements_ok (text t) (elements t) → wf t →
  uncut (str_len a) (str_len (a ++ m)) (elements t) →
  ∃ t', replace_range_raw t (str_len a) (str_len (a ++ m)) n = Ok t' ∧ text t' = a ++ n ++ b ∧ keeps t t' ∧
    kill_buffer t' = kill_buffer t ∧
    (cursor_outside t ∨ str_len a ≤ cursor_pos t ∧ cursor_pos t ≤ str_len (a ++ m) → cursor_pos t' = moved_cursor a m n (cursor_pos t)) ∧
    ∀ e', e' ∈ elements t' → stop e' ≤ str_len a ∨ str_len a + str_len n ≤ start e'.
Proof.
  intros Et Hok Hwf Hu. unfold replace_range_raw. assert (Hle : str_len (a ++ m) ≤ text_len t).
  { unfold text_len. rewrite Et, !str_len_app. lia. }
  rewrite (proj2 (N.leb_le (str_len a) (str_len (a ++ m)))) by (rewrite str_len_app; lia). cbn [negb].
  rewrite !N.min_l by (rewrite ?str_len_app in *; lia).
  replace (str_len (a ++ m) - str_len a) with (str_len m) by (rewrite str_len_app; lia).
  destruct ((str_len m =? 0) && (str_len n =? 0)) eqn:E0.
  { apply andb_true_iff in E0 as [Em%N.eqb_eq En%N.eqb_eq]. apply str_len_nil in Em as ->, En as ->.
    exists t. split_and!; [done|done|by apply keeps_refl|done| |].
    - intros _. unfold moved_cursor. rewrite app_nil_r. cbn. destruct (N.ltb_spec (cursor_pos t) (str_len a)), (N.leb_spec (cursor_pos t) (str_len a)); lia.
    - intros e He. pose proof (Hu e He) as Hs. rewrite app_nil_r in Hs. unfold within in Hs.
      destruct (element_bounds _ _ e Hok He) as [? _]. cbn. lia. }
  rewrite Et, replace_text_app. cbn [mbind outcome_bind]. eexists. split; [reflexivity|].
  rewrite Et in Hok. destruct (edited_elements a m b n (elements t) Hok Hu) as [Hok' Hm].
  pose proof (wf_cursor t Hwf) as Hb. rewrite Et in Hb. pose proof (moved_cursor_boundary a m b n _ Hb) as Hcb.
  assert (Hbeside : ∀ e', e' ∈ shift_elements (str_len a) (str_len m) (str_len n) (elements t) → stop e' ≤ str_len a ∨ str_len a + str_len n ≤ start e').
  { intros e' He'. rewrite shift_elements_kept in He'. apply list_elem_of_fmap in He' as (e & -> & He).
    destruct (kept_beside a m (elements t) e Hu He) as [Hin Hside]. destruct (element_bounds _ _ e Hok Hin) as (Hlt & _). rewrite str_len_app in Hside.
    destruct Hside as [?|?]; [rewrite shift_left by lia; by left|rewrite shift_right by lia; right; cbn; lia]. }
  assert (Ec : N.min (if cursor_pos t <? str_len a then cursor_pos t else if cursor_pos t <=? str_len (a ++ m) then str_len a + str_len n
      else cursor_pos t + str_len n - str_len m) (str_len (a ++ n ++ b)) = moved_cursor a m n (cursor_pos t)).
  { apply N.min_l. by apply boundary_le in Hcb. }
  rewrite Ec. set (t1 := with_elements _ _ (with_text _ t)).
  assert (Hl : legal t1 (clamp_pos_to_nearest_boundary t1 (moved_cursor a m n (cursor_pos t)))) by by apply clamp_nearest_legal.
  split_and!; [done| |done| |exact Hbeside].
  - destruct Hl as [Hlb Hli]. split; [split|split]; [exact Hok'|exact Hlb|done|intros _; exact Hli|]. intros e' He'. cbn in He'. destruct (Hm e' He') as (e & He & _ & H). exists e. rewrite Et. done.
  - intros Hc. change (clamp_pos_for_insertion t1 (moved_cursor a m n (cursor_pos t)) = moved_cursor a m n (cursor_pos t)).
    apply clamp_insertion_id. split; [done|]. destruct Hc as [Hc|Hc]; [by apply (moved_cursor_outside a m b n _ _ Hok Hu)|].
    intros e' He'. apply inside_false. destruct (Hbeside e' He'); unfold moved_cursor; destruct (N.ltb_spec (cursor_pos t) (str_len a)), (N.leb_spec (cursor_pos t) (str_len (a ++ m))); lia.
Qed.
Lemma replace_range_spec t p q n : wf t → boundary p (text t) → boundary q (text t) → p ≤ q → safe t (replace_range t p q n).
Proof.
  intros Hwf Hp Hq Hle. unfold replace_range.
  destruct (expand_spec (E := Empty_set) t p q (wf_elements t Hwf) Hp Hq Hle) as (f & l & -> & ? & ? & Hf & Hl & Hu). cbn [mbind outcome_bind].
  destruct (boundaries_cut f l (text t) Hf Hl ltac:(lia)) as (a & m & b & Et & -> & ->).
  destruct (replace_raw_spec t a m b n Et (wf_elements t Hwf) Hwf Hu) as (t' & -> & _ & Hk & _). by exists t'.
Qed.
Lemma insert_at_spec t p n : wf t → ∃ a b t', text t = a ++ b ∧ str_len a = clamp_pos_for_insertion t p ∧
  insert_str_at t p n = Ok t' ∧ text t' = a ++ n ++ b ∧ keeps t t' ∧ kill_buffer t' = kill_buffer t ∧
  cursor_pos t' = (if str_len a <=? cursor_pos t then cursor_pos t + str_len n else cursor_pos t) ∧
  elements t' = shift_elements (str_len a) 0 (str_len n) (elements t) ∧ next_element_id t' = next_element_id t.
Proof.
  intros Hwf. destruct (clamp_insertion_legal t p (wf_elements t Hwf)) as [(a & b & Et & Ep) Hi]. exists a, b.
  unfold insert_str_at. rewrite Ep, Et, insert_str_at_app. cbn [mbind outcome_bind]. eexists. split; [done|]. split; [done|].
  split; [reflexivity|]. split; [done|]. split; [|by rewrite ?Et].
  assert (Hu : uncut (str_len a) (str_len (a ++ [])) (elements t)).
  { intros e He. rewrite app_nil_r. rewrite Ep in Hi. specialize (Hi e He). apply inside_false in Hi. tauto. }
  pose proof (wf_elements t Hwf) as Hok. rewrite Et in Hok. destruct (edited_elements a [] b n (elements t) Hok Hu) as [Hok' Hm].
  assert (Ecur : moved_cursor a [] n (cursor_pos t) = if str_len a <=? cursor_pos t then cursor_pos t + str_len n else cursor_pos t).
  { unfold moved_cursor. rewrite app_nil_r. cbn.
    destruct (N.ltb_spec (cursor_pos t) (str_len a)), (N.leb_spec (cursor_pos t) (str_len a)), (N.leb_spec (str_len a) (cursor_pos t)); lia. }
  split; [split|split].
  - exact Hok'.
  - cbn. pose proof (wf_cursor t Hwf) as Hb. rewrite Et in Hb. rewrite <- Ecur. by apply (moved_cursor_boundary a [] b n).
  - done.
  - unfold cursor_outside. cbn. rewrite <- Ecur. exact (moved_cursor_outside a [] b n (elements t) _ Hok Hu).
  - intros e' He'. destruct (Hm e' He') as (e & He & _ & H). exists e. rewrite Et. done.
Qed.
Lemma insert_str_safe t n : wf t → safe t (insert_str t n).
Proof. intros H. destruct (insert_at_spec t (cursor_pos t) n H) as (a & b & t' & _ & _ & E & _ & Hk & _). by exists t'. Qed.

(** Killing removes the range and the elements it meets, which the yank gives back. *)
Lemma with_kill_wf t k : wf t → wf (with_kill k t).
Proof. by intros [? ? ?]. Qed.
Lemma kill_range_spec t p q : wf t → boundary p (text t) → boundary q (text t) → p ≤ q →
  ∃ t', kill_range t p q = Ok t' ∧ keeps t t' ∧
    (t' = t ∨ ∃ a m b, text t = a ++ m ++ b ∧ text t' = a ++ b ∧ kill_buffer t' = m ∧ str_len a ≤ p ∧ q ≤ str_len (a ++ m) ∧ m ≠ [] ∧
      (p ≤ cursor_pos t → cursor_pos t ≤ q → cursor_pos t' = str_len a ∧ cursor_outside t')).
Proof.
  intros Hwf Hp Hq Hle. unfold kill_range.
  destruct (expand_spec (E := Empty_set) t p q (wf_elements t Hwf) Hp Hq Hle) as (f & l & -> & ? & ? & Hf & Hl & Hu). cbn [mbind outcome_bind].
  destruct (N.leb_spec l f); [exists t; split_and!; [done|by apply keeps_refl|by left]|].
  destruct (boundaries_cut f l (text t) Hf Hl ltac:(lia)) as (a & m & b & Et & -> & ->).
  rewrite Et, slice_range_app. cbn [mbind outcome_bind].
  destruct m as [|c m0] eqn:Em; [exists t; split_and!; [done|by apply keeps_refl|by left]|]. rewrite <- Em in *.
  destruct (replace_raw_spec (with_kill m t) a m b [] Et (wf_elements t Hwf) (with_kill_wf t m Hwf) Hu) as (t' & E & Et' & Hk & Hkill & Hc & Hbeside).
  exists t'. split_and!; [done|done|]. right. exists a, m, b. split_and!; [done|done|done|lia|lia|by rewrite Em|].
  intros Hpc Hcq. assert (Ec : cursor_pos t' = str_len a).
  { rewrite Hc by (right; cbn; lia). unfold moved_cursor. cbn. destruct (N.ltb_spec (cursor_pos t) (str_len a)), (N.leb_spec (cursor_pos t) (str_len (a ++ m))); lia. }
  split; [done|]. intros e He. apply inside_false. rewrite Ec. specialize (Hbeside e He). cbn in Hbeside. lia.
Qed.
Lemma kill_range_safe t p q : wf t → boundary p (text t) → boundary q (text t) → p ≤ q → safe t (kill_range t p q).
Proof. intros H Hp Hq Hle. destruct (kill_range_spec t p q H Hp Hq Hle) as (t' & E & Hk & _). by exists t'. Qed.
End keeping.

(** ** Lines *)

Lemma beginning_of_line_spec t p : boundary p (text t) → ∃ q, beginning_of_line t p = Ok q ∧ q ≤ p ∧ boundary q (text t) ∧ boundary (q - 1) (text t).
Proof.
  intros (a & b & Et & ->). unfold beginning_of_line. rewrite Et, slice_to_app. cbn [mbind outcome_bind]. eexists. split; [reflexivity|].
  destruct (rfind_if _ a) as [i|] eqn:E.
  - apply rfind_if_boundary in E as (x & c & y & -> & -> & <-%N.eqb_eq). rewrite str_len_app. cbn. split; [lia|]. rewrite <- app_assoc. split.
    + exact (boundary_next x nl (y ++ b)).
    + replace (str_len x + 1 - 1) with (str_len x) by lia. apply boundary_app.
  - split; [lia|]. split; apply boundary_0.
Qed.
Lemma end_of_line_spec t p : boundary p (text t) → ∃ q, end_of_line t p = Ok q ∧ p ≤ q ∧ boundary q (text t) ∧
  (q = text_len t ∨ q + 1 ≤ text_len t ∧ boundary (q + 1) (text t)).
Proof.
  intros (a & b & Et & ->). unfold end_of_line, text_len. rewrite Et, slice_from_app. cbn [mbind outcome_bind]. eexists. split; [reflexivity|].
  destruct (find_if _ b) as [i|] eqn:E.
  - apply find_if_boundary in E as (x & c & y & -> & -> & <-%N.eqb_eq). split; [lia|]. rewrite app_assoc.
    replace (str_len x + str_len a) with (str_len (a ++ x)) by (rewrite str_len_app; lia). split; [apply boundary_app|]. right. split.
    + rewrite !str_len_app. cbn. change (len_utf8 nl) with 1. lia.
    + exact (boundary_next (a ++ x) nl y).
  - split; [rewrite str_len_app; lia|]. split; [apply boundary_end|by left].
Qed.

(** ** Wrapped lines *)

Definition line_ok (s : str) (r : N * N) : Prop := boundary r.1 s ∧ boundary (r.2 - 1) s ∧ r.1 ≤ r.2 - 1.
Lemma count_spaces_split s : ∃ a b, s = a ++ b ∧ count_spaces s = str_len a.
Proof.
  induction s as [|c s IH]; [by exists [], []|]. cbn [count_spaces]. destruct (N.eqb_spec c 32) as [->|]; [|by exists [], (c :: s)].
  destruct IH as (a & b & -> & E). exists (32 :: a), b. split; [done|]. cbn. rewrite E. done.
Qed.
Section lines.
Context {U : Unicode} {L : UnicodeLaws U}.
Lemma wrap_ranges_loop_spec s ls i cursor :
  Forall (λ l, ∃ a b, l = Borrowed a b ∧ a ≤ b ∧ boundary a s ∧ boundary b s) ls →
  StronglySorted (λ l l', ∀ a b a' b', l = Borrowed a b → l' = Borrowed a' b' → a ≤ a') ls →
  ∃ rs, wrap_ranges_loop s [] [] i cursor ls = Ok rs ∧ Forall (line_ok s) rs ∧ StronglySorted (λ r r' : N * N, r.1 ≤ r'.1) rs ∧
    Forall2 (λ l (r : N * N), ∃ b, l = Borrowed r.1 b) ls rs.
Proof.
  intros Hb Hs. revert i cursor. induction Hs as [|l ls Hs IH Hl]; intros i cursor.
  { exists []. split_and!; [done|constructor..]. }
  apply Forall_cons in Hb as [(a & b & -> & Hab & Ha & Hb') Hb]. cbn [wrap_ranges_loop mbind outcome_bind].
  destruct Hb' as (x & y & -> & ->). rewrite slice_from_app. cbn [mbind outcome_bind].
  destruct (count_spaces_split y) as (sp & y' & -> & ->).
  destruct (IH Hb (S i) (str_len x + str_len sp)) as (rs & -> & Hok & Hsort & H2). cbn [mbind outcome_bind].
  eexists. split; [reflexivity|]. split_and!.
  - constructor; [|done]. unfold line_ok. cbn. replace (str_len x + str_len sp + 1 - 1) with (str_len (x ++ sp)) by (rewrite str_len_app; lia).
    split_and!; [done| |rewrite str_len_app; lia]. rewrite app_assoc. apply boundary_app.
  - constructor; [done|]. clear -Hl H2. induction H2 as [|l r ls rs (b' & ->) H2 IH]; [constructor|]. apply Forall_cons in Hl as [Hl Hls].
    constructor; [|by apply IH]. by eapply Hl.
  - constructor; [by eexists|done].
Qed.
Lemma wrap_ranges_spec s w : ∃ rs, wrap_ranges s w = Ok rs ∧ Forall (line_ok s) rs ∧ StronglySorted (λ r r' : N * N, r.1 ≤ r'.1) rs.
Proof.
  destruct (wrap_ranges_loop_spec s (wrap w s) 0 0 (wrap_slices w s) (wrap_ordered w s)) as (rs & E & H1 & H2 & _). by exists rs.
Qed.
Lemma filter_starts (ls : list (N * N)) pos : StronglySorted (λ r r' : N * N, r.1 ≤ r'.1) ls →
  ∃ rest, ls = filter (λ r, r.1 ≤ pos) ls ++ rest ∧ Forall (λ r, pos < r.1) rest.
Proof.
  induction 1 as [|r ls Hs (rest & E & Hr) Hl]; [by exists []|]. rewrite filter_cons. case_decide.
  - exists rest. split; [cbn; by f_equal|done].
  - exists (r :: ls). rewrite Forall_forall in Hl. rewrite filter_false; [|intros x Hx; specialize (Hl x Hx); lia].
    split; [done|]. rewrite Forall_forall. intros x [->|Hx]%elem_of_cons; [lia|]. specialize (Hl x Hx). lia.
Qed.
Lemma line_index_spec (ls : list (N * N)) pos i : StronglySorted (λ r r' : N * N, r.1 ≤ r'.1) ls →
  wrapped_line_index_by_start ls pos = Some i → ∃ r, ls !! i = Some r ∧ r.1 ≤ pos.
Proof.
  intros Hs. unfold wrapped_line_index_by_start. destruct (filter_starts ls pos Hs) as (rest & E & _).
  destruct (length _) as [|j] eqn:El; [done|]. intros [= ->].
  destruct (lookup_lt_is_Some_2 (filter (λ r, r.1 ≤ pos) ls) i ltac:(lia)) as [r Hr]. exists r. split.
  - rewrite E. by apply lookup_app_l_Some.
  - by apply list_elem_of_lookup_2, list_elem_of_filter in Hr as [? _].
Qed.

Lemma visual_line_spec t step : wf t → ∃ r, visual_line t step = Ok r ∧
  match r with Some (_, Some (a, b)) => boundary a (text t) ∧ boundary b (text t) ∧ a ≤ b | _ => True end.
Proof.
  intros Hwf. unfold visual_line. destruct (wrap_cache t) as [c|] eqn:Ec; [|by exists None].
  apply (wf_cache t Hwf) in Ec. destruct (wrap_ranges_spec (text t) (width c)) as (rs & E & Hok & Hs). rewrite E in Ec. injection Ec as <-.
  destruct (wrapped_line_index_by_start rs _) as [idx|] eqn:Ei; [|by exists None].
  destruct (line_index_spec rs _ idx Hs Ei) as (cur & Hcur & Hle). rewrite Hcur. cbn [mbind outcome_bind].
  rewrite Forall_forall in Hok. destruct (Hok cur (list_elem_of_lookup_2 _ _ _ Hcur)) as (Hb & _).
  assert (Hcol : ∃ col, (match preferred_col t with
      | Some c => Ok c | None => s ← slice_range cur.1 (cursor_pos t) (text t); Ok (text_width s) end : result N) = Ok col).
  { destruct (preferred_col t) as [?|]; [by eexists|]. pose proof (wf_cursor t Hwf) as Hc.
    destruct (slice_range_total (E := Empty_set) cur.1 (cursor_pos t) (text t) Hb Hc Hle) as [m ->]. by eexists. }
  destruct Hcol as [col Hcol]. rewrite Hcol. cbn [mbind outcome_bind]. destruct (step idx ≫= λ i, rs !! i) as [r|] eqn:Er; [|by eexists].
  eexists. split; [reflexivity|]. apply bind_Some in Er as (i & _ & Hr). apply (Hok r), (list_elem_of_lookup_2 _ _ _ Hr).
Qed.

(** ** Movement *)

Lemma move_to_col_safe t c a b col : wf t → boundary a (text t) → boundary b (text t) → a ≤ b →
  safe t (move_to_display_col_on_line (with_col c t) a b col).
Proof.
  intros Hwf Ha Hb Hle. unfold move_to_display_col_on_line. cbn [text with_col].
  destruct (slice_range_total (E := Empty_set) a b (text t) Ha Hb Hle) as [m ->]. cbn [mbind outcome_bind]. eexists. split; [reflexivity|].
  set (p := match col_offset _ _ _ _ with Some i => _ | None => _ end).
  apply (keeps_same t); [done..|]. exact (clamp_nearest_legal (with_col c t) p (wf_elements t Hwf)).
Qed.
Lemma keep_col_eq t col : ∃ c, keep_col t col = with_col c t.
Proof. unfold keep_col. destruct (preferred_col t) eqn:E; [|by eexists]. exists (preferred_col t). by destruct t. Qed.
Lemma target_col_total t : wf t → ∃ col, target_col t = Ok col.
Proof.
  intros Hwf. unfold target_col, current_display_col, beginning_of_current_line. destruct (preferred_col t); [by eexists|].
  pose proof (wf_cursor t Hwf) as Hc. destruct (beginning_of_line_spec t _ Hc) as (q & -> & Hle & Hq & _). cbn [mbind outcome_bind].
  destruct (slice_range_total (E := Empty_set) q (cursor_pos t) (text t) Hq Hc Hle) as [m ->]. by eexists.
Qed.
Lemma to_start_safe t : wf t → safe t (Ok (with_col None (with_cursor 0 t))).
Proof. intros H. eexists. split; [reflexivity|]. apply keeps_cursor; [done|apply legal_0]. Qed.
Lemma to_end_safe t c : wf t → safe t (Ok (with_col None (with_cursor (text_len t) (with_col c t)))).
Proof. intros H. eexists. split; [reflexivity|]. apply (keeps_same t); [done..|]. apply legal_len, H. Qed.
Lemma move_cursor_up_safe t : wf t → safe t (move_cursor_up t).
Proof.
  intros Hwf. unfold move_cursor_up. destruct (visual_line_spec t (λ idx, match idx with O => None | S i => Some i end) Hwf) as (r & -> & Hr).
  cbn [mbind outcome_bind]. destruct r as [[col [[a b]|]]|].
  - destruct Hr as (Ha & Hb & Hle). destruct (keep_col_eq t col) as [c ->]. by apply move_to_col_safe.
  - by apply to_start_safe.
  - destruct (wf_cursor t Hwf) as (a & b & Et & Ec). rewrite Et, Ec, slice_to_app. cbn [mbind outcome_bind].
    destruct (rfind_if _ a) as [i|] eqn:E; [|by apply to_start_safe].
    apply rfind_if_boundary in E as (x & c & y & -> & -> & _). assert (Hx : boundary (str_len x) (text t)) by (rewrite Et, <- app_assoc; apply boundary_app).
    destruct (target_col_total t Hwf) as [col ->]. cbn [mbind outcome_bind].
    destruct (beginning_of_line_spec t _ Hx) as (q & -> & Hle & Hq & _). cbn [mbind outcome_bind].
    destruct (keep_col_eq t col) as [c' ->]. by apply move_to_col_safe.
Qed.
Lemma move_cursor_down_safe t : wf t → safe t (move_cursor_down t).
Proof.
  intros Hwf. unfold move_cursor_down. destruct (visual_line_spec t (λ idx, Some (S idx)) Hwf) as (r & -> & Hr).
  cbn [mbind outcome_bind]. destruct r as [[col [[a b]|]]|].
  - destruct Hr as (Ha & Hb & Hle). destruct (keep_col_eq t col) as [c ->]. by apply move_to_col_safe.
  - exact (to_end_safe t (preferred_col t) Hwf).
  - destruct (target_col_total t Hwf) as [col ->]. cbn [mbind outcome_bind]. destruct (keep_col_eq t col) as [c' ->].
    destruct (wf_cursor t Hwf) as (a & b & Et & Ec). cbn [text cursor_pos with_col]. rewrite Et, Ec, slice_from_app. cbn [mbind outcome_bind].
    destruct (find_if _ b) as [i|] eqn:E; [|exact (to_end_safe t c' Hwf)].
    apply find_if_boundary in E as (x & c & y & -> & -> & <-%N.eqb_eq).
    assert (Hx : boundary (str_len x + str_len a + 1) (text t)).
    { rewrite Et, app_assoc. replace (str_len x + str_len a + 1) with (str_len (a ++ x) + len_utf8 nl) by (rewrite str_len_app; change (len_utf8 nl) with 1; lia).
      apply boundary_next. }
    destruct (end_of_line_spec (with_col c' t) _ Hx) as (q & Eq & Hle & Hq & _). rewrite Eq. cbn [mbind outcome_bind]. by apply move_to_col_safe.
Qed.
Lemma set_cursor_safe t p : wf t → safe t (Ok (set_cursor t p)).
Proof. intros H. eexists. split; [reflexivity|]. by apply set_cursor_keeps. Qed.
Lemma move_to_bol_safe t b : wf t → safe t (move_cursor_to_beginning_of_line t b).
Proof.
  intros Hwf. unfold move_cursor_to_beginning_of_line, beginning_of_current_line. pose proof (wf_cursor t Hwf) as Hc.
  destruct (beginning_of_line_spec t _ Hc) as (q & -> & Hle & Hq & Hq'). cbn [mbind outcome_bind].
  destruct b; cbn [andb]; [|by apply set_cursor_safe]. destruct (N.eqb_spec (cursor_pos t) q) as [->|]; [|by apply set_cursor_safe].
  destruct (beginning_of_line_spec t _ Hq') as (q' & -> & _). by apply set_cursor_safe.
Qed.
Lemma move_to_eol_safe t b : wf t → safe t (move_cursor_to_end_of_line t b).
Proof.
  intros Hwf. unfold move_cursor_to_end_of_line, end_of_current_line. pose proof (wf_cursor t Hwf) as Hc.
  destruct (end_of_line_spec t _ Hc) as (q & -> & Hle & Hq & Hq'). cbn [mbind outcome_bind].
  destruct b; cbn [andb]; [|by apply set_cursor_safe]. destruct (N.eqb_spec (cursor_pos t) q) as [->|]; [|by apply set_cursor_safe].
  assert (Hn : boundary (N.min (q + 1) (text_len t)) (text t)).
  { destruct Hq' as [->|[? ?]]; [|by rewrite N.min_l]. rewrite N.min_r by lia. apply boundary_end. }
  destruct (end_of_line_spec t _ Hn) as (q' & -> & _). by apply set_cursor_safe.
Qed.

(** ** Clusters and words *)

Lemma find_elements (f : TextElement → bool) (es : list TextElement) e : List.find f es = Some e → e ∈ es ∧ f e = true.
Proof. intros [Hin ?]%find_some. by rewrite list_elem_of_In. Qed.
Lemma prev_atomic_spec t p : elements_ok (text t) (elements t) → boundary p (text t) →
  legal t (prev_atomic_boundary t p) ∧ prev_atomic_boundary t p ≤ p.
Proof.
  intros Hok Hp. unfold prev_atomic_boundary. destruct (N.eqb_spec p 0) as [->|]; [split; [apply legal_0|lia]|].
  destruct (List.find _ _) as [e|] eqn:E.
  - apply find_elements in E as [He E]. apply andb_true_iff in E as [?%N.ltb_lt _]. split; [eapply edge_legal; eauto|lia].
  - destruct (prev_boundary (text t) p) as [[]|[b|]] eqn:Eb; pose proof (prev_boundary_law _ _ _ Hp Eb) as Hb; cbn in Hb; [done| |done].
    destruct Hb as [Hb Hlt]. pose proof (find_containing t b) as Hf. destruct (find_element_containing t b) as [e|].
    + destruct Hf as (He & ? & ?). split; [eapply edge_legal; eauto|lia].
    + split; [done|lia].
Qed.
Lemma next_atomic_spec t p : elements_ok (text t) (elements t) → boundary p (text t) →
  legal t (next_atomic_boundary t p) ∧ p ≤ next_atomic_boundary t p.
Proof.
  intros Hok Hp. pose proof (boundary_le _ _ Hp) as Hle. unfold next_atomic_boundary. destruct (N.leb_spec (text_len t) p) as [|Hlt0].
  { split; [by apply legal_len|done]. }
  destruct (List.find _ _) as [e|] eqn:E.
  - apply find_elements in E as [He E]. apply andb_true_iff in E as [_ ?%N.ltb_lt]. split; [eapply edge_legal; eauto|lia].
  - destruct (next_boundary (text t) p) as [[]|[b|]] eqn:Eb; pose proof (next_boundary_law _ _ _ Hp Eb) as Hb; cbn in Hb; [done| |].
    + destruct Hb as [Hb Hlt]. pose proof (find_containing t b) as Hf. destruct (find_element_containing t b) as [e|].
      * destruct Hf as (He & ? & ?). split; [eapply edge_legal; eauto|lia].
      * split; [done|lia].
    + unfold text_len in *. lia.
Qed.
Lemma boundaries_back_spec t n p : elements_ok (text t) (elements t) → boundary p (text t) →
  boundary (boundaries_back t n p) (text t) ∧ boundaries_back t n p ≤ p.
Proof.
  intros Hok. revert p. induction n as [|n IH]; intros p Hp; cbn [boundaries_back]; [done|].
  destruct (prev_atomic_spec t p Hok Hp) as [[Hb _] Hle]. destruct (_ =? 0); [done|]. destruct (IH _ Hb). split; [done|lia].
Qed.
Lemma boundaries_on_spec t n p : elements_ok (text t) (elements t) → boundary p (text t) →
  boundary (boundaries_on t n p) (text t) ∧ p ≤ boundaries_on t n p.
Proof.
  intros Hok. revert p. induction n as [|n IH]; intros p Hp; cbn [boundaries_on]; [done|].
  destruct (next_atomic_spec t p Hok Hp) as [[Hb _] Hle]. destruct (_ <=? _); [done|]. destruct (IH _ Hb). split; [done|lia].
Qed.
Lemma adjust_before t p : adjust_pos_out_of_elements t p true ≤ p.
Proof.
  unfold adjust_pos_out_of_elements. pose proof (find_containing t p) as Hf. destruct (find_element_containing t p); [|lia]. destruct Hf as (_ & ? & _). lia.
Qed.
Lemma adjust_after t p : p ≤ adjust_pos_out_of_elements t p false.
Proof.
  unfold adjust_pos_out_of_elements. pose proof (find_containing t p) as Hf. destruct (find_element_containing t p); [|lia]. destruct Hf as (_ & _ & ?). lia.
Qed.
Lemma word_start_spec s sep l p : Forall (λ ic, boundary ic.1 s ∧ boundary (ic.1 + len_utf8 ic.2) s) l → boundary p s → boundary (word_start sep l p) s.
Proof.
  intros Hl. revert p. induction Hl as [|[i c] l [Hi Hc] _ IH]; intros p Hp; cbn; [done|]. destruct (ends_word _ _); [done|by apply IH].
Qed.
Lemma beginning_of_previous_word_spec t : wf t → ∃ q, beginning_of_previous_word t = Ok q ∧ boundary q (text t) ∧ q ≤ cursor_pos t.
Proof.
  intros Hwf. destruct (wf_cursor t Hwf) as (a & b & Et & Ec). unfold beginning_of_previous_word. rewrite Et, Ec, slice_to_app. cbn [mbind outcome_bind].
  destruct (List.find _ _) as [[first ch]|] eqn:E; [|exists 0; split_and!; [done|apply boundary_0|lia]].
  apply find_some in E as [Hin _]. rewrite <- list_elem_of_In, elem_of_reverse in Hin. apply char_indices_elem in Hin as (x & y & -> & ->).
  rewrite slice_to_app. cbn [mbind outcome_bind]. eexists. split; [reflexivity|].
  assert (Hb : boundary (word_start (is_word_separator ch) (reverse (char_indices x)) (str_len x)) x).
  { apply word_start_spec; [|apply boundary_end]. rewrite Forall_forall. intros [i c] Hin. rewrite elem_of_reverse in Hin.
    apply char_indices_elem in Hin as (x1 & x2 & -> & ->). cbn. split; [apply boundary_app|apply boundary_next]. }
  pose proof (boundary_le _ _ Hb) as Hle. pose proof (adjust_before t (word_start (is_word_separator ch) (reverse (char_indices x)) (str_len x))) as Ha.
  split; [|rewrite str_len_app; lia]. rewrite <- Et. apply adjust_legal; [apply Hwf|]. rewrite Et, <- app_assoc. by apply boundary_app_l.
Qed.
Lemma end_of_next_word_spec t : wf t → ∃ q, end_of_next_word t = Ok q ∧ boundary q (text t).
Proof.
  intros Hwf. destruct (wf_cursor t Hwf) as (a & b & Et & Ec). unfold end_of_next_word. rewrite Et, Ec, slice_from_app. cbn [mbind outcome_bind].
  destruct (find_if _ b) as [i|] eqn:E; [|eexists; split; [reflexivity|]; unfold text_len; rewrite Et; apply boundary_end].
  apply find_if_boundary in E as (x & c & y & -> & -> & _). rewrite app_assoc, <- str_len_app, slice_from_app. cbn [mbind outcome_bind].
  cbn [char_indices char_indices_from]. eexists. split; [reflexivity|].
  replace ((a ++ x) ++ c :: y) with (text t) by (rewrite Et; by rewrite <- app_assoc). apply adjust_legal; [apply Hwf|].
  destruct (List.find _ _) as [[j d]|] eqn:E; [|apply boundary_end].
  apply find_some in E as [Hin _]. rewrite <- list_elem_of_In in Hin. apply char_indices_from_elem in Hin as (y1 & y2 & -> & ->).
  rewrite Et, app_assoc. replace (c :: y1 ++ d :: y2) with ((c :: y1) ++ d :: y2) by done. apply boundary_shift.
  replace (0 + len_utf8 c + str_len y1) with (str_len (c :: y1)) by (cbn; lia). apply boundary_app.
Qed.
Lemma word_left_safe t : wf t → safe t (p ← beginning_of_previous_word t; Ok (set_cursor t p)).
Proof. intros H. destruct (beginning_of_previous_word_spec t H) as (q & -> & _). by apply set_cursor_safe. Qed.
Lemma word_right_safe t : wf t → safe t (p ← end_of_next_word t; Ok (set_cursor t p)).
Proof. intros H. destruct (end_of_next_word_spec t H) as (q & -> & _). by apply set_cursor_safe. Qed.
Lemma move_left_safe t : wf t → safe t (Ok (move_cursor_left t)).
Proof. intros H. eexists. split; [reflexivity|]. apply keeps_cursor; [done|]. apply prev_atomic_spec; apply H. Qed.
Lemma move_right_safe t : wf t → safe t (Ok (move_cursor_right t)).
Proof. intros H. eexists. split; [reflexivity|]. apply keeps_cursor; [done|]. apply next_atomic_spec; apply H. Qed.

(** ** Deleting *)

Lemma unchanged_safe t : wf t → safe t (Ok t).
Proof. intros H. eexists. split; [reflexivity|by apply keeps_refl]. Qed.
Lemma delete_backward_safe t n : wf t → safe t (delete_backward t n).
Proof.
  intros H. unfold delete_backward. destruct (_ || _); [by apply unchanged_safe|]. pose proof (wf_elements t H) as Hok. pose proof (wf_cursor t H) as Hc.
  destruct (boundaries_back_spec t n _ Hok Hc). by apply replace_range_spec.
Qed.
Lemma delete_forward_safe t n : wf t → safe t (delete_forward t n).
Proof.
  intros H. unfold delete_forward. destruct (_ || _); [by apply unchanged_safe|]. pose proof (wf_elements t H) as Hok. pose proof (wf_cursor t H) as Hc.
  destruct (boundaries_on_spec t n _ Hok Hc). by apply replace_range_spec.
Qed.
Lemma delete_backward_word_safe t : wf t → safe t (delete_backward_word t).
Proof.
  intros H. unfold delete_backward_word. destruct (beginning_of_previous_word_spec t H) as (q & -> & Hq & Hle). cbn [mbind outcome_bind].
  apply kill_range_safe; [done..| |done]. apply (wf_cursor t H).
Qed.
Lemma delete_forward_word_safe t : wf t → safe t (delete_forward_word t).
Proof.
  intros H. unfold delete_forward_word. destruct (end_of_next_word_spec t H) as (q & -> & Hq). cbn [mbind outcome_bind].
  destruct (N.ltb_spec (cursor_pos t) q); [|by apply unchanged_safe]. apply kill_range_safe; [done| |done|lia]. apply (wf_cursor t H).
Qed.
Lemma kill_to_eol_safe t : wf t → safe t (kill_to_end_of_line t).
Proof.
  intros H. unfold kill_to_end_of_line, end_of_current_line. pose proof (wf_cursor t H) as Hc.
  destruct (end_of_line_spec t _ Hc) as (q & -> & Hle & Hq & Hn). cbn [mbind outcome_bind].
  destruct (N.eqb_spec (cursor_pos t) q) as [->|]; [|by apply kill_range_safe].
  destruct (N.ltb_spec q (text_len t)); [|by apply unchanged_safe]. destruct Hn as [?|[? ?]]; [lia|]. apply kill_range_safe; [done..|lia].
Qed.
Lemma kill_to_bol_safe t : wf t → safe t (kill_to_beginning_of_line t).
Proof.
  intros H. unfold kill_to_beginning_of_line, beginning_of_current_line. pose proof (wf_cursor t H) as Hc.
  destruct (beginning_of_line_spec t _ Hc) as (q & -> & Hle & Hq & Hn). cbn [mbind outcome_bind].
  destruct (N.eqb_spec (cursor_pos t) q) as [_|]; [|by apply kill_range_safe].
  destruct (N.ltb_spec 0 q); [|by apply unchanged_safe]. apply kill_range_safe; [done..|lia].
Qed.
Lemma yank_safe t : wf t → safe t (yank t).
Proof. intros H. unfold yank. destruct (kill_buffer t); [by apply unchanged_safe|by apply insert_str_safe]. Qed.
End lines.
Create HintDb textarea.
#[export] Hint Resolve insert_str_safe move_cursor_up_safe move_cursor_down_safe move_to_bol_safe move_to_eol_safe word_left_safe word_right_safe
  move_left_safe move_right_safe unchanged_safe delete_backward_safe delete_forward_safe delete_backward_word_safe delete_forward_word_safe
  kill_to_eol_safe kill_to_bol_safe yank_safe set_cursor_safe : textarea.

(** ** Keys *)

Section keys.
Context {U : Unicode} {L : UnicodeLaws U}.
Lemma input_safe t event : wf t → safe t (input t event).
Proof.
  intros H. unfold input. destruct (event_kind event); [|..|by auto with textarea].
  all: destruct (code event); unfold input_char; repeat case_match; auto with textarea.
Qed.
End keys.

(** ** The operations of the owner *)

Definition apart (e f : TextElement) : Prop := stop e ≤ start f ∨ stop f ≤ start e.
Lemma insert_sorted_apart x es : start x < stop x → Forall (λ e, start e < stop e ∧ apart x e) es →
  StronglySorted (λ e f, stop e ≤ start f) es → StronglySorted (λ e f, stop e ≤ start f) (insert_sorted (λ e, N.to_nat (start e)) x es).
Proof.
  intros Hx Hes Hs. revert Hes. induction Hs as [|y es Hs IH Hy]; intros Hes; cbn [insert_sorted]; [by repeat constructor|].
  apply Forall_cons in Hes as [[Hlt Ha] Hes]. unfold apart in Ha. rewrite Forall_forall in Hy.
  destruct (Nat.leb_spec (N.to_nat (start x)) (N.to_nat (start y))) as [Hle|Hgt].
  - constructor; [constructor; [done|by rewrite Forall_forall]|]. rewrite Forall_forall. intros z [->|Hz]%elem_of_cons; [lia|].
    specialize (Hy z Hz). lia.
  - constructor; [by apply IH|]. rewrite Forall_forall. intros z Hz. rewrite insert_sorted_perm in Hz.
    apply elem_of_cons in Hz as [->|Hz]; [lia|by apply Hy].
Qed.
Lemma sort_elements_ok s es : Forall (element_ok s) es → StronglySorted apart es → elements_ok s (sort_elements es).
Proof.
  intros Hok Hs. split; [unfold sort_elements; by rewrite sort_by_key_perm|]. induction Hs as [|e es Hs IH He]; [constructor|].
  apply Forall_cons in Hok as [[Hlt _] Hok]. apply insert_sorted_apart; [done| |by apply IH].
  rewrite !Forall_forall in *. intros f Hf. change (f ∈ sort_elements es) in Hf. unfold sort_elements in Hf. rewrite sort_by_key_perm in Hf. split; [by destruct (Hok f Hf)|by apply He].
Qed.
Lemma sorted_is_apart es : StronglySorted (λ e f, stop e ≤ start f) es → StronglySorted apart es.
Proof.
  induction 1 as [|e es Hs IH He]; constructor; [done|]. eapply Forall_impl; [exact He|]. intros f Hf. by left.
Qed.
Lemma elements_ok_sort s es : elements_ok s es → elements_ok s (sort_elements es).
Proof. intros [Hok Hs]. apply sort_elements_ok; [done|by apply sorted_is_apart]. Qed.
Lemma add_element_ok s es e : elements_ok s es → element_ok s e → Forall (apart e) es → elements_ok s (sort_elements (es ++ [e])).
Proof.
  intros [Hok Hs] He Ha. apply sort_elements_ok; [by rewrite Forall_app; split; [|constructor]|].
  apply StronglySorted_app_snoc; [by apply sorted_is_apart|]. eapply Forall_impl; [exact Ha|]. intros f. unfold apart. tauto.
Qed.

Section owner.
Context {U : Unicode} {L : UnicodeLaws U}.

(** What the owner of the text area does, with the arguments it gives: ranges
    between characters, and elements that are not empty and do not overlap. *)
Inductive step (t : TextArea) : TextArea → Prop :=
| step_key event t' : input t event = Ok t' → step t t'
| step_insert p s t' : insert_str_at t p s = Ok t' → step t t'
| step_replace p q s t' : boundary p (text t) → boundary q (text t) → p ≤ q → replace_range t p q s = Ok t' → step t t'
| step_cursor p : step t (set_cursor t p)
| step_lines w ls t' : wrapped_lines t w = Ok (ls, t') → step t t'
| step_clear s : step t (set_text_clearing_elements t s)
| step_set s ranges : Forall (λ r, boundary r.1 s ∧ boundary r.2 s) ranges → StronglySorted (λ r r', r.2 ≤ r'.1) ranges →
    step t (set_text_with_elements t s ranges)
| step_element s n i t' : s ≠ [] → insert_named t s n = Ok (i, t') → step t t'
| step_update i s b t' : s ≠ [] → update_named_element_by_id t i s = Ok (b, t') → step t t'
| step_rename old new_ b t' : new_ ≠ [] → replace_element_payload t old new_ = Ok (b, t') → step t t'
| step_drop i s b t' : replace_element_by_id t i s = Ok (b, t') → step t t'
| step_add p q : step t (add_element_range t p q).2
| step_remove p q : step t (remove_element_range t p q).2.
Definition stays (t t' : TextArea) : Prop := wf t' ∧ (cursor_outside t → cursor_outside t').
Lemma keeps_stays t t' : keeps t t' → stays t t'.
Proof. intros (? & ? & _). by split. Qed.

Lemma rebuild_spec t s ranges : text t = s → Forall (λ r, boundary r.1 s ∧ boundary r.2 s) ranges → StronglySorted (λ r r', r.2 ≤ r'.1) ranges →
  elements_ok s (elements t) → Forall (λ e, Forall (λ r, stop e ≤ r.1) ranges) (elements t) →
  text (rebuild t ranges) = s ∧ elements_ok s (elements (rebuild t ranges)) ∧ wrap_cache (rebuild t ranges) = wrap_cache t.
Proof.
  intros Et Hb Hs. revert t Et. induction Hs as [|[p q] ranges Hs IH Hr]; intros t Et Hok He; cbn [rebuild]; [done|].
  apply Forall_cons in Hb as [[Hp Hq] Hb]. cbn in Hp, Hq. unfold text_len. rewrite Et. rewrite !N.min_l by by apply boundary_le.
  rewrite !clamp_char_id by by rewrite Et.
  assert (He' : Forall (λ e, stop e ≤ p ∧ Forall (λ r, stop e ≤ r.1) ranges) (elements t)).
  { eapply Forall_impl; [exact He|]. by intros e [? ?]%Forall_cons. }
  apply Forall_and in He' as [Hep He']. destruct (N.leb_spec q p); [by apply IH|].
  set (e := {| id := next_element_id t; start := p; stop := q; name := None |}).
  destruct (IH Hb (with_elements (elements t ++ [e]) (N.min (next_element_id t + 1) u64_max) t) Et) as (? & ? & ?); [..|done].
  - destruct Hok as [Hok Hsort]. cbn. split; [rewrite Forall_app; split; [done|by repeat constructor]|]. by apply StronglySorted_app_snoc.
  - cbn. rewrite Forall_app. split; [done|]. constructor; [exact Hr|constructor].
Qed.
(** Where the cursor is put again, it is outside. *)
Lemma clamped_stays t0 t p : elements_ok (text t) (elements t) →
  (∀ c, wrap_cache t = Some c → wrap_ranges (text t) (width c) = Ok (cached_lines c)) →
  stays t0 (with_cursor (clamp_pos_to_nearest_boundary t p) t).
Proof. intros Hok Hc. destruct (clamp_nearest_legal t p Hok) as [Hb Hi]. split; [by split|by intros _]. Qed.
Lemma set_text_wf t s ranges : Forall (λ r, boundary r.1 s ∧ boundary r.2 s) (default [] ranges) → StronglySorted (λ r r', r.2 ≤ r'.1) (default [] ranges) →
  stays t (set_text_inner t s ranges).
Proof.
  intros Hb Hs. unfold set_text_inner. set (t0 := with_elements [] _ _).
  assert (H0 : text t0 = s ∧ elements_ok s (elements t0) ∧ wrap_cache t0 = None) by (split_and!; [done|by split; constructor|done]).
  destruct ranges as [ranges|]; cbn in Hb, Hs.
  - destruct (rebuild_spec t0 s ranges eq_refl Hb Hs) as (Et & Hok & Ec); [by split; constructor|constructor|].
    apply elements_ok_sort in Hok. set (t1 := with_elements _ _ (rebuild t0 ranges)).
    apply (clamped_stays t t1); cbn; by rewrite ?Et, ?Ec.
  - destruct H0 as (Et & Hok & Ec). by apply (clamped_stays t t0).
Qed.
Lemma wrapped_lines_wf t w : wf t → ∃ ls t', wrapped_lines t w = Ok (ls, t') ∧ stays t t'.
Proof.
  intros Hwf. unfold wrapped_lines. destruct (wrap_ranges_spec (text t) w) as (rs & E & _). rewrite E. cbn [mbind outcome_bind].
  assert (Hnew : wf (with_cache (Some {| width := w; cached_lines := rs |}) t)) by (destruct Hwf; split; [done..|]; by intros c [= <-]).
  destruct (wrap_cache t) as [c|]; [|by eexists _, _]. destruct (width c =? w); by eexists _, _.
Qed.
Lemma set_cursor_stays t0 t p : elements_ok (text t) (elements t) →
  (∀ c, wrap_cache t = Some c → wrap_ranges (text t) (width c) = Ok (cached_lines c)) → stays t0 (set_cursor t p).
Proof. intros Hok Hc. by destruct (clamped_stays t0 t (N.min p (text_len t)) Hok Hc) as [[? ? ?] ?]. Qed.
Lemma str_len_pos s : s ≠ [] → 0 < str_len s.
Proof. destruct s as [|c s]; [done|]. intros _. cbn. pose proof (len_utf8_pos c). lia. Qed.
Lemma new_element_ok a s b e : s ≠ [] → start e = str_len a → stop e = str_len a + str_len s → element_ok (a ++ s ++ b) e.
Proof.
  intros Hs Ea Eb. pose proof (str_len_pos s Hs). unfold element_ok. rewrite Ea, Eb. split; [lia|]. split; [apply boundary_app|].
  rewrite app_assoc, <- str_len_app. apply boundary_app.
Qed.
Lemma insert_named_spec t s n : wf t → s ≠ [] → ∃ i t', insert_named t s n = Ok (i, t') ∧ stays t t'.
Proof.
  intros Hwf Hs. unfold insert_named. set (p := clamp_pos_for_insertion t (cursor_pos t)).
  assert (Hp : legal t p) by (apply clamp_insertion_legal, Hwf).
  destruct (insert_at_spec t p s Hwf) as (a & b & t' & Et & Ea & -> & Et' & [Hwf' _] & _ & _ & Ee & _). rewrite clamp_insertion_id in Ea by done.
  cbn. eexists _, _. split; [reflexivity|]. apply set_cursor_stays; [|apply Hwf'].
  apply add_element_ok; [apply Hwf'| |].
  - cbn. rewrite Et'. by apply new_element_ok; [|cbn; lia..].
  - rewrite Ee, Forall_forall. intros f Hf. rewrite Ea in Hf. apply list_elem_of_fmap in Hf as (f0 & -> & [_ Hf]%list_elem_of_filter).
    destruct Hp as [_ Hp]. specialize (Hp f0 Hf). apply inside_false in Hp. destruct (element_bounds _ _ f0 (wf_elements t Hwf) Hf) as (? & _).
    unfold apart. cbn. destruct Hp as [?|?]; [rewrite shift_right by lia|rewrite shift_left by lia]; cbn; lia.
Qed.
Lemma element_cut t e : wf t → e ∈ elements t → ∃ a m b, text t = a ++ m ++ b ∧ start e = str_len a ∧ stop e = str_len (a ++ m) ∧ m ≠ [] ∧
  uncut (str_len a) (str_len (a ++ m)) (elements t).
Proof.
  intros Hwf He. pose proof (wf_elements t Hwf) as Hok. destruct (element_bounds _ _ e Hok He) as (Hlt & _ & Hb & Hb').
  destruct (boundaries_cut _ _ _ Hb Hb' ltac:(lia)) as (a & m & b & Et & Ea & Em). exists a, m, b. split_and!; [done..| |].
  - intros ->. rewrite app_nil_r in Em. lia.
  - rewrite <- Ea, <- Em. intros f Hf. destruct (sorted_apart _ e f (proj2 Hok) He Hf) as [->|[?|?]]; unfold within; lia.
Qed.
Lemma moved_cursor_beside a m n p : p ≤ str_len a ∨ str_len (a ++ m) ≤ p → m ≠ [] → moved_cursor a m n p ≤ str_len a ∨ str_len a + str_len n ≤ moved_cursor a m n p.
Proof.
  intros Hp Hm. unfold moved_cursor. rewrite str_len_app in *. destruct (N.ltb_spec p (str_len a)), (N.leb_spec p (str_len a + str_len m)); lia.
Qed.
Lemma element_named_in t i e : element_named t i = Some e → e ∈ elements t.
Proof. intros [? _]%find_elements. done. Qed.
Lemma update_named_spec t i s : wf t → s ≠ [] → ∃ b t', update_named_element_by_id t i s = Ok (b, t') ∧ stays t t'.
Proof.
  intros Hwf Hs. unfold update_named_element_by_id. destruct (element_named t i) as [e|] eqn:Ee; [|by eexists _, _].
  apply element_named_in in Ee. destruct (element_cut t e Hwf Ee) as (a & m & b & Et & Ea & Em & Hm & Hu). rewrite Ea, Em.
  destruct (replace_raw_spec t a m b s Et (wf_elements t Hwf) Hwf Hu) as (t' & -> & Et' & (Hwf' & Ho & _) & _ & Ec & Hbeside). cbn.
  eexists _, _. split; [reflexivity|]. split; [split; cbn; [|apply Hwf'..]|].
  - apply add_element_ok; [apply Hwf'|rewrite Et'; by apply new_element_ok|]. rewrite Forall_forall. intros f Hf. unfold apart. cbn. destruct (Hbeside f Hf); lia.
  - intros Hc f Hf. cbn in Hf |- *. unfold sort_elements in Hf. rewrite sort_by_key_perm in Hf. apply elem_of_app in Hf as [Hf|Hf%list_elem_of_singleton]; [by apply Ho|].
    subst f. apply inside_false. cbn. rewrite Ec by by left. apply moved_cursor_beside; [|done]. specialize (Hc e Ee).
    apply inside_false in Hc. rewrite Ea, Em in Hc. done.
Qed.
Lemma filter_elements_stays t (P : TextElement → Prop) `{∀ e, Decision (P e)} : wf t → stays t (with_elements (filter P (elements t)) (next_element_id t) t).
Proof.
  intros [[Hok Hs] Hc Hw]. split; [split; cbn; [split|done..]|].
  - rewrite Forall_forall in *. intros e [_ He]%list_elem_of_filter. by apply Hok.
  - clear -Hs. induction Hs as [|e es Hs IH He]; [constructor|]. rewrite filter_cons. case_decide; [|done]. constructor; [done|].
    rewrite Forall_forall in *. intros f [_ Hf]%list_elem_of_filter. by apply He.
  - intros Hi e [_ He]%list_elem_of_filter. by apply Hi.
Qed.
Lemma remove_range_stays t p q : wf t → stays t (remove_element_range t p q).2.
Proof. intros Hwf. unfold remove_element_range. destruct (_ <=? _); [done|]. by apply filter_elements_stays. Qed.
Lemma drop_named_spec t i s : wf t → ∃ b t', replace_element_by_id t i s = Ok (b, t') ∧ stays t t'.
Proof.
  intros Hwf. unfold replace_element_by_id. destruct (element_named t i) as [e|] eqn:Ee; [|by eexists _, _].
  apply element_named_in in Ee. destruct (element_cut t e Hwf Ee) as (a & m & b & Et & Ea & Em & Hm & Hu). rewrite Ea, Em.
  destruct (replace_raw_spec t a m b s Et (wf_elements t Hwf) Hwf Hu) as (t' & -> & _ & (Hwf' & Ho & _) & _). cbn.
  eexists _, _. split; [reflexivity|]. destruct (filter_elements_stays t' (λ f, name f ≠ Some i) Hwf') as [? ?]. split; [done|auto].
Qed.
Lemma add_range_wf t p q : wf t → wf (add_element_range t p q).2.
Proof.
  intros Hwf. unfold add_element_range. pose proof (clamp_char_ok t (N.min p (text_len t))) as Hp. pose proof (clamp_char_ok t (N.min q (text_len t))) as Hq.
  set (from := clamp_pos_to_char_boundary t (N.min p _)) in *. set (to := clamp_pos_to_char_boundary t (N.min q _)) in *.
  destruct (N.leb_spec to from); [done|]. destruct (existsb _ _); [done|]. destruct (existsb (λ e, (from <? stop e) && _) _) eqn:Eo; [done|].
  split; [|apply Hwf..]. apply add_element_ok; [apply Hwf|done|].
  rewrite Forall_forall. intros f Hf. unfold apart. cbn. destruct (decide (stop f ≤ from)); [by right|]. left.
  destruct (decide (to ≤ start f)); [done|]. assert (Ho : existsb (λ e, (from <? stop e) && (start e <? to)) (elements t) = true); [|congruence].
  apply existsb_elem. exists f. split; [done|]. apply andb_true_iff. rewrite !N.ltb_lt. lia.
Qed.

(** Renaming an element. *)
Lemma shift_other_beside a m n e : start e < stop e → stop e ≤ str_len a ∨ str_len (a ++ m) ≤ start e →
  shift_other (str_len a) (str_len (a ++ m)) (str_len n) (str_len m) e = shift_element (str_len a) (str_len m) (str_len n) e.
Proof.
  intros Hlt. rewrite str_len_app. unfold shift_other. intros [Hl|Hr].
  - rewrite shift_left by done. rewrite (proj2 (N.leb_le _ _) Hl). by rewrite orb_true_r.
  - rewrite shift_right by done. destruct (N.leb_spec (stop e) (str_len a)); [lia|]. rewrite orb_false_r.
    destruct (N.eqb_spec (str_len n) (str_len m)) as [E|].
    + destruct e as [i p q nm]. cbn. f_equal; cbn in *; lia.
    + by destruct (N.leb_spec (str_len a + str_len m) (start e)); [|lia].
Qed.
Lemma imap_one {A} (f : A → A) (x : A) l1 y l2 :
  imap (λ j z, if (j =? length l1)%nat then x else f z) (l1 ++ y :: l2) = (f <$> l1) ++ x :: (f <$> l2).
Proof.
  rewrite imap_app. cbn. rewrite Nat.add_0_r, Nat.eqb_refl. f_equal; [|f_equal].
  - rewrite <- (imap_const f l1). apply imap_ext. intros i z Hi%lookup_lt_Some. by destruct (Nat.eqb_spec i (length l1)); [lia|].
  - rewrite <- (imap_const f l2). apply imap_ext. intros i z _. cbn. by destruct (Nat.eqb_spec (length l1 + S i) (length l1)); [lia|].
Qed.
Lemma fmap_sorted {A} (R : A → A → Prop) (f : A → A) l : StronglySorted R l →
  (∀ x y, x ∈ l → y ∈ l → R x y → R (f x) (f y)) → StronglySorted R (f <$> l).
Proof.
  induction 1 as [|x l Hs IH Hx]; intros Hf; cbn; [constructor|]. constructor.
  - apply IH. intros y z Hy Hz. apply Hf; by apply list_elem_of_further.
  - rewrite Forall_fmap. rewrite !Forall_forall in *. intros y Hy. apply Hf; [apply list_elem_of_here|by apply list_elem_of_further|by apply Hx].
Qed.
(** The elements after a renaming, before they are sorted. *)
Definition renamed_elements (a m n : str) (e : TextElement) (es : list TextElement) : list TextElement :=
  (λ x, if bool_decide (x = e) then {| id := id e; start := start e; stop := start e + str_len n; name := name e |}
        else shift_element (str_len a) (str_len m) (str_len n) x) <$> es.
Lemma renamed_elements_eq a m n e l1 l2 s : elements_ok s (l1 ++ e :: l2) → start e = str_len a → stop e = str_len (a ++ m) →
  imap (λ j f, if (j =? length l1)%nat then {| id := id e; start := start e; stop := start e + str_len n; name := name e |}
               else shift_other (start e) (stop e) (str_len n) (stop e - start e) f) (l1 ++ e :: l2) = renamed_elements a m n e (l1 ++ e :: l2).
Proof.
  intros Hok Ea Em. rewrite (imap_one (shift_other (start e) (stop e) (str_len n) (stop e - start e))). unfold renamed_elements. rewrite fmap_app, fmap_cons. rewrite bool_decide_true by done.
  assert (Hside : ∀ x, x ∈ l1 ∨ x ∈ l2 → x ≠ e ∧ start x < stop x ∧ (stop x ≤ start e ∨ stop e ≤ start x)).
  { intros x Hx. assert (Hin : x ∈ l1 ++ e :: l2) by set_solver. destruct (element_bounds _ _ x Hok Hin) as [Hlt _].
    destruct (element_bounds _ _ e Hok ltac:(set_solver)) as [Hlt' _]. destruct Hok as [_ Hs]. apply StronglySorted_app in Hs as (Hc & _ & Hs2).
    apply StronglySorted_inv in Hs2 as [_ He]. rewrite Forall_forall in He.
    assert (Ho : stop x ≤ start e ∨ stop e ≤ start x) by (destruct Hx as [Hx|Hx]; [left; apply (Hc x e); set_solver|right; by apply He]).
    split_and!; [intros ->; lia|done|done]. }
  assert (Eq : ∀ x, x ∈ l1 ∨ x ∈ l2 → shift_other (start e) (stop e) (str_len n) (stop e - start e) x =
    if bool_decide (x = e) then {| id := id e; start := start e; stop := start e + str_len n; name := name e |} else shift_element (str_len a) (str_len m) (str_len n) x).
  { intros x Hx. destruct (Hside x Hx) as (Hne & Hlt & Ho). rewrite bool_decide_false by done. rewrite Ea, Em in *.
    replace (str_len (a ++ m) - str_len a) with (str_len m) by (rewrite str_len_app; lia). by apply shift_other_beside. }
  f_equal; [|f_equal]; apply list_fmap_ext; intros i x Hx%list_elem_of_lookup_2; apply Eq; auto.
Qed.
Lemma renamed_spec t a m n b e : wf t → text t = a ++ m ++ b → e ∈ elements t → start e = str_len a → stop e = str_len (a ++ m) → m ≠ [] → n ≠ [] →
  uncut (str_len a) (str_len (a ++ m)) (elements t) →
  elements_ok (a ++ n ++ b) (renamed_elements a m n e (elements t)).
Proof.
  intros Hwf Et He Ea Em Hm Hn Hu. pose proof (wf_elements t Hwf) as Hok.
  pose proof (str_len_pos m Hm) as Hml. pose proof (str_len_pos n Hn) as Hnl. pose proof (str_len_app a m) as Hlen.
  assert (Hside : ∀ x, x ∈ elements t → x ≠ e → stop x ≤ str_len a ∨ str_len (a ++ m) ≤ start x).
  { intros x Hx Hne. destruct (sorted_apart _ x e (proj2 Hok) Hx He) as [?|[?|?]]; [done|left; lia|right; lia]. }
  assert (Hstrict : ∀ x, x ∈ elements t → start x < stop x) by (intros x Hx; by destruct (element_bounds _ _ x Hok Hx)).
  split.
  - unfold renamed_elements. rewrite Forall_fmap, Forall_forall. intros x Hx. cbn. destruct (bool_decide_reflect (x = e)) as [->|Hne].
    + by apply new_element_ok; [|cbn; lia..].
    + rewrite Et in Hok. apply shift_moved; [|by auto]. destruct Hok as [Hok _]. rewrite Forall_forall in Hok. by apply Hok.
  - apply fmap_sorted; [apply Hok|]. intros x y Hx Hy Hxy. cbn. pose proof (Hstrict x Hx). pose proof (Hstrict y Hy).
    destruct (bool_decide_reflect (x = e)) as [->|Hnx], (bool_decide_reflect (y = e)) as [->|Hny]; cbn; [lia|..].
    + rewrite shift_right by lia. cbn. lia.
    + rewrite shift_left by lia. lia.
    + destruct (Hside x Hx Hnx), (Hside y Hy Hny); rewrite ?shift_left, ?shift_right by lia; cbn; lia.
Qed.
Lemma rename_stays t old n : wf t → n ≠ [] → ∃ b t', replace_element_payload t old n = Ok (b, t') ∧ stays t t'.
Proof.
  intros Hwf Hn. unfold replace_element_payload. destruct (list_find _ _) as [[idx e]|] eqn:Ef; [|by eexists _, _].
  apply list_find_Some in Ef as (Hidx & _ & _). pose proof (list_elem_of_lookup_2 _ _ _ Hidx) as He.
  destruct (element_cut t e Hwf He) as (a & m & b & Et & Ea & Em & Hm & Hu).
  destruct (element_bounds _ _ e (wf_elements t Hwf) He) as (Hlt & Hlen & _).
  destruct (N.ltb_spec (stop e) (start e)); [lia|]. destruct (N.ltb_spec (text_len t) (stop e)); [unfold text_len in *; lia|]. cbn [orb].
  rewrite Et, Ea, Em, replace_text_app. cbn [mbind outcome_bind]. eexists _, _. split; [reflexivity|].
  pose proof (renamed_spec t a m n b e Hwf Et He Ea Em Hm Hn Hu) as Hok'. pose proof (wf_elements t Hwf) as Hok.
  assert (Eimap : imap (λ j f, if (j =? idx)%nat then {| id := id e; start := str_len a; stop := str_len a + str_len n; name := name e |}
      else shift_other (str_len a) (str_len (a ++ m)) (str_len n) (str_len (a ++ m) - str_len a) f) (elements t) = renamed_elements a m n e (elements t)).
  { rewrite <- Ea, <- Em. rewrite <- (take_drop_middle (elements t) idx e Hidx) in Hok |- *.
    rewrite <- (renamed_elements_eq a m n e _ _ _ Hok Ea Em). rewrite length_take_le; [done|]. apply lookup_lt_Some in Hidx. lia. }
  rewrite Eimap. clear Eimap. set (t1 := with_elements (renamed_elements a m n e (elements t)) _ _).
  destruct (clamp_nearest_legal t1 (if cursor_pos t <? str_len a then cursor_pos t else if cursor_pos t <=? str_len (a ++ m)
      then str_len a + str_len n else cursor_pos t + str_len n - (str_len (a ++ m) - str_len a)) Hok') as [Hlb Hli].
  split; [split; cbn; [by apply elements_ok_sort|exact Hlb|done]|].
  intros _ x Hx. change (x ∈ sort_elements (elements t1)) in Hx. unfold sort_elements in Hx. rewrite sort_by_key_perm in Hx. by apply Hli.
Qed.

(** However a text area is edited, from an empty one, it stays well formed, and its
    cursor outside the elements unless one was just added over it. *)
Lemma step_spec t t' : wf t → step t t' →
  wf t' ∧ (cursor_outside t → cursor_outside t' ∨ ∃ p q i, add_element_range t p q = (Some i, t')).
Proof.
  intros Hwf Hs. assert (stays t t' ∨ ∃ p q, t' = (add_element_range t p q).2) as [[? ?]|(p & q & ->)].
  - destruct Hs as [ev t' E|p s t' E|p q s t' Hp Hq Hle E|p|w ls t' E|s|s ranges Hb Hs|s n i t' Hs E|i s b t' Hs E|old n b t' Hn E|i s b t' E|p q|p q].
    + left. destruct (input_safe t ev Hwf) as (t1 & E' & H%keeps_stays). congruence.
    + left. destruct (insert_at_spec t p s Hwf) as (a & b & t1 & _ & _ & E' & _ & H%keeps_stays & _). congruence.
    + left. destruct (replace_range_spec t p q s Hwf Hp Hq Hle) as (t1 & E' & H%keeps_stays). congruence.
    + left. by apply keeps_stays, set_cursor_keeps.
    + left. destruct (wrapped_lines_wf t w Hwf) as (ls' & t1 & E' & H). congruence.
    + left. apply (set_text_wf t s None); cbn; constructor.
    + left. by apply (set_text_wf t s (Some ranges)).
    + left. destruct (insert_named_spec t s n Hwf Hs) as (i' & t1 & E' & H). congruence.
    + left. destruct (update_named_spec t i s Hwf Hs) as (b' & t1 & E' & H). congruence.
    + left. destruct (rename_stays t old n Hwf Hn) as (b' & t1 & E' & H). congruence.
    + left. destruct (drop_named_spec t i s Hwf) as (b' & t1 & E' & H). congruence.
    + right. by exists p, q.
    + left. by apply remove_range_stays.
  - auto.
  - split; [by apply add_range_wf|]. intros Hc. destruct (add_element_range t p q) as [[i|] t'] eqn:E; [right; by exists p, q, i|left].
    unfold add_element_range in E. repeat case_match; by simplify_eq.
Qed.
Lemma new_wf : wf new.
Proof.
  split; cbn; [by split; constructor|apply boundary_0|done].
Qed.
Lemma reachable_area_wf t : rtc step new t → wf t.
Proof.
  assert (Hr : ∀ a b, rtc step a b → wf a → wf b) by (induction 1 as [|a b c Hs _ IH]; [done|]; intros Ha; apply IH; by eapply step_spec).
  intros H. by apply (Hr new); [|apply new_wf].
Qed.
End owner.

(** * Properties *)

Section properties.
Context {U : Unicode} {L : UnicodeLaws U}.

(** C35. Whatever keys a text area went through and whatever its owner did with it
    (ranges between characters and in order, texts of elements not empty), a key does
    not make it panic, and leaves the cursor between characters, the elements in order
    and apart, and the cached lines those of the text. Keys treat elements as one
    character: each element left is one that was there, with the same identity and the
    same text. The cursor is outside the elements after a key if it was before, and
    no operation ever puts it into one, but that of the owner that makes a part of the
    text an element, which may be one that the cursor is in. *)
Theorem keys_keep_elements_whole t event :
  rtc step new t →
  (∃ t', input t event = Ok t' ∧ wf t' ∧ (cursor_outside t → cursor_outside t') ∧
    ∀ e', e' ∈ elements t' → ∃ e, e ∈ elements t ∧ id e' = id e ∧ name e' = name e ∧ element_payload t' e' = element_payload t e)
  ∧ ∀ t', step t t' → cursor_outside t → cursor_outside t' ∨ ∃ p q i, add_element_range t p q = (Some i, t').
Proof.
  intros H%reachable_area_wf. split; [|intros t' Hs; by apply step_spec].
  destruct (input_safe t event H) as (t' & E & Hw & Ho & Hm). by exists t'.
Qed.

(** ** Killing and yanking *)

Definition kills : list (TextArea → result TextArea) :=
  [kill_to_end_of_line; kill_to_beginning_of_line; delete_backward_word; delete_forward_word].
Lemma kill_yank t p q t1 : wf t → boundary p (text t) → boundary q (text t) → p ≤ cursor_pos t → cursor_pos t ≤ q →
  kill_range t p q = Ok t1 → text t1 ≠ text t → ∃ t2, yank t1 = Ok t2 ∧ text t2 = text t.
Proof.
  intros Hwf Hp Hq Hpc Hcq E Hne. destruct (kill_range_spec t p q Hwf Hp Hq ltac:(lia)) as (t' & E' & [Hwf' _] & Hcase). rewrite E in E'. injection E' as <-.
  destruct Hcase as [->|(a & m & b & Et & Et1 & Ek & Ha & Hm & Hne' & Ec)]; [done|]. unfold yank. rewrite Ek. destruct m as [|c m0] eqn:Em; [done|]. rewrite <- Em in *.
  destruct (Ec Hpc Hcq) as [Hcur Hout].
  destruct (insert_at_spec t1 (cursor_pos t1) m Hwf') as (a' & b' & t2 & Et1' & Ea' & E2 & Et2 & _). exists t2. split; [exact E2|].
  rewrite clamp_insertion_id in Ea' by (split; [apply Hwf'|done]). rewrite Et1 in Et1'.
  destruct (splits_unique (str_len a) (a ++ b) a b a' b') as [<- <-]; [done|split; [done|congruence]|]. by rewrite Et2, Et.
Qed.
Lemma kills_ranges t k : wf t → k ∈ kills →
  k t = Ok t ∨ ∃ p q, k t = kill_range t p q ∧ boundary p (text t) ∧ boundary q (text t) ∧ p ≤ cursor_pos t ∧ cursor_pos t ≤ q.
Proof.
  intros Hwf Hk. pose proof (wf_cursor t Hwf) as Hc. repeat (apply elem_of_cons in Hk as [->|Hk]); [..|by apply elem_of_nil in Hk].
  - unfold kill_to_end_of_line, end_of_current_line. destruct (end_of_line_spec t _ Hc) as (q & -> & Hle & Hq & Hn). cbn [mbind outcome_bind].
    destruct (N.eqb_spec (cursor_pos t) q) as [Eq|]; [|right; exists (cursor_pos t), q; split_and!; done || lia].
    destruct (N.ltb_spec q (text_len t)); [|by left]. right. destruct Hn as [?|[? ?]]; [lia|]. exists (cursor_pos t), (q + 1). split_and!; done || lia.
  - unfold kill_to_beginning_of_line, beginning_of_current_line. destruct (beginning_of_line_spec t _ Hc) as (q & -> & Hle & Hq & Hn). cbn [mbind outcome_bind].
    destruct (N.eqb_spec (cursor_pos t) q) as [Eq|]; [|right; exists q, (cursor_pos t); split_and!; done || lia].
    destruct (N.ltb_spec 0 q); [|by left]. right. exists (q - 1), q. split_and!; done || lia.
  - unfold delete_backward_word. destruct (beginning_of_previous_word_spec t Hwf) as (q & -> & Hq & Hle). right. exists q, (cursor_pos t). split_and!; done || lia.
  - unfold delete_forward_word. destruct (end_of_next_word_spec t Hwf) as (q & -> & Hq). cbn [mbind outcome_bind].
    destruct (N.ltb_spec (cursor_pos t) q); [|by left]. right. exists (cursor_pos t), q. split_and!; done || lia.
Qed.
(** What a kill removes, to either end of the line or a word either way, with the
    elements it meets, a yank right after it puts back where it was, also when
    the owner has cleared another text in between. *)
Theorem yank_restores_kill t k t1 :
  rtc step new t → k ∈ kills → k t = Ok t1 → text t1 ≠ text t →
  (∃ t2, yank t1 = Ok t2 ∧ text t2 = text t) ∧ ∀ s, kill_buffer (set_text_clearing_elements t1 s) = kill_buffer t1.
Proof.
  intros Hwf%reachable_area_wf Hk E Hne. split; [|done].
  destruct (kills_ranges t k Hwf Hk) as [E'|(p & q & E' & Hp & Hq & ? & ?)]; rewrite E in E'; [congruence|].
  by apply (kill_yank t p q).
Qed.

(** ** Scrolling *)

(** The lines that are drawn include the cursor's, and nothing is scrolled
    away when all lines fit; a text of 65536 lines or more is left out. *)
Theorem cursor_line_is_visible t height ls scroll :
  0 < height → len ls < 65536 →
  let s := effective_scroll t height ls scroll in
  let line := N.of_nat (default O (wrapped_line_index_by_start ls (cursor_pos t))) in
  s ≤ line ∧ line < s + height ∧ (len ls ≤ height → s = 0) ∧ s + height ≤ N.max (len ls) height.
Proof.
  intros Hh Hl. cbn zeta. unfold effective_scroll, as_u16.
  assert (Hi : N.of_nat (default O (wrapped_line_index_by_start ls (cursor_pos t))) < N.max 1 (len ls)).
  { unfold wrapped_line_index_by_start. pose proof (length_filter (λ r : N * N, r.1 ≤ cursor_pos t) ls) as Hf. unfold len in *.
    destruct (length (filter _ ls)); cbn; lia. }
  rewrite (N.mod_small (len ls)) by done. rewrite (N.mod_small (N.of_nat _)) by lia.
  destruct (N.leb_spec (len ls) height); [split_and!; lia|].
  destruct (N.ltb_spec (N.of_nat (default O (wrapped_line_index_by_start ls (cursor_pos t)))) (N.min scroll (len ls - height))); [split_and!; lia|].
  destruct (N.leb_spec (N.min scroll (len ls - height) + height) (N.of_nat (default O (wrapped_line_index_by_start ls (cursor_pos t))))); split_and!; lia.
Qed.
End properties.

(** * Witnesses *)

(** Characters for clusters, one column each, and one line for the text. *)
#[local] Instance plain_unicode : Unicode := {|
  graphemes s := (λ c, [c]) <$> s;
  prev_boundary s p := match slice_to (E := Empty_set) p s with
                       | Ok a => inr (match reverse a with [] => None | c :: r => Some (str_len (reverse r)) end) | _ => inl tt end;
  next_boundary s p := match slice_from (E := Empty_set) p s with
                       | Ok b => inr (match b with [] => None | c :: _ => Some (p + len_utf8 c) end) | _ => inl tt end;
  text_width s := len s;
  wrap _ s := [Borrowed 0 (str_len s)] |}.
#[local] Instance plain_unicode_laws : UnicodeLaws plain_unicode.
Proof.
  split.
  - intros s. cbn. induction s as [|c s IH]; [done|]. cbn. by f_equal.
  - intros s p r (a & b & -> & ->) <-. cbn. rewrite slice_to_app. induction a as [|c a _] using rev_ind; [done|].
    rewrite reverse_snoc, reverse_involutive. split; [rewrite <- app_assoc; apply boundary_app|].
    rewrite str_len_app. cbn. pose proof (len_utf8_pos c). lia.
  - intros s p r (a & b & -> & ->) <-. cbn. rewrite slice_from_app. destruct b as [|c b]; [by rewrite app_nil_r|].
    split; [apply boundary_next|]. pose proof (len_utf8_pos c). lia.
  - intros w s. repeat constructor. exists 0, (str_len s). split_and!; [done|lia|apply boundary_0|apply boundary_end].
  - intros w s. repeat constructor.
Qed.
Definition press (c : N) (mods : N) : KeyEvent := {| code := Char c; modifiers := mods; event_kind := Press |}.
Definition typed (s : str) : TextArea := set_text_clearing_elements new s.
Lemma typed_reachable s : rtc step new (typed s).
Proof. apply rtc_once, step_clear. Qed.

(** An element added over the cursor, which is in it, is deleted as one. *)
#[local] Definition commanded : TextArea := (add_element_range (set_cursor (typed (lit "/plan now")) 3) 0 5).2.
Lemma commanded_reachable : rtc step new commanded.
Proof.
  eapply rtc_trans; [apply (typed_reachable (lit "/plan now"))|]. eapply rtc_l; [apply (step_cursor _ 3)|].
  apply rtc_once, step_add.
Qed.
Lemma keys_keep_elements_whole_witness :
  existsb (inside (cursor_pos commanded)) (elements commanded) = true
  ∧ ∃ t', input commanded (press (key "h") CONTROL) = Ok t' ∧ wf t' ∧ text t' = lit " now" ∧ elements t' = [].
Proof.
  split; [vm_compute; reflexivity|].
  destruct (keys_keep_elements_whole commanded (press (key "h") CONTROL) commanded_reachable) as [(t' & E & Hw & _) _].
  exists t'. split; [exact E|]. split; [exact Hw|]. vm_compute in E. injection E as <-. split; reflexivity.
Defined.
Lemma yank_restores_kill_witness : ∃ t1 t2, kill_to_end_of_line (typed (lit "ab")) = Ok t1 ∧ text t1 = [] ∧ yank t1 = Ok t2 ∧ text t2 = lit "ab".
Proof.
  destruct (kill_to_end_of_line (typed (lit "ab"))) as [t1|[]| |] eqn:E; vm_compute in E; try discriminate. injection E as <-.
  destruct (yank_restores_kill (typed (lit "ab")) kill_to_end_of_line _ (typed_reachable (lit "ab")) (list_elem_of_here _ _) eq_refl ltac:(vm_compute; discriminate)) as [(t2 & E2 & Et) _].
  eexists _, t2. split; [reflexivity|]. split; [reflexivity|]. by split.
Defined.
Lemma cursor_line_is_visible_witness : effective_scroll (typed (lit "ab")) 1 [(0, 3)] 5 = 0.
Proof. destruct (cursor_line_is_visible (typed (lit "ab")) 1 [(0, 3)] 5 ltac:(lia) ltac:(vm_compute; reflexivity)) as (_ & _ & H & _). apply H. vm_compute. discriminate. Defined.

(** * What the text area does not keep *)

(** An element added over the cursor leaves the cursor inside it: what is typed
    next goes to an end of the element, and the cursor stays where it was. Here
    the owner makes [/plan] an element when its fourth letter has been typed. *)
Lemma element_added_over_cursor :
  (t1 ← input (set_cursor (typed (lit "/pan now")) 2) (press (key "l") NONE);
   let t2 := (add_element_range t1 0 5).2 in
   t3 ← input t2 (press (key "x") NONE);
   Ok (cursor_pos t1, existsb (inside (cursor_pos t2)) (elements t2), text t3, cursor_pos t3)) = Ok (3, true, lit "/planx now", 3).
Proof. vm_compute. reflexivity. Qed.
