(* ===== verification/Turns.v ===== *)
(** The turns of a session: [codex-rs/core/src/tasks/mod.rs], the tasks
    ([tasks/regular.rs] and its siblings), the state of a turn
    ([state/turn.rs]), the pending input of [Session] and the loop of [run_turn]
    ([codex.rs]). The submission loop, the tasks and the schedulers that start a
    turn for pending work are threads that share the session; a step is what a
    thread does under one lock, or between two waits. What the model answers,
    what hooks and compaction decide and when a wait ends is chosen by the
    environment. Of the tasks other than the regular one, only that they work is
    modelled; the input a task is started with is its own and not in the ledger
    of what the session accepted. *)
From stdpp Require Import gmap relations.
From AAC_tactics Require Import AAC.
From AAC_tactics Require Instances.
From S2P Require Import Prelude RustStr Truncate History AgentPath Mailbox ToolCalls Sampling.
Import Instances.Lists.
#[local] Instance permutation_lift {A} : AAC_lift (@Permutation A) (@Permutation A).
Proof. constructor; apply _. Qed.

(** * Data *)

Inductive TaskKind : Type := Regular | Review | Compact.
(** The tasks that turns run. *)
Inductive SessionTask : Type := RegularTask | ReviewTask | CompactTask | UndoTask | UserShellCommandTask.
Definition task_kind (t : SessionTask) : TaskKind :=
  match t with
  | RegularTask | UndoTask | UserShellCommandTask => Regular
  | ReviewTask => Review
  | CompactTask => Compact
  end.
#[export] Instance TaskKind_eq_dec : EqDecision TaskKind.
Proof. solve_decision. Defined.
Inductive TurnAbortReason : Type := Interrupted | Replaced | ReviewEnded.
#[export] Instance TurnAbortReason_eq_dec : EqDecision TurnAbortReason.
Proof. solve_decision. Defined.

(** [UserInput]; the elements of a text are left out. *)
Inductive TurnInput : Type :=
| TextInput (text : str) | ImageInput (image_url : str) | LocalImageInput (path : str) | SkillInput (name path : str) | MentionInput (name path : str).
Inductive NonSteerableTurnKind : Type := NonSteerableReview | NonSteerableCompact.
Inductive SteerInputError : Type :=
| NoActiveTurn (input : list TurnInput) | ExpectedTurnMismatch (expected actual : str)
| ActiveTurnNotSteerable (turn_kind : NonSteerableTurnKind) | EmptyInput.

Section session.
Context {Data CallToolResult : Type}.
(** The JSON of a mail, and the content made from an image file and its number. *)
Context (to_json : InterAgentCommunication → str) (local_image : str → N → list ContentItem).
Abbreviation item := (@ResponseInputItem Data CallToolResult).

Definition to_response_input_item (m : InterAgentCommunication) : item := InputMessage (lit "assistant") [ContentOutputText (to_json m)].
(** [From<Vec<UserInput>>]; [index] counts the images. *)
Fixpoint input_content (index : N) (l : list TurnInput) : list ContentItem :=
  match l with
  | [] => []
  | TextInput text :: l => ContentInputText text :: input_content index l
  | ImageInput image_url :: l =>
      [ContentInputText (lit "<image>"); ContentInputImage image_url; ContentInputText (lit "</image>")] ++ input_content (index + 1) l
  | LocalImageInput path :: l => local_image path (index + 1) ++ input_content (index + 1) l
  | (SkillInput _ _ | MentionInput _ _) :: l => input_content index l
  end.
Definition of_user_input (l : list TurnInput) : item := InputMessage (lit "user") (input_content 0 l).

(** * The state of a turn *)

Record TurnState : Type := { pending_input : list item; mailbox_delivery_phase : MailboxDeliveryPhase }.
Definition turn_state_default : TurnState := {| pending_input := []; mailbox_delivery_phase := CurrentTurn |}.
Definition with_pending_input (l : list item) (ts : TurnState) : TurnState :=
  {| pending_input := l; mailbox_delivery_phase := mailbox_delivery_phase ts |}.
Definition push_pending_input (l : list item) (ts : TurnState) : TurnState := with_pending_input (pending_input ts ++ l) ts.
Definition prepend_pending_input (l : list item) (ts : TurnState) : TurnState := with_pending_input (l ++ pending_input ts) ts.
Definition clear_pending : TurnState → TurnState := with_pending_input [].
Definition has_pending_input (ts : TurnState) : bool := match pending_input ts with [] => false | _ => true end.
Definition set_mailbox_delivery_phase (p : MailboxDeliveryPhase) (ts : TurnState) : TurnState :=
  {| pending_input := pending_input ts; mailbox_delivery_phase := p |}.
Definition accepts_mailbox_delivery_for_current_turn (ts : TurnState) : bool :=
  match mailbox_delivery_phase ts with CurrentTurn => true | NextTurn => false end.

(** [running_thread] is the thread of the task; its cancellation token and its
    handle are the session's [cancelled] and [aborted]. *)
Record RunningTask : Type := { task_id : str; running_kind : TaskKind; running_thread : nat }.
(** [turn_state] is the index of the shared state. *)
Record ActiveTurn : Type := { tasks : list RunningTask; turn_state : nat }.
(** The map keeps the order of insertion; ids of turns are not given twice. *)
Definition add_task (t : RunningTask) (a : ActiveTurn) : ActiveTurn := {| tasks := tasks a ++ [t]; turn_state := turn_state a |}.
Definition swap_remove (id : str) (l : list RunningTask) : list RunningTask :=
  match list_find (λ t, task_id t = id) l with
  | Some (i, _) => match last l with Some t => take (length l - 1) (<[i := t]> l) | None => l end
  | None => l
  end.
Definition contains_task (id : str) (a : ActiveTurn) : bool := existsb (λ t, bool_decide (task_id t = id)) (tasks a).

(** * The session *)

Inductive TurnEvent : Type :=
| TurnStarted (id : str) | RequestSent (id : str) | TurnComplete (id : str) | TurnAborted (id : str) (reason : TurnAbortReason).
(** What became of the input, recorded for the theorems: what was accepted,
    what the history holds of it, what a hook refused, what was thrown away and
    what a starting turn brought; and the turns that were started. *)
Record ledger : Type := { accepted : list item; recorded : list item; blocked : list item; discarded : list item; carried : list item; started : list str }.
Record session : Type := {
  active_turn : option ActiveTurn; turn_states : list TurnState; idle_pending_input : list item;
  mails : list InterAgentCommunication; cancelled : gset nat; aborted : gset nat; turn_events : list TurnEvent; log : ledger }.
Definition with_active_turn (a : option ActiveTurn) (s : session) : session :=
  {| active_turn := a; turn_states := turn_states s; idle_pending_input := idle_pending_input s; mails := mails s;
     cancelled := cancelled s; aborted := aborted s; turn_events := turn_events s; log := log s |}.
Definition with_states (l : list TurnState) (s : session) : session :=
  {| active_turn := active_turn s; turn_states := l; idle_pending_input := idle_pending_input s; mails := mails s;
     cancelled := cancelled s; aborted := aborted s; turn_events := turn_events s; log := log s |}.
Definition with_mails (l : list InterAgentCommunication) (s : session) : session :=
  {| active_turn := active_turn s; turn_states := turn_states s; idle_pending_input := idle_pending_input s; mails := l;
     cancelled := cancelled s; aborted := aborted s; turn_events := turn_events s; log := log s |}.
Definition take_idle (s : session) : session :=
  {| active_turn := active_turn s; turn_states := turn_states s; idle_pending_input := []; mails := mails s;
     cancelled := cancelled s; aborted := aborted s; turn_events := turn_events s; log := log s |}.
Definition cancel_thread (i : nat) (s : session) : session :=
  {| active_turn := active_turn s; turn_states := turn_states s; idle_pending_input := idle_pending_input s; mails := mails s;
     cancelled := {[i]} ∪ cancelled s; aborted := aborted s; turn_events := turn_events s; log := log s |}.
Definition abort_handles (l : list nat) (s : session) : session :=
  {| active_turn := active_turn s; turn_states := turn_states s; idle_pending_input := idle_pending_input s; mails := mails s;
     cancelled := cancelled s; aborted := list_to_set l ∪ aborted s; turn_events := turn_events s; log := log s |}.
Definition send_event (e : TurnEvent) (s : session) : session :=
  {| active_turn := active_turn s; turn_states := turn_states s; idle_pending_input := idle_pending_input s; mails := mails s;
     cancelled := cancelled s; aborted := aborted s; turn_events := turn_events s ++ [e]; log := log s |}.
Definition with_log (f : ledger → ledger) (s : session) : session :=
  {| active_turn := active_turn s; turn_states := turn_states s; idle_pending_input := idle_pending_input s; mails := mails s;
     cancelled := cancelled s; aborted := aborted s; turn_events := turn_events s; log := f (log s) |}.
Definition accept (l : list item) (g : ledger) : ledger :=
  {| accepted := accepted g ++ l; recorded := recorded g; blocked := blocked g; discarded := discarded g; carried := carried g; started := started g |}.
Definition record (l : list item) (g : ledger) : ledger :=
  {| accepted := accepted g; recorded := recorded g ++ l; blocked := blocked g; discarded := discarded g; carried := carried g; started := started g |}.
Definition block (l : list item) (g : ledger) : ledger :=
  {| accepted := accepted g; recorded := recorded g; blocked := blocked g ++ l; discarded := discarded g; carried := carried g; started := started g |}.
Definition discard (l : list item) (g : ledger) : ledger :=
  {| accepted := accepted g; recorded := recorded g; blocked := blocked g; discarded := discarded g ++ l; carried := carried g; started := started g |}.
Definition carry (l : list item) (g : ledger) : ledger :=
  {| accepted := accepted g; recorded := recorded g; blocked := blocked g; discarded := discarded g; carried := carried g ++ l; started := started g |}.
Definition note_start (id : str) (g : ledger) : ledger :=
  {| accepted := accepted g; recorded := recorded g; blocked := blocked g; discarded := discarded g; carried := carried g; started := started g ++ [id] |}.
Definition update_state (i : nat) (f : TurnState → TurnState) (s : session) : session := with_states (alter f i (turn_states s)) s.
Definition state_of (a : ActiveTurn) (s : session) : TurnState := default turn_state_default (turn_states s !! turn_state a).
(** [get_or_insert_with(ActiveTurn::default)]. *)
Definition get_or_insert (s : session) : ActiveTurn * session :=
  match active_turn s with
  | Some a => (a, s)
  | None =>
      let a := {| tasks := []; turn_state := length (turn_states s) |} in
      (a, with_active_turn (Some a) (with_states (turn_states s ++ [turn_state_default]) s))
  end.

(** [Session::steer_input]; the last match of the code, on the kind of the first task. *)
Definition steer_input (input : list TurnInput) (expected_turn_id : option str) (s : session) : (SteerInputError + str) * session :=
  match input with
  | [] => (inl EmptyInput, s)
  | _ :: _ =>
      match active_turn s with
      | None => (inl (NoActiveTurn input), s)
      | Some a =>
          match tasks a with
          | [] => (inl (NoActiveTurn input), s)
          | t :: _ =>
              if match expected_turn_id with Some expected => negb (bool_decide (expected = task_id t)) | None => false end
              then (inl (ExpectedTurnMismatch (default [] expected_turn_id) (task_id t)), s)
              else
                match running_kind t with
                | Review => (inl (ActiveTurnNotSteerable NonSteerableReview), s)
                | Compact => (inl (ActiveTurnNotSteerable NonSteerableCompact), s)
                | Regular =>
                    (inr (task_id t),
                     with_log (accept [of_user_input input])
                       (update_state (turn_state a) (λ ts, set_mailbox_delivery_phase CurrentTurn (push_pending_input [of_user_input input] ts)) s))
                end
          end
      end
  end.
(** [Session::inject_response_items]: what it does not take goes back to the caller. *)
Definition inject_response_items (input : list item) (s : session) : option session :=
  (λ a, with_log (accept input) (update_state (turn_state a) (push_pending_input input) s)) <$> active_turn s.

(** * Threads *)

(** What a new task is started with. *)
Record start : Type := { start_id : str; start_task : SessionTask; start_input : list TurnInput }.
(** How the submission loop goes on once it has aborted the tasks. *)
Inductive after_abort : Type := StartsTask (t : start) | Goes.
(** Where [has_pending_input] is asked: at the beginning of [run_turn], when it
    has returned, and when a response is complete. *)
Inductive question : Type := AtEntry | AtReturn | AfterResponse (needs_follow_up : bool).
(** How a round goes on once its input is recorded. *)
Inductive after_input : Type := Requests | NextRound | Returns.
Inductive turn_stage : Type :=
(** The submission loop. *)
| Idle | SteersOrStarts (id : str) (input : list TurnInput) | Interrupts
(** [maybe_start_turn_for_pending_work]. *)
| CheckQueued (id : str) | CheckTrigger (id : str) | TakePlace (id : str)
(** [start_task]. *)
| TakeQueued (t : start) | TakeTurnPending (t : start) (queued : list item) | DrainForStart (t : start) (taken : list item)
| GetTurnState (t : start) (l : list item) | PushItems (t : start) (l : list item) (ts : nat) | AddTask (t : start)
(** [abort_all_tasks]. *)
| TakeActive (reason : TurnAbortReason) (k : after_abort)
| AbortTasks (reason : TurnAbortReason) (todo : list RunningTask) (ts : nat) (k : after_abort)
| AwaitDone (reason : TurnAbortReason) (t : RunningTask) (todo : list RunningTask) (ts : nat) (k : after_abort)
| EmitAborted (reason : TurnAbortReason) (t : RunningTask) (todo : list RunningTask) (ts : nat) (k : after_abort)
(** A task: its start, and [run_turn]. *)
| TaskStart (id : str) (task : SessionTask) (has_input : bool) | Prewarm (id : str) (has_input : bool) | Working (id : str)
| EnterTurn (id : str) (has_input : bool) | Preparing (id : str)
| Ask (id : str) (q : question) | AskMailbox (id : str) (q : question)
| Round (id : str) | TakePending (id : str) | DrainMail (id : str) (pending : list item)
| Inspect (id : str) (todo accepted : list item) | Requeue (id : str) (rest accepted : list item)
| RecordPending (id : str) (accepted : list item) (k : after_input)
| Request (id : str) | Respond (id : str) | FindForPhase (id : str) (p : MailboxDeliveryPhase) | SetPhase (id : str) (p : MailboxDeliveryPhase) (ts : nat)
| Responded (id : str) (needs_follow_up : bool)
| FlushRollout (id : str)
(** [on_task_finished]. *)
| Finish (id : str) | FinishTake (id : str) (ts : nat) | FinishRecord (id : str) (l : list item) (cleared : bool)
| Complete (id : str) (cleared : bool) | Schedule
| Ended | Dropped.

(** What the others decide at a step: an id for a new turn, whether a startup
    prewarm is cancelled, [run_turn] ends before or in a round, a hook accepts an
    item, what the model answers, and how the round goes on. *)
Inductive response : Type := Defers | Accepts | Completed (needs_follow_up : bool) | Fails (sanitized : bool).
Record turn_choice : Type := {
  uuid : str; prewarm_cancelled : bool; prelude_ends : bool; session_start_stops : bool; hook_accepts : bool; answer : response;
  token_limit_reached : bool; compact_fails : bool; stop_blocks : bool }.

(** [has_pending_input], [next] of its answer. *)
Definition after_question (id : str) (q : question) (b : bool) : turn_stage :=
  match q with
  | AtEntry => if b then Preparing id else Ask id AtReturn
  | AtReturn => if b then EnterTurn id false else FlushRollout id
  | AfterResponse needs => Responded id (needs || b)
  end.
(** Whether [run_turn] goes on to another round. *)
Definition goes_on (c : turn_choice) (needs_follow_up : bool) : bool :=
  if needs_follow_up then negb (token_limit_reached c && compact_fails c) else stop_blocks c.
Definition input_read (accepted : list item) (blocked requeued : bool) : after_input :=
  if blocked && bool_decide (accepted = []) then (if requeued then NextRound else Returns) else Requests.
Definition input_recorded (id : str) (k : after_input) : turn_stage :=
  match k with Requests => Request id | NextRound => Round id | Returns => Ask id AtReturn end.
(** The submission loop is the first thread. *)
Definition ends (me : nat) : turn_stage := match me with O => Idle | S _ => Ended end.
Definition after_tasks (c : turn_choice) (me : nat) (reason : TurnAbortReason) (k : after_abort) : turn_stage :=
  match k with
  | StartsTask t => TakeQueued t
  | Goes => if bool_decide (reason = Interrupted) then CheckQueued (uuid c) else ends me
  end.

(** ** Steps

    Each gives the next stage of the thread, the session and a thread that it
    starts. [me] is the number of the thread, [next] that of a new one. *)
(** [user_input_or_turn] and [interrupt_task], in the submission loop. *)
Definition loop_move (st : turn_stage) (s : session) : option (turn_stage * session * option turn_stage) :=
  match st with
  | SteersOrStarts id input =>
      Some (match steer_input input None s with
            | (inl (NoActiveTurn input), s) =>
                (TakeActive Replaced (StartsTask {| start_id := id; start_task := RegularTask; start_input := input |}), s, None)
            | (_, s) => (Idle, s, None)
            end)
  | Interrupts => Some (match active_turn s with Some _ => TakeActive Interrupted Goes | None => Idle end, s, None)
  | _ => None
  end.
(** [maybe_start_turn_for_pending_work_with_sub_id]. *)
Definition schedule_move (me : nat) (st : turn_stage) (s : session) : option (turn_stage * session * option turn_stage) :=
  match st with
  | CheckQueued id => Some (match idle_pending_input s with [] => CheckTrigger id | _ :: _ => TakePlace id end, s, None)
  | CheckTrigger id => Some (if existsb trigger_turn (mails s) then TakePlace id else ends me, s, None)
  | TakePlace id =>
      Some (match active_turn s with
            | Some _ => (ends me, s, None)
            | None => (TakeQueued {| start_id := id; start_task := RegularTask; start_input := [] |}, snd (get_or_insert s), None)
            end)
  | _ => None
  end.
(** [start_task]; the pending input and the mail are taken as [get_pending_input] does. *)
Definition start_move (me next : nat) (st : turn_stage) (s : session) : option (turn_stage * session * option turn_stage) :=
  match st with
  | TakeQueued t => Some (TakeTurnPending t (idle_pending_input s), take_idle s, None)
  | TakeTurnPending t queued =>
      Some (match active_turn s with
            | Some a =>
                let ts := state_of a s in
                (if accepts_mailbox_delivery_for_current_turn ts then DrainForStart t (queued ++ pending_input ts)
                 else GetTurnState t (queued ++ pending_input ts), update_state (turn_state a) clear_pending s, None)
            | None => (DrainForStart t queued, s, None)
            end)
  | DrainForStart t taken => Some (GetTurnState t (taken ++ map to_response_input_item (mails s)), with_mails [] s, None)
  | GetTurnState t l => let '(a, s) := get_or_insert s in Some (PushItems t l (turn_state a), s, None)
  | PushItems t l ts => Some (AddTask t, with_log (carry l) (update_state ts (push_pending_input l) s), None)
  | AddTask t =>
      let '(a, s) := get_or_insert s in
      let running := {| task_id := start_id t; running_kind := task_kind (start_task t); running_thread := next |} in
      Some (ends me, with_log (note_start (start_id t)) (with_active_turn (Some (add_task running a)) s),
            Some (TaskStart (start_id t) (start_task t) (negb (bool_decide (start_input t = [])))))
  | _ => None
  end.
(** [abort_all_tasks], with the beginning of [handle_task_abort]. *)
Definition abort_move (me : nat) (c : turn_choice) (st : turn_stage) (s : session) : option (turn_stage * session * option turn_stage) :=
  match st with
  | TakeActive reason k =>
      Some (match active_turn s with
            | Some a => (AbortTasks reason (tasks a) (turn_state a) k, with_active_turn None s, None)
            | None => (after_tasks c me reason k, s, None)
            end)
  | AbortTasks reason todo ts k =>
      Some (match todo with
            | t :: todo =>
                if bool_decide (running_thread t ∈ cancelled s) then (AbortTasks reason todo ts k, abort_handles [running_thread t] s, None)
                else (AwaitDone reason t todo ts k, cancel_thread (running_thread t) s, None)
            | [] =>
                (after_tasks c me reason k,
                 with_log (discard (pending_input (default turn_state_default (turn_states s !! ts)))) (update_state ts clear_pending s), None)
            end)
  | _ => None
  end.
(** The rest of [handle_task_abort]: the task is given time to end, then dropped. *)
Definition task_abort_move (st : turn_stage) (s : session) : option (turn_stage * session * option turn_stage) :=
  match st with
  | AwaitDone reason t todo ts k => Some (EmitAborted reason t todo ts k, abort_handles [running_thread t] s, None)
  | EmitAborted reason t todo ts k => Some (AbortTasks reason todo ts k, send_event (TurnAborted (task_id t) reason) s, None)
  | _ => None
  end.
(** [RegularTask::run]; of the other tasks, that they work. *)
Definition task_move (c : turn_choice) (st : turn_stage) (s : session) : option (turn_stage * session * option turn_stage) :=
  match st with
  | TaskStart id task has_input =>
      Some (match task with
            | RegularTask => (Prewarm id has_input, send_event (TurnStarted id) s, None)
            | _ => (Working id, s, None)
            end)
  | Prewarm id has_input => Some (if prewarm_cancelled c then FlushRollout id else EnterTurn id has_input, s, None)
  | Working id => Some (FlushRollout id, s, None)
  | _ => None
  end.
(** [has_pending_input]. *)
Definition pending_move (st : turn_stage) (s : session) : option (turn_stage * session * option turn_stage) :=
  match st with
  | Ask id q =>
      Some (match active_turn s with
            | Some a =>
                let ts := state_of a s in
                if has_pending_input ts then after_question id q true
                else if accepts_mailbox_delivery_for_current_turn ts then AskMailbox id q else after_question id q false
            | None => AskMailbox id q
            end, s, None)
  | AskMailbox id q => Some (after_question id q (negb (bool_decide (mails s = []))), s, None)
  | _ => None
  end.
(** [run_turn]. *)
Definition round_move (c : turn_choice) (st : turn_stage) (s : session) : option (turn_stage * session * option turn_stage) :=
  match st with
  | EnterTurn id has_input => Some (if has_input then Preparing id else Ask id AtEntry, s, None)
  | Preparing id => Some (if prelude_ends c then Ask id AtReturn else Round id, s, None)
  | Round id => Some (if session_start_stops c then Ask id AtReturn else TakePending id, s, None)
  | TakePending id =>
      Some (match active_turn s with
            | Some a =>
                let ts := state_of a s in
                (if accepts_mailbox_delivery_for_current_turn ts then DrainMail id (pending_input ts) else Inspect id (pending_input ts) [],
                 update_state (turn_state a) clear_pending s, None)
            | None => (DrainMail id [], s, None)
            end)
  | DrainMail id pending => Some (Inspect id (pending ++ map to_response_input_item (mails s)) [], with_mails [] s, None)
  | Inspect id todo accepted =>
      Some (match todo with
            | [] => (RecordPending id accepted (input_read accepted false false), s, None)
            | i :: rest =>
                if hook_accepts c then (Inspect id rest (accepted ++ [i]), s, None)
                else (match rest with
                      | [] => RecordPending id accepted (input_read accepted true false)
                      | _ :: _ => Requeue id rest accepted
                      end, with_log (block [i]) s, None)
            end)
  | Requeue id rest accepted =>
      Some (RecordPending id accepted (input_read accepted true true),
            match active_turn s with
            | Some a => update_state (turn_state a) (prepend_pending_input rest) s
            | None => with_log (discard rest) s
            end, None)
  | RecordPending id accepted k =>
      Some (match accepted with
            | [] => (input_recorded id k, s, None)
            | i :: accepted => (RecordPending id accepted k, with_log (record [i]) s, None)
            end)
  | Request id => Some (Respond id, send_event (RequestSent id) s, None)
  | Respond id =>
      Some (match answer c with
            | Defers => FindForPhase id NextTurn
            | Accepts => FindForPhase id CurrentTurn
            | Completed needs_follow_up => Ask id (AfterResponse needs_follow_up)
            | Fails sanitized => if sanitized then Round id else Ask id AtReturn
            end, s, None)
  | Responded id needs_follow_up => Some (if goes_on c needs_follow_up then Round id else Ask id AtReturn, s, None)
  | _ => None
  end.
(** [defer_mailbox_delivery_to_next_turn] and [accept_mailbox_delivery_for_current_turn]. *)
Definition phase_move (st : turn_stage) (s : session) : option (turn_stage * session * option turn_stage) :=
  match st with
  | FindForPhase id p =>
      Some (match active_turn s with
            | Some a => if contains_task id a then SetPhase id p (turn_state a) else Respond id
            | None => Respond id
            end, s, None)
  | SetPhase id p ts =>
      Some (Respond id,
            update_state ts (λ t, match p with NextTurn => if has_pending_input t then t else set_mailbox_delivery_phase p t
                                             | CurrentTurn => set_mailbox_delivery_phase p t end) s, None)
  | _ => None
  end.
(** What follows the run of a task, and [on_task_finished]. *)
Definition finish_move (me : nat) (c : turn_choice) (st : turn_stage) (s : session) : option (turn_stage * session * option turn_stage) :=
  match st with
  | FlushRollout id => Some (if bool_decide (me ∈ cancelled s) then Ended else Finish id, s, None)
  | Finish id =>
      Some (match active_turn s with
            | Some a =>
                let s := abort_handles (map running_thread (filter (λ t, task_id t = id) (tasks a))) s in
                match swap_remove id (tasks a) with
                | [] => (FinishTake id (turn_state a), with_active_turn None s, None)
                | l => (Complete id false, with_active_turn (Some {| tasks := l; turn_state := turn_state a |}) s, None)
                end
            | None => (Complete id false, s, None)
            end)
  | FinishTake id ts =>
      Some (FinishRecord id (pending_input (default turn_state_default (turn_states s !! ts))) true, update_state ts clear_pending s, None)
  | FinishRecord id l cleared =>
      Some (match l with
            | [] => (Complete id cleared, s, None)
            | i :: l => (FinishRecord id l cleared, with_log (if hook_accepts c then record [i] else block [i]) s, None)
            end)
  | Complete id cleared => Some (if cleared then Schedule else Ended, send_event (TurnComplete id) s, None)
  | Schedule => Some (Ended, s, Some (CheckQueued (uuid c)))
  | _ => None
  end.
(** One step of thread [me]. *)
Definition turn_move (me next : nat) (c : turn_choice) (st : turn_stage) (s : session) : option (turn_stage * session * option turn_stage) :=
  match st with
  | SteersOrStarts _ _ | Interrupts => loop_move st s
  | CheckQueued _ | CheckTrigger _ | TakePlace _ => schedule_move me st s
  | TakeQueued _ | TakeTurnPending _ _ | DrainForStart _ _ | GetTurnState _ _ | PushItems _ _ _ | AddTask _ => start_move me next st s
  | TakeActive _ _ | AbortTasks _ _ _ _ => abort_move me c st s
  | AwaitDone _ _ _ _ _ | EmitAborted _ _ _ _ _ => task_abort_move st s
  | TaskStart _ _ _ | Prewarm _ _ | Working _ => task_move c st s
  | Ask _ _ | AskMailbox _ _ => pending_move st s
  | EnterTurn _ _ | Preparing _ | Round _ | TakePending _ | DrainMail _ _ | Inspect _ _ _ | Requeue _ _ _ | RecordPending _ _ _ | Request _ | Respond _ | Responded _ _ => round_move c st s
  | FindForPhase _ _ | SetPhase _ _ _ => phase_move st s
  | FlushRollout _ | Finish _ | FinishTake _ _ | FinishRecord _ _ _ | Complete _ _ | Schedule => finish_move me c st s
  | Idle | Ended | Dropped => None
  end.

(** * Runs *)

Record session_world : Type := { world_session : session; threads : list turn_stage }.
Definition session_initial : session_world :=
  {| world_session := {| active_turn := None; turn_states := []; idle_pending_input := []; mails := []; cancelled := ∅; aborted := ∅;
                         turn_events := []; log := {| accepted := []; recorded := []; blocked := []; discarded := []; carried := []; started := [] |} |};
     threads := [Idle] |}.
Inductive operation : Type :=
| OpUserInput (id : str) (input : list TurnInput) | OpInterrupt | OpInterAgentCommunication (id : str) (m : InterAgentCommunication)
| OpRunUserShellCommand (id : str) | OpCompact (id : str) (prompt : list TurnInput) | OpUndo (id : str)
| OpReview (id : str) (prompt : list TurnInput) | OpShutdown.
Definition spawn_task (id : str) (task : SessionTask) (input : list TurnInput) : turn_stage :=
  TakeActive Replaced (StartsTask {| start_id := id; start_task := task; start_input := input |}).
(** The first step of an operation of the submission loop. *)
Definition submit (o : operation) (s : session) : turn_stage * session :=
  match o with
  | OpUserInput id input => (SteersOrStarts id input, s)
  | OpInterrupt => (Interrupts, s)
  | OpInterAgentCommunication id m =>
      (if trigger_turn m then CheckQueued id else Idle, with_log (accept [to_response_input_item m]) (with_mails (mails s ++ [m]) s))
  | OpRunUserShellCommand id =>
      (match active_turn s with
       | Some a => match tasks a with _ :: _ => Idle | [] => spawn_task id UserShellCommandTask [] end
       | None => spawn_task id UserShellCommandTask []
       end, s)
  | OpCompact id prompt => (spawn_task id CompactTask prompt, s)
  | OpUndo id => (spawn_task id UndoTask [], s)
  | OpReview id prompt => (spawn_task id ReviewTask prompt, s)
  | OpShutdown => (TakeActive Interrupted Goes, s)
  end.
(** The items a thread holds. *)
Definition hand (st : turn_stage) : list item :=
  match st with
  | TakeTurnPending _ l | DrainForStart _ l | GetTurnState _ l | PushItems _ l _ | DrainMail _ l | RecordPending _ l _ | FinishRecord _ l _ => l
  | Inspect _ l l' | Requeue _ l l' => l' ++ l
  | _ => []
  end.
(** The loop takes an operation when it is idle; clients steer, and tools and
    others inject, at any time; an aborted task is dropped where it waits. *)
Inductive session_event : Type :=
| Submits (o : operation) | Moves (i : nat) (c : turn_choice) | Steers (input : list TurnInput) (expected : option str) | Injects (l : list item) | Drops (i : nat).
Definition session_perform (e : session_event) (w : session_world) : option session_world :=
  let s := world_session w in
  match e with
  | Submits o =>
      match threads w with
      | Idle :: l => let '(st, s) := submit o s in Some {| world_session := s; threads := st :: l |}
      | _ => None
      end
  | Moves i c =>
      st ← threads w !! i;
      '(st', s', spawned) ← turn_move i (length (threads w)) c st s;
      Some {| world_session := s'; threads := <[i := st']> (threads w) ++ option_list spawned |}
  | Steers input expected => Some {| world_session := snd (steer_input input expected s); threads := threads w |}
  | Injects l => (λ s, {| world_session := s; threads := threads w |}) <$> inject_response_items l s
  | Drops i =>
      st ← threads w !! i;
      if bool_decide (i ∈ aborted s) then Some {| world_session := with_log (discard (hand st)) s; threads := <[i := Dropped]> (threads w) |}
      else None
  end.
(** Ids of turns are not given twice. *)
Definition ids_are_new (w : session_world) (e : session_event) : Prop :=
  ∀ i c t, e = Moves i c → threads w !! i = Some (AddTask t) → start_id t ∉ started (log (world_session w)).
Definition session_step (P : session_world → session_event → Prop) (w w' : session_world) : Prop :=
  ∃ e, ids_are_new w e ∧ P w e ∧ session_perform e w = Some w'.

(** * Lemmas on the state *)

Lemma pendings_alter (f : TurnState → TurnState) i (l : list TurnState) t :
  l !! i = Some t → concat (pending_input <$> alter f i l) ++ pending_input t ≡ₚ concat (pending_input <$> l) ++ pending_input (f t).
Proof.
  revert i. induction l as [|u l IH]; intros [|i] H; [done..| |]; cbn in *.
  - injection H as ->. aac_reflexivity.
  - rewrite <- app_assoc, (IH i H). aac_reflexivity.
Qed.
Definition pendings (s : session) : list item := concat (pending_input <$> turn_states s).
Lemma pendings_clear i s t : turn_states s !! i = Some t → pendings s ≡ₚ pendings (update_state i clear_pending s) ++ pending_input t.
Proof. intros H. unfold pendings. cbn. rewrite (pendings_alter clear_pending i _ t H). cbn. by rewrite app_nil_r. Qed.
Lemma pendings_add f l i s t :
  turn_states s !! i = Some t → pending_input (f t) ≡ₚ pending_input t ++ l → pendings (update_state i f s) ≡ₚ pendings s ++ l.
Proof.
  intros H E. unfold pendings. cbn. apply (Permutation_app_inv_r (pending_input t)). rewrite (pendings_alter f i _ t H), E. aac_reflexivity.
Qed.
Lemma concat_insert {A B} (f : A → list B) (l : list A) i a b :
  l !! i = Some a → concat (f <$> <[i := b]> l) ++ f a ≡ₚ concat (f <$> l) ++ f b.
Proof.
  intros H. rewrite <- (take_drop_middle l i a H) at 2.
  rewrite (insert_take_drop l i b) by by eapply lookup_lt_Some. rewrite !fmap_app, !concat_app. cbn. aac_reflexivity.
Qed.
End session.
