(* ===== verification/TurnTasks.v ===== *)
(** The tasks of a session and the input it holds: what every step preserves,
    however the threads interleave. *)
From stdpp Require Import gmap relations.
From AAC_tactics Require Import AAC.
From AAC_tactics Require Instances.
From S2P Require Import Prelude RustStr Truncate History AgentPath Mailbox ToolCalls Sampling Turns.
Import Instances.Lists.
#[local] Existing Instance permutation_lift.

(** The body of a step, and its matches, each with its equation. *)
Ltac open_move H := cbn [turn_move loop_move schedule_move start_move abort_move task_abort_move task_move pending_move round_move phase_move finish_move] in H.
Ltac turn_cases H :=
  repeat lazymatch type of H with
    | None = Some _ => discriminate H
    | context [match ?x with _ => _ end] => destruct x eqn:?
    | Some _ = Some _ => injection H as <- <- <-
    end.

(** Makes each cons an append. *)
Ltac appends := repeat match goal with |- context [?r :: ?l] => lazymatch l with [] => fail | _ => change (r :: l) with ([r] ++ l) end end.

Section tasks.
Context {Data CallToolResult : Type} {to_json : InterAgentCommunication → str} {local_image : str → N → list ContentItem}.
Abbreviation item := (@ResponseInputItem Data CallToolResult).
Abbreviation session := (@session Data CallToolResult).
Abbreviation session_world := (@session_world Data CallToolResult).
Abbreviation session_event := (@session_event Data CallToolResult).
Abbreviation turn_stage := (@turn_stage Data CallToolResult).
#[local] Abbreviation turn_move := (turn_move to_json local_image).
#[local] Abbreviation session_perform := (session_perform to_json local_image).
#[local] Abbreviation session_step := (session_step to_json local_image).
Implicit Types (s : session) (w : session_world) (st : turn_stage).

(** * Conservation *)

(** The input a session holds, what became of the rest. *)
Definition held_input s : list item := idle_pending_input s ++ map (to_response_input_item to_json) (mails s) ++ pendings s.
Definition dealt_with (g : @ledger Data CallToolResult) : list item := recorded g ++ blocked g ++ discarded g.
(** The shared states a thread refers to. *)
Definition stage_states st : list nat :=
  match st with PushItems _ _ ts | AbortTasks _ _ ts _ | AwaitDone _ _ _ ts _ | EmitAborted _ _ _ ts _ | SetPhase _ _ ts | FinishTake _ ts => [ts] | _ => [] end.
Definition states_ok s st : Prop := Forall (λ i, i < length (turn_states s)) (stage_states st).
Definition active_ok s : Prop := match active_turn s with Some a => turn_state a < length (turn_states s) | None => True end.

Lemma state_lookup s i : i < length (turn_states s) → turn_states s !! i = Some (default turn_state_default (turn_states s !! i)).
Proof. intros H. destruct (lookup_lt_is_Some_2 _ _ H) as [t E]. by rewrite E. Qed.
Lemma log_update_state i f s : log (update_state i f s) = log s. Proof. done. Qed.
Lemma log_with_log f s : log (with_log f s) = f (log s). Proof. done. Qed.
Lemma log_with_mails l s : log (with_mails l s) = log s. Proof. done. Qed.
Lemma log_with_active a s : log (with_active_turn a s) = log s. Proof. done. Qed.
Lemma log_take_idle s : log (take_idle s) = log s. Proof. done. Qed.
Lemma held_with_log f s : held_input (with_log f s) = held_input s. Proof. done. Qed.
Lemma held_with_active a s : held_input (with_active_turn a s) = held_input s. Proof. done. Qed.
Create Rewrite HintDb turns.
#[local] Hint Rewrite log_update_state log_with_log log_with_mails log_with_active log_take_idle held_with_log held_with_active : turns.
Lemma held_take_idle s : idle_pending_input s ++ held_input (take_idle s) = held_input s.
Proof. done. Qed.
Lemma held_with_mails s l : held_input (with_mails (mails s ++ l) s) ≡ₚ map (to_response_input_item to_json) l ++ held_input s.
Proof. unfold held_input, pendings. cbn. rewrite map_app. aac_reflexivity. Qed.
Lemma held_drain s : map (to_response_input_item to_json) (mails s) ++ held_input (with_mails [] s) ≡ₚ held_input s.
Proof. unfold held_input, pendings. cbn. aac_reflexivity. Qed.
Definition pending_at i s : list item := pending_input (default turn_state_default (turn_states s !! i)).
Lemma held_clear i s : i < length (turn_states s) → pending_at i s ++ held_input (update_state i clear_pending s) ≡ₚ held_input s.
Proof. intros H. unfold held_input, pending_at. rewrite (pendings_clear i s _ (state_lookup s i H)). cbn. aac_reflexivity. Qed.
Lemma held_add f l i s :
  i < length (turn_states s) → (∀ t, pending_input (f t) ≡ₚ pending_input t ++ l) → held_input (update_state i f s) ≡ₚ l ++ held_input s.
Proof. intros H Hf. unfold held_input. rewrite (pendings_add f l i s _ (state_lookup s i H) (Hf _)). cbn. aac_reflexivity. Qed.
Lemma get_or_insert_spec s a s' :
  get_or_insert s = (a, s') → active_ok s →
  turn_state a < length (turn_states s') ∧ active_turn s' = Some a ∧ held_input s' = held_input s ∧ log s' = log s ∧
  length (turn_states s) ≤ length (turn_states s').
Proof.
  unfold get_or_insert, active_ok. destruct (active_turn s) as [a0|] eqn:E; intros [= <- <-] H; [done|].
  cbn. rewrite length_app. unfold held_input, pendings. cbn. rewrite fmap_app, concat_app. cbn. rewrite !app_nil_r. split_and!; [lia|done..|lia].
Qed.
Lemma steer_input_spec input expected s r s' :
  steer_input local_image input expected s = (r, s') →
  (s' = s) ∨ ∃ a i, active_turn s = Some a ∧ tasks a ≠ [] ∧
    s' = with_log (accept [i]) (update_state (turn_state a) (λ ts, set_mailbox_delivery_phase CurrentTurn (push_pending_input [i] ts)) s).
Proof.
  unfold steer_input. intros H. destruct input as [|i0 input]; [injection H as _ <-; by left|]. destruct (active_turn s) as [a|] eqn:E; [|injection H as _ <-; by left].
  destruct (tasks a) as [|t l] eqn:Et; [injection H as _ <-; by left|]. destruct (match expected with Some _ => _ | None => _ end); [injection H as _ <-; by left|].
  destruct (running_kind t); injection H as _ <-; [|by left..]. right. exists a. eexists. split_and!; [done|by rewrite Et|done].
Qed.


Lemma hand_answered id q b : hand (@after_question Data CallToolResult id q b) = [].
Proof. destruct q, b; done. Qed.
Lemma hand_input_recorded id k : hand (@input_recorded Data CallToolResult id k) = [].
Proof. by destruct k. Qed.
Lemma hand_ends me : hand (@ends Data CallToolResult me) = [].
Proof. by destruct me. Qed.
Lemma hand_after_tasks c me reason k : hand (@after_tasks Data CallToolResult c me reason k) = [].
Proof. unfold after_tasks. repeat case_match; done || apply hand_ends. Qed.

Lemma steer_conserves input expected s r s' :
  steer_input local_image input expected s = (r, s') → active_ok s →
  ∃ l, accepted (log s') = accepted (log s) ++ l ∧ held_input s' ++ dealt_with (log s') ≡ₚ l ++ held_input s ++ dealt_with (log s).
Proof.
  intros H Ha. destruct (steer_input_spec _ _ _ _ _ H) as [->|(a & i & E & _ & ->)]; [exists []; by rewrite app_nil_r|].
  unfold active_ok in Ha. rewrite E in Ha. exists [i]. split; [done|]. autorewrite with turns. rewrite (held_add _ [i]) by done.
  unfold dealt_with. cbn. aac_reflexivity.
Qed.

Lemma move_conserves me next c st s st' s' sp :
  turn_move me next c st s = Some (st', s', sp) → active_ok s → states_ok s st →
  ∃ l, accepted (log s') = accepted (log s) ++ l ∧
  hand st' ++ held_input s' ++ dealt_with (log s') ≡ₚ l ++ hand st ++ held_input s ++ dealt_with (log s) ∧
  (∀ x, sp = Some x → hand x = []).
Proof.
  intros H Ha Hs. pose proof Ha as Ha'. unfold active_ok, states_ok in Ha, Hs.
  destruct st; cbn [turn_move loop_move schedule_move start_move abort_move task_abort_move task_move pending_move round_move phase_move finish_move stage_states] in *; try discriminate H; turn_cases H.
  all: try match goal with E : steer_input _ _ _ _ = _ |- _ =>
    destruct (steer_conserves _ _ _ _ _ E Ha') as (l' & El & Eh); exists l'; split; [exact El|split; [exact Eh|by intros ? [=]]] end.
  all: try match goal with |- context [(get_or_insert ?s).2] => destruct (get_or_insert s) eqn:? end; cbn [fst snd].
  all: exists []; rewrite app_nil_r.
  all: try (split; [done|]; split; [|by intros ? [= <-]];
    cbn [hand]; rewrite ?hand_answered, ?hand_ends, ?hand_after_tasks, ?hand_input_recorded, ?app_nil_r; done).
  all: try match goal with E : get_or_insert _ = _ |- _ =>
    destruct (get_or_insert_spec _ _ _ E Ha') as (_ & _ & Eh & El & _); autorewrite with turns; rewrite Eh, El;
    split; [done|]; split; [|by intros ? [= <-]]; cbn [hand]; rewrite ?hand_ends; done end.
  all: try (apply Forall_cons in Hs as [Hs _]).
  all: try (split; [done|]; split; [|by intros ? [= <-]]).
  all: autorewrite with turns.
  all: try (rewrite <- (held_drain s); cbn [hand]; aac_reflexivity).
  all: try (rewrite <- (held_clear _ _ Ha); change (pending_input (state_of a s)) with (pending_at (turn_state a) s);
    cbn [hand]; rewrite ?app_nil_r; aac_reflexivity).
  all: try (rewrite <- (held_clear _ _ Hs); unfold pending_at; unfold dealt_with; cbn [hand]; rewrite ?hand_after_tasks; cbn; aac_reflexivity).
  all: try (unfold dealt_with; cbn; rewrite ?hand_input_recorded; appends; aac_reflexivity).
  - rewrite <- (held_take_idle s). cbn [hand]. aac_reflexivity.
  - rewrite (held_add _ l) by done. unfold dealt_with. cbn. aac_reflexivity.
  - rewrite (held_add _ rest) by (done || (intros ?; cbn; aac_reflexivity)). cbn. aac_reflexivity.
  - rewrite (held_add _ []); [done..|]. intros ?. cbn. by rewrite app_nil_r.
  - rewrite (held_add _ []); [done..|]. intros u. rewrite app_nil_r. by destruct (has_pending_input u).
Qed.

(** * Well-formedness *)

Inductive role : Type := Looping | Checking | Starting | Aborting | Unfinished (id : str) | Finishing | Over.
Definition stage_role st : role :=
  match st with
  | Idle | SteersOrStarts _ _ | Interrupts => Looping
  | CheckQueued _ | CheckTrigger _ | TakePlace _ => Checking
  | TakeQueued _ | TakeTurnPending _ _ | DrainForStart _ _ | GetTurnState _ _ | PushItems _ _ _ | AddTask _ => Starting
  | TakeActive _ _ | AbortTasks _ _ _ _ | AwaitDone _ _ _ _ _ | EmitAborted _ _ _ _ _ => Aborting
  | TaskStart id _ _ | Prewarm id _ | Working id | EnterTurn id _ | Preparing id | Ask id _ | AskMailbox id _ | Round id | TakePending id
  | DrainMail id _ | Inspect id _ _ | Requeue id _ _ | RecordPending id _ _ | Request id | Respond id | FindForPhase id _ | SetPhase id _ _
  | Responded id _ | FlushRollout id | Finish id => Unfinished id
  | FinishTake _ _ | FinishRecord _ _ _ | Complete _ _ | Schedule => Finishing
  | Ended | Dropped => Over
  end.
Definition of_loop st : bool := match stage_role st with Looping | Checking | Starting | Aborting => true | _ => false end.
Definition of_task st : bool := match stage_role st with Unfinished _ | Finishing | Over => true | _ => false end.
Definition todo st : list RunningTask :=
  match st with AbortTasks _ l _ _ | AwaitDone _ _ l _ _ | EmitAborted _ _ l _ _ => l | _ => [] end.
Definition awaited st : option RunningTask := match st with AwaitDone _ t _ _ _ | EmitAborted _ t _ _ _ => Some t | _ => None end.
Definition active_tasks s : list RunningTask := match active_turn s with Some a => tasks a | None => [] end.
(** The tasks of the active turn, and those that are still to be aborted. *)
Definition running w : list RunningTask := active_tasks (world_session w) ++ concat (todo <$> threads w).

Record session_wf w : Prop := {
  wf_active : active_ok (world_session w);
  wf_stages i st : threads w !! i = Some st → states_ok (world_session w) st;
  wf_loop : ∃ st, threads w !! 0 = Some st ∧ of_loop st = true;
  wf_ids : NoDup (task_id <$> running w);
  wf_threads : NoDup (running_thread <$> running w);
  wf_started t : t ∈ running w → task_id t ∈ started (log (world_session w));
  wf_going t : t ∈ running w → running_thread t ∉ (cancelled (world_session w) ∪ aborted (world_session w));
  wf_unfinished t : t ∈ active_tasks (world_session w) →
    ∃ st, threads w !! running_thread t = Some st ∧ stage_role st = Unfinished (task_id t);
  wf_tasks i : i ∈ running_thread <$> running w ∨ i ∈ (cancelled (world_session w) ∪ aborted (world_session w)) →
    ∃ st, threads w !! i = Some st ∧ of_task st = true;
  wf_awaited i st t : threads w !! i = Some st → awaited st = Some t → running_thread t ∈ cancelled (world_session w);
  wf_idle : idle_pending_input (world_session w) = [] }.

(** ** What a move changes *)

Lemma role_answered id q b : stage_role (@after_question Data CallToolResult id q b) = Unfinished id.
Proof. by destruct q, b. Qed.
Lemma role_input_recorded id k : stage_role (@input_recorded Data CallToolResult id k) = Unfinished id.
Proof. by destruct k. Qed.
Lemma of_loop_after_tasks c reason k : of_loop (@after_tasks Data CallToolResult c 0 reason k) = true.
Proof. unfold after_tasks. by repeat case_match. Qed.
Lemma move_role me next c st s st' s' sp :
  turn_move me next c st s = Some (st', s', sp) →
  (me = 0 → of_loop st = true → of_loop st' = true) ∧ (of_task st = true → of_task st' = true) ∧
  ∀ id, stage_role st = Unfinished id → stage_role st' = Unfinished id ∨ st = Finish id ∨ (st = FlushRollout id ∧ me ∈ cancelled s).
Proof.
  intros H. destruct st; open_move H; try discriminate H; turn_cases H.
  all: split_and!; try done; try (intros ->; unfold of_loop; cbn; done); unfold of_task; cbn [stage_role]; rewrite ?role_answered, ?role_input_recorded; try done.
  all: try (intros ? [= <-]; auto; done).
  - intros -> _. apply of_loop_after_tasks.
  - intros -> _. apply of_loop_after_tasks.
  - intros ? [= <-]. right; right. split; [done|]. by eapply bool_decide_eq_true_1.
Qed.

(** What the well-formedness of the tasks depends on. *)
Definition same_tasks s s' : Prop :=
  active_tasks s' = active_tasks s ∧ cancelled s' = cancelled s ∧ aborted s' = aborted s ∧ started (log s') = started (log s).
Definition moves_tasks st : bool :=
  match st with AddTask _ | TakeActive _ _ | AbortTasks _ _ _ _ | AwaitDone _ _ _ _ _ | Finish _ => true | _ => false end.
Lemma get_or_insert_tasks s a s' : get_or_insert s = (a, s') → same_tasks s s' ∧ tasks a = active_tasks s ∧ idle_pending_input s' = idle_pending_input s.
Proof. unfold get_or_insert, same_tasks, active_tasks. by destruct (active_turn s) eqn:E; intros [= <- <-]; cbn; rewrite ?E. Qed.
Lemma steer_tasks input expected s r s' :
  steer_input local_image input expected s = (r, s') → same_tasks s s' ∧ idle_pending_input s' = idle_pending_input s.
Proof. intros H. by destruct (steer_input_spec _ _ _ _ _ H) as [->|(a & i & _ & _ & ->)]. Qed.
Lemma move_tasks me next c st s st' s' sp :
  turn_move me next c st s = Some (st', s', sp) → moves_tasks st = false →
  same_tasks s s' ∧ todo st' = todo st ∧ (∀ t, awaited st' = Some t → awaited st = Some t) ∧
  ∀ x, sp = Some x → st = Schedule ∧ x = CheckQueued (uuid c).
Proof.
  intros H Hm. destruct st; open_move H; try discriminate H; try discriminate Hm; turn_cases H.
  all: try match goal with E : steer_input _ ?i ?e ?s = _ |- _ => destruct (steer_tasks _ _ _ _ _ E) end.
  all: try match goal with |- context [(get_or_insert ?s).2] => destruct (get_or_insert s) eqn:? end; cbn [snd].
  all: try match goal with E : get_or_insert _ = _ |- _ => destruct (get_or_insert_tasks _ _ _ E) as (? & ? & ?) end.
  all: try (split_and!; try done; by intros ? [= <-]).
  all: try by destruct me.
  all: try by destruct q.
  - by destruct q, (bool_decide _).
  - by destruct k.
Qed.
Lemma states_answered id q b : stage_states (@after_question Data CallToolResult id q b) = [].
Proof. by destruct q, b. Qed.
Lemma states_input_recorded id k : stage_states (@input_recorded Data CallToolResult id k) = [].
Proof. by destruct k. Qed.
Lemma states_ends me : stage_states (@ends Data CallToolResult me) = [].
Proof. by destruct me. Qed.
Lemma states_after_tasks c me reason k : stage_states (@after_tasks Data CallToolResult c me reason k) = [].
Proof. unfold after_tasks. repeat case_match; done || apply states_ends. Qed.
#[local] Hint Rewrite states_answered states_input_recorded states_ends states_after_tasks : turns.
Lemma steer_states input expected s r s' :
  steer_input local_image input expected s = (r, s') → active_ok s → active_ok s' ∧ length (turn_states s') = length (turn_states s).
Proof.
  intros H Ha. destruct (steer_input_spec _ _ _ _ _ H) as [->|(a & i & _ & _ & ->)]; [done|].
  unfold active_ok in *. cbn. by rewrite length_alter.
Qed.
Lemma move_states me next c st s st' s' sp :
  turn_move me next c st s = Some (st', s', sp) → active_ok s → states_ok s st → idle_pending_input s = [] →
  active_ok s' ∧ length (turn_states s) ≤ length (turn_states s') ∧ states_ok s' st' ∧ idle_pending_input s' = [].
Proof.
  intros H Ha Hs Hi. pose proof Ha as Ha'. unfold active_ok, states_ok in Ha, Hs.
  destruct st; cbn [turn_move loop_move schedule_move start_move abort_move task_abort_move task_move pending_move round_move phase_move finish_move stage_states] in *; try discriminate H; turn_cases H.
  all: try match goal with |- context [(get_or_insert ?s).2] => destruct (get_or_insert s) eqn:? end; cbn [snd].
  all: try match goal with E : get_or_insert _ = _ |- _ =>
    destruct (get_or_insert_spec _ _ _ E Ha') as (? & Ea & _ & _ & ?); destruct (get_or_insert_tasks _ _ _ E) as (_ & _ & ?);
    unfold active_ok, states_ok; autorewrite with turns; cbn; rewrite ?Ea; split_and!; (by rewrite ?Forall_singleton) || congruence end.
  all: try match goal with E : steer_input _ ?i ?e ?s = _ |- _ =>
    destruct (steer_tasks _ _ _ _ _ E) as [_ ->]; destruct (steer_states _ _ _ _ _ E Ha') as [? ->] end.
  all: unfold active_ok, states_ok; autorewrite with turns; cbn; rewrite ?length_alter.
  all: try match goal with E : active_turn _ = Some _ |- _ => rewrite E in * end.
  all: split_and!; try done; by apply Forall_singleton.
Qed.

(** ** Threads that advance *)

(** Thread [i] goes on to [st'] and may start another. *)
Definition thread_goes_on w i st s (spawned : option turn_stage) : session_world :=
  {| world_session := s; threads := <[i := st]> (threads w) ++ option_list spawned |}.
Lemma advance_lookup w i st st' s sp j x :
  threads w !! i = Some st → threads (thread_goes_on w i st' s sp) !! j = Some x →
  (j = i ∧ x = st') ∨ (j ≠ i ∧ threads w !! j = Some x) ∨ (j = length (threads w) ∧ sp = Some x).
Proof.
  intros Hi. cbn. rewrite lookup_app_Some, length_insert. intros [H|[Hl H]].
  - destruct (decide (j = i)) as [->|Hne].
    + left. by rewrite list_lookup_insert_eq in H by (by eapply lookup_lt_Some); injection H as ->.
    + right; left. by rewrite list_lookup_insert_ne in H by done.
  - right; right. destruct sp as [y|]; cbn in H; [|by rewrite lookup_nil in H].
    apply list_lookup_singleton_Some in H as [Hj ->]. split; [lia|done].
Qed.
Lemma advance_same w i st st' s sp : threads w !! i = Some st → threads (thread_goes_on w i st' s sp) !! i = Some st'.
Proof.
  intros Hi. apply lookup_lt_Some in Hi. cbn. rewrite lookup_app_l by (by rewrite length_insert). by apply list_lookup_insert_eq.
Qed.
Lemma advance_other w i st' s sp j x : j ≠ i → threads w !! j = Some x → threads (thread_goes_on w i st' s sp) !! j = Some x.
Proof.
  intros Hne Hj. pose proof (lookup_lt_Some _ _ _ Hj). cbn. rewrite lookup_app_l by (by rewrite length_insert).
  by rewrite list_lookup_insert_ne.
Qed.
Lemma advance_concat {B} (f : turn_stage → list B) w i st st' s sp :
  threads w !! i = Some st → (∀ x, sp = Some x → f x = []) →
  concat (f <$> threads (thread_goes_on w i st' s sp)) ++ f st ≡ₚ concat (f <$> threads w) ++ f st'.
Proof.
  intros Hi Hsp. cbn. rewrite fmap_app, concat_app.
  assert (E : concat (f <$> option_list sp) = []) by (destruct sp as [x|]; cbn; [by rewrite (Hsp x eq_refl)|done]).
  rewrite E, app_nil_r. by apply concat_insert.
Qed.

(** A step is one of a thread, which advances, or of a client. *)
Inductive thread_step w : session_event → nat → turn_stage → turn_stage → session → option turn_stage → Prop :=
| thread_submits o st' s' : submit to_json o (world_session w) = (st', s') → thread_step w (Submits o) 0 Idle st' s' None
| thread_moves i c st st' s' sp :
    turn_move i (length (threads w)) c st (world_session w) = Some (st', s', sp) →
    (∀ t, st = AddTask t → start_id t ∉ started (log (world_session w))) → thread_step w (Moves i c) i st st' s' sp
| thread_drops i st : i ∈ aborted (world_session w) → thread_step w (Drops i) i st Dropped (with_log (discard (hand st)) (world_session w)) None.
Inductive outside_step s : session → Prop :=
| client_steers input expected r s' : steer_input local_image input expected s = (r, s') → outside_step s s'
| client_injects l a : active_turn s = Some a → outside_step s (with_log (accept l) (update_state (turn_state a) (push_pending_input l) s)).
Lemma step_cases P w w' :
  session_step P w w' →
  (∃ e i st st' s' sp, P w e ∧ threads w !! i = Some st ∧ thread_step w e i st st' s' sp ∧ w' = thread_goes_on w i st' s' sp) ∨
  (∃ s', outside_step (world_session w) s' ∧ w' = {| world_session := s'; threads := threads w |}).
Proof.
  intros (e & Hp & HP & He). destruct e as [o|i c|input expected|l|i]; cbn [session_perform] in He.
  - destruct (threads w) as [|[] l] eqn:El; try discriminate He. destruct (submit to_json o (world_session w)) as [st s'] eqn:Es. injection He as <-.
    left. exists (Submits o), 0, Idle, st, s', None. split_and!; [done..|by constructor|]. unfold thread_goes_on. rewrite El. cbn. by rewrite app_nil_r.
  - destruct (threads w !! i) as [st|] eqn:Hi; [|discriminate He]. cbn [mbind option_bind] in He.
    destruct (turn_move _ _ _ _ _) as [[[st' s'] sp]|] eqn:Em; [|discriminate He]. injection He as <-.
    left. exists (Moves i c), i, st, st', s', sp. split_and!; try done. constructor; [done|]. intros t ->. by eapply Hp.
  - injection He as <-. right. destruct (steer_input local_image input expected (world_session w)) as [r s'] eqn:E. exists s'. split; [by econstructor|done].
  - unfold inject_response_items in He. destruct (active_turn (world_session w)) as [a|] eqn:E; [|discriminate He]. injection He as <-.
    right. eexists. split; [by constructor|done].
  - destruct (threads w !! i) as [st|] eqn:Hi; [|discriminate He]. cbn [mbind option_bind] in He.
    destruct (bool_decide (i ∈ aborted (world_session w))) eqn:Ea; [|discriminate He]. apply bool_decide_eq_true in Ea. injection He as <-.
    left. exists (Drops i), i, st, Dropped. eexists _, None. split_and!; try done; [by constructor|]. unfold thread_goes_on. cbn. by rewrite app_nil_r.
Qed.

(** The tasks that are running when thread [i] goes on and those in [gone] end. *)
Lemma running_goes_on w i st st' s' sp gone :
  threads w !! i = Some st → gone ++ active_tasks s' ++ todo st' ≡ₚ active_tasks (world_session w) ++ todo st → (∀ x, sp = Some x → todo x = []) →
  gone ++ running (thread_goes_on w i st' s' sp) ≡ₚ running w.
Proof.
  intros Hi Hrun Hsp. unfold running. cbn [world_session thread_goes_on]. apply (Permutation_app_inv_r (todo st)).
  pose proof (advance_concat todo w i st st' s' sp Hi Hsp) as E. cbn in E |- *.
  transitivity (gone ++ active_tasks s' ++ concat (todo <$> threads w) ++ todo st'); [rewrite <- E; aac_reflexivity|].
  transitivity ((gone ++ active_tasks s' ++ todo st') ++ concat (todo <$> threads w)); [aac_reflexivity|]. rewrite Hrun. aac_reflexivity.
Qed.
Lemma task_thread_stays w i st st' s' sp j :
  threads w !! i = Some st → (of_task st = true → of_task st' = true) →
  (∃ y, threads w !! j = Some y ∧ of_task y = true) → ∃ y, threads (thread_goes_on w i st' s' sp) !! j = Some y ∧ of_task y = true.
Proof.
  intros Hi Htask (y & Hy & Hty). destruct (decide (j = i)) as [->|Hne].
  - exists st'. split; [by eapply advance_same|]. apply Htask. congruence.
  - exists y. split; [by apply advance_other|done].
Qed.
(** Thread [i] advances, and the tasks in [gone] are no longer running. *)
Lemma wf_advance w i st st' s' sp gone :
  session_wf w → threads w !! i = Some st →
  active_ok s' → length (turn_states (world_session w)) ≤ length (turn_states s') → states_ok s' st' → idle_pending_input s' = [] →
  (i = 0 → of_loop st = true → of_loop st' = true) → (of_task st = true → of_task st' = true) →
  gone ++ active_tasks s' ++ todo st' ≡ₚ active_tasks (world_session w) ++ todo st →
  (∀ t, t ∈ active_tasks s' → t ∈ active_tasks (world_session w)) →
  (∀ t, t ∈ active_tasks s' → running_thread t = i → stage_role st = Unfinished (task_id t) → stage_role st' = Unfinished (task_id t)) →
  started (log (world_session w)) ⊆ started (log s') → cancelled (world_session w) ⊆ cancelled s' →
  cancelled s' ∪ aborted s' ⊆ cancelled (world_session w) ∪ aborted (world_session w) ∪ list_to_set (running_thread <$> gone) →
  (∀ t, awaited st' = Some t → running_thread t ∈ cancelled s') →
  (∀ x, sp = Some x → stage_role x = Checking) →
  session_wf (thread_goes_on w i st' s' sp).
Proof.
  intros Hwf Hi Ha Hl Hs Hidle Hloop Htask Hrun Hact Hunf Hstart Hcan Hsets Haw Hsp.
  assert (HspT : ∀ x, sp = Some x → todo x = []) by (intros x Hx; specialize (Hsp x Hx); by destruct x).
  pose proof (running_goes_on w i st st' s' sp gone Hi Hrun HspT) as Hr.
  assert (Hin : ∀ t, t ∈ running (thread_goes_on w i st' s' sp) → t ∈ running w) by (intros t Ht; rewrite <- Hr; apply elem_of_app; by right).
  pose proof (λ j, task_thread_stays w i st st' s' sp j Hi Htask) as Hthread.
  assert (Hnd : NoDup (task_id <$> gone ++ running (thread_goes_on w i st' s' sp)) ∧ NoDup (running_thread <$> gone ++ running (thread_goes_on w i st' s' sp))).
  { rewrite Hr. split; apply Hwf. }
  rewrite !fmap_app in Hnd. destruct Hnd as [(_ & _ & Hids)%NoDup_app (_ & Hdis & Hths)%NoDup_app].
  split; try done.
  - intros j x Hx. destruct (advance_lookup _ _ _ _ _ _ _ _ Hi Hx) as [[_ ->]|[[_ Hj]|[_ Hx']]]; [done| |].
    + pose proof (wf_stages _ Hwf _ _ Hj) as H. unfold states_ok in *. eapply Forall_impl; [exact H|]. cbn. lia.
    + specialize (Hsp _ Hx'). destruct x; try discriminate Hsp; by constructor.
  - destruct (wf_loop _ Hwf) as (x & Hx & Hlx). destruct (decide (i = 0)) as [->|Hne].
    + exists st'. split; [by eapply advance_same|]. apply Hloop; [done|]. congruence.
    + exists x. split; [by apply advance_other|done].
  - intros t Ht. apply Hstart, (wf_started _ Hwf). by apply Hin.
  - intros t Ht Hbad. apply Hsets in Hbad. apply elem_of_union in Hbad as [Hbad|Hbad].
    + by apply (wf_going _ Hwf t (Hin _ Ht)).
    + apply elem_of_list_to_set in Hbad. apply (Hdis _ Hbad). by apply list_elem_of_fmap_2.
  - intros t Ht. destruct (wf_unfinished _ Hwf t (Hact _ Ht)) as (x & Hx & Hrole). destruct (decide (running_thread t = i)) as [Ei|Hne].
    + exists st'. split; [rewrite Ei; by eapply advance_same|]. apply (Hunf t Ht Ei). congruence.
    + exists x. split; [by apply advance_other|done].
  - intros j Hj. apply Hthread, (wf_tasks _ Hwf). destruct Hj as [Hj|Hj].
    + left. rewrite <- Hr, fmap_app. apply elem_of_app. by right.
    + apply Hsets in Hj. apply elem_of_union in Hj as [Hj|Hj]; [by right|left].
      apply elem_of_list_to_set in Hj. rewrite <- Hr, fmap_app. apply elem_of_app. by left.
  - intros j x t Hx Ht. destruct (advance_lookup _ _ _ _ _ _ _ _ Hi Hx) as [[_ ->]|[[_ Hj]|[_ Hx']]]; [by apply Haw| |].
    + by apply Hcan, (wf_awaited _ Hwf j x).
    + specialize (Hsp _ Hx'). by destruct x.
Qed.

(** The running tasks when one is added. *)
Lemma running_add_task w i t r x a s1 :
  threads w !! i = Some (AddTask t) → tasks a = active_tasks (world_session w) → todo x = [] →
  running (thread_goes_on w i (ends i) (with_log (note_start (start_id t)) (with_active_turn (Some (add_task r a)) s1)) (Some x)) ≡ₚ r :: running w.
Proof.
  intros Hi Hta Hx. unfold running. cbn [world_session thread_goes_on active_tasks active_turn with_log with_active_turn add_task tasks].
  assert (Ex : concat (todo <$> threads (thread_goes_on w i (ends i) s1 (Some x))) ≡ₚ concat (todo <$> threads w)).
  { assert (Et : todo (ends i) = []) by (by destruct i).
    pose proof (advance_concat todo w i _ (ends i) s1 (Some x) Hi) as Ec. cbn [todo] in Ec. rewrite Et, !app_nil_r in Ec.
    apply Ec. by intros y [= <-]. }
  cbn in Ex. rewrite Ex, Hta. appends. aac_reflexivity.
Qed.
Lemma spawned_lookup w i st' s' x : threads (thread_goes_on w i st' s' (Some x)) !! length (threads w) = Some x.
Proof. cbn. rewrite lookup_app_r by (by rewrite length_insert). by rewrite length_insert, Nat.sub_diag. Qed.
Lemma wf_add_task w i c t st' s' sp :
  session_wf w → threads w !! i = Some (AddTask t) → start_id t ∉ started (log (world_session w)) →
  turn_move i (length (threads w)) c (AddTask t) (world_session w) = Some (st', s', sp) → session_wf (thread_goes_on w i st' s' sp).
Proof.
  intros Hwf Hi Hfresh H. pose proof (move_states _ _ _ _ _ _ _ _ H (wf_active _ Hwf) (wf_stages _ Hwf _ _ Hi) (wf_idle _ Hwf)) as (Ha & Hl & Hs & Hidle).
  pose proof (move_role _ _ _ _ _ _ _ _ H) as (Hloop & Htask & _).
  open_move H. destruct (get_or_insert (world_session w)) as [a s1] eqn:E. injection H as <- <- <-.
  set (r := {| task_id := start_id t; running_kind := task_kind (start_task t); running_thread := length (threads w) |}) in *.
  set (x := TaskStart (start_id t) (start_task t) (negb (bool_decide (start_input t = [])))) in *.
  destruct (get_or_insert_tasks _ _ _ E) as ((Hact & Hc & Hab & Hst) & Hta & _).
  pose proof (running_add_task w i t r x a s1 Hi Hta eq_refl) as Hr.
  assert (Hnew : threads w !! running_thread r = None) by (by apply lookup_ge_None).
  assert (Hfr : task_id r ∉ started (log (world_session w))) by exact Hfresh.
  assert (Hnot : ¬ (running_thread r ∈ running_thread <$> running w ∨ running_thread r ∈ (cancelled (world_session w) ∪ aborted (world_session w)))).
  { intros Hbad. destruct (wf_tasks _ Hwf _ Hbad) as (y & Hy & _). by rewrite Hnew in Hy. }
  assert (Hkeep : ∀ s2 j y, j ≠ i → threads w !! j = Some y → threads (thread_goes_on w i (ends i) s2 (Some x)) !! j = Some y).
  { intros s2 j y. apply advance_other. }
  pose proof (λ s2 j, task_thread_stays w i _ (ends i) s2 (Some x) j Hi Htask) as Hstay.
  split; try done.
  - intros j y Hy. destruct (advance_lookup _ _ _ _ _ _ _ _ Hi Hy) as [[_ ->]|[[_ Hj]|[_ [= <-]]]]; [done| |by constructor].
    pose proof (wf_stages _ Hwf _ _ Hj) as H. unfold states_ok in *. eapply Forall_impl; [exact H|]. cbn. cbn in Hl. lia.
  - destruct (wf_loop _ Hwf) as (y & Hy & Hly). destruct (decide (i = 0)) as [->|Hne].
    + exists (ends 0). split; [by eapply advance_same|done].
    + exists y. split; [by apply Hkeep|done].
  - rewrite Hr. cbn [fmap list_fmap]. apply NoDup_cons. split; [|apply Hwf]. intros (u & Eu & Hu)%list_elem_of_fmap.
    apply Hfr. rewrite Eu. by apply (wf_started _ Hwf).
  - rewrite Hr. cbn [fmap list_fmap]. apply NoDup_cons. split; [|apply Hwf]. intros Hbad. apply Hnot. by left.
  - intros u Hu. rewrite Hr in Hu. cbn. rewrite Hst. apply elem_of_app. apply elem_of_cons in Hu as [->|Hu]; [right; by constructor|left].
    by apply (wf_started _ Hwf).
  - intros u Hu. rewrite Hr in Hu. cbn. rewrite Hc, Hab. apply elem_of_cons in Hu as [->|Hu]; [|by apply (wf_going _ Hwf)].
    intros Hbad. apply Hnot. by right.
  - intros u Hu. cbn in Hu. apply elem_of_app in Hu as [Hu|Hu%list_elem_of_singleton].
    + rewrite Hta in Hu. destruct (wf_unfinished _ Hwf u Hu) as (y & Hy & Hrole). exists y. split; [|done].
      apply Hkeep; [|done]. intros Ei. rewrite Ei, Hi in Hy. injection Hy as <-. discriminate Hrole.
    + subst u. exists x. split; [apply spawned_lookup|done].
  - intros j Hj. destruct (decide (j = running_thread r)) as [->|Hne]; [exists x; split; [apply spawned_lookup|done]|].
    apply Hstay, (wf_tasks _ Hwf). destruct Hj as [Hj|Hj]; [left|right; cbn in Hj; by rewrite Hc, Hab in Hj].
    rewrite Hr in Hj. cbn [fmap list_fmap] in Hj. by apply elem_of_cons in Hj as [?|Hj].
  - intros j y u Hy Hu. destruct (advance_lookup _ _ _ _ _ _ _ _ Hi Hy) as [[_ ->]|[[_ Hj]|[_ [= <-]]]]; [by destruct i| |done].
    cbn. rewrite Hc. by apply (wf_awaited _ Hwf j y).
Qed.
Lemma filter_id_nil id (l : list RunningTask) : id ∉ task_id <$> l → filter (λ t, task_id t = id) l = [] ∧ Forall (λ t, task_id t ≠ id) l.
Proof.
  induction l as [|t l IH]; cbn; [done|]. intros [Hne Hl]%not_elem_of_cons. destruct (IH Hl) as [E F].
  rewrite decide_False by congruence. split; [done|]. constructor; [congruence|done].
Qed.
Lemma swap_remove_spec id (l : list RunningTask) :
  NoDup (task_id <$> l) → filter (λ t, task_id t = id) l ++ swap_remove id l ≡ₚ l ∧ Forall (λ t, task_id t ≠ id) (swap_remove id l).
Proof.
  intros Hnd. unfold swap_remove. destruct (list_find _ l) as [[i t]|] eqn:E.
  - apply list_find_Some in E as (Hi & <- & _). pose proof (take_drop_middle l i t Hi) as El. pose proof (lookup_lt_Some _ _ _ Hi) as Hlt.
    set (l1 := take i l) in *. set (l2 := drop (S i) l) in *. assert (Ei : i = length l1) by (unfold l1; rewrite length_take; lia).
    rewrite <- El in Hnd |- *. rewrite fmap_app in Hnd. apply NoDup_app in Hnd as (_ & Hd & [Ht2 _]%NoDup_cons).
    assert (Ht1 : task_id t ∉ task_id <$> l1) by (intros H; apply (Hd _ H); by left).
    destruct (filter_id_nil _ _ Ht1) as [F1 A1]. destruct (filter_id_nil _ _ Ht2) as [F2 A2].
    rewrite filter_app, F1, filter_cons_True, F2, Ei by done. cbn [app].
    destruct l2 as [|z l3 _] using rev_ind.
    + rewrite last_snoc, list_insert_id by (by rewrite lookup_app_r, Nat.sub_diag by done). rewrite length_app, Nat.add_sub, take_app_length.
      split; [appends; aac_reflexivity|done].
    + rewrite app_comm_cons, app_assoc, last_snoc. rewrite <- app_assoc. cbn [app].
      rewrite insert_app_r_alt, Nat.sub_diag by done. cbn [list_insert insert].
      assert (Et : take (length (l1 ++ t :: l3 ++ [z]) - 1) (l1 ++ z :: l3 ++ [z]) = l1 ++ z :: l3).
      { assert (l1 ++ z :: l3 ++ [z] = (l1 ++ z :: l3) ++ [z]) as -> by (by rewrite <- app_assoc). apply take_app_length'. rewrite !length_app. cbn. rewrite length_app. cbn. lia. }
      rewrite Et. split; [appends; aac_reflexivity|]. apply Forall_app in A2 as [A2 Az]. rewrite Forall_singleton in Az. apply Forall_app. split; [exact A1|]. apply Forall_cons. split; [exact Az|exact A2].
  - apply list_find_None in E. split; [|done].
    assert (filter (λ t, task_id t = id) l = []) as ->; [|done].
    clear Hnd. induction E as [|t l Ht _ IH]; [done|]. by rewrite filter_cons_False.
Qed.

Lemma swap_remove_keeps id t (l : list RunningTask) : NoDup (task_id <$> l) → t ∈ l → task_id t ≠ id → t ∈ swap_remove id l.
Proof.
  intros Hnd Ht Hne. destruct (swap_remove_spec id l Hnd) as [Hp _]. rewrite <- Hp in Ht. apply elem_of_app in Ht as [Ht|Ht]; [|done].
  by apply list_elem_of_filter in Ht as [? _].
Qed.
(** ** Every step *)

Lemma quiet_after_tasks c i reason k : todo (@after_tasks Data CallToolResult c i reason k) = [] ∧ awaited (@after_tasks Data CallToolResult c i reason k) = None.
Proof. unfold after_tasks. repeat case_match; by destruct i. Qed.
Lemma todo_running w i st t : threads w !! i = Some st → t ∈ todo st → t ∈ running w.
Proof.
  intros Hi Ht. unfold running. apply elem_of_app. right. apply list_elem_of_In, in_concat. exists (todo st). rewrite <- !list_elem_of_In.
  split; [|done]. apply list_elem_of_fmap_2. by eapply list_elem_of_lookup_2.
Qed.
Lemma wf_plain w i st st' s' sp :
  session_wf w → threads w !! i = Some st →
  active_ok s' → length (turn_states (world_session w)) ≤ length (turn_states s') → states_ok s' st' → idle_pending_input s' = [] →
  (i = 0 → of_loop st = true → of_loop st' = true) → (of_task st = true → of_task st' = true) →
  same_tasks (world_session w) s' → todo st' = todo st → (∀ t, awaited st' = Some t → awaited st = Some t) →
  (∀ t, t ∈ active_tasks (world_session w) → running_thread t = i → stage_role st = Unfinished (task_id t) → stage_role st' = Unfinished (task_id t)) →
  (∀ x, sp = Some x → stage_role x = Checking) → session_wf (thread_goes_on w i st' s' sp).
Proof.
  intros Hwf Hi Ha Hl Hs Hidle Hloop Htask (E1 & E2 & E3 & E4) Et Eaw Hunf Hsp.
  apply (wf_advance w i st _ _ _ [] Hwf Hi); try done; rewrite ?E1, ?E2, ?E3, ?E4, ?Et; try done.
  - set_solver.
  - intros t Ht. by apply (wf_awaited _ Hwf i st), Eaw.
Qed.
Lemma wf_move w i c st st' s' sp :
  session_wf w → threads w !! i = Some st → turn_move i (length (threads w)) c st (world_session w) = Some (st', s', sp) →
  (∀ t, st = AddTask t → start_id t ∉ started (log (world_session w))) → session_wf (thread_goes_on w i st' s' sp).
Proof.
  intros Hwf Hi H Hfresh.
  pose proof (move_states _ _ _ _ _ _ _ _ H (wf_active _ Hwf) (wf_stages _ Hwf _ _ Hi) (wf_idle _ Hwf)) as (Ha & Hl & Hs & Hidle).
  pose proof (move_role _ _ _ _ _ _ _ _ H) as (Hloop & Htask & Hunf).
  destruct (moves_tasks st) eqn:Em.
  - destruct st as [| | | | | | | | | | |t|reason k|reason l ts k|reason t l ts k| | | | | | | | | | | | | | | | | | | | |id| | | | | |]; try discriminate Em.
    + eapply wf_add_task; [done..| |exact H]. by apply Hfresh.
    + open_move H. destruct (active_turn (world_session w)) as [a|] eqn:E; injection H as <- <- <-.
      * apply (wf_advance w i _ _ _ _ [] Hwf Hi); try done; unfold active_tasks; cbn; [by rewrite E, app_nil_r|set_solver..].
      * destruct (quiet_after_tasks c i reason k) as [Et Eaw]. apply (wf_plain w i _ _ _ _ Hwf Hi); try done. by rewrite Eaw.
    + open_move H. destruct l as [|t l].
      * injection H as <- <- <-. destruct (quiet_after_tasks c i reason k) as [Et Eaw].
        apply (wf_plain w i _ _ _ _ Hwf Hi); try done. by rewrite Eaw.
      * assert (Hgo : running_thread t ∉ cancelled (world_session w)).
        { intros Hc. apply (wf_going _ Hwf t); [|set_solver]. by eapply todo_running; [done|left]. }
        rewrite bool_decide_false in H by done. injection H as <- <- <-.
        apply (wf_advance w i _ _ _ _ [t] Hwf Hi); try done; cbn; [change (active_tasks (cancel_thread (running_thread t) (world_session w))) with (active_tasks (world_session w)); appends; aac_reflexivity|set_solver..].
    + open_move H. injection H as <- <- <-. apply (wf_advance w i _ _ _ _ [] Hwf Hi); try done; cbn.
      * pose proof (wf_awaited _ Hwf i _ t Hi eq_refl). set_solver.
      * intros u [= <-]. by apply (wf_awaited _ Hwf i _ t Hi).
    + open_move H. destruct (active_turn (world_session w)) as [a|] eqn:E.
      * assert (Ea : active_tasks (world_session w) = tasks a) by (unfold active_tasks; by rewrite E).
        assert (Hnd : NoDup (task_id <$> tasks a)).
        { pose proof (wf_ids _ Hwf) as Hn. unfold running in Hn. rewrite Ea, fmap_app in Hn. by apply NoDup_app in Hn as [Hn _]. }
        destruct (swap_remove_spec id (tasks a) Hnd) as [Hperm Hall].
        set (gone := filter (λ t, task_id t = id) (tasks a)) in *.
        assert (Hsub : ∀ t, t ∈ swap_remove id (tasks a) → t ∈ tasks a) by (intros t Ht; rewrite <- Hperm; apply elem_of_app; by right).
        destruct (swap_remove id (tasks a)) as [|u l] eqn:El; injection H as <- <- <-;
          apply (wf_advance w i _ _ _ _ gone Hwf Hi); try done; cbn; rewrite ?Ea.
        { by rewrite (app_nil_r (tasks a)). }
        { set_solver. }
        { set_solver. }
        { change (map running_thread gone) with (running_thread <$> gone). set_solver. }
        { by rewrite !app_nil_r. }
        { done. }
        { intros t Ht _ [= Et]. by destruct (proj1 (Forall_forall _ _) Hall t Ht). }
        { change (map running_thread gone) with (running_thread <$> gone). set_solver. }
      * injection H as <- <- <-. apply (wf_plain w i _ _ _ _ Hwf Hi); try done. unfold active_tasks. rewrite E. set_solver.
  - destruct (move_tasks _ _ _ _ _ _ _ _ H Em) as (Hsame & Et & Eaw & Hsp). apply (wf_plain w i _ _ _ _ Hwf Hi); try done.
    + intros t Ht Hthr Hrole. destruct (Hunf _ Hrole) as [?|[->|[-> Hc]]]; [done|discriminate Em|]. exfalso.
      apply (wf_going _ Hwf t); [unfold running; apply elem_of_app; by left|]. rewrite Hthr. set_solver.
    + intros x Hx. by destruct (Hsp x Hx) as [_ ->].
Qed.
Lemma submit_spec o s st s' :
  submit to_json o s = (st, s') →
  (s' = s ∨ ∃ m, s' = with_log (accept [to_response_input_item to_json m]) (with_mails (mails s ++ [m]) s)) ∧
  of_loop st = true ∧ stage_states st = [] ∧ todo st = [] ∧ awaited st = None ∧ hand st = [].
Proof.
  unfold submit. destruct o; repeat case_match; intros [= <- <-]; split; try (by left); try (by split_and!); right; by eexists.
Qed.
Lemma wf_session w s' :
  session_wf w → active_ok s' → length (turn_states s') = length (turn_states (world_session w)) → idle_pending_input s' = [] →
  same_tasks (world_session w) s' → session_wf {| world_session := s'; threads := threads w |}.
Proof.
  intros Hwf Ha Hl Hi (E1 & E2 & E3 & E4). destruct Hwf as [? Hst ? Hids Hth ?].
  split; unfold running in *; cbn [world_session threads]; rewrite ?E1, ?E2, ?E3, ?E4; try done.
  intros i st H. specialize (Hst i st H). unfold states_ok in *. by rewrite Hl.
Qed.
Lemma drop_task w i st : session_wf w → i ∈ aborted (world_session w) → threads w !! i = Some st → of_task st = true ∧ i ∉ running_thread <$> running w.
Proof.
  intros Hwf Hi Hst. destruct (wf_tasks _ Hwf i) as (x & Hx & Hty); [right; set_solver|]. split; [congruence|].
  intros (t & -> & Ht)%list_elem_of_fmap. apply (wf_going _ Hwf t Ht). set_solver.
Qed.
Lemma of_task_todo st : of_task st = true → todo st = [] ∧ awaited st = None.
Proof. by destruct st. Qed.
Lemma wf_step P w w' : session_wf w → session_step P w w' → session_wf w'.
Proof.
  intros Hwf Hstep. apply step_cases in Hstep as [(e & i & st & st' & s' & sp & _ & Hi & Hs & ->)|(s' & Hs & ->)].
  - destruct Hs as [o st' s' Es|i c st st' s' sp Em Hp|i st Ea].
    + destruct (submit_spec _ _ _ _ Es) as (Hs' & Hloop & Hst & Htodo & Haw & _). apply (wf_plain w 0 _ _ _ _ Hwf Hi); try done.
      * destruct Hs' as [->|[m ->]]; [apply Hwf|]. pose proof (wf_active _ Hwf) as H. exact H.
      * by destruct Hs' as [->|[m ->]].
      * unfold states_ok. by rewrite Hst.
      * destruct Hs' as [->|[m ->]]; [apply Hwf|]. apply (wf_idle _ Hwf).
      * by destruct Hs' as [->|[m ->]].
      * by rewrite Haw.
    + by eapply (wf_move w i c st st' s' sp Hwf Hi Em).
    + destruct (drop_task _ _ _ Hwf Ea Hi) as [Hty Hrun]. destruct (of_task_todo _ Hty) as [Htodo Haw].
      apply (wf_plain w i _ _ _ _ Hwf Hi); try done.
      * apply (wf_active _ Hwf).
      * by constructor.
      * apply (wf_idle _ Hwf).
      * intros -> Hl. unfold of_loop, of_task in *. by destruct (stage_role st).
      * intros t Ht <-. destruct Hrun. apply list_elem_of_fmap_2, elem_of_app. by left.
  - destruct Hs as [input expected r s' E|l a E].
    + destruct (steer_tasks _ _ _ _ _ E) as [Hsame Hidle]. destruct (steer_states _ _ _ _ _ E (wf_active _ Hwf)) as [Ha Hl].
      apply wf_session; try done. by rewrite Hidle, (wf_idle _ Hwf).
    + apply wf_session; try done; [|cbn; by rewrite length_alter|apply (wf_idle _ Hwf)].
      pose proof (wf_active _ Hwf) as H. unfold active_ok in *. cbn. by rewrite length_alter.
Qed.
Lemma wf_initial : session_wf session_initial.
Proof.
  split; try done.
  - intros [|i] st H; [|done]. injection H as <-. by constructor.
  - by exists Idle.
  - by apply NoDup_nil.
  - by apply NoDup_nil.
  - intros t Ht. by apply elem_of_nil in Ht.
  - intros t Ht. by apply elem_of_nil in Ht.
  - intros i [Hi|Hi]; [by apply elem_of_nil in Hi|set_solver].
  - intros [|i] st t H Ht; [injection H as <-; discriminate Ht|done].
Qed.
Lemma reachable_turns_wf P w : rtc (session_step P) session_initial w → session_wf w.
Proof. apply (rtc_ind_r (λ w, session_wf w) _ wf_initial). intros w1 w2 _ Hs H. by eapply wf_step. Qed.

(** ** Conservation *)

Definition conserved w : Prop :=
  accepted (log (world_session w)) ≡ₚ held_input (world_session w) ++ concat (hand <$> threads w) ++ dealt_with (log (world_session w)).
Lemma conserved_advance w i st st' s' sp l :
  conserved w → threads w !! i = Some st → accepted (log s') = accepted (log (world_session w)) ++ l → (∀ x, sp = Some x → hand x = []) →
  hand st' ++ held_input s' ++ dealt_with (log s') ≡ₚ l ++ hand st ++ held_input (world_session w) ++ dealt_with (log (world_session w)) →
  conserved (thread_goes_on w i st' s' sp).
Proof.
  unfold conserved. intros Hc Hi Ha Hsp H. pose proof (advance_concat hand w i st st' s' sp Hi Hsp) as Ec.
  cbn [world_session thread_goes_on] in *. rewrite Ha, Hc. apply (Permutation_app_inv_r (hand st)).
  transitivity ((l ++ hand st ++ held_input (world_session w) ++ dealt_with (log (world_session w))) ++ concat (hand <$> threads w)); [aac_reflexivity|].
  rewrite <- H. transitivity ((concat (hand <$> threads w) ++ hand st') ++ held_input s' ++ dealt_with (log s')); [aac_reflexivity|].
  rewrite <- Ec. cbn. aac_reflexivity.
Qed.
Lemma client_conserves s s' :
  outside_step s s' → active_ok s → ∃ l, accepted (log s') = accepted (log s) ++ l ∧ held_input s' ++ dealt_with (log s') ≡ₚ l ++ held_input s ++ dealt_with (log s).
Proof.
  intros [input expected r s2 E|l a E] Ha; [by eapply steer_conserves|]. unfold active_ok in Ha. rewrite E in Ha. exists l. split; [done|].
  autorewrite with turns. rewrite (held_add _ l) by done. unfold dealt_with. cbn. aac_reflexivity.
Qed.
Lemma conserved_step P w w' : session_wf w → conserved w → session_step P w w' → conserved w'.
Proof.
  intros Hwf Hc Hstep. apply step_cases in Hstep as [(e & i & st & st' & s' & sp & _ & Hi & Hs & ->)|(s' & Hs & ->)].
  - destruct Hs as [o st' s' Es|i c st st' s' sp Em Hp|i st Ea].
    + destruct (submit_spec _ _ _ _ Es) as (Hs' & _ & _ & _ & _ & Hh). destruct Hs' as [->|[m ->]].
      * apply (conserved_advance w 0 Idle _ _ _ [] Hc Hi); [by rewrite app_nil_r|done|by rewrite Hh].
      * apply (conserved_advance w 0 Idle _ _ _ [to_response_input_item to_json m] Hc Hi); [done..|]. rewrite Hh.
        autorewrite with turns. rewrite (held_with_mails (world_session w) [m]). unfold dealt_with. cbn. appends. aac_reflexivity.
    + destruct (move_conserves _ _ _ _ _ _ _ _ Em (wf_active _ Hwf) (wf_stages _ Hwf _ _ Hi)) as (l & Ha & Hl & Hsp).
      by eapply (conserved_advance w i st st' s' sp l).
    + apply (conserved_advance w i st _ _ _ [] Hc Hi); [by rewrite app_nil_r|done|]. autorewrite with turns. unfold dealt_with. cbn. aac_reflexivity.
  - destruct (client_conserves _ _ Hs (wf_active _ Hwf)) as (l & Ha & Hl). unfold conserved in *. cbn [world_session threads].
    rewrite Ha, Hc. transitivity ((l ++ held_input (world_session w) ++ dealt_with (log (world_session w))) ++ concat (hand <$> threads w)); [aac_reflexivity|].
    rewrite <- Hl. aac_reflexivity.
Qed.
Lemma conserved_initial : conserved session_initial.
Proof. apply Permutation_refl. Qed.
Lemma reachable_conserved P w : rtc (session_step P) session_initial w → session_wf w ∧ conserved w.
Proof.
  apply (rtc_ind_r (λ w, session_wf w ∧ conserved w) _ (conj wf_initial conserved_initial)).
  intros w1 w2 _ Hs [H1 H2]. split; [by eapply wf_step|by eapply conserved_step].
Qed.
End tasks.
