(* ===== verification/TurnRuns.v ===== *)
(** Runs of a session that are computed, and what some of them show. *)
From stdpp Require Import gmap relations.
From S2P Require Import Prelude RustStr Truncate History AgentPath Mailbox ToolCalls Sampling Turns.

Section runs.
Context {Data CallToolResult : Type} (to_json : InterAgentCommunication → str) (local_image : str → N → list ContentItem).
#[local] Abbreviation session_world := (@session_world Data CallToolResult).
#[local] Abbreviation session_event := (@session_event Data CallToolResult).
#[local] Abbreviation session_perform := (session_perform to_json local_image).
#[local] Abbreviation session_step := (session_step to_json local_image).

Definition fresh_start (w : session_world) (e : session_event) : bool :=
  match e with
  | Moves i _ => match threads w !! i with Some (AddTask t) => bool_decide (start_id t ∉ started (log (world_session w))) | _ => true end
  | _ => true
  end.
(** The events one after the other, where [allowed] permits each. *)
Fixpoint run_allowed (allowed : session_world → session_event → bool) (es : list session_event) (w : session_world) : option session_world :=
  match es with
  | [] => Some w
  | e :: es => if fresh_start w e && allowed w e then session_perform e w ≫= run_allowed allowed es else None
  end.
Lemma fresh_possible w e : fresh_start w e = true → ids_are_new w e.
Proof. unfold ids_are_new. intros H i c t -> Hi. cbn in H. rewrite Hi in H. by apply bool_decide_eq_true in H. Qed.
Lemma run_events_reaches P allowed es w w' :
  (∀ w e, allowed w e = true → P w e) → run_allowed allowed es w = Some w' → rtc (session_step P) w w'.
Proof.
  intros HP. revert w. induction es as [|e es IH]; intros w H; cbn in H; [injection H as ->; apply rtc_refl|].
  destruct (fresh_start w e) eqn:Ef; [|discriminate H]. destruct (allowed w e) eqn:Ea; [|discriminate H].
  destruct (session_perform e w) as [w1|] eqn:Ep; [|discriminate H]. cbn in H. eapply rtc_l; [|by apply IH].
  exists e. split_and!; [by apply fresh_possible|by apply HP|done].
Qed.
End runs.

(** * A session with its data *)

Definition usual (a : response) : turn_choice :=
  {| uuid := lit "u"; prewarm_cancelled := false; prelude_ends := false; session_start_stops := false; hook_accepts := true; answer := a;
     token_limit_reached := false; compact_fails := false; stop_blocks := false |}.
Definition compaction_fails : turn_choice :=
  {| uuid := lit "u"; prewarm_cancelled := false; prelude_ends := true; session_start_stops := false; hook_accepts := true; answer := Completed false;
     token_limit_reached := false; compact_fails := false; stop_blocks := false |}.
Abbreviation unit_event := (@session_event unit unit).
Abbreviation unit_world := (@session_world unit unit).
Definition mail_json (m : InterAgentCommunication) : str := mail_content m.
Definition no_image (path : str) (n : N) : list ContentItem := [].
Definition moves (i n : nat) : list unit_event := repeat (Moves i (usual (Completed false))) n.
Definition run_session (es : list unit_event) : option unit_world := run_allowed mail_json no_image (λ _ _, true) es session_initial.
Definition user_input (id text : str) : unit_event := Submits (OpUserInput id [TextInput text]).
Definition trigger_mail : InterAgentCommunication :=
  {| author := root; recipient := root; other_recipients := []; mail_content := lit "m"; trigger_turn := true |}.

(** ** Computed runs *)

Definition started_a : list unit_event := user_input (lit "a") (lit "hi") :: moves 0 8.
(** Mail that arrives when turn [a] has asked for the last time; the scheduler,
    thread 2, then looks for work. *)
Definition mail_waits : list unit_event :=
  started_a ++ moves 1 16 ++ [Submits (OpInterAgentCommunication (lit "m") trigger_mail)] ++ moves 0 3 ++ moves 1 6.
Definition reaches (es : list unit_event) (Q : unit_world → Prop) : Prop :=
  ∃ w, run_session es = Some w ∧ rtc (session_step mail_json no_image (λ _ _, True)) session_initial w ∧ Q w.
Lemma run_reaches es Q : match run_session es with Some w => Q w | None => False end → reaches es Q.
Proof.
  unfold reaches. destruct (run_session es) as [w|] eqn:E; [|done]. intros H. exists w. split_and!; [done| |done].
  by eapply run_events_reaches; [|exact E].
Qed.

(** The loop starts a turn for user input while the scheduler starts one for the
    mail: the second to take its place in the turn finds the task of the first. *)
Lemma overlapping_starts_share_a_turn :
  reaches (mail_waits ++ moves 2 4 ++ [user_input (lit "b") (lit "hi")] ++ moves 0 4 ++ moves 2 4 ++ moves 0 4 ++ moves 2 1 ++ moves 0 1)
    (λ w, option_map (λ a, map task_id (tasks a)) (active_turn (world_session w)) = Some [lit "u"; lit "b"]).
Proof. apply run_reaches. vm_compute. reflexivity. Qed.
(** Mail that a starting turn has taken is thrown away with the turn, although
    nobody interrupts and no turn is aborted. *)
Lemma starting_turn_loses_mail :
  reaches (mail_waits ++ moves 2 8 ++ [user_input (lit "b") (lit "hi")] ++ moves 0 8)
    (λ w, discarded (log (world_session w)) = [to_response_input_item mail_json trigger_mail] ∧ recorded (log (world_session w)) = [] ∧
      turn_events (world_session w) = [TurnStarted (lit "a"); RequestSent (lit "a"); TurnComplete (lit "a")]).
Proof. apply run_reaches. vm_compute. auto. Qed.
(** A turn that is interrupted when it has looked at its token is reported twice. *)
Lemma interrupted_at_the_end_reports_twice :
  reaches (started_a ++ moves 1 17 ++ [Submits OpInterrupt] ++ moves 0 3 ++ moves 1 2 ++ moves 0 2)
    (λ w, turn_events (world_session w) = [TurnStarted (lit "a"); RequestSent (lit "a"); TurnComplete (lit "a"); TurnAborted (lit "a") Interrupted]).
Proof. apply run_reaches. vm_compute. reflexivity. Qed.
(** A task that finishes aborts itself: where it waits for a hook, it is dropped,
    with the input steered late, and its turn is never reported. *)
Lemma finishing_task_aborts_itself :
  reaches (started_a ++ moves 1 16 ++ [Steers [TextInput (lit "more")] None] ++ moves 1 3 ++ [Drops 1])
    (λ w, threads w = [Idle; Dropped] ∧ active_turn (world_session w) = None ∧
      turn_events (world_session w) = [TurnStarted (lit "a"); RequestSent (lit "a")] ∧
      discarded (log (world_session w)) = [of_user_input no_image [TextInput (lit "more")]]).
Proof. apply run_reaches. vm_compute. auto. Qed.
(** Input steered into an undo, a regular task, is recorded and not answered. *)
Lemma input_steered_into_undo_is_not_sent :
  reaches ([Submits (OpUndo (lit "a"))] ++ moves 0 7 ++ [Steers [TextInput (lit "more")] None] ++ moves 1 9 ++ moves 2 2)
    (λ w, threads w = [Idle; Ended; Ended] ∧ turn_events (world_session w) = [TurnComplete (lit "a")] ∧
      recorded (log (world_session w)) = [of_user_input no_image [TextInput (lit "more")]]).
Proof. apply run_reaches. vm_compute. auto. Qed.
(** With input pending, a compaction that fails before the first request is tried
    again for as long as it fails. *)
Definition failing_round : list unit_event := Moves 1 compaction_fails :: moves 1 3.
Definition before_compaction : list unit_event := started_a ++ moves 1 3 ++ [Steers [TextInput (lit "more")] None].
Lemma run_events_app (allowed : unit_world → unit_event → bool) es es' w :
  run_allowed mail_json no_image allowed (es ++ es') w = run_allowed mail_json no_image allowed es w ≫= run_allowed mail_json no_image allowed es'.
Proof.
  revert w. induction es as [|e es IH]; intros w; [done|]. cbn [run_allowed app]. destruct (_ && _); [|done].
  destruct (session_perform _ _ e w) as [w1|]; [|done]. apply IH.
Qed.
Lemma run_again (allowed : unit_world → unit_event → bool) es w n :
  run_allowed mail_json no_image allowed es w = Some w → run_allowed mail_json no_image allowed (concat (replicate n es)) w = Some w.
Proof. intros H. induction n as [|n IH]; [done|]. cbn [replicate concat]. rewrite run_events_app, H. exact IH. Qed.
Lemma compaction_is_retried_forever :
  reaches before_compaction (λ w, threads w = [Idle; Preparing (lit "a")] ∧ ∀ n,
    run_allowed mail_json no_image (λ _ _, true) (concat (replicate n failing_round)) w = Some w).
Proof.
  apply run_reaches.
  assert (H : match run_session before_compaction with
              | Some w => threads w = [Idle; Preparing (lit "a")] ∧ run_allowed mail_json no_image (λ _ _, true) failing_round w = Some w
              | None => False end) by (vm_compute; auto).
  destruct (run_session before_compaction) as [w|]; [|done]. destruct H as [H1 H2]. split; [exact H1|]. intros n. by apply run_again.
Qed.
