(* ===== verification/TurnInputs.v ===== *)
(** What holds of the turns of a session: the input that is accepted is handled,
    turns end and are reported, and a turn has one task. *)
From stdpp Require Import gmap relations.
From S2P Require Import Prelude RustStr Truncate History AgentPath Mailbox ToolCalls Sampling Turns TurnTasks TurnRuns.

Section inputs.
Context {Data CallToolResult : Type} {to_json : InterAgentCommunication → str} {local_image : str → N → list ContentItem}.
Abbreviation item := (@ResponseInputItem Data CallToolResult).
Abbreviation session := (@session Data CallToolResult).
Abbreviation session_world := (@session_world Data CallToolResult).
Abbreviation session_event := (@session_event Data CallToolResult).
Abbreviation turn_stage := (@turn_stage Data CallToolResult).
#[local] Abbreviation turn_move := (turn_move to_json local_image).
#[local] Abbreviation session_perform := (session_perform to_json local_image).
#[local] Abbreviation session_step := (session_step to_json local_image).
Implicit Types (s : session) (w : session_world) (st : turn_stage).
#[local] Abbreviation thread_step := (@thread_step Data CallToolResult to_json local_image).
#[local] Abbreviation outside_step := (@outside_step Data CallToolResult local_image).

(** * Who starts a turn, and how turns end *)

(** The thread goes on to look for work that waits, or to start a task. *)
Definition wakes st : bool :=
  match st with
  | TakeActive reason k | AbortTasks reason _ _ k | AwaitDone reason _ _ _ k | EmitAborted reason _ _ _ k =>
      match k with StartsTask _ => true | Goes => bool_decide (reason = Interrupted) end
  | FinishTake _ _ | Schedule => true
  | FinishRecord _ _ cleared | Complete _ cleared => cleared
  | _ => match stage_role st with Checking | Starting => true | _ => false end
  end.
(** The turn whose end the thread still has to report. *)
Definition reports st : option str :=
  match st with
  | AwaitDone _ t _ _ _ | EmitAborted _ t _ _ _ => Some (task_id t)
  | FinishTake id _ | FinishRecord id _ _ | Complete id _ => Some id
  | _ => None
  end.
Definition turn_reported id s : Prop := TurnComplete id ∈ turn_events s ∨ ∃ reason, TurnAborted id reason ∈ turn_events s.
Definition triggered s : bool := existsb trigger_turn (mails s).

Lemma steer_same input expected s r s' :
  steer_input local_image input expected s = (r, s') → active_turn s' = active_turn s ∧ mails s' = mails s ∧ turn_events s' = turn_events s.
Proof. intros H. by destruct (steer_input_spec _ _ _ _ _ H) as [->|(a & i & _ & _ & ->)]. Qed.
Lemma wakes_after_tasks c i reason k :
  match k with StartsTask _ => true | Goes => bool_decide (reason = Interrupted) end = true → wakes (@after_tasks Data CallToolResult c i reason k) = true.
Proof. unfold after_tasks. destruct k; [done|]. by intros ->. Qed.
Lemma move_place me next c st s st' s' sp a :
  turn_move me next c st s = Some (st', s', sp) → active_turn s' = Some a → tasks a = [] →
  stage_role st' = Starting ∨ (stage_role st ≠ Starting ∧ ∃ a', active_turn s = Some a' ∧ tasks a' = []).
Proof.
  intros H Ha Ht. destruct st; open_move H; try discriminate H; turn_cases H.
  all: try (by left).
  all: try match goal with E : steer_input _ ?i ?e ?s = _ |- _ => destruct (steer_same _ _ _ _ _ E) as (Es & _); rewrite Es in Ha end.
  all: try (right; split; [done|]; exists a; cbn in Ha; split; [congruence|done]).
  all: cbn in Ha; injection Ha as <-; cbn in Ht.
  - by destruct (app_cons_not_nil (tasks a0) [] _ (eq_sym Ht)).
  - done.
Qed.
Lemma move_wake me next c st s st' s' sp :
  turn_move me next c st s = Some (st', s', sp) → (stage_role st = Aborting → wakes st = true) → active_turn s' = None → triggered s' = true →
  wakes st' = true ∨ (∃ x, sp = Some x ∧ wakes x = true) ∨ (wakes st = false ∧ active_turn s = None ∧ triggered s = true).
Proof.
  intros H Hw Ha Ht. destruct st; open_move H; try discriminate H; turn_cases H.
  all: try (by left).
  all: try match goal with E : steer_input _ ?i ?e ?s = _ |- _ => destruct (steer_same _ _ _ _ _ E) as (Es & Em & _); unfold triggered in *; rewrite Es, Em in * end.
  all: try (right; right; cbn in Ha; by rewrite ?Ha).
  all: try (right; left; by eexists).
  all: cbn in Ha; try congruence.
  all: try (left; specialize (Hw eq_refl); first [exact Hw|by apply wakes_after_tasks]).
  all: try (destruct cleared; [by left|right; right; done]).
  unfold triggered in Ht. congruence.
Qed.
Lemma get_or_insert_events s a s' : get_or_insert s = (a, s') → turn_events s' = turn_events s ∧ mails s' = mails s.
Proof. unfold get_or_insert. by destruct (active_turn s); intros [= <- <-]. Qed.
Lemma move_events me next c st s st' s' sp : turn_move me next c st s = Some (st', s', sp) → ∃ l, turn_events s' = turn_events s ++ l.
Proof.
  intros H. destruct st; open_move H; try discriminate H; turn_cases H.
  all: try match goal with E : steer_input _ ?i ?e ?s = _ |- _ => destruct (steer_same _ _ _ _ _ E) as (_ & _ & ->) end.
  all: try match goal with |- context [(get_or_insert ?s).2] => destruct (get_or_insert s) eqn:? end; cbn [snd].
  all: try match goal with E : get_or_insert _ = _ |- _ => destruct (get_or_insert_events _ _ _ E) as [Ee _] end.
  all: cbn; rewrite ?Ee; first [by eexists|exists []; by rewrite app_nil_r].
Qed.
Lemma reported_mono id s s' : (∃ l, turn_events s' = turn_events s ++ l) → turn_reported id s → turn_reported id s'.
Proof. intros [l E]. unfold turn_reported. rewrite E. intros [H|[r H]]; [left|right; exists r]; apply elem_of_app; by left. Qed.
(** Turns that end are reported by the thread that ends them. *)
Lemma move_reports me next c st s st' s' sp id :
  turn_move me next c st s = Some (st', s', sp) → (∀ t, t ∈ todo st → running_thread t ∉ cancelled s) → NoDup (task_id <$> active_tasks s) →
  id ∈ task_id <$> (active_tasks s ++ todo st) ∨ reports st = Some id ∨ turn_reported id s →
  id ∈ task_id <$> (active_tasks s' ++ todo st') ∨ reports st' = Some id ∨ turn_reported id s'.
Proof.
  intros H Hgo Hnd Hid. pose proof (move_events _ _ _ _ _ _ _ _ H) as Hev. destruct Hid as [Hid|[Hid|Hid]]; [| |right; right; by eapply reported_mono].
  - destruct (moves_tasks st) eqn:Em; [|destruct (move_tasks _ _ _ _ _ _ _ _ H Em) as ((E1 & _) & E2 & _); rewrite E1, E2; by left].
    destruct st as [| | | | | | | | | | |t|reason k|reason l ts k|reason t l ts k| | | | | | | | | | | | | | | | | | | | |i| | | | | |]; try discriminate Em; open_move H.
    + destruct (get_or_insert s) as [a s1] eqn:E. injection H as <- <- <-. destruct (get_or_insert_tasks _ _ _ E) as (_ & Ht & _).
      left. cbn in Hid |- *. rewrite app_nil_r in Hid. rewrite !fmap_app, Ht. set_solver.
    + unfold active_tasks in *. destruct (active_turn s) as [a|] eqn:E; injection H as <- <- <-; left; cbn in Hid |- *; [by rewrite app_nil_r in Hid|].
      by apply elem_of_nil in Hid.
    + destruct l as [|t l].
      * injection H as <- <- <-. left. destruct (@quiet_after_tasks Data CallToolResult c me reason k) as [-> _]. exact Hid.
      * rewrite bool_decide_false in H by (apply Hgo; left). injection H as <- <- <-. cbn in Hid |- *.
        rewrite fmap_app in Hid |- *. cbn in Hid. apply elem_of_app in Hid as [Hid|[->|Hid]%elem_of_cons].
        -- left. apply elem_of_app. by left.
        -- right; by left.
        -- left. apply elem_of_app. by right.
    + injection H as <- <- <-. by left.
    + unfold active_tasks in Hid. destruct (active_turn s) as [a|] eqn:E; [|by apply elem_of_nil in Hid].
      cbn in Hid. rewrite app_nil_r in Hid. apply list_elem_of_fmap in Hid as (t & -> & Ht).
      destruct (decide (task_id t = i)) as [<-|Hne].
      { right; left. by destruct (swap_remove _ _); injection H as <- <- <-. }
      assert (Hk : t ∈ swap_remove i (tasks a)) by (apply swap_remove_keeps; [by unfold active_tasks in Hnd; rewrite E in Hnd|done..]).
      left. apply list_elem_of_fmap_2. destruct (swap_remove i (tasks a)) as [|u l] eqn:El; injection H as <- <- <-; cbn.
      * by apply elem_of_nil in Hk.
      * by rewrite app_nil_r.
  - destruct st; try discriminate Hid; open_move H; turn_cases H; injection Hid as <-; try (right; left; done).
    + right; right. right. exists reason. cbn. apply elem_of_app. right. by left.
    + right; right. left. cbn. apply elem_of_app. right. by left.
    + right; right. left. cbn. apply elem_of_app. right. by left.
Qed.

Lemma move_started me next c st s st' s' sp id :
  turn_move me next c st s = Some (st', s', sp) → id ∈ started (log s') → id ∈ started (log s) ∨ id ∈ task_id <$> active_tasks s'.
Proof.
  intros H Hid. destruct (moves_tasks st) eqn:Em; [|destruct (move_tasks _ _ _ _ _ _ _ _ H Em) as ((_ & _ & _ & E) & _); rewrite E in Hid; by left].
  destruct st; try discriminate Em; open_move H; try (turn_cases H; by left).
  destruct (get_or_insert s) as [a s1] eqn:E. injection H as <- <- <-. destruct (get_or_insert_tasks _ _ _ E) as ((_ & _ & _ & Es) & _).
  cbn in Hid. rewrite Es in Hid. apply elem_of_app in Hid as [Hid|Hid%list_elem_of_singleton]; [by left|right].
  cbn. rewrite fmap_app. apply elem_of_app. right. subst id. by left.
Qed.
Lemma move_abort me next c st s st' s' sp :
  turn_move me next c st s = Some (st', s', sp) → (stage_role st = Aborting → wakes st = true) → stage_role st' = Aborting → wakes st' = true.
Proof.
  intros H Hw Hr. destruct st; open_move H; try discriminate H; turn_cases H; try discriminate Hr; try done.
  all: try (specialize (Hw eq_refl); exact Hw || by apply wakes_after_tasks).
  all: try (by destruct me). all: try by destruct q. all: try by destruct q, (bool_decide _). by destruct k.
Qed.
Lemma submit_wakes o s st s' :
  submit to_json o s = (st, s') →
  active_turn s' = active_turn s ∧ turn_events s' = turn_events s ∧ started (log s') = started (log s) ∧
  (stage_role st = Aborting → wakes st = true) ∧ (triggered s' = true → wakes st = true ∨ triggered s = true).
Proof.
  unfold submit, triggered. destruct o; repeat case_match; intros [= <- <-]; split_and!; try done; cbn; try (by right); rewrite existsb_app; cbn;
    intros [?|?]%orb_true_iff; auto; rewrite orb_false_r in *; congruence.
Qed.
Lemma client_same s s' :
  outside_step s s' → active_turn s' = active_turn s ∧ mails s' = mails s ∧ turn_events s' = turn_events s ∧ same_tasks s s'.
Proof.
  intros [input expected r s2 E|l a E]; [|done]. destruct (steer_same _ _ _ _ _ E) as (? & ? & ?). by destruct (steer_tasks _ _ _ _ _ E).
Qed.
Lemma elem_of_running w id :
  id ∈ task_id <$> running w ↔ id ∈ task_id <$> active_tasks (world_session w) ∨ ∃ i st, threads w !! i = Some st ∧ id ∈ task_id <$> todo st.
Proof.
  split.
  - intros (t & -> & [Ht|Ht]%elem_of_app)%list_elem_of_fmap; [left; by apply list_elem_of_fmap_2|right].
    apply list_elem_of_In, in_concat in Ht as (l & Hl & Ht). rewrite <- list_elem_of_In in Hl. rewrite <- list_elem_of_In in Ht. apply list_elem_of_fmap in Hl as (st & -> & Hst).
    apply list_elem_of_lookup in Hst as [i Hi]. exists i, st. split; [done|by apply list_elem_of_fmap_2].
  - intros [H|(i & st & Hi & (t & -> & Ht)%list_elem_of_fmap)].
    + unfold running. rewrite fmap_app. apply elem_of_app. by left.
    + apply list_elem_of_fmap_2. by eapply todo_running.
Qed.
Lemma active_ids w : session_wf w → NoDup (task_id <$> active_tasks (world_session w)).
Proof. intros Hwf. pose proof (wf_ids _ Hwf) as H. unfold running in H. rewrite fmap_app in H. by apply NoDup_app in H as [H _]. Qed.

(** A task that has finished is not dropped before it has reported. *)
Definition finishes w (e : session_event) : Prop := ∀ i st, e = Drops i → threads w !! i = Some st → stage_role st ≠ Finishing.
Definition has_stage (Q : turn_stage → Prop) w : Prop := ∃ i st, threads w !! i = Some st ∧ Q st.
Record live_inv w : Prop := {
  live_place a : active_turn (world_session w) = Some a → tasks a = [] → has_stage (λ st, stage_role st = Starting) w;
  live_wake : active_turn (world_session w) = None → triggered (world_session w) = true → has_stage (λ st, wakes st = true) w;
  live_abort i st : threads w !! i = Some st → stage_role st = Aborting → wakes st = true;
  live_reports id : id ∈ started (log (world_session w)) →
    id ∈ task_id <$> running w ∨ has_stage (λ st, reports st = Some id) w ∨ turn_reported id (world_session w) }.
Lemma stage_advance (Q : turn_stage → Prop) w i st st' s' sp :
  threads w !! i = Some st → has_stage Q w → (Q st → Q st' ∨ ∃ x, sp = Some x ∧ Q x) → has_stage Q (thread_goes_on w i st' s' sp).
Proof.
  intros Hi (j & x & Hj & Hx) HQ. destruct (decide (j = i)) as [->|Hne].
  - rewrite Hi in Hj. injection Hj as <-. destruct (HQ Hx) as [H|(y & -> & H)].
    + exists i, st'. split; [by eapply advance_same|done].
    + exists (length (threads w)), y. split; [|done]. cbn. rewrite lookup_app_r by (by rewrite length_insert). by rewrite length_insert, Nat.sub_diag.
  - exists j, x. split; [by apply advance_other|done].
Qed.
Lemma stage_now (Q : turn_stage → Prop) w i st st' s' sp :
  threads w !! i = Some st → Q st' ∨ (∃ x, sp = Some x ∧ Q x) → has_stage Q (thread_goes_on w i st' s' sp).
Proof.
  intros Hi [H|(y & -> & H)]; [exists i, st'; split; [by eapply advance_same|done]|].
  exists (length (threads w)), y. split; [|done]. cbn. rewrite lookup_app_r by (by rewrite length_insert). by rewrite length_insert, Nat.sub_diag.
Qed.
(** What a step of thread [i] must give for the invariant. *)
Lemma live_advance w i st st' s' sp :
  live_inv w → threads w !! i = Some st →
  (∀ a, active_turn s' = Some a → tasks a = [] →
    stage_role st' = Starting ∨ (stage_role st ≠ Starting ∧ ∃ a', active_turn (world_session w) = Some a' ∧ tasks a' = [])) →
  (active_turn s' = None → triggered s' = true →
    wakes st' = true ∨ (∃ x, sp = Some x ∧ wakes x = true) ∨ (wakes st = false ∧ active_turn (world_session w) = None ∧ triggered (world_session w) = true)) →
  (stage_role st' = Aborting → wakes st' = true) → (∀ x, sp = Some x → stage_role x ≠ Aborting) →
  (∀ id, id ∈ started (log s') → id ∈ started (log (world_session w)) ∨ id ∈ task_id <$> active_tasks s') →
  (∀ id, id ∈ task_id <$> (active_tasks (world_session w) ++ todo st) ∨ reports st = Some id ∨ turn_reported id (world_session w) →
    id ∈ task_id <$> (active_tasks s' ++ todo st') ∨ reports st' = Some id ∨ turn_reported id s') →
  live_inv (thread_goes_on w i st' s' sp).
Proof.
  intros [Hplace Hwake Habort Hrep] Hi H1 H2 H3 H4 H5 H6. split; cbn [world_session thread_goes_on].
  - intros a Ha Ht. destruct (H1 a Ha Ht) as [H|(Hne & a' & Ha' & Ht')]; [eapply stage_now; [done|by left]|].
    eapply stage_advance; [done|by eapply Hplace|done].
  - intros Ha Ht. destruct (H2 Ha Ht) as [H|[H|(Hne & Ha' & Ht')]]; [eapply stage_now; [done|by left]|eapply stage_now; [done|by right]|].
    eapply stage_advance; [done|by apply Hwake|congruence].
  - intros j x Hx Hr. destruct (advance_lookup _ _ _ _ _ _ _ _ Hi Hx) as [[_ ->]|[[_ Hj]|[_ Hx']]]; [by apply H3|by eapply Habort|by destruct (H4 _ Hx')].
  - assert (Hnow : ∀ id, id ∈ task_id <$> (active_tasks s' ++ todo st') ∨ reports st' = Some id ∨ turn_reported id s' →
      id ∈ task_id <$> running (thread_goes_on w i st' s' sp) ∨ has_stage (λ st, reports st = Some id) (thread_goes_on w i st' s' sp) ∨ turn_reported id s').
    { intros id [H|[H|H]]; [left|right; left; eapply stage_now; [done|by left]|by right; right]. apply elem_of_running.
      rewrite fmap_app in H. apply elem_of_app in H as [H|H]; [by left|right]. exists i, st'. split; [by eapply advance_same|done]. }
    intros id Hid. destruct (H5 id Hid) as [Hold|Hnew]; [|left; apply elem_of_running; by left].
    destruct (Hrep id Hold) as [[Ha|(j & x & Hj & Hx)]%elem_of_running|[(j & x & Hj & Hx)|Hd]].
    + apply Hnow, H6. left. rewrite fmap_app. apply elem_of_app. by left.
    + destruct (decide (j = i)) as [->|Hne].
      * apply Hnow, H6. left. rewrite Hi in Hj. injection Hj as <-. rewrite fmap_app. apply elem_of_app. by right.
      * left. apply elem_of_running. right. exists j, x. split; [by apply advance_other|done].
    + destruct (decide (j = i)) as [->|Hne].
      * apply Hnow, H6. right; left. rewrite Hi in Hj. by injection Hj as <-.
      * right; left. exists j, x. split; [by apply advance_other|done].
    + apply Hnow, H6. by right; right.
Qed.
Lemma live_step P w w' : (∀ w e, P w e → finishes w e) → session_wf w → live_inv w → session_step P w w' → live_inv w'.
Proof.
  intros HP Hwf Hl Hstep. apply step_cases in Hstep as [(e & i & st & st' & s' & sp & HPe & Hi & Hs & ->)|(s' & Hs & ->)].
  - destruct Hs as [o st' s' Es|i c st st' s' sp Em Hp|i st Ea].
    + destruct (submit_spec _ _ _ _ Es) as (Hs' & Hloop & _ & Htodo & _). destruct (submit_wakes _ _ _ _ Es) as (E1 & E2 & E3 & Hw & Ht).
      assert (Ea : active_tasks s' = active_tasks (world_session w)) by (unfold active_tasks; by rewrite E1).
      apply (live_advance w 0 Idle _ _ _ Hl Hi); try done.
      * intros a Ha Hta. right. split; [done|]. exists a. by rewrite <- E1.
      * intros Ha Htr. destruct (Ht Htr) as [?|?]; [by left|right; right]. by rewrite <- E1.
      * intros id. rewrite E3. by left.
      * intros id [H|[[=]|H]]; [left; by rewrite Ea, Htodo|right; right; unfold turn_reported; by rewrite E2].
    + pose proof (live_abort _ Hl _ _ Hi) as Hab. apply (live_advance w i st _ _ _ Hl Hi).
      * intros a. by eapply move_place.
      * by eapply move_wake.
      * by eapply move_abort.
      * intros x Hx. destruct (moves_tasks st) eqn:Emt.
        -- destruct st; try discriminate Emt; open_move Em; turn_cases Em; try discriminate Hx; injection Hx as <-; done.
        -- destruct (move_tasks _ _ _ _ _ _ _ _ Em Emt) as (_ & _ & _ & Hsp). by destruct (Hsp x Hx) as [_ ->].
      * intros id. by eapply move_started.
      * intros id. eapply move_reports; [done| |by apply active_ids]. intros t Ht Hc. apply (wf_going _ Hwf t); [by eapply todo_running|set_solver].
    + destruct (drop_task _ _ _ Hwf Ea Hi) as [Hty _]. pose proof (HP _ _ HPe i st eq_refl Hi) as Hnf.
      assert (Hq : wakes st = false ∧ reports st = None ∧ todo st = [] ∧ stage_role st ≠ Starting) by (by destruct st).
      destruct Hq as (Hw & Hr & Ht & Hst). apply (live_advance w i st _ _ _ Hl Hi); try done.
      * intros a Ha Hta. right. split; [done|]. by exists a.
      * by right; right.
      * by left.
      * intros id. rewrite Hr, Ht. intros [H|[[=]|H]]; [by left|by right; right].
  - destruct (client_same _ _ Hs) as (E1 & E2 & E3 & Ea & _ & _ & E4). destruct Hl as [Hplace Hwake Habort Hrep].
    split; cbn [world_session]; unfold triggered, turn_reported, running, has_stage in *; cbn [world_session threads] in *; rewrite ?E1, ?E2, ?E3, ?E4, ?Ea; done.
Qed.
Lemma live_initial : live_inv session_initial.
Proof.
  split; try done.
  - intros [|i] st H; [by injection H as <-|done].
  - intros id Hid. by apply elem_of_nil in Hid.
Qed.

(** * Starts that do not overlap *)

(** The thread is about to start a task, and [past] the point where it makes the
    turns of others end. *)
Definition begins st : bool :=
  match st with
  | TakeActive _ k | AbortTasks _ _ _ k | AwaitDone _ _ _ _ k | EmitAborted _ _ _ _ k => match k with StartsTask _ => true | Goes => false end
  | _ => match stage_role st with Starting => true | _ => false end
  end.
Definition past st : bool := match st with TakeActive _ _ => false | _ => begins st end.
Definition starters w : nat := length (filter (λ st, begins st = true) (threads w)).
(** A thread is not started into another's start. *)
Definition starts_apart w (e : session_event) : Prop := starters w ≤ 1.
Lemma one_starter w i j x y : starters w ≤ 1 → threads w !! i = Some x → threads w !! j = Some y → begins x = true → begins y = true → i = j.
Proof.
  unfold starters. generalize (threads w) as l. intros l. revert i j. induction l as [|z l IH]; intros i j H Hi Hj Hx Hy; [done|].
  assert (Hmem : ∀ k u, l !! k = Some u → begins u = true → 0 < length (filter (λ st, begins st = true) l)).
  { intros k u Hk Hu. assert (Hin : u ∈ filter (λ st, begins st = true) l) by (apply list_elem_of_filter; split; [done|by eapply list_elem_of_lookup_2]).
    destruct (filter _ l); [by apply elem_of_nil in Hin|cbn; lia]. }
  rewrite filter_cons in H. destruct i as [|i], j as [|j]; cbn in Hi, Hj; [done| | |].
  - injection Hi as ->. rewrite decide_True in H by done. cbn in H. specialize (Hmem _ _ Hj Hy). lia.
  - injection Hj as ->. rewrite decide_True in H by done. cbn in H. specialize (Hmem _ _ Hi Hx). lia.
  - f_equal. apply (IH i j); try done. destruct (decide _); cbn in H; lia.
Qed.
(** How a move changes the active turn. *)
Inductive turn_change s s' st st' : Prop :=
| turn_same : active_turn s' = active_turn s → turn_change s s' st st'
| turn_new a : active_turn s = None → active_turn s' = Some a → tasks a = [] → stage_role st' = Starting →
    (∀ t l ts, st' = PushItems t l ts → ts = turn_state a) → turn_change s s' st st'
| turn_added t r a : st = AddTask t → task_id r = start_id t → active_turn s' = Some a → tasks a = active_tasks s ++ [r] →
    (∀ b, active_turn s = Some b → turn_state a = turn_state b) → turn_change s s' st st'
| turn_left id a : st = Finish id → active_turn s = Some a →
    (swap_remove id (tasks a) = [] ∧ active_turn s' = None ∧ st' = FinishTake id (turn_state a)) ∨
    active_turn s' = Some {| tasks := swap_remove id (tasks a); turn_state := turn_state a |} → turn_change s s' st st'
| turn_taken reason k a : st = TakeActive reason k → active_turn s = Some a → active_turn s' = None →
    st' = AbortTasks reason (tasks a) (turn_state a) k → turn_change s s' st st'.
Lemma get_or_insert_turn s a s' :
  get_or_insert s = (a, s') → (active_turn s = Some a ∧ s' = s) ∨ (active_turn s = None ∧ active_turn s' = Some a ∧ tasks a = []).
Proof. unfold get_or_insert. destruct (active_turn s) eqn:E; intros [= <- <-]; [left|right]; done. Qed.
Lemma move_turn me next c st s st' s' sp : turn_move me next c st s = Some (st', s', sp) → turn_change s s' st st'.
Proof.
  intros H. destruct st; open_move H; try discriminate H; turn_cases H; try by apply turn_same.
  all: try match goal with E : steer_input _ ?i ?e ?s = _ |- _ => destruct (steer_same _ _ _ _ _ E) as (Es & _); by apply turn_same end.
  - destruct (get_or_insert s) as [a s1] eqn:E. destruct (get_or_insert_turn _ _ _ E) as [[E' _]|(_ & E1 & E2)]; [congruence|]. by apply (turn_new _ _ _ _ a).
  - match goal with E : get_or_insert _ = _ |- _ => destruct (get_or_insert_turn _ _ _ E) as [[E' ->]|(E0 & E1 & E2)] end; [by apply turn_same|].
    apply (turn_new _ _ _ _ a); try done. by intros ? ? ? [= _ _ <-].
  - match goal with E : get_or_insert _ = _ |- _ => pose proof (get_or_insert_tasks _ _ _ E) as (_ & Et & _); pose proof (get_or_insert_turn _ _ _ E) as E' end.
    eapply turn_added; [done| |cbn; reflexivity|cbn; by rewrite Et|]; [done|]. intros b Eb. destruct E' as [[E' _]|(E' & _)]; cbn in *; congruence.
  - by eapply turn_taken.
  - eapply turn_left; [done..|]. left. done.
  - eapply turn_left; [done..|]. right. cbn. congruence.
Qed.
Lemma past_after_tasks c me reason k : past (@after_tasks Data CallToolResult c me reason k) = true → begins (@TakeActive Data CallToolResult reason k) = true.
Proof. unfold after_tasks. destruct k; [done|]. by case_match; [|destruct me]. Qed.
Lemma move_past me next c st s st' s' sp :
  turn_move me next c st s = Some (st', s', sp) → past st' = true → past st = true ∨ (stage_role st = Checking ∧ active_turn s = None) ∨ (begins st = true ∧ ∃ reason k, st = TakeActive reason k).
Proof.
  intros H Hp. destruct st; open_move H; try discriminate H; turn_cases H; try discriminate Hp; try (by left); try (right; left; done).
  all: try (by destruct me). all: try by destruct q. all: try by destruct q, (bool_decide _).
  - right; right. split; [exact Hp|by eexists _, _].
  - right; right. split; [by eapply past_after_tasks|by eexists _, _].
  - left. exact (past_after_tasks _ _ _ _ Hp).
  - by destruct k.
Qed.
Lemma submit_not_past o s st s' : submit to_json o s = (st, s') → past st = false.
Proof. unfold submit. destruct o; repeat case_match; by intros [= <- <-]. Qed.
Lemma past_begins st : past st = true → begins st = true.
Proof. by destruct st. Qed.

(** With starts apart, a turn that starts finds no task. *)
Record one_inv w : Prop := {
  one_past i st : threads w !! i = Some st → past st = true → active_tasks (world_session w) = [];
  one_task : length (active_tasks (world_session w)) ≤ 1 }.
Lemma swap_remove_length id (l : list RunningTask) : length (swap_remove id l) ≤ length l.
Proof. unfold swap_remove. case_match; [|done]. case_match. case_match; [|done]. rewrite length_take, length_insert. lia. Qed.
Lemma one_move w i c st st' s' sp :
  one_inv w → starters w ≤ 1 → threads w !! i = Some st → turn_move i (length (threads w)) c st (world_session w) = Some (st', s', sp) →
  (∀ x, sp = Some x → past x = false) → one_inv (thread_goes_on w i st' s' sp).
Proof.
  intros [Hpast Hone] Hst Hi Hm Hsp.
  assert (Hprev : ∀ j x, threads (thread_goes_on w i st' s' sp) !! j = Some x → past x = true → st' = x ∧ j = i ∨ j ≠ i ∧ threads w !! j = Some x).
  { intros j x Hx Hp. destruct (advance_lookup _ _ _ _ _ _ _ _ Hi Hx) as [[? ->]|[?|[_ Hx']]]; [by left|by right|]. by rewrite (Hsp _ Hx') in Hp. }
  destruct (move_turn _ _ _ _ _ _ _ _ Hm) as [Es|a En Ea Et _ _|t r a -> _ Ea Et _|id a -> Ea Hl|reason k a -> Ea En ->].
  - assert (E : active_tasks s' = active_tasks (world_session w)) by (unfold active_tasks; by rewrite Es).
    split; cbn [world_session thread_goes_on]; rewrite E; [|done]. intros j x Hx Hp. destruct (Hprev j x Hx Hp) as [[<- ->]|[_ Hj]]; [|by eapply Hpast].
    destruct (move_past _ _ _ _ _ _ _ _ Hm Hp) as [H|[[_ H]|(Hb & reason & k & ->)]]; [by eapply Hpast|unfold active_tasks; by rewrite H|].
    unfold active_tasks. destruct (active_turn (world_session w)) as [a|] eqn:Ea; [|done]. open_move Hm. rewrite Ea in Hm. injection Hm as <- <- <-.
    cbn in Es. congruence.
  - assert (E : active_tasks s' = []) by (unfold active_tasks; by rewrite Ea). split; cbn [world_session thread_goes_on]; rewrite E; [done|cbn; lia].
  - assert (E : active_tasks s' = [r]).
    { unfold active_tasks at 1. rewrite Ea, Et. by rewrite (Hpast i _ Hi eq_refl). }
    split; cbn [world_session thread_goes_on]; rewrite E; [|done]. intros j x Hx Hp. exfalso. destruct (Hprev j x Hx Hp) as [[<- ->]|[Hne Hj]].
    + open_move Hm. destruct (get_or_insert _). injection Hm as <- <- <-. by destruct i.
    + apply Hne. symmetry. eapply (one_starter w i j); [done..|by apply past_begins].
  - assert (Hlen : length (active_tasks s') ≤ length (tasks a)).
    { unfold active_tasks. destruct Hl as [(_ & -> & _)| ->]; [cbn; lia|apply swap_remove_length]. }
    assert (Hw : active_tasks (world_session w) = tasks a) by (unfold active_tasks; by rewrite Ea).
    rewrite Hw in Hone. split; cbn [world_session thread_goes_on]; [|lia].
    intros j x Hx Hp. destruct (Hprev j x Hx Hp) as [[<- ->]|[Hne Hj]].
    + open_move Hm. rewrite Ea in Hm. destruct (swap_remove _ _); by injection Hm as <- <- <-.
    + apply nil_length_inv. rewrite <- Hw, (Hpast j x Hj Hp) in Hlen. cbn in Hlen. lia.
  - assert (E : active_tasks s' = []) by (unfold active_tasks; by rewrite En). split; cbn [world_session thread_goes_on]; rewrite E; [done|cbn; lia].
Qed.
Lemma spawned_kind me next c st s st' s' sp x : turn_move me next c st s = Some (st', s', sp) → sp = Some x → begins x = false ∧ past x = false.
Proof.
  intros Hm ->. destruct (moves_tasks st) eqn:E.
  - destruct st; try discriminate E; open_move Hm; turn_cases Hm; done.
  - destruct (move_tasks _ _ _ _ _ _ _ _ Hm E) as (_ & _ & _ & Hsp). by destruct (Hsp x eq_refl) as [_ ->].
Qed.
Lemma one_step P w w' : (∀ w e, P w e → starts_apart w e) → one_inv w → session_step P w w' → one_inv w'.
Proof.
  intros HP Hone Hstep. apply step_cases in Hstep as [(e & i & st & st' & s' & sp & HPe & Hi & Hs & ->)|(s' & Hs & ->)].
  - destruct Hs as [o st' s' Es|i c st st' s' sp Em _|i st _].
    + destruct (submit_wakes _ _ _ _ Es) as (E1 & _). assert (E : active_tasks s' = active_tasks (world_session w)) by (unfold active_tasks; by rewrite E1).
      destruct Hone as [Hpast Hone]. split; cbn [world_session thread_goes_on]; rewrite E; [|done].
      intros j x Hx Hp. destruct (advance_lookup _ _ _ _ _ _ _ _ Hi Hx) as [[-> ->]|[[_ Hj]|[_ ?]]]; [by rewrite (submit_not_past _ _ _ _ Es) in Hp|by eapply Hpast|done].
    + eapply one_move; [done|by eapply HP|done..|]. intros x Hx. by eapply spawned_kind.
    + destruct Hone as [Hpast Hone]. split; [|done]. intros j x Hx Hp.
      destruct (advance_lookup _ _ _ _ _ _ _ _ Hi Hx) as [[-> ->]|[[_ Hj]|[_ ?]]]; [done|by eapply Hpast|done].
  - destruct (client_same _ _ Hs) as (_ & _ & _ & E & _). destruct Hone as [Hpast Hone].
    split; cbn [world_session threads]; rewrite E; done.
Qed.
Lemma one_initial : one_inv session_initial.
Proof. split; [done|cbn; lia]. Qed.

(** * Turns that nobody aborts *)

(** Starts are apart, no task is dropped while it finishes, and no turn is taken
    from its tasks. *)
Definition calm w (e : session_event) : Prop :=
  starts_apart w e ∧ finishes w e ∧
  (∀ i c reason k, e = Moves i c → threads w !! i = Some (TakeActive reason k) → active_turn (world_session w) = None).
(** The task has left its turn. *)
Definition done_stage st : bool := match stage_role st with Finishing | Over => true | _ => false end.
Record calm_inv w : Prop := {
  calm_push i t l ts : threads w !! i = Some (PushItems t l ts) → ∃ a, active_turn (world_session w) = Some a ∧ turn_state a = ts;
  calm_tasks i st id : threads w !! i = Some st → stage_role st = Unfinished id →
    ∃ t, t ∈ active_tasks (world_session w) ∧ task_id t = id ∧ running_thread t = i;
  calm_pending j t : turn_states (world_session w) !! j = Some t → pending_input t ≠ [] →
    (∃ a, active_turn (world_session w) = Some a ∧ turn_state a = j) ∨ has_stage (λ st, ∃ id, st = FinishTake id j) w;
  calm_discarded : discarded (log (world_session w)) = [];
  calm_aborts i st : threads w !! i = Some st → stage_role st = Aborting → ∃ reason k, st = TakeActive reason k;
  calm_aborted i : i ∈ aborted (world_session w) → ∃ st, threads w !! i = Some st ∧ done_stage st = true }.
Lemma pending_alter_clear j ts (l : list TurnState) t :
  alter clear_pending ts l !! j = Some t → pending_input t ≠ [] → j ≠ ts ∧ @lookup _ (@TurnState Data CallToolResult) _ _ j l = Some t.
Proof.
  intros H Hne. destruct (decide (j = ts)) as [->|Hj]; [|split; [done|by rewrite list_lookup_alter_ne in H]].
  rewrite list_lookup_alter_eq in H. destruct (l !! ts); [|done]. by injection H as <-.
Qed.
Lemma pending_alter_other j ts f (l : list TurnState) (t : @TurnState Data CallToolResult) :
  alter f ts l !! j = Some t → j = ts ∨ l !! j = Some t.
Proof. destruct (decide (j = ts)) as [->|Hj]; [by left|right]. by rewrite list_lookup_alter_ne in H. Qed.
Lemma get_or_insert_states s a s' j t :
  get_or_insert s = (a, s') → turn_states s' !! j = Some t → pending_input t ≠ [] → turn_states s !! j = Some t.
Proof.
  unfold get_or_insert. destruct (active_turn s); intros [= <- <-] H Hne; [done|]. cbn in H. apply lookup_app_Some in H as [H|[_ H]]; [done|].
  by apply list_lookup_singleton_Some in H as [_ <-].
Qed.
Lemma steer_pending input expected s r s' j t :
  steer_input local_image input expected s = (r, s') → turn_states s' !! j = Some t →
  turn_states s !! j = Some t ∨ ∃ a, active_turn s = Some a ∧ turn_state a = j.
Proof.
  intros H Ht. destruct (steer_input_spec _ _ _ _ _ H) as [->|(a & i & Ea & _ & ->)]; [by left|].
  cbn in Ht. destruct (pending_alter_other _ _ _ _ _ Ht) as [->|?]; [right; by exists a|by left].
Qed.
Lemma move_pending me next c st s st' s' sp j t :
  turn_move me next c st s = Some (st', s', sp) → turn_states s' !! j = Some t → pending_input t ≠ [] →
  (∃ a, active_turn s = Some a ∧ turn_state a = j) ∨ (∃ t l, st = PushItems t l j) ∨
  (∃ t', turn_states s !! j = Some t' ∧ pending_input t' ≠ [] ∧ ∀ id, st ≠ FinishTake id j).
Proof.
  intros H Ht Hne. destruct st; open_move H; try discriminate H; turn_cases H.
  all: try (right; right; exists t; split_and!; done).
  all: try match goal with E : steer_input _ ?i ?e ?s = _ |- _ =>
    destruct (steer_pending _ _ _ _ _ _ _ E Ht) as [?|?]; [right; right; exists t; split_and!; done|by left] end.
  all: try match goal with H : context [(get_or_insert ?s).2] |- _ => destruct (get_or_insert s) eqn:? end; cbn [snd] in *.
  all: try match goal with E : get_or_insert _ = _ |- _ =>
    right; right; exists t; split_and!; [by eapply (get_or_insert_states _ _ _ _ _ E)|done|by intros ? [=]] end.
  all: cbn in Ht.
  all: try (destruct (pending_alter_clear _ _ _ _ Ht Hne) as [? ?]; right; right; exists t; split_and!; [done|done|intros ? [=]; congruence]).
  all: try (destruct (pending_alter_other _ _ _ _ _ Ht) as [->|?]; [first [by eauto 6]|right; right; exists t; split_and!; done]).
  all: destruct (decide (j = ts)) as [->|Hj]; [|rewrite list_lookup_alter_ne in Ht by done; right; right; exists t; by split_and!].
  all: rewrite list_lookup_alter_eq in Ht; destruct (turn_states s !! ts) as [u|]; [|done]; injection Ht as <-; right; right; exists u.
  - by split_and!.
  - split_and!; [done| |done]. by destruct (has_pending_input u).
Qed.
Lemma move_discards me next c st s st' s' sp :
  turn_move me next c st s = Some (st', s', sp) → active_ok s →
  discarded (log s') = discarded (log s) ∨ (∃ reason l ts k, st = AbortTasks reason l ts k) ∨ (∃ id l l', st = Requeue id l l' ∧ active_turn s = None).
Proof.
  intros H Ha. destruct st; open_move H; try discriminate H; turn_cases H; try (by left); try (right; left; by eauto).
  all: try match goal with |- context [(get_or_insert ?s).2] => destruct (get_or_insert s) eqn:? end; cbn [snd] in *.
  all: try match goal with E : get_or_insert _ = _ |- _ => destruct (get_or_insert_spec (to_json := to_json) _ _ _ E Ha) as (_ & _ & _ & El & _); left; cbn; by rewrite El end.
  all: try match goal with E : steer_input _ _ _ _ = _ |- _ => left; by destruct (steer_input_spec _ _ _ _ _ E) as [->|(? & ? & _ & _ & ->)] end.
  right; right. by eauto 6.
Qed.
Lemma move_unfinished me next c st s st' s' sp id :
  turn_move me next c st s = Some (st', s', sp) → stage_role st' = Unfinished id → stage_role st = Unfinished id ∧ ∀ i, st ≠ Finish i.
Proof.
  intros H Hr. destruct st; open_move H; try discriminate H; turn_cases H; try discriminate Hr; try done.
  all: try (by destruct me).
  all: try (rewrite role_answered in Hr; done).
  all: try (rewrite role_input_recorded in Hr; done).
  all: unfold after_tasks in Hr; repeat case_match; try done; by destruct me.
Qed.
Lemma move_push me next c st s st' s' sp t l ts :
  turn_move me next c st s = Some (st', s', sp) → st' = PushItems t l ts → st = GetTurnState t l ∧ ∃ a, active_turn s' = Some a ∧ turn_state a = ts.
Proof.
  intros H E. destruct st; open_move H; try discriminate H; turn_cases H; try discriminate E.
  all: try (by destruct me). all: try by destruct q. all: try by destruct q, (bool_decide _). all: try by destruct k.
  - injection E as <- <- <-. split; [done|]. exists a. split; [|done].
    match goal with E : get_or_insert _ = _ |- _ => by destruct (get_or_insert_turn _ _ _ E) as [[? ->]|(_ & ? & _)] end.
  - unfold after_tasks in E. repeat case_match; try done; by destruct me.
  - unfold after_tasks in E. repeat case_match; try done; by destruct me.
Qed.
Lemma task_by_id (l : list RunningTask) t u : NoDup (task_id <$> l) → t ∈ l → u ∈ l → task_id t = task_id u → t = u.
Proof.
  intros Hnd Ht Hu E. apply list_elem_of_lookup in Ht as [i Hi], Hu as [j Hj].
  assert (i = j) as ->; [|congruence]. eapply NoDup_lookup; [done|rewrite list_lookup_fmap, Hi; done|rewrite list_lookup_fmap, Hj; cbn; by rewrite E].
Qed.
Lemma move_aborting me next c st s st' s' sp :
  turn_move me next c st s = Some (st', s', sp) → stage_role st' = Aborting →
  (∃ reason k, st' = TakeActive reason k) ∨ (∃ reason k, st = TakeActive reason k ∧ active_turn s ≠ None) ∨
  (stage_role st = Aborting ∧ ∀ reason k, st ≠ TakeActive reason k).
Proof.
  intros H Hr. destruct st; open_move H; try discriminate H; turn_cases H; try discriminate Hr; try (left; by eauto); try by right; right.
  all: try (by destruct me). all: try by destruct q. all: try by destruct q, (bool_decide _). all: try by destruct k.
  - right; left. exists reason, k. split; [done|congruence].
  - unfold after_tasks in Hr. repeat case_match; try done; by destruct me.
Qed.

Lemma move_done me next c st s st' s' sp : turn_move me next c st s = Some (st', s', sp) → done_stage st = true → done_stage st' = true.
Proof. intros H Hd. destruct st; try discriminate Hd; open_move H; turn_cases H; done. Qed.
(** Who drops tasks: those that abort, and a task that leaves its turn. *)
Lemma move_aborted me next c st s st' s' sp :
  turn_move me next c st s = Some (st', s', sp) →
  aborted s' = aborted s ∨ (stage_role st = Aborting ∧ ∀ reason k, st ≠ TakeActive reason k)
  ∨ ∃ id a, st = Finish id ∧ active_turn s = Some a ∧ done_stage st' = true
      ∧ aborted s' = list_to_set (map running_thread (filter (λ t, task_id t = id) (tasks a))) ∪ aborted s.
Proof.
  intros H. destruct (moves_tasks st) eqn:Em; [|destruct (move_tasks _ _ _ _ _ _ _ _ H Em) as ((_ & _ & E & _) & _); by left].
  destruct st; try discriminate Em; open_move H.
  - destruct (get_or_insert s) as [a s1] eqn:E. injection H as <- <- <-. destruct (get_or_insert_tasks _ _ _ E) as ((_ & _ & Ea & _) & _). by left.
  - left. by destruct (active_turn s); injection H as <- <- <-.
  - by right; left.
  - by right; left.
  - destruct (active_turn s) as [a|]; [|left; by injection H as <- <- <-]. right; right. exists id, a.
    destruct (swap_remove id (tasks a)); by injection H as <- <- <-.
Qed.

Section calm_move.
Context (w : session_world) (i : nat) (c : turn_choice) (st st' : turn_stage) (s' : session) (sp : option turn_stage).
Context (Hwf : session_wf w) (Hone : one_inv w) (Hinv : calm_inv w) (Hcalm : calm w (Moves i c)) (Hi : threads w !! i = Some st)
  (Hm : turn_move i (length (threads w)) c st (world_session w) = Some (st', s', sp)).

Lemma calm_not_taken reason k : st = TakeActive reason k → active_turn (world_session w) = None.
Proof. intros E. destruct Hcalm as (_ & _ & Hnone). apply (Hnone i c reason k eq_refl). by rewrite Hi, E. Qed.
(** A task that is not finished is in the active turn. *)
Lemma calm_self id : stage_role st = Unfinished id → ∃ t a, active_turn (world_session w) = Some a ∧ t ∈ tasks a ∧ task_id t = id ∧ running_thread t = i.
Proof.
  intros Hr. destruct (calm_tasks _ Hinv i st id Hi Hr) as (t & Ht & Hid & Hth). unfold active_tasks in Ht.
  destruct (active_turn (world_session w)) as [a|]; [|by apply elem_of_nil in Ht]. by exists t, a.
Qed.
Lemma calm_spawned x : sp = Some x → (∃ id, x = CheckQueued id) ∨ ∃ t, st = AddTask t ∧ stage_role x = Unfinished (start_id t).
Proof.
  intros Ex. destruct (moves_tasks st) eqn:E.
  - pose proof Hm as Hm'. destruct st; try discriminate E; open_move Hm'; turn_cases Hm'; try discriminate Ex. injection Ex as <-. right. by eexists.
  - destruct (move_tasks _ _ _ _ _ _ _ _ Hm E) as (_ & _ & _ & Hsp). destruct (Hsp x Ex) as [_ ->]. left. by eexists.
Qed.
Lemma calm_keeps a :
  active_turn (world_session w) = Some a → (∃ id, st = Finish id) ∨ ∃ a', active_turn s' = Some a' ∧ turn_state a' = turn_state a.
Proof.
  intros Ea. destruct (move_turn _ _ _ _ _ _ _ _ Hm) as [E|b En|t r b _ _ Eb _ Hts|id b E _ _|reason k b E Eb _ _].
  - right. exists a. by rewrite E.
  - congruence.
  - right. exists b. split; [done|by apply Hts].
  - left. by exists id.
  - rewrite (calm_not_taken _ _ E) in Eb. done.
Qed.
Lemma calm_push_move j t l ts :
  threads (thread_goes_on w i st' s' sp) !! j = Some (PushItems t l ts) → ∃ a, active_turn s' = Some a ∧ turn_state a = ts.
Proof.
  intros Hj. destruct (advance_lookup _ _ _ _ _ _ _ _ Hi Hj) as [[-> E]|[[Hne Hj']|[_ Hx]]].
  - symmetry in E. by destruct (move_push _ _ _ _ _ _ _ _ _ _ _ Hm E) as [_ ?].
  - destruct (calm_push _ Hinv j t l ts Hj') as (a & Ea & <-). destruct (calm_keeps a Ea) as [[id E]|(a' & Ea' & Ets)]; [|by exists a'].
    exfalso. assert (Hr : stage_role st = Unfinished id) by (by rewrite E). destruct (calm_self id Hr) as (u & b & Eb & Hu & _).
    pose proof (one_past _ Hone j _ Hj' eq_refl) as Hnil. unfold active_tasks in Hnil. rewrite Eb in Hnil. rewrite Hnil in Hu. by apply elem_of_nil in Hu.
  - by destruct (calm_spawned _ Hx) as [[? [=]]|(? & _ & [=])].
Qed.
(** The other tasks of the turn stay when one finishes. *)
Lemma calm_other t : t ∈ active_tasks (world_session w) → running_thread t ≠ i → t ∈ active_tasks s'.
Proof.
  intros Ht Hne. unfold active_tasks in *. destruct (move_turn _ _ _ _ _ _ _ _ Hm) as [E|b En|t' r b _ _ Eb Et _|id' b E Eb Hl|reason k b E Eb _ _].
  - by rewrite E.
  - rewrite En in Ht. by apply elem_of_nil in Ht.
  - rewrite Eb, Et. apply elem_of_app. by left.
  - rewrite Eb in Ht. assert (Hr : stage_role st = Unfinished id') by (by rewrite E). destruct (calm_self id' Hr) as (u & b' & Eb' & Hu & Hid' & Hth').
    rewrite Eb in Eb'. injection Eb' as <-.
    assert (Hnd : NoDup (task_id <$> tasks b)) by (pose proof (active_ids _ Hwf) as H; unfold active_tasks in H; by rewrite Eb in H).
    assert (Hk : t ∈ swap_remove id' (tasks b)).
    { apply swap_remove_keeps; [done..|]. intros Ei. apply Hne. rewrite <- Hth'. f_equal. eapply task_by_id; [done..|congruence]. }
    destruct Hl as [(El & _)|El]; [rewrite El in Hk; by apply elem_of_nil in Hk|by rewrite El].
  - rewrite (calm_not_taken _ _ E) in Eb. done.
Qed.
Lemma calm_tasks_move j x id :
  threads (thread_goes_on w i st' s' sp) !! j = Some x → stage_role x = Unfinished id → ∃ t, t ∈ active_tasks s' ∧ task_id t = id ∧ running_thread t = j.
Proof.
  intros Hj Hr. destruct (advance_lookup _ _ _ _ _ _ _ _ Hi Hj) as [[-> ->]|[[Hne Hj']|[-> Hx]]].
  - destruct (move_unfinished _ _ _ _ _ _ _ _ _ Hm Hr) as [Hr' Hnf]. destruct (calm_tasks _ Hinv i st id Hi Hr') as (t & Ht & Hid & Hth). exists t. split; [|done].
    destruct (move_turn _ _ _ _ _ _ _ _ Hm) as [E|b En _ _ _ _|t' r b E _ _ _ _|id' b E _ _|reason k b E _ _ _].
    + unfold active_tasks in *. by rewrite E.
    + unfold active_tasks in Ht. rewrite En in Ht. by apply elem_of_nil in Ht.
    + by rewrite E in Hr'.
    + by destruct (Hnf id').
    + by rewrite E in Hr'.
  - destruct (calm_tasks _ Hinv j x id Hj' Hr) as (t & Ht & Hid & Hth). exists t. split; [|done]. apply calm_other; [done|congruence].
  - destruct (calm_spawned _ Hx) as [[? ->]|(t & E & Hr')]; [done|]. rewrite Hr in Hr'. injection Hr' as ->. pose proof Hm as Hm'. rewrite E in Hm'. open_move Hm'.
    destruct (get_or_insert _) as [a s1]. injection Hm' as _ <- _. eexists. split; [cbn; apply elem_of_app; right; by left|done].
Qed.
Lemma calm_state_move a :
  active_turn (world_session w) = Some a →
  (∃ a', active_turn s' = Some a' ∧ turn_state a' = turn_state a) ∨ has_stage (λ st, ∃ id, st = FinishTake id (turn_state a)) (thread_goes_on w i st' s' sp).
Proof.
  intros Ea. destruct (calm_keeps a Ea) as [[id E]|?]; [|by left].
  destruct (move_turn _ _ _ _ _ _ _ _ Hm) as [E'|b En| |id' b E' Eb [(_ & _ & E2)|El]|reason k b E' _ _ _]; try congruence.
  - left. exists a. by rewrite E'.
  - right. exists i, st'. split; [by eapply advance_same|]. exists id'. congruence.
  - left. eexists. split; [exact El|]. cbn. congruence.
Qed.
Lemma calm_pending_move j t :
  turn_states s' !! j = Some t → pending_input t ≠ [] →
  (∃ a, active_turn s' = Some a ∧ turn_state a = j) ∨ has_stage (λ st, ∃ id, st = FinishTake id j) (thread_goes_on w i st' s' sp).
Proof.
  intros Ht Hne. destruct (move_pending _ _ _ _ _ _ _ _ _ _ Hm Ht Hne) as [(a & Ea & <-)|[(t0 & l & E)|(t0 & Ht0 & Hne0 & Hnf)]].
  - by apply calm_state_move.
  - pose proof Hi as Hi'. rewrite E in Hi'. destruct (calm_push _ Hinv i t0 l j Hi') as (a & Ea & <-). by apply calm_state_move.
  - destruct (calm_pending _ Hinv j t0 Ht0 Hne0) as [(a & Ea & <-)|Hf]; [by apply calm_state_move|].
    right. eapply stage_advance; [done|exact Hf|]. intros (id & E). by destruct (Hnf id).
Qed.
Lemma calm_aborted_move j : j ∈ aborted s' → ∃ x, threads (thread_goes_on w i st' s' sp) !! j = Some x ∧ done_stage x = true.
Proof.
  assert (Hkeep : j ∈ aborted (world_session w) → ∃ x, threads (thread_goes_on w i st' s' sp) !! j = Some x ∧ done_stage x = true).
  { intros Hj. destruct (calm_aborted _ Hinv j Hj) as (x & Hx & Hd). destruct (decide (j = i)) as [->|Hne].
    - exists st'. split; [by eapply advance_same|]. eapply move_done; [exact Hm|congruence].
    - exists x. split; [by apply advance_other|done]. }
  destruct (move_aborted _ _ _ _ _ _ _ _ Hm) as [E|[[Hr Hnt]|(id & a & E & Ea & Hd & E')]].
  - by rewrite E.
  - destruct (calm_aborts _ Hinv i st Hi Hr) as (reason & k & E). by destruct (Hnt reason k).
  - rewrite E'. intros [Hj|Hj]%elem_of_union; [|by apply Hkeep].
    assert (Hr : stage_role st = Unfinished id) by (by rewrite E). destruct (calm_self id Hr) as (u & b & Eb & Hu & Hid & Hth).
    rewrite Ea in Eb. injection Eb as <-. apply elem_of_list_to_set, list_elem_of_fmap in Hj as (t & -> & [Ht1 Ht2]%list_elem_of_filter).
    assert (t = u) as ->.
    { apply (task_by_id (tasks a)); [|done..|congruence]. pose proof (active_ids _ Hwf) as H. unfold active_tasks in H. by rewrite Ea in H. }
    rewrite Hth. exists st'. split; [by eapply advance_same|done].
Qed.
Lemma calm_move : calm_inv (thread_goes_on w i st' s' sp).
Proof.
  split; cbn [world_session thread_goes_on].
  - exact calm_push_move.
  - exact calm_tasks_move.
  - exact calm_pending_move.
  - rewrite <- (calm_discarded _ Hinv).
    destruct (move_discards _ _ _ _ _ _ _ _ Hm (wf_active _ Hwf)) as [E|[(reason & l & ts & k & E)|(id & l & l' & E & En)]]; [done| |].
    + pose proof Hi as Hi'. rewrite E in Hi'. by destruct (calm_aborts _ Hinv i _ Hi' eq_refl) as (? & ? & [=]).
    + assert (Hr : stage_role st = Unfinished id) by (by rewrite E). destruct (calm_self id Hr) as (t & a & Ea & _). congruence.
  - intros j x Hj Hr. destruct (advance_lookup _ _ _ _ _ _ _ _ Hi Hj) as [[-> ->]|[[Hne Hj']|[_ Hx]]]; [|by eapply (calm_aborts _ Hinv)|].
    + destruct (move_aborting _ _ _ _ _ _ _ _ Hm Hr) as [?|[(reason & k & E & Ha)|[Hr' Hnt]]]; [done|by rewrite (calm_not_taken _ _ E) in Ha|].
      destruct (calm_aborts _ Hinv i st Hi Hr') as (reason & k & E). by destruct (Hnt reason k).
    + destruct (calm_spawned _ Hx) as [[? ->]|(t & _ & Hr')]; [done|congruence].
  - exact calm_aborted_move.
Qed.
End calm_move.
Lemma submit_stage o s st s' :
  submit to_json o s = (st, s') →
  (stage_role st = Looping ∨ stage_role st = Checking ∨ ∃ reason k, st = TakeActive reason k) ∧ turn_states s' = turn_states s ∧ discarded (log s') = discarded (log s).
Proof.
  unfold submit. destruct o; repeat case_match; intros [= <- <-]; split; try done; try (by left); try (by right; left); right; right; by eauto.
Qed.
Lemma calm_submit w o st' s' :
  calm_inv w → threads w !! 0 = Some Idle → submit to_json o (world_session w) = (st', s') → calm_inv (thread_goes_on w 0 st' s' None).
Proof.
  intros Hinv Hi Es. destruct (submit_wakes _ _ _ _ Es) as (E1 & _). destruct (submit_stage _ _ _ _ Es) as (Hr & E2 & E3).
  assert (Ea : active_tasks s' = active_tasks (world_session w)) by (unfold active_tasks; by rewrite E1).
  split; cbn [world_session thread_goes_on]; rewrite ?E1, ?E2, ?E3, ?Ea.
  - intros j t l ts Hj. destruct (advance_lookup _ _ _ _ _ _ _ _ Hi Hj) as [[-> <-]|[[_ Hj']|[_ ?]]]; [|by eapply (calm_push _ Hinv)|done].
    by destruct Hr as [?|[?|(? & ? & ?)]].
  - intros j x id Hj Hx. destruct (advance_lookup _ _ _ _ _ _ _ _ Hi Hj) as [[-> ->]|[[_ Hj']|[_ ?]]]; [|by eapply (calm_tasks _ Hinv)|done].
    destruct Hr as [?|[?|(? & ? & ->)]]; [congruence..|done].
  - intros j t Ht Hne. destruct (calm_pending _ Hinv j t Ht Hne) as [?|?]; [by left|right]. eapply stage_advance; [done..|]. by intros [? [=]].
  - apply Hinv.
  - intros j x Hj Hx. destruct (advance_lookup _ _ _ _ _ _ _ _ Hi Hj) as [[-> ->]|[[_ Hj']|[_ ?]]]; [|by eapply (calm_aborts _ Hinv)|done].
    destruct Hr as [?|[?|?]]; [congruence..|done].
  - assert (Eab : aborted s' = aborted (world_session w)) by (by destruct (submit_spec _ _ _ _ Es) as ([->|[m ->]] & _)).
    intros j Hj. rewrite Eab in Hj. destruct (calm_aborted _ Hinv j Hj) as (x & Hx & Hd).
    exists x. split; [|done]. apply advance_other; [|done]. intros ->. rewrite Hi in Hx. by injection Hx as <-.
Qed.
(** A thread that is over is dropped. *)
Lemma calm_drop w i st :
  calm_inv w → threads w !! i = Some st → i ∈ aborted (world_session w) → stage_role st ≠ Finishing →
  calm_inv (thread_goes_on w i Dropped (with_log (discard (hand st)) (world_session w)) None).
Proof.
  intros Hinv Hi Ha Hnf. destruct (calm_aborted _ Hinv i Ha) as (x & Hx & Hd). rewrite Hi in Hx. injection Hx as <-.
  assert (Hover : stage_role st = Over) by (unfold done_stage in Hd; by destruct (stage_role st)).
  assert (Hh : hand st = []) by (by destruct st).
  split; cbn [world_session thread_goes_on].
  - intros j t l ts Hj. destruct (advance_lookup _ _ _ _ _ _ _ _ Hi Hj) as [[_ [=]]|[[_ Hj']|[_ ?]]]; [by eapply (calm_push _ Hinv)|done].
  - intros j y id Hj Hy. destruct (advance_lookup _ _ _ _ _ _ _ _ Hi Hj) as [[_ ->]|[[_ Hj']|[_ ?]]]; [done|by eapply (calm_tasks _ Hinv)|done].
  - intros j t Ht Hne. destruct (calm_pending _ Hinv j t Ht Hne) as [?|?]; [by left|right]. eapply stage_advance; [done..|].
    intros (id & ->). discriminate Hover.
  - cbn. rewrite Hh, app_nil_r. apply Hinv.
  - intros j y Hj Hy. destruct (advance_lookup _ _ _ _ _ _ _ _ Hi Hj) as [[_ ->]|[[_ Hj']|[_ ?]]]; [done|by eapply (calm_aborts _ Hinv)|done].
  - intros j Hj. destruct (decide (j = i)) as [->|Hne]; [exists Dropped; split; [by eapply advance_same|done]|].
    destruct (calm_aborted _ Hinv j Hj) as (y & Hy & Hdy). exists y. split; [by apply advance_other|done].
Qed.
Lemma client_pending s s' j t :
  outside_step s s' → turn_states s' !! j = Some t → turn_states s !! j = Some t ∨ ∃ a, active_turn s = Some a ∧ turn_state a = j.
Proof.
  intros [input expected r s2 E|l a E] Ht; [by eapply steer_pending|]. cbn in Ht.
  destruct (pending_alter_other _ _ _ _ _ Ht) as [->|?]; [right; by exists a|by left].
Qed.
Lemma client_discards s s' : outside_step s s' → discarded (log s') = discarded (log s).
Proof. intros [input expected r s2 E|l a E]; [|done]. by destruct (steer_input_spec _ _ _ _ _ E) as [->|(? & ? & _ & _ & ->)]. Qed.
Lemma calm_step P w w' :
  (∀ w e, P w e → calm w e) → session_wf w → one_inv w → calm_inv w → session_step P w w' → calm_inv w'.
Proof.
  intros HP Hwf Hone Hinv Hstep. apply step_cases in Hstep as [(e & i & st & st' & s' & sp & HPe & Hi & Hs & ->)|(s' & Hs & ->)].
  - destruct Hs as [o st' s' Es|i c st st' s' sp Em _|i st Ea]; [by eapply calm_submit|by eapply calm_move; [..|by apply HP| |]|].
    destruct (HP _ _ HPe) as (_ & Hd & _). apply calm_drop; [done..|]. by apply (Hd i).
  - destruct (client_same _ _ Hs) as (E1 & _ & _ & E2 & _ & E4 & _). pose proof (client_discards _ _ Hs) as E3.
    split; cbn [world_session threads]; rewrite ?E1, ?E2, ?E3, ?E4; try apply Hinv.
    intros j t Ht Hne. destruct (client_pending _ _ _ _ Hs Ht) as [Ht'|?]; [by apply (calm_pending _ Hinv j t)|by left].
Qed.
Lemma calm_initial : calm_inv session_initial.
Proof.
  split; try done.
  - intros [|i] t l ts H; [discriminate H|done].
  - intros [|i] st id H; [by injection H as <-|done].
  - intros [|i] st H; [by injection H as <-|done].
Qed.

Definition resting st : bool := match st with Idle | Ended | Dropped => true | _ => false end.
Definition quiescent w : bool := forallb resting (threads w).
Lemma reachable_live P w : (∀ w e, P w e → finishes w e) → rtc (session_step P) session_initial w → session_wf w ∧ live_inv w.
Proof.
  intros HP. apply (rtc_ind_r (λ w, session_wf w ∧ live_inv w) _ (conj wf_initial live_initial)).
  intros w1 w2 _ Hs [H1 H2]. split; [by eapply wf_step|by eapply live_step].
Qed.
Lemma reachable_one P w : (∀ w e, P w e → starts_apart w e) → rtc (session_step P) session_initial w → one_inv w.
Proof. intros HP. apply (rtc_ind_r (λ w, one_inv w) _ one_initial). intros w1 w2 _ Hs H. by eapply one_step. Qed.
Lemma reachable_calm P w :
  (∀ w e, P w e → calm w e) → rtc (session_step P) session_initial w → session_wf w ∧ one_inv w ∧ calm_inv w.
Proof.
  intros HP. apply (rtc_ind_r (λ w, session_wf w ∧ one_inv w ∧ calm_inv w) _ (conj wf_initial (conj one_initial calm_initial))).
  intros w1 w2 _ Hs (H1 & H2 & H3). split_and!; [by eapply wf_step| |by eapply calm_step].
  eapply one_step; [|exact H2|exact Hs]. intros w0 e H. by apply HP in H as [H _].
Qed.
Lemma resting_stage w i st : quiescent w = true → threads w !! i = Some st → resting st = true.
Proof. unfold quiescent. rewrite forallb_forall. intros H Hi. apply H, list_elem_of_In. by eapply list_elem_of_lookup_2. Qed.
Lemma resting_hands w : quiescent w = true → concat (hand <$> threads w) = [].
Proof.
  unfold quiescent. generalize (threads w) as l. induction l as [|st l IH]; [done|]. cbn. intros [Hst Hl]%andb_true_iff.
  rewrite (IH Hl), app_nil_r. by destruct st.
Qed.
(** Nothing is active when every thread rests. *)
Lemma quiescent_active w : session_wf w → live_inv w → quiescent w = true → active_turn (world_session w) = None.
Proof.
  intros Hwf Hl Hq. destruct (active_turn (world_session w)) as [a|] eqn:Ea; [|done]. destruct (tasks a) as [|t l] eqn:Et.
  - destruct (live_place _ Hl a Ea Et) as (i & st & Hi & Hst). pose proof (resting_stage _ _ _ Hq Hi). by destruct st.
  - destruct (wf_unfinished _ Hwf t) as (st & Hi & Hst); [unfold active_tasks; rewrite Ea, Et; by left|].
    pose proof (resting_stage _ _ _ Hq Hi). by destruct st.
Qed.
Lemma calm_finishes w e : calm w e → finishes w e.
Proof. by intros (_ & Hd & _). Qed.
Lemma quiescent_pendings w : calm_inv w → active_turn (world_session w) = None → quiescent w = true → pendings (world_session w) = [].
Proof.
  intros Hinv En Hq. unfold pendings. apply concat_nil_Forall, Forall_fmap, Forall_lookup. intros j t Hj. cbn.
  destruct (pending_input t) as [|i l] eqn:Ep; [done|]. destruct (calm_pending _ Hinv j t Hj) as [(a & Ea & _)|(k & st & Hk & id & ->)].
  - by rewrite Ep.
  - congruence.
  - discriminate (resting_stage _ _ _ Hq Hk).
Qed.
End inputs.

(** * Claims *)

Section claims.
Context {Data CallToolResult : Type} (to_json : InterAgentCommunication → str) (local_image : str → N → list ContentItem).
#[local] Abbreviation session_step := (@session_step Data CallToolResult to_json local_image).
#[local] Abbreviation turn_move := (@turn_move Data CallToolResult to_json local_image).

(** C9. No accepted input goes astray: however the threads interleave, what was
    steered, injected or mailed is, item for item, where the session or one of its
    threads holds it, in the history, refused by a hook, or thrown away. Nothing
    is thrown away in a session where starts do not overlap, no turn is taken
    from its tasks and no task is dropped while it finishes; so that, once its
    threads rest, all of it is recorded or refused, but for mail that waits for
    the next turn. *)
Theorem accepted_input_is_handled P w :
  rtc (session_step P) session_initial w →
  let s := world_session w in let g := log s in
  accepted g ≡ₚ held_input (to_json := to_json) s ++ concat (hand <$> threads w) ++ recorded g ++ blocked g ++ discarded g ∧
  ((∀ w e, P w e → calm w e) → quiescent w = true →
    discarded g = [] ∧ accepted g ≡ₚ map (to_response_input_item to_json) (mails s) ++ recorded g ++ blocked g).
Proof.
  intros Hr s g. destruct (reachable_conserved _ _ Hr) as [Hwf Hc]. split; [exact Hc|]. intros HP Hq.
  destruct (reachable_calm _ _ HP Hr) as (_ & _ & Hcalm).
  assert (HF : ∀ w e, P w e → finishes w e) by (intros w0 e He; by apply calm_finishes, HP).
  destruct (reachable_live _ _ HF Hr) as [_ Hl].
  pose proof (quiescent_active _ Hwf Hl Hq) as En. pose proof (calm_discarded _ Hcalm) as Hd. split; [exact Hd|].
  unfold conserved, dealt_with, held_input in Hc. subst s g.
  rewrite (resting_hands _ Hq), (quiescent_pendings _ Hcalm En Hq), (wf_idle _ Hwf), Hd in Hc.
  by rewrite !app_nil_r in Hc.
Qed.

(** C10. Provided that no task is dropped while it finishes, work that waits has
    someone to start it and the end of a turn someone to report it, at every
    moment: while no turn is active and mail waits that should start one, a thread
    is on its way to look for such work; a turn that was started runs, or is about
    to be reported by a thread, or was reported complete or aborted. So when the
    threads rest no turn is active, no mail that should start one waits, and every
    turn that was started was reported. *)
Theorem quiescent_session P w :
  rtc (session_step P) session_initial w → (∀ w e, P w e → finishes w e) →
  (active_turn (world_session w) = None → existsb trigger_turn (mails (world_session w)) = true → has_stage (λ st, wakes st = true) w) ∧
  (∀ id, id ∈ started (log (world_session w)) →
    id ∈ task_id <$> running w ∨ has_stage (λ st, reports st = Some id) w ∨
    TurnComplete id ∈ turn_events (world_session w) ∨ ∃ reason, TurnAborted id reason ∈ turn_events (world_session w)) ∧
  (quiescent w = true →
    active_turn (world_session w) = None ∧ existsb trigger_turn (mails (world_session w)) = false ∧
    ∀ id, id ∈ started (log (world_session w)) →
      TurnComplete id ∈ turn_events (world_session w) ∨ ∃ reason, TurnAborted id reason ∈ turn_events (world_session w)).
Proof.
  intros Hr HP. destruct (reachable_live _ _ HP Hr) as [Hwf Hl]. split_and!; [apply (live_wake _ Hl)|apply (live_reports _ Hl)|].
  intros Hq. pose proof (quiescent_active _ Hwf Hl Hq) as En. split_and!; [done| |].
  - destruct (existsb _ _) eqn:Et; [|done]. destruct (live_wake _ Hl En Et) as (i & st & Hi & Hst).
    pose proof (resting_stage _ _ _ Hq Hi). by destruct st.
  - intros id Hid. destruct (live_reports _ Hl id Hid) as [H|[(i & st & Hi & Hst)|H]]; [| |exact H]; exfalso.
    + apply elem_of_running in H as [H|(i & st & Hi & H)]; [unfold active_tasks in H; rewrite En in H; by apply elem_of_nil in H|].
      pose proof (resting_stage _ _ _ Hq Hi). destruct st; try discriminate; by apply elem_of_nil in H.
    + pose proof (resting_stage _ _ _ Hq Hi). by destruct st.
Qed.

(** C11. The tasks of the active turn have different ids, none is cancelled or
    aborted, and each is run by a thread that has not finished. Where starts do
    not overlap there is at most one, and a task that is about to be added finds
    none: what the code asserts in its debug builds. *)
Theorem tasks_of_a_turn P w :
  rtc (session_step P) session_initial w →
  let l := active_tasks (world_session w) in
  NoDup (task_id <$> l) ∧
  (∀ t, t ∈ l → (running_thread t ∉ cancelled (world_session w) ∪ aborted (world_session w)) ∧
    ∃ st, threads w !! running_thread t = Some st ∧ stage_role st = Unfinished (task_id t)) ∧
  ((∀ w e, P w e → starts_apart w e) → length l ≤ 1 ∧ ∀ i t, threads w !! i = Some (AddTask t) → l = []).
Proof.
  intros Hr l. pose proof (reachable_turns_wf _ _ Hr) as Hwf. split_and!; [by apply active_ids| |].
  - intros t Ht. split; [|by apply (wf_unfinished _ Hwf)]. apply (wf_going _ Hwf). apply elem_of_app. by left.
  - intros HP. destruct (reachable_one _ _ HP Hr) as [Hpast Hone]. split; [exact Hone|]. intros i t Hi. by apply (Hpast i _ Hi).
Qed.
End claims.

(** * Witnesses *)

Definition calmly (w : unit_world) (e : unit_event) : bool :=
  bool_decide (starters w ≤ 1) &&
  match e with
  | Moves i _ =>
      match threads w !! i, active_turn (world_session w) with Some (TakeActive _ _), Some _ => false | _, _ => true end
  | Drops _ => false
  | _ => true
  end.
Definition finishing (w : unit_world) (e : unit_event) : bool :=
  match e with
  | Drops i => match threads w !! i with Some (FinishTake _ _ | FinishRecord _ _ _ | Complete _ _ | Schedule) => false | _ => true end
  | _ => true
  end.
Lemma calmly_calm w e : calmly w e = true → calm w e.
Proof.
  unfold calmly, calm, starts_apart, finishes. intros [H1%bool_decide_eq_true H2]%andb_true_iff. split_and!; [done|by intros i st ->|].
  intros i c reason k -> Hi. rewrite Hi in H2. by destruct (active_turn (world_session w)).
Qed.
Lemma finishing_finishes w e : finishing w e = true → finishes w e.
Proof. unfold finishing, finishes. intros H i st -> Hi. rewrite Hi in H. by destruct st. Qed.
(** Input is steered, and mail that starts no turn arrives when the turn is over. *)
Definition quiet_mail : InterAgentCommunication :=
  {| author := root; recipient := root; other_recipients := []; mail_content := lit "q"; trigger_turn := false |}.
Definition calm_run : list unit_event :=
  started_a ++ moves 1 3 ++ [Steers [TextInput (lit "more")] (Some (lit "a"))] ++ moves 1 15 ++
  [Submits (OpInterAgentCommunication (lit "q") quiet_mail)] ++ moves 1 6 ++ moves 2 2.
(** The turn is interrupted, and its task dropped. *)
Definition interrupted_run : list unit_event := started_a ++ moves 1 6 ++ [Submits OpInterrupt] ++ moves 0 4 ++ [Drops 1] ++ moves 0 4.
Lemma ends_at P allowed es (Q : unit_world → Prop) :
  (∀ w e, allowed w e = true → P w e) → match run_allowed mail_json no_image allowed es session_initial with Some w => Q w | None => False end →
  ∃ w, rtc (session_step mail_json no_image P) session_initial w ∧ Q w.
Proof.
  intros HP. destruct (run_allowed _ _ _ _ _) as [w|] eqn:E; [|done]. intros H. exists w. split; [|done]. by eapply run_events_reaches.
Qed.

Lemma accepted_input_is_handled_witness : ∃ w : unit_world,
  rtc (session_step mail_json no_image calm) session_initial w ∧
  (quiescent w = true ∧ recorded (log (world_session w)) = [of_user_input no_image [TextInput (lit "more")]] ∧ mails (world_session w) = [quiet_mail]) ∧
  accepted (log (world_session w)) ≡ₚ
    map (to_response_input_item mail_json) (mails (world_session w)) ++ recorded (log (world_session w)) ++ blocked (log (world_session w)).
Proof.
  destruct (ends_at calm calmly calm_run (λ w, quiescent w = true ∧ recorded (log (world_session w)) = [of_user_input no_image [TextInput (lit "more")]] ∧
    mails (world_session w) = [quiet_mail])) as (w & Hr & HQ); [exact calmly_calm|vm_compute; auto|].
  exists w. split; [exact Hr|]. split; [exact HQ|].
  exact (proj2 (proj2 (accepted_input_is_handled mail_json no_image calm w Hr) (λ _ _ h, h) (proj1 HQ))).
Defined.
Lemma quiescent_session_witness : ∃ w : unit_world,
  (quiescent w = true ∧ lit "a" ∈ started (log (world_session w)) ∧ threads w = [Idle; Dropped]) ∧
  (TurnComplete (lit "a") ∈ turn_events (world_session w) ∨ ∃ reason, TurnAborted (lit "a") reason ∈ turn_events (world_session w)).
Proof.
  destruct (ends_at finishes finishing interrupted_run (λ w, quiescent w = true ∧ lit "a" ∈ started (log (world_session w)) ∧ threads w = [Idle; Dropped]))
    as (w & Hr & HQ); [exact finishing_finishes|vm_compute; split; [done|split; [by left|done]]|].
  exists w. split; [exact HQ|].
  exact (proj2 (proj2 (proj2 (proj2 (quiescent_session mail_json no_image finishes w Hr (λ _ _ h, h))) (proj1 HQ))) _ (proj1 (proj2 HQ))).
Defined.
Lemma calmly_apart w e : calmly w e = true → starts_apart w e.
Proof. intros H. by apply calmly_calm in H as [H _]. Qed.
Lemma tasks_of_a_turn_witness : ∃ w : unit_world,
  task_id <$> active_tasks (world_session w) = [lit "a"] ∧ NoDup (task_id <$> active_tasks (world_session w)) ∧ length (active_tasks (world_session w)) ≤ 1.
Proof.
  destruct (ends_at starts_apart calmly started_a (λ w, task_id <$> active_tasks (world_session w) = [lit "a"])) as (w & Hr & HQ); [exact calmly_apart|by vm_compute|].
  exists w. split; [exact HQ|].
  destruct (tasks_of_a_turn mail_json no_image starts_apart w Hr) as (H1 & _ & H3). split; [exact H1|]. by destruct (H3 (λ _ _ h, h)).
Defined.
